(* ===== verification/_CoqProject ===== *)
-Q . S2P
Prelude.v
TokenPatterns.v
JsString.v
OrderedMap.v
Unicode.v
Utf8.v
RepositoryPath.v
Identifiers.v
JsValue.v
Fingerprint.v
ActivationAlgebra.v
ActivationLaws.v
GlobDialects.v
ProfileGlob.v
GlobLaws.v
GlobActivation.v
BoundedOutput.v
OutputSanitization.v
ObjectGraph.v
CommandLexer.v
CommandLexerLaws.v
Json.v
DiagnosticBaseline.v
DiagnosticBaselineLaws.v
ImportDag.v
ImportDagLaws.v
JsonText.v
CanonicalDigest.v
CanonicalDigestLaws.v
EffectiveContextCache.v
EffectiveContextCacheLaws.v
ResolutionTrace.v
TraceQueries.v
TraceReading.v
TraceDrafts.v
TraceLaws.v
TraceDigest.v
TraceQueryLaws.v
TraceServices.v
TraceExamples.v
TargetSampler.v
TargetCoverageLaws.v
TargetReading.v
TargetSamplerLaws.v
TargetExamples.v
UtcTime.v
TufText.v
TufTextLaws.v
JsonParse.v
JsonParseLaws.v
TufMetadata.v
TufTrust.v
TufLaws.v
TufBounds.v
TufHistory.v
TufExamples.v
RuleDiagnostics.v
RuleDiagnosticsLaws.v
RuleScheduler.v
RuleSchedulerLaws.v
BoundedResolution.v
BoundedRunLaws.v
BoundedResolutionLaws.v
BoundedExamples.v
IgnorePattern.v
IgnoreMatch.v
IgnoreOptions.v
IgnoreEngine.v
IgnoreMatchLaws.v
IgnoreCost.v
IgnoreEngineLaws.v
IgnoreDecisions.v
IgnoreErrors.v
