(* ===== verification/Prelude.v ===== *)
(** A verification library for agent-context-lint, a linter of the instruction
    files coding agents read (AGENTS.md, CLAUDE.md, .cursor/rules, ...).  All
    source paths below are under [src/packages/].

    * The program

    A scan enumerates the files of a repository and leaves aside the ignored
    ones (evidence/ignore-engine), discovers instruction files, parses them, decides by client profile
    which of them are active for which target (core/repository-path,
    resolver/activation-algebra, resolver/profile-glob-dialects), follows their
    imports (resolver/document-import-dag), resolves the contexts of many targets
    at once (resolver/bounded-resolution), remembers them
    (resolver/effective-context-cache), runs the rule families
    (rules/rule-scheduler), and reports diagnostics with stable identities
    (core/diagnostic-fingerprint), which a stored baseline may hide
    (core/diagnostic-baseline).  Output is sanitized
    (core/output-sanitization) and written within limits (cli/bounded-output).
    The development models this core: what a path is, when a rule applies, what
    a glob means, which document an import leads to, when a remembered context
    may be reused, in which order rules run and why it does not matter, when two
    diagnostics are the same, what may be hidden, what reaches the terminal, and
    how commands quoted in instructions (evidence/command-lexer) are read.  The
    knowledge the rules consult comes in signed packs; the development also
    models the store that decides which of them to trust (standards/tuf-trust).

    * The files

    - Prelude: the error type [res] with its monad and loop rules, stable
      sorting, list lemmas, the tactics [res_inv] and [bool_prop], the hint
      database [s2].  TokenPatterns: patterns as sequences of tokens, the texts
      they spell, and the rows of the tables that decide it, shared by the two
      matchers of the program.  JsString, Unicode, JsValue: the language's strings as
      lists of 16-bit units, their order, UTF-8, decimal numerals,
      length-prefixed framing, the fatal UTF-8 decoder (Utf8), untrusted values ([jsval]), and SHA-256 as the
      class [Sha256], of which only the format of the digest is used.
      OrderedMap: the language's [Map] with string keys, in insertion order.
      ObjectGraph: values as a module sees them when their shape matters,
      references into a heap of objects with property descriptors, prototypes,
      proxies and internal slots, and frozen plain data.  JsonText:
      [JSON.stringify] on such data, the order in which it enumerates keys, and
      that its text determines the data.
    - RepositoryPath (core/src/repository-path.ts): validation, canonicalization
      and conversion of paths.  Node's posix path functions are modelled; the
      win32 ones are arguments.
    - Identifiers: the identifier and digest regular expressions shared by the
      validators, with their grammar.
    - Fingerprint (core/src/diagnostic-fingerprint.ts): the framed message of
      both fingerprints and its digest.
    - ActivationAlgebra (resolver/src/activation-algebra.ts): every function of
      the module on untrusted values, with the callbacks as functions of the
      request that may throw.  ActivationLaws: its theorems.
    - GlobDialects (profiles/src/glob-dialects.ts), ProfileGlob
      (resolver/src/profile-glob-dialects.ts): the dialects and the matcher,
      with its work budget as explicit state.  GlobLaws: the declarative meaning
      of a pattern and the theorems.  GlobActivation: the class [GlobMatcher],
      which the algebra's theorem about rules is proved against and which the
      matcher implements.
    - BoundedOutput (cli/src/bounded-output.ts): the chunks of a document and
      the serial writes to a sink.
    - OutputSanitization (core/src/output-sanitization.ts): inert controls,
      redaction by the module's regular expressions on a small backtracking
      matcher, SARIF URIs, sanitized trees.  Json: [JSON.stringify] on trees of
      strings, and that its text determines the tree.
    - CommandLexer (evidence/src/command-lexer.ts): the checks of input and
      options, the scan with its state, dialect inference and invocations;
      lower-casing is an argument.  CommandLexerLaws: its theorems.
    - DiagnosticBaseline (core/src/diagnostic-baseline.ts): identities,
      generation and comparison; the validators it calls are the class
      [BaselineHost].  DiagnosticBaselineLaws: its theorems and a concrete run.
    - ImportDag (resolver/src/document-import-dag.ts): the validator of a graph
      and the builders; the event trace is the class [TraceService], the registry
      of issued snapshots an argument.  ImportDagLaws: its theorems.
    - ResolutionTrace, TraceQueries (resolver/src/resolution-event-trace.ts):
      the records of a session and their normalization, in a monad of the
      validation budget; serialization, digest, synthetic traces, the selection
      of rules and the setting in force.  TraceReading relates code that spends a
      budget to the value it reads, the condition it checks and what it costs;
      TraceDrafts does so for every record of a trace.  TraceLaws, TraceDigest,
      TraceQueryLaws: the theorems.  TraceServices: the callbacks of the
      activation algebra and the instance of [TraceService], with what they give
      their clients.  TraceExamples: concrete sessions.
    - CanonicalDigest, EffectiveContextCache
      (resolver/src/effective-context-cache.ts): the limits, the canonical
      traversal of an object graph and its framed message; the validation of a
      request, the content address, the closure of dependencies, and the cache
      as a state with one operation per method of its class.  What the process
      holds at a call (heap, issued objects, answers of signals) is a [World];
      the resolver of contexts and the configuration validator are the classes
      [EffectiveContextService] and [ConfigurationService].  CanonicalDigestLaws,
      EffectiveContextCacheLaws: their theorems.
    - RuleDiagnostics, RuleScheduler (rules/src/rule-scheduler.ts, and the
      lookup of rules/src/registry.ts): canonical JSON, orders, policies and
      the merging of fingerprint duplicates; options, the binding of the input
      to one snapshot, the levels of the dependency graph, the workers of a
      level as a transition function driven by the order in which they are
      resumed, and the composition.  Evaluators, snapshots, the diagnostic
      validator and the suppression finalizer are classes; clock and signals are
      an [Environment].  RuleDiagnosticsLaws, RuleSchedulerLaws: their theorems.
    - BoundedResolution (resolver/src/bounded-resolution.ts): options, task
      descriptors, the factory of tasks with the registries of the process
      ([Process]), the admission of a batch, the workers as a transition function
      on events (a worker goes on, an executor settles, the signal aborts, the
      timer fires), and the call.  Issued resolutions are the class
      [IssuedResolutions]; what an executor does is a function given to the call.
      BoundedRunLaws: the invariant of a run, the sequential reading of its tasks,
      and that fair turns end it.  BoundedResolutionLaws: admission, the
      registries and the call.  BoundedExamples: concrete runs.

    - IgnorePattern, IgnoreMatch, IgnoreOptions, IgnoreEngine
      (evidence/src/ignore-engine.ts, built-in-ignore-patterns.ts): the grammar
      of patterns and the rules compiled from them; the matchers, the winning
      rule and the excluding prefix, in a monad of the work budget and failure;
      the snapshots of untrusted options and enumerations; the collection of
      rules and the decisions.  The repository, the URL parser and the collation
      are the classes [ReadOnlyRepository], [UrlParser] and [Collation]; the clock
      and the signal are a [Process].  IgnoreMatchLaws (meaning of patterns, who
      wins), IgnoreCost (bounds of work), IgnoreEngineLaws (provenance),
      IgnoreDecisions, IgnoreErrors: their theorems.
    - TargetSampler (resolver/src/target-sampler.ts): the classification of
      source paths, the options and the clock (the sequence of its readings), the
      validation of the input, the partition of the sources by activation, the
      range of a root by binary search, and the selection.  Lower-casing is an
      argument.  TargetReading: what each loop reads, and that no reader depends
      on the arrangement of its value.  TargetCoverageLaws: the range, the groups
      and what is selected.  TargetSamplerLaws: partitions and the sampler as a
      whole.  TargetExamples: concrete repositories.
    - TufText, TufMetadata, TufTrust (standards/src/tuf-trust.ts): error codes,
      limits, paths, instants and versions; the copy of bytes, the scan before
      parsing, envelopes and the closed policy of every role; requests, bundles
      and the store with its three operations (the constructor [bootstrap],
      [verifyUpdate] and [snapshot]).  A store is the record [InternalState], an
      update a function from a store to a store or an error code.  The canonical
      encoding, the metadata model and the signatures of @tufjs are the class
      [TufModels].  UtcTime: the calendar of the language and canonical instants.
      JsonParse: [JSON.parse], its numbers rounded to doubles.  TufTextLaws
      (SemVer, instants), JsonParseLaws (the parser ends), TufLaws (the chain of
      trust), TufBounds (the scan bounds what is parsed), TufHistory (sequences
      of updates): their theorems.  TufExamples: a repository, its rotations and
      its refusals.

    * What the theorems show

    - Paths: the canonical test decides a declarative grammar; canonicalization
      lands in it, except for results that begin like a Windows drive; a path
      survives the conversion below an absolute root and back.
    - Activation: union, intersection, complement and difference compute strong
      Kleene logic on admissible operands, obey De Morgan's laws with their
      provenance, forget the order of operands, and return well-formed results
      for any input value; evaluating a rule means scope and trigger and
      includes and not excludes.
    - Globs: the dynamic-programming matcher agrees with the declarative
      meaning of a pattern unless its budget runs out; brace expansion
      terminates with exactly the choices of the pattern, within its bounds; a
      decision is justified by the dialect that owns the request; rules of
      globs therefore mean what their selectors mean.
    - Ignore rules: the matching tables decide the declarative meaning of a
      pattern within a bound of work linear in the pattern and in the path; a
      path is ignored exactly by the rule of highest precedence of its first
      prefix that does not stay, with the provenance of every rule; built-in
      directories cannot be re-included; tracked enumerations never depend on
      the repository and return when the budget is enough; a failing call throws
      only what it documents; UTF-8 decoding inverts encoding.  Two globstars in
      one pattern, escaped class members and escaped backslashes before a
      separator do not mean what the grammar says (IgnoreCost, IgnoreMatchLaws).
    - Identity: equal fingerprints describe the same diagnostic or exhibit two
      messages with one digest; the order and repetition of profiles and the
      order of components do not matter.
    - Baselines: a hidden diagnostic is a lint matched, uniquely, by an
      unexpired entry under the same engine and profiles; an entry is used at
      most once and is otherwise stale; a baseline hides the lints it was made
      from; the comparison answers for every diagnostic.
    - Output: chunks are well formed, bounded and concatenate to the document;
      an appending sink receives exactly the document and a failing one a
      prefix; sanitized texts are inert; sanitized trees lose no entry; SARIF
      URIs and canonical paths correspond one to one.
    - Commands: lexing always ends, loses no text, respects its limits, and its
      invocations follow the tokens; a range may end one unit after the text.
    - Imports: a returned DAG is well formed, has one document per node and one
      occurrence per edge in order, and its occurrence identifiers bind their
      fields; the import-free builder is the builder on one node.
    - Event traces: normalization accepts exactly the drafts that are valid and
      within the limits and puts their sets in order, so neither the order of
      sets nor a second normalization changes a trace; the digest binds the
      trace; a synthetic trace is a closed function of its input; a setting is
      that of the last event that assigns it; a rule is activated only by certain
      evidence for its complete descriptor and never deselected; an import DAG
      carries the identities and the digest of its trace.  A sequence of -0, the
      order of integer-like keys and overlong reasons are not as documented
      (TraceExamples).
    - Target sampling: every source is represented among the selected targets by
      its language and directory, its activation states (unless the messages of
      two partitions collide) and its workspace roots, and every target is
      selected for exactly the reasons of the criteria it represents; neither the order of any array nor that of any record of the
      input matters.  Names of inherited properties are taken for sources, and
      names beyond the surrogates are not counted (TargetExamples).
    - Trust: an update is accepted exactly when consecutive roots, each signed by
      its predecessor and itself, and metadata bound by its parents, signed,
      within policy and current lead to the target; every reachable store is
      consistent; no history of updates rolls a version back while the online
      authorities stay, and roots never go back at all; an accepted update cannot
      be replayed; one timestamp determines what is delivered, unless two documents
      delivered in one place differ and have one digest;
      the keys of all roles are different; versions compare by the precedence of
      SemVer; accepted metadata is bounded in depth and size.  Instants before
      the year 100 are refused (TufTextLaws).
    - Cache: a value has a canonical message exactly when it unfolds to finite
      plain data within the limits, and two values have one message exactly when
      their data has one encoding, which for well-formed texts and keys is to say
      the same data; keys with lone surrogates are not refused
      ([malformed_keys_share_a_message]); after any history of operations the cache is
      within its limits and accounts for its weight, eviction ends having dropped
      the oldest entries and no more than needed, and a resolution through the
      cache is the resolution without it, unless two messages share a digest.
    - Scheduling: a call settles under every fair order of its workers; two
      successful calls on one input agree on everything but their limits,
      whatever the order, seed, concurrency, clock and signal; a successful call
      ran every requested family once, after its dependencies.  An input that
      carries the fields of an issue is returned as one
      ([caller_record_is_returned]).  A canonical
      bundle stands for every diagnostic the policy leaves, does not depend on
      their order, and is refused when two groups of duplicates meet at one
      location; the summary counts every visible diagnostic once and fails
      exactly at the threshold; the registry's binary search finds every rule.
    - Bounded resolution: whatever its concurrency and the order of events, a call
      answers what running its tasks one after the other answers, or that it was
      cancelled or too late; it settles under fair turns; its result has the
      resolution of every task in the order of the tasks, not of the array; at
      every moment executors and retained bytes are within the limits; an issued
      task stays frozen and bound to its executor for good.

    SHA-256 is the class [Sha256], any function to digests of 32 bytes.  Where a
    theorem depends on it, its conclusion names the two messages that would have
    to collide, which are computed from its inputs ([collide]).

    * Representation and bounds

    Numbers of the source are exact here: lengths, counts and budgets are [N] or
    [nat] and stay far below 2^53, because every loop is cut by the limits the
    source declares, which are modelled with their values; the one count that
    starts from an untrusted number is rounded as the language does
    ([add_count]).  Exceptions are the
    [Err] side of [res], with the module's error codes; optional results are
    [option].  Loops run over lists; the few that are not structural carry fuel
    with a theorem that it suffices: brace expansion (rounds bounded by the
    pattern, [braceExpansion_choices]), the search for a free key, which needs
    at most one candidate more than there are keys ([freshKey_fresh]), the
    loops of the command lexer, bounded by the length of the text
    ([lexer_terminates]), the canonical traversal, bounded by its node limit
    ([canonicalMessage_spec]), eviction, one round per entry
    ([publish_evicts_oldest]), the parser of JSON, whose fuel is twice the length
    of the text and one more ([JSON_parse_total]), the levels of the dependency graph, one round per
    family ([levelsOf_complete]), and the binary searches ([findRuleMetadata_spec],
    [searchFrom_spec]).
    The workers of a level run along a list of resumptions; a list of seven
    rounds per family is enough ([schedule_settles]).  A bounded resolution runs
    along a list of events; four rounds of turns per task are enough
    ([bounded_resolution_settles]).

    * What is not modelled, and what is next

    Freezing of results; in the older components proxies and accessors (one
    constructor, [JExotic], stands for every object the boundaries refuse);
    registries of issued results; the paths and messages of the issues of the
    trust store; files, processes and the network.  Parsers built on third-party
    Markdown and YAML libraries, the rules (heuristics over texts) and the
    formatters are left aside.  The plan, in order: the instruction IR and its snapshots (which
    will discharge [InstructionIrValidator]), the JSON and diagnostic validators (which
    will discharge part of [BaselineHost] and [DiagnosticValidator]), the
    knowledge packs and the lockfile of the standards package, the assembly of effective contexts
    and the efficiency score. *)
From Stdlib Require Export NArith ZArith Lia Permutation Sorted.
From stdpp Require Export base list numbers sorting gmap.

#[global] Set Default Goal Selector "!".

(** ** Results: code that throws *)

(** A call that returns [a] or throws an error whose machine-readable code is
    [e].  Error messages are not part of the model. *)
Inductive res (E A : Type) : Type :=
| Ok (a : A)
| Err (e : E).
Arguments Ok {E A} a.
Arguments Err {E A} e.

#[export] Instance res_mret {E} : MRet (res E) := fun _ a => Ok a.
#[export] Instance res_mbind {E} : MBind (res E) := fun A B f m =>
  match m with Ok a => f a | Err e => Err e end.
#[export] Instance res_fmap {E} : FMap (res E) := fun A B f m =>
  match m with Ok a => Ok (f a) | Err e => Err e end.

Lemma Ok_inj {E A} {a b : A} : @Ok E A a = Ok b -> a = b.
Proof. by intros [=]. Qed.

Lemma fmap_Ok {E A B} (f : A -> B) (m : res E A) b : f <$> m = Ok b -> exists a, m = Ok a /\ b = f a.
Proof. destruct m as [a|]; [|done]. intros [= <-]. by exists a. Qed.

Definition is_ok {E A} (m : res E A) : bool :=
  match m with Ok _ => true | Err _ => false end.

(** [if (!b) fail(e)] *)
Definition ensure {E} (b : bool) (e : E) : res E unit :=
  if b then Ok tt else Err e.

(** A loop whose body may throw, over the items in order. *)
Fixpoint foldM {E A B} (f : A -> B -> res E A) (acc : A) (l : list B) : res E A :=
  match l with
  | [] => Ok acc
  | x :: r => acc' ← f acc x; foldM f acc' r
  end.

Fixpoint rmapM {E A B} (f : A -> res E B) (l : list A) : res E (list B) :=
  match l with
  | [] => Ok []
  | x :: r => y ← f x; ys ← rmapM f r; Ok (y :: ys)
  end.

Section res_lemmas.
Context {E : Type}.

Lemma bind_Ok {A B} (m : res E A) (f : A -> res E B) b :
  m ≫= f = Ok b <-> exists a, m = Ok a /\ f a = Ok b.
Proof.
  destruct m; simpl; split; [eauto|by intros (? & [= <-] & ?)|done|by intros (? & ? & ?)].
Qed.

Lemma bind_Err {A B} (m : res E A) (f : A -> res E B) e :
  m ≫= f = Err e <-> m = Err e \/ exists a, m = Ok a /\ f a = Err e.
Proof.
  destruct m as [a|e']; simpl; split.
  - intros ?. right. by exists a.
  - by intros [[=]|(? & [= <-] & ?)].
  - intros [= ->]. by left.
  - intros [[= ->]|(? & ? & ?)]; done.
Qed.

(** A computed check of a successful result. *)
Lemma ok_of {A} (m : res E A) (P : A -> Prop) :
  match m with Ok a => P a | Err _ => False end -> exists a, m = Ok a /\ P a.
Proof. destruct m; [eauto|done]. Qed.

Lemma ensure_Ok (b : bool) (e : E) u : ensure b e = Ok u <-> b = true.
Proof. by destruct b, u. Qed.

Lemma ensure_Err (b : bool) (e e' : E) : ensure b e = Err e' <-> b = false /\ e = e'.
Proof. destruct b; simpl; split; [done|by intros [? _]|by intros [= ->]|by intros [_ ->]]. Qed.

Lemma bind_ensure {A} (b : bool) (e : E) (f : unit -> res E A) a :
  ensure b e ≫= f = Ok a <-> b = true /\ f tt = Ok a.
Proof. destruct b; simpl; split; [auto|by intros [_ ?]|done|by intros [? _]]. Qed.

Lemma foldM_app {A B} (f : A -> B -> res E A) acc l1 l2 :
  foldM f acc (l1 ++ l2) = foldM f acc l1 ≫= fun a => foldM f a l2.
Proof. revert acc; induction l1 as [|x l1 IH]; intros acc; simpl; [done|].
  destruct (f acc x); simpl; auto. Qed.

(** The loop invariant rule. *)
Lemma foldM_inv {A B} (P : list B -> A -> Prop) (f : A -> B -> res E A) l acc r :
  foldM f acc l = Ok r ->
  P [] acc ->
  (forall done_ x a a', P done_ a -> x ∈ l -> f a x = Ok a' -> P (done_ ++ [x]) a') ->
  P l r.
Proof.
  intros Hf H0 Hstep.
  enough (forall todo done_ a, done_ ++ todo = l -> P done_ a ->
          foldM f a todo = Ok r -> P l r) as Hgen by (by apply (Hgen l [] acc)).
  induction todo as [|x todo IH]; intros done_ a Hl HP Hr; simpl in Hr.
  - rewrite app_nil_r in Hl. simplify_eq. done.
  - apply bind_Ok in Hr as (a' & Ha & Hr).
    apply (IH (done_ ++ [x]) a'); [by rewrite <- app_assoc| |done].
    apply (Hstep _ _ a); [done| |done]. subst l. set_solver.
Qed.

Lemma rmapM_Ok {A B} (f : A -> res E B) l ys :
  rmapM f l = Ok ys <-> Forall2 (fun x y => f x = Ok y) l ys.
Proof.
  revert ys; induction l as [|x l IH]; intros ys; simpl.
  - split; [intros [= <-]; constructor | by inversion 1].
  - rewrite bind_Ok. setoid_rewrite bind_Ok. setoid_rewrite IH. split.
    + intros (y & Hy & zs & Hzs & [= <-]). by constructor.
    + inversion 1; subst. eauto 8.
Qed.

Lemma rmapM_length {A B} (f : A -> res E B) l ys :
  rmapM f l = Ok ys -> length ys = length l.
Proof. rewrite rmapM_Ok. intros H. symmetry. by eapply Forall2_length. Qed.
End res_lemmas.

(** Inverts a successful chain of binds and guards. *)
Ltac res_inv :=
  repeat match goal with
  | H : Ok _ = Ok _ |- _ => injection H as H
  | H : Err _ = Ok _ |- _ => discriminate H
  | H : Ok _ = Err _ |- _ => discriminate H
  | H : Err _ = Err _ |- _ => injection H as H
  | H : mret _ = Ok _ |- _ => injection H as H
  | H : _ ≫= _ = Ok _ |- _ =>
      let x := fresh "v" in let H' := fresh "Hv" in
      apply bind_Ok in H as (x & H' & H); cbv beta in H
  | H : ensure _ _ = Ok _ |- _ => apply ensure_Ok in H
  | H : unit |- _ => destruct H
  end.

Create HintDb s2 discriminated.

(** ** Booleans *)

Ltac bool_prop :=
  repeat match goal with
  | H : _ && _ = true |- _ => apply andb_true_iff in H as [? ?]
  | H : _ || _ = false |- _ => apply orb_false_iff in H as [? ?]
  | H : negb _ = true |- _ => apply negb_true_iff in H
  | H : negb _ = false |- _ => apply negb_false_iff in H
  | H : bool_decide _ = true |- _ => apply bool_decide_eq_true in H
  | H : bool_decide _ = false |- _ => apply bool_decide_eq_false in H
  | H : N.leb _ _ = true |- _ => apply N.leb_le in H
  | H : N.leb _ _ = false |- _ => apply N.leb_gt in H
  | H : N.ltb _ _ = true |- _ => apply N.ltb_lt in H
  | H : N.ltb _ _ = false |- _ => apply N.ltb_ge in H
  | H : N.eqb _ _ = true |- _ => apply N.eqb_eq in H
  | H : N.eqb _ _ = false |- _ => apply N.eqb_neq in H
  end.

(** ** Stable sorting with a boolean order

    [Array.prototype.sort] is stable, so with a total preorder its result is
    determined; insertion in front of the first greater-or-equal element
    computes the same list. *)
Section sort_by.
Context {A : Type} (le : A -> A -> bool).

Fixpoint insert_by (x : A) (l : list A) : list A :=
  match l with
  | [] => [x]
  | y :: r => if le x y then x :: y :: r else y :: insert_by x r
  end.

Definition sort_by (l : list A) : list A := foldr insert_by [] l.

Lemma insert_by_perm x l : insert_by x l ≡ₚ x :: l.
Proof. induction l as [|y l IH]; simpl; [done|]. destruct (le x y); [done|].
  rewrite IH. apply Permutation_swap. Qed.

Lemma sort_by_perm l : sort_by l ≡ₚ l.
Proof. induction l as [|x l IH]; simpl; [done|]. by rewrite insert_by_perm, IH. Qed.

Lemma elem_of_sort_by x l : x ∈ sort_by l <-> x ∈ l.
Proof. by rewrite sort_by_perm. Qed.

Lemma sort_by_length l : length (sort_by l) = length l.
Proof. by rewrite sort_by_perm. Qed.

Definition le_prop (x y : A) : Prop := le x y = true.

Hypothesis le_trans : forall x y z, le x y = true -> le y z = true -> le x z = true.
Hypothesis le_total : forall x y, le x y = true \/ le y x = true.

Lemma insert_by_sorted x l :
  StronglySorted le_prop l -> StronglySorted le_prop (insert_by x l).
Proof.
  induction 1 as [|y l Hs IH Hy]; simpl; [repeat constructor|].
  destruct (le x y) eqn:Exy.
  - repeat constructor; [done|done|done|].
    eapply Forall_impl; [done|]. intros z Hz. by eapply le_trans.
  - constructor; [done|]. rewrite insert_by_perm. constructor; [|done].
    destruct (le_total x y); [congruence|done].
Qed.

Lemma sort_by_sorted l : StronglySorted le_prop (sort_by l).
Proof. induction l; simpl; [constructor|by apply insert_by_sorted]. Qed.

(** On lists where the order is antisymmetric, sorting is canonical: it
    forgets the input's order. *)
Lemma sorted_perm_eq l1 l2 :
  (forall x y, x ∈ l1 -> y ∈ l1 -> le x y = true -> le y x = true -> x = y) ->
  StronglySorted le_prop l1 -> StronglySorted le_prop l2 -> l1 ≡ₚ l2 -> l1 = l2.
Proof.
  intros Hanti Hs1. revert l2. induction Hs1 as [|x l1 Hs1 IH Hx]; intros l2 Hs2 Hp.
  { symmetry in Hp. by apply Permutation_nil_r in Hp. }
  destruct l2 as [|y l2]; [by apply Permutation_nil_r in Hp|].
  inversion Hs2 as [|? ? Hs2' Hy]; subst.
  assert (x = y) as <-.
  { assert (Hy1 : y ∈ x :: l1) by (rewrite Hp; set_solver).
    assert (Hx2 : x ∈ y :: l2) by (rewrite <- Hp; set_solver).
    rewrite Forall_forall in Hx, Hy.
    apply elem_of_cons in Hy1 as [->|Hy1]; [done|].
    apply elem_of_cons in Hx2 as [->|Hx2]; [done|].
    apply Hanti; [set_solver|set_solver|by apply Hx|by apply Hy]. }
  f_equal. apply IH; [|done|by eapply Permutation_cons_inv].
  intros a b Ha Hb. apply Hanti; set_solver.
Qed.

Lemma sort_by_canonical l1 l2 :
  (forall x y, x ∈ l1 -> y ∈ l1 -> le x y = true -> le y x = true -> x = y) ->
  l1 ≡ₚ l2 -> sort_by l1 = sort_by l2.
Proof.
  intros Hanti Hp. apply sorted_perm_eq; [|apply sort_by_sorted..|].
  - intros x y. rewrite !elem_of_sort_by. auto.
  - by rewrite !sort_by_perm.
Qed.

Lemma sort_by_sorted_id l :
  StronglySorted le_prop l ->
  (forall x y, x ∈ l -> y ∈ l -> le x y = true -> le y x = true -> x = y) ->
  sort_by l = l.
Proof. intros Hs Ha. symmetry. apply sorted_perm_eq; [done|done|apply sort_by_sorted|].
  by rewrite sort_by_perm. Qed.
End sort_by.

(** Sorting commutes with functions that keep the order. *)
Lemma sort_by_map {A B} (le : A -> A -> bool) (le' : B -> B -> bool) (f : A -> B) l :
  (forall x y, le' (f x) (f y) = le x y) -> map f (sort_by le l) = sort_by le' (map f l).
Proof.
  intros H. unfold sort_by. induction l as [|x l IH]; cbn; [done|]. rewrite <- IH.
  generalize (foldr (insert_by le) [] l) as k. clear IH.
  induction k as [|y k IH]; cbn; [done|]. rewrite H. destruct (le x y); cbn; [done|]. by rewrite IH.
Qed.

Lemma mapM_sort_by {A B} (le : A -> A -> bool) (le' : B -> B -> bool) (f : A -> option B) l ys :
  (forall x y x' y', f x = Some y -> f x' = Some y' -> le' y y' = le x x') ->
  mapM f (sort_by le l) = Some ys <-> exists zs, mapM f l = Some zs /\ ys = sort_by le' zs.
Proof.
  intros H.
  assert (forall x y k ks, f x = Some y -> mapM f k = Some ks ->
            mapM f (insert_by le x k) = Some (insert_by le' y ks)) as Hins.
  { intros x y k ks Hx. revert ks. induction k as [|z k IH]; intros ks Hk; cbn in *.
    - injection Hk as <-. cbn. by rewrite Hx.
    - apply bind_Some in Hk as (z' & Hz & Hk). apply bind_Some in Hk as (ks' & Hk & [= <-]). cbn.
      rewrite (H _ _ _ _ Hx Hz). destruct (le x z); cbn; rewrite Hz; cbn.
      + rewrite Hk. cbn. by rewrite Hx.
      + by rewrite (IH ks' Hk). }
  assert (forall k zs, mapM f k = Some zs -> mapM f (sort_by le k) = Some (sort_by le' zs)) as Hsort.
  { induction k as [|x k IH]; intros zs Hk; cbn in Hk; [by injection Hk as <-|].
    apply bind_Some in Hk as (y & Hy & Hk). apply bind_Some in Hk as (ys' & Hk & [= <-]). cbn. by apply Hins, IH. }
  split; [|intros (zs & Hz & ->); by apply Hsort].
  intros Hy. assert (is_Some (mapM f l)) as [zs Hz].
  { apply mapM_is_Some_2. rewrite <- (sort_by_perm le l). apply mapM_is_Some_1. by exists ys. }
  exists zs. split; [done|]. apply Hsort in Hz. congruence.
Qed.

(** ** Lists *)

Lemma mjoin_cons {A} (x : list A) l : mjoin (x :: l) = x ++ mjoin l.
Proof. done. Qed.

Lemma existsb_elem {A} (f : A -> bool) l :
  existsb f l = true <-> exists x, x ∈ l /\ f x = true.
Proof. rewrite existsb_exists. setoid_rewrite list_elem_of_In. done. Qed.

Lemma forallb_elem {A} (f : A -> bool) l :
  forallb f l = true <-> forall x, x ∈ l -> f x = true.
Proof. rewrite forallb_forall. setoid_rewrite list_elem_of_In. done. Qed.

Lemma existsb_perm {A} (f : A -> bool) l l' : l ≡ₚ l' -> existsb f l = existsb f l'.
Proof. intros H. apply eq_true_iff_eq. rewrite !existsb_elem. by setoid_rewrite H. Qed.

(** [Number.MAX_SAFE_INTEGER] *)
Definition MAX_SAFE_INTEGER : Z := 9007199254740991.

(** A sum of sizes. *)
Definition sumN {A} (f : A -> N) (l : list A) : N := foldr (fun x n => f x + n)%N 0%N l.

Lemma sumN_app {A} (f : A -> N) l1 l2 : (sumN f (l1 ++ l2) = sumN f l1 + sumN f l2)%N.
Proof. induction l1 as [|x l1 IH]; simpl; [done|]. unfold sumN in *. simpl. lia. Qed.

Lemma sumN_perm {A} (f : A -> N) l1 l2 : l1 ≡ₚ l2 -> sumN f l1 = sumN f l2.
Proof. induction 1; unfold sumN in *; simpl in *; lia. Qed.

Lemma sumN_elem {A} (f : A -> N) x l : x ∈ l -> (f x <= sumN f l)%N.
Proof. induction 1; unfold sumN in *; simpl; lia. Qed.

Lemma sumN_submseteq {A} (f : A -> N) l k : l ⊆+ k -> (sumN f l <= sumN f k)%N.
Proof.
  intros [k' Hk]%submseteq_Permutation. rewrite (sumN_perm f k _ Hk), sumN_app. lia.
Qed.
