(* ===== verification/TokenPatterns.v ===== *)
(** Patterns that are sequences of tokens, the texts they spell, and the rows of
    the dynamic-programming tables the matchers of the program fill in. *)
From S2P Require Import Prelude.

(** ** Patterns as sequences of token classes

    A token takes any number of letters of a set, or exactly one. *)
Inductive token_class (A : Type) :=
| many (Q : A -> Prop)
| one (Q : A -> Prop).
Arguments many {A} Q.
Arguments one {A} Q.

Section generic.
Context {A : Type}.
Implicit Types (c : token_class A) (cs : list (token_class A)) (v part pre : list A).

Definition accepts c part : Prop :=
  match c with many Q => Forall Q part | one Q => exists y, part = [y] /\ Q y end.

(** The text splits into one part per token. *)
Definition spells cs v : Prop := exists parts, Forall2 accepts cs parts /\ v = mjoin parts.

Lemma spells_nil v : spells [] v <-> v = [].
Proof. split.
  - by intros (parts & ->%Forall2_nil_inv_l & ->).
  - intros ->. exists []. by split; [constructor|].
Qed.

Lemma spells_snoc cs c v :
  spells (cs ++ [c]) v <-> exists v1 v2, v = v1 ++ v2 /\ spells cs v1 /\ accepts c v2.
Proof.
  split.
  - intros (parts & Hf & ->). apply Forall2_app_inv_l in Hf as (p1 & p2 & H1 & H2 & ->).
    apply Forall2_cons_inv_l in H2 as (q & p3 & Hq & ->%Forall2_nil_inv_l & ->).
    exists (mjoin p1), q. rewrite join_app, mjoin_cons. cbn. rewrite app_nil_r.
    split; [done|]. split; [by exists p1|done].
  - intros (v1 & v2 & -> & (parts & Hf & ->) & Hc). exists (parts ++ [v2]). split.
    + apply Forall2_app; [done|by repeat constructor].
    + rewrite join_app, mjoin_cons. cbn. by rewrite app_nil_r.
Qed.

Lemma spells_many_nil cs Q : spells (cs ++ [many Q]) [] <-> spells cs [].
Proof.
  rewrite spells_snoc. split.
  - by intros (v1 & v2 & [-> ->]%eq_sym%app_nil & H & _).
  - intros H. exists [], []. split; [done|]. split; [done|constructor].
Qed.

Lemma spells_many_snoc cs Q pre x :
  spells (cs ++ [many Q]) (pre ++ [x]) <->
  spells cs (pre ++ [x]) \/ (spells (cs ++ [many Q]) pre /\ Q x).
Proof.
  rewrite !spells_snoc. split.
  - intros (v1 & v2 & E & H & Hq). destruct v2 as [|y v2 _] using rev_ind.
    { rewrite app_nil_r in E. subst. by left. }
    rewrite app_assoc in E. apply app_inj_tail in E as [-> ->].
    cbn in Hq. apply Forall_app in Hq as [Hq Hy].
    rewrite Forall_singleton in Hy. right. split; [|done].
    exists v1, v2. by split; [|split].
  - intros [H|[(v1 & v2 & -> & H & Hq) Hx]].
    + exists (pre ++ [x]), []. rewrite app_nil_r. split; [done|]. split; [done|constructor].
    + exists v1, (v2 ++ [x]). rewrite <- app_assoc. split; [done|]. split; [done|].
      cbn. apply Forall_app. by split; [|apply Forall_singleton].
Qed.

Lemma spells_one_nil cs Q : ~ spells (cs ++ [one Q]) [].
Proof. rewrite spells_snoc. intros (v1 & v2 & E & _ & y & -> & _). by destruct v1. Qed.

Lemma spells_one_snoc cs Q pre x :
  spells (cs ++ [one Q]) (pre ++ [x]) <-> spells cs pre /\ Q x.
Proof.
  rewrite spells_snoc. split.
  - intros (v1 & v2 & E & H & y & -> & Hy). by apply app_inj_tail in E as [-> ->].
  - intros [H Hx]. exists pre, [x]. split; [done|]. split; [done|]. by exists x.
Qed.

(** A pattern whose classes accept more accepts more. *)
Lemma spells_mono cs cs' v :
  Forall2 (fun c c' => forall part, accepts c part -> accepts c' part) cs cs' ->
  spells cs v -> spells cs' v.
Proof.
  intros Hcs (parts & Hf & ->). exists parts. split; [|done].
  revert parts Hf. induction Hcs; intros parts Hf; inversion Hf; subst; constructor; auto.
Qed.

(** ** Rows of the dynamic-programming tables

    [cells] holds, for every non-empty prefix of [rest], whether [P] holds of
    [pre] followed by it. *)
Fixpoint cells_ok (P : list A -> Prop) (pre rest : list A) (cells : list bool) : Prop :=
  match rest, cells with
  | [], [] => True
  | x :: rest', b :: cells' => (b = true <-> P (pre ++ [x])) /\ cells_ok P (pre ++ [x]) rest' cells'
  | _, _ => False
  end.

(** A whole row: the first cell is about [pre] itself. *)
Definition row_ok (P : list A -> Prop) (pre rest : list A) (row : list bool) : Prop :=
  match row with
  | b :: cells => (b = true <-> P pre) /\ cells_ok P pre rest cells
  | [] => False
  end.

Lemma row_ok_last P pre rest row : row_ok P pre rest row ->
  default false (last row) = true <-> P (pre ++ rest).
Proof.
  revert pre row. induction rest as [|x rest IH]; intros pre [|b [|c cells]] H;
    try done; destruct H as [Hb Hc]; try done.
  - cbn. by rewrite app_nil_r.
  - cbn in Hc. rewrite cons_middle, app_assoc. exact (IH (pre ++ [x]) (c :: cells) Hc).
Qed.

Lemma cells_ok_none (P : list A -> Prop) pre rest :
  (forall v, v <> [] -> ~ P (pre ++ v)) -> cells_ok P pre rest (repeat false (length rest)).
Proof.
  revert pre. induction rest as [|x rest IH]; intros pre H; cbn; [done|]. split.
  - split; [done|]. intros HP. by destruct (H [x]).
  - apply IH. intros v Hv. rewrite <- app_assoc. by apply H.
Qed.

Lemma first_row_ok v : row_ok (spells []) [] v (true :: repeat false (length v)).
Proof.
  split; [by rewrite spells_nil|]. apply cells_ok_none. intros w Hw H%spells_nil. done.
Qed.
End generic.

(** A pattern of single letters spells one letter per token. *)
Lemma spells_ones {A} (cs : list (token_class A)) v :
  Forall2 (fun c x => exists Q, c = one Q /\ Q x) cs v -> spells cs v.
Proof.
  intros H. exists (map (fun x => [x]) v). split.
  - induction H as [|c x cs v (Q & -> & Hx) H IH]; constructor; [by exists x|done].
  - clear H. induction v as [|x v IH]; [done|]. cbn. by f_equal.
Qed.

Lemma spells_one_cons {A} (Q : A -> Prop) cs v :
  spells (one Q :: cs) v <-> exists x v', v = x :: v' /\ Q x /\ spells cs v'.
Proof.
  split.
  - intros (parts & Hf & ->). inversion Hf as [|? part ? parts' Hp Hps]; subst.
    destruct Hp as (x & -> & Hx). exists x, (mjoin parts'). split; [done|]. split; [done|]. by exists parts'.
  - intros (x & v' & -> & Hx & (parts & Hf & ->)). exists ([x] :: parts). split; [|done].
    constructor; [by exists x|done].
Qed.
