(* ===== verification/JsString.v ===== *)
(** JavaScript strings: sequences of UTF-16 code units, compared by [<] and
    [===] unit by unit, their well-formedness and their UTF-8 encoding as
    [Buffer.from(s, "utf8")] and [Buffer.byteLength] compute it. *)
From S2P Require Import Prelude.
From Stdlib Require String Ascii.
Export String.StringSyntax.

Abbreviation jstring := (list N).

(** The code units of an ASCII literal. *)
Definition js (s : String.string) : jstring :=
  map Ascii.N_of_ascii (String.list_ascii_of_string s).

Declare Scope js_scope.
Delimit Scope js_scope with js.
Delimit Scope string_scope with string.
Notation "'#' s" := (js s%string) (at level 1, s at level 0, format "'#' s") : js_scope.
#[global] Open Scope js_scope.

Definition jeqb (a b : jstring) : bool := bool_decide (a = b).

Lemma jeqb_eq a b : jeqb a b = true <-> a = b.
Proof. apply bool_decide_eq_true. Qed.
Lemma jeqb_refl a : jeqb a a = true.
Proof. by apply jeqb_eq. Qed.
Lemma jeqb_neq a b : jeqb a b = false <-> a <> b.
Proof. apply bool_decide_eq_false. Qed.

(** ** Ordering: the [<] of strings *)

Fixpoint jcompare (a b : jstring) : comparison :=
  match a, b with
  | [], [] => Eq
  | [], _ :: _ => Lt
  | _ :: _, [] => Gt
  | x :: a', y :: b' =>
      match N.compare x y with Eq => jcompare a' b' | c => c end
  end.

Definition jltb (a b : jstring) : bool :=
  match jcompare a b with Lt => true | _ => false end.
Definition jleb (a b : jstring) : bool :=
  match jcompare a b with Gt => false | _ => true end.

Lemma jcompare_eq a b : jcompare a b = Eq <-> a = b.
Proof.
  revert b; induction a as [|x a IH]; intros [|y b]; simpl; try naive_solver.
  destruct (N.compare_spec x y) as [->|?|?].
  - rewrite IH. naive_solver.
  - split; [done|]. intros [= -> _]. lia.
  - split; [done|]. intros [= -> _]. lia.
Qed.

Lemma jcompare_refl a : jcompare a a = Eq.
Proof. by apply jcompare_eq. Qed.

Lemma jcompare_antisym a b : jcompare b a = CompOpp (jcompare a b).
Proof.
  revert b; induction a as [|x a IH]; intros [|y b]; simpl; try done.
  rewrite (N.compare_antisym x y). destruct (N.compare x y); simpl; auto.
Qed.

Lemma jcompare_trans c a b d :
  jcompare a b = c -> jcompare b d = c -> jcompare a d = c.
Proof.
  revert b d; induction a as [|x a IH]; intros [|y b] [|z d]; simpl; try congruence.
  intros H1 H2.
  destruct (N.compare_spec x y) as [Hxy|Hxy|Hxy], (N.compare_spec y z) as [Hyz|Hyz|Hyz];
    destruct (N.compare_spec x z) as [Hxz|Hxz|Hxz]; subst; try lia; try congruence; eauto.
Qed.

Lemma jleb_refl a : jleb a a = true.
Proof. unfold jleb. by rewrite jcompare_refl. Qed.
Lemma jleb_total a b : jleb a b = true \/ jleb b a = true.
Proof. unfold jleb. rewrite (jcompare_antisym a b). destruct (jcompare a b); auto. Qed.
Lemma jleb_antisym a b : jleb a b = true -> jleb b a = true -> a = b.
Proof. unfold jleb. rewrite (jcompare_antisym a b).
  destruct (jcompare a b) eqn:E; try done. by apply jcompare_eq in E. Qed.
Lemma jleb_trans a b c : jleb a b = true -> jleb b c = true -> jleb a c = true.
Proof.
  unfold jleb. destruct (jcompare a b) eqn:E1; [apply jcompare_eq in E1 as ->; done| |done].
  destruct (jcompare b c) eqn:E2; [apply jcompare_eq in E2 as ->; by rewrite E1| |done].
  by rewrite (jcompare_trans Lt a b c E1 E2).
Qed.
Lemma jltb_leb a b : jltb a b = negb (jleb b a).
Proof. unfold jltb, jleb. rewrite (jcompare_antisym a b). by destruct (jcompare a b). Qed.
#[export] Hint Resolve jeqb_refl jleb_refl jleb_total : s2.
#[export] Hint Resolve <- jeqb_eq jeqb_neq : s2.

Lemma jleb_lt_or_eq a b : jleb a b = true <-> jltb a b = true \/ a = b.
Proof. unfold jleb, jltb. rewrite <- jcompare_eq. destruct (jcompare a b); naive_solver. Qed.
Lemma jltb_irrefl a : jltb a a = false.
Proof. unfold jltb. by rewrite jcompare_refl. Qed.
Lemma jltb_trans a b c : jltb a b = true -> jltb b c = true -> jltb a c = true.
Proof. unfold jltb. destruct (jcompare a b) eqn:E1, (jcompare b c) eqn:E2; try done.
  by rewrite (jcompare_trans Lt a b c E1 E2). Qed.

(** ** String methods *)

(** [s.startsWith(p)] *)
Fixpoint startsWith (s p : jstring) {struct p} : bool :=
  match p, s with
  | [], _ => true
  | x :: p', y :: s' => (x =? y)%N && startsWith s' p'
  | _ :: _, [] => false
  end.

Lemma startsWith_spec s p : startsWith s p = true <-> exists r, s = p ++ r.
Proof.
  revert s; induction p as [|x p IH]; intros s; simpl; [split; [by exists s|done]|].
  destruct s as [|y s]; [split; [done|intros [r [=]]]|].
  rewrite andb_true_iff, N.eqb_eq, IH. split.
  - intros [-> [r ->]]. by exists r.
  - intros [r [= -> ->]]. eauto.
Qed.

(** [s.includes(c)] for a one-unit string *)
Definition includes (s : jstring) (c : N) : bool := existsb (N.eqb c) s.

Lemma includes_false s c : includes s c = false <-> c ∉ s.
Proof.
  unfold includes. rewrite <- not_true_iff_false, existsb_elem.
  setoid_rewrite N.eqb_eq. naive_solver.
Qed.

(** [segments.join(sep)] for a one-unit separator *)
Fixpoint join (sep : N) (l : list jstring) : jstring :=
  match l with
  | [] => []
  | [x] => x
  | x :: r => x ++ sep :: join sep r
  end.

(** [s.split(c)] for a one-unit separator: never empty. *)
Fixpoint split_on (c : N) (s : jstring) : list jstring :=
  match s with
  | [] => [[]]
  | x :: s' =>
      if (x =? c)%N then [] :: split_on c s'
      else match split_on c s' with
           | seg :: rest => (x :: seg) :: rest
           | [] => [[x]]
           end
  end.

Lemma split_on_nonempty c s : split_on c s <> [].
Proof. destruct s as [|x s]; simpl; [done|]. destruct (x =? c)%N; [done|].
  by destruct (split_on c s). Qed.

Lemma join_split_on c s : join c (split_on c s) = s.
Proof.
  induction s as [|x s IH]; [done|]. cbn [split_on].
  destruct (N.eqb_spec x c) as [->|Hn].
  - destruct (split_on c s) eqn:E; [by apply split_on_nonempty in E|].
    cbn [join] in *. by rewrite IH.
  - destruct (split_on c s) as [|seg [|seg' rest]] eqn:E; [by apply split_on_nonempty in E|..];
      cbn [join app] in *; by rewrite IH.
Qed.

Lemma split_on_segment c s : c ∉ s -> split_on c s = [s].
Proof.
  induction s as [|x s IH]; intros Hc; [done|]. cbn [split_on].
  destruct (N.eqb_spec x c) as [->|Hn]; [set_solver|].
  rewrite IH by set_solver. done.
Qed.

Lemma split_on_app c s t : split_on c (s ++ c :: t) = split_on c s ++ split_on c t.
Proof.
  induction s as [|x s IH]; cbn [app split_on].
  - by rewrite N.eqb_refl.
  - destruct (N.eqb_spec x c) as [->|Hn]; [by rewrite IH|]. rewrite IH.
    pose proof (split_on_nonempty c s). by destruct (split_on c s).
Qed.

Lemma split_on_app_sep c s t :
  c ∉ s -> split_on c (s ++ c :: t) = s :: split_on c t.
Proof. intros. by rewrite split_on_app, split_on_segment. Qed.

Lemma split_on_join c l :
  l <> [] -> Forall (fun s => c ∉ s) l -> split_on c (join c l) = l.
Proof.
  intros Hl Hf. destruct l as [|x l]; [done|]. clear Hl.
  revert x Hf. induction l as [|y l IH]; intros x Hf; inversion Hf; subst.
  - by apply split_on_segment.
  - change (join c (x :: y :: l)) with (x ++ c :: join c (y :: l)).
    rewrite split_on_app_sep by done. by rewrite IH.
Qed.

Lemma split_on_no_sep c s seg : seg ∈ split_on c s -> c ∉ seg.
Proof.
  revert seg; induction s as [|x s IH]; intros seg; simpl.
  { intros ->%list_elem_of_singleton. apply not_elem_of_nil. }
  destruct (N.eqb_spec x c) as [->|Hn].
  { intros [->|H]%elem_of_cons; [apply not_elem_of_nil|auto]. }
  destruct (split_on c s) as [|seg' rest].
  { intros ->%list_elem_of_singleton [?|[]%not_elem_of_nil]%elem_of_cons. done. }
  intros [->|H]%elem_of_cons; [|by apply IH, elem_of_cons; right].
  intros [?|Hc]%elem_of_cons; [done|]. by apply (IH seg'), Hc; left.
Qed.

Lemma elem_of_join c l x : x ∈ join c l -> x = c \/ exists s, s ∈ l /\ x ∈ s.
Proof.
  induction l as [|s l IH]; [set_solver|]. destruct l as [|s' l].
  - simpl. intros. right. exists s. set_solver.
  - change (join c (s :: s' :: l)) with (s ++ c :: join c (s' :: l)).
    rewrite elem_of_app, elem_of_cons. intros [H|[->|H]]; [right; exists s; set_solver|auto|].
    destruct (IH H) as [?|(t & ? & ?)]; [auto|]. right. exists t. set_solver.
Qed.

Lemma elem_of_join_segment c l s x : s ∈ l -> x ∈ s -> x ∈ join c l.
Proof.
  induction l as [|s' l IH]; [set_solver|]. intros Hs Hx. destruct l as [|s'' l].
  - simpl. set_solver.
  - change (join c (s' :: s'' :: l)) with (s' ++ c :: join c (s'' :: l)).
    rewrite elem_of_app, elem_of_cons. apply elem_of_cons in Hs as [->|Hs]; [auto|].
    right. right. auto.
Qed.

(** ** Decimal: [String(n)] of a natural number *)

Fixpoint digits_fuel (fuel : nat) (n : N) (acc : jstring) : jstring :=
  match fuel with
  | O => acc
  | S f =>
      let acc' := (48 + n mod 10)%N :: acc in
      if (n / 10 =? 0)%N then acc' else digits_fuel f (n / 10) acc'
  end.

Definition String_of_N (n : N) : jstring := digits_fuel (S (N.to_nat (N.size n))) n [].
