(* ===== verification/OrderedMap.v ===== *)
(** JavaScript's [Map] with string keys: its entries in insertion order. *)
From S2P Require Import Prelude JsString.

(** [m.get(key)] *)
Fixpoint map_get {A} (key : jstring) (m : list (jstring * A)) : option A :=
  match m with
  | [] => None
  | (k, a) :: r => if jeqb k key then Some a else map_get key r
  end.

(** [m.set(key, a)]: a present key keeps its position. *)
Fixpoint map_set {A} (key : jstring) (a : A) (m : list (jstring * A)) : list (jstring * A) :=
  match m with
  | [] => [(key, a)]
  | (k, b) :: r => if jeqb k key then (k, a) :: r else (k, b) :: map_set key a r
  end.

(** [m.delete(key)] *)
Definition map_delete {A} (key : jstring) (m : list (jstring * A)) : list (jstring * A) :=
  List.filter (fun e => negb (jeqb e.1 key)) m.

(** [m.has(key)] *)
Definition map_has {A} (key : jstring) (m : list (jstring * A)) : bool :=
  match map_get key m with Some _ => true | None => false end.

(** ** Lemmas *)

Section maps.
Context {A : Type}.
Implicit Types m : list (jstring * A).

Lemma map_get_elem k m a : map_get k m = Some a -> (k, a) ∈ m.
Proof.
  induction m as [|[k' b] m IH]; cbn; [done|].
  destruct (jeqb k' k) eqn:E; [|right; auto].
  apply jeqb_eq in E as ->. intros [= ->]. left.
Qed.

Lemma map_get_None k m : map_get k m = None <-> k ∉ map fst m.
Proof.
  induction m as [|[k' b] m IH]; cbn; [set_solver|].
  destruct (jeqb k' k) eqn:E.
  - apply jeqb_eq in E as ->. set_solver.
  - apply jeqb_neq in E. rewrite IH, not_elem_of_cons. naive_solver.
Qed.

Lemma map_get_NoDup k m a : NoDup (map fst m) -> (k, a) ∈ m -> map_get k m = Some a.
Proof.
  induction m as [|[k' b] m IH]; cbn; intros Hnd Hin; [by apply not_elem_of_nil in Hin|].
  apply NoDup_cons in Hnd as [Hk Hnd]. apply elem_of_cons in Hin as [[= -> ->]|Hin].
  - by rewrite jeqb_refl.
  - destruct (jeqb k' k) eqn:E; [|by apply IH].
    apply jeqb_eq in E as ->. destruct Hk. by apply (list_elem_of_fmap_2 fst) in Hin.
Qed.

Lemma map_set_new k a m : k ∉ map fst m -> map_set k a m = m ++ [(k, a)].
Proof.
  induction m as [|[k' b] m IH]; cbn; [done|]. intros [Hne Hk]%not_elem_of_cons.
  destruct (jeqb k' k) eqn:E; [by apply jeqb_eq in E; subst|]. by rewrite IH.
Qed.

Lemma map_set_same k a m : map_get k m = Some a -> map_set k a m = m.
Proof.
  induction m as [|[k' b] m IH]; cbn; [done|]. destruct (jeqb k' k) eqn:E; intros H.
  - by simplify_eq.
  - by rewrite IH.
Qed.

Lemma map_delete_notin k m : k ∉ map fst m -> map_delete k m = m.
Proof.
  induction m as [|[k' b] m IH]; cbn; [done|]. intros [Hne Hk]%not_elem_of_cons.
  destruct (jeqb k' k) eqn:E; [by apply jeqb_eq in E; subst|]. cbn. f_equal. by apply IH.
Qed.

Lemma map_delete_head k a m : NoDup (map fst ((k, a) :: m)) -> map_delete k ((k, a) :: m) = m.
Proof. cbn. intros [Hk _]%NoDup_cons. rewrite jeqb_refl. cbn. by apply map_delete_notin. Qed.

Lemma map_get_set k k' a m : map_get k (map_set k' a m) = if jeqb k' k then Some a else map_get k m.
Proof.
  induction m as [|[k0 b] m IH]; cbn; [done|]. destruct (jeqb k0 k') eqn:E.
  - apply jeqb_eq in E as ->. cbn. by destruct (jeqb k' k).
  - cbn. rewrite IH. destruct (jeqb k0 k) eqn:E0, (jeqb k' k) eqn:E1; try done.
    apply jeqb_eq in E0, E1. subst. by rewrite jeqb_refl in E.
Qed.

Lemma map_keys_set k a m x : x ∈ map fst (map_set k a m) <-> x = k \/ x ∈ map fst m.
Proof.
  induction m as [|[k0 b] m IH]; cbn; [set_solver|].
  destruct (jeqb k0 k) eqn:E; cbn; rewrite ?elem_of_cons, ?IH; [apply jeqb_eq in E as ->|]; tauto.
Qed.

Lemma map_set_NoDup k a m : NoDup (map fst m) -> NoDup (map fst (map_set k a m)).
Proof.
  induction m as [|[k0 b] m IH]; cbn; intros Hnd; [by apply NoDup_singleton|].
  destruct (jeqb k0 k) eqn:E; [by apply jeqb_eq in E as <-|]. cbn.
  apply NoDup_cons in Hnd as [Hk Hnd]. apply NoDup_cons. split; [|by apply IH].
  rewrite map_keys_set. apply jeqb_neq in E. naive_solver.
Qed.

Lemma map_get_keys k m : is_Some (map_get k m) <-> k ∈ map fst m.
Proof. rewrite <- not_eq_None_Some, map_get_None. split; [apply dec_stable|tauto]. Qed.

Lemma map_set_length k a m : length (map_set k a m) <= S (length m).
Proof. induction m as [|[k0 b] m IH]; cbn; [lia|]. destruct (jeqb k0 k); cbn; lia. Qed.
End maps.

(** ** Maps as sets of entries *)

Lemma map_get_perm {A} (m m' : list (jstring * A)) k : NoDup (map fst m) -> m ≡ₚ m' -> map_get k m = map_get k m'.
Proof.
  intros Hd Hp. assert (Hd' : NoDup (map fst m')) by (by rewrite <- (Permutation_map fst Hp)).
  destruct (map_get k m) as [a|] eqn:Hk.
  - apply map_get_elem in Hk. symmetry. apply map_get_NoDup; [done|]. by rewrite <- Hp.
  - symmetry. apply map_get_None. apply map_get_None in Hk. by rewrite <- (Permutation_map fst Hp).
Qed.

Lemma map_has_elem {A} k (m : list (jstring * A)) : map_has k m = true <-> k ∈ map fst m.
Proof. rewrite <- map_get_keys. unfold map_has. destruct (map_get k m); split; intros H; done || by destruct H. Qed.

(** ** Sorting by a key no two items share *)

Lemma NoDup_map_same {A B} (f : A -> B) l x y : NoDup (map f l) -> x ∈ l -> y ∈ l -> f x = f y -> x = y.
Proof.
  intros Hnd (i & Hi)%list_elem_of_lookup_1 (j & Hj)%list_elem_of_lookup_1 E.
  assert (i = j) as ->; [|congruence].
  apply (NoDup_lookup (map f l) i j (f x)); [done| |]; rewrite list_lookup_fmap; [by rewrite Hi|by rewrite Hj, E].
Qed.

Lemma NoDup_map_perm {A B} (f : A -> B) l k : l ≡ₚ k -> NoDup (map f l) -> NoDup (map f k).
Proof. intros Hp. assert (map f l ≡ₚ map f k) as Hm by (by apply Permutation_map). by rewrite Hm. Qed.

Lemma sort_by_key {A} (key : A -> jstring) l k :
  NoDup (map key l) -> l ≡ₚ k ->
  sort_by (fun a b => jleb (key a) (key b)) l = sort_by (fun a b => jleb (key a) (key b)) k.
Proof.
  intros Hnd Hp. apply sort_by_canonical; [| | |done].
  - intros x y z. apply jleb_trans.
  - intros x y. apply jleb_total.
  - intros x y Hx Hy H1 H2. apply (NoDup_map_same key l); [done..|]. by apply jleb_antisym.
Qed.

Lemma sort_texts_perm (l k : list jstring) : l ≡ₚ k -> sort_by jleb l = sort_by jleb k.
Proof.
  intros Hp. apply sort_by_canonical; [| | |done].
  - intros x y z. apply jleb_trans.
  - intros x y. apply jleb_total.
  - intros x y _ _. apply jleb_antisym.
Qed.
