(* ===== verification/Unicode.v ===== *)
(** Well-formed UTF-16, the UTF-8 encoding of strings, decimal numerals and the
    length-prefixed framings built from them, with the unique-decoding lemmas
    every content-addressed key of the program relies on. *)
From S2P Require Import Prelude JsString.

Definition is_high (u : N) : bool := (0xd800 <=? u)%N && (u <=? 0xdbff)%N.
Definition is_low (u : N) : bool := (0xdc00 <=? u)%N && (u <=? 0xdfff)%N.

(** Every string of the language holds 16-bit units. *)
Definition js_units (s : jstring) : Prop := Forall (fun u => (u < 0x10000)%N) s.

(** The scan all the [hasWellFormedUnicode] helpers perform: a high surrogate
    needs a low one after it, which is skipped; a lone low one fails. *)
Fixpoint hasWellFormedUnicode (s : jstring) : bool :=
  match s with
  | [] => true
  | u :: r =>
      if is_high u then
        match r with
        | v :: r' => if is_low v then hasWellFormedUnicode r' else false
        | [] => false
        end
      else if is_low u then false
      else hasWellFormedUnicode r
  end.

Definition wf_text (s : jstring) : Prop := hasWellFormedUnicode s = true.

Definition pair_cp (u v : N) : N := (0x10000 + (u - 0xd800) * 1024 + (v - 0xdc00))%N.

(** Code points; a lone surrogate reads as U+FFFD, as in Node's encoder. *)
Fixpoint code_points (s : jstring) : list N :=
  match s with
  | [] => []
  | u :: r =>
      if is_high u then
        match r with
        | v :: r' => if is_low v then pair_cp u v :: code_points r' else 0xfffd%N :: code_points r
        | [] => [0xfffd%N]
        end
      else if is_low u then 0xfffd%N :: code_points r
      else u :: code_points r
  end.

(** [Array.from(value)]: one string per code point, a lone surrogate on its own. *)
Fixpoint scalars (s : jstring) : list jstring :=
  match s with
  | [] => []
  | u :: r =>
      if is_high u then
        match r with
        | v :: r' => if is_low v then [u; v] :: scalars r' else [u] :: scalars r
        | [] => [[u]]
        end
      else [u] :: scalars r
  end.

Definition utf8_cp (c : N) : list N :=
  (if c <=? 0x7f then [c]
   else if c <=? 0x7ff then [0xc0 + c / 64; 0x80 + c mod 64]
   else if c <=? 0xffff then [0xe0 + c / 4096; 0x80 + c / 64 mod 64; 0x80 + c mod 64]
   else [0xf0 + c / 262144; 0x80 + c / 4096 mod 64; 0x80 + c / 64 mod 64; 0x80 + c mod 64])%N.

Definition utf8 (s : jstring) : list N := mjoin (utf8_cp <$> code_points s).

(** [Buffer.byteLength(s, "utf8")] *)
Definition textBytes (s : jstring) : N := N.of_nat (length (utf8 s)).

Lemma code_points_cons2 u v r :
  code_points (u :: v :: r) =
  if is_high u then
    if is_low v then pair_cp u v :: code_points r else 0xfffd%N :: code_points (v :: r)
  else if is_low u then 0xfffd%N :: code_points (v :: r)
  else u :: code_points (v :: r).
Proof. done. Qed.

Lemma wf_cons2 u v r :
  hasWellFormedUnicode (u :: v :: r) =
  if is_high u then if is_low v then hasWellFormedUnicode r else false
  else if is_low u then false else hasWellFormedUnicode (v :: r).
Proof. done. Qed.

(** Induction over a string two units at a time. *)
Lemma jstring_ind2 (P : jstring -> Prop) :
  P [] -> (forall u, P [u]) ->
  (forall u v r, P r -> P (v :: r) -> P (u :: v :: r)) -> forall s, P s.
Proof.
  intros H0 H1 H2 s. enough (P s /\ forall u, P (u :: s)) by tauto.
  induction s as [|v s [IH1 IH2]]; [eauto|]. split; [apply IH2|]. intros u. by apply H2.
Qed.

Lemma code_points_app s t :
  hasWellFormedUnicode s = true -> code_points (s ++ t) = code_points s ++ code_points t.
Proof.
  induction s as [|u|u v r IH1 IH2] using jstring_ind2; [done|..].
  - simpl. destruct (is_high u); [done|]. by destruct (is_low u).
  - cbn [app]. rewrite wf_cons2, !code_points_cons2. destruct (is_high u).
    + destruct (is_low v); [|done]. intros. by rewrite IH1.
    + destruct (is_low u); [done|]. intros H. cbn [app]. f_equal. by apply (IH2 H).
Qed.

Lemma wf_app s t :
  hasWellFormedUnicode s = true ->
  hasWellFormedUnicode (s ++ t) = hasWellFormedUnicode t.
Proof.
  induction s as [|u|u v r IH1 IH2] using jstring_ind2; [done|..].
  - simpl. destruct (is_high u); [done|]. by destruct (is_low u).
  - cbn [app]. rewrite !wf_cons2. destruct (is_high u).
    + destruct (is_low v); [|done]. auto.
    + destruct (is_low u); [done|]. intros H. by apply (IH2 H).
Qed.

(** A unit that is no surrogate cuts a text into independent parts. *)
Definition is_plain (c : N) : bool := negb (is_high c) && negb (is_low c).

Lemma wf_app_plain s c t :
  is_plain c = true ->
  hasWellFormedUnicode (s ++ c :: t) = hasWellFormedUnicode s && hasWellFormedUnicode t.
Proof.
  unfold is_plain. intros Hc. apply andb_true_iff in Hc as [Hh%negb_true_iff Hl%negb_true_iff].
  induction s as [|u|u v r IH1 IH2] using jstring_ind2.
  - simpl. by rewrite Hh, Hl.
  - cbn [app]. rewrite wf_cons2, Hl. simpl.
    destruct (is_high u), (is_low u); simpl; rewrite ?Hh, ?Hl; done.
  - cbn [app] in *. rewrite !wf_cons2. destruct (is_high u).
    + by destruct (is_low v).
    + by destruct (is_low u).
Qed.

Lemma wf_join c l :
  is_plain c = true -> Forall wf_text l -> wf_text (join c l).
Proof.
  intros Hc Hl. induction Hl as [|s l Hs Hl IH]; [done|]. destruct l as [|s' l]; [done|].
  change (join c (s :: s' :: l)) with (s ++ c :: join c (s' :: l)).
  unfold wf_text in *. by rewrite wf_app_plain, Hs, IH.
Qed.

Lemma wf_join_inv c l : is_plain c = true -> wf_text (join c l) -> Forall wf_text l.
Proof.
  intros Hc. induction l as [|s l IH]; [constructor|]. destruct l as [|s' l].
  { intros; by repeat constructor. }
  change (join c (s :: s' :: l)) with (s ++ c :: join c (s' :: l)).
  unfold wf_text in *. rewrite wf_app_plain by done. intros [? ?]%andb_true_iff.
  constructor; auto.
Qed.

Lemma wf_split_on c s : is_plain c = true -> wf_text s -> Forall wf_text (split_on c s).
Proof. intros Hc Hs. apply (wf_join_inv c); [done|]. by rewrite join_split_on. Qed.

Lemma utf8_app s t :
  hasWellFormedUnicode s = true -> utf8 (s ++ t) = utf8 s ++ utf8 t.
Proof. intros. unfold utf8. by rewrite code_points_app, fmap_app, join_app. Qed.

Lemma textBytes_app s t :
  hasWellFormedUnicode s = true -> textBytes (s ++ t) = (textBytes s + textBytes t)%N.
Proof. intros. unfold textBytes. rewrite utf8_app, length_app by done. lia. Qed.

Lemma utf8_cp_nonempty c : utf8_cp c <> [].
Proof. unfold utf8_cp. by repeat case_match. Qed.

Lemma textBytes_zero s : textBytes s = 0%N <-> s = [].
Proof.
  split; [|by intros ->]. destruct s as [|u r]; [done|]. intros H.
  assert (exists c l, code_points (u :: r) = c :: l) as (c & l & E).
  { simpl. repeat case_match; eauto. }
  unfold textBytes, utf8 in H. rewrite E in H. simpl in H. rewrite length_app in H.
  pose proof (utf8_cp_nonempty c). destruct (utf8_cp c); [done|]. simpl in H. lia.
Qed.

(** Two well-formed prefixes of one text with the same byte length are equal. *)
Lemma textBytes_prefix s t r1 r2 :
  hasWellFormedUnicode s = true -> hasWellFormedUnicode t = true ->
  textBytes s = textBytes t -> s ++ r1 = t ++ r2 -> s = t /\ r1 = r2.
Proof.
  assert (forall s t k, hasWellFormedUnicode s = true ->
            textBytes s = textBytes t -> t = s ++ k -> k = []) as Hk.
  { intros s' t' k Hs Hb ->. rewrite textBytes_app in Hb by done.
    apply textBytes_zero. lia. }
  intros Hs Ht Hb Heq. apply app_eq_inv in Heq as [(k & -> & ->)|(k & -> & ->)].
  - rewrite (Hk t (t ++ k) k) by done. by rewrite app_nil_r.
  - rewrite (Hk s (s ++ k) k) by done. by rewrite app_nil_r.
Qed.

Lemma mjoin_scalars s : mjoin (scalars s) = s.
Proof.
  induction s as [|u|u v r IH1 IH2] using jstring_ind2; [done|cbn; by destruct (is_high u)|].
  change (scalars (u :: v :: r)) with
    (if is_high u then if is_low v then [u; v] :: scalars r else [u] :: scalars (v :: r) else [u] :: scalars (v :: r)).
  destruct (is_high u); [destruct (is_low v)|]; rewrite mjoin_cons; cbn [app]; by rewrite ?IH1, ?IH2.
Qed.

(** ** Unique decoding of UTF-8 *)

Ltac Zify.zify_post_hook ::= Z.to_euclidean_division_equations.

Lemma utf8_cp_prefix a b r1 r2 :
  (a < 0x110000)%N -> (b < 0x110000)%N ->
  utf8_cp a ++ r1 = utf8_cp b ++ r2 -> a = b /\ r1 = r2.
Proof.
  unfold utf8_cp. intros Ha Hb.
  repeat case_match; bool_prop; simpl; intros Heq;
    injection Heq; intros; subst; clear Heq; split; try done;
    repeat match goal with H : ?x = ?x |- _ => clear H end; lia.
Qed.

Lemma code_points_bound s :
  js_units s -> Forall (fun c => (c < 0x110000)%N) (code_points s).
Proof.
  unfold js_units. induction s as [|u|u v r IH1 IH2] using jstring_ind2; [done|..].
  - intros Hu. inversion Hu; subst. simpl. destruct (is_high u); [|destruct (is_low u)];
      repeat constructor; lia.
  - intros Hu. inversion Hu as [|? ? Hu1 Hr]; subst. inversion Hr as [|? ? Hv Hr']; subst.
    rewrite code_points_cons2. unfold is_high, is_low.
    destruct ((0xd800 <=? u)%N && (u <=? 0xdbff)%N) eqn:Eu.
    + destruct ((0xdc00 <=? v)%N && (v <=? 0xdfff)%N) eqn:Ev; (constructor; [|by auto]).
      * bool_prop. unfold pair_cp. lia.
      * lia.
    + destruct ((0xdc00 <=? u)%N && (u <=? 0xdfff)%N); (constructor; [lia|by auto]).
Qed.

Lemma mjoin_utf8_inj l1 l2 :
  Forall (fun c => (c < 0x110000)%N) l1 -> Forall (fun c => (c < 0x110000)%N) l2 ->
  mjoin (utf8_cp <$> l1) = mjoin (utf8_cp <$> l2) -> l1 = l2.
Proof.
  intros H1. revert l2. induction H1 as [|a l1 Ha H1 IH]; intros l2 H2 Heq;
    destruct H2 as [|b l2 Hb H2]; simpl in Heq.
  - done.
  - symmetry in Heq. by apply app_eq_nil in Heq as [?%utf8_cp_nonempty ?].
  - by apply app_eq_nil in Heq as [?%utf8_cp_nonempty ?].
  - apply utf8_cp_prefix in Heq as [-> Heq]; [|done|done]. f_equal. by apply IH.
Qed.

Definition pair_units (c : N) : list N :=
  if (c <? 0x10000)%N then [c]
  else [0xd800 + (c - 0x10000) / 1024; 0xdc00 + (c - 0x10000) mod 1024]%N.

Lemma code_points_decode s :
  js_units s -> hasWellFormedUnicode s = true -> mjoin (pair_units <$> code_points s) = s.
Proof.
  unfold js_units. induction s as [|u|u v r IH1 IH2] using jstring_ind2; [done|..];
    intros Hu Hwf; inversion Hu as [|? ? Hu1 Hr]; subst.
  - cbn [hasWellFormedUnicode code_points] in *. destruct (is_high u); [done|].
    destruct (is_low u); [done|]. simpl. unfold pair_units.
    by rewrite (proj2 (N.ltb_lt _ _) Hu1).
  - inversion Hr as [|? ? Hv Hr']; subst.
    rewrite wf_cons2 in Hwf. rewrite code_points_cons2. unfold is_high, is_low in *.
    destruct ((0xd800 <=? u)%N && (u <=? 0xdbff)%N) eqn:Eu.
    + destruct ((0xdc00 <=? v)%N && (v <=? 0xdfff)%N) eqn:Ev; [|done].
      rewrite fmap_cons, mjoin_cons. rewrite IH1 by done.
      unfold pair_units, pair_cp. bool_prop.
      destruct (N.ltb_spec (0x10000 + (u - 0xd800) * 1024 + (v - 0xdc00)) 0x10000); [lia|].
      simpl. f_equal; [lia|f_equal; lia].
    + destruct ((0xdc00 <=? u)%N && (u <=? 0xdfff)%N); [done|].
      rewrite fmap_cons, mjoin_cons. unfold pair_units at 1.
      rewrite (proj2 (N.ltb_lt _ _) Hu1). simpl. f_equal. by apply IH2.
Qed.

Lemma utf8_inj s t :
  js_units s -> js_units t ->
  hasWellFormedUnicode s = true -> hasWellFormedUnicode t = true ->
  utf8 s = utf8 t -> s = t.
Proof.
  intros Hs Ht Ws Wt Heq.
  apply mjoin_utf8_inj in Heq; [|by apply code_points_bound..].
  by rewrite <- (code_points_decode s), <- (code_points_decode t), Heq.
Qed.

(** ** Decimal numerals *)

Definition digits_value (acc : N) (s : jstring) : N :=
  fold_left (fun a d => a * 10 + (d - 48))%N s acc.

Lemma digits_fuel_value fuel n acc a :
  (n < 10 ^ N.of_nat fuel)%N -> a = 0%N ->
  digits_value a (digits_fuel fuel n acc) = digits_value n acc.
Proof.
  revert n acc; induction fuel as [|f IH]; intros n acc Hn ->; cbn [digits_fuel].
  - assert (n = 0)%N as -> by (change (10 ^ N.of_nat 0)%N with 1%N in Hn; lia). done.
  - destruct (N.eqb_spec (n / 10) 0) as [E|E].
    + change (digits_value (0 * 10 + (48 + n mod 10 - 48)) acc = digits_value n acc).
      f_equal. lia.
    + rewrite IH; [|rewrite Nat2N.inj_succ, N.pow_succ_r' in Hn; lia|done].
      change (digits_value (n / 10 * 10 + (48 + n mod 10 - 48)) acc = digits_value n acc).
      f_equal. lia.
Qed.

Lemma pow2_le_pow10 k : (2 ^ k <= 10 ^ k)%N.
Proof. apply N.pow_le_mono_l. lia. Qed.

Lemma String_of_N_value n : digits_value 0 (String_of_N n) = n.
Proof.
  unfold String_of_N. rewrite digits_fuel_value; [done| |done].
  rewrite Nat2N.inj_succ, N2Nat.id.
  pose proof (N.size_gt n). pose proof (pow2_le_pow10 (N.size n)).
  rewrite N.pow_succ_r'. lia.
Qed.

Lemma String_of_N_inj n m : String_of_N n = String_of_N m -> n = m.
Proof. intros H. by rewrite <- (String_of_N_value n), H, String_of_N_value. Qed.

Lemma digits_fuel_digits fuel n acc :
  Forall (fun d => 48 <= d <= 57)%N acc ->
  Forall (fun d => 48 <= d <= 57)%N (digits_fuel fuel n acc).
Proof.
  revert n acc; induction fuel as [|f IH]; intros n acc Ha; cbn [digits_fuel]; [done|].
  destruct (n / 10 =? 0)%N; [|apply IH]; (constructor; [lia|done]).
Qed.

Lemma String_of_N_digits n : Forall (fun d => 48 <= d <= 57)%N (String_of_N n).
Proof. by apply digits_fuel_digits. Qed.

Lemma String_of_N_no_unit n c : (c < 48 \/ 57 < c)%N -> c ∉ String_of_N n.
Proof.
  intros Hc Hin. pose proof (String_of_N_digits n) as H.
  rewrite Forall_forall in H. apply H in Hin. lia.
Qed.

(** Two texts cut at the first occurrence of a separator. *)
Lemma cut_at_sep {A} (c : A) (s t r1 r2 : list A) :
  c ∉ s -> c ∉ t -> s ++ c :: r1 = t ++ c :: r2 -> s = t /\ r1 = r2.
Proof.
  revert t; induction s as [|x s IH]; intros [|y t] Hs Ht Heq; simplify_eq/=.
  - done.
  - set_solver.
  - set_solver.
  - destruct (IH t) as [-> ->]; set_solver.
Qed.

(** ** Length-prefixed framing: [`${bytes}:${part}`] *)

Definition lengthPrefixed (parts : list jstring) : jstring :=
  mjoin ((fun part => String_of_N (textBytes part) ++ 58%N :: part) <$> parts).

Lemma lengthPrefixed_app p q : lengthPrefixed (p ++ q) = lengthPrefixed p ++ lengthPrefixed q.
Proof. unfold lengthPrefixed. by rewrite fmap_app, join_app. Qed.

Lemma lengthPrefixed_mjoin l : lengthPrefixed (mjoin l) = mjoin (lengthPrefixed <$> l).
Proof. induction l as [|p l IH]; [done|].
  by rewrite mjoin_cons, lengthPrefixed_app, IH. Qed.

(** The framing decodes uniquely on well-formed texts. *)
Lemma lengthPrefixed_inj l1 l2 :
  Forall wf_text l1 -> Forall wf_text l2 -> lengthPrefixed l1 = lengthPrefixed l2 -> l1 = l2.
Proof.
  assert (forall s, 58%N ∉ String_of_N s) as Hno by (intros; apply String_of_N_no_unit; lia).
  intros H1. revert l2. induction H1 as [|a l1 Ha H1 IH]; intros l2 H2 Heq;
    destruct H2 as [|b l2 Hb H2]; unfold lengthPrefixed in Heq;
    rewrite ?fmap_cons, ?mjoin_cons, <- ?app_assoc in Heq; cbn [app] in Heq.
  - done.
  - by apply app_cons_not_nil in Heq.
  - symmetry in Heq. by apply app_cons_not_nil in Heq.
  - apply cut_at_sep in Heq as [Hlen%String_of_N_inj Heq]; [|done..].
    apply textBytes_prefix in Heq as [-> Heq]; [|done..]. f_equal. by apply IH.
Qed.
