(* ===== verification/Utf8.v ===== *)
(** The platform's UTF-8 decoder, [new TextDecoder("utf-8", { fatal: true,
    ignoreBOM: true })], and its round trip with the encoder of [Unicode]. *)
From S2P Require Import Prelude JsString Unicode.

Definition is_continuation (lower upper b : N) : bool := (lower <=? b)%N && (b <=? upper)%N.

(** The code points of a byte sequence, [None] when it is not UTF-8: no
    overlong form, no surrogate, nothing above U+10FFFF, nothing truncated. *)
Fixpoint utf8_code_points (bytes : list N) : option (list N) :=
  match bytes with
  | [] => Some []
  | a :: r =>
      if (a <=? 0x7f)%N then cons a <$> utf8_code_points r
      else if (0xc2 <=? a)%N && (a <=? 0xdf)%N then
        match r with
        | b :: r1 =>
            if is_continuation 0x80 0xbf b
            then cons ((a - 0xc0) * 64 + (b - 0x80))%N <$> utf8_code_points r1
            else None
        | [] => None
        end
      else if (0xe0 <=? a)%N && (a <=? 0xef)%N then
        match r with
        | b :: c :: r2 =>
            if is_continuation (if (a =? 0xe0)%N then 0xa0 else 0x80) (if (a =? 0xed)%N then 0x9f else 0xbf) b
               && is_continuation 0x80 0xbf c
            then cons ((a - 0xe0) * 4096 + (b - 0x80) * 64 + (c - 0x80))%N <$> utf8_code_points r2
            else None
        | _ => None
        end
      else if (0xf0 <=? a)%N && (a <=? 0xf4)%N then
        match r with
        | b :: c :: d :: r3 =>
            if is_continuation (if (a =? 0xf0)%N then 0x90 else 0x80) (if (a =? 0xf4)%N then 0x8f else 0xbf) b
               && is_continuation 0x80 0xbf c && is_continuation 0x80 0xbf d
            then cons ((a - 0xf0) * 262144 + (b - 0x80) * 4096 + (c - 0x80) * 64 + (d - 0x80))%N
                 <$> utf8_code_points r3
            else None
        | _ => None
        end
      else None
  end.

(** [decoder.decode(bytes)], [None] where it throws *)
Definition utf8_decode (bytes : list N) : option jstring :=
  (fun cs => mjoin (pair_units <$> cs)) <$> utf8_code_points bytes.

(** ** The decoder inverts the encoder, and accepts nothing else *)

(** A Unicode scalar value. *)
Definition is_scalar (c : N) : Prop := (c < 0xd800 \/ 0xdfff < c)%N /\ (c < 0x110000)%N.

Ltac decide_leb :=
  match goal with
  | |- context [(?x <=? ?y)%N] =>
      first [rewrite (proj2 (N.leb_le x y)) by lia | rewrite (proj2 (N.leb_gt x y)) by lia]
  | |- context [(?x =? ?y)%N] => destruct (N.eqb_spec x y)
  end.

(** The base-64 digits of a code point. *)
Lemma sextets_of q x y z :
  (x < 64)%N -> (y < 64)%N -> (z < 64)%N ->
  let c := (q * 262144 + x * 4096 + y * 64 + z)%N in
  (c / 262144 = q)%N /\ (c / 4096 = 64 * q + x)%N /\ (c / 4096 mod 64 = x)%N /\
  (c / 64 = 4096 * q + 64 * x + y)%N /\ (c / 64 mod 64 = y)%N /\ (c mod 64 = z)%N.
Proof.
  intros Hx Hy Hz c.
  assert (c / 64 = 4096 * q + 64 * x + y)%N as E1 by (subst c; lia).
  assert (c / 4096 = 64 * q + x)%N as E2.
  { replace 4096%N with (64 * 64)%N by done. rewrite <- N.Div0.div_div, E1. clear - Hy. lia. }
  assert (c / 262144 = q)%N as ->.
  { replace 262144%N with (4096 * 64)%N by done. rewrite <- N.Div0.div_div, E2. clear - Hx. lia. }
  rewrite E1, E2. repeat split; subst c; clear -Hx Hy Hz; lia.
Qed.

Lemma sextets c :
  exists q x y z, c = (q * 262144 + x * 4096 + y * 64 + z)%N /\ (x < 64)%N /\ (y < 64)%N /\ (z < 64)%N.
Proof.
  set (a := (c / 64)%N). set (b := (a / 64)%N).
  exists (b / 64)%N, (b mod 64)%N, (a mod 64)%N, (c mod 64)%N.
  assert (c = 64 * a + c mod 64 /\ c mod 64 < 64)%N by (subst a; clear; lia).
  assert (a = 64 * b + a mod 64 /\ a mod 64 < 64)%N by (subst b; clear; lia).
  assert (b = 64 * (b / 64) + b mod 64 /\ b mod 64 < 64)%N by (clear; lia).
  repeat split; lia.
Qed.

Ltac Zify.zify_post_hook ::= idtac.

(** The encoding by digits, without division. *)
Lemma utf8_cp_digits q x y z :
  (x < 64)%N -> (y < 64)%N -> (z < 64)%N ->
  let c := (q * 262144 + x * 4096 + y * 64 + z)%N in
  utf8_cp c =
  (if c <=? 0x7f then [c]
   else if c <=? 0x7ff then [0xc0 + (4096 * q + 64 * x + y); 0x80 + z]
   else if c <=? 0xffff then [0xe0 + (64 * q + x); 0x80 + y; 0x80 + z]
   else [0xf0 + q; 0x80 + x; 0x80 + y; 0x80 + z])%N.
Proof.
  intros Hx Hy Hz c. destruct (sextets_of q x y z Hx Hy Hz) as (E1 & E2 & E3 & E4 & E5 & E6).
  fold c in E1, E2, E3, E4, E5, E6. unfold utf8_cp. rewrite E3, E5, E6, E1, E2, E4. done.
Qed.

Lemma utf8_code_points_step c r :
  is_scalar c -> utf8_code_points (utf8_cp c ++ r) = cons c <$> utf8_code_points r.
Proof.
  intros [Hs Hb]. destruct (sextets c) as (q & x & y & z & -> & Hx & Hy & Hz).
  rewrite utf8_cp_digits by done.
  repeat match goal with
  | |- context [if (?u <=? ?v)%N then [_] else _] => destruct (N.leb_spec u v)
  | |- context [if (?u <=? ?v)%N then [_; _] else _] => destruct (N.leb_spec u v)
  | |- context [if (?u <=? ?v)%N then [_; _; _] else _] => destruct (N.leb_spec u v)
  end; cbn [app utf8_code_points]; unfold is_continuation; repeat decide_leb; cbn [andb];
  do 2 f_equal; lia.
Qed.

(** A decoded sequence starts with the encoding of its first code point; the
    digits of that code point are given by the case. *)
Lemma decoded_head q x y z r cs' bytes cs :
  (x < 64)%N -> (y < 64)%N -> (z < 64)%N ->
  let c := (q * 262144 + x * 4096 + y * 64 + z)%N in
  is_scalar c -> bytes = utf8_cp c ++ r -> utf8_code_points r = Some cs' -> cs = c :: cs' ->
  exists c r' cs', is_scalar c /\ bytes = utf8_cp c ++ r' /\
    utf8_code_points r' = Some cs' /\ cs = c :: cs' /\ length r' < length bytes.
Proof.
  intros Hx Hy Hz c Hc -> Hr ->. exists c, r, cs'. repeat split; try done; try apply Hc.
  rewrite length_app. pose proof (utf8_cp_nonempty c). destruct (utf8_cp c); [done|cbn; lia].
Qed.

Ltac head q x y z r := eapply (decoded_head q x y z r);
  [lia|lia|lia|unfold is_scalar; lia
  |rewrite utf8_cp_digits by lia; repeat decide_leb; cbn [app]; repeat f_equal; lia
  |eassumption|f_equal; lia].

Lemma utf8_code_points_inv a r cs :
  utf8_code_points (a :: r) = Some cs ->
  exists c r' cs', is_scalar c /\ a :: r = utf8_cp c ++ r' /\
    utf8_code_points r' = Some cs' /\ cs = c :: cs' /\ length r' < length (a :: r).
Proof.
  cbn [utf8_code_points]. destruct (N.leb_spec a 0x7f).
  { intros (cs' & H' & ->)%fmap_Some.
    destruct (N.ltb_spec a 64); [head 0%N 0%N 0%N a r|head 0%N 0%N 1%N (a - 64)%N r]. }
  destruct ((0xc2 <=? a)%N && (a <=? 0xdf)%N) eqn:E2.
  { destruct r as [|b r]; [done|]. destruct (is_continuation _ _ b) eqn:Eb; [|done].
    intros (cs' & H' & ->)%fmap_Some. unfold is_continuation in *. bool_prop.
    head 0%N 0%N (a - 0xc0)%N (b - 0x80)%N r. }
  destruct ((0xe0 <=? a)%N && (a <=? 0xef)%N) eqn:E3.
  { destruct r as [|b [|c r]]; [done..|].
    destruct (is_continuation _ _ b && is_continuation _ _ c) eqn:Eb; [|done].
    intros (cs' & H' & ->)%fmap_Some. unfold is_continuation in *. bool_prop.
    destruct (N.eqb_spec a 0xe0), (N.eqb_spec a 0xed); try lia;
      head 0%N (a - 0xe0)%N (b - 0x80)%N (c - 0x80)%N r. }
  destruct ((0xf0 <=? a)%N && (a <=? 0xf4)%N) eqn:E4; [|done].
  destruct r as [|b [|c [|d r]]]; [done..|].
  destruct (is_continuation _ _ b && is_continuation _ _ c && is_continuation _ _ d) eqn:Eb; [|done].
  intros (cs' & H' & ->)%fmap_Some. unfold is_continuation in *. bool_prop.
  destruct (N.eqb_spec a 0xf0), (N.eqb_spec a 0xf4); try lia;
    head (a - 0xf0)%N (b - 0x80)%N (c - 0x80)%N (d - 0x80)%N r.
Qed.

Lemma utf8_code_points_spec bytes cs :
  utf8_code_points bytes = Some cs <-> Forall is_scalar cs /\ mjoin (utf8_cp <$> cs) = bytes.
Proof.
  split.
  - revert cs. induction bytes as [bytes IH] using (induction_ltof1 _ length). unfold ltof in IH.
    intros cs. destruct bytes as [|a r]; [by intros [= <-]|].
    intros (c & r' & cs' & Hc & E & Hr & -> & Hlen)%utf8_code_points_inv. rewrite E.
    apply IH in Hr as [Hf <-]; [|done]. split; [by constructor|by rewrite fmap_cons, mjoin_cons].
  - intros [Hf <-]. induction Hf as [|c cs Hc Hf IH]; [done|].
    rewrite fmap_cons, mjoin_cons, utf8_code_points_step by done. by rewrite IH.
Qed.

Lemma pair_units_high c :
  is_scalar c -> (0x10000 <= c)%N ->
  exists u v, pair_units c = [u; v] /\ is_high u = true /\ is_low v = true /\ pair_cp u v = c /\
    (u < 0x10000)%N /\ (v < 0x10000)%N.
Proof.
  intros [_ Hb] Hc. unfold pair_units, is_high, is_low, pair_cp.
  rewrite (proj2 (N.ltb_ge c 0x10000)) by done. eexists _, _. split; [done|].
  set (h := ((c - 0x10000) / 1024)%N). set (l := ((c - 0x10000) mod 1024)%N).
  assert (c - 0x10000 = 1024 * h + l)%N as E by (by apply N.div_mod).
  assert (l < 1024)%N by (by apply N.mod_lt). clearbody h l.
  repeat decide_leb. repeat split; lia.
Qed.

Lemma pair_units_low c :
  is_scalar c -> (c < 0x10000)%N -> pair_units c = [c] /\ is_high c = false /\ is_low c = false.
Proof.
  intros [Hs Hb] Hc. unfold pair_units, is_high, is_low.
  rewrite (proj2 (N.ltb_lt c 0x10000)) by done. split; [done|].
  split; apply andb_false_iff; rewrite !N.leb_gt; lia.
Qed.

Lemma code_points_pairs cs :
  Forall is_scalar cs ->
  code_points (mjoin (pair_units <$> cs)) = cs /\ hasWellFormedUnicode (mjoin (pair_units <$> cs)) = true
  /\ js_units (mjoin (pair_units <$> cs)).
Proof.
  induction 1 as [|c cs Hc Hf (IHc & IHw & IHu)]; [repeat split; constructor|]. rewrite fmap_cons, mjoin_cons.
  destruct (N.lt_ge_cases c 0x10000) as [Hlt|Hge].
  - destruct (pair_units_low c Hc Hlt) as (-> & Eh & El).
    cbn [app code_points hasWellFormedUnicode]. rewrite Eh, El, IHc, IHw.
    repeat split. by constructor.
  - destruct (pair_units_high c Hc Hge) as (u & v & -> & Eh & El & Ec & Hu & Hv).
    cbn [app code_points hasWellFormedUnicode]. rewrite Eh, El, IHc, IHw, Ec.
    repeat split. by repeat constructor.
Qed.

Lemma code_points_are_scalars s :
  js_units s -> hasWellFormedUnicode s = true -> Forall is_scalar (code_points s).
Proof.
  unfold js_units. induction s as [|u|u v r IH1 IH2] using jstring_ind2; [done|..]; intros Hu Hw.
  - inversion Hu; subst. cbn [code_points hasWellFormedUnicode] in *. unfold is_high, is_low, is_scalar in *.
    repeat case_match; try done. bool_prop. constructor; [|done].
    repeat match goal with H : _ && _ = false |- _ => apply andb_false_iff in H as [H|H] end; bool_prop; lia.
  - inversion Hu as [|? ? Hu1 Hr]; subst. inversion Hr as [|? ? Hv Hr']; subst.
    rewrite wf_cons2 in Hw. rewrite code_points_cons2. unfold is_high, is_low, is_scalar in *.
    destruct ((0xd800 <=? u)%N && (u <=? 0xdbff)%N) eqn:Eu.
    + destruct ((0xdc00 <=? v)%N && (v <=? 0xdfff)%N) eqn:Ev; [|done].
      constructor; [|by apply IH1]. bool_prop. unfold pair_cp. lia.
    + destruct ((0xdc00 <=? u)%N && (u <=? 0xdfff)%N) eqn:El; [done|].
      constructor; [|by apply IH2].
      repeat match goal with H : _ && _ = false |- _ => apply andb_false_iff in H as [H|H] end; bool_prop; lia.
Qed.

Lemma utf8_decode_iff bytes s :
  utf8_decode bytes = Some s <-> js_units s /\ wf_text s /\ utf8 s = bytes.
Proof.
  unfold utf8_decode, wf_text, utf8. split.
  - intros (cs & [Hf <-]%utf8_code_points_spec & ->)%fmap_Some.
    destruct (code_points_pairs cs Hf) as (-> & ? & ?). done.
  - intros (Hu & Hw & <-). rewrite (proj2 (utf8_code_points_spec _ (code_points s))).
    + cbn. by rewrite code_points_decode.
    + split; [by apply code_points_are_scalars|done].
Qed.

(** ** Properties *)

(** The fatal decoder returns a text exactly when the bytes are its UTF-8
    encoding, and then the text is well formed: decoding inverts encoding, and
    every other byte sequence is refused. *)
Theorem utf8_decode_encode (bytes : list N) (s : jstring) :
  utf8_decode bytes = Some s <-> js_units s /\ wf_text s /\ utf8 s = bytes.
Proof. apply utf8_decode_iff. Qed.

(** Accents, a euro sign and a clef come back; an overlong slash and an encoded
    surrogate are refused. *)
Example decode_examples :
  utf8_decode [0xc3; 0xa9; 0xe2; 0x82; 0xac; 0xf0; 0x9d; 0x84; 0x9e]%N = Some [0xe9; 0x20ac; 0xd834; 0xdd1e]%N /\
  utf8_decode [0xc0; 0xaf]%N = None /\ utf8_decode [0xed; 0xa0; 0x80]%N = None.
Proof. repeat split; vm_compute; reflexivity. Qed.
