(* ===== verification/RepositoryPath.v ===== *)
(** Repository paths (packages/core/src/repository-path.ts): validation and
    canonicalization of repository-relative paths for both path grammars, and
    the conversions to and from fully qualified paths. *)
From S2P Require Import Prelude JsString Unicode.

Inductive PathFlavor := posix | win32.

Inductive RepositoryPathErrorCode :=
| controlCharacter
| malformedUnicode
| nonCanonical
| notRelative
| outsideRepository
| parentTraversal
| rootNotAbsolute
| targetNotAbsolute
| unsupportedDevicePath
| windowsDriveRelative
| windowsSeparator.

#[export] Instance RepositoryPathErrorCode_eq_dec : EqDecision RepositoryPathErrorCode.
Proof. solve_decision. Defined.

Abbreviation path_res := (res RepositoryPathErrorCode).

Definition SLASH : N := 47.
Definition BACKSLASH : N := 92.
Definition COLON : N := 58.

Definition REPOSITORY_ROOT : jstring := #".".

(** One pass over the units; a high surrogate also consumes its partner. *)
Fixpoint validateText (input : jstring) : path_res unit :=
  match input with
  | [] => Ok tt
  | u :: r =>
      if (u <=? 0x1f)%N || (u =? 0x7f)%N then Err controlCharacter
      else if is_high u then
        match r with
        | v :: r' => if is_low v then validateText r' else Err malformedUnicode
        | [] => Err malformedUnicode
        end
      else if is_low u then Err malformedUnicode
      else validateText r
  end.

(** ** The regular expressions *)

Definition is_sep (c : N) : bool := (c =? SLASH)%N || (c =? BACKSLASH)%N.
Definition is_letter (c : N) : bool :=
  (65 <=? c)%N && (c <=? 90)%N || (97 <=? c)%N && (c <=? 122)%N.

(** [/^[\\/]{2}[?.][\\/]/] *)
Definition isWindowsDevicePath (input : jstring) : bool :=
  match input with
  | a :: b :: c :: d :: _ =>
      is_sep a && is_sep b && ((c =? 63)%N || (c =? 46)%N) && is_sep d
  | _ => false
  end.

(** [/^[A-Za-z]:(?![\\/])/] *)
Definition isWindowsDriveRelative (input : jstring) : bool :=
  match input with
  | a :: b :: r =>
      is_letter a && (b =? COLON)%N && match r with c :: _ => negb (is_sep c) | [] => true end
  | _ => false
  end.

(** The rest of the share pattern after its two leading separators: a non-empty
    run of other units, one separator, and at least one more unit that is no
    separator (the greedy run after it always ends at a separator or the end). *)
Fixpoint unc_share (seen : bool) (s : jstring) : bool :=
  match s with
  | [] => false
  | c :: r =>
      if is_sep c
      then seen && match r with d :: _ => negb (is_sep d) | [] => false end
      else unc_share true r
  end.

(** [/^[A-Za-z]:[\\/]/] or [/^[\\/]{2}[^\\/]+[\\/][^\\/]+(?:[\\/]|$)/] *)
Definition isFullyQualifiedWindowsPath (input : jstring) : bool :=
  match input with
  | a :: b :: c :: _ => is_letter a && (b =? COLON)%N && is_sep c
  | _ => false
  end ||
  match input with
  | a :: b :: r => is_sep a && is_sep b && unc_share false r
  | _ => false
  end.

(** ** The platform's path module *)

(** [path.posix] and [path.win32] as the code uses them. *)
Record PathImplementation := {
  pi_isAbsolute : jstring -> bool;
  pi_normalize : jstring -> jstring;
  pi_relative : jstring -> jstring -> jstring;
  pi_join : jstring -> list jstring -> jstring;
  pi_sep : N
}.

Definition posix_isAbsolute (p : jstring) : bool := startsWith p [SLASH].

Definition win32_isAbsolute (p : jstring) : bool :=
  match p with
  | [] => false
  | a :: r =>
      is_sep a ||
      match r with
      | b :: c :: _ => is_letter a && (b =? COLON)%N && is_sep c
      | _ => false
      end
  end.

(** Node's segment resolution: empty and [.] segments vanish, [..] removes the
    segment before it and, when [allowAboveRoot], is kept when there is none. *)
Definition resolve_segment (allowAboveRoot : bool) (acc : list jstring) (seg : jstring) : list jstring :=
  if jeqb seg [] || jeqb seg #"." then acc
  else if jeqb seg #".." then
    match acc with
    | x :: acc' => if jeqb x #".." then (if allowAboveRoot then seg :: acc else acc) else acc'
    | [] => if allowAboveRoot then [seg] else []
    end
  else seg :: acc.

Definition normalizeString (p : jstring) (allowAboveRoot : bool) : list jstring :=
  rev (fold_left (resolve_segment allowAboveRoot) (split_on SLASH p) []).

Definition ends_with_slash (p : jstring) : bool :=
  match last p with Some c => (c =? SLASH)%N | None => false end.

(** [path.posix.normalize] *)
Definition posix_normalize (p : jstring) : jstring :=
  if jeqb p [] then #"."
  else
    let isAbsolute := posix_isAbsolute p in
    let trailing := ends_with_slash p in
    let body := join SLASH (normalizeString p (negb isAbsolute)) in
    if jeqb body [] then
      (if isAbsolute then #"/" else if trailing then #"./" else #".")
    else
      let body' := if trailing then body ++ [SLASH] else body in
      if isAbsolute then SLASH :: body' else body'.

Fixpoint strip_common (from to : list jstring) : list jstring * list jstring :=
  match from, to with
  | x :: from', y :: to' => if jeqb x y then strip_common from' to' else (from, to)
  | _, _ => (from, to)
  end.

(** [path.posix.relative] on absolute paths: climb out of what remains of
    [from], then descend. *)
Definition posix_relative (from to : jstring) : jstring :=
  let '(f, t) := strip_common (normalizeString from false) (normalizeString to false) in
  join SLASH (map (fun _ => #"..") f ++ t).

(** [path.posix.join(first, ...rest)] *)
Definition posix_join (first : jstring) (rest : list jstring) : jstring :=
  posix_normalize (join SLASH (filter (fun s => s <> []) (first :: rest))).

Definition posix_implementation : PathImplementation := {|
  pi_isAbsolute := posix_isAbsolute;
  pi_normalize := posix_normalize;
  pi_relative := posix_relative;
  pi_join := posix_join;
  pi_sep := SLASH
|}.

(** ** Canonicalization *)

Definition isAbsoluteFor (flavor : PathFlavor) : jstring -> bool :=
  match flavor with posix => posix_isAbsolute | win32 => win32_isAbsolute end.

Definition validateNoDevicePath (input : jstring) : path_res unit :=
  ensure (negb (isWindowsDevicePath input)) unsupportedDevicePath.

Definition validateFullyQualified (input : jstring) (flavor : PathFlavor)
    (code : RepositoryPathErrorCode) : path_res unit :=
  _ ← validateText input;
  _ ← validateNoDevicePath input;
  let isAbsolute := match flavor with
                    | posix => posix_isAbsolute input
                    | win32 => isFullyQualifiedWindowsPath input
                    end in
  ensure isAbsolute code.

(** [input.split(/\/+/)] and [input.split(/[\\/]+/)]: a run of separators cuts
    once. *)
Fixpoint split_runs (sep : N -> bool) (in_run : bool) (s : jstring) : list jstring :=
  match s with
  | [] => [[]]
  | c :: r =>
      if sep c then
        (if in_run then split_runs sep true r else [] :: split_runs sep true r)
      else
        match split_runs sep false r with
        | seg :: rest => (c :: seg) :: rest
        | [] => [[c]]
        end
  end.

Definition flavor_sep (flavor : PathFlavor) (c : N) : bool :=
  match flavor with posix => (c =? SLASH)%N | win32 => is_sep c end.

Definition push_segment (acc : list jstring) (segment : jstring) : path_res (list jstring) :=
  if jeqb segment [] || jeqb segment #"." then Ok acc
  else if jeqb segment #".." then Err parentTraversal
  else Ok (acc ++ [segment]).

Definition canonicalizeRepositoryRelativePath (input : jstring) (sourceFlavor : PathFlavor)
    : path_res jstring :=
  _ ← validateText input;
  _ ← validateNoDevicePath input;
  _ ← ensure (negb (isWindowsDriveRelative input)) windowsDriveRelative;
  _ ← ensure (negb (isAbsoluteFor sourceFlavor input || isFullyQualifiedWindowsPath input
                    || startsWith input [BACKSLASH])) notRelative;
  _ ← ensure (match sourceFlavor with
              | posix => negb (includes input BACKSLASH)
              | win32 => true
              end) windowsSeparator;
  canonicalSegments ← foldM push_segment [] (split_runs (flavor_sep sourceFlavor) false input);
  Ok (match canonicalSegments with
      | [] => REPOSITORY_ROOT
      | _ => join SLASH canonicalSegments
      end).

(** Every error the canonicalization throws is a RepositoryPathError, so the
    [catch] always answers [false]. *)
Definition isRepositoryRelativePath (input : jstring) : bool :=
  match canonicalizeRepositoryRelativePath input posix with
  | Ok c => jeqb c input
  | Err _ => false
  end.

Definition compareRepositoryRelativePaths (left right : jstring) : Z :=
  if jeqb left right then 0 else if jltb left right then -1 else 1.

Definition repositoryRelativePathsEqual (left right : jstring) : bool := jeqb left right.

Section conversions.
(** The Windows half of the platform's path module. *)
Context (win32_implementation : PathImplementation).

Definition implementationFor (flavor : PathFlavor) : PathImplementation :=
  match flavor with posix => posix_implementation | win32 => win32_implementation end.

Definition repositoryRelativePathFromAbsolute (root target : jstring) (flavor : PathFlavor)
    : path_res jstring :=
  _ ← validateFullyQualified root flavor rootNotAbsolute;
  _ ← validateFullyQualified target flavor targetNotAbsolute;
  let implementation := implementationFor flavor in
  let normalizedRoot := pi_normalize implementation root in
  let normalizedTarget := pi_normalize implementation target in
  let relative := pi_relative implementation normalizedRoot normalizedTarget in
  _ ← ensure (negb (pi_isAbsolute implementation relative || jeqb relative #".."
                    || startsWith relative (#".." ++ [pi_sep implementation])))
             outsideRepository;
  canonicalizeRepositoryRelativePath relative flavor.

Definition repositoryRelativePathToAbsolute (root relativePath : jstring) (flavor : PathFlavor)
    : path_res jstring :=
  _ ← validateFullyQualified root flavor rootNotAbsolute;
  canonical ← canonicalizeRepositoryRelativePath relativePath posix;
  _ ← ensure (jeqb canonical relativePath) nonCanonical;
  let implementation := implementationFor flavor in
  let normalizedRoot := pi_normalize implementation root in
  Ok (if jeqb relativePath REPOSITORY_ROOT then normalizedRoot
      else pi_join implementation normalizedRoot (split_on SLASH relativePath)).
End conversions.

(** ** Lemmas *)

(** Printable, well-formed text: what [validateText] accepts. *)
Definition clean_unit (u : N) : Prop := (0x1f < u)%N /\ u <> 0x7f%N.
Definition clean (s : jstring) : Prop := wf_text s /\ Forall clean_unit s.

Lemma validateText_cons2 u v r :
  validateText (u :: v :: r) =
  if (u <=? 0x1f)%N || (u =? 0x7f)%N then Err controlCharacter
  else if is_high u then if is_low v then validateText r else Err malformedUnicode
  else if is_low u then Err malformedUnicode else validateText (v :: r).
Proof. done. Qed.

Lemma validateText_Ok s : validateText s = Ok tt <-> clean s.
Proof.
  unfold clean, wf_text, clean_unit.
  induction s as [|u|u v r IH1 IH2] using jstring_ind2.
  - split; [by repeat constructor|done].
  - simpl. rewrite Forall_singleton.
    destruct (N.leb_spec u 0x1f), (N.eqb_spec u 0x7f); simpl;
      try (split; [done|intros; destruct_and?; lia]).
    destruct (is_high u), (is_low u); split; try done; intros; destruct_and?; done.
  - rewrite wf_cons2, validateText_cons2, !Forall_cons.
    destruct (N.leb_spec u 0x1f); [split; [done|intros (? & ? & ?); lia]|].
    destruct (N.eqb_spec u 0x7f); [split; [done|intros (? & [] & ?); done]|]. cbn [orb].
    destruct (is_high u) eqn:Eh.
    + destruct (is_low v) eqn:El; [|split; [done|intros []; done]].
      rewrite IH1. unfold is_low in El. bool_prop.
      split; [intros []; repeat split; try done; lia|intros (?&?&?&?); done].
    + destruct (is_low u); [split; [done|intros []; done]|].
      rewrite IH2, Forall_cons. split; intros; destruct_and?; repeat split; done || lia.
Qed.

Lemma SLASH_plain : is_plain SLASH = true.
Proof. done. Qed.

(** What a canonical path is made of. *)
Definition good_segment (s : jstring) : Prop :=
  s <> [] /\ s <> #"." /\ s <> #".." /\ (SLASH ∉ s) /\ (BACKSLASH ∉ s).

Definition kept (s : jstring) : bool := negb (jeqb s [] || jeqb s #".").

Lemma foldM_push acc segs :
  foldM push_segment acc segs =
  if existsb (jeqb (#"..")) segs then Err parentTraversal else Ok (acc ++ List.filter kept segs).
Proof.
  revert acc; induction segs as [|s segs IH]; intros acc; cbn [foldM existsb List.filter].
  - by rewrite app_nil_r.
  - assert (push_segment acc s =
            if jeqb s [] || jeqb s #"." then Ok acc
            else if jeqb s #".." then Err parentTraversal else Ok (acc ++ [s])) as -> by done.
    unfold kept at 1.
    destruct (jeqb s [] || jeqb s #".") eqn:E1; cbn [negb].
    + assert (jeqb (#"..") s = false) as ->.
      { apply jeqb_neq. intros <-. done. }
      cbn [mbind res_mbind orb]. apply IH.
    + destruct (jeqb s #"..") eqn:E2.
      * apply jeqb_eq in E2 as ->. by rewrite jeqb_refl.
      * assert (jeqb (#"..") s = false) as ->.
        { apply jeqb_neq. intros <-. by rewrite jeqb_refl in E2. }
        cbn [mbind res_mbind orb]. rewrite IH. by rewrite <- app_assoc.
Qed.

(** *** Cutting at runs of separators *)
Section split_runs.
Context (sep : N -> bool).

Lemma split_runs_nonempty b s : split_runs sep b s <> [].
Proof.
  revert b; induction s as [|c s IH]; intros b; simpl; [done|].
  destruct (sep c); [by destruct b|]. by destruct (split_runs sep false s).
Qed.

Lemma split_runs_units b s seg x :
  seg ∈ split_runs sep b s -> x ∈ seg -> sep x = false /\ x ∈ s.
Proof.
  revert b seg; induction s as [|c s IH]; intros b seg; simpl.
  { intros ->%list_elem_of_singleton []%not_elem_of_nil. }
  destruct (sep c) eqn:Ec.
  - intros Hseg Hx. assert (sep x = false /\ x ∈ s) as [? ?]; [|set_solver].
    destruct b; [by apply (IH true seg)|].
    apply elem_of_cons in Hseg as [->|Hseg]; [by apply not_elem_of_nil in Hx|].
    by apply (IH true seg).
  - pose proof (IH false) as IH'. pose proof (split_runs_nonempty false s).
    destruct (split_runs sep false s) as [|seg' rest]; [done|].
    intros [->|Hseg]%elem_of_cons Hx.
    + apply elem_of_cons in Hx as [->|Hx]; [set_solver|].
      destruct (IH' seg'); [set_solver|done|set_solver].
    + destruct (IH' seg); [set_solver|done|set_solver].
Qed.

Lemma split_runs_cons_plain b c s :
  sep c = false ->
  split_runs sep b (c :: s) =
  match split_runs sep false s with seg :: rest => (c :: seg) :: rest | [] => [[c]] end.
Proof. simpl. by intros ->. Qed.

Lemma split_runs_cons_sep b c s :
  sep c = true ->
  split_runs sep b (c :: s) =
  if b then split_runs sep true s else [] :: split_runs sep true s.
Proof. simpl. by intros ->. Qed.

Lemma split_runs_wf b s :
  (forall c, sep c = true -> is_plain c = true) ->
  wf_text s -> Forall wf_text (split_runs sep b s).
Proof.
  intros Hsep. assert (forall c, is_high c || is_low c = true -> sep c = false) as Hsur.
  { intros c Hc. destruct (sep c) eqn:E; [|done]. apply Hsep in E. unfold is_plain in E.
    destruct (is_high c), (is_low c); done. }
  revert b. unfold wf_text.
  induction s as [|u|u v r IH1 IH2] using jstring_ind2; intros b Hs.
  - by repeat constructor.
  - simpl. destruct (sep u), b; by repeat constructor.
  - rewrite wf_cons2 in Hs. destruct (is_high u) eqn:Eh.
    + destruct (is_low v) eqn:El; [|done].
      rewrite !split_runs_cons_plain by (apply Hsur; rewrite ?Eh, ?El; auto using orb_true_r).
      specialize (IH1 false Hs). pose proof (split_runs_nonempty false r).
      destruct (split_runs sep false r) as [|seg rest]; [done|].
      inversion IH1; subst. constructor; [|done]. by rewrite wf_cons2, Eh, El.
    + destruct (is_low u) eqn:El; [done|]. destruct (sep u) eqn:Eu.
      * rewrite split_runs_cons_sep by done. destruct b; [by apply IH2|].
        constructor; [done|]. by apply IH2.
      * rewrite split_runs_cons_plain by done. specialize (IH2 false Hs).
        pose proof (split_runs_nonempty false (v :: r)).
        destruct (split_runs sep false (v :: r)) as [|seg rest]; [done|].
        inversion IH2; subst. constructor; [|done]. unfold wf_text in *.
        change (wf_text ([u] ++ seg)). unfold wf_text. rewrite wf_app; [done|].
        simpl. by rewrite Eh, El.
Qed.

Lemma split_runs_cut b a c t :
  Forall (fun x => sep x = false) a -> a <> [] -> sep c = true ->
  split_runs sep b (a ++ c :: t) = a :: split_runs sep true t.
Proof.
  intros Ha Hn Hc. revert b. induction Ha as [|x a Hx Ha IH]; [done|]. intros b.
  cbn [app]. rewrite split_runs_cons_plain by done. destruct a as [|y a].
  - simpl. by rewrite Hc.
  - by rewrite IH.
Qed.

Lemma split_runs_plain b a :
  Forall (fun x => sep x = false) a -> a <> [] -> split_runs sep b a = [a].
Proof.
  intros Ha Hn. revert b. induction Ha as [|x a Hx Ha IH]; [done|]. intros b.
  rewrite split_runs_cons_plain by done. destruct a as [|y a]; [done|]. by rewrite IH.
Qed.

Lemma split_runs_join b c segs :
  sep c = true -> segs <> [] ->
  Forall (fun a => a <> [] /\ Forall (fun x => sep x = false) a) segs ->
  split_runs sep b (join c segs) = segs.
Proof.
  intros Hc Hn Hs. revert b. induction Hs as [|a segs [Ha Hx] Hs IH]; [done|]. intros b.
  destruct segs as [|a' segs]; [by apply split_runs_plain|].
  change (join c (a :: a' :: segs)) with (a ++ c :: join c (a' :: segs)).
  rewrite split_runs_cut by done. by rewrite IH.
Qed.
End split_runs.

(** *** Canonical results *)

(** A leading letter and colon: a Windows drive. *)
Definition drive_prefix (s : jstring) : bool :=
  match s with a :: b :: _ => is_letter a && (b =? COLON)%N | _ => false end.

Definition clean_segments (segs : list jstring) : Prop :=
  Forall good_segment segs /\ Forall clean segs.

Lemma split_on_good segs :
  segs <> [] -> Forall good_segment segs -> split_on SLASH (join SLASH segs) = segs.
Proof.
  intros Hn Hg. apply split_on_join; [done|].
  eapply Forall_impl; [done|]. by intros ? (_ & _ & _ & ? & _).
Qed.

(** The grammar of canonical paths, stated without the algorithm. *)
Definition canonical_path (s : jstring) : Prop :=
  clean s /\ drive_prefix s = false /\
  (s = REPOSITORY_ROOT \/
   exists segs, segs <> [] /\ Forall good_segment segs /\ s = join SLASH segs).

Definition join_segments (segs : list jstring) : jstring :=
  match segs with [] => REPOSITORY_ROOT | _ => join SLASH segs end.

Lemma clean_join segs : Forall clean segs -> clean (join SLASH segs).
Proof.
  intros H. split.
  - apply wf_join; [done|]. eapply Forall_impl; [done|]. by intros s [].
  - rewrite Forall_forall in H. rewrite Forall_forall. intros x [->|(s & Hs & Hx)]%elem_of_join.
    + by unfold clean_unit, SLASH.
    + apply H in Hs as [_ Hs]. rewrite Forall_forall in Hs. auto.
Qed.

Lemma clean_join_segments segs : Forall clean segs -> clean (join_segments segs).
Proof. intros H. destruct segs; [|by apply clean_join]. apply validateText_Ok. done. Qed.

Lemma clean_join_inv segs : clean (join SLASH segs) -> Forall clean segs.
Proof.
  intros [Hw%wf_join_inv Hu]; [|done]. rewrite Forall_forall in Hw. rewrite Forall_forall in Hu. rewrite Forall_forall.
  intros s Hs. split; [auto|]. rewrite Forall_forall. eauto using elem_of_join_segment.
Qed.

Lemma is_sep_units x : is_sep x = false <-> x <> SLASH /\ x <> BACKSLASH.
Proof. unfold is_sep. rewrite orb_false_iff, !N.eqb_neq. done. Qed.

Lemma good_segment_sep s x : good_segment s -> x ∈ s -> is_sep x = false.
Proof. intros (_ & _ & _ & H1 & H2) Hx. apply is_sep_units. split; congruence. Qed.

Lemma flavor_sep_plain flavor c : flavor_sep flavor c = true -> is_plain c = true.
Proof.
  destruct flavor; simpl; unfold is_sep, SLASH, BACKSLASH.
  - by intros ->%N.eqb_eq.
  - by intros [->%N.eqb_eq| ->%N.eqb_eq]%orb_true_iff.
Qed.

Lemma canonical_segments input flavor segs :
  clean input -> (flavor = posix -> includes input BACKSLASH = false) ->
  foldM push_segment [] (split_runs (flavor_sep flavor) false input) = Ok segs ->
  clean_segments segs.
Proof.
  intros [Hw Hu] Hb. rewrite foldM_push. case_match eqn:Hdots; [done|]. intros [= <-].
  cbn [app]. split; rewrite Forall_forall; intros s Hs;
    apply list_elem_of_In, filter_In in Hs as [Hs%list_elem_of_In Hk].
  - unfold kept in Hk. bool_prop. apply jeqb_neq in H, H0.
    assert (forall x, x ∈ s -> flavor_sep flavor x = false /\ x ∈ input) as Hx
      by (intros x; by apply split_runs_units with (b := false)).
    repeat split; try done.
    + intros ->. apply not_true_iff_false in Hdots as []. apply existsb_elem.
      exists (#".."). by rewrite jeqb_refl.
    + intros Hin%Hx. destruct flavor, Hin; done.
    + intros Hin%Hx. destruct flavor, Hin as [Hin1 Hin2]; [|done].
      by apply includes_false in Hb.
  - split.
    + assert (Forall wf_text (split_runs (flavor_sep flavor) false input)) as H
        by (apply split_runs_wf; [apply flavor_sep_plain|done]).
      rewrite Forall_forall in H. by apply H.
    + rewrite Forall_forall in Hu. rewrite Forall_forall. intros x Hx. apply Hu.
      eapply split_runs_units; eauto.
Qed.

Lemma canonicalize_Ok input flavor c :
  canonicalizeRepositoryRelativePath input flavor = Ok c ->
  clean input /\ exists segs, clean_segments segs /\ c = join_segments segs.
Proof.
  unfold canonicalizeRepositoryRelativePath. intros H. res_inv.
  apply validateText_Ok in Hv. split; [done|]. exists v4. split; [|by destruct v4].
  eapply canonical_segments; [done| |done]. intros ->. by apply negb_true_iff.
Qed.

(** The first unit of a non-empty join of good segments is no separator. *)
Lemma join_good_head segs :
  segs <> [] -> Forall good_segment segs ->
  exists x r, join SLASH segs = x :: r /\ is_sep x = false.
Proof.
  intros Hn Hg. destruct Hg as [|[|x s] segs Hs Hg]; [done|by destruct Hs|].
  exists x. assert (is_sep x = false) by (eapply good_segment_sep; [done|set_solver]).
  destruct segs; eauto.
Qed.

Lemma good_segments_no_backslash segs : Forall good_segment segs -> BACKSLASH ∉ join SLASH segs.
Proof.
  intros Hg Hin. apply elem_of_join in Hin as [?|(s & Hs & Hx)]; [done|].
  rewrite Forall_forall in Hg. by apply Hg in Hs as (_ & _ & _ & _ & ?).
Qed.

Lemma good_segments_push segs :
  segs <> [] -> Forall good_segment segs ->
  foldM push_segment [] (split_runs (flavor_sep posix) false (join SLASH segs)) = Ok segs.
Proof.
  intros Hn Hg. rewrite split_runs_join; [|done|done|].
  - rewrite foldM_push. rewrite Forall_forall in Hg. case_match eqn:E.
    + apply existsb_elem in E as (s & Hs%Hg & <-%jeqb_eq). by destruct Hs as (_ & _ & [] & _).
    + simpl. f_equal. clear Hn E. induction segs as [|s segs IH]; [done|]. simpl.
      assert (kept s = true) as ->.
      { destruct (Hg s) as (? & ? & _); [set_solver|]. unfold kept.
        by rewrite (proj2 (jeqb_neq s _)), (proj2 (jeqb_neq s _)). }
      f_equal. apply IH. set_solver.
  - eapply Forall_impl; [done|]. intros s Hs. split; [by destruct Hs|].
    rewrite Forall_forall. intros x Hx. eapply good_segment_sep, is_sep_units in Hx as [? _]; [|done].
    by apply N.eqb_neq.
Qed.

(** Re-canonicalizing a join of good segments changes nothing, unless the text
    now begins like a Windows drive. *)
Lemma canonicalize_join segs :
  segs <> [] -> Forall good_segment segs -> clean (join SLASH segs) ->
  if drive_prefix (join SLASH segs)
  then is_ok (canonicalizeRepositoryRelativePath (join SLASH segs) posix) = false
  else canonicalizeRepositoryRelativePath (join SLASH segs) posix = Ok (join SLASH segs).
Proof.
  intros Hn Hg Hc. pose proof (good_segments_push segs Hn Hg) as Hp.
  pose proof (good_segments_no_backslash segs Hg) as Hb%includes_false.
  destruct (join_good_head segs Hn Hg) as (x & r & Hj & Hx).
  apply validateText_Ok in Hc. unfold canonicalizeRepositoryRelativePath.
  rewrite Hc, Hb, Hp. rewrite Hj in *. cbn [mbind res_mbind].
  assert (isWindowsDevicePath (x :: r) = false) as Hdev.
  { destruct r as [|b [|c [|d r]]]; simpl; rewrite ?Hx; done. }
  assert (posix_isAbsolute (x :: r) = false) as Habs.
  { apply is_sep_units in Hx as [Hx _]. unfold posix_isAbsolute; cbn [startsWith].
    rewrite andb_true_r. apply N.eqb_neq. congruence. }
  assert (startsWith (x :: r) [BACKSLASH] = false) as Hbs.
  { apply is_sep_units in Hx as [_ Hx]. cbn [startsWith].
    rewrite andb_true_r. apply N.eqb_neq. congruence. }
  unfold validateNoDevicePath, isAbsoluteFor. rewrite Hdev, Habs, Hbs.
  unfold isFullyQualifiedWindowsPath, isWindowsDriveRelative, drive_prefix.
  destruct r as [|b [|c r]]; rewrite ?Hx, ?andb_false_l, ?orb_false_r; cbn [orb].
  - destruct segs; [done|]. simpl. by rewrite <- Hj.
  - rewrite andb_true_r. destruct (is_letter x && (b =? COLON)%N); [done|].
    destruct segs; [done|]. simpl. by rewrite <- Hj.
  - destruct (is_letter x && (b =? COLON)%N); cbn [andb];
      [by destruct (is_sep c)|]. destruct segs; [done|]. simpl. by rewrite <- Hj.
Qed.

Lemma is_ok_not_path s :
  is_ok (canonicalizeRepositoryRelativePath s posix) = false -> isRepositoryRelativePath s = false.
Proof. unfold isRepositoryRelativePath. by destruct (canonicalizeRepositoryRelativePath s posix). Qed.

(** *** The POSIX path module on absolute paths *)

(** What survives Node's resolution below the root. *)
Definition norm_segment (s : jstring) : Prop :=
  s <> [] /\ s <> #"." /\ s <> #".." /\ (SLASH ∉ s).

Lemma good_norm s : good_segment s -> norm_segment s.
Proof. intros (?&?&?&?&?). repeat split; done. Qed.

Lemma good_norm_all segs : Forall good_segment segs -> Forall norm_segment segs.
Proof. intros H. eapply Forall_impl; [done|]. apply good_norm. Qed.

Lemma resolve_norm acc s : norm_segment s -> resolve_segment false acc s = s :: acc.
Proof.
  intros (H1 & H2 & H3 & _). unfold resolve_segment.
  by rewrite (proj2 (jeqb_neq s _) H1), (proj2 (jeqb_neq s _) H2), (proj2 (jeqb_neq s _) H3).
Qed.

Lemma resolve_all_norm acc segs :
  Forall norm_segment segs -> fold_left (resolve_segment false) segs acc = rev segs ++ acc.
Proof.
  intros H. revert acc. induction H as [|s segs Hs H IH]; intros acc; [done|]. simpl.
  by rewrite resolve_norm, IH, <- app_assoc.
Qed.

Lemma resolve_keeps_norm acc segs :
  Forall norm_segment acc -> Forall (fun s => SLASH ∉ s) segs ->
  Forall norm_segment (fold_left (resolve_segment false) segs acc).
Proof.
  intros Ha Hs. revert acc Ha. induction Hs as [|s segs Hs _ IH]; intros acc Ha; [done|].
  simpl. apply IH. unfold resolve_segment.
  destruct (jeqb s [] || jeqb s #".") eqn:E1; [done|]. bool_prop.
  destruct (jeqb s #"..") eqn:E2.
  - destruct Ha as [|x acc Hx Ha]; [done|].
    destruct (jeqb x #".."); [by constructor|done].
  - constructor; [|done]. repeat split; [by apply jeqb_neq..|done].
Qed.

Lemma resolve_units acc segs s :
  s ∈ fold_left (resolve_segment false) segs acc -> s ∈ acc \/ s ∈ segs.
Proof.
  revert acc; induction segs as [|s' segs IH]; intros acc; simpl; [auto|].
  intros [H|H]%IH; [|set_solver]. revert H. unfold resolve_segment.
  destruct (jeqb s' [] || jeqb s' #"."); [auto|].
  destruct (jeqb s' #".."); [|set_solver].
  destruct acc as [|y acc]; [auto|]. destruct (jeqb y #".."); set_solver.
Qed.

Lemma normalizeString_norm p : Forall norm_segment (normalizeString p false).
Proof.
  unfold normalizeString. apply List.Forall_rev, resolve_keeps_norm; [constructor|].
  rewrite Forall_forall. intros s. apply split_on_no_sep.
Qed.

Lemma normalizeString_clean p : clean p -> Forall clean (normalizeString p false).
Proof.
  intros Hp. rewrite <- (join_split_on SLASH p) in Hp. apply clean_join_inv in Hp.
  rewrite Forall_forall in Hp. rewrite Forall_forall.
  intros s Hs. apply Hp. unfold normalizeString in Hs. apply list_elem_of_In, in_rev, list_elem_of_In in Hs.
  by apply resolve_units in Hs as [[]%not_elem_of_nil|?].
Qed.

(** A rooted path made of the given segments, with an optional final slash. *)
Definition rooted (segs : list jstring) (trailing : bool) : jstring :=
  SLASH :: join SLASH segs ++ (if trailing then [SLASH] else []).

Lemma normalizeString_rooted segs trailing :
  Forall norm_segment segs -> normalizeString (rooted segs trailing) false = segs.
Proof.
  intros H. unfold normalizeString, rooted.
  assert (fold_left (resolve_segment false) (split_on SLASH (join SLASH segs)) [] = rev segs) as E.
  { destruct segs as [|s segs]; [done|]. rewrite split_on_join; [|done|].
    - by rewrite resolve_all_norm, app_nil_r.
    - eapply Forall_impl; [done|]. by intros ? (_ & _ & _ & ?). }
  change (SLASH :: ?x) with ([] ++ SLASH :: x). rewrite split_on_app. cbn [split_on app fold_left].
  change (resolve_segment false [] []) with (@nil jstring).
  destruct trailing; [|by rewrite app_nil_r, E, rev_involutive].
  rewrite split_on_app, fold_left_app, E.
  change (rev (rev segs) = segs). by rewrite rev_involutive.
Qed.

Lemma posix_isAbsolute_cons p : posix_isAbsolute p = true -> exists q, p = SLASH :: q.
Proof. intros [q ->]%startsWith_spec. by exists q. Qed.

(** [path.posix.normalize] of an absolute path is rooted. *)
Lemma posix_normalize_rooted p :
  posix_isAbsolute p = true ->
  exists trailing, posix_normalize p = rooted (normalizeString p false) trailing.
Proof.
  intros Ha. unfold posix_normalize. rewrite Ha. cbn [negb].
  destruct (posix_isAbsolute_cons p Ha) as [q Hq].
  assert (jeqb p [] = false) as -> by (apply jeqb_neq; by subst p).
  destruct (jeqb (join SLASH (normalizeString p false)) []) eqn:E.
  - exists false. apply jeqb_eq in E. unfold rooted. by rewrite E.
  - exists (ends_with_slash p). unfold rooted.
    destruct (ends_with_slash p); [done|]. by rewrite app_nil_r.
Qed.

Lemma normalize_idem p :
  posix_isAbsolute p = true ->
  normalizeString (posix_normalize p) false = normalizeString p false.
Proof.
  intros Ha. destruct (posix_normalize_rooted p Ha) as [t ->].
  apply normalizeString_rooted, normalizeString_norm.
Qed.

Lemma normalizeString_app p q :
  normalizeString (p ++ SLASH :: q) false =
  rev (fold_left (resolve_segment false) (split_on SLASH q) (rev (normalizeString p false))).
Proof. unfold normalizeString. by rewrite split_on_app, fold_left_app, rev_involutive. Qed.

Lemma strip_common_prefix a b : strip_common a (a ++ b) = ([], b).
Proof. induction a as [|x a IH]; simpl; [by destruct b|]. by rewrite jeqb_refl. Qed.

Lemma clean_rooted segs trailing : Forall clean segs -> clean (rooted segs trailing).
Proof.
  intros H%clean_join. unfold rooted, clean in *. destruct H as [Hw Hu]. split.
  - change (SLASH :: ?x) with ([] ++ SLASH :: x). unfold wf_text. rewrite wf_app_plain by done.
    simpl. destruct trailing; [|by rewrite app_nil_r]. by rewrite wf_app.
  - constructor; [done|]. apply Forall_app. split; [done|]. destruct trailing; by repeat constructor.
Qed.

Lemma filter_nonempty_segments segs :
  Forall norm_segment segs -> filter (fun s : jstring => s <> []) segs = segs.
Proof.
  induction 1 as [|s segs Hs H IH]; [done|]. rewrite filter_cons_True; [by rewrite IH|].
  by destruct Hs.
Qed.

(** Joining below an absolute root appends the segments. *)
Lemma posix_join_segments root segs :
  posix_isAbsolute root = true -> segs <> [] -> Forall norm_segment segs ->
  posix_isAbsolute (posix_join (posix_normalize root) segs) = true /\
  exists trailing,
    posix_join (posix_normalize root) segs = rooted (normalizeString root false ++ segs) trailing.
Proof.
  intros Ha Hn Hs. destruct (posix_normalize_rooted root Ha) as [t Ht].
  unfold posix_join. rewrite Ht. rewrite filter_cons_True by (unfold rooted; discriminate).
  rewrite filter_nonempty_segments by done.
  set (p := join SLASH (rooted (normalizeString root false) t :: segs)).
  assert (posix_isAbsolute p = true) as Hp by (unfold p; by destruct segs).
  destruct (posix_normalize_rooted p Hp) as [t' Ht'].
  assert (normalizeString p false = normalizeString root false ++ segs) as E.
  { unfold p. destruct segs as [|s segs]; [done|].
    change (join SLASH (?r :: s :: segs)) with (r ++ SLASH :: join SLASH (s :: segs)).
    rewrite normalizeString_app, split_on_join; [|done|].
    - rewrite normalizeString_rooted by apply normalizeString_norm.
      rewrite resolve_all_norm by done. by rewrite rev_app_distr, !rev_involutive.
    - eapply Forall_impl; [done|]. by intros ? (_ & _ & _ & ?). }
  rewrite Ht', E. split; [done|]. by exists t'.
Qed.

Lemma canonical_path_iff (s : jstring) :
  isRepositoryRelativePath s = true <-> canonical_path s.
Proof.
  split.
  - unfold isRepositoryRelativePath. destruct (canonicalizeRepositoryRelativePath s posix) eqn:E; [|done].
    intros ->%jeqb_eq. destruct (canonicalize_Ok s posix s E) as (Hc & segs & [Hg Hcs] & Hs).
    destruct segs as [|x segs]; [by subst s; split; [|split; [|left]]|].
    split; [done|]. split; [|right; by exists (x :: segs)].
    pose proof (canonicalize_join (x :: segs)) as Hj.
    change (join_segments (x :: segs)) with (join SLASH (x :: segs)) in Hs.
    rewrite <- Hs in Hj. destruct (drive_prefix s); [|done].
    rewrite E in Hj. by discriminate Hj.
  - intros (Hc & Hd & [->|(segs & Hn & Hg & ->)]); [done|].
    pose proof (canonicalize_join segs Hn Hg Hc) as Hj. rewrite Hd in Hj.
    unfold isRepositoryRelativePath. by rewrite Hj, jeqb_refl.
Qed.

Lemma isRepositoryRelativePath_clean s : isRepositoryRelativePath s = true -> clean s.
Proof. by intros [Hc _]%canonical_path_iff. Qed.

(** ** Properties *)

(** C36.  [isRepositoryRelativePath] decides exactly the grammar of canonical
    paths: printable well-formed text that is [.] or a non-empty slash-joined
    list of segments none of which is empty, [.], [..] or contains a separator,
    and that does not begin like a Windows drive. *)
Theorem isRepositoryRelativePath_spec (s : jstring) :
  isRepositoryRelativePath s = true <-> canonical_path s.
Proof. apply canonical_path_iff. Qed.

(**  Canonicalization lands in the canonical paths, from either grammar,
    except for results that begin like a Windows drive, which the canonical
    test then refuses. *)
Theorem canonicalize_canonical (input : jstring) (flavor : PathFlavor) (c : jstring)
  (H : canonicalizeRepositoryRelativePath input flavor = Ok c) :
  isRepositoryRelativePath c = negb (drive_prefix c) /\
  (drive_prefix c = false -> canonicalizeRepositoryRelativePath c posix = Ok c).
Proof.
  destruct (canonicalize_Ok input flavor c H) as (_ & segs & [Hg Hc] & ->).
  destruct segs as [|x segs]; [done|].
  pose proof (canonicalize_join (x :: segs)) as Hj.
  change (join_segments (x :: segs)) with (join SLASH (x :: segs)).
  specialize (Hj ltac:(done) Hg (clean_join _ Hc)).
  destruct (drive_prefix (join SLASH (x :: segs))).
  - split; [by apply is_ok_not_path|done].
  - split; [|done]. unfold isRepositoryRelativePath. by rewrite Hj, jeqb_refl.
Qed.

Lemma canonicalize_canonical_witness :
  canonicalizeRepositoryRelativePath #"docs\.\a//b" win32 = Ok #"docs/a/b" /\
  isRepositoryRelativePath #"docs/a/b" = negb (drive_prefix #"docs/a/b").
Proof.
  split; [reflexivity|].
  apply (canonicalize_canonical #"docs\.\a//b" win32 #"docs/a/b"). reflexivity.
Defined.

(**  The exception is real: canonicalizing [./C:x] succeeds with [C:x], a
    text the same function rejects as drive-relative, so canonicalization is
    not idempotent and its result can fail the canonical test. *)
Theorem canonicalize_not_idempotent :
  canonicalizeRepositoryRelativePath #"./C:x" posix = Ok #"C:x" /\
  canonicalizeRepositoryRelativePath #"C:x" posix = Err windowsDriveRelative /\
  isRepositoryRelativePath #"C:x" = false.
Proof. repeat split. Qed.

(**  Converting a canonical path below an absolute POSIX root and back is
    the identity, whenever the absolute text is itself accepted (it is not in
    the Windows device namespace). *)
Theorem absolute_roundtrip (win : PathImplementation) (root rel target : jstring)
  (Hto : repositoryRelativePathToAbsolute win root rel posix = Ok target)
  (Hdev : isWindowsDevicePath target = false) :
  repositoryRelativePathFromAbsolute win root target posix = Ok rel.
Proof.
  unfold repositoryRelativePathToAbsolute in Hto. res_inv.
  pose proof Hv as Hroot. unfold validateFullyQualified in Hv. res_inv.
  apply validateText_Ok in Hv2. apply jeqb_eq in Hv1 as ->.
  destruct (canonicalize_Ok rel posix rel Hv0) as (_ & segs & [Hg Hc] & Hrel).
  set (R := normalizeString root false) in *.
  assert (HR : Forall clean R) by by apply normalizeString_clean.
  assert (exists t, target = rooted (R ++ segs) t) as [t Ht].
  { destruct segs as [|s segs]; unfold join_segments in Hrel; subst rel.
    - simpl in Hto. destruct (posix_normalize_rooted root Hv) as [t Ht]. exists t.
      by rewrite app_nil_r, <- Hto.
    - assert (jeqb (join SLASH (s :: segs)) REPOSITORY_ROOT = false) as E.
      { apply jeqb_neq. intros E. apply (f_equal (split_on SLASH)) in E.
        rewrite split_on_good in E by done. injection E as -> ->.
        inversion Hg as [|? ? Hs Hg']; subst. by destruct Hs as (_ & [] & _). }
      rewrite E, split_on_good in Hto by done.
      destruct (posix_join_segments root (s :: segs) Hv) as (_ & t & Ht); [done| |].
      + by apply good_norm_all.
      + exists t. by rewrite <- Hto. }
  assert (HRs : Forall norm_segment (R ++ segs)).
  { apply Forall_app. split; [apply normalizeString_norm|]. by apply good_norm_all. }
  assert (posix_isAbsolute target = true) as Habs by by rewrite Ht.
  unfold repositoryRelativePathFromAbsolute. rewrite Hroot. cbn [mbind res_mbind].
  assert (validateFullyQualified target posix targetNotAbsolute = Ok tt) as ->.
  { unfold validateFullyQualified, validateNoDevicePath.
    assert (validateText target = Ok tt) as ->.
    { apply validateText_Ok. rewrite Ht. by apply clean_rooted, Forall_app. }
    by rewrite Hdev, Habs. }
  cbn [mbind res_mbind implementationFor posix_implementation pi_relative pi_normalize
       pi_isAbsolute pi_sep].
  assert (posix_relative (posix_normalize root) (posix_normalize target) = join SLASH segs) as ->.
  { unfold posix_relative. rewrite !normalize_idem by done. rewrite Ht at 1.
    rewrite normalizeString_rooted by done. by rewrite strip_common_prefix. }
  destruct segs as [|s segs]; [by subst rel|]. unfold join_segments in Hrel. subst rel.
  destruct (join_good_head (s :: segs)) as (x & r & Hj & Hx); [done..|].
  assert (posix_isAbsolute (join SLASH (s :: segs)) = false) as ->.
  { rewrite Hj. apply is_sep_units in Hx as [Hx _]. unfold posix_isAbsolute; cbn [startsWith].
    rewrite andb_true_r. apply N.eqb_neq. congruence. }
  pose proof (canonicalize_join (s :: segs) ltac:(done) Hg (clean_join _ Hc)) as Hcan.
  rewrite Hv0. cbn [orb]. rewrite bind_ensure. split; [|done].
  apply negb_true_iff, orb_false_iff. inversion Hg as [|? ? Hs Hg']; subst.
  assert (split_on SLASH (join SLASH (s :: segs)) = s :: segs) as Hsplit by by apply split_on_good.
  destruct Hs as (_ & _ & Hs & _). split.
  - apply jeqb_neq. intros E. rewrite E in Hsplit. by injection Hsplit as <-.
  - apply not_true_iff_false. intros [q E]%startsWith_spec. rewrite E in Hsplit.
    by injection Hsplit as <-.
Qed.

Lemma absolute_roundtrip_witness :
  repositoryRelativePathToAbsolute posix_implementation #"/srv/./repo/" #"docs/a.md" posix
    = Ok #"/srv/repo/docs/a.md" /\
  repositoryRelativePathFromAbsolute posix_implementation #"/srv/./repo/" #"/srv/repo/docs/a.md" posix
    = Ok #"docs/a.md".
Proof.
  split; [reflexivity|].
  apply (absolute_roundtrip posix_implementation); reflexivity.
Defined.
