(* ===== verification/Identifiers.v ===== *)
(** The identifier and digest formats that several validators test with the
    same regular expressions. *)
From S2P Require Import Prelude JsString Unicode.

Definition is_alnum (c : N) : bool :=
  (48 <=? c)%N && (c <=? 57)%N || (65 <=? c)%N && (c <=? 90)%N || (97 <=? c)%N && (c <=? 122)%N.

Definition decimal_digit (c : N) : bool := (48 <=? c)%N && (c <=? 57)%N.

Lemma digit_range c : decimal_digit c = true <-> (48 <= c <= 57)%N.
Proof. unfold decimal_digit. rewrite andb_true_iff, !N.leb_le. done. Qed.

(** The class [[._:/-]] *)
Definition is_id_separator (c : N) : bool :=
  (c =? 46)%N || (c =? 95)%N || (c =? 58)%N || (c =? 47)%N || (c =? 45)%N.

Fixpoint identifier_from (after_alnum : bool) (s : jstring) : bool :=
  match s with
  | [] => after_alnum
  | c :: r =>
      if is_alnum c then identifier_from true r
      else is_id_separator c && after_alnum && identifier_from false r
  end.

(** [/^[A-Za-z0-9]+(?:[._:/-][A-Za-z0-9]+)*$/.test(s)] *)
Definition STABLE_ID (s : jstring) : bool := identifier_from false s.

Definition is_lower_hex (c : N) : bool :=
  (48 <=? c)%N && (c <=? 57)%N || (97 <=? c)%N && (c <=? 102)%N.

(** [/^[a-f0-9]{64}$/.test(s)] *)
Definition SHA256 (s : jstring) : bool := (N.of_nat (length s) =? 64)%N && forallb is_lower_hex s.

(** The runs of an identifier, split at its separators. *)
Inductive identifier_runs : jstring -> Prop :=
| one_run run : run <> [] -> Forall (fun c => is_alnum c = true) run -> identifier_runs run
| more_runs run c rest :
    run <> [] -> Forall (fun c => is_alnum c = true) run -> is_id_separator c = true ->
    identifier_runs rest -> identifier_runs (run ++ c :: rest).

Lemma separator_not_alnum c : is_id_separator c = true -> is_alnum c = false.
Proof.
  unfold is_id_separator. intros H.
  repeat (apply orb_true_iff in H as [H|H]); apply N.eqb_eq in H; by subst.
Qed.

Lemma identifier_from_runs b s :
  identifier_from b s = true ->
  (s = [] /\ b = true) \/ (b = true /\ Forall (fun c => is_alnum c = true) s) \/ identifier_runs s \/
  (exists run c rest, b = true /\ s = run ++ c :: rest /\ Forall (fun c => is_alnum c = true) run /\
     is_id_separator c = true /\ identifier_runs rest).
Proof.
  revert b. induction s as [|c s IH]; intros b H; cbn in H; [by left|].
  destruct (is_alnum c) eqn:Ec.
  - destruct (IH _ H) as [[-> _]|[[_ Hs]|[Hs|(run & d & rest & _ & -> & Hr & Hd & Hrest)]]].
    + right; right; left. constructor; [done|by apply Forall_singleton].
    + right; right; left. constructor; [done|by constructor].
    + right; right; left. destruct Hs as [run Hne Hr|run d rest Hne Hr Hd Hrest].
      * constructor; [done|by constructor].
      * apply (more_runs (c :: run)); [done|by constructor|done|done].
    + right; right; left. apply (more_runs (c :: run)); [done|by constructor|done|done].
  - apply andb_true_iff in H as [[Hd ->]%andb_true_iff H].
    right; right; right. exists [], c, s.
    destruct (IH _ H) as [[-> ?]|[[? _]|[Hs|(? & ? & ? & ? & _)]]]; done.
Qed.

Lemma identifier_from_app run s b :
  run <> [] -> Forall (fun c => is_alnum c = true) run ->
  identifier_from b (run ++ s) = identifier_from true s.
Proof.
  intros Hne Hr. revert b Hne. induction Hr as [|c run Hc Hr IH]; intros b Hne; [done|].
  cbn. rewrite Hc. destruct run; [done|]. by apply IH.
Qed.

(** The test is the grammar. *)
Lemma STABLE_ID_runs s : STABLE_ID s = true <-> identifier_runs s.
Proof.
  unfold STABLE_ID. split.
  - intros H. destruct (identifier_from_runs _ _ H) as [[_ ?]|[[? _]|[?|(? & ? & ? & ? & _)]]]; done.
  - induction 1 as [run Hne Hr|run c rest Hne Hr Hc Hrest IH].
    + rewrite <- (app_nil_r run). by rewrite identifier_from_app.
    + rewrite identifier_from_app by done. cbn. by rewrite separator_not_alnum, Hc.
Qed.

Lemma STABLE_ID_ascii s : STABLE_ID s = true -> s <> [] /\ Forall (fun c => (c < 128)%N) s.
Proof.
  intros H. apply STABLE_ID_runs in H.
  assert (forall c, is_alnum c = true -> (c < 128)%N) as Ha.
  { unfold is_alnum. intros c Hc.
    repeat (apply orb_true_iff in Hc as [Hc|Hc]); apply andb_true_iff in Hc as [_ Hc%N.leb_le]; lia. }
  assert (forall c, is_id_separator c = true -> (c < 128)%N) as Hs.
  { unfold is_id_separator. intros c Hc.
    repeat (apply orb_true_iff in Hc as [Hc|Hc]); apply N.eqb_eq in Hc; lia. }
  induction H as [run Hne Hr|run c rest Hne Hr Hc Hrest [_ IH]].
  - split; [done|]. by eapply Forall_impl.
  - split; [by destruct run|]. apply Forall_app. split; [by eapply Forall_impl|].
    constructor; [by apply Hs|done].
Qed.

(** ASCII text is well formed, and each unit is a byte. *)
Lemma ascii_wf s : Forall (fun c => (c < 128)%N) s -> wf_text s /\ js_units s.
Proof.
  induction 1 as [|c s Hc Hs [IH1 IH2]]; [split; [done|constructor]|]. split.
  - unfold wf_text. cbn. unfold is_high, is_low.
    rewrite (proj2 (N.leb_gt 0xd800 c)), (proj2 (N.leb_gt 0xdc00 c)) by lia. exact IH1.
  - constructor; [lia|done].
Qed.

(** ** Digits *)

Lemma digits_value_cons a c s : digits_value a (c :: s) = digits_value (a * 10 + (c - 48)) s.
Proof. done. Qed.

Lemma digits_compare l r a b : length l = length r -> forallb decimal_digit l = true -> forallb decimal_digit r = true ->
  (digits_value a l ?= digits_value b r)%N = match (a ?= b)%N with Eq => jcompare l r | c => c end.
Proof.
  revert r a b. induction l as [|c l IH]; intros [|d r] a b Hl Hdl Hdr; try done.
  { cbn. by destruct (a ?= b)%N. }
  cbn [forallb] in Hdl, Hdr. apply andb_true_iff in Hdl as [Hc Hdl], Hdr as [Hd Hdr].
  apply digit_range in Hc, Hd. rewrite !digits_value_cons, IH by (cbn in Hl; auto with lia). cbn [jcompare].
  destruct (N.compare_spec a b) as [->|Hab|Hab].
  - destruct (N.compare_spec c d) as [->|Hcd|Hcd].
    + by rewrite N.compare_refl.
    + by rewrite (proj2 (N.compare_lt_iff _ _)) by lia.
    + by rewrite (proj2 (N.compare_gt_iff _ _)) by lia.
  - by rewrite (proj2 (N.compare_lt_iff _ _)) by lia.
  - by rewrite (proj2 (N.compare_gt_iff _ _)) by lia.
Qed.

(** Digits of one length are determined by their number. *)
Lemma digits_inj l r : length l = length r -> forallb decimal_digit l = true -> forallb decimal_digit r = true ->
  digits_value 0 l = digits_value 0 r -> l = r.
Proof.
  intros Hl Hdl Hdr Hv. apply jcompare_eq. pose proof (digits_compare l r 0 0 Hl Hdl Hdr) as Hc.
  by rewrite Hv, N.compare_refl in Hc.
Qed.
