(* ===== verification/JsValue.v ===== *)
(** Untrusted JavaScript values, as the validators at each boundary see them,
    and the platform functions they are checked and hashed with. *)
From S2P Require Import Prelude JsString Unicode.

(** [F] is the type of function values.  [JNum] is a number with an exact
    integer value, [JFloat] any other number.  [JArr dense items] is an array
    with the ordinary prototype and [length items] entries, [dense] when it has
    no holes, accessors or extra properties.  [JRec fields] is a plain object whose own properties are all
    enumerable string-keyed data; every other object (proxies, class instances, other arrays,
    objects with accessors, symbol or hidden keys) is [JExotic]. *)
Inductive jsval (F : Type) : Type :=
| JUndefined
| JNull
| JBool (b : bool)
| JNum (n : Z)
| JFloat
| JStr (s : jstring)
| JFun (f : F)
| JArr (dense : bool) (items : list (jsval F))
| JRec (fields : list (jstring * jsval F))
| JExotic.
Arguments JUndefined {F}.
Arguments JNull {F}.
Arguments JBool {F} b.
Arguments JNum {F} n.
Arguments JFloat {F}.
Arguments JStr {F} s.
Arguments JFun {F} f.
Arguments JArr {F} dense items.
Arguments JRec {F} fields.
Arguments JExotic {F}.

(** [Object.keys(record)] *)
Definition keys_of {A} (fields : list (jstring * A)) : list jstring := map fst fields.

(** [Object.getOwnPropertyDescriptor(record, key)?.value] *)
Fixpoint field_value {F} (fields : list (jstring * jsval F)) (key : jstring) : jsval F :=
  match fields with
  | [] => JUndefined
  | (k, v) :: r => if jeqb k key then v else field_value r key
  end.

(** Both key lists sorted, then equal: the exact-keys test of every boundary. *)
Definition same_keys (actual expected : list jstring) : bool :=
  bool_decide (sort_by jleb actual = sort_by jleb expected).

(** ** SHA-256

    The digest is the platform's; only its format is used. *)
Class Sha256 : Type := {
  sha256 : list N -> list N;
  sha256_bytes : forall m, Forall (fun b => (b < 256)%N) (sha256 m);
  sha256_length : forall m, length (sha256 m) = 32
}.

Definition hex_digit (n : N) : N := (if n <? 10 then 48 + n else 87 + n)%N.
Definition hex_byte (b : N) : jstring := [hex_digit (b / 16); hex_digit (b mod 16)].
Definition hex (bytes : list N) : jstring := mjoin (hex_byte <$> bytes).

(** [createHash("sha256").update(s, "utf8").digest("hex")] *)
Definition sha256_hex `{Sha256} (s : jstring) : jstring := hex (sha256 (utf8 s)).

Ltac Zify.zify_post_hook ::= Z.to_euclidean_division_equations.

Lemma hex_digit_inj a b : (a < 16)%N -> (b < 16)%N -> hex_digit a = hex_digit b -> a = b.
Proof. unfold hex_digit. intros. repeat case_match; bool_prop; lia. Qed.

Lemma hex_inj l1 l2 :
  Forall (fun b => (b < 256)%N) l1 -> Forall (fun b => (b < 256)%N) l2 ->
  hex l1 = hex l2 -> l1 = l2.
Proof.
  intros H1. revert l2. induction H1 as [|a l1 Ha H1 IH]; intros l2 H2 Heq;
    destruct H2 as [|b l2 Hb H2]; try done.
  unfold hex in Heq. rewrite !fmap_cons, !mjoin_cons in Heq.
  unfold hex_byte in Heq. injection Heq as E1 E2 Hrest.
  apply hex_digit_inj in E1; [|lia..]. apply hex_digit_inj in E2; [|lia..].
  f_equal; [lia|]. by apply IH.
Qed.

Section sha256_lemmas.
Context `{Sha256}.

(** The two messages are a collision: collisions exist, as there are more
    messages than digests, so a theorem names the messages that would collide. *)
Definition collide (m1 m2 : list N) : Prop := m1 <> m2 /\ sha256 m1 = sha256 m2.

Lemma hex_sha256_inj m1 m2 : hex (sha256 m1) = hex (sha256 m2) -> m1 = m2 \/ collide m1 m2.
Proof.
  intros Heq. apply hex_inj in Heq; [|apply sha256_bytes..].
  destruct (decide (m1 = m2)); [by left|]. right. by split.
Qed.

Lemma sha256_hex_inj s t :
  js_units s -> js_units t -> wf_text s -> wf_text t ->
  sha256_hex s = sha256_hex t -> s = t \/ collide (utf8 s) (utf8 t).
Proof.
  intros ???? [Heq|?]%hex_sha256_inj; [left|by right]. by apply utf8_inj.
Qed.
End sha256_lemmas.

(** A digest function for closed examples: a checksum of two bytes, padded. *)
Definition checksum (m : list N) : N := fold_left (fun a b => (a * 257 + b + 1) mod 65521)%N m 1%N.

Definition toy_digest (m : list N) : list N :=
  let c := checksum m in (c / 256 mod 256)%N :: (c mod 256)%N :: replicate 30 0%N.

Definition toy_sha256 : Sha256.
Proof.
  refine {| sha256 := toy_digest |}.
  - intros m. unfold toy_digest. repeat (constructor; [lia|]). constructor.
  - done.
Defined.
