(* ===== verification/Fingerprint.v ===== *)
(** Diagnostic fingerprints (packages/core/src/diagnostic-fingerprint.ts): the
    framed message of each fingerprint, its canonical fields and its digest. *)
From S2P Require Import Prelude JsString Unicode Identifiers JsValue RepositoryPath.

(** Both kinds of exception the module can throw. *)
Inductive fingerprint_error := TypeError | RangeError.
Abbreviation fp_res := (res fingerprint_error).

Definition PATH_FINGERPRINT_METHOD : jstring := #"agent-context-lint/path/v1".
Definition SEMANTIC_FINGERPRINT_METHOD : jstring := #"agent-context-lint/semantic/v1".

Record FingerprintComponent := { component_key : jstring; component_value : jstring }.
Record PathFingerprintBasis := { anchor : jstring; path_profileIds : list jstring }.
Record SemanticFingerprintBasis := {
  components : list FingerprintComponent;
  semantic_profileIds : list jstring
}.

Definition WELL_FORMED_IDENTIFIER : jstring -> bool := STABLE_ID.

Definition assertText (value : jstring) : fp_res unit :=
  ensure (negb (jeqb value []) && hasWellFormedUnicode value) TypeError.

(** [writeBigUInt64BE], which throws on a value of more than 64 bits. *)
Definition be64 (n : N) : list N := map (fun k => (n / 256 ^ k) mod 256)%N [7; 6; 5; 4; 3; 2; 1; 0]%N.

Definition frame (value : jstring) : fp_res (list N) :=
  let bytes := utf8 value in
  _ ← ensure (N.of_nat (length bytes) <? 2 ^ 64)%N RangeError;
  Ok (be64 (N.of_nat (length bytes)) ++ bytes).

Abbreviation field := (jstring * jstring)%type.

Definition frame_field (f : field) : fp_res (list N) :=
  name ← frame f.1; value ← frame f.2; Ok (name ++ value).

(** What [hash.update] has been given when the digest is taken. *)
Definition domain_message (method : jstring) (fields : list field) : fp_res (list N) :=
  domain ← frame #"agent-context-lint:diagnostic-fingerprint";
  m ← frame method;
  body ← rmapM frame_field fields;
  Ok (domain ++ m ++ mjoin body).

Definition hashDomain `{Sha256} (method : jstring) (fields : list field) : fp_res jstring :=
  message ← domain_message method fields;
  Ok (hex (sha256 message)).

(** [Buffer.compare(Buffer.from(left), Buffer.from(right)) <= 0] *)
Definition bytes_le (left right : jstring) : bool := jleb (utf8 left) (utf8 right).

(** [[...new Set(l)]]: each value at its first occurrence. *)
Definition unique_step (acc : list jstring) (x : jstring) : list jstring :=
  if existsb (jeqb x) acc then acc else acc ++ [x].
Definition unique (l : list jstring) : list jstring := fold_left unique_step l [].

Definition assertProfile (profileId : jstring) : fp_res unit :=
  _ ← assertText profileId; ensure (WELL_FORMED_IDENTIFIER profileId) TypeError.

Definition canonicalProfiles (profileIds : list jstring) : fp_res (list jstring) :=
  _ ← rmapM assertProfile profileIds;
  Ok (sort_by bytes_le (unique profileIds)).

Definition addComponent (byKey : list FingerprintComponent) (component : FingerprintComponent)
    : fp_res (list FingerprintComponent) :=
  _ ← assertText (component_key component);
  _ ← assertText (component_value component);
  _ ← ensure (WELL_FORMED_IDENTIFIER (component_key component)) TypeError;
  _ ← ensure (negb (existsb (fun c => jeqb (component_key c) (component_key component)) byKey)) TypeError;
  Ok (byKey ++ [component]).

Definition component_le (left right : FingerprintComponent) : bool :=
  bytes_le (component_key left) (component_key right).

Definition canonicalComponents (cs : list FingerprintComponent)
    : fp_res (list FingerprintComponent) :=
  byKey ← foldM addComponent [] cs;
  Ok (sort_by component_le byKey).

Definition assertRule (ruleId ruleVersion : jstring) : fp_res unit :=
  _ ← assertText ruleId;
  _ ← assertText ruleVersion;
  ensure (WELL_FORMED_IDENTIFIER ruleId && WELL_FORMED_IDENTIFIER ruleVersion) TypeError.

Record PathInput := {
  p_ruleId : jstring; p_ruleVersion : jstring; p_path : jstring; p_basis : PathFingerprintBasis
}.

Record SemanticInput := {
  s_ruleId : jstring; s_ruleVersion : jstring; s_basis : SemanticFingerprintBasis
}.

Definition profile_field (profileId : jstring) : field := (#"profile-id", profileId).
Definition component_field (c : FingerprintComponent) : field :=
  (#"component:" ++ component_key c, component_value c).

Definition path_fields (input : PathInput) : fp_res (list field) :=
  _ ← assertRule (p_ruleId input) (p_ruleVersion input);
  _ ← ensure (isRepositoryRelativePath (p_path input)) TypeError;
  _ ← assertText (anchor (p_basis input));
  profiles ← canonicalProfiles (path_profileIds (p_basis input));
  Ok ([(#"rule-id", p_ruleId input); (#"rule-version", p_ruleVersion input);
       (#"repository-path", p_path input); (#"anchor", anchor (p_basis input))]
      ++ map profile_field profiles).

Definition computePathFingerprint `{Sha256} (input : PathInput) : fp_res jstring :=
  fields ← path_fields input;
  hashDomain PATH_FINGERPRINT_METHOD fields.

Definition semantic_fields (input : SemanticInput) : fp_res (list field) :=
  _ ← assertRule (s_ruleId input) (s_ruleVersion input);
  profiles ← canonicalProfiles (semantic_profileIds (s_basis input));
  cs ← canonicalComponents (components (s_basis input));
  Ok ([(#"rule-id", s_ruleId input); (#"rule-version", s_ruleVersion input)]
      ++ map profile_field profiles ++ map component_field cs).

Definition computeSemanticFingerprint `{Sha256} (input : SemanticInput) : fp_res jstring :=
  fields ← semantic_fields input;
  hashDomain SEMANTIC_FINGERPRINT_METHOD fields.

(** ** Framing *)

Lemma be64_length n : length (be64 n) = 8.
Proof. done. Qed.

Lemma be64_inj n m : (n < 2 ^ 64)%N -> (m < 2 ^ 64)%N -> be64 n = be64 m -> n = m.
Proof.
  intros Hn Hm. unfold be64. cbn [map]. intros Heq. injection Heq as E7 E6 E5 E4 E3 E2 E1 E0.
  change (256 ^ 0)%N with 1%N in E0. rewrite !N.div_1_r in E0.
  assert (forall k, (n / 256 ^ N.succ k = n / 256 ^ k / 256)%N) as Hsn.
  { intros k. rewrite N.pow_succ_r', N.Div0.div_div. f_equal. lia. }
  assert (forall k, (m / 256 ^ N.succ k = m / 256 ^ k / 256)%N) as Hsm.
  { intros k. rewrite N.pow_succ_r', N.Div0.div_div. f_equal. lia. }
  assert (forall k, (n / 256 ^ N.succ k = m / 256 ^ N.succ k)%N ->
            ((n / 256 ^ k) mod 256 = (m / 256 ^ k) mod 256)%N -> (n / 256 ^ k = m / 256 ^ k)%N) as Hstep.
  { intros k Hk Hr. rewrite Hsn, Hsm in Hk.
    rewrite (N.div_mod (n / 256 ^ k) 256), (N.div_mod (m / 256 ^ k) 256) by done. by rewrite Hk, Hr. }
  assert (n / 256 ^ 8 = m / 256 ^ 8)%N as H8.
  { rewrite !N.div_small; [done|exact Hm|exact Hn]. }
  apply (Hstep 7%N) in H8; [|exact E7]. apply (Hstep 6%N) in H8; [|exact E6].
  apply (Hstep 5%N) in H8; [|exact E5]. apply (Hstep 4%N) in H8; [|exact E4].
  apply (Hstep 3%N) in H8; [|exact E3]. apply (Hstep 2%N) in H8; [|exact E2].
  apply (Hstep 1%N) in H8; [|exact E1]. apply (Hstep 0%N) in H8.
  - by rewrite !N.div_1_r in H8.
  - by rewrite !N.div_1_r.
Qed.

Lemma frame_Ok s a :
  frame s = Ok a <-> (textBytes s < 2 ^ 64)%N /\ a = be64 (textBytes s) ++ utf8 s.
Proof.
  unfold frame. rewrite bind_ensure, N.ltb_lt. fold (textBytes s).
  split; [by intros [? [= <-]]|by intros [? ->]].
Qed.

(** A frame is a prefix code. *)
Lemma frame_prefix s t a b r1 r2 :
  frame s = Ok a -> frame t = Ok b -> a ++ r1 = b ++ r2 -> utf8 s = utf8 t /\ r1 = r2.
Proof.
  intros [Hs ->]%frame_Ok [Ht ->]%frame_Ok. rewrite <- !app_assoc. intros Heq.
  apply app_inj_1 in Heq as [Hl Heq]; [|done]. apply be64_inj in Hl; [|done..].
  apply app_inj_1; [|done]. unfold textBytes in Hl. lia.
Qed.

Definition good_text (s : jstring) : Prop := wf_text s /\ js_units s.
Definition good_field (f : field) : Prop := good_text f.1 /\ good_text f.2.

Lemma frame_prefix_text s t a b r1 r2 :
  good_text s -> good_text t ->
  frame s = Ok a -> frame t = Ok b -> a ++ r1 = b ++ r2 -> s = t /\ r1 = r2.
Proof.
  intros [??] [??] Ha Hb Heq. destruct (frame_prefix s t a b r1 r2 Ha Hb Heq) as [Hu ->].
  split; [by apply utf8_inj|done].
Qed.

Lemma fields_inj fs gs a b :
  Forall good_field fs -> Forall good_field gs ->
  rmapM frame_field fs = Ok a -> rmapM frame_field gs = Ok b -> mjoin a = mjoin b -> fs = gs.
Proof.
  assert (forall f c, frame_field f = Ok c -> c <> []) as Hne.
  { intros f c (x & [_ ->]%frame_Ok & H)%bind_Ok. apply bind_Ok in H as (y & _ & [= <-]). done. }
  rewrite !rmapM_Ok. intros Hf Hg Ha. revert gs b Hg.
  induction Ha as [|f c fs a Hc Ha IH]; intros gs b Hg Hb Heq; destruct Hb as [|g d gs b Hd Hb].
  - done.
  - rewrite mjoin_cons in Heq. symmetry in Heq. apply app_nil in Heq as [-> _]. by apply Hne in Hd.
  - rewrite mjoin_cons in Heq. apply app_nil in Heq as [-> _]. by apply Hne in Hc.
  - apply Forall_cons in Hf as [[Hf1 Hf2] Hf]. apply Forall_cons in Hg as [[Hg1 Hg2] Hg].
    rewrite !mjoin_cons in Heq. apply bind_Ok in Hc as (x & Hx & Hc). apply bind_Ok in Hc as (y & Hy & [= <-]).
    apply bind_Ok in Hd as (x' & Hx' & Hd). apply bind_Ok in Hd as (y' & Hy' & [= <-]).
    rewrite <- !app_assoc in Heq.
    destruct (frame_prefix_text _ _ _ _ _ _ Hf1 Hg1 Hx Hx' Heq) as [E1 Heq'].
    destruct (frame_prefix_text _ _ _ _ _ _ Hf2 Hg2 Hy Hy' Heq') as [E2 Heq''].
    f_equal; [by destruct f, g; cbn in *; subst|]. by eapply IH.
Qed.

Lemma domain_message_inj method method' fs gs m :
  good_text method -> good_text method' -> Forall good_field fs -> Forall good_field gs ->
  domain_message method fs = Ok m -> domain_message method' gs = Ok m ->
  method = method' /\ fs = gs.
Proof.
  intros Hm Hm' Hf Hg H1 H2. unfold domain_message in *.
  apply bind_Ok in H1 as (d & Hd & H1). apply bind_Ok in H1 as (a & Ha & H1).
  apply bind_Ok in H1 as (b & Hb & [= <-]).
  apply bind_Ok in H2 as (d' & Hd' & H2). apply bind_Ok in H2 as (a' & Ha' & H2).
  apply bind_Ok in H2 as (b' & Hb' & [= Heq]). rewrite Hd in Hd'. injection Hd' as <-.
  apply app_inv_head in Heq. symmetry in Heq.
  destruct (frame_prefix_text _ _ _ _ _ _ Hm Hm' Ha Ha' Heq) as [-> Hj].
  split; [done|]. by eapply fields_inj.
Qed.

(** ** Canonical fields *)

Lemma bytes_le_trans x y z : bytes_le x y = true -> bytes_le y z = true -> bytes_le x z = true.
Proof. apply jleb_trans. Qed.
Lemma bytes_le_total x y : bytes_le x y = true \/ bytes_le y x = true.
Proof. apply jleb_total. Qed.

#[export] Hint Resolve bytes_le_total : s2.

Lemma STABLE_ID_good s : STABLE_ID s = true -> good_text s.
Proof. intros [_ H]%STABLE_ID_ascii. by apply ascii_wf. Qed.

Lemma unique_inv l acc :
  NoDup acc -> NoDup (fold_left unique_step l acc) /\
  forall x, x ∈ fold_left unique_step l acc <-> x ∈ acc \/ x ∈ l.
Proof.
  revert acc. induction l as [|y l IH]; intros acc Hn; cbn [fold_left].
  { split; [done|]. set_solver. }
  unfold unique_step at 2 4. destruct (existsb (jeqb y) acc) eqn:E.
  - destruct (IH acc Hn) as [H1 H2]. split; [done|]. intros x. rewrite H2.
    apply existsb_elem in E as (z & Hz & ->%jeqb_eq). set_solver.
  - assert (y ∉ acc) as Hy.
    { intros Hy. apply not_true_iff_false in E as []. apply existsb_elem. exists y. by rewrite jeqb_refl. }
    destruct (IH (acc ++ [y])) as [H1 H2].
    { apply NoDup_app. split; [done|]. split; [set_solver|apply NoDup_singleton]. }
    split; [done|]. intros x. rewrite H2. set_solver.
Qed.

Lemma unique_NoDup l : NoDup (unique l).
Proof. apply (unique_inv l []). constructor. Qed.
Lemma elem_of_unique x l : x ∈ unique l <-> x ∈ l.
Proof. unfold unique. rewrite (proj2 (unique_inv l [] (NoDup_nil_2))). set_solver. Qed.

Lemma assertProfile_Ok p : assertProfile p = Ok tt <-> STABLE_ID p = true.
Proof.
  unfold assertProfile, assertText. rewrite !bind_ensure, ensure_Ok. split; [by intros [_ ?]|].
  intros H. split; [|done]. pose proof (STABLE_ID_ascii _ H) as [Hne _]. apply STABLE_ID_good in H as [Hw _].
  unfold wf_text in Hw. rewrite Hw. by rewrite (proj2 (jeqb_neq _ _) Hne).
Qed.

Lemma rmapM_unit_ok {A} (f : A -> fp_res unit) l :
  is_ok (rmapM f l) = forallb (fun x => is_ok (f x)) l.
Proof. induction l as [|x l IH]; [done|]. cbn. rewrite <- IH. destruct (f x); [|done].
  cbn. by destruct (rmapM f l). Qed.

Lemma rmapM_type_error l e : rmapM assertProfile l = Err e -> e = TypeError.
Proof.
  induction l as [|x l IH]; cbn; [done|]. intros [H|(u & _ & H)]%bind_Err.
  - unfold assertProfile, assertText in H. apply bind_Err in H as [[_ <-]%ensure_Err|(? & _ & [_ <-]%ensure_Err)]; done.
  - apply bind_Err in H as [H|(? & _ & ?)]; [by apply IH|done].
Qed.

Lemma canonicalProfiles_Ok l ps :
  canonicalProfiles l = Ok ps ->
  Forall (fun p => STABLE_ID p = true) l /\ ps = sort_by bytes_le (unique l).
Proof.
  unfold canonicalProfiles. intros (u & Hu%rmapM_Ok & [= <-])%bind_Ok. split; [|done].
  apply Forall_forall. intros p Hp. apply list_elem_of_lookup in Hp as [i Hi].
  destruct (Forall2_lookup_l _ _ _ _ _ Hu Hi) as ([] & _ & H). by apply assertProfile_Ok.
Qed.

Lemma stable_sort_canonical (l l' : list jstring) :
  Forall (fun p => STABLE_ID p = true) l -> l ≡ₚ l' -> sort_by bytes_le l = sort_by bytes_le l'.
Proof.
  intros Hl Hp. apply (sort_by_canonical bytes_le bytes_le_trans bytes_le_total); [|done].
  intros x y Hx Hy H1 H2. rewrite Forall_forall in Hl.
  destruct (STABLE_ID_good _ (Hl x Hx)), (STABLE_ID_good _ (Hl y Hy)).
  apply utf8_inj; [done..|]. by apply jleb_antisym.
Qed.

(** Only the set of profiles counts. *)
Lemma canonicalProfiles_set l l' :
  (forall p, p ∈ l <-> p ∈ l') -> canonicalProfiles l = canonicalProfiles l'.
Proof.
  intros He.
  assert (is_ok (rmapM assertProfile l) = is_ok (rmapM assertProfile l')) as Hok.
  { rewrite !rmapM_unit_ok. apply eq_true_iff_eq. rewrite !forallb_elem. by setoid_rewrite He. }
  unfold canonicalProfiles. destruct (rmapM assertProfile l) as [u|e] eqn:E, (rmapM assertProfile l') as [u'|e'] eqn:E';
    try done; cbn.
  - f_equal. assert (canonicalProfiles l = Ok (sort_by bytes_le (unique l))) as Hc
      by (unfold canonicalProfiles; by rewrite E).
    apply canonicalProfiles_Ok in Hc as [Hs _]. rewrite Forall_forall in Hs. apply stable_sort_canonical.
    + apply Forall_forall. intros x Hx. rewrite elem_of_unique in Hx. by apply Hs.
    + apply NoDup_Permutation; [apply unique_NoDup..|]. intros x. by rewrite !elem_of_unique.
  - f_equal. apply rmapM_type_error in E as ->, E' as ->. done.
Qed.

Lemma canonicalProfiles_elem l l' ps :
  canonicalProfiles l = Ok ps -> canonicalProfiles l' = Ok ps -> forall p, p ∈ l <-> p ∈ l'.
Proof.
  intros [_ H1]%canonicalProfiles_Ok [_ H2]%canonicalProfiles_Ok p.
  rewrite <- (elem_of_unique p l), <- (elem_of_unique p l'),
    <- (elem_of_sort_by bytes_le p (unique l)), <- (elem_of_sort_by bytes_le p (unique l')).
  by rewrite <- H1, <- H2.
Qed.

Definition good_component (c : FingerprintComponent) : Prop :=
  STABLE_ID (component_key c) = true /\ component_value c <> [] /\ wf_text (component_value c).

Lemma fingerprint_text_Ok s : assertText s = Ok tt <-> s <> [] /\ wf_text s.
Proof. unfold assertText. by rewrite ensure_Ok, andb_true_iff, negb_true_iff, jeqb_neq. Qed.

Lemma addComponents_Ok cs done_ r :
  foldM addComponent done_ cs = Ok r <->
  Forall good_component cs /\ r = done_ ++ cs /\
  NoDup (map component_key cs) /\ Forall (fun k => k ∉ map component_key done_) (map component_key cs).
Proof.
  revert done_. induction cs as [|c cs IH]; intros done_; cbn [foldM map].
  { split; [intros [= <-]; rewrite app_nil_r; repeat split; by constructor|].
    intros (_ & -> & _). by rewrite app_nil_r. }
  assert (forall r', addComponent done_ c = Ok r' <->
    good_component c /\ component_key c ∉ map component_key done_ /\ r' = done_ ++ [c]) as Hadd.
  { intros r'. unfold addComponent, good_component.
    assert (existsb (fun d => jeqb (component_key d) (component_key c)) done_ = false <->
            component_key c ∉ map component_key done_) as Hex.
    { rewrite <- not_true_iff_false, existsb_elem. setoid_rewrite jeqb_eq.
      change (map component_key done_) with (component_key <$> done_). rewrite list_elem_of_fmap.
      split; intros H (d & H1 & H2); apply H; exists d; auto. }
    split.
    - intros H. apply bind_Ok in H as ([] & _ & H). apply bind_Ok in H as ([] & Hv & H).
      apply fingerprint_text_Ok in Hv. apply bind_ensure in H as [Hk H].
      apply bind_ensure in H as [Hd%negb_true_iff%Hex [= <-]]. done.
    - intros ((Hk & Hv) & Hd%Hex & ->).
      rewrite (proj2 (fingerprint_text_Ok (component_key c)));
        [|split; [by apply STABLE_ID_ascii|by apply STABLE_ID_good]].
      cbn. rewrite (proj2 (fingerprint_text_Ok (component_value c))) by done.
      cbn. unfold WELL_FORMED_IDENTIFIER. rewrite Hk, Hd. done. }
  rewrite bind_Ok. setoid_rewrite Hadd. setoid_rewrite IH.
  rewrite Forall_cons, NoDup_cons, Forall_cons. split.
  - intros (r' & (Hg & Hk & ->) & Hgs & -> & Hnd & Hfresh).
    rewrite <- app_assoc. split; [done|]. split; [done|].
    rewrite map_app in Hfresh. cbn in Hfresh. rewrite Forall_forall in Hfresh.
    split; [split; [intros Hin; apply (Hfresh _ Hin); set_solver|done]|].
    split; [done|]. apply Forall_forall. intros k Hk'. specialize (Hfresh k Hk'). set_solver.
  - intros ((Hg & Hgs) & -> & (Hk' & Hnd) & Hk & Hfresh).
    exists (done_ ++ [c]). split; [done|]. split; [done|]. rewrite <- app_assoc. split; [done|].
    split; [done|]. rewrite Forall_forall in *. intros k Hin. rewrite map_app. cbn.
    specialize (Hfresh k Hin). set_solver.
Qed.

Lemma canonicalComponents_Ok cs r :
  canonicalComponents cs = Ok r <->
  Forall good_component cs /\ NoDup (map component_key cs) /\ r = sort_by component_le cs.
Proof.
  unfold canonicalComponents. rewrite bind_Ok. setoid_rewrite addComponents_Ok. split.
  - by intros (d & (Hg & -> & Hn & _) & [= <-]).
  - intros (Hg & Hn & ->). exists cs. split; [|done]. split; [done|]. split; [done|]. split; [done|].
    apply Forall_forall. set_solver.
Qed.

Lemma addComponents_error cs done_ e : foldM addComponent done_ cs = Err e -> e = TypeError.
Proof.
  revert done_. induction cs as [|c cs IH]; intros done_; cbn [foldM]; [done|].
  intros [H|(r & _ & H)]%bind_Err; [|by eapply IH].
  unfold addComponent, assertText in H.
  repeat (apply bind_Err in H as [[_ <-]%ensure_Err|(? & _ & H)]; [done|]). done.
Qed.

(** Only the set of components counts, their keys being distinct. *)
Lemma canonicalComponents_perm cs cs' :
  cs ≡ₚ cs' -> canonicalComponents cs = canonicalComponents cs'.
Proof.
  intros Hp.
  destruct (canonicalComponents cs) as [r|e] eqn:E.
  - symmetry. apply canonicalComponents_Ok in E as (Hg & Hn & ->). apply canonicalComponents_Ok.
    split; [by rewrite <- Hp|]. split; [by rewrite <- (Permutation_map component_key Hp)|].
    apply (sort_by_canonical component_le); [by intros ???; apply jleb_trans|by intros ??; apply jleb_total| |done].
    intros x y Hx Hy H1 H2. assert (component_key x = component_key y) as Hk.
    { rewrite Forall_forall in Hg. destruct (Hg x Hx) as [Hkx _], (Hg y Hy) as [Hky _].
      destruct (STABLE_ID_good _ Hkx), (STABLE_ID_good _ Hky). apply utf8_inj; [done..|]. by apply jleb_antisym. }
    change (map component_key cs) with (component_key <$> cs) in Hn.
    apply list_elem_of_lookup in Hx as [i Hi], Hy as [j Hj].
    assert (i = j) as ->; [|congruence].
    eapply (NoDup_lookup (component_key <$> cs)); [done|rewrite list_lookup_fmap, Hi; done|].
    by rewrite list_lookup_fmap, Hj, Hk.
  - destruct (canonicalComponents cs') as [r|e'] eqn:E'.
    + apply canonicalComponents_Ok in E' as (Hg & Hn & _).
      assert (canonicalComponents cs = Ok (sort_by component_le cs)); [|congruence].
      apply canonicalComponents_Ok. split; [by rewrite Hp|].
      split; [|done]. by rewrite (Permutation_map component_key Hp).
    + unfold canonicalComponents in *. apply bind_Err in E as [->%addComponents_error|(? & _ & ?)]; [|done].
      apply bind_Err in E' as [->%addComponents_error|(? & _ & ?)]; done.
Qed.

(** ** Messages *)

Lemma assertRule_Ok r v : assertRule r v = Ok tt -> good_text r /\ good_text v.
Proof.
  unfold assertRule. intros (? & _ & H)%bind_Ok. apply bind_Ok in H as (? & _ & H).
  apply ensure_Ok, andb_true_iff in H as [? ?]. by split; apply STABLE_ID_good.
Qed.

Lemma good_ascii s : forallb (fun c => (c <? 128)%N) s = true -> good_text s.
Proof.
  intros H. apply ascii_wf, Forall_forall. intros c Hc. apply N.ltb_lt.
  by apply (proj1 (forallb_elem _ _) H).
Qed.

Lemma good_profile_fields ps :
  Forall (fun p => STABLE_ID p = true) ps -> Forall good_field (map profile_field ps).
Proof.
  intros H. apply Forall_fmap. eapply Forall_impl; [exact H|]. intros p Hp.
  split; [by apply good_ascii|by apply STABLE_ID_good].
Qed.

Lemma good_component_fields cs :
  Forall good_component cs -> Forall (fun c => js_units (component_value c)) cs ->
  Forall good_field (map component_field cs).
Proof.
  rewrite !Forall_forall. intros Hg Hu. change (map component_field cs) with (component_field <$> cs).
  intros f (c & -> & Hc)%list_elem_of_fmap. destruct (Hg c Hc) as (Hk & _ & Hw).
  destruct (STABLE_ID_good _ Hk) as [Hkw Hku].
  split; unfold component_field; cbn [fst snd].
  - split; [unfold wf_text; by rewrite wf_app|].
    apply Forall_app. split; [by apply good_ascii|done].
  - split; [done|by apply Hu].
Qed.

(** Profiles and components never share a field name. *)
Lemma profile_component_fields ps ps' cs cs' :
  map profile_field ps ++ map component_field cs = map profile_field ps' ++ map component_field cs' ->
  ps = ps' /\ cs = cs'.
Proof.
  revert ps'. induction ps as [|p ps IH]; intros [|p' ps']; cbn [map app]; intros Heq.
  - split; [done|]. revert cs' Heq. induction cs as [|c cs IHc]; intros [|c' cs'] Heq; try done.
    cbn in Heq. injection Heq as E1 E2 E3. f_equal; [by destruct c, c'; cbn in *; subst|by apply IHc].
  - destruct cs as [|c cs]; [done|]. cbn in Heq. injection Heq as E1 _ _. done.
  - destruct cs' as [|c cs']; [done|]. cbn in Heq. injection Heq as E1 _ _. done.
  - injection Heq as -> Heq. by destruct (IH ps' Heq) as [-> ->].
Qed.

(** A fingerprint of either domain. *)
Inductive FingerprintInput := APath (input : PathInput) | ASemantic (input : SemanticInput).

Definition fingerprint `{Sha256} (i : FingerprintInput) : fp_res jstring :=
  match i with
  | APath input => computePathFingerprint input
  | ASemantic input => computeSemanticFingerprint input
  end.

(** The message the digest is taken of. *)
Definition message (i : FingerprintInput) : fp_res (list N) :=
  match i with
  | APath input => fields ← path_fields input; domain_message PATH_FINGERPRINT_METHOD fields
  | ASemantic input => fields ← semantic_fields input; domain_message SEMANTIC_FINGERPRINT_METHOD fields
  end.

(** The texts of an input are sequences of 16-bit units. *)
Definition typed_input (i : FingerprintInput) : Prop :=
  match i with
  | APath input => js_units (p_path input) /\ js_units (anchor (p_basis input))
  | ASemantic input => Forall (fun c => js_units (component_value c)) (components (s_basis input))
  end.

(** The same diagnostic: equal up to the order and repetition of profiles and
    the order of components. *)
Definition same_identity (a b : FingerprintInput) : Prop :=
  match a, b with
  | APath a, APath b =>
      p_ruleId a = p_ruleId b /\ p_ruleVersion a = p_ruleVersion b /\ p_path a = p_path b /\
      anchor (p_basis a) = anchor (p_basis b) /\
      forall p, p ∈ path_profileIds (p_basis a) <-> p ∈ path_profileIds (p_basis b)
  | ASemantic a, ASemantic b =>
      s_ruleId a = s_ruleId b /\ s_ruleVersion a = s_ruleVersion b /\
      components (s_basis a) ≡ₚ components (s_basis b) /\
      forall p, p ∈ semantic_profileIds (s_basis a) <-> p ∈ semantic_profileIds (s_basis b)
  | _, _ => False
  end.

Lemma fingerprint_message `{Sha256} i d :
  fingerprint i = Ok d <-> exists m, message i = Ok m /\ d = hex (sha256 m).
Proof.
  assert (forall method (r : fp_res (list field)),
    (fields ← r; hashDomain method fields) = Ok d <->
    exists m, (fields ← r; domain_message method fields) = Ok m /\ d = hex (sha256 m)) as Hgen.
  { intros method [fs|e]; cbn; [|split; [done|by intros (? & ? & ?)]].
    unfold hashDomain. rewrite bind_Ok. split.
    - intros (m & Hm & [= <-]). by exists m.
    - intros (m & Hm & ->). by exists m. }
  by destruct i as [i|i]; apply Hgen.
Qed.

Lemma path_fields_Ok input fs :
  path_fields input = Ok fs -> js_units (p_path input) -> js_units (anchor (p_basis input)) ->
  exists ps, canonicalProfiles (path_profileIds (p_basis input)) = Ok ps /\
    fs = [(#"rule-id", p_ruleId input); (#"rule-version", p_ruleVersion input);
          (#"repository-path", p_path input); (#"anchor", anchor (p_basis input))]
         ++ map profile_field ps /\ Forall good_field fs.
Proof.
  unfold path_fields. intros H Hu1 Hu2. apply bind_Ok in H as ([] & [Hr Hv]%assertRule_Ok & H).
  apply bind_ensure in H as [Hp%isRepositoryRelativePath_clean H].
  apply bind_Ok in H as ([] & [_ Ha]%fingerprint_text_Ok & H).
  apply bind_Ok in H as (ps & Hps & [= <-]). exists ps. split; [done|]. split; [done|].
  apply canonicalProfiles_Ok in Hps as [Hs ->]. destruct Hp as [Hpw _].
  do 4 (apply Forall_cons_2; [split; [by apply good_ascii|first [done|by split]]|]).
  apply good_profile_fields, Forall_forall. intros p Hp. rewrite elem_of_sort_by, elem_of_unique in Hp.
    rewrite Forall_forall in Hs. by apply Hs.
Qed.

Lemma semantic_fields_Ok input fs :
  semantic_fields input = Ok fs -> typed_input (ASemantic input) ->
  exists ps cs, canonicalProfiles (semantic_profileIds (s_basis input)) = Ok ps /\
    canonicalComponents (components (s_basis input)) = Ok cs /\
    fs = [(#"rule-id", s_ruleId input); (#"rule-version", s_ruleVersion input)]
         ++ map profile_field ps ++ map component_field cs /\ Forall good_field fs.
Proof.
  unfold semantic_fields. intros H Hu. apply bind_Ok in H as ([] & [Hr Hv]%assertRule_Ok & H).
  apply bind_Ok in H as (ps & Hps & H). apply bind_Ok in H as (cs & Hcs & [= <-]).
  exists ps, cs. split; [done|]. split; [done|]. split; [done|].
  apply canonicalProfiles_Ok in Hps as [Hs ->]. apply canonicalComponents_Ok in Hcs as (Hg & _ & ->).
  do 2 (apply Forall_cons_2; [split; [by apply good_ascii|done]|]).
  apply Forall_app. split.
  - apply good_profile_fields, Forall_forall. intros p Hp. rewrite elem_of_sort_by, elem_of_unique in Hp.
    rewrite Forall_forall in Hs. by apply Hs.
  - apply good_component_fields; by rewrite sort_by_perm.
Qed.

Lemma canonicalComponents_inv cs cs' r :
  canonicalComponents cs = Ok r -> canonicalComponents cs' = Ok r -> cs ≡ₚ cs'.
Proof.
  intros (_ & _ & ->)%canonicalComponents_Ok (_ & _ & H)%canonicalComponents_Ok.
  rewrite <- (sort_by_perm component_le cs), H. apply sort_by_perm.
Qed.

Lemma message_inj a b m :
  typed_input a -> typed_input b -> message a = Ok m -> message b = Ok m -> same_identity a b.
Proof.
  assert (good_text PATH_FINGERPRINT_METHOD) as Hgp by by apply good_ascii.
  assert (good_text SEMANTIC_FINGERPRINT_METHOD) as Hgs by by apply good_ascii.
  destruct a as [a|a], b as [b|b]; intros Ta Tb Ha Hb; cbn [message] in Ha, Hb;
    apply bind_Ok in Ha as (fa & Hfa & Ha); apply bind_Ok in Hb as (fb & Hfb & Hb);
    cbn [typed_input] in Ta, Tb.
  - destruct (path_fields_Ok a fa Hfa) as (pa & Hpa & -> & Ga); [apply Ta..|].
    destruct (path_fields_Ok b fb Hfb) as (pb & Hpb & -> & Gb); [apply Tb..|].
    destruct (domain_message_inj _ _ _ _ _ Hgp Hgp Ga Gb Ha Hb) as [_ Heq]. cbn [app] in Heq.
    injection Heq as E1 E2 E3 E4 Heq.
    rewrite <- (app_nil_r (map profile_field pa)), <- (app_nil_r (map profile_field pb)) in Heq.
    apply (profile_component_fields pa pb [] []) in Heq as [-> _].
    cbn. split; [done|]. split; [done|]. split; [done|]. split; [done|].
    by eapply canonicalProfiles_elem.
  - destruct (path_fields_Ok a fa Hfa) as (pa & Hpa & -> & Ga); [apply Ta..|].
    destruct (semantic_fields_Ok b fb Hfb Tb) as (pb & cb & Hpb & Hcb & -> & Gb).
    by destruct (domain_message_inj _ _ _ _ _ Hgp Hgs Ga Gb Ha Hb) as [? _].
  - destruct (semantic_fields_Ok a fa Hfa Ta) as (pa & ca & Hpa & Hca & -> & Ga).
    destruct (path_fields_Ok b fb Hfb) as (pb & Hpb & -> & Gb); [apply Tb..|].
    by destruct (domain_message_inj _ _ _ _ _ Hgs Hgp Ga Gb Ha Hb) as [? _].
  - destruct (semantic_fields_Ok a fa Hfa Ta) as (pa & ca & Hpa & Hca & -> & Ga).
    destruct (semantic_fields_Ok b fb Hfb Tb) as (pb & cb & Hpb & Hcb & -> & Gb).
    destruct (domain_message_inj _ _ _ _ _ Hgs Hgs Ga Gb Ha Hb) as [_ Heq]. cbn [app] in Heq.
    injection Heq as E1 E2 Heq. apply profile_component_fields in Heq as [-> ->].
    cbn. split; [done|]. split; [done|]. split; [by eapply canonicalComponents_inv|].
    by eapply canonicalProfiles_elem.
Qed.

(** ** Properties *)

(** C27.  A fingerprint binds what it is computed from: two inputs, of the same
    or of different domains, have one fingerprint only when they describe the
    same diagnostic, unless their two distinct messages collide under
    SHA-256. *)
Theorem fingerprint_binds `{Sha256} (a b : FingerprintInput) (d : jstring)
  (Ta : typed_input a) (Tb : typed_input b)
  (Ha : fingerprint a = Ok d) (Hb : fingerprint b = Ok d) :
  same_identity a b \/
  exists ma mb, message a = Ok ma /\ message b = Ok mb /\ ma <> mb /\ sha256 ma = sha256 mb.
Proof.
  apply fingerprint_message in Ha as (ma & Ha & ->). apply fingerprint_message in Hb as (mb & Hb & Hd).
  apply hex_inj in Hd; [|apply sha256_bytes..].
  destruct (decide (ma = mb)) as [->|Hn]; [left; by eapply message_inj|].
  right. by exists ma, mb.
Qed.

Definition sample_path_input : PathInput :=
  {| p_ruleId := #"ACL001"; p_ruleVersion := #"1.0"; p_path := #"docs/a.md";
     p_basis := {| anchor := #"heading"; path_profileIds := [ #"codex-cli"; #"claude-code"] |} |}.

Lemma fingerprint_binds_witness :
  exists d, @fingerprint toy_sha256 (APath sample_path_input) = Ok d /\
  (same_identity (APath sample_path_input) (APath sample_path_input) \/
   exists ma mb, message (APath sample_path_input) = Ok ma /\
     message (APath sample_path_input) = Ok mb /\ ma <> mb /\
     @sha256 toy_sha256 ma = @sha256 toy_sha256 mb).
Proof.
  eexists. split; [vm_compute; reflexivity|].
  eapply (@fingerprint_binds toy_sha256 (APath sample_path_input) (APath sample_path_input)).
  - split; apply good_ascii; reflexivity.
  - split; apply good_ascii; reflexivity.
  - vm_compute; reflexivity.
  - vm_compute; reflexivity.
Defined.

(**  Inputs that describe the same diagnostic have the same fingerprint, or
    fail alike: the order and repetition of profiles and the order of
    components never matter. *)
Theorem fingerprint_invariant `{Sha256} (a b : FingerprintInput) (Hs : same_identity a b) :
  fingerprint a = fingerprint b.
Proof.
  destruct a as [a|a], b as [b|b]; try done; cbn in *.
  - destruct Hs as (E1 & E2 & E3 & E4 & Hp). unfold computePathFingerprint, path_fields.
    by rewrite E1, E2, E3, E4, (canonicalProfiles_set _ _ Hp).
  - destruct Hs as (E1 & E2 & Hc & Hp). unfold computeSemanticFingerprint, semantic_fields.
    by rewrite E1, E2, (canonicalProfiles_set _ _ Hp), (canonicalComponents_perm _ _ Hc).
Qed.

Lemma fingerprint_invariant_witness :
  exists b, p_path b = #"docs/a.md" /\ path_profileIds (p_basis b) = [ #"claude-code"; #"codex-cli"; #"claude-code"] /\
    @fingerprint toy_sha256 (APath sample_path_input) = @fingerprint toy_sha256 (APath b).
Proof.
  exists {| p_ruleId := #"ACL001"; p_ruleVersion := #"1.0"; p_path := #"docs/a.md";
     p_basis := {| anchor := #"heading";
                   path_profileIds := [ #"claude-code"; #"codex-cli"; #"claude-code"] |} |}.
  split; [reflexivity|]. split; [reflexivity|].
  apply (@fingerprint_invariant toy_sha256). cbn [same_identity p_ruleId p_ruleVersion p_path p_basis
    sample_path_input anchor path_profileIds].
  split; [reflexivity|]. split; [reflexivity|]. split; [reflexivity|]. split; [reflexivity|].
  intros p. rewrite !elem_of_cons. tauto.
Defined.
