(* ===== verification/ActivationAlgebra.v ===== *)
(** The activation algebra (packages/resolver/src/activation-algebra.ts): a
    strong-Kleene set algebra over activation results that carry a canonical
    proof, the validation of activation rules, and the evaluation of one rule
    at one target path. *)
From S2P Require Import Prelude JsString Unicode JsValue RepositoryPath.

Inductive ActivationState := active | inactive | indeterminate.

#[export] Instance ActivationState_eq_dec : EqDecision ActivationState.
Proof. solve_decision. Defined.

Definition state_name (s : ActivationState) : jstring :=
  match s with
  | active => #"active"
  | inactive => #"inactive"
  | indeterminate => #"indeterminate"
  end.

Definition ACTIVATION_STATES : list ActivationState := [active; inactive; indeterminate].

Inductive ActivationProvenanceKind :=
| pk_always
| pk_scope_root
| pk_directory_selector
| pk_glob_selector
| pk_manual_fact
| pk_conditional_fact
| pk_unknown_rule
| pk_caller_fact.

#[export] Instance ActivationProvenanceKind_eq_dec : EqDecision ActivationProvenanceKind.
Proof. solve_decision. Defined.

Definition kind_name (k : ActivationProvenanceKind) : jstring :=
  match k with
  | pk_always => #"always"
  | pk_scope_root => #"scope-root"
  | pk_directory_selector => #"directory-selector"
  | pk_glob_selector => #"glob-selector"
  | pk_manual_fact => #"manual-fact"
  | pk_conditional_fact => #"conditional-fact"
  | pk_unknown_rule => #"unknown-rule"
  | pk_caller_fact => #"caller-fact"
  end.

Definition ACTIVATION_PROVENANCE_KINDS : list ActivationProvenanceKind :=
  [pk_always; pk_scope_root; pk_directory_selector; pk_glob_selector; pk_manual_fact;
   pk_conditional_fact; pk_unknown_rule; pk_caller_fact].

Definition maxConditions : N := 1024.
Definition maxInputTextBytes : N := 1048576.
Definition maxOperands : N := 4096.
Definition maxProvenanceFacts : N := 4096.
Definition maxSelectors : N := 4096.
Definition maxTextBytes : N := 16384.

Inductive ActivationAlgebraErrorCode :=
| callbackFailed
| conflictingProvenance
| invalidCallback
| invalidResult
| invalidRule
| invalidTargetPath
| resourceLimit.

#[export] Instance ActivationAlgebraErrorCode_eq_dec : EqDecision ActivationAlgebraErrorCode.
Proof. solve_decision. Defined.

Abbreviation act_res := (res ActivationAlgebraErrorCode).

Record ActivationProvenance := {
  key : jstring;
  kind : ActivationProvenanceKind;
  observedState : ActivationState;
  description : jstring
}.

#[export] Instance ActivationProvenance_eq_dec : EqDecision ActivationProvenance.
Proof. solve_decision. Defined.

Record ActivationResult := {
  state : ActivationState;
  provenance : list ActivationProvenance
}.

#[export] Instance ActivationResult_eq_dec : EqDecision ActivationResult.
Proof. solve_decision. Defined.

(** ** Boundary checks *)

Section checks.
Context {F : Type}.

Definition isDataRecord (value : jsval F) : option (list (jstring * jsval F)) :=
  match value with JRec fields => Some fields | _ => None end.

Definition dataProperty (record : list (jstring * jsval F)) (k : jstring) : jsval F :=
  field_value record k.

Definition hasExactKeys (record : list (jstring * jsval F)) (keys : list jstring) : bool :=
  same_keys (keys_of record) keys.

(** [if (!isDataRecord(value) || !hasExactKeys(value, keys)) fail(code)] *)
Definition closedRecord (value : jsval F) (keys : list jstring) (code : ActivationAlgebraErrorCode)
    : act_res (list (jstring * jsval F)) :=
  match isDataRecord value with
  | Some record => if hasExactKeys record keys then Ok record else Err code
  | None => Err code
  end.

Definition assertDenseArray (value : jsval F) (maximum : N) (code : ActivationAlgebraErrorCode)
    : act_res (list (jsval F)) :=
  match value with
  | JArr dense items =>
      _ ← ensure (N.of_nat (length items) <=? maximum)%N resourceLimit;
      _ ← ensure dense code;
      Ok items
  | _ => Err code
  end.

Definition assertText (value : jsval F) (code : ActivationAlgebraErrorCode) : act_res jstring :=
  match value with
  | JStr s =>
      _ ← ensure (negb (jeqb s [])) code;
      _ ← ensure (hasWellFormedUnicode s) code;
      _ ← ensure (textBytes s <=? maxTextBytes)%N resourceLimit;
      Ok s
  | _ => Err code
  end.

Definition state_of_name (s : jstring) : option ActivationState :=
  find (fun st => jeqb (state_name st) s) ACTIVATION_STATES.

Definition kind_of_name (s : jstring) : option ActivationProvenanceKind :=
  find (fun k => jeqb (kind_name k) s) ACTIVATION_PROVENANCE_KINDS.

(** [typeof value === "string" && ACTIVATION_STATE_SET.has(value)] *)
Definition state_of_value (value : jsval F) : option ActivationState :=
  match value with JStr s => state_of_name s | _ => None end.

Definition assertState (value : jsval F) : act_res ActivationState :=
  match state_of_value value with Some st => Ok st | None => Err invalidResult end.
End checks.

(** ** Facts and canonical proofs *)

Definition le_of_strings (pairs : list (jstring * jstring)) : bool :=
  match find (fun p => negb (jeqb p.1 p.2)) pairs with
  | Some (l, r) => jltb l r
  | None => true
  end.

(** [compareFacts(left, right) <= 0] *)
Definition compareFacts_le (left right : ActivationProvenance) : bool :=
  le_of_strings [(key left, key right);
                 (kind_name (kind left), kind_name (kind right));
                 (state_name (observedState left), state_name (observedState right));
                 (description left, description right)].

Definition fact_value {F} (f : ActivationProvenance) : jsval F :=
  JRec [(#"key", JStr (key f)); (#"kind", JStr (kind_name (kind f)));
        (#"observedState", JStr (state_name (observedState f)));
        (#"description", JStr (description f))].

Definition facts_value {F} (facts : list ActivationProvenance) : jsval F :=
  JArr true (map fact_value facts).

Definition result_value {F} (r : ActivationResult) : jsval F :=
  JRec [(#"state", JStr (state_name (state r))); (#"provenance", facts_value (provenance r))].

Definition find_fact (k : jstring) (byKey : list ActivationProvenance) : option ActivationProvenance :=
  find (fun f => jeqb (key f) k) byKey.

Section normalize.
Context {F : Type}.

(** One round of the loop of [normalizeFacts]: the map in insertion order and
    the bytes read so far. *)
Definition normalizeFact (acc : list ActivationProvenance * N) (value : jsval F)
    : act_res (list ActivationProvenance * N) :=
  let '(byKey, inputBytes) := acc in
  record ← closedRecord value [ #"key"; #"kind"; #"observedState"; #"description"] invalidResult;
  k ← assertText (dataProperty record #"key") invalidResult;
  kd ← match dataProperty record #"kind" with
       | JStr s => match kind_of_name s with Some kd => Ok kd | None => Err invalidResult end
       | _ => Err invalidResult
       end;
  st ← assertState (dataProperty record #"observedState");
  d ← assertText (dataProperty record #"description") invalidResult;
  let inputBytes' := (inputBytes + (textBytes k + textBytes d))%N in
  _ ← ensure (inputBytes' <=? maxInputTextBytes)%N resourceLimit;
  let fact := {| key := k; kind := kd; observedState := st; description := d |} in
  match find_fact k byKey with
  | Some prior =>
      _ ← ensure (bool_decide (kind prior = kd) && bool_decide (observedState prior = st)
                  && jeqb (description prior) d) conflictingProvenance;
      Ok (byKey, inputBytes')
  | None => Ok (byKey ++ [fact], inputBytes')
  end.

Definition normalizeFacts (input : jsval F) : act_res (list ActivationProvenance) :=
  items ← assertDenseArray input maxProvenanceFacts invalidResult;
  acc ← foldM normalizeFact ([], 0%N) items;
  Ok (sort_by compareFacts_le acc.1).

Definition makeResult (st : ActivationState) (prov : jsval F) : act_res ActivationResult :=
  facts ← normalizeFacts prov;
  Ok {| state := st; provenance := facts |}.

Definition normalizeResult (value : jsval F) : act_res ActivationResult :=
  record ← closedRecord value [ #"state"; #"provenance"] invalidResult;
  st ← assertState (dataProperty record #"state");
  makeResult st (dataProperty record #"provenance").
End normalize.

(** [makeResult] on facts the algebra built itself. *)
Definition makeFacts (st : ActivationState) (facts : list ActivationProvenance)
    : act_res ActivationResult :=
  makeResult (F := unit) st (facts_value facts).

Definition fact_parts (f : ActivationProvenance) : list jstring :=
  [key f; kind_name (kind f); state_name (observedState f); description f].

Definition proofKey (result : ActivationResult) : jstring :=
  mjoin ((fun f => lengthPrefixed (fact_parts f)) <$> provenance result).

Definition leastProof_step (selected candidate : ActivationResult) : ActivationResult :=
  if jltb (proofKey candidate) (proofKey selected) then candidate else selected.

Definition leastProof (results : list ActivationResult) : act_res ActivationResult :=
  match results with
  | [] => Err invalidResult
  | first :: rest => Ok (fold_left leastProof_step rest first)
  end.

Definition mergeProofs (results : list ActivationResult) : list ActivationProvenance :=
  mjoin (provenance <$> results).

Definition fact_bytes (f : ActivationProvenance) : N := (textBytes (key f) + textBytes (description f))%N.

Section operands.
Context {F : Type}.

Definition collectFact (bytes : N) (fact : ActivationProvenance) : act_res N :=
  let bytes' := (bytes + fact_bytes fact)%N in
  _ ← ensure (bytes' <=? maxInputTextBytes)%N resourceLimit;
  Ok bytes'.

Definition normalizeOperand (acc : list ActivationResult * list ActivationProvenance * N)
    (operand : jsval F) : act_res (list ActivationResult * list ActivationProvenance * N) :=
  let '(normalized, facts, bytes) := acc in
  result ← normalizeResult operand;
  _ ← ensure (N.of_nat (length facts + length (provenance result)) <=? maxProvenanceFacts)%N
             resourceLimit;
  bytes' ← foldM collectFact bytes (provenance result);
  Ok (normalized ++ [result], facts ++ provenance result, bytes').

Definition normalizeOperands (input : jsval F) : act_res (list ActivationResult) :=
  items ← assertDenseArray input maxOperands invalidResult;
  acc ← foldM normalizeOperand ([], [], 0%N) items;
  _ ← normalizeFacts (F := unit) (facts_value acc.1.2);
  Ok acc.1.1.

(** ** The algebra *)

Definition activationFact (st k d : jsval F) : act_res ActivationResult :=
  st' ← assertState st;
  k' ← assertText k invalidResult;
  d' ← assertText d invalidResult;
  makeFacts st' [{| key := k'; kind := pk_caller_fact; observedState := st'; description := d' |}].

Definition has_state (st : ActivationState) (r : ActivationResult) : bool :=
  bool_decide (state r = st).

(** In a union [active] wins with its least proof; otherwise [indeterminate]
    beats [inactive] and all proofs are merged.  Intersection is its dual. *)
Definition activationUnion (operands : jsval F) : act_res ActivationResult :=
  normalized ← normalizeOperands operands;
  match normalized with
  | [] => makeFacts inactive []
  | _ =>
      match List.filter (has_state active) normalized with
      | (_ :: _) as actives =>
          proof ← leastProof actives;
          makeFacts active (provenance proof)
      | [] =>
          makeFacts (if existsb (has_state indeterminate) normalized then indeterminate else inactive)
                    (mergeProofs normalized)
      end
  end.

Definition activationIntersection (operands : jsval F) : act_res ActivationResult :=
  normalized ← normalizeOperands operands;
  match normalized with
  | [] => makeFacts active []
  | _ =>
      match List.filter (has_state inactive) normalized with
      | (_ :: _) as inactives =>
          proof ← leastProof inactives;
          makeFacts inactive (provenance proof)
      | [] =>
          makeFacts (if existsb (has_state indeterminate) normalized then indeterminate else active)
                    (mergeProofs normalized)
      end
  end.

Definition complement_state (s : ActivationState) : ActivationState :=
  match s with active => inactive | inactive => active | indeterminate => indeterminate end.

Definition activationComplement (operand : jsval F) : act_res ActivationResult :=
  normalized ← normalizeResult operand;
  makeFacts (complement_state (state normalized)) (provenance normalized).
End operands.

(** The operands of a call made with results the algebra already holds. *)
Definition operands_value (rs : list ActivationResult) : jsval unit := JArr true (map result_value rs).

Definition activationDifference {F} (left right : jsval F) : act_res ActivationResult :=
  c ← activationComplement right;
  activationIntersection (JArr true [left; result_value c]).

(** ** Activation rules *)

Inductive ActivationKind :=
| ak_always
| ak_directory_tree
| ak_glob
| ak_manual
| ak_conditional
| ak_unknown.

#[export] Instance ActivationKind_eq_dec : EqDecision ActivationKind.
Proof. solve_decision. Defined.

Definition activation_kind_name (k : ActivationKind) : jstring :=
  match k with
  | ak_always => #"always"
  | ak_directory_tree => #"directory-tree"
  | ak_glob => #"glob"
  | ak_manual => #"manual"
  | ak_conditional => #"conditional"
  | ak_unknown => #"unknown"
  end.

Definition ACTIVATION_KIND_SET : list ActivationKind :=
  [ak_always; ak_directory_tree; ak_glob; ak_manual; ak_conditional; ak_unknown].

Inductive selector :=
| DirectorySelector (path : jstring)
| GlobSelector (pattern : jstring) (dialectId : option jstring).

#[export] Instance selector_eq_dec : EqDecision selector.
Proof. solve_decision. Defined.

(** The fields of a validated rule that evaluation reads. *)
Record ActivationRule := {
  id : jstring;
  documentId : jstring;
  profileId : jstring;
  surfaceId : jstring;
  specSnapshotId : jstring;
  rule_kind : ActivationKind;
  scopeRoot : jstring;
  include : list selector;
  exclude : list selector;
  conditions : list jstring;
  unknownReason : option jstring
}.

Definition RULE_KEYS : list jstring :=
  [ #"id"; #"documentId"; #"profileId"; #"surfaceId"; #"specSnapshotId"; #"kind"; #"scopeRoot";
    #"include"; #"exclude"; #"conditions"; #"unknownReason"; #"evidenceRefs"; #"uncertainty"].

Definition is_directory (s : selector) : bool :=
  match s with DirectorySelector _ => true | GlobSelector _ _ => false end.
Definition is_glob (s : selector) : bool := negb (is_directory s).

Section rules.
Context {F : Type}.

(** [value !== null ? assertText(value) : null] *)
Definition nullableText (value : jsval F) (code : ActivationAlgebraErrorCode)
    : act_res (option jstring) :=
  match value with
  | JNull => Ok None
  | _ => s ← assertText value code; Ok (Some s)
  end.

Definition optionBytes (s : option jstring) : N :=
  match s with Some s => textBytes s | None => 0%N end.

Definition checkBytes (bytes : N) : act_res unit :=
  ensure (bytes <=? maxInputTextBytes)%N resourceLimit.

(** One round of the selector loop. *)
Definition assertSelector (acc : list selector * N) (value : jsval F) : act_res (list selector * N) :=
  let '(selectors, bytes) := acc in
  record ← match isDataRecord value with Some r => Ok r | None => Err invalidRule end;
  parsed ←
    match dataProperty record #"kind" with
    | JStr k =>
        if jeqb k #"directory-tree" then
          _ ← ensure (hasExactKeys record [ #"kind"; #"path"; #"sourceRange"]) invalidRule;
          path ← assertText (dataProperty record #"path") invalidRule;
          _ ← ensure (isRepositoryRelativePath path) invalidRule;
          Ok (DirectorySelector path, textBytes path)
        else if jeqb k #"glob" then
          _ ← ensure (hasExactKeys record [ #"kind"; #"pattern"; #"dialectId"; #"sourceRange";
                                            #"uncertainty"]) invalidRule;
          pattern ← assertText (dataProperty record #"pattern") invalidRule;
          dialectId ← nullableText (dataProperty record #"dialectId") invalidRule;
          Ok (GlobSelector pattern dialectId, (textBytes pattern + optionBytes dialectId)%N)
        else Err invalidRule
    | _ => Err invalidRule
    end;
  let bytes' := (bytes + parsed.2)%N in
  _ ← checkBytes bytes';
  Ok (selectors ++ [parsed.1], bytes').

Definition assertCondition (acc : list jstring * N) (value : jsval F) : act_res (list jstring * N) :=
  let '(seen, bytes) := acc in
  condition ← assertText value invalidRule;
  _ ← ensure (negb (existsb (jeqb condition) seen)) invalidRule;
  let bytes' := (bytes + textBytes condition)%N in
  _ ← checkBytes bytes';
  Ok (seen ++ [condition], bytes').

Definition assertEvidenceRef (acc : list jstring * N) (value : jsval F) : act_res (list jstring * N) :=
  let '(pairs, bytes) := acc in
  record ← closedRecord value [ #"sourceId"; #"factId"] invalidRule;
  sourceId ← assertText (dataProperty record #"sourceId") invalidRule;
  factId ← nullableText (dataProperty record #"factId") invalidRule;
  let evidencePair := lengthPrefixed [sourceId; default [] factId] in
  _ ← ensure (negb (existsb (jeqb evidencePair) pairs)) invalidRule;
  let bytes' := (bytes + (textBytes sourceId + optionBytes factId))%N in
  _ ← checkBytes bytes';
  Ok (pairs ++ [evidencePair], bytes').

(** The checks that relate the kind to the other fields. *)
Definition kindChecks (k : ActivationKind) (inc : list selector) (conds : list jstring)
    (reason : option jstring) : act_res unit :=
  _ ← ensure (negb (bool_decide (k = ak_always) && negb (bool_decide (conds = [])))) invalidRule;
  _ ← ensure (negb (bool_decide (k = ak_directory_tree) && negb (existsb is_directory inc))) invalidRule;
  _ ← ensure (negb (bool_decide (k = ak_glob) && negb (existsb is_glob inc))) invalidRule;
  _ ← ensure (negb (bool_decide (k = ak_conditional) && bool_decide (conds = []))) invalidRule;
  _ ← ensure (negb (bool_decide (k = ak_unknown) && bool_decide (reason = None))) invalidRule;
  ensure (negb (negb (bool_decide (k = ak_unknown)) && negb (bool_decide (reason = None)))) invalidRule.

(** The type assertion returns the typed view of the value it accepts. *)
Definition assertRule (value : jsval F) : act_res ActivationRule :=
  rule ← closedRecord value RULE_KEYS invalidRule;
  id' ← assertText (dataProperty rule #"id") invalidRule;
  documentId' ← assertText (dataProperty rule #"documentId") invalidRule;
  profileId' ← assertText (dataProperty rule #"profileId") invalidRule;
  surfaceId' ← assertText (dataProperty rule #"surfaceId") invalidRule;
  snapshotId ← assertText (dataProperty rule #"specSnapshotId") invalidRule;
  k ← match dataProperty rule #"kind" with
      | JStr s =>
          match find (fun k => jeqb (activation_kind_name k) s) ACTIVATION_KIND_SET with
          | Some k => Ok k
          | None => Err invalidRule
          end
      | _ => Err invalidRule
      end;
  scopeRoot' ← assertText (dataProperty rule #"scopeRoot") invalidRule;
  _ ← ensure (isRepositoryRelativePath scopeRoot') invalidRule;
  inc ← assertDenseArray (dataProperty rule #"include") maxSelectors invalidRule;
  exc ← assertDenseArray (dataProperty rule #"exclude") maxSelectors invalidRule;
  _ ← ensure (N.of_nat (length inc + length exc) <=? maxSelectors)%N resourceLimit;
  let inputBytes := (textBytes id' + textBytes documentId' + textBytes profileId' +
                     textBytes surfaceId' + textBytes snapshotId + textBytes scopeRoot')%N in
  selectors ← foldM assertSelector ([], inputBytes) (inc ++ exc);
  let include' := take (length inc) selectors.1 in
  let exclude' := drop (length inc) selectors.1 in
  rawConditions ← assertDenseArray (dataProperty rule #"conditions") maxConditions invalidRule;
  conds ← foldM assertCondition ([], selectors.2) rawConditions;
  reason ← nullableText (dataProperty rule #"unknownReason") invalidRule;
  evidenceRefs ← assertDenseArray (dataProperty rule #"evidenceRefs") maxSelectors invalidRule;
  _ ← ensure (negb (bool_decide (length evidenceRefs = 0))) invalidRule;
  evidence ← foldM assertEvidenceRef ([], (conds.2 + optionBytes reason)%N) evidenceRefs;
  _ ← kindChecks k include' conds.1 reason;
  _ ← checkBytes evidence.2;
  Ok {| id := id'; documentId := documentId'; profileId := profileId'; surfaceId := surfaceId';
        specSnapshotId := snapshotId; rule_kind := k; scopeRoot := scopeRoot';
        include := include'; exclude := exclude'; conditions := conds.1; unknownReason := reason |}.
End rules.

(** ** Callbacks *)

Inductive ActivationRequest :=
| GlobActivationRequest (ruleId profileId surfaceId scopeRoot targetPath pattern : jstring)
    (dialectId : option jstring)
| ManualActivationRequest (ruleId documentId profileId surfaceId specSnapshotId targetPath : jstring)
    (conditions : list jstring)
| ConditionalActivationRequest (ruleId documentId profileId surfaceId specSnapshotId targetPath : jstring)
    (conditions : list jstring).

(** A caller's function either throws or returns an unchecked value. *)
Inductive callback_outcome := Threw | Returned (value : jsval unit).
Definition callback_fn : Type := ActivationRequest -> callback_outcome.

Record ActivationCallbacks := {
  matchGlob : option callback_fn;
  resolveManual : option callback_fn;
  resolveConditional : option callback_fn
}.

Record ActivationFactDecision := { decision_state : ActivationState; reason : jstring }.

Definition callback_of (value : jsval callback_fn) : option callback_fn :=
  match value with JFun f => Some f | _ => None end.

Definition is_function (value : jsval callback_fn) : bool :=
  match value with JFun _ => true | _ => false end.

Definition assertCallbacks (value : jsval callback_fn) : act_res ActivationCallbacks :=
  match isDataRecord value with
  | None => Err invalidCallback
  | Some record =>
      let keys := keys_of record in
      _ ← ensure (forallb (fun k => existsb (jeqb k)
                    [ #"matchGlob"; #"resolveManual"; #"resolveConditional"]) keys) invalidCallback;
      _ ← ensure (forallb (fun k => is_function (dataProperty record k)) keys) invalidCallback;
      Ok {| matchGlob := callback_of (dataProperty record #"matchGlob");
            resolveManual := callback_of (dataProperty record #"resolveManual");
            resolveConditional := callback_of (dataProperty record #"resolveConditional") |}
  end.

Definition normalizeDecision (value : jsval unit) : act_res ActivationFactDecision :=
  record ← closedRecord value [ #"state"; #"reason"] invalidCallback;
  st ← match state_of_value (dataProperty record #"state") with
       | Some st => Ok st
       | None => Err invalidCallback
       end;
  r ← assertText (dataProperty record #"reason") invalidCallback;
  Ok {| decision_state := st; reason := r |}.

Definition invokeCallback (callback : option callback_fn) (request : ActivationRequest)
    (missingReason : jstring) : act_res ActivationFactDecision :=
  match callback with
  | None => Ok {| decision_state := indeterminate; reason := missingReason |}
  | Some f =>
      match f request with
      | Threw => Err callbackFailed
      | Returned value => normalizeDecision value
      end
  end.

Definition isWithinDirectory (targetPath directory : jstring) : bool :=
  jeqb directory REPOSITORY_ROOT || jeqb targetPath directory
  || startsWith targetPath (directory ++ #"/").

(** ** Evaluation *)

Section evaluation.
Context `{Sha256}.

Definition factKey (k : ActivationProvenanceKind) (parts : list jstring) : jstring :=
  kind_name k ++ #":" ++ sha256_hex (lengthPrefixed parts).

Definition ruleIdentityParts (rule : ActivationRule) : list jstring :=
  [id rule; documentId rule; profileId rule; surfaceId rule; specSnapshotId rule].

Definition describeText (value : jstring) : jstring :=
  let bytes := textBytes value in
  if (bytes <=? 1024)%N then #"'" ++ value ++ #"'"
  else #"[sha256:" ++ sha256_hex value ++ #"; " ++ String_of_N bytes ++ #" bytes]".

Definition atomicResult (st : ActivationState) (k : ActivationProvenanceKind)
    (keyParts : list jstring) (d : jstring) : act_res ActivationResult :=
  makeFacts st [{| key := factKey k keyParts; kind := k; observedState := st; description := d |}].

Definition selectorKey (s : selector) : jstring :=
  match s with
  | DirectorySelector path => factKey pk_directory_selector [path]
  | GlobSelector pattern dialectId => factKey pk_glob_selector [default [] dialectId; pattern]
  end.

Definition inside_state (b : bool) : ActivationState := if b then active else inactive.
Definition inside_text (b : bool) : jstring := if b then #"inside" else #"outside".

(** The memo of glob results, by selector key. *)
Abbreviation memo := (list (jstring * ActivationResult)).

Definition memo_get (k : jstring) (m : memo) : option ActivationResult :=
  snd <$> find (fun e => jeqb e.1 k) m.

Definition selectorResult (rule : ActivationRule) (targetPath : jstring) (s : selector)
    (callbacks : ActivationCallbacks) (globMemo : memo) : act_res (ActivationResult * memo) :=
  match s with
  | DirectorySelector path =>
      let inside := isWithinDirectory targetPath path in
      r ← atomicResult (inside_state inside) pk_directory_selector
            (ruleIdentityParts rule ++ [targetPath; path])
            (#"Target " ++ describeText targetPath ++ #" is " ++ inside_text inside
             ++ #" directory selector " ++ describeText path ++ #".");
      Ok (r, globMemo)
  | GlobSelector pattern dialectId =>
      let k := selectorKey s in
      match memo_get k globMemo with
      | Some cached => Ok (cached, globMemo)
      | None =>
          decision ← invokeCallback (matchGlob callbacks)
            (GlobActivationRequest (id rule) (profileId rule) (surfaceId rule) (scopeRoot rule)
               targetPath pattern dialectId)
            #"No profile-owned glob matcher was supplied.";
          r ← atomicResult (decision_state decision) pk_glob_selector
                (ruleIdentityParts rule ++ [targetPath; scopeRoot rule; default [] dialectId; pattern])
                (reason decision);
          Ok (r, globMemo ++ [(k, r)])
      end
  end.

Definition add_unique (unique : list (jstring * selector)) (s : selector) : list (jstring * selector) :=
  let k := selectorKey s in
  if existsb (fun e => jeqb e.1 k) unique then unique else unique ++ [(k, s)].

Definition selectorStep (rule : ActivationRule) (targetPath : jstring) (callbacks : ActivationCallbacks)
    (acc : list ActivationResult * memo) (entry : jstring * selector)
    : act_res (list ActivationResult * memo) :=
  '(r, m) ← selectorResult rule targetPath entry.2 callbacks acc.2;
  Ok (acc.1 ++ [r], m).

Definition selectorUnion (rule : ActivationRule) (targetPath : jstring) (selectors : list selector)
    (emptyState : ActivationState) (callbacks : ActivationCallbacks) (globMemo : memo)
    : act_res (ActivationResult * memo) :=
  match selectors with
  | [] => r ← makeFacts emptyState []; Ok (r, globMemo)
  | _ =>
      let unique := fold_left add_unique selectors [] in
      let ordered := sort_by (fun l r => jleb l.1 r.1) unique in
      acc ← foldM (selectorStep rule targetPath callbacks) ([], globMemo) ordered;
      r ← activationUnion (operands_value acc.1);
      Ok (r, acc.2)
  end.

Definition baseResult (rule : ActivationRule) (targetPath : jstring) (callbacks : ActivationCallbacks)
    : act_res ActivationResult :=
  match rule_kind rule with
  | ak_always =>
      atomicResult active pk_always (ruleIdentityParts rule)
        (#"Rule " ++ describeText (id rule) ++ #" has unconditional activation.")
  | ak_directory_tree | ak_glob => makeFacts active []
  | ak_manual =>
      decision ← invokeCallback (resolveManual callbacks)
        (ManualActivationRequest (id rule) (documentId rule) (profileId rule) (surfaceId rule)
           (specSnapshotId rule) targetPath (conditions rule))
        #"No manual-activation fact callback was supplied.";
      atomicResult (decision_state decision) pk_manual_fact
        (ruleIdentityParts rule ++ [targetPath]) (reason decision)
  | ak_conditional =>
      decision ← invokeCallback (resolveConditional callbacks)
        (ConditionalActivationRequest (id rule) (documentId rule) (profileId rule) (surfaceId rule)
           (specSnapshotId rule) targetPath (conditions rule))
        #"No conditional-activation fact callback was supplied.";
      atomicResult (decision_state decision) pk_conditional_fact
        (ruleIdentityParts rule ++ [targetPath; #"conditions";
           String_of_N (N.of_nat (length (conditions rule)))] ++ conditions rule)
        (reason decision)
  | ak_unknown =>
      let why := default #"The B03 activation rule is unknown." (unknownReason rule) in
      atomicResult indeterminate pk_unknown_rule (ruleIdentityParts rule ++ [why]) why
  end.

Definition scopeResult (rule : ActivationRule) (targetPath : jstring) : act_res ActivationResult :=
  let scopeInside := isWithinDirectory targetPath (scopeRoot rule) in
  if jeqb (scopeRoot rule) REPOSITORY_ROOT then makeFacts active []
  else atomicResult (inside_state scopeInside) pk_scope_root
         (ruleIdentityParts rule ++ [targetPath; scopeRoot rule])
         (#"Target " ++ describeText targetPath ++ #" is " ++ inside_text scopeInside
          ++ #" scope root " ++ describeText (scopeRoot rule) ++ #".").

(** The part of [evaluateActivationRule] after its arguments are validated. *)
Definition evaluateRule (rule : ActivationRule) (targetPath : jstring)
    (callbacks : ActivationCallbacks) : act_res ActivationResult :=
  scope ← scopeResult rule targetPath;
  if has_state inactive scope then Ok scope else
  trigger ← baseResult rule targetPath callbacks;
  if has_state inactive trigger then Ok trigger else
  '(included, globMemo) ← selectorUnion rule targetPath (include rule) active callbacks [];
  eligible ← activationIntersection (operands_value [scope; trigger; included]);
  if has_state inactive eligible then Ok eligible else
  '(excluded, _) ← selectorUnion rule targetPath (exclude rule) inactive callbacks globMemo;
  if has_state active excluded then activationComplement (F := unit) (result_value excluded)
  else activationDifference (F := unit) (result_value eligible) (result_value excluded).

Definition evaluateActivationRule (rule input : jsval callback_fn) : act_res ActivationResult :=
  rule' ← assertRule rule;
  record ← match isDataRecord input with
           | Some r => if forallb (fun k => existsb (jeqb k) [ #"targetPath"; #"callbacks"]) (keys_of r)
                       then Ok r else Err invalidTargetPath
           | None => Err invalidTargetPath
           end;
  targetPath ← assertText (dataProperty record #"targetPath") invalidTargetPath;
  _ ← ensure (isRepositoryRelativePath targetPath) invalidTargetPath;
  callbacks ← assertCallbacks (match dataProperty record #"callbacks" with
                               | JUndefined => JRec []
                               | v => v
                               end);
  evaluateRule rule' targetPath callbacks.
End evaluation.
