(* ===== verification/ActivationLaws.v ===== *)
(** The laws of the activation algebra: canonical proofs, the Kleene semantics
    of the operations, their totality, symmetry and duality, and the meaning of
    rule evaluation. *)
From S2P Require Import Prelude JsString Unicode JsValue RepositoryPath ActivationAlgebra.

(** ** Names *)

Lemma state_name_inj s t : state_name s = state_name t -> s = t.
Proof. by destruct s, t. Qed.

Lemma kind_name_inj s t : kind_name s = kind_name t -> s = t.
Proof. by destruct s, t. Qed.

Lemma state_of_name_name s : state_of_name (state_name s) = Some s.
Proof. by destruct s. Qed.

Lemma kind_of_name_name k : kind_of_name (kind_name k) = Some k.
Proof. by destruct k. Qed.

Lemma state_name_wf s : wf_text (state_name s).
Proof. by destruct s. Qed.
Lemma kind_name_wf k : wf_text (kind_name k).
Proof. by destruct k. Qed.

(** ** Admissible facts *)

Definition text_ok (s : jstring) : Prop :=
  s <> [] /\ wf_text s /\ (textBytes s <= maxTextBytes)%N.

Definition fact_ok (f : ActivationProvenance) : Prop :=
  text_ok (key f) /\ text_ok (description f).

(** Facts that agree whenever they share a key. *)
Definition consistent (fs : list ActivationProvenance) : Prop :=
  forall f g, f ∈ fs -> g ∈ fs -> key f = key g -> f = g.

Definition facts_admissible (fs : list ActivationProvenance) : Prop :=
  (N.of_nat (length fs) <= maxProvenanceFacts)%N /\ Forall fact_ok fs /\
  (sumN fact_bytes fs <= maxInputTextBytes)%N /\ consistent fs.

(** A canonical proof: strictly increasing keys. *)
Definition key_lt (f g : ActivationProvenance) : Prop := jltb (key f) (key g) = true.
Definition canonical (fs : list ActivationProvenance) : Prop := StronglySorted key_lt fs.

Definition wf_result (r : ActivationResult) : Prop :=
  canonical (provenance r) /\ facts_admissible (provenance r).

Lemma assertText_Ok {F} (v : jsval F) code s :
  assertText v code = Ok s <-> v = JStr s /\ text_ok s.
Proof.
  unfold assertText, text_ok, wf_text. destruct v; try (split; [done|by intros [? _]]).
  rewrite !bind_ensure, negb_true_iff, jeqb_neq, N.leb_le.
  split; [by intros (? & ? & ? & [= <-])|by intros [[= <-] (? & ? & ?)]].
Qed.

Lemma closedRecord_Ok {F} (v : jsval F) keys code r :
  closedRecord v keys code = Ok r <-> v = JRec r /\ hasExactKeys r keys = true.
Proof.
  unfold closedRecord. destruct v; simpl; try (split; [done|by intros [? _]]).
  case_match eqn:E; split; [by intros [= <-]|by intros [[= <-] _]|done|].
  intros [[= <-] ?]. congruence.
Qed.

Lemma assertState_Ok {F} (v : jsval F) st :
  assertState v = Ok st -> v = JStr (state_name st).
Proof.
  unfold assertState, state_of_value. destruct v; try done.
  destruct (state_of_name s) eqn:E; [|done]. intros [= <-].
  unfold state_of_name in E. apply find_some in E as [_ E%jeqb_eq]. by subst.
Qed.

Lemma assertState_name {F} st : assertState (F := F) (JStr (state_name st)) = Ok st.
Proof. unfold assertState. simpl. by rewrite state_of_name_name. Qed.

Lemma assertDenseArray_Ok {F} (v : jsval F) n code items :
  assertDenseArray v n code = Ok items <->
  v = JArr true items /\ (N.of_nat (length items) <= n)%N.
Proof.
  unfold assertDenseArray. destruct v; try (split; [done|by intros [? _]]).
  rewrite !bind_ensure, N.leb_le.
  split; [by intros (? & -> & [= <-])|by intros [[= -> <-] ?]].
Qed.

(** One round on a fact the algebra built. *)
Definition insert_fact (byKey : list ActivationProvenance) (f : ActivationProvenance) :=
  match find_fact (key f) byKey with Some _ => byKey | None => byKey ++ [f] end.

Definition agrees (byKey : list ActivationProvenance) (f : ActivationProvenance) : Prop :=
  forall g, find_fact (key f) byKey = Some g -> g = f.

Lemma find_fact_key k l f : find_fact k l = Some f -> f ∈ l /\ key f = k.
Proof. unfold find_fact. intros [Hin%list_elem_of_In Hk%jeqb_eq]%find_some. done. Qed.

Lemma find_fact_none k l : find_fact k l = None <-> forall f, f ∈ l -> key f <> k.
Proof.
  unfold find_fact. split.
  - intros H f Hf. apply jeqb_neq. eapply find_none in H; [done|]. by apply list_elem_of_In.
  - intros H. destruct (find _ l) eqn:E; [|done].
    apply find_some in E as [Hin%list_elem_of_In Hk%jeqb_eq]. by apply H in Hin.
Qed.

Lemma same_fact g f :
  key g = key f ->
  bool_decide (kind g = kind f) && bool_decide (observedState g = observedState f)
    && jeqb (description g) (description f) = true <-> g = f.
Proof.
  intros Hk. rewrite !andb_true_iff, !bool_decide_eq_true, jeqb_eq.
  split; [|by intros ->]. destruct f, g; simpl in *. intros [[]]; congruence.
Qed.

(** What [normalizeFact] accepts and computes, on any value. *)
Definition fact_step (acc : list ActivationProvenance * N) (f : ActivationProvenance)
    (acc' : list ActivationProvenance * N) : Prop :=
  fact_ok f /\ (acc.2 + fact_bytes f <= maxInputTextBytes)%N /\ agrees acc.1 f /\
  acc' = (insert_fact acc.1 f, (acc.2 + fact_bytes f)%N).

Lemma normalizeFact_tail acc k kd st d acc' :
  text_ok k -> text_ok d ->
  (_ ← ensure (acc.2 + (textBytes k + textBytes d) <=? maxInputTextBytes)%N resourceLimit;
   match find_fact k acc.1 with
   | Some prior =>
       _ ← ensure (bool_decide (kind prior = kd) && bool_decide (observedState prior = st)
                   && jeqb (description prior) d) conflictingProvenance;
       Ok (acc.1, (acc.2 + (textBytes k + textBytes d))%N)
   | None => Ok (acc.1 ++ [{| key := k; kind := kd; observedState := st; description := d |}],
                 (acc.2 + (textBytes k + textBytes d))%N)
   end) = Ok acc' <->
  fact_step acc {| key := k; kind := kd; observedState := st; description := d |} acc'.
Proof.
  intros Hk Hd. set (f := {| key := k; kind := kd; observedState := st; description := d |}).
  rewrite bind_ensure, N.leb_le. unfold fact_step, agrees, insert_fact.
  change (find_fact (key f)) with (find_fact k). change (fact_bytes f) with (textBytes k + textBytes d)%N.
  assert (fact_ok f) as Hf by done.
  destruct (find_fact k acc.1) as [g|] eqn:E.
  - apply find_fact_key in E as [_ E].
    assert (bool_decide (kind g = kd) && bool_decide (observedState g = st)
            && jeqb (description g) d = true <-> g = f) as Hs by (by apply (same_fact g f)).
    rewrite bind_ensure, Hs. split.
    + intros (? & -> & [= <-]). split; [done|]. split; [done|]. split; [|done].
      by intros ? [= <-].
    + intros (_ & ? & Hg & ->). split; [done|]. split; [by apply Hg|done].
  - split.
    + intros (? & [= <-]). by split; [|split; [|split]].
    + by intros (_ & ? & _ & ->).
Qed.

Definition FACT_KEYS : list jstring := [ #"key"; #"kind"; #"observedState"; #"description"].

(** The value spells the fact. *)
Definition reads {F} (v : jsval F) (f : ActivationProvenance) : Prop :=
  exists r, v = JRec r /\ hasExactKeys r FACT_KEYS = true /\
    dataProperty r #"key" = JStr (key f) /\
    (exists s, dataProperty r #"kind" = JStr s /\ kind_of_name s = Some (kind f)) /\
    assertState (dataProperty r #"observedState") = Ok (observedState f) /\
    dataProperty r #"description" = JStr (description f).

Lemma reads_value {F} f g : reads (F := F) (fact_value f) g <-> f = g.
Proof.
  split.
  - intros (r & [= <-] & _ & [= Hk] & (s & [= <-] & Hkd) & Hst & [= Hd]).
    rewrite kind_of_name_name in Hkd. change (dataProperty _ _) with
      (JStr (F := F) (state_name (observedState f))) in Hst.
    rewrite assertState_name in Hst. destruct f, g; simpl in *. congruence.
  - intros <-. eexists. split; [done|]. split; [done|]. split; [done|].
    split; [eexists; split; [done|apply kind_of_name_name]|].
    split; [apply assertState_name|done].
Qed.

Lemma normalizeFact_Ok {F} acc (v : jsval F) acc' :
  normalizeFact acc v = Ok acc' <-> exists f, reads v f /\ fact_step acc f acc'.
Proof.
  destruct acc as [byKey n]. unfold normalizeFact. split.
  - intros H. apply bind_Ok in H as (r & [-> Hkeys]%closedRecord_Ok & H).
    apply bind_Ok in H as (k & [Ek Hk]%assertText_Ok & H).
    apply bind_Ok in H as (kd & Ekd & H).
    apply bind_Ok in H as (st & Est & H).
    apply bind_Ok in H as (d & [Ed Hd]%assertText_Ok & H).
    apply (normalizeFact_tail (byKey, n)) in H; [|done..].
    exists {| key := k; kind := kd; observedState := st; description := d |}. split; [|done].
    exists r. repeat split; try done.
    destruct (dataProperty r #"kind"); try done. exists s.
    destruct (kind_of_name s); [|done]. by injection Ekd as ->.
  - intros ([k kd st d] & (r & -> & Hkeys & Ek & (s & Es & Ekd) & Est & Ed) & Hf).
    cbn [key kind observedState description] in *.
    assert (text_ok k /\ text_ok d) as [Hk Hd] by apply Hf.
    apply bind_Ok. exists r. split; [by apply closedRecord_Ok|].
    apply bind_Ok. exists k. split; [by apply assertText_Ok|].
    apply bind_Ok. exists kd. split; [by rewrite Es, Ekd|].
    apply bind_Ok. exists st. split; [done|].
    apply bind_Ok. exists d. split; [by apply assertText_Ok|].
    by apply (normalizeFact_tail (byKey, n)).
Qed.

(** The whole loop, on values that spell facts. *)
Definition collect (fs : list ActivationProvenance) : list ActivationProvenance :=
  fold_left insert_fact fs [].

Lemma collect_snoc fs f : collect (fs ++ [f]) = insert_fact (collect fs) f.
Proof. unfold collect. by rewrite fold_left_app. Qed.

Lemma insert_fact_elem l f : consistent (l ++ [f]) -> forall g, g ∈ insert_fact l f <-> g ∈ l ++ [f].
Proof.
  intros Hc g. unfold insert_fact. destruct (find_fact (key f) l) as [h|] eqn:E; [|done].
  apply find_fact_key in E as [Hh Hk]. split; [set_solver|].
  intros [?| ->%list_elem_of_singleton]%elem_of_app; [done|].
  assert (h = f) as <- by (apply Hc; [set_solver|set_solver|done]). done.
Qed.

Lemma insert_fact_nodup l f : NoDup (key <$> l) -> NoDup (key <$> insert_fact l f).
Proof.
  intros Hl. unfold insert_fact. destruct (find_fact (key f) l) eqn:E; [done|].
  rewrite fmap_app. apply NoDup_app. split; [done|]. split; [|apply NoDup_singleton].
  intros k Hk ->%list_elem_of_singleton. apply list_elem_of_fmap in Hk as (g & Hg & Hin).
  by apply (proj1 (find_fact_none _ _) E g).
Qed.

Lemma insert_fact_length l f : length (insert_fact l f) <= S (length l).
Proof. unfold insert_fact. destruct (find_fact _ _); [lia|]. rewrite length_app. simpl. lia. Qed.

Lemma insert_fact_bytes l f : (sumN fact_bytes (insert_fact l f) <= sumN fact_bytes l + fact_bytes f)%N.
Proof.
  unfold insert_fact. destruct (find_fact _ _); [lia|]. rewrite sumN_app.
  unfold sumN at 2. simpl. lia.
Qed.

(** The state of the loop after reading the facts [fs]. *)
Definition loop_state (fs : list ActivationProvenance) (acc : list ActivationProvenance * N) : Prop :=
  acc = (collect fs, sumN fact_bytes fs) /\ Forall fact_ok fs /\
  (sumN fact_bytes fs <= maxInputTextBytes)%N /\ consistent fs /\
  (forall g, g ∈ collect fs <-> g ∈ fs) /\ NoDup (key <$> collect fs).

Lemma consistent_sub fs gs : consistent fs -> (forall f, f ∈ gs -> f ∈ fs) -> consistent gs.
Proof. intros Hc Hs f g Hf Hg. apply Hc; auto. Qed.

Lemma agrees_consistent fs f :
  consistent fs -> (forall g, g ∈ collect fs <-> g ∈ fs) -> NoDup (key <$> collect fs) ->
  agrees (collect fs) f <-> consistent (fs ++ [f]).
Proof.
  intros Hc He Hn. split.
  - intros Ha. assert (forall g, g ∈ fs -> key g = key f -> g = f) as Hgf.
    { intros g Hg%He Hk. destruct (find_fact (key f) (collect fs)) as [h|] eqn:E.
      - pose proof (Ha h E) as ->. apply find_fact_key in E as [Hf _].
        apply Hc; [by apply He|by apply He|done].
      - by apply (proj1 (find_fact_none _ _) E g) in Hg. }
    intros g h [Hg|Hg]%elem_of_app [Hh|Hh]%elem_of_app Hk;
      rewrite ?list_elem_of_singleton in *; subst; try done.
    + by apply Hc.
    + by apply Hgf.
    + symmetry. by apply Hgf.
  - intros Hc' g [Hg%He Hk]%find_fact_key. apply Hc'; [set_solver|set_solver|done].
Qed.

Lemma loop_state_step fs acc f acc' :
  loop_state fs acc -> (fact_step acc f acc' <-> loop_state (fs ++ [f]) acc').
Proof.
  intros (-> & Hok & Hb & Hc & He & Hn).
  assert (sumN fact_bytes (fs ++ [f]) = sumN fact_bytes fs + fact_bytes f)%N as Hsum.
  { rewrite sumN_app. unfold sumN at 2. simpl. lia. }
  unfold fact_step, loop_state. cbn [fst snd]. rewrite Hsum, collect_snoc, Forall_app, Forall_singleton.
  rewrite agrees_consistent by done. split.
  - intros (? & ? & Hc' & ->). split_and!; try done.
    + intros g. rewrite insert_fact_elem.
      * rewrite !elem_of_app. by rewrite He.
      * eapply consistent_sub; [done|]. intros h. rewrite !elem_of_app. by rewrite He.
    + by apply insert_fact_nodup.
  - intros (-> & [? ?] & ? & ? & _). done.
Qed.

Lemma loop_state_extend fs acc f :
  loop_state fs acc -> fact_ok f -> (sumN fact_bytes (fs ++ [f]) <= maxInputTextBytes)%N ->
  consistent (fs ++ [f]) -> exists a, loop_state (fs ++ [f]) a.
Proof.
  intros Hl Hf Hb Hc. exists (insert_fact acc.1 f, (acc.2 + fact_bytes f)%N).
  apply (loop_state_step _ acc); [done|]. destruct Hl as (-> & _ & _ & Hc0 & He & Hn).
  rewrite sumN_app in Hb. unfold sumN at 2 in Hb. simpl in Hb.
  split; [done|]. split; [simpl; lia|]. split; [by apply agrees_consistent|done].
Qed.

Lemma foldM_loop {F} (items : list (jsval F)) fs acc acc' :
  loop_state fs acc ->
  foldM normalizeFact acc items = Ok acc' <->
  exists gs, Forall2 reads items gs /\ loop_state (fs ++ gs) acc'.
Proof.
  revert fs acc. induction items as [|v items IH]; intros fs acc Hl; cbn [foldM].
  - split.
    + intros [= <-]. exists []. rewrite app_nil_r. split; [constructor|done].
    + intros (gs & Hr & Hl'). inversion Hr; subst. rewrite app_nil_r in Hl'.
      f_equal. destruct Hl as [-> _], Hl' as [-> _]. done.
  - rewrite bind_Ok. setoid_rewrite normalizeFact_Ok. split.
    + intros (a & (f & Hf & Hs) & Hr). eapply loop_state_step in Hs; [|done].
      apply (IH _ _ Hs) in Hr as (gs & Hgs & Hl'). exists (f :: gs).
      rewrite <- app_assoc in Hl'. split; [by constructor|done].
    + intros (gs & Hr & Hl'). inversion Hr as [|? f ? gs' Hf Hgs]; subst.
      change (fs ++ f :: gs') with (fs ++ [f] ++ gs') in Hl'. rewrite app_assoc in Hl'.
      assert (exists a, loop_state (fs ++ [f]) a) as [a Ha].
      { destruct Hl' as (_ & Hok' & Hb' & Hc' & _).
        apply Forall_app in Hok' as [[_ Hok']%Forall_app _]. rewrite sumN_app in Hb'.
        apply (loop_state_extend fs acc f Hl); [by inversion Hok'|lia|].
        eapply consistent_sub; [done|set_solver]. }
      exists a. split; [|by apply (IH _ _ Ha); exists gs'].
      exists f. split; [done|]. by eapply loop_state_step.
Qed.

(** Keys decide the order of facts with distinct keys. *)
Lemma compareFacts_le_key f g :
  key f <> key g -> compareFacts_le f g = jltb (key f) (key g).
Proof. intros Hk. unfold compareFacts_le, le_of_strings. simpl. by rewrite (proj2 (jeqb_neq _ _) Hk). Qed.

Fixpoint lex_le (l r : list jstring) : bool :=
  match l, r with
  | x :: l', y :: r' => if jeqb x y then lex_le l' r' else jltb x y
  | _, _ => true
  end.

Lemma compareFacts_lex f g : compareFacts_le f g = lex_le (fact_parts f) (fact_parts g).
Proof.
  unfold compareFacts_le, le_of_strings, fact_parts. cbn [find fst snd lex_le].
  by repeat (destruct (jeqb _ _); cbn [negb]).
Qed.

Lemma lex_le_trans a b c :
  length a = length b -> length b = length c ->
  lex_le a b = true -> lex_le b c = true -> lex_le a c = true.
Proof.
  revert b c; induction a as [|x a IH]; intros [|y b] [|z c]; try done.
  cbn [length lex_le]. intros [= Hab] [= Hbc].
  destruct (jeqb x y) eqn:E1; [apply jeqb_eq in E1 as ->|apply jeqb_neq in E1].
  - destruct (jeqb y z); eauto.
  - destruct (jeqb y z) eqn:E2; [apply jeqb_eq in E2 as ->|apply jeqb_neq in E2].
    + by rewrite (proj2 (jeqb_neq _ _) E1).
    + intros H1 H2. pose proof (jltb_trans _ _ _ H1 H2) as H3.
      assert (jeqb x z = false) as ->; [|done].
      apply jeqb_neq. intros ->. by rewrite jltb_irrefl in H3.
Qed.

Lemma lex_le_total a b : lex_le a b = true \/ lex_le b a = true.
Proof.
  revert b; induction a as [|x a IH]; intros [|y b]; simpl; auto.
  destruct (jeqb x y) eqn:E1; [apply jeqb_eq in E1 as ->; rewrite jeqb_refl; auto|].
  apply jeqb_neq in E1. rewrite (proj2 (jeqb_neq y x)) by congruence.
  rewrite (jltb_leb x y). destruct (jleb y x) eqn:E; [right|by left].
  apply jleb_lt_or_eq in E as [?| ->]; done.
Qed.

Lemma compareFacts_trans f g h :
  compareFacts_le f g = true -> compareFacts_le g h = true -> compareFacts_le f h = true.
Proof. rewrite !compareFacts_lex. by apply lex_le_trans. Qed.

Lemma compareFacts_total f g : compareFacts_le f g = true \/ compareFacts_le g f = true.
Proof. rewrite !compareFacts_lex. apply lex_le_total. Qed.

Lemma canonical_nodup r : canonical r -> NoDup r.
Proof.
  induction 1 as [|f r Hs IH Hf]; constructor; [|done].
  intros Hin. rewrite Forall_forall in Hf. apply Hf in Hin. unfold key_lt in Hin.
  by rewrite jltb_irrefl in Hin.
Qed.

(** A canonical proof is determined by the set of its facts. *)
Lemma canonical_unique r1 r2 :
  canonical r1 -> canonical r2 -> (forall f, f ∈ r1 <-> f ∈ r2) -> r1 = r2.
Proof.
  intros H1 H2 He. apply (StronglySorted_unique_strong key_lt); [|done|done|].
  - intros x y _ _ Hx Hy. pose proof (jltb_trans _ _ _ Hx Hy) as H.
    by rewrite jltb_irrefl in H.
  - apply NoDup_Permutation; [by apply canonical_nodup..|done].
Qed.

Lemma sorted_distinct_canonical l :
  NoDup (key <$> l) -> canonical (sort_by compareFacts_le l).
Proof.
  intros Hn. pose proof (sort_by_sorted _ compareFacts_trans compareFacts_total l) as Hs.
  rewrite <- (sort_by_perm compareFacts_le l) in Hn.
  revert Hn. induction Hs as [|f r Hs IH Hf]; intros Hn; [constructor|].
  rewrite fmap_cons in Hn. apply NoDup_cons in Hn as [Hnin Hn]. constructor; [by apply IH|].
  rewrite Forall_forall in Hf. rewrite Forall_forall. intros g Hg. unfold key_lt.
  assert (key f <> key g) as Hk.
  { intros Hk. apply Hnin. rewrite Hk. by apply list_elem_of_fmap_2. }
  rewrite <- compareFacts_le_key by done. by apply Hf.
Qed.

(** [normalizeFacts] accepts exactly the arrays that spell an admissible list
    of facts, and returns its canonical proof. *)
Lemma normalizeFacts_spec {F} (v : jsval F) r :
  normalizeFacts v = Ok r <->
  exists items fs, v = JArr true items /\ Forall2 reads items fs /\
    facts_admissible fs /\ canonical r /\ forall f, f ∈ r <-> f ∈ fs.
Proof.
  assert (loop_state [] ([], 0%N)) as H0.
  { split; [done|]. split; [constructor|]. split; [done|].
    split; [by intros f g ?%not_elem_of_nil|]. split; [done|constructor]. }
  unfold normalizeFacts. rewrite bind_Ok. setoid_rewrite bind_Ok.
  setoid_rewrite assertDenseArray_Ok. split.
  - intros (items & [-> Hlen] & acc & Hf & [= <-]).
    apply (foldM_loop _ _ _ _ H0) in Hf as (fs & Hr & (-> & Hok & Hb & Hc & He & Hn)).
    exists items, fs. split; [done|]. split; [done|].
    split; [|split; [by apply sorted_distinct_canonical|]].
    + split; [|done]. apply Forall2_length in Hr. by rewrite <- Hr.
    + intros f. rewrite elem_of_sort_by. apply He.
  - intros (items & fs & -> & Hr & (Hlen & Hok & Hb & Hc) & Hcan & He).
    exists items. pose proof (Forall2_length _ _ _ Hr) as Hl. split; [by rewrite Hl|].
    assert (exists acc, loop_state fs acc) as [acc Hacc].
    { clear Hr Hlen He Hl. induction fs as [|f fs IH] using rev_ind; [by exists ([], 0%N)|].
      destruct IH as [a Ha].
      - by apply Forall_app in Hok as [? _].
      - rewrite sumN_app in Hb. lia.
      - eapply consistent_sub; [done|set_solver].
      - apply Forall_app in Hok as [_ Hok]. inversion Hok; subst.
        by apply (loop_state_extend fs a f Ha). }
    exists acc. split; [apply (foldM_loop _ _ _ _ H0); by exists fs|]. f_equal.
    destruct Hacc as (-> & _ & _ & _ & Hec & Hnd).
    apply canonical_unique; [by apply sorted_distinct_canonical|done|].
    intros f. rewrite elem_of_sort_by. cbn [fst]. by rewrite Hec, He.
Qed.

Lemma reads_facts {F} fs gs :
  Forall2 (reads (F := F)) (map fact_value fs) gs <-> gs = fs.
Proof.
  revert gs; induction fs as [|f fs IH]; intros gs; simpl; split; intros H.
  - by inversion H.
  - subst. constructor.
  - inversion H as [|? ? ? ? Hf Hr]; subst. apply reads_value in Hf as <-. f_equal. by apply IH.
  - subst. constructor; [by apply reads_value|by apply IH].
Qed.

Lemma normalizeFacts_facts {F} fs r :
  normalizeFacts (F := F) (facts_value fs) = Ok r <->
  facts_admissible fs /\ canonical r /\ forall f, f ∈ r <-> f ∈ fs.
Proof.
  rewrite normalizeFacts_spec. unfold facts_value. split.
  - intros (items & gs & [= <-] & ->%reads_facts & H). done.
  - intros H. exists (map fact_value fs), fs. split; [done|]. split; [by apply reads_facts|done].
Qed.

(** ** Results *)

Lemma admissible_sub fs gs :
  NoDup gs -> (forall f, f ∈ gs -> f ∈ fs) -> facts_admissible fs -> facts_admissible gs.
Proof.
  intros Hn Hs (Hlen & Hok & Hb & Hc). pose proof (NoDup_submseteq gs fs Hn Hs) as Hsub.
  split; [apply submseteq_length in Hsub; lia|]. split; [|split].
  - rewrite Forall_forall in Hok. rewrite Forall_forall. auto.
  - apply (sumN_submseteq fact_bytes) in Hsub. lia.
  - by eapply consistent_sub.
Qed.

Lemma admissible_perm fs gs : fs ≡ₚ gs -> facts_admissible fs -> facts_admissible gs.
Proof.
  intros Hp (Hlen & Hok & Hb & Hc). split; [by rewrite <- Hp|].
  split; [by rewrite <- Hp|]. split; [by rewrite <- (sumN_perm _ _ _ Hp)|].
  eapply consistent_sub; [done|]. intros f. by rewrite Hp.
Qed.

Lemma makeFacts_Ok st fs r :
  makeFacts st fs = Ok r <->
  facts_admissible fs /\ state r = st /\ canonical (provenance r) /\
  forall f, f ∈ provenance r <-> f ∈ fs.
Proof.
  unfold makeFacts, makeResult. rewrite bind_Ok. setoid_rewrite normalizeFacts_facts. split.
  - by intros (facts & (Ha & Hc & He) & [= <-]).
  - intros (Ha & <- & Hc & He). exists (provenance r). split; [done|]. by destruct r.
Qed.

Lemma makeResult_Ok {F} st (v : jsval F) r :
  makeResult st v = Ok r -> state r = st /\ wf_result r.
Proof.
  unfold makeResult. rewrite bind_Ok.
  intros (facts & (items & fs & _ & _ & Ha & Hc & He)%normalizeFacts_spec & [= <-]).
  split; [done|]. split; [done|]. cbn [provenance].
  eapply admissible_sub; [by apply canonical_nodup| |done]. intros f. by rewrite He.
Qed.

Lemma makeFacts_wf st fs r : makeFacts st fs = Ok r -> wf_result r.
Proof. by intros [_ ?]%makeResult_Ok. Qed.

Lemma makeFacts_total st fs : facts_admissible fs -> exists r, makeFacts st fs = Ok r.
Proof.
  intros Ha. exists {| state := st; provenance := sort_by compareFacts_le (collect fs) |}.
  apply makeFacts_Ok. split; [done|]. split; [done|].
  assert (forall gs, consistent gs ->
            NoDup (key <$> collect gs) /\ forall f, f ∈ collect gs <-> f ∈ gs) as Hcol.
  { intros gs. induction gs as [|g gs IH] using rev_ind; intros Hc.
    { split; [constructor|done]. }
    assert (consistent gs) as Hc' by (eapply consistent_sub; [done|set_solver]).
    destruct (IH Hc') as [Hn He]. rewrite collect_snoc.
    split; [by apply insert_fact_nodup|]. intros f. rewrite insert_fact_elem.
    - rewrite !elem_of_app. by rewrite He.
    - apply (consistent_sub (gs ++ [g])); [done|]. intros h. rewrite !elem_of_app. by rewrite He. }
  destruct (Hcol fs) as [Hn He]; [by apply Ha|].
  split; [by apply sorted_distinct_canonical|]. intros f. cbn [provenance].
  by rewrite elem_of_sort_by.
Qed.

(** Facts with one set make one result. *)
Lemma makeFacts_set st fs gs r :
  (forall f, f ∈ fs <-> f ∈ gs) -> facts_admissible gs ->
  makeFacts st fs = Ok r -> makeFacts st gs = Ok r.
Proof.
  rewrite !makeFacts_Ok. intros He Hg (_ & Hs & Hc & Hr). split; [done|]. split; [done|].
  split; [done|]. intros f. by rewrite Hr.
Qed.

Lemma makeFacts_id st fs :
  canonical fs -> facts_admissible fs -> makeFacts st fs = Ok {| state := st; provenance := fs |}.
Proof. intros. by apply makeFacts_Ok. Qed.

Lemma normalizeResult_wf {F} (v : jsval F) r : normalizeResult v = Ok r -> wf_result r.
Proof. unfold normalizeResult. intros H. res_inv. by apply makeResult_Ok in H as [_ ?]. Qed.

Lemma normalizeResult_id {F} r :
  wf_result r -> normalizeResult (F := F) (result_value r) = Ok r.
Proof.
  intros [Hc Ha]. unfold normalizeResult. apply bind_Ok. eexists.
  split; [by apply closedRecord_Ok|]. apply bind_Ok. exists (state r).
  split; [apply assertState_name|]. apply bind_Ok. exists (provenance r).
  split; [by apply normalizeFacts_facts|by destruct r].
Qed.

Lemma complement_Ok {F} r :
  wf_result r ->
  activationComplement (F := F) (result_value r) =
  Ok {| state := complement_state (state r); provenance := provenance r |}.
Proof.
  intros Hr. unfold activationComplement. rewrite normalizeResult_id by done.
  cbn [mbind res_mbind]. destruct Hr. by apply makeFacts_id.
Qed.

(** ** Operands *)

Lemma mergeProofs_app l k : mergeProofs (l ++ k) = mergeProofs l ++ mergeProofs k.
Proof. unfold mergeProofs. by rewrite fmap_app, join_app. Qed.

Lemma elem_of_mergeProofs f l : f ∈ mergeProofs l <-> exists r, r ∈ l /\ f ∈ provenance r.
Proof.
  induction l as [|r l IH].
  - split; [by intros ?%not_elem_of_nil|by intros (? & ?%not_elem_of_nil & _)].
  - change (mergeProofs (r :: l)) with (provenance r ++ mergeProofs l).
    rewrite elem_of_app, IH. setoid_rewrite elem_of_cons. split.
    + intros [?|(q & ? & ?)]; [exists r|exists q]; auto.
    + intros (q & [-> |?] & ?); [by left|right; eauto].
Qed.

Lemma mergeProofs_perm l k : l ≡ₚ k -> mergeProofs l ≡ₚ mergeProofs k.
Proof.
  unfold mergeProofs. induction 1; simpl.
  - done.
  - by f_equiv.
  - rewrite !(assoc_L (++)). f_equiv. apply Permutation_app_comm.
  - by etrans.
Qed.

Lemma normalizeOperands_wf {F} (v : jsval F) ops :
  normalizeOperands v = Ok ops ->
  Forall wf_result ops /\ facts_admissible (mergeProofs ops).
Proof.
  unfold normalizeOperands. rewrite bind_Ok. intros (items & _ & H).
  apply bind_Ok in H as ([[ops' facts] bytes] & Hf & H).
  apply bind_Ok in H as (u & Hn & [= <-]). cbn [fst snd] in *.
  apply normalizeFacts_facts in Hn as (Ha & _).
  assert (Forall wf_result ops' /\ facts = mergeProofs ops') as [Hw ->]; [|done].
  apply (foldM_inv (fun _ acc => Forall wf_result acc.1.1 /\ acc.1.2 = mergeProofs acc.1.1)) in Hf;
    [done|by split|].
  intros _ x [[o fs] b] acc' [Hw Hfs] _ Hstep. cbn [fst snd] in *. subst fs.
  unfold normalizeOperand in Hstep. res_inv. subst acc'. cbn [fst snd]. split.
  - apply Forall_app. split; [done|]. apply Forall_singleton. by eapply normalizeResult_wf.
  - rewrite mergeProofs_app. unfold mergeProofs at 3. simpl. by rewrite app_nil_r.
Qed.

Lemma collectFacts b fs :
  (b + sumN fact_bytes fs <= maxInputTextBytes)%N ->
  foldM collectFact b fs = Ok (b + sumN fact_bytes fs)%N.
Proof.
  revert b; induction fs as [|f fs IH]; intros b Hb; cbn [foldM].
  - unfold sumN. simpl. f_equal. lia.
  - change (sumN fact_bytes (f :: fs)) with (fact_bytes f + sumN fact_bytes fs)%N in *.
    assert (collectFact b f = Ok (b + fact_bytes f)%N) as ->.
    { unfold collectFact. by rewrite (proj2 (N.leb_le _ _)) by lia. }
    cbn [mbind res_mbind].
    rewrite IH by lia. f_equal. lia.
Qed.

Lemma foldM_operands {F} ops n b :
  Forall wf_result ops ->
  (N.of_nat (length (mergeProofs (n ++ ops))) <= maxProvenanceFacts)%N ->
  (sumN fact_bytes (mergeProofs (n ++ ops)) <= maxInputTextBytes)%N ->
  b = sumN fact_bytes (mergeProofs n) ->
  exists b', foldM normalizeOperand (n, mergeProofs n, b) (map (result_value (F := F)) ops)
    = Ok (n ++ ops, mergeProofs (n ++ ops), b').
Proof.
  revert n b. induction ops as [|o ops IH]; intros n b Hw Hl Hs ->; cbn [map foldM].
  - rewrite app_nil_r. eauto.
  - inversion Hw as [|? ? Ho Hw']; subst. 
    change (n ++ o :: ops) with (n ++ [o] ++ ops) in *. rewrite app_assoc in *.
    assert (mergeProofs (n ++ [o]) = mergeProofs n ++ provenance o) as Em.
    { rewrite mergeProofs_app. unfold mergeProofs at 2. simpl. by rewrite app_nil_r. }
    assert (normalizeOperand (n, mergeProofs n, sumN fact_bytes (mergeProofs n)) (result_value (F := F) o)
            = Ok (n ++ [o], mergeProofs (n ++ [o]), sumN fact_bytes (mergeProofs (n ++ [o])))) as ->.
    { rewrite mergeProofs_app, Em in Hl, Hs. rewrite !length_app in Hl. rewrite !sumN_app in Hs.
      unfold normalizeOperand. rewrite normalizeResult_id by done. cbn [mbind res_mbind].
      rewrite (proj2 (N.leb_le _ _)) by lia. cbn [ensure mbind res_mbind].
      rewrite collectFacts by lia. by rewrite Em, sumN_app. }
    cbn [mbind res_mbind]. by apply IH.
Qed.

Definition operands_ok (ops : list ActivationResult) : Prop :=
  Forall wf_result ops /\ facts_admissible (mergeProofs ops) /\
  (N.of_nat (length ops) <= maxOperands)%N.

Lemma normalizeOperands_results ops :
  operands_ok ops -> normalizeOperands (operands_value ops) = Ok ops.
Proof.
  intros (Hw & Ha & Hl). unfold normalizeOperands, operands_value. apply bind_Ok.
  exists (map result_value ops). split.
  { apply assertDenseArray_Ok. by rewrite length_map. }
  destruct (foldM_operands (F := unit) ops [] 0%N Hw) as [b Hb]; [by apply Ha..|done|].
  apply bind_Ok. exists (ops, mergeProofs ops, b). split; [done|].
  destruct (makeFacts_total active (mergeProofs ops) Ha) as [r Hr].
  unfold makeFacts, makeResult in Hr. apply bind_Ok in Hr as (fs & Hfs & _).
  apply bind_Ok. by exists fs.
Qed.

(** ** Least proofs *)

Lemma fact_parts_wf f : fact_ok f -> Forall wf_text (fact_parts f).
Proof.
  intros [(_ & Hk & _) (_ & Hd & _)]. unfold fact_parts.
  repeat constructor; [done|apply kind_name_wf|apply state_name_wf|done].
Qed.

Lemma fact_parts_inj f g : fact_parts f = fact_parts g -> f = g.
Proof.
  destruct f, g. unfold fact_parts. simpl. intros [= -> ?%kind_name_inj ?%state_name_inj ->].
  by subst.
Qed.

Lemma mjoin_parts_inj l k :
  mjoin (fact_parts <$> l) = mjoin (fact_parts <$> k) -> l = k.
Proof.
  revert k; induction l as [|f l IH]; intros [|g k]; try done.
  rewrite !fmap_cons, !mjoin_cons. intros H. apply app_inj_1 in H as [Hf%fact_parts_inj H]; [|done].
  subst. f_equal. auto.
Qed.

(** The comparison key of a proof determines the proof. *)
Lemma proofKey_inj r1 r2 :
  wf_result r1 -> wf_result r2 -> proofKey r1 = proofKey r2 -> provenance r1 = provenance r2.
Proof.
  assert (forall r, wf_result r -> Forall wf_text (mjoin (fact_parts <$> provenance r))) as Hw.
  { intros r [_ (_ & Hok & _)]. apply Forall_join, Forall_fmap.
    eapply Forall_impl; [done|]. apply fact_parts_wf. }
  assert (forall r, proofKey r = lengthPrefixed (mjoin (fact_parts <$> provenance r))) as Hk.
  { intros r. unfold proofKey. rewrite lengthPrefixed_mjoin. by rewrite <- list_fmap_compose. }
  intros H1 H2. rewrite !Hk. intros H%lengthPrefixed_inj; [|by apply Hw..].
  by apply mjoin_parts_inj.
Qed.

Lemma leastProof_fold l r :
  let m := fold_left leastProof_step l r in
  m ∈ r :: l /\ forall q, q ∈ r :: l -> jleb (proofKey m) (proofKey q) = true.
Proof.
  revert r; induction l as [|x l IH]; intros r; simpl.
  - split; [set_solver|]. intros q ->%list_elem_of_singleton. apply jleb_refl.
  - destruct (IH (leastProof_step r x)) as [Hin Hmin]. revert Hin Hmin.
    set (m := fold_left leastProof_step l (leastProof_step r x)). intros Hin Hmin.
    assert (leastProof_step r x = r \/ leastProof_step r x = x) as Hrx
      by (unfold leastProof_step; case_match; auto).
    split; [destruct Hrx as [E|E]; rewrite E in Hin; set_solver|].
    assert (jleb (proofKey m) (proofKey (leastProof_step r x)) = true) as Hm by (apply Hmin; set_solver).
    assert (jleb (proofKey (leastProof_step r x)) (proofKey r) = true /\
            jleb (proofKey (leastProof_step r x)) (proofKey x) = true) as [Hr Hx].
    { unfold leastProof_step. destruct (jltb (proofKey x) (proofKey r)) eqn:E.
      - split; [apply jleb_lt_or_eq; auto|apply jleb_refl].
      - split; [apply jleb_refl|]. rewrite jltb_leb in E. by apply negb_false_iff in E. }
    intros q [->|[->|Hq]%elem_of_cons]%elem_of_cons.
    + by eapply jleb_trans.
    + by eapply jleb_trans.
    + apply Hmin. set_solver.
Qed.

Lemma leastProof_spec l m :
  leastProof l = Ok m -> m ∈ l /\ forall q, q ∈ l -> jleb (proofKey m) (proofKey q) = true.
Proof. destruct l as [|r l]; [done|]. intros [= <-]. apply leastProof_fold. Qed.

(** The least proof does not depend on the order of the operands. *)
Lemma leastProof_perm l k m n :
  Forall wf_result l -> l ≡ₚ k -> leastProof l = Ok m -> leastProof k = Ok n ->
  provenance m = provenance n.
Proof.
  intros Hw Hp [Hm Hmin]%leastProof_spec [Hn Hnin]%leastProof_spec.
  rewrite Forall_forall in Hw. setoid_rewrite Hp in Hw.
  apply proofKey_inj; [apply Hw; by rewrite <- Hp|by apply Hw|].
  apply jleb_antisym; [apply Hmin; by rewrite Hp|apply Hnin; by rewrite <- Hp].
Qed.

(** ** The operations, uniformly

    Union and intersection differ only in their dominant and neutral states. *)
Definition combine (dominant neutral : ActivationState) (normalized : list ActivationResult)
    : act_res ActivationResult :=
  match normalized with
  | [] => makeFacts neutral []
  | _ =>
      match List.filter (has_state dominant) normalized with
      | (_ :: _) as winners =>
          proof ← leastProof winners;
          makeFacts dominant (provenance proof)
      | [] =>
          makeFacts (if existsb (has_state indeterminate) normalized then indeterminate else neutral)
                    (mergeProofs normalized)
      end
  end.

Lemma union_combine {F} (v : jsval F) :
  activationUnion v = normalizeOperands v ≫= combine active inactive.
Proof. done. Qed.

Lemma intersection_combine {F} (v : jsval F) :
  activationIntersection v = normalizeOperands v ≫= combine inactive active.
Proof. done. Qed.

(** Strong Kleene disjunction and conjunction. *)
Definition kleene_or (a b : ActivationState) : ActivationState :=
  match a, b with
  | active, _ | _, active => active
  | inactive, inactive => inactive
  | _, _ => indeterminate
  end.

Definition kleene_and (a b : ActivationState) : ActivationState :=
  match a, b with
  | inactive, _ | _, inactive => inactive
  | active, active => active
  | _, _ => indeterminate
  end.

Definition combine_state (dominant neutral : ActivationState) (ss : list ActivationState) :=
  if existsb (fun s => bool_decide (s = dominant)) ss then dominant
  else if existsb (fun s => bool_decide (s = indeterminate)) ss then indeterminate
  else neutral.

Lemma kleene_or_fold ss : foldr kleene_or inactive ss = combine_state active inactive ss.
Proof.
  unfold combine_state. induction ss as [|s ss IH]; [done|]. cbn [foldr existsb]. rewrite IH.
  destruct (existsb (fun s => bool_decide (s = active)) ss),
    (existsb (fun s => bool_decide (s = indeterminate)) ss), s; done.
Qed.

Lemma kleene_and_fold ss : foldr kleene_and active ss = combine_state inactive active ss.
Proof.
  unfold combine_state. induction ss as [|s ss IH]; [done|]. cbn [foldr existsb]. rewrite IH.
  destruct (existsb (fun s => bool_decide (s = inactive)) ss),
    (existsb (fun s => bool_decide (s = indeterminate)) ss), s; done.
Qed.

Lemma existsb_map {A B} (g : B -> bool) (f : A -> B) l :
  existsb g (map f l) = existsb (fun x => g (f x)) l.
Proof. induction l as [|x l IH]; simpl; [done|]. by rewrite IH. Qed.

Lemma filter_nil_existsb {A} (f : A -> bool) l : List.filter f l = [] <-> existsb f l = false.
Proof. induction l as [|x l IH]; simpl; [done|]. destruct (f x); simpl; [done|]. apply IH. Qed.

(** [combine] succeeds on every admissible operand list, with the Kleene state
    and a proof drawn from the operands. *)
Lemma combine_Ok dominant neutral ops :
  dominant <> indeterminate -> operands_ok ops ->
  exists r, combine dominant neutral ops = Ok r /\ wf_result r /\
    state r = combine_state dominant neutral (state <$> ops).
Proof.
  intros Hd (Hw & Ha & _). unfold combine_state.
  change (state <$> ops) with (map state ops). rewrite !existsb_map.
  change (fun x => bool_decide (state x = dominant)) with (has_state dominant).
  change (fun x => bool_decide (state x = indeterminate)) with (has_state indeterminate).
  unfold combine. destruct ops as [|o ops'] eqn:Eo.
  { destruct (makeFacts_total neutral [] Ha) as [r Hr]. exists r.
    split; [done|].
    pose proof (makeFacts_wf _ _ _ Hr). by apply makeFacts_Ok in Hr as (_ & ? & _). }
  rewrite <- Eo in *. clear Eo.
  destruct (List.filter (has_state dominant) ops) as [|w ws] eqn:E.
  - apply filter_nil_existsb in E. rewrite E.
    destruct (makeFacts_total (if existsb (has_state indeterminate) ops then indeterminate else neutral)
                (mergeProofs ops) Ha) as [r Hr]. exists r. split; [done|].
    pose proof (makeFacts_wf _ _ _ Hr). by apply makeFacts_Ok in Hr as (_ & ? & _).
  - assert (existsb (has_state dominant) ops = true) as ->.
    { apply not_false_iff_true. intros H%filter_nil_existsb. by rewrite H in E. }
    destruct (leastProof (w :: ws)) as [m|] eqn:Em; [|done]. cbn [mbind res_mbind].
    pose proof (leastProof_spec _ _ Em) as [Hin _]. rewrite <- E in Hin.
    apply list_elem_of_In, filter_In in Hin as [Hin%list_elem_of_In _].
    rewrite Forall_forall in Hw. destruct (Hw m Hin) as [Hc Hm].
    exists {| state := dominant; provenance := provenance m |}.
    split; [by apply makeFacts_id|]. done.
Qed.

Lemma combine_perm dominant neutral ops ops' r :
  Forall wf_result ops -> facts_admissible (mergeProofs ops) -> ops ≡ₚ ops' ->
  combine dominant neutral ops = Ok r -> combine dominant neutral ops' = Ok r.
Proof.
  intros Hw Ha Hp. unfold combine.
  destruct ops as [|o l] eqn:Eo; [apply Permutation_nil_l in Hp as <-; done|].
  destruct ops' as [|o' l'] eqn:Eo'; [by apply Permutation_nil_r in Hp|].
  rewrite <- Eo, <- Eo' in *. clear Eo Eo' o l o' l'.
  assert (List.filter (has_state dominant) ops ≡ₚ List.filter (has_state dominant) ops') as Hf.
  { clear Hw Ha. induction Hp as [|x l l' Hp IH|x y l|l1 l2 l3 _ IH1 _ IH2]; simpl; try done.
    - by destruct (has_state dominant x); rewrite IH.
    - destruct (has_state dominant x), (has_state dominant y); done || apply Permutation_swap.
    - by rewrite IH1. }
  destruct (List.filter (has_state dominant) ops) as [|w ws] eqn:E.
  - apply Permutation_nil_l in Hf. rewrite <- Hf, (existsb_perm _ _ _ Hp).
    apply makeFacts_set.
    + intros f. by rewrite (mergeProofs_perm _ _ Hp).
    + by eapply admissible_perm; [apply mergeProofs_perm|].
  - destruct (List.filter (has_state dominant) ops') as [|w' ws'] eqn:E';
      [by apply Permutation_nil_r in Hf|].
    destruct (leastProof (w :: ws)) as [m|] eqn:Em; [|done].
    destruct (leastProof (w' :: ws')) as [m'|] eqn:Em'; [|done].
    cbn [mbind res_mbind]. rewrite (leastProof_perm (w :: ws) (w' :: ws') m m'); try done.
    rewrite <- E. rewrite Forall_forall in Hw. apply Forall_forall.
    intros q [Hq%list_elem_of_In _]%list_elem_of_In%filter_In. by apply Hw.
Qed.

(** ** Duality *)

Definition complement (r : ActivationResult) : ActivationResult :=
  {| state := complement_state (state r); provenance := provenance r |}.

Lemma complement_wf r : wf_result r -> wf_result (complement r).
Proof. done. Qed.

Lemma complement_invol r : complement (complement r) = r.
Proof. by destruct r as [[] ?]. Qed.

Lemma has_state_complement d r : has_state (complement_state d) (complement r) = has_state d r.
Proof. by destruct d, r as [[] ?]. Qed.

Lemma filter_complement d ops :
  List.filter (has_state (complement_state d)) (map complement ops) =
  map complement (List.filter (has_state d) ops).
Proof.
  induction ops as [|o ops IH]; [done|]. cbn [map List.filter].
  rewrite has_state_complement, IH. by destruct (has_state d o).
Qed.

Lemma leastProof_step_complement r q :
  leastProof_step (complement r) (complement q) = complement (leastProof_step r q).
Proof. unfold leastProof_step. change (proofKey (complement ?x)) with (proofKey x). by case_match. Qed.

Lemma leastProof_complement l : leastProof (map complement l) = complement <$> leastProof l.
Proof.
  destruct l as [|r l]; [done|]. simpl. f_equal. revert r.
  induction l as [|q l IH]; intros r; [done|]. simpl. by rewrite leastProof_step_complement, IH.
Qed.

Lemma makeFacts_complement st fs :
  makeFacts (complement_state st) fs = complement <$> makeFacts st fs.
Proof. unfold makeFacts, makeResult. by destruct (normalizeFacts _). Qed.

Lemma mergeProofs_complement ops : mergeProofs (map complement ops) = mergeProofs ops.
Proof.
  unfold mergeProofs. induction ops as [|o ops IH]; [done|].
  change (provenance o ++ mjoin (provenance <$> map complement ops) = provenance o ++ mjoin (provenance <$> ops)).
  by rewrite IH.
Qed.

(** De Morgan, on the computation itself. *)
Lemma combine_complement d n ops :
  combine (complement_state d) (complement_state n) (map complement ops) =
  complement <$> combine d n ops.
Proof.
  unfold combine. destruct ops as [|o l]; [apply makeFacts_complement|].
  change (map complement (o :: l)) with (complement o :: map complement l).
  change (complement o :: map complement l) with (map complement (o :: l)).
  rewrite filter_complement, mergeProofs_complement.
  destruct (List.filter (has_state d) (o :: l)) as [|w ws].
  - cbn [map].
    assert (existsb (has_state indeterminate) (complement o :: map complement l) =
            existsb (has_state indeterminate) (o :: l)) as ->.
    { change (complement o :: map complement l) with (map complement (o :: l)).
      rewrite existsb_map. generalize (o :: l). induction l0 as [|x l0 IH]; [done|]. cbn [existsb].
      rewrite IH. f_equal. apply (has_state_complement indeterminate). }
    destruct (existsb (has_state indeterminate) (o :: l));
      [apply (makeFacts_complement indeterminate)|apply makeFacts_complement].
  - cbn [map]. change (complement w :: map complement ws) with (map complement (w :: ws)).
    rewrite leastProof_complement. destruct (leastProof (w :: ws)); [|done].
    apply makeFacts_complement.
Qed.

Lemma operands_ok_complement ops : operands_ok ops -> operands_ok (map complement ops).
Proof.
  intros (Hw & Ha & Hl). split; [by apply Forall_fmap|].
  split; [by rewrite mergeProofs_complement|by rewrite length_map].
Qed.

(** ** States of operations on results already held *)

Lemma normalizeResult_state {F} r r' :
  normalizeResult (F := F) (result_value r) = Ok r' -> state r' = state r.
Proof.
  unfold normalizeResult. intros H.
  apply bind_Ok in H as (rec & [[= <-] _]%closedRecord_Ok & H).
  apply bind_Ok in H as (st & Hst & [Hs _]%makeResult_Ok).
  rewrite Hs. change (dataProperty _ _) with (JStr (F := F) (state_name (state r))) in Hst.
  rewrite assertState_name in Hst. by injection Hst.
Qed.

Lemma normalizeOperands_ok {F} (v : jsval F) ops : normalizeOperands v = Ok ops -> operands_ok ops.
Proof.
  intros H. pose proof (normalizeOperands_wf v ops H) as [Hw Ha]. split; [done|]. split; [done|].
  unfold normalizeOperands in H. apply bind_Ok in H as (items & [-> Hl]%assertDenseArray_Ok & H).
  apply bind_Ok in H as ([[o f] b] & Hf & H). apply bind_Ok in H as (_ & _ & [= <-]).
  cbn [fst snd]. enough (length o = length items) as -> by done.
  apply (foldM_inv (fun d acc => length acc.1.1 = length d)) in Hf; [done|done|].
  intros d x [[o' f'] b'] acc' Hd _ Hs. cbn [fst snd] in Hd. unfold normalizeOperand in Hs.
  res_inv. subst acc'. cbn [fst snd]. rewrite !length_app, Hd. done.
Qed.

Lemma normalizeOperands_states rs ops :
  normalizeOperands (operands_value rs) = Ok ops -> state <$> ops = state <$> rs.
Proof.
  unfold normalizeOperands, operands_value. intros H.
  apply bind_Ok in H as (items & [[= <-] _]%assertDenseArray_Ok & H).
  apply bind_Ok in H as ([[o f] b] & Hf & H). apply bind_Ok in H as (_ & _ & [= <-]). cbn [fst snd].
  apply (foldM_inv (fun d acc => exists qs, d = map result_value qs /\ state <$> acc.1.1 = state <$> qs)) in Hf.
  - destruct Hf as (qs & Hq & Ho). cbn [fst snd] in Ho. rewrite Ho.
    assert (state <$> rs = state <$> qs) as ->; [|done]. clear Ho o f b.
    revert qs Hq. induction rs as [|r rs IH]; intros [|q qs] Hq; try done.
    cbn [map] in Hq. injection Hq as Hs _ Hq. rewrite !fmap_cons. f_equal; [|by apply IH].
    by apply state_name_inj.
  - by exists [].
  - intros d x [[o' f'] b'] acc' (qs & -> & Ho) Hx Hs. cbn [fst snd] in Ho.
    apply list_elem_of_In, in_map_iff in Hx as (r & <- & _). exists (qs ++ [r]).
    rewrite map_app. split; [done|]. unfold normalizeOperand in Hs. res_inv. subst acc'. cbn [fst snd].
    rewrite !fmap_app, Ho. simpl. do 2 f_equal. by eapply normalizeResult_state.
Qed.

Lemma union_state rs r :
  activationUnion (operands_value rs) = Ok r ->
  state r = combine_state active inactive (state <$> rs).
Proof.
  rewrite union_combine. intros (ops & Hn & Hc)%bind_Ok.
  destruct (combine_Ok active inactive ops) as (q & Hq & _ & Hs); [done|by eapply normalizeOperands_ok|].
  rewrite <- (normalizeOperands_states _ _ Hn), <- Hs. congruence.
Qed.

Lemma intersection_state rs r :
  activationIntersection (operands_value rs) = Ok r ->
  state r = combine_state inactive active (state <$> rs).
Proof.
  rewrite intersection_combine. intros (ops & Hn & Hc)%bind_Ok.
  destruct (combine_Ok inactive active ops) as (q & Hq & _ & Hs); [done|by eapply normalizeOperands_ok|].
  rewrite <- (normalizeOperands_states _ _ Hn), <- Hs. congruence.
Qed.

Lemma complement_value_state r c :
  activationComplement (F := unit) (result_value r) = Ok c -> state c = complement_state (state r).
Proof.
  unfold activationComplement. intros (n & Hn & Hc)%bind_Ok.
  apply makeFacts_Ok in Hc as (_ & -> & _). by rewrite (normalizeResult_state _ _ Hn).
Qed.

Lemma difference_state l r d :
  activationDifference (F := unit) (result_value l) (result_value r) = Ok d ->
  state d = kleene_and (state l) (complement_state (state r)).
Proof.
  unfold activationDifference. intros (c & Hc & Hi)%bind_Ok.
  apply complement_value_state in Hc.
  change (JArr true [result_value l; result_value c]) with (operands_value [l; c]) in Hi.
  apply intersection_state in Hi. rewrite Hi. cbn. rewrite Hc.
  by destruct (state l), (state r).
Qed.

(** ** Rule evaluation *)

Lemma combine_state_set d n ss ts :
  (forall s, s ∈ ss <-> s ∈ ts) -> combine_state d n ss = combine_state d n ts.
Proof.
  intros He. unfold combine_state.
  assert (forall f : ActivationState -> bool, existsb f ss = existsb f ts) as Hx.
  { intros f. apply eq_true_iff_eq. rewrite !existsb_elem. by setoid_rewrite He. }
  by rewrite !Hx.
Qed.

Section evaluation.
Context `{Sha256} (rule : ActivationRule) (targetPath : jstring) (callbacks : ActivationCallbacks).

(** What one selector says about the target, before it becomes a fact. *)
Definition selector_decision (s : selector) : act_res ActivationState :=
  match s with
  | DirectorySelector path => Ok (inside_state (isWithinDirectory targetPath path))
  | GlobSelector pattern dialectId =>
      decision_state <$>
      invokeCallback (matchGlob callbacks)
        (GlobActivationRequest (id rule) (profileId rule) (surfaceId rule) (scopeRoot rule)
           targetPath pattern dialectId)
        #"No profile-owned glob matcher was supplied."
  end.

(** What the rule's kind says about the target. *)
Definition trigger_decision : act_res ActivationState :=
  match rule_kind rule with
  | ak_always | ak_directory_tree | ak_glob => Ok active
  | ak_manual =>
      decision_state <$>
      invokeCallback (resolveManual callbacks)
        (ManualActivationRequest (id rule) (documentId rule) (profileId rule) (surfaceId rule)
           (specSnapshotId rule) targetPath (conditions rule))
        #"No manual-activation fact callback was supplied."
  | ak_conditional =>
      decision_state <$>
      invokeCallback (resolveConditional callbacks)
        (ConditionalActivationRequest (id rule) (documentId rule) (profileId rule) (surfaceId rule)
           (specSnapshotId rule) targetPath (conditions rule))
        #"No conditional-activation fact callback was supplied."
  | ak_unknown => Ok indeterminate
  end.

Definition scope_decision : ActivationState :=
  inside_state (isWithinDirectory targetPath (scopeRoot rule)).

Lemma atomicResult_state st k parts d r : atomicResult st k parts d = Ok r -> state r = st.
Proof. by intros (_ & ? & _)%makeFacts_Ok. Qed.

Lemma scopeResult_state r : scopeResult rule targetPath = Ok r -> state r = scope_decision.
Proof.
  unfold scopeResult, scope_decision, isWithinDirectory.
  destruct (jeqb (scopeRoot rule) REPOSITORY_ROOT); [|apply atomicResult_state].
  by intros (_ & ? & _)%makeFacts_Ok.
Qed.

Lemma baseResult_state r :
  baseResult rule targetPath callbacks = Ok r -> trigger_decision = Ok (state r).
Proof.
  unfold baseResult, trigger_decision. destruct (rule_kind rule).
  - by intros ->%atomicResult_state.
  - by intros (_ & -> & _)%makeFacts_Ok.
  - by intros (_ & -> & _)%makeFacts_Ok.
  - intros (d & -> & ->%atomicResult_state)%bind_Ok. done.
  - intros (d & -> & ->%atomicResult_state)%bind_Ok. done.
  - by intros ->%atomicResult_state.
Qed.

(** The selectors of the rule, none of which share a key. *)
Context (distinct : forall s t, s ∈ include rule ++ exclude rule -> t ∈ include rule ++ exclude rule ->
                                selectorKey s = selectorKey t -> s = t).
Context (decide_selector : selector -> ActivationState).
Context (decided : forall s, s ∈ include rule ++ exclude rule ->
                             selector_decision s = Ok (decide_selector s)).

Definition memo_ok (m : list (jstring * ActivationResult)) : Prop :=
  forall e, e ∈ m -> exists s, s ∈ include rule ++ exclude rule /\
                               selectorKey s = e.1 /\ state e.2 = decide_selector s.

Lemma selectorResult_state s m r m' :
  s ∈ include rule ++ exclude rule -> memo_ok m ->
  selectorResult rule targetPath s callbacks m = Ok (r, m') ->
  state r = decide_selector s /\ memo_ok m'.
Proof.
  intros Hs Hm. pose proof (decided s Hs) as Hd. unfold selectorResult. destruct s as [path|pat dia].
  - intros (q & Hq%atomicResult_state & [= <- <-])%bind_Ok. injection Hd as <-. done.
  - destruct (memo_get _ m) as [c|] eqn:E.
    + intros [= <- <-]. split; [|done]. unfold memo_get in E.
      apply fmap_Some in E as ([k q] & [Hin%list_elem_of_In Hk%jeqb_eq]%find_some & ->).
      destruct (Hm _ Hin) as (t & Ht & Hkt & Hst). cbn [fst snd] in *.
      rewrite Hst. f_equal. apply distinct; [done|done|congruence].
    + intros (dec & Hdec & H2)%bind_Ok. apply bind_Ok in H2 as (q & Hq%atomicResult_state & [= <- <-]).
      unfold selector_decision in Hd. rewrite Hdec in Hd. injection Hd as Hd.
      split; [congruence|]. intros e [He| ->%list_elem_of_singleton]%elem_of_app; [by apply Hm|].
      exists (GlobSelector pat dia). split; [done|]. split; [done|]. cbn [snd]. congruence.
Qed.

Lemma add_unique_elements sels s :
  (forall t, t ∈ sels -> t ∈ include rule ++ exclude rule) ->
  s ∈ map snd (fold_left add_unique sels []) <-> s ∈ sels.
Proof.
  intros Hsub.
  enough ((forall e, e ∈ fold_left add_unique sels [] -> e.1 = selectorKey e.2) /\
          forall s, s ∈ map snd (fold_left add_unique sels []) <-> s ∈ sels) as [_ ?] by done.
  clear s. induction sels as [|x sels IH] using rev_ind; [split; [by intros ? ?%not_elem_of_nil|done]|].
  destruct IH as [Hk He]; [set_solver|]. rewrite fold_left_app. cbn [fold_left].
  set (u := fold_left add_unique sels []) in *. unfold add_unique.
  destruct (existsb (fun e => jeqb e.1 (selectorKey x)) u) eqn:E.
  - split; [done|]. intros s. rewrite elem_of_app, He, list_elem_of_singleton.
    split; [by left|]. intros [?| ->]; [done|].
    apply existsb_elem in E as (e & Hin & Hek%jeqb_eq). rewrite (Hk e Hin) in Hek.
    assert (e.2 ∈ sels) as Hes by (apply He, list_elem_of_fmap_2; done).
    rewrite <- (distinct e.2 x); [done|set_solver|set_solver|done].
  - split.
    + intros e [?| ->%list_elem_of_singleton]%elem_of_app; [by apply Hk|done].
    + intros s. rewrite map_app, !elem_of_app, He. done.
Qed.

Definition include_decision : ActivationState :=
  match include rule with
  | [] => active
  | inc => foldr kleene_or inactive (decide_selector <$> inc)
  end.
Definition exclude_decision : ActivationState :=
  foldr kleene_or inactive (decide_selector <$> exclude rule).

Lemma selectorUnion_state sels empty m r m' :
  (forall t, t ∈ sels -> t ∈ include rule ++ exclude rule) -> memo_ok m ->
  selectorUnion rule targetPath sels empty callbacks m = Ok (r, m') ->
  state r = match sels with [] => empty
            | _ => foldr kleene_or inactive (decide_selector <$> sels) end /\ memo_ok m'.
Proof.
  intros Hsub Hm. unfold selectorUnion. destruct sels as [|x sels'] eqn:Es.
  { by intros (q & (_ & ? & _)%makeFacts_Ok & [= <- <-])%bind_Ok. }
  rewrite <- Es in *. clear Es x sels'. intros ([rs m2] & Hf & H2)%bind_Ok.
  apply bind_Ok in H2 as (q & Hq & [= <- <-]). apply union_state in Hq. cbn [fst snd] in *.
  set (ordered := sort_by _ _) in Hf.
  assert (forall e, e ∈ ordered -> e.2 ∈ sels) as Hord.
  { intros e He%elem_of_sort_by. apply add_unique_elements; [done|]. by apply list_elem_of_fmap_2. }
  apply (foldM_inv (fun d acc => state <$> acc.1 = (fun e => decide_selector e.2) <$> d /\ memo_ok acc.2)) in Hf.
  - destruct Hf as [Hst Hm2]. split; [|done]. cbn [fst] in Hst. rewrite Hq, Hst, kleene_or_fold.
    apply combine_state_set. intros st. rewrite !list_elem_of_fmap. split.
    + intros (e & -> & He). exists e.2. auto.
    + intros (s & -> & Hs). apply (add_unique_elements sels) in Hs; [|done].
      apply list_elem_of_In, in_map_iff in Hs as (e & <- & He%list_elem_of_In).
      exists e. split; [done|]. by apply elem_of_sort_by.
  - by split.
  - intros d e [rs' m''] acc' [Hd Hm''] He Hstep. unfold selectorStep in Hstep.
    apply bind_Ok in Hstep as ([q' mq] & Hr & [= <-]). cbn [fst snd] in *.
    destruct (selectorResult_state e.2 m'' q' mq) as [Hq' Hmq]; [by apply Hsub, Hord|done|done|].
    split; [|done]. rewrite !fmap_app, Hd. simpl. by rewrite Hq'.
Qed.

(** The meaning of a rule at a target. *)
Definition rule_meaning (trigger : ActivationState) : ActivationState :=
  kleene_and (kleene_and (kleene_and scope_decision trigger) include_decision)
             (complement_state exclude_decision).

Lemma has_state_true d r : has_state d r = true <-> state r = d.
Proof. apply bool_decide_eq_true. Qed.
Lemma has_state_false d r : has_state d r = false <-> state r <> d.
Proof. apply bool_decide_eq_false. Qed.

Lemma evaluateRule_meaning r t :
  trigger_decision = Ok t ->
  evaluateRule rule targetPath callbacks = Ok r -> state r = rule_meaning t.
Proof.
  intros Ht. unfold evaluateRule, rule_meaning. intros (scope & Hscope%scopeResult_state & He)%bind_Ok.
  rewrite <- Hscope. destruct (has_state inactive scope) eqn:E1.
  { injection He as <-. apply has_state_true in E1. rewrite E1. by destruct t, include_decision. }
  apply bind_Ok in He as (tr & Htr%baseResult_state & He). rewrite Ht in Htr. injection Htr as ->.
  destruct (has_state inactive tr) eqn:E2.
  { injection He as <-. apply has_state_true in E2. rewrite E2.
    by destruct (state scope), include_decision. }
  apply bind_Ok in He as ([inc m] & Hinc & He).
  assert (state inc = include_decision /\ memo_ok m) as [Hi Hm].
  { apply selectorUnion_state in Hinc as [Hi Hm]; [|set_solver|by intros e ?%not_elem_of_nil].
    split; [|done]. rewrite Hi. unfold include_decision. by destruct (include rule). }
  apply bind_Ok in He as (el & Hel%intersection_state & He).
  assert (state el = kleene_and (kleene_and (state scope) (state tr)) include_decision) as Hel'.
  { rewrite Hel, <- Hi. cbn. by destruct (state scope), (state tr), (state inc). }
  rewrite <- Hel'. destruct (has_state inactive el) eqn:E3.
  { injection He as <-. apply has_state_true in E3. by rewrite E3. }
  apply bind_Ok in He as ([exc m2] & Hexc & He).
  assert (state exc = exclude_decision) as Hx.
  { apply selectorUnion_state in Hexc as [Hx _]; [|set_solver|done].
    rewrite Hx. unfold exclude_decision. by destruct (exclude rule). }
  destruct (has_state active exc) eqn:E4.
  - apply complement_value_state in He. apply has_state_true in E4. rewrite He, <- Hx, E4.
    by destruct (state el).
  - apply difference_state in He. by rewrite He, Hx.
Qed.
End evaluation.

(** ** Validated rules *)

Definition selector_ok (s : selector) : Prop :=
  match s with
  | DirectorySelector path => isRepositoryRelativePath path = true
  | GlobSelector pattern dialectId =>
      text_ok pattern /\ match dialectId with Some d => text_ok d | None => True end
  end.

Definition kind_ok (rule : ActivationRule) : Prop :=
  match rule_kind rule with
  | ak_always => conditions rule = [] /\ unknownReason rule = None
  | ak_directory_tree =>
      (exists p, DirectorySelector p ∈ include rule) /\ unknownReason rule = None
  | ak_glob => (exists p d, GlobSelector p d ∈ include rule) /\ unknownReason rule = None
  | ak_manual => unknownReason rule = None
  | ak_conditional => conditions rule <> [] /\ unknownReason rule = None
  | ak_unknown => unknownReason rule <> None
  end.

Record wf_rule (rule : ActivationRule) : Prop := {
  wf_identity : Forall text_ok (ruleIdentityParts rule);
  wf_scope : isRepositoryRelativePath (scopeRoot rule) = true;
  wf_selectors : Forall selector_ok (include rule ++ exclude rule);
  wf_selector_count : (N.of_nat (length (include rule ++ exclude rule)) <= maxSelectors)%N;
  wf_conditions : NoDup (conditions rule) /\ Forall text_ok (conditions rule);
  wf_condition_count : (N.of_nat (length (conditions rule)) <= maxConditions)%N;
  wf_kind : kind_ok rule
}.

Section rules.
Context {F : Type}.
Implicit Types v : jsval F.

Lemma nullableText_Ok v code o :
  nullableText v code = Ok o -> match o with Some s => text_ok s | None => True end.
Proof.
  unfold nullableText. destruct v; try by intros [= <-].
  all: intros (s' & [_ ?]%assertText_Ok & [= <-])%bind_Ok; done.
Qed.

Lemma assertSelector_ok acc v acc' :
  assertSelector acc v = Ok acc' -> exists s, acc'.1 = acc.1 ++ [s] /\ selector_ok s.
Proof.
  destruct acc as [sels bytes]. unfold assertSelector. intros (r & _ & H)%bind_Ok.
  apply bind_Ok in H as ([s b] & Hs & H). apply bind_Ok in H as (_ & _ & [= <-]).
  exists s. split; [done|]. destruct (dataProperty r #"kind"); try done.
  destruct (jeqb s0 #"directory-tree").
  - apply bind_ensure in Hs as [_ Hs]. apply bind_Ok in Hs as (p & _ & Hs).
    by apply bind_ensure in Hs as [? [= <- _]].
  - destruct (jeqb s0 #"glob"); [|done]. apply bind_ensure in Hs as [_ Hs].
    apply bind_Ok in Hs as (p & [_ ?]%assertText_Ok & Hs).
    apply bind_Ok in Hs as (d & ?%nullableText_Ok & [= <- _]). done.
Qed.

Lemma assertSelectors_ok acc (items : list (jsval F)) acc' :
  foldM assertSelector acc items = Ok acc' ->
  Forall selector_ok acc.1 ->
  Forall selector_ok acc'.1 /\ length acc'.1 = length acc.1 + length items.
Proof.
  intros Hf H0.
  apply (foldM_inv (fun d a => Forall selector_ok a.1 /\ length a.1 = length acc.1 + length d)) in Hf.
  - done.
  - split; [done|]. simpl. lia.
  - intros d x a a' [Hd Hl] _ (s & -> & Hs)%assertSelector_ok.
    split; [by apply Forall_app; split; [|apply Forall_singleton]|].
    rewrite !length_app, Hl. simpl. lia.
Qed.

Lemma assertConditions_ok items bytes acc' :
  foldM (assertCondition (F := F)) ([], bytes) items = Ok acc' ->
  NoDup acc'.1 /\ Forall text_ok acc'.1 /\ length acc'.1 = length items.
Proof.
  intros Hf.
  apply (foldM_inv (fun d a => NoDup a.1 /\ Forall text_ok a.1 /\ length a.1 = length d)) in Hf; [done| |].
  - split; [constructor|done].
  - intros d x [seen b] a' (Hn & Ht & Hl) _ H. cbn [fst] in *. unfold assertCondition in H.
    apply bind_Ok in H as (c & [_ Hc]%assertText_Ok & H). apply bind_ensure in H as [Hnew H].
    apply bind_Ok in H as (_ & _ & [= <-]). cbn [fst]. split; [|split].
    + apply NoDup_app. split; [done|]. split; [|apply NoDup_singleton].
      intros y Hy ->%list_elem_of_singleton. apply negb_true_iff, not_true_iff_false in Hnew as [].
      apply existsb_elem. exists c. by rewrite jeqb_refl.
    + by apply Forall_app; split; [|apply Forall_singleton].
    + rewrite !length_app, Hl. done.
Qed.

Lemma kindChecks_ok k inc conds why rule :
  kindChecks k inc conds why = Ok tt ->
  rule_kind rule = k -> include rule = inc -> conditions rule = conds -> unknownReason rule = why ->
  kind_ok rule.
Proof.
  unfold kindChecks, kind_ok. intros H -> -> -> ->.
  apply bind_ensure in H as [H1 H]. apply bind_ensure in H as [H2 H].
  apply bind_ensure in H as [H3 H]. apply bind_ensure in H as [H4 H].
  apply bind_ensure in H as [H5 H6%ensure_Ok].
  destruct k; cbn [bool_decide] in *; simpl in *.
  - destruct conds; [|done]. by destruct why.
  - apply negb_true_iff, negb_false_iff, existsb_elem in H2 as ([p|p d] & Hp & Hd); [|done].
    split; [by exists p|by destruct why].
  - apply negb_true_iff, negb_false_iff, existsb_elem in H3 as ([p|p d] & Hp & Hd); [done|].
    split; [by exists p, d|by destruct why].
  - by destruct why.
  - split; [by destruct conds|by destruct why].
  - by destruct why.
Qed.
End rules.

(** ** Properties *)

(** Union and intersection of admissible operands always succeed, with a
    well-formed result whose state is the strong Kleene disjunction or
    conjunction of the operands' states. *)
Theorem kleene_semantics (ops : list ActivationResult) (Hops : operands_ok ops) :
  (exists u, activationUnion (operands_value ops) = Ok u /\ wf_result u /\
     state u = foldr kleene_or inactive (state <$> ops)) /\
  (exists i, activationIntersection (operands_value ops) = Ok i /\ wf_result i /\
     state i = foldr kleene_and active (state <$> ops)).
Proof.
  rewrite union_combine, intersection_combine, normalizeOperands_results by done.
  rewrite kleene_or_fold, kleene_and_fold. cbn [mbind res_mbind].
  split; by apply combine_Ok.
Qed.

Definition sample_fact (st : ActivationState) (k : jstring) : ActivationResult :=
  {| state := st; provenance := [{| key := k; kind := pk_caller_fact; observedState := st;
                                    description := #"fact" |}] |}.

Lemma sample_fact_wf st k : text_ok k -> (textBytes k <= 100)%N -> wf_result (sample_fact st k).
Proof.
  intros Hk Hb. split; [repeat constructor|]. split; [done|].
  split; [apply Forall_singleton; split; [done|by split; [done|split; [reflexivity|]]]|]. split.
  - unfold sumN. simpl. unfold fact_bytes, maxInputTextBytes. cbn [key description].
    change (textBytes #"fact") with 4%N. lia.
  - by intros f g ->%list_elem_of_singleton ->%list_elem_of_singleton.
Qed.

Definition sample_operands : list ActivationResult :=
  [sample_fact inactive #"a"; sample_fact indeterminate #"b"].

Lemma sample_operands_ok : operands_ok sample_operands.
Proof.
  split.
  { apply Forall_cons; split; [|apply Forall_singleton]; apply sample_fact_wf; done. }
  split; [|done]. split; [done|].
  split; [apply Forall_cons; split; [|apply Forall_singleton]; done|]. split; [done|].
  intros f g Hf Hg. unfold sample_operands, mergeProofs in *. cbn in Hf, Hg.
  apply elem_of_cons in Hf as [->|Hf]; apply elem_of_cons in Hg as [->|Hg];
    try apply list_elem_of_singleton in Hf as ->; try apply list_elem_of_singleton in Hg as ->; done.
Qed.

Lemma kleene_semantics_witness :
  operands_ok sample_operands /\
  exists u, activationUnion (operands_value sample_operands) = Ok u /\ state u = indeterminate.
Proof.
  split; [apply sample_operands_ok|].
  destruct (kleene_semantics sample_operands sample_operands_ok) as [(u & Hu & _ & Hs) _].
  exists u. split; [exact Hu|]. rewrite Hs. reflexivity.
Defined.

(**  Whatever untrusted value an operation of the algebra is given, a result
    it returns is well formed: its proof lists admissible facts in strictly
    increasing key order, within the fact and text limits. *)
Theorem algebra_results_wf (v w : jsval callback_fn) (k d : jsval callback_fn) (r : ActivationResult) :
  (activationFact v k d = Ok r -> wf_result r) /\
  (activationUnion v = Ok r -> wf_result r) /\
  (activationIntersection v = Ok r -> wf_result r) /\
  (activationComplement v = Ok r -> wf_result r) /\
  (activationDifference v w = Ok r -> wf_result r).
Proof.
  assert (forall v', activationIntersection (F := callback_fn) v' = Ok r -> wf_result r) as Hi.
  { intros v'. rewrite intersection_combine. intros (ops & Hn%normalizeOperands_ok & Hc)%bind_Ok.
    destruct (combine_Ok inactive active ops) as (q & Hq & Hw & _); [done|done|congruence]. }
  split; [|split; [|split; [|split]]].
  - unfold activationFact. intros H. res_inv. by apply makeFacts_wf in H.
  - rewrite union_combine. intros (ops & Hn%normalizeOperands_ok & Hc)%bind_Ok.
    destruct (combine_Ok active inactive ops) as (q & Hq & Hw & _); [done|done|congruence].
  - apply Hi.
  - intros (n & _ & Hc)%bind_Ok. by eapply makeFacts_wf.
  - intros (c & _ & Hc)%bind_Ok. by eapply Hi.
Qed.

(**  Union and intersection do not depend on the order of their operands:
    neither the state nor a single fact of the proof changes. *)
Theorem algebra_commutative (ops ops' : list ActivationResult) (Hops : operands_ok ops)
  (Hperm : ops ≡ₚ ops') :
  activationUnion (operands_value ops) = activationUnion (operands_value ops') /\
  activationIntersection (operands_value ops) = activationIntersection (operands_value ops').
Proof.
  assert (operands_ok ops') as Hops'.
  { destruct Hops as (Hw & Ha & Hl). split; [by rewrite <- Hperm|].
    split; [|by rewrite <- Hperm]. eapply admissible_perm; [by apply mergeProofs_perm|done]. }
  rewrite !union_combine, !intersection_combine, !normalizeOperands_results by done.
  cbn [mbind res_mbind].
  assert (forall d n, d <> indeterminate -> combine d n ops = combine d n ops') as Hc; [|by split; apply Hc].
  intros d n Hd. destruct (combine_Ok d n ops Hd Hops) as (r & Hr & _).
  rewrite Hr. symmetry. by eapply combine_perm; [apply Hops|apply Hops|done|].
Qed.

Lemma algebra_commutative_witness :
  operands_ok sample_operands /\ sample_operands ≡ₚ rev sample_operands /\
  activationUnion (operands_value sample_operands) =
  activationUnion (operands_value (rev sample_operands)).
Proof.
  split; [apply sample_operands_ok|]. split; [apply Permutation_rev|].
  apply (algebra_commutative sample_operands (rev sample_operands)).
  - apply sample_operands_ok.
  - apply Permutation_rev.
Defined.

(**  De Morgan holds for whole results: complementing a union gives exactly
    the intersection of the complements, proof included, and complementing
    twice gives back the result. *)
Theorem de_morgan (ops : list ActivationResult) (u : ActivationResult) (Hops : operands_ok ops)
  (Hu : activationUnion (operands_value ops) = Ok u) :
  activationIntersection (operands_value (map complement ops)) =
    activationComplement (F := unit) (result_value u) /\
  activationComplement (F := unit) (result_value (complement u)) = Ok u.
Proof.
  rewrite union_combine, normalizeOperands_results in Hu by done. cbn [mbind res_mbind] in Hu.
  destruct (combine_Ok active inactive ops) as (q & Hq & Hw & _); [done|done|].
  assert (q = u) as -> by congruence. split.
  - rewrite intersection_combine, normalizeOperands_results by by apply operands_ok_complement.
    cbn [mbind res_mbind]. rewrite complement_Ok by done.
    change inactive with (complement_state active) at 1. change active with (complement_state inactive) at 2.
    rewrite combine_complement. by rewrite Hq.
  - rewrite complement_Ok by done. f_equal. apply complement_invol.
Qed.

Lemma de_morgan_witness :
  exists u, activationUnion (operands_value sample_operands) = Ok u /\
  activationIntersection (operands_value (map complement sample_operands)) =
    activationComplement (F := unit) (result_value u).
Proof.
  eexists. split; [vm_compute; reflexivity|].
  apply (de_morgan sample_operands); [apply sample_operands_ok|vm_compute; reflexivity].
Defined.

(** C7.  A rule's result at a target means
    scope and trigger and includes and not excludes
    in strong Kleene logic, where the includes are the disjunction of what
    their selectors decide (true when there are none), the excludes likewise
    (false when there are none); in particular a definite exclusion is always
    [inactive].  The hypotheses say that every selector and the trigger can be
    decided (no callback throws or returns junk) and that no two different
    selectors of the rule have the same digest. *)
Theorem evaluateRule_semantics `{Sha256} (rule : ActivationRule) (targetPath : jstring)
  (callbacks : ActivationCallbacks) (decide_selector : selector -> ActivationState)
  (trigger : ActivationState) (r : ActivationResult)
  (Hdistinct : forall s t, s ∈ include rule ++ exclude rule -> t ∈ include rule ++ exclude rule ->
     selectorKey s = selectorKey t -> s = t)
  (Hdecided : forall s, s ∈ include rule ++ exclude rule ->
     selector_decision rule targetPath callbacks s = Ok (decide_selector s))
  (Htrigger : trigger_decision rule targetPath callbacks = Ok trigger)
  (Hr : evaluateRule rule targetPath callbacks = Ok r) :
  state r =
    kleene_and
      (kleene_and (kleene_and (scope_decision rule targetPath) trigger)
         (match include rule with
          | [] => active
          | inc => foldr kleene_or inactive (decide_selector <$> inc)
          end))
      (complement_state (foldr kleene_or inactive (decide_selector <$> exclude rule))).
Proof.
  exact (evaluateRule_meaning rule targetPath callbacks Hdistinct decide_selector Hdecided r trigger
           Htrigger Hr).
Qed.

Definition sample_rule : ActivationRule :=
  {| id := #"r"; documentId := #"d"; profileId := #"p"; surfaceId := #"s"; specSnapshotId := #"q";
     rule_kind := ak_glob; scopeRoot := #"docs"; include := [GlobSelector #"*.md" None];
     exclude := [DirectorySelector #"docs/old"]; conditions := []; unknownReason := None |}.

Definition sample_callbacks : ActivationCallbacks :=
  {| matchGlob := Some (fun _ => Returned (JRec [(#"state", JStr #"active"); (#"reason", JStr #"ok")]));
     resolveManual := None; resolveConditional := None |}.

Definition sample_decide (target : jstring) (s : selector) : ActivationState :=
  match s with
  | DirectorySelector p => inside_state (isWithinDirectory target p)
  | GlobSelector _ _ => active
  end.

Lemma evaluateRule_semantics_witness :
  exists r, @evaluateRule toy_sha256 sample_rule #"docs/old/a.md" sample_callbacks = Ok r /\
            state r = inactive.
Proof.
  eexists. split; [vm_compute; reflexivity|].
  refine (eq_trans (@evaluateRule_semantics toy_sha256 sample_rule #"docs/old/a.md" sample_callbacks
           (sample_decide #"docs/old/a.md") active _ _ _ _ _) _).
  - intros s t [->|[->|[]%not_elem_of_nil]%elem_of_cons]%elem_of_cons
               [->|[->|[]%not_elem_of_nil]%elem_of_cons]%elem_of_cons Hk;
      [reflexivity|vm_compute in Hk; discriminate Hk|vm_compute in Hk; discriminate Hk|reflexivity].
  - intros s [->|[->|[]%not_elem_of_nil]%elem_of_cons]%elem_of_cons; vm_compute; reflexivity.
  - reflexivity.
  - vm_compute; reflexivity.
  - vm_compute; reflexivity.
Defined.

(** C40.  A value accepted as an activation rule is a well-formed rule: bounded
    well-formed texts, canonical scope and directory selectors, distinct
    conditions, and the fields its kind requires and forbids. *)
Theorem assertRule_wf (v : jsval callback_fn) (rule : ActivationRule) (H : assertRule v = Ok rule) :
  wf_rule rule.
Proof.
  unfold assertRule in H. res_inv.
  repeat match goal with X : assertText _ _ = Ok _ |- _ => apply assertText_Ok in X as [_ X] end.
  repeat match goal with X : assertDenseArray _ _ _ = Ok _ |- _ => apply assertDenseArray_Ok in X as [_ X] end.
  apply assertSelectors_ok in Hv11 as [Hsel Hlen]; [|constructor].
  apply assertConditions_ok in Hv13 as (Hnd & Hct & Hcl). simpl in Hlen.
  subst rule. constructor; cbn [include exclude conditions scopeRoot]; rewrite ?take_drop.
  - unfold ruleIdentityParts. cbn [id documentId profileId surfaceId specSnapshotId].
    by rewrite !Forall_cons, Forall_nil.
  - done.
  - done.
  - rewrite Hlen, length_app. by apply N.leb_le.
  - done.
  - by rewrite Hcl.
  - eapply kindChecks_ok; [eassumption|done..].
Qed.

Definition sample_rule_value : jsval callback_fn :=
  JRec [(#"id", JStr #"r"); (#"documentId", JStr #"d"); (#"profileId", JStr #"p");
        (#"surfaceId", JStr #"s"); (#"specSnapshotId", JStr #"q"); (#"kind", JStr #"always");
        (#"scopeRoot", JStr #"."); (#"include", JArr true []); (#"exclude", JArr true []);
        (#"conditions", JArr true []); (#"unknownReason", JNull);
        (#"evidenceRefs", JArr true [JRec [(#"sourceId", JStr #"e"); (#"factId", JNull)]]);
        (#"uncertainty", JNull)].

Lemma assertRule_wf_witness : exists rule, assertRule sample_rule_value = Ok rule /\ wf_rule rule.
Proof.
  eexists. split; [vm_compute; reflexivity|].
  apply (assertRule_wf sample_rule_value). vm_compute; reflexivity.
Defined.
