(* ===== verification/GlobDialects.v ===== *)
(** The closed catalog of profile glob dialects
    (packages/profiles/src/glob-dialects.ts): data that says which glob features
    a profile documents, never an executable matcher. *)
From S2P Require Import Prelude JsString.

Inductive ProfileGlobPatternBase := base_repository_root | base_scope_root | base_unknown.
Inductive ProfileGlobFeatureState := documented | unknown.
Inductive ProfileGlobBracketState := invalid_is_no_match | bracket_unknown.
Inductive braceLimitResult := literal_no_match | limit_indeterminate.

#[export] Instance ProfileGlobPatternBase_eq_dec : EqDecision ProfileGlobPatternBase.
Proof. solve_decision. Defined.

#[export] Instance ProfileGlobFeatureState_eq_dec : EqDecision ProfileGlobFeatureState.
Proof. solve_decision. Defined.

Record ProfileGlobDialect := {
  d_id : jstring;
  d_profileId : jstring;
  d_surfaceIds : list jstring;
  d_specSnapshotId : jstring;
  d_patternBase : ProfileGlobPatternBase;
  d_star : ProfileGlobFeatureState;
  d_globstar : ProfileGlobFeatureState;
  d_braceExpansion : ProfileGlobFeatureState;
  d_braceExpansionMaximumPatterns : option N;
  d_braceExpansionMaximumBytes : option N;
  d_braceLimitResult : braceLimitResult;
  d_bracketExpressions : ProfileGlobBracketState;
  d_questionMark : ProfileGlobFeatureState;
  d_evidenceRefs : list jstring;
  d_unknownReason : option jstring
}.

Definition PROFILE_GLOB_DIALECTS : list ProfileGlobDialect :=
  [ {| d_braceExpansion := documented;
       d_braceExpansionMaximumBytes := Some 4194304%N;
       d_braceExpansionMaximumPatterns := Some 1000%N;
       d_braceLimitResult := literal_no_match;
       d_bracketExpressions := invalid_is_no_match;
       d_evidenceRefs := [ #"CC-RULE-08"; #"CC-RULE-09"; #"CC-RULE-10"; #"CC-RULE-12"; #"CC-RULE-13"];
       d_globstar := documented;
       d_id := #"claude-code/project-rule-paths/2026-08-01";
       d_patternBase := base_repository_root;
       d_profileId := #"claude-code";
       d_questionMark := unknown;
       d_specSnapshotId := #"claude-code/2026-08-01";
       d_star := documented;
       d_surfaceIds := [ #"claude-code/local-session"];
       d_unknownReason := None |};
    {| d_braceExpansion := unknown;
       d_braceExpansionMaximumBytes := None;
       d_braceExpansionMaximumPatterns := None;
       d_braceLimitResult := limit_indeterminate;
       d_bracketExpressions := bracket_unknown;
       d_evidenceRefs := [ #"COP-GAP-004"; #"COP-PRE-004"];
       d_globstar := documented;
       d_id := #"copilot-cli/apply-to/2026-08-01";
       d_patternBase := base_unknown;
       d_profileId := #"copilot-cli";
       d_questionMark := unknown;
       d_specSnapshotId := #"copilot-surfaces/2026-08-01.0";
       d_star := documented;
       d_surfaceIds := [ #"copilot-cli/local-terminal"];
       d_unknownReason :=
         Some #"Copilot CLI does not document the pattern base or a complete glob dialect." |};
    {| d_braceExpansion := unknown;
       d_braceExpansionMaximumBytes := None;
       d_braceExpansionMaximumPatterns := None;
       d_braceLimitResult := limit_indeterminate;
       d_bracketExpressions := bracket_unknown;
       d_evidenceRefs := [ #"COP-GAP-004"; #"COP-PRE-004"];
       d_globstar := documented;
       d_id := #"copilot-cloud-agent/apply-to/2026-08-01";
       d_patternBase := base_unknown;
       d_profileId := #"copilot-cloud-agent";
       d_questionMark := unknown;
       d_specSnapshotId := #"copilot-surfaces/2026-08-01.0";
       d_star := documented;
       d_surfaceIds := [ #"copilot-cloud-agent/github-hosted"];
       d_unknownReason :=
         Some #"The hosted coding-agent snapshot does not document the pattern base." |};
    {| d_braceExpansion := unknown;
       d_braceExpansionMaximumBytes := None;
       d_braceExpansionMaximumPatterns := None;
       d_braceLimitResult := limit_indeterminate;
       d_bracketExpressions := bracket_unknown;
       d_evidenceRefs := [ #"COP-GAP-004"; #"COP-PRE-004"];
       d_globstar := documented;
       d_id := #"copilot-code-review/apply-to/2026-08-01";
       d_patternBase := base_unknown;
       d_profileId := #"copilot-code-review";
       d_questionMark := unknown;
       d_specSnapshotId := #"copilot-surfaces/2026-08-01.0";
       d_star := documented;
       d_surfaceIds := [ #"copilot-code-review/github-hosted"];
       d_unknownReason :=
         Some #"The hosted code-review snapshot does not document the pattern base." |};
    {| d_braceExpansion := documented;
       d_braceExpansionMaximumBytes := None;
       d_braceExpansionMaximumPatterns := None;
       d_braceLimitResult := limit_indeterminate;
       d_bracketExpressions := bracket_unknown;
       d_evidenceRefs := [ #"COP-PRE-004"; #"VSC-INSTRUCTIONS"];
       d_globstar := documented;
       d_id := #"copilot-vscode/apply-to/2026-08-01";
       d_patternBase := base_scope_root;
       d_profileId := #"copilot-vscode";
       d_questionMark := unknown;
       d_specSnapshotId := #"copilot-surfaces/2026-08-01.0";
       d_star := documented;
       d_surfaceIds := [ #"copilot-vscode/local-chat"];
       d_unknownReason := None |};
    {| d_braceExpansion := unknown;
       d_braceExpansionMaximumBytes := None;
       d_braceExpansionMaximumPatterns := None;
       d_braceLimitResult := limit_indeterminate;
       d_bracketExpressions := bracket_unknown;
       d_evidenceRefs := [ #"CURSOR-GLOB-03"; #"CURSOR-GLOB-05"; #"CURSOR-GLOB-06"; #"CURSOR-GLOB-07"];
       d_globstar := unknown;
       d_id := #"cursor-agent/mdc-globs/2026-08-01";
       d_patternBase := base_unknown;
       d_profileId := #"cursor-agent";
       d_questionMark := unknown;
       d_specSnapshotId := #"cursor/2026-08-01";
       d_star := unknown;
       d_surfaceIds := [ #"cursor-agent/cli"; #"cursor-agent/ide"];
       d_unknownReason :=
         Some #"Cursor does not publish a complete MDC glob grammar or pattern base." |} ].

(** The map by id keeps the last entry of an id; ids are distinct. *)
Definition profileGlobDialect (id : jstring) : option ProfileGlobDialect :=
  find (fun d => jeqb (d_id d) id) PROFILE_GLOB_DIALECTS.
