(* ===== verification/ProfileGlob.v ===== *)
(** The profile glob matcher (packages/resolver/src/profile-glob-dialects.ts):
    request validation, brace expansion, the dynamic-programming segment and
    path matchers under a work budget, and the decision for one request. *)
From S2P Require Import Prelude JsString Unicode JsValue RepositoryPath ActivationAlgebra GlobDialects.

Definition maxExpandedBytes : N := 4194304.
Definition maxExpandedPatterns : N := 1000.
Definition maxRequestTextBytes : N := 65536.
Definition maxMatchWork : N := 1048576.
Definition maxPatternBytes : N := 16384.
Definition maxPathSegments : N := 1024.
Definition maxTargetBytes : N := 16384.

Inductive ProfileGlobDialectErrorCode := invalidRequest | glob_resourceLimit.

Inductive MatchResult := m_match | m_no_match | m_unknown.

#[export] Instance MatchResult_eq_dec : EqDecision MatchResult.
Proof. solve_decision. Defined.

Inductive ExpansionFailure := expansion_limit | expansion_unsupported.

(** ** Text helpers *)

Definition hasControl (value : jstring) : bool :=
  existsb (fun unit => (unit <=? 0x1f)%N || (0x7f <=? unit)%N && (unit <=? 0x9f)%N) value.

Definition hasNonAscii (value : jstring) : bool := existsb (fun unit => (0x7f <? unit)%N) value.

Definition fold_unit (unit : N) : N :=
  if (0x41 <=? unit)%N && (unit <=? 0x5a)%N then (unit + 0x20)%N else unit.

Definition asciiFold (value : jstring) : jstring := map fold_unit value.

(** [s.indexOf(c)], as the text before and after the first [c]. *)
Fixpoint cut (c : N) (s : jstring) : option (jstring * jstring) :=
  match s with
  | [] => None
  | x :: r =>
      if (x =? c)%N then Some ([], r)
      else match cut c r with Some (a, b) => Some (x :: a, b) | None => None end
  end.

(** A two-unit occurrence test: [s.includes(cc)] *)
Fixpoint includes2 (s : jstring) (c : N) : bool :=
  match s with
  | x :: (y :: _) as r => ((x =? c)%N && (y =? c)%N) || includes2 r c
  | _ => false
  end.

Definition OPEN : N := 123.
Definition CLOSE : N := 125.
Definition COMMA : N := 44.
Definition STAR : jstring := #"*".
Definition QUESTION : jstring := #"?".
Definition GLOBSTAR : jstring := #"**".

(** ** Brace expansion *)

Definition within (limit : option N) (n : N) : bool :=
  match limit with Some m => (n <=? m)%N | None => true end.

Section braces.
Context (dialect : ProfileGlobDialect).

(** The values of the next round, the bytes they hold and whether a brace was
    expanded. *)
Abbreviation round_state := (list jstring * N * bool)%type.

Definition pushCandidate (pre post : jstring) (acc : round_state) (alternative : jstring)
    : res ExpansionFailure round_state :=
  let '(next, nextBytes, expanded) := acc in
  let candidate := pre ++ alternative ++ post in
  let count := N.of_nat (length next + 1) in
  _ ← ensure ((count <=? maxExpandedPatterns)%N
              && within (d_braceExpansionMaximumPatterns dialect) count) expansion_limit;
  let bytes := (nextBytes + textBytes candidate)%N in
  _ ← ensure ((bytes <=? maxExpandedBytes)%N
              && within (d_braceExpansionMaximumBytes dialect) bytes) expansion_limit;
  Ok (next ++ [candidate], bytes, expanded).

Definition expandValue (acc : round_state) (value : jstring) : res ExpansionFailure round_state :=
  let '(next, nextBytes, expanded) := acc in
  match cut OPEN value with
  | None =>
      _ ← ensure (negb (includes value CLOSE)) expansion_unsupported;
      let bytes := (nextBytes + textBytes value)%N in
      _ ← ensure (bytes <=? maxExpandedBytes)%N expansion_limit;
      Ok (next ++ [value], bytes, expanded)
  | Some (pre, rest) =>
      _ ← ensure (bool_decide (d_braceExpansion dialect = documented)) expansion_unsupported;
      match cut CLOSE rest with
      | None => Err expansion_unsupported
      | Some (body, post) =>
          _ ← ensure (negb (includes body OPEN)) expansion_unsupported;
          let alternatives := split_on COMMA body in
          _ ← ensure (negb (length alternatives <? 2)%nat
                      && negb (existsb (fun a => jeqb a []) alternatives)) expansion_unsupported;
          foldM (pushCandidate pre post) (next, nextBytes, true) alternatives
      end
  end.

(** The outer loop; [None] when the fuel runs out. *)
Fixpoint braceRounds (fuel : nat) (values : list jstring)
    : option (res ExpansionFailure (list jstring)) :=
  match fuel with
  | O => None
  | S fuel' =>
      match foldM expandValue ([], 0%N, false) values with
      | Err e => Some (Err e)
      | Ok (next, _, expanded) =>
          if expanded then braceRounds fuel' next else Some (Ok next)
      end
  end.
End braces.

Definition count_open (s : jstring) : nat := length (List.filter (N.eqb OPEN) s).

Definition braceExpansion (pattern : jstring) (dialect : ProfileGlobDialect)
    : option (res ExpansionFailure (list jstring)) :=
  braceRounds dialect (S (count_open pattern)) [pattern].

(** [true] for a bracket expression that is not closed, or closed or opened twice. *)
Fixpoint malformedFrom (open : bool) (scalars : list jstring) : bool :=
  match scalars with
  | [] => open
  | s :: r =>
      if jeqb s #"[" then (if open then true else malformedFrom true r)
      else if jeqb s #"]" then (if open then malformedFrom false r else true)
      else malformedFrom open r
  end.

Definition malformedBracketExpression (pattern : jstring) : bool :=
  malformedFrom false (scalars pattern).

(** ** Matching under a work budget

    The budget is the counter of work done so far, threaded through every
    call. *)
Definition exhausted (work : N) : bool := (maxMatchWork <? work)%N.

(** [budget.consume()] *)
Definition consume (work : N) : bool * N := ((work + 1 <=? maxMatchWork)%N, (work + 1)%N).

Section segments.
Context (token : jstring).

(** The cells of one row after the first: [prior_left] and [current_left] are
    [prior[index - 1]] and [current[index - 1]]. *)
Fixpoint segmentCells (prior_left current_left : bool) (value : list jstring) (prior : list bool)
    (work : N) : option (list bool) * N :=
  match value, prior with
  | v :: value', p :: prior' =>
      let '(ok, work) := consume work in
      if ok then
        let cell := if jeqb token STAR then p || current_left
                    else if jeqb token QUESTION then prior_left
                    else prior_left && jeqb v token in
        let '(cells, work) := segmentCells p cell value' prior' work in
        (cons cell <$> cells, work)
      else (None, work)
  | _, _ => (Some [], work)
  end.

Definition segmentRow (value : list jstring) (prior : list bool) (work : N)
    : option (list bool) * N :=
  match prior with
  | p :: prior' =>
      let '(ok, work) := consume work in
      if ok then
        let cell := jeqb token STAR && p in
        let '(cells, work) := segmentCells p cell value prior' work in
        (cons cell <$> cells, work)
      else (None, work)
  | [] => (Some [], work)
  end.
End segments.

Fixpoint segmentRows (tokens : list jstring) (value : list jstring) (prior : list bool) (work : N)
    : option (list bool) * N :=
  match tokens with
  | [] => (Some prior, work)
  | token :: tokens' =>
      match segmentRow token value prior work with
      | (Some current, work) => segmentRows tokens' value current work
      | (None, work) => (None, work)
      end
  end.

Definition starts_wildcard (tokens : list jstring) : bool :=
  match tokens with t :: _ => jeqb t STAR || jeqb t QUESTION | [] => false end.
Definition starts_dot (value : list jstring) : bool :=
  match value with v :: _ => jeqb v #"." | [] => false end.

Definition result_of (matched : bool) : MatchResult := if matched then m_match else m_no_match.

Definition segmentMatch (pattern value : jstring) (dotWildcards foldCase : bool) (work : N)
    : MatchResult * N :=
  let patternScalars := scalars (if foldCase then asciiFold pattern else pattern) in
  let valueScalars := scalars (if foldCase then asciiFold value else value) in
  if negb dotWildcards && starts_dot valueScalars && starts_wildcard patternScalars
  then (m_no_match, work)
  else
    match segmentRows patternScalars valueScalars
            (true :: repeat false (length valueScalars)) work with
    | (Some row, work) => (result_of (default false (last row)), work)
    | (None, work) => (m_unknown, work)
    end.

Section paths.
Context (dotWildcards foldCase : bool).

(** One row of the path matcher; [pending] is the cell the previous index
    already wrote. *)
Fixpoint pathRow (segment : jstring) (pending : bool) (path : list jstring) (prior : list bool)
    (work : N) : option (list bool) * N :=
  match prior with
  | [] => (Some [], work)
  | p :: prior' =>
      let '(ok, work) := consume work in
      if ok then
        if jeqb segment GLOBSTAR then
          let cell := pending || p in
          let next := match path with
                      | s :: _ => cell && (dotWildcards || negb (startsWith s #"."))
                      | [] => false
                      end in
          let '(cells, work) := pathRow segment next (tail path) prior' work in
          (cons cell <$> cells, work)
        else
          match path with
          | s :: path' =>
              if p then
                match segmentMatch segment s dotWildcards foldCase work with
                | (m_unknown, work) => (None, work)
                | (r, work) =>
                    let '(cells, work) := pathRow segment (bool_decide (r = m_match)) path' prior' work in
                    (cons pending <$> cells, work)
                end
              else
                let '(cells, work) := pathRow segment false path' prior' work in
                (cons pending <$> cells, work)
          | [] =>
              let '(cells, work) := pathRow segment false [] prior' work in
              (cons pending <$> cells, work)
          end
      else (None, work)
  end.

Fixpoint pathRows (segments path : list jstring) (prior : list bool) (work : N)
    : option (list bool) * N :=
  match segments with
  | [] => (Some prior, work)
  | segment :: segments' =>
      match pathRow segment false path prior work with
      | (Some current, work) => pathRows segments' path current work
      | (None, work) => (None, work)
      end
  end.

Definition path_segments (path : jstring) : list jstring :=
  if jeqb path REPOSITORY_ROOT then [] else split_on SLASH path.

Definition pathMatch (pattern path : jstring) (work : N) : MatchResult * N :=
  let patternSegments := split_on SLASH pattern in
  let pathSegments := path_segments path in
  if (maxPathSegments <? N.of_nat (length patternSegments))%N
     || (maxPathSegments <? N.of_nat (length pathSegments))%N
  then (m_unknown, work)
  else
    match pathRows patternSegments pathSegments (true :: repeat false (length pathSegments)) work with
    | (Some row, work) => (result_of (default false (last row)), work)
    | (None, work) => (m_unknown, work)
    end.
End paths.

Definition endsWithSlash (s : jstring) : bool :=
  match last s with Some c => (c =? SLASH)%N | None => false end.

Definition unsupportedSyntax (pattern : jstring) : bool :=
  startsWith pattern #"/" || startsWith pattern #"./" || startsWith pattern #"../"
  || endsWithSlash pattern || includes2 pattern SLASH || includes pattern BACKSLASH
  || startsWith pattern #"!".

Definition is_documented (f : ProfileGlobFeatureState) : bool := bool_decide (f = documented).

Definition unsupportedSegment (dialect : ProfileGlobDialect) (segment : jstring) : bool :=
  (includes2 segment 42 && negb (jeqb segment GLOBSTAR))
  || (includes segment 42 && negb (is_documented (d_star dialect)))
  || (jeqb segment GLOBSTAR && negb (is_documented (d_globstar dialect))).

Definition matchDocumentedSubset (pattern path : jstring) (dialect : ProfileGlobDialect) (work : N)
    : MatchResult * N :=
  if unsupportedSyntax pattern then (m_unknown, work)
  else if includes pattern 91 || includes pattern 93 then
    match d_bracketExpressions dialect with
    | invalid_is_no_match =>
        if malformedBracketExpression pattern then (m_no_match, work) else (m_unknown, work)
    | bracket_unknown => (m_unknown, work)
    end
  else if includes pattern 63 && negb (is_documented (d_questionMark dialect)) then (m_unknown, work)
  else if existsb (unsupportedSegment dialect) (split_on SLASH pattern) then (m_unknown, work)
  else
    match pathMatch false false pattern path work with
    | (m_no_match, work) =>
        match pathMatch true false pattern path work with
        | (m_no_match, work) =>
            match pathMatch false true pattern path work with
            | (m_no_match, work) =>
                match pathMatch true true pattern path work with
                | (m_no_match, work) =>
                    (if hasNonAscii pattern || hasNonAscii path then m_unknown else m_no_match, work)
                | (_, work) => (m_unknown, work)
                end
            | (_, work) => (m_unknown, work)
            end
        | (_, work) => (m_unknown, work)
        end
    | (sensitiveWithoutDots, work) => (sensitiveWithoutDots, work)
    end.

(** ** One request *)

Record GlobRequest := {
  g_ruleId : jstring;
  g_profileId : jstring;
  g_surfaceId : jstring;
  g_scopeRoot : jstring;
  g_targetPath : jstring;
  g_pattern : jstring;
  g_dialectId : option jstring
}.

Definition REQUEST_KEYS : list jstring :=
  [ #"ruleId"; #"profileId"; #"surfaceId"; #"scopeRoot"; #"targetPath"; #"pattern"; #"dialectId"].

Section request.
Context {F : Type}.

Definition requestText (record : list (jstring * jsval F)) (bytes : N) (k : jstring)
    : res ProfileGlobDialectErrorCode N :=
  match dataProperty record k with
  | JNull => if jeqb k #"dialectId" then Ok bytes else Err invalidRequest
  | JStr s => if jeqb s [] then Err invalidRequest else Ok (bytes + textBytes s)%N
  | _ => Err invalidRequest
  end.

Definition text_of (v : jsval F) : jstring := match v with JStr s => s | _ => [] end.

Definition validateRequest (input : jsval F) : res ProfileGlobDialectErrorCode GlobRequest :=
  match isDataRecord input with
  | None => Err invalidRequest
  | Some record =>
      _ ← ensure (same_keys (keys_of record) REQUEST_KEYS) invalidRequest;
      inputBytes ← foldM (requestText record) 0%N REQUEST_KEYS;
      _ ← ensure (inputBytes <=? maxRequestTextBytes)%N glob_resourceLimit;
      let text k := text_of (dataProperty record k) in
      _ ← ensure (textBytes (text #"pattern") <=? maxPatternBytes)%N glob_resourceLimit;
      _ ← ensure (textBytes (text #"targetPath") <=? maxTargetBytes)%N glob_resourceLimit;
      _ ← ensure (isRepositoryRelativePath (text #"targetPath")
                  && isRepositoryRelativePath (text #"scopeRoot")) invalidRequest;
      Ok {| g_ruleId := text #"ruleId"; g_profileId := text #"profileId";
            g_surfaceId := text #"surfaceId"; g_scopeRoot := text #"scopeRoot";
            g_targetPath := text #"targetPath"; g_pattern := text #"pattern";
            g_dialectId := match dataProperty record #"dialectId" with
                           | JStr s => Some s
                           | _ => None
                           end |}
  end.
End request.

Definition relativeToScope (targetPath scopeRoot : jstring) : bool * jstring :=
  if jeqb scopeRoot REPOSITORY_ROOT then (true, targetPath)
  else if jeqb targetPath scopeRoot then (true, REPOSITORY_ROOT)
  else
    let prefix := scopeRoot ++ #"/" in
    if startsWith targetPath prefix then (true, drop (length prefix) targetPath)
    else (false, targetPath).

Definition decision (st : ActivationState) (why : jstring) : ActivationFactDecision :=
  {| decision_state := st; reason := why |}.

Definition invalidInputDecision : ActivationFactDecision :=
  decision indeterminate
    #"The glob request contains unsupported text; profile activation remains indeterminate.".

Definition unsupportedDecision (dialect : ProfileGlobDialect) : ActivationFactDecision :=
  decision indeterminate
    (#"Dialect " ++ d_id dialect
     ++ #" does not document the requested behavior; activation remains indeterminate.").

(** The loop over the expanded patterns. *)
Fixpoint matchPatterns (dialect : ProfileGlobDialect) (path : jstring) (patterns : list jstring)
    (sawUnknown : bool) (work : N) : ActivationFactDecision :=
  match patterns with
  | [] =>
      if sawUnknown then unsupportedDecision dialect
      else decision inactive (#"Dialect " ++ d_id dialect ++ #" did not match the target.")
  | pattern :: rest =>
      let '(result, work) := matchDocumentedSubset pattern path dialect work in
      match result with
      | m_match =>
          decision active
            (#"Dialect " ++ d_id dialect ++ #" matched the target under its documented subset.")
      | _ =>
          if exhausted work then unsupportedDecision dialect
          else matchPatterns dialect path rest
                 (sawUnknown || bool_decide (result = m_unknown)) work
      end
  end.

Definition dialectOwns (dialect : ProfileGlobDialect) (request : GlobRequest) : bool :=
  jeqb (d_profileId dialect) (g_profileId request)
  && existsb (jeqb (g_surfaceId request)) (d_surfaceIds dialect).

Definition relativeTarget (dialect : ProfileGlobDialect) (request : GlobRequest) : bool * jstring :=
  match d_patternBase dialect with
  | base_repository_root => (true, g_targetPath request)
  | _ => relativeToScope (g_targetPath request) (g_scopeRoot request)
  end.

(** [matchProfileGlob] once the owner of the dialect is settled. *)
Definition matchOwned (dialect : ProfileGlobDialect) (request : GlobRequest)
    : ActivationFactDecision :=
  match d_patternBase dialect with
  | base_unknown => unsupportedDecision dialect
  | _ =>
      let '(inside, path) := relativeTarget dialect request in
      if inside then
        match braceExpansion (g_pattern request) dialect with
        | Some (Ok patterns) => matchPatterns dialect path patterns false 0%N
        | Some (Err expansion_unsupported) => unsupportedDecision dialect
        | Some (Err expansion_limit) =>
            match d_braceLimitResult dialect with
            | literal_no_match =>
                decision inactive
                  (#"Dialect " ++ d_id dialect
                   ++ #" defines over-budget brace expansion as a literal non-match.")
            | limit_indeterminate => unsupportedDecision dialect
            end
        | None => unsupportedDecision dialect
        end
      else decision inactive
             (#"Target is outside the scope-root base owned by dialect " ++ d_id dialect ++ #".")
  end.

Definition decideRequest (request : GlobRequest) : ActivationFactDecision :=
  if negb (hasWellFormedUnicode (g_pattern request)) || hasControl (g_pattern request)
     || negb (hasWellFormedUnicode (g_ruleId request))
     || negb (hasWellFormedUnicode (g_profileId request))
     || negb (hasWellFormedUnicode (g_surfaceId request))
     || match g_dialectId request with Some d => negb (hasWellFormedUnicode d) | None => false end
  then invalidInputDecision
  else
    match g_dialectId request with
    | None =>
        decision indeterminate
          #"The activation selector has no profile-owned glob dialect; activation remains indeterminate."
    | Some dialectId =>
        match profileGlobDialect dialectId with
        | None =>
            decision indeterminate
              #"No profile-owned semantics are registered for the requested glob dialect."
        | Some dialect =>
            if dialectOwns dialect request then matchOwned dialect request
            else
              decision indeterminate
                (#"Dialect " ++ d_id dialect
                 ++ #" is not owned by the requested profile surface; activation remains indeterminate.")
        end
    end.

Definition matchProfileGlob {F} (input : jsval F)
    : res ProfileGlobDialectErrorCode ActivationFactDecision :=
  request ← validateRequest input;
  Ok (decideRequest request).

(** ** The matcher as the activation algebra's callback *)

Definition nullable_value {F} (s : option jstring) : jsval F :=
  match s with Some s => JStr s | None => JNull end.

Definition request_value (request : ActivationRequest) : jsval unit :=
  match request with
  | GlobActivationRequest r p s root target pattern dialectId =>
      JRec [(#"ruleId", JStr r); (#"profileId", JStr p); (#"surfaceId", JStr s);
            (#"scopeRoot", JStr root); (#"targetPath", JStr target); (#"pattern", JStr pattern);
            (#"dialectId", nullable_value dialectId)]
  | ManualActivationRequest r d p s q target conds
  | ConditionalActivationRequest r d p s q target conds =>
      JRec [(#"ruleId", JStr r); (#"documentId", JStr d); (#"profileId", JStr p);
            (#"surfaceId", JStr s); (#"specSnapshotId", JStr q); (#"targetPath", JStr target);
            (#"conditions", JArr true (map JStr conds))]
  end.

Definition decision_value (d : ActivationFactDecision) : jsval unit :=
  JRec [(#"state", JStr (state_name (decision_state d))); (#"reason", JStr (reason d))].

Definition profileGlobCallback : callback_fn := fun request =>
  match matchProfileGlob (request_value request) with
  | Ok d => Returned (decision_value d)
  | Err _ => Threw
  end.

Definition createProfileGlobActivationCallbacks : ActivationCallbacks :=
  {| matchGlob := Some profileGlobCallback; resolveManual := None; resolveConditional := None |}.
