(* ===== verification/GlobLaws.v ===== *)
(** Laws of the profile glob matcher: a declarative meaning of segment and path
    patterns and of brace expansion, the equivalence of the dynamic-programming
    matchers with it, and what a decision for a request means. *)
From S2P Require Import Prelude TokenPatterns JsString Unicode JsValue RepositoryPath ActivationAlgebra GlobDialects ProfileGlob.

(** ** Segments *)

Definition seg_class (token : jstring) : token_class jstring :=
  if jeqb token STAR then many (fun _ => True)
  else if jeqb token QUESTION then one (fun _ => True)
  else one (fun s => s = token).

(** What [segmentMatch] decides: a leading wildcard does not see a leading dot
    unless [dotWildcards], and the scalars of the value spell the pattern. *)
Definition fold_case (foldCase : bool) (s : jstring) : jstring :=
  if foldCase then asciiFold s else s.

Definition segment_matches (dotWildcards foldCase : bool) (pattern value : jstring) : Prop :=
  let p := scalars (fold_case foldCase pattern) in
  let v := scalars (fold_case foldCase value) in
  (dotWildcards = false -> starts_dot v = true -> starts_wildcard p = false) /\
  spells (seg_class <$> p) v.

Lemma consume_spec work ok work' :
  consume work = (ok, work') -> (work < work')%N /\ ok = negb (exhausted work').
Proof.
  intros [= <- <-]. split; [lia|]. unfold exhausted. by rewrite N.leb_antisym.
Qed.

(** What one step of a matcher may do to the budget: [o] is [None] only when
    the budget is gone. *)
Definition spent {A} (work : N) (o : option A) (work' : N) : Prop :=
  (work <= work')%N /\ (o = None -> exhausted work' = true).

Section segment_rows.
Context (token : jstring) (cs : list (token_class jstring)).
#[local] Abbreviation P := (spells cs).
#[local] Abbreviation Q := (spells (cs ++ [seg_class token])).

Lemma segment_cell_step pre v p prior_left current_left :
  (prior_left = true <-> P pre) -> (current_left = true <-> Q pre) -> (p = true <-> P (pre ++ [v])) ->
  ((if jeqb token STAR then p || current_left
    else if jeqb token QUESTION then prior_left
    else prior_left && jeqb v token) = true <-> Q (pre ++ [v])).
Proof.
  intros Hpl Hcl Hp. unfold seg_class in *. destruct (jeqb token STAR).
  - rewrite spells_many_snoc, orb_true_iff, Hp, Hcl. tauto.
  - destruct (jeqb token QUESTION).
    + rewrite spells_one_snoc, Hpl. tauto.
    + by rewrite spells_one_snoc, andb_true_iff, jeqb_eq, Hpl.
Qed.

Lemma segmentCells_ok value prior pre prior_left current_left work o work' :
  segmentCells token prior_left current_left value prior work = (o, work') ->
  (prior_left = true <-> P pre) -> (current_left = true <-> Q pre) ->
  cells_ok P pre value prior ->
  spent work o work' /\ forall cells, o = Some cells -> cells_ok Q pre value cells.
Proof.
  revert prior pre prior_left current_left work o work'.
  induction value as [|v value IH]; intros [|p prior] pre pl cl work o work' H Hpl Hcl Hc; try done.
  { injection H as <- <-. split; [split; [lia|done]|]. by intros ? [= <-]. }
  destruct Hc as [Hp Hc]. cbn [segmentCells] in H.
  destruct (consume work) as [ok w1] eqn:E1. apply consume_spec in E1 as [Hlt ->].
  destruct (exhausted w1) eqn:Ex; cbn [negb] in H.
  { injection H as <- <-. split; [split; [lia|done]|done]. }
  destruct (segmentCells token _ _ value prior w1) as [o' w2] eqn:E2. injection H as <- <-.
  pose proof (segment_cell_step pre v p pl cl Hpl Hcl Hp) as Hstep.
  apply (IH prior (pre ++ [v])) in E2 as [[Hle Hn] Hs]; [|done|done|done].
  split; [split; [lia|]|].
  - intros ?%fmap_None. auto.
  - intros cells (cells' & -> & ->)%fmap_Some. cbn. auto.
Qed.

Lemma segmentRow_ok value prior work o work' :
  segmentRow token value prior work = (o, work') -> row_ok P [] value prior ->
  spent work o work' /\ forall row, o = Some row -> row_ok Q [] value row.
Proof.
  destruct prior as [|p prior]; [done|]. cbn [segmentRow]. intros H [Hp Hc].
  destruct (consume work) as [ok w1] eqn:E1. apply consume_spec in E1 as [Hlt ->].
  destruct (exhausted w1) eqn:Ex; cbn [negb] in H.
  { injection H as <- <-. split; [split; [lia|done]|done]. }
  destruct (segmentCells token _ _ value prior w1) as [o' w2] eqn:E2. injection H as <- <-.
  assert (jeqb token STAR && p = true <-> Q []) as H0.
  { unfold seg_class. destruct (jeqb token STAR); cbn [andb].
    - by rewrite spells_many_nil.
    - split; [done|]. by destruct (jeqb token QUESTION); intros []%spells_one_nil. }
  apply (segmentCells_ok value prior []) in E2 as [[Hle Hn] Hs]; [|done|done|done].
  split; [split; [lia|]|].
  - intros ?%fmap_None. auto.
  - intros row (cells' & -> & ->)%fmap_Some. split; auto.
Qed.
End segment_rows.

Lemma segmentRows_ok tokens value prior cs work o work' :
  segmentRows tokens value prior work = (o, work') -> row_ok (spells cs) [] value prior ->
  spent work o work' /\
  forall row, o = Some row -> row_ok (spells (cs ++ (seg_class <$> tokens))) [] value row.
Proof.
  revert prior cs work. induction tokens as [|t tokens IH]; intros prior cs work H Hr.
  { injection H as <- <-. split; [split; [lia|done]|]. intros ? [= <-]. by rewrite app_nil_r. }
  cbn [segmentRows] in H. destruct (segmentRow t value prior work) as [o1 w1] eqn:E1.
  apply (segmentRow_ok t cs) in E1 as [[Hle Hn] Hs]; [|done].
  destruct o1 as [row|].
  - apply (IH row (cs ++ [seg_class t])) in H as [[Hle' Hn'] Hs']; [|auto].
    split; [split; [lia|done]|]. intros row' Hrow'. rewrite fmap_cons, cons_middle, app_assoc. auto.
  - injection H as <- <-. split; [split; [lia|auto]|done].
Qed.

(** The verdicts of a matcher against its meaning. *)
Definition verdict_ok (meaning : Prop) (r : MatchResult) : Prop :=
  match r with m_match => meaning | m_no_match => ~ meaning | m_unknown => True end.

Lemma result_of_ok b (P : Prop) : (b = true <-> P) -> verdict_ok P (result_of b) /\ result_of b <> m_unknown.
Proof. intros H. destruct b; cbn; (split; [|done]); [by apply H|]. intros HP. by apply H in HP. Qed.

Lemma segmentMatch_ok pattern value dw fc work r work' :
  segmentMatch pattern value dw fc work = (r, work') ->
  (work <= work')%N /\ (r = m_unknown -> exhausted work' = true) /\
  verdict_ok (segment_matches dw fc pattern value) r.
Proof.
  unfold segmentMatch, segment_matches. intros H.
  change (if fc then asciiFold pattern else pattern) with (fold_case fc pattern) in H.
  change (if fc then asciiFold value else value) with (fold_case fc value) in H.
  set (p := scalars (fold_case fc pattern)) in *. set (v := scalars (fold_case fc value)) in *.
  destruct (negb dw && starts_dot v && starts_wildcard p) eqn:Edot.
  { injection H as <- <-. bool_prop. split; [lia|]. split; [done|]. cbn. intros [Hd _].
    rewrite Hd in *; congruence. }
  destruct (segmentRows p v _ work) as [o w] eqn:E.
  apply (segmentRows_ok p v _ []) in E as [[Hle Hn] Hs]; [|apply first_row_ok].
  destruct o as [row|]; injection H as <- <-.
  - destruct (result_of_ok (default false (last row)) (segment_matches dw fc pattern value)) as [Hv Hu].
    { rewrite (row_ok_last _ [] v) by by apply Hs. cbn [app]. unfold segment_matches. fold p v.
      split; [|tauto]. intros Hsp. split; [|done]. intros -> Hd. rewrite Hd in Edot. cbn in Edot. done. }
    split; [done|]. split; [done|exact Hv].
  - split; [done|]. split; [auto|done].
Qed.

(** ** Paths *)

(** A segment [**] takes any number of path segments, without [dotWildcards]
    none that begins with a dot; any other segment takes exactly one. *)
Definition globstar_takes (dotWildcards : bool) (s : jstring) : bool :=
  dotWildcards || negb (startsWith s #".").

Definition path_class (dotWildcards foldCase : bool) (segment : jstring) : token_class jstring :=
  if jeqb segment GLOBSTAR then many (fun s => globstar_takes dotWildcards s = true)
  else one (segment_matches dotWildcards foldCase segment).

Definition path_matches (dotWildcards foldCase : bool) (pattern path : jstring) : Prop :=
  spells (path_class dotWildcards foldCase <$> split_on SLASH pattern) (path_segments path).

Section path_rows.
Context (dw fc : bool) (segment : jstring) (cs : list (token_class jstring)).
#[local] Abbreviation P := (spells cs).
#[local] Abbreviation Q := (spells (cs ++ [path_class dw fc segment])).

(** What the cell that the previous index may already have written says. *)
Definition pending_ok (pre : list jstring) (p pending : bool) : Prop :=
  (if jeqb segment GLOBSTAR then pending || p else pending) = true <-> Q pre.

Lemma globstar_cell pre p pending :
  jeqb segment GLOBSTAR = true -> pending_ok pre p pending -> (pending || p = true <-> Q pre).
Proof. unfold pending_ok. by intros ->. Qed.

Lemma globstar_step pre s p' cell :
  jeqb segment GLOBSTAR = true -> (cell = true <-> Q pre) -> (p' = true <-> P (pre ++ [s])) ->
  pending_ok (pre ++ [s]) p' (cell && globstar_takes dw s).
Proof.
  unfold pending_ok, path_class. intros E. rewrite E. intros Hc Hp.
  rewrite spells_many_snoc, orb_true_iff, andb_true_iff, Hc, Hp. tauto.
Qed.

Lemma segment_step pre s p p' (matched : bool) :
  jeqb segment GLOBSTAR = false -> (p = true <-> P pre) ->
  (p = true -> matched = true <-> segment_matches dw fc segment s) ->
  pending_ok (pre ++ [s]) p' (p && matched).
Proof.
  unfold pending_ok, path_class. intros E. rewrite E. intros Hp Hm.
  rewrite spells_one_snoc, andb_true_iff, Hp. split; intros [H1 H2]; (split; [done|]); apply Hm; tauto.
Qed.

(** The recursive call and what it returns, at the next index. *)
Lemma pathRow_cons work (o : option (list bool)) w1 w2 pre s path (cell : bool) :
  (work < w1)%N ->
  (spent w1 o w2 /\ forall row, o = Some row -> row_ok Q (pre ++ [s]) path row) ->
  (cell = true <-> Q pre) ->
  spent work (cons cell <$> o) w2 /\
  forall row, cons cell <$> o = Some row -> row_ok Q pre (s :: path) row.
Proof.
  intros Hlt [[Hle Hn] Hs] Hc. split; [split; [lia|]|].
  - intros ?%fmap_None. auto.
  - intros row ([|b cells] & -> & ->)%fmap_Some; [by destruct (Hs [])|].
    split; [done|]. by apply (Hs (b :: cells)).
Qed.

Lemma pathRow_end (o : option (list bool)) pre (cell : bool) work w1 w2 :
  (work < w1)%N -> pathRow dw fc segment false [] [] w1 = (o, w2) ->
  (cell = true <-> Q pre) ->
  spent work (cons cell <$> o) w2 /\
  forall row, cons cell <$> o = Some row -> row_ok Q pre [] row.
Proof.
  intros Hlt [= <- <-] Hc. split; [split; [lia|done]|]. by intros ? [= <-].
Qed.

Definition head_cell (row : list bool) : bool := default false (head row).

Lemma pathRow_ok row path pre pending work o work' :
  pathRow dw fc segment pending path row work = (o, work') ->
  row_ok P pre path row -> pending_ok pre (head_cell row) pending ->
  spent work o work' /\ forall row', o = Some row' -> row_ok Q pre path row'.
Proof.
  revert path pre pending work o work'.
  induction row as [|p row IH]; intros path pre pending work o work' H Hr Hpend; [done|].
  destruct Hr as [Hp Hc]. unfold head_cell in Hpend. cbn [head default from_option id] in Hpend.
  cbn [pathRow] in H.
  destruct (consume work) as [ok w1] eqn:E1; apply consume_spec in E1 as [Hlt ->].
  destruct (exhausted w1) eqn:Ex; cbn [negb] in H.
  { injection H as <- <-. split; [split; [lia|done]|done]. }
  assert (path = [] -> row = []) as Hnil by (intros ->; by destruct row).
  assert (forall s path', path = s :: path' -> row_ok P (pre ++ [s]) path' row /\
            (head_cell row = true <-> P (pre ++ [s]))) as Hcons.
  { intros s path' ->. destruct row as [|p' row]; [done|]. split; [done|apply Hc]. }
  destruct (jeqb segment GLOBSTAR) eqn:Eg.
  - pose proof (globstar_cell _ _ _ Eg Hpend) as Hcell.
    destruct (pathRow dw fc segment _ (tail path) row w1) as [o' w2] eqn:E2. injection H as <- <-.
    destruct path as [|s path]; cbn [tail] in E2.
    { rewrite Hnil in E2 by done. by eapply pathRow_end. }
    destruct (Hcons s path eq_refl) as [Hr Hp'].
    eapply pathRow_cons; [exact Hlt| |exact Hcell].
    eapply IH; [exact E2|done|]. by apply globstar_step.
  - assert (pending = true <-> Q pre) as Hcell by (unfold pending_ok in Hpend; by rewrite Eg in Hpend).
    destruct path as [|s path].
    { rewrite Hnil in H by done. destruct (pathRow dw fc segment false [] [] w1) as [o' w2] eqn:E2.
      injection H as <- <-. by eapply pathRow_end. }
    destruct (Hcons s path eq_refl) as [Hr Hp']. destruct p.
    + destruct (segmentMatch segment s dw fc w1) as [r w2] eqn:Es.
      apply segmentMatch_ok in Es as (Hle & Hu & Hv).
      destruct r; [| |injection H as <- <-; split; [split; [lia|auto]|done]].
      all: destruct (pathRow dw fc segment _ path row w2) as [o' w3] eqn:E2;
        injection H as <- <-; (eapply pathRow_cons; [|eapply IH; [exact E2|done|]|exact Hcell]; [lia|]).
      * by apply (segment_step pre s true _ true Eg Hp).
      * by apply (segment_step pre s true _ false Eg Hp).
    + destruct (pathRow dw fc segment _ path row w1) as [o' w2] eqn:E2.
      injection H as <- <-. eapply pathRow_cons; [exact Hlt| |exact Hcell].
      eapply IH; [exact E2|done|]. by apply (segment_step pre s false _ false Eg Hp).
Qed.
End path_rows.

Lemma pathRows_ok dw fc segments path prior cs work o work' :
  pathRows dw fc segments path prior work = (o, work') -> row_ok (spells cs) [] path prior ->
  spent work o work' /\
  forall row, o = Some row -> row_ok (spells (cs ++ (path_class dw fc <$> segments))) [] path row.
Proof.
  revert prior cs work. induction segments as [|g segments IH]; intros prior cs work H Hr.
  { injection H as <- <-. split; [split; [lia|done]|]. intros ? [= <-]. by rewrite app_nil_r. }
  cbn [pathRows] in H. destruct (pathRow dw fc g false path prior work) as [o1 w1] eqn:E1.
  apply (pathRow_ok dw fc g cs _ _ []) in E1 as [[Hle Hn] Hs]; [|done|].
  - destruct o1 as [row|].
    + apply (IH row (cs ++ [path_class dw fc g])) in H as [[Hle' Hn'] Hs']; [|auto].
      split; [split; [lia|done]|]. intros row' Hrow'. rewrite fmap_cons, cons_middle, app_assoc. auto.
    + injection H as <- <-. split; [split; [lia|auto]|done].
  - destruct prior as [|p prior]; [done|].
    unfold pending_ok, path_class. destruct Hr as [Hp _]. destruct (jeqb g GLOBSTAR); cbn [orb].
    + by rewrite spells_many_nil.
    + split; [done|]. by intros []%spells_one_nil.
Qed.

(** A path too deep for the matcher. *)
Definition too_many_segments (pattern path : jstring) : bool :=
  (maxPathSegments <? N.of_nat (length (split_on SLASH pattern)))%N
  || (maxPathSegments <? N.of_nat (length (path_segments path)))%N.

Lemma pathMatch_ok dw fc pattern path work r work' :
  pathMatch dw fc pattern path work = (r, work') ->
  (work <= work')%N /\
  (r = m_unknown -> too_many_segments pattern path = true \/ exhausted work' = true) /\
  verdict_ok (path_matches dw fc pattern path) r.
Proof.
  unfold pathMatch. fold (too_many_segments pattern path).
  destruct (too_many_segments pattern path). { intros [= <- <-]. split; [lia|]. split; [by left|done]. }
  destruct (pathRows dw fc _ _ _ work) as [o w] eqn:E.
  apply (pathRows_ok _ _ _ _ _ []) in E as [[Hle Hn] Hs]; [|apply first_row_ok].
  destruct o as [row|]; intros [= <- <-].
  - destruct (result_of_ok (default false (last row)) (path_matches dw fc pattern path)) as [Hv Hu].
    { specialize (Hs row eq_refl). by apply row_ok_last in Hs. }
    split; [done|]. by split; [|].
  - split; [done|]. by split; [auto|].
Qed.

(** ** Brace expansion

    [brace_choice p s]: choosing one alternative in every brace of [p], the
    braces not nested, gives [s]. *)
Inductive brace_choice : jstring -> jstring -> Prop :=
| choice_plain s : OPEN ∉ s -> CLOSE ∉ s -> brace_choice s s
| choice_brace pre body post alternative s :
    OPEN ∉ pre -> OPEN ∉ body -> CLOSE ∉ body -> alternative ∈ split_on COMMA body ->
    brace_choice (pre ++ alternative ++ post) s ->
    brace_choice (pre ++ OPEN :: body ++ CLOSE :: post) s.

Lemma cut_Some c s a b : cut c s = Some (a, b) <-> s = a ++ c :: b /\ c ∉ a.
Proof.
  revert a b. induction s as [|x s IH]; intros a b; cbn [cut].
  - split; [done|]. by intros [[]%app_cons_not_nil _].
  - destruct (N.eqb_spec x c) as [->|Hn].
    + split; [intros [= <- <-]; split; [done|set_solver]|].
      intros [E Ha]. destruct a as [|y a]; [by injection E as <-|]. injection E as -> _. set_solver.
    + destruct (cut c s) as [[a' b']|] eqn:E.
      * split.
        -- intros [= <- <-]. destruct (proj1 (IH a' b') eq_refl) as [-> ?]. split; [done|]. set_solver.
        -- intros [Es Ha]. destruct a as [|y a]; [by injection Es as -> _|]. injection Es as -> Es.
           assert (Some (a', b') = Some (a, b)) as [= -> ->]; [|done]. apply IH. set_solver.
      * split; [done|]. intros [Es Ha]. destruct a as [|y a]; [by injection Es as -> _|].
        injection Es as -> Es. assert (None = Some (a, b)); [|done]. apply IH. set_solver.
Qed.

Lemma cut_None c s : cut c s = None <-> c ∉ s.
Proof.
  induction s as [|x s IH]; cbn [cut]; [split; [set_solver|done]|].
  destruct (N.eqb_spec x c) as [->|Hn]; [split; [done|set_solver]|].
  destruct (cut c s) as [[a b]|]; split; try done; intros H.
  - exfalso. assert (Some (a, b) = None) as E; [|done]. apply IH. set_solver.
  - apply not_elem_of_cons. split; [done|]. by apply IH.
Qed.

Lemma count_open_zero s : count_open s = 0 <-> OPEN ∉ s.
Proof.
  unfold count_open. rewrite length_zero_iff_nil. split.
  - intros H Ho. assert (In OPEN (List.filter (N.eqb OPEN) s)) as Hi.
    { apply filter_In. split; [by apply list_elem_of_In|done]. }
    by rewrite H in Hi.
  - intros H. destruct (List.filter _ s) as [|x l] eqn:E; [done|].
    assert (In x (List.filter (N.eqb OPEN) s)) as Hx by (rewrite E; by left).
    apply filter_In in Hx as [Hx Ex]. apply N.eqb_eq in Ex. subst x. by apply list_elem_of_In in Hx.
Qed.

Lemma count_open_app s t : count_open (s ++ t) = count_open s + count_open t.
Proof. unfold count_open. by rewrite List.filter_app, length_app. Qed.

(** The brace a value is expanded at, when it is. *)
Definition first_brace (value pre body post : jstring) : Prop :=
  (cut OPEN value = Some (pre, body ++ CLOSE :: post)) /\ OPEN ∉ pre /\ OPEN ∉ body /\ CLOSE ∉ body.

Lemma first_brace_value value pre body post :
  first_brace value pre body post -> value = pre ++ OPEN :: body ++ CLOSE :: post.
Proof. by intros [[-> _]%cut_Some _]. Qed.

Lemma choice_first_brace value pre body post s :
  first_brace value pre body post ->
  brace_choice value s <->
  exists alternative, alternative ∈ split_on COMMA body /\ brace_choice (pre ++ alternative ++ post) s.
Proof.
  intros Hf. pose proof (first_brace_value _ _ _ _ Hf) as Ev. destruct Hf as (Hc & Hp & Hb & Hb').
  split.
  - intros H. destruct H as [s Ho _|pre' body' post' a s Hp1 Hb1 Hb1' Ha H].
    + apply cut_None in Ho. congruence.
    + assert (cut OPEN (pre' ++ OPEN :: body' ++ CLOSE :: post') = Some (pre', body' ++ CLOSE :: post'))
        as E by by apply cut_Some. rewrite Hc in E. injection E as <- E.
      assert (cut CLOSE (body ++ CLOSE :: post) = Some (body, post)) as E1 by by apply cut_Some.
      assert (cut CLOSE (body' ++ CLOSE :: post') = Some (body', post')) as E2 by by apply cut_Some.
      rewrite E, E2 in E1. injection E1 as -> ->. by exists a.
  - intros (a & Ha & H). rewrite Ev. by eapply choice_brace.
Qed.

Lemma split_on_units c d s a : c ∉ s -> a ∈ split_on d s -> c ∉ a.
Proof.
  revert a. induction s as [|x s IH]; intros a Hc Ha; cbn [split_on] in Ha.
  - apply list_elem_of_singleton in Ha as ->. set_solver.
  - apply not_elem_of_cons in Hc as [Hx Hc]. destruct (x =? d)%N.
    + apply elem_of_cons in Ha as [->|Ha]; [set_solver|]. by apply IH.
    + destruct (split_on d s) as [|seg rest] eqn:E; [by apply split_on_nonempty in E|].
      apply elem_of_cons in Ha as [->|Ha]; [|by apply IH; [|right]].
      apply not_elem_of_cons. split; [done|]. apply IH; [done|by left].
Qed.

Section expansion.
Context (dialect : ProfileGlobDialect).

Definition total_bytes (l : list jstring) : N := sumN textBytes l.

Lemma pushCandidates_ok pre post alternatives next bytes e next' bytes' e' :
  foldM (pushCandidate dialect pre post) (next, bytes, e) alternatives = Ok (next', bytes', e') ->
  alternatives <> [] -> 
  next' = next ++ ((fun a => pre ++ a ++ post) <$> alternatives) /\ e' = e /\
  bytes' = (bytes + total_bytes ((fun a => pre ++ a ++ post) <$> alternatives))%N /\
  (N.of_nat (length next') <= maxExpandedPatterns)%N /\ (bytes' <= maxExpandedBytes)%N.
Proof.
  intros H Hne.
  apply (foldM_inv (fun done_ '(n, b, x) =>
     n = next ++ ((fun a => pre ++ a ++ post) <$> done_) /\ x = e /\
     b = (bytes + total_bytes ((fun a => pre ++ a ++ post) <$> done_))%N /\
     (done_ <> [] -> (N.of_nat (length n) <= maxExpandedPatterns)%N /\ (b <= maxExpandedBytes)%N))) in H.
  - destruct H as (-> & -> & -> & Hb). destruct (Hb Hne). done.
  - cbn. rewrite app_nil_r. unfold total_bytes, sumN. cbn. split; [done|]. split; [done|]. by split; [lia|].
  - intros d a [[n b] x] [[n' b'] x'] (-> & -> & -> & _) _ Hs. unfold pushCandidate in Hs.
    apply bind_ensure in Hs as [H1 Hs]. apply bind_ensure in Hs as [H2 [= <- <- <-]].
    rewrite fmap_app. cbn [fmap list_fmap]. bool_prop.
    split; [by rewrite <- app_assoc|]. split; [done|]. unfold total_bytes in *.
    rewrite sumN_app. split; [unfold sumN; cbn; lia|].
    intros _. split; [|unfold sumN in *; cbn in *; lia]. rewrite length_app. cbn. lia.
Qed.

(** What one value contributes to the next round. *)
Definition contributes (value : jstring) (out : list jstring) : Prop :=
  (OPEN ∉ value /\ CLOSE ∉ value /\ out = [value]) \/
  (exists pre body post, first_brace value pre body post /\
     out = (fun a => pre ++ a ++ post) <$> split_on COMMA body).

Lemma expandValue_ok next bytes e value next' bytes' e' :
  expandValue dialect (next, bytes, e) value = Ok (next', bytes', e') ->
  exists out, contributes value out /\ next' = next ++ out /\
    bytes' = (bytes + total_bytes out)%N /\ (bytes' <= maxExpandedBytes)%N /\
    e' = e || negb (Nat.eqb (count_open value) 0) /\
    (count_open value <> 0 -> (N.of_nat (length next') <= maxExpandedPatterns)%N).
Proof.
  unfold expandValue. destruct (cut OPEN value) as [[pre rest]|] eqn:Eo.
  - intros [_ H]%bind_ensure. destruct (cut CLOSE rest) as [[body post]|] eqn:Ec; [|done].
    apply bind_ensure in H as [Hb H]. apply bind_ensure in H as [Hn H].
    apply pushCandidates_ok in H as (-> & -> & -> & Hlen & Hby); [|apply split_on_nonempty].
    pose proof Ec as [-> Hb']%cut_Some. pose proof Eo as [-> Hp]%cut_Some.
    apply negb_true_iff, includes_false in Hb.
    eexists. split; [right; exists pre, body, post; by split|]. split; [done|]. split; [done|].
    split; [done|]. split; [|done].
    rewrite count_open_app. change (OPEN :: body ++ CLOSE :: post) with ([OPEN] ++ body ++ CLOSE :: post).
    rewrite count_open_app. change (count_open [OPEN]) with 1.
    rewrite (proj2 (Nat.eqb_neq _ 0)) by lia. by rewrite orb_true_r.
  - apply cut_None in Eo. intros [Hc H]%bind_ensure. apply bind_ensure in H as [Hb [= <- <- <-]].
    apply negb_true_iff, includes_false in Hc. exists [value]. bool_prop.
    apply count_open_zero in Eo as Eo'. rewrite Eo'. rewrite orb_false_r.
    split; [by left|]. unfold total_bytes, sumN. cbn. rewrite N.add_0_r.
    split; [done|]. split; [done|]. split; [done|]. by split.
Qed.

Lemma contributes_choices value out s :
  contributes value out -> brace_choice value s <-> exists c, c ∈ out /\ brace_choice c s.
Proof.
  intros [(Ho & Hc & ->)|(pre & body & post & Hf & ->)].
  - split; [intros H; exists value; set_solver|]. by intros (c & ->%list_elem_of_singleton & H).
  - rewrite (choice_first_brace _ _ _ _ _ Hf). setoid_rewrite list_elem_of_fmap. split.
    + intros (a & Ha & H). eauto.
    + intros (c & (a & -> & Ha) & H). eauto.
Qed.

Lemma contributes_count value out c :
  contributes value out -> c ∈ out -> count_open c = Nat.pred (count_open value).
Proof.
  intros [(Ho & Hc & ->)|(pre & body & post & Hf & ->)].
  - intros ->%list_elem_of_singleton. apply count_open_zero in Ho. by rewrite Ho.
  - intros (a & -> & Ha)%list_elem_of_fmap. rewrite (first_brace_value _ _ _ _ Hf).
    destruct Hf as (_ & Hp & Hb & _). apply (split_on_units OPEN) in Ha; [|done].
    change (OPEN :: body ++ CLOSE :: post) with ([OPEN] ++ body ++ [CLOSE] ++ post).
    rewrite !count_open_app. apply count_open_zero in Hp, Hb, Ha. rewrite Hp, Hb, Ha. done.
Qed.

(** One round over values that all have the same number of braces. *)
Lemma round_ok values n next bytes e :
  foldM (expandValue dialect) ([], 0%N, false) values = Ok (next, bytes, e) ->
  values <> [] -> Forall (fun v => count_open v = n) values ->
  next <> [] /\ Forall (fun v => count_open v = Nat.pred n) next /\
  (forall s, (exists c, c ∈ values /\ brace_choice c s) <-> (exists c, c ∈ next /\ brace_choice c s)) /\
  e = negb (Nat.eqb n 0) /\ (total_bytes next <= maxExpandedBytes)%N /\
  (n <> 0 -> (N.of_nat (length next) <= maxExpandedPatterns)%N) /\
  (n = 0 -> next = values /\ Forall (fun v => OPEN ∉ v /\ CLOSE ∉ v) values).
Proof.
  intros H Hne Hall.
  apply (foldM_inv (fun d '(nx, b, x) =>
    (d <> [] -> nx <> []) /\ Forall (fun v => count_open v = Nat.pred n) nx /\
    (forall s, (exists c, c ∈ d /\ brace_choice c s) <-> (exists c, c ∈ nx /\ brace_choice c s)) /\
    (x = negb (Nat.eqb n 0) \/ d = []) /\ b = total_bytes nx /\
    (d <> [] -> (b <= maxExpandedBytes)%N) /\ (x = true -> d <> []) /\
    (n <> 0 -> d <> [] -> (N.of_nat (length nx) <= maxExpandedPatterns)%N) /\
    (n = 0 -> nx = d /\ Forall (fun v => OPEN ∉ v /\ CLOSE ∉ v) d))) in H.
  - destruct H as (H1 & H2 & H3 & [H4|H4] & -> & H5 & H6 & H7 & H8); [|done].
    split; [by apply H1|]. split; [done|]. split; [done|]. split; [done|]. split; [by apply H5|].
    split; [by intros; apply H7|done].
  - split; [done|]. split; [constructor|]. split; [done|]. split; [by right|]. split; [done|].
    split; [done|]. split; [done|]. split; [done|]. intros _. split; [done|constructor].
  - intros d v [[nx b] x] [[nx' b'] x'] (H1 & H2 & H3 & H4 & H5 & H6 & H6' & H7 & H8) Hv Hs.
    apply expandValue_ok in Hs as (out & Hc & -> & -> & Hby & -> & Hlen).
    rewrite Forall_forall in Hall. specialize (Hall v Hv). rewrite Hall in *.
    assert (out <> []) as Hout.
    { destruct Hc as [(_ & _ & ->)|(? & body & ? & _ & ->)]; [done|].
      intros E%fmap_nil_inv. by apply split_on_nonempty in E. }
    split; [intros _ [_ ?]%app_nil; done|]. split.
    { apply Forall_app. split; [done|]. apply Forall_forall. intros c Hcc.
      rewrite (contributes_count v out c Hc Hcc). by rewrite Hall. }
    split.
    { intros s. setoid_rewrite elem_of_app. setoid_rewrite list_elem_of_singleton. split.
      - intros (c & [Hcd| ->] & Hs); [destruct (proj1 (H3 s)) as (c' & ? & ?); eauto|].
        apply (contributes_choices _ _ _ Hc) in Hs as (c' & ? & ?). eauto.
      - intros (c & [Hcd|Hco] & Hs).
        + destruct (proj2 (H3 s)) as (c' & ? & ?); eauto.
        + exists v. split; [by right|]. apply (contributes_choices _ _ _ Hc). eauto. }
    split. { left. destruct H4 as [->| ->]; [by destruct (Nat.eqb n 0)|].
      destruct x; [by destruct H6'|done]. }
    split. { rewrite H5. unfold total_bytes. by rewrite sumN_app. }
    split; [done|]. split. { intros _ [_ [=]]%app_nil. }
    split; [auto|]. intros ->. destruct (H8 eq_refl) as [-> HF].
    destruct Hc as [(Ho & Hcl & ->)|(pre & body & post & Hf & _)].
    + split; [done|]. apply Forall_app. split; [done|]. by apply Forall_singleton.
    + destruct Hf as ([-> _]%cut_Some & _). rewrite count_open_app in Hall.
      unfold count_open in Hall. cbn in Hall. lia.
Qed.

Definition expansion_ok (values : list jstring) (r : res ExpansionFailure (list jstring)) : Prop :=
  match r with
  | Ok out =>
      (forall s, s ∈ out <-> exists c, c ∈ values /\ brace_choice c s) /\
      (total_bytes out <= maxExpandedBytes)%N
  | Err _ => True
  end.

Lemma braceRounds_ok fuel n values :
  n < fuel -> values <> [] -> Forall (fun v => count_open v = n) values ->
  exists r, braceRounds dialect fuel values = Some r /\ expansion_ok values r /\
    (forall out, r = Ok out ->
       length out = length values \/ (N.of_nat (length out) <= maxExpandedPatterns)%N).
Proof.
  revert n values. induction fuel as [|fuel IH]; intros n values Hn Hne Hall; [lia|].
  cbn [braceRounds]. destruct (foldM _ _ values) as [[[next bytes] e]|err] eqn:E.
  - apply (round_ok values n) in E as (H1 & H2 & H3 & -> & H5 & H6 & H7); [|done|done].
    destruct (Nat.eqb_spec n 0) as [->|Hn0]; cbn [negb].
    + destruct (H7 eq_refl) as [-> HF]. eexists. split; [done|].
      split; [|intros out [= <-]; by left]. split; [|done].
      intros s. rewrite Forall_forall in HF. split.
      * intros Hs. exists s. split; [done|]. by apply choice_plain; apply HF.
      * intros (c & Hc & Hs). destruct (HF c Hc) as [Ho _]. inversion Hs; subst; [done|].
        destruct Ho. set_solver.
    + destruct (IH (Nat.pred n) next) as (r & Hr & Hok & Hlen); [lia|done|done|].
      exists r. split; [done|]. split.
      * destruct r as [out|]; [|done]. destruct Hok as [Hiff Hb]. split; [|done].
        intros s. by rewrite Hiff, H3.
      * intros out Eo. right. destruct (Hlen out Eo) as [->|?]; auto.
  - exists (Err err). done.
Qed.
End expansion.

Lemma braceExpansion_total pattern dialect :
  exists r, braceExpansion pattern dialect = Some r /\
  match r with
  | Ok patterns =>
      (forall s, s ∈ patterns <-> brace_choice pattern s) /\
      (N.of_nat (length patterns) <= maxExpandedPatterns)%N /\
      (total_bytes patterns <= maxExpandedBytes)%N
  | Err _ => True
  end.
Proof.
  unfold braceExpansion.
  destruct (braceRounds_ok dialect (S (count_open pattern)) (count_open pattern) [pattern])
    as (r & Hr & Hok & Hlen); [lia|done|by apply Forall_singleton|].
  exists r. split; [done|]. destruct r as [out|]; [|done]. destruct Hok as [Hiff Hb].
  split; [|split; [|done]].
  - intros s. rewrite Hiff. split; [by intros (c & ->%list_elem_of_singleton & ?)|].
    intros Hs. exists pattern. set_solver.
  - unfold maxExpandedPatterns in *. destruct (Hlen out eq_refl) as [->|?]; [cbn; lia|done].
Qed.

(** ** One expanded pattern against the documented subset *)

Definition in_subset (dialect : ProfileGlobDialect) (pattern : jstring) : bool :=
  negb (unsupportedSyntax pattern) && negb (includes pattern 91 || includes pattern 93)
  && negb (includes pattern 63 && negb (is_documented (d_questionMark dialect)))
  && negb (existsb (unsupportedSegment dialect) (split_on SLASH pattern)).

Definition literal_brackets (dialect : ProfileGlobDialect) (pattern : jstring) : Prop :=
  unsupportedSyntax pattern = false /\ d_bracketExpressions dialect = invalid_is_no_match /\
  (includes pattern 91 || includes pattern 93) = true /\ malformedBracketExpression pattern = true.

(** No reading of the undocumented features lets the pattern match. *)
Definition matches_nowhere (pattern path : jstring) : Prop :=
  forall dotWildcards foldCase, ~ path_matches dotWildcards foldCase pattern path.

(** The verdict depends on an undocumented feature. *)
Definition ambiguous (pattern path : jstring) : Prop :=
  ~ path_matches false false pattern path /\
  (exists dotWildcards foldCase, path_matches dotWildcards foldCase pattern path).

Definition subset_meaning (dialect : ProfileGlobDialect) (pattern path : jstring) (work' : N)
    (r : MatchResult) : Prop :=
  match r with
  | m_match => in_subset dialect pattern = true /\ path_matches false false pattern path
  | m_no_match =>
      literal_brackets dialect pattern \/
      (in_subset dialect pattern = true /\ matches_nowhere pattern path)
  | m_unknown =>
      exhausted work' = true \/ too_many_segments pattern path = true \/
      in_subset dialect pattern = false \/ ambiguous pattern path \/
      hasNonAscii pattern || hasNonAscii path = true
  end.

Lemma variant_ok dw fc pattern path work r w :
  pathMatch dw fc pattern path work = (r, w) ->
  ~ path_matches false false pattern path -> r <> m_no_match ->
  exhausted w = true \/ too_many_segments pattern path = true \/ ambiguous pattern path.
Proof.
  intros (_ & Hu & Hv)%pathMatch_ok Hn Hr. destruct r; [|done|].
  - right; right. split; [done|]. by exists dw, fc.
  - destruct (Hu eq_refl); auto.
Qed.

Lemma matchDocumentedSubset_ok pattern path dialect work r w :
  matchDocumentedSubset pattern path dialect work = (r, w) ->
  subset_meaning dialect pattern path w r.
Proof.
  unfold matchDocumentedSubset.
  destruct (unsupportedSyntax pattern) eqn:E1.
  { intros [= <- <-]. right; right; left. unfold in_subset. by rewrite E1. }
  destruct (includes pattern 91 || includes pattern 93) eqn:E2.
  { assert (in_subset dialect pattern = false) by (unfold in_subset; by rewrite E1, E2).
    destruct (d_bracketExpressions dialect) eqn:Eb; [destruct (malformedBracketExpression pattern) eqn:Em|];
      intros [= <- <-]; cbn; [by left|by auto|by auto]. }
  destruct (includes pattern 63 && negb (is_documented (d_questionMark dialect))) eqn:E3.
  { intros [= <- <-]. right; right; left. unfold in_subset. by rewrite E1, E2, E3. }
  destruct (existsb (unsupportedSegment dialect) (split_on SLASH pattern)) eqn:E4.
  { intros [= <- <-]. right; right; left. unfold in_subset. by rewrite E1, E2, E3, E4. }
  assert (in_subset dialect pattern = true) as Hs by (unfold in_subset; by rewrite E1, E2, E3, E4).
  destruct (pathMatch false false pattern path work) as [r1 w1] eqn:M1.
  pose proof M1 as (_ & Hu1 & Hv1)%pathMatch_ok.
  destruct r1; [by intros [= <- <-]| |intros [= <- <-]; cbn; destruct (Hu1 eq_refl); auto].
  cbn in Hv1.
  assert (forall dw fc w0 r0 w2, pathMatch dw fc pattern path w0 = (r0, w2) -> r0 <> m_no_match ->
            subset_meaning dialect pattern path w2 m_unknown) as Hvar.
  { intros dw fc w0 r0 w2 HM Hr. cbn. destruct (variant_ok _ _ _ _ _ _ _ HM Hv1 Hr) as [?|[?|?]]; auto 6. }
  destruct (pathMatch true false pattern path w1) as [r2 w2] eqn:M2.
  pose proof M2 as (_ & _ & Hv2)%pathMatch_ok.
  destruct r2; [by intros [= <- <-]; eapply Hvar| |by intros [= <- <-]; eapply Hvar].
  destruct (pathMatch false true pattern path w2) as [r3 w3] eqn:M3.
  pose proof M3 as (_ & _ & Hv3)%pathMatch_ok.
  destruct r3; [by intros [= <- <-]; eapply Hvar| |by intros [= <- <-]; eapply Hvar].
  destruct (pathMatch true true pattern path w3) as [r4 w4] eqn:M4.
  pose proof M4 as (_ & _ & Hv4)%pathMatch_ok.
  destruct r4; [by intros [= <- <-]; eapply Hvar| |by intros [= <- <-]; eapply Hvar].
  destruct (hasNonAscii pattern || hasNonAscii path) eqn:E5; intros [= <- <-]; cbn; [by auto 6|].
  right. split; [done|]. by intros [] [].
Qed.

(** ** The decision *)

(** The request names a dialect that owns it, and the dialect fixes its base. *)
Definition owned_by (request : GlobRequest) (dialect : ProfileGlobDialect) : Prop :=
  (exists dialectId, g_dialectId request = Some dialectId /\
     profileGlobDialect dialectId = Some dialect) /\
  dialectOwns dialect request = true /\ d_patternBase dialect <> base_unknown.

Definition never_matches (dialect : ProfileGlobDialect) (path pattern : jstring) : Prop :=
  forall s, brace_choice pattern s ->
    literal_brackets dialect s \/ (in_subset dialect s = true /\ matches_nowhere s path).

Definition decision_means (request : GlobRequest) (d : ActivationState) : Prop :=
  match d with
  | active =>
      exists dialect path s, owned_by request dialect /\
        relativeTarget dialect request = (true, path) /\
        brace_choice (g_pattern request) s /\ in_subset dialect s = true /\
        path_matches false false s path
  | inactive =>
      exists dialect inside path, owned_by request dialect /\
        relativeTarget dialect request = (inside, path) /\
        (inside = false \/ never_matches dialect path (g_pattern request) \/
         (d_braceLimitResult dialect = literal_no_match /\
          braceExpansion (g_pattern request) dialect = Some (Err expansion_limit)))
  | indeterminate => True
  end.

Lemma matchPatterns_ok dialect path patterns seen work :
  match decision_state (matchPatterns dialect path patterns seen work) with
  | active => exists s, s ∈ patterns /\ in_subset dialect s = true /\ path_matches false false s path
  | inactive =>
      forall s, s ∈ patterns ->
        literal_brackets dialect s \/ (in_subset dialect s = true /\ matches_nowhere s path)
  | indeterminate => True
  end /\
  (seen = true -> decision_state (matchPatterns dialect path patterns seen work) <> inactive).
Proof.
  revert seen work. induction patterns as [|p patterns IH]; intros seen work; cbn [matchPatterns].
  { destruct seen; cbn; [done|]. split; [|done]. intros s Hs. by apply not_elem_of_nil in Hs. }
  destruct (matchDocumentedSubset p path dialect work) as [r w] eqn:E.
  apply matchDocumentedSubset_ok in E.
  destruct r; cbn [subset_meaning] in E; [cbn; split; [|done]; exists p; set_solver| |];
    (destruct (exhausted w); [by cbn|]).
  - destruct (IH (seen || false) w) as [IH1 IH2]. change (bool_decide (m_no_match = m_unknown)) with false.
    rewrite orb_false_r in *. split; [|done].
    destruct (decision_state _); [|intros s [->|Hs]%elem_of_cons; auto|done].
    destruct IH1 as (s & ? & ?). exists s. set_solver.
  - change (bool_decide (m_unknown = m_unknown)) with true. rewrite orb_true_r.
    destruct (IH true w) as [IH1 IH2]. specialize (IH2 eq_refl).
    split; [|done]. destruct (decision_state _); [|done|done].
    destruct IH1 as (s & ? & ?). exists s. set_solver.
Qed.

Lemma decideRequest_means request :
  decision_means request (decision_state (decideRequest request)).
Proof.
  unfold decideRequest. destruct (_ || _); [done|].
  destruct (g_dialectId request) as [dialectId|] eqn:Ed; [|done].
  destruct (profileGlobDialect dialectId) as [dialect|] eqn:Ep; [|done].
  destruct (dialectOwns dialect request) eqn:Eo; [|done].
  unfold matchOwned. destruct (decide (d_patternBase dialect = base_unknown)) as [->|Hb]; [done|].
  assert (owned_by request dialect) as Hown by (split; [by eexists|by split]).
  destruct (relativeTarget dialect request) as [inside path] eqn:Er.
  assert (forall x y : ActivationFactDecision,
            match d_patternBase dialect with base_unknown => x | _ => y end = y) as ->
    by (intros; by destruct (d_patternBase dialect)).
  destruct inside; [|cbn; exists dialect, false, path; auto].
  destruct (braceExpansion_total (g_pattern request) dialect) as (r & Hr & Hok). rewrite Hr.
  destruct r as [patterns|[]]; [| |done].
  - destruct Hok as (Hiff & _ & _).
    destruct (matchPatterns_ok dialect path patterns false 0%N) as [H _].
    destruct (decision_state _); cbn; [| |done].
    + destruct H as (s & Hs & ? & ?). exists dialect, path, s. by rewrite <- Hiff.
    + exists dialect, true, path. split; [done|]. split; [done|]. right; left.
      intros s Hs. apply H. by apply Hiff.
  - destruct (d_braceLimitResult dialect) eqn:El; [|done].
    exists dialect, true, path. split; [done|]. split; [done|]. right; right. by split.
Qed.

(** ** Properties *)

(** C1.  The path matcher computes the declarative meaning of a pattern: its
    segments spell the path's segments, [**] taking any number of them and
    every other segment matching one, star by star.  It gives up only when the
    work budget is gone or a side has more than 1024 segments, and never
    returns work to the budget. *)
Theorem pathMatch_decides (dotWildcards foldCase : bool) (pattern path : jstring) (work : N) :
  let '(r, work') := pathMatch dotWildcards foldCase pattern path work in
  (work <= work')%N /\
  match r with
  | m_match => path_matches dotWildcards foldCase pattern path
  | m_no_match => ~ path_matches dotWildcards foldCase pattern path
  | m_unknown => too_many_segments pattern path = true \/ exhausted work' = true
  end.
Proof.
  destruct (pathMatch _ _ _ _ _) as [r w] eqn:E. apply pathMatch_ok in E as (Hle & Hu & Hv).
  split; [done|]. destruct r; [done|done|]. by apply Hu.
Qed.

(**  Brace expansion always terminates within its fuel, and when it
    succeeds it returns exactly the strings that choosing one alternative in
    every brace gives, at most 1000 of them and at most 4 MiB in all. *)
Theorem braceExpansion_choices (pattern : jstring) (dialect : ProfileGlobDialect) :
  exists r, braceExpansion pattern dialect = Some r /\
  match r with
  | Ok patterns =>
      (forall s, s ∈ patterns <-> brace_choice pattern s) /\
      (N.of_nat (length patterns) <= maxExpandedPatterns)%N /\
      (sumN textBytes patterns <= maxExpandedBytes)%N
  | Err _ => True
  end.
Proof. apply braceExpansion_total. Qed.

(**  A decision is never wrong: [active] means that a dialect of the closed
    catalog owns the request's surface and some brace choice of the pattern
    lies in its documented subset and matches the target under the strict
    reading; [inactive] means that an owning dialect excludes the target, its
    brace budget makes the pattern a literal, or every brace choice matches
    under no reading of the undocumented features. *)
Theorem matchProfileGlob_sound {F} (input : jsval F) (d : ActivationFactDecision)
  (H : matchProfileGlob input = Ok d) :
  exists request, validateRequest input = Ok request /\ decision_means request (decision_state d).
Proof.
  unfold matchProfileGlob in H. apply bind_Ok in H as (request & Hr & [= <-]).
  exists request. split; [done|]. apply decideRequest_means.
Qed.

Definition sample_request (pattern : jstring) : ActivationRequest :=
  GlobActivationRequest #"rule" #"claude-code" #"claude-code/local-session" #"." #"docs/guide/a.md"
    pattern (Some #"claude-code/project-rule-paths/2026-08-01").

Lemma matchProfileGlob_sound_witness :
  exists d request, matchProfileGlob (request_value (sample_request #"{src,docs}/**/*.md")) = Ok d /\
    decision_state d = active /\ decision_means request active.
Proof.
  eexists. edestruct (matchProfileGlob_sound (request_value (sample_request #"{src,docs}/**/*.md")))
    as (request & _ & Hd); [vm_compute; reflexivity|].
  exists request. split; [vm_compute; reflexivity|]. split; [reflexivity|exact Hd].
Defined.
