(* ===== verification/GlobActivation.v ===== *)
(** The glob matcher behind the activation algebra: what the algebra expects of
    a matcher as an interface, the closed profile matcher as its instance, and
    the meaning of a rule evaluated with it. *)
From S2P Require Import Prelude JsString Unicode JsValue RepositoryPath ActivationAlgebra ActivationLaws GlobDialects ProfileGlob GlobLaws.

(** ** The interface *)

Definition activation_request (request : GlobRequest) : ActivationRequest :=
  GlobActivationRequest (g_ruleId request) (g_profileId request) (g_surfaceId request)
    (g_scopeRoot request) (g_targetPath request) (g_pattern request) (g_dialectId request).

(** The texts of a request, in the order they are counted. *)
Definition request_texts (request : GlobRequest) : list jstring :=
  [g_ruleId request; g_profileId request; g_surfaceId request; g_scopeRoot request;
   g_targetPath request; g_pattern request] ++ match g_dialectId request with Some d => [d] | None => [] end.

(** What a client must ensure before it asks. *)
Record admissible_request (request : GlobRequest) : Prop := {
  adm_texts : Forall (fun s => s <> []) (request_texts request);
  adm_bytes : (sumN textBytes (request_texts request) <= maxRequestTextBytes)%N;
  adm_pattern : (textBytes (g_pattern request) <= maxPatternBytes)%N;
  adm_target : (textBytes (g_targetPath request) <= maxTargetBytes)%N;
  adm_paths : isRepositoryRelativePath (g_targetPath request) = true /\
              isRepositoryRelativePath (g_scopeRoot request) = true
}.

(** A matcher that answers every admissible request with the decision
    [decide_request] promises, in a form the algebra accepts. *)
Class GlobMatcher (matcher : callback_fn) (decide_request : GlobRequest -> ActivationFactDecision)
    : Prop := {
  matcher_answers : forall request, admissible_request request ->
    matcher (activation_request request) = Returned (decision_value (decide_request request));
  matcher_reason : forall request, admissible_request request ->
    text_ok (reason (decide_request request))
}.

Lemma normalizeDecision_value d :
  text_ok (reason d) -> normalizeDecision (decision_value d) = Ok d.
Proof.
  intros (Hn & Hw & Hb). unfold normalizeDecision, decision_value, closedRecord. cbn [isDataRecord].
  change (hasExactKeys [(#"state", JStr (state_name (decision_state d)));
                                   (#"reason", JStr (reason d))] [ #"state"; #"reason"]) with (true).
  cbn [mbind res_mbind].
  change (dataProperty _ #"state") with (JStr (F := unit) (state_name (decision_state d))).
  unfold state_of_value. rewrite state_of_name_name. cbn [mbind res_mbind].
  change (dataProperty _ #"reason") with (JStr (F := unit) (reason d)).
  rewrite (proj2 (assertText_Ok (JStr (reason d)) invalidCallback (reason d))).
  - by destruct d.
  - by split.
Qed.

Lemma invoke_matcher `{GlobMatcher matcher decide_request} request missing :
  admissible_request request ->
  invokeCallback (Some matcher) (activation_request request) missing = Ok (decide_request request).
Proof.
  intros Hadm. unfold invokeCallback. rewrite matcher_answers by done.
  by apply normalizeDecision_value, matcher_reason.
Qed.

(** The request the algebra makes for a glob selector of a rule. *)
Definition selector_request (rule : ActivationRule) (targetPath pattern : jstring)
    (dialectId : option jstring) : GlobRequest :=
  {| g_ruleId := id rule; g_profileId := profileId rule; g_surfaceId := surfaceId rule;
     g_scopeRoot := scopeRoot rule; g_targetPath := targetPath; g_pattern := pattern;
     g_dialectId := dialectId |}.

Definition admissible_selector (rule : ActivationRule) (targetPath : jstring) (s : selector) : Prop :=
  match s with
  | DirectorySelector _ => True
  | GlobSelector pattern dialectId =>
      admissible_request (selector_request rule targetPath pattern dialectId)
  end.

(** What a selector says when the matcher decides its globs. *)
Definition matcher_selector (decide_request : GlobRequest -> ActivationFactDecision)
    (rule : ActivationRule) (targetPath : jstring) (s : selector) : ActivationState :=
  match s with
  | DirectorySelector path => inside_state (isWithinDirectory targetPath path)
  | GlobSelector pattern dialectId =>
      decision_state (decide_request (selector_request rule targetPath pattern dialectId))
  end.

Lemma selector_decision_matcher `{GlobMatcher matcher decide_request} rule targetPath callbacks s :
  matchGlob callbacks = Some matcher -> admissible_selector rule targetPath s ->
  selector_decision rule targetPath callbacks s =
  Ok (matcher_selector decide_request rule targetPath s).
Proof.
  intros Hm Ha. destruct s as [path|pattern dialectId]; [done|].
  cbn [selector_decision]. rewrite Hm.
  change (GlobActivationRequest _ _ _ _ _ _ _)
    with (activation_request (selector_request rule targetPath pattern dialectId)).
  by rewrite invoke_matcher.
Qed.

(** ** The closed profile matcher implements the interface *)

Lemma request_value_fields request :
  isDataRecord (request_value (activation_request request)) =
  Some [(#"ruleId", JStr (g_ruleId request)); (#"profileId", JStr (g_profileId request));
        (#"surfaceId", JStr (g_surfaceId request)); (#"scopeRoot", JStr (g_scopeRoot request));
        (#"targetPath", JStr (g_targetPath request)); (#"pattern", JStr (g_pattern request));
        (#"dialectId", nullable_value (g_dialectId request))].
Proof. done. Qed.

Lemma requestText_JStr (fields : list (jstring * jsval unit)) k s bytes :
  dataProperty fields k = JStr s -> s <> [] ->
  requestText fields bytes k = Ok (bytes + textBytes s)%N.
Proof. unfold requestText. intros -> ?%jeqb_neq. by rewrite H. Qed.

Lemma validateRequest_admissible request :
  admissible_request request ->
  validateRequest (request_value (activation_request request)) = Ok request.
Proof.
  intros [Ht Hb Hp Hg [Hpt Hps]]. unfold validateRequest. rewrite request_value_fields.
  set (fields := [_; _; _; _; _; _; _]).
  destruct request as [r p s root target pattern dialectId].
  unfold request_texts in *.
  cbn [g_ruleId g_profileId g_surfaceId g_scopeRoot g_targetPath g_pattern g_dialectId] in *.
  change (same_keys (keys_of fields) REQUEST_KEYS) with (true). cbn [ensure mbind res_mbind].
  apply Forall_app in Ht as [Ht Hd]. rewrite !Forall_cons in Ht. destruct Ht as (? & ? & ? & ? & ? & ? & _).
  assert (foldM (requestText fields) 0%N REQUEST_KEYS =
          Ok (sumN textBytes ([r; p; s; root; target; pattern] ++ match dialectId with Some d => [d] | None => [] end))) as ->.
  { unfold REQUEST_KEYS. cbn [foldM].
    do 6 (match goal with |- context [requestText fields ?b ?k] =>
      rewrite (requestText_JStr fields k _ b eq_refl) by done; cbn [mbind res_mbind] end).
    destruct dialectId as [d|].
    - assert (d <> []) by (by inversion Hd). rewrite (requestText_JStr fields #"dialectId" d _ eq_refl) by done.
      cbn [mbind res_mbind]. f_equal. unfold sumN. cbn. lia.
    - unfold requestText. change (dataProperty fields #"dialectId") with (JNull (F := unit)).
      rewrite jeqb_refl. cbn. f_equal. unfold sumN. cbn. lia. }
  cbn [mbind res_mbind].
  rewrite (proj2 (N.leb_le _ maxRequestTextBytes)) by exact Hb. cbn [ensure].
  change (text_of (dataProperty fields #"pattern")) with (pattern).
  change (text_of (dataProperty fields #"targetPath")) with (target).
  change (text_of (dataProperty fields #"scopeRoot")) with (root).
  rewrite (proj2 (N.leb_le (textBytes pattern) maxPatternBytes)) by exact Hp.
  rewrite (proj2 (N.leb_le (textBytes target) maxTargetBytes)) by exact Hg.
  rewrite Hpt, Hps. cbn [ensure andb mbind res_mbind]. f_equal. f_equal.
  change (dataProperty fields #"dialectId") with (nullable_value (F := unit) dialectId). by destruct dialectId.
Qed.

Lemma dialect_in_catalog dialectId dialect :
  profileGlobDialect dialectId = Some dialect -> In dialect PROFILE_GLOB_DIALECTS.
Proof. intros H. by apply find_some in H as [? _]. Qed.

(** Every sentence about a dialect of the catalog is an admissible reason. *)
Definition reason_ok (why : jstring) : bool :=
  negb (jeqb why []) && hasWellFormedUnicode why && (textBytes why <=? maxTextBytes)%N.

Lemma reason_ok_text why : reason_ok why = true -> text_ok why.
Proof.
  unfold reason_ok. intros H. bool_prop. split; [|split; [done|done]].
  by apply jeqb_neq.
Qed.

Definition dialect_reasons (dialect : ProfileGlobDialect) : list jstring :=
  map reason
    [ unsupportedDecision dialect;
      decision inactive (#"Dialect " ++ d_id dialect ++ #" did not match the target.");
      decision active
        (#"Dialect " ++ d_id dialect ++ #" matched the target under its documented subset.");
      decision inactive
        (#"Dialect " ++ d_id dialect
         ++ #" defines over-budget brace expansion as a literal non-match.");
      decision inactive
        (#"Target is outside the scope-root base owned by dialect " ++ d_id dialect ++ #".");
      decision indeterminate
        (#"Dialect " ++ d_id dialect
         ++ #" is not owned by the requested profile surface; activation remains indeterminate.") ].

Lemma catalog_reasons_ok dialect why :
  In dialect PROFILE_GLOB_DIALECTS -> In why (dialect_reasons dialect) -> text_ok why.
Proof.
  intros Hd Hw. apply reason_ok_text. revert why Hw. apply forallb_forall.
  revert dialect Hd. apply forallb_forall. vm_compute. reflexivity.
Qed.

Lemma matchPatterns_reason dialect path patterns seen work :
  In (reason (matchPatterns dialect path patterns seen work)) (dialect_reasons dialect).
Proof.
  revert seen work. induction patterns as [|p patterns IH]; intros seen work; cbn [matchPatterns].
  { destruct seen; cbn; tauto. }
  destruct (matchDocumentedSubset p path dialect work) as [r w].
  destruct r; [cbn; tauto| |]; (destruct (exhausted w); [cbn; tauto|apply IH]).
Qed.

Lemma matchOwned_reason dialect request :
  In (reason (matchOwned dialect request)) (dialect_reasons dialect).
Proof.
  assert (In (reason (unsupportedDecision dialect)) (dialect_reasons dialect)) as Hu by (cbn; tauto).
  unfold matchOwned. destruct (d_patternBase dialect); [| |done].
  all: destruct (relativeTarget dialect request) as [inside path];
    destruct inside; [|cbn; tauto];
    destruct (braceExpansion (g_pattern request) dialect) as [[patterns|[]]|]; try done;
    [apply matchPatterns_reason|destruct (d_braceLimitResult dialect); [cbn; tauto|done]].
Qed.

Lemma decideRequest_reason request : text_ok (reason (decideRequest request)).
Proof.
  unfold decideRequest. destruct (_ || _); [by apply reason_ok_text|].
  destruct (g_dialectId request) as [dialectId|]; [|by apply reason_ok_text].
  destruct (profileGlobDialect dialectId) as [dialect|] eqn:E; [|by apply reason_ok_text].
  apply dialect_in_catalog in E.
  apply (catalog_reasons_ok dialect); [done|].
  destruct (dialectOwns dialect request); [apply matchOwned_reason|cbn; tauto].
Qed.

#[export] Instance profileGlob_matcher : GlobMatcher profileGlobCallback decideRequest.
Proof.
  split.
  - intros request Hadm. unfold profileGlobCallback, matchProfileGlob.
    by rewrite validateRequest_admissible.
  - intros request _. apply decideRequest_reason.
Qed.

(** ** Properties *)

(** C9.  A glob rule evaluated with the closed matcher's callbacks: its state
    is scope and includes and not excludes in strong Kleene logic, where every
    glob selector contributes the decision of the profile dialect that owns
    it, and each such decision means what the dialect documents. *)
Theorem profile_rule_semantics `{Sha256} (rule : ActivationRule) (targetPath : jstring)
  (r : ActivationResult)
  (Hkind : rule_kind rule = ak_glob)
  (Hdistinct : forall s t, s ∈ include rule ++ exclude rule -> t ∈ include rule ++ exclude rule ->
     selectorKey s = selectorKey t -> s = t)
  (Hadm : Forall (admissible_selector rule targetPath) (include rule ++ exclude rule))
  (Hr : evaluateRule rule targetPath createProfileGlobActivationCallbacks = Ok r) :
  let decides := matcher_selector decideRequest rule targetPath in
  state r =
    kleene_and
      (kleene_and (scope_decision rule targetPath)
         (match include rule with
          | [] => active
          | inc => foldr kleene_or inactive (decides <$> inc)
          end))
      (complement_state (foldr kleene_or inactive (decides <$> exclude rule))) /\
  (forall pattern dialectId,
     decision_means (selector_request rule targetPath pattern dialectId)
       (decides (GlobSelector pattern dialectId))).
Proof.
  cbv zeta. split; [|intros; apply decideRequest_means].
  assert (forall s, s ∈ include rule ++ exclude rule ->
    selector_decision rule targetPath createProfileGlobActivationCallbacks s =
    Ok (matcher_selector decideRequest rule targetPath s)) as Hdec.
  { intros s Hs. rewrite Forall_forall in Hadm.
    apply (selector_decision_matcher (matcher := profileGlobCallback)); [done|by apply Hadm]. }
  assert (trigger_decision rule targetPath createProfileGlobActivationCallbacks = Ok active) as Htr
    by (unfold trigger_decision; by rewrite Hkind).
  rewrite (evaluateRule_meaning rule targetPath createProfileGlobActivationCallbacks Hdistinct
            (matcher_selector decideRequest rule targetPath) Hdec r active Htr Hr).
  unfold rule_meaning, include_decision, exclude_decision.
  by destruct (scope_decision rule targetPath), (include rule).
Qed.

Definition docs_rule : ActivationRule :=
  {| id := #"r"; documentId := #"d"; profileId := #"claude-code";
     surfaceId := #"claude-code/local-session"; specSnapshotId := #"q";
     rule_kind := ak_glob; scopeRoot := #".";
     include := [GlobSelector #"docs/**/*.md" (Some #"claude-code/project-rule-paths/2026-08-01")];
     exclude := [DirectorySelector #"docs/old"]; conditions := []; unknownReason := None |}.

Lemma profile_rule_semantics_witness :
  exists r, @evaluateRule toy_sha256 docs_rule #"docs/guide/a.md"
              createProfileGlobActivationCallbacks = Ok r /\ state r = active.
Proof.
  eexists. split; [vm_compute; reflexivity|].
  refine (eq_trans (proj1 (@profile_rule_semantics toy_sha256 docs_rule #"docs/guide/a.md" _ _ _ _ _)) _).
  - reflexivity.
  - intros s t [->|[->|[]%not_elem_of_nil]%elem_of_cons]%elem_of_cons
               [->|[->|[]%not_elem_of_nil]%elem_of_cons]%elem_of_cons Hk;
      [reflexivity|vm_compute in Hk; discriminate Hk|vm_compute in Hk; discriminate Hk|reflexivity].
  - apply Forall_cons; split; [|by apply Forall_singleton].
    split; [|vm_compute; discriminate|vm_compute; discriminate|vm_compute; discriminate|by split].
    rewrite Forall_forall. intros s Hs ->.
    repeat (apply elem_of_cons in Hs as [Hs|Hs]; [discriminate Hs|]). by apply not_elem_of_nil in Hs.
  - vm_compute; reflexivity.
  - vm_compute; reflexivity.
Defined.
