(* ===== verification/BoundedOutput.v ===== *)
(** Bounded CLI output (packages/cli/src/bounded-output.ts): a document is cut
    into chunks that the router accepts, before the first write. *)
From S2P Require Import Prelude JsString Unicode.

Definition maximumOutputBytes : N := 67108864.
Definition maximumOutputChunkBytes : N := 1048576.

Inductive output_error := unpairedSurrogate | aggregateLimit.

Definition scalarByteLength (codePoint : N) : N :=
  if (codePoint <=? 0x7f)%N then 1
  else if (codePoint <=? 0x7ff)%N then 2
  else if (codePoint <=? 0xffff)%N then 3
  else 4.

Record scan_state := {
  boundaries : list nat;
  chunkBytes : N;
  totalBytes : N;
  index : nat
}.

(** What the loop does with one code point of [width] units. *)
Definition takeScalar (st : scan_state) (codePoint : N) (width : nat) : res output_error scan_state :=
  let bytes := scalarByteLength codePoint in
  let full := (maximumOutputChunkBytes <? chunkBytes st + bytes)%N in
  let boundaries' := if full then boundaries st ++ [index st] else boundaries st in
  let chunkBytes' := ((if full then 0 else chunkBytes st) + bytes)%N in
  let totalBytes' := (totalBytes st + bytes)%N in
  _ ← ensure (totalBytes' <=? maximumOutputBytes)%N aggregateLimit;
  Ok {| boundaries := boundaries'; chunkBytes := chunkBytes'; totalBytes := totalBytes';
        index := index st + width |}.

(** The loop, over the units that remain. *)
Fixpoint scan (units : jstring) (st : scan_state) : res output_error scan_state :=
  match units with
  | [] => Ok st
  | first :: rest =>
      if is_high first then
        match rest with
        | second :: rest' =>
            if is_low second then
              st' ← takeScalar st (0x10000 + N.shiftl (first - 0xd800) 10 + second - 0xdc00)%N 2;
              scan rest' st'
            else Err unpairedSurrogate
        | [] => Err unpairedSurrogate
        end
      else if is_low first then Err unpairedSurrogate
      else st' ← takeScalar st first 1; scan rest st'
  end.

(** [text.slice(start, end)] *)
Definition slice (text : jstring) (start stop : nat) : jstring := take (stop - start) (drop start text).

(** The second loop: consecutive boundaries, the empty slices skipped. *)
Fixpoint slices (text : jstring) (bounds : list nat) : list jstring :=
  match bounds with
  | start :: (stop :: _) as rest =>
      if (start =? stop)%nat then slices text rest else slice text start stop :: slices text rest
  | _ => []
  end.

Definition outputChunks (text : jstring) : res output_error (list jstring) :=
  st ← scan text {| boundaries := [0]; chunkBytes := 0; totalBytes := 0; index := 0 |};
  Ok (slices text (boundaries st ++ [length text])).

(** The writes are awaited one after the other; the first failure stops them. *)
Inductive write_outcome (E W : Type) := Preflight (e : output_error) | Written (r : res E W).
Arguments Preflight {E W} e.
Arguments Written {E W} r.

Definition writeBoundedOutput {E W} (text : jstring) (write : W -> jstring -> res E W) (sink : W)
    : write_outcome E W :=
  match outputChunks text with
  | Err e => Preflight e
  | Ok chunks => Written (foldM write sink chunks)
  end.

(** ** Lemmas *)

(** The start of every chunk, and of the text after them. *)
Fixpoint offsets (from : nat) (chunks : list jstring) : list nat :=
  match chunks with
  | [] => [from]
  | c :: r => from :: offsets (from + length c) r
  end.

Lemma offsets_snoc from chunks c :
  offsets from (chunks ++ [c]) =
  offsets from chunks ++ [from + length (mjoin chunks) + length c].
Proof.
  revert from. induction chunks as [|d chunks IH]; intros from; cbn [app offsets].
  - cbn. by rewrite Nat.add_0_r.
  - rewrite IH, mjoin_cons, length_app. cbn [app]. do 3 f_equal. lia.
Qed.

Lemma slice_prefix (pre c post : jstring) :
  slice (pre ++ c ++ post) (length pre) (length pre + length c) = c.
Proof.
  unfold slice. rewrite drop_app_length. replace (_ + _ - _) with (length c) by lia.
  apply take_app_length.
Qed.

Lemma slices_offsets pre chunks open :
  Forall (fun c => c <> []) chunks ->
  slices (pre ++ mjoin chunks ++ open)
    (offsets (length pre) chunks ++ [length (pre ++ mjoin chunks ++ open)]) =
  chunks ++ (if decide (open = []) then [] else [open]).
Proof.
  intros H. revert pre. induction H as [|c chunks Hc H IH]; intros pre.
  - cbn [offsets app mjoin list_join]. cbn [slices]. rewrite length_app.
    change (length (mjoin [] ++ open)) with (length open).
    destruct (decide (open = [])) as [->|Hn].
    + rewrite Nat.add_0_r, Nat.eqb_refl. done.
    + assert (length open <> 0) by (by destruct open).
      rewrite (proj2 (Nat.eqb_neq _ _)) by lia. f_equal.
      pose proof (slice_prefix pre open []) as E. by rewrite app_nil_r in E.
  - rewrite mjoin_cons, <- app_assoc. cbn [offsets].
    specialize (IH (pre ++ c)). rewrite length_app, <- app_assoc in IH.
    set (bounds := offsets (length pre + length c) chunks ++ [length (pre ++ c ++ mjoin chunks ++ open)]) in *.
    assert (exists more, bounds = (length pre + length c) :: more) as [more Hb].
    { unfold bounds. destruct chunks; cbn [offsets app]; eauto. }
    cbn [app]. fold bounds. rewrite Hb in IH |- *. cbn [slices]. cbn [slices] in IH.
    assert (length c <> 0) by (by destruct c).
    rewrite (proj2 (Nat.eqb_neq _ _)) by lia. rewrite slice_prefix. f_equal. exact IH.
Qed.

(** What the loop knows after the units [done_]. *)
Definition scanned (done_ : jstring) (st : scan_state) : Prop :=
  exists chunks open,
    done_ = mjoin chunks ++ open /\ boundaries st = offsets 0 chunks /\
    index st = length done_ /\ chunkBytes st = textBytes open /\ totalBytes st = textBytes done_ /\
    Forall (fun c => c <> [] /\ wf_text c /\ (textBytes c <= maximumOutputChunkBytes)%N) chunks /\
    wf_text open /\ (textBytes open <= maximumOutputChunkBytes)%N.

Lemma scalarByteLength_utf8 c : scalarByteLength c = N.of_nat (length (utf8_cp c)).
Proof.
  unfold scalarByteLength, utf8_cp.
  repeat match goal with |- context [(?a <=? ?b)%N] => destruct (N.leb_spec a b)
         | |- context [(?a <? ?b)%N] => destruct (N.ltb_spec a b) end; cbn; lia.
Qed.

Lemma takeScalar_ok done_ st s codePoint st' :
  scanned done_ st -> wf_text s -> s <> [] -> textBytes s = scalarByteLength codePoint ->
  wf_text done_ ->
  takeScalar st codePoint (length s) = Ok st' -> scanned (done_ ++ s) st'.
Proof.
  intros (chunks & open & -> & Hb & Hi & Hc & Ht & Hcs & Ho & Hom) Hs Hne Hbytes Hd Hst.
  unfold takeScalar in Hst. apply bind_ensure in Hst as [_ [= <-]]. rewrite <- Hbytes.
  assert (textBytes s <= 4)%N as H4.
  { rewrite Hbytes. unfold scalarByteLength. repeat case_match; lia. }
  destruct (maximumOutputChunkBytes <? chunkBytes st + textBytes s)%N eqn:Efull.
  - apply N.ltb_lt in Efull. exists (chunks ++ [open]), s. cbn [boundaries index chunkBytes totalBytes].
    assert (open <> []) as Hopen.
    { intros ->. rewrite Hc in Efull. change (textBytes []) with 0%N in Efull.
      unfold maximumOutputChunkBytes in *. lia. }
    split; [by rewrite join_app, mjoin_cons; cbn; rewrite app_nil_r|].
    split; [rewrite offsets_snoc, Hb, Hi, length_app; done|].
    split; [rewrite Hi, !length_app; lia|]. split; [by rewrite N.add_0_l|].
    split; [by rewrite Ht, (textBytes_app _ s) by done|].
    split; [apply Forall_app; split; [done|by apply Forall_singleton]|].
    split; [done|]. unfold maximumOutputChunkBytes. lia.
  - apply N.ltb_ge in Efull. exists chunks, (open ++ s). cbn [boundaries index chunkBytes totalBytes].
    split; [by rewrite app_assoc|]. split; [done|]. split; [rewrite Hi, !length_app; lia|].
    split; [by rewrite Hc, (textBytes_app _ s) by done|]. split; [by rewrite Ht, (textBytes_app _ s) by done|].
    split; [done|]. split; [unfold wf_text; by rewrite wf_app|]. rewrite textBytes_app by done. lia.
Qed.

Lemma textBytes_pair u v :
  is_high u = true -> is_low v = true ->
  textBytes [u; v] = scalarByteLength (0x10000 + N.shiftl (u - 0xd800) 10 + v - 0xdc00).
Proof.
  intros Hu Hv. rewrite scalarByteLength_utf8. unfold textBytes, utf8, code_points. rewrite Hu, Hv.
  cbn [fmap list_fmap]. rewrite mjoin_cons. cbn [mjoin list_join]. rewrite app_nil_r.
  do 3 f_equal. unfold pair_cp. rewrite N.shiftl_mul_pow2. change (2 ^ 10)%N with 1024%N.
  unfold is_low in Hv. bool_prop. lia.
Qed.

Lemma textBytes_single u :
  is_high u = false -> is_low u = false -> textBytes [u] = scalarByteLength u.
Proof.
  intros Hu Hv. rewrite scalarByteLength_utf8. unfold textBytes, utf8, code_points. rewrite Hu, Hv.
  cbn [fmap list_fmap]. rewrite mjoin_cons. cbn [mjoin list_join]. by rewrite app_nil_r.
Qed.

(** The loop preserves the invariant; it fails on ill-formed text and on a
    text above the aggregate limit, and on nothing else. *)
Lemma scan_ok units done_ st :
  scanned done_ st -> wf_text done_ ->
  match scan units st with
  | Ok st' => scanned (done_ ++ units) st' /\ wf_text (done_ ++ units) /\
              (textBytes (done_ ++ units) <= maximumOutputBytes \/ units = [])%N
  | Err unpairedSurrogate => ~ wf_text units
  | Err aggregateLimit => wf_text units -> (maximumOutputBytes < textBytes (done_ ++ units))%N
  end.
Proof.
  revert done_ st.
  assert (forall s rest codePoint done_ st, wf_text s -> s <> [] ->
    textBytes s = scalarByteLength codePoint -> scanned done_ st -> wf_text done_ ->
    (forall done_ st, scanned done_ st -> wf_text done_ ->
      match scan rest st with
      | Ok st' => scanned (done_ ++ rest) st' /\ wf_text (done_ ++ rest) /\
                  (textBytes (done_ ++ rest) <= maximumOutputBytes \/ rest = [])%N
      | Err unpairedSurrogate => ~ wf_text rest
      | Err aggregateLimit => wf_text rest -> (maximumOutputBytes < textBytes (done_ ++ rest))%N
      end) ->
    match takeScalar st codePoint (length s) ≫= (fun st' => scan rest st') with
    | Ok st' => scanned (done_ ++ s ++ rest) st' /\ wf_text (done_ ++ s ++ rest) /\
                (textBytes (done_ ++ s ++ rest) <= maximumOutputBytes)%N
    | Err unpairedSurrogate => ~ wf_text rest
    | Err aggregateLimit => wf_text rest -> (maximumOutputBytes < textBytes (done_ ++ s ++ rest))%N
    end) as Hstep.
  { intros s rest codePoint done_ st Hs Hne Hb Hsc Hd IH.
    assert (wf_text (done_ ++ s)) as Hds by (unfold wf_text; by rewrite wf_app).
    destruct (takeScalar st codePoint (length s)) as [st1|e] eqn:E.
    - specialize (IH (done_ ++ s) st1). rewrite <- app_assoc in IH. cbn [mbind res_mbind].
      assert (textBytes (done_ ++ s) <= maximumOutputBytes)%N as Hle.
      { pose proof E as E'. unfold takeScalar in E'. apply bind_ensure in E' as [E' _].
        apply N.leb_le in E'. destruct Hsc as (? & ? & _ & _ & _ & _ & Ht & _).
        rewrite textBytes_app by done. lia. }
      specialize (IH ltac:(by eapply takeScalar_ok) Hds).
      destruct (scan rest st1) as [st2|[]]; [|done|done].
      destruct IH as (H1 & H2 & [H3| ->]); [done|]. by rewrite app_nil_r in *.
    - unfold takeScalar in E. apply bind_Err in E as [[E <-]%ensure_Err|(? & _ & ?)]; [|done].
      apply N.leb_gt in E. cbn [mbind res_mbind]. intros Hr. rewrite app_assoc, textBytes_app by done.
      destruct Hsc as (? & ? & _ & _ & _ & _ & Ht & _). rewrite textBytes_app by done. lia. }
  induction units as [|u|u v r IH1 IH2] using jstring_ind2; intros done_ st Hsc Hd.
  - cbn. rewrite app_nil_r. auto.
  - cbn [scan]. destruct (is_high u) eqn:Eh; [unfold wf_text; cbn; by rewrite Eh|].
    destruct (is_low u) eqn:El; [unfold wf_text; cbn; by rewrite Eh, El|].
    assert (wf_text [u]) as Hu by (unfold wf_text; cbn; by rewrite Eh, El).
    pose proof (Hstep [u] [] u done_ st Hu ltac:(done) (textBytes_single u Eh El) Hsc Hd) as H.
    cbn [app length] in H. cbn [scan] in H |- *.
    specialize (H ltac:(intros; cbn; rewrite app_nil_r; auto)).
    destruct (takeScalar st u 1 ≫= _) as [st'|[]]; [|by destruct H|by intros _; apply H].
    destruct H as (? & ? & ?). split; [done|]. split; [done|by left].
  - cbn [scan]. destruct (is_high u) eqn:Eh.
    + destruct (is_low v) eqn:El; [|unfold wf_text; rewrite wf_cons2, Eh, El; done].
      assert (wf_text [u; v]) as Hu by (unfold wf_text; by rewrite wf_cons2, Eh, El).
      pose proof (Hstep [u; v] r _ done_ st Hu ltac:(done) (textBytes_pair u v Eh El) Hsc Hd (IH1)) as H.
      cbn [app length] in H. destruct (takeScalar st _ 2 ≫= _) as [st'|[]].
      * destruct H as (? & ? & ?). split; [done|]. split; [done|by left].
      * unfold wf_text in *. by rewrite wf_cons2, Eh, El.
      * unfold wf_text in *. by rewrite wf_cons2, Eh, El.
    + destruct (is_low u) eqn:El; [unfold wf_text; rewrite wf_cons2, Eh, El; done|].
      assert (wf_text [u]) as Hu by (unfold wf_text; cbn; by rewrite Eh, El).
      pose proof (Hstep [u] (v :: r) u done_ st Hu ltac:(done) (textBytes_single u Eh El) Hsc Hd (IH2)) as H.
      cbn [app length] in H. destruct (takeScalar st u 1 ≫= _) as [st'|[]].
      * destruct H as (? & ? & ?). split; [done|]. split; [done|by left].
      * unfold wf_text in *. by rewrite wf_cons2, Eh, El.
      * unfold wf_text in *. by rewrite wf_cons2, Eh, El.
Qed.

Lemma scanned_start : scanned [] {| boundaries := [0]; chunkBytes := 0; totalBytes := 0; index := 0 |}.
Proof.
  exists [], []. split; [done|]. split; [done|]. split; [done|]. split; [done|]. split; [done|].
  split; [constructor|]. split; [done|]. unfold maximumOutputChunkBytes. change (textBytes []) with 0%N. lia.
Qed.

Lemma outputChunks_ok text :
  match outputChunks text with
  | Ok chunks =>
      mjoin chunks = text /\ wf_text text /\ (textBytes text <= maximumOutputBytes)%N /\
      Forall (fun c => c <> [] /\ wf_text c /\ (textBytes c <= maximumOutputChunkBytes)%N) chunks
  | Err unpairedSurrogate => ~ wf_text text
  | Err aggregateLimit => wf_text text -> (maximumOutputBytes < textBytes text)%N
  end.
Proof.
  unfold outputChunks. pose proof (scan_ok text [] _ scanned_start eq_refl) as H. cbn [app] in H.
  destruct (scan text _) as [st|[]]; cbn [mbind res_mbind]; [|done|done].
  destruct H as ((chunks & open & -> & Hb & _ & _ & _ & Hcs & Ho & Hom) & Hw & Hm).
  assert (Forall (fun c => c <> []) chunks) as Hne.
  { apply Forall_forall. intros c Hc. rewrite Forall_forall in Hcs. by apply Hcs. }
  pose proof (slices_offsets [] chunks open Hne) as Hsl. cbn [app length] in Hsl.
  rewrite Hb, Hsl. split; [|split; [done|split]].
  - destruct (decide (open = [])) as [->|]; [by rewrite !app_nil_r|].
    rewrite join_app, mjoin_cons. cbn. by rewrite app_nil_r.
  - destruct Hm as [Hm| ->]; [done|]. change (textBytes []) with 0%N. unfold maximumOutputBytes. lia.
  - apply Forall_app. split; [done|]. destruct (decide (open = [])); [constructor|].
    by apply Forall_singleton.
Qed.

(** ** Properties *)

(** C39.  The document is written completely or not at all: on well-formed text
    of at most 64 MiB the chunks concatenate to the text, and each is
    non-empty, well formed (no surrogate pair is ever split) and at most
    1 MiB; on any other text nothing is written. *)
Theorem outputChunks_spec (text : jstring) :
  (wf_text text /\ (textBytes text <= maximumOutputBytes)%N <-> is_ok (outputChunks text) = true) /\
  (forall chunks, outputChunks text = Ok chunks ->
     mjoin chunks = text /\
     Forall (fun c => c <> [] /\ wf_text c /\ (textBytes c <= maximumOutputChunkBytes)%N) chunks).
Proof.
  pose proof (outputChunks_ok text) as H. split.
  - destruct (outputChunks text) as [chunks|[]]; cbn; split; try done.
    + tauto.
    + intros [Hw _]. by destruct H.
    + intros [Hw Hm]. apply H in Hw. lia.
  - intros chunks E. rewrite E in H. tauto.
Qed.

(**  With a sink that appends, the sink ends up with exactly the text, and
    a sink that fails has received a prefix of it. *)
Theorem writeBoundedOutput_appends {E} (accepts : jstring -> jstring -> res E unit) (text : jstring)
  (r : res E jstring)
  (Hr : writeBoundedOutput text (fun sink chunk => _ ← accepts sink chunk; Ok (sink ++ chunk)) []
        = Written r) :
  match r with
  | Ok sink => sink = text
  | Err e => exists sink chunk post, text = sink ++ chunk ++ post /\ accepts sink chunk = Err e
  end.
Proof.
  unfold writeBoundedOutput in Hr. pose proof (outputChunks_ok text) as H.
  destruct (outputChunks text) as [chunks|e]; [|done]. injection Hr as Hr. destruct H as [<- _].
  enough (forall sink, match foldM (fun s c => _ ← accepts s c; Ok (s ++ c)) sink chunks with
     | Ok s => s = sink ++ mjoin chunks
     | Err e => exists s c post, sink ++ mjoin chunks = s ++ c ++ post /\ accepts s c = Err e
     end) as Hgen by (specialize (Hgen []); by rewrite Hr in Hgen).
  clear Hr. induction chunks as [|c chunks IH]; intros sink; cbn [foldM].
  - cbn. by rewrite app_nil_r.
  - rewrite mjoin_cons. destruct (accepts sink c) as [[]|e] eqn:Ea; cbn [mbind res_mbind].
    + specialize (IH (sink ++ c)). by rewrite <- app_assoc in IH.
    + exists sink, c, (mjoin chunks). by rewrite app_assoc.
Qed.

Lemma writeBoundedOutput_appends_witness :
  writeBoundedOutput #"report" (fun sink chunk => _ ← (Ok tt : res unit unit); Ok (sink ++ chunk)) []
    = Written (Ok #"report") /\ #"report" = #"report".
Proof.
  split; [reflexivity|].
  apply (writeBoundedOutput_appends (fun _ _ => (Ok tt : res unit unit)) #"report" (Ok #"report")).
  reflexivity.
Defined.
