(* ===== verification/ObjectGraph.v ===== *)
(** JavaScript values as a graph of objects: a value is a primitive, a
    reference into the heap, or the frozen plain data a module built itself.
    Used where object identity, cycles and property attributes matter. *)
From S2P Require Import Prelude JsString OrderedMap Unicode.

Definition loc := N.

(** A number is an integer whose numeral is decimal, any other finite number
    (given by its [Number::toString] text), or one of the special values. *)
Inductive number :=
| NaN
| Infinite (negative : bool)
| NegativeZero
| Integer (n : Z)
| Fraction (text : jstring).

Inductive value :=
| VUndefined
| VNull
| VBool (b : bool)
| VNumber (x : number)
| VString (s : jstring)
| VFunction
| VOther (** a symbol or a bigint *)
| VRef (l : loc)
| VArray (items : list value) (** a frozen dense array *)
| VRecord (fields : list (jstring * value)). (** a frozen plain record *)

(** A property descriptor; [prop_key] is [None] for a symbol, [prop_value] is
    [None] for an accessor. *)
Record property := {
  prop_key : option jstring; prop_enumerable : bool; prop_value : option value
}.

(** [BytesPrototype] is [Uint8Array.prototype] or [Buffer.prototype]. *)
Inductive prototype := ObjectPrototype | NullPrototype | ArrayPrototype | BytesPrototype | OtherPrototype.

(** Bytes behind a typed array; [view_attached] is false when its buffer is
    detached, [view_uint8] when its elements are not [Uint8]s, [view_shared] when
    its buffer is not a [SharedArrayBuffer]. *)
Record byte_view := {
  view_attached : bool; view_uint8 : bool; view_shared : bool; view_byteLength : N; view_byteOffset : N; view_bufferByteLength : N;
  view_bytes : list N
}.

Inductive internal_slots :=
| NoSlots
| ArraySlots (length : N)
| ByteSlots (bytes : byte_view)
| SignalSlots.

(** [obj_own] are the own properties in [Reflect.ownKeys] order, without the
    [length] of an array. *)
Record object := {
  obj_proxy : bool; obj_prototype : prototype; obj_slots : internal_slots; obj_own : list property
}.

Definition heap := loc -> option object.

Definition data_property (key : jstring) (v : value) : property :=
  {| prop_key := Some key; prop_enumerable := true; prop_value := Some v |}.

Definition record_object (fields : list (jstring * value)) : object :=
  {| obj_proxy := false; obj_prototype := ObjectPrototype; obj_slots := NoSlots;
     obj_own := map (fun f => data_property f.1 f.2) fields |}.

Definition array_object (items : list value) : object :=
  {| obj_proxy := false; obj_prototype := ArrayPrototype;
     obj_slots := ArraySlots (N.of_nat (length items));
     obj_own := imap (fun i v => data_property (String_of_N (N.of_nat i)) v) items |}.

(** The object a value is, when [typeof v === "object"] and [v !== null]. *)
Definition object_of (h : heap) (v : value) : option object :=
  match v with
  | VRef l => h l
  | VArray items => Some (array_object items)
  | VRecord fields => Some (record_object fields)
  | _ => None
  end.

(** [Reflect.getOwnPropertyDescriptor(object, key)] *)
Definition descriptor (own : list property) (key : jstring) : option property :=
  find (fun p => bool_decide (prop_key p = Some key)) own.

(** The value of an enumerable data property. *)
Definition enumerable_data (p : option property) : option value :=
  match p with
  | Some {| prop_enumerable := true; prop_value := Some v |} => Some v
  | _ => None
  end.

Definition is_array (o : object) : bool :=
  match obj_slots o with ArraySlots _ => true | _ => false end.

(** The prototype is [Object.prototype] or [null]. *)
Definition plain_prototype (o : object) : bool :=
  match obj_prototype o with ObjectPrototype | NullPrototype => true | _ => false end.

Definition array_length (o : object) : N :=
  match obj_slots o with ArraySlots n => n | _ => 0 end.

(** [object.key], for an object without accessors or inherited [key] *)
Definition get (h : heap) (v : value) (key : jstring) : value :=
  match object_of h v with
  | Some o => match descriptor (obj_own o) key with
              | Some {| prop_value := Some x |} => x
              | _ => VUndefined
              end
  | None => VUndefined
  end.

(** [typeof v === "string" && v === s] *)
Definition is_string (v : value) (s : jstring) : bool :=
  match v with VString t => jeqb t s | _ => false end.

(** [String(n)] of an integer *)
Definition String_of_Z (n : Z) : jstring :=
  match n with
  | Z0 => [48%N]
  | Zpos p => String_of_N (Npos p)
  | Zneg p => 45%N :: String_of_N (Npos p)
  end.

Definition of_option {A} (f : A -> value) (x : option A) : value :=
  match x with Some a => f a | None => VNull end.

Definition VText : option jstring -> value := of_option VString.
Definition VInteger (n : Z) : value := VNumber (Integer n).

(** [a === b]; data a module built is a new object every time. *)
Definition identical (a b : value) : bool :=
  match a, b with
  | VUndefined, VUndefined | VNull, VNull => true
  | VBool x, VBool y => Bool.eqb x y
  | VNumber NegativeZero, VNumber NegativeZero => true
  | VNumber NegativeZero, VNumber (Integer n) | VNumber (Integer n), VNumber NegativeZero => (n =? 0)%Z
  | VNumber (Integer n), VNumber (Integer m) => (n =? m)%Z
  | VNumber (Fraction s), VNumber (Fraction t) => jeqb s t
  | VNumber (Infinite x), VNumber (Infinite y) => Bool.eqb x y
  | VString s, VString t => jeqb s t
  | VRef l, VRef k => (l =? k)%N
  | _, _ => false
  end.

(** ** Lemmas *)

(** The items of an array are found at their indices. *)
Lemma array_descriptor items n i v :
  items !! i = Some v ->
  descriptor (imap (fun j v => data_property (String_of_N (N.of_nat (n + j))) v) items)
             (String_of_N (N.of_nat (n + i)))
  = Some (data_property (String_of_N (N.of_nat (n + i))) v).
Proof.
  revert n i. induction items as [|x items IH]; intros n i Hi; [done|].
  cbn [imap]. unfold descriptor. cbn [find prop_key data_property].
  destruct (bool_decide _) eqn:Hd.
  - apply bool_decide_eq_true in Hd. injection Hd as Hd%String_of_N_inj.
    assert (i = 0)%nat as -> by lia. cbn in Hi. injection Hi as ->. done.
  - destruct i as [|i]; [by rewrite bool_decide_eq_true_2 in Hd|]. cbn in Hi.
    specialize (IH (S n) i Hi). unfold descriptor in IH.
    replace (n + S i)%nat with (S n + i)%nat by lia.
    etransitivity; [|exact IH]. f_equal. apply imap_ext. intros j y _. cbn.
    by replace (n + S j)%nat with (S (n + j)) by lia.
Qed.

(** A field of a record is found by its key. *)
Lemma record_descriptor fields key :
  descriptor (obj_own (record_object fields)) key = data_property key <$> map_get key fields.
Proof.
  unfold descriptor. cbn [obj_own record_object]. induction fields as [|[k v] r IH]; [done|]. cbn.
  unfold jeqb. destruct (decide (k = key)) as [->|Hne].
  - by rewrite !bool_decide_eq_true_2.
  - rewrite !bool_decide_eq_false_2 by congruence. apply IH.
Qed.
