(* ===== verification/CommandLexer.v ===== *)
(** The command lexer (packages/evidence/src/command-lexer.ts): words,
    operators and redirections of command-shaped text in three dialects, the
    invocations they make up, and the checks of input and options. *)
From S2P Require Import Prelude JsString OrderedMap Unicode Identifiers JsValue RepositoryPath OutputSanitization ObjectGraph.

(** ** Data *)

Inductive ResolvedCommandDialect := posix_shell | windows_cmd | windows_powershell.

#[export] Instance ResolvedCommandDialect_eq_dec : EqDecision ResolvedCommandDialect.
Proof. solve_decision. Defined.

Definition COMMAND_DIALECTS : list (jstring * option ResolvedCommandDialect) :=
  [(#"auto", None); (#"posix-shell", Some posix_shell); (#"windows-cmd", Some windows_cmd);
   (#"windows-powershell", Some windows_powershell)].

Inductive CommandPartKind :=
| backtick_substitution | command_substitution | double_quoted | escape | literal | single_quoted
| variable_expansion.

Inductive CommandTokenKind := environment_assignment | operator | redirection | word_token.

Inductive limit_name :=
| maximumInputLength | maximumInvocations | maximumIssues | maximumNesting | maximumParts | maximumTokens.

Definition LIMIT_KEYS : list (jstring * limit_name) :=
  [(#"maximumInputLength", maximumInputLength); (#"maximumInvocations", maximumInvocations);
   (#"maximumIssues", maximumIssues); (#"maximumNesting", maximumNesting);
   (#"maximumParts", maximumParts); (#"maximumTokens", maximumTokens)].

Definition CommandLexerLimits : Type := limit_name -> N.

Definition COMMAND_LEXER_DEFAULT_LIMITS : CommandLexerLimits := fun name =>
  match name with
  | maximumInputLength => 65536
  | maximumInvocations => 4096
  | maximumIssues => 1024
  | maximumNesting => 64
  | maximumParts => 32768
  | maximumTokens => 16384
  end%N.

Definition COMMAND_LEXER_HARD_LIMITS : CommandLexerLimits := fun name =>
  match name with
  | maximumInputLength => 1048576
  | maximumInvocations => 65536
  | maximumIssues => 16384
  | maximumNesting => 256
  | maximumParts => 524288
  | maximumTokens => 262144
  end%N.

(** The codes of [CommandLexerError] with the name of the limit; [no_progress]
    is no exception of the source: a loop of the model would raise it if its
    bound were reached. *)
Inductive lexer_error :=
| invalidInput
| invalidOptions (name : option limit_name)
| limitExceeded (name : limit_name)
| no_progress.

Abbreviation lex_res := (res lexer_error).

Record CommandWordPart := {
  part_kind : CommandPartKind;
  part_start : nat;
  part_end : nat;
  part_raw : jstring;
  part_value : option jstring
}.

Record CommandToken := {
  token_kind : CommandTokenKind;
  token_parts : list CommandWordPart;
  token_raw : jstring;
  token_start : nat;
  token_end : nat;
  token_value : option jstring
}.

Inductive issue_code := ambiguous_dialect | malformed_syntax.

Record CommandLexerIssue := {
  issue_code_ : issue_code;
  issue_start : nat;
  issue_end : nat;
  issue_text : jstring
}.

Record ScanState := {
  issues : list CommandLexerIssue;
  partCount : N;
  tokens : list CommandToken
}.

(** ** Characters and expressions *)

Definition isSpace (c : N) : bool := (c =? 32)%N || (c =? 9)%N || (c =? 13)%N || (c =? 10)%N.

Definition operatorAt (s : jstring) : option jstring :=
  find (startsWith s) [ #"&&"; #"||"; #"|"; #";"; #"&"; #"("; #")" ].

(** The length of a redirection at the beginning of [s]: digits or an asterisk
    when there are any, one or two equal angle brackets, and a descriptor. *)
Definition redirectionAt (s : jstring) : option nat :=
  let digits := run_length is_digit s in
  let n := if (digits =? 0)%nat then (if startsWith s #"*" then 1 else 0) else digits in
  match drop n s with
  | c :: r =>
      if (c =? 62)%N || (c =? 60)%N then
        let m := if startsWith r [c] then 2 else 1 in
        let extra := match drop (n + m) s with
                     | 38%N :: r' => match run_length is_digit r' with O => 0 | k => S k end
                     | _ => 0
                     end in
        Some (n + m + extra)
      else None
  | [] => None
  end.

Definition newline (c : N) : bool := (c =? 13)%N || (c =? 10)%N.

(** [open inner+ close], where [inner] does not hold of the closing unit. *)
Definition delimited (open close : N) (inner : N -> bool) (s : jstring) : option nat :=
  match s with
  | c :: r =>
      if (c =? open)%N then
        match run_length inner r with
        | O => None
        | k => if startsWith (drop k r) [close] then Some (k + 2) else None
        end
      else None
  | [] => None
  end.

Definition outside (quote : N) (c : N) : bool := negb ((c =? quote)%N || newline c).

Definition ident_start : N -> bool := ci (fun c => is_upper c || is_lower c || (c =? 95)%N).
Definition ident_rest : N -> bool := ci (or_units word #"_").

Definition identifier_length (s : jstring) : option nat :=
  match s with
  | c :: r => if ident_start c then Some (S (run_length ident_rest r)) else None
  | [] => None
  end.

(** The length of the variable expansion at the beginning of [s]. *)
Definition expansionAt (s : jstring) (dialect : ResolvedCommandDialect) : option nat :=
  match dialect with
  | windows_cmd =>
      match delimited 37 37 (outside 37) s with
      | Some n => Some n
      | None => delimited 33 33 (outside 33) s
      end
  | _ =>
      match s with
      | 36%N :: r =>
          match (if matches_all (lit_ci #"env:") r then identifier_length (drop 4 r) else None) with
          | Some n => Some (5 + n)
          | None =>
              match identifier_length r with
              | Some n => Some (S n)
              | None => S <$> delimited 123 125 (outside 125) r
              end
          end
      | _ => None
      end
  end.

(** [/.../.test(s)]; the pattern sees the unit before the place it is tried at. *)
Fixpoint search (at_ : option N -> jstring -> bool) (prev : option N) (s : jstring) : bool :=
  at_ prev s || match s with [] => false | c :: r => search at_ (Some c) r end.

Definition is_some {A} (m : option A) : bool := match m with Some _ => true | None => false end.

(** [/\$(?:\(|\{|[A-Za-z_])/] and [/%[^%]+%|![^!]+!/] *)
Definition dynamicContent (dialect : ResolvedCommandDialect) (content : jstring) : bool :=
  match dialect with
  | windows_cmd =>
      search (fun _ s => is_some (delimited 37 37 (fun c => negb (c =? 37)%N) s)
                         || is_some (delimited 33 33 (fun c => negb (c =? 33)%N) s)) None content
  | _ =>
      search (fun _ s => match s with
                         | 36%N :: c :: _ => (c =? 40)%N || (c =? 123)%N || is_upper c || is_lower c
                                             || (c =? 95)%N
                         | _ => false
                         end) None content
  end.

Definition at_word (is_word : N -> bool) (words : list (list (N -> bool))) (prev : option N) (s : jstring)
    : bool :=
  match prev with Some c => negb (is_word c) | None => true end
  && existsb (fun w => matches_all w s
                       && match drop (length w) s with c :: _ => negb (is_word c) | [] => true end) words.

Definition escaped_operator (mark : N) (s : jstring) : bool :=
  match s with c :: d :: _ => (c =? mark)%N && existsb (N.eqb d) #"&|<>" | _ => false end.

Definition cmd_markers (prev : option N) (s : jstring) : bool :=
  is_some (expansionAt s windows_cmd) || escaped_operator 94 s.

Definition powershell_markers (prev : option N) (s : jstring) : bool :=
  matches_all (lit_ci #"$env:") s
  || at_word ident_rest (map lit_ci [ #"Write-Host"; #"Get-ChildItem"; #"Set-Location"]) prev s
  || escaped_operator 96 s.

Definition posix_markers (prev : option N) (s : jstring) : bool :=
  startsWith s #"$("
  || match s with
     | c :: r => (c =? 96)%N && startsWith (drop (run_length (fun c => negb (c =? 96)%N) r) r) [96%N]
     | [] => false
     end
  || match s with
     | c :: r => (c =? 36)%N && is_some (delimited 123 125 (fun c => negb (c =? 125)%N) r)
     | [] => false
     end
  || at_word (or_units word #"_") (map lit [ #"export"; #"printf"; #"chmod"]) prev s.

Definition literalPartValue (parts : list CommandWordPart) : option jstring :=
  mjoin <$> mapM part_value parts.

Definition slice (text : jstring) (from to : nat) : jstring := take (to - from) (drop from text).

(** ** Scanning *)

Section scanning.
Context (text : jstring) (limits : CommandLexerLimits) (dialect : ResolvedCommandDialect).

Definition size : nat := length text.
Definition unitAt (index : nat) : option N := text !! index.
Definition is_unit (index : nat) (c : N) : bool := bool_decide (unitAt index = Some c).
Definition restAt (index : nat) : jstring := drop index text.

Definition issue (st : ScanState) (start stop : nat) (message : jstring) (code : issue_code)
    : lex_res ScanState :=
  if (limits maximumIssues <=? N.of_nat (length (issues st)))%N then Err (limitExceeded maximumIssues)
  else Ok {| issues := issues st ++ [{| issue_code_ := code; issue_start := start; issue_end := stop;
                                        issue_text := message |}];
             partCount := partCount st; tokens := tokens st |}.

(** [part] pushes on the parts of the word being scanned. *)
Definition part (st : ScanState) (parts : list CommandWordPart) (kind : CommandPartKind)
    (start stop : nat) (value : option jstring) : lex_res (ScanState * list CommandWordPart) :=
  if (limits maximumParts <=? partCount st)%N then Err (limitExceeded maximumParts)
  else Ok ({| issues := issues st; partCount := partCount st + 1; tokens := tokens st |},
           parts ++ [{| part_kind := kind; part_start := start; part_end := stop;
                        part_raw := slice text start stop; part_value := value |}]).

Definition pushToken (st : ScanState) (token : CommandToken) : lex_res ScanState :=
  if (limits maximumTokens <=? N.of_nat (length (tokens st)))%N then Err (limitExceeded maximumTokens)
  else Ok {| issues := issues st; partCount := partCount st; tokens := tokens st ++ [token] |}.

(** The loop of [readBalanced] for [$(] and [)]: the index after the closing
    parenthesis, [None] when there is none. *)
Fixpoint balanced (fuel depth index : nat) (quote : option N) : lex_res (option nat) :=
  if (size <=? index)%nat then Ok None else
  match fuel, unitAt index with
  | S fuel', Some c =>
      match quote with
      | Some q =>
          let quote' := if (c =? q)%N then None else quote in
          balanced fuel' depth (if (c =? 92)%N && bool_decide (quote' = Some 34%N) then index + 2 else index + 1)
                   quote'
      | None =>
          if (c =? 39)%N || (c =? 34)%N then balanced fuel' depth (index + 1) (Some c)
          else if startsWith (restAt index) #"$(" then
            if (limits maximumNesting <? N.of_nat (S depth))%N then Err (limitExceeded maximumNesting)
            else balanced fuel' (S depth) (index + 2) None
          else if (c =? 41)%N then
            match depth with
            | S (S _ as depth') => balanced fuel' depth' (index + 1) None
            | _ => Ok (Some (index + 1))
            end
          else balanced fuel' depth (index + 1) None
      end
  | _, _ => Err no_progress
  end.

Definition readBalanced (st : ScanState) (start : nat) : lex_res (nat * ScanState) :=
  closed ← balanced size 1 (start + 2) None;
  match closed with
  | Some index => Ok (index, st)
  | None => st ← issue st start size #"unclosed $() expression" malformed_syntax; Ok (size, st)
  end.

(** The index at which the scan for the closing quote stops; it passes over an
    escaped unit without looking whether there is one. *)
Fixpoint quotedEnd (fuel : nat) (quote : N) (index : nat) : lex_res nat :=
  if (size <=? index)%nat || is_unit index quote then Ok index else
  match fuel with
  | O => Err no_progress
  | S fuel' =>
      let index1 := if negb (bool_decide (dialect = windows_cmd)) && (quote =? 34)%N && is_unit index 92
                    then index + 1 else index in
      let index2 := if bool_decide (dialect = windows_powershell) && (quote =? 34)%N && is_unit index1 96
                    then index1 + 1 else index1 in
      quotedEnd fuel' quote (index2 + 1)
  end.

Fixpoint backtickEnd (fuel index : nat) : lex_res nat :=
  if (size <=? index)%nat || is_unit index 96 then Ok index else
  match fuel with
  | O => Err no_progress
  | S fuel' => backtickEnd fuel' (if is_unit index 92 then index + 2 else index + 1)
  end.

(** The variables of [scanWord]. *)
Record WordState := {
  w_state : ScanState;
  w_parts : list CommandWordPart;
  w_index : nat;
  w_literalStart : nat
}.

Definition flushLiteral (w : WordState) (stop : nat) : lex_res (ScanState * list CommandWordPart) :=
  if (w_literalStart w <? stop)%nat
  then part (w_state w) (w_parts w) literal (w_literalStart w) stop
            (Some (slice text (w_literalStart w) stop))
  else Ok (w_state w, w_parts w).

Definition resume (st : ScanState) (parts : list CommandWordPart) (index : nat) : WordState :=
  {| w_state := st; w_parts := parts; w_index := index; w_literalStart := index |}.

(** Where a construct that was looked for up to [stop] ends. *)
Definition close (st : ScanState) (start stop : nat) (message : jstring) : lex_res (nat * ScanState) :=
  if (size <=? stop)%nat
  then st ← issue st start stop message malformed_syntax; Ok (stop, st)
  else Ok (stop + 1, st).

Definition quotedPart (w : WordState) (quote : N) : lex_res WordState :=
  let quoteStart := w_index w in
  '(st, parts) ← flushLiteral w quoteStart;
  let contentStart := quoteStart + 1 in
  stop ← quotedEnd size quote contentStart;
  '(index, st) ← close st quoteStart stop (#"unclosed " ++ [quote] ++ #" quote");
  let rawContent :=
    slice text contentStart (Nat.max contentStart (index - (if is_unit (index - 1) quote then 1 else 0))) in
  '(st, parts) ← part st parts (if (quote =? 39)%N then single_quoted else double_quoted)
                   quoteStart index
                   (if (quote =? 34)%N && dynamicContent dialect rawContent then None else Some rawContent);
  Ok (resume st parts index).

Definition escapePart (w : WordState) : lex_res WordState :=
  let escapeStart := w_index w in
  '(st, parts) ← flushLiteral w escapeStart;
  '(index, st) ← close st escapeStart (escapeStart + 1) #"dangling escape";
  '(st, parts) ← part st parts escape escapeStart index
                   (Some (if (index - escapeStart =? 2)%nat then slice text (index - 1) index else []));
  Ok (resume st parts index).

Definition substitutionPart (w : WordState) : lex_res WordState :=
  '(st, parts) ← flushLiteral w (w_index w);
  '(stop, st) ← readBalanced st (w_index w);
  '(st, parts) ← part st parts command_substitution (w_index w) stop None;
  Ok (resume st parts stop).

Definition backtickPart (w : WordState) : lex_res WordState :=
  let start := w_index w in
  '(st, parts) ← flushLiteral w start;
  stop ← backtickEnd size (start + 1);
  '(index, st) ← close st start stop #"unclosed backtick substitution";
  '(st, parts) ← part st parts backtick_substitution start index None;
  Ok (resume st parts index).

Definition expansionPart (w : WordState) (n : nat) : lex_res WordState :=
  '(st, parts) ← flushLiteral w (w_index w);
  '(st, parts) ← part st parts variable_expansion (w_index w) (w_index w + n) None;
  Ok (resume st parts (w_index w + n)).

Definition escapeUnit : N :=
  match dialect with windows_cmd => 94 | windows_powershell => 96 | posix_shell => 92 end.

Definition endsWord (index : nat) (c : N) : bool :=
  isSpace c || is_some (operatorAt (restAt index)) || is_some (redirectionAt (restAt index)).

(** One turn of the loop at the unit [c]. *)
Definition wordStep (w : WordState) (c : N) : lex_res WordState :=
  if (c =? 39)%N || (c =? 34)%N then quotedPart w c
  else if (c =? escapeUnit)%N then escapePart w
  else if negb (bool_decide (dialect = windows_cmd)) && startsWith (restAt (w_index w)) #"$("
  then substitutionPart w
  else if bool_decide (dialect = posix_shell) && (c =? 96)%N then backtickPart w
  else
    match expansionAt (restAt (w_index w)) dialect with
    | Some n => expansionPart w n
    | None => Ok {| w_state := w_state w; w_parts := w_parts w; w_index := w_index w + 1;
                    w_literalStart := w_literalStart w |}
    end.

Fixpoint wordLoop (fuel : nat) (w : WordState) : lex_res WordState :=
  match unitAt (w_index w) with
  | None => Ok w
  | Some c =>
      if endsWord (w_index w) c then Ok w
      else match fuel with
           | O => Err no_progress
           | S fuel' => w' ← wordStep w c; wordLoop fuel' w'
           end
  end.

(** [/^[A-Za-z_][A-Za-z0-9_]*=/] *)
Definition is_assignment (value : jstring) : bool :=
  match value with
  | c :: r => (is_upper c || is_lower c || (c =? 95)%N)
              && startsWith (drop (run_length (or_units word #"_") r) r) #"="
  | [] => false
  end.

Definition wordToken (start index : nat) (parts : list CommandWordPart) : CommandToken :=
  let value := literalPartValue parts in
  {| token_kind := match value with
                   | Some v => if is_assignment v then environment_assignment else word_token
                   | None => word_token
                   end;
     token_parts := parts; token_raw := slice text start index; token_start := start;
     token_end := index; token_value := value |}.

Definition scanWord (st : ScanState) (start : nat) : lex_res (nat * ScanState) :=
  w ← wordLoop size (resume st [] start);
  '(st, parts) ← flushLiteral w (w_index w);
  st ← pushToken st (wordToken start (w_index w) parts);
  Ok (w_index w, st).

Definition markToken (kind : CommandTokenKind) (raw : jstring) (index : nat) : CommandToken :=
  {| token_kind := kind; token_parts := []; token_raw := raw; token_start := index;
     token_end := index + length raw; token_value := Some raw |}.

Definition scanStep (st : ScanState) (index : nat) (c : N) : lex_res (nat * ScanState) :=
  if isSpace c then Ok (index + 1, st)
  else
    match redirectionAt (restAt index) with
    | Some n =>
        st ← pushToken st (markToken redirection (slice text index (index + n)) index);
        Ok (index + n, st)
    | None =>
        match operatorAt (restAt index) with
        | Some op =>
            st ← pushToken st (markToken operator op index);
            Ok (index + length op, st)
        | None => scanWord st index
        end
    end.

Fixpoint scanLoop (fuel : nat) (st : ScanState) (index : nat) : lex_res ScanState :=
  match unitAt index with
  | None => Ok st
  | Some c =>
      match fuel with
      | O => Err no_progress
      | S fuel' => '(index', st') ← scanStep st index c; scanLoop fuel' st' index'
      end
  end.

Definition scan : lex_res ScanState := scanLoop size {| issues := []; partCount := 0; tokens := [] |} 0.
End scanning.

(** ** Dialects *)

Inductive Uncertainty :=
| known
| unknown (reason : jstring)
| contradiction (reason : jstring) (alternatives : list ResolvedCommandDialect)
| conditional (condition : jstring).

Inductive confidence_basis := caller_specified | exclusive_markers | insufficient_markers | mixed_markers.

Record Inference := {
  basis : confidence_basis;
  inferred : option ResolvedCommandDialect;
  inferred_uncertainty : Uncertainty;
  inferred_issue : option jstring
}.

(** [None] requests inference. *)
Definition inferDialect (text : jstring) (requested : option ResolvedCommandDialect) : Inference :=
  match requested with
  | Some d => {| basis := caller_specified; inferred := Some d; inferred_uncertainty := known;
                 inferred_issue := None |}
  | None =>
      let matches :=
        map fst (List.filter snd
          [(windows_cmd, search cmd_markers None text);
           (windows_powershell, search powershell_markers None text);
           (posix_shell, search posix_markers None text)]) in
      match matches with
      | [d] => {| basis := exclusive_markers; inferred := Some d; inferred_uncertainty := known;
                  inferred_issue := None |}
      | [] => {| basis := insufficient_markers; inferred := None;
                 inferred_uncertainty := unknown #"dialect cannot be inferred from static text";
                 inferred_issue := Some #"command has no dialect-exclusive markers" |}
      | _ => {| basis := mixed_markers; inferred := None;
                inferred_uncertainty := contradiction #"multiple command dialects are plausible" matches;
                inferred_issue := Some #"command contains markers from multiple dialects" |}
      end
  end.

(** ** Invocations *)

Record CommandRedirectionEvidence := {
  r_start : nat;
  r_end : nat;
  r_operator : jstring;
  r_raw : jstring;
  r_target : option jstring
}.

Inductive invocation_state := state_dynamic | state_empty | state_literal | state_malformed.

Record CommandInvocationEvidence := {
  i_start : nat;
  i_end : nat;
  i_arguments : list (option jstring);
  i_environment : list (jstring * jstring);
  i_executable : option jstring;
  i_redirections : list CommandRedirectionEvidence;
  i_state : invocation_state
}.

(** [groups], without the last one and the last one. *)
Definition group_step (acc : list (list CommandToken) * list CommandToken) (token : CommandToken)
    : list (list CommandToken) * list CommandToken :=
  match token_kind token with
  | operator => match acc.2 with [] => acc | _ => (acc.1 ++ [acc.2], []) end
  | _ => (acc.1, acc.2 ++ [token])
  end.

Definition groupTokens (tokens : list CommandToken) : list (list CommandToken) :=
  let '(done_, last) := fold_left group_step tokens ([], []) in done_ ++ [last].

(** [environment[name] = value] *)
Fixpoint set_entry (environment : list (jstring * jstring)) (name value : jstring)
    : list (jstring * jstring) :=
  match environment with
  | [] => [(name, value)]
  | (n, v) :: r => if jeqb n name then (n, value) :: r else (n, v) :: set_entry r name value
  end.

Definition EQUALS : N := 61.

Definition assignment_name (value : jstring) : jstring :=
  take (run_length (fun c => negb (c =? EQUALS)%N) value) value.
Definition assignment_value (value : jstring) : jstring :=
  drop (S (run_length (fun c => negb (c =? EQUALS)%N) value)) value.

Record Parsed := {
  words : list CommandToken;
  environment : list (jstring * jstring);
  redirections : list CommandRedirectionEvidence
}.

Section invocations.
Context (toLowerCase : jstring -> jstring) (text : jstring).

Definition redirectionOf (token : CommandToken) (stop : nat) (target : option jstring)
    : CommandRedirectionEvidence :=
  {| r_start := token_start token; r_end := stop; r_operator := token_raw token;
     r_raw := slice text (token_start token) stop; r_target := target |}.

(** The loop over a group; a redirection takes the word after it. *)
Fixpoint parseGroup (group : list CommandToken) (p : Parsed) : Parsed :=
  let keep token :=
    {| words := words p ++ [token]; environment := environment p; redirections := redirections p |} in
  let redirect r :=
    {| words := words p; environment := environment p; redirections := redirections p ++ [r] |} in
  match group with
  | [] => p
  | token :: rest =>
      match token_kind token, words p, token_value token with
      | environment_assignment, [], Some assignment =>
          parseGroup rest
            {| words := words p;
               environment := set_entry (environment p) (assignment_name assignment)
                                        (assignment_value assignment);
               redirections := redirections p |}
      | redirection, _, _ =>
          match rest with
          | next :: rest' =>
              match token_kind next with
              | word_token => parseGroup rest' (redirect (redirectionOf token (token_end next) (token_value next)))
              | _ => parseGroup rest (redirect (redirectionOf token (token_end token) None))
              end
          | [] => redirect (redirectionOf token (token_end token) None)
          end
      | _, _, _ => parseGroup rest (keep token)
      end
  end.

(** [/\.(?:bat|cmd|exe|ps1)$/iu] *)
Definition program_suffix (s : jstring) : bool :=
  existsb (fun x => matches_all (lit_ci x) s && (length s =? 4)%nat) [ #".bat"; #".cmd"; #".exe"; #".ps1"].

Definition canonicalExecutable (value : jstring) (dialect : ResolvedCommandDialect) : jstring :=
  match dialect with
  | posix_shell => value
  | _ =>
      let lower := toLowerCase value in
      let stem := length lower - 4 in
      if program_suffix (drop stem lower) then take stem lower else lower
  end.

Definition is_none {A} (m : option A) : bool := match m with None => true | Some _ => false end.

Definition group_start (group : list CommandToken) : nat := default 0 (token_start <$> head group).
Definition group_end (group : list CommandToken) : nat := default 0 (token_end <$> last group).

Definition invocation (issues : list CommandLexerIssue) (dialect : ResolvedCommandDialect)
    (group : list CommandToken) : CommandInvocationEvidence :=
  let p := parseGroup group {| words := []; environment := []; redirections := [] |} in
  let malformed := existsb (fun i => (group_start group <=? issue_start i)%nat
                                     && (issue_start i <=? group_end group)%nat) issues in
  let dynamic := existsb (fun t => is_none (token_value t)) (words p) in
  {| i_start := group_start group; i_end := group_end group;
     i_arguments := map token_value (tail (words p));
     i_environment := environment p;
     i_executable := t ← head (words p); v ← token_value t; Some (canonicalExecutable v dialect);
     i_redirections := redirections p;
     i_state := if malformed then state_malformed
                else match words p with
                     | [] => state_empty
                     | _ => if dynamic then state_dynamic else state_literal
                     end |}.

Definition invocationStep (limits : CommandLexerLimits) (issues : list CommandLexerIssue)
    (dialect : ResolvedCommandDialect) (invocations : list CommandInvocationEvidence)
    (group : list CommandToken) : lex_res (list CommandInvocationEvidence) :=
  match group with
  | [] => Ok invocations
  | _ =>
      if (limits maximumInvocations <=? N.of_nat (length invocations))%N
      then Err (limitExceeded maximumInvocations)
      else Ok (invocations ++ [invocation issues dialect group])
  end.

Definition buildInvocations (limits : CommandLexerLimits) (st : ScanState)
    (dialect : ResolvedCommandDialect) : lex_res (list CommandInvocationEvidence) :=
  foldM (invocationStep limits (issues st) dialect) [] (groupTokens (tokens st)).
End invocations.

(** ** Input and options *)

Record SourcePosition := {
  byteOffset : N;
  line : N;
  utf16Column : N;
  utf16Offset : N
}.

Inductive source_kind := from_caller | from_configuration | from_evidence_fact.

Record CommandEvidenceProvenance := {
  collectorId : jstring;
  factId : option jstring;
  location_path : jstring;
  location_start : SourcePosition;
  location_end : SourcePosition;
  sourceKind : source_kind
}.

Section validation.
Context (h : heap).

(** The fields [record] copies from a plain object: own data properties,
    enumerable or not, whose keys are all among [keys]. *)
Definition record_field (keys : list jstring) (p : property) : lex_res (jstring * value) :=
  match prop_key p, prop_value p with
  | Some key, Some v => if existsb (jeqb key) keys then Ok (key, v) else Err invalidInput
  | _, _ => Err invalidInput
  end.

Definition record_of (v : value) (keys : list jstring) : lex_res (list (jstring * value)) :=
  match object_of h v with
  | None => Err invalidInput
  | Some o =>
      if is_array o || obj_proxy o || negb (plain_prototype o) then Err invalidInput
      else rmapM (record_field keys) (obj_own o)
  end.

(** An absent field reads as undefined. *)
Definition field_of (record : list (jstring * value)) (key : jstring) : value :=
  default VUndefined (map_get key record).

Definition requiredIdentifier (v : value) : lex_res jstring :=
  match v with
  | VString s => if (1 <=? N.of_nat (length s))%N && (N.of_nat (length s) <=? 512)%N && STABLE_ID s
              then Ok s else Err invalidInput
  | _ => Err invalidInput
  end.

Definition boundedIdentifier (v : value) : lex_res (option jstring) :=
  match v with VNull => Ok None | _ => Some <$> requiredIdentifier v end.

(** Positions are only compared and copied, so the zeros are not told apart. *)
Definition natural (v : value) : lex_res N :=
  match v with
  | VNumber (Integer n) => if (0 <=? n)%Z && (n <=? MAX_SAFE_INTEGER)%Z then Ok (Z.to_N n) else Err invalidInput
  | VNumber NegativeZero => Ok 0%N
  | _ => Err invalidInput
  end.

Definition validatePosition (v : value) : lex_res SourcePosition :=
  item ← record_of v [ #"byteOffset"; #"utf16Offset"; #"line"; #"utf16Column"];
  b ← natural (field_of item #"byteOffset");
  l ← natural (field_of item #"line");
  c ← natural (field_of item #"utf16Column");
  u ← natural (field_of item #"utf16Offset");
  Ok {| byteOffset := b; line := l; utf16Column := c; utf16Offset := u |}.

Definition validateLocation (v : value) : lex_res (jstring * SourcePosition * SourcePosition) :=
  item ← record_of v [ #"path"; #"range"];
  match field_of item #"path" with
  | VString p =>
      match canonicalizeRepositoryRelativePath p posix with
      | Err _ => Err invalidInput
      | Ok path =>
          range ← record_of (field_of item #"range") [ #"start"; #"end"];
          from ← validatePosition (field_of range #"start");
          to ← validatePosition (field_of range #"end");
          if (byteOffset to <? byteOffset from)%N || (utf16Offset to <? utf16Offset from)%N
          then Err invalidInput
          else Ok (path, from, to)
      end
  | _ => Err invalidInput
  end.

Definition sourceKindOf (v : value) : lex_res source_kind :=
  match v with
  | VString s =>
      if jeqb s #"caller" then Ok from_caller
      else if jeqb s #"configuration" then Ok from_configuration
      else if jeqb s #"evidence-fact" then Ok from_evidence_fact
      else Err invalidInput
  | _ => Err invalidInput
  end.

Definition dialectOf (v : value) : lex_res (option ResolvedCommandDialect) :=
  match v with
  | VString s => match find (fun d => jeqb d.1 s) COMMAND_DIALECTS with
              | Some d => Ok d.2
              | None => Err invalidInput
              end
  | _ => Err invalidInput
  end.

(** The text, the requested dialect and the provenance. *)
Definition validateInput (v : value)
    : lex_res (jstring * option ResolvedCommandDialect * CommandEvidenceProvenance) :=
  input ← record_of v [ #"dialect"; #"provenance"; #"text"];
  match field_of input #"text" with
  | VString text =>
      dialect ← dialectOf (field_of input #"dialect");
      raw ← record_of (field_of input #"provenance")
              [ #"collectorId"; #"factId"; #"source"; #"sourceKind"];
      kind ← sourceKindOf (field_of raw #"sourceKind");
      collector ← requiredIdentifier (field_of raw #"collectorId");
      fact ← boundedIdentifier (field_of raw #"factId");
      '(path, from, to) ← validateLocation (field_of raw #"source");
      Ok (text, dialect,
          {| collectorId := collector; factId := fact; location_path := path; location_start := from;
             location_end := to; sourceKind := kind |})
  | _ => Err invalidInput
  end.

Definition limitValue (options : list (jstring * value)) (key : jstring * limit_name) : lex_res N :=
  let candidate :=
    if existsb (jeqb key.1) (keys_of options) then field_of options key.1
    else VInteger (Z.of_N (COMMAND_LEXER_DEFAULT_LIMITS key.2)) in
  match candidate with
  | VNumber (Integer n) =>
      if (1 <=? n)%Z && (n <=? Z.of_N (COMMAND_LEXER_HARD_LIMITS key.2))%Z then Ok (Z.to_N n)
      else Err (invalidOptions (Some key.2))
  | _ => Err (invalidOptions (Some key.2))
  end.

Definition validateOptions (v : value) : lex_res CommandLexerLimits :=
  match v with
  | VUndefined => Ok COMMAND_LEXER_DEFAULT_LIMITS
  | _ =>
      match record_of v (map fst LIMIT_KEYS) with
      | Err _ => Err (invalidOptions None)
      | Ok options =>
          values ← rmapM (limitValue options) LIMIT_KEYS;
          Ok (fun name =>
                match values, name with
                | [a; _; _; _; _; _], maximumInputLength => a
                | [_; b; _; _; _; _], maximumInvocations => b
                | [_; _; c; _; _; _], maximumIssues => c
                | [_; _; _; d; _; _], maximumNesting => d
                | [_; _; _; _; e; _], maximumParts => e
                | [_; _; _; _; _; f], maximumTokens => f
                | _, _ => 0%N
                end)
      end
  end.
End validation.

(** ** The lexer *)

Record CommandLexerResult := {
  confidence : confidence_basis;
  invocations : list CommandInvocationEvidence;
  result_issues : list CommandLexerIssue;
  result_limits : CommandLexerLimits;
  result_partCount : N;
  provenance : CommandEvidenceProvenance;
  requestedDialect : option ResolvedCommandDialect;
  resolvedDialect : option ResolvedCommandDialect;
  result_tokens : list CommandToken;
  uncertainty : Uncertainty
}.

Definition finalUncertainty (inference : Inference) (st : ScanState) : Uncertainty :=
  match inferred_uncertainty inference with
  | known =>
      match issues st with
      | _ :: _ => unknown #"command text contains malformed static syntax"
      | [] =>
          if existsb (fun t => existsb (fun p => is_none (part_value p)) (token_parts t)) (tokens st)
          then conditional #"runtime expansion or substitution determines part of the command"
          else known
      end
  | u => u
  end.

(** [toLowerCase] is the platform's. *)
Definition lexCommandEvidence (toLowerCase : jstring -> jstring) (h : heap) (rawInput rawOptions : value)
    : lex_res CommandLexerResult :=
  '(text, requested, provenance) ← validateInput h rawInput;
  limits ← validateOptions h rawOptions;
  if (limits maximumInputLength <? N.of_nat (length text))%N
  then Err (limitExceeded maximumInputLength)
  else
    let inference := inferDialect text requested in
    let dialect := default posix_shell (inferred inference) in
    st ← scan text limits dialect;
    st ← match inferred_issue inference with
         | Some message => issue limits st 0 (length text) message ambiguous_dialect
         | None => Ok st
         end;
    invocations ← buildInvocations toLowerCase text limits st dialect;
    Ok {| confidence := basis inference; invocations := invocations; result_issues := issues st;
          result_limits := limits; result_partCount := partCount st; provenance := provenance;
          requestedDialect := requested; resolvedDialect := inferred inference;
          result_tokens := tokens st; uncertainty := finalUncertainty inference st |}.
