(* ===== verification/CommandLexerLaws.v ===== *)
(** The lexer loses no text, stays within its limits and always ends. *)
From S2P Require Import Prelude JsString OrderedMap Unicode Identifiers JsValue RepositoryPath OutputSanitization ObjectGraph CommandLexer.

Section scanning.
Context (text : jstring) (limits : CommandLexerLimits) (dialect : ResolvedCommandDialect).

Abbreviation size := (length text).

(** ** Ranges *)

Definition spaces (s : jstring) : Prop := Forall (fun c => isSpace c = true) s.

Lemma slice_split i j k : i <= j -> j <= k -> slice text i k = slice text i j ++ slice text j k.
Proof.
  intros Hij Hjk. unfold slice.
  replace (k - i) with ((j - i) + (k - j)) by lia. rewrite <- take_take_drop.
  rewrite drop_drop. by replace (i + (j - i)) with j by lia.
Qed.

Lemma drop_slice i j : i <= j -> drop i text = slice text i j ++ drop j text.
Proof.
  intros Hij. unfold slice. rewrite <- (take_drop (j - i) (drop i text)) at 1.
  rewrite drop_drop. by replace (i + (j - i)) with j by lia.
Qed.

(** Parts laid end to end from [i] to [k]. *)
Inductive chain : nat -> list CommandWordPart -> nat -> Prop :=
| chain_nil i : chain i [] i
| chain_cons i p ps k :
    part_start p = i -> i < part_end p -> part_raw p = slice text i (part_end p) ->
    chain (part_end p) ps k -> chain i (p :: ps) k.

Lemma chain_snoc i ps j p :
  chain i ps j -> part_start p = j -> j < part_end p -> part_raw p = slice text j (part_end p) ->
  chain i (ps ++ [p]) (part_end p).
Proof.
  induction 1 as [i|i q ps k Hq Hlt Hraw Hc IH]; intros Hs Hp Hr; cbn [app].
  - subst i. apply chain_cons; [done..|constructor].
  - apply chain_cons; [done..|by apply IH].
Qed.

Lemma chain_le i ps k : chain i ps k -> i <= k.
Proof. induction 1; lia. Qed.

Lemma chain_raw i ps k : chain i ps k -> mjoin (map part_raw ps) = slice text i k.
Proof.
  induction 1 as [i|i p ps k Hp Hlt Hraw Hc IH].
  - unfold slice. by rewrite Nat.sub_diag, take_0.
  - cbn [map]. rewrite mjoin_cons, IH, Hraw. symmetry. apply slice_split; [lia|by eapply chain_le].
Qed.

(** ** States *)

Definition bounded (st : ScanState) : Prop :=
  (N.of_nat (length (issues st)) <= limits maximumIssues)%N /\
  (partCount st <= limits maximumParts)%N /\
  (N.of_nat (length (tokens st)) <= limits maximumTokens)%N.

(** What every operation on the state keeps. *)
Definition evolves (st st' : ScanState) : Prop :=
  (bounded st -> bounded st') /\ issues st `prefix_of` issues st'.

Lemma evolves_refl st : evolves st st.
Proof. split; [done|reflexivity]. Qed.

Lemma evolves_trans st1 st2 st3 : evolves st1 st2 -> evolves st2 st3 -> evolves st1 st3.
Proof. intros [H1 H2] [H3 H4]. split; [auto|by etrans]. Qed.

(** An index beyond the text is the trace of a malformed construct. *)
Definition in_range (st : ScanState) (index : nat) : Prop :=
  index <= size + 1 /\ (size < index -> issues st <> []).

Lemma in_range_evolves st st' index : evolves st st' -> in_range st index -> in_range st' index.
Proof.
  intros [_ [more Hm]] [H1 H2]. split; [done|]. intros Hlt. rewrite Hm.
  intros [? _]%app_eq_nil. by apply H2.
Qed.

Lemma issue_Ok st start stop message code st' :
  issue limits st start stop message code = Ok st' ->
  evolves st st' /\ tokens st' = tokens st /\ partCount st' = partCount st /\ issues st' <> [].
Proof.
  unfold issue. destruct (N.leb_spec (limits maximumIssues) (N.of_nat (length (issues st)))); [done|].
  intros [= <-]. cbn. split; [split|].
  - intros (H1 & H2 & H3). unfold bounded. cbn. rewrite length_app. cbn. split; [lia|done].
  - by apply prefix_app_r.
  - split; [done|]. split; [done|]. intros [_ ?]%app_eq_nil. done.
Qed.

Lemma part_Ok st parts kind start stop value st' parts' :
  part text limits st parts kind start stop value = Ok (st', parts') ->
  evolves st st' /\ tokens st' = tokens st /\ issues st' = issues st /\
  partCount st' = (partCount st + 1)%N /\
  exists p, parts' = parts ++ [p] /\ part_start p = start /\ part_end p = stop /\
    part_raw p = slice text start stop /\ part_value p = value /\ part_kind p = kind.
Proof.
  unfold part. destruct (N.leb_spec (limits maximumParts) (partCount st)); [done|].
  intros [= <- <-]. cbn. split; [split; [|reflexivity]|].
  - intros (H1 & H2 & H3). unfold bounded. cbn. split; [done|]. split; [lia|done].
  - do 3 (split; [done|]). by eexists.
Qed.

Lemma pushToken_Ok st token st' :
  pushToken limits st token = Ok st' ->
  evolves st st' /\ tokens st' = tokens st ++ [token] /\ issues st' = issues st /\
  partCount st' = partCount st.
Proof.
  unfold pushToken. destruct (N.leb_spec (limits maximumTokens) (N.of_nat (length (tokens st)))); [done|].
  intros [= <-]. cbn. split; [split; [|reflexivity]|done].
  intros (H1 & H2 & H3). unfold bounded. cbn. rewrite length_app. cbn. split; [done|]. split; [done|lia].
Qed.

(** ** Words *)

(** The word loop's invariant: the parts reach from the start of the word to
    the pending literal. *)
Record word_inv (start : nat) (base : ScanState) (w : WordState) : Prop := {
  wi_chain : chain start (w_parts w) (w_literalStart w);
  wi_literal : w_literalStart w <= w_index w;
  wi_range : in_range (w_state w) (w_index w);
  wi_evolves : evolves base (w_state w);
  wi_tokens : tokens (w_state w) = tokens base;
  wi_count : partCount (w_state w) = (partCount base + N.of_nat (length (w_parts w)))%N
}.

(** What a step that ends the pending literal leaves: the parts reach [stop]. *)
Record reached (start : nat) (base st : ScanState) (parts : list CommandWordPart) (stop : nat) : Prop := {
  re_chain : chain start parts stop;
  re_evolves : evolves base st;
  re_tokens : tokens st = tokens base;
  re_count : partCount st = (partCount base + N.of_nat (length parts))%N
}.

Lemma flushLiteral_reached start base w st parts :
  word_inv start base w -> flushLiteral text limits w (w_index w) = Ok (st, parts) ->
  reached start base st parts (w_index w) /\ issues st = issues (w_state w).
Proof.
  intros [Hc Hl Hr He Ht Hn] Hf. unfold flushLiteral in Hf.
  destruct (Nat.ltb_spec (w_literalStart w) (w_index w)).
  - apply part_Ok in Hf as (He' & Ht' & Hi' & Hn' & p & -> & Hs & Hend & Hraw & _ & _).
    split; [|done]. split.
    + rewrite <- Hend in *. by eapply chain_snoc; [| |done|].
    + by eapply evolves_trans.
    + congruence.
    + rewrite Hn', Hn, length_app. cbn. lia.
  - injection Hf as <- <-. assert (w_literalStart w = w_index w) as <- by lia. by split; [split|].
Qed.

Lemma reached_evolves start base st st' parts stop :
  reached start base st parts stop -> evolves st st' -> tokens st' = tokens st ->
  partCount st' = partCount st -> reached start base st' parts stop.
Proof. intros [H1 H2 H3 H4] He Ht Hn. split; [done|by eapply evolves_trans|congruence|congruence]. Qed.

(** A part pushed where the parts end, up to a later index in range. *)
Lemma part_resume start base st parts from kind stop value st' parts' :
  reached start base st parts from -> from < stop -> in_range st stop ->
  part text limits st parts kind from stop value = Ok (st', parts') ->
  word_inv start base (resume st' parts' stop).
Proof.
  intros [Hc He Ht Hn] Hlt Hr Hp.
  apply part_Ok in Hp as (He' & Ht' & Hi' & Hn' & p & -> & Hs & Hend & Hraw & _ & _).
  split; cbn [resume w_parts w_literalStart w_index w_state].
  - rewrite <- Hend in *. by eapply chain_snoc; [| |done|].
  - done.
  - by eapply in_range_evolves.
  - by eapply evolves_trans.
  - congruence.
  - rewrite Hn', Hn, length_app. cbn. lia.
Qed.

Lemma close_Ok st start stop message index st' :
  close text limits st start stop message = Ok (index, st') -> stop <= size + 1 ->
  evolves st st' /\ tokens st' = tokens st /\ partCount st' = partCount st /\ stop <= index /\
  in_range st' index.
Proof.
  unfold close. intros Hc Hstop. unfold CommandLexer.size in Hc. destruct (Nat.leb_spec size stop).
  - apply bind_Ok in Hc as (st1 & (He & Ht & Hn & Hi)%issue_Ok & [= <- <-]). by repeat split; try apply He.
  - injection Hc as <- <-. split; [apply evolves_refl|]. repeat split; lia.
Qed.

(** *** The scans inside a word *)

Lemma is_unit_lt index c : is_unit text index c = true -> index < size.
Proof. unfold is_unit. intros H%bool_decide_eq_true. by eapply lookup_lt_Some. Qed.

Lemma quotedEnd_Ok fuel quote index :
  size <= fuel + index -> index <= size + 1 ->
  exists stop, quotedEnd text dialect fuel quote index = Ok stop /\ index <= stop <= size + 1.
Proof.
  revert index. induction fuel as [|fuel IH]; intros index Hf Hi; cbn [quotedEnd]; unfold CommandLexer.size.
  - rewrite (proj2 (Nat.leb_le _ _)) by lia. cbn. exists index. split; [done|lia].
  - destruct (Nat.leb_spec size index); cbn [orb]; [exists index; split; [done|lia]|].
    destruct (is_unit text index quote); [exists index; split; [done|lia]|].
    set (index1 := if _ && is_unit text index 92 then index + 1 else index).
    assert (index <= index1 <= size) as H1.
    { unfold index1. destruct (_ && _); lia. }
    set (index2 := if _ && is_unit text index1 96 then index1 + 1 else index1).
    assert (index1 <= index2 <= size) as H2.
    { unfold index2. destruct (_ && is_unit text index1 96) eqn:E; [|lia].
      apply andb_true_iff in E as [_ E%is_unit_lt]. lia. }
    destruct (IH (index2 + 1)) as (stop & Hs & Hle); [lia..|]. exists stop. split; [done|lia].
Qed.

Lemma backtickEnd_Ok fuel index :
  size <= fuel + index -> index <= size + 1 ->
  exists stop, backtickEnd text fuel index = Ok stop /\ index <= stop <= size + 1.
Proof.
  revert index. induction fuel as [|fuel IH]; intros index Hf Hi; cbn [backtickEnd]; unfold CommandLexer.size.
  - rewrite (proj2 (Nat.leb_le _ _)) by lia. cbn. exists index. split; [done|lia].
  - destruct (Nat.leb_spec size index); cbn [orb]; [exists index; split; [done|lia]|].
    destruct (is_unit text index 96); [exists index; split; [done|lia]|].
    destruct (IH (if is_unit text index 92 then index + 2 else index + 1)) as (stop & Hs & Hle).
    + destruct (is_unit text index 92); lia.
    + destruct (is_unit text index 92); lia.
    + exists stop. split; [done|]. destruct (is_unit text index 92); lia.
Qed.

(** The exceptions of the source. *)
Definition exceeds {A} (m : lex_res A) : Prop := exists name, m = Err (limitExceeded name).
Definition runs {A} (m : lex_res A) : Prop := (exists a, m = Ok a) \/ exceeds m.

Lemma runs_bind {A B} (m : lex_res A) (f : A -> lex_res B) :
  runs m -> (forall a, m = Ok a -> runs (f a)) -> runs (m ≫= f).
Proof.
  intros [[a ->]|[name ->]] Hf; cbn; [by apply Hf|]. right. by exists name.
Qed.

Lemma runs_Ok {A} (a : A) : runs (Ok a : lex_res A).
Proof. left. by exists a. Qed.

Lemma runs_limit {A} name : runs (Err (limitExceeded name) : lex_res A).
Proof. right. by exists name. Qed.

Lemma balanced_runs fuel depth index quote :
  size <= fuel + index -> runs (balanced text limits fuel depth index quote) /\
  forall stop, balanced text limits fuel depth index quote = Ok (Some stop) -> index < stop <= size.
Proof.
  revert depth index quote. induction fuel as [|fuel IH]; intros depth index quote Hf; cbn [balanced];
    unfold CommandLexer.size.
  - rewrite (proj2 (Nat.leb_le _ _)) by lia. split; [apply runs_Ok|done].
  - destruct (Nat.leb_spec size index); [split; [apply runs_Ok|done]|].
    unfold unitAt. destruct (lookup_lt_is_Some_2 text index) as [c ->]; [done|].
    assert (forall d i q, index < i -> runs (balanced text limits fuel d i q) /\
      forall stop, balanced text limits fuel d i q = Ok (Some stop) -> index < stop <= size) as Hnext.
    { intros d i q Hi. destruct (IH d i q) as [Hr Hs]; [lia|]. split; [done|].
      intros stop Hstop%Hs. lia. }
    destruct quote as [q|]; [apply Hnext; destruct (_ && _); lia|].
    destruct (_ || _); [apply Hnext; lia|].
    destruct (startsWith _ _).
    { destruct (_ <? _)%N; [split; [apply runs_limit|done]|]. apply Hnext. lia. }
    destruct (c =? 41)%N; [|apply Hnext; lia].
    destruct depth as [|[|depth]]; [split; [apply runs_Ok|intros ? [= <-]; lia]..|apply Hnext; lia].
Qed.

Lemma issue_runs st start stop message code : runs (issue limits st start stop message code).
Proof. unfold issue. destruct (_ <=? _)%N; [apply runs_limit|apply runs_Ok]. Qed.

Lemma part_runs st parts kind start stop value : runs (part text limits st parts kind start stop value).
Proof. unfold part. destruct (_ <=? _)%N; [apply runs_limit|apply runs_Ok]. Qed.

Lemma pushToken_runs st token : runs (pushToken limits st token).
Proof. unfold pushToken. destruct (_ <=? _)%N; [apply runs_limit|apply runs_Ok]. Qed.

Lemma flushLiteral_runs w stop : runs (flushLiteral text limits w stop).
Proof. unfold flushLiteral. destruct (_ <? _)%nat; [apply part_runs|apply runs_Ok]. Qed.

Lemma close_runs st start stop message : runs (close text limits st start stop message).
Proof.
  unfold close. destruct (_ <=? _)%nat; [|apply runs_Ok].
  apply runs_bind; [apply issue_runs|]. intros. apply runs_Ok.
Qed.

#[local] Hint Resolve runs_Ok runs_limit issue_runs part_runs pushToken_runs flushLiteral_runs close_runs : s2.

(** *** Lengths of matches *)

Lemma run_length_le p s : run_length p s <= length s.
Proof. induction s as [|c s IH]; cbn; [done|]. destruct (p c); lia. Qed.

Lemma startsWith_length s p : startsWith s p = true -> length p <= length s.
Proof. intros [r ->]%startsWith_spec. rewrite length_app. lia. Qed.

Lemma delimited_le open close_ inner s n : delimited open close_ inner s = Some n -> 0 < n <= length s.
Proof.
  unfold delimited. destruct s as [|c r]; [done|]. destruct (c =? open)%N; [|done].
  destruct (run_length inner r) as [|k] eqn:Ek; [done|].
  destruct (startsWith (drop (S k) r) [close_]) eqn:E; [|done]. intros [= <-].
  apply startsWith_length in E. rewrite length_drop in E. cbn [length] in *. lia.
Qed.

Lemma identifier_length_le s n : identifier_length s = Some n -> 0 < n <= length s.
Proof.
  unfold identifier_length. destruct s as [|c r]; [done|]. destruct (ident_start c); [|done].
  intros [= <-]. pose proof (run_length_le ident_rest r). cbn. lia.
Qed.

Lemma expansionAt_le s n : expansionAt s dialect = Some n -> 0 < n <= length s.
Proof.
  assert (forall s n, match s with
    | 36%N :: r =>
        match (if matches_all (lit_ci #"env:") r then identifier_length (drop 4 r) else None) with
        | Some n => Some (5 + n)
        | None => match identifier_length r with
                  | Some n => Some (S n)
                  | None => S <$> delimited 123 125 (outside 125) r
                  end
        end
    | _ => None
    end = Some n -> 0 < n <= length s) as Hposix.
  { clear. intros s n H. destruct s as [|c r]; [done|].
    destruct (decide (c = 36%N)) as [->|Hc];
      [|destruct c as [|q]; [done|]; repeat (destruct q as [q|q|]; try done); congruence].
    destruct (if matches_all _ _ then _ else _) as [k|] eqn:E.
    - destruct (matches_all _ _); [|done]. apply identifier_length_le in E. rewrite length_drop in E.
      injection H as <-. cbn [length]. lia.
    - destruct (identifier_length r) as [k|] eqn:E'.
      + apply identifier_length_le in E'. injection H as <-. cbn [length]. lia.
      + apply fmap_Some in H as (k & Hk%delimited_le & ->). cbn [length]. lia. }
  unfold expansionAt. destruct dialect; [apply Hposix| |apply Hposix].
  destruct (delimited 37 37 _ s) eqn:E; [|apply delimited_le].
  intros [= <-]. by eapply delimited_le.
Qed.

Lemma redirectionAt_le s n : redirectionAt s = Some n -> 0 < n <= length s.
Proof.
  unfold redirectionAt.
  set (m := if (run_length is_digit s =? 0)%nat then _ else _).
  destruct (drop m s) as [|c r] eqn:Ed; [done|]. destruct (_ || _); [|done]. intros [= <-].
  pose proof (f_equal length Ed) as Hl. rewrite length_drop in Hl. cbn [length] in Hl.
  set (k := if startsWith r [c] then 2 else 1).
  assert (1 <= k <= length s - m) as Hk.
  { unfold k. destruct (startsWith r [c]) eqn:E; [|lia]. apply startsWith_length in E. cbn in E. lia. }
  assert (match drop (m + k) s with
          | 38%N :: r' => match run_length is_digit r' with O => 0 | k => S k end
          | _ => 0
          end <= length s - (m + k)) as He.
  { destruct (drop (m + k) s) as [|d r'] eqn:Ed'; [lia|]. apply (f_equal length) in Ed'.
    rewrite length_drop in Ed'. cbn [length] in Ed'. pose proof (run_length_le is_digit r').
    destruct (decide (d = 38%N)) as [->|Hd].
    - destruct (run_length is_digit r'); lia.
    - transitivity 0; [|lia]. apply Nat.eq_le_incl. destruct d as [|q]; [done|].
      repeat (destruct q as [q|q|]; try done). }
  match type of He with ?e <= _ => change (0 < m + k + e <= length s) end. lia.
Qed.

Lemma operatorAt_spec s op : operatorAt s = Some op -> 0 < length op /\ take (length op) s = op /\ length op <= length s.
Proof.
  unfold operatorAt. intros [Hin Hp]%find_some. pose proof Hp as Hl%startsWith_length.
  apply startsWith_spec in Hp as [r ->]. rewrite take_app_length. split; [|done].
  apply list_elem_of_In in Hin. revert op Hin Hl. clear. intros op Hin _.
  assert (forallb (fun op : jstring => (0 <? length op)%nat) [ #"&&"; #"||"; #"|"; #";"; #"&"; #"("; #")" ] = true)
    as Hall by done.
  apply Nat.ltb_lt. by apply (proj1 (forallb_elem _ _) Hall).
Qed.

(** *** The steps of a word *)

(** A step either runs into a limit or keeps the invariant and advances. *)
Definition advances (start : nat) (base : ScanState) (w : WordState) (m : lex_res WordState) : Prop :=
  runs m /\ forall w', m = Ok w' -> word_inv start base w' /\ w_index w < w_index w'.

Lemma in_range_le st index : index <= size -> in_range st index.
Proof. intros ?. split; lia. Qed.

(** The common shape: end the literal, find where the construct stops, push. *)
Lemma construct_advances start base w kind (body : ScanState -> lex_res (nat * ScanState))
    (value : nat -> option jstring) :
  word_inv start base w ->
  (forall st, runs (body st) /\ forall stop st', body st = Ok (stop, st') ->
     evolves st st' /\ tokens st' = tokens st /\ partCount st' = partCount st /\
     w_index w < stop /\ in_range st' stop) ->
  advances start base w
    ('(st, parts) ← flushLiteral text limits w (w_index w);
     '(stop, st) ← body st;
     '(st, parts) ← part text limits st parts kind (w_index w) stop (value stop);
     Ok (resume st parts stop)).
Proof.
  intros Hw Hbody. split.
  - apply runs_bind; [apply flushLiteral_runs|]. intros [st parts] _.
    apply runs_bind; [apply Hbody|]. intros [stop st'] _.
    apply runs_bind; [apply part_runs|]. intros [st2 parts2] _. apply runs_Ok.
  - intros w' Hr. apply bind_Ok in Hr as ([st parts] & Hf & Hr).
    apply (flushLiteral_reached _ _ _ _ _ Hw) in Hf as [Hre _].
    apply bind_Ok in Hr as ([stop st'] & Hb & Hr). apply Hbody in Hb as (He & Ht & Hn & Hlt & Hrange).
    apply bind_Ok in Hr as ([st2 parts2] & Hp & [= <-]).
    split; [|done]. eapply part_resume; [by eapply reached_evolves|done|done|exact Hp].
Qed.

Lemma close_body st start stop message :
  start < stop -> stop <= size + 1 ->
  runs (close text limits st start stop message) /\
  forall index st', close text limits st start stop message = Ok (index, st') ->
     evolves st st' /\ tokens st' = tokens st /\ partCount st' = partCount st /\
     start < index /\ in_range st' index.
Proof.
  intros Hlt Hstop. split; [apply close_runs|]. intros index st' Hc.
  apply close_Ok in Hc as (He & Ht & Hn & Hle & Hr); [|done]. repeat (split; [done || lia|]). done.
Qed.

Lemma quotedPart_advances start base w quote :
  word_inv start base w -> w_index w < size -> advances start base w (quotedPart text limits dialect w quote).
Proof.
  intros Hw Hlt. destruct (quotedEnd_Ok size quote (w_index w + 1)) as (stop & Hs & Hle); [lia..|].
  unfold quotedPart. unfold CommandLexer.size. rewrite Hs. cbn [mbind res_mbind].
  apply (construct_advances start base w (if (quote =? 39)%N then single_quoted else double_quoted)
    (fun st => close text limits st (w_index w) stop (#"unclosed " ++ [quote] ++ #" quote"))
    (fun index =>
       let rawContent := slice text (w_index w + 1)
         (Nat.max (w_index w + 1) (index - (if is_unit text (index - 1) quote then 1 else 0))) in
       if (quote =? 34)%N && dynamicContent dialect rawContent then None else Some rawContent)); [done|].
  intros st. apply close_body; lia.
Qed.

Lemma escapePart_advances start base w :
  word_inv start base w -> w_index w < size -> advances start base w (escapePart text limits w).
Proof.
  intros Hw Hlt.
  apply (construct_advances start base w escape
    (fun st => close text limits st (w_index w) (w_index w + 1) #"dangling escape")
    (fun index => Some (if (index - w_index w =? 2)%nat then slice text (index - 1) index else []))); [done|].
  intros st. apply close_body; lia.
Qed.

Lemma backtickPart_advances start base w :
  word_inv start base w -> w_index w < size -> advances start base w (backtickPart text limits w).
Proof.
  intros Hw Hlt. destruct (backtickEnd_Ok size (w_index w + 1)) as (stop & Hs & Hle); [lia..|].
  unfold backtickPart. unfold CommandLexer.size. rewrite Hs. cbn [mbind res_mbind].
  apply (construct_advances start base w backtick_substitution
    (fun st => close text limits st (w_index w) stop #"unclosed backtick substitution")
    (fun _ => None)); [done|].
  intros st. apply close_body; lia.
Qed.

Lemma substitutionPart_advances start base w :
  word_inv start base w -> w_index w < size -> advances start base w (substitutionPart text limits w).
Proof.
  intros Hw Hlt.
  apply (construct_advances start base w command_substitution
    (fun st => readBalanced text limits st (w_index w)) (fun _ => None)); [done|].
  intros st. unfold readBalanced, CommandLexer.size.
  destruct (balanced_runs size 1 (w_index w + 2) None) as [Hr Hs]; [lia|]. split.
  - apply runs_bind; [done|]. intros [stop|] _; [apply runs_Ok|].
    apply runs_bind; [apply issue_runs|]. intros. apply runs_Ok.
  - intros stop st' Hb. apply bind_Ok in Hb as ([index|] & Hi & Hb).
    + apply Hs in Hi. injection Hb as <- <-. split; [apply evolves_refl|].
      do 2 (split; [done|]). split; [lia|]. apply in_range_le. lia.
    + apply bind_Ok in Hb as (st1 & (He & Ht & Hn & _)%issue_Ok & [= <- <-]).
      do 3 (split; [done|]). split; [lia|]. by apply in_range_le.
Qed.

Lemma expansionPart_advances start base w n :
  word_inv start base w -> 0 < n -> w_index w + n <= size ->
  advances start base w (expansionPart text limits w n).
Proof.
  intros Hw Hn Hle.
  apply (construct_advances start base w variable_expansion (fun st => Ok (w_index w + n, st)) (fun _ => None));
    [done|].
  intros st. split; [apply runs_Ok|]. intros stop st' [= <- <-]. split; [apply evolves_refl|].
  do 2 (split; [done|]). split; [lia|]. by apply in_range_le.
Qed.

Lemma wordStep_advances start base w c :
  word_inv start base w -> w_index w < size -> advances start base w (wordStep text limits dialect w c).
Proof.
  intros Hw Hlt. unfold wordStep, restAt.
  destruct (_ || _); [by apply quotedPart_advances|].
  destruct (c =? _)%N; [by apply escapePart_advances|].
  destruct (_ && _); [by apply substitutionPart_advances|].
  destruct (_ && _); [by apply backtickPart_advances|].
  destruct (expansionAt _ _) as [n|] eqn:En.
  - apply expansionAt_le in En. rewrite length_drop in En. apply expansionPart_advances; [done|lia..].
  - split; [apply runs_Ok|]. intros w' [= <-]. cbn [w_index]. split; [|lia].
    destruct Hw as [Hc Hl Hr He Ht Hn]. split; cbn [w_parts w_literalStart w_index w_state]; try done; [lia|].
    apply in_range_le. lia.
Qed.

Lemma wordLoop_runs start base fuel w :
  word_inv start base w -> size <= fuel + w_index w ->
  runs (wordLoop text limits dialect fuel w) /\
  forall w', wordLoop text limits dialect fuel w = Ok w' ->
    word_inv start base w' /\ w_index w <= w_index w' /\
    (forall c, text !! w_index w = Some c -> endsWord text (w_index w) c = false -> w_index w < w_index w').
Proof.
  revert w. induction fuel as [|fuel IH]; intros w Hw Hf; cbn [wordLoop]; unfold unitAt.
  - rewrite lookup_ge_None_2 by lia. split; [apply runs_Ok|]. intros w' [= <-]. split; [done|].
    split; [lia|]. done.
  - destruct (text !! w_index w) as [c|] eqn:Ec; [|split; [apply runs_Ok|by intros w' [= <-]]].
    pose proof (lookup_lt_Some _ _ _ Ec) as Hlt.
    destruct (endsWord text (w_index w) c) eqn:Ew.
    { split; [apply runs_Ok|]. intros w' [= <-]. split; [done|]. split; [lia|]. intros c' [= <-]. congruence. }
    destruct (wordStep_advances start base w c Hw Hlt) as [Hr Hs]. split.
    + apply runs_bind; [done|]. intros w1 [Hw1 Hlt1]%Hs. apply (IH w1); [done|lia].
    + intros w' (w1 & [Hw1 Hlt1]%Hs & Hl)%bind_Ok.
      destruct (IH w1 Hw1) as [_ Hl']; [lia|]. destruct (Hl' w' Hl) as (Hw' & Hle & _).
      split; [done|]. split; [lia|]. intros. lia.
Qed.

(** ** Tokens *)

(** A token spans a non-empty range of the text; a word is made of parts that
    reach from its start to its end and give its value, the other tokens have
    their text as value. *)
Record token_ok (st : ScanState) (t : CommandToken) : Prop := {
  ok_start : token_start t < size;
  ok_range : token_start t < token_end t;
  ok_in_range : in_range st (token_end t);
  ok_raw : token_raw t = slice text (token_start t) (token_end t);
  ok_parts : match token_kind t with
             | operator | redirection => token_parts t = [] /\ token_value t = Some (token_raw t)
             | word_token | environment_assignment =>
                 chain (token_start t) (token_parts t) (token_end t) /\
                 token_value t = literalPartValue (token_parts t)
             end
}.

(** Tokens in order from [k] to the end of the text, with only white space
    between them. *)
Inductive tiles (st : ScanState) : nat -> list CommandToken -> Prop :=
| tiles_nil k : spaces (drop k text) -> tiles st k []
| tiles_cons k t ts :
    k <= token_start t -> spaces (slice text k (token_start t)) -> token_ok st t ->
    tiles st (token_end t) ts -> tiles st k (t :: ts).

Lemma tiles_ok st k ts t : tiles st k ts -> t ∈ ts -> token_ok st t.
Proof.
  induction 1 as [|k t' ts Hle Hs Hok Ht IH]; [by intros ?%not_elem_of_nil|].
  by intros [->|?]%elem_of_cons; [|apply IH].
Qed.

Lemma tiles_space st k ts c :
  text !! k = Some c -> isSpace c = true -> tiles st (k + 1) ts -> tiles st k ts.
Proof.
  intros Hk Hc Ht. pose proof (drop_S _ _ _ Hk) as Hd. rewrite <- Nat.add_1_r in Hd.
  inversion Ht as [k' Hs|k' t ts' Hle Hs Hok Hts]; subst.
  - constructor. rewrite Hd. by constructor.
  - constructor; [lia| |done|done]. rewrite (slice_split k (k + 1)) by lia. apply Forall_app. split; [|done].
    unfold slice. replace (k + 1 - k) with 1 by lia. rewrite Hd. by repeat constructor.
Qed.

Definition part_total (ts : list CommandToken) : N := sumN (fun t => N.of_nat (length (token_parts t))) ts.

Lemma scanWord_spec st index c :
  text !! index = Some c -> endsWord text index c = false ->
  runs (scanWord text limits dialect st index) /\
  forall index' st', scanWord text limits dialect st index = Ok (index', st') ->
    evolves st st' /\ index < index' /\ exists t,
      tokens st' = tokens st ++ [t] /\ token_start t = index /\ token_end t = index' /\ token_ok st' t /\
      partCount st' = (partCount st + N.of_nat (length (token_parts t)))%N.
Proof.
  intros Hc Hw. pose proof (lookup_lt_Some _ _ _ Hc) as Hlt. unfold scanWord, CommandLexer.size.
  assert (word_inv index st (resume st [] index)) as Hinv.
  { split; cbn; [constructor|done|apply in_range_le; lia|apply evolves_refl|done|lia]. }
  destruct (wordLoop_runs index st size _ Hinv) as [Hr Hs]; [cbn; lia|]. split.
  - apply runs_bind; [done|]. intros w _. apply runs_bind; [apply flushLiteral_runs|].
    intros [st1 parts] _. apply runs_bind; [apply pushToken_runs|]. intros. apply runs_Ok.
  - intros index' st' (w & Hloop & Hrest)%bind_Ok. destruct (Hs w Hloop) as (Hinv' & _ & Hadv).
    specialize (Hadv c Hc Hw). cbn [resume w_index] in Hadv.
    apply bind_Ok in Hrest as ([st1 parts] & Hf & Hrest).
    apply (flushLiteral_reached _ _ _ _ _ Hinv') in Hf as [[Hch He Ht Hn] Hi].
    apply bind_Ok in Hrest as (st2 & (He2 & Ht2 & Hi2 & Hn2)%pushToken_Ok & [= <- <-]).
    split; [by eapply evolves_trans|]. split; [done|]. exists (wordToken text index (w_index w) parts).
    split; [congruence|]. split; [done|]. split; [done|]. split; [|cbn; congruence].
    split; cbn [wordToken token_start token_end token_raw token_kind token_parts token_value]; [done|done| |done|].
    + pose proof (wi_range _ _ _ Hinv') as [Hr1 Hr2]. split; [done|]. intros Hgt. rewrite Hi2, Hi. auto.
    + destruct (literalPartValue parts) as [v|]; [|done]. by destruct (is_assignment v).
Qed.

Lemma markToken_ok st kind raw index :
  index < size -> 0 < length raw -> index + length raw <= size ->
  raw = slice text index (index + length raw) ->
  (kind = operator \/ kind = redirection) -> token_ok st (markToken kind raw index).
Proof.
  intros Hlt Hpos Hle Hraw Hkind.
  split; cbn [markToken token_start token_end token_raw token_kind token_parts token_value];
    [done|lia|by apply in_range_le|done|]. by destruct Hkind as [-> | ->].
Qed.

Lemma scanStep_spec st index c :
  text !! index = Some c ->
  runs (scanStep text limits dialect st index c) /\
  forall index' st', scanStep text limits dialect st index c = Ok (index', st') ->
    evolves st st' /\ index < index' /\
    ((isSpace c = true /\ index' = index + 1 /\ st' = st) \/
     exists t, tokens st' = tokens st ++ [t] /\ token_start t = index /\ token_end t = index' /\
       token_ok st' t /\ partCount st' = (partCount st + N.of_nat (length (token_parts t)))%N).
Proof.
  intros Hc. pose proof (lookup_lt_Some _ _ _ Hc) as Hlt. unfold scanStep, restAt.
  destruct (isSpace c) eqn:Es.
  { split; [apply runs_Ok|]. intros index' st' [= <- <-]. split; [apply evolves_refl|]. split; [lia|by left]. }
  assert (forall kind raw, raw = slice text index (index + length raw) -> 0 < length raw ->
    index + length raw <= size -> (kind = operator \/ kind = redirection) ->
    forall st1, pushToken limits st (markToken kind raw index) = Ok st1 ->
    evolves st st1 /\ exists t, tokens st1 = tokens st ++ [t] /\ token_start t = index /\
      token_end t = index + length raw /\ token_ok st1 t /\
      partCount st1 = (partCount st + N.of_nat (length (token_parts t)))%N) as Hmark.
  { intros kind raw Hraw Hpos Hle Hkind st1 (He & Ht & _ & Hn)%pushToken_Ok. split; [done|].
    exists (markToken kind raw index). do 3 (split; [done|]). split; [by apply markToken_ok|cbn; lia]. }
  destruct (redirectionAt (drop index text)) as [n|] eqn:Er.
  - pose proof (redirectionAt_le _ _ Er) as [Hpos Hn]. rewrite length_drop in Hn.
    assert (length (slice text index (index + n)) = n) as Hlen.
    { unfold slice. rewrite length_take, length_drop. lia. }
    split; [apply runs_bind; [apply pushToken_runs|intros; apply runs_Ok]|].
    intros index' st' (st1 & Hp & [= <- <-])%bind_Ok.
    destruct (Hmark redirection (slice text index (index + n))) with (st1 := st1) as (He & t & Ht1 & Ht2 & Ht3 & Ht4);
      [by rewrite Hlen|lia|lia|by right|exact Hp|].
    rewrite Hlen in Ht3. split; [done|]. split; [lia|]. right. by exists t.
  - destruct (operatorAt (drop index text)) as [op|] eqn:Eo.
    + pose proof (operatorAt_spec _ _ Eo) as (Hpos & Htake & Hn). rewrite length_drop in Hn.
      split; [apply runs_bind; [apply pushToken_runs|intros; apply runs_Ok]|].
      intros index' st' (st1 & Hp & [= <- <-])%bind_Ok.
      destruct (Hmark operator op) with (st1 := st1) as (He & t & Ht); [|lia|lia|by left|exact Hp|].
      * unfold slice. by replace (index + length op - index) with (length op) by lia.
      * split; [done|]. split; [lia|]. right. by exists t.
    + assert (endsWord text index c = false) as Hw.
      { unfold endsWord, restAt. by rewrite Es, Eo, Er. }
      destruct (scanWord_spec st index c Hc Hw) as [Hr Hs]. split; [done|].
      intros index' st' (He & Hadv & t & Ht)%Hs. split; [done|]. split; [done|]. right. by exists t.
Qed.

Lemma token_ok_evolves st st' t : evolves st st' -> token_ok st t -> token_ok st' t.
Proof. intros He [H1 H2 H3 H4 H5]. split; try done. by eapply in_range_evolves. Qed.

Lemma scanLoop_spec fuel st index :
  size <= fuel + index ->
  runs (scanLoop text limits dialect fuel st index) /\
  forall st', scanLoop text limits dialect fuel st index = Ok st' ->
    evolves st st' /\ exists more, tokens st' = tokens st ++ more /\ tiles st' index more /\
      partCount st' = (partCount st + part_total more)%N.
Proof.
  assert (forall st index, text !! index = None ->
    evolves st st /\ exists more, tokens st = tokens st ++ more /\ tiles st index more /\
      partCount st = (partCount st + part_total more)%N) as Hend.
  { clear. intros st index Hi. split; [apply evolves_refl|]. exists []. rewrite app_nil_r. split; [done|].
    split; [|cbn; lia]. constructor. apply lookup_ge_None_1 in Hi. rewrite drop_ge by done. constructor. }
  revert st index. induction fuel as [|fuel IH]; intros st index Hf; cbn [scanLoop]; unfold unitAt.
  - assert (text !! index = None) as Hi by (apply lookup_ge_None_2; lia). rewrite Hi.
    split; [apply runs_Ok|]. intros st' [= <-]. by apply Hend.
  - destruct (text !! index) as [c|] eqn:Ec.
    2:{ split; [apply runs_Ok|]. intros st' [= <-]. by apply Hend. }
    destruct (scanStep_spec st index c Ec) as [Hr Hs]. split.
    + apply runs_bind; [done|]. intros [index1 st1] (_ & Hlt & _)%Hs. apply IH. lia.
    + intros st' ([index1 st1] & Hstep & Hl)%bind_Ok. apply Hs in Hstep as (He & Hlt & Hcase).
      destruct (IH st1 index1) as [_ Hl']; [lia|]. apply Hl' in Hl as (He' & more & Hm & Ht & Hn).
      split; [by eapply evolves_trans|]. destruct Hcase as [(Hsp & -> & ->)|(t & Ht1 & Ht2 & Ht3 & Ht4 & Ht5)].
      * exists more. split; [done|]. split; [by eapply tiles_space|done].
      * exists (t :: more). split; [by rewrite Hm, Ht1, <- app_assoc|]. split.
        -- constructor; [lia| |by eapply token_ok_evolves|by rewrite Ht3].
           unfold slice. rewrite Ht2, Nat.sub_diag. constructor.
        -- unfold part_total in *. cbn [sumN foldr]. unfold sumN in *. cbn [foldr]. lia.
Qed.

(** The white space and the tokens, put together again. *)
Fixpoint interleave (gaps raws : list jstring) : jstring :=
  match gaps, raws with
  | g :: gaps', r :: raws' => g ++ r ++ interleave gaps' raws'
  | g :: _, [] => g
  | [], _ => []
  end.

Lemma tiles_interleave st k ts :
  tiles st k ts -> exists gaps, length gaps = S (length ts) /\ Forall spaces gaps /\
    drop k text = interleave gaps (map token_raw ts).
Proof.
  induction 1 as [k Hs|k t ts Hle Hs Hok Ht (gaps & Hl & Hg & Hd)].
  - exists [drop k text]. split; [done|]. split; [by repeat constructor|done].
  - exists (slice text k (token_start t) :: gaps). split; [cbn; lia|]. split; [by constructor|].
    cbn [map interleave]. destruct Hok as [_ Hlt _ Hraw _].
    rewrite (drop_slice k (token_start t)) by done.
    rewrite (drop_slice (token_start t) (token_end t)) by lia. by rewrite Hd, Hraw.
Qed.
End scanning.

(** ** The whole lexer *)

Lemma scan_spec text limits dialect :
  runs (scan text limits dialect) /\
  forall st, scan text limits dialect = Ok st ->
    bounded limits st /\ tiles text st 0 (tokens st) /\ partCount st = part_total (tokens st).
Proof.
  unfold scan, CommandLexer.size.
  destruct (scanLoop_spec text limits dialect (length text) {| issues := []; partCount := 0; tokens := [] |} 0)
    as [Hr Hs]; [lia|]. split; [done|].
  intros st ([Hb _] & more & Ht & Htiles & Hn)%Hs. cbn in Ht. subst more. split; [|split; [done|cbn in Hn; lia]].
  apply Hb. unfold bounded. cbn. lia.
Qed.

(** Fails only with the exceptions of the source. *)
Definition proper {A} (m : lex_res A) : Prop := m <> Err no_progress.

Lemma proper_bind {A B} (m : lex_res A) (f : A -> lex_res B) :
  proper m -> (forall a, m = Ok a -> proper (f a)) -> proper (m ≫= f).
Proof. unfold proper. destruct m as [a|e]; cbn; [by auto|]. congruence. Qed.

Lemma runs_proper {A} (m : lex_res A) : runs m -> proper m.
Proof. by intros [[a ->]|[name ->]]. Qed.

Lemma rmapM_proper {A B} (f : A -> lex_res B) l : (forall x, proper (f x)) -> proper (rmapM f l).
Proof.
  intros Hf. induction l as [|x l IH]; [done|]. cbn [rmapM].
  apply proper_bind; [done|]. intros y _. by apply proper_bind.
Qed.

Lemma foldM_proper {A B} (f : A -> B -> lex_res A) l acc : (forall a x, proper (f a x)) -> proper (foldM f acc l).
Proof.
  intros Hf. revert acc. induction l as [|x l IH]; intros acc; [done|]. cbn [foldM]. by apply proper_bind.
Qed.

Section validation.
Context (h : heap).

Ltac proper_cases :=
  repeat first [ done | apply proper_bind; [|intros ? _] | progress case_match ].

Lemma record_of_proper (v : value) keys : proper (record_of h v keys).
Proof.
  unfold record_of. destruct (object_of h v) as [o|]; [|done]. case_match; [done|].
  apply rmapM_proper. intros p. unfold record_field. proper_cases.
Qed.
Lemma requiredIdentifier_proper (v : value) : proper (requiredIdentifier v).
Proof. unfold requiredIdentifier. proper_cases. Qed.
Lemma boundedIdentifier_proper (v : value) : proper (boundedIdentifier v).
Proof.
  unfold boundedIdentifier. pose proof (requiredIdentifier_proper v) as H. unfold proper in *.
  destruct v, (requiredIdentifier _); cbn; congruence.
Qed.
Lemma natural_proper (v : value) : proper (natural v).
Proof. unfold natural. proper_cases. Qed.
Lemma validatePosition_proper (v : value) : proper (validatePosition h v).
Proof.
  unfold validatePosition. apply proper_bind; [apply record_of_proper|]. intros item _.
  do 4 (apply proper_bind; [apply natural_proper|intros ? _]). done.
Qed.
Lemma validateLocation_proper (v : value) : proper (validateLocation h v).
Proof.
  unfold validateLocation. apply proper_bind; [apply record_of_proper|]. intros item _.
  destruct (field_of item _); try done. destruct (canonicalizeRepositoryRelativePath _ _); [|done].
  apply proper_bind; [apply record_of_proper|]. intros range _.
  do 2 (apply proper_bind; [apply validatePosition_proper|intros ? _]). by case_match.
Qed.
Lemma dialectOf_proper (v : value) : proper (dialectOf v).
Proof. unfold dialectOf. proper_cases. Qed.
Lemma sourceKindOf_proper (v : value) : proper (sourceKindOf v).
Proof. unfold sourceKindOf. proper_cases. Qed.
Lemma validateInput_proper (v : value) : proper (validateInput h v).
Proof.
  unfold validateInput. apply proper_bind; [apply record_of_proper|]. intros input _.
  destruct (field_of input _); try done.
  apply proper_bind; [apply dialectOf_proper|intros ? _].
  apply proper_bind; [apply record_of_proper|intros ? _].
  apply proper_bind; [apply sourceKindOf_proper|intros ? _].
  apply proper_bind; [apply requiredIdentifier_proper|intros ? _].
  apply proper_bind; [apply boundedIdentifier_proper|intros ? _].
  apply proper_bind; [apply validateLocation_proper|intros [[? ?] ?] _]. done.
Qed.
Lemma limitValue_proper (options : list (jstring * value)) key : proper (limitValue options key).
Proof. unfold limitValue. destruct (if existsb _ _ then _ else _) as [| | |[]| | | | | |]; try done. by case_match. Qed.
Lemma validateOptions_proper (v : value) : proper (validateOptions h v).
Proof.
  unfold validateOptions. destruct v; try done; (destruct (record_of _ _ _); [|done]);
    (apply proper_bind; [apply rmapM_proper, limitValue_proper|done]).
Qed.

Lemma limitValue_Ok (options : list (jstring * value)) key n :
  limitValue options key = Ok n -> (1 <= n <= COMMAND_LEXER_HARD_LIMITS key.2)%N.
Proof.
  unfold limitValue. destruct (if existsb _ _ then _ else _) as [| | |[| | |z|]| | | | | |]; try done.
  destruct (Z.leb_spec 1 z), (Z.leb_spec z (Z.of_N (COMMAND_LEXER_HARD_LIMITS key.2))); try done.
  cbn [andb]. intros [= <-]. lia.
Qed.

Lemma validateOptions_Ok (v : value) limits name :
  validateOptions h v = Ok limits -> (1 <= limits name <= COMMAND_LEXER_HARD_LIMITS name)%N.
Proof.
  assert (forall options : list (jstring * value), (values ← rmapM (limitValue options) LIMIT_KEYS;
          Ok (fun name =>
                match values, name with
                | [a; _; _; _; _; _], maximumInputLength => a
                | [_; b; _; _; _; _], maximumInvocations => b
                | [_; _; c; _; _; _], maximumIssues => c
                | [_; _; _; d; _; _], maximumNesting => d
                | [_; _; _; _; e; _], maximumParts => e
                | [_; _; _; _; _; f], maximumTokens => f
                | _, _ => 0%N
                end)) = Ok limits -> (1 <= limits name <= COMMAND_LEXER_HARD_LIMITS name)%N) as Hrec.
  { intros options (values & Hv%rmapM_Ok & [= <-])%bind_Ok. unfold LIMIT_KEYS in Hv.
    repeat match goal with
    | H : Forall2 _ (_ :: _) _ |- _ => inversion H; clear H; subst
    | H : Forall2 _ [] _ |- _ => inversion H; clear H; subst
    | H : limitValue _ _ = Ok _ |- _ => apply limitValue_Ok in H
    end.
    by destruct name. }
  unfold validateOptions. destruct v; try (destruct (record_of _ _ _); [by apply Hrec|done]).
  intros [= <-]. destruct name; cbn; lia.
Qed.
End validation.

Lemma invocationStep_proper toLowerCase text limits is_ dialect acc group :
  proper (invocationStep toLowerCase text limits is_ dialect acc group).
Proof. unfold invocationStep. destruct group; [done|]. by case_match. Qed.

Lemma buildInvocations_bounded toLowerCase text limits st dialect invs :
  buildInvocations toLowerCase text limits st dialect = Ok invs ->
  (N.of_nat (length invs) <= limits maximumInvocations)%N.
Proof.
  intros Hb. eapply (foldM_inv (fun _ a => (N.of_nat (length a) <= limits maximumInvocations)%N)); [exact Hb| |].
  - cbn. lia.
  - intros done_ group a a' Ha _. unfold invocationStep. destruct group; [by intros [= <-]|].
    destruct (N.leb_spec (limits maximumInvocations) (N.of_nat (length a))); [done|]. intros [= <-].
    rewrite length_app. cbn. lia.
Qed.

(** ** Groups *)

Definition is_operator (t : CommandToken) : bool :=
  match token_kind t with operator => true | _ => false end.

Definition plain_groups (acc : list (list CommandToken) * list CommandToken) : Prop :=
  Forall (Forall (fun t => is_operator t = false)) (acc.1 ++ [acc.2]).

Lemma group_step_spec acc t :
  plain_groups acc ->
  plain_groups (group_step acc t) /\
  mjoin (group_step acc t).1 ++ (group_step acc t).2
  = mjoin acc.1 ++ acc.2 ++ (if is_operator t then [] else [t]).
Proof.
  destruct acc as [gs l]. unfold plain_groups. cbn [fst snd].
  rewrite Forall_app, Forall_singleton. intros [Hgs Hl].
  assert (is_operator t = false -> group_step (gs, l) t = (gs, l ++ [t])) as Hkeep.
  { unfold is_operator, group_step. by destruct (token_kind t). }
  destruct (is_operator t) eqn:Eo.
  - assert (group_step (gs, l) t = match l with [] => (gs, l) | _ => (gs ++ [l], []) end) as ->.
    { unfold is_operator in Eo. unfold group_step. by destruct (token_kind t). }
    rewrite app_nil_r. destruct l as [|x l]; cbn [fst snd].
    + split; [|done]. apply Forall_app. by rewrite Forall_singleton.
    + rewrite !Forall_app, !Forall_singleton. split; [by repeat split|].
      rewrite app_nil_r, join_app. cbn. by rewrite app_nil_r.
  - rewrite Hkeep by done. cbn [fst snd]. split; [|by rewrite app_assoc].
    rewrite Forall_app, Forall_singleton, Forall_app, Forall_singleton. done.
Qed.

Lemma fold_group ts acc :
  plain_groups acc ->
  let r := fold_left group_step ts acc in
  plain_groups r /\
  mjoin r.1 ++ r.2 = mjoin acc.1 ++ acc.2 ++ List.filter (fun t => negb (is_operator t)) ts.
Proof.
  revert acc. induction ts as [|t ts IH]; intros acc Hacc; cbn [fold_left List.filter].
  { by rewrite app_nil_r. }
  destruct (group_step_spec acc t Hacc) as [H1 H2]. destruct (IH _ H1) as [H3 H4]. split; [done|].
  rewrite H4, app_assoc, H2, <- !app_assoc. by destruct (is_operator t).
Qed.

Lemma groupTokens_spec ts :
  mjoin (groupTokens ts) = List.filter (fun t => negb (is_operator t)) ts /\
  forall g, g ∈ groupTokens ts -> Forall (fun t => is_operator t = false) g.
Proof.
  unfold groupTokens. destruct (fold_group ts ([], [])) as [H1 H2].
  { repeat constructor. }
  destruct (fold_left group_step ts ([], [])) as [gs g]. unfold plain_groups in H1. cbn [fst snd] in *. split.
  - cbn in H2. rewrite <- H2, join_app. cbn. by rewrite app_nil_r.
  - intros x Hx. by apply (proj1 (Forall_forall _ _) H1).
Qed.

Definition nonempty (g : list CommandToken) : bool := match g with [] => false | _ => true end.

Lemma buildInvocations_map toLowerCase text limits st dialect invs :
  buildInvocations toLowerCase text limits st dialect = Ok invs ->
  invs = map (invocation toLowerCase text (issues st) dialect) (List.filter nonempty (groupTokens (tokens st))).
Proof.
  intros Hb. apply (foldM_inv (fun gs acc => acc = map (invocation toLowerCase text (issues st) dialect)
    (List.filter nonempty gs))) in Hb; [done|done|].
  intros gs g a a' -> _. unfold invocationStep. rewrite List.filter_app, map_app. destruct g as [|t g].
  - intros [= <-]. by rewrite app_nil_r.
  - destruct (_ <=? _)%N; [done|]. by intros [= <-].
Qed.

(** The words of a group come from it, in order. *)
Lemma parseGroup_words text group p :
  exists more, words (parseGroup text group p) = words p ++ more /\ sublist more group.
Proof.
  revert p. induction group as [group IH] using (induction_ltof1 _ (@length _)).
  unfold ltof in IH. intros p. destruct group as [|t rest]; [exists []; cbn; by rewrite app_nil_r|].
  assert (forall g p', g = rest \/ g = tail rest -> 
    exists more, words (parseGroup text g p') = words p' ++ more /\ sublist more rest) as Hnext.
  { intros g p' Hg. destruct (IH g) with (p := p') as (more & Hm & Hsub).
    - destruct Hg as [-> | ->]; [cbn; lia|]. destruct rest; cbn; lia.
    - exists more. split; [done|]. destruct Hg as [-> | ->]; [done|]. destruct rest; [done|by apply sublist_cons]. }
  cbn [parseGroup].
  assert (forall p', words p' = words p -> forall g, g = rest \/ g = tail rest ->
    exists more, words (parseGroup text g p') = words p ++ more /\ sublist more (t :: rest)) as Hskip.
  { intros p' Hp g Hg. destruct (Hnext g p' Hg) as (more & Hm & Hs). exists more.
    rewrite Hm, Hp. split; [done|by apply sublist_cons]. }
  assert (exists more, words (parseGroup text rest
      {| words := words p ++ [t]; environment := environment p; redirections := redirections p |})
      = words p ++ more /\ sublist more (t :: rest)) as Hkeep.
  { destruct (Hnext rest {| words := words p ++ [t]; environment := environment p;
      redirections := redirections p |}) as (more & Hm & Hs); [by left|].
    exists (t :: more). rewrite Hm. cbn [words]. rewrite <- app_assoc. split; [done|by apply sublist_skip]. }
  destruct (token_kind t); [| |  |exact Hkeep].
  - destruct (words p) eqn:Ew; [|exact Hkeep]. destruct (token_value t); [|exact Hkeep].
    apply Hskip; [done|by left].
  - exact Hkeep.
  - destruct rest as [|n rest']; [exists []; rewrite app_nil_r; split; [done|by apply sublist_nil_l]|].
    destruct (token_kind n); apply Hskip; try done; by (left + right).
Qed.

(** ** Properties *)

(** Lexing always ends, on any input and options, with a result or with
    one of the exceptions of the source: each loop advances at every turn. *)
Theorem lexer_terminates (toLowerCase : jstring -> jstring) (h : heap) (rawInput rawOptions : value) :
  lexCommandEvidence toLowerCase h rawInput rawOptions <> Err no_progress.
Proof.
  unfold lexCommandEvidence. apply proper_bind; [apply validateInput_proper|]. intros [[text requested] prov] _.
  apply proper_bind; [apply validateOptions_proper|]. intros limits _. destruct (_ <? _)%N; [done|].
  apply proper_bind; [apply runs_proper, scan_spec|]. intros st _.
  apply proper_bind.
  { destruct (inferred_issue _); [|done]. apply runs_proper, issue_runs. }
  intros st' _. apply proper_bind; [|done]. apply foldM_proper. intros. apply invocationStep_proper.
Qed.

(** C37.  Lexing loses nothing: the tokens, in order, and white space between
    them make up the text again, every token is the slice of the text at its
    range, and the parts of a word are the slices that make up the word. *)
Theorem lexer_lossless (text : jstring) (limits : CommandLexerLimits) (dialect : ResolvedCommandDialect)
  (st : ScanState) (Hok : scan text limits dialect = Ok st) :
  (exists gaps, Forall spaces gaps /\ length gaps = S (length (tokens st)) /\
     text = interleave gaps (map token_raw (tokens st))) /\
  (forall t, t ∈ tokens st ->
     token_start t < token_end t /\ token_raw t = slice text (token_start t) (token_end t) /\
     (token_kind t = word_token \/ token_kind t = environment_assignment ->
        token_raw t = mjoin (map part_raw (token_parts t)) /\
        token_value t = literalPartValue (token_parts t))).
Proof.
  apply scan_spec in Hok as (_ & Ht & _). split.
  - destruct (tiles_interleave _ _ _ _ Ht) as (gaps & Hl & Hg & Hd). exists gaps. split; [done|]. by split.
  - intros t Hin. destruct (tiles_ok _ _ _ _ _ Ht Hin) as [H1 H2 H3 H4 H5]. split; [done|]. split; [done|].
    intros Hkind. assert (chain text (token_start t) (token_parts t) (token_end t) /\
                          token_value t = literalPartValue (token_parts t)) as [Hc Hv].
    { by destruct Hkind as [E|E]; rewrite E in H5. }
    split; [|done]. rewrite H4. symmetry. by apply chain_raw.
Qed.

(**  A result respects the limits it reports, which are positive and at
    most the hard ones: tokens, issues, parts and invocations are counted
    exactly, and no range ends more than one unit after the text, which only
    happens when an issue is reported. *)
Theorem lexer_within_limits (toLowerCase : jstring -> jstring) (h : heap) (rawInput rawOptions : value)
  (r : CommandLexerResult) (Hok : lexCommandEvidence toLowerCase h rawInput rawOptions = Ok r) :
  (forall name, 1 <= result_limits r name <= COMMAND_LEXER_HARD_LIMITS name)%N /\
  (N.of_nat (length (result_tokens r)) <= result_limits r maximumTokens)%N /\
  (N.of_nat (length (result_issues r)) <= result_limits r maximumIssues)%N /\
  (N.of_nat (length (invocations r)) <= result_limits r maximumInvocations)%N /\
  result_partCount r = part_total (result_tokens r) /\
  (result_partCount r <= result_limits r maximumParts)%N /\
  exists text, validateInput h rawInput = Ok (text, requestedDialect r, provenance r) /\
    (N.of_nat (length text) <= result_limits r maximumInputLength)%N /\
    forall t, t ∈ result_tokens r ->
      token_end t <= length text + 1 /\ (length text < token_end t -> result_issues r <> []).
Proof.
  unfold lexCommandEvidence in Hok. apply bind_Ok in Hok as ([[text requested] prov] & Hin & Hok).
  apply bind_Ok in Hok as (limits & Hl & Hok).
  destruct (N.ltb_spec (limits maximumInputLength) (N.of_nat (length text))) as [|Hlen]; [done|].
  apply bind_Ok in Hok as (st & Hst & Hok). apply scan_spec in Hst as (Hb & Ht & Hn).
  apply bind_Ok in Hok as (st' & Hst' & Hok).
  assert (evolves limits st st' /\ tokens st' = tokens st /\ partCount st' = partCount st) as (He & Htok & Hparts).
  { destruct (inferred_issue _).
    - by apply issue_Ok in Hst' as (? & ? & ? & _).
    - injection Hst' as <-. split; [apply evolves_refl|done]. }
  apply bind_Ok in Hok as (invs & Hinv%buildInvocations_bounded & [= <-]).
  destruct He as [Hb' [more Hmore]]. destruct (Hb' Hb) as (H1 & H2 & H3).
  cbn [result_limits result_tokens result_issues invocations result_partCount
    requestedDialect provenance].
  split; [intros name; by eapply validateOptions_Ok|]. do 3 (split; [done|]).
  split; [congruence|]. split; [done|]. exists text. split; [done|]. split; [done|].
  rewrite Htok. intros t Hel. destruct (tiles_ok _ _ _ _ _ Ht Hel) as [_ _ [Hr1 Hr2] _ _]. split; [done|].
  intros Hgt. rewrite Hmore. intros [Hnil _]%app_eq_nil. by apply Hr2.
Qed.

(**  The exception is real: the scan of a quoted string passes over an
    escaped unit without looking whether there is one, so a token of the
    two-unit text made of a double quote and a backslash ends at offset 3. *)
Theorem token_past_the_end :
  exists st t, scan [34; 92]%N COMMAND_LEXER_DEFAULT_LIMITS posix_shell = Ok st /\
    tokens st = [t] /\ token_start t = 0 /\ token_end t = 3 /\ token_raw t = [34; 92]%N /\
    map issue_end (issues st) = [3].
Proof. eexists _, _. split; [by vm_compute|]. repeat split. Qed.

(**  The invocations are the runs of tokens between operators: there is one
    per non-empty run, in order, the runs put together are the tokens that are
    not operators, the executable and the arguments come from tokens of the
    run, in order, and a literal invocation knows them all. *)
Theorem invocations_follow_tokens (toLowerCase : jstring -> jstring) (text : jstring)
  (limits : CommandLexerLimits) (st : ScanState) (dialect : ResolvedCommandDialect)
  (invs : list CommandInvocationEvidence)
  (Hok : buildInvocations toLowerCase text limits st dialect = Ok invs) :
  exists groups,
    mjoin groups = List.filter (fun t => negb (is_operator t)) (tokens st) /\
    Forall (fun g => g <> [] /\ Forall (fun t => is_operator t = false) g) groups /\
    Forall2 (fun i g => i_start i = group_start g /\ i_end i = group_end g /\
      exists ws, sublist ws g /\ i_arguments i = map token_value (tail ws) /\
        (i_state i = state_literal ->
           ws <> [] /\ i_executable i <> None /\ Forall (fun a => a <> None) (i_arguments i)))
      invs groups.
Proof.
  apply buildInvocations_map in Hok as ->. destruct (groupTokens_spec (tokens st)) as [Hj Hop].
  exists (List.filter nonempty (groupTokens (tokens st))). split; [|split].
  - rewrite <- Hj. clear. induction (groupTokens (tokens st)) as [|[|t g] gs IH]; [done|done|].
    cbn [List.filter nonempty]. by rewrite !mjoin_cons, IH.
  - apply Forall_forall. intros g Hg. apply list_elem_of_In, filter_In in Hg as [Hg%list_elem_of_In Hn].
    split; [by destruct g|by apply Hop].
  - apply Forall2_fmap_l, Forall_Forall2_diag, Forall_forall. intros g _.
    split; [done|]. split; [done|]. unfold invocation. cbn [i_arguments i_state i_executable].
    set (p := parseGroup _ _ _).
    destruct (parseGroup_words text g {| words := []; environment := []; redirections := [] |})
      as (ws & Hws & Hsub). fold p in Hws. cbn [words app] in Hws. exists (words p). rewrite Hws.
    split; [done|]. split; [done|]. destruct (existsb _ (issues st)); [done|].
    destruct ws as [|w ws]; [done|]. destruct (existsb _ (w :: ws)) eqn:E; [done|]. intros _.
    assert (forall t, t ∈ w :: ws -> token_value t <> None) as Hall.
    { intros t Ht Hn. apply not_true_iff_false in E as []. apply existsb_elem. exists t. by rewrite Hn. }
    split; [done|]. split.
    + cbn. destruct (token_value w) eqn:Ew; [done|]. exfalso. apply (Hall w); [by left|done].
    + cbn [tail]. apply Forall_fmap, Forall_forall. intros t Ht. apply Hall. by right.
Qed.

(** ** A concrete run *)

Definition sample_command : jstring := #"FOO=1 node 'a b' > out | wc -l".

Definition sample_state : ScanState :=
  match scan sample_command COMMAND_LEXER_DEFAULT_LIMITS posix_shell with
  | Ok st => st
  | Err _ => {| issues := []; partCount := 0; tokens := [] |}
  end.

Definition sample_position (n : Z) : value :=
  VRecord [(#"byteOffset", VInteger n); (#"utf16Offset", VInteger n); (#"line", VInteger 0); (#"utf16Column", VInteger n)].

Definition sample_input : value :=
  VRecord [(#"text", VString sample_command); (#"dialect", VString #"posix-shell");
        (#"provenance",
         VRecord [(#"collectorId", VString #"scripts"); (#"factId", VNull); (#"sourceKind", VString #"caller");
               (#"source", VRecord [(#"path", VString #"package.json");
                                 (#"range", VRecord [(#"start", sample_position 0); (#"end", sample_position 30)])])])].

Lemma lexer_lossless_witness :
  scan sample_command COMMAND_LEXER_DEFAULT_LIMITS posix_shell = Ok sample_state /\
  map token_raw (tokens sample_state)
  = [ #"FOO=1"; #"node"; #"'a b'"; #">"; #"out"; #"|"; #"wc"; #"-l"] /\
  exists gaps, Forall spaces gaps /\ sample_command = interleave gaps (map token_raw (tokens sample_state)).
Proof.
  assert (scan sample_command COMMAND_LEXER_DEFAULT_LIMITS posix_shell = Ok sample_state) as Hok by by vm_compute.
  split; [exact Hok|]. split; [by vm_compute|].
  destruct (lexer_lossless _ _ _ _ Hok) as [(gaps & Hg & _ & Ht) _]. exists gaps. by split.
Defined.

Lemma lexer_within_limits_witness :
  exists r, lexCommandEvidence (fun s => s) (fun _ => None) sample_input VUndefined = Ok r /\
    length (invocations r) = 2 /\ (N.of_nat (length (result_tokens r)) <= result_limits r maximumTokens)%N.
Proof.
  destruct (lexCommandEvidence (fun s => s) (fun _ => None) sample_input VUndefined) as [r|] eqn:E;
    [|vm_compute in E; discriminate E].
  exists r. split; [done|]. split.
  - assert (length (invocations (match lexCommandEvidence (fun s => s) (fun _ => None) sample_input VUndefined with
      | Ok r => r | Err _ => r end)) = 2) as H by by vm_compute.
    rewrite E in H. exact H.
  - exact (proj1 (proj2 (lexer_within_limits _ _ _ _ r E))).
Defined.

Lemma invocations_follow_tokens_witness :
  exists invs, buildInvocations (fun s => s) sample_command COMMAND_LEXER_DEFAULT_LIMITS sample_state posix_shell
    = Ok invs /\ map i_executable invs = [Some #"node"; Some #"wc"] /\
    exists groups, mjoin groups = List.filter (fun t => negb (is_operator t)) (tokens sample_state).
Proof.
  destruct (buildInvocations (fun s => s) sample_command COMMAND_LEXER_DEFAULT_LIMITS sample_state posix_shell)
    as [invs|] eqn:E; [|vm_compute in E; discriminate E].
  exists invs. split; [done|]. split.
  - vm_compute in E. injection E as <-. by vm_compute.
  - destruct (invocations_follow_tokens _ _ _ _ _ _ E) as (groups & Hg & _). by exists groups.
Defined.
