(* ===== verification/Json.v ===== *)
(** The text [JSON.stringify] gives a tree of strings, nulls, arrays and
    objects, and the fact every key made with it relies on: the text determines
    the tree. *)
From S2P Require Import Prelude JsString Unicode JsValue.

Inductive json :=
| JsonNull
| JsonStr (text : jstring)
| JsonArr (elements : list json)
| JsonObj (members : list (jstring * json)).

Definition QUOTE : N := 34.
Definition ESCAPE : N := 92.

(** [\u] and four lower-case digits. *)
Definition u_escape (c : N) : jstring :=
  [ESCAPE; 117%N; hex_digit (c / 4096); hex_digit (c / 256 mod 16); hex_digit (c / 16 mod 16);
   hex_digit (c mod 16)].

Definition escape_unit (c : N) : jstring :=
  if (c =? QUOTE)%N then [ESCAPE; QUOTE]
  else if (c =? ESCAPE)%N then [ESCAPE; ESCAPE]
  else if (c =? 8)%N then [ESCAPE; 98%N]
  else if (c =? 12)%N then [ESCAPE; 102%N]
  else if (c =? 10)%N then [ESCAPE; 110%N]
  else if (c =? 13)%N then [ESCAPE; 114%N]
  else if (c =? 9)%N then [ESCAPE; 116%N]
  else if (c <? 32)%N then u_escape c
  else [c].

(** Lone surrogates are escaped, pairs are kept. *)
Fixpoint json_units (s : jstring) : jstring :=
  match s with
  | [] => []
  | u :: r =>
      if is_high u then
        match r with
        | v :: r' => if is_low v then u :: v :: json_units r' else u_escape u ++ json_units r
        | [] => u_escape u
        end
      else if is_low u then u_escape u ++ json_units r
      else escape_unit u ++ json_units r
  end.

Definition json_string (s : jstring) : jstring := QUOTE :: json_units s ++ [QUOTE].

(** [first] holds at the first entry, which no comma precedes. *)
Fixpoint json_text (value : json) : jstring :=
  match value with
  | JsonNull => #"null"
  | JsonStr s => json_string s
  | JsonArr elements =>
      91%N ::
      (fix text_of (first : bool) (l : list json) : jstring :=
         match l with
         | [] => [93%N]
         | v :: l' => (if first then [] else [44%N]) ++ json_text v ++ text_of false l'
         end) true elements
  | JsonObj members =>
      123%N ::
      (fix text_of (first : bool) (l : list (jstring * json)) : jstring :=
         match l with
         | [] => [125%N]
         | (k, v) :: l' =>
             (if first then [] else [44%N]) ++ json_string k ++ [58%N] ++ json_text v ++ text_of false l'
         end) true members
  end.

(** ** Reading a string back *)

Definition unescape (c : N) : option N :=
  if (c =? QUOTE)%N then Some QUOTE
  else if (c =? ESCAPE)%N then Some ESCAPE
  else if (c =? 98)%N then Some 8%N
  else if (c =? 102)%N then Some 12%N
  else if (c =? 110)%N then Some 10%N
  else if (c =? 114)%N then Some 13%N
  else if (c =? 116)%N then Some 9%N
  else None.

Definition digit_of (c : N) : N := (if c <? 58 then c - 48 else c - 87)%N.

(** The units up to the closing quote, and what follows it. *)
Fixpoint read_units (s : jstring) : option (jstring * jstring) :=
  match s with
  | [] => None
  | c :: r =>
      if (c =? QUOTE)%N then Some ([], r)
      else if (c =? ESCAPE)%N then
        match r with
        | x :: r1 =>
            if (x =? 117)%N then
              match r1 with
              | a :: b :: d :: e :: r2 =>
                  '(t, rest) ← read_units r2;
                  Some ((digit_of a * 4096 + digit_of b * 256 + digit_of d * 16 + digit_of e)%N :: t, rest)
              | _ => None
              end
            else y ← unescape x; '(t, rest) ← read_units r1; Some (y :: t, rest)
        | [] => None
        end
      else '(t, rest) ← read_units r; Some (c :: t, rest)
  end.

Lemma digit_of_hex n : (n < 16)%N -> digit_of (hex_digit n) = n.
Proof. unfold digit_of, hex_digit. intros. repeat case_match; bool_prop; lia. Qed.

Definition consed (c : N) (m : option (jstring * jstring)) : option (jstring * jstring) :=
  '(t, rest) ← m; Some (c :: t, rest).

Lemma read_u_escape c r : (c < 0x10000)%N -> read_units (u_escape c ++ r) = consed c (read_units r).
Proof.
  intros Hc. unfold u_escape. cbn -[N.div N.modulo N.add N.mul digit_of hex_digit].
  rewrite !digit_of_hex by lia. unfold consed. destruct (read_units r) as [[t rest]|]; [|done]. cbn.
  do 3 f_equal. lia.
Qed.

Lemma read_plain c r : c <> QUOTE -> c <> ESCAPE -> read_units (c :: r) = consed c (read_units r).
Proof. intros H1%N.eqb_neq H2%N.eqb_neq. cbn [read_units]. by rewrite H1, H2. Qed.

Lemma read_escape_unit c r : read_units (escape_unit c ++ r) = consed c (read_units r).
Proof.
  unfold escape_unit.
  destruct (N.eqb_spec c QUOTE) as [->|H1]; [done|]. destruct (N.eqb_spec c ESCAPE) as [->|H2]; [done|].
  destruct (N.eqb_spec c 8) as [->|_]; [done|]. destruct (N.eqb_spec c 12) as [->|_]; [done|].
  destruct (N.eqb_spec c 10) as [->|_]; [done|]. destruct (N.eqb_spec c 13) as [->|_]; [done|].
  destruct (N.eqb_spec c 9) as [->|_]; [done|]. destruct (N.ltb_spec c 32).
  - apply read_u_escape. lia.
  - by apply read_plain.
Qed.

Lemma surrogate_plain u : is_high u = true \/ is_low u = true -> u <> QUOTE /\ u <> ESCAPE /\ (u < 0x10000)%N.
Proof. unfold is_high, is_low, QUOTE, ESCAPE. intros [H|H]; bool_prop; lia. Qed.

Lemma json_units_cons2 u v r :
  json_units (u :: v :: r) =
  if is_high u then if is_low v then u :: v :: json_units r else u_escape u ++ json_units (v :: r)
  else if is_low u then u_escape u ++ json_units (v :: r) else escape_unit u ++ json_units (v :: r).
Proof. done. Qed.

Lemma read_json_units s r : read_units (json_units s ++ QUOTE :: r) = Some (s, r).
Proof.
  revert r. induction s as [|u|u v s IH1 IH2] using jstring_ind2; intros r; [done|..].
  - cbn [json_units]. pose proof (surrogate_plain u) as Hs.
    destruct (is_high u); [|destruct (is_low u)]; rewrite ?app_nil_r.
    + rewrite read_u_escape by (apply Hs; by left). done.
    + rewrite read_u_escape by (apply Hs; by right). done.
    + by rewrite read_escape_unit.
  - rewrite json_units_cons2. pose proof (surrogate_plain u) as Hs. pose proof (surrogate_plain v) as Hv.
    destruct (is_high u); [destruct (is_low v)|destruct (is_low u)]; rewrite <- ?app_assoc.
    + destruct Hs as (? & ? & _); [by left|]. destruct Hv as (? & ? & _); [by right|].
      cbn [app]. rewrite !read_plain, IH1 by done. done.
    + rewrite read_u_escape, IH2 by (apply Hs; by left). done.
    + rewrite read_u_escape, IH2 by (apply Hs; by right). done.
    + by rewrite read_escape_unit, IH2.
Qed.

Lemma json_string_prefix s t r1 r2 : json_string s ++ r1 = json_string t ++ r2 -> s = t /\ r1 = r2.
Proof.
  unfold json_string. cbn [app]. rewrite <- !app_assoc. intros [= H].
  pose proof (read_json_units s r1) as Hs. cbn [app] in H. rewrite H, read_json_units in Hs.
  by simplify_eq.
Qed.

(** ** The text determines the tree *)

Fixpoint elements_text (first : bool) (l : list json) : jstring :=
  match l with
  | [] => [93%N]
  | v :: l' => (if first then [] else [44%N]) ++ json_text v ++ elements_text false l'
  end.

Fixpoint members_text (first : bool) (l : list (jstring * json)) : jstring :=
  match l with
  | [] => [125%N]
  | (k, v) :: l' =>
      (if first then [] else [44%N]) ++ json_string k ++ [58%N] ++ json_text v ++ members_text false l'
  end.

Lemma json_text_arr l : json_text (JsonArr l) = 91%N :: elements_text true l.
Proof. done. Qed.
Lemma json_text_obj l : json_text (JsonObj l) = 123%N :: members_text true l.
Proof. done. Qed.

Definition first_unit (v : json) : N :=
  match v with JsonNull => 110 | JsonStr _ => 34 | JsonArr _ => 91 | JsonObj _ => 123 end.

Lemma json_text_first v : exists r, json_text v = first_unit v :: r.
Proof. destruct v; by eexists. Qed.

Lemma json_text_not_close v r r' : json_text v ++ r = 93%N :: r' -> False.
Proof. destruct (json_text_first v) as [q ->]. by destruct v. Qed.

Definition prefix_free (a : json) : Prop :=
  forall b r1 r2, json_text a ++ r1 = json_text b ++ r2 -> a = b /\ r1 = r2.

Lemma elements_prefix l :
  Forall prefix_free l -> forall first k r1 r2,
  elements_text first l ++ r1 = elements_text first k ++ r2 -> l = k /\ r1 = r2.
Proof.
  induction 1 as [|a l Ha Hl IH]; intros first [|b k] r1 r2; cbn [elements_text]; rewrite <- ?app_assoc.
  - by intros [= ->].
  - intros Heq. destruct first; [|done]. by apply eq_sym, json_text_not_close in Heq.
  - intros Heq. destruct first; [|done]. by apply json_text_not_close in Heq.
  - intros Heq%app_inv_head. apply Ha in Heq as [-> Heq]. by apply IH in Heq as [-> ->].
Qed.

Lemma members_prefix l :
  Forall (fun m => prefix_free m.2) l -> forall first k r1 r2,
  members_text first l ++ r1 = members_text first k ++ r2 -> l = k /\ r1 = r2.
Proof.
  induction 1 as [|[x a] l Ha Hl IH]; intros first [|[y b] k] r1 r2; cbn [members_text];
    rewrite <- ?app_assoc.
  - by intros [= ->].
  - intros Heq. by destruct first.
  - intros Heq. by destruct first.
  - cbn [snd] in Ha. intros Heq%app_inv_head. apply json_string_prefix in Heq as [-> Heq].
    apply app_inv_head in Heq. apply Ha in Heq as [-> Heq]. by apply IH in Heq as [-> ->].
Qed.

Lemma json_text_prefix : forall a, prefix_free a.
Proof.
  fix IH 1. intros a b r1 r2 Heq.
  assert (first_unit a = first_unit b) as Hf.
  { destruct (json_text_first a) as [qa Ea], (json_text_first b) as [qb Eb]. rewrite Ea, Eb in Heq.
    by injection Heq. }
  destruct a as [|s|l|l], b as [|t|k|k]; try discriminate Hf; clear Hf.
  - split; [done|]. by apply app_inv_head in Heq.
  - cbn [json_text] in Heq. by apply json_string_prefix in Heq as [-> ->].
  - rewrite !json_text_arr in Heq. injection Heq as Heq.
    apply elements_prefix in Heq as [-> ->]; [done|]. clear Heq.
    induction l as [|a l IHl]; constructor; [apply IH|done].
  - rewrite !json_text_obj in Heq. injection Heq as Heq.
    apply members_prefix in Heq as [-> ->]; [done|]. clear Heq.
    induction l as [|[x a] l IHl]; constructor; [apply IH|done].
Qed.

Lemma json_text_inj a b : json_text a = json_text b -> a = b.
Proof.
  intros Heq. apply (json_text_prefix a b [] []). by rewrite Heq.
Qed.

Lemma json_strings_inj (l k : list jstring) : JsonArr (map JsonStr l) = JsonArr (map JsonStr k) -> l = k.
Proof. intros [= Heq]. revert Heq. apply list_fmap_eq_inj. by intros ?? [= ->]. Qed.

#[export] Hint Resolve json_text_inj json_strings_inj : s2.
