(* ===== verification/DiagnosticBaseline.v ===== *)
(** Diagnostic baselines (packages/core/src/diagnostic-baseline.ts): the
    identities of baseline entries, the generation of a baseline and the
    comparison of a run with one. *)
From S2P Require Import Prelude JsString Unicode Identifiers JsValue Json RepositoryPath OutputSanitization Fingerprint.
From stdpp Require Import gmap.

(** ** Data *)

Inductive BaselineDiagnosticKind := lint | configuration_error | parser_error.

Definition BASELINE_DIAGNOSTIC_KINDS : list (jstring * BaselineDiagnosticKind) :=
  [(#"lint", lint); (#"configuration-error", configuration_error); (#"parser-error", parser_error)].

Inductive BaselineComparisonStatus := matched | new | expired | incompatible | ambiguous.

Definition MAX_BASELINE_PATH_MOVES : nat := N.to_nat 10000.
Definition MAX_BASELINE_SERIALIZED_BYTES : N := 67108864.
Arguments MAX_BASELINE_PATH_MOVES : simpl never.

Inductive DiagnosticSeverity := error | info | warning.

Definition severity_name (s : DiagnosticSeverity) : jstring :=
  match s with error => #"error" | info => #"info" | warning => #"warning" end.

Inductive RelatedEvidence :=
| resolution (profileId surfaceId specSnapshotId : jstring)
| spec (specSnapshotId : jstring)
| source
| repository_fact.

(** What the module reads of a diagnostic. *)
Record Diagnostic := {
  id : jstring;
  d_ruleId : jstring;
  d_ruleVersion : jstring;
  d_severity : DiagnosticSeverity;
  primary_path : jstring;
  related : list RelatedEvidence;
  basis_path_profileIds : list jstring;
  basis_semantic_profileIds : list jstring;
  fingerprints_path : jstring;
  fingerprints_semantic : jstring
}.

Record BaselinePathMove := {
  fromPath : jstring;
  toPath : jstring;
  move_ruleId : jstring;
  move_semanticFingerprint : jstring
}.

Record BaselineEntry := {
  ruleId : jstring;
  ruleVersion : jstring;
  severity : DiagnosticSeverity;
  path : jstring;
  semanticFingerprint : jstring;
  pathFingerprint : jstring;
  provenanceFingerprint : jstring;
  profileIds : list jstring;
  surfaceIds : list jstring;
  specSnapshotIds : list jstring;
  firstSeenAt : jstring;
  entry_expiresAt : option jstring
}.

Inductive BaselineOperationIssueCode :=
  invalid_baseline | invalid_diagnostics | invalid_input | resource_limit.

Record BaselineOperationIssue := {
  issue_code : BaselineOperationIssueCode;
  issue_path : jstring;
  issue_message : jstring
}.

Abbreviation baseline_res := (res (list BaselineOperationIssue)).

Inductive BaselineComparisonReason :=
| exact_match | path_move | not_in_baseline
| non_suppressible_configuration_error | non_suppressible_parser_error
| baseline_expired | entry_expired
| engine_version_changed | profile_identity_changed | rule_version_changed | severity_changed
| diagnostic_provenance_changed | fingerprint_changed
| path_move_unproven | fingerprint_collision | ambiguous_path_move.

Record BaselineDiagnosticComparison := {
  diagnosticIndex : nat;
  diagnosticId : jstring;
  status : BaselineComparisonStatus;
  reason : BaselineComparisonReason;
  visible : bool;
  baselineEntryIndex : option nat
}.

(** [true] stands for the reason "expired", [false] for "not-observed". *)
Record BaselineStaleEntry := {
  stale_index : nat;
  stale_ruleId : jstring;
  stale_path : jstring;
  stale_expired : bool
}.

Record BaselineComparisonSummary := {
  count_matched : nat;
  count_new : nat;
  count_stale : nat;
  count_expired : nat;
  count_incompatible : nat;
  count_ambiguous : nat
}.

Record Comparison := {
  diagnostics : list BaselineDiagnosticComparison;
  visibleDiagnosticIndexes : list nat;
  visibleDiagnosticIds : list jstring;
  staleEntries : list BaselineStaleEntry;
  summary : BaselineComparisonSummary
}.

Definition fail {A} (code : BaselineOperationIssueCode) (path message : jstring) : baseline_res A :=
  Err [{| issue_code := code; issue_path := path; issue_message := message |}].

Definition validationFail {A} (code : BaselineOperationIssueCode) (issues : list (jstring * jstring))
    : baseline_res A :=
  Err (map (fun i => {| issue_code := code; issue_path := i.1; issue_message := i.2 |}) issues).

(** What the callers do with a failed validation. *)
Definition validated {A} (code : BaselineOperationIssueCode) (r : res (list (jstring * jstring)) A)
    : baseline_res A :=
  match r with Ok a => Ok a | Err issues => validationFail code issues end.

(** Both operations answer any exception with this failure. *)
Definition thrown {A} : baseline_res A :=
  fail invalid_input #"$" #"input must be safely inspectable bounded data".

Definition or_throw {A} (m : option A) : baseline_res A :=
  match m with Some a => Ok a | None => thrown end.

(** ** Formats *)

(** [0|[1-9]\d*] *)
Definition version_part (s : jstring) : bool :=
  match s with
  | [] => false
  | 48%N :: r => jeqb r []
  | _ => forallb is_digit s
  end.

Definition VERSION (s : jstring) : bool :=
  match split_on 46 s with
  | [a; b; c] => version_part a && version_part b && version_part c
  | _ => false
  end.

Definition IDENTIFIER : jstring -> bool := STABLE_ID.

(** The seventeen digits of an instant, when the separators are in place. *)
Definition DATE_TIME (s : jstring) : option (list jstring) :=
  match s with
  | [y1; y2; y3; y4; 45; m1; m2; 45; d1; d2; 84; h1; h2; 58; i1; i2; 58; s1; s2; 46; f1; f2; f3; 90]%N =>
      let parts := [[y1; y2; y3; y4]; [m1; m2]; [d1; d2]; [h1; h2]; [i1; i2]; [s1; s2]; [f1; f2; f3]] in
      if forallb (forallb is_digit) parts then Some parts else None
  | _ => None
  end.

Definition leap (y : N) : bool :=
  (y mod 4 =? 0)%N && (negb (y mod 100 =? 0)%N || (y mod 400 =? 0)%N).

Definition days_in_month (y m : N) : N :=
  (if m =? 2 then if leap y then 29 else 28
   else if (m =? 4) || (m =? 6) || (m =? 9) || (m =? 11) then 30 else 31)%N.

(** [Date.parse] then [toISOString] give the text back exactly for the
    instants of the calendar. *)
Definition canonicalDateTime (value : jstring) : bool :=
  match map (digits_value 0) <$> DATE_TIME value with
  | Some [y; m; d; h; i; s; _] =>
      (1 <=? m)%N && (m <=? 12)%N && (1 <=? d)%N && (d <=? days_in_month y m)%N
      && (h <=? 23)%N && (i <=? 59)%N && (s <=? 59)%N
  | _ => false
  end.

(** ** Identities *)

(** [[...new Set(values)].sort(compareBytes)] *)
Definition canonicalStrings (values : list jstring) : list jstring := sort_by bytes_le (unique values).

Definition canonicalSanitizedStrings (values : list jstring) : baseline_res (list jstring) :=
  let canonical := canonicalStrings values in
  let sanitized := map sanitizeOutputText canonical in
  if (length (unique sanitized) =? length canonical)%nat
  then Ok (sort_by bytes_le sanitized)
  else thrown.

Definition strings_text (l : list jstring) : jstring := json_text (JsonArr (map JsonStr l)).

Record Provenance := {
  p_profileIds : list jstring;
  p_surfaceIds : list jstring;
  p_specSnapshotIds : list jstring;
  p_fingerprint : jstring
}.

Definition related_profileIds (r : RelatedEvidence) : list jstring :=
  match r with resolution p _ _ => [p] | _ => [] end.
Definition related_surfaceIds (r : RelatedEvidence) : list jstring :=
  match r with resolution _ s _ => [s] | _ => [] end.
Definition related_specSnapshotIds (r : RelatedEvidence) : list jstring :=
  match r with resolution _ _ x | spec x => [x] | _ => [] end.
Definition related_components (r : RelatedEvidence) : list jstring :=
  match r with
  | resolution p s x => [strings_text [ #"resolution"; p; s; x]]
  | spec x => [strings_text [ #"spec"; x]]
  | _ => []
  end.

Definition provenanceComponents (d : Diagnostic) : list jstring :=
  map (fun i => strings_text [ #"path-profile"; i]) (basis_path_profileIds d)
  ++ map (fun i => strings_text [ #"semantic-profile"; i]) (basis_semantic_profileIds d)
  ++ flat_map related_components (related d).

Definition diagnosticProvenance `{Sha256} (d : Diagnostic) : Provenance :=
  {| p_profileIds :=
       canonicalStrings (basis_path_profileIds d ++ basis_semantic_profileIds d
                         ++ flat_map related_profileIds (related d));
     p_surfaceIds := canonicalStrings (flat_map related_surfaceIds (related d));
     p_specSnapshotIds := canonicalStrings (flat_map related_specSnapshotIds (related d));
     p_fingerprint := sha256_hex (strings_text (canonicalStrings (provenanceComponents d))) |}.

Definition entryFromDiagnostic `{Sha256} (firstSeenAt : jstring) (expiresAt : option jstring)
    (d : Diagnostic) : baseline_res BaselineEntry :=
  let provenance := diagnosticProvenance d in
  profiles ← canonicalSanitizedStrings (p_profileIds provenance);
  surfaces ← canonicalSanitizedStrings (p_surfaceIds provenance);
  specs ← canonicalSanitizedStrings (p_specSnapshotIds provenance);
  Ok {| ruleId := sanitizeOutputText (d_ruleId d);
        ruleVersion := sanitizeOutputText (d_ruleVersion d);
        severity := d_severity d;
        path := sanitizeOutputText (primary_path d);
        semanticFingerprint := fingerprints_semantic d;
        pathFingerprint := fingerprints_path d;
        provenanceFingerprint := p_fingerprint provenance;
        profileIds := profiles;
        surfaceIds := surfaces;
        specSnapshotIds := specs;
        firstSeenAt := firstSeenAt;
        entry_expiresAt := expiresAt |}.

Definition strings_json (l : list jstring) : json := JsonArr (map JsonStr l).

Definition matchIdentity (e : BaselineEntry) : jstring :=
  json_text (JsonArr
    [JsonStr (ruleId e); JsonStr (ruleVersion e); JsonStr (severity_name (severity e)); JsonStr (path e);
     JsonStr (semanticFingerprint e); JsonStr (pathFingerprint e); JsonStr (provenanceFingerprint e);
     strings_json (profileIds e); strings_json (surfaceIds e); strings_json (specSnapshotIds e)]).

Definition nearIdentity (e : BaselineEntry) : jstring :=
  json_text (JsonArr [JsonStr (ruleId e); JsonStr (path e)]).

Definition semanticIdentity (e : BaselineEntry) : jstring :=
  json_text (JsonArr
    [JsonStr (ruleId e); JsonStr (ruleVersion e); JsonStr (severity_name (severity e));
     JsonStr (semanticFingerprint e); JsonStr (provenanceFingerprint e);
     strings_json (profileIds e); strings_json (surfaceIds e); strings_json (specSnapshotIds e)]).

Definition computeBaselineProvenanceDigest `{Sha256} (e : BaselineEntry) : jstring :=
  sha256_hex (semanticIdentity e).

Definition moveIdentity (toPath ruleId semanticFingerprint : jstring) : jstring :=
  json_text (JsonArr [JsonStr toPath; JsonStr ruleId; JsonStr semanticFingerprint]).

Definition appendIndex {T} (m : gmap jstring (list T)) (key : jstring) (value : T) : gmap jstring (list T) :=
  match m !! key with
  | None => <[key := [value]]> m
  | Some existing => <[key := existing ++ [value]]> m
  end.

Definition arraysEqual (left right : list jstring) : bool :=
  (length left =? length right)%nat && forallb (fun '(a, b) => jeqb a b) (zip left right).

(** *** Client profiles *)

Section profiles.
Context {F : Type}.

Definition textOf (v : jsval F) : option jstring := match v with JStr s => Some s | _ => None end.
Definition textsOf (v : jsval F) : option (list jstring) :=
  match v with JArr _ l => mapM textOf l | _ => None end.

(** The order of own keys: array indexes by value, then the others as they
    were added. *)
Definition is_index_key (key : jstring) : bool :=
  jeqb key (String_of_N (digits_value 0 key)) && (digits_value 0 key <? 4294967295)%N.
Definition own_keys (keys : list jstring) : list jstring :=
  sort_by (fun a b => digits_value 0 a <=? digits_value 0 b)%N (List.filter is_index_key keys)
  ++ List.filter (fun k => negb (is_index_key k)) keys.

(** A profile identity has been validated when it gets here; [None] is the
    exception another value raises. *)
Definition canonicalProfile (profile : jsval F) : option json :=
  match profile with
  | JRec fields =>
      version ← textOf (field_value fields #"profileVersion");
      client ← match field_value fields #"clientVersion" with
               | JNull => Some JsonNull
               | JStr s => Some (JsonStr s)
               | _ => None
               end;
      surfaces ← textsOf (field_value fields #"surfaceIds");
      specs ← textsOf (field_value fields #"specSnapshotIds");
      Some (JsonObj [(#"profileVersion", JsonStr version); (#"clientVersion", client);
                     (#"surfaceIds", strings_json (canonicalStrings surfaces));
                     (#"specSnapshotIds", strings_json (canonicalStrings specs))])
  | _ => None
  end.

(** The enumerable own properties: an array has its indexes. *)
Definition own_entries (value : jsval F) : list (jstring * jsval F) :=
  match value with
  | JRec fields => fields
  | JArr true entries => imap (fun i v => (String_of_N (N.of_nat i), v)) entries
  | _ => []
  end.

Definition canonicalProfiles (value : jsval F) : option json :=
  let sanitized := own_entries (sanitizeOutputJson value) in
  JsonObj <$> mapM (fun profileId => p ← canonicalProfile (field_value sanitized profileId);
                                     Some (profileId, p))
                   (own_keys (sort_by bytes_le (keys_of sanitized))).

Definition profilesIdentity (value : jsval F) : option jstring := json_text <$> canonicalProfiles value.

Definition identifiers (v : jsval F) : bool :=
  match textsOf v with
  | Some l => forallb IDENTIFIER l && (length (unique l) =? length l)%nat
  | None => false
  end.

Definition PROFILE_KEYS : list jstring :=
  [ #"clientVersion"; #"profileVersion"; #"specSnapshotIds"; #"surfaceIds"].

(** On values of the declared types: [VERSION.test] would coerce a version that
    is not a string. *)
Definition profileIsWellFormed (key : jstring) (profile : jsval F) : bool :=
  match profile with
  | JRec fields =>
      same_keys (keys_of fields) PROFILE_KEYS && IDENTIFIER key
      && match field_value fields #"profileVersion" with JStr s => VERSION s | _ => false end
      && match field_value fields #"clientVersion" with JNull | JStr _ => true | _ => false end
      && identifiers (field_value fields #"surfaceIds")
      && identifiers (field_value fields #"specSnapshotIds")
  | _ => false
  end.
End profiles.
Arguments PROFILE_KEYS : simpl never.

(** ** Inputs

    The validators of diagnostics, JSON values and output documents are other
    components; [Source] and [Suppression] are data only they look at. *)
Record DiagnosticBundle (Suppression : Type) := {
  bundle_diagnostics : list Diagnostic;
  bundle_suppressions : list Suppression
}.
Arguments bundle_diagnostics {Suppression} d.
Arguments bundle_suppressions {Suppression} d.

(** [profileVersions] is validated data. *)
Record BaselineOutput (F : Type) := {
  engineVersion : jstring;
  createdAt : jstring;
  expiresAt : option jstring;
  sourceRevision : jstring;
  profileVersions : jsval F;
  entries : list BaselineEntry
}.
Arguments engineVersion {F} b.
Arguments createdAt {F} b.
Arguments expiresAt {F} b.
Arguments sourceRevision {F} b.
Arguments profileVersions {F} b.
Arguments entries {F} b.

Class BaselineHost (F Source Suppression : Type) := {
  validateDiagnosticBundle :
    DiagnosticBundle Suppression -> list Source -> res (list (jstring * jstring)) (DiagnosticBundle Suppression);
  validateBaselineOutput : jsval F -> res (list (jstring * jstring)) (BaselineOutput F);
  validateJsonValue : jsval F -> bool;
  serializeNativeOutput : BaselineOutput F -> res (list (jstring * jstring)) jstring;
  JSON_parse : jstring -> option (jsval F)
}.

(** A classification is a plain record. *)
Abbreviation classification F := (list (jstring * jsval F)).

Record GenerateDiagnosticBaselineInput (F Source Suppression : Type) := {
  g_diagnostics : DiagnosticBundle Suppression;
  g_sources : list Source;
  g_classifications : list (classification F);
  g_engineVersion : jstring;
  g_sourceRevision : jstring;
  g_profileVersions : jsval F;
  g_createdAt : jstring;
  g_expiresAt : option jstring
}.

Record CompareDiagnosticBaselineInput (F Source Suppression : Type) := {
  c_baseline : jsval F;
  c_diagnostics : DiagnosticBundle Suppression;
  c_sources : list Source;
  c_classifications : list (classification F);
  c_engineVersion : jstring;
  c_profileVersions : jsval F;
  c_now : jstring;
  c_pathMoves : option (list (jsval F))
}.

Arguments g_diagnostics {F Source Suppression} g.
Arguments g_sources {F Source Suppression} g.
Arguments g_classifications {F Source Suppression} g.
Arguments g_engineVersion {F Source Suppression} g.
Arguments g_sourceRevision {F Source Suppression} g.
Arguments g_profileVersions {F Source Suppression} g.
Arguments g_createdAt {F Source Suppression} g.
Arguments g_expiresAt {F Source Suppression} g.
Arguments c_baseline {F Source Suppression} c.
Arguments c_diagnostics {F Source Suppression} c.
Arguments c_sources {F Source Suppression} c.
Arguments c_classifications {F Source Suppression} c.
Arguments c_engineVersion {F Source Suppression} c.
Arguments c_profileVersions {F Source Suppression} c.
Arguments c_now {F Source Suppression} c.
Arguments c_pathMoves {F Source Suppression} c.

Section operations.
Context `{Sha256} {F Source Suppression : Type} `{BaselineHost F Source Suppression}.

Definition kindOf (v : jsval F) : option BaselineDiagnosticKind :=
  match v with
  | JStr s => snd <$> find (fun k => jeqb k.1 s) BASELINE_DIAGNOSTIC_KINDS
  | _ => None
  end.

Definition classify (result : gmap jstring BaselineDiagnosticKind)
    (p : Diagnostic * classification F) : option (gmap jstring BaselineDiagnosticKind) :=
  let '(diagnostic, c) := p in
  kind ← kindOf (field_value c #"kind");
  if same_keys (keys_of c) [ #"diagnosticId"; #"kind"]
     && match field_value c #"diagnosticId" with JStr s => jeqb s (id diagnostic) | _ => false end
     && match result !! id diagnostic with Some _ => false | None => true end
  then Some (<[id diagnostic := kind]> result)
  else None.

Fixpoint classifyAll (result : gmap jstring BaselineDiagnosticKind)
    (l : list (Diagnostic * classification F)) : option (gmap jstring BaselineDiagnosticKind) :=
  match l with
  | [] => Some result
  | p :: r => result' ← classify result p; classifyAll result' r
  end.

Definition classificationMap (ds : list Diagnostic) (cs : list (classification F))
    : option (gmap jstring BaselineDiagnosticKind) :=
  if (length cs =? length ds)%nat then classifyAll ∅ (zip ds cs) else None.

Definition profilesAreWellFormed (profiles : jsval F) : bool :=
  let own := own_entries profiles in
  validateJsonValue profiles
  && negb (length own =? 0)%nat && (N.of_nat (length own) <=? 100000)%N
  && forallb (fun key => profileIsWellFormed key (field_value own key)) (keys_of own).

Definition validateCommon (bundle : DiagnosticBundle Suppression) (sources : list Source)
    (cs : list (classification F)) (engine : jstring) (profiles : jsval F)
    : baseline_res (gmap jstring BaselineDiagnosticKind) :=
  value ← validated invalid_diagnostics (validateDiagnosticBundle bundle sources);
  match classificationMap (bundle_diagnostics value) cs with
  | None => fail invalid_input #"$.classifications"
              #"must classify every diagnostic exactly once in caller order"
  | Some kinds =>
      if negb (VERSION engine)
      then fail invalid_input #"$.engineVersion" #"must be an exact semantic version"
      else if negb (profilesAreWellFormed profiles)
      then fail invalid_input #"$.profileVersions" #"must be closed bounded profile identities"
      else Ok kinds
  end.

(** ** Generation *)

(** [byIdentity], in the order of insertion. *)
Definition addEntry (kinds : gmap jstring BaselineDiagnosticKind) (at_ : jstring) (expiry : option jstring)
    (byIdentity : list BaselineEntry) (diagnostic : Diagnostic) : baseline_res (list BaselineEntry) :=
  match kinds !! id diagnostic with
  | Some lint =>
      entry ← entryFromDiagnostic at_ expiry diagnostic;
      if existsb (fun e => jeqb (matchIdentity e) (matchIdentity entry)) byIdentity
      then Ok byIdentity
      else Ok (byIdentity ++ [entry])
  | _ => Ok byIdentity
  end.

Definition identity_le (left right : BaselineEntry) : bool :=
  bytes_le (matchIdentity left) (matchIdentity right).

Definition baselineEntries (kinds : gmap jstring BaselineDiagnosticKind) (at_ : jstring)
    (expiry : option jstring) (ds : list Diagnostic) : baseline_res (list BaselineEntry) :=
  byIdentity ← foldM (addEntry kinds at_ expiry) [] ds;
  Ok (sort_by identity_le byIdentity).

Fixpoint json_value (j : json) : jsval F :=
  match j with
  | JsonNull => JNull
  | JsonStr s => JStr s
  | JsonArr l => JArr true (map json_value l)
  | JsonObj members => JRec (map (fun m => (m.1, json_value m.2)) members)
  end.

Definition nullable (t : option jstring) : jsval F :=
  match t with Some s => JStr s | None => JNull end.

Definition entry_value (e : BaselineEntry) : jsval F :=
  JRec [(#"ruleId", JStr (ruleId e)); (#"ruleVersion", JStr (ruleVersion e));
        (#"severity", JStr (severity_name (severity e))); (#"path", JStr (path e));
        (#"semanticFingerprint", JStr (semanticFingerprint e));
        (#"pathFingerprint", JStr (pathFingerprint e));
        (#"provenanceFingerprint", JStr (provenanceFingerprint e));
        (#"profileIds", json_value (strings_json (profileIds e)));
        (#"surfaceIds", json_value (strings_json (surfaceIds e)));
        (#"specSnapshotIds", json_value (strings_json (specSnapshotIds e)));
        (#"firstSeenAt", JStr (firstSeenAt e)); (#"expiresAt", nullable (entry_expiresAt e))].

Definition generateDiagnosticBaseline (input : GenerateDiagnosticBaselineInput F Source Suppression)
    : baseline_res (BaselineOutput F * N) :=
  kinds ← validateCommon (g_diagnostics input) (g_sources input) (g_classifications input)
            (g_engineVersion input) (g_profileVersions input);
  if negb (canonicalDateTime (g_createdAt input))
  then fail invalid_input #"$.createdAt" #"must be an explicit canonical UTC instant"
  else if match g_expiresAt input with
          | Some t => negb (canonicalDateTime t) || jleb t (g_createdAt input)
          | None => false
          end
  then fail invalid_input #"$.expiresAt" #"must be null or later than createdAt"
  else if negb (SHA256 (g_sourceRevision input))
  then fail invalid_input #"$.sourceRevision" #"must be a lowercase SHA-256 digest"
  else
    entries ← baselineEntries kinds (g_createdAt input) (g_expiresAt input)
                (bundle_diagnostics (g_diagnostics input));
    profiles ← or_throw (canonicalProfiles (g_profileVersions input));
    let baseline : jsval F :=
      JRec [(#"recordKind", JStr #"agent-context-baseline-output"); (#"schemaVersion", JStr #"1.0.0");
            (#"diagnosticContractVersion", JStr #"0.1.0");
            (#"engineVersion", JStr (g_engineVersion input));
            (#"fingerprintMethods", JRec [(#"path", JStr PATH_FINGERPRINT_METHOD);
                                          (#"semantic", JStr SEMANTIC_FINGERPRINT_METHOD)]);
            (#"createdAt", JStr (g_createdAt input)); (#"expiresAt", nullable (g_expiresAt input));
            (#"sourceRevision", JStr (g_sourceRevision input));
            (#"profileVersions", json_value profiles);
            (#"entries", JArr true (map entry_value entries))] in
    value ← validated invalid_input (validateBaselineOutput baseline);
    text ← validated invalid_input (serializeNativeOutput value);
    if (MAX_BASELINE_SERIALIZED_BYTES <? textBytes text)%N
    then fail resource_limit #"$" #"baseline exceeds the serialized byte limit"
    else
      parsed ← or_throw (JSON_parse text);
      result ← validated invalid_input (validateBaselineOutput parsed);
      Ok (result, textBytes text).

(** ** Comparison *)

Definition MOVE_KEYS : list jstring := [ #"fromPath"; #"ruleId"; #"semanticFingerprint"; #"toPath"].

(** The declaration, when it passes the tests of [validateMoves]. *)
Definition moveOf (candidate : jsval F) : option BaselinePathMove :=
  match candidate with
  | JRec move =>
      if same_keys (keys_of move) MOVE_KEYS then
        match field_value move #"fromPath", field_value move #"toPath",
              field_value move #"ruleId", field_value move #"semanticFingerprint" with
        | JStr from, JStr to, JStr rule, JStr semantic =>
            if isRepositoryRelativePath from && isRepositoryRelativePath to && negb (jeqb from to)
               && IDENTIFIER rule && SHA256 semantic
            then Some {| fromPath := from; toPath := to; move_ruleId := rule;
                         move_semanticFingerprint := semantic |}
            else None
        | _, _, _, _ => None
        end
      else None
  | _ => None
  end.

Definition validateMoves (value : list (jsval F)) : option (list BaselinePathMove) :=
  if (MAX_BASELINE_PATH_MOVES <? length value)%nat then None else mapM moveOf value.

Definition incompatibilityReason (baseline current : BaselineEntry) : BaselineComparisonReason :=
  if negb (jeqb (ruleVersion baseline) (ruleVersion current)) then rule_version_changed
  else if negb (jeqb (severity_name (severity baseline)) (severity_name (severity current)))
  then severity_changed
  else if negb (jeqb (provenanceFingerprint baseline) (provenanceFingerprint current))
          || negb (arraysEqual (profileIds baseline) (profileIds current))
          || negb (arraysEqual (surfaceIds baseline) (surfaceIds current))
          || negb (arraysEqual (specSnapshotIds baseline) (specSnapshotIds current))
  then diagnostic_provenance_changed
  else fingerprint_changed.

Definition past (t : option jstring) (now : jstring) : bool :=
  match t with Some t => jleb t now | None => false end.

Definition expiredReason (baseline : BaselineOutput F) (entry : BaselineEntry) (now : jstring)
    : option BaselineComparisonReason :=
  if past (expiresAt baseline) now then Some baseline_expired
  else if past (entry_expiresAt entry) now then Some entry_expired
  else None.

Definition count_key (m : gmap jstring nat) (key : jstring) : gmap jstring nat :=
  <[key := S (default 0 (m !! key))]> m.

Abbreviation indexed := (BaselineEntry * nat)%type.

(** The maps built before the loop. *)
Record Indexes := {
  currentIdentityCounts : gmap jstring nat;
  currentSemanticCounts : gmap jstring nat;
  exactEntries : gmap jstring (list indexed);
  nearEntries : gmap jstring (list indexed);
  semanticEntries : gmap jstring (list indexed);
  moveDeclarations : gmap jstring (list BaselinePathMove)
}.

Definition index_by {T} (key : T -> jstring) (l : list T) : gmap jstring (list T) :=
  fold_left (fun m x => appendIndex m (key x) x) l ∅.
Definition counts_by {T} (key : T -> jstring) (l : list T) : gmap jstring nat :=
  fold_left (fun m x => count_key m (key x)) l ∅.

Definition with_indexes {T} (l : list T) : list (T * nat) := zip l (seq 0 (length l)).

Definition buildIndexes (baseline : BaselineOutput F) (currentEntries : list BaselineEntry)
    (moves : list BaselinePathMove) : Indexes :=
  let indexedEntries := with_indexes (entries baseline) in
  {| currentIdentityCounts := counts_by matchIdentity currentEntries;
     currentSemanticCounts := counts_by semanticIdentity currentEntries;
     exactEntries := index_by (fun e : indexed => matchIdentity e.1) indexedEntries;
     nearEntries := index_by (fun e : indexed => nearIdentity e.1) indexedEntries;
     semanticEntries := index_by (fun e : indexed => semanticIdentity e.1) indexedEntries;
     moveDeclarations :=
       index_by (fun m => moveIdentity (toPath m) (move_ruleId m) (move_semanticFingerprint m)) moves |}.

(** What one turn of the loop pushes; [consumes] when the entry it names is
    added to [consumed]. *)
Record Outcome := {
  o_status : BaselineComparisonStatus;
  o_reason : BaselineComparisonReason;
  o_visible : bool;
  o_entry : option nat;
  consumes : bool
}.

Definition shown (s : BaselineComparisonStatus) (r : BaselineComparisonReason) (e : option nat) : Outcome :=
  {| o_status := s; o_reason := r; o_visible := true; o_entry := e; consumes := false |}.

Section loop.
Context (baseline : BaselineOutput F) (now : jstring) (ix : Indexes).
Context (globalReason : option BaselineComparisonReason).

Definition found (candidate : indexed) (r : BaselineComparisonReason) : Outcome :=
  match expiredReason baseline candidate.1 now with
  | None => {| o_status := matched; o_reason := r; o_visible := false; o_entry := Some candidate.2;
               consumes := true |}
  | Some e => {| o_status := expired; o_reason := e; o_visible := true; o_entry := Some candidate.2;
                 consumes := true |}
  end.

Definition moveOutcome (current : BaselineEntry) : Outcome :=
  let declarations :=
    default [] (moveDeclarations ix !! moveIdentity (path current) (ruleId current)
                                                    (semanticFingerprint current)) in
  let semanticCandidates := default [] (semanticEntries ix !! semanticIdentity current) in
  match declarations with
  | [] => shown new (match semanticCandidates with [] => not_in_baseline | _ => path_move_unproven end) None
  | _ =>
      let eligible :=
        List.filter (fun c : indexed => existsb (fun m => jeqb (fromPath m) (path c.1)) declarations)
          semanticCandidates in
      match declarations, eligible, default 0 (currentSemanticCounts ix !! semanticIdentity current) with
      | [_], [candidate], 1 => found candidate path_move
      | _, _, _ => shown ambiguous ambiguous_path_move None
      end
  end.

Definition nearOutcome (current : BaselineEntry) : Outcome :=
  match default [] (nearEntries ix !! nearIdentity current) with
  | [candidate] => shown incompatible (incompatibilityReason candidate.1 current) (Some candidate.2)
  | _ :: _ :: _ => shown ambiguous fingerprint_collision None
  | [] => moveOutcome current
  end.

Definition exactOutcome (current : BaselineEntry) : Outcome :=
  match default [] (exactEntries ix !! matchIdentity current),
        default 0 (currentIdentityCounts ix !! matchIdentity current) with
  | [candidate], 1 => found candidate exact_match
  | [_], S (S _) | _ :: _ :: _, _ => shown ambiguous fingerprint_collision None
  | _, _ => nearOutcome current
  end.

Definition outcome (kind : option BaselineDiagnosticKind) (current : BaselineEntry) : Outcome :=
  match kind with
  | Some lint =>
      match globalReason with
      | Some r => shown incompatible r None
      | None => exactOutcome current
      end
  | Some parser_error => shown new non_suppressible_parser_error None
  | _ => shown new non_suppressible_configuration_error None
  end.

Definition comparisonOf (index : nat) (d : Diagnostic) (o : Outcome) : BaselineDiagnosticComparison :=
  {| diagnosticIndex := index; diagnosticId := sanitizeOutputText (id d); status := o_status o;
     reason := o_reason o; visible := o_visible o; baselineEntryIndex := o_entry o |}.

Definition compareStep (kinds : gmap jstring BaselineDiagnosticKind)
    (st : list BaselineDiagnosticComparison * gset nat) (x : Diagnostic * BaselineEntry * nat)
    : list BaselineDiagnosticComparison * gset nat :=
  let '(d, current, index) := x in
  let o := outcome (kinds !! id d) current in
  (st.1 ++ [comparisonOf index d o],
   match consumes o, o_entry o with true, Some e => {[e]} ∪ st.2 | _, _ => st.2 end).

Definition staleStep (consumed : gset nat) (e : indexed) : list BaselineStaleEntry :=
  if bool_decide (e.2 ∈ consumed) then []
  else [{| stale_index := e.2; stale_ruleId := sanitizeOutputText (ruleId e.1);
           stale_path := sanitizeOutputText (path e.1);
           stale_expired := match expiredReason baseline e.1 now with Some _ => true | None => false end |}].
End loop.

Definition has_status (s : BaselineComparisonStatus) (c : BaselineDiagnosticComparison) : bool :=
  match status c, s with
  | matched, matched | new, new | expired, expired | incompatible, incompatible
  | ambiguous, ambiguous => true
  | _, _ => false
  end.
Definition countIf {A} (f : A -> bool) (l : list A) : nat := length (List.filter f l).

Definition comparisonResult (comparisons : list BaselineDiagnosticComparison)
    (stale : list BaselineStaleEntry) : Comparison :=
  {| diagnostics := comparisons;
     visibleDiagnosticIndexes := map diagnosticIndex (List.filter visible comparisons);
     visibleDiagnosticIds := map diagnosticId (List.filter visible comparisons);
     staleEntries := stale;
     summary :=
       {| count_matched := countIf (has_status matched) comparisons;
          count_new := countIf (has_status new) comparisons;
          count_stale := countIf (fun e => negb (stale_expired e)) stale;
          count_expired := countIf (has_status expired) comparisons + countIf stale_expired stale;
          count_incompatible := countIf (has_status incompatible) comparisons;
          count_ambiguous := countIf (has_status ambiguous) comparisons |} |}.

(** The body after validation. *)
Definition compareEntries (baseline : BaselineOutput F) (now : jstring)
    (kinds : gmap jstring BaselineDiagnosticKind) (globalReason : option BaselineComparisonReason)
    (moves : list BaselinePathMove) (ds : list Diagnostic) (currentEntries : list BaselineEntry)
    : Comparison :=
  let ix := buildIndexes baseline currentEntries moves in
  let '(comparisons, consumed) :=
    fold_left (compareStep baseline now ix globalReason kinds)
      (with_indexes (zip ds currentEntries)) ([], ∅) in
  comparisonResult comparisons
    (flat_map (staleStep baseline now consumed) (with_indexes (entries baseline))).

Definition globalReasonOf (baseline : BaselineOutput F) (engine : jstring) (baselineProfiles currentProfiles : jstring)
    : option BaselineComparisonReason :=
  if negb (jeqb (engineVersion baseline) engine) then Some engine_version_changed
  else if negb (jeqb baselineProfiles currentProfiles) then Some profile_identity_changed
  else None.

Definition compareDiagnosticBaseline (input : CompareDiagnosticBaselineInput F Source Suppression)
    : baseline_res Comparison :=
  baseline ← validated invalid_baseline (validateBaselineOutput (c_baseline input));
  kinds ← validateCommon (c_diagnostics input) (c_sources input) (c_classifications input)
            (c_engineVersion input) (c_profileVersions input);
  if negb (canonicalDateTime (c_now input))
  then fail invalid_input #"$.now" #"must be an explicit canonical UTC instant"
  else
    match validateMoves (default [] (c_pathMoves input)) with
    | None => fail invalid_input #"$.pathMoves" #"must contain closed unambiguous move declarations"
    | Some moves =>
        let ds := bundle_diagnostics (c_diagnostics input) in
        currentEntries ← rmapM (entryFromDiagnostic (c_now input) None) ds;
        baselineProfiles ← or_throw (profilesIdentity (profileVersions baseline));
        currentProfiles ← or_throw (profilesIdentity (c_profileVersions input));
        Ok (compareEntries baseline (c_now input) kinds
              (globalReasonOf baseline (c_engineVersion input) baselineProfiles currentProfiles)
              moves ds currentEntries)
    end.

Definition baselineValidationIssues (input : jsval F) : list (jstring * jstring) :=
  match validateBaselineOutput input with Ok _ => [] | Err issues => issues end.
End operations.
Arguments MOVE_KEYS : simpl never.
