(* ===== verification/DiagnosticBaselineLaws.v ===== *)
(** What a baseline can and cannot hide: the laws of the maps, of one turn of
    the comparison loop, and the properties of generation and comparison. *)
From S2P Require Import Prelude JsString Unicode Identifiers JsValue Json RepositoryPath OutputSanitization Fingerprint DiagnosticBaseline.
From stdpp Require Import gmap.

(** ** Lists *)

Lemma countIf_app {A} (f : A -> bool) l k : countIf f (l ++ k) = countIf f l + countIf f k.
Proof. unfold countIf. by rewrite List.filter_app, length_app. Qed.

Lemma countIf_split {A} (f : A -> bool) l : countIf f l + countIf (fun x => negb (f x)) l = length l.
Proof. unfold countIf. induction l as [|x l IH]; cbn; [done|]. destruct (f x); cbn; lia. Qed.

Lemma countIf_two {A} (f : A -> bool) l i j x y :
  l !! i = Some x -> l !! j = Some y -> i <> j -> f x = true -> f y = true -> 2 <= countIf f l.
Proof.
  intros Hi Hj Hne Hx Hy.
  assert (forall i j x y, l !! i = Some x -> l !! j = Some y -> i < j -> f x = true -> f y = true ->
          2 <= countIf f l) as Hlt.
  { clear. intros i j x y Hi Hj Hlt Hx Hy. apply list_elem_of_split_length in Hi as (l1 & l2 & -> & Hl).
    rewrite lookup_app_r in Hj by lia. destruct (j - length l1) as [|k] eqn:Ek; [lia|]. cbn in Hj.
    apply list_elem_of_split_length in Hj as (l3 & l4 & -> & _).
    unfold countIf. repeat (rewrite List.filter_app || cbn [List.filter] || rewrite Hx || rewrite Hy).
    rewrite length_app. cbn. rewrite length_app. cbn. lia. }
  destruct (Nat.lt_total i j) as [?|[?|?]]; [by eapply (Hlt i j)|lia|by eapply (Hlt j i)].
Qed.

Lemma elem_of_filter_bool {A} (f : A -> bool) l x : x ∈ List.filter f l <-> x ∈ l /\ f x = true.
Proof. rewrite !list_elem_of_In. apply filter_In. Qed.

Lemma lookup_with_indexes {T} (l : list T) i x j :
  with_indexes l !! i = Some (x, j) <-> l !! i = Some x /\ j = i.
Proof.
  unfold with_indexes. rewrite lookup_zip_Some, lookup_seq. split; [by intros (? & -> & _)|].
  intros [Hx ->]. split; [done|]. split; [done|]. by eapply lookup_lt_Some.
Qed.

Lemma elem_of_with_indexes {T} (l : list T) x j : (x, j) ∈ with_indexes l <-> l !! j = Some x.
Proof.
  rewrite list_elem_of_lookup. setoid_rewrite lookup_with_indexes. split; [by intros (? & ? & ->)|].
  intros ?. by exists j.
Qed.

Lemma countIf_none {A} (f : A -> bool) l : (forall x, x ∈ l -> f x = false) -> countIf f l = 0.
Proof.
  unfold countIf. induction l as [|x l IH]; intros Hf; [done|]. cbn [List.filter].
  rewrite Hf by set_solver. apply IH. intros y Hy. apply Hf. set_solver.
Qed.

Lemma countIf_one {A} (f : A -> bool) l i x :
  l !! i = Some x -> f x = true -> (forall i' y, l !! i' = Some y -> f y = true -> i' = i) ->
  countIf f l = 1.
Proof.
  intros Hi Hx Huniq. pose proof Hi as (l1 & l2 & -> & Hl)%list_elem_of_split_length.
  rewrite countIf_app. change (x :: l2) with ([x] ++ l2). rewrite countIf_app.
  assert (countIf f [x] = 1) as -> by (unfold countIf; cbn; by rewrite Hx).
  rewrite !countIf_none; [done| |].
  - intros y [k Hk]%list_elem_of_lookup. apply not_true_iff_false. intros Hy.
    specialize (Huniq (length l1 + S k) y). rewrite lookup_app_r in Huniq by lia.
    replace (length l1 + S k - length l1) with (S k) in Huniq by lia. specialize (Huniq Hk Hy). lia.
  - intros y [k Hk]%list_elem_of_lookup. apply not_true_iff_false. intros Hy.
    pose proof (lookup_lt_Some _ _ _ Hk). specialize (Huniq k y).
    rewrite lookup_app_l in Huniq by lia. specialize (Huniq Hk Hy). lia.
Qed.

(** ** Maps *)

Lemma fold_appendIndex {T} (key : T -> jstring) l m k :
  default [] (fold_left (fun m x => appendIndex m (key x) x) l m !! k)
  = default [] (m !! k) ++ List.filter (fun x => jeqb (key x) k) l.
Proof.
  revert m. induction l as [|x l IH]; intros m; cbn [fold_left List.filter]; [by rewrite app_nil_r|].
  rewrite IH. unfold appendIndex. destruct (decide (key x = k)) as [<-|Hne].
  - rewrite jeqb_refl. destruct (m !! key x) eqn:E; rewrite lookup_insert_eq; cbn; [|done].
    by rewrite <- app_assoc.
  - rewrite (proj2 (jeqb_neq _ _) Hne). by destruct (m !! key x); rewrite lookup_insert_ne.
Qed.

Lemma index_by_lookup {T} (key : T -> jstring) l k :
  default [] (index_by key l !! k) = List.filter (fun x => jeqb (key x) k) l.
Proof. unfold index_by. by rewrite fold_appendIndex, lookup_empty. Qed.

Lemma counts_by_lookup {T} (key : T -> jstring) l k :
  default 0 (counts_by key l !! k) = countIf (fun x => jeqb (key x) k) l.
Proof.
  unfold counts_by.
  enough (forall m, default 0 (fold_left (fun m x => count_key m (key x)) l m !! k)
                    = default 0 (m !! k) + countIf (fun x => jeqb (key x) k) l) as Hgen.
  { by rewrite Hgen, lookup_empty. }
  unfold countIf. induction l as [|x l IH]; intros m; cbn [fold_left List.filter]; [cbn; lia|].
  rewrite IH. unfold count_key. destruct (decide (key x = k)) as [<-|Hne].
  - rewrite jeqb_refl, lookup_insert_eq. cbn. lia.
  - by rewrite (proj2 (jeqb_neq _ _) Hne), lookup_insert_ne.
Qed.

(** ** Identities *)

Definition same_semantics (a b : BaselineEntry) : Prop :=
  ruleId a = ruleId b /\ ruleVersion a = ruleVersion b /\ severity a = severity b /\
  semanticFingerprint a = semanticFingerprint b /\ provenanceFingerprint a = provenanceFingerprint b /\
  profileIds a = profileIds b /\ surfaceIds a = surfaceIds b /\ specSnapshotIds a = specSnapshotIds b.

Definition same_identity (a b : BaselineEntry) : Prop :=
  same_semantics a b /\ path a = path b /\ pathFingerprint a = pathFingerprint b.

Lemma severity_name_inj a b : severity_name a = severity_name b -> a = b.
Proof. by destruct a, b. Qed.

Lemma strings_json_inj l k : strings_json l = strings_json k -> l = k.
Proof. apply json_strings_inj. Qed.

Ltac json_inv H :=
  apply json_text_inj in H; injection H as; 
  repeat match goal with
  | E : severity_name _ = severity_name _ |- _ => apply severity_name_inj in E
  | E : strings_json _ = strings_json _ |- _ => apply strings_json_inj in E
  | E : map JsonStr _ = map JsonStr _ |- _ =>
      apply (f_equal JsonArr) in E; apply json_strings_inj in E
  end.

Lemma semanticIdentity_eq a b : semanticIdentity a = semanticIdentity b <-> same_semantics a b.
Proof.
  split.
  - intros Heq. json_inv Heq. done.
  - intros (H1 & H2 & H3 & H4 & H5 & H6 & H7 & H8). unfold semanticIdentity. congruence.
Qed.

Lemma matchIdentity_eq a b : matchIdentity a = matchIdentity b <-> same_identity a b.
Proof.
  split.
  - intros Heq. json_inv Heq. done.
  - intros [(H1 & H2 & H3 & H4 & H5 & H6 & H7 & H8) [H9 H10]]. unfold matchIdentity. congruence.
Qed.

Lemma nearIdentity_eq a b : nearIdentity a = nearIdentity b <-> ruleId a = ruleId b /\ path a = path b.
Proof.
  split.
  - intros Heq. json_inv Heq. done.
  - intros [H1 H2]. unfold nearIdentity. congruence.
Qed.

Lemma moveIdentity_eq a b c a' b' c' :
  moveIdentity a b c = moveIdentity a' b' c' <-> a = a' /\ b = b' /\ c = c'.
Proof.
  split.
  - intros Heq. json_inv Heq. done.
  - intros (-> & -> & ->). done.
Qed.

(** ** One turn of the loop *)

Definition unexpired {F} (baseline : BaselineOutput F) (entry : BaselineEntry) (now : jstring) : Prop :=
  past (expiresAt baseline) now = false /\ past (entry_expiresAt entry) now = false.

(** A declaration that a diagnostic moved from the path of an entry. *)
Definition declares (moves : list BaselinePathMove) (entry current : BaselineEntry) : Prop :=
  exists m, m ∈ moves /\ fromPath m = path entry /\ toPath m = path current /\
    move_ruleId m = ruleId current /\ move_semanticFingerprint m = semanticFingerprint current.

Section outcomes.
Context {F : Type} (baseline : BaselineOutput F) (now : jstring).
Context (currents : list BaselineEntry) (moves : list BaselinePathMove).

Definition ix := buildIndexes baseline currents moves.

Definition semantic_twins (e : BaselineEntry) : nat :=
  countIf (fun c => jeqb (semanticIdentity c) (semanticIdentity e)) currents.
Definition identity_twins (e : BaselineEntry) : nat :=
  countIf (fun c => jeqb (matchIdentity c) (matchIdentity e)) currents.

(** How an entry is matched: by its identity, which no other entry and no
    other diagnostic has, or by a declared move of the only diagnostic with
    its semantic identity. *)
Inductive matches (current : BaselineEntry) (j : nat) (e : BaselineEntry) : BaselineComparisonReason -> Prop :=
| by_identity :
    entries baseline !! j = Some e -> same_identity e current ->
    (forall j' e', entries baseline !! j' = Some e' -> same_identity e' current -> j' = j) ->
    identity_twins current = 1 -> matches current j e exact_match
| by_move :
    entries baseline !! j = Some e -> same_semantics e current -> declares moves e current ->
    semantic_twins current = 1 -> matches current j e path_move.

Lemma expiredReason_None e : expiredReason baseline e now = None <-> unexpired baseline e now.
Proof.
  unfold expiredReason, unexpired.
  destruct (past (expiresAt baseline) now), (past (entry_expiresAt e) now); split; done || by intros [].
Qed.

Lemma filter_single_unique {T} (f : T -> bool) (l : list T) j x :
  List.filter (fun c : T * nat => f c.1) (with_indexes l) = [(x, j)] ->
  l !! j = Some x /\ f x = true /\ forall j' x', l !! j' = Some x' -> f x' = true -> j' = j.
Proof.
  intros Hf. assert ((x, j) ∈ List.filter (fun c : T * nat => f c.1) (with_indexes l)) as Hin.
  { rewrite Hf. set_solver. }
  apply elem_of_filter_bool in Hin as [Hin%elem_of_with_indexes Hx]. split; [done|]. split; [done|].
  intros j' x' Hl Hx'.
  assert ((x', j') ∈ List.filter (fun c : T * nat => f c.1) (with_indexes l)) as Hin'.
  { apply elem_of_filter_bool. split; [by apply elem_of_with_indexes|done]. }
  rewrite Hf in Hin'. apply list_elem_of_singleton in Hin'. by simplify_eq.
Qed.

(** The outcomes [found] makes are the only ones that consume or hide. *)
Definition from_found (o : Outcome) (current : BaselineEntry) : Prop :=
  (consumes o = false /\ o_visible o = true /\ o_status o <> matched /\ o_status o <> expired) \/
  exists j e r, o = found baseline now (e, j) r /\ matches current j e r.

Lemma moveOutcome_found current : from_found (moveOutcome baseline now ix current) current.
Proof.
  unfold moveOutcome, ix, buildIndexes. cbn [moveDeclarations semanticEntries currentSemanticCounts].
  rewrite !index_by_lookup, counts_by_lookup.
  destruct (List.filter _ moves) as [|m ms] eqn:Em; [by left|].
  destruct ms as [|]; [|by left].
  destruct (List.filter _ (List.filter _ _)) as [|[e j] [|]] eqn:Ee; [by left| |by left].
  destruct (countIf _ _) as [|[|]] eqn:Ec; [by left| |by left].
  right. exists j, e, path_move. split; [done|].
  assert ((e, j) ∈ [(e, j)]) as Hin by set_solver. rewrite <- Ee in Hin.
  apply elem_of_filter_bool in Hin as [Hin Hmove]. apply elem_of_filter_bool in Hin as [Hin Hsem].
  apply elem_of_with_indexes in Hin. cbn [fst] in *.
  assert (m ∈ [m]) as Hm by set_solver. rewrite <- Em in Hm.
  apply elem_of_filter_bool in Hm as [Hm Hid%jeqb_eq%moveIdentity_eq].
  constructor; [done|by apply semanticIdentity_eq, jeqb_eq| |done].
  exists m. cbn [existsb] in Hmove. rewrite orb_false_r in Hmove. apply jeqb_eq in Hmove.
  split; [done|]. split; [done|]. done.
Qed.

Lemma nearOutcome_found current : from_found (nearOutcome baseline now ix current) current.
Proof.
  unfold nearOutcome. destruct (default [] _) as [|c [|]]; [apply moveOutcome_found|by left..].
Qed.

Lemma exactOutcome_found current : from_found (exactOutcome baseline now ix current) current.
Proof.
  unfold exactOutcome.
  assert (default 0 (currentIdentityCounts ix !! matchIdentity current) = identity_twins current) as ->.
  { apply counts_by_lookup. }
  assert (default [] (exactEntries ix !! matchIdentity current)
          = List.filter (fun c : BaselineEntry * nat => jeqb (matchIdentity c.1) (matchIdentity current))
              (with_indexes (entries baseline))) as ->.
  { apply index_by_lookup. }
  destruct (List.filter _ _) as [|[e j] [|]] eqn:E; [apply nearOutcome_found| |by left].
  destruct (identity_twins current) as [|[|]] eqn:Ec; [apply nearOutcome_found| |by left].
  right. exists j, e, exact_match. split; [done|].
  apply (filter_single_unique (fun e => jeqb (matchIdentity e) (matchIdentity current))) in E
    as (He & Hid & Huniq).
  constructor; [done|by apply matchIdentity_eq, jeqb_eq| |done].
  intros j' e' He' Hid'. apply (Huniq j' e' He'). by apply jeqb_eq, matchIdentity_eq.
Qed.

Lemma outcome_found globalReason kind current :
  from_found (outcome baseline now ix globalReason kind current) current /\
  (consumes (outcome baseline now ix globalReason kind current) = true ->
   kind = Some lint /\ globalReason = None).
Proof.
  unfold outcome. destruct kind as [[]|]; [|split; [by left|done]..].
  destruct globalReason; [split; [by left|done]|]. split; [apply exactOutcome_found|done].
Qed.

(** A consumed entry has the semantics of the diagnostic, and at most one
    diagnostic can consume it. *)
Lemma matches_semantics current j e r :
  matches current j e r -> entries baseline !! j = Some e /\ same_semantics e current.
Proof. by intros [? []|]. Qed.

Lemma matches_once i i' current current' j e e' r r' :
  currents !! i = Some current -> currents !! i' = Some current' ->
  matches current j e r -> matches current' j e' r' -> i = i'.
Proof.
  intros Hi Hi' Hm Hm'. destruct (decide (i = i')) as [|Hne]; [done|]. exfalso.
  destruct (matches_semantics _ _ _ _ Hm) as [He Hs], (matches_semantics _ _ _ _ Hm') as [He' Hs'].
  assert (e' = e) as -> by congruence.
  apply semanticIdentity_eq in Hs, Hs'.
  assert (2 <= semantic_twins current) as H2.
  { apply (countIf_two _ _ i i' current current'); [auto with s2..|]. apply jeqb_eq. congruence. }
  assert (semantic_twins current' = semantic_twins current) as Heq.
  { unfold semantic_twins. by rewrite <- Hs, <- Hs'. }
  inversion Hm as [_ Hid _ Hone|]; subst; [|lia]. inversion Hm' as [_ Hid' _ Hone'|]; subst; [|lia].
  apply matchIdentity_eq in Hid, Hid'.
  assert (2 <= identity_twins current); [|lia].
  apply (countIf_two _ _ i i' current current'); [auto with s2..|]. apply jeqb_eq. congruence.
Qed.
End outcomes.

(** ** The loop *)

Lemma NoDup_omap_lookup {A B} (f : A -> option B) l :
  (forall i i' x x' b, l !! i = Some x -> l !! i' = Some x' -> f x = Some b -> f x' = Some b -> i = i') ->
  NoDup (omap f l).
Proof.
  induction l as [|x l IH]; intros Hinj; cbn; [constructor|].
  assert (NoDup (omap f l)) as Hnd.
  { apply IH. intros i i' y y' b Hi Hi' Hy Hy'.
    specialize (Hinj (S i) (S i') y y' b Hi Hi' Hy Hy'). lia. }
  destruct (f x) as [b|] eqn:E; [|done]. constructor; [|done].
  intros (y & Hy & Hb)%list_elem_of_omap. apply list_elem_of_lookup in Hy as [i Hi].
  by specialize (Hinj 0 (S i) x y b eq_refl Hi E Hb).
Qed.

(** The baseline entry a comparison uses up. *)
Definition taken (c : BaselineDiagnosticComparison) : option nat :=
  match status c with matched | expired => baselineEntryIndex c | _ => None end.

Section loop.
Context {F : Type} (baseline : BaselineOutput F) (now : jstring).
Context (kinds : gmap jstring BaselineDiagnosticKind) (globalReason : option BaselineComparisonReason).
Context (moves : list BaselinePathMove) (ds : list Diagnostic) (currents : list BaselineEntry).

Definition turn (x : Diagnostic * BaselineEntry * nat) : Outcome :=
  outcome baseline now (ix baseline currents moves) globalReason (kinds !! id x.1.1) x.1.2.
Definition turns : list (Diagnostic * BaselineEntry * nat) := with_indexes (zip ds currents).
Definition pushed (x : Diagnostic * BaselineEntry * nat) : BaselineDiagnosticComparison :=
  comparisonOf x.2 x.1.1 (turn x).

Lemma fold_compareStep xs st :
  let r := fold_left (compareStep baseline now (ix baseline currents moves) globalReason kinds) xs st in
  r.1 = st.1 ++ map pushed xs /\
  forall e, e ∈ r.2 <-> e ∈ st.2 \/ exists x, x ∈ xs /\ consumes (turn x) = true /\ o_entry (turn x) = Some e.
Proof.
  revert st. induction xs as [|[[d c] i] xs IH]; intros st; cbn [fold_left map].
  { rewrite app_nil_r. split; [done|]. set_solver. }
  destruct (IH (compareStep baseline now (ix baseline currents moves) globalReason kinds st (d, c, i)))
    as [H1 H2]. split.
  - rewrite H1. unfold compareStep. cbn [fst]. by rewrite <- app_assoc.
  - intros e. rewrite H2. clear H1 H2 IH.
    assert (e ∈ (compareStep baseline now (ix baseline currents moves) globalReason kinds st (d, c, i)).2 <->
      e ∈ st.2 \/ (consumes (turn (d, c, i)) = true /\ o_entry (turn (d, c, i)) = Some e)) as ->.
    { unfold compareStep. cbn [snd]. change (outcome _ _ _ _ _ _) with (turn (d, c, i)).
      destruct (consumes (turn (d, c, i))), (o_entry (turn (d, c, i))) as [e'|]; try (split; [by left|by intros [?|[]]]).
      rewrite elem_of_union, elem_of_singleton. split; [intros [->|?]; [by right|by left]|].
      intros [?|[_ [= ->]]]; [by right|by left]. }
    setoid_rewrite elem_of_cons. split.
    + intros [[?|?]|(x & ? & ?)]; [by left|right; by exists (d, c, i); auto|right; exists x; auto].
    + intros [?|(x & [->|?] & ?)]; [by left; left|by left; right|right; by exists x].
Qed.

Definition result : Comparison := compareEntries baseline now kinds globalReason moves ds currents.

Definition finalConsumed : gset nat :=
  (fold_left (compareStep baseline now (ix baseline currents moves) globalReason kinds) turns ([], ∅)).2.

Lemma result_eq :
  result = comparisonResult (map pushed turns)
             (flat_map (staleStep baseline now finalConsumed) (with_indexes (entries baseline))).
Proof.
  unfold result, compareEntries. fold (ix baseline currents moves). fold turns.
  pose proof (fold_compareStep turns ([], ∅)) as [H1 _]. unfold finalConsumed.
  destruct (fold_left _ turns _) as [cs s]. cbn [fst snd app] in *. by subst cs.
Qed.

Lemma lookup_turns i d c : ds !! i = Some d -> currents !! i = Some c -> turns !! i = Some (d, c, i).
Proof. intros Hd Hc. unfold turns. apply lookup_with_indexes. split; [|done]. by apply lookup_zip_Some. Qed.

Lemma lookup_turns_inv i x : turns !! i = Some x ->
  ds !! i = Some x.1.1 /\ currents !! i = Some x.1.2 /\ x.2 = i.
Proof. destruct x as [[d c] j]. unfold turns. intros [[? ?]%lookup_zip_Some ->]%lookup_with_indexes. done. Qed.

Lemma taken_pushed x e : taken (pushed x) = Some e <-> consumes (turn x) = true /\ o_entry (turn x) = Some e.
Proof.
  destruct (outcome_found baseline now currents moves globalReason (kinds !! id x.1.1) x.1.2) as [Hf _].
  fold (turn x) in Hf. unfold taken, pushed, comparisonOf. cbn [status baselineEntryIndex].
  destruct Hf as [(Hc & _ & H1 & H2)|(j & e' & r & -> & _)].
  - rewrite Hc. split; [by destruct (o_status (turn x))|by intros []].
  - unfold found. destruct (expiredReason _ _ _); cbn; by split; [|intros []].
Qed.

Lemma taken_matches x e : taken (pushed x) = Some e -> exists entry r,
  matches baseline currents moves x.1.2 e entry r /\ turn x = found baseline now (entry, e) r /\
  kinds !! id x.1.1 = Some lint /\ globalReason = None.
Proof.
  intros [Hc He]%taken_pushed.
  destruct (outcome_found baseline now currents moves globalReason (kinds !! id x.1.1) x.1.2) as [Hf Hk].
  fold (turn x) in Hf, Hk. destruct (Hk Hc) as [? ?].
  destruct Hf as [(Hc' & _)|(j & e' & r & Ht & Hm)]; [congruence|].
  assert (j = e) as ->; [|by exists e', r].
  rewrite Ht in He. unfold found in He. by destruct (expiredReason _ _ _); injection He.
Qed.

Lemma finalConsumed_taken e : e ∈ finalConsumed <-> e ∈ omap taken (map pushed turns).
Proof.
  unfold finalConsumed. destruct (fold_compareStep turns ([], ∅)) as [_ H2]. rewrite H2.
  rewrite list_elem_of_omap. cbn [snd]. split.
  - intros [?|(x & Hx & Ht%taken_pushed)]; [set_solver|]. exists (pushed x). split; [|done].
    by apply list_elem_of_fmap_2.
  - intros (c & (x & -> & Hx)%list_elem_of_fmap & Ht%taken_pushed). right. by exists x.
Qed.

Lemma taken_NoDup : NoDup (omap taken (map pushed turns)).
Proof.
  apply NoDup_omap_lookup. intros i i' c c' e Hi Hi' Hc Hc'.
  rewrite list_lookup_fmap in Hi, Hi'.
  apply fmap_Some in Hi as (x & Hx & ->), Hi' as (x' & Hx' & ->).
  apply taken_matches in Hc as (? & ? & Hm & _), Hc' as (? & ? & Hm' & _).
  apply lookup_turns_inv in Hx as (_ & Hx & _), Hx' as (_ & Hx' & _).
  by eapply matches_once.
Qed.

Lemma stale_indexes : map stale_index (flat_map (staleStep baseline now finalConsumed) (with_indexes (entries baseline)))
  = List.filter (fun j => negb (bool_decide (j ∈ finalConsumed))) (seq 0 (length (entries baseline))).
Proof.
  unfold with_indexes. generalize 0 as k. induction (entries baseline) as [|e es IH]; intros k; [done|].
  cbn [length seq zip zip_with flat_map List.filter]. rewrite map_app, IH. unfold staleStep at 1. cbn [snd].
  by destruct (bool_decide _).
Qed.

Lemma taken_bound e : e ∈ omap taken (map pushed turns) -> e < length (entries baseline).
Proof.
  intros (c & (x & -> & _)%list_elem_of_fmap & Ht)%list_elem_of_omap.
  apply taken_matches in Ht as (entry & r & Hm & _). apply matches_semantics in Hm as [Hl _].
  by eapply lookup_lt_Some.
Qed.

Lemma entries_partition :
  omap taken (diagnostics result) ++ map stale_index (staleEntries result) ≡ₚ seq 0 (length (entries baseline)).
Proof.
  rewrite result_eq. cbn [diagnostics staleEntries comparisonResult]. rewrite stale_indexes.
  apply NoDup_Permutation.
  - apply NoDup_app. split; [apply taken_NoDup|]. split.
    + intros e He [_ Hn]%elem_of_filter_bool. apply finalConsumed_taken in He.
      by rewrite bool_decide_true in Hn.
    + apply NoDup_ListNoDup, List.NoDup_filter, NoDup_ListNoDup, NoDup_seq.
  - apply NoDup_seq.
  - intros e. rewrite elem_of_app, elem_of_filter_bool, elem_of_seq, <- finalConsumed_taken. split.
    + intros [He|[? _]]; [|lia]. apply finalConsumed_taken, taken_bound in He. lia.
    + intros He. destruct (decide (e ∈ finalConsumed)); [by left|]. right. split; [lia|].
      by rewrite bool_decide_false.
Qed.
End loop.

Lemma turns_indexes ds currents :
  length currents = length ds -> map (fun x => x.2) (turns ds currents) = seq 0 (length ds).
Proof.
  intros Hl. unfold turns, with_indexes. assert (length (zip ds currents) = length ds) as ->.
  { rewrite length_zip. lia. }
  apply (snd_zip (zip ds currents)). rewrite length_zip, length_seq. lia.
Qed.

Lemma turns_diagnostics ds currents :
  length currents = length ds -> map (fun x => x.1.1) (turns ds currents) = ds.
Proof.
  intros Hl. rewrite <- (map_map fst fst). unfold turns, with_indexes.
  rewrite (fst_zip (zip ds currents)) by (by rewrite length_seq). apply fst_zip. lia.
Qed.

Lemma statuses_count cs :
  length cs = countIf (has_status matched) cs + countIf (has_status new) cs
    + countIf (has_status expired) cs + countIf (has_status incompatible) cs
    + countIf (has_status ambiguous) cs.
Proof.
  unfold countIf, has_status. induction cs as [|c cs IH]; [done|]. cbn [List.filter length].
  destruct (status c); cbn [length]; lia.
Qed.

(** ** Operations *)

Section operations.
Context `{Sha256} {F Source Suppression : Type} `{BaselineHost F Source Suppression}.

(** What a successful comparison has established. *)
Record compared (input : CompareDiagnosticBaselineInput F Source Suppression) (r : Comparison)
    (baseline : BaselineOutput F) (kinds : gmap jstring BaselineDiagnosticKind)
    (moves : list BaselinePathMove) (currents : list BaselineEntry)
    (baselineProfiles currentProfiles : json) : Prop := {
  c_validated : validateBaselineOutput (c_baseline input) = Ok baseline;
  c_common : validateCommon (c_diagnostics input) (c_sources input) (c_classifications input)
               (c_engineVersion input) (c_profileVersions input) = Ok kinds;
  c_clock : canonicalDateTime (c_now input) = true;
  c_moves : validateMoves (default [] (c_pathMoves input)) = Some moves;
  c_currents : rmapM (entryFromDiagnostic (c_now input) None) (bundle_diagnostics (c_diagnostics input))
               = Ok currents;
  c_baselineProfiles : canonicalProfiles (profileVersions baseline) = Some baselineProfiles;
  c_currentProfiles : canonicalProfiles (c_profileVersions input) = Some currentProfiles;
  c_result : r = result baseline (c_now input) kinds
                   (globalReasonOf baseline (c_engineVersion input)
                      (json_text baselineProfiles) (json_text currentProfiles))
                   moves (bundle_diagnostics (c_diagnostics input)) currents
}.

Lemma or_throw_Ok {A} (m : option A) a : or_throw m = Ok a <-> m = Some a.
Proof. destruct m; cbn; split; intros [=]; by subst. Qed.

Lemma validated_Ok {A} code (m : res (list (jstring * jstring)) A) a : validated code m = Ok a <-> m = Ok a.
Proof. destruct m; cbn; split; intros [=]; by subst. Qed.

Lemma compare_Ok input r :
  compareDiagnosticBaseline input = Ok r ->
  exists baseline kinds moves currents bp cp, compared input r baseline kinds moves currents bp cp.
Proof.
  unfold compareDiagnosticBaseline. intros Hr.
  apply bind_Ok in Hr as (baseline & Hb%validated_Ok & Hr). apply bind_Ok in Hr as (kinds & Hk & Hr).
  destruct (canonicalDateTime (c_now input)) eqn:Hc; [|done]. cbn [negb] in Hr.
  destruct (validateMoves _) as [moves|] eqn:Hm; [|done].
  apply bind_Ok in Hr as (currents & Hcur & Hr). apply bind_Ok in Hr as (tb & Htb%or_throw_Ok & Hr).
  apply bind_Ok in Hr as (tc & Htc%or_throw_Ok & Hr).
  apply fmap_Some in Htb as (bp & Hbp & ->), Htc as (cp & Hcp & ->).
  injection Hr as <-. exists baseline, kinds, moves, currents, bp, cp. by constructor.
Qed.

Lemma globalReasonOf_None (baseline : BaselineOutput F) (bp cp : json) engine :
  globalReasonOf baseline engine (json_text bp) (json_text cp) = None <->
  engineVersion baseline = engine /\ bp = cp.
Proof.
  unfold globalReasonOf. destruct (jeqb (engineVersion baseline) engine) eqn:E1; cbn [negb].
  - apply jeqb_eq in E1. destruct (jeqb (json_text bp) (json_text cp)) eqn:E2; cbn [negb].
    + apply jeqb_eq, json_text_inj in E2. done.
    + apply jeqb_neq in E2. split; [done|]. intros [_ ->]. done.
  - apply jeqb_neq in E1. split; [done|by intros []].
Qed.

Section compared.
Context {input : CompareDiagnosticBaselineInput F Source Suppression} {r : Comparison}.
Context {baseline : BaselineOutput F} {kinds : gmap jstring BaselineDiagnosticKind}.
Context {moves : list BaselinePathMove} {currents : list BaselineEntry} {bp cp : json}.
Hypothesis Hcompared : compared input r baseline kinds moves currents bp cp.

Abbreviation ds := (bundle_diagnostics (c_diagnostics input)).
Abbreviation reason_ := (globalReasonOf baseline (c_engineVersion input) (json_text bp) (json_text cp)).

Lemma compared_length : length currents = length ds.
Proof. apply (rmapM_length _ _ _ (c_currents _ _ _ _ _ _ _ _ Hcompared)). Qed.

Lemma compared_diagnostics :
  diagnostics r = map (pushed baseline (c_now input) kinds reason_ moves currents) (turns ds currents).
Proof. rewrite (c_result _ _ _ _ _ _ _ _ Hcompared), result_eq. done. Qed.

Lemma compared_lookup i c :
  diagnostics r !! i = Some c <->
  exists d current, ds !! i = Some d /\ currents !! i = Some current /\
    entryFromDiagnostic (c_now input) None d = Ok current /\
    c = pushed baseline (c_now input) kinds reason_ moves currents (d, current, i).
Proof.
  rewrite compared_diagnostics, list_lookup_fmap. split.
  - intros ([[d current] j] & Hx & ->)%fmap_Some. apply lookup_turns_inv in Hx as (Hd & Hc & <-).
    exists d, current. cbn [fst snd] in *. split; [done|]. split; [done|]. split; [|done].
    pose proof (c_currents _ _ _ _ _ _ _ _ Hcompared) as Hr. apply rmapM_Ok in Hr.
    destruct (Forall2_lookup_l _ _ _ _ _ Hr Hd) as (c' & Hc' & He). congruence.
  - intros (d & current & Hd & Hc & _ & ->). by rewrite (lookup_turns _ _ i d current).
Qed.
End compared.

(** ** Properties *)

(**  The comparison answers for every diagnostic, in order: the i-th
    comparison carries the index i and the sanitized id of the i-th
    diagnostic, the visible lists are its visible part, and every diagnostic
    and every leftover baseline entry is counted once in the summary. *)
Theorem comparison_covers_diagnostics (input : CompareDiagnosticBaselineInput F Source Suppression)
  (r : Comparison) (Hok : compareDiagnosticBaseline input = Ok r) :
  let ds := bundle_diagnostics (c_diagnostics input) in
  map diagnosticIndex (diagnostics r) = seq 0 (length ds) /\
  map diagnosticId (diagnostics r) = map (fun d => sanitizeOutputText (id d)) ds /\
  (forall i, i ∈ visibleDiagnosticIndexes r <->
     exists c, diagnostics r !! i = Some c /\ visible c = true) /\
  let s := summary r in
  count_matched s + count_new s + count_stale s + count_expired s + count_incompatible s + count_ambiguous s
  = length ds + length (staleEntries r).
Proof.
  apply compare_Ok in Hok as (baseline & kinds & moves & currents & bp & cp & Hc). cbv zeta.
  pose proof (compared_length Hc) as Hlen. pose proof (compared_diagnostics Hc) as Hd.
  split; [|split; [|split]].
  - rewrite Hd, map_map. by rewrite <- (turns_indexes _ _ Hlen).
  - rewrite Hd, map_map. rewrite <- (turns_diagnostics _ _ Hlen) at 2. by rewrite map_map.
  - assert (visibleDiagnosticIndexes r = map diagnosticIndex (List.filter visible (diagnostics r))) as ->.
    { rewrite (c_result _ _ _ _ _ _ _ _ Hc), result_eq. done. }
    intros i. rewrite list_elem_of_fmap. setoid_rewrite elem_of_filter_bool. split.
    + intros (c & -> & Hin & Hv). apply list_elem_of_lookup in Hin as [j Hj].
      exists c. split; [|done]. pose proof Hj as (d & cur & _ & _ & _ & ->)%(compared_lookup Hc). exact Hj.
    + intros (c & Hl & Hv). exists c. pose proof Hl as (d & cur & _ & _ & _ & ->)%(compared_lookup Hc).
      split; [done|]. split; [|done]. by eapply list_elem_of_lookup_2.
  - assert (length (diagnostics r) = length (bundle_diagnostics (c_diagnostics input))) as <-.
    { rewrite Hd, length_map.
      rewrite <- (length_map (fun x => x.2)), turns_indexes by done. apply length_seq. }
    rewrite (statuses_count (diagnostics r)).
    rewrite (c_result _ _ _ _ _ _ _ _ Hc), result_eq. cbn [summary comparisonResult count_matched count_new
      count_stale count_expired count_incompatible count_ambiguous staleEntries diagnostics].
    match goal with |- context [countIf stale_expired ?l] => rewrite <- (countIf_split stale_expired l) end.
    lia.
Qed.
(** C23.  Nothing is hidden without cause: a diagnostic that a comparison hides
    was classified as a lint, the engine version and the canonical profile
    identities are those of the baseline, neither the baseline nor the entry
    has expired, and the entry matches by the whole identity, uniquely on both
    sides, or by the whole semantic identity and a declared move. *)
Theorem hidden_is_justified (input : CompareDiagnosticBaselineInput F Source Suppression)
  (r : Comparison) (i : nat) (c : BaselineDiagnosticComparison)
  (Hok : compareDiagnosticBaseline input = Ok r)
  (Hi : diagnostics r !! i = Some c) (Hhidden : visible c = false) :
  exists baseline kinds moves currents d current j e,
    validateBaselineOutput (c_baseline input) = Ok baseline /\
    validateCommon (c_diagnostics input) (c_sources input) (c_classifications input)
      (c_engineVersion input) (c_profileVersions input) = Ok kinds /\
    validateMoves (default [] (c_pathMoves input)) = Some moves /\
    rmapM (entryFromDiagnostic (c_now input) None) (bundle_diagnostics (c_diagnostics input)) = Ok currents /\
    bundle_diagnostics (c_diagnostics input) !! i = Some d /\ currents !! i = Some current /\
    kinds !! id d = Some lint /\
    engineVersion baseline = c_engineVersion input /\
    canonicalProfiles (profileVersions baseline) = canonicalProfiles (c_profileVersions input) /\
    unexpired baseline e (c_now input) /\
    baselineEntryIndex c = Some j /\ matches baseline currents moves current j e (reason c).
Proof.
  apply compare_Ok in Hok as (baseline & kinds & moves & currents & bp & cp & Hc).
  apply (compared_lookup Hc) in Hi as (d & current & Hd & Hcur & _ & ->).
  unfold pushed, comparisonOf, turn in *. cbn [visible reason baselineEntryIndex fst snd] in *.
  destruct (outcome_found baseline (c_now input) currents moves
    (globalReasonOf baseline (c_engineVersion input) (json_text bp) (json_text cp)) (kinds !! id d) current)
    as [[(_ & Hv & _)|(j & e & r' & Ho & Hm)] Hk]; [congruence|].
  rewrite Ho in *. unfold found in *. cbn [fst snd] in *.
  destruct (expiredReason baseline e (c_now input)) eqn:Ee; [done|].
  apply expiredReason_None in Ee. destruct (Hk eq_refl) as [Hkind [Heng ->]%globalReasonOf_None].
  destruct Hc. exists baseline, kinds, moves, currents, d, current, j, e. cbn [o_entry o_reason].
  rewrite c_baselineProfiles0, c_currentProfiles0. done.
Qed.

(** A baseline entry is used at most once: the entries named by the
    matched and expired comparisons are distinct, and together with the stale
    ones they are the entries of the baseline, each once. *)
Theorem baseline_entries_accounted (input : CompareDiagnosticBaselineInput F Source Suppression)
  (r : Comparison) (Hok : compareDiagnosticBaseline input = Ok r) :
  exists baseline, validateBaselineOutput (c_baseline input) = Ok baseline /\
    omap taken (diagnostics r) ++ map stale_index (staleEntries r)
    ≡ₚ seq 0 (length (entries baseline)).
Proof.
  apply compare_Ok in Hok as (baseline & kinds & moves & currents & bp & cp & Hc).
  exists baseline. split; [apply Hc|]. rewrite (c_result _ _ _ _ _ _ _ _ Hc). apply entries_partition.
Qed.

(** *** Generation *)

Lemma entry_identity t t' x x' d e :
  entryFromDiagnostic t x d = Ok e ->
  exists e', entryFromDiagnostic t' x' d = Ok e' /\ matchIdentity e' = matchIdentity e /\
    entry_expiresAt e = x.
Proof.
  unfold entryFromDiagnostic. intros He. res_inv. rewrite Hv. cbn [mbind res_mbind].
  rewrite Hv0. cbn [mbind res_mbind]. rewrite Hv1. cbn [mbind res_mbind].
  eexists. split; [done|]. by subst e.
Qed.

Definition is_lint (kinds : gmap jstring BaselineDiagnosticKind) (d : Diagnostic) : Prop :=
  kinds !! id d = Some lint.

(** The entries stand for the lints, and only for them. *)
Definition stands_for (kinds : gmap jstring BaselineDiagnosticKind) (at_ : jstring) (expiry : option jstring)
    (ds : list Diagnostic) (es : list BaselineEntry) : Prop :=
  NoDup (map matchIdentity es) /\
  (forall e, e ∈ es -> exists d, d ∈ ds /\ is_lint kinds d /\ entryFromDiagnostic at_ expiry d = Ok e) /\
  (forall d, d ∈ ds -> is_lint kinds d -> exists e e', e ∈ es /\
     entryFromDiagnostic at_ expiry d = Ok e' /\ matchIdentity e' = matchIdentity e).

Lemma addEntries_stand kinds at_ expiry ds es :
  foldM (addEntry kinds at_ expiry) [] ds = Ok es -> stands_for kinds at_ expiry ds es.
Proof.
  intros Hf. eapply (foldM_inv (stands_for kinds at_ expiry)); [exact Hf| |].
  { split; [constructor|]. split; intros ? []%not_elem_of_nil. }
  clear Hf. intros done_ d es0 es1 (Hnd & Hfrom & Hto) _ Hstep. unfold addEntry in Hstep.
  assert (~ is_lint kinds d -> stands_for kinds at_ expiry (done_ ++ [d]) es0) as Hskip.
  { intros Hno. split; [done|]. split.
    - intros e He. destruct (Hfrom e He) as (d' & ? & ?). exists d'. split; [set_solver|done].
    - intros d' [Hd| ->%list_elem_of_singleton]%elem_of_app Hl; [by apply Hto|done]. }
  destruct (kinds !! id d) as [k|] eqn:Ek; cycle 1.
  { injection Hstep as <-. apply Hskip. unfold is_lint. congruence. }
  destruct k; [|injection Hstep as <-; apply Hskip; unfold is_lint; congruence..].
  apply bind_Ok in Hstep as (e & He & Hstep).
  destruct (existsb _ es0) eqn:Ex; injection Hstep as <-.
  - apply existsb_elem in Ex as (e0 & He0 & Hid%jeqb_eq). split; [done|]. split.
    { intros e1 He1. destruct (Hfrom e1 He1) as (d' & ? & ?). exists d'. split; [set_solver|done]. }
    intros d' [Hd| ->%list_elem_of_singleton]%elem_of_app Hl; [by apply Hto|]. by exists e0, e.
  - split; [|split].
    + rewrite map_app. apply NoDup_app. split; [done|]. split; [|apply NoDup_singleton].
      intros k Hin ->%list_elem_of_singleton. apply list_elem_of_fmap in Hin as (e0 & Hid & He0).
      apply not_true_iff_false in Ex as []. apply existsb_elem. exists e0. split; [done|].
      by apply jeqb_eq.
    + intros e0 [He0| ->%list_elem_of_singleton]%elem_of_app.
      * destruct (Hfrom e0 He0) as (d' & ? & ?). exists d'. split; [set_solver|done].
      * exists d. split; [set_solver|done].
    + intros d' [Hd| ->%list_elem_of_singleton]%elem_of_app Hl.
      * destruct (Hto d' Hd Hl) as (e0 & e' & ? & ?). exists e0, e'. split; [set_solver|done].
      * exists e, e. split; [set_solver|done].
Qed.
Lemma stands_for_perm kinds at_ expiry ds es es' :
  es ≡ₚ es' -> stands_for kinds at_ expiry ds es -> stands_for kinds at_ expiry ds es'.
Proof.
  intros Hp (Hnd & Hfrom & Hto). split; [|split].
  - by rewrite <- Hp.
  - intros e He. apply Hfrom. by rewrite Hp.
  - intros d Hd Hl. destruct (Hto d Hd Hl) as (e & e' & He & ?). exists e, e'. by rewrite <- Hp.
Qed.

Lemma baselineEntries_stand kinds at_ expiry ds es :
  baselineEntries kinds at_ expiry ds = Ok es -> stands_for kinds at_ expiry ds es.
Proof.
  unfold baselineEntries. intros (es0 & H1%addEntries_stand & [= <-])%bind_Ok.
  eapply stands_for_perm; [|done]. by rewrite sort_by_perm.
Qed.

(**  The generated entries are those of the lints: their identities are
    distinct and in order, each is the entry of a lint and carries the given
    expiry, and every lint has an entry with its identity. *)
Theorem baselineEntries_spec (kinds : gmap jstring BaselineDiagnosticKind) (at_ : jstring)
  (expiry : option jstring) (ds : list Diagnostic) (es : list BaselineEntry)
  (Hok : baselineEntries kinds at_ expiry ds = Ok es) :
  NoDup (map matchIdentity es) /\ StronglySorted (le_prop identity_le) es /\
  (forall e, e ∈ es -> firstSeenAt e = at_ /\ entry_expiresAt e = expiry /\
     exists d, d ∈ ds /\ kinds !! id d = Some lint /\ entryFromDiagnostic at_ expiry d = Ok e) /\
  (forall d, d ∈ ds -> kinds !! id d = Some lint -> exists e e', e ∈ es /\
     entryFromDiagnostic at_ expiry d = Ok e' /\ same_identity e' e).
Proof.
  pose proof Hok as (Hnd & Hfrom & Hto)%baselineEntries_stand. split; [done|]. split; [|split].
  - unfold baselineEntries in Hok. apply bind_Ok in Hok as (es0 & _ & [= <-]).
    apply sort_by_sorted; [|unfold identity_le; auto with s2].
    intros x y z. apply bytes_le_trans.
  - intros e He. destruct (Hfrom e He) as (d & Hd & Hl & Hdo). pose proof Hdo as Hdo'.
    unfold entryFromDiagnostic in Hdo'. res_inv. split; [by subst e|]. split; [by subst e|]. by exists d.
  - intros d Hd Hl. destruct (Hto d Hd Hl) as (e & e' & ? & ? & ?). exists e, e'.
    by rewrite <- matchIdentity_eq.
Qed.

Lemma filter_identity_single es j e :
  NoDup (map matchIdentity es) -> es !! j = Some e ->
  List.filter (fun c : BaselineEntry * nat => jeqb (matchIdentity c.1) (matchIdentity e)) (with_indexes es)
  = [(e, j)].
Proof.
  unfold with_indexes. intros Hnd Hj.
  enough (forall k, List.filter (fun c : BaselineEntry * nat => jeqb (matchIdentity c.1) (matchIdentity e))
            (zip es (seq k (length es))) = [(e, k + j)]) as Hgen by apply Hgen.
  revert j Hj. induction es as [|x es IH]; intros j Hj k; [done|].
  cbn [map] in Hnd. apply NoDup_cons in Hnd as [Hx Hnd]. cbn [length seq zip zip_with List.filter fst].
  destruct j as [|j]; cbn [lookup list_lookup] in Hj.
  - injection Hj as ->. rewrite jeqb_refl, Nat.add_0_r. f_equal.
    assert (forall k, List.filter (fun c : BaselineEntry * nat => jeqb (matchIdentity c.1) (matchIdentity e))
              (zip es (seq k (length es))) = []) as Hnil; [|apply Hnil].
    clear IH Hnd k. induction es as [|y es IH]; intros k; [done|].
    cbn [map] in Hx. apply not_elem_of_cons in Hx as [Hxy Hx].
    cbn [length seq zip zip_with List.filter fst].
    rewrite (proj2 (jeqb_neq (matchIdentity y) (matchIdentity e))) by done. by apply IH.
  - rewrite (proj2 (jeqb_neq (matchIdentity x) (matchIdentity e))).
    + rewrite (IH Hnd j Hj (S k)). do 2 f_equal. lia.
    + intros Heq. apply Hx. rewrite Heq. apply list_elem_of_fmap. exists e. split; [done|].
      by eapply list_elem_of_lookup_2.
Qed.

(** A baseline hides what it was made from: compared with the diagnostics
    its entries were generated from, under the same engine and profiles and
    before it expires, every lint whose identity no other diagnostic shares is
    matched and hidden. *)
Theorem fresh_baseline_hides (input : CompareDiagnosticBaselineInput F Source Suppression)
  (r : Comparison) (baseline : BaselineOutput F) (kinds : gmap jstring BaselineDiagnosticKind)
  (at_ : jstring) (expiry : option jstring) (currents : list BaselineEntry)
  (i : nat) (d : Diagnostic) (current : BaselineEntry)
  (Hok : compareDiagnosticBaseline input = Ok r)
  (Hbaseline : validateBaselineOutput (c_baseline input) = Ok baseline)
  (Hkinds : validateCommon (c_diagnostics input) (c_sources input) (c_classifications input)
              (c_engineVersion input) (c_profileVersions input) = Ok kinds)
  (Hentries : baselineEntries kinds at_ expiry (bundle_diagnostics (c_diagnostics input))
              = Ok (entries baseline))
  (Hengine : engineVersion baseline = c_engineVersion input)
  (Hprofiles : profileVersions baseline = c_profileVersions input)
  (Hnow : past (expiresAt baseline) (c_now input) = false /\ past expiry (c_now input) = false)
  (Hcurrents : rmapM (entryFromDiagnostic (c_now input) None) (bundle_diagnostics (c_diagnostics input))
               = Ok currents)
  (Hd : bundle_diagnostics (c_diagnostics input) !! i = Some d)
  (Hlint : kinds !! id d = Some lint)
  (Hcurrent : currents !! i = Some current)
  (Hone : forall i' other, currents !! i' = Some other -> same_identity other current -> i' = i) :
  exists c, diagnostics r !! i = Some c /\
    visible c = false /\ status c = matched /\ reason c = exact_match.
Proof.
  apply compare_Ok in Hok as (baseline' & kinds' & moves & currents' & bp & cp & Hc).
  assert (baseline' = baseline /\ kinds' = kinds /\ currents' = currents /\ bp = cp) as (-> & -> & -> & ->).
  { destruct Hc. repeat split; congruence. }
  rewrite (compared_diagnostics Hc), list_lookup_fmap, (lookup_turns _ _ i d current) by done.
  eexists. split; [done|]. unfold pushed, comparisonOf, turn. cbn [visible status reason fst snd].
  assert (globalReasonOf baseline (c_engineVersion input) (json_text cp) (json_text cp) = None) as ->.
  { by apply globalReasonOf_None. }
  rewrite Hlint. unfold outcome, exactOutcome.
  apply baselineEntries_stand in Hentries as (Hnd & Hfrom & Hto).
  destruct (Hto d) as (e & e' & He & He' & Hid); [by eapply list_elem_of_lookup_2|done|].
  assert (matchIdentity e = matchIdentity current) as Hec.
  { apply rmapM_Ok in Hcurrents. destruct (Forall2_lookup_l _ _ _ _ _ Hcurrents Hd) as (c' & Hc' & Hcd).
    destruct (entry_identity _ (c_now input) _ None _ _ He') as (e2 & He2 & Hid2 & _). congruence. }
  apply list_elem_of_lookup in He as [j Hj].
  unfold ix, buildIndexes. cbn [exactEntries currentIdentityCounts].
  rewrite index_by_lookup, counts_by_lookup, <- Hec, (filter_identity_single _ j e) by done.
  assert (countIf (fun c => jeqb (matchIdentity c) (matchIdentity e)) currents = 1) as ->.
  { rewrite Hec. apply (countIf_one _ _ i current); [done|apply jeqb_refl|].
    intros i' y Hy Hid'%jeqb_eq%matchIdentity_eq. by apply (Hone i' y). }
  unfold found. cbn [fst snd].
  assert (expiredReason baseline e (c_now input) = None) as ->; [|done].
  apply expiredReason_None. split; [apply Hnow|].
  destruct (Hfrom e) as (d' & _ & _ & Hd'); [by eapply list_elem_of_lookup_2|].
  destruct (entry_identity _ (c_now input) _ None _ _ Hd') as (_ & _ & _ & ->). apply Hnow.
Qed.
End operations.

(** ** A concrete run

    Two diagnostics, a lint and a parser error, against the baseline made from
    them; the validators accept everything. *)
Module example.
Definition diagnostic (id rule : jstring) : Diagnostic :=
  {| id := id; d_ruleId := rule; d_ruleVersion := #"1.0.0"; d_severity := warning;
     primary_path := #"docs/a.md"; related := [spec #"s1"];
     basis_path_profileIds := [ #"codex"]; basis_semantic_profileIds := [];
     fingerprints_path := #"p"; fingerprints_semantic := #"s" |}.
Definition ds : list Diagnostic := [diagnostic #"d1" #"size"; diagnostic #"d2" #"syntax"].
Definition profiles : jsval unit :=
  JRec [(#"codex", JRec [(#"profileVersion", JStr #"1.0.0"); (#"clientVersion", JNull);
                         (#"surfaceIds", JArr true []); (#"specSnapshotIds", JArr true [])])].
Definition kinds : gmap jstring BaselineDiagnosticKind :=
  <[#"d2" := parser_error]> (<[#"d1" := lint]> ∅).
Definition expiry : option jstring := Some #"2026-01-01T00:00:00.000Z".

#[local] Existing Instance toy_sha256.

Definition baseline : BaselineOutput unit :=
  {| engineVersion := #"0.1.0"; createdAt := #"2025-01-01T00:00:00.000Z"; expiresAt := expiry;
     sourceRevision := #"r"; profileVersions := profiles;
     entries := match baselineEntries kinds #"2025-01-01T00:00:00.000Z" expiry ds with
                | Ok es => es | Err _ => [] end |}.

#[local] Instance host : BaselineHost unit unit unit :=
  {| validateDiagnosticBundle := fun b _ => Ok b;
     validateBaselineOutput := fun _ => Ok baseline;
     validateJsonValue := fun _ => true;
     serializeNativeOutput := fun _ => Ok [];
     JSON_parse := fun _ => Some JNull |}.

Definition input : CompareDiagnosticBaselineInput unit unit unit :=
  {| c_baseline := JNull;
     c_diagnostics := {| bundle_diagnostics := ds; bundle_suppressions := [] |};
     c_sources := [];
     c_classifications := [[(#"diagnosticId", JStr #"d1"); (#"kind", JStr #"lint")];
                           [(#"kind", JStr #"parser-error"); (#"diagnosticId", JStr #"d2")]];
     c_engineVersion := #"0.1.0"; c_profileVersions := profiles;
     c_now := #"2025-06-30T12:00:00.000Z"; c_pathMoves := None |}.

Definition currents : list BaselineEntry :=
  match rmapM (entryFromDiagnostic (c_now input) None) ds with Ok l => l | Err _ => [] end.
Definition r : Comparison :=
  match compareDiagnosticBaseline input with Ok r => r | Err _ => comparisonResult [] [] end.
Definition first : BaselineDiagnosticComparison :=
  default (comparisonOf 0 (diagnostic [] []) (shown new not_in_baseline None)) (diagnostics r !! 0).

Lemma compare_runs : compareDiagnosticBaseline input = Ok r.
Proof. unfold r. destruct (compareDiagnosticBaseline input) eqn:E; [done|]. vm_compute in E. discriminate E. Qed.

Lemma comparison_covers_diagnostics_witness :
  compareDiagnosticBaseline input = Ok r /\ map diagnosticIndex (diagnostics r) = [0; 1].
Proof.
  split; [exact compare_runs|].
  exact (proj1 (comparison_covers_diagnostics input r compare_runs)).
Defined.

Lemma hidden_is_justified_witness :
  diagnostics r !! 0 = Some first /\ visible first = false /\
  exists d e, bundle_diagnostics (c_diagnostics input) !! 0 = Some d /\ kinds !! id d = Some lint /\
    unexpired baseline e (c_now input).
Proof.
  assert (diagnostics r !! 0 = Some first) as Hi by by vm_compute.
  assert (visible first = false) as Hv by by vm_compute.
  split; [exact Hi|]. split; [exact Hv|].
  destruct (hidden_is_justified input r 0 first compare_runs Hi Hv)
    as (b & k & ms & cs & d & cur & j & e & Hb & _ & _ & _ & Hd & _ & _ & _ & _ & Hu & _).
  exists d, e. split; [exact Hd|]. split.
  - injection Hd as <-. by vm_compute.
  - injection Hb as <-. exact Hu.
Defined.

Lemma baseline_entries_accounted_witness :
  compareDiagnosticBaseline input = Ok r /\
  exists b, validateBaselineOutput (c_baseline input) = Ok b /\
    omap taken (diagnostics r) ++ map stale_index (staleEntries r) ≡ₚ seq 0 (length (entries b)).
Proof. split; [exact compare_runs|]. exact (baseline_entries_accounted input r compare_runs). Defined.

Lemma baselineEntries_spec_witness :
  baselineEntries kinds #"2025-01-01T00:00:00.000Z" expiry ds = Ok (entries baseline) /\
  NoDup (map matchIdentity (entries baseline)).
Proof.
  assert (baselineEntries kinds #"2025-01-01T00:00:00.000Z" expiry ds = Ok (entries baseline)) as He.
  { by vm_compute. }
  split; [exact He|]. exact (proj1 (baselineEntries_spec _ _ _ _ _ He)).
Defined.

Lemma fresh_baseline_hides_witness :
  length currents = 2 /\
  exists c, diagnostics r !! 0 = Some c /\ visible c = false /\ status c = matched /\ reason c = exact_match.
Proof.
  split; [by vm_compute|].
  destruct currents as [|c0 [|c1 [|]]] eqn:Ec; [vm_compute in Ec; discriminate Ec..| |vm_compute in Ec; discriminate Ec].
  apply (fresh_baseline_hides input r baseline kinds #"2025-01-01T00:00:00.000Z" expiry currents 0
           (diagnostic #"d1" #"size") c0).
  - exact compare_runs.
  - done.
  - by vm_compute.
  - by vm_compute.
  - done.
  - done.
  - by vm_compute.
  - by vm_compute.
  - done.
  - by vm_compute.
  - by rewrite Ec.
  - rewrite Ec. intros [|[|i']] other Ho; [done| |done]. injection Ho as <-. intros [(Hr & _) _].
    vm_compute in Ec. injection Ec as <- <-. discriminate Hr.
Defined.
End example.
