(* ===== verification/ImportDag.v ===== *)
(** The document import DAG (packages/resolver/src/document-import-dag.ts): the
    validation of an import graph value, the occurrence-preserving DAG built
    from it, and the DAG of a document without imports. *)
From S2P Require Import Prelude JsString Unicode Identifiers JsValue RepositoryPath.

Definition maxDocuments : N := 4096.
Definition maxGraphIssues : N := 4096.
Definition maxOccurrences : N := 65537.
Definition maxReferences : N := 262144.
Definition maxImports : N := 4096.

Inductive DocumentImportDagErrorCode :=
| invalidGraph | invalidInput | invalidRelationship | resourceLimit.

(** ** The typed graph *)

Inductive ImportGraphEdgeState :=
| loaded | already_loaded | cycle | ambiguous | rejected | unavailable | limit_exceeded.

#[export] Instance ImportGraphEdgeState_eq_dec : EqDecision ImportGraphEdgeState.
Proof. solve_decision. Defined.

Definition edge_state_name (s : ImportGraphEdgeState) : jstring :=
  match s with
  | loaded => #"loaded"
  | already_loaded => #"already-loaded"
  | cycle => #"cycle"
  | ambiguous => #"ambiguous"
  | rejected => #"rejected"
  | unavailable => #"unavailable"
  | limit_exceeded => #"limit-exceeded"
  end.

Definition EDGE_STATES : list ImportGraphEdgeState :=
  [loaded; already_loaded; cycle; ambiguous; rejected; unavailable; limit_exceeded].

Inductive ImportGraphIssueCode :=
| ambiguous_reference | cycle_issue | depth_limit | edge_limit | fan_out_limit | file_limit
| file_too_large | invalid_utf8 | lex_failed | read_failed | root_boundary | target_rejected
| total_bytes_limit.

#[export] Instance ImportGraphIssueCode_eq_dec : EqDecision ImportGraphIssueCode.
Proof. solve_decision. Defined.

Definition issue_code_name (c : ImportGraphIssueCode) : jstring :=
  match c with
  | ambiguous_reference => #"IMPORT_GRAPH_AMBIGUOUS_REFERENCE"
  | cycle_issue => #"IMPORT_GRAPH_CYCLE"
  | depth_limit => #"IMPORT_GRAPH_DEPTH_LIMIT"
  | edge_limit => #"IMPORT_GRAPH_EDGE_LIMIT"
  | fan_out_limit => #"IMPORT_GRAPH_FAN_OUT_LIMIT"
  | file_limit => #"IMPORT_GRAPH_FILE_LIMIT"
  | file_too_large => #"IMPORT_GRAPH_FILE_TOO_LARGE"
  | invalid_utf8 => #"IMPORT_GRAPH_INVALID_UTF8"
  | lex_failed => #"IMPORT_GRAPH_LEX_FAILED"
  | read_failed => #"IMPORT_GRAPH_READ_FAILED"
  | root_boundary => #"IMPORT_GRAPH_ROOT_BOUNDARY"
  | target_rejected => #"IMPORT_GRAPH_TARGET_REJECTED"
  | total_bytes_limit => #"IMPORT_GRAPH_TOTAL_BYTES_LIMIT"
  end.

Definition ISSUE_CODES : list ImportGraphIssueCode :=
  [ambiguous_reference; cycle_issue; depth_limit; edge_limit; fan_out_limit; file_limit;
   file_too_large; invalid_utf8; lex_failed; read_failed; root_boundary; target_rejected;
   total_bytes_limit].

Inductive NodeState := node_loaded | parse_failed.
Inductive GraphState := complete | partial.

Record SourcePosition := { byteOffset : Z; utf16Offset : Z; line : Z; utf16Column : Z }.
Record SourceRange := { range_sourceId : jstring; range_start : SourcePosition; range_end : SourcePosition }.

Record NormalizedNode := {
  n_byteLength : Z; n_depth : Z; n_documentId : jstring; n_path : jstring; n_sha256 : jstring;
  n_sourceId : jstring; n_state : NodeState
}.

Record NormalizedEdge := {
  e_depth : Z; e_fromDocumentId : jstring; e_importId : jstring;
  e_issueCode : option ImportGraphIssueCode; e_range : SourceRange; e_state : ImportGraphEdgeState;
  e_targetDocumentId : option jstring; e_targetPath : option jstring
}.

Record ImportDagIssue := {
  i_code : ImportGraphIssueCode; i_importId : option jstring; i_path : jstring;
  i_range : option SourceRange; i_targetPath : option jstring
}.

Record NormalizedGraph := {
  g_edges : list NormalizedEdge; g_entryPath : jstring; g_issues : list ImportDagIssue;
  g_nodes : list NormalizedNode; g_state : GraphState
}.

(** ** Validation of the graph value *)

(** The errors of the builder: its own, and those of the trace normalization. *)
Inductive dag_error (T : Type) := DagError (code : DocumentImportDagErrorCode) | TraceError (e : T).
Arguments DagError {T} code.
Arguments TraceError {T} e.

Section validation.
Context {F : Type}.
Implicit Types value : jsval F.

Abbreviation dag_res := (res DocumentImportDagErrorCode).
Abbreviation fields := (list (jstring * jsval F)).

Definition property (record : fields) (key : jstring) : dag_res (jsval F) :=
if existsb (jeqb key) (keys_of record) then Ok (field_value record key) else Err invalidInput.

Definition record (value : jsval F) (keys : list jstring) : dag_res fields :=
match value with
| JRec r =>
    _ ← ensure ((length r =? length keys)%nat
                && forallb (fun k => existsb (jeqb k) keys) (keys_of r)) invalidInput;
    _ ← rmapM (property r) keys;
    Ok r
| _ => Err invalidInput
end.

Definition denseArray (value : jsval F) (limit : N) : dag_res (list (jsval F)) :=
match value with
| JArr dense items =>
    _ ← ensure (N.of_nat (length items) <=? limit)%N resourceLimit;
    _ ← ensure dense invalidInput;
    Ok items
| _ => Err invalidInput
end.

Definition identifier (value : jsval F) : dag_res jstring :=
match value with
| JStr s =>
    _ ← ensure ((N.of_nat (length s) <=? 512)%N && STABLE_ID s) invalidGraph;
    Ok s
| _ => Err invalidGraph
end.

Definition pathValue (value : jsval F) : dag_res jstring :=
match value with
| JStr s => _ ← ensure (isRepositoryRelativePath s) invalidGraph; Ok s
| _ => Err invalidGraph
end.

Definition integer (value : jsval F) (maximum : Z) : dag_res Z :=
match value with
| JNum n =>
    _ ← ensure ((0 <=? n)%Z && (n <=? MAX_SAFE_INTEGER)%Z && (n <=? maximum)%Z) invalidGraph;
    Ok n
| _ => Err invalidGraph
end.

(** [value === null ? null : parse(value)] *)
Definition nullable {A} (parse : jsval F -> dag_res A) (value : jsval F) : dag_res (option A) :=
match value with
| JNull => Ok None
| _ => a ← parse value; Ok (Some a)
end.

Definition nullablePath : jsval F -> dag_res (option jstring) := nullable pathValue.
Definition nullableIdentifier : jsval F -> dag_res (option jstring) := nullable identifier.

Definition position (value : jsval F) : dag_res SourcePosition :=
input ← record value [ #"byteOffset"; #"utf16Offset"; #"line"; #"utf16Column"];
b ← property input #"byteOffset" ≫= fun v => integer v MAX_SAFE_INTEGER;
u ← property input #"utf16Offset" ≫= fun v => integer v MAX_SAFE_INTEGER;
l ← property input #"line" ≫= fun v => integer v MAX_SAFE_INTEGER;
c ← property input #"utf16Column" ≫= fun v => integer v MAX_SAFE_INTEGER;
Ok {| byteOffset := b; utf16Offset := u; line := l; utf16Column := c |}.

Definition backward (start stop : SourcePosition) : bool :=
(byteOffset stop <? byteOffset start)%Z || (utf16Offset stop <? utf16Offset start)%Z
|| (line stop <? line start)%Z
|| ((line stop =? line start)%Z && (utf16Column stop <? utf16Column start)%Z).

Definition range (value : jsval F) : dag_res SourceRange :=
input ← record value [ #"sourceId"; #"start"; #"end"];
sourceId ← property input #"sourceId" ≫= identifier;
start ← property input #"start" ≫= position;
stop ← property input #"end" ≫= position;
_ ← ensure (negb (backward start stop)) invalidGraph;
Ok {| range_sourceId := sourceId; range_start := start; range_end := stop |}.

Definition nullableRange : jsval F -> dag_res (option SourceRange) := nullable range.

Definition NODE_KEYS : list jstring :=
[ #"byteLength"; #"depth"; #"documentId"; #"imports"; #"path"; #"sha256"; #"sourceId"; #"state"].

Definition nodeState (value : jsval F) : dag_res NodeState :=
match value with
| JStr s =>
    if jeqb s #"loaded" then Ok node_loaded
    else if jeqb s #"parse-failed" then Ok parse_failed else Err invalidGraph
| _ => Err invalidGraph
end.

Definition sha256Value (value : jsval F) : dag_res jstring :=
match value with
| JStr s => _ ← ensure (SHA256 s) invalidGraph; Ok s
| _ => Err invalidGraph
end.

Definition normalizeNode (value : jsval F) : dag_res NormalizedNode :=
input ← record value NODE_KEYS;
imports ← property input #"imports" ≫= fun v => denseArray v maxImports;
state ← property input #"state" ≫= nodeState;
digest ← property input #"sha256" ≫= sha256Value;
byteLength ← property input #"byteLength" ≫= fun v => integer v 524288;
depth ← property input #"depth" ≫= fun v => integer v 32;
documentId ← property input #"documentId" ≫= identifier;
path ← property input #"path" ≫= pathValue;
sourceId ← property input #"sourceId" ≫= identifier;
Ok {| n_byteLength := byteLength; n_depth := depth; n_documentId := documentId; n_path := path;
      n_sha256 := digest; n_sourceId := sourceId; n_state := state |}.

Definition edgeState (value : jsval F) : dag_res ImportGraphEdgeState :=
match value with
| JStr s =>
    match find (fun x => jeqb (edge_state_name x) s) EDGE_STATES with
    | Some x => Ok x
    | None => Err invalidGraph
    end
| _ => Err invalidGraph
end.

Definition issueCode (value : jsval F) : dag_res ImportGraphIssueCode :=
match value with
| JStr s =>
    match find (fun x => jeqb (issue_code_name x) s) ISSUE_CODES with
    | Some x => Ok x
    | None => Err invalidGraph
    end
| _ => Err invalidGraph
end.

Definition rawSpecifier (value : jsval F) : dag_res unit :=
match value with
| JStr s => ensure (N.of_nat (length s) <=? 4096)%N invalidGraph
| _ => Err invalidGraph
end.

(** [value === s] for a string [s] *)
Definition is_text (value : jsval F) (s : jstring) : bool :=
match value with JStr t => jeqb t s | _ => false end.

Definition normalizeEdge (value : jsval F) : dag_res NormalizedEdge :=
input ← record value [ #"depth"; #"fromDocumentId"; #"import"; #"issueCode"; #"state";
                       #"targetDocumentId"; #"targetPath"];
import ← property input #"import";
reference ← record import [ #"id"; #"documentId"; #"nodeId"; #"kind"; #"range"; #"specifierRange";
                            #"rawSpecifier"; #"targetKind"; #"state"; #"uncertainty"];
state ← property input #"state" ≫= edgeState;
code ← property input #"issueCode" ≫= nullable issueCode;
_ ← property reference #"rawSpecifier" ≫= rawSpecifier;
fromDocumentId ← property input #"fromDocumentId" ≫= identifier;
owner ← property reference #"documentId";
_ ← ensure (is_text owner fromDocumentId) invalidRelationship;
depth ← property input #"depth" ≫= fun v => integer v 33;
importId ← property reference #"id" ≫= identifier;
specifierRange ← property reference #"specifierRange" ≫= range;
targetDocumentId ← property input #"targetDocumentId" ≫= nullableIdentifier;
targetPath ← property input #"targetPath" ≫= nullablePath;
Ok {| e_depth := depth; e_fromDocumentId := fromDocumentId; e_importId := importId;
      e_issueCode := code; e_range := specifierRange; e_state := state;
      e_targetDocumentId := targetDocumentId; e_targetPath := targetPath |}.

Definition normalizeIssue (value : jsval F) : dag_res ImportDagIssue :=
input ← record value [ #"code"; #"importId"; #"path"; #"range"; #"targetPath"];
code ← property input #"code" ≫= issueCode;
importId ← property input #"importId" ≫= nullableIdentifier;
path ← property input #"path" ≫= pathValue;
r ← property input #"range" ≫= nullableRange;
targetPath ← property input #"targetPath" ≫= nullablePath;
Ok {| i_code := code; i_importId := importId; i_path := path; i_range := r;
      i_targetPath := targetPath |}.

(** One round of the node loop: the references counted so far and the nodes. *)
Definition countedNode (acc : N * list NormalizedNode) (value : jsval F)
  : dag_res (N * list NormalizedNode) :=
let '(referenceCount, nodes) := acc in
inputNode ← record value NODE_KEYS;
imports ← property inputNode #"imports" ≫= fun v => denseArray v maxImports;
let referenceCount := (referenceCount + N.of_nat (length imports))%N in
_ ← ensure (referenceCount <=? maxReferences)%N resourceLimit;
node ← normalizeNode value;
Ok (referenceCount, nodes ++ [node]).

Definition graphState (value : jsval F) : dag_res GraphState :=
match value with
| JStr s =>
    if jeqb s #"complete" then Ok complete
    else if jeqb s #"partial" then Ok partial else Err invalidGraph
| _ => Err invalidGraph
end.

Definition is_complete (s : GraphState) : bool := match s with complete => true | partial => false end.

Definition totalBytes (nodes : list NormalizedNode) : Z :=
foldr (fun n sum => n_byteLength n + sum)%Z 0%Z nodes.

Definition SYNTAXES : list jstring :=
[ #"claude-code"; #"copilot-cli"; #"cursor-agent"; #"gemini-cli"].

Definition normalizeGraph (value : jsval F) : dag_res NormalizedGraph :=
input ← record value [ #"contractVersion"; #"edges"; #"entryPath"; #"issues"; #"nodes"; #"state";
                       #"syntax"; #"usage"];
version ← property input #"contractVersion";
_ ← ensure (is_text version #"0.1.0") invalidGraph;
syntax ← property input #"syntax";
_ ← ensure (existsb (is_text syntax) SYNTAXES) invalidGraph;
entryPath ← property input #"entryPath" ≫= pathValue;
_ ← ensure (negb (jeqb entryPath #".")) invalidGraph;
rawNodes ← property input #"nodes" ≫= fun v => denseArray v maxDocuments;
rawEdges ← property input #"edges" ≫= fun v => denseArray v (maxOccurrences - 1);
rawIssues ← property input #"issues" ≫= fun v => denseArray v maxGraphIssues;
counted ← foldM countedNode (0%N, []) rawNodes;
let nodes := counted.2 in
edges ← rmapM normalizeEdge rawEdges;
issues ← rmapM normalizeIssue rawIssues;
state ← property input #"state" ≫= graphState;
_ ← ensure (Bool.eqb (is_complete state) (length issues =? 0)%nat) invalidGraph;
usage ← property input #"usage"
          ≫= fun v => record v [ #"edges"; #"files"; #"issues"; #"totalBytes"];
usedEdges ← property usage #"edges" ≫= fun v => integer v MAX_SAFE_INTEGER;
_ ← ensure (usedEdges =? Z.of_nat (length edges))%Z invalidGraph;
usedFiles ← property usage #"files" ≫= fun v => integer v MAX_SAFE_INTEGER;
_ ← ensure (usedFiles =? Z.of_nat (length nodes))%Z invalidGraph;
usedIssues ← property usage #"issues" ≫= fun v => integer v MAX_SAFE_INTEGER;
_ ← ensure (usedIssues =? Z.of_nat (length issues))%Z invalidGraph;
usedBytes ← property usage #"totalBytes" ≫= fun v => integer v 16777216;
_ ← ensure (usedBytes =? totalBytes nodes)%Z invalidGraph;
Ok {| g_edges := edges; g_entryPath := entryPath; g_issues := issues; g_nodes := nodes;
      g_state := state |}.
End validation.

(** ** The DAG *)

Record ImportDagDocument := {
  d_byteLength : Z; d_contentId : jstring; d_depth : Z; d_documentId : jstring; d_path : jstring;
  d_sourceId : jstring; d_state : NodeState
}.

Record ImportDagContent := {
  c_byteLength : Z; c_documentIds : list jstring; c_id : jstring; c_sha256 : jstring
}.

Inductive ImportDagOccurrenceState := entry | edge (s : ImportGraphEdgeState).

Record ImportDagOccurrence := {
  o_contentId : option jstring; o_depth : Z; o_fromDocumentId : option jstring; o_id : jstring;
  o_importId : option jstring; o_issueCode : option ImportGraphIssueCode; o_ordinal : nat;
  o_range : option SourceRange; o_state : ImportDagOccurrenceState;
  o_targetDocumentId : option jstring; o_targetPath : option jstring
}.

(** The constant record kind and contract version are left out. *)
Record DocumentImportDag := {
  dag_contents : list ImportDagContent; dag_documents : list ImportDagDocument;
  dag_entryDocumentId : option jstring; dag_entryPath : jstring; dag_graphState : GraphState;
  dag_issues : list ImportDagIssue; dag_occurrences : list ImportDagOccurrence;
  dag_traceEventIds : list jstring; dag_traceSha256 : jstring
}.

(** What the builder asks of the resolution event trace: its normalization,
    its event identifiers and its digest. *)
Class TraceService (F Trace TraceErr : Type) := {
  normalizeResolutionEventTrace : jsval F -> res TraceErr Trace;
  digestResolutionEventTrace : Trace -> res TraceErr jstring;
  traceEventIds : Trace -> list jstring
}.

(** Reports the errors of one of the two kinds. *)
Definition lift_dag {T A} (r : res DocumentImportDagErrorCode A) : res (dag_error T) A :=
  match r with Ok a => Ok a | Err e => Err (DagError e) end.
Definition lift_trace {T A} (r : res T A) : res (dag_error T) A :=
  match r with Ok a => Ok a | Err e => Err (TraceError e) end.

Definition frameField (field : jstring) : list N :=
  0%N :: String_of_N (textBytes field) ++ 58%N :: utf8 field.

(** The bytes [framedHash] feeds the digest. *)
Definition framedMessage (namespace : jstring) (fields : list jstring) : list N :=
  utf8 namespace ++ mjoin (frameField <$> fields).

Definition OCCURRENCE_NAMESPACE : jstring := #"document-import-occurrence-v1".

(** The map of contents, in insertion order. *)
Fixpoint addContent (contents : list ImportDagContent) (contentId : jstring) (node : NormalizedNode)
    : res DocumentImportDagErrorCode (list ImportDagContent) :=
  match contents with
  | [] => Ok [{| c_byteLength := n_byteLength node; c_documentIds := [n_documentId node];
                 c_id := contentId; c_sha256 := n_sha256 node |}]
  | c :: r =>
      if jeqb (c_id c) contentId then
        _ ← ensure (c_byteLength c =? n_byteLength node)%Z invalidRelationship;
        Ok ({| c_byteLength := c_byteLength c;
               c_documentIds := c_documentIds c ++ [n_documentId node];
               c_id := c_id c; c_sha256 := c_sha256 c |} :: r)
      else r' ← addContent r contentId node; Ok (c :: r')
  end.

Definition contentIdOf (sha256 : jstring) : jstring := #"content:" ++ sha256.
Arguments contentIdOf sha256 : simpl never.

Definition documentOf (node : NormalizedNode) : ImportDagDocument :=
  {| d_byteLength := n_byteLength node; d_contentId := contentIdOf (n_sha256 node);
     d_depth := n_depth node; d_documentId := n_documentId node; d_path := n_path node;
     d_sourceId := n_sourceId node; d_state := n_state node |}.

(** The sets of identities hold those of the documents made so far. *)
Definition identityTaken (documents : list ImportDagDocument) (node : NormalizedNode) : bool :=
  existsb (fun d => jeqb (d_documentId d) (n_documentId node)
                    || jeqb (d_sourceId d) (n_sourceId node) || jeqb (d_path d) (n_path node)) documents.

Definition addDocument (acc : list ImportDagDocument * list ImportDagContent) (node : NormalizedNode)
    : res DocumentImportDagErrorCode (list ImportDagDocument * list ImportDagContent) :=
  let '(documents, contents) := acc in
  _ ← ensure (negb (identityTaken documents node)) invalidRelationship;
  contents' ← addContent contents (contentIdOf (n_sha256 node)) node;
  Ok (documents ++ [documentOf node], contents').

Definition content_le (left right : ImportDagContent) : bool := jleb (c_id left) (c_id right).

Definition sortContents (contents : list ImportDagContent) : list ImportDagContent :=
  map (fun c => {| c_byteLength := c_byteLength c; c_documentIds := sort_by jleb (c_documentIds c);
                   c_id := c_id c; c_sha256 := c_sha256 c |}) (sort_by content_le contents).

Definition findDocument (documents : list ImportDagDocument) (id : jstring) : option ImportDagDocument :=
  find (fun d => jeqb (d_documentId d) id) documents.

(** The states whose edge leads to a document of the graph. *)
Definition reaches (s : ImportGraphEdgeState) : bool :=
  match s with loaded | already_loaded | cycle => true | _ => false end.

Definition issueDisagrees (s : ImportGraphEdgeState) (code : option ImportGraphIssueCode) : bool :=
  match s with
  | loaded | already_loaded => negb (bool_decide (code = None))
  | cycle => negb (bool_decide (code = Some cycle_issue))
  | _ => bool_decide (code = None)
  end.

Section build.
Context `{Sha256}.

Definition framedHash (namespace : jstring) (fields : list jstring) : jstring :=
hex (sha256 (framedMessage namespace fields)).

Definition occurrenceId (fields : list jstring) : jstring :=
#"occurrence:" ++ framedHash OCCURRENCE_NAMESPACE fields.

Definition entryFields (documentId path : jstring) : list jstring := [ #"entry"; documentId; path].

Definition edgeFields (index : nat) (e : NormalizedEdge) : list jstring :=
[String_of_N (N.of_nat index); e_fromDocumentId e; e_importId e; edge_state_name (e_state e);
 default [] (e_targetDocumentId e); default [] (e_targetPath e)].

Definition entryOccurrence (d : ImportDagDocument) : ImportDagOccurrence :=
{| o_contentId := Some (d_contentId d); o_depth := 0; o_fromDocumentId := None;
   o_id := occurrenceId (entryFields (d_documentId d) (d_path d)); o_importId := None;
   o_issueCode := None; o_ordinal := 0; o_range := None; o_state := entry;
   o_targetDocumentId := Some (d_documentId d); o_targetPath := Some (d_path d) |}.

(** [target === null ? ... : ...] *)
Definition targetOf (documents : list ImportDagDocument) (e : NormalizedEdge)
  : option ImportDagDocument := e_targetDocumentId e ≫= findDocument documents.

Definition targetPathAgrees (e : NormalizedEdge) (target : option ImportDagDocument) : bool :=
match target with
| Some d => bool_decide (e_targetPath e = Some (d_path d)) || bool_decide (e_state e = cycle)
| None => true
end.

Definition edgeOccurrence (documents : list ImportDagDocument) (ordinal index : nat)
  (e : NormalizedEdge) : ImportDagOccurrence :=
{| o_contentId := d_contentId <$> targetOf documents e; o_depth := e_depth e;
   o_fromDocumentId := Some (e_fromDocumentId e); o_id := occurrenceId (edgeFields index e);
   o_importId := Some (e_importId e); o_issueCode := e_issueCode e; o_ordinal := ordinal;
   o_range := Some (e_range e); o_state := edge (e_state e);
   o_targetDocumentId := e_targetDocumentId e; o_targetPath := e_targetPath e |}.

(** One round of the edge loop over the occurrences pushed so far. *)
Definition addEdge (documents : list ImportDagDocument) (occurrences : list ImportDagOccurrence)
  (indexed : nat * NormalizedEdge) : res DocumentImportDagErrorCode (list ImportDagOccurrence) :=
let '(index, e) := indexed in
_ ← ensure (negb (existsb (fun o => bool_decide (o_importId o = Some (e_importId e))) occurrences))
      invalidRelationship;
_ ← ensure (bool_decide (d_sourceId <$> findDocument documents (e_fromDocumentId e)
                         = Some (range_sourceId (e_range e)))) invalidRelationship;
let target := targetOf documents e in
_ ← ensure (negb (negb (bool_decide (e_targetDocumentId e = None)) && bool_decide (target = None)))
      invalidRelationship;
_ ← ensure (targetPathAgrees e target) invalidRelationship;
_ ← ensure (negb (reaches (e_state e) && bool_decide (target = None))) invalidRelationship;
_ ← ensure (negb (negb (reaches (e_state e)) && negb (bool_decide (target = None)))) invalidRelationship;
_ ← ensure (negb (issueDisagrees (e_state e) (e_issueCode e))) invalidRelationship;
let o := edgeOccurrence documents (length occurrences) index e in
_ ← ensure (negb (existsb (fun p => jeqb (o_id p) (o_id o)) occurrences)) invalidRelationship;
Ok (occurrences ++ [o]).

Definition entryOccurrences (d : option ImportDagDocument) : list ImportDagOccurrence :=
match d with Some d => [entryOccurrence d] | None => [] end.

(** The part of the builder between the two normalizations and the result. *)
Definition buildGraph (graph : NormalizedGraph)
  : res DocumentImportDagErrorCode
      (list ImportDagDocument * list ImportDagContent * option ImportDagDocument *
       list ImportDagOccurrence) :=
acc ← foldM addDocument ([], []) (g_nodes graph);
let documents := acc.1 in
let entryDocument := find (fun d => jeqb (d_path d) (g_entryPath graph)) documents in
_ ← ensure (negb (negb (length documents =? 0)%nat && bool_decide (entryDocument = None)))
      invalidRelationship;
let contents := sortContents acc.2 in
occurrences ← foldM (addEdge documents) (entryOccurrences entryDocument)
                (imap (fun index e => (index, e)) (g_edges graph));
Ok (documents, contents, entryDocument, occurrences).

Definition dagOf {Trace} (graph : NormalizedGraph) (eventIds : Trace -> list jstring) (trace : Trace)
  (traceSha256 : jstring)
  (built : list ImportDagDocument * list ImportDagContent * option ImportDagDocument *
           list ImportDagOccurrence) : DocumentImportDag :=
let '(documents, contents, entryDocument, occurrences) := built in
{| dag_contents := contents; dag_documents := documents;
   dag_entryDocumentId := d_documentId <$> entryDocument; dag_entryPath := g_entryPath graph;
   dag_graphState := g_state graph; dag_issues := g_issues graph; dag_occurrences := occurrences;
   dag_traceEventIds := eventIds trace; dag_traceSha256 := traceSha256 |}.

Context {F Trace TraceErr : Type} `{!TraceService F Trace TraceErr}.

Definition buildDocumentImportDag (inputValue : jsval F) : res (dag_error TraceErr) DocumentImportDag :=
input ← lift_dag (record inputValue [ #"graph"; #"trace"]);
graph ← lift_dag (property input #"graph" ≫= normalizeGraph);
rawTrace ← lift_dag (property input #"trace");
trace ← lift_trace (normalizeResolutionEventTrace rawTrace);
traceSha256 ← lift_trace (digestResolutionEventTrace trace);
built ← lift_dag (buildGraph graph);
Ok (dagOf graph traceEventIds trace traceSha256 built).

(** ** A document without imports *)

Record IrSource := {
src_id : jstring; src_path : jstring; src_byteLength : Z; src_sha256 : jstring;
src_complete : bool
}.

Record IrDocument := { doc_id : jstring; doc_sourceId : jstring; doc_importIds : list jstring }.

Record InstructionIrSnapshot := { ir_documents : list IrDocument; ir_sources : list IrSource }.

(** [isIssuedInstructionIrSnapshot]: the snapshot a value is, when the core
  issued it. *)
Context (issuedSnapshot : jsval F -> option InstructionIrSnapshot).

Definition sourceState (s : IrSource) : NodeState :=
if src_complete s then node_loaded else parse_failed.
Definition sourceGraphState (s : IrSource) : GraphState :=
if src_complete s then complete else partial.

Definition sourceDocument (documentId : jstring) (s : IrSource) : ImportDagDocument :=
{| d_byteLength := src_byteLength s; d_contentId := contentIdOf (src_sha256 s); d_depth := 0;
   d_documentId := documentId; d_path := src_path s; d_sourceId := src_id s;
   d_state := sourceState s |}.

Definition buildNoImportDocumentDag (inputValue : jsval F)
  : res (dag_error TraceErr) DocumentImportDag :=
input ← lift_dag (record inputValue [ #"documentId"; #"ir"; #"trace"]);
irValue ← lift_dag (property input #"ir");
documentIdValue ← lift_dag (property input #"documentId");
match issuedSnapshot irValue, documentIdValue with
| Some ir, JStr documentId =>
    _ ← lift_dag (ensure (N.of_nat (length (ir_documents ir)) <=? maxDocuments)%N resourceLimit);
    document ← lift_dag (match find (fun d => jeqb (doc_id d) documentId) (ir_documents ir) with
                         | Some d => Ok d
                         | None => Err invalidRelationship
                         end);
    _ ← lift_dag (ensure (length (doc_importIds document) =? 0)%nat invalidRelationship);
    source ← lift_dag (match find (fun s => jeqb (src_id s) (doc_sourceId document)) (ir_sources ir) with
                       | Some s => Ok s
                       | None => Err invalidRelationship
                       end);
    rawTrace ← lift_dag (property input #"trace");
    trace ← lift_trace (normalizeResolutionEventTrace rawTrace);
    traceSha256 ← lift_trace (digestResolutionEventTrace trace);
    let d := sourceDocument (doc_id document) source in
    Ok {| dag_contents := [{| c_byteLength := src_byteLength source;
                              c_documentIds := [doc_id document];
                              c_id := contentIdOf (src_sha256 source);
                              c_sha256 := src_sha256 source |}];
          dag_documents := [d];
          dag_entryDocumentId := Some (doc_id document);
          dag_entryPath := src_path source;
          dag_graphState := sourceGraphState source;
          dag_issues := [];
          dag_occurrences := [entryOccurrence d];
          dag_traceEventIds := traceEventIds trace;
          dag_traceSha256 := traceSha256 |}
| _, _ => Err (DagError invalidInput)
end.
End build.
