(* ===== verification/ImportDagLaws.v ===== *)
(** Laws of the document import DAG: the documents and contents partition the
    graph's nodes, the occurrences are the graph's edges one by one, identifiers
    bind their fields, and the import-free DAG is the DAG of a one-node graph. *)
From S2P Require Import Prelude JsString Unicode Identifiers JsValue RepositoryPath ImportDag.

(** ** Contents *)

Definition same_content (contentId : jstring) (d : ImportDagDocument) : Prop := d_contentId d = contentId.
#[export] Instance same_content_dec contentId d : Decision (same_content contentId d).
Proof. unfold same_content. apply _. Defined.

(** The entry of the content map for the documents made so far. *)
Definition entry_ok (documents : list ImportDagDocument) (c : ImportDagContent) : Prop :=
  c_id c = contentIdOf (c_sha256 c) /\
  c_documentIds c = d_documentId <$> filter (same_content (c_id c)) documents /\
  Forall (fun d => same_content (c_id c) d -> d_byteLength d = c_byteLength c) documents /\
  c_documentIds c <> [].

Lemma entry_ok_other documents c node :
  c_id c <> contentIdOf (n_sha256 node) -> entry_ok documents c ->
  entry_ok (documents ++ [documentOf node]) c.
Proof.
  intros Hne (H1 & H2 & H3 & H4). split; [done|]. split.
  - rewrite filter_app, filter_cons_False, app_nil_r; [done|]. unfold same_content, documentOf. cbn [d_contentId]. congruence.
  - split; [|done]. apply Forall_app. split; [done|]. apply Forall_singleton. unfold same_content, documentOf. cbn [d_contentId]. congruence.
Qed.

Lemma entry_ok_same documents c node :
  c_id c = contentIdOf (n_sha256 node) -> c_byteLength c = n_byteLength node -> entry_ok documents c ->
  entry_ok (documents ++ [documentOf node])
    {| c_byteLength := c_byteLength c; c_documentIds := c_documentIds c ++ [n_documentId node];
       c_id := c_id c; c_sha256 := c_sha256 c |}.
Proof.
  intros He Hb (H1 & H2 & H3 & H4). split; [done|]. cbn [c_id c_documentIds c_byteLength]. split.
  - rewrite filter_app, fmap_app, <- H2, filter_cons_True; [done|]. unfold same_content. by rewrite He.
  - split; [|by destruct (c_documentIds c)]. apply Forall_app. split; [done|]. by apply Forall_singleton.
Qed.

Lemma entry_ok_new documents node :
  Forall (fun d => d_contentId d <> contentIdOf (n_sha256 node)) documents ->
  entry_ok (documents ++ [documentOf node])
    {| c_byteLength := n_byteLength node; c_documentIds := [n_documentId node];
       c_id := contentIdOf (n_sha256 node); c_sha256 := n_sha256 node |}.
Proof.
  intros Hd. split; [done|]. cbn [c_id c_documentIds c_byteLength].
  assert (filter (same_content (contentIdOf (n_sha256 node))) documents = []) as Hf.
  { induction Hd as [|d ds Hd Hds IH]; [done|]. by rewrite filter_cons_False. }
  split; [by rewrite filter_app, Hf, filter_cons_True|]. split; [|done].
  apply Forall_app. split; [|by apply Forall_singleton].
  eapply Forall_impl; [exact Hd|]. intros d Hne Hs. by destruct Hne.
Qed.

Lemma addContent_ok documents contents node contents' :
  addContent contents (contentIdOf (n_sha256 node)) node = Ok contents' ->
  NoDup (c_id <$> contents) -> Forall (entry_ok documents) contents ->
  (contentIdOf (n_sha256 node) ∉ c_id <$> contents ->
   Forall (fun d => d_contentId d <> contentIdOf (n_sha256 node)) documents) ->
  Forall (entry_ok (documents ++ [documentOf node])) contents' /\
  (forall k, k ∈ c_id <$> contents' <-> k = contentIdOf (n_sha256 node) \/ k ∈ c_id <$> contents) /\
  NoDup (c_id <$> contents').
Proof.
  revert contents'. induction contents as [|c contents IH]; intros contents' H Hnd Hok Hnew; cbn in H.
  { injection H as <-. split; [apply Forall_singleton, entry_ok_new; apply Hnew; set_solver|].
    split; [cbn; set_solver|]. apply NoDup_singleton. }
  apply NoDup_cons in Hnd as [Hc Hnd]. apply Forall_cons in Hok as [Hoc Hok].
  destruct (jeqb (c_id c) (contentIdOf (n_sha256 node))) eqn:E.
  - apply jeqb_eq in E. apply bind_ensure in H as [Hb%Z.eqb_eq [= <-]]. split; [|split].
    + apply Forall_cons. split; [by apply entry_ok_same|].
      rewrite Forall_forall in Hok |- *. intros c' Hc'. apply entry_ok_other; [|by apply Hok].
      intros He. apply Hc. rewrite E, <- He. by apply list_elem_of_fmap_2.
    + cbn. set_solver.
    + cbn. by apply NoDup_cons.
  - apply jeqb_neq in E. apply bind_Ok in H as (r & Hr & [= <-]).
    destruct (IH r Hr Hnd Hok) as (I1 & I2 & I3); [set_solver|]. split; [|split].
    + apply Forall_cons. split; [by apply entry_ok_other|done].
    + intros k. rewrite !fmap_cons, !elem_of_cons, I2. tauto.
    + rewrite fmap_cons. apply NoDup_cons. split; [|done]. rewrite I2. tauto.
Qed.

(** ** Documents *)

Definition distinct_documents (documents : list ImportDagDocument) : Prop :=
  NoDup (d_documentId <$> documents) /\ NoDup (d_sourceId <$> documents) /\
  NoDup (d_path <$> documents).

Lemma fmap_fresh {A} (f : A -> jstring) l x k :
  (forall y, y ∈ l -> f y <> k) -> f x = k -> NoDup (f <$> l) -> NoDup (f <$> (l ++ [x])).
Proof.
  intros Hf Hx Hl. rewrite fmap_app. apply NoDup_app. split; [done|]. split; [|apply NoDup_singleton].
  intros z (y & -> & Hy)%list_elem_of_fmap Hz. cbn in Hz. apply list_elem_of_singleton in Hz.
  apply (Hf y Hy). congruence.
Qed.

Lemma identityTaken_false documents node :
  identityTaken documents node = false -> distinct_documents documents ->
  distinct_documents (documents ++ [documentOf node]).
Proof.
  intros H (H1 & H2 & H3). unfold identityTaken in H.
  assert (forall d, d ∈ documents -> d_documentId d <> n_documentId node /\
            d_sourceId d <> n_sourceId node /\ d_path d <> n_path node) as Hd.
  { intros d Hd. apply not_true_iff_false in H. rewrite existsb_elem in H.
    split; [|split]; intros He; apply H; exists d; rewrite He, jeqb_refl, ?orb_true_r; done. }
  split; [|split]; (eapply fmap_fresh; [|reflexivity|done]); cbn; intros y Hy; by apply Hd.
Qed.

Lemma addDocuments_ok nodes documents contents :
  foldM addDocument ([], []) nodes = Ok (documents, contents) ->
  documents = map documentOf nodes /\ distinct_documents documents /\
  NoDup (c_id <$> contents) /\ Forall (entry_ok documents) contents /\
  (forall d, d ∈ documents -> d_contentId d ∈ c_id <$> contents).
Proof.
  intros H.
  apply (foldM_inv (fun done_ acc =>
    acc.1 = map documentOf done_ /\ distinct_documents acc.1 /\ NoDup (c_id <$> acc.2) /\
    Forall (entry_ok acc.1) acc.2 /\ (forall d, d ∈ acc.1 -> d_contentId d ∈ c_id <$> acc.2))) in H.
  - done.
  - cbn. split; [done|]. split; [split; [|split]; constructor|]. split; [constructor|].
    split; [constructor|]. set_solver.
  - intros done_ node [ds cs] acc' (H1 & H2 & H3 & H4 & H5) _ Hs. cbn [fst snd] in *.
    unfold addDocument in Hs. apply bind_ensure in Hs as [Hid%negb_true_iff Hs].
    apply bind_Ok in Hs as (cs' & Hc & [= <-]). cbn [fst snd].
    apply (addContent_ok ds) in Hc as (I1 & I2 & I3); [|done|done|].
    + split; [by rewrite map_app, H1|]. split; [by apply identityTaken_false|]. split; [done|].
      split; [done|]. intros d Hd. apply I2. apply elem_of_app in Hd as [Hd| ->%list_elem_of_singleton].
      * right. by apply H5.
      * by left.
    + intros Hn. apply Forall_forall. intros d Hd He. apply Hn. rewrite <- He. by apply H5.
Qed.

(** The contents of a DAG: one per digest, sorted, listing exactly the
    documents that have it. *)
Definition content_of (documents : list ImportDagDocument) (c : ImportDagContent) : Prop :=
  c_id c = contentIdOf (c_sha256 c) /\
  c_documentIds c = sort_by jleb (d_documentId <$> filter (same_content (c_id c)) documents) /\
  Forall (fun d => same_content (c_id c) d -> d_byteLength d = c_byteLength c) documents /\
  c_documentIds c <> [].

Definition contents_partition (documents : list ImportDagDocument) (contents : list ImportDagContent)
    : Prop :=
  NoDup (c_id <$> contents) /\
  StronglySorted (fun a b => jleb (c_id a) (c_id b) = true) contents /\
  Forall (content_of documents) contents /\
  (forall d, d ∈ documents -> d_contentId d ∈ c_id <$> contents).

Lemma sortContents_ids contents : c_id <$> sortContents contents = c_id <$> sort_by content_le contents.
Proof. unfold sortContents. rewrite <- list_fmap_compose. by apply list_fmap_ext. Qed.

Lemma StronglySorted_map {A B} (R : A -> A -> Prop) (R' : B -> B -> Prop) (f : A -> B) l :
  (forall a b, R a b -> R' (f a) (f b)) -> StronglySorted R l -> StronglySorted R' (map f l).
Proof.
  intros Hf. induction 1 as [|a l Hs IH Ha]; cbn; [constructor|]. constructor; [done|].
  apply Forall_fmap. eapply Forall_impl; [exact Ha|]. intros b. apply Hf.
Qed.

Lemma sortContents_ok documents contents :
  NoDup (c_id <$> contents) -> Forall (entry_ok documents) contents ->
  (forall d, d ∈ documents -> d_contentId d ∈ c_id <$> contents) ->
  contents_partition documents (sortContents contents).
Proof.
  intros Hnd Hok Hcov. split; [|split; [|split]].
  - rewrite sortContents_ids. by rewrite sort_by_perm.
  - apply (StronglySorted_map (le_prop content_le)); [by unfold le_prop, content_le|].
    apply sort_by_sorted; [intros ???; apply jleb_trans|intros ??; apply jleb_total].
  - unfold sortContents. apply Forall_fmap. rewrite sort_by_perm.
    eapply Forall_impl; [exact Hok|]. intros c (H1 & H2 & H3 & H4).
    split; [done|]. cbn. split; [by rewrite H2|]. split; [done|].
    intros He. apply H4. apply length_zero_iff_nil. rewrite <- (sort_by_length jleb). by rewrite He.
  - intros d Hd. rewrite sortContents_ids, sort_by_perm. by apply Hcov.
Qed.

(** ** Occurrences *)

Section edges.
Context `{Sha256} (documents : list ImportDagDocument).

(** What the checks of one edge establish, apart from the uniqueness of its
    identifiers. *)
Record edge_checked (e : NormalizedEdge) : Prop := {
  ec_source : exists from, from ∈ documents /\ d_documentId from = e_fromDocumentId e /\
                           d_sourceId from = range_sourceId (e_range e);
  ec_target : match targetOf documents e with
              | Some d => reaches (e_state e) = true /\ d ∈ documents /\
                          e_targetDocumentId e = Some (d_documentId d) /\
                          (e_state e <> cycle -> e_targetPath e = Some (d_path d))
              | None => reaches (e_state e) = false /\ e_targetDocumentId e = None
              end;
  ec_issue : issueDisagrees (e_state e) (e_issueCode e) = false
}.

Lemma findDocument_Some id d :
  findDocument documents id = Some d -> d ∈ documents /\ d_documentId d = id.
Proof.
  intros Hf. apply find_some in Hf as [Hin ->%jeqb_eq]. by rewrite list_elem_of_In.
Qed.

Lemma addEdge_ok occurrences index e occurrences' :
  addEdge documents occurrences (index, e) = Ok occurrences' ->
  let o := edgeOccurrence documents (length occurrences) index e in
  occurrences' = occurrences ++ [o] /\ edge_checked e /\
  (forall p, p ∈ occurrences -> o_importId p <> Some (e_importId e) /\ o_id p <> o_id o).
Proof.
  cbv zeta. unfold addEdge. intros Hr.
  apply bind_ensure in Hr as [Hi Hr]. apply bind_ensure in Hr as [Hsrc Hr].
  apply bind_ensure in Hr as [Ht1 Hr]. apply bind_ensure in Hr as [Ht2 Hr].
  apply bind_ensure in Hr as [Ht3 Hr]. apply bind_ensure in Hr as [Ht4 Hr].
  apply bind_ensure in Hr as [Hiss Hr]. apply bind_ensure in Hr as [Hid [= <-]].
  split; [done|]. split.
  - split.
    + apply bool_decide_eq_true in Hsrc.
      apply fmap_Some in Hsrc as (from & Hf & Hs). apply findDocument_Some in Hf as [Hf Hfid].
      by exists from.
    + destruct (targetOf documents e) as [d|] eqn:E.
      * assert (reaches (e_state e) = true) as Hre by by destruct (reaches (e_state e)).
        split; [done|]. unfold targetOf in E. apply bind_Some in E as (t & Et & E).
        apply findDocument_Some in E as [Hd <-]. split; [done|]. split; [done|].
        intros Hc. unfold targetPathAgrees in Ht2.
        apply orb_true_iff in Ht2 as [Ht2|Ht2]; by apply bool_decide_eq_true in Ht2.
      * split; [by destruct (reaches (e_state e))|]. by destruct (e_targetDocumentId e).
    + by apply negb_true_iff in Hiss.
  - apply negb_true_iff, not_true_iff_false in Hi, Hid. rewrite existsb_elem in Hi, Hid.
    intros p Hp. split; intros He.
    + apply Hi. exists p. split; [done|]. by apply bool_decide_eq_true.
    + apply Hid. exists p. by rewrite jeqb_eq.
Qed.

(** The loop appends one occurrence per edge, in order, and nothing else. *)
Definition edgeOccurrences (from : nat) (edges : list NormalizedEdge) : list ImportDagOccurrence :=
  imap (fun index e => edgeOccurrence documents (from + index) index e) edges.

Lemma edgeOccurrences_snoc from edges e :
  edgeOccurrences from (edges ++ [e]) =
  edgeOccurrences from edges ++ [edgeOccurrence documents (from + length edges) (length edges) e].
Proof. unfold edgeOccurrences. rewrite imap_app. cbn [imap]. by rewrite Nat.add_0_r. Qed.

Lemma addEdges_ok first edges occurrences :
  foldM (addEdge documents) first (imap (fun index e => (index, e)) edges) = Ok occurrences ->
  occurrences = first ++ edgeOccurrences (length first) edges /\
  Forall edge_checked edges /\
  (NoDup (o_id <$> first) -> NoDup (o_id <$> occurrences)) /\
  (Forall (fun o => o_importId o = None) first -> NoDup (e_importId <$> edges)).
Proof.
  revert occurrences. induction edges as [|e edges IH] using rev_ind; intros occurrences Hr.
  { injection Hr as <-. unfold edgeOccurrences. cbn. rewrite app_nil_r.
    split; [done|]. split; [constructor|]. split; [done|]. intros _. constructor. }
  rewrite imap_app in Hr. rewrite foldM_app in Hr. apply bind_Ok in Hr as (mid & Hmid & Hr).
  apply IH in Hmid as (-> & Hch & Hnd & Himp). cbn [imap foldM] in Hr.
  apply bind_Ok in Hr as (os & Hr & [= <-]). rewrite Nat.add_0_r in Hr.
  apply addEdge_ok in Hr as (-> & He & Hfresh).
  assert (length (first ++ edgeOccurrences (length first) edges) = length first + length edges) as Hlen
    by (unfold edgeOccurrences; by rewrite length_app, length_imap).
  split; [|split; [|split]].
  - by rewrite edgeOccurrences_snoc, Hlen, app_assoc.
  - apply Forall_app. by split; [|apply Forall_singleton].
  - intros Hf. rewrite fmap_app. apply NoDup_app. split; [by apply Hnd|].
    split; [|apply NoDup_singleton].
    intros k (p & -> & Hp)%list_elem_of_fmap Hk. apply list_elem_of_singleton in Hk.
    by apply (Hfresh p Hp).
  - intros Hf. rewrite fmap_app. apply NoDup_app. split; [by apply Himp|].
    split; [|apply NoDup_singleton].
    intros k (p & -> & Hp)%list_elem_of_fmap Hk. apply list_elem_of_singleton in Hk.
    apply list_elem_of_lookup in Hp as [i Hi].
    assert (edgeOccurrence documents (length first + i) i p ∈
            first ++ edgeOccurrences (length first) edges) as Hin.
    { apply elem_of_app. right. apply list_elem_of_lookup. exists i. unfold edgeOccurrences.
      by rewrite list_lookup_imap, Hi. }
    destruct (Hfresh _ Hin) as [Hne _]. apply Hne. cbn. by rewrite Hk.
Qed.
End edges.

(** ** The DAG *)

(** What one occurrence of a DAG says, by its state. *)
Definition occurrence_ok (documents : list ImportDagDocument) (o : ImportDagOccurrence) : Prop :=
  match o_state o with
  | entry =>
      exists d, d ∈ documents /\ o_targetDocumentId o = Some (d_documentId d) /\
        o_targetPath o = Some (d_path d) /\ o_contentId o = Some (d_contentId d) /\
        o_fromDocumentId o = None /\ o_importId o = None /\ o_depth o = 0%Z
  | edge s =>
      (exists from r, from ∈ documents /\ o_fromDocumentId o = Some (d_documentId from) /\
         o_range o = Some r /\ range_sourceId r = d_sourceId from) /\
      (if reaches s
       then exists d, d ∈ documents /\ o_targetDocumentId o = Some (d_documentId d) /\
              o_contentId o = Some (d_contentId d) /\
              (s <> cycle -> o_targetPath o = Some (d_path d))
       else o_targetDocumentId o = None /\ o_contentId o = None) /\
      issueDisagrees s (o_issueCode o) = false
  end.

Record wf_dag (dag : DocumentImportDag) : Prop := {
  wd_documents : distinct_documents (dag_documents dag);
  wd_contents : contents_partition (dag_documents dag) (dag_contents dag);
  wd_ids : NoDup (o_id <$> dag_occurrences dag);
  wd_ordinals : o_ordinal <$> dag_occurrences dag = seq 0 (length (dag_occurrences dag));
  wd_occurrences : Forall (occurrence_ok (dag_documents dag)) (dag_occurrences dag);
  wd_entry : dag_documents dag <> [] ->
    exists d, d ∈ dag_documents dag /\ d_path d = dag_entryPath dag /\
      dag_entryDocumentId dag = Some (d_documentId d) /\
      (o_state <$> head (dag_occurrences dag)) = Some entry
}.

Lemma edgeOccurrences_ordinals `{Sha256} documents edges from :
  o_ordinal <$> edgeOccurrences documents from edges = seq from (length edges).
Proof.
  apply list_eq. intros i. unfold edgeOccurrences. rewrite list_lookup_fmap, list_lookup_imap.
  destruct (decide (i < length edges)) as [Hi|Hi].
  - apply lookup_lt_is_Some in Hi as [e He]. rewrite He. cbn.
    rewrite lookup_seq_lt; [done|by eapply lookup_lt_Some].
  - rewrite lookup_ge_None_2 by lia. cbn. rewrite lookup_ge_None_2; [done|].
    rewrite length_seq. lia.
Qed.

Lemma edgeOccurrence_ok `{Sha256} documents ordinal index e :
  edge_checked documents e -> occurrence_ok documents (edgeOccurrence documents ordinal index e).
Proof.
  intros [(from & Hf & Hfid & Hs) Ht Hi]. unfold occurrence_ok. cbn [edgeOccurrence o_state].
  split.
  { exists from, (e_range e). cbn. rewrite Hfid. split; [done|]. split; [done|]. by split. }
  split; [|done].
  unfold edgeOccurrence. cbn [o_targetDocumentId o_contentId o_targetPath].
  destruct (targetOf documents e) as [d|]; cbn [fmap option_fmap option_map].
  - destruct Ht as (-> & Hd & Hid & Hp). exists d. split; [done|]. split; [done|]. by split.
  - destruct Ht as (-> & Hid). by split.
Qed.

Lemma addDocuments_entry documents entryPath :
  negb (negb (length documents =? 0)%nat &&
        bool_decide (find (fun d => jeqb (d_path d) entryPath) documents = None)) = true ->
  documents <> [] -> exists d, find (fun d => jeqb (d_path d) entryPath) documents = Some d /\
    d ∈ documents /\ d_path d = entryPath.
Proof.
  intros Hc Hne. destruct (find _ documents) as [d|] eqn:E.
  - exists d. split; [done|]. apply find_some in E as [Hin Hp%jeqb_eq]. by rewrite list_elem_of_In.
  - destruct documents; [done|]. cbn in Hc. done.
Qed.

Lemma buildGraph_wf `{Sha256} {Trace} graph built (ids : Trace -> list jstring) trace digest :
  buildGraph graph = Ok built -> wf_dag (dagOf graph ids trace digest built).
Proof.
  destruct built as [[[documents contents] entryDocument] occurrences]. unfold buildGraph.
  intros Hb. apply bind_Ok in Hb as ([ds cs] & Hd & Hb). cbn [fst snd] in Hb.
  apply bind_ensure in Hb as [Hentry Hb]. apply bind_Ok in Hb as (os & Ho & [= <- <- <- <-]).
  apply addDocuments_ok in Hd as (Hmap & Hdist & Hnd & Hok & Hcov).
  apply addEdges_ok in Ho as (-> & Hch & Hids & _).
  set (ed := find _ ds) in *.
  assert (length (entryOccurrences ed) <= 1) as Hlen by by destruct ed; cbn; lia.
  assert (NoDup (o_id <$> entryOccurrences ed)) as Hfirst
    by (destruct ed; [apply NoDup_singleton|constructor]).
  split; cbn [dagOf dag_documents dag_contents dag_occurrences dag_entryDocumentId dag_entryPath].
  - done.
  - by apply sortContents_ok.
  - by apply Hids.
  - rewrite fmap_app, edgeOccurrences_ordinals, length_app.
    unfold edgeOccurrences. rewrite length_imap, seq_app. f_equal. by destruct ed.
  - apply Forall_app. split.
    + destruct ed as [d|] eqn:E; [|constructor]. apply Forall_singleton.
      apply find_some in E as [Hin%list_elem_of_In _]. by exists d.
    + unfold edgeOccurrences. apply Forall_lookup. intros i o. rewrite list_lookup_imap.
      intros (e & He & ->)%fmap_Some. apply edgeOccurrence_ok.
      rewrite Forall_lookup in Hch. by eapply Hch.
  - intros Hne. destruct (addDocuments_entry _ _ Hentry Hne) as (d & Hf & Hin & Hp).
    exists d. fold ed in Hf. rewrite Hf. done.
Qed.

(** ** Framing *)

Definition good_text (s : jstring) : Prop := wf_text s /\ js_units s.

Lemma utf8_digits s : Forall (fun c => (c < 128)%N) s -> utf8 s = s.
Proof.
  unfold utf8. induction 1 as [|c s Hc Hs IH]; [done|]. cbn [code_points].
  unfold is_high, is_low. rewrite (proj2 (N.leb_gt 0xd800 c)), (proj2 (N.leb_gt 0xdc00 c)) by lia.
  cbn [andb]. rewrite fmap_cons, mjoin_cons, IH. unfold utf8_cp.
  by rewrite (proj2 (N.leb_le c 0x7f)) by lia.
Qed.

Lemma framedFields_inj fs gs :
  Forall good_text fs -> Forall good_text gs ->
  mjoin (frameField <$> fs) = mjoin (frameField <$> gs) -> fs = gs.
Proof.
  assert (forall n, 58%N ∉ String_of_N n) as Hno by (intros; apply String_of_N_no_unit; lia).
  intros Hf. revert gs. induction Hf as [|f fs [Hfw Hfu] Hf IH]; intros gs Hg Heq;
    destruct Hg as [|g gs [Hgw Hgu] Hg]; rewrite ?fmap_cons, ?mjoin_cons in Heq; unfold frameField in Heq;
    cbn [app] in Heq.
  - done.
  - done.
  - done.
  - injection Heq as Heq. rewrite <- !app_assoc in Heq. cbn [app] in Heq.
    apply cut_at_sep in Heq as [Hlen%String_of_N_inj Heq]; [|done..].
    apply app_inj_1 in Heq as [Hu Heq]; [|unfold textBytes in Hlen; lia].
    f_equal; [by apply utf8_inj|by apply IH].
Qed.

(** ** The graph validator *)

Definition stable_id (s : jstring) : Prop := STABLE_ID s = true /\ (length s <= 512)%nat.
Definition canonical (s : jstring) : Prop := isRepositoryRelativePath s = true.
Definition forward_range (r : SourceRange) : Prop :=
  stable_id (range_sourceId r) /\ backward (range_start r) (range_end r) = false.

Definition wf_node (n : NormalizedNode) : Prop :=
  (0 <= n_byteLength n <= 524288)%Z /\ (0 <= n_depth n <= 32)%Z /\ stable_id (n_documentId n) /\
  stable_id (n_sourceId n) /\ canonical (n_path n) /\ SHA256 (n_sha256 n) = true.

Definition wf_edge (e : NormalizedEdge) : Prop :=
  (0 <= e_depth e <= 33)%Z /\ stable_id (e_fromDocumentId e) /\ stable_id (e_importId e) /\
  forward_range (e_range e) /\
  (forall t, e_targetDocumentId e = Some t -> stable_id t) /\
  (forall p, e_targetPath e = Some p -> canonical p).

Definition wf_issue (i : ImportDagIssue) : Prop :=
  canonical (i_path i) /\ (forall k, i_importId i = Some k -> stable_id k) /\
  (forall r, i_range i = Some r -> forward_range r) /\
  (forall p, i_targetPath i = Some p -> canonical p).

Record wf_graph (g : NormalizedGraph) : Prop := {
  wg_entry : canonical (g_entryPath g) /\ g_entryPath g <> #".";
  wg_nodes : Forall wf_node (g_nodes g) /\ (N.of_nat (length (g_nodes g)) <= maxDocuments)%N;
  wg_edges : Forall wf_edge (g_edges g) /\ (N.of_nat (length (g_edges g)) < maxOccurrences)%N;
  wg_issues : Forall wf_issue (g_issues g) /\ (N.of_nat (length (g_issues g)) <= maxGraphIssues)%N;
  wg_state : g_state g = complete <-> g_issues g = [];
  wg_bytes : (totalBytes (g_nodes g) <= 16777216)%Z
}.

Section validated.
Context {F : Type}.
Implicit Types value : jsval F.

Lemma identifier_Ok value s : identifier value = Ok s -> stable_id s.
Proof.
  destruct value; try done. intros [Hs [= <-]]%bind_ensure.
  apply andb_true_iff in Hs as [Hl%N.leb_le Hs]. split; [done|lia].
Qed.

Lemma pathValue_Ok value s : pathValue value = Ok s -> canonical s.
Proof. destruct value; try done. by intros [Hs [= <-]]%bind_ensure. Qed.

Lemma integer_Ok value m n : integer value m = Ok n -> (0 <= n <= m)%Z.
Proof.
  destruct value; try done. intros [Hs [= <-]]%bind_ensure.
  apply andb_true_iff in Hs as [[H1 _]%andb_true_iff H2]. lia.
Qed.

Lemma nullable_Ok {A} (parse : jsval F -> res DocumentImportDagErrorCode A) value o (P : A -> Prop) :
  nullable parse value = Ok o -> (forall v a, parse v = Ok a -> P a) -> forall a, o = Some a -> P a.
Proof.
  unfold nullable. intros Hv HP a ->. destruct value; try done;
    apply bind_Ok in Hv as (y & Hy & [= ->]); by eapply HP.
Qed.

Lemma property_bind_Ok {B} r key (f : jsval F -> res DocumentImportDagErrorCode B) b :
  (property r key ≫= f) = Ok b -> exists v, f v = Ok b.
Proof. intros (v & _ & Hf)%bind_Ok. by exists v. Qed.

Lemma range_Ok value r : range value = Ok r -> forward_range r.
Proof.
  unfold range. intros Hr. apply bind_Ok in Hr as (input & _ & Hr).
  apply bind_Ok in Hr as (sid & [v Hs%identifier_Ok]%property_bind_Ok & Hr).
  apply bind_Ok in Hr as (start & _ & Hr). apply bind_Ok in Hr as (stop & _ & Hr).
  apply bind_ensure in Hr as [Hb%negb_true_iff [= <-]]. by split.
Qed.

Lemma denseArray_Ok value limit items :
  denseArray value limit = Ok items -> (N.of_nat (length items) <= limit)%N.
Proof.
  destruct value; try done. intros [Hl%N.leb_le Hd]%bind_ensure.
  by apply bind_ensure in Hd as [_ [= <-]].
Qed.

Lemma normalizeNode_Ok value n : normalizeNode value = Ok n -> wf_node n.
Proof.
  unfold normalizeNode. intros Hr. apply bind_Ok in Hr as (input & _ & Hr).
  apply bind_Ok in Hr as (imports & _ & Hr). apply bind_Ok in Hr as (state & _ & Hr).
  apply bind_Ok in Hr as (digest & [v1 Hsha]%property_bind_Ok & Hr).
  apply bind_Ok in Hr as (bl & [v2 Hbl%integer_Ok]%property_bind_Ok & Hr).
  apply bind_Ok in Hr as (dp & [v3 Hdp%integer_Ok]%property_bind_Ok & Hr).
  apply bind_Ok in Hr as (did & [v4 Hdid%identifier_Ok]%property_bind_Ok & Hr).
  apply bind_Ok in Hr as (path & [v5 Hpath%pathValue_Ok]%property_bind_Ok & Hr).
  apply bind_Ok in Hr as (sid & [v6 Hsid%identifier_Ok]%property_bind_Ok & [= <-]).
  assert (SHA256 digest = true) as Hd.
  { unfold sha256Value in Hsha. destruct v1; try done. by apply bind_ensure in Hsha as [? [= <-]]. }
  done.
Qed.

Lemma normalizeEdge_Ok value e : normalizeEdge value = Ok e -> wf_edge e.
Proof.
  unfold normalizeEdge. intros Hr. apply bind_Ok in Hr as (input & _ & Hr).
  apply bind_Ok in Hr as (import & _ & Hr). apply bind_Ok in Hr as (reference & _ & Hr).
  apply bind_Ok in Hr as (state & _ & Hr). apply bind_Ok in Hr as (code & _ & Hr).
  apply bind_Ok in Hr as (raw & _ & Hr).
  apply bind_Ok in Hr as (from & [v1 Hfrom%identifier_Ok]%property_bind_Ok & Hr).
  apply bind_Ok in Hr as (owner & _ & Hr). apply bind_ensure in Hr as [_ Hr].
  apply bind_Ok in Hr as (dp & [v2 Hdp%integer_Ok]%property_bind_Ok & Hr).
  apply bind_Ok in Hr as (iid & [v3 Hiid%identifier_Ok]%property_bind_Ok & Hr).
  apply bind_Ok in Hr as (r & [v4 Hrange%range_Ok]%property_bind_Ok & Hr).
  apply bind_Ok in Hr as (tid & [v5 Htid]%property_bind_Ok & Hr).
  apply bind_Ok in Hr as (tp & [v6 Htp]%property_bind_Ok & [= <-]).
  split; [done|]. split; [done|]. split; [done|]. split; [done|]. cbn [e_targetDocumentId e_targetPath].
  split; intros x Hx.
  - eapply (nullable_Ok identifier _ _ stable_id); [exact Htid|apply identifier_Ok|done].
  - eapply (nullable_Ok pathValue _ _ canonical); [exact Htp|apply pathValue_Ok|done].
Qed.

Lemma normalizeIssue_Ok value i : normalizeIssue value = Ok i -> wf_issue i.
Proof.
  unfold normalizeIssue. intros Hr. apply bind_Ok in Hr as (input & _ & Hr).
  apply bind_Ok in Hr as (code & _ & Hr).
  apply bind_Ok in Hr as (iid & [v1 Hiid]%property_bind_Ok & Hr).
  apply bind_Ok in Hr as (path & [v2 Hpath%pathValue_Ok]%property_bind_Ok & Hr).
  apply bind_Ok in Hr as (r & [v3 Hrange]%property_bind_Ok & Hr).
  apply bind_Ok in Hr as (tp & [v4 Htp]%property_bind_Ok & [= <-]).
  split; [done|]. cbn [i_importId i_range i_targetPath]. split; [|split]; intros x Hx.
  - eapply (nullable_Ok identifier _ _ stable_id); [exact Hiid|apply identifier_Ok|done].
  - eapply (nullable_Ok range _ _ forward_range); [exact Hrange|apply range_Ok|done].
  - eapply (nullable_Ok pathValue _ _ canonical); [exact Htp|apply pathValue_Ok|done].
Qed.

Lemma rmapM_Forall {A B} (f : A -> res DocumentImportDagErrorCode B) (P : B -> Prop) l r :
  rmapM f l = Ok r -> (forall a b, f a = Ok b -> P b) -> Forall P r /\ length r = length l.
Proof.
  intros Hr HP. split; [|by eapply rmapM_length]. apply rmapM_Ok in Hr.
  induction Hr; constructor; [by eapply HP|done].
Qed.

Lemma countedNodes_Ok rawNodes counted :
  foldM (countedNode (F := F)) (0%N, []) rawNodes = Ok counted ->
  Forall wf_node counted.2 /\ length counted.2 = length rawNodes /\ (counted.1 <= maxReferences)%N.
Proof.
  intros Hc. apply (foldM_inv (fun d acc => Forall wf_node acc.2 /\ length acc.2 = length d /\
                                (acc.1 <= maxReferences)%N)) in Hc; [done| |].
  - split; [constructor|]. split; [done|]. unfold maxReferences. cbn. lia.
  - intros d v [count nodes] acc' (Hn & Hl & _) _ Hs. cbn [fst snd] in *. unfold countedNode in Hs.
    apply bind_Ok in Hs as (input & _ & Hs). apply bind_Ok in Hs as (imports & _ & Hs).
    apply bind_ensure in Hs as [Hm%N.leb_le Hs]. apply bind_Ok in Hs as (node & Hnode & [= <-]).
    cbn [fst snd]. split; [apply Forall_app; split; [done|]|].
    + apply Forall_singleton. by eapply normalizeNode_Ok.
    + split; [|done]. rewrite !length_app. cbn. lia.
Qed.

Lemma normalizeGraph_wf value g : normalizeGraph value = Ok g -> wf_graph g.
Proof.
  unfold normalizeGraph. intros Hr. apply bind_Ok in Hr as (input & _ & Hr).
  apply bind_Ok in Hr as (version & _ & Hr). apply bind_ensure in Hr as [_ Hr].
  apply bind_Ok in Hr as (syntax & _ & Hr). apply bind_ensure in Hr as [_ Hr].
  apply bind_Ok in Hr as (entryPath & [v1 Hentry%pathValue_Ok]%property_bind_Ok & Hr).
  apply bind_ensure in Hr as [Hdot%negb_true_iff%jeqb_neq Hr].
  apply bind_Ok in Hr as (rawNodes & [v2 Hn%denseArray_Ok]%property_bind_Ok & Hr).
  apply bind_Ok in Hr as (rawEdges & [v3 He%denseArray_Ok]%property_bind_Ok & Hr).
  apply bind_Ok in Hr as (rawIssues & [v4 Hi%denseArray_Ok]%property_bind_Ok & Hr).
  apply bind_Ok in Hr as (counted & (Hcn & Hcl & _)%countedNodes_Ok & Hr).
  apply bind_Ok in Hr as (edges & Hedges & Hr). apply bind_Ok in Hr as (issues & Hissues & Hr).
  apply (rmapM_Forall _ wf_edge) in Hedges as [Hwe Hle]; [|apply normalizeEdge_Ok].
  apply (rmapM_Forall _ wf_issue) in Hissues as [Hwi Hli]; [|apply normalizeIssue_Ok].
  apply bind_Ok in Hr as (state & _ & Hr). apply bind_ensure in Hr as [Hst%eqb_prop Hr].
  apply bind_Ok in Hr as (usage & _ & Hr).
  apply bind_Ok in Hr as (ue & _ & Hr). apply bind_ensure in Hr as [_ Hr].
  apply bind_Ok in Hr as (uf & _ & Hr). apply bind_ensure in Hr as [_ Hr].
  apply bind_Ok in Hr as (ui & _ & Hr). apply bind_ensure in Hr as [_ Hr].
  apply bind_Ok in Hr as (ub & [v5 Hub%integer_Ok]%property_bind_Ok & Hr).
  apply bind_ensure in Hr as [Hb%Z.eqb_eq [= <-]].
  split; cbn [g_entryPath g_nodes g_edges g_issues g_state].
  - done.
  - by rewrite Hcl.
  - rewrite Hle. split; [done|]. unfold maxOccurrences in *. lia.
  - by rewrite Hli.
  - rewrite <- length_zero_iff_nil. destruct state; cbn in Hst; symmetry in Hst.
    + by apply Nat.eqb_eq in Hst.
    + apply Nat.eqb_neq in Hst. by split.
  - lia.
Qed.
End validated.

(** ** Building *)

Section building.
Context `{Sha256} {F Trace TraceErr : Type} `{!TraceService F Trace TraceErr}.

Lemma lift_dag_Ok {T A} (r : res DocumentImportDagErrorCode A) (a : A) :
  lift_dag (T := T) r = Ok a <-> r = Ok a.
Proof. destruct r; cbn; split; congruence. Qed.

Lemma lift_trace_Ok {T A} (r : res T A) (a : A) : lift_trace r = Ok a <-> r = Ok a.
Proof. destruct r; cbn; split; congruence. Qed.

(** What a successful build consists of. *)
Lemma build_Ok (inputValue : jsval F) dag :
  buildDocumentImportDag inputValue = Ok dag ->
  exists (value : jsval F) graph trace digest built, normalizeGraph value = Ok graph /\
    buildGraph graph = Ok built /\ dag = dagOf graph traceEventIds trace digest built.
Proof.
  unfold buildDocumentImportDag. intros Hb. apply bind_Ok in Hb as (input & _ & Hb).
  apply bind_Ok in Hb as (graph & Hg%lift_dag_Ok & Hb).
  apply bind_Ok in Hg as (value & _ & Hg).
  apply bind_Ok in Hb as (raw & _ & Hb). apply bind_Ok in Hb as (trace & _ & Hb).
  apply bind_Ok in Hb as (digest & _ & Hb). apply bind_Ok in Hb as (built & Hbuilt%lift_dag_Ok & [= <-]).
  by exists value, graph, trace, digest, built.
Qed.

Lemma buildGraph_shape graph documents contents entryDocument occurrences :
  buildGraph graph = Ok (documents, contents, entryDocument, occurrences) ->
  documents = map documentOf (g_nodes graph) /\
  entryDocument = find (fun d => jeqb (d_path d) (g_entryPath graph)) documents /\
  occurrences = entryOccurrences entryDocument ++
    edgeOccurrences documents (length (entryOccurrences entryDocument)) (g_edges graph) /\
  NoDup (e_importId <$> g_edges graph).
Proof.
  unfold buildGraph. intros Hb. apply bind_Ok in Hb as ([ds cs] & Hd & Hb). cbn [fst snd] in Hb.
  apply bind_ensure in Hb as [_ Hb]. apply bind_Ok in Hb as (os & Ho & [= <- <- <- <-]).
  apply addDocuments_ok in Hd as (Hmap & _). apply addEdges_ok in Ho as (-> & _ & _ & Himp).
  split; [done|]. split; [done|]. split; [done|]. apply Himp.
  destruct (find _ ds); [by apply Forall_singleton|constructor].
Qed.
End building.

(** *** A concrete graph value *)

#[export] Instance unit_traces : TraceService unit unit unit := {|
  normalizeResolutionEventTrace _ := Ok tt;
  digestResolutionEventTrace _ := Ok #"digest";
  traceEventIds _ := [ #"event:1"]
|}.

Definition num_field (k : jstring) (n : Z) : jstring * jsval unit := (k, JNum n).
Definition str_field (k s : jstring) : jstring * jsval unit := (k, JStr s).

(** A source with the format the graph validator demands. *)
Definition node_value (documentId : jstring) (s : IrSource) : jsval unit :=
  JRec [num_field #"byteLength" (src_byteLength s); num_field #"depth" 0;
        str_field #"documentId" documentId; (#"imports", JArr true []);
        str_field #"path" (src_path s); str_field #"sha256" (src_sha256 s);
        str_field #"sourceId" (src_id s); str_field #"state" #"loaded"].

Definition single_graph (documentId : jstring) (s : IrSource) : jsval unit :=
  JRec [str_field #"contractVersion" #"0.1.0"; (#"edges", JArr true []);
        str_field #"entryPath" (src_path s); (#"issues", JArr true []);
        (#"nodes", JArr true [node_value documentId s]); str_field #"state" #"complete";
        str_field #"syntax" #"claude-code";
        (#"usage", JRec [num_field #"edges" 0; num_field #"files" 1; num_field #"issues" 0;
                         num_field #"totalBytes" (src_byteLength s)])].

Definition valid_source (s : IrSource) : Prop :=
  (0 <= src_byteLength s <= 524288)%Z /\ stable_id (src_id s) /\ canonical (src_path s) /\
  src_path s <> #"." /\ SHA256 (src_sha256 s) = true /\ src_complete s = true.

Lemma identifier_JStr s : stable_id s -> identifier (F := unit) (JStr s) = Ok s.
Proof.
  intros [Hs Hl]. cbn. rewrite Hs. by rewrite (proj2 (N.leb_le _ 512)) by lia.
Qed.

Lemma integer_JNum n m : (0 <= n <= m)%Z -> (m <= MAX_SAFE_INTEGER)%Z ->
  integer (F := unit) (JNum n) m = Ok n.
Proof.
  intros Hn Hm. unfold integer.
  rewrite (proj2 (Z.leb_le 0 n)), (proj2 (Z.leb_le n MAX_SAFE_INTEGER)), (proj2 (Z.leb_le n m)) by lia.
  done.
Qed.

Lemma pathValue_JStr s : canonical s -> pathValue (F := unit) (JStr s) = Ok s.
Proof. unfold canonical. intros Hs. cbn. by rewrite Hs. Qed.

Definition single_node (documentId : jstring) (s : IrSource) : NormalizedNode :=
  {| n_byteLength := src_byteLength s; n_depth := 0; n_documentId := documentId;
     n_path := src_path s; n_sha256 := src_sha256 s; n_sourceId := src_id s; n_state := node_loaded |}.

(** [p] computes to [v]. *)
Ltac lookup_is p v := change p with (Ok v : res DocumentImportDagErrorCode _).

Lemma normalizeNode_single documentId s :
  valid_source s -> stable_id documentId ->
  normalizeNode (node_value documentId s) = Ok (single_node documentId s).
Proof.
  intros (Hb & Hid & Hp & _ & Hsha & _) Hd. unfold normalizeNode, node_value.
  set (fs := [_; _; _; _; _; _; _; _]).
  change (record (JRec fs) NODE_KEYS) with (Ok fs : res DocumentImportDagErrorCode _).
  cbn [mbind res_mbind].
  lookup_is (@property unit fs #"imports") ((JArr true []) : jsval unit).
  lookup_is (@property unit fs #"state") ((JStr #"loaded") : jsval unit).
  lookup_is (@property unit fs #"sha256") ((JStr (src_sha256 s)) : jsval unit).
  lookup_is (@property unit fs #"byteLength") ((JNum (src_byteLength s)) : jsval unit).
  lookup_is (@property unit fs #"depth") ((JNum 0) : jsval unit).
  lookup_is (@property unit fs #"documentId") ((JStr documentId) : jsval unit).
  lookup_is (@property unit fs #"path") ((JStr (src_path s)) : jsval unit).
  lookup_is (@property unit fs #"sourceId") ((JStr (src_id s)) : jsval unit).
  cbn [mbind res_mbind].
  change (denseArray (JArr true []) maxImports) with (Ok [] : res DocumentImportDagErrorCode (list (jsval unit))).
  change (nodeState (JStr #"loaded")) with (Ok node_loaded : res DocumentImportDagErrorCode NodeState).
  cbn [mbind res_mbind]. unfold sha256Value. rewrite Hsha. cbn [ensure mbind res_mbind].
  rewrite (integer_JNum (src_byteLength s) 524288), (integer_JNum 0 32) by (unfold MAX_SAFE_INTEGER; lia).
  cbn [mbind res_mbind]. rewrite (identifier_JStr documentId), (pathValue_JStr (src_path s)),
    (identifier_JStr (src_id s)) by done.
  done.
Qed.

Lemma normalizeGraph_single documentId s :
  valid_source s -> stable_id documentId ->
  normalizeGraph (single_graph documentId s) =
  Ok {| g_edges := []; g_entryPath := src_path s; g_issues := []; g_nodes := [single_node documentId s];
        g_state := complete |}.
Proof.
  intros Hv Hd. pose proof Hv as (Hb & Hid & Hp & Hdot & Hsha & _).
  unfold normalizeGraph, single_graph. set (fs := [_; _; _; _; _; _; _; _]).
  match goal with |- context [record (JRec fs) ?keys] =>
    change (record (JRec fs) keys) with (Ok fs : res DocumentImportDagErrorCode _) end.
  cbn [mbind res_mbind].
  lookup_is (@property unit fs #"contractVersion") (JStr #"0.1.0" : jsval unit).
  lookup_is (@property unit fs #"syntax") (JStr #"claude-code" : jsval unit).
  lookup_is (@property unit fs #"entryPath") (JStr (src_path s) : jsval unit).
  lookup_is (@property unit fs #"nodes") (JArr true [node_value documentId s] : jsval unit).
  lookup_is (@property unit fs #"edges") (JArr true [] : jsval unit).
  lookup_is (@property unit fs #"issues") (JArr true [] : jsval unit).
  lookup_is (@property unit fs #"state") (JStr #"complete" : jsval unit).
  set (us := [num_field #"edges" 0; num_field #"files" 1; num_field #"issues" 0;
              num_field #"totalBytes" (src_byteLength s)]).
  lookup_is (@property unit fs #"usage") (JRec us : jsval unit).
  cbn [mbind res_mbind].
  lookup_is (@record unit (JRec us) [ #"edges"; #"files"; #"issues"; #"totalBytes"]) us.
  change (is_text (JStr #"0.1.0" : jsval unit) #"0.1.0") with true.
  change (existsb (is_text (JStr #"claude-code" : jsval unit)) SYNTAXES) with true.
  rewrite pathValue_JStr by done. cbn [ensure mbind res_mbind].
  rewrite (proj2 (jeqb_neq (src_path s) #".")) by done. cbn [negb ensure mbind res_mbind].
  lookup_is (@denseArray unit (JArr true [node_value documentId s]) maxDocuments)
    ([node_value documentId s]).
  lookup_is (@denseArray unit (JArr true []) (maxOccurrences - 1)%N) (@nil (jsval unit)).
  lookup_is (@denseArray unit (JArr true []) maxGraphIssues) (@nil (jsval unit)).
  cbn [mbind res_mbind foldM rmapM]. unfold countedNode.
  lookup_is (@record unit (node_value documentId s) NODE_KEYS)
    (match node_value documentId s with JRec r => r | _ => [] end).
  cbn [node_value mbind res_mbind].
  match goal with |- context [property ?r #"imports"] =>
    lookup_is (@property unit r #"imports") (JArr true [] : jsval unit) end.
  cbn [mbind res_mbind].
  lookup_is (@denseArray unit (JArr true []) maxImports) (@nil (jsval unit)).
  cbn [mbind res_mbind]. change (0 + N.of_nat (length (@nil (jsval unit))) <=? maxReferences)%N with true.
  cbn [ensure mbind res_mbind].
  rewrite normalizeNode_single by done. cbn [mbind res_mbind snd app].
  lookup_is (@graphState unit (JStr #"complete")) complete.
  cbn [mbind res_mbind].
  change (Bool.eqb (is_complete complete) (length (@nil ImportDagIssue) =? 0)%nat) with true.
  lookup_is (@property unit us #"edges") (JNum 0 : jsval unit).
  lookup_is (@property unit us #"files") (JNum 1 : jsval unit).
  lookup_is (@property unit us #"issues") (JNum 0 : jsval unit).
  lookup_is (@property unit us #"totalBytes") (JNum (src_byteLength s) : jsval unit).
  cbn [ensure mbind res_mbind].
  rewrite !integer_JNum by (unfold MAX_SAFE_INTEGER; lia). cbn [mbind res_mbind].
  unfold totalBytes. cbn [length foldr n_byteLength single_node]. rewrite Z.add_0_r, Z.eqb_refl. done.
Qed.

Lemma buildGraph_single `{Sha256} documentId s :
  src_complete s = true ->
  buildGraph {| g_edges := []; g_entryPath := src_path s; g_issues := [];
                g_nodes := [single_node documentId s]; g_state := complete |} =
  let d := sourceDocument documentId s in
  Ok ([d], [{| c_byteLength := src_byteLength s; c_documentIds := [documentId];
               c_id := contentIdOf (src_sha256 s); c_sha256 := src_sha256 s |}], Some d,
      [entryOccurrence d]).
Proof.
  intros Hc. assert (documentOf (single_node documentId s) = sourceDocument documentId s) as Hdoc.
  { unfold documentOf, sourceDocument, sourceState. by rewrite Hc. }
  unfold buildGraph. cbn [g_nodes foldM addDocument identityTaken existsb negb ensure mbind res_mbind
    addContent fst snd app]. rewrite Hdoc. cbn [find g_entryPath sourceDocument d_path].
  rewrite jeqb_refl. done.
Qed.

(** ** Properties *)

(** C35.  A DAG the builder returns is well formed: documents have distinct
    identities, contents partition the documents by digest with one length
    each, occurrence identifiers are distinct and numbered in order, every
    edge starts at a document of the graph from a range of its source, edges
    that loaded something lead to a document and carry its content, failed
    ones lead nowhere and say why, and a non-empty graph starts at its entry;
    it is complete exactly when it has no issue. *)
Theorem buildDocumentImportDag_wf `{Sha256} {F Trace TraceErr} `{!TraceService F Trace TraceErr}
  (inputValue : jsval F) (dag : DocumentImportDag)
  (Hb : buildDocumentImportDag inputValue = Ok dag) :
  wf_dag dag /\ (dag_graphState dag = complete <-> dag_issues dag = []).
Proof.
  destruct (build_Ok _ _ Hb) as (value & graph & trace & digest & built & Hg & Hbuilt & ->).
  split; [by apply buildGraph_wf|]. destruct built as [[[ds cs] ed] os].
  cbn [dagOf dag_graphState dag_issues]. apply (wg_state graph). by eapply normalizeGraph_wf.
Qed.

Definition sample_source : IrSource :=
  {| src_id := #"source:1"; src_path := #"AGENTS.md"; src_byteLength := 12;
     src_sha256 := repeat 97%N 64; src_complete := true |}.

Definition sample_dag_input : jsval unit :=
  JRec [(#"graph", single_graph #"document:1" sample_source); (#"trace", JNull)].

Lemma buildDocumentImportDag_wf_witness :
  exists dag, buildDocumentImportDag (H := toy_sha256) sample_dag_input = Ok dag /\ wf_dag dag.
Proof.
  eexists. split; [vm_compute; reflexivity|].
  apply (buildDocumentImportDag_wf (H := toy_sha256) sample_dag_input). vm_compute; reflexivity.
Defined.

(** The builder preserves occurrences: it accepts only well-formed graphs,
    keeps their nodes as documents one by one and in order, and turns the entry
    and then every import edge, also a repeated or failed one, into exactly one
    occurrence, in order. *)
Theorem buildDocumentImportDag_occurrences `{Sha256} {F Trace TraceErr}
  `{!TraceService F Trace TraceErr} (inputValue : jsval F) (dag : DocumentImportDag)
  (Hb : buildDocumentImportDag inputValue = Ok dag) :
  exists graph, wf_graph graph /\ NoDup (e_importId <$> g_edges graph) /\
    dag_documents dag = map documentOf (g_nodes graph) /\
    let first := entryOccurrences
                   (find (fun d => jeqb (d_path d) (g_entryPath graph)) (dag_documents dag)) in
    dag_occurrences dag =
      first ++ imap (fun index e => edgeOccurrence (dag_documents dag) (length first + index) index e)
                 (g_edges graph).
Proof.
  destruct (build_Ok _ _ Hb) as (value & graph & trace & digest & built & Hg & Hbuilt & ->).
  exists graph. split; [by eapply normalizeGraph_wf|]. destruct built as [[[ds cs] ed] os].
  apply buildGraph_shape in Hbuilt as (-> & -> & -> & Hn). done.
Qed.

Lemma buildDocumentImportDag_occurrences_witness :
  exists dag graph, buildDocumentImportDag (H := toy_sha256) sample_dag_input = Ok dag /\
    wf_graph graph /\ dag_documents dag = map documentOf (g_nodes graph).
Proof.
  eexists. edestruct (buildDocumentImportDag_occurrences (H := toy_sha256) sample_dag_input)
    as (graph & Hw & _ & Hd & _); [vm_compute; reflexivity|].
  exists graph. split; [vm_compute; reflexivity|]. split; [exact Hw|exact Hd].
Defined.

(**  Occurrence identifiers bind their fields: two field lists with one
    framed hash are equal unless their distinct messages collide under
    SHA-256. *)
Theorem framedHash_binds `{Sha256} (namespace : jstring) (fields fields' : list jstring)
  (Hf : Forall good_text fields) (Hf' : Forall good_text fields')
  (Heq : framedHash namespace fields = framedHash namespace fields') :
  fields = fields' \/
  (framedMessage namespace fields <> framedMessage namespace fields' /\
   sha256 (framedMessage namespace fields) = sha256 (framedMessage namespace fields')).
Proof.
  apply hex_inj in Heq; [|apply sha256_bytes..].
  destruct (decide (framedMessage namespace fields = framedMessage namespace fields')) as [Hm|Hm];
    [left|by right].
  apply app_inv_head in Hm. by apply framedFields_inj.
Qed.

Lemma framedHash_binds_witness :
  let fs := [ #"entry"; #"document:1"; #"AGENTS.md"] in
  fs = fs \/ (framedMessage #"n" fs <> framedMessage #"n" fs /\
              @sha256 toy_sha256 (framedMessage #"n" fs) = @sha256 toy_sha256 (framedMessage #"n" fs)).
Proof.
  intros fs. apply (@framedHash_binds toy_sha256 #"n" fs fs).
  - repeat constructor.
  - repeat constructor.
  - reflexivity.
Defined.

(**  The import-free shortcut agrees with the builder: for a completely
    parsed document without imports it returns the very DAG the builder makes
    of the one-node graph of its source. *)
Theorem buildNoImport_is_single_graph `{Sha256} {Trace TraceErr}
  `{!TraceService unit Trace TraceErr} (issued : jsval unit -> option InstructionIrSnapshot)
  (irValue trace : jsval unit) (ir : InstructionIrSnapshot) (document : IrDocument) (source : IrSource)
  (Hissued : issued irValue = Some ir)
  (Hsize : (N.of_nat (length (ir_documents ir)) <= maxDocuments)%N)
  (Hdoc : find (fun d => jeqb (doc_id d) (doc_id document)) (ir_documents ir) = Some document)
  (Himports : doc_importIds document = [])
  (Hsource : find (fun s => jeqb (src_id s) (doc_sourceId document)) (ir_sources ir) = Some source)
  (Hid : stable_id (doc_id document)) (Hvalid : valid_source source) :
  buildNoImportDocumentDag issued
    (JRec [(#"documentId", JStr (doc_id document)); (#"ir", irValue); (#"trace", trace)]) =
  buildDocumentImportDag
    (JRec [(#"graph", single_graph (doc_id document) source); (#"trace", trace)]).
Proof.
  unfold buildNoImportDocumentDag, buildDocumentImportDag.
  set (fs := [(#"documentId", JStr (doc_id document)); (#"ir", irValue); (#"trace", trace)]).
  set (gs := [(#"graph", single_graph (doc_id document) source); (#"trace", trace)]).
  lookup_is (@record unit (JRec fs) [ #"documentId"; #"ir"; #"trace"]) fs.
  lookup_is (@record unit (JRec gs) [ #"graph"; #"trace"]) gs.
  cbn [lift_dag mbind res_mbind].
  lookup_is (@property unit fs #"ir") irValue.
  lookup_is (@property unit fs #"documentId") (JStr (doc_id document) : jsval unit).
  lookup_is (@property unit fs #"trace") trace.
  lookup_is (@property unit gs #"trace") trace.
  lookup_is (@property unit gs #"graph") (single_graph (doc_id document) source).
  cbn [lift_dag mbind res_mbind]. rewrite Hissued.
  rewrite (proj2 (N.leb_le _ maxDocuments)) by done. rewrite Hdoc. cbn [ensure lift_dag mbind res_mbind].
  rewrite Himports, Hsource. cbn [length Nat.eqb ensure lift_dag mbind res_mbind].
  rewrite normalizeGraph_single by done. cbn [lift_dag mbind res_mbind].
  destruct (normalizeResolutionEventTrace trace) as [t|e]; cbn [lift_trace mbind res_mbind]; [|done].
  destruct (digestResolutionEventTrace t) as [digest|e]; cbn [lift_trace mbind res_mbind]; [|done].
  destruct Hvalid as (_ & _ & _ & _ & _ & Hc).
  rewrite buildGraph_single by done. unfold sourceGraphState. rewrite Hc. done.
Qed.

Definition sample_ir : InstructionIrSnapshot :=
  {| ir_documents := [{| doc_id := #"document:1"; doc_sourceId := #"source:1"; doc_importIds := [] |}];
     ir_sources := [sample_source] |}.

Lemma buildNoImport_is_single_graph_witness :
  buildNoImportDocumentDag (H := toy_sha256) (fun _ => Some sample_ir)
    (JRec [(#"documentId", JStr #"document:1"); (#"ir", JExotic); (#"trace", JNull)]) =
  buildDocumentImportDag (H := toy_sha256) sample_dag_input.
Proof.
  apply (buildNoImport_is_single_graph (H := toy_sha256) (fun _ => Some sample_ir) JExotic JNull sample_ir
           {| doc_id := #"document:1"; doc_sourceId := #"source:1"; doc_importIds := [] |} sample_source).
  - reflexivity.
  - vm_compute; discriminate.
  - vm_compute; reflexivity.
  - reflexivity.
  - vm_compute; reflexivity.
  - split; [reflexivity|]. vm_compute. lia.
  - split; [vm_compute; split; discriminate|]. split; [split; [reflexivity|vm_compute; lia]|].
    split; [vm_compute; reflexivity|]. split; [discriminate|]. split; [vm_compute; reflexivity|reflexivity].
Defined.
