(* ===== verification/JsonText.v ===== *)
(** [JSON.stringify] on plain data, the order in which an object enumerates its
    own keys, and the fact every digest of such a text relies on: the text
    determines the data. *)
From S2P Require Import Prelude JsString Unicode JsValue Json ObjectGraph.

(** [JSON.stringify(x)] of a number *)
Definition number_json (x : number) : jstring :=
  match x with
  | Integer n => String_of_Z n
  | Fraction t => t
  | NegativeZero => #"0"
  | NaN | Infinite _ => #"null"
  end.

(** Plain data holds no references, functions or [undefined]. *)
Fixpoint JSON_stringify (v : value) : jstring :=
  match v with
  | VNull => #"null"
  | VBool b => if b then #"true" else #"false"
  | VNumber x => number_json x
  | VString s => json_string s
  | VArray items => 91%N :: join 44%N (map JSON_stringify items) ++ [93%N]
  | VRecord fields =>
      123%N :: join 44%N (map (fun f => json_string f.1 ++ 58%N :: JSON_stringify f.2) fields) ++ [125%N]
  | VUndefined | VFunction | VOther | VRef _ => #"undefined"
  end.

(** ** The order of own keys

    Array indices come first, in ascending order, then the other strings in the
    order of their creation. *)

Definition array_index (key : jstring) : option N :=
  let n := digits_value 0 key in
  if jeqb (String_of_N n) key && (n <? 4294967295)%N then Some n else None.

Section own_order.
Context {A : Type}.

Definition has_index (f : jstring * A) : bool := match array_index f.1 with Some _ => true | None => false end.
Definition index_le (f g : jstring * A) : bool := (default 0 (array_index f.1) <=? default 0 (array_index g.1))%N.

(** The fields of an object whose properties were defined in the order given. *)
Definition own_order (fields : list (jstring * A)) : list (jstring * A) :=
  sort_by index_le (List.filter has_index fields) ++ List.filter (fun f => negb (has_index f)) fields.

Lemma own_order_perm fields : own_order fields ≡ₚ fields.
Proof.
  unfold own_order. rewrite sort_by_perm.
  induction fields as [|f l IH]; [done|]. cbn. destruct (has_index f); cbn; [by rewrite IH|].
  rewrite <- Permutation_middle. by rewrite IH.
Qed.
End own_order.

(** ** The text determines the data *)

(** The units of a numeral: digits, signs, the point and the exponent mark. *)
Definition numeral_unit (c : N) : bool :=
  (48 <=? c)%N && (c <=? 57)%N || (c =? 43)%N || (c =? 45)%N || (c =? 46)%N || (c =? 101)%N.

(** Texts of [Number::toString] that are no decimal integers. *)
Definition json_number (x : number) : Prop :=
  match x with
  | Integer _ => True
  | Fraction t => t <> [] /\ Forall (fun c => numeral_unit c = true) t /\ forall n, t <> String_of_Z n
  | NegativeZero | NaN | Infinite _ => False
  end.

Inductive json_data : value -> Prop :=
| json_data_null : json_data VNull
| json_data_bool b : json_data (VBool b)
| json_data_number x : json_number x -> json_data (VNumber x)
| json_data_string s : json_data (VString s)
| json_data_array items : Forall json_data items -> json_data (VArray items)
| json_data_record fields : Forall (fun f => json_data f.2) fields -> json_data (VRecord fields).

Lemma String_of_Z_units n : Forall (fun c => numeral_unit c = true) (String_of_Z n).
Proof.
  assert (forall m, Forall (fun c => numeral_unit c = true) (String_of_N m)) as HN.
  { intros m. eapply Forall_impl; [apply String_of_N_digits|]. cbn. intros c Hc. unfold numeral_unit.
    assert ((48 <=? c)%N = true) as -> by (apply N.leb_le; lia).
    by assert ((c <=? 57)%N = true) as -> by (apply N.leb_le; lia). }
  destruct n; cbn; [by repeat constructor|apply HN|]. constructor; [done|apply HN].
Qed.

Lemma String_of_Z_nonempty n : String_of_Z n <> [].
Proof.
  assert (forall m, String_of_N m <> []) as HN.
  { intros m E. pose proof (String_of_N_value m) as H. rewrite E in H. cbn in H. subst m. discriminate E. }
  destruct n; [done|apply HN|done].
Qed.

Lemma String_of_Z_inj n m : String_of_Z n = String_of_Z m -> n = m.
Proof.
  assert (forall k, 45%N ∉ String_of_N k) as Hno by (intros; apply String_of_N_no_unit; lia).
  assert (forall p, String_of_N (Npos p) <> [48%N]) as Hz.
  { intros p E. pose proof (String_of_N_value (Npos p)) as H. by rewrite E in H. }
  destruct n as [|p|p], m as [|q|q]; intros H; try done; cbn [String_of_Z] in H.
  - by symmetry in H; apply Hz in H.
  - by apply Hz in H.
  - by apply String_of_N_inj in H as [= ->].
  - destruct (Hno (Npos p)). rewrite H. left.
  - destruct (Hno (Npos q)). rewrite <- H. left.
  - injection H as H. by apply String_of_N_inj in H as [= ->].
Qed.

Lemma number_json_units x :
  json_number x -> number_json x <> [] /\ Forall (fun c => numeral_unit c = true) (number_json x).
Proof.
  destruct x; cbn; try done.
  - split; [apply String_of_Z_nonempty|apply String_of_Z_units].
  - by intros (? & ? & _).
Qed.

Lemma number_json_inj x y : json_number x -> json_number y -> number_json x = number_json y -> x = y.
Proof.
  destruct x, y; cbn; try done.
  - intros _ _ H. f_equal. by apply String_of_Z_inj.
  - intros _ (_ & _ & H) E. by destruct (H n).
  - intros (_ & _ & H) _ E. by destruct (H n).
  - by intros _ _ ->.
Qed.

(** What may follow a value in a text. *)
Definition stops (r : jstring) : Prop :=
  match r with [] => True | c :: _ => numeral_unit c = false end.

Lemma cut_numerals (s t r1 r2 : jstring) :
  Forall (fun c => numeral_unit c = true) s -> Forall (fun c => numeral_unit c = true) t ->
  stops r1 -> stops r2 -> s ++ r1 = t ++ r2 -> s = t /\ r1 = r2.
Proof.
  intros Hs. revert t. induction Hs as [|c s Hc Hs IH]; intros t Ht H1 H2 E; destruct Ht as [|d t Hd Ht]; cbn in E.
  - done.
  - subst r1. cbn in H1. congruence.
  - subst r2. cbn in H2. congruence.
  - injection E as -> E. by apply IH in E as [-> ->].
Qed.

Definition separates (v : value) : Prop :=
  json_data v -> forall w r1 r2, json_data w -> stops r1 -> stops r2 ->
  JSON_stringify v ++ r1 = JSON_stringify w ++ r2 -> v = w /\ r1 = r2.

(** A joined list and its closing bracket, read back item by item. *)
Section joined.
Context {A : Type} (text : A -> jstring) (good : A -> Prop) (close : N).
Context (close_stops : numeral_unit close = false) (close_comma : close <> 44%N).
Context (opens : forall a, good a -> exists c r, text a = c :: r /\ c <> close).

Definition reads_back (a : A) : Prop :=
  forall b r1 r2, good a -> good b -> stops r1 -> stops r2 -> text a ++ r1 = text b ++ r2 -> a = b /\ r1 = r2.

Definition tail_text (l : list A) (r : jstring) : jstring :=
  mjoin ((fun a => 44%N :: text a) <$> l) ++ close :: r.

Lemma join_tail a l r : join 44%N (map text (a :: l)) ++ close :: r = text a ++ tail_text l r.
Proof.
  revert a. induction l as [|b l IH]; intros a; [done|].
  change (join 44%N (map text (a :: b :: l))) with (text a ++ 44%N :: join 44%N (map text (b :: l))).
  rewrite <- app_assoc. cbn [app]. rewrite IH. unfold tail_text. by rewrite fmap_cons, mjoin_cons, <- app_assoc.
Qed.

Lemma tail_stops l r : stops (tail_text l r).
Proof. by destruct l. Qed.

Lemma tail_inj l : Forall reads_back l -> Forall good l -> forall k r1 r2, Forall good k ->
  tail_text l r1 = tail_text k r2 -> l = k /\ r1 = r2.
Proof.
  intros Hl Hg. induction Hl as [|a l Ha Hl IH]; intros [|b k] r1 r2 Hk E; unfold tail_text in E; cbn in E.
  - by injection E.
  - injection E as E _. by destruct close_comma.
  - injection E as E _. by destruct close_comma.
  - injection E as E. rewrite <- !app_assoc in E.
    change (mjoin _ ++ close :: r1) with (tail_text l r1) in E.
    change (mjoin _ ++ close :: r2) with (tail_text k r2) in E.
    apply Forall_cons in Hg as [Hga Hg]. apply Forall_cons in Hk as [Hkb Hk].
    apply Ha in E as [-> E]; [|done|done|apply tail_stops|apply tail_stops].
    apply IH in E as [-> ->]; done.
Qed.

Lemma joined_inj l k r1 r2 : Forall reads_back l -> Forall good l -> Forall good k ->
  join 44%N (map text l) ++ close :: r1 = join 44%N (map text k) ++ close :: r2 -> l = k /\ r1 = r2.
Proof.
  intros Hl Hg Hk. destruct l as [|a l], k as [|b k].
  - intros E. by injection E.
  - rewrite join_tail. apply Forall_cons in Hk as [Hb _]. destruct (opens b Hb) as (c & r & -> & Hc).
    intros E. injection E as E _. by destruct Hc.
  - rewrite join_tail. apply Forall_cons in Hg as [Ha _]. destruct (opens a Ha) as (c & r & -> & Hc).
    intros E. injection E as E _. by destruct Hc.
  - rewrite !join_tail. apply Forall_cons in Hl as [Ha Hl], Hg as [Hga Hg], Hk as [Hkb Hk]. intros E.
    apply Ha in E as [-> E]; [|done|done|apply tail_stops|apply tail_stops].
    apply tail_inj in E as [-> ->]; done.
Qed.
End joined.

(** The first unit of a text tells the kind of the value. *)
Definition opening (v : value) : option N :=
  match v with
  | VNull => Some 110%N
  | VBool b => Some (if b then 116%N else 102%N)
  | VString _ => Some 34%N
  | VArray _ => Some 91%N
  | VRecord _ => Some 123%N
  | _ => None
  end.

Lemma stringify_opens v :
  json_data v -> exists c r, JSON_stringify v = c :: r /\
    match opening v with Some d => c = d | None => numeral_unit c = true /\ exists x, v = VNumber x end.
Proof.
  destruct 1 as [|[]|x Hx|s|items|fields]; try by do 2 eexists.
  apply number_json_units in Hx as [Hne Hu]. cbn. destruct (number_json x) as [|c r]; [done|].
  apply Forall_cons in Hu as [Hc _]. exists c, r. split; [done|]. split; [done|]. by exists x.
Qed.

Lemma opening_not_close v c r : json_data v -> JSON_stringify v = c :: r -> c <> 93%N.
Proof.
  intros Hv E. destruct (stringify_opens v Hv) as (d & q & E' & H). rewrite E in E'. injection E' as <- _.
  destruct (opening v) as [x|] eqn:Ev.
  - subst c. intros ->. by destruct v as [| |[]| | | | | | |]; cbn in Ev; simplify_eq.
  - intros ->. by destruct H as [H _].
Qed.

Lemma same_opening v w r1 r2 :
  json_data v -> json_data w -> JSON_stringify v ++ r1 = JSON_stringify w ++ r2 -> opening v = opening w.
Proof.
  intros Hv Hw E.
  destruct (stringify_opens v Hv) as (c & q & Ec & Hc), (stringify_opens w Hw) as (d & q' & Ed & Hd).
  rewrite Ec, Ed in E. injection E as <- _.
  destruct (opening v) as [x|] eqn:Ev, (opening w) as [y|] eqn:Ew; try done; subst.
  - done.
  - destruct Hd as [Hd _]. destruct v as [| |[]| | | | | | |]; cbn in Ev; simplify_eq; by vm_compute in Hd.
  - destruct Hc as [Hc _]. destruct w as [| |[]| | | | | | |]; cbn in Ew; simplify_eq; by vm_compute in Hc.
Qed.

Lemma good_fields fields : json_data (VRecord fields) <-> Forall (fun f => json_data f.2) fields.
Proof. split; [by inversion 1|by constructor]. Qed.

Lemma member_reads_back (f : jstring * value) :
  separates f.2 -> reads_back (fun f => json_string f.1 ++ 58%N :: JSON_stringify f.2) (fun f => json_data f.2) f.
Proof.
  destruct f as [key v]. cbn [snd]. intros Hv [k w] r1 r2 Gv Gw S1 S2 E. cbn [fst snd] in *.
  rewrite <- !app_assoc in E. apply json_string_prefix in E as [-> E]. injection E as E.
  by apply Hv in E as [-> ->].
Qed.

Lemma json_values_separate : forall v, separates v.
Proof.
  fix IH 1. intros v Gv w r1 r2 Gw S1 S2 E. pose proof (same_opening v w r1 r2 Gv Gw E) as Ho.
  destruct v as [| |b|x|s| | | |items|fields]; try (exfalso; by inversion Gv).
  - destruct w as [| |[]| | | | | | |]; try discriminate Ho. by apply app_inv_head in E.
  - destruct w as [| |c| | | | | | |]; try by destruct b.
    assert (b = c) as -> by (by destruct b, c). by apply app_inv_head in E.
  - destruct w as [| |c|y| | | | | |]; try discriminate Ho; try (exfalso; by inversion Gw).
    inversion Gv as [| |? Hx| | |]; inversion Gw as [| |? Hy| | |]; subst. cbn in E.
    apply cut_numerals in E as [E ->]; [|by apply number_json_units|by apply number_json_units|done|done].
    split; [|done]. f_equal. by apply number_json_inj.
  - destruct w as [| |[]| |t| | | | |]; try discriminate Ho. cbn in E. by apply json_string_prefix in E as [-> ->].
  - destruct w as [| |[]| | | | | |jtems|]; try discriminate Ho. cbn [JSON_stringify app] in E. injection E as E.
    rewrite <- !app_assoc in E. cbn [app] in E.
    assert (Forall separates items) as Hs by (clear -IH; induction items; constructor; [apply IH|done]).
    inversion Gv as [| | | |? Gi|]; inversion Gw as [| | | |? Gj|]; subst.
    apply (joined_inj _ json_data) in E as [-> ->]; [done|done|done| | |done|done].
    + intros a Ga. destruct (stringify_opens a Ga) as (c & r & Ea & _). exists c, r. split; [done|].
      by apply (opening_not_close a c r).
    + clear -Hs. induction Hs as [|a l Ha Hl IHl]; constructor; [|done]. intros b r1 r2 Ga Gb. by apply Ha.
  - destruct w as [| |[]| | | | | | |gields]; try discriminate Ho. cbn [JSON_stringify app] in E. injection E as E.
    rewrite <- !app_assoc in E. cbn [app] in E.
    assert (Forall (fun f => separates f.2) fields) as Hs
      by (clear -IH; induction fields as [|[k a] l]; constructor; [apply IH|done]).
    apply good_fields in Gv, Gw.
    apply (joined_inj _ (fun f => json_data f.2)) in E as [-> ->]; [done|done|done| | |done|done].
    + intros [k a] _. eexists _, _. split; [done|]. done.
    + clear -Hs. induction Hs as [|f l Hf Hl IHl]; constructor; [by apply member_reads_back|done].
Qed.

(** Two plain values with one text are equal. *)
Lemma JSON_stringify_inj v w : json_data v -> json_data w -> JSON_stringify v = JSON_stringify w -> v = w.
Proof.
  intros Hv Hw E. apply (json_values_separate v Hv w [] []); [done|done|done|]. by rewrite E.
Qed.

(** ** The text is well formed *)

Lemma plain_wf s : Forall (fun c => is_plain c = true) s -> wf_text s.
Proof.
  unfold wf_text, is_plain. induction 1 as [|c s Hc Hs IH]; [done|]. cbn.
  apply andb_true_iff in Hc as [Hh%negb_true_iff Hl%negb_true_iff]. by rewrite Hh, Hl.
Qed.

Lemma small_plain c : (c < 128)%N -> is_plain c = true.
Proof.
  unfold is_plain, is_high, is_low. intros H.
  destruct (N.leb_spec 0xd800 c); [lia|]. by destruct (N.leb_spec 0xdc00 c); [lia|].
Qed.

Lemma escape_wf u : (u < 0x10000)%N -> wf_text (u_escape u).
Proof.
  intros Hu. apply plain_wf. unfold u_escape.
  repeat constructor; try done; apply small_plain; unfold hex_digit; case_match; bool_prop; lia.
Qed.

Lemma escape_unit_wf c : is_plain c = true -> wf_text (escape_unit c).
Proof.
  intros Hc. unfold escape_unit. repeat case_match; try done.
  - bool_prop. apply escape_wf. lia.
  - by apply plain_wf; constructor.
Qed.

Lemma json_units_wf s : wf_text (json_units s).
Proof.
  unfold wf_text. induction s as [|u|u v s IH1 IH2] using jstring_ind2; [done|..].
  - cbn [json_units]. pose proof (surrogate_plain u) as Hs.
    destruct (is_high u) eqn:Hh; [|destruct (is_low u) eqn:Hl]; rewrite ?app_nil_r.
    + apply escape_wf, Hs. by left.
    + apply escape_wf, Hs. by right.
    + apply escape_unit_wf. unfold is_plain. by rewrite Hh, Hl.
  - rewrite json_units_cons2. pose proof (surrogate_plain u) as Hs.
    destruct (is_high u) eqn:Hh; [destruct (is_low v) eqn:Hv|destruct (is_low u) eqn:Hl].
    + by rewrite wf_cons2, Hh, Hv.
    + rewrite wf_app; [done|]. apply escape_wf, Hs. by left.
    + rewrite wf_app; [done|]. apply escape_wf, Hs. by right.
    + rewrite wf_app; [done|]. apply escape_unit_wf. unfold is_plain. by rewrite Hh, Hl.
Qed.

Lemma wf_bracketed a s b : (a < 128)%N -> (b < 128)%N -> wf_text s -> wf_text (a :: s ++ [b]).
Proof.
  intros Ha Hb Hs. unfold wf_text. pose proof (wf_app_plain [] a (s ++ [b]) (small_plain a Ha)) as E.
  cbn [app] in E. rewrite E, (wf_app_plain s b []) by by apply small_plain. by rewrite Hs.
Qed.

Lemma json_string_wf s : wf_text (json_string s).
Proof. apply wf_bracketed; [done..|apply json_units_wf]. Qed.

Lemma numeral_plain c : numeral_unit c = true -> is_plain c = true.
Proof.
  intros H. apply small_plain. unfold numeral_unit in H. rewrite !orb_true_iff, andb_true_iff, !N.eqb_eq, !N.leb_le in H. lia.
Qed.

Lemma JSON_stringify_wf v : json_data v -> wf_text (JSON_stringify v).
Proof.
  revert v. fix IH 2. intros v [|b|x Hx|s|items Hi|fields Hf]; [done|by destruct b|..].
  - apply plain_wf. apply number_json_units in Hx as [_ Hu]. eapply Forall_impl; [exact Hu|exact numeral_plain].
  - apply json_string_wf.
  - apply wf_bracketed; [done..|]. apply wf_join; [done|]. apply Forall_map.
    induction Hi as [|a l Ha Hl IHl]; constructor; [by apply IH|done].
  - apply wf_bracketed; [done..|]. apply wf_join; [done|]. apply Forall_map.
    induction Hf as [|[k a] l Ha Hl IHl]; constructor; [|done].
    unfold wf_text, compose. cbn [fst snd]. rewrite wf_app by apply json_string_wf.
    exact (IH a Ha).
Qed.
