(* ===== verification/CanonicalDigest.v ===== *)
(** The boundary checks and the canonical digest of the effective-context cache
    (packages/resolver/src/effective-context-cache.ts): limits, data records,
    dense arrays, texts, and the framed message a value is hashed as. *)
From S2P Require Import Prelude JsString Unicode RepositoryPath JsValue Fingerprint ObjectGraph.

Inductive EffectiveContextCacheErrorCode :=
| cancelled | invalidInput | invalidOptions | invalidRelationship | resourceLimit.

Abbreviation checked := (res EffectiveContextCacheErrorCode).

(** ** Limits *)

Record EffectiveContextCacheLimits := {
  maximumCanonicalNodes : N;
  maximumCanonicalTextBytes : N;
  maximumDependencyBytes : N;
  maximumDependencyFiles : N;
  maximumEntries : N;
  maximumEntryBytes : N;
  maximumIdentityBytes : N;
  maximumPathBytes : N;
  maximumWeightBytes : N
}.

Definition EFFECTIVE_CONTEXT_CACHE_DEFAULT_LIMITS : EffectiveContextCacheLimits := {|
  maximumCanonicalNodes := 1000000;
  maximumCanonicalTextBytes := 67108864;
  maximumDependencyBytes := 67108864;
  maximumDependencyFiles := 65536;
  maximumEntries := 1024;
  maximumEntryBytes := 33554432;
  maximumIdentityBytes := 1024;
  maximumPathBytes := 4096;
  maximumWeightBytes := 67108864
|}%N.

Definition EFFECTIVE_CONTEXT_CACHE_HARD_LIMITS : EffectiveContextCacheLimits := {|
  maximumCanonicalNodes := 10000000;
  maximumCanonicalTextBytes := 536870912;
  maximumDependencyBytes := 1073741824;
  maximumDependencyFiles := 1000000;
  maximumEntries := 65536;
  maximumEntryBytes := 268435456;
  maximumIdentityBytes := 16384;
  maximumPathBytes := 16384;
  maximumWeightBytes := 1073741824
|}%N.

(** A key of the limits object: its name, [limits[key]], and [limits[key] = n]. *)
Record limit_key := {
  limit_name : jstring;
  limit_get : EffectiveContextCacheLimits -> N;
  limit_set : N -> EffectiveContextCacheLimits -> EffectiveContextCacheLimits
}.

Definition LIMIT_KEYS : list limit_key := [
  {| limit_name := #"maximumCanonicalNodes"; limit_get := maximumCanonicalNodes;
     limit_set n '(Build_EffectiveContextCacheLimits _ b c d e f g h i) :=
       Build_EffectiveContextCacheLimits n b c d e f g h i |};
  {| limit_name := #"maximumCanonicalTextBytes"; limit_get := maximumCanonicalTextBytes;
     limit_set n '(Build_EffectiveContextCacheLimits a _ c d e f g h i) :=
       Build_EffectiveContextCacheLimits a n c d e f g h i |};
  {| limit_name := #"maximumDependencyBytes"; limit_get := maximumDependencyBytes;
     limit_set n '(Build_EffectiveContextCacheLimits a b _ d e f g h i) :=
       Build_EffectiveContextCacheLimits a b n d e f g h i |};
  {| limit_name := #"maximumDependencyFiles"; limit_get := maximumDependencyFiles;
     limit_set n '(Build_EffectiveContextCacheLimits a b c _ e f g h i) :=
       Build_EffectiveContextCacheLimits a b c n e f g h i |};
  {| limit_name := #"maximumEntries"; limit_get := maximumEntries;
     limit_set n '(Build_EffectiveContextCacheLimits a b c d _ f g h i) :=
       Build_EffectiveContextCacheLimits a b c d n f g h i |};
  {| limit_name := #"maximumEntryBytes"; limit_get := maximumEntryBytes;
     limit_set n '(Build_EffectiveContextCacheLimits a b c d e _ g h i) :=
       Build_EffectiveContextCacheLimits a b c d e n g h i |};
  {| limit_name := #"maximumIdentityBytes"; limit_get := maximumIdentityBytes;
     limit_set n '(Build_EffectiveContextCacheLimits a b c d e f _ h i) :=
       Build_EffectiveContextCacheLimits a b c d e f n h i |};
  {| limit_name := #"maximumPathBytes"; limit_get := maximumPathBytes;
     limit_set n '(Build_EffectiveContextCacheLimits a b c d e f g _ i) :=
       Build_EffectiveContextCacheLimits a b c d e f g n i |};
  {| limit_name := #"maximumWeightBytes"; limit_get := maximumWeightBytes;
     limit_set n '(Build_EffectiveContextCacheLimits a b c d e f g h _) :=
       Build_EffectiveContextCacheLimits a b c d e f g h n |}
].

Definition limit_key_named (key : option jstring) : option limit_key :=
  match key with
  | Some k => find (fun l => jeqb (limit_name l) k) LIMIT_KEYS
  | None => None
  end.

(** ** Data records, arrays and texts *)

(** A record is its own properties. *)
Definition DataRecord := list property.

Definition dataRecord (h : heap) (v : value) : checked DataRecord :=
  match object_of h v with
  | Some o =>
      _ ← ensure (negb (is_array o) && negb (obj_proxy o)) invalidInput;
      _ ← ensure (plain_prototype o) invalidInput;
      Ok (obj_own o)
  | None => Err invalidInput
  end.

Definition field (record : DataRecord) (key : jstring) : checked value :=
  match enumerable_data (descriptor record key) with
  | Some v => Ok v
  | None => Err invalidInput
  end.

(** [keys.has(key)], false for a symbol *)
Definition has_key (keys : list jstring) (p : property) : bool :=
  match prop_key p with Some k => existsb (jeqb k) keys | None => false end.

Definition own_fields (record : DataRecord) : checked unit :=
  foldM (fun _ p => match prop_key p with
                    | Some k => _ ← field record k; Ok tt
                    | None => Err invalidInput
                    end) tt record.

Definition closedRecord (h : heap) (v : value) (keys : list jstring) : checked DataRecord :=
  record ← dataRecord h v;
  _ ← ensure ((length record =? length keys)%nat && forallb (has_key keys) record) invalidInput;
  _ ← own_fields record;
  Ok record.

Definition regular_array (o : object) : bool :=
  negb (obj_proxy o) && is_array o &&
  match obj_prototype o with ArrayPrototype => true | _ => false end.

Definition denseArray (h : heap) (v : value) (maximum : N) : checked (list value) :=
  match object_of h v with
  | Some o =>
      _ ← ensure (regular_array o) invalidInput;
      _ ← ensure (array_length o <=? maximum)%N resourceLimit;
      _ ← ensure (N.of_nat (length (obj_own o)) =? array_length o)%N invalidInput;
      rmapM (fun index => field (obj_own o) (String_of_N (N.of_nat index)))
            (seq 0 (N.to_nat (array_length o)))
  | None => Err invalidInput
  end.

Definition wellFormedText (v : value) (maximum : N) : checked jstring :=
  match v with
  | VString s =>
      _ ← ensure (hasWellFormedUnicode s) invalidInput;
      _ ← ensure (textBytes s <=? maximum)%N resourceLimit;
      Ok s
  | _ => Err invalidInput
  end.

Definition limit_value (v : value) (maximum : N) : checked N :=
  match v with
  | VNumber (Integer n) =>
      _ ← ensure ((- MAX_SAFE_INTEGER <=? n)%Z && (n <=? MAX_SAFE_INTEGER)%Z
                  && (1 <=? n)%Z && (n <=? Z.of_N maximum)%Z) invalidOptions;
      Ok (Z.to_N n)
  | _ => Err invalidOptions
  end.

Definition limitKeys (record : DataRecord) : checked (list limit_key) :=
  rmapM (fun p => match limit_key_named (prop_key p) with
                  | Some k => Ok k
                  | None => Err invalidOptions
                  end) record.

Definition selectLimit (record : DataRecord) (output : EffectiveContextCacheLimits) (k : limit_key)
  : checked EffectiveContextCacheLimits :=
  selected ← field record (limit_name k);
  n ← limit_value selected (limit_get k EFFECTIVE_CONTEXT_CACHE_HARD_LIMITS);
  Ok (limit_set k n output).

Definition limitsOfRecord (record : DataRecord) : checked EffectiveContextCacheLimits :=
  keys ← limitKeys record;
  output ← foldM (selectLimit record) EFFECTIVE_CONTEXT_CACHE_DEFAULT_LIMITS keys;
  _ ← ensure (maximumEntryBytes output <=? maximumWeightBytes output)%N invalidOptions;
  Ok output.

Definition limits (h : heap) (v : value) : checked EffectiveContextCacheLimits :=
  match v with
  | VUndefined => Ok EFFECTIVE_CONTEXT_CACHE_DEFAULT_LIMITS
  | _ => dataRecord h v ≫= limitsOfRecord
  end.

(** ** The canonical message *)

(** [hash.update(tag + ":" + length + ":")], then the bytes *)
Definition frame_bytes (tag : N) (bytes : list N) : list N :=
  tag :: 58%N :: String_of_N (N.of_nat (length bytes)) ++ 58%N :: bytes.

Definition frame (tag : N) (text : jstring) : list N := frame_bytes tag (utf8 text).

Record CanonicalBudget := { nodes : N; budget_textBytes : N }.

(** [String(x)] of a finite number other than -0 *)
Definition number_text (x : number) : option jstring :=
  match x with
  | Integer n => Some (String_of_Z n)
  | Fraction t => Some t
  | _ => None
  end.

Definition TAG_NULL : N := 110.
Definition TAG_BOOLEAN : N := 98.
Definition TAG_NUMBER : N := 100.
Definition TAG_STRING : N := 115.
Definition TAG_ARRAY : N := 97.
Definition TAG_OBJECT : N := 111.
Definition TAG_KEY : N := 107.
Definition TAG_END : N := 122.

Definition compareUtf8_le (left right : jstring) : bool := bytes_le left right.

(** Whether the object is one being visited; only heap objects have an identity
    that can come back. *)
Definition is_ancestor (ancestors : list loc) (v : value) : bool :=
  match v with VRef l => existsb (N.eqb l) ancestors | _ => false end.

Definition with_ancestor (ancestors : list loc) (v : value) : list loc :=
  match v with VRef l => l :: ancestors | _ => ancestors end.

(** [keys as string[]], when none is a symbol *)
Definition string_keys (own : list property) : checked (list jstring) :=
  rmapM (fun p => match prop_key p with Some k => Ok k | None => Err invalidInput end) own.

(** [for (const entry of values) visit(entry)] *)
Section visit_all.
Context {A : Type} (f : CanonicalBudget -> A -> checked (CanonicalBudget * list N)).

Fixpoint visit_all (budget : CanonicalBudget) (l : list A) : checked (CanonicalBudget * list N) :=
  match l with
  | [] => Ok (budget, [])
  | x :: r =>
      '(budget, out) ← f budget x;
      '(budget, rest) ← visit_all budget r;
      Ok (budget, out ++ rest)
  end.
End visit_all.

Section visit.
Context (h : heap) (lim : EffectiveContextCacheLimits).

(** The part of the visit for objects; [visitInner] is the recursive call. *)
Definition visitObject
    (visitInner : list loc -> CanonicalBudget -> value -> checked (CanonicalBudget * list N))
    (ancestors : list loc) (budget : CanonicalBudget) (current : value)
  : checked (CanonicalBudget * list N) :=
  match object_of h current with
  | None => Err invalidInput
  | Some o =>
      _ ← ensure (negb (obj_proxy o)) invalidInput;
      _ ← ensure (negb (is_ancestor ancestors current)) invalidInput;
      let inner := with_ancestor ancestors current in
      if is_array o then
        values ← denseArray h current (maximumCanonicalNodes lim);
        '(budget, body) ← visit_all (visitInner inner) budget values;
        Ok (budget, frame TAG_ARRAY (String_of_N (N.of_nat (length values)))
                    ++ body ++ frame TAG_END #"a")
      else
        _ ← ensure (plain_prototype o) invalidInput;
        keys ← string_keys (obj_own o);
        let sorted := sort_by compareUtf8_le keys in
        '(budget, body) ← visit_all (fun budget key =>
            v ← field (obj_own o) key;
            '(budget, out) ← visitInner inner budget v;
            Ok (budget, frame TAG_KEY key ++ out)) budget sorted;
        Ok (budget, frame TAG_OBJECT (String_of_N (N.of_nat (length sorted)))
                    ++ body ++ frame TAG_END #"o")
  end.

(** The message is returned as the bytes [hash.update] receives.  [fuel]
    bounds the nesting, which the node limit bounds too: [canonicalMessage_spec]. *)
Fixpoint visit (fuel : nat) (ancestors : list loc) (budget : CanonicalBudget) (current : value)
  : checked (CanonicalBudget * list N) :=
  match fuel with
  | O => Err resourceLimit
  | S fuel' =>
      let budget := {| nodes := nodes budget + 1; budget_textBytes := budget_textBytes budget |} in
      _ ← ensure (nodes budget <=? maximumCanonicalNodes lim)%N resourceLimit;
      match current with
      | VNull => Ok (budget, frame TAG_NULL [])
      | VBool b => Ok (budget, frame TAG_BOOLEAN (if b then #"1" else #"0"))
      | VNumber x =>
          match number_text x with
          | Some text => Ok (budget, frame TAG_NUMBER text)
          | None => Err invalidInput
          end
      | VString s =>
          _ ← wellFormedText current (maximumCanonicalTextBytes lim);
          let textBytes_ := (budget_textBytes budget + textBytes s)%N in
          _ ← ensure (textBytes_ <=? maximumCanonicalTextBytes lim)%N resourceLimit;
          Ok ({| nodes := nodes budget; budget_textBytes := textBytes_ |}, frame TAG_STRING s)
      | _ => visitObject (visit fuel') ancestors budget current
      end
  end.

Definition canonicalMessage (v : value) : checked (list N) :=
  snd <$> visit (S (N.to_nat (maximumCanonicalNodes lim))) []
                {| nodes := 0; budget_textBytes := 0 |} v.

Definition canonicalDigest `{Sha256} (v : value) : checked jstring :=
  (fun message => hex (sha256 message)) <$> canonicalMessage v.
End visit.

(** ** The data of a value

    The tree of plain data a value unfolds to, the fields of a record in the
    order in which they are visited. *)
Inductive tree :=
| TNull
| TBool (b : bool)
| TNumber (text : jstring)
| TString (text : jstring)
| TArray (items : list tree)
| TRecord (fields : list (jstring * tree)).

Inductive unfolds (h : heap) : value -> tree -> Prop :=
| unfolds_null : unfolds h VNull TNull
| unfolds_bool b : unfolds h (VBool b) (TBool b)
| unfolds_number x text : number_text x = Some text -> unfolds h (VNumber x) (TNumber text)
| unfolds_string s : wf_text s -> unfolds h (VString s) (TString s)
| unfolds_array v o maximum items ts :
    object_of h v = Some o -> denseArray h v maximum = Ok items ->
    Forall2 (unfolds h) items ts -> unfolds h v (TArray ts)
| unfolds_record v o keys ts :
    object_of h v = Some o -> obj_proxy o = false -> is_array o = false ->
    plain_prototype o = true -> string_keys (obj_own o) = Ok keys ->
    Forall2 (fun k t => t.1 = k /\ exists x, field (obj_own o) k = Ok x /\ unfolds h x t.2)
            (sort_by compareUtf8_le keys) ts ->
    unfolds h v (TRecord ts).

(** What is hashed of a tree: the UTF-8 bytes of its texts.  The encoding of a
    text with lone surrogates is that of replacement characters; strings with
    such units are refused, keys are not. *)
Inductive datum :=
| DNull
| DBool (b : bool)
| DNumber (text : list N)
| DString (text : list N)
| DArray (items : list datum)
| DRecord (fields : list (list N * datum)).

Fixpoint encode (t : tree) : datum :=
  match t with
  | TNull => DNull
  | TBool b => DBool b
  | TNumber text => DNumber (utf8 text)
  | TString text => DString (utf8 text)
  | TArray items => DArray (map encode items)
  | TRecord fields => DRecord (map (fun f => (utf8 f.1, encode f.2)) fields)
  end.

(** The encoding of a value in one step. *)
Inductive encodes (h : heap) : value -> datum -> Prop :=
| encodes_null : encodes h VNull DNull
| encodes_bool b : encodes h (VBool b) (DBool b)
| encodes_number x text : number_text x = Some text -> encodes h (VNumber x) (DNumber (utf8 text))
| encodes_string s : wf_text s -> encodes h (VString s) (DString (utf8 s))
| encodes_array v o maximum items ds :
    object_of h v = Some o -> denseArray h v maximum = Ok items ->
    Forall2 (encodes h) items ds -> encodes h v (DArray ds)
| encodes_record v o keys ds :
    object_of h v = Some o -> obj_proxy o = false -> is_array o = false ->
    plain_prototype o = true -> string_keys (obj_own o) = Ok keys ->
    Forall2 (fun k d => d.1 = utf8 k /\ exists x, field (obj_own o) k = Ok x /\ encodes h x d.2)
            (sort_by compareUtf8_le keys) ds ->
    encodes h v (DRecord ds).

(** Two values have the same data as far as it is hashed. *)
Definition same_encoding (h1 : heap) (v1 : value) (h2 : heap) (v2 : value) : Prop :=
  exists d, encodes h1 v1 d /\ encodes h2 v2 d.
