(* ===== verification/CanonicalDigestLaws.v ===== *)
(** The canonical message is a faithful code of the data it is made from, and
    exists exactly for acyclic plain data within the limits. *)
From S2P Require Import Prelude JsString Unicode RepositoryPath JsValue Fingerprint ObjectGraph CanonicalDigest.

(** ** The message as a function of the data *)

Fixpoint stream (d : datum) : list N :=
  match d with
  | DNull => frame TAG_NULL []
  | DBool b => frame TAG_BOOLEAN (if b then #"1" else #"0")
  | DNumber text => frame_bytes TAG_NUMBER text
  | DString text => frame_bytes TAG_STRING text
  | DArray items =>
      frame TAG_ARRAY (String_of_N (N.of_nat (length items)))
      ++ mjoin (map stream items) ++ frame TAG_END #"a"
  | DRecord fields =>
      frame TAG_OBJECT (String_of_N (N.of_nat (length fields)))
      ++ mjoin (map (fun f => frame_bytes TAG_KEY f.1 ++ stream f.2) fields) ++ frame TAG_END #"o"
  end.

Fixpoint datum_nodes (d : datum) : N :=
  match d with
  | DArray items => 1 + foldr (fun i n => datum_nodes i + n) 0 items
  | DRecord fields => 1 + foldr (fun f n => datum_nodes f.2 + n) 0 fields
  | _ => 1
  end%N.

Fixpoint datum_text (d : datum) : N :=
  match d with
  | DString text => N.of_nat (length text)
  | DArray items => foldr (fun i n => datum_text i + n)%N 0%N items
  | DRecord fields => foldr (fun f n => datum_text f.2 + n)%N 0%N fields
  | _ => 0%N
  end.

Section datum_ind.
Context (P : datum -> Prop).
Hypothesis Hnull : P DNull.
Hypothesis Hbool : forall b, P (DBool b).
Hypothesis Hnumber : forall t, P (DNumber t).
Hypothesis Hstring : forall t, P (DString t).
Hypothesis Harray : forall items, Forall P items -> P (DArray items).
Hypothesis Hrecord : forall fields, Forall (fun f => P f.2) fields -> P (DRecord fields).

Fixpoint datum_nested_ind (d : datum) : P d :=
  match d with
  | DNull => Hnull
  | DBool b => Hbool b
  | DNumber t => Hnumber t
  | DString t => Hstring t
  | DArray items =>
      Harray items ((fix go l : Forall P l :=
        match l with [] => List.Forall_nil P | x :: r => List.Forall_cons P x r (datum_nested_ind x) (go r) end) items)
  | DRecord fields =>
      Hrecord fields ((fix go l : Forall (fun f => P f.2) l :=
        match l with
        | [] => List.Forall_nil _
        | x :: r => List.Forall_cons _ x r (datum_nested_ind x.2) (go r)
        end) fields)
  end.
End datum_ind.

(** ** Frames decode uniquely *)

Lemma frame_bytes_inj t1 b1 r1 t2 b2 r2 :
  frame_bytes t1 b1 ++ r1 = frame_bytes t2 b2 ++ r2 -> t1 = t2 /\ b1 = b2 /\ r1 = r2.
Proof.
  unfold frame_bytes. cbn [app]. intros [= -> Heq]. rewrite <- !app_assoc in Heq. cbn [app] in Heq.
  apply cut_at_sep in Heq as [Hlen%String_of_N_inj Heq];
    [|apply String_of_N_no_unit; lia..].
  split; [done|]. apply app_inj_1 in Heq; [done|lia].
Qed.

Lemma frame_inj t1 s1 r1 t2 s2 r2 :
  frame t1 s1 ++ r1 = frame t2 s2 ++ r2 -> t1 = t2 /\ utf8 s1 = utf8 s2 /\ r1 = r2.
Proof. apply frame_bytes_inj. Qed.

Lemma String_of_N_ascii n : Forall (fun c => c < 128)%N (String_of_N n).
Proof. eapply Forall_impl; [apply String_of_N_digits|]. cbn. intros. lia. Qed.

(** ASCII text is its own UTF-8. *)
Lemma utf8_ascii s : Forall (fun c => c < 128)%N s -> utf8 s = s.
Proof.
  unfold utf8. induction 1 as [|c s Hc Hs IH]; [done|]. cbn [code_points].
  assert (is_high c = false /\ is_low c = false) as [-> ->].
  { unfold is_high, is_low. split; apply andb_false_iff; left; apply N.leb_gt; lia. }
  rewrite fmap_cons, mjoin_cons, IH. unfold utf8_cp.
  by replace (c <=? 0x7f)%N with true by (symmetry; apply N.leb_le; lia).
Qed.

(** ** The message determines the data *)

Definition prefix_free (a : datum) : Prop :=
  forall b r1 r2, stream a ++ r1 = stream b ++ r2 -> a = b /\ r1 = r2.

Lemma length_numeral_inj n m :
  utf8 (String_of_N (N.of_nat n)) = utf8 (String_of_N (N.of_nat m)) -> n = m.
Proof. rewrite !utf8_ascii by apply String_of_N_ascii. intros H%String_of_N_inj. lia. Qed.

Lemma items_prefix l : Forall prefix_free l -> forall k r1 r2,
  length l = length k ->
  mjoin (map stream l) ++ r1 = mjoin (map stream k) ++ r2 -> l = k /\ r1 = r2.
Proof.
  induction 1 as [|a l Ha Hl IH]; intros [|b k] r1 r2 Hlen Heq; try done.
  cbn [map] in Heq. rewrite !mjoin_cons, <- !app_assoc in Heq.
  apply Ha in Heq as [-> Heq]. apply IH in Heq as [-> ->]; [done|].
  by injection Hlen.
Qed.

Definition field_stream (f : list N * datum) : list N := frame_bytes TAG_KEY f.1 ++ stream f.2.

Lemma fields_prefix l : Forall (fun f => prefix_free f.2) l -> forall k r1 r2,
  length l = length k ->
  mjoin (map field_stream l) ++ r1 = mjoin (map field_stream k) ++ r2 -> l = k /\ r1 = r2.
Proof.
  induction 1 as [|[ka a] l Ha Hl IH]; intros [|[kb b] k] r1 r2 Hlen Heq; try done.
  cbn [map] in Heq. rewrite !mjoin_cons in Heq. unfold field_stream at 1 3 in Heq.
  rewrite <- !app_assoc in Heq. apply frame_bytes_inj in Heq as (_ & Hk & Heq).
  apply Ha in Heq as [Hd Heq]. apply IH in Heq as [-> ->]; [|by injection Hlen].
  cbn in Hk, Hd. by subst.
Qed.

Lemma stream_array items :
  stream (DArray items) = frame TAG_ARRAY (String_of_N (N.of_nat (length items)))
    ++ mjoin (map stream items) ++ frame TAG_END #"a".
Proof. done. Qed.

Lemma stream_record fields :
  stream (DRecord fields) = frame TAG_OBJECT (String_of_N (N.of_nat (length fields)))
    ++ mjoin (map field_stream fields) ++ frame TAG_END #"o".
Proof. done. Qed.

Arguments String_of_N : simpl never.
Arguments stream : simpl never.
Arguments frame : simpl never.
Arguments frame_bytes : simpl never.

(** Every message begins with the frame of its constructor. *)
Lemma stream_head d : exists tag text r, stream d = frame_bytes tag text ++ r /\
  match d with
  | DNull => tag = TAG_NULL /\ text = [] /\ r = []
  | DBool b => tag = TAG_BOOLEAN /\ text = utf8 (if b then #"1" else #"0") /\ r = []
  | DNumber t => tag = TAG_NUMBER /\ text = t /\ r = []
  | DString t => tag = TAG_STRING /\ text = t /\ r = []
  | DArray l => tag = TAG_ARRAY /\ text = utf8 (String_of_N (N.of_nat (length l)))
                /\ r = mjoin (map stream l) ++ frame TAG_END #"a"
  | DRecord l => tag = TAG_OBJECT /\ text = utf8 (String_of_N (N.of_nat (length l)))
                /\ r = mjoin (map field_stream l) ++ frame TAG_END #"o"
  end.
Proof.
  destruct d as [|b|t|t|l|l]; [..|by eauto 10|by eauto 10];
    (eexists _, _, []; split; [rewrite app_nil_r; reflexivity|done]).
Qed.

Lemma stream_prefix a : prefix_free a.
Proof.
  induction a as [|x|t|t|l IH|l IH] using datum_nested_ind; intros b r1 r2 Heq;
    destruct (stream_head b) as (tag & text & r & Hb & Hd); rewrite Hb in Heq;
    match type of Heq with stream ?a ++ _ = _ =>
      destruct (stream_head a) as (tag' & text' & r' & Ha & Hda) end;
    rewrite Ha, <- !app_assoc in Heq; apply frame_bytes_inj in Heq as (Htag & Htext & Heq);
    destruct b; destruct Hda as (-> & -> & ->), Hd as (-> & -> & ->); try discriminate Htag;
    rewrite <- ?app_assoc in Heq; subst; try done.
  - split; [|done]. f_equal. by destruct x, b; vm_compute in Htext.
  - apply length_numeral_inj in Htext. apply items_prefix in Heq as [-> Heq]; [|done..].
    by apply app_inv_head in Heq.
  - apply length_numeral_inj in Htext. apply fields_prefix in Heq as [-> Heq]; [|done..].
    by apply app_inv_head in Heq.
Qed.

Lemma stream_inj a b : stream a = stream b -> a = b.
Proof.
  intros Heq. apply (stream_prefix a b [] []). by rewrite !app_nil_r.
Qed.

(** ** A value has at most one tree *)

Lemma denseArray_maximum h v m1 m2 l1 l2 :
  denseArray h v m1 = Ok l1 -> denseArray h v m2 = Ok l2 -> l1 = l2.
Proof.
  unfold denseArray. destruct (object_of h v) as [o|]; [|done]. intros H1 H2. res_inv. congruence.
Qed.

Lemma denseArray_object h v o maximum l :
  object_of h v = Some o -> denseArray h v maximum = Ok l ->
  obj_proxy o = false /\ is_array o = true /\ N.of_nat (length l) = array_length o /\
  forall maximum', (array_length o <= maximum')%N -> denseArray h v maximum' = Ok l.
Proof.
  unfold denseArray. intros -> H. res_inv.
  unfold regular_array in *. bool_prop. split_and!; [done..| |].
  - apply rmapM_length in H. rewrite H, length_seq. lia.
  - intros maximum' Hmax.
    replace (array_length o <=? maximum')%N with true by (symmetry; by apply N.leb_le).
    unfold regular_array. repeat match goal with E : _ = _ |- _ => rewrite E end. by rewrite N.eqb_refl.
Qed.

Lemma Forall2_functional {A B} (R : A -> B -> Prop) l :
  Forall (fun b => forall a b', R a b -> R a b' -> b = b') l -> forall k l',
  Forall2 R k l -> Forall2 R k l' -> l = l'.
Proof.
  induction 1 as [|b l Hb Hl IH]; intros k l' H1; inversion H1; subst; inversion 1; subst; [done|].
  f_equal; eauto.
Qed.

Lemma encodes_functional h d : forall v d', encodes h v d -> encodes h v d' -> d = d'.
Proof.
  induction d as [|x|t|t|l IH|l IH] using datum_nested_ind; intros v d' H1 H2;
    inversion H1; subst; inversion H2; subst; try done; try congruence;
    match goal with
    | E1 : object_of h ?v = Some ?o1, E2 : object_of h ?v = Some ?o2 |- _ =>
        rewrite E1 in E2; injection E2 as ->
    end;
    try match goal with
    | E1 : object_of _ ?v = Some _, E2 : denseArray _ ?v _ = Ok _ |- _ =>
        pose proof (denseArray_object _ _ _ _ _ E1 E2) as (_ & ? & _); congruence
    end.
  - f_equal. match goal with E1 : denseArray _ _ _ = Ok ?a, E2 : denseArray _ _ _ = Ok ?b |- _ =>
      assert (a = b) as -> by (by eapply denseArray_maximum) end.
    eapply Forall2_functional; [|done..]. eapply Forall_impl; [apply IH|]. cbn. eauto.
  - f_equal. match goal with E1 : string_keys _ = Ok ?a, E2 : string_keys _ = Ok ?b |- _ =>
      rewrite E1 in E2; injection E2 as -> end.
    eapply Forall2_functional; [|done..]. eapply Forall_impl; [apply IH|]. cbn.
    intros [k1 d1] Hd x [k2 d2] (E1 & y & F1 & U1) (E2 & y' & F2 & U2). cbn in *. subst.
    f_equal. rewrite F1 in F2. injection F2 as ->. eauto.
Qed.

(** ** Visiting spells the tree and counts its nodes and text *)

Definition sum_nodes (l : list datum) : N := foldr (fun i n => datum_nodes i + n)%N 0%N l.
Definition sum_text (l : list datum) : N := foldr (fun i n => datum_text i + n)%N 0%N l.

Lemma field_nodes (l : list (list N * datum)) : foldr (fun f n => datum_nodes f.2 + n)%N 0%N l = sum_nodes (map snd l).
Proof. induction l as [|[k d] l IH]; [done|]. cbn. by rewrite IH. Qed.

Lemma field_text (l : list (list N * datum)) : foldr (fun f n => datum_text f.2 + n)%N 0%N l = sum_text (map snd l).
Proof. induction l as [|[k d] l IH]; [done|]. cbn. by rewrite IH. Qed.

Definition spend (b : CanonicalBudget) (n t : N) : CanonicalBudget :=
  {| nodes := nodes b + n; budget_textBytes := budget_textBytes b + t |}.

Lemma spend_spend b n t m u : spend (spend b n t) m u = spend b (n + m) (t + u).
Proof. unfold spend. cbn. by rewrite !N.add_assoc. Qed.

Lemma spend_zero b : spend b 0 0 = b.
Proof. destruct b. unfold spend. cbn. by rewrite !N.add_0_r. Qed.

(** The budget a successful visit leaves is within the limits. *)
Definition within (lim : EffectiveContextCacheLimits) (b : CanonicalBudget) : Prop :=
  (nodes b <= maximumCanonicalNodes lim)%N /\
  (budget_textBytes b <= maximumCanonicalTextBytes lim)%N.

(** What a visit that spells [out] for [d] did. *)
Definition spelled (lim : EffectiveContextCacheLimits) (b b' : CanonicalBudget) (ds : list datum) : Prop :=
  b' = spend b (sum_nodes ds) (sum_text ds) /\ (within lim b -> within lim b').

Lemma spelled_cons lim b b1 b2 d ds :
  spelled lim b b1 [d] -> spelled lim b1 b2 ds -> spelled lim b b2 (d :: ds).
Proof.
  intros [-> H1] [-> H2]. split; [|auto]. rewrite spend_spend. cbn. by rewrite !N.add_0_r.
Qed.

(** ** Visiting a list of entries, each an item [B] spelled by [spell] *)

Section visit_all.
Context (lim : EffectiveContextCacheLimits) {A B : Type} (f : CanonicalBudget -> A -> checked (CanonicalBudget * list N)).
Context (spell : B -> list N) (data : B -> datum).

Lemma visit_all_sound (R : A -> B -> Prop) :
  (forall b x b' out, f b x = Ok (b', out) ->
     exists y, R x y /\ out = spell y /\ spelled lim b b' [data y]) ->
  forall l b b' out, visit_all f b l = Ok (b', out) ->
  exists ys, Forall2 R l ys /\ out = mjoin (map spell ys) /\ spelled lim b b' (map data ys).
Proof.
  intros Hf l. induction l as [|x l IH]; intros b b' out Hv; cbn in Hv.
  - injection Hv as <- <-. exists []. split_and!; [by constructor|done|].
    split; [by rewrite spend_zero|done].
  - apply bind_Ok in Hv as ([b1 out1] & H1 & Hv). apply bind_Ok in Hv as ([b2 rest] & H2 & Hv).
    injection Hv as <- <-. apply Hf in H1 as (y & Hy & -> & Hs).
    apply IH in H2 as (ys & Hys & -> & Hss). exists (y :: ys). split_and!; [by constructor| |].
    + cbn [map]. by rewrite mjoin_cons.
    + by eapply spelled_cons.
Qed.

Lemma visit_all_complete l ys :
  Forall2 (fun x y => forall b, within lim (spend b (datum_nodes (data y)) (datum_text (data y))) ->
             f b x = Ok (spend b (datum_nodes (data y)) (datum_text (data y)), spell y)) l ys ->
  forall b, within lim (spend b (sum_nodes (map data ys)) (sum_text (map data ys))) ->
  visit_all f b l
  = Ok (spend b (sum_nodes (map data ys)) (sum_text (map data ys)), mjoin (map spell ys)).
Proof.
  induction 1 as [|x y l ys Hy _ IH]; intros b Hb; cbn in *.
  - by rewrite spend_zero.
  - rewrite Hy by (unfold within, spend in *; cbn in *; lia). cbn [mbind res_mbind].
    rewrite IH; rewrite spend_spend; done.
Qed.
End visit_all.

Section visit.
Context (h : heap) (lim : EffectiveContextCacheLimits).

Definition record_entry (own : list property) (k : jstring) (p : list N * datum) : Prop :=
  p.1 = utf8 k /\ exists x, field own k = Ok x /\ encodes h x p.2.

Lemma spend_leaf b : spend b 1 0 = {| nodes := nodes b + 1; budget_textBytes := budget_textBytes b |}.
Proof. unfold spend. by rewrite N.add_0_r. Qed.

Lemma spelled_leaf b d :
  datum_nodes d = 1%N -> datum_text d = 0%N ->
  (nodes b + 1 <= maximumCanonicalNodes lim)%N ->
  spelled lim b {| nodes := nodes b + 1; budget_textBytes := budget_textBytes b |} [d].
Proof.
  intros Hn Ht Hb. split; [|unfold within; cbn; lia].
  unfold spend. cbn. by rewrite Hn, Ht, !N.add_0_r.
Qed.

Lemma spelled_node b b' d ds :
  datum_nodes d = (1 + sum_nodes ds)%N -> datum_text d = sum_text ds ->
  (nodes b + 1 <= maximumCanonicalNodes lim)%N ->
  spelled lim {| nodes := nodes b + 1; budget_textBytes := budget_textBytes b |} b' ds ->
  spelled lim b b' [d].
Proof.
  intros Hn Ht Hb [-> Hw]. split.
  - unfold spend. cbn. rewrite Hn, Ht. f_equal; lia.
  - intros [_ ?]. apply Hw. by split.
Qed.

Lemma visitObject_sound inner anc b v b' out :
  (forall anc b v b' out, inner anc b v = Ok (b', out) ->
     exists d, encodes h v d /\ out = stream d /\ spelled lim b b' [d]) ->
  (nodes b + 1 <= maximumCanonicalNodes lim)%N ->
  visitObject h lim inner anc {| nodes := nodes b + 1; budget_textBytes := budget_textBytes b |} v
  = Ok (b', out) ->
  exists d, encodes h v d /\ out = stream d /\ spelled lim b b' [d].
Proof.
  intros IH Hn Hv. unfold visitObject in Hv.
  destruct (object_of h v) as [o|] eqn:Ho; [|done].
  apply bind_ensure in Hv as [Hproxy Hv]. apply bind_ensure in Hv as [_ Hv].
  destruct (is_array o) eqn:Harr.
  - apply bind_Ok in Hv as (values & Hvalues & Hv). apply bind_Ok in Hv as ([b1 body] & Hall & Hv).
    injection Hv as <- <-.
    apply (visit_all_sound lim _ stream id (encodes h)) in Hall as (ds & Hds & -> & Hs);
      [|by eauto].
    rewrite map_id in Hs. exists (DArray ds). split_and!.
    + by eapply encodes_array.
    + rewrite stream_array. by rewrite (Forall2_length _ _ _ Hds).
    + by apply (spelled_node b b1 (DArray ds) ds).
  - apply bind_ensure in Hv as [Hplain Hv]. apply bind_Ok in Hv as (keys & Hkeys & Hv).
    apply bind_Ok in Hv as ([b1 body] & Hall & Hv). injection Hv as <- <-.
    apply (visit_all_sound lim _ field_stream snd (record_entry (obj_own o)))
      in Hall as (fs & Hfs & -> & Hs).
    + exists (DRecord fs). bool_prop. split_and!.
      * by eapply encodes_record.
      * rewrite stream_record. by rewrite (Forall2_length _ _ _ Hfs).
      * apply (spelled_node b b1 (DRecord fs) (map snd fs)); [..|done|done]; cbn.
        -- by rewrite field_nodes.
        -- by rewrite field_text.
    + intros b2 k b3 out2 Hk. apply bind_Ok in Hk as (x & Hx & Hk).
      apply bind_Ok in Hk as ([b4 out4] & H4 & Hk). injection Hk as <- <-.
      apply IH in H4 as (d & Hd & -> & Hs). exists (utf8 k, d).
      split_and!; [by split; eauto|done|done].
Qed.

Lemma visit_sound fuel : forall anc b v b' out,
  visit h lim fuel anc b v = Ok (b', out) ->
  exists d, encodes h v d /\ out = stream d /\ spelled lim b b' [d].
Proof.
  induction fuel as [|fuel IH]; intros anc b v b' out Hv; cbn [visit] in Hv; [done|].
  apply bind_ensure in Hv as [Hn Hv]. cbn [nodes budget_textBytes] in *. bool_prop.
  destruct v as [| |x|x|s| | |l|items|fields]; try (by eapply visitObject_sound).
  - injection Hv as <- <-. exists DNull. split_and!; [constructor|done|by apply spelled_leaf].
  - injection Hv as <- <-. exists (DBool x). split_and!; [constructor|done|by apply spelled_leaf].
  - destruct (number_text x) as [text|] eqn:Hx; [|done]. injection Hv as <- <-.
    exists (DNumber (utf8 text)). split_and!; [by constructor|done|by apply spelled_leaf].
  - apply bind_Ok in Hv as (s' & Hs & Hv). apply bind_ensure in Hv as [Ht Hv].
    injection Hv as <- <-. cbn [wellFormedText] in Hs. res_inv. subst s'. bool_prop.
    exists (DString (utf8 s)). split_and!; [by constructor|done|].
    split; [|intros _; by split]. unfold spend, textBytes. cbn. by rewrite !N.add_0_r.
Qed.

(** *** Every acyclic tree within the limits is spelled *)

(** No object being visited occurs in [d]: they all unfold to larger trees. *)
Definition apart (anc : list loc) (d : datum) : Prop :=
  forall l d', l ∈ anc -> encodes h (VRef l) d' -> (datum_nodes d < datum_nodes d')%N.

Lemma apart_not_ancestor anc v d : encodes h v d -> apart anc d -> is_ancestor anc v = false.
Proof.
  intros Hv Ha. destruct v; try done. cbn. apply not_true_iff_false.
  rewrite existsb_elem. intros (l' & Hl & ->%N.eqb_eq). specialize (Ha _ _ Hl Hv). lia.
Qed.

Lemma apart_inner anc v d d' :
  encodes h v d -> apart anc d -> (datum_nodes d' < datum_nodes d)%N -> apart (with_ancestor anc v) d'.
Proof.
  intros Hv Ha Hlt l e Hl He.
  assert (apart anc d') as Ha' by (intros l' e' Hl' He'; specialize (Ha _ _ Hl' He'); lia).
  destruct v; try (by eapply Ha'). cbn in Hl. apply elem_of_cons in Hl as [->|Hl]; [|by eapply Ha'].
  by rewrite (encodes_functional _ _ _ _ He Hv).
Qed.

Lemma datum_nodes_pos d : (1 <= datum_nodes d)%N.
Proof. destruct d; cbn; lia. Qed.

Lemma sum_nodes_elem d l : d ∈ l -> (datum_nodes d <= sum_nodes l)%N.
Proof. induction 1; cbn; unfold sum_nodes in *; lia. Qed.

Lemma sum_nodes_length l : (N.of_nat (length l) <= sum_nodes l)%N.
Proof. induction l as [|d l IH]; [done|]. cbn. pose proof (datum_nodes_pos d). unfold sum_nodes in *. lia. Qed.

(** The claim for one tree; [completes] of the children gives it for a node. *)
Definition completes (d : datum) : Prop := forall v fuel anc b,
  encodes h v d -> within lim (spend b (datum_nodes d) (datum_text d)) ->
  (N.to_nat (datum_nodes d) <= fuel)%nat -> apart anc d ->
  visit h lim fuel anc b v = Ok (spend b (datum_nodes d) (datum_text d), stream d).

Lemma child_smaller {B} (data : B -> datum) d ys y :
  datum_nodes d = (1 + sum_nodes (map data ys))%N -> y ∈ ys ->
  (datum_nodes (data y) < datum_nodes d)%N.
Proof.
  intros -> Hy. pose proof (sum_nodes_elem (data y) (map data ys)) as H.
  specialize (H (list_elem_of_fmap_2 data ys y Hy)). lia.
Qed.

Lemma Forall2_elem_r {A B} (P Q : A -> B -> Prop) l k :
  Forall2 P l k -> (forall x y, y ∈ k -> P x y -> Q x y) -> Forall2 Q l k.
Proof.
  induction 1 as [|x y l k Hp H IH]; intros HQ; constructor.
  - apply HQ; [left|done].
  - apply IH. intros ???. apply HQ. by right.
Qed.

Lemma ensure_true {E} (b : bool) (e : E) : b = true -> ensure b e = Ok tt.
Proof. by intros ->. Qed.

Lemma visitObject_complete fuel anc b v d :
  encodes h v d -> apart anc d ->
  match d with DArray l => Forall completes l | DRecord l => Forall (fun f => completes f.2) l
             | _ => False end ->
  (N.to_nat (datum_nodes d) <= S fuel)%nat ->
  within lim (spend b (datum_nodes d) (datum_text d)) ->
  visitObject h lim (visit h lim fuel) anc {| nodes := nodes b + 1; budget_textBytes := budget_textBytes b |} v
  = Ok (spend b (datum_nodes d) (datum_text d), stream d).
Proof.
  intros Hv Ha Hc Hf Hw. unfold visitObject.
  pose proof (apart_not_ancestor _ _ _ Hv Ha) as Hanc.
  assert (forall x e, encodes h x e -> completes e -> (datum_nodes e < datum_nodes d)%N ->
    forall b1, within lim (spend b1 (datum_nodes e) (datum_text e)) ->
    visit h lim fuel (with_ancestor anc v) b1 x
    = Ok (spend b1 (datum_nodes e) (datum_text e), stream e)) as Hchild.
  { intros x e He Hce Hlt b1 Hb1. apply Hce; [done..|lia|by eapply apart_inner]. }
  inversion Hv as [| | | |v' o maximum items ds Ho Hitems Hds|v' o keys fs Ho Hp Harr Hpl Hkeys Hfs];
    subst; try done; rewrite Ho.
  - destruct (denseArray_object _ _ _ _ _ Ho Hitems) as (-> & -> & Hlen & Hmax).
    rewrite Hanc. cbn [negb ensure mbind res_mbind].
    pose proof (sum_nodes_length ds) as Hn. rewrite <- (Forall2_length _ _ _ Hds) in Hn.
    rewrite (Hmax (maximumCanonicalNodes lim)).
    2: { destruct Hw as [Hw _]. cbn in Hw. unfold sum_nodes in *. lia. }
    cbn [mbind res_mbind].
    rewrite (visit_all_complete lim _ stream id items ds).
    + rewrite map_id. cbn [mbind res_mbind]. rewrite (Forall2_length _ _ _ Hds), stream_array.
      unfold spend, sum_nodes, sum_text. cbn. by rewrite N.add_assoc.
    + eapply Forall2_elem_r; [exact Hds|]. intros x y Hy Hxy. cbn. apply Hchild; [done| |].
      * rewrite Forall_forall in Hc. by apply Hc.
      * apply (child_smaller id _ ds); [by rewrite map_id|done].
    + rewrite map_id. unfold within, spend, sum_nodes, sum_text in *. cbn in *. lia.
  - rewrite Hp, Hanc, Harr, Hpl, Hkeys. cbn [negb ensure mbind res_mbind].
    rewrite (visit_all_complete lim _ field_stream snd _ fs).
    + cbn [mbind res_mbind]. rewrite (Forall2_length _ _ _ Hfs), stream_record.
      unfold spend. cbn. by rewrite field_nodes, field_text, N.add_assoc.
    + eapply Forall2_elem_r; [exact Hfs|]. intros k y Hy (Hk & x & Hx & Hxy) b1 Hb1. cbn.
      rewrite Hx. cbn [mbind res_mbind]. rewrite (Hchild x y.2); [|done| | |done].
      * cbn [mbind res_mbind]. unfold field_stream. by rewrite Hk.
      * rewrite Forall_forall in Hc. by apply (Hc y).
      * apply (child_smaller snd _ fs); [|done]. cbn. by rewrite field_nodes.
    + unfold within, spend in *. cbn in *. rewrite field_nodes, field_text in Hw. lia.
Qed.

Lemma visit_complete d : completes d.
Proof.
  induction d as [|x|t|t|l IH|l IH] using datum_nested_ind;
    intros v fuel anc b Hv Hw Hf Ha;
    match type of Hv with encodes _ _ ?d => pose proof (datum_nodes_pos d) as Hpos end;
    (destruct fuel as [|fuel]; [lia|]);
    cbn [visit]; rewrite ensure_true by (apply N.leb_le; destruct Hw as [Hw _]; cbn [nodes spend] in *; lia);
    cbn [mbind res_mbind].
  - inversion Hv; subst; [|done..]. by rewrite spend_leaf.
  - inversion Hv; subst; [|done..]. by rewrite spend_leaf.
  - inversion Hv as [| |x text Hx| | |]; subst; [|done..]. by rewrite Hx, spend_leaf.
  - inversion Hv as [| | |s Hs| |]; subst; [|done..]. destruct Hw as [_ Hw]. cbn in Hw.
    cbn [wellFormedText]. rewrite (ensure_true (hasWellFormedUnicode s)) by done.
    rewrite !ensure_true by (apply N.leb_le; unfold textBytes; cbn; lia). done.
  - pose proof (visitObject_complete fuel anc b v _ Hv Ha IH Hf Hw) as Hobj.
    destruct v; try exact Hobj; by inversion Hv.
  - pose proof (visitObject_complete fuel anc b v _ Hv Ha IH Hf Hw) as Hobj.
    destruct v; try exact Hobj; by inversion Hv.
Qed.

(** The canonical message of a value exists exactly when the value encodes
    to a finite tree of plain data within the limits, and it is then the code
    of that tree; in particular the traversal always ends, cyclic or not. *)
Theorem canonicalMessage_spec v m :
  canonicalMessage h lim v = Ok m <->
  exists d, encodes h v d /\ m = stream d /\
    (datum_nodes d <= maximumCanonicalNodes lim)%N /\
    (datum_text d <= maximumCanonicalTextBytes lim)%N.
Proof.
  unfold canonicalMessage. split.
  - destruct (visit _ _ _ _ _ _) as [[b out]|] eqn:Hv; [|done]. intros [= <-].
    apply visit_sound in Hv as (d & Hd & -> & -> & Hw). exists d. split_and!; [done..| |].
    + destruct Hw as [Hw _]; [split; cbn; lia|]. cbn in Hw. lia.
    + destruct Hw as [_ Hw]; [split; cbn; lia|]. cbn in Hw. lia.
  - intros (d & Hd & -> & Hn & Ht). rewrite (visit_complete d); [done|done|split; cbn; lia|lia|].
    intros l d' Hl. by apply not_elem_of_nil in Hl.
Qed.

End visit.

Lemma canonicalMessage_encoding h1 lim1 v1 m1 h2 lim2 v2 m2 :
  canonicalMessage h1 lim1 v1 = Ok m1 -> canonicalMessage h2 lim2 v2 = Ok m2 ->
  m1 = m2 <-> same_encoding h1 v1 h2 v2.
Proof.
  intros (d1 & U1 & -> & _)%canonicalMessage_spec (d2 & U2 & -> & _)%canonicalMessage_spec. split.
  - intros ->%stream_inj. by exists d2.
  - intros (d & V1 & V2). by rewrite (encodes_functional _ _ _ _ U1 V1), (encodes_functional _ _ _ _ U2 V2).
Qed.

(** ** The encoding determines well-formed data *)

Section tree_ind.
Context (P : tree -> Prop).
Hypothesis Hnull : P TNull.
Hypothesis Hbool : forall b, P (TBool b).
Hypothesis Hnumber : forall s, P (TNumber s).
Hypothesis Hstring : forall s, P (TString s).
Hypothesis Harray : forall items, Forall P items -> P (TArray items).
Hypothesis Hrecord : forall fields, Forall (fun f => P f.2) fields -> P (TRecord fields).

Fixpoint tree_nested_ind (t : tree) : P t :=
  match t with
  | TNull => Hnull
  | TBool b => Hbool b
  | TNumber s => Hnumber s
  | TString s => Hstring s
  | TArray items =>
      Harray items ((fix go l : Forall P l :=
        match l with [] => List.Forall_nil P | x :: r => List.Forall_cons P x r (tree_nested_ind x) (go r) end) items)
  | TRecord fields =>
      Hrecord fields ((fix go l : Forall (fun f => P f.2) l :=
        match l with
        | [] => List.Forall_nil _
        | x :: r => List.Forall_cons _ x r (tree_nested_ind x.2) (go r)
        end) fields)
  end.
End tree_ind.

(** All texts of a tree, its keys among them, are well-formed Unicode in 16-bit
    units. *)
Fixpoint well_formed_tree (t : tree) : Prop :=
  match t with
  | TNull | TBool _ => True
  | TNumber s | TString s => good_text s
  | TArray items => foldr (fun t rest => well_formed_tree t /\ rest) True items
  | TRecord fields => foldr (fun f rest => (good_text f.1 /\ well_formed_tree f.2) /\ rest) True fields
  end.

Lemma good_text_inj s t : good_text s -> good_text t -> utf8 s = utf8 t -> s = t.
Proof. intros [Ws Us] [Wt Ut]. by apply utf8_inj. Qed.

Lemma encode_inj t : forall t', well_formed_tree t -> well_formed_tree t' -> encode t = encode t' -> t = t'.
Proof.
  induction t as [|b|s|s|l IH|l IH] using tree_nested_ind; intros [|b'|s'|s'|l'|l'] H H' E;
    try done; cbn in *; injection E as E; try (f_equal; by apply good_text_inj); [by subst| |].
  - f_equal. revert l' H H' E. induction IH as [|t l Ht _ IHl]; intros [|t' l'] H H' E; try done.
    cbn in *. injection E as E1 E2. destruct H, H'. f_equal; auto.
  - f_equal. revert l' H H' E. induction IH as [|[k t] l Ht _ IHl]; intros [|[k' t'] l'] H H' E; try done.
    cbn in *. injection E as E1 E2 E3. destruct H as [[? ?] ?], H' as [[? ?] ?].
    f_equal; [f_equal; [by apply good_text_inj|by apply Ht]|by apply IHl].
Qed.

(** A value encodes to the encoding of the tree it unfolds to. *)
Lemma encodes_unfolds h d : forall v, encodes h v d -> exists t, unfolds h v t /\ encode t = d.
Proof.
  induction d as [|b|s|s|l IH|l IH] using datum_nested_ind; intros v H; inversion H; subst.
  1-4: by eexists; split; [by constructor|].
  - match goal with E : Forall2 (encodes h) ?items l |- _ =>
      assert (exists ts, Forall2 (unfolds h) items ts /\ map encode ts = l) as (ts & Hts & <-) end.
    { match goal with E : Forall2 (encodes h) ?items l |- _ => clear -IH E; revert items E end.
      induction IH as [|d l Hd _ IHl]; intros items E; inversion E; subst; [by exists []|].
      edestruct Hd as (t & Ht & <-); [done|]. edestruct IHl as (ts & Hts & <-); [done|]. exists (t :: ts). by split; [constructor|]. }
    exists (TArray ts). split; [by eapply unfolds_array|done].
  - match goal with E : Forall2 _ ?keys l |- _ =>
      assert (exists ts, Forall2 (fun k t => t.1 = k /\ exists x, field (obj_own o) k = Ok x /\ unfolds h x t.2) keys ts
                         /\ map (fun f => (utf8 f.1, encode f.2)) ts = l) as (ts & Hts & <-) end.
    { match goal with E : Forall2 _ ?keys l |- _ => clear -IH E; revert E; generalize keys; intros ks E; revert ks E end.
      induction IH as [|[e d] l Hd _ IHl]; intros ks E; inversion E as [|k ? ks' ? (He & x & Hx & Hv) Hr]; subst; [by exists []|].
      cbn in He, Hv, Hd. subst e. destruct (Hd x Hv) as (t & Ht & <-). destruct (IHl ks' Hr) as (ts & Hts & <-).
      exists ((k, t) :: ts). split; [|done]. constructor; [|done]. cbn. eauto. }
    exists (TRecord ts). split; [by eapply unfolds_record|done].
Qed.

(** A value unfolds to one tree at most. *)
Lemma unfolds_functional h t : forall v t', unfolds h v t -> unfolds h v t' -> t = t'.
Proof.
  induction t as [|x|s|s|l IH|l IH] using tree_nested_ind; intros v t' H1 H2;
    inversion H1; subst; inversion H2; subst; try done; try congruence;
    match goal with
    | E1 : object_of h ?v = Some ?o1, E2 : object_of h ?v = Some ?o2 |- _ =>
        rewrite E1 in E2; injection E2 as ->
    end;
    try match goal with
    | E1 : object_of _ ?v = Some _, E2 : denseArray _ ?v _ = Ok _ |- _ =>
        pose proof (denseArray_object _ _ _ _ _ E1 E2) as (_ & ? & _); congruence
    end.
  - f_equal. match goal with E1 : denseArray _ _ _ = Ok ?a, E2 : denseArray _ _ _ = Ok ?b |- _ =>
      assert (a = b) as -> by (by eapply denseArray_maximum) end.
    eapply Forall2_functional; [|done..]. eapply Forall_impl; [apply IH|]. cbn. eauto.
  - f_equal. match goal with E1 : string_keys _ = Ok ?a, E2 : string_keys _ = Ok ?b |- _ =>
      rewrite E1 in E2; injection E2 as -> end.
    eapply Forall2_functional; [|done..]. eapply Forall_impl; [apply IH|]. cbn.
    intros [k1 d1] Hd x [k2 d2] (E1 & y & F1 & U1) (E2 & y' & F2 & U2). cbn in *. subst.
    f_equal. rewrite F1 in F2. injection F2 as ->. eauto.
Qed.

(** C19.  The canonical message is a faithful code of the data.  Whatever the heaps
    and limits, two values that have messages unfold to one tree of plain data each; the
    messages are equal exactly when the UTF-8 encodings of the trees are, and
    when the texts and record keys of both are well-formed Unicode exactly when
    the trees are equal: the digest of such a value depends on all of its data
    and on nothing else.  Keys with lone surrogates are not refused, and are told
    apart no further than their encodings (malformed_keys_share_a_message). *)
Theorem canonicalMessage_faithful h1 lim1 v1 m1 h2 lim2 v2 m2 :
  canonicalMessage h1 lim1 v1 = Ok m1 -> canonicalMessage h2 lim2 v2 = Ok m2 ->
  exists t1 t2, (forall t, unfolds h1 v1 t <-> t = t1) /\ (forall t, unfolds h2 v2 t <-> t = t2)
    /\ (m1 = m2 <-> encode t1 = encode t2)
    /\ (well_formed_tree t1 -> well_formed_tree t2 -> m1 = m2 <-> t1 = t2).
Proof.
  intros (d1 & U1 & -> & _)%canonicalMessage_spec (d2 & U2 & -> & _)%canonicalMessage_spec.
  apply encodes_unfolds in U1 as (t1 & U1 & <-), U2 as (t2 & U2 & <-). exists t1, t2.
  assert (stream (encode t1) = stream (encode t2) <-> encode t1 = encode t2) as Hs.
  { split; [apply stream_inj|by intros ->]. }
  split; [intros t; split; [intros U; by eapply unfolds_functional|by intros ->]|].
  split; [intros t; split; [intros U; by eapply unfolds_functional|by intros ->]|].
  split; [done|]. intros H1 H2. rewrite Hs.
  split; [by apply encode_inj|by intros ->].
Qed.

(** ** The data of records and arrays a module built *)

Lemma rmapM_map {E A B C} (f : B -> res E C) (g : A -> B) l : rmapM f (map g l) = rmapM (fun x => f (g x)) l.
Proof. induction l as [|x l IH]; cbn; [done|]. by rewrite IH. Qed.

Lemma rmapM_pure {E A B} (f : A -> B) l : rmapM (E:=E) (fun x => Ok (f x)) l = Ok (map f l).
Proof. induction l as [|x l IH]; cbn; [done|]. by rewrite IH. Qed.

Lemma record_keys fields : string_keys (obj_own (record_object fields)) = Ok (map fst fields).
Proof. unfold string_keys. cbn. rewrite rmapM_map. cbn. apply rmapM_pure. Qed.

Lemma denseArray_items h items maximum l : denseArray h (VArray items) maximum = Ok l -> l = items.
Proof.
  intros Hd. unfold denseArray in Hd. cbn [object_of] in Hd. res_inv.
  apply rmapM_Ok in Hd. cbn [obj_own array_object array_length obj_slots] in Hd. rewrite Nat2N.id in Hd.
  apply list_eq. intros i. destruct (items !! i) as [x|] eqn:Hx.
  - pose proof (lookup_lt_Some _ _ _ Hx) as Hlt.
    destruct (Forall2_lookup_l _ _ _ i i Hd) as (y & Hy & Hf); [by apply lookup_seq|].
    rewrite Hy. unfold field in Hf. pose proof (array_descriptor items 0 i x Hx) as Ha. cbn in Ha.
    rewrite Ha in Hf. cbn in Hf. by injection Hf as ->.
  - apply lookup_ge_None in Hx. apply lookup_ge_None. apply Forall2_length in Hd.
    rewrite length_seq in Hd. lia.
Qed.

Lemma same_encoding_array h1 l1 h2 l2 :
  same_encoding h1 (VArray l1) h2 (VArray l2) -> Forall2 (fun v1 v2 => same_encoding h1 v1 h2 v2) l1 l2.
Proof.
  intros (d & U1 & U2).
  inversion U1 as [| | | |v1 o1 m1 i1 ds1 Ho1 Hi1 Hd1|v1 o1 ks1 ds1 Ho1 _ Ha1]; subst;
    [|by injection Ho1 as <-].
  inversion U2 as [| | | |v2 o2 m2 i2 ds2 Ho2 Hi2 Hd2|]; subst.
  apply denseArray_items in Hi1 as ->. apply denseArray_items in Hi2 as ->.
  clear -Hd1 Hd2. revert l2 Hd2. induction Hd1 as [|x1 d l1 ds H1 _ IH]; intros l2 H2;
    inversion H2; subst; constructor; [by exists d|by apply IH].
Qed.

Lemma same_encoding_field h1 fs1 h2 fs2 k x1 x2 :
  same_encoding h1 (VRecord fs1) h2 (VRecord fs2) -> map fst fs1 = map fst fs2 ->
  field (obj_own (record_object fs1)) k = Ok x1 -> field (obj_own (record_object fs2)) k = Ok x2 ->
  k ∈ map fst fs1 -> same_encoding h1 x1 h2 x2.
Proof.
  intros (d & U1 & U2) Hk F1 F2 Hin.
  inversion U1 as [| | | |v1 o1 m1 i1 ds1 Ho1 Hi1 Hd1|v1 o1 ks1 ds1 Ho1 _ _ _ Hk1 Hd1]; subst.
  { injection Ho1 as <-. unfold denseArray in Hi1. cbn in Hi1. done. }
  inversion U2 as [| | | | |v2 o2 ks2 ds2 Ho2 _ _ _ Hk2 Hd2]; subst.
  injection Ho1 as <-. injection Ho2 as <-. rewrite record_keys in Hk1, Hk2.
  injection Hk1 as <-. injection Hk2 as <-. rewrite <- Hk in Hd2.
  rewrite <- (elem_of_sort_by compareUtf8_le) in Hin. apply list_elem_of_lookup in Hin as (i & Hi).
  destruct (Forall2_lookup_l _ _ _ i k Hd1 Hi) as (y1 & Hy1 & _ & z1 & Hz1 & V1).
  destruct (Forall2_lookup_l _ _ _ i k Hd2 Hi) as (y2 & Hy2 & _ & z2 & Hz2 & V2).
  rewrite Hy1 in Hy2. injection Hy2 as ->. rewrite F1 in Hz1. rewrite F2 in Hz2.
  injection Hz1 as ->. injection Hz2 as ->. by exists (y2.2).
Qed.

Lemma same_encoding_string h1 s1 h2 s2 :
  same_encoding h1 (VString s1) h2 (VString s2) -> utf8 s1 = utf8 s2 /\ wf_text s1 /\ wf_text s2.
Proof.
  intros (d & U1 & U2). inversion U1; subst; [|done..]. inversion U2; subst; done.
Qed.

Lemma same_encoding_text h1 s1 h2 s2 : js_units s1 -> js_units s2 ->
  same_encoding h1 (VString s1) h2 (VString s2) -> s1 = s2.
Proof. intros ?? (? & ? & ?)%same_encoding_string. by apply utf8_inj. Qed.

Lemma same_encoding_text_option h1 s1 h2 s2 :
  (forall s, s1 = Some s -> js_units s) -> (forall s, s2 = Some s -> js_units s) ->
  same_encoding h1 (VText s1) h2 (VText s2) -> s1 = s2.
Proof.
  intros H1 H2 Hs. destruct s1 as [s1|], s2 as [s2|]; cbn in Hs.
  - f_equal. eapply same_encoding_text; [..|exact Hs]; auto.
  - destruct Hs as (d & U1 & U2). inversion U1; subst; [inversion U2; subst|..]; done.
  - destruct Hs as (d & U1 & U2). inversion U2; subst; [inversion U1; subst|..]; done.
  - done.
Qed.

(** Hexadecimal texts are ASCII. *)
Lemma hex_ascii l : Forall (fun b => b < 256)%N l -> Forall (fun c => c < 128)%N (hex l).
Proof.
  intros Hl. unfold hex. apply Forall_forall. intros c Hc.
  apply list_elem_of_join in Hc as (x & Hx & Hc). apply list_elem_of_fmap in Hc as (b & -> & Hb).
  rewrite Forall_forall in Hl. apply Hl in Hb. unfold hex_byte in Hx.
  assert (forall n, (n < 16)%N -> (hex_digit n < 128)%N) as Hd.
  { intros n Hn. unfold hex_digit. destruct (n <? 10)%N eqn:E; bool_prop; lia. }
  apply elem_of_cons in Hx as [->|Hx]; [apply Hd; lia|].
  apply list_elem_of_singleton in Hx as ->. apply Hd. lia.
Qed.

(** A cyclic object has no message; an array and its copy in the heap have one. *)
Definition a_heap : heap := fun l =>
  if (l =? 1)%N then Some (record_object [(#"self", VRef 1%N)])
  else if (l =? 2)%N then Some (array_object [VNull; VString #"a"])
  else None.

Definition few_nodes : EffectiveContextCacheLimits := {|
  maximumCanonicalNodes := 8; maximumCanonicalTextBytes := 8; maximumDependencyBytes := 8;
  maximumDependencyFiles := 8; maximumEntries := 8; maximumEntryBytes := 8;
  maximumIdentityBytes := 8; maximumPathBytes := 8; maximumWeightBytes := 8 |}%N.

Example cycle_refused : canonicalMessage a_heap few_nodes (VRef 1%N) = Err invalidInput.
Proof. vm_compute. reflexivity. Qed.

Definition a_message : list N :=
  match canonicalMessage a_heap few_nodes (VRef 2%N) with Ok m => m | Err _ => [] end.

Definition copied_array : value := VArray [VNull; VString #"a"].

Lemma canonicalMessage_faithful_witness :
  length a_message = 19 /\
  exists t1 t2, (forall t, unfolds a_heap (VRef 2%N) t <-> t = t1) /\ (forall t, unfolds a_heap copied_array t <-> t = t2)
    /\ (a_message = a_message <-> encode t1 = encode t2).
Proof.
  split; [vm_compute; reflexivity|].
  destruct (canonicalMessage_faithful a_heap few_nodes (VRef 2%N) a_message
              a_heap few_nodes copied_array a_message) as (t1 & t2 & U1 & U2 & H & _);
    [vm_compute; reflexivity..|].
  exists t1, t2. split; [exact U1|]. split; [exact U2|exact H].
Defined.

(** Records that differ in malformed keys have one message. *)
Definition keyed (unit : N) : value := VRecord [([unit], VNull)].

Example malformed_keys_share_a_message :
  keyed 0xD800 <> keyed 0xDC00 /\ is_ok (canonicalMessage a_heap few_nodes (keyed 0xD800)) = true /\
  canonicalMessage a_heap few_nodes (keyed 0xD800) = canonicalMessage a_heap few_nodes (keyed 0xDC00).
Proof. split; [discriminate|]. split; vm_compute; reflexivity. Qed.
