(* ===== verification/EffectiveContextCache.v ===== *)
(** The effective-context cache (packages/resolver/src/effective-context-cache.ts):
    the normalized request, its content address, the dependency closure of a
    resolution, and the cache with its operations.

    What the cache sees of the process is a [World]: the heap, the registries of
    objects other modules issued, and the answers of abort signals.  The
    resolver of contexts and the configuration validator are classes. *)
From S2P Require Import Prelude JsString OrderedMap Unicode RepositoryPath JsValue Fingerprint Json ImportDag ObjectGraph CanonicalDigest.

Definition EFFECTIVE_CONTEXT_CACHE_CONTRACT_VERSION : jstring := #"0.1.0".
Definition EFFECTIVE_CONTEXT_CACHE_REQUEST_RECORD_KIND : jstring :=
  #"agent-context-effective-context-cache-request".
Definition EFFECTIVE_CONTEXT_CACHE_KEY_RECORD_KIND : jstring :=
  #"agent-context-effective-context-cache-key".
Definition EFFECTIVE_CONTEXT_CONTRACT_VERSION : jstring := #"0.1.0".
Definition EFFECTIVE_CONTEXT_INPUT_RECORD_KIND : jstring := #"agent-context-effective-context-input".
Definition TARGET_SAMPLER_CONTRACT_VERSION : jstring := #"0.1.0".
Definition DOCUMENT_IMPORT_DAG_CONTRACT_VERSION : jstring := #"0.1.0".

(** ** Issued import graphs as the plain data they are *)

Definition node_state_name (s : NodeState) : jstring :=
  match s with node_loaded => #"loaded" | parse_failed => #"parse-failed" end.

Definition graph_state_name (s : GraphState) : jstring :=
  match s with complete => #"complete" | partial => #"partial" end.

Definition occurrence_state_name (s : ImportDagOccurrenceState) : jstring :=
  match s with entry => #"entry" | edge e => edge_state_name e end.

Definition position_value (p : SourcePosition) : value :=
  VRecord [(#"byteOffset", VInteger (byteOffset p)); (#"utf16Offset", VInteger (utf16Offset p));
           (#"line", VInteger (line p)); (#"utf16Column", VInteger (utf16Column p))].

Definition range_value (r : SourceRange) : value :=
  VRecord [(#"sourceId", VString (range_sourceId r)); (#"start", position_value (range_start r));
           (#"end", position_value (range_end r))].

Definition issue_code_value : option ImportGraphIssueCode -> value :=
  of_option (fun c => VString (issue_code_name c)).

Definition content_value (c : ImportDagContent) : value :=
  VRecord [(#"byteLength", VInteger (c_byteLength c));
           (#"documentIds", VArray (map VString (c_documentIds c)));
           (#"id", VString (c_id c)); (#"sha256", VString (c_sha256 c))].

Definition document_value (d : ImportDagDocument) : value :=
  VRecord [(#"byteLength", VInteger (d_byteLength d)); (#"contentId", VString (d_contentId d));
           (#"depth", VInteger (d_depth d)); (#"documentId", VString (d_documentId d));
           (#"path", VString (d_path d)); (#"sourceId", VString (d_sourceId d));
           (#"state", VString (node_state_name (d_state d)))].

Definition dag_issue_value (i : ImportDagIssue) : value :=
  VRecord [(#"code", VString (issue_code_name (i_code i))); (#"importId", VText (i_importId i));
           (#"path", VString (i_path i)); (#"range", of_option range_value (i_range i));
           (#"targetPath", VText (i_targetPath i))].

Definition occurrence_value (o : ImportDagOccurrence) : value :=
  VRecord [(#"contentId", VText (o_contentId o)); (#"depth", VInteger (o_depth o));
           (#"fromDocumentId", VText (o_fromDocumentId o)); (#"id", VString (o_id o));
           (#"importId", VText (o_importId o)); (#"issueCode", issue_code_value (o_issueCode o));
           (#"ordinal", VInteger (Z.of_nat (o_ordinal o)));
           (#"range", of_option range_value (o_range o));
           (#"state", VString (occurrence_state_name (o_state o)));
           (#"targetDocumentId", VText (o_targetDocumentId o));
           (#"targetPath", VText (o_targetPath o))].

Definition dag_value (d : DocumentImportDag) : value :=
  VRecord [(#"recordKind", VString #"agent-context-document-import-dag");
           (#"contractVersion", VString DOCUMENT_IMPORT_DAG_CONTRACT_VERSION);
           (#"contents", VArray (map content_value (dag_contents d)));
           (#"documents", VArray (map document_value (dag_documents d)));
           (#"entryDocumentId", VText (dag_entryDocumentId d));
           (#"entryPath", VString (dag_entryPath d));
           (#"graphState", VString (graph_state_name (dag_graphState d)));
           (#"issues", VArray (map dag_issue_value (dag_issues d)));
           (#"occurrences", VArray (map occurrence_value (dag_occurrences d)));
           (#"traceEventIds", VArray (map VString (dag_traceEventIds d)));
           (#"traceSha256", VString (dag_traceSha256 d))].

(** The paths the closure of dependencies reads. *)
Definition dag_paths (d : DocumentImportDag) : list jstring :=
  dag_entryPath d :: map d_path (dag_documents d) ++ omap o_targetPath (dag_occurrences d).

(** ** The process *)

Inductive profile_kind := claude_code | codex_cli | copilot | cursor | gemini_cli.

Definition PROFILE_KINDS : list (jstring * profile_kind) := [
  (#"agent-context-claude-code-profile-resolution", claude_code);
  (#"agent-context-codex-cli-agents-resolution", codex_cli);
  (#"agent-context-copilot-profile-resolution", copilot);
  (#"agent-context-cursor-profile-resolution", cursor);
  (#"agent-context-gemini-cli-resolution", gemini_cli)
].

(** The sampling proof, as far as the cache reads it: a selected target is its
    path and the frozen record itself. *)
Record TargetSamplingResult := {
  sampling_provenance : value;
  sampling_selected : list (jstring * value);
  sampling_state : value;
  sampling_strategy : value
}.

(** [signal_aborted l n] is the [n]th answer of a signal during one call;
    texts of issued graphs are JavaScript strings. *)
Record World := {
  world_heap : heap;
  signal_aborted : loc -> nat -> bool;
  issued_profile : profile_kind -> loc -> bool;
  issued_dag : loc -> option DocumentImportDag;
  issued_sampling : loc -> option TargetSamplingResult;
  issued_dag_units : forall l d, issued_dag l = Some d -> Forall js_units (dag_paths d)
}.

(** ** Identities, paths and bytes *)

Record ReadOnlyRepositoryIdentity := { device : jstring; inode : jstring }.

Definition identity (w : World) (v : value) (lim : EffectiveContextCacheLimits)
  : checked (option ReadOnlyRepositoryIdentity) :=
  match v with
  | VNull => Ok None
  | _ =>
      record ← closedRecord (world_heap w) v [ #"device"; #"inode"];
      rawDevice ← field record #"device";
      device ← wellFormedText rawDevice (maximumIdentityBytes lim);
      rawInode ← field record #"inode";
      inode ← wellFormedText rawInode (maximumIdentityBytes lim);
      _ ← ensure (negb (jeqb device []) && negb (jeqb inode [])) invalidInput;
      Ok (Some {| device := device; inode := inode |})
  end.

Definition pathValue (v : value) (lim : EffectiveContextCacheLimits) : checked jstring :=
  match v with
  | VString s =>
      _ ← ensure (isRepositoryRelativePath s) invalidInput;
      wellFormedText v (maximumPathBytes lim)
  | _ => Err invalidInput
  end.

(** The length of a [SharedArrayBuffer] cannot be read with the getter of
    [ArrayBuffer]; a detached buffer has length 0, so it passes the size check and
    fails at the copy. *)
Definition snapshotBytes (w : World) (v : value) (maximum : N) : checked (list N) :=
  match object_of (world_heap w) v with
  | Some {| obj_proxy := false; obj_slots := ByteSlots b |} =>
      if view_attached b && negb (view_shared b) then
        _ ← ensure ((view_byteOffset b + view_byteLength b <=? view_bufferByteLength b)%N
                    && (view_byteLength b <=? maximum)%N) resourceLimit;
        Ok (view_bytes b)
      else Err invalidInput
  | _ => Err invalidInput
  end.

(** ** The normalized request *)

Inductive availability := available | unavailable.

#[export] Instance availability_eq_dec : EqDecision availability.
Proof. solve_decision. Defined.

Definition availability_name (s : availability) : jstring :=
  match s with available => #"available" | unavailable => #"unavailable" end.

Record NormalizedDocument := {
  nd_contentSha256 : option jstring;
  nd_identity : option ReadOnlyRepositoryIdentity;
  nd_path : jstring;
  nd_size : option N;
  nd_state : availability
}.

Record ResolveEffectiveContextInput := {
  importDags : list DocumentImportDag;
  profileResolution_ : value;
  targetPath : jstring
}.

Record NormalizedRequest := {
  configuration : value;
  configurationIdentity : option ReadOnlyRepositoryIdentity;
  context : ResolveEffectiveContextInput;
  documents : list NormalizedDocument;
  samplingTarget : value;
  sampling : TargetSamplingResult;
  targetIdentity : option ReadOnlyRepositoryIdentity
}.

Definition REQUEST_KEYS : list jstring :=
  [ #"configuration"; #"configurationIdentity"; #"context"; #"contractVersion"; #"documents";
   #"recordKind"; #"sampling"; #"targetIdentity"].
Definition CONTEXT_KEYS : list jstring :=
  [ #"contractVersion"; #"importDags"; #"profileResolution"; #"recordKind"; #"targetPath"].
Definition DOCUMENT_KEYS : list jstring := [ #"bytes"; #"identity"; #"path"; #"state"].
Definition CONFIGURATION_KEYS : list jstring :=
  [ #"commands"; #"efficiency"; #"ignore"; #"limits"; #"profiles"; #"rules"; #"security";
   #"standards"; #"version"].

Definition CONFIGURATION_PROFILE_KEY_BY_ID : list (jstring * jstring) := [
  (#"claude-code", #"claudeCode");
  (#"codex-cli", #"codexCli");
  (#"copilot-cli", #"copilotCli");
  (#"copilot-cloud-agent", #"copilotCloudAgent");
  (#"copilot-code-review", #"copilotCodeReview");
  (#"copilot-vscode", #"copilotVscode");
  (#"cursor-agent", #"cursorAgent");
  (#"gemini-cli", #"geminiCli")
].

Definition CONFIGURATION_PROFILE_IDS : list jstring := map fst CONFIGURATION_PROFILE_KEY_BY_ID.

Definition profileResolution (w : World) (v : value) : checked value :=
  record ← dataRecord (world_heap w) v;
  rawKind ← field record #"recordKind";
  match find (fun k => is_string rawKind k.1) PROFILE_KINDS, v with
  | Some (_, kind), VRef l =>
      _ ← ensure (issued_profile w kind l) invalidInput;
      Ok v
  | _, _ => Err invalidInput
  end.

Definition issuedDag (w : World) (v : value) : checked DocumentImportDag :=
  match v with
  | VRef l => match issued_dag w l with Some d => Ok d | None => Err invalidInput end
  | _ => Err invalidInput
  end.

Definition contextInput (w : World) (v : value) (lim : EffectiveContextCacheLimits)
  : checked ResolveEffectiveContextInput :=
  record ← closedRecord (world_heap w) v CONTEXT_KEYS;
  version ← field record #"contractVersion";
  kind ← field record #"recordKind";
  _ ← ensure (is_string version EFFECTIVE_CONTEXT_CONTRACT_VERSION
              && is_string kind EFFECTIVE_CONTEXT_INPUT_RECORD_KIND) invalidInput;
  rawTarget ← field record #"targetPath";
  targetPath ← pathValue rawTarget lim;
  rawProfile ← field record #"profileResolution";
  profile ← profileResolution w rawProfile;
  rawDags ← field record #"importDags";
  dagValues ← denseArray (world_heap w) rawDags (maximumDependencyFiles lim);
  dags ← rmapM (issuedDag w) dagValues;
  Ok {| importDags := dags; profileResolution_ := profile; targetPath := targetPath |}.

Definition documentState (v : value) : checked availability :=
  if is_string v #"available" then Ok available
  else if is_string v #"unavailable" then Ok unavailable
  else Err invalidInput.

Definition is_null (v : value) : bool := match v with VNull => true | _ => false end.

Definition document_path_le : NormalizedDocument -> NormalizedDocument -> bool :=
  fun left right => compareUtf8_le (nd_path left) (nd_path right).

Section documents.
Context `{Sha256}.

(** One item of [documents]; [bytes] is the running total. *)
Definition normalizedDocument (w : World) (lim : EffectiveContextCacheLimits) (seen : list jstring)
    (bytes : N) (item : value) : checked (N * NormalizedDocument) :=
  record ← closedRecord (world_heap w) item DOCUMENT_KEYS;
  rawPath ← field record #"path";
  path ← pathValue rawPath lim;
  _ ← ensure (negb (existsb (jeqb path) seen)) invalidRelationship;
  rawState ← field record #"state";
  state ← documentState rawState;
  rawIdentity ← field record #"identity";
  sourceIdentity ← identity w rawIdentity lim;
  rawBytes ← field record #"bytes";
  match state with
  | unavailable =>
      match is_null rawBytes, sourceIdentity with
      | true, None =>
          Ok (bytes, {| nd_contentSha256 := None; nd_identity := None; nd_path := path;
                        nd_size := None; nd_state := unavailable |})
      | _, _ => Err invalidRelationship
      end
  | available =>
      match is_null rawBytes, sourceIdentity with
      | false, Some _ =>
          copied ← snapshotBytes w rawBytes (maximumDependencyBytes lim);
          let size := N.of_nat (length copied) in
          let bytes := (bytes + size)%N in
          _ ← ensure (bytes <=? maximumDependencyBytes lim)%N resourceLimit;
          Ok (bytes, {| nd_contentSha256 := Some (hex (sha256 copied));
                        nd_identity := sourceIdentity; nd_path := path; nd_size := Some size;
                        nd_state := available |})
      | _, _ => Err invalidRelationship
      end
  end.

Definition normalizedDocuments (w : World) (v : value) (lim : EffectiveContextCacheLimits)
  : checked (list NormalizedDocument) :=
  raw ← denseArray (world_heap w) v (maximumDependencyFiles lim);
  '(_, output) ← foldM (fun acc item =>
      '(bytes, d) ← normalizedDocument w lim (map nd_path acc.2) acc.1 item;
      Ok (bytes, acc.2 ++ [d])) (0%N, []) raw;
  Ok (sort_by document_path_le output).
End documents.

(** The input handed to the configuration validator: the fields of the request,
    with the profiles renamed to their public keys. *)
Inductive public_field := Given (v : value) | PublicProfiles (fields : list (jstring * value)).

(** [validateAgentContextConfiguration]: [None] when not [ok]; the value is
    frozen plain data. *)
Class ConfigurationService : Type := {
  validateAgentContextConfiguration : World -> list (jstring * public_field) -> option value
}.

Definition normalizedConfiguration `{ConfigurationService} (w : World) (v : value) : checked value :=
  input ← closedRecord (world_heap w) v CONFIGURATION_KEYS;
  rawProfiles ← field input #"profiles";
  profiles ← closedRecord (world_heap w) rawProfiles CONFIGURATION_PROFILE_IDS;
  publicProfiles ← rmapM (fun p => x ← field profiles p.1; Ok (p.2, x))
                         CONFIGURATION_PROFILE_KEY_BY_ID;
  publicInput ← rmapM (fun key =>
                         if jeqb key #"profiles" then Ok (key, PublicProfiles publicProfiles)
                         else x ← field input key; Ok (key, Given x)) CONFIGURATION_KEYS;
  match validateAgentContextConfiguration w publicInput with
  | Some configuration => Ok configuration
  | None => Err invalidInput
  end.

Definition issuedSampling (w : World) (v : value) : checked TargetSamplingResult :=
  match v with
  | VRef l => match issued_sampling w l with Some s => Ok s | None => Err invalidInput end
  | _ => Err invalidInput
  end.

Definition normalizeRequest `{Sha256} `{ConfigurationService} (w : World) (v : value)
    (lim : EffectiveContextCacheLimits) : checked NormalizedRequest :=
  input ← closedRecord (world_heap w) v REQUEST_KEYS;
  kind ← field input #"recordKind";
  version ← field input #"contractVersion";
  _ ← ensure (is_string kind EFFECTIVE_CONTEXT_CACHE_REQUEST_RECORD_KIND
              && is_string version EFFECTIVE_CONTEXT_CACHE_CONTRACT_VERSION) invalidInput;
  rawConfiguration ← field input #"configuration";
  configuration ← normalizedConfiguration w rawConfiguration;
  rawContext ← field input #"context";
  context ← contextInput w rawContext lim;
  rawSampling ← field input #"sampling";
  sampling ← issuedSampling w rawSampling;
  match find (fun e => jeqb e.1 (targetPath context)) (sampling_selected sampling) with
  | None => Err invalidRelationship
  | Some (_, samplingTarget) =>
      rawConfigurationIdentity ← field input #"configurationIdentity";
      configurationIdentity ← identity w rawConfigurationIdentity lim;
      rawDocuments ← field input #"documents";
      documents ← normalizedDocuments w rawDocuments lim;
      rawTargetIdentity ← field input #"targetIdentity";
      targetIdentity ← identity w rawTargetIdentity lim;
      Ok {| configuration := configuration; configurationIdentity := configurationIdentity;
            context := context; documents := documents; samplingTarget := samplingTarget;
            sampling := sampling; targetIdentity := targetIdentity |}
  end.

(** ** Cancellation *)

Definition abortState (w : World) (read : nat) (v : value) : option bool :=
  match v with
  | VRef l =>
      match world_heap w l with
      | Some {| obj_proxy := false; obj_slots := SignalSlots |} => Some (signal_aborted w l read)
      | _ => None
      end
  | _ => None
  end.

(** [read] counts the answers of the signal during the call. *)
Definition checkCancelled (w : World) (read : nat) (signal : option value) : checked unit :=
  match signal with
  | None => Ok tt
  | Some s => ensure (bool_decide (abortState w read s = Some false)) cancelled
  end.

Definition resolveSignal (w : World) (v : value) : checked (option value) :=
  match v with
  | VUndefined => Ok None
  | _ =>
      record ← dataRecord (world_heap w) v;
      _ ← ensure ((length record <=? 1)%nat && forallb (has_key [ #"signal"]) record) invalidOptions;
      match record with
      | [] => Ok None
      | _ =>
          signal ← field record #"signal";
          match signal with
          | VUndefined => Ok None
          | _ =>
              _ ← ensure (bool_decide (is_Some (abortState w 0 signal))) invalidOptions;
              Ok (Some signal)
          end
      end
  end.

(** ** Dependencies *)

Record ExpectedDependency := { dep_path : jstring; dep_state : availability }.

#[export] Instance ExpectedDependency_eq_dec : EqDecision ExpectedDependency.
Proof. solve_decision. Defined.

Definition addDependency (states : list (jstring * availability)) (d : jstring * availability)
  : checked (list (jstring * availability)) :=
  _ ← ensure (match map_get d.1 states with
              | Some existing => bool_decide (existing = d.2)
              | None => true
              end) invalidRelationship;
  Ok (map_set d.1 d.2 states).

(** What one graph adds, in order. *)
Definition occurrenceDependency (o : ImportDagOccurrence) : option (jstring * availability) :=
  match o_targetPath o with
  | None => None
  | Some path => Some (path, match o_targetDocumentId o with None => unavailable | Some _ => available end)
  end.

Definition dagDependencies (d : DocumentImportDag) : list (jstring * availability) :=
  (if (length (dag_documents d) =? 0)%nat then [(dag_entryPath d, unavailable)] else [])
  ++ map (fun x => (d_path x, available)) (dag_documents d)
  ++ omap occurrenceDependency (dag_occurrences d).

Definition dependency_le (left right : ExpectedDependency) : bool :=
  compareUtf8_le (dep_path left) (dep_path right).

(** A document of the resolution is its path and [contentState]. *)
Definition resolutionDependency (d : jstring * jstring) : jstring * availability :=
  (d.1, if jeqb d.2 #"unavailable" then unavailable else available).

Definition closureEntries (resolutionDocuments : list (jstring * jstring))
    (dags : list DocumentImportDag) : list (jstring * availability) :=
  map resolutionDependency resolutionDocuments ++ mjoin (map dagDependencies dags).

Definition dependencyClosure (resolutionDocuments : list (jstring * jstring))
    (dags : list DocumentImportDag) : checked (list ExpectedDependency) :=
  states ← foldM addDependency [] (closureEntries resolutionDocuments dags);
  Ok (sort_by dependency_le (map (fun s => {| dep_path := s.1; dep_state := s.2 |}) states)).

Definition matches (expected : ExpectedDependency) (actual : NormalizedDocument) : bool :=
  jeqb (dep_path expected) (nd_path actual) && bool_decide (dep_state expected = nd_state actual).

Definition requireExactDependencies (expected : list ExpectedDependency)
    (actual : list NormalizedDocument) : checked unit :=
  ensure ((length expected =? length actual)%nat
          && forallb (fun p => matches p.1 p.2) (zip expected actual)) invalidRelationship.

(** ** The content address *)

Record EffectiveContextCacheKey := {
  configurationSha256 : jstring;
  dependencySha256 : jstring;
  importDagSha256 : jstring;
  key_profileId : value;
  profileResolutionSha256 : jstring;
  key_profileVersion : value;
  samplingSha256 : jstring;
  key_sha256 : jstring;
  sourceIdentitySha256 : jstring;
  key_specSnapshotId : value;
  key_surfaceId : value;
  key_targetPath : jstring
}.

Definition profileFields (h : heap) (profileResolution : value) : value * value * value * value :=
  let profile := get h profileResolution #"profile" in
  (get h profile #"profileId", get h profile #"contractVersion",
   get h profile #"specSnapshotId", get h profile #"surfaceId").

Definition identity_value : option ReadOnlyRepositoryIdentity -> value :=
  of_option (fun i => VRecord [(#"device", VString (device i)); (#"inode", VString (inode i))]).

Definition dependencyRecord (d : NormalizedDocument) : value :=
  VRecord [(#"contentSha256", VText (nd_contentSha256 d)); (#"path", VString (nd_path d));
           (#"size", of_option (fun n => VInteger (Z.of_N n)) (nd_size d));
           (#"state", VString (availability_name (nd_state d)))].

Definition sourceIdentityRecord (r : NormalizedRequest) : value :=
  VRecord [(#"configuration", identity_value (configurationIdentity r));
           (#"documents",
            VArray (map (fun d => VRecord [(#"identity", identity_value (nd_identity d));
                                           (#"path", VString (nd_path d))]) (documents r)));
           (#"target", identity_value (targetIdentity r))].

Definition samplingRecord (r : NormalizedRequest) : value :=
  VRecord [(#"contractVersion", VString TARGET_SAMPLER_CONTRACT_VERSION);
           (#"provenance", sampling_provenance (sampling r));
           (#"state", sampling_state (sampling r));
           (#"strategy", sampling_strategy (sampling r));
           (#"target", samplingTarget r)].

Definition dagsValue (r : NormalizedRequest) : value :=
  VArray (map dag_value (importDags (context r))).

(** The record whose digest is the key. *)
Definition keyRecord (configuration dependency importDag profile sampling sourceIdentity target : jstring)
  : value :=
  VRecord [(#"cacheContractVersion", VString EFFECTIVE_CONTEXT_CACHE_CONTRACT_VERSION);
           (#"configurationSha256", VString configuration);
           (#"dependencySha256", VString dependency);
           (#"effectiveContextContractVersion", VString EFFECTIVE_CONTEXT_CONTRACT_VERSION);
           (#"importDagSha256", VString importDag);
           (#"profileResolutionSha256", VString profile);
           (#"samplingSha256", VString sampling);
           (#"sourceIdentitySha256", VString sourceIdentity);
           (#"targetPath", VString target)].

Definition keyFor `{Sha256} (w : World) (r : NormalizedRequest) (lim : EffectiveContextCacheLimits)
  : checked EffectiveContextCacheKey :=
  let h := world_heap w in
  let '(profileId, profileVersion, specSnapshotId, surfaceId) :=
    profileFields h (profileResolution_ (context r)) in
  configurationSha256 ← canonicalDigest h lim (configuration r);
  dependencySha256 ← canonicalDigest h lim (VArray (map dependencyRecord (documents r)));
  sourceIdentitySha256 ← canonicalDigest h lim (sourceIdentityRecord r);
  importDagSha256 ← canonicalDigest h lim (dagsValue r);
  profileResolutionSha256 ← canonicalDigest h lim (profileResolution_ (context r));
  samplingSha256 ← canonicalDigest h lim (samplingRecord r);
  digest ← canonicalDigest h lim
    (keyRecord configurationSha256 dependencySha256 importDagSha256 profileResolutionSha256
       samplingSha256 sourceIdentitySha256 (targetPath (context r)));
  Ok {| configurationSha256 := configurationSha256; dependencySha256 := dependencySha256;
        importDagSha256 := importDagSha256; key_profileId := profileId;
        profileResolutionSha256 := profileResolutionSha256; key_profileVersion := profileVersion;
        samplingSha256 := samplingSha256; key_sha256 := digest;
        sourceIdentitySha256 := sourceIdentitySha256; key_specSnapshotId := specSnapshotId;
        key_surfaceId := surfaceId; key_targetPath := targetPath (context r) |}.

(** ** The resolver of contexts *)

(** Two inputs with the same data, as it is hashed: graphs, profile resolution
    and target. *)
Definition same_context (w1 : World) (c1 : ResolveEffectiveContextInput)
    (w2 : World) (c2 : ResolveEffectiveContextInput) : Prop :=
  same_encoding (world_heap w1) (VArray (map dag_value (importDags c1)))
            (world_heap w2) (VArray (map dag_value (importDags c2))) /\
  same_encoding (world_heap w1) (profileResolution_ c1) (world_heap w2) (profileResolution_ c2) /\
  utf8 (targetPath c1) = utf8 (targetPath c2).

(** An input made of issued objects, which the resolver accepts. *)
Definition issued_context (w : World) (c : ResolveEffectiveContextInput) : Prop :=
  (exists kind l, profileResolution_ c = VRef l /\ issued_profile w kind l = true) /\
  Forall (fun d => exists l, issued_dag w l = Some d) (importDags c).

(** What the cache relies on: a resolution is issued, and on issued inputs it
    depends on nothing but their data. *)
Class EffectiveContextService (R E : Type) : Type := {
  resolveEffectiveContext : World -> ResolveEffectiveContextInput -> res E R;
  isIssuedEffectiveContextResolution : R -> bool;
  resolution_documents : R -> list (jstring * jstring);
  resolution_json : R -> jstring;
  resolution_issued : forall w c r,
    resolveEffectiveContext w c = Ok r -> isIssuedEffectiveContextResolution r = true;
  resolution_of_data : forall w1 c1 w2 c2,
    issued_context w1 c1 -> issued_context w2 c2 -> same_context w1 c1 w2 c2 ->
    resolveEffectiveContext w1 c1 = resolveEffectiveContext w2 c2
}.

Inductive cache_error (E : Type) := CacheError (code : EffectiveContextCacheErrorCode) | ContextError (e : E).
Arguments CacheError {E} code.
Arguments ContextError {E} e.

Definition lift {E A} (m : checked A) : res (cache_error E) A :=
  match m with Ok a => Ok a | Err e => Err (CacheError e) end.
Definition lift_context {E A} (m : res E A) : res (cache_error E) A :=
  match m with Ok a => Ok a | Err e => Err (ContextError e) end.

(** ** The cache *)

Record CacheEntry (R : Type) := {
  dependencies : list ExpectedDependency;
  resolution : R;
  weightBytes : Z
}.
Arguments dependencies {R} c.
Arguments resolution {R} c.
Arguments weightBytes {R} c.

(** The fields of the class; [entries] is the map in insertion order. *)
Record Cache (R : Type) := {
  entries : list (jstring * CacheEntry R);
  cache_limits : EffectiveContextCacheLimits;
  evictions : N;
  hits : N;
  misses : N;
  oversizedResults : N;
  cache_weightBytes : Z
}.
Arguments entries {R} c.
Arguments cache_limits {R} c.
Arguments evictions {R} c.
Arguments hits {R} c.
Arguments misses {R} c.
Arguments oversizedResults {R} c.
Arguments cache_weightBytes {R} c.

Record EffectiveContextCacheStats := {
  stat_entries : N; stat_evictions : N; stat_hits : N; stat_misses : N;
  stat_oversizedResults : N; stat_weightBytes : Z
}.

Section cache.
Context `{Sha256} `{ConfigurationService} {R E : Type} `{!EffectiveContextService R E}.

Definition empty_cache (lim : EffectiveContextCacheLimits) : Cache R :=
  {| entries := []; cache_limits := lim; evictions := 0; hits := 0; misses := 0;
     oversizedResults := 0; cache_weightBytes := 0 |}.

(** [constructor(options)] *)
Definition new_cache (h : heap) (options : value) : checked (Cache R) :=
  lim ← limits h options;
  Ok (empty_cache lim).

Definition admit_request (lim : EffectiveContextCacheLimits) (w : World) (v options : value)
  : checked (option value * NormalizedRequest * EffectiveContextCacheKey) :=
  signal ← resolveSignal w options;
  _ ← checkCancelled w 1 signal;
  request ← normalizeRequest w v lim;
  key ← keyFor w request lim;
  _ ← checkCancelled w 2 signal;
  Ok (signal, request, key).

(** [key(value, options)] *)
Definition key (c : Cache R) (w : World) (v options : value) : checked EffectiveContextCacheKey :=
  '(_, key) ← admit_request (cache_limits c) w v options;
  Ok key.

Definition dependencyJson (d : ExpectedDependency) : json :=
  JsonObj [(#"path", JsonStr (dep_path d)); (#"state", JsonStr (availability_name (dep_state d)))].

Definition entryWeight (r : R) (expected : list ExpectedDependency) (sha256 : jstring) : Z :=
  Z.of_N (textBytes (resolution_json r) + textBytes (json_text (JsonArr (map dependencyJson expected)))
          + textBytes sha256).

(** The condition of the eviction loop. *)
Definition overCapacity (c : Cache R) (weight : Z) : bool :=
  (maximumEntries (cache_limits c) <=? N.of_nat (length (entries c)))%N
  || (Z.of_N (maximumWeightBytes (cache_limits c)) <? cache_weightBytes c + weight)%Z.

Definition evictOldest (c : Cache R) (oldest : jstring * CacheEntry R) : Cache R :=
  {| entries := map_delete oldest.1 (entries c); cache_limits := cache_limits c;
     evictions := evictions c + 1; hits := hits c; misses := misses c;
     oversizedResults := oversizedResults c;
     cache_weightBytes := cache_weightBytes c - weightBytes oldest.2 |}.

(** The loop; [evict_makes_room] shows one round per entry suffices. *)
Fixpoint evict (fuel : nat) (c : Cache R) (weight : Z) : Cache R :=
  match fuel with
  | O => c
  | S fuel' =>
      if overCapacity c weight then
        match entries c with
        | [] => c
        | oldest :: _ => evict fuel' (evictOldest c oldest) weight
        end
      else c
  end.

Definition store (c : Cache R) (sha256 : jstring) (e : CacheEntry R) : Cache R :=
  {| entries := map_set sha256 e (entries c); cache_limits := cache_limits c;
     evictions := evictions c; hits := hits c; misses := misses c;
     oversizedResults := oversizedResults c;
     cache_weightBytes := cache_weightBytes c + weightBytes e |}.

Definition publish (c : Cache R) (sha256 : jstring) (e : CacheEntry R) : Cache R :=
  if (Z.of_N (maximumEntryBytes (cache_limits c)) <? weightBytes e)%Z then
    {| entries := entries c; cache_limits := cache_limits c; evictions := evictions c;
       hits := hits c; misses := misses c; oversizedResults := oversizedResults c + 1;
       cache_weightBytes := cache_weightBytes c |}
  else store (evict (length (entries c)) c (weightBytes e)) sha256 e.

Definition count_hit (c : Cache R) : Cache R :=
  {| entries := entries c; cache_limits := cache_limits c; evictions := evictions c;
     hits := hits c + 1; misses := misses c; oversizedResults := oversizedResults c;
     cache_weightBytes := cache_weightBytes c |}.

Definition count_miss (c : Cache R) : Cache R :=
  {| entries := entries c; cache_limits := cache_limits c; evictions := evictions c;
     hits := hits c; misses := misses c + 1; oversizedResults := oversizedResults c;
     cache_weightBytes := cache_weightBytes c |}.

(** What a hit answers. *)
Definition reuse (existing : CacheEntry R) (request : NormalizedRequest) : res (cache_error E) R :=
  _ ← lift (requireExactDependencies (dependencies existing) (documents request));
  _ ← ensure (isIssuedEffectiveContextResolution (resolution existing)) (CacheError invalidRelationship);
  Ok (resolution existing).

(** What a miss computes: the resolution with the closure of its dependencies. *)
Definition compute (w : World) (signal : option value) (request : NormalizedRequest)
  : res (cache_error E) (R * list ExpectedDependency) :=
  r ← lift_context (resolveEffectiveContext w (context request));
  _ ← lift (checkCancelled w 3 signal);
  expected ← lift (dependencyClosure (resolution_documents r) (importDags (context request)));
  _ ← lift (requireExactDependencies expected (documents request));
  Ok (r, expected).

Definition answer {A} (r : res (cache_error E) A) (c_ok : A -> Cache R * R) (c_err : Cache R)
  : Cache R * res (cache_error E) R :=
  match r with
  | Ok a => ((c_ok a).1, Ok (c_ok a).2)
  | Err e => (c_err, Err e)
  end.

(** [resolve(value, options)]: a throw leaves the state changed so far. *)
Definition resolve (c : Cache R) (w : World) (v options : value)
  : Cache R * res (cache_error E) R :=
  match admit_request (cache_limits c) w v options with
  | Err e => (c, Err (CacheError e))
  | Ok (signal, request, key) =>
      match map_get (key_sha256 key) (entries c) with
      | Some existing => answer (reuse existing request) (fun r => (count_hit c, r)) c
      | None =>
          let c := count_miss c in
          answer (compute w signal request)
            (fun p => (publish c (key_sha256 key)
                         {| dependencies := p.2; resolution := p.1;
                            weightBytes := entryWeight p.1 p.2 (key_sha256 key) |}, p.1)) c
      end
  end.

Definition clear (c : Cache R) : Cache R :=
  {| entries := []; cache_limits := cache_limits c; evictions := evictions c; hits := hits c;
     misses := misses c; oversizedResults := oversizedResults c; cache_weightBytes := 0 |}.

Definition stats (c : Cache R) : EffectiveContextCacheStats :=
  {| stat_entries := N.of_nat (length (entries c)); stat_evictions := evictions c;
     stat_hits := hits c; stat_misses := misses c; stat_oversizedResults := oversizedResults c;
     stat_weightBytes := cache_weightBytes c |}.

(** A history of the class's public operations. *)
Inductive operation :=
| Resolve (w : World) (v options : value)
| Key (w : World) (v options : value)
| Clear
| Stats.

Inductive response :=
| Resolved (r : res (cache_error E) R)
| Keyed (k : checked EffectiveContextCacheKey)
| Cleared
| Counted (s : EffectiveContextCacheStats).

Definition perform (c : Cache R) (op : operation) : Cache R * response :=
  match op with
  | Resolve w v options => let '(c', r) := resolve c w v options in (c', Resolved r)
  | Key w v options => (c, Keyed (key c w v options))
  | Clear => (clear c, Cleared)
  | Stats => (c, Counted (stats c))
  end.

Definition run (c : Cache R) (ops : list operation) : Cache R :=
  fold_left (fun c op => (perform c op).1) ops c.

(** The same request without a cache. *)
Definition resolveUncached (lim : EffectiveContextCacheLimits) (w : World) (v options : value)
  : res (cache_error E) R :=
  '(signal, request, _) ← lift (admit_request lim w v options);
  '(r, _) ← compute w signal request;
  Ok r.
End cache.
