(* ===== verification/EffectiveContextCacheLaws.v ===== *)
(** Theorems about the effective-context cache: its invariant, eviction, the
    dependency closure, and that it is transparent: whatever the history, it
    answers as if every resolution were computed afresh. *)
From S2P Require Import Prelude JsString OrderedMap Unicode RepositoryPath JsValue Fingerprint Json ImportDag ObjectGraph CanonicalDigest CanonicalDigestLaws EffectiveContextCache.

(** ** Limits *)

Definition limits_ok (l : EffectiveContextCacheLimits) : Prop :=
  Forall (fun k => (1 <= limit_get k l <= limit_get k EFFECTIVE_CONTEXT_CACHE_HARD_LIMITS)%N) LIMIT_KEYS /\
  (maximumEntryBytes l <= maximumWeightBytes l)%N.

Lemma limits_ok_get l k : limits_ok l -> k ∈ LIMIT_KEYS ->
  (1 <= limit_get k l <= limit_get k EFFECTIVE_CONTEXT_CACHE_HARD_LIMITS)%N.
Proof. intros [H _]. rewrite Forall_forall in H. auto. Qed.

(** Setting one limit changes that limit only. *)
Lemma limit_get_set k k' n l : k ∈ LIMIT_KEYS -> k' ∈ LIMIT_KEYS ->
  limit_get k' (limit_set k n l) = limit_get k' l \/ (k' = k /\ limit_get k' (limit_set k n l) = n).
Proof.
  intros Hk Hk'. destruct l. unfold LIMIT_KEYS in Hk, Hk'.
  repeat (apply elem_of_cons in Hk as [->|Hk];
    [repeat (apply elem_of_cons in Hk' as [->|Hk']; [by auto|]); by apply not_elem_of_nil in Hk'|]).
  by apply not_elem_of_nil in Hk.
Qed.

Lemma limit_set_bound k n l :
  k ∈ LIMIT_KEYS -> (1 <= n <= limit_get k EFFECTIVE_CONTEXT_CACHE_HARD_LIMITS)%N ->
  Forall (fun k => (1 <= limit_get k l <= limit_get k EFFECTIVE_CONTEXT_CACHE_HARD_LIMITS)%N) LIMIT_KEYS ->
  Forall (fun k' => (1 <= limit_get k' (limit_set k n l)
                     <= limit_get k' EFFECTIVE_CONTEXT_CACHE_HARD_LIMITS)%N) LIMIT_KEYS.
Proof.
  intros Hk Hn Hl. apply Forall_forall. intros k' Hk'. rewrite Forall_forall in Hl.
  destruct (limit_get_set k k' n l Hk Hk') as [->|[-> ->]]; auto.
Qed.

Lemma limitKeys_known r ks : limitKeys r = Ok ks -> Forall (fun k => k ∈ LIMIT_KEYS) ks.
Proof.
  intros E%rmapM_Ok. induction E as [|p k ps ks Hp _ IH]; constructor; [|done].
  destruct (limit_key_named (prop_key p)) as [k'|] eqn:Hk; [|done]. injection Hp as <-.
  unfold limit_key_named in Hk. destruct (prop_key p); [|done].
  apply find_some in Hk as [Hin _]. by apply list_elem_of_In.
Qed.

Lemma limit_value_bound v maximum n : limit_value v maximum = Ok n -> (1 <= n <= maximum)%N.
Proof.
  unfold limit_value. intros H. destruct v as [| | |[| | |z|]| | | | | |]; try done. res_inv. bool_prop.
  subst. repeat match goal with E : (_ <=? _)%Z = true |- _ => apply Z.leb_le in E end. lia.
Qed.

Lemma limits_default_ok : limits_ok EFFECTIVE_CONTEXT_CACHE_DEFAULT_LIMITS.
Proof. split; [|done]. repeat constructor; cbn; lia. Qed.

Lemma limitsOfRecord_valid r l : limitsOfRecord r = Ok l -> limits_ok l.
Proof.
  unfold limitsOfRecord. intros H. res_inv. subst. bool_prop. split; [|done].
  match goal with E : limitKeys r = Ok _ |- _ => apply limitKeys_known in E; rewrite Forall_forall in E;
    rename E into Hkeys end.
  match goal with E : foldM _ _ _ = Ok l |- _ =>
    apply (foldM_inv (fun _ o => Forall (fun k =>
      (1 <= limit_get k o <= limit_get k EFFECTIVE_CONTEXT_CACHE_HARD_LIMITS)%N) LIMIT_KEYS) _ _ _ _ E) end;
    [apply limits_default_ok|].
  intros _ k o o' Ho Hk Hstep. unfold selectLimit in Hstep. res_inv. subst o'.
  apply limit_set_bound; [by apply Hkeys|by eapply limit_value_bound|done].
Qed.

Lemma limits_valid h v l : limits h v = Ok l -> limits_ok l.
Proof.
  destruct v; cbn [limits]; try (intros [= <-]; apply limits_default_ok);
    intros (r & _ & H)%bind_Ok; by eapply limitsOfRecord_valid.
Qed.

(** ** Eviction *)

Section cache.
Context `{Sha256} `{ConfigurationService} {R E : Type} `{!EffectiveContextService R E}.
Implicit Types c : Cache R.

Definition weight_sum (l : list (jstring * CacheEntry R)) : Z :=
  foldr (fun e z => weightBytes e.2 + z)%Z 0%Z l.

Arguments weight_sum : simpl never.

Lemma weight_sum_app l k : weight_sum (l ++ k) = (weight_sum l + weight_sum k)%Z.
Proof. unfold weight_sum. induction l as [|e l IH]; cbn; [done|]. rewrite IH. lia. Qed.

(** The books balance: keys are unique, the weight is the sum of the weights of
    the entries, and no entry is heavier than an entry may be. *)
Record accounted (c : Cache R) : Prop := {
  acc_limits : limits_ok (cache_limits c);
  acc_keys : NoDup (map fst (entries c));
  acc_weights : Forall (fun e => (0 <= weightBytes e.2 <= Z.of_N (maximumEntryBytes (cache_limits c)))%Z)
                       (entries c);
  acc_sum : cache_weightBytes c = weight_sum (entries c)
}.

(** The cache with its [n] oldest entries evicted. *)
Definition without_oldest (n : nat) (c : Cache R) : Cache R :=
  {| entries := drop n (entries c); cache_limits := cache_limits c;
     evictions := evictions c + N.of_nat n; hits := hits c; misses := misses c;
     oversizedResults := oversizedResults c;
     cache_weightBytes := cache_weightBytes c - weight_sum (take n (entries c)) |}.

Lemma without_none c : without_oldest 0 c = c.
Proof. destruct c. unfold without_oldest. cbn. rewrite N.add_0_r, Z.sub_0_r. done. Qed.

Lemma evictOldest_without c e r : NoDup (map fst (entries c)) -> entries c = e :: r ->
  evictOldest c e = without_oldest 1 c.
Proof.
  intros Hnd He. unfold evictOldest, without_oldest. rewrite He in *. destruct e as [k x].
  cbn [fst snd]. rewrite (map_delete_head k x r Hnd). cbn. unfold weight_sum. cbn. rewrite Z.add_0_r. done.
Qed.

Lemma without_without n m c : without_oldest n (without_oldest m c) = without_oldest (m + n) c.
Proof.
  unfold without_oldest. cbn. rewrite drop_drop. f_equal; [lia|].
  rewrite <- (take_take_drop (entries c) m n), weight_sum_app. lia.
Qed.

Lemma accounted_without n c : accounted c -> accounted (without_oldest n c).
Proof.
  intros [Hl Hk Hw Hs]. constructor; cbn; [done| | |].
  - rewrite <- (take_drop n (entries c)), map_app in Hk. by apply NoDup_app in Hk as (_ & _ & ?).
  - by apply Forall_drop.
  - pose proof (weight_sum_app (take n (entries c)) (drop n (entries c))) as Ht.
    rewrite take_drop in Ht. rewrite Hs, Ht. lia.
Qed.

(** An empty cache has room for any entry that is not oversized. *)
Lemma empty_has_room c w : accounted c -> entries c = [] ->
  (w <= Z.of_N (maximumEntryBytes (cache_limits c)))%Z -> overCapacity c w = false.
Proof.
  intros [[Hl Hmax] _ _ Hs] He Hw. unfold overCapacity. rewrite He in *. rewrite Hs.
  apply orb_false_iff. split.
  - apply N.leb_gt. cbn.
    rewrite Forall_forall in Hl. specialize (Hl {| limit_name := #"maximumEntries"; limit_get := maximumEntries;
      limit_set n '(Build_EffectiveContextCacheLimits a b c d _ f g h i) :=
       Build_EffectiveContextCacheLimits a b c d n f g h i |}).
    cbn [limit_get] in Hl. enough (1 <= maximumEntries (cache_limits c))%N by lia. apply Hl.
    unfold LIMIT_KEYS. do 4 right. left.
  - apply Z.ltb_ge. unfold weight_sum. cbn. lia.
Qed.

(** The loop evicts in insertion order, no more than needed, until there is room. *)
Lemma evict_spec fuel c w :
  accounted c -> (w <= Z.of_N (maximumEntryBytes (cache_limits c)))%Z ->
  (length (entries c) <= fuel)%nat ->
  exists n, (n <= length (entries c))%nat /\ evict fuel c w = without_oldest n c /\
    overCapacity (without_oldest n c) w = false /\
    forall m, (m < n)%nat -> overCapacity (without_oldest m c) w = true.
Proof.
  revert c. induction fuel as [|fuel IH]; intros c Hc Hw Hf; cbn [evict].
  - assert (entries c = []) as He by (by apply length_zero_iff_nil; lia).
    exists 0%nat. rewrite without_none. split_and!; [lia|done|by apply empty_has_room|lia].
  - destruct (overCapacity c w) eqn:Hover.
    2: { exists 0%nat. rewrite without_none. split_and!; [lia|done|done|lia]. }
    destruct (entries c) as [|e r] eqn:He; [by rewrite empty_has_room in Hover|].
    rewrite (evictOldest_without c e r) by (by try apply Hc).
    destruct (IH (without_oldest 1 c)) as (n & Hn & -> & Hroom & Hmin).
    + by apply accounted_without.
    + done.
    + cbn. rewrite He. cbn in *. rewrite drop_0. lia.
    + rewrite without_without in *. exists (S n). split_and!; [|done|done|].
      * cbn in Hn. rewrite He in Hn. cbn in *. rewrite drop_0 in Hn. lia.
      * intros [|m] Hm; [by rewrite without_none|]. specialize (Hmin m). rewrite without_without in Hmin.
        apply Hmin. lia.
Qed.

(** Publishing an entry under a new key: it is skipped when oversized, and
    otherwise appended after the fewest evictions that make room. *)
Inductive published (c : Cache R) (k : jstring) (e : CacheEntry R) : Cache R -> Prop :=
| published_oversized :
    (Z.of_N (maximumEntryBytes (cache_limits c)) < weightBytes e)%Z ->
    published c k e {| entries := entries c; cache_limits := cache_limits c;
      evictions := evictions c; hits := hits c; misses := misses c;
      oversizedResults := oversizedResults c + 1; cache_weightBytes := cache_weightBytes c |}
| published_stored n :
    (weightBytes e <= Z.of_N (maximumEntryBytes (cache_limits c)))%Z ->
    (n <= length (entries c))%nat ->
    overCapacity (without_oldest n c) (weightBytes e) = false ->
    (forall m, (m < n)%nat -> overCapacity (without_oldest m c) (weightBytes e) = true) ->
    published c k e {| entries := drop n (entries c) ++ [(k, e)]; cache_limits := cache_limits c;
      evictions := evictions c + N.of_nat n; hits := hits c; misses := misses c;
      oversizedResults := oversizedResults c;
      cache_weightBytes := cache_weightBytes (without_oldest n c) + weightBytes e |}.

Lemma publish_spec c k e :
  accounted c -> k ∉ map fst (entries c) -> published c k e (publish c k e).
Proof.
  intros Hc Hk. unfold publish. destruct (Z.ltb_spec (Z.of_N (maximumEntryBytes (cache_limits c))) (weightBytes e)).
  - by constructor.
  - destruct (evict_spec (length (entries c)) c (weightBytes e)) as (n & Hn & -> & Hroom & Hmin);
      [done..|].
    unfold store. cbn [entries without_oldest]. rewrite map_set_new; [by apply (published_stored c k e n)|].
    intros Hin. apply Hk. rewrite <- (take_drop n (entries c)), map_app. set_solver.
Qed.

(** What every reachable cache satisfies. *)
Record consistent (c : Cache R) : Prop := {
  con_accounted : accounted c;
  con_entries : (N.of_nat (length (entries c)) <= maximumEntries (cache_limits c))%N;
  con_weight : (0 <= cache_weightBytes c <= Z.of_N (maximumWeightBytes (cache_limits c)))%Z;
  con_counters : (N.of_nat (length (entries c)) + evictions c + oversizedResults c <= misses c)%N
}.

Lemma weight_sum_nonneg (l : list (jstring * CacheEntry R)) m :
  Forall (fun e => (0 <= weightBytes e.2 <= m)%Z) l -> (0 <= weight_sum l)%Z.
Proof. unfold weight_sum. induction 1; cbn; lia. Qed.

Lemma empty_consistent lim : limits_ok lim -> consistent (empty_cache (R:=R) lim).
Proof.
  intros Hl. constructor; cbn; try lia. constructor; cbn; [done|constructor|constructor|done].
Qed.

Lemma published_accounted c k e c' :
  accounted c -> k ∉ map fst (entries c) -> (0 <= weightBytes e)%Z ->
  published c k e c' -> accounted c'.
Proof.
  intros [Hl Hnd Hw Hs] Hk He [Hbig|n Hsmall Hn Hroom Hmin].
  - by constructor.
  - destruct (accounted_without n c) as [_ Hnd' Hw' Hs']; [by constructor|].
    constructor; cbn [entries cache_limits cache_weightBytes] in *; [done| | |].
    + rewrite map_app. apply NoDup_app. split_and!; [done| |by apply NoDup_singleton].
      intros x Hx ->%list_elem_of_singleton. apply Hk.
      rewrite <- (take_drop n (entries c)), map_app. set_solver.
    + apply Forall_app. split; [done|]. constructor; [cbn; lia|constructor].
    + rewrite weight_sum_app. rewrite Hs'. unfold weight_sum at 3. cbn. lia.
Qed.

Lemma published_consistent c k e c' :
  accounted c -> k ∉ map fst (entries c) -> (0 <= weightBytes e)%Z ->
  consistent c -> published (count_miss c) k e c' -> consistent c'.
Proof.
  intros Ha Hk He [_ Hn Hw Hcnt] Hp.
  assert (accounted (count_miss c)) as Ha' by (by destruct Ha; constructor).
  assert (accounted c') as Hacc by (by eapply published_accounted).
  constructor; [done|..]; destruct Hp as [Hbig|n Hsmall Hn' Hroom Hmin]; cbn in *; try lia;
    unfold overCapacity in Hroom; cbn in Hroom; apply orb_false_iff in Hroom as [Hr1 Hr2];
    apply N.leb_gt in Hr1; apply Z.ltb_ge in Hr2.
  - rewrite length_app. cbn. lia.
  - destruct Hacc as [_ _ Hws Hsum]. cbn in *. split; [|lia].
    rewrite Hsum. by eapply weight_sum_nonneg.
  - rewrite length_app, length_drop. cbn. lia.
Qed.

Lemma entryWeight_nonneg r expected k : (0 <= entryWeight r expected k)%Z.
Proof. unfold entryWeight. lia. Qed.

(** The two ways [resolve] changes the state. *)
Inductive resolve_step (c : Cache R) (w : World) (v options : value)
  : Cache R -> res (cache_error E) R -> Prop :=
| step_refused e :
    admit_request (cache_limits c) w v options = Err e ->
    resolve_step c w v options c (Err (CacheError e))
| step_hit signal request key existing r :
    admit_request (cache_limits c) w v options = Ok (signal, request, key) ->
    map_get (key_sha256 key) (entries c) = Some existing ->
    reuse existing request = r ->
    resolve_step c w v options (if is_ok r then count_hit c else c) r
| step_failed signal request key e :
    admit_request (cache_limits c) w v options = Ok (signal, request, key) ->
    map_get (key_sha256 key) (entries c) = None ->
    compute w signal request = Err e ->
    resolve_step c w v options (count_miss c) (Err e)
| step_computed signal request key r expected c' :
    admit_request (cache_limits c) w v options = Ok (signal, request, key) ->
    map_get (key_sha256 key) (entries c) = None ->
    compute w signal request = Ok (r, expected) ->
    c' = publish (count_miss c) (key_sha256 key)
           {| dependencies := expected; resolution := r;
              weightBytes := entryWeight r expected (key_sha256 key) |} ->
    resolve_step c w v options c' (Ok r).

Lemma resolve_steps c w v options :
  resolve_step c w v options (resolve c w v options).1 (resolve c w v options).2.
Proof.
  unfold resolve. destruct (admit_request _ _ _ _) as [[[signal request] key]|e] eqn:Ha;
    [|by apply step_refused].
  destruct (map_get _ _) as [existing|] eqn:Hg.
  - pose proof (step_hit c w v options signal request key existing _ Ha Hg eq_refl) as Hs.
    destruct (reuse existing request); exact Hs.
  - destruct (compute w signal request) as [[r expected]|e] eqn:Hc; cbn [answer fst snd].
    + by eapply step_computed.
    + by eapply step_failed.
Qed.

Lemma perform_consistent c op : consistent c -> consistent (perform c op).1.
Proof.
  intros Hc. destruct op as [w v options| | |]; cbn; [|done| |done].
  - pose proof (resolve_steps c w v options) as Hs.
    destruct (resolve c w v options) as [c' r]. cbn in *.
    destruct Hs as [e He|signal request key existing r Ha Hg Hr|signal request key e Ha Hg Hr
                   |signal request key r expected c' Ha Hg Hr ->]; [done| | |].
    + destruct (is_ok r); [|done]. destruct Hc as [[? ? ? ?] ? ? ?]. constructor; [by constructor|done..].
    + destruct Hc as [[? ? ? ?] ? ? ?]. constructor; cbn; [by constructor|done|done|lia].
    + apply map_get_None in Hg.
      eapply published_consistent; [apply Hc|exact Hg| |exact Hc|apply publish_spec; [|exact Hg]].
      * apply entryWeight_nonneg.
      * by destruct Hc as [[] _ _ _]; constructor.
  - destruct Hc as [[? ? ? ?] ? ? ?]. constructor; cbn; [|lia..].
    constructor; cbn; [done|constructor|constructor|done].
Qed.

Lemma publish_limits c k e : cache_limits (publish c k e) = cache_limits c.
Proof.
  unfold publish. destruct (_ <? _)%Z; [done|]. cbn [cache_limits store].
  generalize (length (entries c)) as fuel. intros fuel. revert c.
  induction fuel as [|fuel IH]; intros c; cbn [evict]; [done|].
  destruct (overCapacity c _); [|done]. destruct (entries c); [done|]. by rewrite IH.
Qed.

Lemma perform_limits c op : cache_limits (perform c op).1 = cache_limits c.
Proof.
  destruct op as [w v options| | |]; cbn; try done.
  pose proof (resolve_steps c w v options) as Hs.
  destruct (resolve c w v options) as [c' r]. cbn in *. destruct Hs; try done.
  - by destruct (is_ok r).
  - subst c'. by rewrite publish_limits.
Qed.

(** ** Histories *)

Lemma run_snoc c ops op : run c (ops ++ [op]) = (perform (run c ops) op).1.
Proof. unfold run. by rewrite fold_left_app. Qed.

Lemma run_limits c ops : cache_limits (run c ops) = cache_limits c.
Proof.
  induction ops as [|op ops IH] using rev_ind; [done|]. by rewrite run_snoc, perform_limits.
Qed.

Lemma new_cache_empty h options c :
  new_cache h options = Ok c -> exists lim, c = empty_cache lim /\ limits_ok lim.
Proof. unfold new_cache. intros Hc. res_inv. subst. eexists. split; [done|by eapply limits_valid]. Qed.

Lemma run_consistent lim ops : limits_ok lim -> consistent (run (empty_cache (R:=R) lim) ops).
Proof.
  intros Hl. induction ops as [|op ops IH] using rev_ind; [by apply empty_consistent|].
  rewrite run_snoc. by apply perform_consistent.
Qed.

(** C28. Whatever operations a cache has performed, its weight is the sum of the
    weights of its entries, and it never holds more entries, more weight, or a
    heavier entry than its limits allow; what was evicted or skipped was
    computed by a miss first. *)
Theorem cache_invariant h options c ops :
  new_cache h options = Ok c -> consistent (run c ops).
Proof. intros (lim & -> & Hl)%new_cache_empty. by apply run_consistent. Qed.

(** Storing a computed resolution ends with room for it: the eviction loop
    removes the oldest entries, in insertion order and no more than needed, and
    the new entry is the youngest; an oversized result changes no entry. *)
Theorem publish_evicts_oldest h options c ops k e :
  new_cache h options = Ok c -> k ∉ map fst (entries (run c ops)) ->
  published (run c ops) k e (publish (run c ops) k e).
Proof.
  intros (lim & -> & Hl)%new_cache_empty Hk. apply publish_spec; [|done]. by apply run_consistent.
Qed.
End cache.

(** ** The key determines the data of the input *)

Section key.
Context `{Sha256}.

(** The digested values of a request whose messages the key commits to. *)
Definition committed (r : NormalizedRequest) (k : EffectiveContextCacheKey) : list value :=
  [keyRecord (configurationSha256 k) (dependencySha256 k) (importDagSha256 k)
     (profileResolutionSha256 k) (samplingSha256 k) (sourceIdentitySha256 k) (key_targetPath k);
   dagsValue r; profileResolution_ (context r)].

(** Two corresponding values of two requests have different messages with one
    SHA-256 digest. *)
Definition key_collision (lim : EffectiveContextCacheLimits) (w1 : World) (r1 : NormalizedRequest)
    (k1 : EffectiveContextCacheKey) (w2 : World) (r2 : NormalizedRequest)
    (k2 : EffectiveContextCacheKey) : Prop :=
  exists i v1 v2 m1 m2,
    committed r1 k1 !! i = Some v1 /\ committed r2 k2 !! i = Some v2 /\
    canonicalMessage (world_heap w1) lim v1 = Ok m1 /\
    canonicalMessage (world_heap w2) lim v2 = Ok m2 /\
    m1 <> m2 /\ sha256 m1 = sha256 m2.

Lemma keyFor_committed w r lim k : keyFor w r lim = Ok k ->
  canonicalDigest (world_heap w) lim
    (keyRecord (configurationSha256 k) (dependencySha256 k) (importDagSha256 k)
       (profileResolutionSha256 k) (samplingSha256 k) (sourceIdentitySha256 k) (key_targetPath k))
  = Ok (key_sha256 k) /\
  canonicalDigest (world_heap w) lim (dagsValue r) = Ok (importDagSha256 k) /\
  canonicalDigest (world_heap w) lim (profileResolution_ (context r)) = Ok (profileResolutionSha256 k) /\
  key_targetPath k = targetPath (context r).
Proof.
  unfold keyFor. destruct (profileFields _ _) as [[[? ?] ?] ?]. intros Hk. res_inv. by subst k.
Qed.

Lemma canonicalDigest_Ok h lim v d : canonicalDigest h lim v = Ok d ->
  exists m, canonicalMessage h lim v = Ok m /\ d = hex (sha256 m).
Proof.
  unfold canonicalDigest. destruct (canonicalMessage h lim v) as [m|]; cbn; [|done].
  intros [= <-]. by exists m.
Qed.

Lemma hex_sha256_text_inj m1 m2 : utf8 (hex (sha256 m1)) = utf8 (hex (sha256 m2)) -> sha256 m1 = sha256 m2.
Proof.
  rewrite !utf8_ascii by (apply hex_ascii, sha256_bytes). apply hex_inj; apply sha256_bytes.
Qed.

(** Equal digests: the same data, or two messages that collide. *)
Lemma digest_data h1 lim v1 d1 h2 v2 d2 :
  canonicalDigest h1 lim v1 = Ok d1 -> canonicalDigest h2 lim v2 = Ok d2 ->
  utf8 d1 = utf8 d2 ->
  same_encoding h1 v1 h2 v2 \/
  exists m1 m2, canonicalMessage h1 lim v1 = Ok m1 /\ canonicalMessage h2 lim v2 = Ok m2 /\
    m1 <> m2 /\ sha256 m1 = sha256 m2.
Proof.
  intros (m1 & M1 & ->)%canonicalDigest_Ok (m2 & M2 & ->)%canonicalDigest_Ok Hd%hex_sha256_text_inj.
  destruct (decide (m1 = m2)) as [Heq|Hne]; [left|right; by exists m1, m2].
  by apply (canonicalMessage_encoding h1 lim v1 m1 h2 lim v2 m2).
Qed.

Lemma same_key w1 r1 k1 w2 r2 k2 lim :
  keyFor w1 r1 lim = Ok k1 -> keyFor w2 r2 lim = Ok k2 -> key_sha256 k1 = key_sha256 k2 ->
  same_context w1 (context r1) w2 (context r2) \/ key_collision lim w1 r1 k1 w2 r2 k2.
Proof.
  intros (K1 & D1 & P1 & T1)%keyFor_committed (K2 & D2 & P2 & T2)%keyFor_committed Heq.
  destruct (digest_data _ _ _ _ _ _ _ K1 K2) as [Hkey|(m1 & m2 & ?)]; [by rewrite Heq| |].
  2: { right. exists 0%nat. eexists _, _, m1, m2. done. }
  assert (same_encoding (world_heap w1) (VString (importDagSha256 k1))
            (world_heap w2) (VString (importDagSha256 k2))) as [HD _]%same_encoding_string.
  { eapply (same_encoding_field _ _ _ _ #"importDagSha256" _ _ Hkey); [done..|].
    by apply (list_elem_of_lookup_2 _ 4). }
  assert (same_encoding (world_heap w1) (VString (profileResolutionSha256 k1))
            (world_heap w2) (VString (profileResolutionSha256 k2))) as [HP _]%same_encoding_string.
  { eapply (same_encoding_field _ _ _ _ #"profileResolutionSha256" _ _ Hkey); [done..|].
    by apply (list_elem_of_lookup_2 _ 5). }
  assert (same_encoding (world_heap w1) (VString (key_targetPath k1))
            (world_heap w2) (VString (key_targetPath k2))) as [HT _]%same_encoding_string.
  { eapply (same_encoding_field _ _ _ _ #"targetPath" _ _ Hkey); [done..|].
    by apply (list_elem_of_lookup_2 _ 8). }
  rewrite T1, T2 in HT.
  destruct (digest_data _ _ _ _ _ _ _ D1 D2 HD) as [HDags|(m1 & m2 & ?)].
  2: { right. exists 1%nat. eexists _, _, m1, m2. done. }
  destruct (digest_data _ _ _ _ _ _ _ P1 P2 HP) as [HProfile|(m1 & m2 & ?)].
  2: { right. exists 2%nat. eexists _, _, m1, m2. done. }
  by left.
Qed.
End key.

(** ** The data of a graph determines its dependencies *)

Lemma same_encoding_nullness h1 s1 h2 s2 :
  same_encoding h1 (VText s1) h2 (VText s2) -> s1 = None <-> s2 = None.
Proof.
  intros (d & U1 & U2). destruct s1, s2; cbn in *; try done;
    inversion U1; subst; try done; inversion U2; subst; done.
Qed.

Definition path_units (o : option jstring) : Prop := forall s, o = Some s -> js_units s.

Lemma occurrence_data h1 o1 h2 o2 :
  same_encoding h1 (occurrence_value o1) h2 (occurrence_value o2) ->
  path_units (o_targetPath o1) -> path_units (o_targetPath o2) ->
  occurrenceDependency o1 = occurrenceDependency o2.
Proof.
  intros Hs Hu1 Hu2.
  assert (o_targetPath o1 = o_targetPath o2) as Hpath.
  { eapply same_encoding_text_option; [done..|].
    eapply (same_encoding_field _ _ _ _ #"targetPath" _ _ Hs); [done..|].
    by apply (list_elem_of_lookup_2 _ 10). }
  assert (o_targetDocumentId o1 = None <-> o_targetDocumentId o2 = None) as Hid.
  { eapply same_encoding_nullness.
    eapply (same_encoding_field _ _ _ _ #"targetDocumentId" _ _ Hs); [done..|].
    by apply (list_elem_of_lookup_2 _ 9). }
  unfold occurrenceDependency. rewrite Hpath. destruct (o_targetPath o2); [|done].
  destruct (o_targetDocumentId o1), (o_targetDocumentId o2); try done; [by destruct Hid as [_ Hid]; specialize (Hid eq_refl)|by destruct Hid as [Hid _]; specialize (Hid eq_refl)].
Qed.

Lemma document_data h1 d1 h2 d2 :
  same_encoding h1 (document_value d1) h2 (document_value d2) ->
  js_units (d_path d1) -> js_units (d_path d2) -> d_path d1 = d_path d2.
Proof.
  intros Hs Hu1 Hu2. eapply same_encoding_text; [done..|].
  eapply (same_encoding_field _ _ _ _ #"path" _ _ Hs); [done..|].
  by apply (list_elem_of_lookup_2 _ 4).
Qed.

Lemma Forall2_map_eq {A B C} (R : B -> B -> Prop) (f : A -> B) (g : A -> C) (P : A -> Prop) l1 l2 :
  Forall2 R (map f l1) (map f l2) -> Forall P l1 -> Forall P l2 ->
  (forall a b, R (f a) (f b) -> P a -> P b -> g a = g b) -> map g l1 = map g l2.
Proof.
  revert l2. induction l1 as [|a l1 IH]; intros [|b l2] H H1 H2 Hg; inversion H; subst; [done|].
  inversion H1; inversion H2; subst. cbn. f_equal; auto.
Qed.

Lemma omap_mjoin_map {A B} (f : A -> option B) l : omap f l = mjoin (map (fun x => option_list (f x)) l).
Proof. induction l as [|x l IH]; cbn; [done|]. rewrite IH. by destruct (f x). Qed.

Lemma dag_data h1 d1 h2 d2 :
  same_encoding h1 (dag_value d1) h2 (dag_value d2) ->
  Forall js_units (dag_paths d1) -> Forall js_units (dag_paths d2) ->
  dagDependencies d1 = dagDependencies d2.
Proof.
  intros Hs Hu1 Hu2. unfold dag_paths in Hu1, Hu2.
  apply Forall_cons in Hu1 as [He1 [Hd1 Ho1]%Forall_app]. apply Forall_cons in Hu2 as [He2 [Hd2 Ho2]%Forall_app].
  assert (dag_entryPath d1 = dag_entryPath d2) as Hentry.
  { eapply same_encoding_text; [done..|]. eapply (same_encoding_field _ _ _ _ #"entryPath" _ _ Hs); [done..|].
    by apply (list_elem_of_lookup_2 _ 5). }
  assert (map d_path (dag_documents d1) = map d_path (dag_documents d2)) as Hdocs.
  { eapply (Forall2_map_eq _ document_value _ (fun d => js_units (d_path d))).
    - apply (same_encoding_array h1 _ h2 _).
      eapply (same_encoding_field _ _ _ _ #"documents" _ _ Hs); [done..|].
      by apply (list_elem_of_lookup_2 _ 3).
    - by rewrite Forall_map in Hd1.
    - by rewrite Forall_map in Hd2.
    - intros a b. apply document_data. }
  assert (omap occurrenceDependency (dag_occurrences d1) = omap occurrenceDependency (dag_occurrences d2)) as Hocc.
  { rewrite !omap_mjoin_map. f_equal.
    assert (forall l, Forall js_units (omap o_targetPath l) -> Forall (fun o => path_units (o_targetPath o)) l) as Hopt.
    { intros l Hl. apply Forall_forall. intros o Hin s Hos. rewrite Forall_forall in Hl. apply Hl.
      apply list_elem_of_omap. eauto. }
    eapply (Forall2_map_eq _ occurrence_value _ (fun o => path_units (o_targetPath o))).
    - apply (same_encoding_array h1 _ h2 _).
      eapply (same_encoding_field _ _ _ _ #"occurrences" _ _ Hs); [done..|].
      by apply (list_elem_of_lookup_2 _ 8).
    - auto.
    - auto.
    - intros a b Hab Ha Hb. cbn. by rewrite (occurrence_data _ _ _ _ Hab Ha Hb). }
  unfold dagDependencies. rewrite Hentry, Hocc.
  assert (length (dag_documents d1) = length (dag_documents d2)) as ->
    by (rewrite <- (length_map d_path), Hdocs; apply length_map).
  do 2 f_equal. change (map (fun x => (d_path x, available)) (dag_documents d1)) with
    (map (fun d => (fun p => (p, available)) (d_path d)) (dag_documents d1)).
  rewrite <- (map_map d_path (fun p => (p, available))), Hdocs. apply map_map.
Qed.

(** Resolutions and graphs with the same data have the same closure. *)
Lemma closure_data w1 c1 w2 c2 docs :
  same_context w1 c1 w2 c2 -> issued_context w1 c1 -> issued_context w2 c2 ->
  dependencyClosure docs (importDags c1) = dependencyClosure docs (importDags c2).
Proof.
  intros (Hd & _) [_ H1] [_ H2]. unfold dependencyClosure, closureEntries.
  apply same_encoding_array in Hd. do 4 f_equal.
  eapply (Forall2_map_eq _ dag_value _ (fun d => Forall js_units (dag_paths d))); [exact Hd|..].
  - eapply Forall_impl; [exact H1|]. cbn. intros d (l & Hl). by eapply issued_dag_units.
  - eapply Forall_impl; [exact H2|]. cbn. intros d (l & Hl). by eapply issued_dag_units.
  - intros a b. apply dag_data.
Qed.

(** ** Transparency *)

Section transparency.
Context `{Sha256} `{ConfigurationService} {R E : Type} `{!EffectiveContextService R E}.

Lemma contextInput_issued w v lim c : contextInput w v lim = Ok c -> issued_context w c.
Proof.
  unfold contextInput. intros Hc. res_inv. subst c. split; cbn.
  - match goal with E : profileResolution _ _ = Ok _ |- _ => rename E into Hp end.
    unfold profileResolution in Hp. res_inv.
    destruct (find _ _) as [[name kind]|]; [|done]. match type of Hp with context [match ?x with _ => _ end] =>
      destruct x as [| | | | | | |l| |]; try done end.
    res_inv. subst. eauto.
  - match goal with E : rmapM (issuedDag w) _ = Ok _ |- _ => rename E into Hd end.
    apply rmapM_Ok in Hd. apply Forall_forall. intros d Hin.
    apply list_elem_of_lookup in Hin as (i & Hi). destruct (Forall2_lookup_r _ _ _ i d Hd Hi) as (x & _ & Hx).
    unfold issuedDag in Hx. destruct x as [| | | | | | |l| |]; try done. exists l.
    destruct (issued_dag w l); [|done]. by injection Hx as ->.
Qed.

Lemma normalizeRequest_issued w v lim r : normalizeRequest w v lim = Ok r -> issued_context w (context r).
Proof.
  unfold normalizeRequest. intros Hr. res_inv.
  destruct (find _ _) as [[path target]|]; [|done]. res_inv. subst r. cbn.
  by eapply contextInput_issued.
Qed.

Lemma admit_request_inv lim w v options signal r k :
  admit_request lim w v options = Ok (signal, r, k) ->
  issued_context w (context r) /\ keyFor w r lim = Ok k /\ checkCancelled w 2 signal = Ok tt.
Proof.
  unfold admit_request. intros Ha. res_inv. simplify_eq. split_and!; [|done|done].
  by eapply normalizeRequest_issued.
Qed.

(** Every entry was computed by an earlier operation. *)
Definition computed_by (lim : EffectiveContextCacheLimits) (ops : list operation)
    (k : jstring) (e : CacheEntry R) : Prop :=
  exists w v options signal r key,
    Resolve w v options ∈ ops /\ admit_request lim w v options = Ok (signal, r, key) /\
    key_sha256 key = k /\ compute (E:=E) w signal r = Ok (resolution e, dependencies e).

Lemma computed_by_mono lim ops op k e : computed_by lim ops k e -> computed_by lim (ops ++ [op]) k e.
Proof. intros (w & v & o & s & r & key & Hin & ?). exists w, v, o, s, r, key. set_solver. Qed.

Lemma run_computed lim ops : limits_ok lim ->
  Forall (fun e => computed_by lim ops e.1 e.2) (entries (run (R:=R) (E:=E) (empty_cache lim) ops)).
Proof.
  intros Hl. induction ops as [|op ops IH] using rev_ind; [constructor|].
  rewrite run_snoc.
  assert (Forall (fun e => computed_by lim (ops ++ [op]) e.1 e.2) (entries (run (R:=R) (E:=E) (empty_cache lim) ops))) as IH'.
  { eapply Forall_impl; [exact IH|]. intros e. apply computed_by_mono. }
  pose proof (run_consistent (E:=E) lim ops Hl) as Hcon.
  pose proof (run_limits (E:=E) (empty_cache lim) ops) as Hlim. cbn in Hlim.
  destruct op as [w v options| | |]; cbn [perform]; [|done|constructor|done].
  pose proof (resolve_steps (E:=E) (run (empty_cache lim) ops) w v options) as Hs.
  destruct (resolve _ w v options) as [c' r]. cbn [fst snd] in *.
  destruct Hs as [e He|signal request key existing r Ha Hg Hr|signal request key e Ha Hg Hr
                 |signal request key r expected c' Ha Hg Hr ->]; [done|by destruct (is_ok r)|done|].
  apply map_get_None in Hg.
  assert (accounted (count_miss (run (R:=R) (E:=E) (empty_cache lim) ops))) as Hacc
    by (destruct Hcon as [[] _ _ _]; by constructor).
  destruct (publish_spec _ (key_sha256 key) {| dependencies := expected; resolution := r;
    weightBytes := entryWeight r expected (key_sha256 key) |} Hacc Hg) as [Hbig|n Hsmall Hn Hroom Hmin];
    cbn [entries count_miss] in *; [done|].
  apply Forall_app. split; [by apply Forall_drop|]. constructor; [|constructor]. cbn [fst snd].
  rewrite Hlim in Ha. exists w, v, options, signal, request, key.
  split_and!; [set_solver|done..].
Qed.

(** An earlier request of the history collides with the request. *)
Definition history_collision (lim : EffectiveContextCacheLimits) (ops : list operation)
    (w : World) (v options : value) : Prop :=
  exists w0 v0 options0 signal0 r0 k0 signal r k,
    Resolve w0 v0 options0 ∈ ops /\
    admit_request lim w0 v0 options0 = Ok (signal0, r0, k0) /\
    admit_request lim w v options = Ok (signal, r, k) /\
    key_sha256 k0 = key_sha256 k /\ key_collision lim w0 r0 k0 w r k.

(** The signal of the call gives one answer. *)
Definition steady (w : World) : Prop := forall l n m, signal_aborted w l n = signal_aborted w l m.

Lemma steady_check w n m signal : steady w -> checkCancelled w n signal = checkCancelled w m signal.
Proof.
  intros Hs. destruct signal as [s|]; [|done]. cbn. unfold abortState. destruct s; try done.
  by rewrite (Hs l n m).
Qed.

(** The hit path answers as the miss path would. *)
Lemma reuse_compute w0 r0 s0 e w signal r :
  compute w0 s0 r0 = Ok (resolution e, dependencies e) ->
  issued_context w0 (context r0) -> issued_context w (context r) ->
  same_context w0 (context r0) w (context r) ->
  checkCancelled w 3 signal = Ok tt ->
  reuse (E:=E) e r = ('(x, _) ← compute w signal r; Ok x).
Proof.
  intros Hc Hi0 Hi Hsame Hcheck. unfold compute in Hc.
  apply bind_Ok in Hc as (x & Hx & Hc). res_inv. simplify_eq.
  assert (resolveEffectiveContext (R:=R) (E:=E) w0 (context r0) = Ok (resolution e)) as Hres.
  { destruct (resolveEffectiveContext w0 (context r0)); cbn in Hx; [|done]. congruence. }
  unfold compute. rewrite <- (resolution_of_data w0 (context r0) w (context r)) by done.
  rewrite Hres. cbn [lift_context mbind res_mbind]. rewrite Hcheck. cbn [lift mbind res_mbind].
  rewrite <- (closure_data w0 (context r0) w (context r)) by done.
  match goal with E : lift (dependencyClosure _ _) = Ok _ |- _ =>
    destruct (dependencyClosure _ _) as [expected|] eqn:Hd; cbn in E; [|done]; injection E as -> end.
  cbn [lift mbind res_mbind]. unfold reuse.
  rewrite (resolution_issued _ _ _ Hres).
  by destruct (requireExactDependencies (dependencies e) (documents r)).
Qed.

(** C10. The cache is transparent: after any history, [resolve] answers exactly
    what the resolver and the dependency check would answer without a cache, or
    an earlier request of the history and this one yield two different canonical
    messages with the same SHA-256 digest. *)
Theorem resolve_transparent h cacheOptions c ops w v options :
  new_cache h cacheOptions = Ok c -> steady w ->
  (resolve (run (E:=E) c ops) w v options).2 = resolveUncached (cache_limits c) w v options \/
  history_collision (cache_limits c) ops w v options.
Proof.
  intros (lim & -> & Hl)%new_cache_empty Hsteady. cbn [cache_limits empty_cache].
  pose proof (run_limits (E:=E) (empty_cache lim) ops) as Hlim. cbn in Hlim.
  pose proof (resolve_steps (E:=E) (run (empty_cache lim) ops) w v options) as Hs.
  destruct (resolve _ w v options) as [c' resp]. cbn [fst snd] in *. unfold resolveUncached.
  destruct Hs as [e He|signal request key existing r Ha Hg Hr|signal request key e Ha Hg Hr
                 |signal request key r expected c' Ha Hg Hr Hc']; rewrite Hlim in *.
  - left. by rewrite He.
  - apply map_get_elem in Hg. pose proof (run_computed lim ops Hl) as Hcomp.
    rewrite Forall_forall in Hcomp.
    destruct (Hcomp _ Hg) as (w0 & v0 & o0 & s0 & r0 & k0 & Hin & Ha0 & Hk & Hcompute). cbn in *.
    destruct (admit_request_inv _ _ _ _ _ _ _ Ha) as (Hi & Hkey & Hcheck).
    destruct (admit_request_inv _ _ _ _ _ _ _ Ha0) as (Hi0 & Hkey0 & _).
    destruct (same_key _ _ _ _ _ _ _ Hkey0 Hkey Hk) as [Hsame|Hcoll].
    + left. rewrite Ha. cbn [lift mbind res_mbind]. rewrite <- Hr.
      eapply reuse_compute; [exact Hcompute|done..|]. by rewrite (steady_check w 3 2).
    + right. exists w0, v0, o0, s0, r0, k0, signal, request, key. done.
  - left. rewrite Ha. cbn [lift mbind res_mbind]. by rewrite Hr.
  - left. rewrite Ha. cbn [lift mbind res_mbind]. by rewrite Hr.
Qed.
End transparency.

(** ** The dependency closure *)

(** A path has one availability. *)
Definition agreeing (l : list (jstring * availability)) : Prop :=
  forall p s1 s2, (p, s1) ∈ l -> (p, s2) ∈ l -> s1 = s2.

Definition represents (states l : list (jstring * availability)) : Prop :=
  NoDup (map fst states) /\ forall p s, (p, s) ∈ states <-> (p, s) ∈ l.

Lemma map_get_represents states l p s :
  represents states l -> map_get p states = Some s <-> (p, s) ∈ l.
Proof.
  intros [Hnd Hin]. rewrite <- Hin. split; [apply map_get_elem|by apply map_get_NoDup].
Qed.

Lemma addDependency_states l d states :
  represents states l ->
  match addDependency states d with
  | Ok states' => represents states' (l ++ [d]) /\ forall s, (d.1, s) ∈ l -> s = d.2
  | Err e => e = invalidRelationship /\ exists s, (d.1, s) ∈ l /\ s <> d.2
  end.
Proof.
  intros Hr. destruct d as [p s]. unfold addDependency. cbn [fst snd].
  destruct (map_get p states) as [existing|] eqn:Hg.
  - pose proof Hg as Hin. rewrite (map_get_represents _ l) in Hin by done.
    case_bool_decide as Heq; cbn.
    + subst existing. rewrite map_set_same by done. destruct Hr as [Hnd Hr]. split; [split; [done|]|].
      * intros q t. rewrite elem_of_app, list_elem_of_singleton, Hr. split; [auto|].
        intros [?|[= -> ->]]; done.
      * intros t Ht. rewrite <- (map_get_represents states l) in Ht by done. congruence.
    + split; [done|]. by exists existing.
  - cbn. apply map_get_None in Hg. rewrite map_set_new by done. destruct Hr as [Hnd Hr]. split; [split|].
    + rewrite map_app. apply NoDup_app. split_and!; [done| |by apply NoDup_singleton].
      intros x Hx ->%list_elem_of_singleton. done.
    + intros q t. by rewrite !elem_of_app, !list_elem_of_singleton, Hr.
    + intros t Ht. rewrite <- Hr in Ht. destruct Hg. by apply (list_elem_of_fmap_2 fst) in Ht.
Qed.

Lemma fold_states l :
  match foldM addDependency [] l with
  | Ok states => represents states l /\ agreeing l
  | Err e => e = invalidRelationship /\ exists p s1 s2, (p, s1) ∈ l /\ (p, s2) ∈ l /\ s1 <> s2
  end.
Proof.
  induction l as [|d l IH] using rev_ind.
  - cbn. split; [split; [constructor|done]|]. intros p s1 s2 Hin. by apply not_elem_of_nil in Hin.
  - rewrite foldM_app. destruct (foldM addDependency [] l) as [states|e]; cbn.
    + destruct IH as [Hr Ha]. pose proof (addDependency_states l d states Hr) as Hd.
      destruct (addDependency states d) as [states'|e]; cbn.
      * destruct Hd as [Hr' Hs]. split; [done|]. destruct d as [q t]. cbn in Hs.
        intros p s1 s2 [H1|E1%list_elem_of_singleton]%elem_of_app [H2|E2%list_elem_of_singleton]%elem_of_app;
          simplify_eq; eauto. symmetry. auto.
      * destruct Hd as [-> (s & Hin & Hne)]. split; [done|]. exists d.1, s, d.2.
        rewrite !elem_of_app, !list_elem_of_singleton. by destruct d; auto.
    + destruct IH as [-> (p & s1 & s2 & H1 & H2 & Hne)]. split; [done|]. exists p, s1, s2.
      rewrite !elem_of_app. auto.
Qed.

(** The closure of a resolution lists every path its documents and the import
    graphs mention exactly once, with its availability, in the order of UTF-8
    bytes; it fails exactly when two of them disagree about a path. *)
Theorem dependencyClosure_spec docs dags :
  match dependencyClosure docs dags with
  | Ok expected =>
      NoDup (map dep_path expected) /\
      StronglySorted (fun a b => bytes_le (dep_path a) (dep_path b) = true) expected /\
      (forall d, d ∈ expected <-> (dep_path d, dep_state d) ∈ closureEntries docs dags)
  | Err e =>
      e = invalidRelationship /\
      exists p, (p, available) ∈ closureEntries docs dags /\ (p, unavailable) ∈ closureEntries docs dags
  end.
Proof.
  unfold dependencyClosure. pose proof (fold_states (closureEntries docs dags)) as Hf.
  destruct (foldM addDependency [] (closureEntries docs dags)) as [states|e]; cbn [mbind res_mbind].
  - destruct Hf as [[Hnd Hr] _].
    set (f := fun s : jstring * availability => {| dep_path := s.1; dep_state := s.2 |}).
    split_and!.
    + assert (map dep_path (sort_by dependency_le (map f states)) ≡ₚ map fst states) as Hp.
      { rewrite sort_by_perm, map_map. done. }
      by rewrite Hp.
    + pose proof (sort_by_sorted dependency_le) as Hs. apply Hs.
      * intros x y z. apply bytes_le_trans.
      * intros x y. apply bytes_le_total.
    + intros d. rewrite elem_of_sort_by, <- Hr. split.
      * intros (s & -> & Hs)%list_elem_of_fmap. by destruct s.
      * intros Hin. apply list_elem_of_fmap. exists (dep_path d, dep_state d). by destruct d.
  - destruct Hf as [-> (p & s1 & s2 & H1 & H2 & Hne)]. split; [done|]. exists p.
    by destruct s1, s2.
Qed.

(** ** A concrete process *)

Module Example.

Definition configuration_service : ConfigurationService := {|
  validateAgentContextConfiguration _ _ := Some (VRecord [(#"version", VInteger 1)])
|}.

(** A resolver that answers with the target, after reading AGENTS.md. *)
Definition context_service : EffectiveContextService (list N) unit.
Proof.
  refine {|
    resolveEffectiveContext _ c := Ok (utf8 (targetPath c));
    isIssuedEffectiveContextResolution _ := true;
    resolution_documents _ := [(#"AGENTS.md", #"available")];
    resolution_json r := r
  |}.
  - done.
  - by intros w1 c1 w2 c2 _ _ (_ & _ & ->).
Defined.

Definition dag : DocumentImportDag := {|
  dag_contents := []; dag_documents := []; dag_entryDocumentId := None;
  dag_entryPath := #"missing.md"; dag_graphState := partial; dag_issues := [];
  dag_occurrences := []; dag_traceEventIds := []; dag_traceSha256 := #"00"
|}.

Definition profile_object : object := record_object [
  (#"recordKind", VString #"agent-context-gemini-cli-resolution");
  (#"profile", VRecord [(#"profileId", VString #"gemini-cli")])
].

Definition bytes_object : object := {|
  obj_proxy := false; obj_prototype := BytesPrototype;
  obj_slots := ByteSlots {| view_attached := true; view_uint8 := true; view_shared := false; view_byteLength := 3; view_byteOffset := 0;
                            view_bufferByteLength := 3; view_bytes := [35; 32; 65]%N |};
  obj_own := []
|}.

Definition signal_object : object :=
  {| obj_proxy := false; obj_prototype := OtherPrototype; obj_slots := SignalSlots; obj_own := [] |}.

Definition the_heap : heap := fun l =>
  if (l =? 1)%N then Some profile_object
  else if (l =? 2)%N then Some (record_object [])
  else if (l =? 3)%N then Some bytes_object
  else if (l =? 4)%N then Some signal_object
  else None.

Definition the_sampling : TargetSamplingResult := {|
  sampling_provenance := VNull; sampling_selected := [(#"src/a.ts", VRecord [])];
  sampling_state := VString #"complete"; sampling_strategy := VString #"exhaustive"
|}.

Definition world : World.
Proof.
  refine {|
    world_heap := the_heap; signal_aborted _ _ := false;
    issued_profile kind l := match kind with gemini_cli => (l =? 1)%N | _ => false end;
    issued_dag l := if (l =? 2)%N then Some dag else None;
    issued_sampling l := if (l =? 2)%N then Some the_sampling else None
  |}.
  intros l d Hd. destruct (l =? 2)%N; [|done]. injection Hd as <-.
  repeat constructor.
Defined.

Definition an_identity : value := VRecord [(#"device", VString #"1"); (#"inode", VString #"2")].

Definition a_request : value := VRecord [
  (#"configuration", VRecord [
     (#"commands", VNull); (#"efficiency", VNull); (#"ignore", VNull); (#"limits", VNull);
     (#"profiles", VRecord (map (fun id => (id, VBool true)) CONFIGURATION_PROFILE_IDS));
     (#"rules", VNull); (#"security", VNull); (#"standards", VNull); (#"version", VInteger 1)]);
  (#"configurationIdentity", VNull);
  (#"context", VRecord [
     (#"contractVersion", VString #"0.1.0"); (#"importDags", VArray [VRef 2%N]);
     (#"profileResolution", VRef 1%N);
     (#"recordKind", VString #"agent-context-effective-context-input");
     (#"targetPath", VString #"src/a.ts")]);
  (#"contractVersion", VString #"0.1.0");
  (#"documents", VArray [
     VRecord [(#"bytes", VNull); (#"identity", VNull); (#"path", VString #"missing.md");
              (#"state", VString #"unavailable")];
     VRecord [(#"bytes", VRef 3%N); (#"identity", an_identity); (#"path", VString #"AGENTS.md");
              (#"state", VString #"available")]]);
  (#"recordKind", VString #"agent-context-effective-context-cache-request");
  (#"sampling", VRef 2%N);
  (#"targetIdentity", VNull)
].

Definition with_signal : value := VRecord [(#"signal", VRef 4%N)].

#[export] Existing Instance toy_sha256.
#[export] Existing Instance configuration_service.
#[export] Existing Instance context_service.

Definition small_options : value := VRecord [(#"maximumEntries", VInteger 2)].

Definition small_limits : EffectiveContextCacheLimits :=
  match limits the_heap small_options with Ok l => l | Err _ => EFFECTIVE_CONTEXT_CACHE_DEFAULT_LIMITS end.

Definition fresh : Cache (list N) := empty_cache small_limits.

Definition once : list operation := [Resolve world a_request with_signal].
End Example.

Import Example.

(** The second call is a hit, with the answer of the first. *)
Lemma second_call_hits :
  let '(c, r) := resolve (E:=unit) (run (E:=unit) fresh once) world a_request with_signal in
  r = Ok #"src/a.ts" /\ hits c = 1%N /\ misses c = 1%N.
Proof. vm_compute. done. Qed.

Lemma fresh_new : new_cache (R:=list N) the_heap small_options = Ok fresh.
Proof. vm_compute. reflexivity. Qed.

Lemma world_steady : steady world.
Proof. done. Qed.

Lemma resolve_transparent_witness :
  is_ok (resolveUncached (R:=list N) (E:=unit) (cache_limits fresh) world a_request with_signal) = true /\
  ((resolve (run (E:=unit) fresh once) world a_request with_signal).2
   = resolveUncached (cache_limits fresh) world a_request with_signal \/
   history_collision (cache_limits fresh) once world a_request with_signal).
Proof.
  split; [vm_compute; reflexivity|].
  apply (resolve_transparent (E:=unit) the_heap small_options fresh once world a_request with_signal);
    [exact fresh_new|exact world_steady].
Defined.

Lemma cache_invariant_witness :
  length (entries (run (E:=unit) fresh once)) = 1 /\ consistent (run (E:=unit) fresh once).
Proof.
  split; [vm_compute; reflexivity|].
  exact (cache_invariant (E:=unit) the_heap small_options fresh once fresh_new).
Defined.

Definition an_entry : CacheEntry (list N) := {| dependencies := []; resolution := []; weightBytes := 5 |}.

Lemma publish_evicts_oldest_witness :
  map fst (entries (publish (run (E:=unit) fresh once) #"k" an_entry)) !! 1 = Some #"k" /\
  published (run (E:=unit) fresh once) #"k" an_entry (publish (run (E:=unit) fresh once) #"k" an_entry).
Proof.
  split; [vm_compute; reflexivity|].
  apply (publish_evicts_oldest (E:=unit) the_heap small_options fresh once); [exact fresh_new|].
  vm_compute. intros Hin. apply elem_of_cons in Hin as [Heq|Hin]; [discriminate Heq|].
  by apply not_elem_of_nil in Hin.
Defined.
