(* ===== verification/ResolutionTrace.v ===== *)
(** Resolution event traces (packages/resolver/src/resolution-event-trace.ts):
    the records of a session, and their normalization from an untrusted value
    within the limits of the module.

    Values are objects of a heap, so proxies, accessors, holes and cycles are
    what they are in the source; labels only occur in messages and are left
    out. *)
From S2P Require Import Prelude JsString OrderedMap Unicode Identifiers JsValue RepositoryPath ActivationAlgebra ObjectGraph JsonText CanonicalDigest.

(** ** Limits and errors *)

Definition maxEvents : N := 16384.
Definition maxInputTextBytes : N := 4194304.
Definition maxJsonDepth : nat := 256.
Definition maxJsonNodes : N := 65536.
Definition maxKnownRules : N := 4096.
Definition maxRuleConditions : N := 1024.
Definition maxSettingsPerEvent : N := 4096.
Definition maxTargets : N := 4096.
Definition maxTextBytes : N := 16384.
Definition maxWorkspaceRoots : N := 4096.

Inductive ResolutionEventTraceErrorCode :=
| invalidEvent | invalidInput | invalidPath | invalidRelationship | invalidState | resourceLimit.

#[export] Instance ResolutionEventTraceErrorCode_eq_dec : EqDecision ResolutionEventTraceErrorCode.
Proof. solve_decision. Defined.

Abbreviation trace_res := (res ResolutionEventTraceErrorCode).

(** ** The records *)

Record Alternative := { alt_id : jstring; alt_description : jstring }.

Inductive Uncertainty :=
| u_known
| u_conditional (conditions : list jstring)
| u_unknown (reason : jstring)
| u_contradiction (reason : jstring) (alternatives : list Alternative).

(** A setting and its JSON value. *)
Record ResolutionSetting := { set_key : jstring; set_value : value }.

Record ResolutionTarget := { tgt_id : jstring; tgt_path : jstring; tgt_purpose : jstring }.

Record TraceActivationRuleDescriptor := {
  tr_id : jstring; tr_documentId : jstring; tr_profileId : jstring; tr_surfaceId : jstring;
  tr_specSnapshotId : jstring; tr_kind : ActivationKind; tr_conditions : list jstring
}.

Inductive PathEventKind := reference_path | read_path | write_path | list_directory | directory_add.

Inductive PayloadlessEventKind :=
| memory_show | memory_list | memory_reload | compact | review_request | review_push
| hosted_task_start | client_restart.

Inductive SelectionSource := by_profile | by_model | by_user | by_unknown.

Inductive EventPayload :=
| Launch (path : jstring) (workspaceRoots : list jstring) (settings : list ResolutionSetting)
| PathEvent (kind : PathEventKind) (path : jstring)
| ManualRuleMention (ruleId : jstring)
| RuleSelection (ruleIds : list jstring) (selectionSource : SelectionSource)
| SettingsChange (settings : list ResolutionSetting)
| PayloadlessEvent (kind : PayloadlessEventKind).

Record ResolutionEvent := {
  ev_id : jstring; ev_sequence : number; ev_targetId : option jstring; ev_uncertainty : Uncertainty;
  ev_payload : EventPayload
}.

(** The constant record kind and contract version are left out. *)
Record ResolutionEventTrace := {
  trace_rules : list TraceActivationRuleDescriptor;
  trace_targets : list ResolutionTarget;
  trace_events : list ResolutionEvent
}.

(** ** Names *)

Inductive EventKind :=
| k_launch | k_path (k : PathEventKind) | k_manual_rule_mention | k_rule_selection | k_settings_change
| k_payloadless (k : PayloadlessEventKind).

#[export] Instance SelectionSource_eq_dec : EqDecision SelectionSource.
Proof. solve_decision. Defined.

Definition path_kind_name (k : PathEventKind) : jstring :=
  match k with
  | reference_path => #"reference-path"
  | read_path => #"read-path"
  | write_path => #"write-path"
  | list_directory => #"list-directory"
  | directory_add => #"directory-add"
  end.

Definition payloadless_kind_name (k : PayloadlessEventKind) : jstring :=
  match k with
  | memory_show => #"memory-show"
  | memory_list => #"memory-list"
  | memory_reload => #"memory-reload"
  | compact => #"compact"
  | review_request => #"review-request"
  | review_push => #"review-push"
  | hosted_task_start => #"hosted-task-start"
  | client_restart => #"client-restart"
  end.

Definition event_kind_name (k : EventKind) : jstring :=
  match k with
  | k_launch => #"launch"
  | k_path k => path_kind_name k
  | k_manual_rule_mention => #"manual-rule-mention"
  | k_rule_selection => #"rule-selection"
  | k_settings_change => #"settings-change"
  | k_payloadless k => payloadless_kind_name k
  end.

Definition PATH_EVENT_KINDS : list PathEventKind :=
  [reference_path; read_path; write_path; list_directory; directory_add].

Definition PAYLOADLESS_EVENT_KINDS : list PayloadlessEventKind :=
  [memory_show; memory_list; memory_reload; compact; review_request; review_push; hosted_task_start;
   client_restart].

Definition EVENT_KINDS : list EventKind :=
  k_launch :: map k_path PATH_EVENT_KINDS ++ [k_manual_rule_mention; k_rule_selection; k_settings_change]
  ++ map k_payloadless PAYLOADLESS_EVENT_KINDS.

Definition selection_source_name (s : SelectionSource) : jstring :=
  match s with
  | by_profile => #"profile"
  | by_model => #"model"
  | by_user => #"user"
  | by_unknown => #"unknown"
  end.

Definition SELECTION_SOURCES : list SelectionSource := [by_profile; by_model; by_user; by_unknown].

(** The member of a set of names a text is. *)
Definition named {A} (name : A -> jstring) (members : list A) (s : jstring) : option A :=
  find (fun a => jeqb (name a) s) members.

(** ** Regular data *)

(** [isDataRecord(value)], with the own keys and what [dataProperty] reads of them. *)
Definition own_field (own : list property) (p : property) : option (jstring * value) :=
  key ← prop_key p; v ← enumerable_data (descriptor own key); Some (key, v).

Definition isDataRecord (h : heap) (v : value) : option (list (jstring * value)) :=
  o ← object_of h v;
  if negb (obj_proxy o) && negb (is_array o) && plain_prototype o
  then mapM (own_field (obj_own o)) (obj_own o) else None.

Definition dataProperty (record : list (jstring * value)) (key : jstring) : value :=
  default VUndefined (map_get key record).

Definition hasExactKeys (record : list (jstring * value)) (keys : list jstring) : bool :=
  same_keys (keys_of record) keys.

Definition assertRecord (h : heap) (v : value) (keys : list jstring) : trace_res (list (jstring * value)) :=
  match isDataRecord h v with
  | Some record => _ ← ensure (hasExactKeys record keys) invalidInput; Ok record
  | None => Err invalidInput
  end.

(** One round of the loop over the indices. *)
Definition denseEntry (own : list property) (index : nat) : trace_res value :=
  let key := String_of_N (N.of_nat index) in
  match own !! index with
  | Some p =>
      _ ← ensure (bool_decide (prop_key p = Some key)) invalidInput;
      match enumerable_data (descriptor own key) with
      | Some v => Ok v
      | None => Err invalidInput
      end
  | None => Err invalidInput
  end.

(** The items of the array. *)
Definition assertDenseArray (h : heap) (v : value) (maximum : N) : trace_res (list value) :=
  match object_of h v with
  | Some o =>
      _ ← ensure (regular_array o) invalidInput;
      _ ← ensure (array_length o <=? maximum)%N resourceLimit;
      _ ← ensure (N.of_nat (length (obj_own o)) =? array_length o)%N invalidInput;
      rmapM (denseEntry (obj_own o)) (seq 0 (length (obj_own o)))
  | None => Err invalidInput
  end.

(** ** The budget

    Validation counts JSON nodes and text bytes in a record it updates. *)
Record ValidationBudget := { jsonNodes : N; b_textBytes : N }.

Definition validating (A : Type) : Type := ValidationBudget -> trace_res (A * ValidationBudget).

#[export] Instance validating_mret : MRet validating := fun _ a b => Ok (a, b).
#[export] Instance validating_mbind : MBind validating := fun A B f m b =>
  match m b with Ok (a, b') => f a b' | Err e => Err e end.

(** Code that does not touch the budget. *)
Definition pureV {A} (m : trace_res A) : validating A := fun b => a ← m; Ok (a, b).
Definition checkV (c : bool) (code : ResolutionEventTraceErrorCode) : validating unit := pureV (ensure c code).
Definition throwV {A} (code : ResolutionEventTraceErrorCode) : validating A := fun _ => Err code.

(** [values.map(f)] *)
Fixpoint mapV {A B} (f : A -> validating B) (l : list A) : validating (list B) :=
  match l with
  | [] => mret []
  | x :: r => y ← f x; ys ← mapV f r; mret (y :: ys)
  end.

(** [values.map((value, index) => f(value, index))], from an index on. *)
Fixpoint imapV {A B} (f : nat -> A -> validating B) (index : nat) (l : list A) : validating (list B) :=
  match l with
  | [] => mret []
  | x :: r => y ← f index x; ys ← imapV f (S index) r; mret (y :: ys)
  end.

(** A loop that refuses an item whose key an earlier item has. *)
Fixpoint distinctV {A B} (f : list jstring -> A -> validating B) (key : B -> jstring) (seen : list jstring)
    (l : list A) : validating (list B) :=
  match l with
  | [] => mret []
  | x :: r => y ← f seen x; ys ← distinctV f key (seen ++ [key y]) r; mret (y :: ys)
  end.

Definition addText (s : jstring) (allowEmpty : bool) : validating jstring := fun b =>
  _ ← ensure ((allowEmpty || negb (jeqb s [])) && hasWellFormedUnicode s) invalidInput;
  let bytes := textBytes s in
  _ ← ensure (bytes <=? maxTextBytes)%N resourceLimit;
  let b := {| jsonNodes := jsonNodes b; b_textBytes := b_textBytes b + bytes |} in
  _ ← ensure (b_textBytes b <=? maxInputTextBytes)%N resourceLimit;
  Ok (s, b).

Definition countNode : validating unit := fun b =>
  let b := {| jsonNodes := jsonNodes b + 1; b_textBytes := b_textBytes b |} in
  _ ← ensure (jsonNodes b <=? maxJsonNodes)%N resourceLimit;
  Ok (tt, b).

Definition text (v : value) : validating jstring :=
  match v with VString s => addText s false | _ => throwV invalidInput end.

Definition identifier (v : value) : validating jstring :=
  result ← text v;
  _ ← checkV (STABLE_ID result) invalidInput;
  mret result.

Definition path (v : value) : validating jstring :=
  result ← text v;
  _ ← checkV (isRepositoryRelativePath result) invalidPath;
  mret result.

(** [Number.isSafeInteger] holds of -0, which is not less than 0 either. *)
Definition nonNegativeInteger (v : value) : trace_res number :=
  match v with
  | VNumber (Integer n) =>
      _ ← ensure ((0 <=? n)%Z && (n <=? MAX_SAFE_INTEGER)%Z) invalidInput; Ok (Integer n)
  | VNumber NegativeZero => Ok NegativeZero
  | _ => Err invalidInput
  end.

(** [/\p{Cc}/u.test(s)] *)
Definition has_control (s : jstring) : bool :=
  existsb (fun c => (c <=? 0x1f)%N || (0x7f <=? c)%N && (c <=? 0x9f)%N) s.

(** ** JSON values *)

Definition finite_json (x : number) : bool :=
  match x with Integer _ | Fraction _ => true | NaN | Infinite _ | NegativeZero => false end.

(** The body for objects; [normalize] is the recursive call. *)
Definition normalizeJsonObject (h : heap) (normalize : list loc -> value -> validating value)
    (ancestors : list loc) (v : value) : validating value :=
  match object_of h v with
  | None => throwV invalidInput
  | Some o =>
      _ ← checkV (negb (obj_proxy o)) invalidInput;
      _ ← checkV (negb (is_ancestor ancestors v)) invalidInput;
      let inner := with_ancestor ancestors v in
      if is_array o then
        items ← pureV (assertDenseArray h v maxJsonNodes);
        output ← mapV (normalize inner) items;
        mret (VArray output)
      else
        match isDataRecord h v with
        | None => throwV invalidInput
        | Some record =>
            output ← mapV (fun key =>
                       _ ← addText key true;
                       x ← normalize inner (dataProperty record key);
                       mret (key, x)) (sort_by jleb (keys_of record));
            mret (VRecord (own_order output))
        end
  end.

(** [room] is what the depth leaves of the limit, plus one. *)
Fixpoint normalizeJsonValue (h : heap) (room : nat) (ancestors : list loc) (v : value) : validating value :=
  match room with
  | O => throwV resourceLimit
  | S room' =>
      _ ← countNode;
      match v with
      | VNull | VBool _ => mret v
      | VString s => _ ← addText s true; mret v
      | VNumber x => _ ← checkV (finite_json x) invalidInput; mret v
      | VUndefined | VFunction | VOther => throwV invalidInput
      | VRef _ | VArray _ | VRecord _ => normalizeJsonObject h (normalizeJsonValue h room') ancestors v
      end
  end.

(** ** Records of the trace *)

Section normalization.
Context (h : heap).

(** One round of the loop over the alternatives; [seen] are the earlier IDs. *)
Definition normalizeAlternative (seen : list jstring) (v : value) : validating Alternative :=
  record ← pureV (assertRecord h v [ #"id"; #"description"]);
  id ← identifier (dataProperty record #"id");
  _ ← checkV (negb (bool_decide (id ∈ seen))) invalidState;
  description ← text (dataProperty record #"description");
  mret {| alt_id := id; alt_description := description |}.

Definition alternative_le (left right : Alternative) : bool := jleb (alt_id left) (alt_id right).

Definition normalizeUncertainty (v : value) : validating Uncertainty :=
  match isDataRecord h v with
  | None => throwV invalidInput
  | Some record =>
      let state := dataProperty record #"state" in
      if is_string state #"known" then
        _ ← pureV (assertRecord h v [ #"state"]);
        mret u_known
      else if is_string state #"conditional" then
        _ ← pureV (assertRecord h v [ #"state"; #"conditions"]);
        conditions ← pureV (assertDenseArray h (dataProperty record #"conditions") maxEvents);
        _ ← checkV (negb (length conditions =? 0)%nat) invalidState;
        normalized ← mapV text conditions;
        _ ← checkV (bool_decide (NoDup normalized)) invalidState;
        mret (u_conditional (sort_by jleb normalized))
      else if is_string state #"unknown" then
        _ ← pureV (assertRecord h v [ #"state"; #"reason"]);
        reason ← text (dataProperty record #"reason");
        mret (u_unknown reason)
      else if is_string state #"contradiction" then
        _ ← pureV (assertRecord h v [ #"state"; #"reason"; #"alternatives"]);
        alternatives ← pureV (assertDenseArray h (dataProperty record #"alternatives") maxEvents);
        _ ← checkV (2 <=? length alternatives)%nat invalidState;
        normalized ← distinctV normalizeAlternative alt_id [] alternatives;
        reason ← text (dataProperty record #"reason");
        mret (u_contradiction reason (sort_by alternative_le normalized))
      else throwV invalidState
  end.

Definition normalizeSetting (seen : list jstring) (v : value) : validating ResolutionSetting :=
  record ← pureV (assertRecord h v [ #"key"; #"value"]);
  key ← text (dataProperty record #"key");
  _ ← checkV (negb (has_control key)) invalidInput;
  _ ← checkV (negb (bool_decide (key ∈ seen))) invalidState;
  x ← normalizeJsonValue h (S maxJsonDepth) [] (dataProperty record #"value");
  mret {| set_key := key; set_value := x |}.

Definition setting_le (left right : ResolutionSetting) : bool := jleb (set_key left) (set_key right).

Definition normalizeSettings (v : value) (requireNonEmpty : bool) : validating (list ResolutionSetting) :=
  settings ← pureV (assertDenseArray h v maxSettingsPerEvent);
  _ ← checkV (negb (requireNonEmpty && (length settings =? 0)%nat)) invalidState;
  normalized ← distinctV normalizeSetting set_key [] settings;
  mret (sort_by setting_le normalized).

Definition normalizeTarget (v : value) : validating ResolutionTarget :=
  record ← pureV (assertRecord h v [ #"id"; #"path"; #"purpose"]);
  targetPath ← path (dataProperty record #"path");
  _ ← checkV (negb (jeqb targetPath REPOSITORY_ROOT)) invalidPath;
  id ← identifier (dataProperty record #"id");
  purpose ← text (dataProperty record #"purpose");
  mret {| tgt_id := id; tgt_path := targetPath; tgt_purpose := purpose |}.

Definition normalizeIdentifiers (v : value) (maximum : N) (minimum : nat) : validating (list jstring) :=
  items ← pureV (assertDenseArray h v maximum);
  _ ← checkV (minimum <=? length items)%nat invalidState;
  output ← mapV identifier items;
  _ ← checkV (bool_decide (NoDup output)) invalidState;
  mret (sort_by jleb output).

Definition RULE_DESCRIPTOR_KEYS : list jstring :=
  [ #"id"; #"documentId"; #"profileId"; #"surfaceId"; #"specSnapshotId"; #"kind"; #"conditions"].

Definition normalizeRuleDescriptor (v : value) : validating TraceActivationRuleDescriptor :=
  record ← pureV (assertRecord h v RULE_DESCRIPTOR_KEYS);
  kindText ← text (dataProperty record #"kind");
  match named activation_kind_name ACTIVATION_KIND_SET kindText with
  | None => throwV invalidState
  | Some kind =>
      rawConditions ← pureV (assertDenseArray h (dataProperty record #"conditions") maxRuleConditions);
      conditions ← mapV text rawConditions;
      _ ← checkV (bool_decide (NoDup conditions)) invalidState;
      _ ← checkV (negb (bool_decide (kind = ak_always) && negb (bool_decide (conditions = [])))) invalidState;
      _ ← checkV (negb (bool_decide (kind = ak_conditional) && bool_decide (conditions = []))) invalidState;
      id ← identifier (dataProperty record #"id");
      documentId ← identifier (dataProperty record #"documentId");
      profileId ← identifier (dataProperty record #"profileId");
      surfaceId ← identifier (dataProperty record #"surfaceId");
      specSnapshotId ← identifier (dataProperty record #"specSnapshotId");
      mret {| tr_id := id; tr_documentId := documentId; tr_profileId := profileId;
              tr_surfaceId := surfaceId; tr_specSnapshotId := specSnapshotId; tr_kind := kind;
              tr_conditions := conditions |}
  end.

Definition sameRuleDescriptor (left right : TraceActivationRuleDescriptor) : bool :=
  jeqb (tr_id left) (tr_id right) && jeqb (tr_documentId left) (tr_documentId right)
  && jeqb (tr_profileId left) (tr_profileId right) && jeqb (tr_surfaceId left) (tr_surfaceId right)
  && jeqb (tr_specSnapshotId left) (tr_specSnapshotId right)
  && bool_decide (tr_kind left = tr_kind right)
  && (length (tr_conditions left) =? length (tr_conditions right))%nat
  && forallb (fun c => jeqb c.1 c.2) (zip (tr_conditions left) (tr_conditions right)).

(** ** Events *)

Definition payloadKeys (k : EventKind) : list jstring :=
  match k with
  | k_launch => [ #"path"; #"workspaceRoots"; #"settings"]
  | k_path _ => [ #"path"]
  | k_manual_rule_mention => [ #"ruleId"]
  | k_rule_selection => [ #"ruleIds"; #"selectionSource"]
  | k_settings_change => [ #"settings"]
  | k_payloadless _ => []
  end.

Definition EVENT_BASE_KEYS : list jstring := [ #"id"; #"sequence"; #"kind"; #"targetId"; #"uncertainty"].

Definition eventKeys (k : EventKind) : list jstring := EVENT_BASE_KEYS ++ payloadKeys k.

(** [sequence === index] *)
Definition is_position (sequence : number) (index : nat) : bool :=
  identical (VNumber sequence) (VNumber (Integer (Z.of_nat index))).

(** [rawTargetId === null ? null : identifier(rawTargetId)] *)
Definition targetReference (v : value) : validating (option jstring) :=
  match v with
  | VNull => mret None
  | _ => id ← identifier v; mret (Some id)
  end.

Section events.
Context (targetIds knownRuleIds : list jstring).

(** The part of the event its kind decides. *)
Definition normalizePayload (kind : EventKind) (record : list (jstring * value)) : validating EventPayload :=
  match kind with
  | k_launch =>
      launchPath ← path (dataProperty record #"path");
      rawRoots ← pureV (assertDenseArray h (dataProperty record #"workspaceRoots") maxWorkspaceRoots);
      _ ← checkV (negb (length rawRoots =? 0)%nat) invalidState;
      workspaceRoots ← mapV path rawRoots;
      _ ← checkV (bool_decide (NoDup workspaceRoots)) invalidState;
      settings ← normalizeSettings (dataProperty record #"settings") false;
      mret (Launch launchPath (sort_by jleb workspaceRoots) settings)
  | k_path k =>
      eventPath ← path (dataProperty record #"path");
      mret (PathEvent k eventPath)
  | k_manual_rule_mention =>
      ruleId ← identifier (dataProperty record #"ruleId");
      _ ← checkV (bool_decide (ruleId ∈ knownRuleIds)) invalidRelationship;
      mret (ManualRuleMention ruleId)
  | k_rule_selection =>
      ruleIds ← normalizeIdentifiers (dataProperty record #"ruleIds") maxKnownRules 1;
      _ ← checkV (forallb (fun id => bool_decide (id ∈ knownRuleIds)) ruleIds) invalidRelationship;
      sourceText ← text (dataProperty record #"selectionSource");
      match named selection_source_name SELECTION_SOURCES sourceText with
      | None => throwV invalidState
      | Some source => mret (RuleSelection ruleIds source)
      end
  | k_settings_change =>
      settings ← normalizeSettings (dataProperty record #"settings") true;
      mret (SettingsChange settings)
  | k_payloadless k => mret (PayloadlessEvent k)
  end.

Definition known_target (targetId : option jstring) : bool :=
  match targetId with Some id => bool_decide (id ∈ targetIds) | None => true end.

Definition normalizeEvent (index : nat) (v : value) : validating ResolutionEvent :=
  match isDataRecord h v with
  | None => throwV invalidEvent
  | Some record =>
      kindText ← text (dataProperty record #"kind");
      match named event_kind_name EVENT_KINDS kindText with
      | None => throwV invalidEvent
      | Some kind =>
          _ ← checkV (hasExactKeys record (eventKeys kind)) invalidEvent;
          id ← identifier (dataProperty record #"id");
          sequence ← pureV (nonNegativeInteger (dataProperty record #"sequence"));
          _ ← checkV (is_position sequence index) invalidState;
          targetId ← targetReference (dataProperty record #"targetId");
          _ ← checkV (known_target targetId) invalidRelationship;
          uncertainty ← normalizeUncertainty (dataProperty record #"uncertainty");
          payload ← normalizePayload kind record;
          mret {| ev_id := id; ev_sequence := sequence; ev_targetId := targetId;
                  ev_uncertainty := uncertainty; ev_payload := payload |}
      end
  end.
End events.

(** ** The trace *)

Definition RECORD_KIND : jstring := #"agent-context-resolution-event-trace".
Definition RESOLUTION_EVENT_TRACE_CONTRACT_VERSION : jstring := #"0.1.0".
Definition TRACE_KEYS : list jstring := [ #"recordKind"; #"contractVersion"; #"rules"; #"targets"; #"events"].

Definition is_launch (e : ResolutionEvent) : bool := match ev_payload e with Launch _ _ _ => true | _ => false end.

(** [events.map((event, index) => isLaunch ? index : -1).filter((index) => index >= 0)] *)
Definition launchIndexes (events : list ResolutionEvent) : list nat :=
  omap (fun x => x) (imap (fun index e => if is_launch e then Some index else None) events).

Definition rule_le (left right : TraceActivationRuleDescriptor) : bool := jleb (tr_id left) (tr_id right).
Definition target_le (left right : ResolutionTarget) : bool := jleb (tgt_id left) (tgt_id right).

Definition validateTrace (v : value) : validating ResolutionEventTrace :=
  record ← pureV (assertRecord h v TRACE_KEYS);
  _ ← checkV (is_string (dataProperty record #"recordKind") RECORD_KIND) invalidInput;
  _ ← checkV (is_string (dataProperty record #"contractVersion") RESOLUTION_EVENT_TRACE_CONTRACT_VERSION)
             invalidInput;
  rawRules ← pureV (assertDenseArray h (dataProperty record #"rules") maxKnownRules);
  rules ← mapV normalizeRuleDescriptor rawRules;
  _ ← checkV (bool_decide (NoDup (map tr_id rules))) invalidState;
  rawTargets ← pureV (assertDenseArray h (dataProperty record #"targets") maxTargets);
  targets ← mapV normalizeTarget rawTargets;
  _ ← checkV (bool_decide (NoDup (map tgt_id targets))) invalidState;
  rawEvents ← pureV (assertDenseArray h (dataProperty record #"events") maxEvents);
  _ ← checkV (negb (length rawEvents =? 0)%nat) invalidState;
  events ← imapV (normalizeEvent (map tgt_id targets) (map tr_id rules)) 0 rawEvents;
  _ ← checkV (bool_decide (NoDup (map ev_id events))) invalidState;
  _ ← checkV (bool_decide (launchIndexes events = [0])) invalidState;
  mret {| trace_rules := sort_by rule_le rules; trace_targets := sort_by target_le targets;
          trace_events := events |}.

Definition no_budget_used : ValidationBudget := {| jsonNodes := 0; b_textBytes := 0 |}.

Definition normalizeResolutionEventTrace (v : value) : trace_res ResolutionEventTrace :=
  fst <$> validateTrace v no_budget_used.
End normalization.
