(* ===== verification/TraceQueries.v ===== *)
(** What is asked of an event trace
    (packages/resolver/src/resolution-event-trace.ts): its serialization and
    digest, the synthetic trace of one target, the selection of a rule, the
    setting in force at a target, and the callbacks of the activation algebra.

    The validator of the instruction IR is the class [InstructionIrValidator]. *)
From S2P Require Import Prelude JsString OrderedMap Unicode Identifiers JsValue RepositoryPath ActivationAlgebra ObjectGraph JsonText CanonicalDigest ResolutionTrace.

(** ** The trace as a value

    Every function normalizes the trace it is given, so the module reads its own
    results back: these are the frozen records it builds. *)

Definition texts_value (l : list jstring) : value := VArray (map VString l).

Definition alternative_value (a : Alternative) : value :=
  VRecord [(#"id", VString (alt_id a)); (#"description", VString (alt_description a))].

Definition uncertainty_value (u : Uncertainty) : value :=
  match u with
  | u_known => VRecord [(#"state", VString #"known")]
  | u_conditional conditions =>
      VRecord [(#"state", VString #"conditional"); (#"conditions", texts_value conditions)]
  | u_unknown reason => VRecord [(#"state", VString #"unknown"); (#"reason", VString reason)]
  | u_contradiction reason alternatives =>
      VRecord [(#"state", VString #"contradiction"); (#"reason", VString reason);
               (#"alternatives", VArray (map alternative_value alternatives))]
  end.

Definition setting_value (s : ResolutionSetting) : value :=
  VRecord [(#"key", VString (set_key s)); (#"value", set_value s)].

Definition settings_value (l : list ResolutionSetting) : value := VArray (map setting_value l).

Definition target_value (t : ResolutionTarget) : value :=
  VRecord [(#"id", VString (tgt_id t)); (#"path", VString (tgt_path t)); (#"purpose", VString (tgt_purpose t))].

Definition rule_value (r : TraceActivationRuleDescriptor) : value :=
  VRecord [(#"id", VString (tr_id r)); (#"documentId", VString (tr_documentId r));
           (#"profileId", VString (tr_profileId r)); (#"surfaceId", VString (tr_surfaceId r));
           (#"specSnapshotId", VString (tr_specSnapshotId r));
           (#"kind", VString (activation_kind_name (tr_kind r)));
           (#"conditions", texts_value (tr_conditions r))].

Definition payload_kind (p : EventPayload) : EventKind :=
  match p with
  | Launch _ _ _ => k_launch
  | PathEvent k _ => k_path k
  | ManualRuleMention _ => k_manual_rule_mention
  | RuleSelection _ _ => k_rule_selection
  | SettingsChange _ => k_settings_change
  | PayloadlessEvent k => k_payloadless k
  end.

Definition payload_fields (p : EventPayload) : list (jstring * value) :=
  match p with
  | Launch path workspaceRoots settings =>
      [(#"path", VString path); (#"workspaceRoots", texts_value workspaceRoots);
       (#"settings", settings_value settings)]
  | PathEvent _ path => [(#"path", VString path)]
  | ManualRuleMention ruleId => [(#"ruleId", VString ruleId)]
  | RuleSelection ruleIds source =>
      [(#"ruleIds", texts_value ruleIds); (#"selectionSource", VString (selection_source_name source))]
  | SettingsChange settings => [(#"settings", settings_value settings)]
  | PayloadlessEvent _ => []
  end.

Definition event_value (e : ResolutionEvent) : value :=
  VRecord ([(#"id", VString (ev_id e)); (#"sequence", VNumber (ev_sequence e));
            (#"targetId", VText (ev_targetId e)); (#"uncertainty", uncertainty_value (ev_uncertainty e));
            (#"kind", VString (event_kind_name (payload_kind (ev_payload e))))]
           ++ payload_fields (ev_payload e)).

Definition trace_record (rules targets events : value) : value :=
  VRecord [(#"recordKind", VString RECORD_KIND);
           (#"contractVersion", VString RESOLUTION_EVENT_TRACE_CONTRACT_VERSION);
           (#"rules", rules); (#"targets", targets); (#"events", events)].

Definition trace_value (t : ResolutionEventTrace) : value :=
  trace_record (VArray (map rule_value (trace_rules t))) (VArray (map target_value (trace_targets t)))
               (VArray (map event_value (trace_events t))).

(** ** Serialization and digest *)

Definition serializeResolutionEventTrace (h : heap) (trace : value) : trace_res jstring :=
  normalized ← normalizeResolutionEventTrace h trace;
  Ok (JSON_stringify (trace_value normalized)).

Definition digestResolutionEventTrace `{Sha256} (h : heap) (trace : value) : trace_res jstring :=
  serialized ← serializeResolutionEventTrace h trace;
  Ok (sha256_hex serialized).

Definition stableId `{Sha256} (prefix : jstring) (parts : list jstring) : jstring :=
  prefix ++ #":" ++ sha256_hex (lengthPrefixed parts).

(** ** Extraction from an instruction IR *)

(** [validateInstructionIr]: the validated value, when there are no issues. *)
Class InstructionIrValidator : Type := { validateInstructionIr : heap -> value -> option value }.

(** The items of an array of validated data. *)
Definition array_items (h : heap) (v : value) : list value :=
  match object_of h v with
  | Some o => omap prop_value (obj_own o)
  | None => []
  end.

Definition ruleProjection (h : heap) (rule : value) : value :=
  VRecord (map (fun key => (key, get h rule key)) RULE_DESCRIPTOR_KEYS).

Definition createResolutionEventTrace `{InstructionIrValidator} (h : heap) (ir : value)
    : trace_res ResolutionEventTrace :=
  match validateInstructionIr h ir with
  | None => Err invalidInput
  | Some validated =>
      normalizeResolutionEventTrace h
        (trace_record (VArray (map (ruleProjection h) (array_items h (get h validated #"activationRules"))))
                      (get h validated #"targets") (get h validated #"events"))
  end.

(** ** The synthetic trace of one target *)

Definition SYNTHETIC_KEYS : list jstring :=
  [ #"launchCwd"; #"workspaceRoots"; #"targetPath"; #"purpose"; #"settings"; #"targetEventKind"].
Definition SYNTHETIC_REQUIRED_KEYS : list jstring :=
  [ #"launchCwd"; #"workspaceRoots"; #"targetPath"; #"purpose"].
Definition SYNTHETIC_EVENT_KINDS : list jstring := [ #"reference-path"; #"read-path"; #"write-path"].

(** [hasOwnProperty(record, key) ? dataProperty(record, key) : otherwise] *)
Definition own_or (record : list (jstring * value)) (key : jstring) (otherwise : value) : value :=
  default otherwise (map_get key record).

Definition known_value : value := uncertainty_value u_known.

Definition synthetic_events (targetId : jstring) (launchCwd workspaceRoots settings targetEventKind : value)
    (targetPath : jstring) : value :=
  VArray [
    VRecord [(#"id", VString #"event:synthetic-launch"); (#"sequence", VInteger 0); (#"kind", VString #"launch");
             (#"targetId", VString targetId); (#"uncertainty", known_value); (#"path", launchCwd);
             (#"workspaceRoots", workspaceRoots); (#"settings", settings)];
    VRecord [(#"id", VString #"event:synthetic-target"); (#"sequence", VInteger 1); (#"kind", targetEventKind);
             (#"targetId", VString targetId); (#"uncertainty", known_value); (#"path", VString targetPath)]].

(** The payloads hashed into the identities of the two events. *)
Definition launchPayload (e : ResolutionEvent) : jstring :=
  JSON_stringify (VRecord
    ([(#"kind", VString (event_kind_name (payload_kind (ev_payload e)))); (#"targetId", VText (ev_targetId e));
      (#"uncertainty", uncertainty_value (ev_uncertainty e))] ++ payload_fields (ev_payload e))).

Definition event_path (p : EventPayload) : option jstring :=
  match p with Launch path _ _ | PathEvent _ path => Some path | _ => None end.

Definition targetPayload (e : ResolutionEvent) : jstring :=
  JSON_stringify (VRecord
    [(#"kind", VString (event_kind_name (payload_kind (ev_payload e)))); (#"targetId", VText (ev_targetId e));
     (#"uncertainty", uncertainty_value (ev_uncertainty e)); (#"path", VText (event_path (ev_payload e)))]).

(** [{ ...event, id }] *)
Definition with_id (id : jstring) (e : ResolutionEvent) : ResolutionEvent :=
  {| ev_id := id; ev_sequence := ev_sequence e; ev_targetId := ev_targetId e;
     ev_uncertainty := ev_uncertainty e; ev_payload := ev_payload e |}.

(** From the provisional trace on: its two events get the identities of their payloads. *)
Definition identifySynthetic `{Sha256} (h : heap) (provisional : ResolutionEventTrace)
    : trace_res ResolutionEventTrace :=
  match trace_events provisional with
  | launch :: targetEvent :: _ =>
      _ ← ensure (is_launch launch && negb (is_launch targetEvent)) invalidState;
      normalizeResolutionEventTrace h
        (trace_record (VArray (map rule_value (trace_rules provisional)))
                      (VArray (map target_value (trace_targets provisional)))
                      (VArray [event_value (with_id (stableId #"event" [ #"0"; launchPayload launch]) launch);
                               event_value (with_id (stableId #"event" [ #"1"; targetPayload targetEvent])
                                                    targetEvent)]))
  | _ => Err invalidState
  end.

Definition createSyntheticTargetTrace `{Sha256} (h : heap) (input : value) : trace_res ResolutionEventTrace :=
  match isDataRecord h input with
  | None => Err invalidInput
  | Some record =>
      _ ← ensure (forallb (fun key => existsb (jeqb key) SYNTHETIC_KEYS) (keys_of record)
                  && forallb (fun key => map_has key record) SYNTHETIC_REQUIRED_KEYS) invalidInput;
      let settings := own_or record #"settings" (VArray []) in
      let targetEventKind := own_or record #"targetEventKind" (VString #"reference-path") in
      _ ← ensure (existsb (is_string targetEventKind) SYNTHETIC_EVENT_KINDS) invalidEvent;
      match dataProperty record #"targetPath", dataProperty record #"purpose" with
      | VString targetPath, VString purpose =>
          let targetId := stableId #"target" [targetPath; purpose] in
          provisional ← normalizeResolutionEventTrace h
            (trace_record (VArray [])
               (VArray [VRecord [(#"id", VString targetId); (#"path", VString targetPath);
                                 (#"purpose", VString purpose)]])
               (synthetic_events targetId (dataProperty record #"launchCwd")
                  (dataProperty record #"workspaceRoots") settings targetEventKind targetPath));
          identifySynthetic h provisional
      | _, _ => Err invalidInput
      end
  end.

(** ** The selection of a rule *)

Definition eventAppliesToPath (trace : ResolutionEventTrace) (event : ResolutionEvent) (targetPath : jstring)
    : bool :=
  match ev_targetId event with
  | None => true
  | Some targetId =>
      existsb (fun t => jeqb (tgt_id t) targetId && jeqb (tgt_path t) targetPath) (trace_targets trace)
  end.

(** [texts.join("; ")] *)
Definition join_conditions (l : list jstring) : jstring :=
  match l with
  | [] => []
  | x :: r => x ++ mjoin ((fun s => #"; " ++ s) <$> r)
  end.

Definition uncertaintyDescription (u : Uncertainty) : jstring :=
  match u with
  | u_known => #"known"
  | u_conditional conditions => #"conditional: " ++ join_conditions conditions
  | u_unknown reason => #"unknown: " ++ reason
  | u_contradiction reason _ => #"contradiction: " ++ reason
  end.

Definition is_known (u : Uncertainty) : bool := match u with u_known => true | _ => false end.

Inductive SelectionMode := mode_manual | mode_conditional.

#[export] Instance SelectionMode_eq_dec : EqDecision SelectionMode.
Proof. solve_decision. Defined.

Definition mode_name (m : SelectionMode) : jstring :=
  match m with mode_manual => #"manual" | mode_conditional => #"conditional" end.

Record TraceRuleSelectionQuery := {
  q_rule : TraceActivationRuleDescriptor; q_targetPath : jstring; q_mode : SelectionMode
}.

Section queries.
Context (h : heap).

Definition validateRuleSelectionQuery (v : value) : validating TraceRuleSelectionQuery :=
  record ← pureV (assertRecord h v [ #"rule"; #"targetPath"; #"mode"]);
  rule ← normalizeRuleDescriptor h (dataProperty record #"rule");
  targetPath ← path (dataProperty record #"targetPath");
  modeText ← text (dataProperty record #"mode");
  match named mode_name [mode_manual; mode_conditional] modeText with
  | None => throwV invalidState
  | Some mode => mret {| q_rule := rule; q_targetPath := targetPath; q_mode := mode |}
  end.

Definition normalizeRuleSelectionQuery (v : value) : trace_res TraceRuleSelectionQuery :=
  fst <$> validateRuleSelectionQuery v no_budget_used.

Inductive EvidenceKind := evidence_manual_rule_mention | evidence_rule_selection.

Record TraceRuleSelectionEvidence := {
  se_eventId : jstring; se_sequence : number; se_eventKind : EvidenceKind;
  se_selectionSource : option SelectionSource; se_targetId : option jstring; se_uncertainty : Uncertainty
}.

Inductive SelectionState := selection_active | selection_indeterminate.

Record TraceRuleSelection := {
  sel_state : SelectionState; sel_ruleId : jstring; sel_targetPath : jstring;
  sel_evidence : list TraceRuleSelectionEvidence; sel_reason : jstring
}.

(** The kind and source of the evidence an event is for a rule, if it selects it. *)
Definition selects (mode : SelectionMode) (ruleId : jstring) (event : ResolutionEvent)
    : option (EvidenceKind * option SelectionSource) :=
  match ev_payload event with
  | RuleSelection ruleIds source =>
      if bool_decide (ruleId ∈ ruleIds) then Some (evidence_rule_selection, Some source) else None
  | ManualRuleMention mentioned =>
      if bool_decide (mode = mode_manual) && jeqb mentioned ruleId
      then Some (evidence_manual_rule_mention, None) else None
  | _ => None
  end.

(** One round of the loop over the events. *)
Definition evidenceOf (trace : ResolutionEventTrace) (mode : SelectionMode) (ruleId targetPath : jstring)
    (event : ResolutionEvent) : option TraceRuleSelectionEvidence :=
  match selects mode ruleId event with
  | None => None
  | Some (kind, source) =>
      if eventAppliesToPath trace event targetPath then
        Some {| se_eventId := ev_id event; se_sequence := ev_sequence event; se_eventKind := kind;
                se_selectionSource := source; se_targetId := ev_targetId event;
                se_uncertainty := ev_uncertainty event |}
      else None
  end.

Definition selectionReason (ruleId : jstring) (evidence : list TraceRuleSelectionEvidence) : jstring :=
  match find (fun e => is_known (se_uncertainty e)) evidence with
  | Some known =>
      #"Rule '" ++ ruleId ++ #"' is explicitly selected by event '" ++ se_eventId known
      ++ #"' at sequence " ++ number_json (se_sequence known) ++ #"."
  | None =>
      match evidence with
      | [] => #"Trace contains no explicit positive selection for rule '" ++ ruleId
              ++ #"' and does not prove deselection."
      | first :: _ =>
          #"Selection for rule '" ++ ruleId ++ #"' is " ++ uncertaintyDescription (se_uncertainty first) ++ #"."
      end
  end.

(** The selection in a normalized trace. *)
Definition selectionIn (trace : ResolutionEventTrace) (query : TraceRuleSelectionQuery)
    : trace_res TraceRuleSelection :=
  origin ← match find (fun r => jeqb (tr_id r) (tr_id (q_rule query))) (trace_rules trace) with
           | Some origin => Ok origin
           | None => Err invalidRelationship
           end;
  _ ← ensure (sameRuleDescriptor origin (q_rule query)) invalidRelationship;
  let ruleId := tr_id origin in
  let evidence := omap (evidenceOf trace (q_mode query) ruleId (q_targetPath query)) (trace_events trace) in
  Ok {| sel_state := if existsb (fun e => is_known (se_uncertainty e)) evidence
                     then selection_active else selection_indeterminate;
        sel_ruleId := ruleId; sel_targetPath := q_targetPath query; sel_evidence := evidence;
        sel_reason := selectionReason ruleId evidence |}.

Definition resolveTraceRuleSelection (trace query : value) : trace_res TraceRuleSelection :=
  normalized ← normalizeResolutionEventTrace h trace;
  normalizedQuery ← normalizeRuleSelectionQuery query;
  selectionIn normalized normalizedQuery.

(** ** Callbacks of the activation algebra *)

Definition REQUEST_KEYS : list jstring :=
  [ #"ruleId"; #"documentId"; #"profileId"; #"surfaceId"; #"specSnapshotId"; #"targetPath"; #"conditions"].

Definition selection_state (s : SelectionState) : ActivationState :=
  match s with selection_active => active | selection_indeterminate => indeterminate end.

Definition decisionFor (trace request : value) (mode : SelectionMode) : trace_res ActivationFactDecision :=
  record ← assertRecord h request REQUEST_KEYS;
  result ← resolveTraceRuleSelection trace
    (VRecord [(#"rule", VRecord [(#"id", dataProperty record #"ruleId");
                                 (#"documentId", dataProperty record #"documentId");
                                 (#"profileId", dataProperty record #"profileId");
                                 (#"surfaceId", dataProperty record #"surfaceId");
                                 (#"specSnapshotId", dataProperty record #"specSnapshotId");
                                 (#"kind", VString (mode_name mode));
                                 (#"conditions", dataProperty record #"conditions")]);
              (#"targetPath", dataProperty record #"targetPath"); (#"mode", VString (mode_name mode))]);
  Ok {| decision_state := selection_state (sel_state result); reason := sel_reason result |}.

(** ** The setting in force *)

Inductive TraceSettingResult :=
| setting_known (key : jstring) (v : value) (eventId : jstring) (sequence : number)
| setting_indeterminate (key eventId : jstring) (sequence : number) (reason : jstring)
| setting_unrecorded (key : jstring).

Definition event_settings (p : EventPayload) : list ResolutionSetting :=
  match p with Launch _ _ settings | SettingsChange settings => settings | _ => [] end.

(** One round of the loop over the events. *)
Definition assignSetting (trace : ResolutionEventTrace) (key targetPath : jstring)
    (result : TraceSettingResult) (event : ResolutionEvent) : TraceSettingResult :=
  if eventAppliesToPath trace event targetPath then
    match find (fun s => jeqb (set_key s) key) (event_settings (ev_payload event)) with
    | None => result
    | Some setting =>
        if is_known (ev_uncertainty event)
        then setting_known key (set_value setting) (ev_id event) (ev_sequence event)
        else setting_indeterminate key (ev_id event) (ev_sequence event)
               (uncertaintyDescription (ev_uncertainty event))
    end
  else result.

Definition settingIn (trace : ResolutionEventTrace) (key targetPath : jstring) : TraceSettingResult :=
  fold_left (assignSetting trace key targetPath) (trace_events trace) (setting_unrecorded key).

Definition validateSettingQuery (v : value) : validating (jstring * jstring) :=
  record ← pureV (assertRecord h v [ #"key"; #"targetPath"]);
  key ← text (dataProperty record #"key");
  _ ← checkV (negb (has_control key)) invalidInput;
  targetPath ← path (dataProperty record #"targetPath");
  mret (key, targetPath).

Definition resolveTraceSetting (trace query : value) : trace_res TraceSettingResult :=
  normalized ← normalizeResolutionEventTrace h trace;
  '(key, targetPath) ← fst <$> validateSettingQuery query no_budget_used;
  Ok (settingIn normalized key targetPath).
End queries.
