(* ===== verification/TraceReading.v ===== *)
(** What the normalizer of event traces computes
    (packages/resolver/src/resolution-event-trace.ts), in four independent
    parts: reading a value as a draft, the validity of a draft, the canonical
    form of a draft, and its cost against the limits.  The normalizer
    interleaves them; [validateTrace_decodes] takes it apart. *)
From S2P Require Import Prelude JsString OrderedMap Unicode Identifiers JsValue RepositoryPath ActivationAlgebra ObjectGraph JsonText CanonicalDigest ResolutionTrace TraceQueries.

(** Literals stay folded when goals are simplified. *)
Arguments js s : simpl never.

(** ** Costs *)

Definition spend (b c : ValidationBudget) : ValidationBudget :=
  {| jsonNodes := jsonNodes b + jsonNodes c; b_textBytes := b_textBytes b + b_textBytes c |}.

Definition within (b : ValidationBudget) : Prop :=
  (jsonNodes b <= maxJsonNodes)%N /\ (b_textBytes b <= maxInputTextBytes)%N.

Fixpoint total (l : list ValidationBudget) : ValidationBudget :=
  match l with [] => no_budget_used | c :: r => spend c (total r) end.

Definition text_cost (s : jstring) : ValidationBudget := {| jsonNodes := 0; b_textBytes := textBytes s |}.
Definition texts_cost (l : list jstring) : ValidationBudget := total (map text_cost l).
Definition node_cost : ValidationBudget := {| jsonNodes := 1; b_textBytes := 0 |}.

Lemma spend_zero_l b : spend no_budget_used b = b.
Proof. by destruct b. Qed.
Lemma spend_zero_r b : spend b no_budget_used = b.
Proof. destruct b. unfold spend. cbn. f_equal; lia. Qed.

(** Equality of costs. *)
Ltac costs :=
  rewrite ?spend_zero_l, ?spend_zero_r;
  first [ reflexivity
        | unfold spend, no_budget_used, text_cost, node_cost; cbn [jsonNodes b_textBytes fst snd]; f_equal; lia ].

Lemma spend_assoc a b c : spend a (spend b c) = spend (spend a b) c.
Proof. costs. Qed.
Lemma spend_comm a b : spend a b = spend b a.
Proof. costs. Qed.

Lemma within_mono b c : within (spend b c) -> within b.
Proof. unfold within, spend. cbn. lia. Qed.

#[export] Instance total_Proper : Proper ((≡ₚ) ==> (=)) total.
Proof.
  intros l k H. induction H as [|x l k _ IH|x y l|l k m _ IH1 _ IH2]; cbn; [done|by f_equal| |congruence].
  by rewrite !spend_assoc, (spend_comm y x).
Qed.

Lemma total_sort {A} (K : A -> ValidationBudget) le l : total (map K (sort_by le l)) = total (map K l).
Proof. apply total_Proper, Permutation_map, sort_by_perm. Qed.

Lemma Forall_sort {A} (P : A -> Prop) le l : Forall P (sort_by le l) <-> Forall P l.
Proof. by rewrite sort_by_perm. Qed.

Lemma total_app l k : total (l ++ k) = spend (total l) (total k).
Proof. induction l as [|x l IH]; cbn; [by rewrite spend_zero_l|]. by rewrite IH, spend_assoc. Qed.

(** ** Metered code

    [meets m R]: within the limits, [m] returns [a] at cost [c] exactly when
    [R a c] and the limits allow the cost. *)
Definition meets {A} (m : validating A) (R : A -> ValidationBudget -> Prop) : Prop :=
  forall b, within b -> forall a b',
  m b = Ok (a, b') <-> exists c, R a c /\ b' = spend b c /\ within b'.

Section meets.
Context {A B : Type}.

Lemma meets_iff (m : validating A) R S : (forall a c, R a c <-> S a c) -> meets m R -> meets m S.
Proof.
  intros HRS Hm b Hb a b'. rewrite (Hm b Hb a b'). split; intros (c & H & ?); exists c; (split; [by apply HRS|done]).
Qed.

Lemma meets_ret (a : A) : meets (mret a) (fun x c => x = a /\ c = no_budget_used).
Proof.
  intros b Hb x b'. split.
  - intros [= <- <-]. exists no_budget_used. by rewrite spend_zero_r.
  - intros (c & [-> ->] & -> & _). by rewrite spend_zero_r.
Qed.

Lemma meets_throw code : meets (A := A) (throwV code) (fun _ _ => False).
Proof. intros b Hb a b'. split; [done|]. by intros (c & [] & _). Qed.

Lemma meets_bind (m : validating A) (f : A -> validating B) R S :
  meets m R -> (forall a, meets (f a) (S a)) ->
  meets (m ≫= f) (fun y c => exists a c1 c2, R a c1 /\ S a y c2 /\ c = spend c1 c2).
Proof.
  intros Hm Hf b Hb y b'. unfold mbind, validating_mbind. split.
  - destruct (m b) as [[a b1]|] eqn:E; [|done]. apply Hm in E as (c1 & HR & -> & H1); [|done].
    intros (c2 & HS & -> & H2)%Hf; [|done]. exists (spend c1 c2). rewrite spend_assoc. split; [|done].
    by exists a, c1, c2.
  - intros (c & (a & c1 & c2 & HR & HS & ->) & -> & H2). rewrite spend_assoc in *.
    assert (within (spend b c1)) as H1 by (by eapply within_mono).
    assert (m b = Ok (a, spend b c1)) as -> by (apply Hm; [done|]; by exists c1).
    apply Hf; [done|]. by exists c2.
Qed.

Lemma meets_pure (r : trace_res A) : meets (pureV r) (fun a c => r = Ok a /\ c = no_budget_used).
Proof.
  intros b Hb a b'. unfold pureV. split.
  - intros (x & -> & [= -> <-])%bind_Ok. exists no_budget_used. by rewrite spend_zero_r.
  - intros (c & [-> ->] & -> & _). by rewrite spend_zero_r.
Qed.
End meets.

Lemma meets_option {A B} (o : option B) (f : B -> validating A) S code :
  (forall b, meets (f b) (S b)) ->
  meets (match o with Some b => f b | None => throwV code end) (fun a c => exists b, o = Some b /\ S b a c).
Proof.
  intros Hf. destruct o as [b|].
  - eapply meets_iff; [|apply Hf]. intros a c. split; [by exists b|]. by intros (b' & [= <-] & ?).
  - eapply meets_iff; [|apply meets_throw]. intros a c. split; [done|]. by intros (? & ? & _).
Qed.

Lemma meets_check (x : bool) code : meets (checkV x code) (fun _ c => x = true /\ c = no_budget_used).
Proof.
  eapply meets_iff; [|apply meets_pure]. intros [] c. by rewrite ensure_Ok.
Qed.

(** [decodes m rd V C K]: [m] reads a draft with [rd], checks its validity
    [V], pays its cost [K] and returns its canonical form [C]. *)
Abbreviation decodes m rd V C K :=
  (meets m (fun a c => exists d, rd = Some d /\ V d /\ a = C d /\ c = K d)).

Section loops.
Context {X A D : Type} (rd : X -> option D) (V : D -> Prop) (C : D -> A) (K : D -> ValidationBudget).

Lemma decodes_mapV (f : X -> validating A) l :
  (forall x, decodes (f x) (rd x) V C K) ->
  decodes (mapV f l) (mapM rd l) (Forall V) (map C) (fun ds => total (map K ds)).
Proof.
  intros Hf. induction l as [|x l IH]; cbn [mapV].
  - eapply meets_iff; [|apply meets_ret]. intros a c. split.
    + intros [-> ->]. by exists [].
    + intros (d & [= <-] & _ & -> & ->). done.
  - eapply meets_iff; [|eapply meets_bind; [apply Hf|]; intros y; eapply meets_bind; [apply IH|]; intros ys; apply meets_ret].
    intros a c. cbn [mapM]. split.
    + intros (y & c1 & c2 & (d & Hd & HV & -> & ->) & (ys & c3 & c4 & (ds & Hds & HVs & -> & ->) & [-> ->] & ->) & ->).
      exists (d :: ds). rewrite Hd. cbn. rewrite Hds. cbn. rewrite spend_zero_r. split_and!; try done. by constructor.
    + intros (ds & H & HV & -> & ->). destruct (rd x) as [d|] eqn:Ed; [|done]. cbn in H.
      destruct (mapM rd l) as [ds'|] eqn:Eds; [|done]. cbn in H. injection H as <-.
      apply Forall_cons in HV as [HV HVs]. exists (C d), (K d), (spend (total (map K ds')) no_budget_used).
      split; [by exists d|]. split.
      * exists (map C ds'), (total (map K ds')), no_budget_used. split; [by exists ds'|done].
      * by rewrite spend_zero_r.
Qed.

Lemma decodes_distinctV (f : list jstring -> X -> validating A) (key : A -> jstring) l :
  (forall seen x, decodes (f seen x) (rd x) (fun d => V d /\ key (C d) ∉ seen) C K) ->
  forall seen, decodes (distinctV f key seen l) (mapM rd l)
    (fun ds => Forall V ds /\ NoDup (map (fun d => key (C d)) ds) /\ forall d, d ∈ ds -> key (C d) ∉ seen)
    (map C) (fun ds => total (map K ds)).
Proof.
  intros Hf. induction l as [|x l IH]; intros seen; cbn [distinctV].
  - eapply meets_iff; [|apply meets_ret]. intros a c. split.
    + intros [-> ->]. exists []. split_and!; try done; [constructor|by intros ? ?%not_elem_of_nil].
    + intros (d & [= <-] & _ & -> & ->). done.
  - eapply meets_iff; [|eapply meets_bind; [apply Hf|]; intros y; eapply meets_bind; [apply IH|]; intros ys; apply meets_ret].
    intros a c. cbn [mapM]. split.
    + intros (y & c1 & c2 & (d & Hd & [HV Hk] & -> & ->) & (ys & c3 & c4 & (ds & Hds & (HVs & Hnd & Hs) & -> & ->) & [-> ->] & ->) & ->).
      exists (d :: ds). rewrite Hd. cbn. rewrite Hds. cbn. rewrite spend_zero_r. split_and!; try done.
      * by constructor.
      * constructor; [|done]. intros (d' & E & Hd')%list_elem_of_fmap. destruct (Hs d' Hd'). cbn in E. rewrite <- E. set_solver.
      * intros d' [->|Hd']%elem_of_cons; [done|]. specialize (Hs d' Hd'). set_solver.
    + intros (ds & H & (HV & Hnd & Hs) & -> & ->). destruct (rd x) as [d|] eqn:Ed; [|done]. cbn in H.
      destruct (mapM rd l) as [ds'|] eqn:Eds; [|done]. cbn in H. injection H as <-.
      apply Forall_cons in HV as [HV HVs]. cbn [map] in Hnd. apply NoDup_cons in Hnd as [Hn Hnd].
      exists (C d), (K d), (spend (total (map K ds')) no_budget_used). split.
      { exists d. split_and!; try done. apply Hs. left. }
      split; [|by rewrite spend_zero_r].
      exists (map C ds'), (total (map K ds')), no_budget_used. split; [|done].
      exists ds'. split_and!; try done. intros d' Hd' [Hin|Heq%list_elem_of_singleton]%elem_of_app.
      * destruct (Hs d'); [by right|done].
      * apply Hn. rewrite <- Heq. by apply (list_elem_of_fmap_2 (fun d => key (C d))).
Qed.

Lemma decodes_imapV (f : nat -> X -> validating A) (W : nat -> D -> Prop) l : forall n,
  (forall i x, decodes (f i x) (rd x) (W i) C K) ->
  decodes (imapV f n l) (mapM rd l) (fun ds => forall i d, ds !! i = Some d -> W (n + i)%nat d) (map C)
    (fun ds => total (map K ds)).
Proof.
  intros n Hf. revert n. induction l as [|x l IH]; intros n; cbn [imapV].
  - eapply meets_iff; [|apply meets_ret]. intros a c. split.
    + intros [-> ->]. by exists [].
    + intros (d & [= <-] & _ & -> & ->). done.
  - eapply meets_iff; [|eapply meets_bind; [apply Hf|]; intros y; eapply meets_bind; [apply IH|]; intros ys; apply meets_ret].
    intros a c. cbn [mapM]. split.
    + intros (y & c1 & c2 & (d & Hd & HV & -> & ->) & (ys & c3 & c4 & (ds & Hds & HVs & -> & ->) & [-> ->] & ->) & ->).
      exists (d :: ds). rewrite Hd. cbn. rewrite Hds. cbn. rewrite spend_zero_r. split_and!; try done.
      intros [|i] e He; cbn in He; [injection He as <-; by rewrite Nat.add_0_r|].
      apply HVs in He. by rewrite Nat.add_succ_r.
    + intros (ds & H & HV & -> & ->). destruct (rd x) as [d|] eqn:Ed; [|done]. cbn in H.
      destruct (mapM rd l) as [ds'|] eqn:Eds; [|done]. cbn in H. injection H as <-.
      exists (C d), (K d), (spend (total (map K ds')) no_budget_used). split.
      { exists d. split_and!; try done. specialize (HV 0 d eq_refl). by rewrite Nat.add_0_r in HV. }
      split; [|by rewrite spend_zero_r].
      exists (map C ds'), (total (map K ds')), no_budget_used. split; [|done]. exists ds'. split_and!; try done.
      intros i e He. specialize (HV (S i) e He). by rewrite Nat.add_succ_r in HV.
Qed.
End loops.

(** A loop whose items are canonical as they are. *)
Lemma decodes_mapV_same {X D} (rd : X -> option D) V K (f : X -> validating D) l :
  (forall x, decodes (f x) (rd x) V (fun d => d) K) ->
  decodes (mapV f l) (mapM rd l) (Forall V) (fun ds => ds) (fun ds => total (map K ds)).
Proof.
  intros Hf. eapply meets_iff; [|apply (decodes_mapV rd V (fun d => d) K), Hf].
  intros a c. cbv beta. by setoid_rewrite map_id.
Qed.

(** ** Reading texts, records and arrays *)

Definition read_text (v : value) : option jstring := match v with VString s => Some s | _ => None end.

(** A text within the limit of one text. *)
Definition text_fits (s : jstring) : Prop := wf_text s /\ (textBytes s <= maxTextBytes)%N.
Definition valid_text (s : jstring) : Prop := s <> [] /\ text_fits s.
Definition valid_id (s : jstring) : Prop := valid_text s /\ STABLE_ID s = true.
Definition valid_path (s : jstring) : Prop := valid_text s /\ isRepositoryRelativePath s = true.

Definition read_record (h : heap) (v : value) (keys : list jstring) : option (list (jstring * value)) :=
  record ← isDataRecord h v; if hasExactKeys record keys then Some record else None.

(** The items of a dense array of any length. *)
Definition read_array (h : heap) (v : value) : option (list value) :=
  o ← object_of h v;
  if regular_array o && (N.of_nat (length (obj_own o)) =? array_length o)%N
  then match rmapM (denseEntry (obj_own o)) (seq 0 (length (obj_own o))) with Ok items => Some items | Err _ => None end
  else None.

Lemma assertRecord_Ok h v keys record :
  assertRecord h v keys = Ok record <-> read_record h v keys = Some record.
Proof.
  unfold assertRecord, read_record. destruct (isDataRecord h v) as [r|]; cbn; [|done].
  destruct (hasExactKeys r keys); cbn; [|done]. naive_solver.
Qed.

Lemma denseItems_Ok h v maximum items :
  assertDenseArray h v maximum = Ok items <-> read_array h v = Some items /\ (N.of_nat (length items) <= maximum)%N.
Proof.
  unfold assertDenseArray, read_array. destruct (object_of h v) as [o|]; cbn; [|naive_solver].
  destruct (regular_array o); cbn; [|naive_solver].
  destruct (N.eqb_spec (N.of_nat (length (obj_own o))) (array_length o)) as [E|E]; cbn.
  - rewrite <- E. destruct (rmapM _ _) as [l|] eqn:El.
    + pose proof (rmapM_length _ _ _ El) as Hl. rewrite length_seq in Hl. rewrite <- Hl.
      destruct (N.leb_spec (N.of_nat (length l)) maximum); cbn; [naive_solver|].
      split; [done|]. intros [[= ->] ?]. lia.
    + destruct (_ <=? _)%N; cbn; naive_solver.
  - destruct (_ <=? _)%N; cbn; naive_solver.
Qed.

Lemma addText_meets s allowEmpty :
  meets (addText s allowEmpty)
    (fun a c => (allowEmpty = true \/ s <> []) /\ text_fits s /\ a = s /\ c = text_cost s).
Proof.
  intros b [Hn Ht] a b'. unfold addText, text_fits. split.
  - intros (u & H1%ensure_Ok & H)%bind_Ok. apply bind_Ok in H as (u' & H2%ensure_Ok & H).
    apply bind_Ok in H as (u'' & H3%ensure_Ok & [= <- <-]). apply andb_true_iff in H1 as [H0 H1].
    apply N.leb_le in H2, H3. exists (text_cost s). split_and!; try done.
    + apply orb_true_iff in H0 as [H0|H0]; [by left|right]. by apply negb_true_iff, jeqb_neq in H0.
    + costs.
  - intros (c & (He & [Hwf Hb] & -> & ->) & -> & [Hw1 Hw2]).
    assert (allowEmpty || negb (jeqb s []) = true) as ->.
    { destruct He as [->|He]; [done|]. apply orb_true_iff. right. by apply negb_true_iff, jeqb_neq. }
    rewrite Hwf. cbn in Hw2 |- *. apply N.leb_le in Hb. rewrite Hb. cbn.
    apply N.leb_le in Hw2. rewrite Hw2. cbn. do 2 f_equal. costs.
Qed.

Lemma countNode_meets : meets countNode (fun _ c => c = node_cost).
Proof.
  intros b [Hn Ht] a b'. unfold countNode. split.
  - intros (u & H%ensure_Ok & [= <- <-])%bind_Ok. apply N.leb_le in H. exists node_cost. split_and!; try done.
    costs.
  - intros (c & -> & -> & [Hw1 Hw2]). cbn in Hw1. apply N.leb_le in Hw1. cbn -[N.leb]. rewrite Hw1. cbn.
    destruct a. do 2 f_equal. costs.
Qed.

Lemma meets_record h v keys :
  meets (pureV (assertRecord h v keys)) (fun r c => read_record h v keys = Some r /\ c = no_budget_used).
Proof. eapply meets_iff; [|apply meets_pure]. intros a c. cbv beta. by rewrite assertRecord_Ok. Qed.

Lemma meets_array h v maximum :
  meets (pureV (assertDenseArray h v maximum))
    (fun l c => read_array h v = Some l /\ (N.of_nat (length l) <= maximum)%N /\ c = no_budget_used).
Proof.
  eapply meets_iff; [|apply meets_pure]. intros a c. cbv beta. rewrite denseItems_Ok. tauto.
Qed.

Create HintDb metered discriminated.
#[export] Hint Extern 0 (meets (mret _) _) => apply meets_ret : metered.
#[export] Hint Extern 0 (meets (throwV _) _) => apply meets_throw : metered.
#[export] Hint Extern 0 (meets (checkV _ _) _) => apply meets_check : metered.
#[export] Hint Extern 0 (meets (pureV (assertRecord _ _ _)) _) => apply meets_record : metered.
#[export] Hint Extern 0 (meets (pureV (assertDenseArray _ _ _)) _) => apply meets_array : metered.
#[export] Hint Extern 0 (meets (addText _ _) _) => apply addText_meets : metered.
#[export] Hint Extern 0 (meets countNode _) => apply countNode_meets : metered.

(** The shape of the code gives its relation. *)
Ltac metered :=
  repeat match goal with
  | |- meets (_ ≫= _) _ => eapply meets_bind; [|intros ?]
  | |- meets (match _ with Some _ => _ | None => throwV _ end) _ => eapply meets_option; intros ?
  | |- meets _ _ => solve [eauto 2 with metered nocore]
  | |- meets (match ?x with _ => _ end) _ => destruct x eqn:?
  end.

(** Takes conjunctions and existentials of the context apart. *)
Ltac open_all :=
  repeat match goal with
  | H : exists _, _ |- _ => destruct H as [? H]
  | H : _ /\ _ |- _ => destruct H
  | H : False |- _ => destruct H
  | H : ?x = _ |- _ => is_var x; subst x
  | H : _ = ?x |- _ => is_var x; subst x
  | H : Some _ = Some _ |- _ => injection H as H
  | H : None = Some _ |- _ => discriminate H
  | H : _ ≫= _ = Some _ |- _ => apply bind_Some in H
  | H : _ <$> _ = Some _ |- _ => apply fmap_Some in H
  | u : unit |- _ => destruct u
  end.

(** Computes with the reads and checks of the context. *)
Ltac use_equations :=
  repeat (match goal with
          | H : ?t = Some _ |- context [?t] => rewrite H
          | H : ?t = true |- context [?t] => rewrite H
          end; cbn [mbind option_bind fmap option_fmap option_map]).

(** Puts a relation together from what the context holds. *)
Ltac close_all :=
  repeat match goal with
  | |- exists _, _ => eexists
  | |- _ /\ _ => split
  end; try done; try eassumption; try costs.

Lemma text_decodes v : decodes (text v) (read_text v) valid_text (fun s => s) text_cost.
Proof.
  destruct v; try (eapply meets_iff; [|apply meets_throw]; intros a c; cbn; naive_solver).
  eapply meets_iff; [|apply addText_meets]. intros a c. cbn. unfold valid_text. naive_solver.
Qed.
#[export] Hint Extern 0 (meets (text _) _) => apply text_decodes : metered.

Lemma identifier_decodes v : decodes (identifier v) (read_text v) valid_id (fun s => s) text_cost.
Proof.
  eapply meets_iff; [|unfold identifier; metered]. intros a c. unfold valid_id.
  split; intros H; open_all; close_all.
Qed.

Lemma path_decodes v : decodes (path v) (read_text v) valid_path (fun s => s) text_cost.
Proof.
  eapply meets_iff; [|unfold path; metered]. intros a c. unfold valid_path.
  split; intros H; open_all; close_all.
Qed.
#[export] Hint Extern 0 (meets (identifier _) _) => apply identifier_decodes : metered.
#[export] Hint Extern 0 (meets (path _) _) => apply path_decodes : metered.

(** ** JSON values

    A draft is the frozen copy of a value. *)

Fixpoint copyJson (h : heap) (room : nat) (ancestors : list loc) (v : value) : option value :=
  match room with
  | O => None
  | S room' =>
      match v with
      | VNull | VBool _ | VString _ | VNumber _ => Some v
      | VUndefined | VFunction | VOther => None
      | VRef _ | VArray _ | VRecord _ =>
          o ← object_of h v;
          if negb (obj_proxy o) && negb (is_ancestor ancestors v) then
            if is_array o then
              items ← read_array h v;
              VArray <$> mapM (copyJson h room' (with_ancestor ancestors v)) items
            else
              record ← isDataRecord h v;
              VRecord <$> mapM (fun key =>
                            x ← copyJson h room' (with_ancestor ancestors v) (dataProperty record key);
                            Some (key, x)) (keys_of record)
          else None
      end
  end.

(** The texts fit, the numbers are finite and the arrays are within their limit. *)
Inductive valid_json : value -> Prop :=
| valid_null : valid_json VNull
| valid_bool b : valid_json (VBool b)
| valid_number x : finite_json x = true -> valid_json (VNumber x)
| valid_string s : text_fits s -> valid_json (VString s)
| valid_array items :
    (N.of_nat (length items) <= maxJsonNodes)%N -> Forall valid_json items -> valid_json (VArray items)
| valid_record fields :
    Forall (fun f => text_fits f.1) fields -> Forall (fun f => valid_json f.2) fields -> valid_json (VRecord fields).

Definition key_order {A} (f g : jstring * A) : bool := jleb f.1 g.1.

Fixpoint canonical_json (v : value) : value :=
  match v with
  | VArray items => VArray (map canonical_json items)
  | VRecord fields => VRecord (own_order (sort_by key_order (map (fun f => (f.1, canonical_json f.2)) fields)))
  | _ => v
  end.

Fixpoint json_cost (v : value) : ValidationBudget :=
  spend node_cost
    match v with
    | VString s => text_cost s
    | VArray items => total (map json_cost items)
    | VRecord fields => total (map (fun f => spend (text_cost f.1) (json_cost f.2)) fields)
    | _ => no_budget_used
    end.

Definition body_cost (v : value) : ValidationBudget :=
  match v with
  | VString s => text_cost s
  | VArray items => total (map json_cost items)
  | VRecord fields => total (map (fun f => spend (text_cost f.1) (json_cost f.2)) fields)
  | _ => no_budget_used
  end.

Lemma json_cost_body v : json_cost v = spend node_cost (body_cost v).
Proof. by destruct v. Qed.

Section json_object.
Context (h : heap) (normalize : list loc -> value -> validating value) (copy : list loc -> value -> option value).
Context (inner_decodes : forall anc v, decodes (normalize anc v) (copy anc v) valid_json canonical_json json_cost).

Definition copy_field (anc : list loc) (record : list (jstring * value)) (key : jstring) : option (jstring * value) :=
  x ← copy anc (dataProperty record key); Some (key, x).

Definition copy_object (anc : list loc) (v : value) : option value :=
  o ← object_of h v;
  if negb (obj_proxy o) && negb (is_ancestor anc v) then
    if is_array o then
      items ← read_array h v; VArray <$> mapM (copy (with_ancestor anc v)) items
    else
      record ← isDataRecord h v; VRecord <$> mapM (copy_field (with_ancestor anc v) record) (keys_of record)
  else None.

Definition field_cost (f : jstring * value) : ValidationBudget := spend (text_cost f.1) (json_cost f.2).
Definition canonical_field (f : jstring * value) : jstring * value := (f.1, canonical_json f.2).

Lemma fields_decode anc record keys :
  decodes (mapV (fun key => _ ← addText key true; x ← normalize anc (dataProperty record key); mret (key, x))
                (sort_by jleb keys))
    (mapM (copy_field anc record) keys)
    (Forall (fun f => text_fits f.1 /\ valid_json f.2))
    (fun fields => sort_by key_order (map canonical_field fields)) (fun fields => total (map field_cost fields)).
Proof.
  eapply meets_iff; [|eapply (decodes_mapV (copy_field anc record) (fun f => text_fits f.1 /\ valid_json f.2)
                                canonical_field field_cost)].
  - intros a c. cbv beta. setoid_rewrite (mapM_sort_by jleb key_order).
    + split.
      * intros (ds & (zs & Hz & ->) & HV & -> & ->). exists zs. rewrite Forall_sort in HV. rewrite total_sort.
        split_and!; try done. by apply sort_by_map.
      * intros (zs & Hz & HV & -> & ->). exists (sort_by key_order zs). rewrite Forall_sort, total_sort.
        split_and!; [by exists zs|done| |done]. symmetry. by apply sort_by_map.
    + intros x y x' y' H1 H2. unfold copy_field in *. open_all. by subst.
  - intros key. eapply meets_iff; [|metered; apply inner_decodes]. intros a c.
    unfold copy_field, field_cost. split; intros H; open_all.
    + use_equations. close_all.
    + subst. cbn in *. close_all.
Qed.

Lemma object_decodes anc v :
  decodes (normalizeJsonObject h normalize anc v) (copy_object anc v) valid_json canonical_json body_cost.
Proof.
  unfold normalizeJsonObject, copy_object.
  destruct (object_of h v) as [o|]; [|eapply meets_iff; [|apply meets_throw]; naive_solver].
  cbn [mbind option_bind]. destruct (is_array o) eqn:Ea.
  - eapply meets_iff; [|metered; apply (decodes_mapV (copy (with_ancestor anc v))); intros; apply inner_decodes].
    intros a c. split; intros H; open_all.
    + use_equations. close_all. constructor; [|done]. by erewrite <- length_mapM.
    + destruct (negb (obj_proxy o)); [|done]. destruct (negb (is_ancestor anc v)); [|done]. cbn in H. open_all.
      match goal with H : valid_json _ |- _ => inversion H; subst end. close_all. by erewrite length_mapM.
  - destruct (isDataRecord h v) as [record|].
    + eapply meets_iff; [|metered; apply fields_decode]. intros a c. split; intros H; open_all.
      * use_equations. close_all. match goal with H : Forall _ _ |- _ => apply Forall_and in H as [? ?] end.
        by constructor.
      * destruct (negb (obj_proxy o)); [|done]. destruct (negb (is_ancestor anc v)); [|done]. cbn in H. open_all.
        match goal with H : valid_json _ |- _ => inversion H; subst end. close_all. by apply Forall_and.
    + eapply meets_iff; [|metered]. intros a c. split; intros H; open_all.
      destruct (negb (obj_proxy o)), (negb (is_ancestor anc v)); done.
Qed.
End json_object.

Lemma copyJson_object h room anc v :
  match v with VRef _ | VArray _ | VRecord _ => True | _ => False end ->
  copyJson h (S room) anc v = copy_object h (copyJson h room) anc v.
Proof. by destruct v. Qed.

Lemma json_object_decodes h room anc v :
  match v with VRef _ | VArray _ | VRecord _ => True | _ => False end ->
  (forall anc v, decodes (normalizeJsonValue h room anc v) (copyJson h room anc v) valid_json canonical_json json_cost) ->
  decodes (_ ← countNode; normalizeJsonObject h (normalizeJsonValue h room) anc v)
    (copyJson h (S room) anc v) valid_json canonical_json json_cost.
Proof.
  intros Hv IH. rewrite copyJson_object by done.
  eapply meets_iff; [|metered; by apply object_decodes]. intros a c.
  split; intros H; open_all; close_all; by rewrite json_cost_body.
Qed.

Lemma normalizeJson_decodes h room anc v :
  decodes (normalizeJsonValue h room anc v) (copyJson h room anc v) valid_json canonical_json json_cost.
Proof.
  revert anc v. induction room as [|room IH]; intros anc v.
  { eapply meets_iff; [|apply meets_throw]. naive_solver. }
  assert (forall w, match w with VNull | VBool _ | VString _ | VNumber _ => True | _ => False end ->
            copyJson h (S room) anc w = Some w) as Hleaf by (by intros []).
  cbn [normalizeJsonValue]. destruct v as [| |b|x|s| | |l|items|fields];
    try (eapply meets_iff; [|metered]; intros a c; split; intros H; open_all; done).
  - rewrite Hleaf by done. eapply meets_iff; [|metered]. intros a c. split; intros H; open_all; close_all.
    constructor.
  - rewrite Hleaf by done. eapply meets_iff; [|metered]. intros a c. split; intros H; open_all; close_all.
    constructor.
  - rewrite Hleaf by done. eapply meets_iff; [|metered]. intros a c. split; intros H; open_all; subst.
    + close_all. by constructor.
    + match goal with H : valid_json _ |- _ => inversion H; subst end. close_all.
  - rewrite Hleaf by done. eapply meets_iff; [|metered]. intros a c. split; intros H; open_all; subst.
    + close_all. by constructor.
    + match goal with H : valid_json _ |- _ => inversion H; subst end. close_all.
  - apply json_object_decodes; [done|apply IH].
  - apply json_object_decodes; [done|apply IH].
  - apply json_object_decodes; [done|apply IH].
Qed.
#[export] Hint Extern 0 (meets (normalizeJsonValue _ _ _ _) _) => apply normalizeJson_decodes : metered.

Arguments named {A} name members s : simpl never.
Arguments normalizeJsonValue h room ancestors v : simpl never.
Arguments copyJson h room ancestors v : simpl never.
