(* ===== verification/TraceDrafts.v ===== *)
(** The drafts of the records of a trace
    (packages/resolver/src/resolution-event-trace.ts): for each record, reading,
    validity, canonical form and cost, and the theorem that its normalizer is
    their composition. *)
From S2P Require Import Prelude JsString OrderedMap Unicode Identifiers JsValue RepositoryPath ActivationAlgebra ObjectGraph JsonText CanonicalDigest ResolutionTrace TraceQueries TraceReading.

(** Reads a list of texts. *)
Definition read_texts (h : heap) (v : value) : option (list jstring) := read_array h v ≫= mapM read_text.

(** ** Uncertainty *)

Section reading.
Context (h : heap).

Definition read_alternative (v : value) : option Alternative :=
  record ← read_record h v [ #"id"; #"description"];
  id ← read_text (dataProperty record #"id");
  description ← read_text (dataProperty record #"description");
  Some {| alt_id := id; alt_description := description |}.

Definition read_uncertainty (v : value) : option Uncertainty :=
  record ← isDataRecord h v;
  let state := dataProperty record #"state" in
  if is_string state #"known" then
    _ ← read_record h v [ #"state"]; Some u_known
  else if is_string state #"conditional" then
    _ ← read_record h v [ #"state"; #"conditions"];
    conditions ← read_texts h (dataProperty record #"conditions");
    Some (u_conditional conditions)
  else if is_string state #"unknown" then
    _ ← read_record h v [ #"state"; #"reason"];
    reason ← read_text (dataProperty record #"reason");
    Some (u_unknown reason)
  else if is_string state #"contradiction" then
    _ ← read_record h v [ #"state"; #"reason"; #"alternatives"];
    reason ← read_text (dataProperty record #"reason");
    alternatives ← read_array h (dataProperty record #"alternatives") ≫= mapM read_alternative;
    Some (u_contradiction reason alternatives)
  else None.
End reading.

Definition at_most {A} (l : list A) (maximum : N) : Prop := (N.of_nat (length l) <= maximum)%N.

Definition valid_alternative (a : Alternative) : Prop := valid_id (alt_id a) /\ valid_text (alt_description a).

Definition valid_uncertainty (u : Uncertainty) : Prop :=
  match u with
  | u_known => True
  | u_conditional conditions =>
      at_most conditions maxEvents /\ conditions <> [] /\ Forall valid_text conditions /\ NoDup conditions
  | u_unknown reason => valid_text reason
  | u_contradiction reason alternatives =>
      valid_text reason /\ at_most alternatives maxEvents /\ 2 <= length alternatives /\
      Forall valid_alternative alternatives /\ NoDup (map alt_id alternatives)
  end.

Definition canonical_uncertainty (u : Uncertainty) : Uncertainty :=
  match u with
  | u_conditional conditions => u_conditional (sort_by jleb conditions)
  | u_contradiction reason alternatives => u_contradiction reason (sort_by alternative_le alternatives)
  | u => u
  end.

Definition alternative_cost (a : Alternative) : ValidationBudget :=
  spend (text_cost (alt_id a)) (text_cost (alt_description a)).

Definition uncertainty_cost (u : Uncertainty) : ValidationBudget :=
  match u with
  | u_known => no_budget_used
  | u_conditional conditions => texts_cost conditions
  | u_unknown reason => text_cost reason
  | u_contradiction reason alternatives => spend (total (map alternative_cost alternatives)) (text_cost reason)
  end.

Lemma texts_decode l : decodes (mapV text l) (mapM read_text l) (Forall valid_text) (fun l => l) texts_cost.
Proof. apply decodes_mapV_same, text_decodes. Qed.
#[export] Hint Extern 0 (meets (mapV text _) _) => apply texts_decode : metered.

Lemma identifiers_decode l : decodes (mapV identifier l) (mapM read_text l) (Forall valid_id) (fun l => l) texts_cost.
Proof. apply decodes_mapV_same, identifier_decodes. Qed.
#[export] Hint Extern 0 (meets (mapV identifier _) _) => apply identifiers_decode : metered.

Lemma paths_decode l : decodes (mapV path l) (mapM read_text l) (Forall valid_path) (fun l => l) texts_cost.
Proof. apply decodes_mapV_same, path_decodes. Qed.
#[export] Hint Extern 0 (meets (mapV path _) _) => apply paths_decode : metered.

Ltac bool_checks :=
  repeat match goal with
  | H : negb _ = true |- _ => apply negb_true_iff in H
  | H : negb _ = false |- _ => apply negb_false_iff in H
  | H : bool_decide _ = true |- _ => apply bool_decide_eq_true in H
  | H : bool_decide _ = false |- _ => apply bool_decide_eq_false in H
  | H : (_ <=? _)%nat = true |- _ => apply Nat.leb_le in H
  | H : (_ =? _)%nat = false |- _ => apply Nat.eqb_neq in H
  end.

Lemma not_nil_length {A} (l : list A) : l <> [] <-> length l <> 0.
Proof. by destruct l. Qed.

(** Lengths of lists read item by item. *)
Ltac lengths :=
  repeat match goal with
  | H : mapM _ ?l = Some ?k |- _ =>
      lazymatch goal with L : length l = length k |- _ => fail | _ => pose proof (length_mapM _ _ _ H) end
  end; unfold at_most in *; rewrite ?not_nil_length in *; lia.

(** Checks as goals. *)
Ltac settle :=
  close_all;
  try match goal with
  | |- negb (bool_decide _) = true => by apply negb_true_iff, bool_decide_eq_false
  | |- bool_decide _ = true => by apply bool_decide_eq_true
  | |- (_ <=? _)%nat = true => apply Nat.leb_le; lengths
  | |- negb (_ =? _)%nat = true => apply negb_true_iff, Nat.eqb_neq; lengths
  | |- (_ <= _)%N => lengths
  end.

Lemma alternative_decodes h seen v :
  decodes (normalizeAlternative h seen v) (read_alternative h v)
    (fun a => valid_alternative a /\ alt_id a ∉ seen) (fun a => a) alternative_cost.
Proof.
  unfold normalizeAlternative, read_alternative. eapply meets_iff; [|metered]. intros a c.
  unfold valid_alternative, alternative_cost. split; intros H; open_all; bool_checks.
  - use_equations. settle.
  - cbn in *. settle.
Qed.

Lemma alternatives_decode h l :
  decodes (distinctV (normalizeAlternative h) alt_id [] l) (mapM (read_alternative h) l)
    (fun ds => Forall valid_alternative ds /\ NoDup (map alt_id ds)) (fun ds => ds)
    (fun ds => total (map alternative_cost ds)).
Proof.
  eapply meets_iff; [|apply (decodes_distinctV (read_alternative h) valid_alternative (fun a => a) alternative_cost),
                       alternative_decodes].
  intros a c. cbv beta. setoid_rewrite map_id. split; intros H; open_all; close_all.
  by intros ? _ ?%not_elem_of_nil.
Qed.
#[export] Hint Extern 0 (meets (distinctV (normalizeAlternative _) _ _ _) _) => apply alternatives_decode : metered.

Lemma uncertainty_decodes h v :
  decodes (normalizeUncertainty h v) (read_uncertainty h v) valid_uncertainty canonical_uncertainty uncertainty_cost.
Proof.
  unfold normalizeUncertainty, read_uncertainty, read_texts.
  destruct (isDataRecord h v) as [record|]; [|eapply meets_iff; [|apply meets_throw]; naive_solver].
  cbn [mbind option_bind]. cbv zeta.
  destruct (is_string _ #"known"); [|destruct (is_string _ #"conditional");
    [|destruct (is_string _ #"unknown"); [|destruct (is_string _ #"contradiction")]]];
    (eapply meets_iff; [|metered]; intros a c; split; intros H; open_all; bool_checks).
  - use_equations. settle.
  - settle.
  - use_equations. settle. split_and!; [lengths|lengths|done|done].
  - cbn [valid_uncertainty] in *. open_all. settle.
  - use_equations. settle.
  - settle.
  - use_equations. settle. split_and!; [done|lengths|lengths|done|done].
  - cbn [valid_uncertainty] in *. open_all. settle.
Qed.
#[export] Hint Extern 0 (meets (normalizeUncertainty _ _) _) => apply uncertainty_decodes : metered.

(** ** Settings *)

Section reading.
Context (h : heap).

Definition read_setting (v : value) : option ResolutionSetting :=
  record ← read_record h v [ #"key"; #"value"];
  key ← read_text (dataProperty record #"key");
  x ← copyJson h (S maxJsonDepth) [] (dataProperty record #"value");
  Some {| set_key := key; set_value := x |}.

Definition read_settings (v : value) : option (list ResolutionSetting) := read_array h v ≫= mapM read_setting.

Definition read_target (v : value) : option ResolutionTarget :=
  record ← read_record h v [ #"id"; #"path"; #"purpose"];
  targetPath ← read_text (dataProperty record #"path");
  id ← read_text (dataProperty record #"id");
  purpose ← read_text (dataProperty record #"purpose");
  Some {| tgt_id := id; tgt_path := targetPath; tgt_purpose := purpose |}.

Definition read_rule (v : value) : option TraceActivationRuleDescriptor :=
  record ← read_record h v RULE_DESCRIPTOR_KEYS;
  kind ← read_text (dataProperty record #"kind") ≫= named activation_kind_name ACTIVATION_KIND_SET;
  conditions ← read_texts h (dataProperty record #"conditions");
  id ← read_text (dataProperty record #"id");
  documentId ← read_text (dataProperty record #"documentId");
  profileId ← read_text (dataProperty record #"profileId");
  surfaceId ← read_text (dataProperty record #"surfaceId");
  specSnapshotId ← read_text (dataProperty record #"specSnapshotId");
  Some {| tr_id := id; tr_documentId := documentId; tr_profileId := profileId; tr_surfaceId := surfaceId;
          tr_specSnapshotId := specSnapshotId; tr_kind := kind; tr_conditions := conditions |}.
End reading.

Definition valid_setting (s : ResolutionSetting) : Prop :=
  valid_text (set_key s) /\ has_control (set_key s) = false /\ valid_json (set_value s).

Definition valid_settings (l : list ResolutionSetting) : Prop :=
  at_most l maxSettingsPerEvent /\ Forall valid_setting l /\ NoDup (map set_key l).

Definition canonical_setting (s : ResolutionSetting) : ResolutionSetting :=
  {| set_key := set_key s; set_value := canonical_json (set_value s) |}.

Definition canonical_settings (l : list ResolutionSetting) : list ResolutionSetting :=
  sort_by setting_le (map canonical_setting l).

Definition setting_cost (s : ResolutionSetting) : ValidationBudget :=
  spend (text_cost (set_key s)) (json_cost (set_value s)).
Definition settings_cost (l : list ResolutionSetting) : ValidationBudget := total (map setting_cost l).

Lemma setting_decodes h seen v :
  decodes (normalizeSetting h seen v) (read_setting h v)
    (fun s => valid_setting s /\ set_key (canonical_setting s) ∉ seen) canonical_setting setting_cost.
Proof.
  unfold normalizeSetting, read_setting. eapply meets_iff; [|metered]. intros a c.
  unfold valid_setting, setting_cost. split; intros H; open_all; bool_checks.
  - use_equations. settle.
  - cbn [set_key set_value canonical_setting] in *. settle. by apply negb_true_iff.
Qed.

Lemma settings_decode h v requireNonEmpty :
  decodes (normalizeSettings h v requireNonEmpty) (read_settings h v)
    (fun l => valid_settings l /\ (requireNonEmpty = true -> l <> [])) canonical_settings settings_cost.
Proof.
  unfold normalizeSettings, read_settings. eapply meets_iff; [|metered;
    apply (decodes_distinctV (read_setting h) valid_setting canonical_setting setting_cost), setting_decodes].
  intros a c. unfold valid_settings, canonical_settings, settings_cost. split; intros H; open_all; bool_checks.
  - use_equations. settle; [lengths|]. intros ->. cbn [andb] in *. bool_checks. lengths.
  - settle; [|by intros ? _ ?%not_elem_of_nil].
    destruct requireNonEmpty; [|done]. cbn. apply negb_true_iff, Nat.eqb_neq.
    match goal with H : _ -> _ <> [] |- _ => specialize (H eq_refl) end. lengths.
Qed.
#[export] Hint Extern 0 (meets (normalizeSettings _ _ _) _) => apply settings_decode : metered.

(** ** Targets and rules *)

Definition valid_target (t : ResolutionTarget) : Prop :=
  valid_id (tgt_id t) /\ valid_path (tgt_path t) /\ tgt_path t <> REPOSITORY_ROOT /\ valid_text (tgt_purpose t).

Definition target_cost (t : ResolutionTarget) : ValidationBudget :=
  spend (text_cost (tgt_path t)) (spend (text_cost (tgt_id t)) (text_cost (tgt_purpose t))).

Lemma target_decodes h v :
  decodes (normalizeTarget h v) (read_target h v) valid_target (fun t => t) target_cost.
Proof.
  unfold normalizeTarget, read_target. eapply meets_iff; [|metered]. intros a c.
  unfold valid_target, target_cost. split; intros H; open_all; bool_checks.
  - use_equations. settle. by apply jeqb_neq.
  - cbn [tgt_id tgt_path tgt_purpose] in *. settle. by apply negb_true_iff, jeqb_neq.
Qed.
#[export] Hint Extern 0 (meets (normalizeTarget _ _) _) => apply target_decodes : metered.

Definition rule_ids (r : TraceActivationRuleDescriptor) : list jstring :=
  [tr_id r; tr_documentId r; tr_profileId r; tr_surfaceId r; tr_specSnapshotId r].

Definition valid_rule (r : TraceActivationRuleDescriptor) : Prop :=
  Forall valid_id (rule_ids r) /\ at_most (tr_conditions r) maxRuleConditions /\
  Forall valid_text (tr_conditions r) /\ NoDup (tr_conditions r) /\
  (tr_kind r = ak_always -> tr_conditions r = []) /\ (tr_kind r = ak_conditional -> tr_conditions r <> []).

Definition rule_cost (r : TraceActivationRuleDescriptor) : ValidationBudget :=
  spend (text_cost (activation_kind_name (tr_kind r)))
        (spend (texts_cost (tr_conditions r)) (total (map text_cost (rule_ids r)))).

(** A name is found exactly for the member that has it. *)
Lemma named_Some {A} (name : A -> jstring) members s a :
  (forall x y, name x = name y -> x = y) -> a ∈ members -> named name members s = Some a <-> s = name a.
Proof.
  intros Hinj Ha. unfold named. split.
  - intros [_ ->%jeqb_eq]%find_some. done.
  - intros ->. destruct (find _ members) as [b|] eqn:E.
    + apply find_some in E as [_ E%jeqb_eq]. f_equal. by apply Hinj.
    + apply list_elem_of_In in Ha. apply (find_none _ _ E) in Ha. by rewrite jeqb_refl in Ha.
Qed.

Lemma activation_kind_name_inj k l : activation_kind_name k = activation_kind_name l -> k = l.
Proof. by destruct k, l. Qed.

Lemma activation_kind_in k : k ∈ ACTIVATION_KIND_SET.
Proof. apply list_elem_of_In. destruct k; cbn; tauto. Qed.

Lemma named_kind s k : named activation_kind_name ACTIVATION_KIND_SET s = Some k <-> s = activation_kind_name k.
Proof. apply named_Some; [apply activation_kind_name_inj|apply activation_kind_in]. Qed.

(** The text a name was found for. *)
Ltac take_name lemma :=
  match goal with H : named _ _ _ = Some _ |- _ => let E := fresh "Ename" in pose proof H as E; apply lemma in E; subst end.

(** A computed check of a literal text. *)
Definition valid_textb (s : jstring) : bool :=
  negb (jeqb s []) && hasWellFormedUnicode s && (textBytes s <=? maxTextBytes)%N.

Lemma valid_textb_true s : valid_textb s = true -> valid_text s.
Proof.
  unfold valid_textb, valid_text, text_fits, wf_text. intros [[H1 H2]%andb_true_iff H3]%andb_true_iff.
  apply negb_true_iff, jeqb_neq in H1. by apply N.leb_le in H3.
Qed.

Lemma valid_kind_text k : valid_text (activation_kind_name k).
Proof. apply valid_textb_true. by destruct k. Qed.

Lemma guarded_false (P : Prop) `{Decision P} (b : bool) : bool_decide P && b = false -> P -> b = false.
Proof. intros Hb HP. by rewrite bool_decide_eq_true_2 in Hb. Qed.

Lemma guarded_true (P : Prop) `{Decision P} (b : bool) : (P -> b = false) -> negb (bool_decide P && b) = true.
Proof. case_bool_decide; [|done]. intros ->; done. Qed.

Lemma rule_decodes h v : decodes (normalizeRuleDescriptor h v) (read_rule h v) valid_rule (fun r => r) rule_cost.
Proof.
  unfold normalizeRuleDescriptor, read_rule, read_texts.
  eapply meets_iff; [|metered]. intros a c. unfold valid_rule, rule_cost, rule_ids.
  split; intros H; open_all; bool_checks.
  - take_name named_kind. use_equations. settle; cbn [tr_id tr_documentId tr_profileId tr_surfaceId tr_specSnapshotId tr_kind tr_conditions]; cbn [total map]; try costs.
    + by rewrite !Forall_cons.
    + lengths.
    + match goal with H : bool_decide (_ = ak_always) && _ = false |- _ => intros Hk; apply (guarded_false _ _ H) in Hk end.
      by bool_checks.
    + match goal with H : bool_decide (_ = ak_conditional) && _ = false |- _ => intros Hk; apply (guarded_false _ _ H) in Hk end.
      by bool_checks.
  - cbn [tr_id tr_documentId tr_profileId tr_surfaceId tr_specSnapshotId tr_kind tr_conditions] in *. take_name named_kind. cbn [total map] in *.
    repeat match goal with H : Forall _ (_ :: _) |- _ => apply Forall_cons in H as [? H] end.
    settle; try apply valid_kind_text; apply guarded_true; intros Hk.
    + apply negb_false_iff, bool_decide_eq_true. auto.
    + apply bool_decide_eq_false. auto.
Qed.
#[export] Hint Extern 0 (meets (normalizeRuleDescriptor _ _) _) => apply rule_decodes : metered.

(** ** Events *)

Section reading.
Context (h : heap).

Definition read_nullable (v : value) : option (option jstring) :=
  match v with VNull => Some None | VString s => Some (Some s) | _ => None end.

Definition read_number (v : value) : option number := match v with VNumber x => Some x | _ => None end.

Definition read_payload (kind : EventKind) (record : list (jstring * value)) : option EventPayload :=
  match kind with
  | k_launch =>
      path ← read_text (dataProperty record #"path");
      workspaceRoots ← read_texts h (dataProperty record #"workspaceRoots");
      settings ← read_settings h (dataProperty record #"settings");
      Some (Launch path workspaceRoots settings)
  | k_path k => path ← read_text (dataProperty record #"path"); Some (PathEvent k path)
  | k_manual_rule_mention => ruleId ← read_text (dataProperty record #"ruleId"); Some (ManualRuleMention ruleId)
  | k_rule_selection =>
      ruleIds ← read_texts h (dataProperty record #"ruleIds");
      source ← read_text (dataProperty record #"selectionSource")
                 ≫= named selection_source_name SELECTION_SOURCES;
      Some (RuleSelection ruleIds source)
  | k_settings_change => settings ← read_settings h (dataProperty record #"settings"); Some (SettingsChange settings)
  | k_payloadless k => Some (PayloadlessEvent k)
  end.

Definition read_event (v : value) : option ResolutionEvent :=
  record ← isDataRecord h v;
  kind ← read_text (dataProperty record #"kind") ≫= named event_kind_name EVENT_KINDS;
  _ ← (if hasExactKeys record (eventKeys kind) then Some tt else None);
  id ← read_text (dataProperty record #"id");
  sequence ← read_number (dataProperty record #"sequence");
  targetId ← read_nullable (dataProperty record #"targetId");
  uncertainty ← read_uncertainty h (dataProperty record #"uncertainty");
  payload ← read_payload kind record;
  Some {| ev_id := id; ev_sequence := sequence; ev_targetId := targetId; ev_uncertainty := uncertainty;
          ev_payload := payload |}.
End reading.

Definition valid_payload (ruleIds : list jstring) (p : EventPayload) : Prop :=
  match p with
  | Launch path workspaceRoots settings =>
      valid_path path /\ at_most workspaceRoots maxWorkspaceRoots /\ workspaceRoots <> [] /\
      Forall valid_path workspaceRoots /\ NoDup workspaceRoots /\ valid_settings settings
  | PathEvent _ path => valid_path path
  | ManualRuleMention ruleId => valid_id ruleId /\ ruleId ∈ ruleIds
  | RuleSelection selected _ =>
      at_most selected maxKnownRules /\ selected <> [] /\ Forall valid_id selected /\ NoDup selected /\
      Forall (fun id => id ∈ ruleIds) selected
  | SettingsChange settings => valid_settings settings /\ settings <> []
  | PayloadlessEvent _ => True
  end.

(** A sequence number at its place, which is a safe integer. *)
Definition valid_sequence (index : nat) (x : number) : Prop :=
  is_position x index = true /\ (Z.of_nat index <= MAX_SAFE_INTEGER)%Z.

Definition valid_reference (targetIds : list jstring) (targetId : option jstring) : Prop :=
  match targetId with Some id => valid_id id /\ id ∈ targetIds | None => True end.

Definition valid_event (targetIds ruleIds : list jstring) (index : nat) (e : ResolutionEvent) : Prop :=
  valid_id (ev_id e) /\ valid_sequence index (ev_sequence e) /\ valid_reference targetIds (ev_targetId e) /\
  valid_uncertainty (ev_uncertainty e) /\ valid_payload ruleIds (ev_payload e).

Definition canonical_payload (p : EventPayload) : EventPayload :=
  match p with
  | Launch path workspaceRoots settings => Launch path (sort_by jleb workspaceRoots) (canonical_settings settings)
  | RuleSelection ruleIds source => RuleSelection (sort_by jleb ruleIds) source
  | SettingsChange settings => SettingsChange (canonical_settings settings)
  | p => p
  end.

Definition canonical_event (e : ResolutionEvent) : ResolutionEvent :=
  {| ev_id := ev_id e; ev_sequence := ev_sequence e; ev_targetId := ev_targetId e;
     ev_uncertainty := canonical_uncertainty (ev_uncertainty e); ev_payload := canonical_payload (ev_payload e) |}.

Definition payload_cost (p : EventPayload) : ValidationBudget :=
  match p with
  | Launch path workspaceRoots settings =>
      spend (text_cost path) (spend (texts_cost workspaceRoots) (settings_cost settings))
  | PathEvent _ path => text_cost path
  | ManualRuleMention ruleId => text_cost ruleId
  | RuleSelection ruleIds source => spend (texts_cost ruleIds) (text_cost (selection_source_name source))
  | SettingsChange settings => settings_cost settings
  | PayloadlessEvent _ => no_budget_used
  end.

Definition reference_cost (targetId : option jstring) : ValidationBudget :=
  match targetId with Some id => text_cost id | None => no_budget_used end.

Definition event_cost (e : ResolutionEvent) : ValidationBudget :=
  spend (text_cost (event_kind_name (payload_kind (ev_payload e))))
    (spend (text_cost (ev_id e))
      (spend (reference_cost (ev_targetId e))
        (spend (uncertainty_cost (ev_uncertainty e)) (payload_cost (ev_payload e))))).

Lemma selection_source_inj s t : selection_source_name s = selection_source_name t -> s = t.
Proof. by destruct s, t. Qed.
Lemma selection_source_in s : s ∈ SELECTION_SOURCES.
Proof. apply list_elem_of_In. destruct s; cbn; tauto. Qed.
Lemma named_source s x :
  named selection_source_name SELECTION_SOURCES s = Some x <-> s = selection_source_name x.
Proof. apply named_Some; [apply selection_source_inj|apply selection_source_in]. Qed.

Lemma event_kind_inj k l : event_kind_name k = event_kind_name l -> k = l.
Proof. by destruct k as [|[]| | | |[]], l as [|[]| | | |[]]. Qed.
Lemma event_kind_in k : k ∈ EVENT_KINDS.
Proof. apply list_elem_of_In. destruct k as [|[]| | | |[]]; cbn; tauto. Qed.
Lemma named_event_kind s k : named event_kind_name EVENT_KINDS s = Some k <-> s = event_kind_name k.
Proof. apply named_Some; [apply event_kind_inj|apply event_kind_in]. Qed.

Lemma valid_source_text s : valid_text (selection_source_name s).
Proof. apply valid_textb_true. by destruct s. Qed.
Lemma valid_event_kind_text k : valid_text (event_kind_name k).
Proof. apply valid_textb_true. by destruct k as [|[]| | | |[]]. Qed.

Lemma reference_decodes v :
  decodes (targetReference v) (read_nullable v)
    (fun t => match t with Some id => valid_id id | None => True end) (fun t => t) reference_cost.
Proof.
  destruct v;
    try (eapply meets_iff; [|unfold targetReference; metered]; intros a c; cbn [read_nullable read_text];
         split; intros H; open_all; done).
  - eapply meets_iff; [|unfold targetReference; metered]. intros a c. cbn [read_nullable].
    split; intros H; open_all; close_all.
  - eapply meets_iff; [|unfold targetReference; metered]. intros a c. cbn [read_nullable read_text].
    split; intros H; open_all; close_all.
Qed.
#[export] Hint Extern 0 (meets (targetReference _) _) => apply reference_decodes : metered.

Lemma sequence_meets v :
  meets (pureV (nonNegativeInteger v))
    (fun x c => read_number v = Some x /\ nonNegativeInteger v = Ok x /\ c = no_budget_used).
Proof.
  eapply meets_iff; [|apply meets_pure]. intros x c. split; intros H; open_all; close_all.
  destruct v as [| | |y| | | | | |]; try done. destruct y; try done; cbn [nonNegativeInteger] in *; by res_inv; subst.
Qed.

Lemma position_valid x index :
  (nonNegativeInteger (VNumber x) = Ok x /\ is_position x index = true) <-> valid_sequence index x.
Proof.
  unfold valid_sequence, is_position. destruct x as [| | |n|]; try (split; intros [??]; done).
  - cbn -[Z.of_nat]. split; [|by intros [H _]]. intros [_ H]. split; [done|]. apply Z.eqb_eq in H.
    unfold MAX_SAFE_INTEGER. lia.
  - cbn -[Z.of_nat]. split.
    + intros [H1 H2%Z.eqb_eq]. apply bind_Ok in H1 as (u & H1%ensure_Ok & _). apply andb_true_iff in H1 as [_ H1%Z.leb_le].
      subst n. split; [by apply Z.eqb_eq|done].
    + intros [H1 H2]. split; [|done]. apply Z.eqb_eq in H1. subst n.
      assert ((0 <=? Z.of_nat index)%Z = true) as -> by (apply Z.leb_le; lia). apply Z.leb_le in H2. by rewrite H2.
Qed.

Lemma identifier_list_decodes h v maximum minimum :
  decodes (normalizeIdentifiers h v maximum minimum) (read_texts h v)
    (fun l => at_most l maximum /\ minimum <= length l /\ Forall valid_id l /\ NoDup l) (sort_by jleb) texts_cost.
Proof.
  unfold normalizeIdentifiers, read_texts. eapply meets_iff; [|metered]. intros a c.
  split; intros H; open_all; bool_checks.
  - use_equations. settle; lengths.
  - settle.
Qed.
#[export] Hint Extern 0 (meets (normalizeIdentifiers _ _ _ _) _) => apply identifier_list_decodes : metered.

Lemma forallb_known (ids known : list jstring) :
  forallb (fun id => bool_decide (id ∈ known)) (sort_by jleb ids) = true <-> Forall (fun id => id ∈ known) ids.
Proof.
  rewrite <- (Forall_sort _ jleb), forallb_forall, Forall_forall. split; intros H id Hid.
  - apply (bool_decide_eq_true (id ∈ known)), H. by apply list_elem_of_In.
  - apply bool_decide_eq_true, H. by apply list_elem_of_In.
Qed.

Lemma payload_decodes h ruleIds kind record :
  decodes (normalizePayload h ruleIds kind record) (read_payload h kind record) (valid_payload ruleIds)
    canonical_payload payload_cost.
Proof.
  unfold normalizePayload, read_payload. destruct kind as [|k| | | |k]; (eapply meets_iff; [|metered]); intros a c.
  - unfold read_texts. split; intros H; open_all; bool_checks.
    + use_equations. settle. split_and!; [done|lengths|lengths|done|done|done].
    + cbn [valid_payload] in *. open_all. settle.
  - split; intros H; open_all; [use_equations|]; settle.
  - split; intros H; open_all; bool_checks; [use_equations|cbn [valid_payload] in *; open_all]; settle.
  - split; intros H; open_all.
    + take_name named_source. use_equations. settle.
      match goal with H : forallb _ _ = true |- _ => apply forallb_known in H end. split_and!; try done. lengths.
    + take_name named_source. cbn [valid_payload] in *. open_all. settle; [lengths|by apply forallb_known|].
      apply valid_source_text.
  - split; intros H; open_all; [use_equations|cbn [valid_payload] in *; open_all]; settle.
    split; [done|]. auto.
  - split; intros H; open_all; settle.
Qed.
#[export] Hint Extern 0 (meets (normalizePayload _ _ _ _) _) => apply payload_decodes : metered.

Lemma read_payload_kind h kind record p : read_payload h kind record = Some p -> payload_kind p = kind.
Proof. destruct kind; cbn [read_payload]; intros H; open_all; done. Qed.

Lemma read_number_Some v x : read_number v = Some x <-> v = VNumber x.
Proof. destruct v; cbn; naive_solver. Qed.

Lemma checks_known_target targetIds targetId :
  (match targetId with Some id => valid_id id | None => True end /\ known_target targetIds targetId = true) <->
  valid_reference targetIds targetId.
Proof. destruct targetId as [id|]; cbn; [by rewrite bool_decide_eq_true|tauto]. Qed.

Lemma event_decodes h targetIds ruleIds index v :
  decodes (normalizeEvent h targetIds ruleIds index v) (read_event h v) (valid_event targetIds ruleIds index)
    canonical_event event_cost.
Proof.
  unfold normalizeEvent, read_event.
  eapply meets_iff; [|eapply meets_option; intros record; metered; apply sequence_meets].
  intros a c. cbv beta. unfold valid_event, event_cost. split; intros H; open_all.
  - take_name named_event_kind. use_equations. settle; cbn [ev_id ev_sequence ev_targetId ev_uncertainty ev_payload].
    + apply position_valid. by match goal with H : read_number _ = Some _ |- _ => apply read_number_Some in H as <- end.
    + by apply checks_known_target.
    + match goal with H : read_payload _ _ _ = Some _ |- _ => rewrite (read_payload_kind _ _ _ _ H) end. costs.
  - take_name named_event_kind. cbn [ev_id ev_sequence ev_targetId ev_uncertainty ev_payload] in *.
    match goal with H : (if ?t then _ else _) = Some _ |- _ => destruct t eqn:?; [|done] end.
    match goal with H : read_payload _ _ _ = Some _ |- _ => rewrite (read_payload_kind _ _ _ _ H) end.
    match goal with H : valid_sequence _ _ |- _ => apply position_valid in H as [? ?] end.
    match goal with H : valid_reference _ _ |- _ => apply checks_known_target in H as [? ?] end.
    settle; [apply valid_event_kind_text|].
    match goal with H : read_number _ = Some _ |- _ => by apply read_number_Some in H as -> end.
Qed.

(** ** The trace *)

Definition read_trace (h : heap) (v : value) : option ResolutionEventTrace :=
  record ← read_record h v TRACE_KEYS;
  _ ← (if is_string (dataProperty record #"recordKind") RECORD_KIND then Some tt else None);
  _ ← (if is_string (dataProperty record #"contractVersion") RESOLUTION_EVENT_TRACE_CONTRACT_VERSION
       then Some tt else None);
  rules ← read_array h (dataProperty record #"rules") ≫= mapM (read_rule h);
  targets ← read_array h (dataProperty record #"targets") ≫= mapM (read_target h);
  events ← read_array h (dataProperty record #"events") ≫= mapM (read_event h);
  Some {| trace_rules := rules; trace_targets := targets; trace_events := events |}.

(** Exactly the first event is a launch. *)
Definition launch_first (events : list ResolutionEvent) : Prop :=
  match events with
  | first :: rest => is_launch first = true /\ Forall (fun e => is_launch e = false) rest
  | [] => False
  end.

Definition valid_trace (t : ResolutionEventTrace) : Prop :=
  at_most (trace_rules t) maxKnownRules /\ Forall valid_rule (trace_rules t) /\ NoDup (map tr_id (trace_rules t)) /\
  at_most (trace_targets t) maxTargets /\ Forall valid_target (trace_targets t) /\
  NoDup (map tgt_id (trace_targets t)) /\
  at_most (trace_events t) maxEvents /\
  (forall i e, trace_events t !! i = Some e ->
     valid_event (map tgt_id (trace_targets t)) (map tr_id (trace_rules t)) i e) /\
  NoDup (map ev_id (trace_events t)) /\ launch_first (trace_events t).

Definition canonical_trace (t : ResolutionEventTrace) : ResolutionEventTrace :=
  {| trace_rules := sort_by rule_le (trace_rules t); trace_targets := sort_by target_le (trace_targets t);
     trace_events := map canonical_event (trace_events t) |}.

Definition trace_cost (t : ResolutionEventTrace) : ValidationBudget :=
  spend (total (map rule_cost (trace_rules t)))
    (spend (total (map target_cost (trace_targets t))) (total (map event_cost (trace_events t)))).

Lemma launchIndexes_cons n events :
  omap (fun x => x) (imap (fun index e => if is_launch e then Some (n + index)%nat else None) events) = []
  <-> Forall (fun e => is_launch e = false) events.
Proof.
  revert n. induction events as [|e r IH]; intros n; cbn; [done|].
  rewrite Forall_cons. destruct (is_launch e); cbn; [naive_solver|].
  rewrite <- (IH (S n)). split; [intros H|intros [_ H]]; [split; [done|]|];
    (etransitivity; [|exact H]); f_equal; apply imap_ext; intros i x _; cbn; by rewrite Nat.add_succ_r.
Qed.

Lemma launch_first_spec events : launchIndexes events = [0] <-> launch_first events.
Proof.
  unfold launchIndexes, launch_first. destruct events as [|e r]; [done|]. cbn.
  pose proof (launchIndexes_cons 1 r) as Hr. cbn in Hr.
  destruct (is_launch e); cbn; [|split; [|by intros [? _]]].
  - rewrite <- Hr. split; [by intros [= H]|]. intros [_ H]. by f_equal.
  - intros H. exfalso.
    assert (forall n l, 0 ∈ omap (fun x => x) (imap (fun i e => if is_launch e then Some (S (n + i)) else None) l) -> False) as Hno.
    { intros n l (o & Ho & E)%list_elem_of_omap. apply elem_of_lookup_imap in Ho as (i & x & -> & _).
      by destruct (is_launch x). }
    apply (Hno 0 r). cbn. unfold compose in H. rewrite H. left.
Qed.

Lemma canonical_event_launch e : is_launch (canonical_event e) = is_launch e.
Proof. by destruct e as [? ? ? ? []]. Qed.

Lemma launch_first_canonical events : launch_first (map canonical_event events) <-> launch_first events.
Proof.
  unfold launch_first. destruct events as [|e r]; [done|]. cbn. rewrite canonical_event_launch, Forall_map.
  unfold compose. by setoid_rewrite canonical_event_launch.
Qed.

Lemma canonical_event_ids events : map ev_id (map canonical_event events) = map ev_id events.
Proof. by rewrite map_map. Qed.

Lemma validateTrace_decodes h v :
  decodes (validateTrace h v) (read_trace h v) valid_trace canonical_trace trace_cost.
Proof.
  unfold validateTrace, read_trace.
  eapply meets_iff; [|metered; [apply decodes_mapV_same, rule_decodes|apply decodes_mapV_same, target_decodes
    |apply (decodes_imapV (read_event h)); intros; apply event_decodes]].
  intros a c. cbv beta. unfold valid_trace, canonical_trace, trace_cost. split; intros H; open_all; bool_checks.
  - use_equations. settle; cbn [trace_rules trace_targets trace_events]; try lengths.
    + by rewrite <- canonical_event_ids.
    + by apply launch_first_canonical, launch_first_spec.
  - cbn [trace_rules trace_targets trace_events] in *. settle.
    + by destruct (is_string _ RECORD_KIND).
    + by destruct (is_string _ RESOLUTION_EVENT_TRACE_CONTRACT_VERSION).
    + match goal with H : launch_first ?l |- _ => destruct l; [done|] end.
      apply negb_true_iff, Nat.eqb_neq.
      match goal with H : mapM (read_event _) _ = Some _ |- _ => apply length_mapM in H; cbn in H; lia end.
    + apply bool_decide_eq_true. by rewrite canonical_event_ids.
    + by apply bool_decide_eq_true, launch_first_spec, launch_first_canonical.
Qed.

Lemma within_no_budget : within no_budget_used.
Proof. by split. Qed.

(** The normalizer reads, validates, pays and puts in order. *)
Lemma normalize_decodes h v t :
  normalizeResolutionEventTrace h v = Ok t <->
  exists d, read_trace h v = Some d /\ valid_trace d /\ within (trace_cost d) /\ t = canonical_trace d.
Proof.
  unfold normalizeResolutionEventTrace. split.
  - intros H. destruct (validateTrace h v no_budget_used) as [[a b']|] eqn:E; [|done]. injection H as ->.
    apply validateTrace_decodes in E as (c & (d & Hd & HV & -> & ->) & -> & Hw); [|apply within_no_budget].
    rewrite spend_zero_l in Hw. by exists d.
  - intros (d & Hd & HV & Hw & ->).
    assert (validateTrace h v no_budget_used = Ok (canonical_trace d, trace_cost d)) as ->; [|done].
    apply validateTrace_decodes; [apply within_no_budget|]. exists (trace_cost d). rewrite spend_zero_l.
    split; [by exists d|done].
Qed.
