(* ===== verification/TraceLaws.v ===== *)
(** Theorems about the normalization of event traces
    (packages/resolver/src/resolution-event-trace.ts): what it accepts, that it
    reads its own results back unchanged, and that the order in which a caller
    lists sets does not matter. *)
From S2P Require Import Prelude JsString OrderedMap Unicode Identifiers JsValue RepositoryPath ActivationAlgebra ObjectGraph JsonText CanonicalDigest ResolutionTrace TraceQueries TraceReading TraceDrafts.

(** ** Frozen JSON values *)

(** Every key leads to the value beside it. *)
Definition lookups (fields : list (jstring * value)) : Prop :=
  forall f, f ∈ fields -> map_get f.1 fields = Some f.2.

Definition is_leaf (v : value) : bool :=
  match v with VNull | VBool _ | VString _ | VNumber _ => true | _ => false end.

(** Plain data of a height. *)
Inductive frozen : nat -> value -> Prop :=
| frozen_leaf n v : is_leaf v = true -> frozen (S n) v
| frozen_array n items : Forall (frozen n) items -> frozen (S n) (VArray items)
| frozen_record n fields :
    Forall (fun f => frozen n f.2) fields -> lookups fields -> frozen (S n) (VRecord fields).

Lemma lookups_NoDup fields : NoDup (map fst fields) -> lookups fields.
Proof. intros Hnd [k v] Hf. by apply map_get_NoDup. Qed.

Lemma lookups_perm l k : l ≡ₚ k -> lookups l -> lookups k.
Proof.
  intros Hp Hl [key v] Hf. cbn [fst snd].
  assert (map_get key l = Some v) as Hv by (apply (Hl (key, v)); by rewrite Hp).
  destruct (map_get key k) as [w|] eqn:E.
  - apply map_get_elem in E. assert (map_get key l = Some w) by (apply (Hl (key, w)); by rewrite Hp). congruence.
  - apply map_get_None in E. destruct E. by apply (list_elem_of_fmap_2 fst) in Hf.
Qed.

Lemma isDataRecord_VRecord h fields : lookups fields -> isDataRecord h (VRecord fields) = Some fields.
Proof.
  intros Hl. unfold isDataRecord. cbn [object_of mbind option_bind].
  change (negb (obj_proxy (record_object fields)) && negb (is_array (record_object fields)) &&
          plain_prototype (record_object fields)) with true. cbv iota.
  apply mapM_Some_2. cbn [obj_own record_object]. apply Forall2_fmap_l, Forall_Forall2_diag, Forall_forall.
  intros [k v] Hf. unfold own_field, compose. cbn [prop_key data_property fst snd mbind option_bind].
  pose proof (record_descriptor fields k) as Hd. cbn [obj_own record_object] in Hd. rewrite Hd.
  pose proof (Hl (k, v) Hf) as E. cbn in E. by rewrite E.
Qed.

Lemma read_record_VRecord h fields keys :
  lookups fields -> hasExactKeys fields keys = true -> read_record h (VRecord fields) keys = Some fields.
Proof. intros Hl Hk. unfold read_record. rewrite isDataRecord_VRecord by done. cbn. by rewrite Hk. Qed.

Lemma read_array_VArray h items : read_array h (VArray items) = Some items.
Proof.
  unfold read_array. cbn [object_of mbind option_bind].
  assert (length (obj_own (array_object items)) = length items) as El.
  { cbn [obj_own array_object]. by rewrite length_imap. }
  rewrite El. cbn [array_length obj_slots array_object]. rewrite N.eqb_refl.
  change (regular_array (array_object items)) with true. cbn [andb].
  assert (rmapM (denseEntry (obj_own (array_object items))) (seq 0 (length items)) = Ok items) as ->; [|done].
  apply rmapM_Ok. cbn [obj_own array_object].
  enough (forall n l, (forall i x, l !! i = Some x -> items !! (n + i)%nat = Some x) ->
            Forall2 (fun i y => denseEntry (imap (fun i v => data_property (String_of_N (N.of_nat i)) v) items) i = Ok y)
                    (seq n (length l)) l) as Hgen by (by apply (Hgen 0 items)).
  intros n l. revert n. induction l as [|x l IH]; intros n Hl; cbn [length seq]; constructor.
  - specialize (Hl 0 x eq_refl). rewrite Nat.add_0_r in Hl. unfold denseEntry.
    rewrite list_lookup_imap, Hl. cbn [fmap option_fmap option_map].
    rewrite bool_decide_eq_true_2 by done. cbn [ensure mbind res_mbind].
    assert (descriptor (imap (fun i v => data_property (String_of_N (N.of_nat i)) v) items) (String_of_N (N.of_nat n))
            = Some (data_property (String_of_N (N.of_nat n)) x)) as -> by exact (array_descriptor items 0 n x Hl).
    done.
  - apply IH. intros i y Hy. specialize (Hl (S i) y Hy). by rewrite Nat.add_succ_r in Hl.
Qed.

Lemma keyed_lookups (g : jstring -> option value) keys fields :
  mapM (fun key => x ← g key; Some (key, x)) keys = Some fields -> lookups fields.
Proof.
  intros Hm%mapM_Some_1.
  assert (forall f, f ∈ fields -> g f.1 = Some f.2) as Hg.
  { intros f (i & Hi)%list_elem_of_lookup_1. destruct (Forall2_lookup_r _ _ _ _ _ Hm Hi) as (key & _ & Hf). open_all.
    by subst. }
  intros [k v] Hf. cbn [fst snd]. destruct (map_get k fields) as [w|] eqn:E.
  - apply map_get_elem in E. specialize (Hg _ Hf) as H1. specialize (Hg _ E) as H2. cbn in *. congruence.
  - apply map_get_None in E. destruct E. by apply (list_elem_of_fmap_2 fst) in Hf.
Qed.

Lemma copy_frozen h room anc v d : copyJson h room anc v = Some d -> frozen room d.
Proof.
  revert anc v d. induction room as [|room IH]; intros anc v d; [done|].
  assert (forall l k anc, mapM (copyJson h room anc) l = Some k -> Forall (frozen room) k) as Hitems.
  { intros l k anc' Hm%mapM_Some_1. apply Forall_forall. intros x (i & Hi)%list_elem_of_lookup_1.
    destruct (Forall2_lookup_r _ _ _ _ _ Hm Hi) as (y & _ & Hy). by eapply IH. }
  assert (forall w, copy_object h (copyJson h room) anc w = Some d -> frozen (S room) d) as Hobject.
  { intros w. unfold copy_object. intros (o & Ho & H)%bind_Some.
    destruct (negb (obj_proxy o) && _); [|done]. destruct (is_array o).
    - apply bind_Some in H as (items & _ & H). apply fmap_Some in H as (k & Hk & ->). apply frozen_array.
      by eapply Hitems.
    - apply bind_Some in H as (record & _ & H). apply fmap_Some in H as (k & Hk & ->). apply frozen_record.
      + apply Forall_forall. intros f (i & Hi)%list_elem_of_lookup_1. apply mapM_Some_1 in Hk.
        destruct (Forall2_lookup_r _ _ _ _ _ Hk Hi) as (y & _ & Hy). unfold copy_field in Hy.
        apply bind_Some in Hy as (x & Hx & [= <-]). by apply IH in Hx.
      + exact (keyed_lookups (fun key => copyJson h room (with_ancestor anc w) (dataProperty record key)) _ _ Hk). }
  destruct v; try (intros [= <-]; by constructor); try done; apply (Hobject _).
Qed.

Lemma frozen_copy h room anc d : frozen room d -> copyJson h room anc d = Some d.
Proof.
  revert d. induction room as [|room IH]; intros d Hd; [by inversion Hd|].
  inversion Hd as [n v Hl|n items Hi|n fields Hf Hk]; subst.
  - by destruct d.
  - rewrite copyJson_object by done. unfold copy_object. cbn [object_of mbind option_bind].
    change (is_array (array_object items)) with true. cbn [obj_proxy array_object negb is_ancestor andb].
    rewrite read_array_VArray. cbn [mbind option_bind with_ancestor].
    rewrite (mapM_Some_2 _ items items); [done|]. apply Forall_Forall2_diag. by eapply Forall_impl; [|apply IH].
  - rewrite copyJson_object by done. unfold copy_object. cbn [object_of mbind option_bind].
    change (is_array (record_object fields)) with false. cbn [obj_proxy record_object negb is_ancestor andb].
    rewrite isDataRecord_VRecord by done. cbn [mbind option_bind with_ancestor]. unfold keys_of.
    rewrite (mapM_Some_2 _ (map fst fields) fields); [done|]. apply Forall2_fmap_l, Forall_Forall2_diag.
    rewrite Forall_forall in Hf |- *. intros [k v] Hkv. unfold compose, copy_field. cbn [fst].
    pose proof (Hk _ Hkv) as E. cbn in E. unfold dataProperty. rewrite E. cbn [default].
    change (Datatypes.id v) with v. by rewrite (IH v (Hf _ Hkv)).
Qed.

(** ** Canonical JSON values *)

Lemma lookups_canonical fields : lookups fields -> lookups (map (fun f => (f.1, canonical_json f.2)) fields).
Proof.
  intros Hk f (g & -> & Hg)%list_elem_of_fmap. cbn [fst snd].
  enough (forall k, map_get k (map (fun f => (f.1, canonical_json f.2)) fields) = canonical_json <$> map_get k fields)
    as E by (rewrite E, (Hk g Hg); done).
  intros k. clear. induction fields as [|[k' v] r IHr]; cbn; [done|]. by destruct (jeqb k' k).
Qed.

Lemma frozen_canonical n v : frozen n v -> frozen n (canonical_json v).
Proof.
  revert v. induction n as [|n IH]; intros v Hv; inversion Hv as [m w Hl|m items Hi|m fields Hf Hk]; subst.
  - destruct v; by constructor.
  - cbn [canonical_json]. apply frozen_array. apply Forall_map. by eapply Forall_impl; [|intros ?; apply IH].
  - cbn [canonical_json]. apply frozen_record.
    + rewrite own_order_perm, sort_by_perm. apply Forall_map. eapply Forall_impl; [done|]. intros f. apply IH.
    + eapply lookups_perm; [by rewrite own_order_perm, sort_by_perm|]. by apply lookups_canonical.
Qed.

Lemma valid_canonical v : valid_json v -> valid_json (canonical_json v).
Proof.
  revert v. fix IH 2. intros v Hv. destruct Hv as [|b|x Hx|s Hs|items Hl Hi|fields Hk Hf]; try by constructor.
  - cbn [canonical_json]. constructor; [by rewrite length_map|].
    clear Hl. induction Hi as [|x l Hx Hl IHl]; cbn; constructor; [by apply IH|done].
  - cbn [canonical_json]. constructor; rewrite own_order_perm, sort_by_perm.
    + apply Forall_map. eapply Forall_impl; [exact Hk|]. done.
    + clear Hk. induction Hf as [|x l Hx Hl IHl]; cbn; constructor; [by apply IH|done].
Qed.

Lemma cost_canonical n v : frozen n v -> json_cost (canonical_json v) = json_cost v.
Proof.
  revert v. induction n as [|n IH]; intros v Hv; inversion Hv as [m w Hl|m items Hi|m fields Hf Hk]; subst.
  - by destruct v.
  - cbn [canonical_json json_cost]. f_equal. f_equal. rewrite map_map. apply map_ext_Forall.
    by eapply Forall_impl; [|intros ?; apply IH].
  - cbn [canonical_json json_cost]. f_equal.
    etransitivity; [apply total_Proper, Permutation_map; by rewrite own_order_perm, sort_by_perm|].
    rewrite map_map. cbn [fst snd]. f_equal. apply map_ext_Forall. eapply Forall_impl; [exact Hf|].
    intros f Hfz. cbn. by rewrite (IH _ Hfz).
Qed.

Lemma key_order_lookups l x y :
  lookups l -> x ∈ l -> y ∈ l -> key_order x y = true -> key_order y x = true -> x = y.
Proof.
  intros Hl Hx Hy H1 H2. unfold key_order in *. pose proof (jleb_antisym _ _ H1 H2) as E.
  apply Hl in Hx, Hy. destruct x as [k v], y as [k' w]. cbn in *. subst. congruence.
Qed.

Lemma sort_keys_perm l k : lookups l -> l ≡ₚ k -> sort_by key_order l = sort_by key_order k.
Proof.
  intros Hl Hp. apply sort_by_canonical; [| | |done].
  - intros x y z. apply jleb_trans.
  - intros x y. apply jleb_total.
  - intros x y. by apply key_order_lookups.
Qed.

Lemma canonical_idem n v : frozen n v -> canonical_json (canonical_json v) = canonical_json v.
Proof.
  revert v. induction n as [|n IH]; intros v Hv; [by inversion Hv|].
  pose proof (frozen_canonical _ _ Hv) as Hc.
  inversion Hv as [m w Hl|m items Hi|m fields Hf Hk]; subst.
  - by destruct v.
  - cbn [canonical_json]. f_equal. rewrite map_map. apply map_ext_Forall.
    by eapply Forall_impl; [|intros ?; apply IH].
  - cbn [canonical_json] in *. set (g := map (fun f => (f.1, canonical_json f.2)) fields) in *.
    inversion Hc as [? ? Hx| |? ? _ Hkg]; subst; [done|]. f_equal. f_equal.
    assert (map (fun f => (f.1, canonical_json f.2)) (own_order (sort_by key_order g)) = own_order (sort_by key_order g)) as ->.
    { rewrite <- (map_id (own_order _)) at 2. apply map_ext_Forall. rewrite own_order_perm, sort_by_perm.
      unfold g. apply Forall_map. eapply Forall_impl; [exact Hf|]. intros [k x] Hx. apply IH in Hx.
      unfold compose. cbn [fst snd] in *. by rewrite Hx. }
    apply sort_keys_perm; [done|]. by rewrite own_order_perm, sort_by_perm.
Qed.

(** ** Reading a trace back *)

Lemma field_cons k v r key : dataProperty ((k, v) :: r) key = if jeqb k key then v else dataProperty r key.
Proof. unfold dataProperty. cbn. by destruct (jeqb k key). Qed.

(** Records with literal keys. *)
Ltac literal_keys := apply lookups_NoDup, (bool_decide_unpack _); vm_compute; exact I.
Ltac literal_fields :=
  repeat (rewrite field_cons;
          match goal with
          | |- context [jeqb (js ?a) (js ?b)] =>
              let r := eval vm_compute in (jeqb (js a) (js b)) in
              change (jeqb (js a) (js b)) with r; cbv iota
          end).
Ltac read_literal :=
  rewrite read_record_VRecord by (first [literal_keys | vm_compute; reflexivity]);
  cbn [mbind option_bind]; literal_fields.

Lemma mapM_map_same {A B} (f : B -> option A) (g : A -> B) l :
  Forall (fun a => f (g a) = Some a) l -> mapM f (map g l) = Some l.
Proof. intros H. apply mapM_Some_2, Forall2_fmap_l, Forall_Forall2_diag. done. Qed.

Section read_back.
Context (h : heap).

Lemma read_texts_back l : read_texts h (texts_value l) = Some l.
Proof.
  unfold read_texts, texts_value. rewrite read_array_VArray. apply mapM_map_same. by apply Forall_true.
Qed.

Lemma read_alternative_back a : read_alternative h (alternative_value a) = Some a.
Proof. unfold read_alternative, alternative_value. read_literal. by destruct a. Qed.

Lemma read_uncertainty_back u : read_uncertainty h (uncertainty_value u) = Some u.
Proof.
  unfold read_uncertainty.
  destruct u as [|conditions|reason|reason alternatives]; cbn [uncertainty_value];
    (rewrite isDataRecord_VRecord by literal_keys; cbn [mbind option_bind]; literal_fields; cbn [is_string]; literal_fields;
     repeat match goal with
     | |- context [jeqb (js ?a) (js ?b)] =>
         let r := eval vm_compute in (jeqb (js a) (js b)) in change (jeqb (js a) (js b)) with r; cbv iota
     end; read_literal).
  - done.
  - by rewrite read_texts_back.
  - done.
  - rewrite read_array_VArray. cbn [mbind option_bind read_text].
    rewrite mapM_map_same; [done|]. by apply Forall_true, read_alternative_back.
Qed.

Definition readable_setting (s : ResolutionSetting) : Prop := frozen (S maxJsonDepth) (set_value s).

Lemma read_setting_back s : readable_setting s -> read_setting h (setting_value s) = Some s.
Proof.
  intros Hs. unfold read_setting, setting_value. read_literal. cbn [read_text].
  rewrite (frozen_copy h _ [] _ Hs). by destruct s.
Qed.

Lemma read_settings_back l : Forall readable_setting l -> read_settings h (settings_value l) = Some l.
Proof.
  intros Hl. unfold read_settings, settings_value. rewrite read_array_VArray. apply mapM_map_same.
  eapply Forall_impl; [exact Hl|apply read_setting_back].
Qed.

Lemma read_target_back t : read_target h (target_value t) = Some t.
Proof. unfold read_target, target_value. read_literal. by destruct t. Qed.

Lemma read_rule_back r : read_rule h (rule_value r) = Some r.
Proof.
  unfold read_rule, rule_value. read_literal. cbn [read_text mbind option_bind].
  rewrite (proj2 (named_kind _ _) eq_refl). cbn [mbind option_bind]. rewrite read_texts_back. by destruct r.
Qed.

Definition readable_event (e : ResolutionEvent) : Prop := Forall readable_setting (event_settings (ev_payload e)).

Lemma read_nullable_back x : read_nullable (VText x) = Some x.
Proof. by destruct x. Qed.

Lemma read_event_back e : readable_event e -> read_event h (event_value e) = Some e.
Proof.
  intros He. destruct e as [id sequence targetId uncertainty payload]. unfold readable_event in He. cbn [ev_payload] in He.
  unfold read_event, event_value. cbn [ev_id ev_sequence ev_targetId ev_uncertainty ev_payload].
  destruct payload as [path roots settings|k path|ruleId|ruleIds source|settings|k]; cbn [payload_fields payload_kind app event_settings] in *;
    (rewrite isDataRecord_VRecord by literal_keys; cbn [mbind option_bind]; literal_fields;
     cbn [read_text mbind option_bind read_number]; rewrite (proj2 (named_event_kind _ _) eq_refl); cbn [mbind option_bind]).
  all: match goal with |- context [hasExactKeys ?fs ?ks] =>
         assert (hasExactKeys fs ks = true) as -> by (vm_compute; reflexivity) end.
  all: rewrite read_nullable_back, read_uncertainty_back; cbn [mbind option_bind read_payload]; literal_fields;
       cbn [read_text mbind option_bind]; rewrite ?read_texts_back.
  - by rewrite read_settings_back.
  - done.
  - done.
  - cbn [mbind option_bind]. by rewrite (proj2 (named_source _ _) eq_refl).
  - by rewrite read_settings_back.
  - done.
Qed.

Definition readable_trace (t : ResolutionEventTrace) : Prop := Forall readable_event (trace_events t).

Lemma read_trace_back t : readable_trace t -> read_trace h (trace_value t) = Some t.
Proof.
  intros Ht. unfold read_trace, trace_value, trace_record. read_literal. cbn [is_string].
  rewrite !jeqb_refl. cbn [mbind option_bind]. rewrite !read_array_VArray. cbn [mbind option_bind].
  rewrite !mapM_map_same; [by destruct t| | |].
  - apply Forall_true, read_rule_back.
  - apply Forall_true, read_target_back.
  - eapply Forall_impl; [exact Ht|apply read_event_back].
Qed.
End read_back.

(** What is read can be read back. *)
Lemma read_settings_readable h v l : read_settings h v = Some l -> Forall readable_setting l.
Proof.
  unfold read_settings. intros (items & _ & Hm%mapM_Some_1)%bind_Some. apply Forall_forall.
  intros s (i & Hi)%list_elem_of_lookup_1. destruct (Forall2_lookup_r _ _ _ _ _ Hm Hi) as (w & _ & Hw).
  unfold read_setting in Hw. open_all. by eapply copy_frozen.
Qed.

Lemma read_event_readable h v e : read_event h v = Some e -> readable_event e.
Proof.
  unfold read_event, readable_event. intros H. open_all. cbn [ev_payload].
  match goal with H : read_payload _ ?k _ = Some _ |- _ => destruct k; cbn [read_payload] in H end; open_all;
    cbn [event_settings]; try done; by eapply read_settings_readable.
Qed.

Lemma read_trace_readable h v t : read_trace h v = Some t -> readable_trace t.
Proof.
  unfold read_trace, readable_trace. intros H. open_all. cbn [trace_events].
  match goal with H : mapM (read_event _) _ = Some _ |- _ => apply mapM_Some_1 in H as Hm end.
  apply Forall_forall. intros e (i & Hi)%list_elem_of_lookup_1.
  destruct (Forall2_lookup_r _ _ _ _ _ Hm Hi) as (w & _ & Hw). by eapply read_event_readable.
Qed.

(** ** Sessions that differ in the order of sets only *)

(** The items of one list correspond to those of another in some order. *)
Definition same_set {A} (R : A -> A -> Prop) (l k : list A) : Prop := exists m, Forall2 R l m /\ m ≡ₚ k.

Inductive same_json : value -> value -> Prop :=
| same_leaf v : is_leaf v = true -> same_json v v
| same_array l k : Forall2 same_json l k -> same_json (VArray l) (VArray k)
| same_record l m k :
    Forall2 (fun f g => f.1 = g.1 /\ same_json f.2 g.2) l m -> m ≡ₚ k -> same_json (VRecord l) (VRecord k).

Definition same_setting (s s' : ResolutionSetting) : Prop :=
  set_key s = set_key s' /\ same_json (set_value s) (set_value s').

Inductive same_uncertainty : Uncertainty -> Uncertainty -> Prop :=
| same_known : same_uncertainty u_known u_known
| same_conditional l k : l ≡ₚ k -> same_uncertainty (u_conditional l) (u_conditional k)
| same_unknown r : same_uncertainty (u_unknown r) (u_unknown r)
| same_contradiction r l k : l ≡ₚ k -> same_uncertainty (u_contradiction r l) (u_contradiction r k).

Inductive same_payload : EventPayload -> EventPayload -> Prop :=
| same_launch path l k s s' :
    l ≡ₚ k -> same_set same_setting s s' -> same_payload (Launch path l s) (Launch path k s')
| same_path k path : same_payload (PathEvent k path) (PathEvent k path)
| same_mention ruleId : same_payload (ManualRuleMention ruleId) (ManualRuleMention ruleId)
| same_selection l k source : l ≡ₚ k -> same_payload (RuleSelection l source) (RuleSelection k source)
| same_change s s' : same_set same_setting s s' -> same_payload (SettingsChange s) (SettingsChange s')
| same_payloadless k : same_payload (PayloadlessEvent k) (PayloadlessEvent k).

Definition same_event (e e' : ResolutionEvent) : Prop :=
  ev_id e = ev_id e' /\ ev_sequence e = ev_sequence e' /\ ev_targetId e = ev_targetId e' /\
  same_uncertainty (ev_uncertainty e) (ev_uncertainty e') /\ same_payload (ev_payload e) (ev_payload e').

Definition same_session (t t' : ResolutionEventTrace) : Prop :=
  trace_rules t ≡ₚ trace_rules t' /\ trace_targets t ≡ₚ trace_targets t' /\
  Forall2 same_event (trace_events t) (trace_events t').

Lemma at_most_perm {A} (l k : list A) n : l ≡ₚ k -> at_most l n -> at_most k n.
Proof. unfold at_most. by intros ->. Qed.

Lemma nonempty_perm {A} (l k : list A) : l ≡ₚ k -> l <> [] -> k <> [].
Proof. intros Hp Hl ->. by apply Permutation_nil_r in Hp. Qed.

Lemma total_Forall2 {A B} (K : A -> ValidationBudget) (K' : B -> ValidationBudget) l k :
  Forall2 (fun a b => K a = K' b) l k -> total (map K l) = total (map K' k).
Proof. induction 1 as [|a b l k E _ IH]; cbn; [done|]. by rewrite E, IH. Qed.

Lemma total_perm {A} (K : A -> ValidationBudget) l k : l ≡ₚ k -> total (map K l) = total (map K k).
Proof. intros Hp. by apply total_Proper, Permutation_map. Qed.

Lemma same_json_spec n v w :
  frozen n v -> same_json v w ->
  canonical_json v = canonical_json w /\ (valid_json v -> valid_json w) /\ json_cost v = json_cost w.
Proof.
  revert v w. induction n as [|n IH]; intros v w Hv Hs; [by inversion Hv|].
  destruct Hs as [v|l k Hlk|l m k Hlm Hmk].
  - done.
  - inversion Hv as [? ? Hx|? ? Hi|]; subst; [done|].
    assert (Forall2 (fun v w => canonical_json v = canonical_json w /\ (valid_json v -> valid_json w) /\
              json_cost v = json_cost w) l k) as Hall.
    { clear Hv. induction Hlk as [|a b l k Hab Hlk IHl]; constructor; inversion Hi; subst; auto. }
    cbn [canonical_json json_cost]. split_and!.
    + f_equal. clear -Hall. induction Hall as [|a b l k (E & _) _ IHl]; cbn; [done|]. by rewrite E, IHl.
    + intros Hval. inversion Hval as [| | | |? Hlen Hval'|]; subst. constructor.
      * by rewrite <- (Forall2_length _ _ _ Hlk).
      * clear -Hall Hval'. induction Hall as [|a b l k (_ & E & _) _ IHl]; inversion Hval'; subst; constructor; auto.
    + f_equal. apply total_Forall2. eapply Forall2_impl; [exact Hall|]. by intros ? ? (_ & _ & ?).
  - inversion Hv as [? ? Hx| |? ? Hf Hk]; subst; [done|].
    assert (Forall2 (fun f g => f.1 = g.1 /\ canonical_json f.2 = canonical_json g.2 /\
              (valid_json f.2 -> valid_json g.2) /\ json_cost f.2 = json_cost g.2) l m) as Hall.
    { clear Hv Hmk Hk. induction Hlm as [|a b l m [E Hab] Hlm IHl]; constructor; inversion Hf; subst; auto. }
    cbn [canonical_json json_cost]. split_and!.
    + f_equal. f_equal.
      assert (map (fun f => (f.1, canonical_json f.2)) l = map (fun f => (f.1, canonical_json f.2)) m) as E.
      { clear -Hall. induction Hall as [|a b l m (E1 & E2 & _) _ IHl]; cbn; [done|]. by rewrite E1, E2, IHl. }
      rewrite E. apply sort_keys_perm; [rewrite <- E; by apply lookups_canonical|by apply Permutation_map].
    + intros Hval. inversion Hval as [| | | | |? Hkeys Hvals]; subst. constructor; rewrite <- Hmk.
      * clear -Hall Hkeys. induction Hall as [|a b l m (E & _) _ IHl]; inversion Hkeys; subst; constructor; [congruence|auto].
      * clear -Hall Hvals. induction Hall as [|a b l m (_ & _ & E & _) _ IHl]; inversion Hvals; subst; constructor; auto.
    + f_equal. etransitivity; [|apply total_perm, Hmk]. apply total_Forall2.
      eapply Forall2_impl; [exact Hall|]. intros ? ? (E1 & _ & _ & E2). by rewrite E1, E2.
Qed.

Lemma same_settings_spec l k :
  Forall readable_setting l -> same_set same_setting l k -> NoDup (map set_key l) ->
  canonical_settings l = canonical_settings k /\ (valid_settings l -> valid_settings k) /\
  settings_cost l = settings_cost k.
Proof.
  intros Hr (m & Hlm & Hmk) Hnd.
  assert (Forall2 (fun s s' => set_key s = set_key s' /\
            canonical_json (set_value s) = canonical_json (set_value s') /\
            (valid_json (set_value s) -> valid_json (set_value s')) /\
            json_cost (set_value s) = json_cost (set_value s')) l m) as Hall.
  { clear Hmk Hnd. induction Hlm as [|a b l m [E Hab] _ IHl]; inversion Hr as [|? ? Ha Hl]; subst; constructor; [|auto].
    split; [done|]. by apply (same_json_spec _ _ _ Ha). }
  assert (map set_key l = map set_key m) as Ek.
  { clear -Hall. induction Hall as [|a b l m (E & _) _ IHl]; cbn; [done|]. by rewrite E, IHl. }
  assert (map canonical_setting l = map canonical_setting m) as Ec.
  { clear -Hall. unfold canonical_setting. induction Hall as [|a b l m (E1 & E2 & _) _ IHl]; cbn; [done|].
    by rewrite E1, E2, IHl. }
  split_and!.
  - unfold canonical_settings. rewrite Ec. apply (sort_by_key set_key); [|by apply Permutation_map].
    rewrite map_map. by rewrite Ek in Hnd.
  - intros (Hlen & Hval & _). split_and!.
    + unfold at_most in *. by rewrite <- (Permutation_length Hmk), <- (Forall2_length _ _ _ Hlm).
    + rewrite <- Hmk. clear -Hall Hval.
      induction Hall as [|a b l m (E1 & _ & E2 & _) _ IHl]; inversion Hval as [|? ? (V1 & V2 & V3) Vl]; subst;
        constructor; [|auto]. rewrite E1 in V1, V2. by split_and!; auto.
    + apply (NoDup_map_perm _ m); [done|]. by rewrite <- Ek.
  - unfold settings_cost. etransitivity; [|apply total_perm, Hmk]. apply total_Forall2.
    eapply Forall2_impl; [exact Hall|]. intros ? ? (E1 & _ & _ & E2). unfold setting_cost. by rewrite E1, E2.
Qed.

Lemma same_uncertainty_spec u u' :
  same_uncertainty u u' -> valid_uncertainty u ->
  canonical_uncertainty u = canonical_uncertainty u' /\ valid_uncertainty u' /\ uncertainty_cost u = uncertainty_cost u'.
Proof.
  destruct 1 as [|l k Hp|r|r l k Hp]; intros Hv; try done.
  - destruct Hv as (Hl & Hn & Ht & Hnd). cbn. split_and!.
    + by rewrite (sort_texts_perm _ _ Hp).
    + by eapply at_most_perm.
    + by eapply nonempty_perm.
    + by rewrite <- Hp.
    + by rewrite <- Hp.
    + by apply total_perm.
  - destruct Hv as (Hr & Hl & Hn & Ha & Hnd). cbn. split_and!.
    + f_equal. apply sort_by_key; done.
    + done.
    + by eapply at_most_perm.
    + by rewrite <- Hp.
    + by rewrite <- Hp.
    + by apply (NoDup_map_perm _ l).
    + f_equal. by apply total_perm.
Qed.

Lemma same_set_nonempty {A} (R : A -> A -> Prop) l k : same_set R l k -> l <> [] -> k <> [].
Proof. intros (m & Hlm & Hmk) Hl ->. apply Permutation_nil_r in Hmk as ->. by inversion Hlm. Qed.

Lemma same_payload_spec ruleIds ruleIds' p p' :
  ruleIds ≡ₚ ruleIds' -> Forall readable_setting (event_settings p) -> same_payload p p' -> valid_payload ruleIds p ->
  canonical_payload p = canonical_payload p' /\ valid_payload ruleIds' p' /\ payload_cost p = payload_cost p'.
Proof.
  intros Hids Hr Hs Hv. destruct Hs as [path l k s s' Hp Hs|k path|ruleId|l k source Hp|s s' Hs|k];
    cbn [event_settings canonical_payload payload_cost valid_payload] in *.
  - destruct Hv as (Hpath & Hl & Hn & Hr' & Hnd & Hset).
    destruct (same_settings_spec _ _ Hr Hs) as (Ec & Ev & Ek); [apply Hset|].
    rewrite (sort_texts_perm _ _ Hp), Ec, Ek. split_and!; try done.
    + by eapply at_most_perm.
    + by eapply nonempty_perm.
    + by rewrite <- Hp.
    + by rewrite <- Hp.
    + by auto.
    + by rewrite (total_perm text_cost _ _ Hp : texts_cost l = texts_cost k).
  - done.
  - by rewrite <- Hids.
  - destruct Hv as (Hl & Hn & Hi & Hnd & Hin). rewrite (sort_texts_perm _ _ Hp). split_and!; try done.
    + by eapply at_most_perm.
    + by eapply nonempty_perm.
    + by rewrite <- Hp.
    + by rewrite <- Hp.
    + rewrite <- Hp. eapply Forall_impl; [exact Hin|]. cbv beta. intros x Hx. by rewrite <- Hids.
    + by rewrite (total_perm text_cost _ _ Hp : texts_cost l = texts_cost k).
  - destruct Hv as [Hset Hn]. destruct (same_settings_spec _ _ Hr Hs) as (Ec & Ev & Ek); [apply Hset|].
    rewrite Ec, Ek. split_and!; try done; [by auto|]. by eapply same_set_nonempty.
  - done.
Qed.

Lemma same_event_spec targetIds targetIds' ruleIds ruleIds' index e e' :
  targetIds ≡ₚ targetIds' -> ruleIds ≡ₚ ruleIds' -> readable_event e -> same_event e e' ->
  valid_event targetIds ruleIds index e ->
  canonical_event e = canonical_event e' /\ valid_event targetIds' ruleIds' index e' /\ event_cost e = event_cost e'.
Proof.
  intros Ht Hids Hr (Ei & Es & Et & Hu & Hp) (Hi & Hseq & Href & Hvu & Hvp).
  destruct (same_uncertainty_spec _ _ Hu Hvu) as (Eu & Hvu' & Ku).
  destruct (same_payload_spec _ _ _ _ Hids Hr Hp Hvp) as (Ep & Hvp' & Kp).
  assert (payload_kind (ev_payload e) = payload_kind (ev_payload e')) as Ek by (by destruct Hp).
  unfold canonical_event, event_cost, valid_event. rewrite <- Eu, <- Ep, <- Ku, <- Kp, <- Ek, <- Ei, <- Es, <- Et.
  split_and!; try done. unfold valid_reference in *. destruct (ev_targetId e); [|done]. by rewrite <- Ht.
Qed.

Lemma same_session_spec t t' :
  readable_trace t -> same_session t t' -> valid_trace t ->
  canonical_trace t = canonical_trace t' /\ valid_trace t' /\ trace_cost t = trace_cost t'.
Proof.
  intros Hr (Hrules & Htargets & Hevents) (V1 & V2 & V3 & V4 & V5 & V6 & V7 & V8 & V9 & V10).
  assert (map tgt_id (trace_targets t) ≡ₚ map tgt_id (trace_targets t')) as Ht by (by apply Permutation_map).
  assert (map tr_id (trace_rules t) ≡ₚ map tr_id (trace_rules t')) as Hids by (by apply Permutation_map).
  assert (forall i e e', trace_events t !! i = Some e -> trace_events t' !! i = Some e' ->
            canonical_event e = canonical_event e' /\
            valid_event (map tgt_id (trace_targets t')) (map tr_id (trace_rules t')) i e' /\
            event_cost e = event_cost e' /\ same_event e e') as Hall.
  { intros i e e' He He'. destruct (Forall2_lookup_l _ _ _ _ _ Hevents He) as (x & Hx & Hs).
    assert (x = e') as -> by congruence.
    destruct (same_event_spec _ _ _ _ i e e' Ht Hids) as (? & ? & ?); try done; [|by apply V8].
    unfold readable_trace in Hr. rewrite Forall_forall in Hr. apply Hr. by eapply list_elem_of_lookup_2. }
  assert (Forall2 (fun e e' => canonical_event e = canonical_event e' /\ event_cost e = event_cost e' /\ same_event e e')
            (trace_events t) (trace_events t')) as Hev.
  { apply Forall2_same_length_lookup_2; [by eapply Forall2_length|]. intros i e e' He He'.
    destruct (Hall i e e' He He') as (? & _ & ? & ?). done. }
  assert (map canonical_event (trace_events t) = map canonical_event (trace_events t')) as Ec.
  { clear -Hev. induction Hev as [|e e' l l' (E & _) _ IHl]; cbn; [done|]. by rewrite E, IHl. }
  split_and!.
  - unfold canonical_trace. rewrite Ec. f_equal; by apply sort_by_key.
  - assert (forall i e', trace_events t' !! i = Some e' ->
              valid_event (map tgt_id (trace_targets t')) (map tr_id (trace_rules t')) i e') as Hval.
    { intros i e' He'. destruct (Forall2_lookup_r _ _ _ _ _ Hevents He') as (e & He & _). by apply (Hall i e e'). }
    split_and!; try done.
    + by eapply at_most_perm.
    + by rewrite <- Hrules.
    + by rewrite <- Hids.
    + by eapply at_most_perm.
    + by rewrite <- Htargets.
    + by rewrite <- Ht.
    + unfold at_most in *. by rewrite <- (Forall2_length _ _ _ Hevents).
    + rewrite <- canonical_event_ids, <- Ec. by rewrite canonical_event_ids.
    + apply launch_first_canonical. rewrite <- Ec. by apply launch_first_canonical.
  - unfold trace_cost. rewrite (total_perm rule_cost _ _ Hrules), (total_perm target_cost _ _ Htargets).
    do 2 f_equal. apply total_Forall2. eapply Forall2_impl; [exact Hev|]. by intros ? ? (_ & ? & _).
Qed.

(** ** A trace and its canonical form *)

Lemma same_json_canonical n v : frozen n v -> same_json v (canonical_json v).
Proof.
  revert v. induction n as [|n IH]; intros v Hv; inversion Hv as [m w Hl|m items Hi|m fields Hf Hk]; subst.
  - destruct v; try done; by apply same_leaf.
  - cbn [canonical_json]. constructor. apply Forall2_fmap_r, Forall_Forall2_diag.
    by eapply Forall_impl; [|intros ?; apply IH].
  - cbn [canonical_json]. apply (same_record _ (map (fun f => (f.1, canonical_json f.2)) fields)).
    + apply Forall2_fmap_r, Forall_Forall2_diag. eapply Forall_impl; [exact Hf|]. intros f Hfz. split; [done|].
      by apply IH.
    + by rewrite own_order_perm, sort_by_perm.
Qed.

Lemma same_settings_canonical l : Forall readable_setting l -> same_set same_setting l (canonical_settings l).
Proof.
  intros Hl. exists (map canonical_setting l). split; [|unfold canonical_settings; by rewrite sort_by_perm].
  apply Forall2_fmap_r, Forall_Forall2_diag. eapply Forall_impl; [exact Hl|]. intros s Hs. split; [done|].
  by eapply same_json_canonical.
Qed.

Lemma same_session_canonical t : readable_trace t -> same_session t (canonical_trace t).
Proof.
  intros Hr. split_and!; cbn [trace_rules trace_targets trace_events canonical_trace]; [by rewrite sort_by_perm..|].
  apply Forall2_fmap_r, Forall_Forall2_diag. eapply Forall_impl; [exact Hr|]. intros e He.
  unfold compose. split_and!; try done.
  - destruct (ev_uncertainty e) as [| | |] eqn:E; cbn [ev_uncertainty canonical_event]; rewrite E; constructor;
      by rewrite sort_by_perm.
  - unfold readable_event in He. cbn [ev_payload canonical_event].
    destruct (ev_payload e); cbn [canonical_payload event_settings] in *; constructor;
      try (by rewrite sort_by_perm); by apply same_settings_canonical.
Qed.

Lemma readable_canonical t : readable_trace t -> readable_trace (canonical_trace t).
Proof.
  intros Hr. unfold readable_trace. cbn [trace_events canonical_trace]. apply Forall_map.
  eapply Forall_impl; [exact Hr|]. intros e He. unfold compose, readable_event in *. cbn [ev_payload canonical_event].
  destruct (ev_payload e); cbn [canonical_payload event_settings] in *; try done; unfold canonical_settings;
    apply Forall_sort, Forall_map; (eapply Forall_impl; [exact He|]); intros s; apply frozen_canonical.
Qed.

(** The result of a normalization is valid, within the limits, its own
    canonical form, and made of frozen data. *)
Lemma normalized_facts h v t :
  normalizeResolutionEventTrace h v = Ok t ->
  valid_trace t /\ within (trace_cost t) /\ canonical_trace t = t /\ readable_trace t.
Proof.
  intros (d & Hd & Hv & Hw & ->)%normalize_decodes. apply read_trace_readable in Hd.
  destruct (same_session_spec d (canonical_trace d)) as (E & Hv' & Ec); [done|by apply same_session_canonical|done|].
  rewrite <- Ec, <- E. split_and!; try done. by apply readable_canonical.
Qed.

(** A normalized trace, given as a value, normalizes to itself. *)
Lemma normalize_back h t :
  valid_trace t -> within (trace_cost t) -> canonical_trace t = t -> readable_trace t ->
  normalizeResolutionEventTrace h (trace_value t) = Ok t.
Proof.
  intros Hv Hw Hc Hr. apply normalize_decodes. exists t. split; [by apply read_trace_back|]. by rewrite Hc.
Qed.

Lemma normalize_again h h' v t :
  normalizeResolutionEventTrace h v = Ok t -> normalizeResolutionEventTrace h' (trace_value t) = Ok t.
Proof. intros (? & ? & ? & ?)%normalized_facts. by apply normalize_back. Qed.

(** ** Properties *)

(** C20.  A value normalizes to a trace exactly when it can be read as a draft
    that is valid and whose texts and JSON nodes are within the limits, and the
    trace is then the draft with its sets in canonical order.  Reading is by
    name and never depends on the limits; validity and cost never depend on the
    order of a set. *)
Theorem normalization_decomposes (h : heap) (v : value) (t : ResolutionEventTrace) :
  normalizeResolutionEventTrace h v = Ok t <->
  exists draft, read_trace h v = Some draft /\ valid_trace draft /\ within (trace_cost draft) /\
                t = canonical_trace draft.
Proof. apply normalize_decodes. Qed.

(** A normalized trace is valid and within the limits, and normalizing it
    again, which every function of the module does with the trace it is given,
    changes nothing. *)
Theorem normalization_is_stable (h h' : heap) (v : value) (t : ResolutionEventTrace)
  (H : normalizeResolutionEventTrace h v = Ok t) :
  normalizeResolutionEventTrace h' (trace_value t) = Ok t /\ valid_trace t /\ within (trace_cost t).
Proof.
  split; [by eapply normalize_again|]. by apply normalized_facts in H as (? & ? & _).
Qed.

(** C25.  The order in which a caller lists rules, targets, workspace roots,
    selected rules, conditions, alternatives, settings and the keys of records
    and of JSON objects does not change the trace, nor therefore its
    serialization and digest. *)
Theorem same_session_same_trace (h h' : heap) (v v' : value) (draft draft' t : ResolutionEventTrace)
  (Hd : read_trace h v = Some draft) (Hd' : read_trace h' v' = Some draft')
  (Hsame : same_session draft draft') (Ht : normalizeResolutionEventTrace h v = Ok t) :
  normalizeResolutionEventTrace h' v' = Ok t.
Proof.
  apply normalize_decodes in Ht as (d & E & Hv & Hw & ->). rewrite Hd in E. injection E as <-.
  destruct (same_session_spec draft draft') as (Ec & Hv' & Ek); [by eapply read_trace_readable|done|done|].
  apply normalize_decodes. exists draft'. by rewrite <- Ek, <- Ec.
Qed.
