(* ===== verification/TraceDigest.v ===== *)
(** The identity of an event trace: its digest binds the trace, and the
    synthetic trace of one target in closed form. *)
From S2P Require Import Prelude JsString OrderedMap Unicode Identifiers JsValue RepositoryPath ActivationAlgebra ObjectGraph JsonText CanonicalDigest ResolutionTrace TraceQueries TraceReading TraceDrafts TraceLaws.

(** ** The serialization of a normalized trace *)

Section serialization.
Context `{Sha256}.

Lemma serialize_normalized h v t :
  normalizeResolutionEventTrace h v = Ok t ->
  serializeResolutionEventTrace h v = Ok (JSON_stringify (trace_value t)).
Proof. intros E. unfold serializeResolutionEventTrace. by rewrite E. Qed.

Lemma digest_normalized h v t :
  normalizeResolutionEventTrace h v = Ok t ->
  digestResolutionEventTrace h v = Ok (sha256_hex (JSON_stringify (trace_value t))).
Proof. intros E. unfold digestResolutionEventTrace. by rewrite (serialize_normalized h v t E). Qed.

(** The digest of a trace the module made itself never fails. *)
Lemma digest_back h h' v t :
  normalizeResolutionEventTrace h v = Ok t ->
  digestResolutionEventTrace h' (trace_value t) = Ok (sha256_hex (JSON_stringify (trace_value t))).
Proof. intros E. by apply digest_normalized, (normalize_again h h' v). Qed.
End serialization.

(** ** Traces as JSON data

    The settings of a trace are JSON data when the texts of their fractions are
    numerals, which the texts of numbers are. *)

Definition json_event (e : ResolutionEvent) : Prop :=
  Forall (fun s => json_data (set_value s)) (event_settings (ev_payload e)).
Definition json_trace (t : ResolutionEventTrace) : Prop := Forall json_event (trace_events t).

(** A sequence number of -0 is accepted at position 0, and is written as 0. *)
Definition positive_number (x : number) : number := match x with NegativeZero => Integer 0 | x => x end.

Definition positive_event (e : ResolutionEvent) : ResolutionEvent :=
  {| ev_id := ev_id e; ev_sequence := positive_number (ev_sequence e); ev_targetId := ev_targetId e;
     ev_uncertainty := ev_uncertainty e; ev_payload := ev_payload e |}.

Definition positive_trace (t : ResolutionEventTrace) : ResolutionEventTrace :=
  {| trace_rules := trace_rules t; trace_targets := trace_targets t;
     trace_events := map positive_event (trace_events t) |}.

Lemma stringify_positive t : JSON_stringify (trace_value (positive_trace t)) = JSON_stringify (trace_value t).
Proof.
  assert (map JSON_stringify (map event_value (map positive_event (trace_events t)))
          = map JSON_stringify (map event_value (trace_events t))) as E.
  { rewrite !map_map. apply map_ext. intros e. unfold event_value.
    cbn [ev_id ev_sequence ev_targetId ev_uncertainty ev_payload positive_event]. by destruct (ev_sequence e). }
  unfold trace_value, trace_record.
  cbn [JSON_stringify map fst snd trace_rules trace_targets trace_events positive_trace]. by rewrite E.
Qed.

(** Values made of texts are JSON data. *)
Create HintDb json discriminated.
Ltac json_fields :=
  repeat first
    [ apply json_data_record | apply json_data_string | apply json_data_null
    | apply Forall_cons_2; cbn [snd] | apply Forall_nil_2 | solve [eauto 2 with json nocore] ].

Lemma json_texts l : json_data (texts_value l).
Proof. constructor. apply Forall_map, Forall_true. intros s. constructor. Qed.
#[export] Hint Resolve json_texts : json.

Lemma json_nullable x : json_data (VText x).
Proof. destruct x; constructor. Qed.
#[export] Hint Resolve json_nullable : json.

Lemma json_uncertainty u : json_data (uncertainty_value u).
Proof.
  destruct u; cbn [uncertainty_value]; json_fields.
  constructor. apply Forall_map, Forall_true. intros a. unfold compose, alternative_value. json_fields.
Qed.
#[export] Hint Resolve json_uncertainty : json.

Lemma json_settings l : Forall (fun s => json_data (set_value s)) l -> json_data (settings_value l).
Proof.
  intros Hl. constructor. apply Forall_map. eapply Forall_impl; [exact Hl|]. intros s Hs.
  unfold compose, setting_value. json_fields.
Qed.
#[export] Hint Resolve json_settings : json.

Definition good_sequence (e : ResolutionEvent) : Prop := json_number (positive_number (ev_sequence e)).

Lemma json_event_value e : json_event e -> good_sequence e -> json_data (event_value (positive_event e)).
Proof.
  intros He Hs. unfold event_value.
  cbn [ev_id ev_sequence ev_targetId ev_uncertainty ev_payload positive_event]. unfold json_event in He.
  constructor. apply Forall_app_2; [json_fields; by constructor|].
  destruct (ev_payload e); cbn [payload_fields event_settings] in *; json_fields.
Qed.

Lemma valid_sequences t : valid_trace t -> Forall good_sequence (trace_events t).
Proof.
  intros (_ & _ & _ & _ & _ & _ & _ & He & _). apply Forall_lookup. intros i e Hi.
  destruct (He i e Hi) as (_ & (Hp & _) & _). unfold good_sequence, is_position in *.
  by destruct (ev_sequence e).
Qed.

Lemma json_trace_value t : valid_trace t -> json_trace t -> json_data (trace_value (positive_trace t)).
Proof.
  intros Hv Hj. apply valid_sequences in Hv. unfold trace_value, trace_record.
  cbn [trace_rules trace_targets trace_events positive_trace].
  json_fields; constructor; apply Forall_map.
  - apply Forall_true. intros r. unfold compose, rule_value. json_fields.
  - apply Forall_true. intros r. unfold compose, target_value. json_fields.
  - apply Forall_map. eapply Forall_impl; [apply Forall_and; split; [exact Hj|exact Hv]|].
    intros e [He Hs]. by apply json_event_value.
Qed.

Lemma readable_positive t : readable_trace t -> readable_trace (positive_trace t).
Proof. intros Ht. apply Forall_map. exact Ht. Qed.

(** The serializations of traces determine them up to the sign of zero. *)
Lemma serialization_inj t t' :
  valid_trace t -> valid_trace t' -> readable_trace t -> readable_trace t' -> json_trace t -> json_trace t' ->
  JSON_stringify (trace_value t) = JSON_stringify (trace_value t') -> positive_trace t = positive_trace t'.
Proof.
  intros Hv Hv' Hr Hr' Hj Hj' E. rewrite <- (stringify_positive t), <- (stringify_positive t') in E.
  apply JSON_stringify_inj in E; [|apply json_trace_value; assumption..].
  pose proof (read_trace_back (fun _ => None) _ (readable_positive t Hr)) as B.
  rewrite E, (read_trace_back _ _ (readable_positive t' Hr')) in B. congruence.
Qed.

(** ** The synthetic trace of one target *)

Definition with_events (t : ResolutionEventTrace) (events : list ResolutionEvent) : ResolutionEventTrace :=
  {| trace_rules := trace_rules t; trace_targets := trace_targets t; trace_events := events |}.

(** The value the second normalization is given is that of the trace with its
    two events identified. *)
Lemma identified_value t events :
  trace_record (VArray (map rule_value (trace_rules t))) (VArray (map target_value (trace_targets t)))
               (VArray (map event_value events)) = trace_value (with_events t events).
Proof. done. Qed.

Lemma canonical_with_id id e : canonical_event (with_id id e) = with_id id (canonical_event e).
Proof. done. Qed.

(** Normalizing a canonical trace whose events got new identities only checks it. *)
Lemma normalize_with_events h t events t' :
  canonical_trace t = t -> map canonical_event events = events ->
  Forall readable_event events ->
  normalizeResolutionEventTrace h (trace_value (with_events t events)) = Ok t' -> t' = with_events t events.
Proof.
  intros Hc He Hr (d & Hd & _ & _ & ->)%normalize_decodes.
  rewrite read_trace_back in Hd by done. injection Hd as <-.
  pose proof (f_equal trace_rules Hc) as E1. pose proof (f_equal trace_targets Hc) as E2.
  unfold canonical_trace, with_events in *. cbn [trace_rules trace_targets trace_events] in *.
  by rewrite He, E1, E2.
Qed.

Lemma map_fixed {A} (f : A -> A) l : map f l = l <-> Forall (fun a => f a = a) l.
Proof.
  induction l as [|a l IH]; [done|]. cbn. rewrite Forall_cons, <- IH. split; [by intros [= ? ?]|by intros [-> ->]].
Qed.

(** The events of a normalized trace are canonical. *)
Lemma canonical_events t : canonical_trace t = t -> Forall (fun e => canonical_event e = e) (trace_events t).
Proof. intros Hc. apply map_fixed. exact (f_equal trace_events Hc). Qed.

Section synthetic.
Context `{Sha256} (h : heap).

(** What the two events are identified to. *)
Definition identified (launch targetEvent : ResolutionEvent) : list ResolutionEvent :=
  [with_id (stableId #"event" [ #"0"; launchPayload launch]) launch;
   with_id (stableId #"event" [ #"1"; targetPayload targetEvent]) targetEvent].

Lemma identifySynthetic_Ok v provisional t launch targetEvent :
  normalizeResolutionEventTrace h v = Ok provisional -> trace_events provisional = [launch; targetEvent] ->
  identifySynthetic h provisional = Ok t -> t = with_events provisional (identified launch targetEvent).
Proof.
  intros (_ & _ & Hc & Hr)%normalized_facts Ee. unfold identifySynthetic. rewrite Ee.
  intros (u & _ & Hn)%bind_Ok. revert Hn.
  change (VArray [event_value ?a; event_value ?b]) with (VArray (map event_value [a; b])).
  rewrite identified_value. apply normalize_with_events; [done| |].
  - apply canonical_events in Hc. rewrite Ee in Hc. apply map_fixed.
    apply Forall_cons in Hc as [H1 [H2 _]%Forall_cons].
    by repeat constructor; rewrite canonical_with_id; f_equal.
  - unfold readable_trace in Hr. rewrite Ee in Hr. apply Forall_cons in Hr as [H1 [H2 _]%Forall_cons].
    by repeat constructor.
Qed.

(** A synthetic trace with given event identities. *)
Definition synthetic_session (launchId targetEventId targetId targetPath purpose launchCwd : jstring)
    (workspaceRoots : list jstring) (settings : list ResolutionSetting) (kind : PathEventKind)
    : ResolutionEventTrace :=
  {| trace_rules := [];
     trace_targets := [{| tgt_id := targetId; tgt_path := targetPath; tgt_purpose := purpose |}];
     trace_events :=
       [{| ev_id := launchId; ev_sequence := Integer 0; ev_targetId := Some targetId; ev_uncertainty := u_known;
           ev_payload := Launch launchCwd workspaceRoots settings |};
        {| ev_id := targetEventId; ev_sequence := Integer 1; ev_targetId := Some targetId;
           ev_uncertainty := u_known; ev_payload := PathEvent kind targetPath |}] |}.

Lemma read_launch_event id targetId cwd roots settings e :
  read_event h (VRecord [(#"id", VString id); (#"sequence", VInteger 0); (#"kind", VString #"launch");
                         (#"targetId", VString targetId); (#"uncertainty", known_value); (#"path", cwd);
                         (#"workspaceRoots", roots); (#"settings", settings)]) = Some e ->
  exists p r s, cwd = VString p /\ read_texts h roots = Some r /\ read_settings h settings = Some s /\
    e = {| ev_id := id; ev_sequence := Integer 0; ev_targetId := Some targetId; ev_uncertainty := u_known;
           ev_payload := Launch p r s |}.
Proof.
  unfold read_event. rewrite isDataRecord_VRecord by literal_keys. cbn [mbind option_bind]. literal_fields.
  cbn [read_text mbind option_bind]. change (#"launch") with (event_kind_name k_launch).
  rewrite (proj2 (named_event_kind _ _) eq_refl). cbn [mbind option_bind].
  match goal with |- context [hasExactKeys ?fs ?ks] =>
    assert (hasExactKeys fs ks = true) as -> by (vm_compute; reflexivity) end.
  cbn [mbind option_bind read_number VInteger read_nullable]. unfold known_value. rewrite read_uncertainty_back.
  cbn [mbind option_bind read_payload]. literal_fields. intros Hr. open_all.
  destruct cwd; try done. cbn [read_text] in *. open_all. naive_solver.
Qed.

Lemma read_target_event id targetId path k e :
  read_event h (VRecord [(#"id", VString id); (#"sequence", VInteger 1); (#"kind", VString (path_kind_name k));
                         (#"targetId", VString targetId); (#"uncertainty", known_value); (#"path", VString path)])
  = Some e ->
  e = {| ev_id := id; ev_sequence := Integer 1; ev_targetId := Some targetId; ev_uncertainty := u_known;
         ev_payload := PathEvent k path |}.
Proof.
  unfold read_event. rewrite isDataRecord_VRecord by literal_keys. cbn [mbind option_bind]. literal_fields.
  cbn [read_text mbind option_bind]. change (path_kind_name k) with (event_kind_name (k_path k)).
  rewrite (proj2 (named_event_kind _ _) eq_refl). cbn [mbind option_bind].
  match goal with |- context [hasExactKeys ?fs ?ks] =>
    assert (hasExactKeys fs ks = true) as -> by (vm_compute; reflexivity) end.
  cbn [mbind option_bind read_number VInteger read_nullable]. unfold known_value. rewrite read_uncertainty_back.
  cbn [mbind option_bind read_payload]. literal_fields. cbn [read_text mbind option_bind]. by intros [= <-].
Qed.

Lemma read_synthetic targetId targetPath purpose cwd roots settings k d :
  read_trace h (trace_record (VArray [])
    (VArray [VRecord [(#"id", VString targetId); (#"path", VString targetPath); (#"purpose", VString purpose)]])
    (synthetic_events targetId cwd roots settings (VString (path_kind_name k)) targetPath)) = Some d ->
  exists p r s, cwd = VString p /\ read_texts h roots = Some r /\ read_settings h settings = Some s /\
    d = synthetic_session #"event:synthetic-launch" #"event:synthetic-target" targetId targetPath purpose p r s k.
Proof.
  unfold read_trace, trace_record, synthetic_events. read_literal. cbn [is_string]. rewrite !jeqb_refl.
  cbn [mbind option_bind]. rewrite !read_array_VArray. cbn [mbind option_bind mapM].
  change (VRecord [(_, VString targetId); _; _]) with
    (target_value {| tgt_id := targetId; tgt_path := targetPath; tgt_purpose := purpose |}).
  rewrite read_target_back. unfold mret, option_ret. cbn [mbind option_bind]. intros Hr.
  apply bind_Some in Hr as (events & He & [= <-]).
  apply bind_Some in He as (launch & Hl & He). apply bind_Some in He as (rest & Ht & [= <-]).
  apply bind_Some in Ht as (target & Ht & [= <-]).
  apply read_launch_event in Hl as (p & r & s & -> & Hroots & Hsettings & ->).
  apply read_target_event in Ht as ->. by exists p, r, s.
Qed.

Definition synthetic_kinds : list PathEventKind := [reference_path; read_path; write_path].

Lemma synthetic_kind v :
  existsb (is_string v) SYNTHETIC_EVENT_KINDS = true -> exists k, k ∈ synthetic_kinds /\ v = VString (path_kind_name k).
Proof.
  intros (key & Hk & Hv)%existsb_elem. destruct v; try done. apply jeqb_eq in Hv as ->.
  change SYNTHETIC_EVENT_KINDS with (map path_kind_name synthetic_kinds) in Hk.
  apply list_elem_of_fmap in Hk as (k & -> & Hk). by exists k.
Qed.

(** The synthetic trace, its identities the digests of what they identify. *)
Definition synthetic_trace (targetPath purpose launchCwd : jstring) (workspaceRoots : list jstring)
    (settings : list ResolutionSetting) (kind : PathEventKind) : ResolutionEventTrace :=
  let targetId := stableId #"target" [targetPath; purpose] in
  let launch := {| ev_id := []; ev_sequence := Integer 0; ev_targetId := Some targetId; ev_uncertainty := u_known;
                   ev_payload := Launch launchCwd workspaceRoots settings |} in
  let target := {| ev_id := []; ev_sequence := Integer 1; ev_targetId := Some targetId; ev_uncertainty := u_known;
                   ev_payload := PathEvent kind targetPath |} in
  synthetic_session (stableId #"event" [ #"0"; launchPayload launch]) (stableId #"event" [ #"1"; targetPayload target])
    targetId targetPath purpose launchCwd workspaceRoots settings kind.

Lemma synthetic_Ok input t :
  createSyntheticTargetTrace h input = Ok t ->
  exists record targetPath purpose launchCwd workspaceRoots settings k,
    isDataRecord h input = Some record /\
    dataProperty record #"targetPath" = VString targetPath /\ dataProperty record #"purpose" = VString purpose /\
    dataProperty record #"launchCwd" = VString launchCwd /\
    read_texts h (dataProperty record #"workspaceRoots") = Some workspaceRoots /\
    read_settings h (own_or record #"settings" (VArray [])) = Some settings /\
    own_or record #"targetEventKind" (VString #"reference-path") = VString (path_kind_name k) /\
    k ∈ synthetic_kinds /\
    t = synthetic_trace targetPath purpose launchCwd (sort_by jleb workspaceRoots) (canonical_settings settings) k.
Proof.
  unfold createSyntheticTargetTrace. destruct (isDataRecord h input) as [record|]; [|done].
  intros (u1 & _ & H1)%bind_Ok. apply bind_Ok in H1 as (u2 & Hk%ensure_Ok & H1).
  apply synthetic_kind in Hk as (k & Hk & Ek).
  destruct (dataProperty record #"targetPath") as [| | | |targetPath| | | | |] eqn:Ep; try done.
  destruct (dataProperty record #"purpose") as [| | | |purpose| | | | |] eqn:Eu; try done.
  apply bind_Ok in H1 as (provisional & Hp & Hi). rewrite Ek in Hp.
  pose proof Hp as (d & Hd & _ & _ & Ec)%normalize_decodes.
  apply read_synthetic in Hd as (p & r & s & Ecwd & Hr & Hs & ->).
  exists record, targetPath, purpose, p, r, s, k. split_and!; try done.
  eapply identifySynthetic_Ok in Hi as ->; [|exact Hp|by rewrite Ec]. by rewrite Ec.
Qed.

(** A synthetic trace is a result of the normalizer. *)
Lemma synthetic_normalized input t :
  createSyntheticTargetTrace h input = Ok t -> normalizeResolutionEventTrace h (trace_value t) = Ok t.
Proof.
  unfold createSyntheticTargetTrace. destruct (isDataRecord h input) as [record|]; [|done].
  intros (u1 & _ & H1)%bind_Ok. apply bind_Ok in H1 as (u2 & _ & H1).
  destruct (dataProperty record #"targetPath"); try done. destruct (dataProperty record #"purpose"); try done.
  apply bind_Ok in H1 as (provisional & _ & Hi). unfold identifySynthetic in Hi.
  destruct (trace_events provisional) as [|launch [|target rest]]; try done.
  apply bind_Ok in Hi as (u & _ & Hn). by eapply normalize_again.
Qed.
End synthetic.

(** ** Properties *)

(** The bytes that the digest of a trace is computed from. *)
Definition trace_message (t : ResolutionEventTrace) : list N := utf8 (JSON_stringify (trace_value t)).

(** C21.  The digest of a trace binds it: two values that normalize have one
    digest exactly when they normalize to one trace, up to a first sequence
    number of -0, or the serializations of these two traces are different and
    have one SHA-256 digest.  The hypotheses say that the numbers in settings are
    numbers and that the serializations are strings of 16-bit units. *)
Theorem digest_binds_trace `{Sha256} (h h' : heap) (v v' : value) (t t' : ResolutionEventTrace)
  (Ht : normalizeResolutionEventTrace h v = Ok t) (Ht' : normalizeResolutionEventTrace h' v' = Ok t')
  (Hj : json_trace t) (Hj' : json_trace t')
  (Hu : js_units (JSON_stringify (trace_value t))) (Hu' : js_units (JSON_stringify (trace_value t'))) :
  digestResolutionEventTrace h v = digestResolutionEventTrace h' v' <->
  positive_trace t = positive_trace t' \/ collide (trace_message t) (trace_message t').
Proof.
  rewrite (digest_normalized h v t Ht), (digest_normalized h' v' t' Ht').
  apply normalized_facts in Ht as (Hv & _ & _ & Hr), Ht' as (Hv' & _ & _ & Hr').
  split.
  - intros E%Ok_inj. destruct (sha256_hex_inj _ _ Hu Hu') with (3 := E) as [Et|Hc]; [| |left|by right].
    1, 2: rewrite <- stringify_positive; apply JSON_stringify_wf, json_trace_value; assumption.
    by apply serialization_inj.
  - intros [Ep|[_ Hd]]; [|exact (f_equal (fun d => Ok (hex d)) Hd)].
    by rewrite <- (stringify_positive t), Ep, stringify_positive.
Qed.

(** The synthetic trace of a target is a function of the target, the
    launch directory, the set of workspace roots, the settings and the kind of
    the access: one target, a certain launch and a certain access to the target,
    each identified by the digest of what it says. *)
Theorem synthetic_trace_closed_form `{Sha256} (h : heap) (input : value) (t : ResolutionEventTrace)
  (Ht : createSyntheticTargetTrace h input = Ok t) :
  normalizeResolutionEventTrace h (trace_value t) = Ok t /\
  exists record targetPath purpose launchCwd workspaceRoots settings k,
    isDataRecord h input = Some record /\
    dataProperty record #"targetPath" = VString targetPath /\ dataProperty record #"purpose" = VString purpose /\
    dataProperty record #"launchCwd" = VString launchCwd /\
    read_texts h (dataProperty record #"workspaceRoots") = Some workspaceRoots /\
    read_settings h (own_or record #"settings" (VArray [])) = Some settings /\
    own_or record #"targetEventKind" (VString #"reference-path") = VString (path_kind_name k) /\
    k ∈ synthetic_kinds /\
    t = synthetic_trace targetPath purpose launchCwd (sort_by jleb workspaceRoots) (canonical_settings settings) k.
Proof. split; [by eapply synthetic_normalized|by apply synthetic_Ok]. Qed.
