(* ===== verification/TraceQueryLaws.v ===== *)
(** Theorems about the queries on event traces
    (packages/resolver/src/resolution-event-trace.ts): the setting in force, the
    selection of a rule. *)
From S2P Require Import Prelude JsString OrderedMap Unicode Identifiers JsValue RepositoryPath ActivationAlgebra ObjectGraph JsonText CanonicalDigest ResolutionTrace TraceQueries TraceReading TraceDrafts TraceLaws.

(** ** Events and targets *)

(** An event without a target applies everywhere, any other at the path of its target. *)
Definition applies_at (t : ResolutionEventTrace) (e : ResolutionEvent) (path : jstring) : Prop :=
  ev_targetId e = None \/
  exists target, target ∈ trace_targets t /\ ev_targetId e = Some (tgt_id target) /\ tgt_path target = path.

Lemma eventAppliesToPath_spec t e path : eventAppliesToPath t e path = true <-> applies_at t e path.
Proof.
  unfold eventAppliesToPath, applies_at. destruct (ev_targetId e) as [id|]; [|naive_solver].
  rewrite existsb_elem. split.
  - intros (target & Hin & [<-%jeqb_eq <-%jeqb_eq]%andb_true_iff). right. by exists target.
  - intros [?|(target & Hin & [= ->] & <-)]; [done|]. exists target. split; [done|]. by rewrite !jeqb_refl.
Qed.

(** ** The setting in force *)

Definition assigns (t : ResolutionEventTrace) (key path : jstring) (e : ResolutionEvent) (v : value) : Prop :=
  applies_at t e path /\ exists s, s ∈ event_settings (ev_payload e) /\ set_key s = key /\ set_value s = v.

(** The [i]th event assigns [v], and no later event assigns the key at the path. *)
Definition last_assignment (t : ResolutionEventTrace) (key path : jstring) (e : ResolutionEvent) (v : value) : Prop :=
  exists i, trace_events t !! i = Some e /\ assigns t key path e v /\
  forall j e' v', i < j -> trace_events t !! j = Some e' -> ~ assigns t key path e' v'.

Definition setting_result (key : jstring) (e : ResolutionEvent) (v : value) : TraceSettingResult :=
  match ev_uncertainty e with
  | u_known => setting_known key v (ev_id e) (ev_sequence e)
  | u => setting_indeterminate key (ev_id e) (ev_sequence e) (uncertaintyDescription u)
  end.

Lemma assignSetting_spec t key path result e :
  (exists v, assigns t key path e v /\ assignSetting t key path result e = setting_result key e v) \/
  ((forall v, ~ assigns t key path e v) /\ assignSetting t key path result e = result).
Proof.
  unfold assignSetting. destruct (eventAppliesToPath t e path) eqn:Ea.
  - apply eventAppliesToPath_spec in Ea. destruct (find _ _) as [s|] eqn:Es.
    + left. apply find_some in Es as [Hs%list_elem_of_In Hk%jeqb_eq]. exists (set_value s). split.
      * split; [done|]. by exists s.
      * unfold setting_result. by destruct (ev_uncertainty e).
    + right. split; [|done]. intros v (_ & s & Hs%list_elem_of_In & Hk & _).
      apply (find_none _ _ Es) in Hs. apply jeqb_neq in Hs. done.
  - right. split; [|done]. intros v [H _]. apply eventAppliesToPath_spec in H. congruence.
Qed.

Lemma settingIn_spec t key path :
  (exists e v, last_assignment t key path e v /\ settingIn t key path = setting_result key e v) \/
  ((forall e v, e ∈ trace_events t -> ~ assigns t key path e v) /\ settingIn t key path = setting_unrecorded key).
Proof.
  unfold settingIn, last_assignment. generalize (trace_events t) as events.
  induction events as [|e events IH] using rev_ind; [right; split; [by intros ? ? ?%not_elem_of_nil|done]|].
  rewrite fold_left_app. cbn [fold_left].
  destruct (assignSetting_spec t key path (fold_left (assignSetting t key path) events (setting_unrecorded key)) e)
    as [(v & Hv & ->)|[Hno ->]].
  - left. exists e, v. split; [|done]. exists (length events).
    split; [by rewrite lookup_app_r, Nat.sub_diag|]. split; [done|].
    intros j e' v' Hj He'. apply lookup_lt_Some in He'. rewrite length_app in He'. cbn in He'. lia.
  - destruct IH as [(e0 & v & (i & Hi & Hv & Hlast) & E)|[Hnone E]]; [left|right].
    + exists e0, v. split; [|done]. exists i. split; [by apply lookup_app_l_Some|]. split; [done|].
      intros j e' v' Hj [He'|[_ He']]%lookup_app_Some; [by eapply Hlast|].
      apply list_lookup_singleton_Some in He' as [_ <-]. apply Hno.
    + split; [|done]. intros e' v [He'|He'%list_elem_of_singleton]%elem_of_app; [by apply Hnone|]. subst. apply Hno.
Qed.

(** ** The selection of a rule *)

(** A selection names the rule; a mention does for manual queries. *)
Definition selected_by (mode : SelectionMode) (ruleId : jstring) (e : ResolutionEvent) : Prop :=
  match ev_payload e with
  | RuleSelection ruleIds _ => ruleId ∈ ruleIds
  | ManualRuleMention mentioned => mode = mode_manual /\ mentioned = ruleId
  | _ => False
  end.

Lemma selects_spec mode ruleId e : is_Some (selects mode ruleId e) <-> selected_by mode ruleId e.
Proof.
  unfold selects, selected_by. destruct (ev_payload e); try (split; [by intros [? ?]|done]).
  - destruct (bool_decide (mode = mode_manual) && jeqb ruleId0 ruleId) eqn:E.
    + apply andb_true_iff in E as [->%bool_decide_eq_true ->%jeqb_eq]. split; [done|by eexists].
    + split; [by intros [? ?]|]. intros [-> ->]. by rewrite jeqb_refl in E.
  - case_bool_decide; split; try done; by intros [? ?].
Qed.

Lemma evidenceOf_Some t mode ruleId path e ev :
  evidenceOf t mode ruleId path e = Some ev ->
  selected_by mode ruleId e /\ applies_at t e path /\ se_uncertainty ev = ev_uncertainty e /\ se_eventId ev = ev_id e.
Proof.
  unfold evidenceOf. destruct (selects mode ruleId e) as [[kind source]|] eqn:Es; [|done].
  destruct (eventAppliesToPath t e path) eqn:Ea; [|done]. intros [= <-]. split_and!; try done.
  - apply selects_spec. by rewrite Es.
  - by apply eventAppliesToPath_spec.
Qed.

Lemma evidenceOf_complete t mode ruleId path e :
  selected_by mode ruleId e -> applies_at t e path -> is_Some (evidenceOf t mode ruleId path e).
Proof.
  intros [[kind source] Es]%selects_spec Ha%eventAppliesToPath_spec. unfold evidenceOf. rewrite Es, Ha. by eexists.
Qed.

Lemma is_known_eq u : is_known u = true <-> u = u_known.
Proof. by destruct u. Qed.

Lemma zip_all_eq (l k : list jstring) :
  (length l =? length k)%nat && forallb (fun c => jeqb c.1 c.2) (zip l k) = true <-> l = k.
Proof.
  revert k. induction l as [|x l IH]; intros [|y k]; cbn; try done.
  specialize (IH k). destruct (length l =? length k)%nat; cbn in *.
  - rewrite andb_true_iff, IH, jeqb_eq. naive_solver.
  - split; [done|]. intros [= -> ->]. by apply IH.
Qed.

Lemma sameRuleDescriptor_eq l r : sameRuleDescriptor l r = true <-> l = r.
Proof.
  unfold sameRuleDescriptor. rewrite <- andb_assoc, andb_true_iff, zip_all_eq, !andb_true_iff, !jeqb_eq, bool_decide_eq_true.
  split; [|by intros ->]. destruct l, r; cbn. intros H. destruct_and!. by subst.
Qed.

Lemma find_by_id (rules : list TraceActivationRuleDescriptor) r :
  NoDup (map tr_id rules) -> r ∈ rules -> find (fun r' => jeqb (tr_id r') (tr_id r)) rules = Some r.
Proof.
  intros Hnd Hr. destruct (find _ rules) as [r'|] eqn:E.
  - apply find_some in E as [Hr'%list_elem_of_In E%jeqb_eq]. f_equal. by apply (NoDup_map_same tr_id rules).
  - apply list_elem_of_In in Hr. apply (find_none _ _ E) in Hr. by rewrite jeqb_refl in Hr.
Qed.

(** The origin of a query is the descriptor it names, entirely. *)
Lemma selectionIn_origin t query :
  NoDup (map tr_id (trace_rules t)) ->
  match selectionIn t query with
  | Ok s => q_rule query ∈ trace_rules t /\ sel_ruleId s = tr_id (q_rule query) /\ sel_targetPath s = q_targetPath query
  | Err e => q_rule query ∉ trace_rules t /\ e = invalidRelationship
  end.
Proof.
  intros Hnd. unfold selectionIn. destruct (find _ (trace_rules t)) as [origin|] eqn:E; cbn [mbind res_mbind].
  - apply find_some in E as [Hin%list_elem_of_In Hid%jeqb_eq].
    destruct (sameRuleDescriptor origin (q_rule query)) eqn:Es; cbn [ensure mbind res_mbind].
    + apply sameRuleDescriptor_eq in Es as <-. done.
    + split; [|done]. intros Hq. assert (origin = q_rule query) as E by (by apply (NoDup_map_same tr_id (trace_rules t))).
      apply sameRuleDescriptor_eq in E. congruence.
  - split; [|done]. intros Hq. apply find_by_id in Hq; [|done]. congruence.
Qed.

Lemma selectionIn_state t query s :
  selectionIn t query = Ok s ->
  sel_state s = selection_active <->
  exists e, e ∈ trace_events t /\ ev_uncertainty e = u_known /\ applies_at t e (q_targetPath query) /\
            selected_by (q_mode query) (sel_ruleId s) e.
Proof.
  unfold selectionIn. intros (origin & _ & H)%bind_Ok. apply bind_Ok in H as (? & _ & [= <-]).
  cbn [sel_state sel_ruleId]. destruct (existsb _ _) eqn:Ex.
  - split; [intros _|done]. apply existsb_elem in Ex as (ev & (e & He & Hev)%list_elem_of_omap & Hk%is_known_eq).
    apply evidenceOf_Some in Hev as (Hs & Ha & Hu & _). exists e. split_and!; try done. congruence.
  - split; [done|]. intros (e & He & Hu & Ha & Hs). exfalso.
    destruct (evidenceOf_complete _ _ _ _ _ Hs Ha) as [ev Hev]. apply not_true_iff_false in Ex. apply Ex, existsb_elem.
    exists ev. split; [by apply list_elem_of_omap; exists e|]. apply is_known_eq.
    apply evidenceOf_Some in Hev as (_ & _ & -> & _). done.
Qed.

(** ** Properties of the queries *)

(** The setting reported for a key at a path is that of the last event of
    the session that applies at the path and assigns the key, as known when the
    event is certain and as indeterminate otherwise; it is unrecorded exactly
    when no such event assigns the key. *)
Theorem setting_is_last_assignment (h : heap) (trace query : value) (t : ResolutionEventTrace)
  (result : TraceSettingResult)
  (Ht : normalizeResolutionEventTrace h trace = Ok t) (Hr : resolveTraceSetting h trace query = Ok result) :
  exists key path, fst <$> validateSettingQuery h query no_budget_used = Ok (key, path) /\
  ((exists e v, last_assignment t key path e v /\ result = setting_result key e v) \/
   ((forall e v, e ∈ trace_events t -> ~ assigns t key path e v) /\ result = setting_unrecorded key)).
Proof.
  unfold resolveTraceSetting in Hr. rewrite Ht in Hr. cbn [mbind res_mbind] in Hr.
  apply bind_Ok in Hr as ([key path] & Hq & [= <-]). exists key, path. split; [done|]. apply settingIn_spec.
Qed.

(**  A query is answered exactly when the trace has the complete descriptor
    it names, and refused as a relationship error otherwise; the answer is
    active exactly when some certain event of the session that applies at the
    path selects the rule, and is otherwise indeterminate: absence of evidence
    never deselects. *)
Theorem selection_needs_evidence (h : heap) (trace queryValue : value) (t : ResolutionEventTrace)
  (query : TraceRuleSelectionQuery)
  (Ht : normalizeResolutionEventTrace h trace = Ok t) (Hq : normalizeRuleSelectionQuery h queryValue = Ok query) :
  match resolveTraceRuleSelection h trace queryValue with
  | Ok s =>
      q_rule query ∈ trace_rules t /\ sel_ruleId s = tr_id (q_rule query) /\ sel_targetPath s = q_targetPath query /\
      (sel_state s = selection_active <->
       exists e, e ∈ trace_events t /\ ev_uncertainty e = u_known /\ applies_at t e (q_targetPath query) /\
                 selected_by (q_mode query) (tr_id (q_rule query)) e)
  | Err e => q_rule query ∉ trace_rules t /\ e = invalidRelationship
  end.
Proof.
  unfold resolveTraceRuleSelection. rewrite Ht, Hq. cbn [mbind res_mbind].
  assert (NoDup (map tr_id (trace_rules t))) as Hnd by (by apply normalized_facts in Ht as ((_ & _ & ? & _) & _)).
  pose proof (selectionIn_origin t query Hnd) as Ho. destruct (selectionIn t query) as [s|e] eqn:E; [|done].
  destruct Ho as (Hin & Hid & Hp). split_and!; try done. rewrite <- Hid. by apply selectionIn_state.
Qed.
