(* ===== verification/TraceServices.v ===== *)
(** What the event trace does for its clients: the activation algebra asks it
    for the facts of manual and conditional rules
    (packages/resolver/src/resolution-event-trace.ts,
    [createTraceActivationCallbacks]), and the document import DAG carries its
    event identifiers and digest (the class [TraceService] of ImportDag). *)
From S2P Require Import Prelude JsString OrderedMap Unicode Identifiers JsValue RepositoryPath ActivationAlgebra ActivationLaws ProfileGlob GlobActivation ImportDag ImportDagLaws ObjectGraph JsonText CanonicalDigest ResolutionTrace TraceQueries TraceReading TraceDrafts TraceLaws TraceDigest TraceQueryLaws.

(** ** The callbacks of the activation algebra *)

(** The frozen record the algebra gives a callback. *)
Definition frozen_request (request : ActivationRequest) : value :=
  match request with
  | GlobActivationRequest r p s root target pattern dialectId =>
      VRecord [(#"ruleId", VString r); (#"profileId", VString p); (#"surfaceId", VString s);
               (#"scopeRoot", VString root); (#"targetPath", VString target);
               (#"pattern", VString pattern); (#"dialectId", VText dialectId)]
  | ManualActivationRequest r d p s q target conditions
  | ConditionalActivationRequest r d p s q target conditions =>
      VRecord [(#"ruleId", VString r); (#"documentId", VString d); (#"profileId", VString p);
               (#"surfaceId", VString s); (#"specSnapshotId", VString q); (#"targetPath", VString target);
               (#"conditions", texts_value conditions)]
  end.

Definition traceCallback (h : heap) (normalized : ResolutionEventTrace) (mode : SelectionMode) : callback_fn :=
  fun request =>
    match decisionFor h (trace_value normalized) (frozen_request request) mode with
    | Ok d => Returned (decision_value d)
    | Err _ => Threw
    end.

Definition createTraceActivationCallbacks (h : heap) (trace : value) : trace_res ActivationCallbacks :=
  normalized ← ResolutionTrace.normalizeResolutionEventTrace h trace;
  Ok {| matchGlob := None; resolveManual := Some (traceCallback h normalized mode_manual);
        resolveConditional := Some (traceCallback h normalized mode_conditional) |}.

(** ** The trace behind an import DAG

    The DAG's input is a boundary value; a reading says which value of the
    heap it is. *)
Class TraceReader (F : Type) : Type := { reader_heap : heap; reader_value : jsval F -> value }.

#[export] Instance event_traces `{Sha256} `{TraceReader F}
    : TraceService F ResolutionEventTrace ResolutionEventTraceErrorCode := {|
  ImportDag.normalizeResolutionEventTrace v := ResolutionTrace.normalizeResolutionEventTrace reader_heap (reader_value v);
  ImportDag.digestResolutionEventTrace t := TraceQueries.digestResolutionEventTrace reader_heap (trace_value t);
  ImportDag.traceEventIds t := map ev_id (trace_events t)
|}.

(** ** The evidence behind an activation *)

Section evidence.
Context (h : heap).

Definition read_query (v : value) : option TraceRuleSelectionQuery :=
  record ← read_record h v [ #"rule"; #"targetPath"; #"mode"];
  rule ← read_rule h (dataProperty record #"rule");
  targetPath ← read_text (dataProperty record #"targetPath");
  mode ← read_text (dataProperty record #"mode") ≫= named mode_name [mode_manual; mode_conditional];
  Some {| q_rule := rule; q_targetPath := targetPath; q_mode := mode |}.

Definition valid_query (q : TraceRuleSelectionQuery) : Prop := valid_rule (q_rule q) /\ valid_path (q_targetPath q).

Definition query_cost (q : TraceRuleSelectionQuery) : ValidationBudget :=
  spend (rule_cost (q_rule q)) (spend (text_cost (q_targetPath q)) (text_cost (mode_name (q_mode q)))).

Lemma named_mode s m : named mode_name [mode_manual; mode_conditional] s = Some m <-> s = mode_name m.
Proof. apply named_Some; [by intros [] []|]. destruct m; set_solver. Qed.

Lemma valid_mode_text m : valid_text (mode_name m).
Proof. apply valid_textb_true. by destruct m. Qed.

Lemma query_decodes v :
  decodes (validateRuleSelectionQuery h v) (read_query v) valid_query (fun q => q) query_cost.
Proof.
  unfold validateRuleSelectionQuery, read_query. eapply meets_iff; [|metered]. intros a c.
  unfold valid_query, query_cost. split; intros H; open_all; bool_checks.
  - take_name named_mode. use_equations. settle.
  - take_name named_mode. cbn [q_rule q_targetPath q_mode] in *. settle. apply valid_mode_text.
Qed.

Lemma query_Ok v q :
  normalizeRuleSelectionQuery h v = Ok q -> read_query v = Some q /\ valid_query q.
Proof.
  unfold normalizeRuleSelectionQuery. destruct (validateRuleSelectionQuery h v no_budget_used) as [[a b']|] eqn:E; [|done].
  intros [= ->]. apply query_decodes in E as (c & (d & Hd & HV & -> & ->) & _); [done|apply within_no_budget].
Qed.

(** ** What a callback decides *)

Definition mode_kind (m : SelectionMode) : ActivationKind :=
  match m with mode_manual => ak_manual | mode_conditional => ak_conditional end.

(** The request for the fact of a rule. *)
Definition fact_request (mode : SelectionMode) (rule : ActivationRule) (targetPath : jstring) : ActivationRequest :=
  match mode with
  | mode_manual =>
      ManualActivationRequest (id rule) (documentId rule) (profileId rule) (surfaceId rule) (specSnapshotId rule)
        targetPath (conditions rule)
  | mode_conditional =>
      ConditionalActivationRequest (id rule) (documentId rule) (profileId rule) (surfaceId rule) (specSnapshotId rule)
        targetPath (conditions rule)
  end.

(** The descriptor the trace must have of the rule. *)
Definition descriptor_of (rule : ActivationRule) : TraceActivationRuleDescriptor :=
  {| tr_id := id rule; tr_documentId := documentId rule; tr_profileId := profileId rule;
     tr_surfaceId := surfaceId rule; tr_specSnapshotId := specSnapshotId rule; tr_kind := rule_kind rule;
     tr_conditions := conditions rule |}.

(** A certain event of the session selects the rule at the target. *)
Definition selected_at (t : ResolutionEventTrace) (mode : SelectionMode) (rule : ActivationRule) (targetPath : jstring)
    : Prop :=
  exists e, e ∈ trace_events t /\ ev_uncertainty e = u_known /\ applies_at t e targetPath /\
            selected_by mode (id rule) e.

Definition query_value (mode : SelectionMode) (rule : ActivationRule) (targetPath : jstring) : value :=
  VRecord [(#"rule", rule_value (descriptor_of rule)); (#"targetPath", VString targetPath);
           (#"mode", VString (mode_name mode))].

Lemma read_query_back mode rule targetPath :
  read_query (query_value mode rule targetPath)
  = Some {| q_rule := descriptor_of rule; q_targetPath := targetPath; q_mode := mode |}.
Proof.
  unfold read_query, query_value. read_literal. rewrite read_rule_back. cbn [mbind option_bind read_text].
  by rewrite (proj2 (named_mode _ _) eq_refl).
Qed.

(** The callback asks the trace about the rule's own descriptor. *)
Lemma decisionFor_fact trace mode rule targetPath :
  rule_kind rule = mode_kind mode ->
  decisionFor h trace (frozen_request (fact_request mode rule targetPath)) mode =
  (s ← resolveTraceRuleSelection h trace (query_value mode rule targetPath);
   Ok {| decision_state := selection_state (sel_state s); reason := sel_reason s |}).
Proof.
  intros Hk. unfold decisionFor, query_value, rule_value, descriptor_of.
  assert (exists fields, frozen_request (fact_request mode rule targetPath) = VRecord fields /\
            fields = [(#"ruleId", VString (id rule)); (#"documentId", VString (documentId rule));
                      (#"profileId", VString (profileId rule)); (#"surfaceId", VString (surfaceId rule));
                      (#"specSnapshotId", VString (specSnapshotId rule)); (#"targetPath", VString targetPath);
                      (#"conditions", texts_value (conditions rule))]) as (fields & -> & ->)
    by (exists (match frozen_request (fact_request mode rule targetPath) with VRecord l => l | _ => [] end);
        by destruct mode).
  unfold assertRecord. rewrite isDataRecord_VRecord by literal_keys.
  match goal with |- context [hasExactKeys ?fs ?ks] =>
    assert (hasExactKeys fs ks = true) as -> by (vm_compute; reflexivity) end.
  cbn [ensure mbind res_mbind]. literal_fields.
  cbn [tr_id tr_documentId tr_profileId tr_surfaceId tr_specSnapshotId tr_kind tr_conditions].
  rewrite Hk. by destruct mode.
Qed.

Lemma decision_spec v t mode rule targetPath d :
  ResolutionTrace.normalizeResolutionEventTrace h v = Ok t -> rule_kind rule = mode_kind mode ->
  decisionFor h (trace_value t) (frozen_request (fact_request mode rule targetPath)) mode = Ok d ->
  descriptor_of rule ∈ trace_rules t /\ decision_state d <> inactive /\
  (decision_state d = active <-> selected_at t mode rule targetPath).
Proof.
  intros Hn Hk. rewrite (decisionFor_fact _ _ _ _ Hk). intros (s & Hs & [= <-])%bind_Ok.
  unfold resolveTraceRuleSelection in Hs. rewrite (normalize_again h h v t Hn) in Hs. cbn [mbind res_mbind] in Hs.
  apply bind_Ok in Hs as (q & [Hq _]%query_Ok & Hs). rewrite read_query_back in Hq. injection Hq as <-.
  apply normalized_facts in Hn as ((_ & _ & Hnd & _) & _).
  pose proof (selectionIn_origin t {| q_rule := descriptor_of rule; q_targetPath := targetPath; q_mode := mode |} Hnd)
    as Ho. rewrite Hs in Ho. destruct Ho as (Hin & Hid & _).
  split; [done|]. cbn [decision_state]. pose proof (selectionIn_state t _ s Hs) as Hst.
  cbn [q_rule q_targetPath q_mode] in *. rewrite Hid in Hst. unfold selected_at.
  destruct (sel_state s); cbn [selection_state]; naive_solver.
Qed.
End evidence.

(** ** Evaluation with the callbacks of a trace *)

(** An active result needs an active trigger. *)
Lemma evaluateRule_active `{Sha256} rule targetPath callbacks r :
  evaluateRule rule targetPath callbacks = Ok r -> state r = active ->
  trigger_decision rule targetPath callbacks = Ok active.
Proof.
  unfold evaluateRule. intros (scope & _ & He)%bind_Ok Ha. destruct (has_state inactive scope) eqn:E1.
  { injection He as <-. apply has_state_true in E1. congruence. }
  apply bind_Ok in He as (tr & Htr%baseResult_state & He). rewrite Htr. f_equal.
  destruct (has_state inactive tr) eqn:E2.
  { injection He as <-. apply has_state_true in E2. congruence. }
  apply bind_Ok in He as ([inc m] & _ & He). apply bind_Ok in He as (el & Hel%intersection_state & He).
  assert (state el = active -> state tr = active) as Htrigger.
  { rewrite Hel. cbn. by destruct (state scope), (state tr), (state inc). }
  destruct (has_state inactive el) eqn:E3.
  { injection He as <-. by apply Htrigger. }
  apply bind_Ok in He as ([exc m2] & _ & He). destruct (has_state active exc) eqn:E4.
  - apply complement_value_state in He. apply has_state_true in E4. rewrite E4 in He. by rewrite He in Ha.
  - apply difference_state in He. rewrite He in Ha. apply Htrigger. by destruct (state el), (state exc).
Qed.

(** A rule in scope, without selectors, has the state of its trigger. *)
Lemma evaluateRule_bare `{Sha256} rule targetPath callbacks r :
  include rule = [] -> exclude rule = [] -> isWithinDirectory targetPath (scopeRoot rule) = true ->
  evaluateRule rule targetPath callbacks = Ok r -> trigger_decision rule targetPath callbacks = Ok (state r).
Proof.
  intros Hi Hx Hs He.
  assert (exists t, trigger_decision rule targetPath callbacks = Ok t) as [t Ht].
  { pose proof He as He'. unfold evaluateRule in He'. apply bind_Ok in He' as (scope & Hsc%scopeResult_state & He').
    unfold scope_decision in Hsc. rewrite Hs in Hsc. cbn [inside_state] in Hsc. destruct (has_state inactive scope) eqn:E1.
    { apply has_state_true in E1. congruence. }
    apply bind_Ok in He' as (tr & Htr%baseResult_state & _). by eexists. }
  rewrite Ht. f_equal.
  assert (state r = rule_meaning rule targetPath (fun _ => active) t) as ->.
  { apply (evaluateRule_meaning rule targetPath callbacks); [|intros s|done|done].
    - rewrite Hi, Hx. by intros ? ? ?%not_elem_of_nil.
    - rewrite Hi, Hx. by intros ?%not_elem_of_nil. }
  unfold rule_meaning, include_decision, exclude_decision, scope_decision. rewrite Hi, Hx, Hs. by destruct t.
Qed.

(** What the algebra accepts of a decision is the decision. *)
Lemma normalizeDecision_back d d' : normalizeDecision (decision_value d) = Ok d' -> d' = d.
Proof.
  intros Hd. assert (text_ok (reason d)) as Hr.
  { unfold normalizeDecision in Hd. apply bind_Ok in Hd as (record & Hrec & Hd).
    apply closedRecord_Ok in Hrec as [[= <-] _].
    apply bind_Ok in Hd as (st & _ & Hd). apply bind_Ok in Hd as (r & Hr & _).
    change (dataProperty _ #"reason") with (JStr (F := unit) (reason d)) in Hr.
    apply assertText_Ok in Hr as [[= <-] Hr]. exact Hr. }
  rewrite normalizeDecision_value in Hd by done. by injection Hd.
Qed.

Section activation.
Context `{Sha256} (h : heap) (v : value) (t : ResolutionEventTrace) (callbacks : ActivationCallbacks).
Context (normalized : ResolutionTrace.normalizeResolutionEventTrace h v = Ok t).
Context (created : createTraceActivationCallbacks h v = Ok callbacks).

(** The trigger of a manual or conditional rule is what the trace says. *)
Lemma trace_trigger mode rule targetPath d :
  rule_kind rule = mode_kind mode -> trigger_decision rule targetPath callbacks = Ok d ->
  descriptor_of rule ∈ trace_rules t /\ d <> inactive /\ (d = active <-> selected_at t mode rule targetPath).
Proof.
  intros Hk Ht. unfold createTraceActivationCallbacks in created. rewrite normalized in created.
  injection created as <-.
  assert (exists decision, invokeCallback (Some (traceCallback h t mode)) (fact_request mode rule targetPath) [] = Ok decision
                           /\ d = decision_state decision) as (decision & Hd & ->).
  { unfold trigger_decision in Ht. rewrite Hk in Ht.
    destruct mode; cbn [mode_kind resolveManual resolveConditional fact_request] in *;
      apply fmap_Ok in Ht as (x & Hx & ->); by exists x. }
  unfold invokeCallback, traceCallback in Hd.
  destruct (decisionFor h (trace_value t) _ mode) as [x|] eqn:Ex; [|done].
  eapply decision_spec in Ex as (Hin & Hi & Ha); [|done..].
  assert (decision = x) as -> by (by apply normalizeDecision_back in Hd). done.
Qed.
End activation.

(** ** The trace of an import DAG *)

Section dag_trace.
Context `{Sha256} `{TraceReader F}.

(** What a DAG says of the trace it was built from. *)
Definition carries_trace (raw : jsval F) (dag : DocumentImportDag) : Prop :=
  exists t, ResolutionTrace.normalizeResolutionEventTrace reader_heap (reader_value raw) = Ok t /\
    dag_traceEventIds dag = map ev_id (trace_events t) /\
    dag_traceSha256 dag = sha256_hex (JSON_stringify (trace_value t)).

Lemma record_JRec (inputValue : jsval F) keys input : ImportDag.record inputValue keys = Ok input -> inputValue = JRec input.
Proof.
  unfold ImportDag.record. destruct inputValue; try done. intros (u & _ & Hr)%bind_Ok.
  by apply bind_Ok in Hr as (? & _ & [= <-]).
Qed.

Lemma property_value (input : list (jstring * jsval F)) key raw :
  ImportDag.property input key = Ok raw -> raw = field_value input key.
Proof. unfold ImportDag.property. destruct (existsb _ _); [by intros [= <-]|done]. Qed.

Lemma trace_steps {A} (raw : jsval F) (f : ResolutionEventTrace -> jstring -> res (dag_error ResolutionEventTraceErrorCode) A) a :
  (trace ← lift_trace (ImportDag.normalizeResolutionEventTrace raw);
   traceSha256 ← lift_trace (ImportDag.digestResolutionEventTrace trace);
   f trace traceSha256) = Ok a ->
  exists t, ResolutionTrace.normalizeResolutionEventTrace reader_heap (reader_value raw) = Ok t /\
    f t (sha256_hex (JSON_stringify (trace_value t))) = Ok a.
Proof.
  intros (t & Ht & Hf)%bind_Ok. apply bind_Ok in Hf as (digest & Hd & Hf).
  apply (proj1 (lift_trace_Ok _ _)) in Ht, Hd.
  cbn [ImportDag.normalizeResolutionEventTrace ImportDag.digestResolutionEventTrace event_traces] in *.
  rewrite (digest_back reader_heap reader_heap _ _ Ht) in Hd. injection Hd as <-. by exists t.
Qed.

Lemma build_trace (inputValue : jsval F) dag :
  buildDocumentImportDag inputValue = Ok dag ->
  exists input raw, ImportDag.record inputValue [ #"graph"; #"trace"] = Ok input /\
    ImportDag.property input #"trace" = Ok raw /\ carries_trace raw dag.
Proof.
  unfold buildDocumentImportDag. intros Hb. apply bind_Ok in Hb as (input & Hi%lift_dag_Ok & Hb).
  apply bind_Ok in Hb as (graph & _ & Hb). apply bind_Ok in Hb as (raw & Hr%lift_dag_Ok & Hb).
  apply trace_steps in Hb as (t & Ht & Hb). apply bind_Ok in Hb as ([[[ds cs] ed] os] & _ & [= <-]).
  exists input, raw. split_and!; [done|done|]. by exists t.
Qed.

Lemma build_single_trace issued (inputValue : jsval F) dag :
  buildNoImportDocumentDag issued inputValue = Ok dag ->
  exists input raw, ImportDag.record inputValue [ #"documentId"; #"ir"; #"trace"] = Ok input /\
    ImportDag.property input #"trace" = Ok raw /\ carries_trace raw dag.
Proof.
  unfold buildNoImportDocumentDag. intros Hb. apply bind_Ok in Hb as (input & Hi%lift_dag_Ok & Hb).
  apply bind_Ok in Hb as (irValue & _ & Hb). apply bind_Ok in Hb as (documentId & _ & Hb).
  destruct (issued irValue); [|done]. destruct documentId; try done.
  apply bind_Ok in Hb as (? & _ & Hb). apply bind_Ok in Hb as (? & _ & Hb).
  apply bind_Ok in Hb as (? & _ & Hb). apply bind_Ok in Hb as (? & _ & Hb).
  apply bind_Ok in Hb as (raw & Hr%lift_dag_Ok & Hb).
  apply trace_steps in Hb as (t & Ht & [= <-]).
  exists input, raw. split_and!; [done|done|]. by exists t.
Qed.
End dag_trace.

(** ** Properties *)

(** C12.  Evaluated with the callbacks of a trace, a manual or conditional rule
    is active only if the trace has its complete descriptor and a certain event
    of the session selects it at the target.  In scope and without selectors
    it is active exactly then, and never inactive: a trace cannot deselect. *)
Theorem activation_needs_evidence `{Sha256} (h : heap) (v : value) (t : ResolutionEventTrace)
  (callbacks : ActivationCallbacks) (mode : SelectionMode) (rule : ActivationRule) (targetPath : jstring)
  (r : ActivationResult)
  (Ht : ResolutionTrace.normalizeResolutionEventTrace h v = Ok t)
  (Hc : createTraceActivationCallbacks h v = Ok callbacks)
  (Hk : rule_kind rule = mode_kind mode)
  (Hr : evaluateRule rule targetPath callbacks = Ok r) :
  (state r = active -> descriptor_of rule ∈ trace_rules t /\ selected_at t mode rule targetPath) /\
  (include rule = [] -> exclude rule = [] -> isWithinDirectory targetPath (scopeRoot rule) = true ->
   state r <> inactive /\ (state r = active <-> selected_at t mode rule targetPath)).
Proof.
  split.
  - intros Ha. apply evaluateRule_active in Hr; [|done].
    eapply trace_trigger in Hr as (Hin & _ & Hs); [|done..]. split; [done|by apply Hs].
  - intros Hi Hx Hs. apply evaluateRule_bare in Hr; [|done..].
    by eapply trace_trigger in Hr as (_ & ? & ?); [|done..].
Qed.

(** A document import DAG names the events of the trace it was built with
    by their identities, which are distinct, and the trace by its digest: the
    trace the builder normalized is never refused when it is digested. *)
Theorem dag_carries_trace `{Sha256} `{TraceReader F} (issued : jsval F -> option InstructionIrSnapshot)
  (inputValue : jsval F) (dag : DocumentImportDag)
  (Hb : buildDocumentImportDag inputValue = Ok dag \/ buildNoImportDocumentDag issued inputValue = Ok dag) :
  exists fields t, inputValue = JRec fields /\
    ResolutionTrace.normalizeResolutionEventTrace reader_heap (reader_value (field_value fields #"trace")) = Ok t /\
    dag_traceEventIds dag = map ev_id (trace_events t) /\ NoDup (dag_traceEventIds dag) /\
    dag_traceEventIds dag <> [] /\
    dag_traceSha256 dag = sha256_hex (JSON_stringify (trace_value t)).
Proof.
  assert (exists keys input raw, ImportDag.record inputValue keys = Ok input /\
            ImportDag.property input #"trace" = Ok raw /\ carries_trace raw dag) as (keys & input & raw & Hi & Hp & t & Ht & He & Hd)
    by (destruct Hb as [Hb|Hb]; [apply build_trace in Hb|apply build_single_trace in Hb];
        destruct Hb as (input & raw & Hb); by eexists _, input, raw).
  apply record_JRec in Hi as ->. apply property_value in Hp as ->. exists input, t.
  pose proof Ht as ((_ & _ & _ & _ & _ & _ & _ & _ & Hnd & Hl) & _)%normalized_facts.
  rewrite He. split_and!; try done. by destruct (trace_events t).
Qed.
