(* ===== verification/TraceExamples.v ===== *)
(** Sessions the theorems about event traces apply to, and what they show the
    code to do at its limits. *)
From S2P Require Import Prelude JsString OrderedMap Unicode Identifiers JsValue RepositoryPath ActivationAlgebra ActivationLaws ProfileGlob GlobActivation ImportDag ImportDagLaws ObjectGraph JsonText CanonicalDigest ResolutionTrace TraceQueries TraceReading TraceDrafts TraceLaws TraceDigest TraceQueryLaws TraceServices.

Module TraceExample.

Definition manual_rule : TraceActivationRuleDescriptor :=
  {| tr_id := #"activation:manual"; tr_documentId := #"document:test"; tr_profileId := #"profile:test";
     tr_surfaceId := #"profile:test/local"; tr_specSnapshotId := #"profile:test/2026-08-02";
     tr_kind := ak_manual; tr_conditions := [] |}.

Definition target : ResolutionTarget :=
  {| tgt_id := #"target:main"; tgt_path := #"src/main.ts"; tgt_purpose := #"resolve context" |}.

Definition event (id : jstring) (sequence : Z) (targetId : option jstring) (u : Uncertainty) (p : EventPayload)
    : ResolutionEvent :=
  {| ev_id := id; ev_sequence := Integer sequence; ev_targetId := targetId; ev_uncertainty := u; ev_payload := p |}.

Definition mode_setting (v : value) : ResolutionSetting := {| set_key := #"z.mode"; set_value := v |}.
Definition enabled : ResolutionSetting := {| set_key := #"a.enabled"; set_value := VBool true |}.

(** A draft whose sets are in no particular order. *)
Definition session (roots : list jstring) (settings : list ResolutionSetting) : ResolutionEventTrace :=
  {| trace_rules := [manual_rule]; trace_targets := [target];
     trace_events := [
       event #"event:launch" 0 None u_known (Launch #"." roots settings);
       event #"event:reference" 1 (Some #"target:main") u_known (PathEvent reference_path #"src/main.ts");
       event #"event:mention" 2 (Some #"target:main") u_known (ManualRuleMention #"activation:manual");
       event #"event:change" 3 None (u_unknown #"interactive") (SettingsChange [mode_setting (VInteger 2)])] |}.

Definition draft : ResolutionEventTrace :=
  session [ #"packages"; #"."]
    [mode_setting (VRecord [(#"z", VBool true); (#"a", VArray [VString #"one"; VNull])]); enabled].

Definition shuffled : ResolutionEventTrace :=
  session [ #"."; #"packages"]
    [enabled; mode_setting (VRecord [(#"a", VArray [VString #"one"; VNull]); (#"z", VBool true)])].

Definition no_objects : heap := fun _ => None.

Definition setting_query : value := VRecord [(#"key", VString #"z.mode"); (#"targetPath", VString #"src/main.ts")].

Definition selection_query : value :=
  VRecord [(#"rule", rule_value manual_rule); (#"targetPath", VString #"src/main.ts"); (#"mode", VString #"manual")].

Lemma normalized_draft :
  ResolutionTrace.normalizeResolutionEventTrace no_objects (trace_value draft) = Ok (canonical_trace draft).
Proof. vm_compute. reflexivity. Qed.

Lemma normalization_is_stable_witness :
  ResolutionTrace.normalizeResolutionEventTrace no_objects (trace_value (canonical_trace draft)) = Ok (canonical_trace draft) /\
  valid_trace (canonical_trace draft) /\ within (trace_cost (canonical_trace draft)).
Proof. exact (normalization_is_stable no_objects no_objects _ _ normalized_draft). Defined.

Lemma same_session_example : same_session draft shuffled.
Proof.
  split_and!; [done|done|]. cbn [trace_events draft shuffled session]. repeat constructor.
  - eexists [_; _]. split; [|apply Permutation_swap].
    constructor; [split; [done|] | repeat constructor].
    eapply same_record; [|apply Permutation_swap].
    constructor; [split; [done|by apply same_leaf] | constructor; [split; [done|] | constructor]].
    apply same_array. repeat constructor.
  - eexists [_]. split; [|done]. repeat constructor.
Qed.

Lemma same_session_same_trace_witness :
  ResolutionTrace.normalizeResolutionEventTrace no_objects (trace_value shuffled) = Ok (canonical_trace draft).
Proof.
  apply (same_session_same_trace no_objects no_objects (trace_value draft) (trace_value shuffled) draft shuffled).
  - vm_compute. reflexivity.
  - vm_compute. reflexivity.
  - exact same_session_example.
  - exact normalized_draft.
Defined.

Lemma setting_is_last_assignment_witness :
  exists key path, fst <$> validateSettingQuery no_objects setting_query no_budget_used = Ok (key, path) /\
  ((exists e v, last_assignment (canonical_trace draft) key path e v /\
      setting_indeterminate #"z.mode" #"event:change" (Integer 3) #"unknown: interactive" = setting_result key e v) \/
   ((forall e v, e ∈ trace_events (canonical_trace draft) -> ~ assigns (canonical_trace draft) key path e v) /\
    setting_indeterminate #"z.mode" #"event:change" (Integer 3) #"unknown: interactive" = setting_unrecorded key)).
Proof.
  apply (setting_is_last_assignment no_objects (trace_value draft) setting_query).
  - exact normalized_draft.
  - vm_compute. reflexivity.
Defined.

Definition selection_result : TraceRuleSelectionQuery :=
  {| q_rule := manual_rule; q_targetPath := #"src/main.ts"; q_mode := mode_manual |}.

Lemma selection_needs_evidence_witness :
  exists s, resolveTraceRuleSelection no_objects (trace_value draft) selection_query = Ok s /\
    sel_state s = selection_active /\
    exists e, e ∈ trace_events (canonical_trace draft) /\ ev_uncertainty e = u_known /\
              applies_at (canonical_trace draft) e #"src/main.ts" /\ selected_by mode_manual #"activation:manual" e.
Proof.
  assert (exists s, resolveTraceRuleSelection no_objects (trace_value draft) selection_query = Ok s /\
                    sel_state s = selection_active) as (s & Es & Ha).
  { apply (ok_of _ (fun s => sel_state s = selection_active)). vm_compute. reflexivity. }
  exists s. split; [exact Es|]. split; [exact Ha|].
  pose proof (selection_needs_evidence no_objects (trace_value draft) selection_query (canonical_trace draft)
                selection_result normalized_draft ltac:(vm_compute; reflexivity)) as H.
  rewrite Es in H. destruct H as (_ & _ & _ & H). apply H, Ha.
Defined.

(** ** The digest *)

Lemma json_draft : json_trace (canonical_trace draft).
Proof. repeat (constructor; try done). Qed.

Definition utf16b (s : jstring) : bool := forallb (fun u => (u <? 0x10000)%N) s.

Lemma utf16b_units s : utf16b s = true -> js_units s.
Proof.
  intros Hs. apply Forall_forall. intros u Hu%list_elem_of_In.
  exact (proj1 (N.ltb_lt _ _) (proj1 (forallb_forall _ _) Hs u Hu)).
Qed.

Lemma digest_binds_trace_witness :
  digestResolutionEventTrace (H := toy_sha256) no_objects (trace_value draft)
   = digestResolutionEventTrace (H := toy_sha256) no_objects (trace_value shuffled)
  <-> positive_trace (canonical_trace draft) = positive_trace (canonical_trace draft)
      \/ collide (H := toy_sha256) (trace_message (canonical_trace draft)) (trace_message (canonical_trace draft)).
Proof.
  apply (digest_binds_trace (H := toy_sha256) no_objects no_objects (trace_value draft) (trace_value shuffled)).
  - exact normalized_draft.
  - vm_compute. reflexivity.
  - exact json_draft.
  - exact json_draft.
  - apply utf16b_units. vm_compute. reflexivity.
  - apply utf16b_units. vm_compute. reflexivity.
Defined.

(** ** The synthetic trace *)

Definition synthetic_input : value :=
  VRecord [(#"targetPath", VString #"src/main.ts"); (#"purpose", VString #"edit"); (#"launchCwd", VString #".");
           (#"workspaceRoots", texts_value [ #"packages"; #"."])].

Lemma synthetic_trace_closed_form_witness :
  exists t, createSyntheticTargetTrace (H := toy_sha256) no_objects synthetic_input = Ok t /\
    ResolutionTrace.normalizeResolutionEventTrace no_objects (trace_value t) = Ok t /\
    t = synthetic_trace (H := toy_sha256) #"src/main.ts" #"edit" #"." [ #"."; #"packages"] [] reference_path.
Proof.
  assert (exists t, createSyntheticTargetTrace (H := toy_sha256) no_objects synthetic_input = Ok t /\
    t = synthetic_trace (H := toy_sha256) #"src/main.ts" #"edit" #"." [ #"."; #"packages"] [] reference_path)
    as (t & Et & Hs).
  { apply (ok_of _ (fun t => t = synthetic_trace (H := toy_sha256) _ _ _ _ _ _)). vm_compute. reflexivity. }
  exists t. split; [exact Et|]. split; [|exact Hs].
  exact (proj1 (synthetic_trace_closed_form (H := toy_sha256) no_objects synthetic_input t Et)).
Defined.

(** ** Activation *)

Definition manual_activation : ActivationRule :=
  {| id := #"activation:manual"; documentId := #"document:test"; profileId := #"profile:test";
     surfaceId := #"profile:test/local"; specSnapshotId := #"profile:test/2026-08-02"; rule_kind := ak_manual;
     scopeRoot := #"."; include := []; exclude := []; conditions := []; unknownReason := None |}.

Definition draft_callbacks : ActivationCallbacks :=
  {| matchGlob := None; resolveManual := Some (traceCallback no_objects (canonical_trace draft) mode_manual);
     resolveConditional := Some (traceCallback no_objects (canonical_trace draft) mode_conditional) |}.

Lemma draft_callbacks_created : createTraceActivationCallbacks no_objects (trace_value draft) = Ok draft_callbacks.
Proof. unfold createTraceActivationCallbacks. rewrite normalized_draft. exact eq_refl. Qed.

Lemma activation_needs_evidence_witness :
  exists r, evaluateRule (H := toy_sha256) manual_activation #"src/main.ts" draft_callbacks = Ok r /\
    state r = active /\ selected_at (canonical_trace draft) mode_manual manual_activation #"src/main.ts".
Proof.
  assert (exists r, evaluateRule (H := toy_sha256) manual_activation #"src/main.ts" draft_callbacks = Ok r /\
                    state r = active) as (r & Er & Ha).
  { apply (ok_of _ (fun r => state r = active)). vm_compute. reflexivity. }
  exists r. split; [exact Er|]. split; [exact Ha|].
  refine (proj2 (proj1 (activation_needs_evidence (H := toy_sha256) no_objects (trace_value draft)
            (canonical_trace draft) draft_callbacks mode_manual manual_activation #"src/main.ts" r
            normalized_draft draft_callbacks_created eq_refl Er) Ha)).
Defined.

(** A rule that is selected with too long a reason cannot be evaluated. *)
Definition long_reason : jstring := repeat 97%N (N.to_nat 16380).

Definition uncertain : ResolutionEventTrace :=
  {| trace_rules := [manual_rule]; trace_targets := [target];
     trace_events := [
       event #"event:launch" 0 None u_known (Launch #"." [ #"."] []);
       event #"event:mention" 1 None (u_unknown long_reason) (ManualRuleMention #"activation:manual")] |}.

Lemma long_reason_fails :
  ResolutionTrace.normalizeResolutionEventTrace no_objects (trace_value uncertain) = Ok uncertain /\
  exists callbacks, createTraceActivationCallbacks no_objects (trace_value uncertain) = Ok callbacks /\
    evaluateRule (H := toy_sha256) manual_activation #"src/main.ts" callbacks = Err ActivationAlgebra.resourceLimit.
Proof.
  split; [vm_compute; reflexivity|].
  apply (ok_of _ (fun callbacks =>
           evaluateRule (H := toy_sha256) manual_activation #"src/main.ts" callbacks = Err ActivationAlgebra.resourceLimit)).
  vm_compute. reflexivity.
Qed.

(** A first sequence number of -0 is accepted. *)
Definition negative_zero : value :=
  trace_value {| trace_rules := []; trace_targets := [];
    trace_events := [{| ev_id := #"event:launch"; ev_sequence := NegativeZero; ev_targetId := None;
                        ev_uncertainty := u_known; ev_payload := Launch #"." [ #"."] [] |}] |}.

Lemma negative_zero_accepted :
  exists t, ResolutionTrace.normalizeResolutionEventTrace no_objects negative_zero = Ok t /\
    map ev_sequence (trace_events t) = [NegativeZero].
Proof. apply (ok_of _ (fun t => map ev_sequence (trace_events t) = [NegativeZero])). vm_compute. reflexivity. Qed.

(** Keys that are array indices come before the others and in numeric order,
    wherever their code units would put them. *)
Definition index_keys : value :=
  VRecord [(#"b", VNull); (#"10", VNull); (#"9", VNull); (#"!", VNull)].

Lemma index_keys_first :
  exists b, normalizeJsonValue no_objects (S maxJsonDepth) [] index_keys no_budget_used
            = Ok (VRecord [(#"9", VNull); (#"10", VNull); (#"!", VNull); (#"b", VNull)], b).
Proof. eexists. vm_compute. reflexivity. Qed.

(** ** The import DAG *)

(** The boundary values, read as values of a heap with a proxy at 0 and arrays
    with holes elsewhere. *)
Definition boundary_heap : heap := fun l =>
  Some {| obj_proxy := (l =? 0)%N; obj_prototype := ArrayPrototype; obj_slots := ArraySlots l; obj_own := [] |}.

Fixpoint boundary_value (v : jsval unit) : value :=
  match v with
  | JUndefined => VUndefined
  | JNull => VNull
  | JBool b => VBool b
  | JNum n => VInteger n
  | JFloat => VNumber NaN
  | JStr s => VString s
  | JFun _ => VFunction
  | JArr true items => VArray (map boundary_value items)
  | JArr false items => VRef (N.of_nat (length items))
  | JRec fields => VRecord (map (fun f => (f.1, boundary_value f.2)) fields)
  | JExotic => VRef 0%N
  end.

Definition boundary : TraceReader unit := {| reader_heap := boundary_heap; reader_value := boundary_value |}.

Definition launch_only : jsval unit :=
  JRec [(#"recordKind", JStr RECORD_KIND); (#"contractVersion", JStr RESOLUTION_EVENT_TRACE_CONTRACT_VERSION);
        (#"rules", JArr true []); (#"targets", JArr true []);
        (#"events", JArr true [
           JRec [(#"id", JStr #"event:launch"); (#"sequence", JNum 0); (#"kind", JStr #"launch");
                 (#"targetId", JNull); (#"uncertainty", JRec [(#"state", JStr #"known")]);
                 (#"path", JStr #"."); (#"workspaceRoots", JArr true [JStr #"."]);
                 (#"settings", JArr true [])]])].

Definition traced_dag_input : jsval unit :=
  JRec [(#"graph", single_graph #"document:1" sample_source); (#"trace", launch_only)].

Lemma dag_carries_trace_witness :
  exists dag, buildDocumentImportDag (H := toy_sha256) (TraceService0 := event_traces (H := toy_sha256) (H0 := boundary))
                traced_dag_input = Ok dag /\
    dag_traceEventIds dag = [ #"event:launch"] /\ NoDup (dag_traceEventIds dag).
Proof.
  assert (exists dag, buildDocumentImportDag (H := toy_sha256)
            (TraceService0 := event_traces (H := toy_sha256) (H0 := boundary)) traced_dag_input = Ok dag /\
          dag_traceEventIds dag = [ #"event:launch"]) as (dag & Ed & Hi).
  { apply (ok_of _ (fun dag => dag_traceEventIds dag = [ #"event:launch"])). vm_compute. reflexivity. }
  exists dag. split; [exact Ed|]. split; [exact Hi|].
  destruct (dag_carries_trace (H := toy_sha256) (H0 := boundary) (fun _ => None) traced_dag_input dag (or_introl Ed))
    as (fields & t & _ & _ & _ & Hn & _).
  exact Hn.
Defined.
End TraceExample.
