(* ===== verification/TargetSampler.v ===== *)
(** Deterministic target sampling (packages/resolver/src/target-sampler.ts): the
    validation of the input, the classification of source paths, the partition of
    the sources by activation, and the selection of a set of targets that covers
    every criterion.

    A clock is the sequence of its readings; the state of a call is the number of
    readings taken. *)
From S2P Require Import Prelude JsString OrderedMap Unicode Identifiers JsValue RepositoryPath ActivationAlgebra ImportDag.

Definition TARGET_SAMPLER_MAX_PATH_CODE_UNITS : N := 32768.

Record TargetSamplerLimits := {
  exhaustiveSourceFileLimit : N; maximumActivationFacts : N; maximumCriticalPaths : N;
  maximumDurationMs : N; maximumPaths : N; maximumPathTextBytes : N; maximumRulesPerPath : N;
  maximumSamples : N; maximumWorkspaceBoundaries : N
}.

Definition TARGET_SAMPLER_DEFAULT_LIMITS : TargetSamplerLimits := {|
  exhaustiveSourceFileLimit := 1000; maximumActivationFacts := 1000000; maximumCriticalPaths := 4096;
  maximumDurationMs := 30000; maximumPaths := 100000; maximumPathTextBytes := 67108864;
  maximumRulesPerPath := 4096; maximumSamples := 100000; maximumWorkspaceBoundaries := 10000
|}.

Definition TARGET_SAMPLER_HARD_LIMITS : TargetSamplerLimits := {|
  exhaustiveSourceFileLimit := 100000; maximumActivationFacts := 10000000; maximumCriticalPaths := 100000;
  maximumDurationMs := 300000; maximumPaths := 1000000; maximumPathTextBytes := 536870912;
  maximumRulesPerPath := 100000; maximumSamples := 1000000; maximumWorkspaceBoundaries := 100000
|}.

Inductive TargetSamplerErrorCode :=
| deadlineExceeded | invalidInput | invalidOptions | invalidRelationship | resourceLimit.

Abbreviation sampler_res := (res TargetSamplerErrorCode).

(** ** Source languages *)

Inductive TargetSourceLanguage :=
| l_c | l_cpp | l_csharp | l_css | l_dart | l_elixir | l_erlang | l_fsharp | l_go | l_graphql | l_groovy
| l_haskell | l_html | l_java | l_javascript | l_kotlin | l_lua | l_make | l_objective_c | l_perl | l_php
| l_powershell | l_protobuf | l_python | l_r | l_ruby | l_rust | l_scala | l_shell | l_solidity | l_sql
| l_svelte | l_swift | l_terraform | l_typescript | l_vue | l_zig.

Definition language_name (l : TargetSourceLanguage) : jstring :=
  match l with
  | l_c => #"c" | l_cpp => #"cpp" | l_csharp => #"csharp" | l_css => #"css" | l_dart => #"dart"
  | l_elixir => #"elixir" | l_erlang => #"erlang" | l_fsharp => #"fsharp" | l_go => #"go"
  | l_graphql => #"graphql" | l_groovy => #"groovy" | l_haskell => #"haskell" | l_html => #"html"
  | l_java => #"java" | l_javascript => #"javascript" | l_kotlin => #"kotlin" | l_lua => #"lua"
  | l_make => #"make" | l_objective_c => #"objective-c" | l_perl => #"perl" | l_php => #"php"
  | l_powershell => #"powershell" | l_protobuf => #"protobuf" | l_python => #"python" | l_r => #"r"
  | l_ruby => #"ruby" | l_rust => #"rust" | l_scala => #"scala" | l_shell => #"shell"
  | l_solidity => #"solidity" | l_sql => #"sql" | l_svelte => #"svelte" | l_swift => #"swift"
  | l_terraform => #"terraform" | l_typescript => #"typescript" | l_vue => #"vue" | l_zig => #"zig"
  end.

Definition LANGUAGE_EXTENSIONS : list (jstring * TargetSourceLanguage) := [
  (#".c", l_c); (#".cc", l_cpp); (#".cjs", l_javascript); (#".cpp", l_cpp); (#".cs", l_csharp);
  (#".css", l_css); (#".cts", l_typescript); (#".cxx", l_cpp); (#".dart", l_dart); (#".eex", l_elixir);
  (#".ex", l_elixir); (#".exs", l_elixir); (#".erl", l_erlang); (#".fs", l_fsharp); (#".fsx", l_fsharp);
  (#".go", l_go); (#".graphql", l_graphql); (#".gql", l_graphql); (#".gradle", l_groovy);
  (#".groovy", l_groovy); (#".h", l_c); (#".hs", l_haskell); (#".hh", l_cpp); (#".hpp", l_cpp);
  (#".html", l_html); (#".hxx", l_cpp); (#".java", l_java); (#".js", l_javascript);
  (#".jsx", l_javascript); (#".kt", l_kotlin); (#".kts", l_kotlin); (#".less", l_css); (#".lua", l_lua);
  (#".m", l_objective_c); (#".mm", l_objective_c); (#".mjs", l_javascript); (#".mts", l_typescript);
  (#".pl", l_perl); (#".pm", l_perl); (#".php", l_php); (#".proto", l_protobuf); (#".ps1", l_powershell);
  (#".py", l_python); (#".pyi", l_python); (#".r", l_r); (#".rb", l_ruby); (#".rs", l_rust);
  (#".sass", l_css); (#".scala", l_scala); (#".scss", l_css); (#".sh", l_shell); (#".sol", l_solidity);
  (#".sql", l_sql); (#".svelte", l_svelte); (#".swift", l_swift); (#".tf", l_terraform);
  (#".ts", l_typescript); (#".tsx", l_typescript); (#".vue", l_vue); (#".zig", l_zig)].

Definition LANGUAGE_BASENAMES : list (jstring * TargetSourceLanguage) :=
  [(#"Dockerfile", l_shell); (#"GNUmakefile", l_make); (#"Makefile", l_make)].

(** What a plain object answers for names it does not own: the properties of
    [Object.prototype], here with the texts of their values. *)
Definition native_function (name : jstring) : jstring := #"function " ++ name ++ #"() { [native code] }".

Definition OBJECT_PROTOTYPE : list (jstring * jstring) :=
  (#"__proto__", #"[object Object]") :: (#"constructor", native_function #"Object") ::
  map (fun name => (name, native_function name))
    [ #"__defineGetter__"; #"__defineSetter__"; #"hasOwnProperty"; #"__lookupGetter__"; #"__lookupSetter__";
      #"isPrototypeOf"; #"propertyIsEnumerable"; #"toString"; #"valueOf"; #"toLocaleString"].

(** The value the classifier returns: a language, or an inherited property with its text. *)
Inductive classified :=
| Language (l : TargetSourceLanguage)
| Inherited (text : jstring).

(** [`${language}`] *)
Definition language_text (c : classified) : jstring :=
  match c with Language l => language_name l | Inherited text => text end.

(** [object[key]] of a plain object *)
Definition plain_lookup (own : list (jstring * TargetSourceLanguage)) (key : jstring) : option classified :=
  match map_get key own with
  | Some l => Some (Language l)
  | None => Inherited <$> map_get key OBJECT_PROTOTYPE
  end.

(** [s.lastIndexOf(unit)], [None] for -1 *)
Fixpoint lastIndexOf (c : N) (s : jstring) : option nat :=
  match s with
  | [] => None
  | u :: r =>
      match lastIndexOf c r with
      | Some i => Some (S i)
      | None => if (u =? c)%N then Some 0 else None
      end
  end.

Definition SLASH : N := 47.
Definition DOT : N := 46.

Definition directoryOf (path : jstring) : jstring :=
  match lastIndexOf SLASH path with
  | None => REPOSITORY_ROOT
  | Some slash => take slash path
  end.

(** [path.slice(path.lastIndexOf("/") + 1)] *)
Definition basename (path : jstring) : jstring :=
  match lastIndexOf SLASH path with
  | None => path
  | Some slash => drop (S slash) path
  end.

Section sampler.
Context (toLowerCase : jstring -> jstring).

Definition classifyNormalizedTargetSourcePath (path : jstring) : option classified :=
  let rawName := basename path in
  match plain_lookup LANGUAGE_BASENAMES rawName with
  | Some c => Some c
  | None =>
      let name := toLowerCase rawName in
      match lastIndexOf DOT name with
      | None => None
      | Some dot => plain_lookup LANGUAGE_EXTENSIONS (drop dot name)
      end
  end.

(** ** Values at the boundary *)

Section values.
Context {F : Type}.
Implicit Types value : jsval F.

Definition record (value : jsval F) (keys : list jstring) : sampler_res (list (jstring * jsval F)) :=
  match value with
  | JRec fields =>
      _ ← ensure ((length fields =? length keys)%nat
                  && forallb (fun key => existsb (jeqb key) keys) (keys_of fields)) invalidInput;
      _ ← ensure (forallb (fun key => map_has key fields) keys) invalidInput;
      Ok fields
  | _ => Err invalidInput
  end.

Definition property (fields : list (jstring * jsval F)) (key : jstring) : jsval F := field_value fields key.

Definition denseArray (value : jsval F) (maximum : N) : sampler_res (list (jsval F)) :=
  match value with
  | JArr dense items =>
      _ ← ensure (N.of_nat (length items) <=? maximum)%N resourceLimit;
      _ ← ensure dense invalidInput;
      Ok items
  | _ => Err invalidInput
  end.

Definition rootValue (value : jsval F) : sampler_res jstring :=
  match value with
  | JStr s =>
      _ ← ensure ((N.of_nat (length s) <=? TARGET_SAMPLER_MAX_PATH_CODE_UNITS)%N && isRepositoryRelativePath s)
                 invalidInput;
      Ok s
  | _ => Err invalidInput
  end.

Definition pathValue (value : jsval F) : sampler_res jstring :=
  match value with
  | JStr s =>
      _ ← ensure ((N.of_nat (length s) <=? TARGET_SAMPLER_MAX_PATH_CODE_UNITS)%N && isRepositoryRelativePath s
                  && negb (jeqb s REPOSITORY_ROOT)) invalidInput;
      Ok s
  | _ => Err invalidInput
  end.

Definition boundedText (value : jsval F) (maximum : N) : sampler_res jstring :=
  match value with
  | JStr s => _ ← ensure (negb (jeqb s []) && (N.of_nat (length s) <=? maximum)%N) invalidInput; Ok s
  | _ => Err invalidInput
  end.

Definition positiveInteger (value : jsval F) (maximum : N) : sampler_res N :=
  match value with
  | JNum n => _ ← ensure ((1 <=? n)%Z && (n <=? Z.of_N maximum)%Z) invalidOptions; Ok (Z.to_N n)
  | _ => Err invalidOptions
  end.

(** The member of an enumeration a value names. *)
Definition oneOf {A} (name : A -> jstring) (members : list A) (value : jsval F) : sampler_res A :=
  match value with
  | JStr s => match find (fun a => jeqb (name a) s) members with Some a => Ok a | None => Err invalidInput end
  | _ => Err invalidInput
  end.

Definition classifyTargetSourcePath (value : jsval F) : sampler_res (option classified) :=
  path ← pathValue value; Ok (classifyNormalizedTargetSourcePath path).
End values.

(** ** Time *)

(** A reading is a time, exact in nanoseconds, or fails: the function throws or
    returns no finite number. *)
Inductive clock_reading := ClockFailed | ClockAt (nanoseconds : Z).
Definition TargetSamplerClock : Type := nat -> clock_reading.

(** Code that reads the clock; the state is the number of readings taken. *)
Definition sampling (A : Type) : Type := nat -> sampler_res (A * nat).

#[export] Instance sampling_mret : MRet sampling := fun _ a k => Ok (a, k).
#[export] Instance sampling_mbind : MBind sampling := fun A B f m k =>
  match m k with Ok (a, k') => f a k' | Err e => Err e end.

Definition untimed {A} (m : sampler_res A) : sampling A := fun k => a ← m; Ok (a, k).

Definition readClock (clock : TargetSamplerClock) : sampling Z := fun k =>
  match clock k with
  | ClockAt now => Ok (now, S k)
  | ClockFailed => Err invalidOptions
  end.

Definition checkDeadline (clock : TargetSamplerClock) (deadline : Z) : sampling unit :=
  now ← readClock clock;
  untimed (ensure (negb (deadline <? now)%Z) deadlineExceeded).

(** A loop over the entries of a list that checks the deadline at every 1024th. *)
Fixpoint timedLoop {A T} (clock : TargetSamplerClock) (deadline : Z) (f : T -> A -> sampler_res T) (index : nat)
    (st : T) (l : list A) : sampling T :=
  match l with
  | [] => mret st
  | x :: r =>
      _ ← (if (index mod 1024 =? 0)%nat then checkDeadline clock deadline else mret tt);
      st' ← untimed (f st x);
      timedLoop clock deadline f (S index) st' r
  end.

(** ** Options *)

Definition LIMIT_KEYS : list jstring :=
  [ #"exhaustiveSourceFileLimit"; #"maximumActivationFacts"; #"maximumCriticalPaths"; #"maximumDurationMs";
    #"maximumPathTextBytes"; #"maximumPaths"; #"maximumRulesPerPath"; #"maximumSamples";
    #"maximumWorkspaceBoundaries"].

(** One round of the loop over the limits. *)
Definition selectLimit {F} (input : list (jstring * jsval F)) (key : jstring) (field : TargetSamplerLimits -> N)
    : sampler_res N :=
  match map_get key input with
  | None => Ok (field TARGET_SAMPLER_DEFAULT_LIMITS)
  | Some value => positiveInteger value (field TARGET_SAMPLER_HARD_LIMITS)
  end.

Definition clockOption (performance : TargetSamplerClock) (input : list (jstring * jsval TargetSamplerClock))
    : sampler_res TargetSamplerClock :=
  match map_get #"clock" input with
  | None | Some JUndefined => Ok performance
  | Some (JRec [(key, JFun now)]) => if jeqb key #"now" then Ok now else Err invalidOptions
  | Some _ => Err invalidOptions
  end.

Definition resolveOptions (performance : TargetSamplerClock) (value : jsval TargetSamplerClock)
    : sampler_res (TargetSamplerClock * TargetSamplerLimits) :=
  match value with
  | JUndefined => Ok (performance, TARGET_SAMPLER_DEFAULT_LIMITS)
  | JRec input =>
      _ ← ensure (forallb (fun key => existsb (jeqb key) (#"clock" :: LIMIT_KEYS)) (keys_of input)) invalidOptions;
      exhaustive ← selectLimit input #"exhaustiveSourceFileLimit" exhaustiveSourceFileLimit;
      facts ← selectLimit input #"maximumActivationFacts" maximumActivationFacts;
      critical ← selectLimit input #"maximumCriticalPaths" maximumCriticalPaths;
      duration ← selectLimit input #"maximumDurationMs" maximumDurationMs;
      bytes ← selectLimit input #"maximumPathTextBytes" maximumPathTextBytes;
      paths ← selectLimit input #"maximumPaths" maximumPaths;
      rules ← selectLimit input #"maximumRulesPerPath" maximumRulesPerPath;
      samples ← selectLimit input #"maximumSamples" maximumSamples;
      workspaces ← selectLimit input #"maximumWorkspaceBoundaries" maximumWorkspaceBoundaries;
      clock ← clockOption performance input;
      Ok (clock, {| exhaustiveSourceFileLimit := exhaustive; maximumActivationFacts := facts;
                    maximumCriticalPaths := critical; maximumDurationMs := duration; maximumPaths := paths;
                    maximumPathTextBytes := bytes; maximumRulesPerPath := rules; maximumSamples := samples;
                    maximumWorkspaceBoundaries := workspaces |})
  | _ => Err invalidOptions
  end.

(** ** The records *)

Inductive TrackingCertainty := all_files_not_tracked | tracked.

Definition certainty_name (c : TrackingCertainty) : jstring :=
  match c with all_files_not_tracked => #"all-files-not-tracked" | tracked => #"tracked" end.

Inductive TrackedFileEnumerationReason :=
| git_directory_missing | git_index_malformed | git_index_missing | git_index_unsupported
| git_metadata_unsafe | git_worktree_external_metadata | verified_git_index.

#[export] Instance TrackingCertainty_eq_dec : EqDecision TrackingCertainty.
Proof. solve_decision. Defined.
#[export] Instance TrackedFileEnumerationReason_eq_dec : EqDecision TrackedFileEnumerationReason.
Proof. solve_decision. Defined.

Definition tracking_reason_name (r : TrackedFileEnumerationReason) : jstring :=
  match r with
  | git_directory_missing => #"git-directory-missing"
  | git_index_malformed => #"git-index-malformed"
  | git_index_missing => #"git-index-missing"
  | git_index_unsupported => #"git-index-unsupported"
  | git_metadata_unsafe => #"git-metadata-unsafe"
  | git_worktree_external_metadata => #"git-worktree-external-metadata"
  | verified_git_index => #"verified-git-index"
  end.

Definition TRACKING_REASONS : list TrackedFileEnumerationReason :=
  [git_directory_missing; git_index_malformed; git_index_missing; git_index_unsupported; git_metadata_unsafe;
   git_worktree_external_metadata; verified_git_index].

Inductive WorkspaceUncertainty := ws_known | ws_uncertain.

#[export] Instance WorkspaceUncertainty_eq_dec : EqDecision WorkspaceUncertainty.
Proof. solve_decision. Defined.

Definition workspace_uncertainty_name (u : WorkspaceUncertainty) : jstring :=
  match u with ws_known => #"known" | ws_uncertain => #"uncertain" end.

Definition WORKSPACE_FAMILIES : list jstring :=
  [ #"bazel-build"; #"bazel-module"; #"bazel-workspace"; #"cargo"; #"go-module"; #"go-workspace";
    #"javascript-package"; #"lerna"; #"nx"; #"pnpm"; #"python-project"; #"python-setup-cfg"; #"python-setup-py";
    #"rush"; #"turbo"].
Definition WORKSPACE_LANGUAGES : list jstring := [ #"bazel"; #"go"; #"javascript"; #"python"; #"rust"].
Definition WORKSPACE_KINDS : list jstring := [ #"project"; #"source"; #"workspace"].

Record TargetActivationFact := { fact_ruleId : jstring; fact_state : ActivationState }.

Record Source := { source_directory : jstring; source_language : classified; source_path : jstring }.

Record Candidate := { candidate_source : Source; candidate_partitionId : jstring }.

Definition candidate_path (c : Candidate) : jstring := source_path (candidate_source c).

Inductive TargetCoverageKind :=
| critical_path | exhaustive_source_set | language_directory | scope_partition | workspace_root.

Definition coverage_kind_name (k : TargetCoverageKind) : jstring :=
  match k with
  | critical_path => #"critical-path"
  | exhaustive_source_set => #"exhaustive-source-set"
  | language_directory => #"language-directory"
  | scope_partition => #"scope-partition"
  | workspace_root => #"workspace-root"
  end.

Inductive CoverageStatus := covered | unavailable.

#[export] Instance CoverageStatus_eq_dec : EqDecision CoverageStatus.
Proof. solve_decision. Defined.

Record TargetCoverageCriterion := {
  candidateCount : N; criterion_id : jstring; criterion_kind : TargetCoverageKind;
  selectedPath : option jstring; criterion_status : CoverageStatus
}.

Record SampledTarget := {
  activationPartitionId : option jstring; target_language : option classified; target_path : jstring;
  target_reasons : list jstring
}.

Record TargetSamplingProvenance := {
  trackingCertainty : TrackingCertainty; trackingReason : TrackedFileEnumerationReason;
  workspaceUncertainty : WorkspaceUncertainty; workspaceUncertaintyReasons : list jstring
}.

Record TargetSamplingMetrics := {
  activationFactCount : N; criticalPathCount : N; languageDirectoryCount : N; partitionCount : N;
  sourcePathCount : N; trackedPathCount : N; workspaceRootCount : N
}.

Inductive SamplingState := complete_sampling | partial_sampling.
Inductive SamplingStrategy := exhaustive | stratified.

(** The constant record kind and contract version are left out. *)
Record TargetSamplingResult := {
  coverage : list TargetCoverageCriterion; sampled_limits : TargetSamplerLimits; metrics : TargetSamplingMetrics;
  provenance : TargetSamplingProvenance; selected : list SampledTarget; sampling_state : SamplingState;
  strategy : SamplingStrategy
}.

(** ** Normalization *)

Section normalization.
Context {F : Type} (limits : TargetSamplerLimits).

(** One round of the loop over the paths: the path, and the bytes so far. *)
Definition addPath (st : list jstring * N) (value : jsval F) : sampler_res (list jstring * N) :=
  path ← pathValue value;
  let pathBytes := (st.2 + textBytes path)%N in
  _ ← ensure (pathBytes <=? maximumPathTextBytes limits)%N resourceLimit;
  Ok (st.1 ++ [path], pathBytes).

Definition uncertaintyReason (value : jsval F) : sampler_res jstring :=
  reason ← boundedText value 1024;
  _ ← ensure (STABLE_ID reason) invalidInput;
  Ok reason.

Definition normalizeProvenance (input : list (jstring * jsval F)) : sampler_res TargetSamplingProvenance :=
  certainty ← oneOf certainty_name [tracked; all_files_not_tracked] (property input #"trackingCertainty");
  reason ← oneOf tracking_reason_name TRACKING_REASONS (property input #"trackingReason");
  _ ← ensure (Bool.eqb (bool_decide (certainty = tracked)) (bool_decide (reason = verified_git_index)))
             invalidRelationship;
  uncertainty ← oneOf workspace_uncertainty_name [ws_known; ws_uncertain] (property input #"workspaceUncertainty");
  rawReasons ← denseArray (property input #"workspaceUncertaintyReasons") 1000;
  reasons ← rmapM uncertaintyReason rawReasons;
  _ ← ensure (bool_decide (NoDup reasons)) invalidRelationship;
  _ ← ensure (Bool.eqb (bool_decide (uncertainty = ws_known)) (bool_decide (reasons = []))) invalidRelationship;
  Ok {| trackingCertainty := certainty; trackingReason := reason; workspaceUncertainty := uncertainty;
        workspaceUncertaintyReasons := sort_by jleb reasons |}.

Definition memberOf (members : list jstring) (value : jsval F) : bool :=
  match value with JStr s => existsb (jeqb s) members | _ => false end.

(** One round of the loop over the boundaries; the map leads from IDs to roots. *)
Definition addWorkspace (workspaceMap : list (jstring * jstring)) (value : jsval F)
    : sampler_res (list (jstring * jstring)) :=
  item ← record value [ #"evidencePath"; #"family"; #"kind"; #"languages"; #"root"];
  _ ← pathValue (property item #"evidencePath");
  family ← boundedText (property item #"family") 512;
  _ ← ensure (existsb (jeqb family) WORKSPACE_FAMILIES) invalidInput;
  _ ← ensure (memberOf WORKSPACE_KINDS (property item #"kind")) invalidInput;
  languages ← denseArray (property item #"languages") 16;
  _ ← ensure (forallb (memberOf WORKSPACE_LANGUAGES) languages) invalidInput;
  root ← rootValue (property item #"root");
  Ok (map_set root root workspaceMap).

Definition activationFact (value : jsval F) : sampler_res TargetActivationFact :=
  stateRecord ← record value [ #"ruleId"; #"state"];
  ruleId ← boundedText (property stateRecord #"ruleId") 512;
  _ ← ensure (STABLE_ID ruleId) invalidInput;
  state ← oneOf state_name ACTIVATION_STATES (property stateRecord #"state");
  Ok {| fact_ruleId := ruleId; fact_state := state |}.

Definition fact_le (left right : TargetActivationFact) : bool := jleb (fact_ruleId left) (fact_ruleId right).

(** The state of the loop over the observations. *)
Record Observed := {
  observations : list (jstring * list TargetActivationFact); factCount : N;
  ruleUniverse : option (list jstring)
}.

Definition addObservation (sourcePaths : list jstring) (st : Observed) (value : jsval F) : sampler_res Observed :=
  item ← record value [ #"path"; #"states"];
  path ← pathValue (property item #"path");
  _ ← ensure (existsb (jeqb path) sourcePaths && negb (map_has path (observations st))) invalidRelationship;
  rawStates ← denseArray (property item #"states") (maximumRulesPerPath limits);
  let count := (factCount st + N.of_nat (length rawStates))%N in
  _ ← ensure (count <=? maximumActivationFacts limits)%N resourceLimit;
  facts ← rmapM activationFact rawStates;
  let states := sort_by fact_le facts in
  let ruleIds := map fact_ruleId states in
  _ ← ensure (bool_decide (NoDup ruleIds)) invalidRelationship;
  _ ← ensure (match ruleUniverse st with
              | None => true
              | Some universe => bool_decide (universe = ruleIds)
              end) invalidRelationship;
  Ok {| observations := map_set path states (observations st); factCount := count;
        ruleUniverse := match ruleUniverse st with None => Some ruleIds | universe => universe end |}.

Definition sourceOf (path : jstring) : option Source :=
  language ← classifyNormalizedTargetSourcePath path;
  Some {| source_directory := directoryOf path; source_language := language; source_path := path |}.

Definition normalizeCritical (input : list (jstring * jsval F)) : sampler_res (list jstring) :=
  rawCritical ← denseArray (property input #"criticalPaths") (maximumCriticalPaths limits);
  paths ← rmapM pathValue rawCritical;
  _ ← ensure (bool_decide (NoDup paths)) invalidRelationship;
  Ok (sort_by jleb paths).
End normalization.

(** ** Activation partitions *)

Section partitions.
Context `{Sha256}.

Definition PARTITION_NAMESPACE : jstring := #"target-activation-partition-v1".

(** The message of [partitionId]. *)
Definition partitionMessage (states : list TargetActivationFact) : list N :=
  framedMessage PARTITION_NAMESPACE
    (mjoin ((fun fact => [fact_ruleId fact; state_name (fact_state fact)]) <$> states)).

Definition partitionId (states : list TargetActivationFact) : jstring :=
  #"partition:" ++ hex (sha256 (partitionMessage states)).

Definition partitionSignature (states : list TargetActivationFact) : jstring :=
  join 124%N (map (fun fact =>
    String_of_N (N.of_nat (length (fact_ruleId fact))) ++ #":" ++ fact_ruleId fact ++ #":"
    ++ state_name (fact_state fact)) states).

(** One round of the loop over the sources, with the map from signatures to IDs. *)
Definition addCandidate (seen : list (jstring * list TargetActivationFact))
    (st : list Candidate * list (jstring * jstring)) (source : Source)
    : list Candidate * list (jstring * jstring) :=
  let states := default [] (map_get (source_path source) seen) in
  let signature := partitionSignature states in
  let id := default (partitionId states) (map_get signature st.2) in
  (st.1 ++ [{| candidate_source := source; candidate_partitionId := id |}], map_set signature id st.2).

Definition candidatesOf (seen : list (jstring * list TargetActivationFact)) (sources : list Source)
    : list Candidate :=
  (fold_left (addCandidate seen) sources ([], [])).1.
End partitions.

(** ** Ranges under a root *)

Definition underRoot (path root : jstring) : bool :=
  jeqb root REPOSITORY_ROOT || startsWith path (root ++ #"/").

(** The loop of the binary search; [fuel] bounds its rounds. *)
Fixpoint searchFrom (paths : list jstring) (bound : jstring) (fuel low high : nat) : nat :=
  match fuel with
  | O => low
  | S fuel' =>
      if (low <? high)%nat then
        let middle := low + (high - low) / 2 in
        match paths !! middle with
        | Some path =>
            if jltb path bound then searchFrom paths bound fuel' (S middle) high
            else searchFrom paths bound fuel' low middle
        | None => searchFrom paths bound fuel' low middle
        end
      else low
  end.

Definition lowerBound (paths : list jstring) (bound : jstring) : nat :=
  searchFrom paths bound (S (length paths)) 0 (length paths).

(** ["\u{10ffff}"] *)
Definition LAST_CODE_POINT : jstring := [0xdbff%N; 0xdfff%N].

Definition underRootRange (paths : list jstring) (root : jstring) : N * option jstring :=
  if jeqb root REPOSITORY_ROOT then (N.of_nat (length paths), head paths)
  else
    let prefix := root ++ #"/" in
    let start := lowerBound paths prefix in
    let end_ := lowerBound paths (prefix ++ LAST_CODE_POINT) in
    (N.of_nat (end_ - start),
     match paths !! start with
     | Some path => if underRoot path root then Some path else None
     | None => None
     end).

(** ** Coverage *)

(** The criteria found and, by path, the reasons to select it. *)
Record Selection := { found : list TargetCoverageCriterion; reasons : list (jstring * list jstring) }.

(** [set.add(text)] *)
Definition set_add (text : jstring) (l : list jstring) : list jstring :=
  if existsb (jeqb text) l then l else l ++ [text].

Section coverage.
Context (limits : TargetSamplerLimits).

Definition select (st : list (jstring * list jstring)) (path : option jstring) (reason : jstring)
    : sampler_res (list (jstring * list jstring)) :=
  match path with
  | None => Ok st
  | Some path =>
      let st' := map_set path (set_add reason (default [] (map_get path st))) st in
      _ ← ensure (N.of_nat (length st') <=? maximumSamples limits)%N resourceLimit;
      Ok st'
  end.

(** The text of the reason to select the representative of a criterion. *)
Definition criterion_reason (c : TargetCoverageCriterion) : jstring :=
  coverage_kind_name (criterion_kind c) ++ #":" ++ criterion_id c.

(** [coverage.push(criterion); select(criterion.selectedPath, reason)] *)
Definition cover (st : Selection) (c : TargetCoverageCriterion) : sampler_res Selection :=
  reasons' ← select (reasons st) (selectedPath c) (criterion_reason c);
  Ok {| found := found st ++ [c]; reasons := reasons' |}.

Definition status_of (path : option jstring) : CoverageStatus :=
  match path with Some _ => covered | None => unavailable end.

Definition exhaustiveCriterion (sources : list Source) : TargetCoverageCriterion :=
  {| candidateCount := N.of_nat (length sources); criterion_id := #"all"; criterion_kind := exhaustive_source_set;
     selectedPath := source_path <$> head sources; criterion_status := covered |}.

(** The part of the exhaustive strategy: every source is selected. *)
Definition coverSources (sources : list Source) : sampler_res Selection :=
  reasons' ← foldM (fun st source => select st (Some (source_path source)) #"exhaustive-source-set:all") [] sources;
  Ok {| found := [exhaustiveCriterion sources]; reasons := reasons' |}.

(** [criterion(kind, id, paths)] *)
Definition criterion (kind : TargetCoverageKind) (id : jstring) (paths : list jstring) : TargetCoverageCriterion :=
  {| candidateCount := N.of_nat (length paths); criterion_id := id; criterion_kind := kind;
     selectedPath := head paths; criterion_status := status_of (head paths) |}.

Definition criticalCriterion (paths : list jstring) (path : jstring) : TargetCoverageCriterion :=
  criterion critical_path path (if existsb (jeqb path) paths then [path] else []).

Definition workspaceCriterion (candidatePaths : list jstring) (workspace : jstring * jstring)
    : TargetCoverageCriterion :=
  let range := underRootRange candidatePaths workspace.2 in
  {| candidateCount := range.1; criterion_id := workspace.1; criterion_kind := workspace_root;
     selectedPath := range.2; criterion_status := status_of range.2 |}.

(** A group of candidates: their number and the path of the first. *)
Definition CoverageGroup : Type := N * jstring.

(** One round of the loop that groups the candidates by a key. *)
Definition addToGroup (key : Candidate -> jstring) (groups : list (jstring * CoverageGroup)) (c : Candidate)
    : list (jstring * CoverageGroup) :=
  match map_get (key c) groups with
  | None => map_set (key c) (1%N, candidate_path c) groups
  | Some (count, first) => map_set (key c) ((count + 1)%N, first) groups
  end.

Definition languageDirectoryId (c : Candidate) : jstring :=
  language_text (source_language (candidate_source c)) ++ #":" ++ source_directory (candidate_source c).

Definition groupsBy (key : Candidate -> jstring) (candidates : list Candidate) : list (jstring * CoverageGroup) :=
  fold_left (addToGroup key) candidates [].

Definition key_le {A} (left right : jstring * A) : bool := jleb left.1 right.1.

Definition groupCriterion (kind : TargetCoverageKind) (group : jstring * CoverageGroup) : TargetCoverageCriterion :=
  {| candidateCount := group.2.1; criterion_id := group.1; criterion_kind := kind;
     selectedPath := Some group.2.2; criterion_status := covered |}.

(** [coverage.sort]: by kind, then by ID. *)
Definition criterion_le (left right : TargetCoverageCriterion) : bool :=
  let l := coverage_kind_name (criterion_kind left) in
  let r := coverage_kind_name (criterion_kind right) in
  if jeqb l r then jleb (criterion_id left) (criterion_id right) else jleb l r.

Definition sampledTarget (candidates : list Candidate) (entry : jstring * list jstring) : SampledTarget :=
  let candidate := map_get entry.1 (map (fun c => (candidate_path c, c)) candidates) in
  {| activationPartitionId := candidate_partitionId <$> candidate;
     target_language := (fun c => source_language (candidate_source c)) <$> candidate;
     target_path := entry.1; target_reasons := sort_by jleb entry.2 |}.
End coverage.

(** ** The sampler *)

(** The normalized input. *)
Record NormalizedSampling := {
  ns_paths : list jstring; ns_provenance : TargetSamplingProvenance; ns_workspaces : list (jstring * jstring);
  ns_sources : list Source; ns_observed : Observed; ns_critical : list jstring
}.

Section sampleTargets.
Context `{Sha256}.

Definition strategyOf (limits : TargetSamplerLimits) (sources : list Source) : SamplingStrategy :=
  if (N.of_nat (length sources) <=? exhaustiveSourceFileLimit limits)%N then exhaustive else stratified.

(** The criteria after that of the exhaustive strategy, in the order they are found. *)
Definition criteria (input : NormalizedSampling) (candidates : list Candidate) : list TargetCoverageCriterion :=
  map (criticalCriterion (ns_paths input)) (ns_critical input)
  ++ map (workspaceCriterion (map candidate_path candidates)) (ns_workspaces input)
  ++ map (groupCriterion scope_partition) (sort_by key_le (groupsBy candidate_partitionId candidates))
  ++ map (groupCriterion language_directory) (sort_by key_le (groupsBy languageDirectoryId candidates)).

Definition coverAll (limits : TargetSamplerLimits) (input : NormalizedSampling) (candidates : list Candidate)
    : sampler_res Selection :=
  st ← match strategyOf limits (ns_sources input) with
       | exhaustive => coverSources limits (ns_sources input)
       | stratified => Ok {| found := []; reasons := [] |}
       end;
  foldM (cover limits) st (criteria input candidates).

Definition stateOf (provenance : TargetSamplingProvenance) (coverage : list TargetCoverageCriterion)
    : SamplingState :=
  if bool_decide (trackingCertainty provenance = tracked)
     && bool_decide (workspaceUncertainty provenance = ws_known)
     && negb (existsb (fun c => bool_decide (criterion_status c = unavailable)) coverage)
  then complete_sampling else partial_sampling.

(** From the selection on. *)
Definition resultOf (limits : TargetSamplerLimits) (input : NormalizedSampling) (candidates : list Candidate)
    (st : Selection) : TargetSamplingResult :=
  let coverage := sort_by criterion_le (found st) in
  {| coverage := coverage; sampled_limits := limits;
     metrics := {| activationFactCount := factCount (ns_observed input);
                   criticalPathCount := N.of_nat (length (ns_critical input));
                   languageDirectoryCount := N.of_nat (length (groupsBy languageDirectoryId candidates));
                   partitionCount := N.of_nat (length (groupsBy candidate_partitionId candidates));
                   sourcePathCount := N.of_nat (length (ns_sources input));
                   trackedPathCount := N.of_nat (length (ns_paths input));
                   workspaceRootCount := N.of_nat (length (ns_workspaces input)) |};
     provenance := ns_provenance input;
     selected := map (sampledTarget candidates) (sort_by key_le (reasons st));
     sampling_state := stateOf (ns_provenance input) coverage;
     strategy := strategyOf limits (ns_sources input) |}.

Definition INPUT_KEYS : list jstring :=
  [ #"activationObservations"; #"criticalPaths"; #"paths"; #"trackingCertainty"; #"trackingReason";
    #"workspaceBoundaries"; #"workspaceUncertainty"; #"workspaceUncertaintyReasons"].

Definition normalizeInput {F} (clock : TargetSamplerClock) (deadline : Z) (limits : TargetSamplerLimits)
    (inputValue : jsval F) : sampling NormalizedSampling :=
  input ← untimed (record inputValue INPUT_KEYS);
  rawPaths ← untimed (denseArray (property input #"paths") (maximumPaths limits));
  '(pathList, _) ← timedLoop clock deadline (addPath limits) 0 ([], 0%N) rawPaths;
  let paths := sort_by jleb pathList in
  _ ← untimed (ensure (bool_decide (NoDup paths)) invalidRelationship);
  provenance ← untimed (normalizeProvenance input);
  rawWorkspaces ← untimed (denseArray (property input #"workspaceBoundaries") (maximumWorkspaceBoundaries limits));
  workspaceMap ← timedLoop clock deadline addWorkspace 0 [] rawWorkspaces;
  let sources := omap sourceOf paths in
  rawObservations ← untimed (denseArray (property input #"activationObservations") (maximumPaths limits));
  observed ← timedLoop clock deadline (addObservation limits (map source_path sources)) 0
               {| observations := []; factCount := 0; ruleUniverse := None |} rawObservations;
  _ ← untimed (ensure (length (observations observed) =? length sources)%nat invalidRelationship);
  critical ← untimed (normalizeCritical limits input);
  mret {| ns_paths := paths; ns_provenance := provenance; ns_workspaces := sort_by key_le workspaceMap;
          ns_sources := sources; ns_observed := observed; ns_critical := critical |}.

Definition sampleTargets (performance : TargetSamplerClock) (inputValue optionsValue : jsval TargetSamplerClock)
    : sampler_res TargetSamplingResult :=
  '(clock, limits) ← resolveOptions performance optionsValue;
  '(result, _) ← (started ← readClock clock;
                  let deadline := (started + 1000000 * Z.of_N (maximumDurationMs limits))%Z in
                  input ← normalizeInput clock deadline limits inputValue;
                  let candidates := candidatesOf (observations (ns_observed input)) (ns_sources input) in
                  st ← untimed (coverAll limits input candidates);
                  _ ← checkDeadline clock deadline;
                  mret (resultOf limits input candidates st)) 0;
  Ok result.
End sampleTargets.
End sampler.
