(* ===== verification/TargetCoverageLaws.v ===== *)
(** Theorems about the selection of targets
    (packages/resolver/src/target-sampler.ts): the binary search and the range
    under a root, the groups of candidates, and what is selected for what
    reasons. *)
From S2P Require Import Prelude JsString OrderedMap Unicode Identifiers JsValue RepositoryPath ActivationAlgebra ImportDag TargetSampler.

(** ** Texts between a prefix and its extensions *)

Lemma prefix_le q r : jleb q (q ++ r) = true.
Proof.
  unfold jleb. induction q as [|c q IH]; cbn; [by destruct r|]. by rewrite N.compare_refl.
Qed.

Lemma between_prefix q p r : jleb q p = true -> jltb p (q ++ r) = true -> startsWith p q = true.
Proof.
  unfold jleb, jltb. revert p. induction q as [|c q IH]; intros p Hq Hp; [by destruct p|].
  destruct p as [|d p]; [done|]. cbn in *.
  destruct (N.compare_spec c d) as [->|Hlt|Hgt]; [|rewrite (proj2 (N.compare_gt_iff d c)) in Hp by done; done|done].
  rewrite N.compare_refl in Hp. rewrite N.eqb_refl. cbn. by apply IH.
Qed.

Lemma starts_not_below q p : startsWith p q = true -> jltb p q = false.
Proof. intros (r & ->)%startsWith_spec. rewrite jltb_leb, prefix_le. done. Qed.

(** ** The binary search *)

Definition sorted_texts (paths : list jstring) : Prop := StronglySorted (le_prop jleb) paths.

Lemma jltb_le_trans a b c : jleb a b = true -> jltb b c = true -> jltb a c = true.
Proof. intros [Hab | ->]%jleb_lt_or_eq; [by apply jltb_trans|done]. Qed.

(** The [i]-th path is below the bound, or past the end of the list. *)
Definition below (paths : list jstring) (bound : jstring) (i : nat) : Prop :=
  forall p, paths !! i = Some p -> jltb p bound = true.
Definition not_below (paths : list jstring) (bound : jstring) (i : nat) : Prop :=
  forall p, paths !! i = Some p -> jltb p bound = false.

Lemma sorted_lookup paths i j p q :
  sorted_texts paths -> i <= j -> paths !! i = Some p -> paths !! j = Some q -> jleb p q = true.
Proof.
  intros Hs. revert i j. induction Hs as [|x l Hs IH Hx]; intros i j Hij Hp Hq; [done|].
  destruct i, j; simplify_eq/=.
  - apply jleb_refl.
  - rewrite Forall_forall in Hx. apply Hx. by eapply list_elem_of_lookup_2.
  - lia.
  - apply (IH i j); [lia|done..].
Qed.

Lemma below_down paths bound i j : sorted_texts paths -> i <= j -> j < length paths ->
  below paths bound j -> below paths bound i.
Proof.
  intros Hs Hij Hj Hb p Hp. destruct (lookup_lt_is_Some_2 paths j Hj) as (q & Hq).
  exact (jltb_le_trans p q bound (sorted_lookup paths i j p q Hs Hij Hp Hq) (Hb q Hq)).
Qed.

Lemma not_below_up paths bound i j : sorted_texts paths -> i <= j ->
  not_below paths bound i -> not_below paths bound j.
Proof.
  intros Hs Hij Hb q Hq. destruct (jltb q bound) eqn:Hlt; [|done]. exfalso.
  assert (i < length paths) by (apply lookup_lt_Some in Hq; lia).
  destruct (lookup_lt_is_Some_2 paths i) as (p & Hp); [done|].
  pose proof (Hb p Hp) as Hn. rewrite (jltb_le_trans p q bound (sorted_lookup paths i j p q Hs Hij Hp Hq) Hlt) in Hn. done.
Qed.

Lemma searchFrom_spec paths bound fuel low high :
  sorted_texts paths -> low <= high <= length paths -> high - low < fuel ->
  (forall i, i < low -> below paths bound i) -> (forall i, high <= i -> not_below paths bound i) ->
  let at_ := searchFrom paths bound fuel low high in
  at_ <= length paths /\ (forall i, i < at_ -> below paths bound i) /\ (forall i, at_ <= i -> not_below paths bound i).
Proof.
  intros Hs. revert low high. induction fuel as [|fuel IH]; intros low high Hlh Hf Hlow Hhigh; [lia|].
  cbn [searchFrom].
  destruct (Nat.ltb_spec low high) as [Hlt|Hge]; [|split_and!; [lia|done|]; intros i Hi; apply Hhigh; lia].
  pose proof (Nat.div_lt (high - low) 2 ltac:(lia) ltac:(lia)) as Hhalf.
  remember (low + (high - low) / 2) as middle eqn:Hmid.
  assert (Hm : low <= middle < high) by lia. clear Hmid Hhalf.
  destruct (lookup_lt_is_Some_2 paths middle) as (p & Hp); [lia|].
  rewrite Hp. destruct (jltb p bound) eqn:Hpb.
  - apply IH; [lia..| |done]. intros i Hi. apply (below_down paths bound i middle); [done|lia|lia|].
    intros p' Hp'. congruence.
  - apply IH; [lia..|done|]. intros i Hi. apply (not_below_up paths bound middle i); [done|lia|].
    intros p' Hp'. congruence.
Qed.

(** The search returns the number of the paths below the bound, which are the
    first ones. *)
Lemma lowerBound_partition paths bound : sorted_texts paths ->
  exists l k, paths = l ++ k /\ length l = lowerBound paths bound
    /\ Forall (fun p => jltb p bound = true) l /\ Forall (fun p => jltb p bound = false) k.
Proof.
  intros Hs. destruct (searchFrom_spec paths bound (S (length paths)) 0 (length paths)) as (Hle & Hlo & Hhi);
    [done|lia|lia|lia| |].
  { intros i Hi p Hp. apply lookup_lt_Some in Hp. lia. }
  fold (lowerBound paths bound) in *. set (at_ := lowerBound paths bound) in *.
  exists (take at_ paths), (drop at_ paths). split_and!.
  - by rewrite take_drop.
  - rewrite length_take. lia.
  - apply Forall_lookup. intros i p (Hp & Hi)%lookup_take_Some. by apply (Hlo i).
  - apply Forall_lookup. intros i p Hp. rewrite lookup_drop in Hp. apply (Hhi (at_ + i)); [lia|done].
Qed.

Lemma filter_keeps {A} (P : A -> Prop) `{forall x, Decision (P x)} l : Forall P l -> filter P l = l.
Proof. induction 1; [done|]. rewrite filter_cons_True by done. congruence. Qed.

Lemma filter_drops {A} (P : A -> Prop) `{forall x, Decision (P x)} l : Forall (fun x => ~ P x) l -> filter P l = [].
Proof. induction 1; [done|]. by rewrite filter_cons_False. Qed.

Lemma lowerBound_counts paths bound : sorted_texts paths ->
  lowerBound paths bound = length (filter (fun p => jltb p bound = true) paths).
Proof.
  intros Hs. destruct (lowerBound_partition paths bound Hs) as (l & k & Hlk & <- & Hl & Hk). subst paths.
  rewrite filter_app, length_app, (filter_keeps _ l) by done.
  rewrite (filter_drops _ k); [cbn; lia|]. eapply Forall_impl; [exact Hk|]. intros p ->. done.
Qed.

(** ** The range under a root *)

Lemma filter_length_split {A} (P Q : A -> Prop) `{forall x, Decision (P x)} `{forall x, Decision (Q x)} l :
  (forall x, P x -> Q x) ->
  length (filter Q l) = length (filter P l) + length (filter (fun x => Q x /\ ~ P x) l).
Proof.
  intros HPQ. induction l as [|x l IH]; [done|]. rewrite !filter_cons, !decide_bool_decide.
  repeat case_bool_decide; cbn; rewrite ?IH; naive_solver lia.
Qed.

Lemma head_filter_None {A} (P : A -> Prop) `{forall x, Decision (P x)} l : Forall (fun x => ~ P x) l -> head (filter P l) = None.
Proof. intros Hl. by rewrite filter_drops. Qed.

Lemma under_spec path root : root <> REPOSITORY_ROOT ->
  underRoot path root = startsWith path (root ++ #"/").
Proof. intros Hr. unfold underRoot. by rewrite (proj2 (jeqb_neq _ _) Hr). Qed.

(** The range of a root starts at the first path under it, and counts those
    below the root's last name that starts with a supplementary code point. *)
Lemma underRootRange_spec paths root : sorted_texts paths -> root <> REPOSITORY_ROOT ->
  underRootRange paths root =
    (N.of_nat (length (filter (fun p => underRoot p root = true /\ jltb p (root ++ #"/" ++ LAST_CODE_POINT) = true) paths)),
     head (filter (fun p => underRoot p root = true) paths)).
Proof.
  intros Hs Hr. unfold underRootRange. rewrite (proj2 (jeqb_neq _ _) Hr).
  set (prefix := root ++ #"/"). assert (Hpre : root ++ #"/" ++ LAST_CODE_POINT = prefix ++ LAST_CODE_POINT)
    by (unfold prefix; by rewrite <- app_assoc).
  rewrite Hpre. f_equal.
  - rewrite !lowerBound_counts by done.
    rewrite (filter_length_split (fun p => jltb p prefix = true) (fun p => jltb p (prefix ++ LAST_CODE_POINT) = true)).
    + rewrite Nat.add_comm, Nat.add_sub. do 2 f_equal. apply list_filter_iff. intros p. rewrite under_spec by done.
      fold prefix. split; intros [H1 H2].
      * split; [|done]. apply (between_prefix prefix p LAST_CODE_POINT); [|done].
        rewrite jltb_leb in H2. by destruct (jleb prefix p).
      * split; [done|]. apply starts_not_below in H1. congruence.
    + intros p Hp. destruct (jltb p (prefix ++ LAST_CODE_POINT)) eqn:He; [done|]. exfalso.
      rewrite jltb_leb in He, Hp. apply negb_false_iff in He. apply negb_true_iff in Hp.
      rewrite (jleb_trans prefix (prefix ++ LAST_CODE_POINT) p (prefix_le _ _) He) in Hp. done.
  - destruct (lowerBound_partition paths prefix Hs) as (l & k & -> & <- & Hl & Hk).
    rewrite filter_app, (filter_drops _ l); cbn [app].
    2: { eapply Forall_impl; [exact Hl|]. cbn. intros p Hp. rewrite under_spec by done. intros Hu%starts_not_below.
         fold prefix in Hu. congruence. }
    rewrite lookup_app_r, Nat.sub_diag by done.
    apply StronglySorted_app in Hs as (_ & _ & Hks).
    destruct k as [|p k]; [done|]. cbn [lookup list_lookup]. destruct (underRoot p root) eqn:Hu.
    { by rewrite filter_cons_True. }
    symmetry. apply head_filter_None. constructor; [by rewrite Hu|].
    apply StronglySorted_inv in Hks as [_ Hp]. rewrite Forall_cons in Hk. destruct Hk as [Hkp _].
    eapply Forall_impl; [exact Hp|]. intros q Hpq Hq. rewrite under_spec in Hu, Hq by done. fold prefix in Hu, Hq.
    rewrite jltb_leb in Hkp. apply negb_false_iff in Hkp. apply startsWith_spec in Hq as (r & ->).
    apply jleb_lt_or_eq in Hpq as [Hlt | ->].
    + rewrite (between_prefix prefix p r Hkp Hlt) in Hu. done.
    + rewrite (proj2 (startsWith_spec _ _)) in Hu; [done|by eexists].
Qed.

(** When no name under a root starts with a unit from the surrogates on, the
    range counts every path under the root. *)
Lemma underRootRange_counts paths root : sorted_texts paths -> root <> REPOSITORY_ROOT ->
  Forall (fun p => forall c r, p = root ++ #"/" ++ c :: r -> (c < 0xd800)%N) paths ->
  (underRootRange paths root).1 = N.of_nat (length (filter (fun p => underRoot p root = true) paths)).
Proof.
  intros Hs Hr Hp. rewrite underRootRange_spec by done. cbn [fst]. do 2 f_equal.
  induction Hp as [|p l Hp Hl IH]; [done|]. apply StronglySorted_inv in Hs as [Hs _]. rewrite !filter_cons, IH by done.
  assert (underRoot p root = true -> jltb p (root ++ #"/" ++ LAST_CODE_POINT) = true) as Hlt.
  - rewrite under_spec by done. intros (r & Hr')%startsWith_spec. rewrite <- app_assoc in Hr'.
    assert (Hlt : jltb r LAST_CODE_POINT = true).
    { destruct r as [|c r]; [done|]. specialize (Hp c r Hr'). unfold jltb, LAST_CODE_POINT. cbn.
      destruct (N.compare_spec c 0xdbff); [lia|done|lia]. }
    subst p. rewrite !app_assoc. clear -Hlt. unfold jltb in *.
    induction (root ++ #"/"); cbn; [done|]. by rewrite N.compare_refl.
  - repeat case_decide; try done; tauto.
Qed.

(** The binary search finds what a scan would: on sorted paths, when no name
    under the root starts at or above the surrogates, the range of a root holds
    the number of the paths under it and the first of them. *)
Theorem root_range_is_exact paths root : sorted_texts paths ->
  Forall (fun p => forall c r, p = root ++ #"/" ++ c :: r -> (c < 0xd800)%N) paths ->
  underRootRange paths root =
    (N.of_nat (length (filter (fun p => underRoot p root = true) paths)),
     head (filter (fun p => underRoot p root = true) paths)).
Proof.
  intros Hs Hp. destruct (decide (root = REPOSITORY_ROOT)) as [->|Hr].
  - unfold underRootRange. rewrite jeqb_refl, filter_keeps; [done|]. apply Forall_true. intros p.
    unfold underRoot. by rewrite jeqb_refl.
  - rewrite (surjective_pairing (underRootRange paths root)), underRootRange_counts by done.
    by rewrite underRootRange_spec by done.
Qed.

Lemma root_range_is_exact_witness :
  underRootRange [ #"a/x.ts"; #"src/a.ts"; #"src/b.ts"; #"srcs/c.ts"] #"src" = (2%N, Some #"src/a.ts").
Proof.
  rewrite (root_range_is_exact [ #"a/x.ts"; #"src/a.ts"; #"src/b.ts"; #"srcs/c.ts"] #"src").
  - vm_compute. reflexivity.
  - unfold sorted_texts. repeat constructor.
  - repeat (constructor; [intros c r Heq; vm_compute in Heq; simplify_eq; vm_compute; reflexivity|]). constructor.
Defined.

(** ** Groups of candidates *)

Section groups.
Context (key : Candidate -> jstring).

Lemma groupsBy_snoc l c : groupsBy key (l ++ [c]) = addToGroup key (groupsBy key l) c.
Proof. unfold groupsBy. by rewrite fold_left_app. Qed.

Definition group_of (k : jstring) (l : list Candidate) : option CoverageGroup :=
  match filter (fun c => key c = k) l with
  | [] => None
  | c :: r => Some (N.of_nat (length (c :: r)), candidate_path c)
  end.

(** A group holds the number of the candidates with its key, and the first one. *)
Lemma groupsBy_get k l : map_get k (groupsBy key l) = group_of k l.
Proof.
  unfold group_of. induction l as [|c l IH] using rev_ind; [done|]. rewrite groupsBy_snoc, filter_app, filter_cons, filter_nil.
  unfold addToGroup. destruct (decide (key c = k)) as [<-|Hn].
  - rewrite IH. destruct (filter _ l) as [|c' r]; rewrite map_get_set, jeqb_refl; [done|].
    cbn. rewrite length_app. cbn. f_equal. f_equal. lia.
  - rewrite app_nil_r. destruct (map_get (key c) (groupsBy key l)) as [[n first]|];
      rewrite map_get_set, (proj2 (jeqb_neq _ _) Hn), IH; done.
Qed.

Lemma groupsBy_NoDup l : NoDup (map fst (groupsBy key l)).
Proof.
  induction l as [|c l IH] using rev_ind; [constructor|]. rewrite groupsBy_snoc. unfold addToGroup.
  destruct (map_get _ _) as [[n first]|]; by apply map_set_NoDup.
Qed.

Lemma groupsBy_elem k n p l : (k, (n, p)) ∈ groupsBy key l <-> group_of k l = Some (n, p).
Proof.
  rewrite <- groupsBy_get. split; [apply map_get_NoDup, groupsBy_NoDup | apply map_get_elem].
Qed.

(** Every candidate's key has a group, represented by a candidate with that key. *)
Lemma group_of_candidate c l : c ∈ l ->
  exists n c', c' ∈ l /\ key c' = key c /\ group_of (key c) l = Some (n, candidate_path c').
Proof.
  intros Hc. unfold group_of. destruct (filter _ l) as [|c' r] eqn:Hf.
  - exfalso. by eapply (filter_nil_not_elem_of (fun c' => key c' = key c)).
  - exists (N.of_nat (length (c' :: r))), c'.
    assert (Hin : c' ∈ filter (fun c' => key c' = key c) l) by (rewrite Hf; left).
    apply list_elem_of_filter in Hin as [Hk Hin]. done.
Qed.
End groups.

(** ** What is selected *)

(** A path and the reason to select it. *)
Definition request : Type := jstring * jstring.

Definition gathered (st : list (jstring * list jstring)) (w : request) : list (jstring * list jstring) :=
  map_set w.1 (set_add w.2 (default [] (map_get w.1 st))) st.

Definition gather (st : list (jstring * list jstring)) (ws : list request) : list (jstring * list jstring) :=
  fold_left gathered ws st.

Definition reasons_of (p : jstring) (st : list (jstring * list jstring)) : list jstring := default [] (map_get p st).

Lemma elem_of_set_add r r' l : r ∈ set_add r' l <-> r = r' \/ r ∈ l.
Proof.
  unfold set_add. destruct (existsb (jeqb r') l) eqn:He.
  - apply existsb_elem in He as (x & Hx & ->%jeqb_eq). naive_solver.
  - rewrite elem_of_app, list_elem_of_singleton. tauto.
Qed.

Lemma set_add_NoDup r l : NoDup l -> NoDup (set_add r l).
Proof.
  intros Hl. unfold set_add. destruct (existsb (jeqb r) l) eqn:He; [done|].
  apply NoDup_app. split_and!; [done| |apply NoDup_singleton]. intros x Hx ->%list_elem_of_singleton.
  rewrite (proj2 (existsb_elem (jeqb r) l)) in He; [done|]. exists r. by rewrite jeqb_refl.
Qed.

Lemma reasons_of_gathered p w st :
  reasons_of p (gathered st w) = if jeqb w.1 p then set_add w.2 (reasons_of p st) else reasons_of p st.
Proof.
  unfold reasons_of, gathered. rewrite map_get_set. destruct (jeqb w.1 p) eqn:He; [|done].
  apply jeqb_eq in He. by rewrite <- He.
Qed.

(** A path has exactly the reasons it was requested for. *)
Lemma elem_of_gather p r ws st : r ∈ reasons_of p (gather st ws) <-> (p, r) ∈ ws \/ r ∈ reasons_of p st.
Proof.
  revert st. induction ws as [|w ws IH]; intros st; [cbn; set_solver|].
  change (gather st (w :: ws)) with (gather (gathered st w) ws).
  rewrite IH, reasons_of_gathered, elem_of_cons. destruct w as [p' r']. cbn. destruct (jeqb p' p) eqn:He.
  - apply jeqb_eq in He. subst p'. rewrite elem_of_set_add. naive_solver.
  - apply jeqb_neq in He. naive_solver.
Qed.

Lemma gather_NoDup ws st : NoDup (map fst st) -> NoDup (map fst (gather st ws)).
Proof. revert st. induction ws as [|w ws IH]; intros st Hst; [done|]. by apply IH, map_set_NoDup. Qed.

Lemma gather_reasons_NoDup p ws st : NoDup (reasons_of p st) -> NoDup (reasons_of p (gather st ws)).
Proof.
  revert st. induction ws as [|w ws IH]; intros st Hst; [done|]. apply IH. rewrite reasons_of_gathered.
  destruct (jeqb _ _); [by apply set_add_NoDup|done].
Qed.

(** The selected paths are the requested ones. *)
Lemma gather_keys p ws st : p ∈ map fst (gather st ws) <-> p ∈ map fst ws \/ p ∈ map fst st.
Proof.
  revert st. induction ws as [|w ws IH]; intros st; [cbn; set_solver|].
  change (gather st (w :: ws)) with (gather (gathered st w) ws).
  rewrite IH. unfold gathered. rewrite map_keys_set. change (map fst (w :: ws)) with (w.1 :: map fst ws). rewrite elem_of_cons. naive_solver.
Qed.

Lemma map_set_length_le {A} k (a : A) m : length m <= length (map_set k a m).
Proof. induction m as [|[k' b] m IH]; cbn; [lia|]. case_match; cbn; lia. Qed.

Lemma gather_length ws st : length st <= length (gather st ws).
Proof.
  revert st. induction ws as [|w ws IH]; intros st; [done|].
  change (gather st (w :: ws)) with (gather (gathered st w) ws).
  etransitivity; [|apply IH]. apply map_set_length_le.
Qed.

(** The request a criterion makes for its representative. *)
Definition criterion_request (c : TargetCoverageCriterion) : option request :=
  (fun p => (p, criterion_reason c)) <$> selectedPath c.

Definition source_request (s : Source) : request := (source_path s, #"exhaustive-source-set:all").

Section selection.
Context (limits : TargetSamplerLimits).
Implicit Types st : Selection.

Definition fits (l : list (jstring * list jstring)) : bool := (N.of_nat (length l) <=? maximumSamples limits)%N.

Lemma select_request p r l : select limits l (Some p) r = (_ ← ensure (fits (gathered l (p, r))) resourceLimit; Ok (gathered l (p, r))).
Proof. done. Qed.

Lemma cover_spec st c :
  cover limits st c
  = (_ ← ensure (if criterion_request c is Some w then fits (gathered (reasons st) w) else true) resourceLimit;
     Ok {| found := found st ++ [c]; reasons := gather (reasons st) (option_list (criterion_request c)) |}).
Proof.
  unfold cover, criterion_request. destruct (selectedPath c) as [p|]; [|done]. cbn [fmap option_fmap option_map].
  rewrite select_request. by destruct (fits _).
Qed.

Lemma omap_cons_list {A B} (f : A -> option B) x l : omap f (x :: l) = option_list (f x) ++ omap f l.
Proof. cbn. by destruct (f x). Qed.

Lemma gather_app l ws ws' : gather l (ws ++ ws') = gather (gather l ws) ws'.
Proof. apply fold_left_app. Qed.

Lemma fits_before l ws : fits (gather l ws) = true -> fits l = true.
Proof. unfold fits. intros ?. bool_prop. apply N.leb_le. pose proof (gather_length ws l). lia. Qed.

(** Selecting one by one fails exactly when all together are too many. *)
Lemma select_requests ws l : fits l = true ->
  foldM (fun l w => select limits l (Some w.1) w.2) l ws
  = (_ ← ensure (fits (gather l ws)) resourceLimit; Ok (gather l ws)).
Proof.
  revert l. induction ws as [|[p r] ws IH]; intros l Hl; [cbn; by rewrite Hl|].
  change (gather l ((p, r) :: ws)) with (gather (gathered l (p, r)) ws). cbn [foldM fst snd].
  rewrite select_request. destruct (fits (gathered l (p, r))) eqn:Hf; [by apply IH|].
  destruct (fits (gather _ _)) eqn:Hg; [|done]. apply fits_before in Hg. congruence.
Qed.

Lemma cover_all cs st : fits (reasons st) = true ->
  foldM (cover limits) st cs
  = (_ ← ensure (fits (gather (reasons st) (omap criterion_request cs))) resourceLimit;
     Ok {| found := found st ++ cs; reasons := gather (reasons st) (omap criterion_request cs) |}).
Proof.
  revert st. induction cs as [|c cs IH]; intros st Hst.
  { cbn. rewrite Hst. cbn. rewrite app_nil_r. by destruct st. }
  rewrite omap_cons_list, gather_app. cbn [foldM]. rewrite cover_spec.
  destruct (criterion_request c) as [w|]; cbn [option_list].
  - change (gather (reasons st) [w]) with (gathered (reasons st) w).
    destruct (fits (gathered (reasons st) w)) eqn:Hf; cbn.
    + rewrite IH by done. cbn. by rewrite <- app_assoc.
    + destruct (fits (gather _ _)) eqn:Hg; [|done]. apply fits_before in Hg. congruence.
  - cbn. rewrite IH by done. cbn. by rewrite <- app_assoc.
Qed.

(** Every request of the sampler: for the sources when all are selected, and for
    the representatives of the criteria. *)
Definition requests (input : NormalizedSampling) (candidates : list Candidate) : list request :=
  match strategyOf limits (ns_sources input) with
  | exhaustive => map source_request (ns_sources input)
  | stratified => []
  end ++ omap criterion_request (criteria input candidates).

Definition all_criteria (input : NormalizedSampling) (candidates : list Candidate) : list TargetCoverageCriterion :=
  match strategyOf limits (ns_sources input) with
  | exhaustive => [exhaustiveCriterion (ns_sources input)]
  | stratified => []
  end ++ criteria input candidates.

(** The selection succeeds exactly when the requested paths are not too many, and
    then holds each with its reasons. *)
Lemma coverAll_spec input candidates :
  coverAll limits input candidates
  = (_ ← ensure (fits (gather [] (requests input candidates))) resourceLimit;
     Ok {| found := all_criteria input candidates; reasons := gather [] (requests input candidates) |}).
Proof.
  assert (fits [] = true) as H0 by (unfold fits; apply N.leb_le; cbn; lia).
  unfold coverAll, requests, all_criteria. destruct (strategyOf limits (ns_sources input)).
  - unfold coverSources. rewrite gather_app.
    set (l := gather [] (map source_request (ns_sources input))).
    assert (foldM (fun l source => select limits l (Some (source_path source)) #"exhaustive-source-set:all") []
              (ns_sources input) = (_ ← ensure (fits l) resourceLimit; Ok l)) as ->.
    { unfold l. rewrite <- select_requests by done. generalize (@nil (jstring * list jstring)).
      induction (ns_sources input) as [|s ss IH]; intros l0; [done|]. cbn [foldM map]. cbn.
      destruct (ensure _ _); cbn; [apply IH|done]. }
    destruct (fits l) eqn:Hf; [cbn; by rewrite cover_all|]. cbn.
    destruct (fits (gather l _)) eqn:Hg; [|done]. apply fits_before in Hg. congruence.
  - cbn. by rewrite cover_all.
Qed.
End selection.
