(* ===== verification/TargetReading.v ===== *)
(** Theorems about the reading of the sampler's input
    (packages/resolver/src/target-sampler.ts): what each loop computes, and that
    no reader depends on the order of an array or of a record's fields. *)
From S2P Require Import Prelude JsString OrderedMap Unicode Identifiers JsValue RepositoryPath ActivationAlgebra ImportDag TargetSampler.

(** ** Rearranged values

    The same value up to the order of the elements of its arrays and of the
    fields of its records, at any depth. *)
Section rearranged.
Context {F : Type}.
Implicit Types v : jsval F.

Inductive rearranged : jsval F -> jsval F -> Prop :=
| rearranged_same v : rearranged v v
| rearranged_array dense l k l' :
    Forall2 rearranged l k -> k ≡ₚ l' -> rearranged (JArr dense l) (JArr dense l')
| rearranged_record fs ks fs' :
    Forall2 (fun a b => a.1 = b.1 /\ rearranged a.2 b.2) fs ks -> ks ≡ₚ fs' -> rearranged (JRec fs) (JRec fs').

(** Rearranging can be undone. *)
Lemma Forall2_Permutation_back {A} (R : A -> A -> Prop) l k l' :
  Forall2 R k l -> k ≡ₚ l' -> exists m, Forall2 R l' m /\ m ≡ₚ l.
Proof. intros Hf Hp. destruct (Permutation_Forall2 Hp Hf) as (m & Hm & Hf'). by exists m. Qed.

Lemma rearranged_sym v v' : rearranged v v' -> rearranged v' v.
Proof.
  revert v v'. fix IH 3. intros _ _ [v|dense l k l' Hf Hp|fs ks fs' Hf Hp].
  - apply rearranged_same.
  - assert (Forall2 rearranged k l) as Hf'.
    { clear Hp. induction Hf as [|x y l k Hxy Hf IHf]; constructor; [by apply IH|exact IHf]. }
    destruct (Forall2_Permutation_back _ _ _ _ Hf' Hp) as (m & Hm & Hml). by eapply rearranged_array.
  - assert (Forall2 (fun a b => a.1 = b.1 /\ rearranged a.2 b.2) ks fs) as Hf'.
    { clear Hp. induction Hf as [|x y l k [Hk Hxy] Hf IHf]; constructor; [split; [by symmetry|by apply IH]|exact IHf]. }
    destruct (Forall2_Permutation_back _ _ _ _ Hf' Hp) as (m & Hm & Hml). by eapply rearranged_record.
Qed.

(** A reader whose result does not depend on the arrangement. *)
Definition respects {A} (r : jsval F -> sampler_res A) : Prop :=
  forall v v' a, rearranged v v' -> r v = Ok a -> r v' = Ok a.

Ltac scalar := intros v v' a Hr; destruct v; try discriminate; inversion Hr; subst; auto.

Lemma pathValue_respects : respects pathValue.
Proof. scalar. Qed.
Lemma rootValue_respects : respects rootValue.
Proof. scalar. Qed.
Lemma boundedText_respects n : respects (fun v => boundedText v n).
Proof. scalar. Qed.
Lemma oneOf_respects {A} name (l : list A) : respects (oneOf name l).
Proof. scalar. Qed.

Lemma memberOf_respects members v v' : rearranged v v' -> memberOf members v = true -> memberOf members v' = true.
Proof. destruct v; try discriminate. by inversion 1; subst. Qed.

(** ** Records *)

Lemma field_value_get (fields : list (jstring * jsval F)) key :
  field_value fields key = default JUndefined (map_get key fields).
Proof. induction fields as [|[k v] fields IH]; cbn; [done|]. by destruct (jeqb k key). Qed.

(** A list that contains as many distinct texts as it has entries has no duplicate. *)
Lemma NoDup_of_keys (keys l : list jstring) :
  NoDup keys -> keys ⊆ l -> length l = length keys -> NoDup l.
Proof.
  intros Hk Hsub Hlen. assert (Hp : keys ≡ₚ l).
  { apply submseteq_length_Permutation; [by apply NoDup_submseteq|lia]. }
  by rewrite <- Hp.
Qed.

Lemma record_Ok v keys fs : NoDup keys -> record v keys = Ok fs ->
  v = JRec fs /\ NoDup (map fst fs) /\ map fst fs ≡ₚ keys.
Proof.
  intros Hk Hr. destruct v; try discriminate. unfold record in Hr. res_inv. bool_prop. subst fs.
  apply Nat.eqb_eq in H. rename fields into fs. rewrite forallb_elem in Hv0.
  assert (Hsub : keys ⊆ map fst fs).
  { intros k Hin%Hv0. unfold map_has in Hin. apply map_get_keys. by destruct (map_get k fs). }
  assert (Hlen : length (map fst fs) = length keys) by (by rewrite length_map).
  split_and!; [done|by eapply NoDup_of_keys|].
  symmetry. apply submseteq_length_Permutation; [by apply NoDup_submseteq|lia].
Qed.

Lemma record_perm (fs fs' : list (jstring * jsval F)) keys : map fst fs ≡ₚ map fst fs' -> record (JRec fs) keys = Ok fs ->
  record (JRec fs') keys = Ok fs'.
Proof.
  intros Hp Hr. unfold record in *. res_inv. bool_prop. unfold keys_of in *.
  assert (length fs = length fs') as <- by (rewrite <- !(length_map fst), Hp; done).
  rewrite forallb_elem in H0, Hv0. rewrite H.
  assert (forallb (fun key => existsb (jeqb key) keys) (map fst fs') = true) as ->.
  { apply forallb_elem. intros k Hin. apply H0. by rewrite Hp. }
  assert (forallb (fun key => map_has key fs') keys = true) as ->; [|done].
  apply forallb_elem. intros k Hin%Hv0. unfold map_has in *.
  destruct (map_get k fs') eqn:He; [done|]. apply map_get_None in He. rewrite <- Hp in He.
  apply map_get_None in He. by rewrite He in Hin.
Qed.

Lemma record_respects v v' keys fs : NoDup keys -> rearranged v v' -> record v keys = Ok fs ->
  exists fs', record v' keys = Ok fs' /\ forall key, rearranged (property fs key) (property fs' key).
Proof.
  intros Hk Hr Hv. destruct (record_Ok _ _ _ Hk Hv) as (-> & Hd & _).
  inversion Hr as [|?|fs0 ks fs' Hf Hp]; subst; [eexists; split; [done|]; intros; apply rearranged_same|].
  assert (Hkeys : map fst fs = map fst ks).
  { clear -Hf. induction Hf as [|a b fs ks [Hab _] _ IH]; cbn; congruence. }
  exists fs'. split.
  { eapply record_perm; [|done]. by rewrite Hkeys, (Permutation_map fst Hp). }
  intros key. unfold property. rewrite !field_value_get, <- (map_get_perm ks fs') by (done || by rewrite <- Hkeys).
  clear -Hf. induction Hf as [|[k a] [k' b] fs ks [Hab Hr] _ IH]; cbn in *; [apply rearranged_same|].
  subst k'. by destruct (jeqb k key).
Qed.

(** ** Arrays *)

Lemma denseArray_respects v v' n l : rearranged v v' -> denseArray v n = Ok l ->
  exists k l', Forall2 rearranged l k /\ k ≡ₚ l' /\ denseArray v' n = Ok l'.
Proof.
  intros Hr Hv. destruct v as [| | | | | | |dense items| |]; try discriminate. unfold denseArray in Hv. res_inv. subst l.
  inversion Hr as [|? ? k l' Hf Hp|]; subst.
  - exists items, items. split_and!; [|done|cbn; by rewrite Hv0].
    apply Forall2_same_length_lookup_2; [done|]. intros i x y Hx Hy. simplify_eq. apply rearranged_same.
  - exists k, l'. split_and!; [done..|]. cbn.
    replace (length l') with (length items); [by rewrite Hv0|].
    rewrite (Forall2_length _ _ _ Hf). by rewrite Hp.
Qed.

Lemma rmapM_Permutation {E A B} (f : A -> res E B) l l' ys : l ≡ₚ l' -> rmapM f l = Ok ys ->
  exists ys', rmapM f l' = Ok ys' /\ ys ≡ₚ ys'.
Proof.
  intros Hp. revert ys. induction Hp as [|x l l' Hp IH|x y l|l1 l2 l3 Hp1 IH1 Hp2 IH2]; intros ys Hy.
  - by exists ys.
  - cbn in *. apply bind_Ok in Hy as (y & Hx & (zs & Hzs & [= <-])%bind_Ok).
    destruct (IH _ Hzs) as (ys' & -> & Hq). rewrite Hx. cbn. eexists. split; [done|]. by constructor.
  - cbn in *. apply bind_Ok in Hy as (b & Hb & (zs & (a & Ha & (ws & Hws & [= <-])%bind_Ok)%bind_Ok & [= <-])%bind_Ok).
    rewrite Ha. cbn. rewrite Hb. cbn. rewrite Hws. cbn. eexists. split; [done|]. constructor.
  - destruct (IH1 _ Hy) as (ys2 & Hy2 & Hq2). destruct (IH2 _ Hy2) as (ys3 & Hy3 & Hq3). exists ys3.
    split; [done|]. by rewrite Hq2.
Qed.

(** Reading the elements one by one yields the same results in another order. *)
Lemma rmapM_respects {A} (r : jsval F -> sampler_res A) l k l' ys :
  respects r -> Forall2 rearranged l k -> k ≡ₚ l' -> rmapM r l = Ok ys ->
  exists ys', rmapM r l' = Ok ys' /\ ys ≡ₚ ys'.
Proof.
  intros Hr Hf Hp Hy. apply (rmapM_Permutation r k); [done|]. clear Hp l'.
  revert ys Hy. induction Hf as [|x y l k Hxy Hf IH]; intros ys Hy; [done|]. cbn in *.
  apply bind_Ok in Hy as (b & Hb & (zs & Hzs & [= <-])%bind_Ok).
  rewrite (Hr _ _ _ Hxy Hb). cbn. by rewrite (IH _ Hzs).
Qed.

Lemma array_respects {A} (r : jsval F -> sampler_res A) v v' n l ys :
  respects r -> rearranged v v' -> denseArray v n = Ok l -> rmapM r l = Ok ys ->
  exists l' ys', denseArray v' n = Ok l' /\ length l = length l' /\ rmapM r l' = Ok ys' /\ ys ≡ₚ ys'.
Proof.
  intros Hr Hv Hl Hy. destruct (denseArray_respects _ _ _ _ Hv Hl) as (k & l' & Hf & Hp & Hl').
  destruct (rmapM_respects r _ _ _ _ Hr Hf Hp Hy) as (ys' & Hy' & Hq).
  exists l', ys'. split_and!; try done. by rewrite (Forall2_length _ _ _ Hf), Hp.
Qed.
(** *** Readers of the fields of a record *)

Definition same_fields (fs fs' : list (jstring * jsval F)) : Prop :=
  forall key, rearranged (property fs key) (property fs' key).

Definition fieldwise {A} (body : list (jstring * jsval F) -> sampler_res A) : Prop :=
  forall fs fs' a, same_fields fs fs' -> body fs = Ok a -> body fs' = Ok a.

Lemma fieldwise_bind {A B} (m : list (jstring * jsval F) -> sampler_res A) (f : A -> list (jstring * jsval F) -> sampler_res B) :
  fieldwise m -> (forall a, fieldwise (f a)) -> fieldwise (fun fs => m fs ≫= fun a => f a fs).
Proof.
  intros Hm Hf fs fs' b Hs (a & Ha & Hb)%bind_Ok. rewrite (Hm _ _ _ Hs Ha). exact (Hf a _ _ _ Hs Hb).
Qed.

Lemma fieldwise_const {A} (m : sampler_res A) : fieldwise (fun _ => m).
Proof. by intros fs fs' a _. Qed.

Lemma fieldwise_property {A} (r : jsval F -> sampler_res A) key : respects r -> fieldwise (fun fs => r (property fs key)).
Proof. intros Hr fs fs' a Hs. apply Hr, Hs. Qed.

Lemma fieldwise_test (test : jsval F -> bool) key e :
  (forall v v', rearranged v v' -> test v = true -> test v' = true) ->
  fieldwise (fun fs => ensure (test (property fs key)) e).
Proof. intros Ht fs fs' [] Hs Hv%ensure_Ok. apply ensure_Ok. exact (Ht _ _ (Hs key) Hv). Qed.

Lemma respects_record {A} keys (body : list (jstring * jsval F) -> sampler_res A) :
  NoDup keys -> fieldwise body -> respects (fun v => record v keys ≫= body).
Proof.
  intros Hk Hb v v' a Hr (fs & Hfs & Ha)%bind_Ok.
  destruct (record_respects v v' _ _ Hk Hr Hfs) as (fs' & -> & Hs). exact (Hb _ _ _ Hs Ha).
Qed.

(** Reading an array as a set of results. *)
Lemma respects_array {A B} (r : jsval F -> sampler_res A) n (f : list A -> sampler_res B) :
  respects r -> (forall l l' b, l ≡ₚ l' -> f l = Ok b -> f l' = Ok b) ->
  respects (fun v => l ← denseArray v n; ys ← rmapM r l; f ys).
Proof.
  intros Hr Hf v v' b Hv (l & Hl & (ys & Hy & Hb)%bind_Ok)%bind_Ok.
  destruct (array_respects r v v' n l ys Hr Hv Hl Hy) as (l' & ys' & -> & _ & Hy' & Hp).
  cbn [mbind res_mbind]. rewrite Hy'. cbn [mbind res_mbind]. by apply (Hf ys).
Qed.
End rearranged.

(** ** The loops

    Each round reads a value, then updates the state with what it read. *)

Lemma foldM_split {E A B C} (f : A -> B -> res E A) (read : B -> res E C) (step : A -> C -> res E A) l st st' :
  (forall st x st', f st x = Ok st' <-> exists c, read x = Ok c /\ step st c = Ok st') ->
  foldM f st l = Ok st' <-> exists cs, rmapM read l = Ok cs /\ foldM step st cs = Ok st'.
Proof.
  intros Hf. revert st. induction l as [|x l IH]; intros st; cbn.
  { split; [intros; by exists []|]. by intros (cs & [= <-] & Hc). }
  rewrite bind_Ok. split.
  - intros (st1 & (c & Hc & Hs)%Hf & (cs & Hcs & Hst)%IH). exists (c :: cs). rewrite Hc, Hcs. cbn. by rewrite Hs.
  - intros (cs' & (c & Hc & (cs & Hcs & [= <-])%bind_Ok)%bind_Ok & (st1 & Hs & Hst)%bind_Ok).
    exists st1. split; [apply Hf; eauto|]. apply IH. eauto.
Qed.

Ltac distinct_texts := apply (bool_decide_eq_true_1 _); vm_compute; reflexivity.

(** Two chains of the same binds, nested differently. *)
Ltac same_binds :=
  repeat match goal with
  | |- ?m ≫= _ = _ => destruct m; cbn [mbind res_mbind]; [|done]
  end; try done.

(** A path with the facts observed at it. *)
Abbreviation observation := (jstring * list TargetActivationFact)%type.

Section loops.
Context {F : Type} (limits : TargetSamplerLimits).

(** *** Paths *)

Definition addText (st : list jstring * N) (path : jstring) : sampler_res (list jstring * N) :=
  _ ← ensure (st.2 + textBytes path <=? maximumPathTextBytes limits)%N resourceLimit;
  Ok (st.1 ++ [path], (st.2 + textBytes path)%N).

Lemma addText_all ps st st' : foldM addText st ps = Ok st' <->
  st' = (st.1 ++ ps, (st.2 + sumN textBytes ps)%N)
  /\ (ps = [] \/ (st.2 + sumN textBytes ps <= maximumPathTextBytes limits)%N).
Proof.
  revert st. induction ps as [|p ps IH]; intros st.
  { cbn. rewrite app_nil_r, N.add_0_r. destruct st; cbn. split; [intros [= <-]; auto|by intros [-> _]]. }
  cbn [foldM]. unfold addText at 1. rewrite bind_Ok. setoid_rewrite bind_ensure.
  change (sumN textBytes (p :: ps)) with (textBytes p + sumN textBytes ps)%N. split.
  - intros (st1 & (Hle%N.leb_le & [= <-]) & (-> & Hps)%IH). cbn in *. split; [f_equal; [by rewrite <- app_assoc|lia]|].
    right. destruct Hps as [->|]; cbn; lia.
  - intros (-> & [?|Hle]); [done|]. eexists. split; [split; [apply N.leb_le; lia|done]|].
    apply IH. cbn. split; [f_equal; [by rewrite <- app_assoc|lia]|]. right. lia.
Qed.

(** The loop over the paths collects them, unless their texts are too long. *)
Lemma addPath_all (raws : list (jsval F)) ps n :
  foldM (addPath limits) ([], 0%N) raws = Ok (ps, n) <->
  rmapM pathValue raws = Ok ps /\ n = sumN textBytes ps
  /\ (ps = [] \/ (n <= maximumPathTextBytes limits)%N).
Proof.
  rewrite (foldM_split (addPath limits) pathValue addText).
  - setoid_rewrite addText_all. cbn. split.
    + by intros (cs & Hcs & [= -> ->] & Hle).
    + intros (Hps & -> & Hle). eauto.
  - intros st x st'. unfold addPath. by rewrite bind_Ok.
Qed.

(** *** Workspace boundaries *)

Definition readLanguages (value : jsval F) : sampler_res unit :=
  languages ← denseArray value 16;
  ensure (forallb (memberOf WORKSPACE_LANGUAGES) languages) invalidInput.

(** The root of a boundary. *)
Definition readWorkspace (value : jsval F) : sampler_res jstring :=
  item ← record value [ #"evidencePath"; #"family"; #"kind"; #"languages"; #"root"];
  _ ← pathValue (property item #"evidencePath");
  family ← boundedText (property item #"family") 512;
  _ ← ensure (existsb (jeqb family) WORKSPACE_FAMILIES) invalidInput;
  _ ← ensure (memberOf WORKSPACE_KINDS (property item #"kind")) invalidInput;
  _ ← readLanguages (property item #"languages");
  rootValue (property item #"root").

Definition addRoot (m : list (jstring * jstring)) (root : jstring) : list (jstring * jstring) := map_set root root m.

Lemma addWorkspace_reads m (value : jsval F) :
  addWorkspace m value = (root ← readWorkspace value; Ok (addRoot m root)).
Proof. unfold addWorkspace, readWorkspace, readLanguages. same_binds. Qed.

Lemma addWorkspace_all (raws : list (jsval F)) m m' :
  foldM addWorkspace m raws = Ok m' <->
  exists roots, rmapM readWorkspace raws = Ok roots /\ m' = fold_left addRoot roots m.
Proof.
  rewrite (foldM_split addWorkspace readWorkspace (fun m root => Ok (addRoot m root))).
  - enough (forall roots m, foldM (E := TargetSamplerErrorCode) (fun m root => Ok (addRoot m root)) m roots
                            = Ok (fold_left addRoot roots m)) as Hf.
    { setoid_rewrite Hf. split; intros (roots & Hr & Hm); exists roots; by simplify_eq. }
    induction roots as [|r roots IH]; intros m0; cbn; [done|]. apply IH.
  - intros st x st'. rewrite addWorkspace_reads. apply bind_Ok.
Qed.

(** *** Observations *)

(** The facts of an observation, sorted. *)
Definition readStates (value : jsval F) : sampler_res (list TargetActivationFact) :=
  rawStates ← denseArray value (maximumRulesPerPath limits);
  facts ← rmapM activationFact rawStates;
  _ ← ensure (bool_decide (NoDup (map fact_ruleId (sort_by fact_le facts)))) invalidRelationship;
  Ok (sort_by fact_le facts).

(** The path and the facts of an observation. *)
Definition readObservation (value : jsval F) : sampler_res observation :=
  item ← record value [ #"path"; #"states"];
  path ← pathValue (property item #"path");
  states ← readStates (property item #"states");
  Ok (path, states).

Definition rule_ids (o : observation) : list jstring := map fact_ruleId o.2.

(** The checks on an observation among the others. *)
Definition admit_observation (sourcePaths : list jstring) (st : Observed) (o : observation) : bool :=
  existsb (jeqb o.1) sourcePaths && negb (map_has o.1 (observations st))
  && (factCount st + N.of_nat (length o.2) <=? maximumActivationFacts limits)%N
  && match ruleUniverse st with None => true | Some universe => bool_decide (universe = rule_ids o) end.

Definition observed (st : Observed) (o : observation) : Observed :=
  {| observations := map_set o.1 o.2 (observations st);
     factCount := (factCount st + N.of_nat (length o.2))%N;
     ruleUniverse := match ruleUniverse st with None => Some (rule_ids o) | universe => universe end |}.

Definition admitObservation sourcePaths (st : Observed) (o : observation) : sampler_res Observed :=
  _ ← ensure (admit_observation sourcePaths st o) invalidRelationship; Ok (observed st o).

Lemma addObservation_Ok sourcePaths st (value : jsval F) st' :
  addObservation limits sourcePaths st value = Ok st' <->
  exists o, readObservation value = Ok o /\ admitObservation sourcePaths st o = Ok st'.
Proof.
  unfold addObservation, readObservation, readStates, admitObservation, admit_observation, observed, rule_ids.
  destruct (record value _) as [item|]; cbn [mbind res_mbind]; [|naive_solver].
  destruct (pathValue _) as [path|]; cbn [mbind res_mbind]; [|naive_solver].
  destruct (denseArray _ _) as [raws|]; cbn [mbind res_mbind]; [|].
  2: { split; [intros [_ H]%bind_ensure; done|naive_solver]. }
  rewrite bind_ensure. rewrite bind_ensure.
  destruct (rmapM activationFact raws) as [facts|] eqn:Hf; cbn [mbind res_mbind]; [|naive_solver].
  assert (length (sort_by fact_le facts) = length raws) as Hlen by (by rewrite sort_by_length, (rmapM_length _ _ _ Hf)).
  rewrite <- Hlen, !bind_ensure. split.
  - intros (Ha & Hb & Hc & Hd & Hst). exists (path, sort_by fact_le facts). rewrite !bind_ensure.
    cbn [fst snd]. by rewrite Ha, Hb, Hc, Hd.
  - intros (o & (fs & (Hc & [= <-])%bind_ensure & [= <-])%bind_Ok & (Ha & Hst)%bind_ensure). cbn [fst snd] in *.
    by apply andb_true_iff in Ha as [[-> ->]%andb_true_iff ->].
Qed.

(** What makes observations acceptable together. *)
Definition admissible (sourcePaths : list jstring) (obs : list observation) : Prop :=
  NoDup (map fst obs) /\ (forall o, o ∈ obs -> o.1 ∈ sourcePaths)
  /\ (obs = [] \/ (sumN (fun o => N.of_nat (length o.2)) obs <= maximumActivationFacts limits)%N)
  /\ (forall o o', o ∈ obs -> o' ∈ obs -> rule_ids o = rule_ids o').

Definition observed_all (obs : list observation) : Observed :=
  {| observations := obs; factCount := sumN (fun o => N.of_nat (length o.2)) obs;
     ruleUniverse := rule_ids <$> head obs |}.

Lemma existsb_jeqb p l : existsb (jeqb p) l = true <-> p ∈ l.
Proof. rewrite existsb_elem. split; [by intros (x & Hx & ->%jeqb_eq)|]. intros Hp. exists p. by rewrite jeqb_refl. Qed.

Lemma map_fst_snoc {A B} (l : list (A * B)) x : map fst (l ++ [x]) = map fst l ++ [x.1].
Proof. apply map_app. Qed.

Lemma admissible_snoc sourcePaths obs o :
  admissible sourcePaths (obs ++ [o]) <->
  admissible sourcePaths obs /\ admit_observation sourcePaths (observed_all obs) o = true.
Proof.
  unfold admissible, admit_observation. cbn [observations factCount ruleUniverse observed_all].
  rewrite !andb_true_iff, existsb_jeqb, negb_true_iff, <- not_true_iff_false, map_has_elem, N.leb_le.
  rewrite map_fst_snoc, NoDup_app, sumN_app. cbn [sumN foldr]. rewrite N.add_0_r.
  setoid_rewrite elem_of_app. setoid_rewrite list_elem_of_singleton.
  assert (match rule_ids <$> head obs with None => true | Some universe => bool_decide (universe = rule_ids o) end = true
          <-> forall o', o' ∈ take 1 obs -> rule_ids o' = rule_ids o) as ->.
  { destruct obs as [|o1 obs]; cbn; [set_solver|]. rewrite bool_decide_eq_true.
    setoid_rewrite list_elem_of_singleton. naive_solver. }
  split.
  - intros ((Hd & Hn & _) & Hs & Hle & Hu). destruct Hle as [Hle|Hle]; [by destruct obs|].
    split; [split_and!; [done|naive_solver|right; lia|naive_solver]|].
    split_and!; [naive_solver|set_solver|lia|]. intros o' Ho'. apply Hu; [left|by right].
    destruct obs as [|o1 obs]; [by apply elem_of_nil in Ho'|]. cbn in Ho'.
    apply list_elem_of_singleton in Ho'. subst o'. left.
  - intros ((Hd & Hs & Hle & Hu) & ((Hin & Hnew) & Hsum) & Huo).
    assert (Hall : forall o', o' ∈ obs -> rule_ids o' = rule_ids o).
    { intros o' Ho'. destruct obs as [|o1 obs]; [by apply elem_of_nil in Ho'|].
      rewrite <- (Huo o1) by (cbn; left). apply Hu; [done|left]. }
    split_and!.
    + done.
    + intros p Hp ->. done.
    + apply NoDup_singleton.
    + intros o' [Ho' | ->]; [by apply Hs|done].
    + right. lia.
    + intros o1 o2 [H1 | ->] [H2 | ->]; [by apply Hu|by apply Hall|symmetry; by apply Hall|done].
Qed.

(** The loop over the observations collects them when they are acceptable. *)
Lemma admitObservation_all sourcePaths obs st :
  foldM (admitObservation sourcePaths) {| observations := []; factCount := 0; ruleUniverse := None |} obs = Ok st <->
  admissible sourcePaths obs /\ st = observed_all obs.
Proof.
  revert st. induction obs as [|o obs IH] using rev_ind; intros st.
  { cbn. split; [intros [= <-]|by intros [_ ->]]. split; [|done].
    split_and!; [constructor|set_solver|by left|set_solver]. }
  rewrite foldM_app, bind_Ok, admissible_snoc. setoid_rewrite IH. cbn [foldM].
  setoid_rewrite bind_Ok. unfold admitObservation. setoid_rewrite bind_ensure.
  assert (admissible sourcePaths obs -> admit_observation sourcePaths (observed_all obs) o = true ->
          observed (observed_all obs) o = observed_all (obs ++ [o])) as Hobs.
  { intros (_ & _ & _ & Hu) Ha. unfold admit_observation in Ha. cbn [observations observed_all] in Ha.
    apply andb_true_iff in Ha as [[[_ Hn]%andb_true_iff _]%andb_true_iff _].
    apply negb_true_iff, not_true_iff_false in Hn. rewrite map_has_elem in Hn.
    unfold observed, observed_all. cbn [observations factCount ruleUniverse]. f_equal.
    - rewrite map_set_new by done. by destruct o.
    - rewrite sumN_app. cbn. lia.
    - by destruct obs. }
  split.
  - intros (st1 & (Ha & ->) & st2 & (Hadm & [= <-]) & [= <-]). split; [done|by apply Hobs].
  - intros ((Ha & Hadm) & ->). exists (observed_all obs). split; [done|]. eexists. rewrite <- Hobs by done. done.
Qed.

Lemma addObservation_all sourcePaths (raws : list (jsval F)) st :
  foldM (addObservation limits sourcePaths) {| observations := []; factCount := 0; ruleUniverse := None |} raws = Ok st <->
  exists obs, rmapM readObservation raws = Ok obs /\ admissible sourcePaths obs /\ st = observed_all obs.
Proof.
  rewrite (foldM_split _ readObservation (admitObservation sourcePaths)) by apply addObservation_Ok.
  by setoid_rewrite admitObservation_all.
Qed.

Lemma admissible_reordered sourcePaths obs obs' : obs ≡ₚ obs' -> admissible sourcePaths obs -> admissible sourcePaths obs'.
Proof.
  intros Hp (Hd & Hs & Hle & Hu). split_and!.
  - by rewrite <- (Permutation_map fst Hp).
  - intros o Ho. apply Hs. by rewrite Hp.
  - destruct Hle as [->|Hle]; [left; by apply Permutation_nil_l in Hp|right]. by rewrite <- (sumN_perm _ _ _ Hp).
  - intros o o' Ho Ho'. apply Hu; by rewrite Hp.
Qed.

Lemma admissible_universe sourcePaths obs obs' : obs ≡ₚ obs' -> admissible sourcePaths obs ->
  rule_ids <$> head obs = rule_ids <$> head obs'.
Proof.
  intros Hp (_ & _ & _ & Hu). destruct obs as [|o obs], obs' as [|o' obs']; try done.
  - by apply Permutation_nil_cons in Hp.
  - symmetry in Hp. by apply Permutation_nil_cons in Hp.
  - cbn. f_equal. apply Hu; [left|]. rewrite Hp. left.
Qed.


(** ** No reader depends on the arrangement *)

Lemma activationFact_respects : respects (F := F) activationFact.
Proof.
  apply respects_record; [distinct_texts|].
  apply fieldwise_bind; [exact (fieldwise_property _ _ (boundedText_respects _))|]. intros id.
  apply fieldwise_bind; [apply fieldwise_const|]. intros _.
  apply fieldwise_bind; [exact (fieldwise_property _ _ (oneOf_respects _ _))|]. intros st. apply fieldwise_const.
Qed.

Lemma sort_facts l l' : NoDup (map fact_ruleId l) -> l ≡ₚ l' -> sort_by fact_le l = sort_by fact_le l'.
Proof. apply (sort_by_key fact_ruleId). Qed.

Lemma readStates_respects : respects readStates.
Proof.
  apply respects_array; [apply activationFact_respects|].
  intros l l' b Hp (Hd & [= <-])%bind_ensure. apply bool_decide_eq_true in Hd.
  apply (NoDup_map_perm fact_ruleId _ l) in Hd; [|apply sort_by_perm].
  rewrite <- (sort_facts l l') by done. apply bind_ensure. split; [|done]. apply bool_decide_eq_true.
  apply (NoDup_map_perm fact_ruleId l); [symmetry; apply sort_by_perm|done].
Qed.

Lemma readObservation_respects : respects readObservation.
Proof.
  apply respects_record; [distinct_texts|].
  apply fieldwise_bind; [exact (fieldwise_property _ _ pathValue_respects)|]. intros path.
  apply fieldwise_bind; [exact (fieldwise_property _ _ readStates_respects)|]. intros states. apply fieldwise_const.
Qed.

Lemma readLanguages_respects : respects (F := F) readLanguages.
Proof.
  intros v v' [] Hr (l & Hl & Hall%ensure_Ok)%bind_Ok.
  destruct (denseArray_respects v v' _ _ Hr Hl) as (k & l' & Hf & Hp & Hl'). unfold readLanguages. rewrite Hl'.
  cbn [mbind res_mbind]. apply ensure_Ok, forallb_elem. intros x Hx. rewrite <- Hp in Hx.
  rewrite forallb_elem in Hall. apply list_elem_of_lookup_1 in Hx as (i & Hi).
  destruct (Forall2_lookup_r _ _ _ _ _ Hf Hi) as (y & Hy & Hyx).
  apply (memberOf_respects _ y); [done|]. apply Hall. by eapply list_elem_of_lookup_2.
Qed.

Lemma readWorkspace_respects : respects (F := F) readWorkspace.
Proof.
  apply respects_record; [distinct_texts|].
  apply fieldwise_bind; [exact (fieldwise_property _ _ pathValue_respects)|]. intros _.
  apply fieldwise_bind; [exact (fieldwise_property _ _ (boundedText_respects _))|]. intros family.
  apply fieldwise_bind; [apply fieldwise_const|]. intros _.
  apply fieldwise_bind; [exact (fieldwise_test _ _ _ (memberOf_respects _))|]. intros _.
  apply fieldwise_bind; [exact (fieldwise_property _ _ readLanguages_respects)|]. intros _.
  exact (fieldwise_property _ _ rootValue_respects).
Qed.

Lemma uncertaintyReason_respects : respects (F := F) uncertaintyReason.
Proof.
  intros v v' a Hr (reason & Hv & H)%bind_Ok. unfold uncertaintyReason.
  by rewrite (boundedText_respects _ _ _ _ Hr Hv).
Qed.

(** The reasons and whether there are any, as one reader. *)
Definition readReasons (known : bool) (value : jsval F) : sampler_res (list jstring) :=
  rawReasons ← denseArray value 1000;
  reasons ← rmapM uncertaintyReason rawReasons;
  _ ← ensure (bool_decide (NoDup reasons)) invalidRelationship;
  _ ← ensure (Bool.eqb known (bool_decide (reasons = []))) invalidRelationship;
  Ok (sort_by jleb reasons).

Lemma readReasons_respects known : respects (readReasons known).
Proof.
  apply respects_array; [apply uncertaintyReason_respects|].
  intros l l' b Hp (Hd & (He & [= <-])%bind_ensure)%bind_ensure.
  assert (NoDup l <-> NoDup l') as Hn by (by rewrite Hp).
  assert (l = [] <-> l' = []) as He'.
  { split; intros ->; [by apply Permutation_nil_l in Hp|by apply Permutation_nil_r in Hp]. }
  rewrite <- (bool_decide_ext _ _ Hn), <- (bool_decide_ext _ _ He'), Hd, He. cbn.
  by rewrite (sort_texts_perm l l').
Qed.

Lemma normalizeProvenance_fieldwise : fieldwise (F := F) normalizeProvenance.
Proof.
  assert (forall input : list (jstring * jsval F), normalizeProvenance input =
    (certainty ← oneOf certainty_name [tracked; all_files_not_tracked] (property input #"trackingCertainty");
     reason ← oneOf tracking_reason_name TRACKING_REASONS (property input #"trackingReason");
     _ ← ensure (Bool.eqb (bool_decide (certainty = tracked)) (bool_decide (reason = verified_git_index)))
                invalidRelationship;
     uncertainty ← oneOf workspace_uncertainty_name [ws_known; ws_uncertain] (property input #"workspaceUncertainty");
     reasons ← readReasons (bool_decide (uncertainty = ws_known)) (property input #"workspaceUncertaintyReasons");
     Ok {| trackingCertainty := certainty; trackingReason := reason; workspaceUncertainty := uncertainty;
           workspaceUncertaintyReasons := reasons |})) as Heq.
  { intros input. unfold normalizeProvenance, readReasons. same_binds. }
  intros fs fs' a Hs. rewrite !Heq. clear Heq. revert fs fs' a Hs.
  apply fieldwise_bind; [exact (fieldwise_property _ _ (oneOf_respects _ _))|]. intros certainty.
  apply fieldwise_bind; [exact (fieldwise_property _ _ (oneOf_respects _ _))|]. intros reason.
  apply fieldwise_bind; [apply fieldwise_const|]. intros _.
  apply fieldwise_bind; [exact (fieldwise_property _ _ (oneOf_respects _ _))|]. intros uncertainty.
  apply fieldwise_bind; [exact (fieldwise_property _ _ (readReasons_respects _))|]. intros reasons. apply fieldwise_const.
Qed.

Lemma normalizeCritical_fieldwise : fieldwise (F := F) (normalizeCritical limits).
Proof.
  apply (fieldwise_property (fun v => raws ← denseArray v (maximumCriticalPaths limits);
    paths ← rmapM pathValue raws; _ ← ensure (bool_decide (NoDup paths)) invalidRelationship;
    Ok (sort_by jleb paths))).
  apply respects_array; [apply pathValue_respects|]. intros l l' b Hp (Hd & [= <-])%bind_ensure.
  assert (NoDup l <-> NoDup l') as Hn by (by rewrite Hp). rewrite <- (bool_decide_ext _ _ Hn), Hd. cbn.
  by rewrite (sort_texts_perm l l').
Qed.

(** ** Reading against the clock *)

Lemma sampling_bind_Ok {A B} (m : sampling A) (f : A -> sampling B) k b :
  (m ≫= f) k = Ok b <-> exists a k', m k = Ok (a, k') /\ f a k' = Ok b.
Proof.
  unfold mbind, sampling_mbind. destruct (m k) as [[a k']|]; split; try done; [eauto| |by intros (? & ? & ? & ?)].
  by intros (? & ? & [= <- <-] & ?).
Qed.

Lemma untimed_Ok {A} (m : sampler_res A) k a k' : untimed m k = Ok (a, k') <-> m = Ok a /\ k' = k.
Proof. unfold untimed. destruct m; cbn; split; intros; naive_solver. Qed.

(** The readings of a timed loop of [n] rounds lead from [k] to [k'], all in time. *)
Definition in_time (clock : TargetSamplerClock) (deadline : Z) (n k k' : nat) : Prop :=
  timedLoop clock deadline (fun _ _ => Ok tt) 0 tt (replicate n tt) k = Ok (tt, k').

Lemma timedLoop_parts {A T} clock deadline (f : T -> A -> sampler_res T) i st l k a k' :
  timedLoop clock deadline f i st l k = Ok (a, k') <->
  foldM f st l = Ok a
  /\ timedLoop clock deadline (fun _ _ => Ok tt) i tt (replicate (length l) tt) k = Ok (tt, k').
Proof.
  revert i st k. induction l as [|x l IH]; intros i st k; cbn.
  { split; [intros H%Ok_inj|intros [H1%Ok_inj H2%Ok_inj]]; simplify_eq; done. }
  rewrite bind_Ok, !sampling_bind_Ok. split.
  - intros (u & k1 & Hk & (st1 & k2 & (Hs & ->)%untimed_Ok & (Hr & Ht)%IH)%sampling_bind_Ok).
    split; [eauto|]. exists u, k1. split; [done|]. apply sampling_bind_Ok. exists tt, k1. by split.
  - intros ((st1 & Hs & Hr) & u & k1 & Hk & ([] & k2 & (_ & ->)%untimed_Ok & Ht)%sampling_bind_Ok).
    exists u, k1. split; [done|]. apply sampling_bind_Ok. exists st1, k1. split; [by apply untimed_Ok|]. by apply IH.
Qed.

(** A timed loop computes what the loop without the clock does, in readings that
    depend only on the number of its rounds. *)
Lemma timedLoop_Ok {A T} clock deadline (f : T -> A -> sampler_res T) st l k a k' :
  timedLoop clock deadline f 0 st l k = Ok (a, k') <-> foldM f st l = Ok a /\ in_time clock deadline (length l) k k'.
Proof. apply timedLoop_parts. Qed.

Lemma sampling_untimed {A B} (m : sampler_res A) (f : A -> sampling B) k b :
  (untimed m ≫= f) k = Ok b <-> exists a, m = Ok a /\ f a k = Ok b.
Proof.
  rewrite sampling_bind_Ok. setoid_rewrite untimed_Ok. split; [intros (a & k' & [Ha ->] & Hb); eauto|].
  intros (a & Ha & Hb). eauto.
Qed.

Lemma sampling_ensure {B} (c : bool) e (f : unit -> sampling B) k b :
  (untimed (ensure c e) ≫= f) k = Ok b <-> c = true /\ f tt k = Ok b.
Proof. rewrite sampling_untimed. setoid_rewrite ensure_Ok. split; [intros ([] & ? & ?); auto|]. intros []. eauto. Qed.

Lemma sampling_loop {A T B} clock deadline (g : T -> A -> sampler_res T) st l (f : T -> sampling B) k b :
  (timedLoop clock deadline g 0 st l ≫= f) k = Ok b <->
  exists a k', foldM g st l = Ok a /\ in_time clock deadline (length l) k k' /\ f a k' = Ok b.
Proof.
  rewrite sampling_bind_Ok. split.
  - intros (a & k' & H & Hb). destruct (proj1 (timedLoop_Ok _ _ _ _ _ _ _ _) H). by exists a, k'.
  - intros (a & k' & Ha & Ht & Hb). exists a, k'. split; [by apply timedLoop_Ok|done].
Qed.
End loops.

(** ** The normalized input *)

(** Equal but for the order of the observations. *)
Definition same_normalized (n n' : NormalizedSampling) : Prop :=
  ns_paths n = ns_paths n' /\ ns_provenance n = ns_provenance n' /\ ns_workspaces n = ns_workspaces n'
  /\ ns_sources n = ns_sources n' /\ ns_critical n = ns_critical n'
  /\ exists obs obs', ns_observed n = observed_all obs /\ ns_observed n' = observed_all obs'
     /\ obs ≡ₚ obs' /\ NoDup (map fst obs) /\ rule_ids <$> head obs = rule_ids <$> head obs'.

Section normalized.
Context {F : Type} (toLowerCase : jstring -> jstring) (clock : TargetSamplerClock) (deadline : Z)
        (limits : TargetSamplerLimits).

(** What a normalized input satisfies. *)
Definition normal_input (n : NormalizedSampling) : Prop :=
  StronglySorted (le_prop jleb) (ns_paths n) /\ NoDup (ns_paths n)
  /\ ns_sources n = omap (sourceOf toLowerCase) (ns_paths n)
  /\ StronglySorted (le_prop jleb) (ns_critical n) /\ NoDup (ns_critical n)
  /\ (exists roots, ns_workspaces n = sort_by key_le (fold_left addRoot roots []))
  /\ exists obs, ns_observed n = observed_all obs /\ admissible limits (map source_path (ns_sources n)) obs
     /\ length obs = length (ns_sources n).

Lemma sort_texts_sorted l : StronglySorted (le_prop jleb) (sort_by jleb l).
Proof. apply sort_by_sorted; [intros x y z; apply jleb_trans|apply jleb_total]. Qed.

(** What is read from the fields of an input. *)
Record reading := {
  rd_rawPaths : list (jsval F); rd_paths : list jstring; rd_provenance : TargetSamplingProvenance;
  rd_rawWorkspaces : list (jsval F); rd_roots : list jstring;
  rd_rawObservations : list (jsval F); rd_observations : list observation; rd_critical : list jstring
}.

Definition reads (fs : list (jstring * jsval F)) (r : reading) : Prop :=
  denseArray (property fs #"paths") (maximumPaths limits) = Ok (rd_rawPaths r)
  /\ rmapM pathValue (rd_rawPaths r) = Ok (rd_paths r)
  /\ normalizeProvenance fs = Ok (rd_provenance r)
  /\ denseArray (property fs #"workspaceBoundaries") (maximumWorkspaceBoundaries limits) = Ok (rd_rawWorkspaces r)
  /\ rmapM readWorkspace (rd_rawWorkspaces r) = Ok (rd_roots r)
  /\ denseArray (property fs #"activationObservations") (maximumPaths limits) = Ok (rd_rawObservations r)
  /\ rmapM (readObservation limits) (rd_rawObservations r) = Ok (rd_observations r)
  /\ normalizeCritical limits fs = Ok (rd_critical r).

Definition sources_read (r : reading) : list Source := omap (sourceOf toLowerCase) (sort_by jleb (rd_paths r)).

(** The conditions on what is read. *)
Definition acceptable (r : reading) : Prop :=
  (rd_paths r = [] \/ (sumN textBytes (rd_paths r) <= maximumPathTextBytes limits)%N)
  /\ NoDup (rd_paths r)
  /\ admissible limits (map source_path (sources_read r)) (rd_observations r)
  /\ length (rd_observations r) = length (sources_read r).

Definition normalized_of (r : reading) : NormalizedSampling := {|
  ns_paths := sort_by jleb (rd_paths r); ns_provenance := rd_provenance r;
  ns_workspaces := sort_by key_le (fold_left addRoot (rd_roots r) []); ns_sources := sources_read r;
  ns_observed := observed_all (rd_observations r); ns_critical := rd_critical r |}.

(** The readings of the clock taken by the three loops. *)
Definition timely (r : reading) (k k' : nat) : Prop :=
  exists k1 k2, in_time clock deadline (length (rd_rawPaths r)) k k1
    /\ in_time clock deadline (length (rd_rawWorkspaces r)) k1 k2
    /\ in_time clock deadline (length (rd_rawObservations r)) k2 k'.

(** The normalization succeeds exactly on an acceptable reading in time. *)
Lemma normalizeInput_Ok (v : jsval F) k n k' :
  normalizeInput toLowerCase clock deadline limits v k = Ok (n, k') <->
  exists fs r, record v INPUT_KEYS = Ok fs /\ reads fs r /\ acceptable r /\ timely r k k' /\ n = normalized_of r.
Proof.
  unfold normalizeInput. split.
  - intros (fs & Hfs & (rawPaths & Hrp & H)%sampling_untimed)%sampling_untimed.
    apply sampling_loop in H as ([ps bytes] & k1 & (Hps & -> & Hb)%addPath_all & Ht1 & H).
    apply sampling_ensure in H as (Hd%bool_decide_eq_true & (prov & Hprov & (rawW & HrW & H)%sampling_untimed)%sampling_untimed).
    apply sampling_loop in H as (wm & k2 & (roots & Hroots & ->)%addWorkspace_all & Ht2 & H).
    apply sampling_untimed in H as (rawO & HrO & H).
    apply sampling_loop in H as (st & k3 & (obs & Hobs & Hadm & ->)%addObservation_all & Ht3 & H).
    apply sampling_ensure in H as (Hlen%Nat.eqb_eq & (critical & Hc & [= <- <-])%sampling_untimed).
    rewrite sort_by_perm in Hd.
    exists fs, {| rd_rawPaths := rawPaths; rd_paths := ps; rd_provenance := prov; rd_rawWorkspaces := rawW;
                  rd_roots := roots; rd_rawObservations := rawO; rd_observations := obs; rd_critical := critical |}.
    split_and!; [done|repeat (split; [done|]); done|split_and!; done|by exists k1, k2|done].
  - intros (fs & r & Hfs & (Hrp & Hps & Hprov & HrW & Hroots & HrO & Hobs & Hc) & (Hb & Hd & Hadm & Hlen)
            & (k1 & k2 & Ht1 & Ht2 & Ht3) & ->).
    apply sampling_untimed. exists fs. split; [done|]. apply sampling_untimed. eexists. split; [done|].
    apply sampling_loop. exists (rd_paths r, sumN textBytes (rd_paths r)), k1.
    split_and!; [by apply addPath_all|done|]. apply sampling_ensure.
    split; [apply bool_decide_eq_true; by rewrite sort_by_perm|].
    apply sampling_untimed. eexists. split; [done|]. apply sampling_untimed. eexists. split; [done|].
    apply sampling_loop. eexists _, k2. split_and!; [apply addWorkspace_all; by eexists|done|].
    apply sampling_untimed. eexists. split; [done|].
    apply sampling_loop. eexists _, k'. split_and!; [apply addObservation_all; by eexists|done|].
    apply sampling_ensure. split; [by apply Nat.eqb_eq|]. apply sampling_untimed. by eexists.
Qed.

Lemma normalizeInput_normal (v : jsval F) k n k' :
  normalizeInput toLowerCase clock deadline limits v k = Ok (n, k') -> normal_input n.
Proof.
  intros (fs & r & _ & (_ & _ & _ & _ & _ & _ & _ & Hc) & (_ & Hd & Hadm & Hlen) & _ & ->)%normalizeInput_Ok.
  unfold normalizeCritical in Hc. apply bind_Ok in Hc as (rawC & _ & (cs & _ & (Hcd & Hcs)%bind_ensure)%bind_Ok).
  apply bool_decide_eq_true in Hcd. apply Ok_inj in Hcs.
  unfold normal_input, normalized_of. cbn [ns_paths ns_sources ns_critical ns_workspaces ns_observed].
  rewrite <- Hcs. split_and!; try done;
    [apply sort_texts_sorted|by rewrite sort_by_perm|apply sort_texts_sorted|by rewrite sort_by_perm|by eexists|by eexists].
Qed.

Lemma addRoot_get roots m root : map_get root (fold_left addRoot roots m) = if decide (root ∈ roots) then Some root else map_get root m.
Proof.
  revert m. induction roots as [|r roots IH]; intros m; cbn [fold_left]; [done|]. rewrite IH. unfold addRoot.
  rewrite map_get_set. destruct (decide (root ∈ roots)); [by rewrite decide_True by (by right)|].
  destruct (jeqb r root) eqn:He.
  - apply jeqb_eq in He as ->. by rewrite decide_True by (by left).
  - apply jeqb_neq in He. rewrite decide_False; [done|]. rewrite elem_of_cons. intros [?|?]; congruence.
Qed.

Lemma addRoot_NoDup roots m : NoDup (map fst m) -> NoDup (map fst (fold_left addRoot roots m)).
Proof. revert m. induction roots as [|r roots IH]; intros m Hm; [done|]. by apply IH, map_set_NoDup. Qed.

Lemma elem_of_addRoot roots e : e ∈ fold_left addRoot roots [] <-> e.1 ∈ roots /\ e.2 = e.1.
Proof.
  assert (Hd : NoDup (map fst (fold_left addRoot roots []))) by apply addRoot_NoDup, NoDup_nil_2.
  destruct e as [root x]. cbn. split.
  - intros Hin. apply (map_get_NoDup root) in Hin; [|done]. rewrite addRoot_get in Hin. case_decide; naive_solver.
  - intros [Hin ->]. apply map_get_elem. rewrite addRoot_get. by rewrite decide_True.
Qed.

(** The boundaries are a set of roots. *)
Lemma workspaces_perm roots roots' : roots ≡ₚ roots' ->
  sort_by key_le (fold_left addRoot roots []) = sort_by key_le (fold_left addRoot roots' []).
Proof.
  intros Hp. apply (sort_by_key fst); [apply addRoot_NoDup, NoDup_nil_2|].
  apply NoDup_Permutation.
  - eapply NoDup_fmap_1, addRoot_NoDup, NoDup_nil_2.
  - eapply NoDup_fmap_1, addRoot_NoDup, NoDup_nil_2.
  - intros e. by rewrite !elem_of_addRoot, Hp.
Qed.

(** The same reading, but for its order. *)
Lemma reads_rearranged fs fs' r : same_fields fs fs' -> reads fs r ->
  exists r', reads fs' r'
    /\ rd_paths r ≡ₚ rd_paths r' /\ rd_roots r ≡ₚ rd_roots r' /\ rd_observations r ≡ₚ rd_observations r'
    /\ rd_provenance r = rd_provenance r' /\ rd_critical r = rd_critical r'
    /\ length (rd_rawPaths r) = length (rd_rawPaths r')
    /\ length (rd_rawWorkspaces r) = length (rd_rawWorkspaces r')
    /\ length (rd_rawObservations r) = length (rd_rawObservations r').
Proof.
  intros Hs (Hrp & Hps & Hprov & HrW & Hroots & HrO & Hobs & Hc).
  destruct (array_respects pathValue _ _ _ _ _ pathValue_respects (Hs #"paths") Hrp Hps)
    as (rawPaths' & ps' & Hrp' & Hl1 & Hps' & Hpp).
  destruct (array_respects readWorkspace _ _ _ _ _ readWorkspace_respects (Hs #"workspaceBoundaries") HrW Hroots)
    as (rawW' & roots' & HrW' & Hl2 & Hroots' & Hpr).
  destruct (array_respects _ _ _ _ _ _ (readObservation_respects limits) (Hs #"activationObservations") HrO Hobs)
    as (rawO' & obs' & HrO' & Hl3 & Hobs' & Hpo).
  exists {| rd_rawPaths := rawPaths'; rd_paths := ps'; rd_provenance := rd_provenance r; rd_rawWorkspaces := rawW';
            rd_roots := roots'; rd_rawObservations := rawO'; rd_observations := obs'; rd_critical := rd_critical r |}.
  split; [|done]. split_and!; try done.
  - by apply (normalizeProvenance_fieldwise fs).
  - by apply (normalizeCritical_fieldwise limits fs).
Qed.

(** The normalized input does not depend on the arrangement of the input. *)
Lemma normalizeInput_rearranged (v v' : jsval F) k n k' :
  rearranged v v' -> normalizeInput toLowerCase clock deadline limits v k = Ok (n, k') ->
  exists n', normalizeInput toLowerCase clock deadline limits v' k = Ok (n', k') /\ same_normalized n n'.
Proof.
  intros Hr (fs & r & Hfs & Hrd & (Hb & Hd & Hadm & Hlen) & (k1 & k2 & Ht1 & Ht2 & Ht3) & ->)%normalizeInput_Ok.
  destruct (record_respects v v' INPUT_KEYS fs ltac:(distinct_texts) Hr Hfs) as (fs' & Hfs' & Hs).
  destruct (reads_rearranged fs fs' r Hs Hrd) as (r' & Hrd' & Hpp & Hpr & Hpo & Hprov & Hc & Hl1 & Hl2 & Hl3).
  assert (Hsp : sort_by jleb (rd_paths r) = sort_by jleb (rd_paths r')) by (by apply sort_texts_perm).
  assert (Hsrc : sources_read r = sources_read r') by (unfold sources_read; by rewrite Hsp).
  exists (normalized_of r'). split.
  - apply normalizeInput_Ok. exists fs', r'. split_and!; [done|done| | |done].
    + split_and!.
      * destruct Hb as [E|?]; [left; rewrite E in Hpp; by apply Permutation_nil_l in Hpp|right].
        by rewrite <- (sumN_perm _ _ _ Hpp).
      * by rewrite <- Hpp.
      * rewrite <- Hsrc. by eapply admissible_reordered.
      * by rewrite <- Hsrc, <- Hpo.
    + exists k1, k2. by rewrite <- Hl1, <- Hl2, <- Hl3.
  - unfold same_normalized, normalized_of. cbn [ns_paths ns_provenance ns_workspaces ns_sources ns_critical ns_observed].
    split_and!; try done; [by apply workspaces_perm|].
    eexists _, _. split_and!; [done|done|done|apply Hadm|]. by eapply admissible_universe.
Qed.
End normalized.
