(* ===== verification/TargetSamplerLaws.v ===== *)
(** Theorems about the target sampler (packages/resolver/src/target-sampler.ts):
    the partition of the sources by activation, that every source is represented
    among the selected targets, and that the order of the input does not matter. *)
From S2P Require Import Prelude JsString OrderedMap Unicode Identifiers JsValue RepositoryPath ActivationAlgebra ActivationLaws ImportDag ImportDagLaws TargetSampler TargetCoverageLaws TargetReading.

(** ** The signature of the facts of a source *)

Definition piece (fact : TargetActivationFact) : jstring :=
  String_of_N (N.of_nat (length (fact_ruleId fact))) ++ #":" ++ fact_ruleId fact ++ #":" ++ state_name (fact_state fact).

Definition BAR : N := 124.
Definition COLON : N := 58.

Lemma state_name_no_bar s : BAR ∉ state_name s.
Proof. apply (bool_decide_eq_true_1 _). by destruct s. Qed.

(** A text before the end or a separator is determined. *)
Lemma cut_at_end s t (r r' : jstring) :
  BAR ∉ s -> BAR ∉ t -> (r = [] \/ exists k, r = BAR :: k) -> (r' = [] \/ exists k, r' = BAR :: k) ->
  s ++ r = t ++ r' -> s = t /\ r = r'.
Proof.
  intros Hs Ht [->|[k ->]] [->|[k' ->]]; rewrite ?app_nil_r.
  - by intros ->.
  - intros ->. set_solver.
  - intros <-. set_solver.
  - intros [-> ->]%cut_at_sep; done.
Qed.

Lemma piece_inj f g (r r' : jstring) :
  (r = [] \/ exists k, r = BAR :: k) -> (r' = [] \/ exists k, r' = BAR :: k) ->
  piece f ++ r = piece g ++ r' -> f = g /\ r = r'.
Proof.
  intros Hr Hr' Heq. unfold piece in Heq. change #":" with [COLON] in Heq.
  rewrite <- !app_assoc in Heq. cbn [app] in Heq.
  apply cut_at_sep in Heq as [Hlen%String_of_N_inj Heq]; [|apply String_of_N_no_unit; unfold COLON; lia..].
  apply app_inj_1 in Heq as [Hid Heq]; [|lia]. injection Heq as Heq.
  apply cut_at_end in Heq as [Hst%state_name_inj ->]; [|done || apply state_name_no_bar..].
  split; [|done]. destruct f, g; cbn in *; congruence.
Qed.

Lemma join_rest c (x : jstring) l : exists r, join c (x :: l) = x ++ r /\ (r = [] \/ exists k, r = c :: k)
  /\ (l = [] -> r = []) /\ (l <> [] -> r = c :: join c l).
Proof.
  destruct l as [|y l]; [exists []|exists (c :: join c (y :: l))]; (split; [by rewrite ?app_nil_r|]);
    split_and!; eauto; done.
Qed.

Lemma piece_nonempty f : piece f <> [].
Proof. unfold piece. intros H. apply app_eq_nil in H as [_ H]. done. Qed.

(** The signature determines the facts. *)
Lemma partitionSignature_inj fs gs : partitionSignature fs = partitionSignature gs -> fs = gs.
Proof.
  change (partitionSignature fs) with (join BAR (map piece fs)).
  change (partitionSignature gs) with (join BAR (map piece gs)).
  revert gs. induction fs as [|f fs IH]; intros gs Heq.
  - destruct gs as [|g gs]; [done|]. exfalso. destruct (join_rest BAR (piece g) (map piece gs)) as (r & Hr & _).
    cbn [map] in Heq. rewrite Hr in Heq. symmetry in Heq. apply app_eq_nil in Heq as [H _]. by apply piece_nonempty in H.
  - destruct gs as [|g gs].
    + exfalso. destruct (join_rest BAR (piece f) (map piece fs)) as (r & Hr & _).
      cbn [map] in Heq. rewrite Hr in Heq. apply app_eq_nil in Heq as [H _]. by apply piece_nonempty in H.
    + destruct (join_rest BAR (piece f) (map piece fs)) as (r & Hr & Hrb & Hr0 & Hr1).
      destruct (join_rest BAR (piece g) (map piece gs)) as (r' & Hr' & Hrb' & Hr0' & Hr1').
      cbn [map] in Heq. rewrite Hr, Hr' in Heq. apply piece_inj in Heq as [-> ->]; [|done..]. f_equal.
      destruct fs as [|f1 fs], gs as [|g1 gs]; try done.
      * rewrite Hr0 in Hr1' by done. by specialize (Hr1' ltac:(done)).
      * rewrite Hr0' in Hr1 by done. by specialize (Hr1 ltac:(done)).
      * apply IH. specialize (Hr1 ltac:(done)). specialize (Hr1' ltac:(done)). congruence.
Qed.

(** ** Partitions *)

Definition stable_fact (f : TargetActivationFact) : Prop := STABLE_ID (fact_ruleId f) = true.

Section partitions.
Context `{Sha256}.

Definition states_at (seen : list (jstring * list TargetActivationFact)) (path : jstring) : list TargetActivationFact :=
  default [] (map_get path seen).

Definition candidateOf (seen : list (jstring * list TargetActivationFact)) (source : Source) : Candidate :=
  {| candidate_source := source; candidate_partitionId := partitionId (states_at seen (source_path source)) |}.

(** The cache of identifiers only holds the identifier of each signature. *)
Definition cache_sound (cache : list (jstring * jstring)) : Prop :=
  forall states id, map_get (partitionSignature states) cache = Some id -> id = partitionId states.

Lemma cache_transparent cache states : cache_sound cache ->
  default (partitionId states) (map_get (partitionSignature states) cache) = partitionId states.
Proof. intros Hc. destruct (map_get _ cache) as [id|] eqn:Hg; [|done]. by apply Hc in Hg. Qed.

(** Looking signatures up in the cache does not change the candidates. *)
Lemma candidatesOf_map seen sources : candidatesOf seen sources = map (candidateOf seen) sources.
Proof.
  unfold candidatesOf.
  enough (forall st, cache_sound st.2 -> (fold_left (addCandidate seen) sources st).1 = st.1 ++ map (candidateOf seen) sources)
    as Hgen by (apply (Hgen ([], [])); by intros states id).
  induction sources as [|s sources IH]; intros st Hst; cbn [fold_left map]; [by rewrite app_nil_r|].
  rewrite IH; unfold addCandidate; cbn [fst snd]; fold (states_at seen (source_path s));
    rewrite cache_transparent by done; [by rewrite <- app_assoc|].
  intros states id. rewrite map_get_set. destruct (jeqb _ _) eqn:He; [|apply Hst].
  apply jeqb_eq, partitionSignature_inj in He. intros [= <-]. by rewrite He.
Qed.

Lemma stable_good_text s : STABLE_ID s = true -> good_text s.
Proof. intros [_ Hs]%STABLE_ID_ascii. by apply ascii_wf. Qed.

Lemma state_name_good st : good_text (state_name st).
Proof. split; [by destruct st|]. apply (Forall_impl (fun c => (c < 128)%N)); [|lia]. destruct st; vm_compute; repeat constructor. Qed.

Definition fact_fields (states : list TargetActivationFact) : list jstring :=
  mjoin ((fun fact => [fact_ruleId fact; state_name (fact_state fact)]) <$> states).

Lemma fact_fields_good states : Forall stable_fact states -> Forall good_text (fact_fields states).
Proof.
  induction 1 as [|f states Hf Hs IH]; [constructor|]. unfold fact_fields. rewrite fmap_cons, mjoin_cons.
  apply Forall_app. split; [|done]. repeat constructor; [by apply stable_good_text..|apply state_name_good|apply state_name_good].
Qed.

Lemma fact_fields_inj fs gs : fact_fields fs = fact_fields gs -> fs = gs.
Proof.
  unfold fact_fields. revert gs. induction fs as [|f fs IH]; intros [|g gs]; try done.
  rewrite !fmap_cons, !mjoin_cons. cbn [app]. intros [= Hid Hst%state_name_inj Hr]. f_equal; [|by apply IH].
  destruct f, g; cbn in *; congruence.
Qed.

Lemma framedMessage_inj namespace fields fields' : Forall good_text fields -> Forall good_text fields' ->
  framedMessage namespace fields = framedMessage namespace fields' -> fields = fields'.
Proof. intros Hf Hf' Heq. unfold framedMessage in Heq. apply app_inv_head in Heq. by apply framedFields_inj. Qed.

Lemma prefixed_digest_inj (prefix : jstring) m m' :
  prefix ++ hex (sha256 m) = prefix ++ hex (sha256 m') -> m = m' \/ collide m m'.
Proof. intros Heq. apply app_inv_head in Heq. by apply hex_sha256_inj. Qed.

Lemma partitionMessage_fields fs : partitionMessage fs = framedMessage PARTITION_NAMESPACE (fact_fields fs).
Proof. done. Qed.

Lemma partitionMessage_inj fs gs : Forall stable_fact fs -> Forall stable_fact gs ->
  partitionMessage fs = partitionMessage gs -> fs = gs.
Proof.
  intros Hf Hg. rewrite !partitionMessage_fields. intros Hm.
  apply (framedMessage_inj PARTITION_NAMESPACE) in Hm; [by apply fact_fields_inj|by apply fact_fields_good..].
Qed.

(** The identifier of a partition binds the states of its sources. *)
Lemma partitionId_binds fs gs : Forall stable_fact fs -> Forall stable_fact gs ->
  partitionId fs = partitionId gs -> fs = gs \/ collide (partitionMessage fs) (partitionMessage gs).
Proof.
  intros Hf Hg Heq. apply (prefixed_digest_inj #"partition:") in Heq as [Hm|?]; [left|by right].
  by apply partitionMessage_inj.
Qed.
End partitions.

(** ** The sampler *)

Section sampler_laws.
Context `{Sha256} (toLowerCase : jstring -> jstring).

Definition deadline_of (limits : TargetSamplerLimits) (started : Z) : Z :=
  (started + 1000000 * Z.of_N (maximumDurationMs limits))%Z.

Definition candidates (n : NormalizedSampling) : list Candidate :=
  map (candidateOf (observations (ns_observed n))) (ns_sources n).

Definition selection (limits : TargetSamplerLimits) (n : NormalizedSampling) : Selection :=
  {| found := all_criteria limits n (candidates n); reasons := gather [] (requests limits n (candidates n)) |}.

Lemma readClock_Ok clock k now k' : readClock clock k = Ok (now, k') <-> clock k = ClockAt now /\ k' = S k.
Proof. unfold readClock. destruct (clock k); split; intros; naive_solver. Qed.

Lemma checkDeadline_Ok clock deadline k u k' :
  checkDeadline clock deadline k = Ok (u, k') <-> exists now, clock k = ClockAt now /\ (now <= deadline)%Z /\ k' = S k.
Proof.
  unfold checkDeadline. rewrite sampling_bind_Ok. split.
  - intros (now & k1 & [Hc ->]%readClock_Ok & [Hn%ensure_Ok ->]%untimed_Ok). exists now. split_and!; [done| |done].
    apply negb_true_iff, Z.ltb_ge in Hn. done.
  - intros (now & Hc & Hle & ->). exists now, (S k). split; [by apply readClock_Ok|]. apply untimed_Ok.
    split; [|done]. apply ensure_Ok, negb_true_iff, Z.ltb_ge. done.
Qed.

(** A call returns a result exactly when the options and the input are
    acceptable, the selection fits, and the clock is read in time. *)
Lemma sampleTargets_Ok performance v options r :
  sampleTargets toLowerCase performance v options = Ok r <->
  exists clock limits started n k now,
    resolveOptions performance options = Ok (clock, limits) /\ clock 0 = ClockAt started
    /\ normalizeInput toLowerCase clock (deadline_of limits started) limits v 1 = Ok (n, k)
    /\ fits limits (reasons (selection limits n)) = true
    /\ clock k = ClockAt now /\ (now <= deadline_of limits started)%Z
    /\ r = resultOf limits n (candidates n) (selection limits n).
Proof.
  unfold sampleTargets. rewrite bind_Ok. split.
  - intros ([clock limits] & Hopt & ([result k1] & Hrun & [= <-])%bind_Ok).
    apply sampling_bind_Ok in Hrun as (started & k0 & [Hc ->]%readClock_Ok & Hrun).
    apply sampling_bind_Ok in Hrun as (n & k & Hn & Hrun). rewrite candidatesOf_map in Hrun.
    fold (candidates n) in Hrun. rewrite coverAll_spec in Hrun.
    apply sampling_bind_Ok in Hrun as (st & k2 & [Hst ->]%untimed_Ok & Hrun).
    apply bind_ensure in Hst as [Hfit [= <-]].
    apply sampling_bind_Ok in Hrun as (u & k3 & (now & Hnow & Hle & ->)%checkDeadline_Ok & Hrun).
    injection Hrun as <- <-. by exists clock, limits, started, n, k, now.
  - intros (clock & limits & started & n & k & now & Hopt & Hc & Hn & Hfit & Hnow & Hle & ->).
    exists (clock, limits). split; [done|]. apply bind_Ok. eexists (_, _). split; [|done].
    apply sampling_bind_Ok. exists started, 1. split; [by apply readClock_Ok|].
    apply sampling_bind_Ok. exists n, k. split; [done|]. rewrite candidatesOf_map. fold (candidates n).
    rewrite coverAll_spec. apply sampling_bind_Ok. exists (selection limits n), k.
    split; [apply untimed_Ok; split; [by apply bind_ensure|done]|].
    apply sampling_bind_Ok. exists tt, (S k). split; [apply checkDeadline_Ok; by exists now|]. done.
Qed.

Lemma same_normalized_candidates n n' : same_normalized n n' -> candidates n = candidates n'.
Proof.
  intros (_ & _ & _ & Hs & _ & obs & obs' & Ho & Ho' & Hp & Hd & _). unfold candidates. rewrite Hs, Ho, Ho'.
  cbn [observations observed_all]. apply map_ext. intros s. unfold candidateOf, states_at.
  by rewrite (map_get_perm obs obs').
Qed.

Lemma same_normalized_selection limits n n' : same_normalized n n' -> selection limits n = selection limits n'.
Proof.
  intros Hn. unfold selection. rewrite (same_normalized_candidates n n' Hn).
  destruct Hn as (Hp & _ & Hw & Hs & Hc & _). unfold all_criteria, requests, criteria. by rewrite Hp, Hw, Hs, Hc.
Qed.

Lemma same_normalized_result limits n n' : same_normalized n n' ->
  resultOf limits n (candidates n) (selection limits n) = resultOf limits n' (candidates n') (selection limits n').
Proof.
  intros Hn. rewrite (same_normalized_candidates n n' Hn), (same_normalized_selection limits n n' Hn).
  destruct Hn as (Hp & Hprov & Hw & Hs & Hc & obs & obs' & Ho & Ho' & Hpo & Hd & _).
  unfold resultOf. rewrite Hp, Hprov, Hw, Hs, Hc, Ho, Ho'. cbn [factCount observed_all].
  by rewrite (sumN_perm _ _ _ Hpo).
Qed.

Lemma sampling_transfer performance v v' options r :
  rearranged v v' -> sampleTargets toLowerCase performance v options = Ok r ->
  sampleTargets toLowerCase performance v' options = Ok r.
Proof.
  intros Hr (clock & limits & started & n & k & now & Hopt & Hc & Hn & Hfit & Hnow & Hle & ->)%sampleTargets_Ok.
  destruct (normalizeInput_rearranged _ _ _ _ _ _ _ _ _ Hr Hn) as (n' & Hn' & Hsame).
  apply sampleTargets_Ok. exists clock, limits, started, n', k, now. split_and!; try done.
  - by rewrite <- (same_normalized_selection _ _ _ Hsame).
  - by apply same_normalized_result.
Qed.

(** C26.  The order of the input does not matter: when the elements of any array
    of the input, at any depth, are listed in another order, and the fields of
    any record too, the sampler selects the same targets for the same reasons
    and returns the same result, or fails as before. *)
Theorem sampling_ignores_order performance v v' options r :
  rearranged v v' ->
  sampleTargets toLowerCase performance v options = Ok r <-> sampleTargets toLowerCase performance v' options = Ok r.
Proof. intros Hr. split; apply sampling_transfer; [done|by apply rearranged_sym]. Qed.

(** ** Who is selected *)

Lemma sourceOf_path p s : sourceOf toLowerCase p = Some s -> source_path s = p.
Proof. unfold sourceOf. destruct (classifyNormalizedTargetSourcePath _ _); [|done]. by intros [= <-]. Qed.

Lemma source_paths ps :
  map source_path (omap (sourceOf toLowerCase) ps) = filter (fun p => is_Some (sourceOf toLowerCase p)) ps.
Proof.
  induction ps as [|p ps IH]; [done|]. rewrite omap_cons_list, filter_cons, map_app, IH.
  destruct (sourceOf toLowerCase p) as [s|] eqn:Hs; cbn.
  - by rewrite decide_True, (sourceOf_path _ _ Hs) by done.
  - by rewrite decide_False by (by intros [? ?]).
Qed.

Lemma sorted_filter {A} (R : A -> A -> Prop) (P : A -> Prop) `{forall x, Decision (P x)} l :
  StronglySorted R l -> StronglySorted R (filter P l).
Proof.
  induction 1 as [|x l Hs IH Hx]; [constructor|]. rewrite filter_cons. destruct (decide (P x)); [|done].
  constructor; [done|]. apply Forall_forall. intros y [_ Hy]%list_elem_of_filter. rewrite Forall_forall in Hx. by apply Hx.
Qed.

Lemma candidate_paths n : map candidate_path (candidates n) = map source_path (ns_sources n).
Proof. unfold candidates. rewrite map_map. done. Qed.

Lemma candidate_paths_sorted limits n : normal_input toLowerCase limits n -> sorted_texts (map candidate_path (candidates n)).
Proof.
  intros (Hs & _ & Hsrc & _). rewrite candidate_paths, Hsrc, source_paths. by apply sorted_filter.
Qed.

Lemma elem_of_sources limits n p : normal_input toLowerCase limits n ->
  p ∈ map source_path (ns_sources n) <-> p ∈ ns_paths n /\ is_Some (sourceOf toLowerCase p).
Proof. intros (_ & _ & -> & _). rewrite source_paths, list_elem_of_filter. tauto. Qed.

(** A path is selected exactly when it is requested. *)
Lemma selected_requested limits n p :
  p ∈ map target_path (selected (resultOf limits n (candidates n) (selection limits n)))
  <-> p ∈ map fst (requests limits n (candidates n)).
Proof.
  unfold resultOf. cbn [selected reasons selection]. rewrite map_map. cbn [target_path sampledTarget].
  change (map (fun x => x.1) ?l) with (map fst l).
  rewrite (Permutation_map fst (sort_by_perm key_le _)), gather_keys. set_solver.
Qed.

Lemma requested_of_criterion limits n c p : c ∈ criteria n (candidates n) -> selectedPath c = Some p ->
  p ∈ map fst (requests limits n (candidates n)).
Proof.
  intros Hc Hp. apply list_elem_of_fmap. exists (p, criterion_reason c). split; [done|].
  unfold requests. apply elem_of_app. right. apply list_elem_of_omap. exists c. split; [done|].
  unfold criterion_request. by rewrite Hp.
Qed.

(** In every group of candidates one is selected. *)
Lemma group_selected limits n kind key c : c ∈ candidates n ->
  map (groupCriterion kind) (sort_by key_le (groupsBy key (candidates n))) ⊆ criteria n (candidates n) ->
  exists c', c' ∈ candidates n /\ key c' = key c /\ candidate_path c' ∈ map fst (requests limits n (candidates n)).
Proof.
  intros Hc Hsub. destruct (group_of_candidate key c _ Hc) as (m & c' & Hc' & Hk & Hg).
  exists c'. split_and!; [done..|]. apply (requested_of_criterion limits n (groupCriterion kind (key c, (m, candidate_path c')))); [|done].
  apply Hsub, list_elem_of_fmap. eexists. split; [done|]. apply elem_of_sort_by. by apply groupsBy_elem.
Qed.

(** *** Languages and directories *)

Lemma plain_lookup_no_colon own key c : plain_lookup own key = Some c -> COLON ∉ language_text c.
Proof.
  unfold plain_lookup. destruct (map_get key own) as [l|].
  - intros [= <-]. apply (bool_decide_eq_true_1 _). by destruct l.
  - destruct (map_get key OBJECT_PROTOTYPE) as [text|] eqn:Hg; [|done]. intros [= <-]. apply map_get_elem in Hg.
    assert (Forall (fun e => COLON ∉ e.2) OBJECT_PROTOTYPE) as Hall
      by (apply (bool_decide_eq_true_1 _); vm_compute; reflexivity).
    rewrite Forall_forall in Hall. exact (Hall _ Hg).
Qed.

Lemma source_no_colon p s : sourceOf toLowerCase p = Some s -> COLON ∉ language_text (source_language s).
Proof.
  unfold sourceOf, classifyNormalizedTargetSourcePath.
  destruct (plain_lookup LANGUAGE_BASENAMES _) as [c|] eqn:Hb.
  { intros [= <-]. by eapply plain_lookup_no_colon. }
  destruct (lastIndexOf DOT _) as [dot|]; [|done]. destruct (plain_lookup LANGUAGE_EXTENSIONS _) as [c|] eqn:He; [|done].
  intros [= <-]. by eapply plain_lookup_no_colon.
Qed.

(** The identifier of a group of one language and one directory determines both. *)
Lemma languageDirectoryId_inj c c' p p' :
  sourceOf toLowerCase p = Some (candidate_source c) -> sourceOf toLowerCase p' = Some (candidate_source c') ->
  languageDirectoryId c = languageDirectoryId c' ->
  language_text (source_language (candidate_source c)) = language_text (source_language (candidate_source c'))
  /\ source_directory (candidate_source c) = source_directory (candidate_source c').
Proof.
  intros Hc%source_no_colon Hc'%source_no_colon Heq. unfold languageDirectoryId in Heq.
  change #":" with [COLON] in Heq. cbn [app] in Heq. by apply cut_at_sep in Heq.
Qed.

(** *** The facts of the observations *)

Lemma readStates_stable {F} limits (v : jsval F) states : readStates limits v = Ok states -> Forall stable_fact states.
Proof.
  intros (raws & _ & (facts & Hf & (_ & [= <-])%bind_ensure)%bind_Ok)%bind_Ok. rewrite sort_by_perm.
  apply rmapM_Ok in Hf. induction Hf as [|v' f raws facts Hf _ IH]; [constructor|]. constructor; [|done].
  unfold activationFact in Hf. apply bind_Ok in Hf as (item & _ & (id & _ & (Hid & (st & _ & [= <-])%bind_Ok)%bind_ensure)%bind_Ok).
  exact Hid.
Qed.

Lemma reads_stable {F} limits (fs : list (jstring * jsval F)) rd p :
  reads limits fs rd -> Forall stable_fact (states_at (rd_observations rd) p).
Proof.
  intros (_ & _ & _ & _ & _ & _ & Hobs & _). unfold states_at.
  destruct (map_get p (rd_observations rd)) as [states|] eqn:Hg; [|constructor]. apply map_get_elem in Hg.
  apply rmapM_Ok in Hobs. apply list_elem_of_lookup_1 in Hg as (i & Hi).
  destruct (Forall2_lookup_r _ _ _ _ _ Hobs Hi) as (v & _ & Hv). unfold readObservation in Hv.
  apply bind_Ok in Hv as (item & _ & (path & _ & (states' & Hs & [= _ <-])%bind_Ok)%bind_Ok). by eapply readStates_stable.
Qed.

(** *** Representatives *)

Definition targets (r : TargetSamplingResult) : list jstring := map target_path (selected r).

Lemma candidate_source_of limits n c : normal_input toLowerCase limits n -> c ∈ candidates n ->
  sourceOf toLowerCase (candidate_path c) = Some (candidate_source c)
  /\ candidate_partitionId c = partitionId (states_at (observations (ns_observed n)) (candidate_path c)).
Proof.
  intros (_ & _ & Hsrc & _) (s & -> & Hs)%list_elem_of_fmap. rewrite Hsrc in Hs.
  apply list_elem_of_omap in Hs as (p & _ & Hp).
  unfold candidate_path, candidateOf. cbn [candidate_source candidate_partitionId].
  rewrite (sourceOf_path _ _ Hp). split; [exact Hp|exact eq_refl].
Qed.

Lemma candidate_at limits n p s : normal_input toLowerCase limits n -> p ∈ ns_paths n ->
  sourceOf toLowerCase p = Some s ->
  candidateOf (observations (ns_observed n)) s ∈ candidates n /\ source_path s = p.
Proof.
  intros (_ & _ & Hsrc & _) Hp Hs. split; [|by eapply sourceOf_path]. apply list_elem_of_fmap. exists s.
  split; [done|]. rewrite Hsrc. apply list_elem_of_omap. by exists p.
Qed.

(** The part of the criteria that comes from the groups by a key. *)
Lemma partition_groups n :
  map (groupCriterion scope_partition) (sort_by key_le (groupsBy candidate_partitionId (candidates n))) ⊆ criteria n (candidates n).
Proof. unfold criteria. intros c Hc. rewrite !elem_of_app. auto. Qed.

Lemma directory_groups n :
  map (groupCriterion language_directory) (sort_by key_le (groupsBy languageDirectoryId (candidates n))) ⊆ criteria n (candidates n).
Proof. unfold criteria. intros c Hc. rewrite !elem_of_app. auto. Qed.

Lemma criticals_selected limits n p : p ∈ ns_critical n -> p ∈ ns_paths n ->
  p ∈ map fst (requests limits n (candidates n)).
Proof.
  intros Hc Hp. apply (requested_of_criterion limits n (criticalCriterion (ns_paths n) p)).
  - unfold criteria. rewrite !elem_of_app. left. apply list_elem_of_fmap. by exists p.
  - unfold criticalCriterion. by rewrite (proj2 (existsb_jeqb _ _) Hp).
Qed.

(** The first source under a root is selected. *)
Lemma root_selected limits n root p : normal_input toLowerCase limits n ->
  (root, root) ∈ ns_workspaces n -> p ∈ map source_path (ns_sources n) -> underRoot p root = true ->
  exists q, q ∈ map source_path (ns_sources n) /\ underRoot q root = true
    /\ q ∈ map fst (requests limits n (candidates n)).
Proof.
  intros Hn Hw Hp Hu. pose proof (candidate_paths_sorted limits n Hn) as Hs. rewrite <- (candidate_paths n) in Hp |- *.
  assert (exists q, (underRootRange (map candidate_path (candidates n)) root).2 = Some q
            /\ q ∈ map candidate_path (candidates n) /\ underRoot q root = true) as (q & Hq & Hin & Huq).
  { destruct (decide (root = REPOSITORY_ROOT)) as [->|Hr].
    - unfold underRootRange. rewrite jeqb_refl. destruct (map candidate_path (candidates n)) as [|q l].
      + by apply elem_of_nil in Hp.
      + exists q. split_and!; [done|left|done].
    - rewrite underRootRange_spec by done. cbn [snd].
      destruct (filter (fun q => underRoot q root = true) (map candidate_path (candidates n))) as [|q l] eqn:Hf.
      + exfalso. by eapply (filter_nil_not_elem_of (fun q => underRoot q root = true)).
      + assert (Hq : q ∈ filter (fun q => underRoot q root = true) (map candidate_path (candidates n)))
          by (rewrite Hf; left).
        apply list_elem_of_filter in Hq as [Huq Hq]. by exists q. }
  exists q. split_and!; [done..|].
  apply (requested_of_criterion limits n (workspaceCriterion (map candidate_path (candidates n)) (root, root))); [|done].
  unfold criteria. rewrite !elem_of_app. right. left. apply list_elem_of_fmap. by exists (root, root).
Qed.

(** C13.  Every source is represented.  When the sampler returns, for every source
    among the paths of the input some selected target has its language and its
    directory, some selected source has its activation states (unless the
    messages of these two lists of states collide under SHA-256), and for every
    workspace root it lies under some selected source lies under it too; every
    critical path among the paths is selected, and with the exhaustive strategy
    every source is. *)
Theorem every_source_represented performance v options r :
  sampleTargets toLowerCase performance v options = Ok r ->
  exists fs rd, record v INPUT_KEYS = Ok fs /\ reads (sampled_limits r) fs rd /\
    (forall p, p ∈ rd_critical rd -> p ∈ rd_paths rd -> p ∈ targets r) /\
    forall p s, p ∈ rd_paths rd -> sourceOf toLowerCase p = Some s ->
      (strategy r = exhaustive -> p ∈ targets r)
      /\ (exists q s', q ∈ targets r /\ sourceOf toLowerCase q = Some s'
            /\ language_text (source_language s') = language_text (source_language s)
            /\ source_directory s' = source_directory s)
      /\ (exists q, q ∈ targets r /\ is_Some (sourceOf toLowerCase q)
            /\ (states_at (rd_observations rd) q = states_at (rd_observations rd) p
                \/ collide (partitionMessage (states_at (rd_observations rd) q))
                           (partitionMessage (states_at (rd_observations rd) p))))
      /\ (forall root, root ∈ rd_roots rd -> underRoot p root = true ->
            exists q, q ∈ targets r /\ is_Some (sourceOf toLowerCase q) /\ underRoot q root = true).
Proof.
  intros (clock & limits & started & n & k & now & _ & _ & Hrun & _ & _ & _ & ->)%sampleTargets_Ok.
  pose proof (normalizeInput_normal _ _ _ _ _ _ _ _ Hrun) as Hn.
  apply normalizeInput_Ok in Hrun as (fs & rd & Hfs & Hrd & _ & _ & ->).
  exists fs, rd. split; [done|]. split; [done|]. unfold targets. setoid_rewrite selected_requested.
  assert (Hin : forall p, p ∈ rd_paths rd <-> p ∈ ns_paths (normalized_of toLowerCase rd))
    by (intros p; cbn; by rewrite elem_of_sort_by).
  split; [intros p Hc Hp%Hin; by apply criticals_selected|]. intros p s Hp%Hin Hs.
  destruct (candidate_at _ _ _ _ Hn Hp Hs) as [Hc Hps].
  set (n := normalized_of toLowerCase rd) in *. set (c := candidateOf (observations (ns_observed n)) s) in *.
  assert (Hsp : p ∈ map source_path (ns_sources n)) by (apply (elem_of_sources _ _ _ Hn); eauto).
  split_and!.
  - cbn [strategy resultOf]. intros Hx. unfold requests. rewrite Hx, map_app. apply elem_of_app. left.
    rewrite map_map. cbn. done.
  - destruct (group_selected limits n language_directory languageDirectoryId c Hc (directory_groups n)) as (c' & Hc' & Hk & Hsel).
    destruct (candidate_source_of _ _ _ Hn Hc') as [Hs' _].
    exists (candidate_path c'), (candidate_source c'). split; [done|]. split; [done|].
    destruct (languageDirectoryId_inj c' c _ p Hs' Hs Hk). done.
  - destruct (group_selected limits n scope_partition candidate_partitionId c Hc (partition_groups n)) as (c' & Hc' & Hk & Hsel).
    destruct (candidate_source_of _ _ _ Hn Hc') as [Hs' Hid]. exists (candidate_path c'). split_and!; [done|by eexists|].
    rewrite Hid in Hk. cbn [candidate_partitionId c candidateOf] in Hk. rewrite Hps in Hk.
    apply partitionId_binds in Hk; [done|by eapply reads_stable..].
  - intros root Hroot Hu. assert (Hw : (root, root) ∈ ns_workspaces n) by (by apply elem_of_sort_by, elem_of_addRoot).
    destruct (root_selected limits n root p Hn Hw Hsp Hu) as (q & Hq & Huq & Hsel).
    apply (elem_of_sources _ _ _ Hn) in Hq as [_ Hq]. by exists q.
Qed.

(** *** Reasons *)

Definition EXHAUSTIVE_REASON : jstring := #"exhaustive-source-set:all".

Lemma elem_of_requests limits n p reason :
  (p, reason) ∈ requests limits n (candidates n) <->
  (exists c, c ∈ all_criteria limits n (candidates n) /\ selectedPath c = Some p /\ reason = criterion_reason c)
  \/ (strategyOf limits (ns_sources n) = exhaustive /\ reason = EXHAUSTIVE_REASON /\ p ∈ map source_path (ns_sources n)).
Proof.
  assert (Hcrit : (p, reason) ∈ omap criterion_request (criteria n (candidates n)) <->
    exists c, c ∈ criteria n (candidates n) /\ selectedPath c = Some p /\ reason = criterion_reason c).
  { rewrite list_elem_of_omap. unfold criterion_request. split.
    - intros (c & Hc & (q & Hq & [= -> ->])%fmap_Some_1). by exists c.
    - intros (c & Hc & Hq & ->). exists c. by rewrite Hq. }
  unfold requests, all_criteria. destruct (strategyOf limits (ns_sources n)); cbn [app].
  - rewrite elem_of_app, Hcrit. split.
    + intros [(s & [= -> ->] & Hs)%list_elem_of_fmap | (c & Hc & Hq)].
      * right. split_and!; [done..|]. apply list_elem_of_fmap. by exists s.
      * left. exists c. split; [by right|done].
    + intros [(c & Hc & Hq & ->)|(_ & -> & (s & -> & Hs)%list_elem_of_fmap)].
      * apply elem_of_cons in Hc as [->|Hc]; [left|right; by exists c]. cbn [exhaustiveCriterion selectedPath] in Hq.
        destruct (ns_sources n) as [|s sources]; [done|]. apply list_elem_of_fmap. exists s.
        injection Hq as <-. split; [done|left].
      * left. apply list_elem_of_fmap. by exists s.
  - rewrite Hcrit. split; [by left|]. intros [?|(? & _)]; done.
Qed.

Lemma selected_spec limits n t :
  t ∈ selected (resultOf limits n (candidates n) (selection limits n)) <->
  exists rs, (target_path t, rs) ∈ gather [] (requests limits n (candidates n)) /\ t = sampledTarget (candidates n) (target_path t, rs).
Proof.
  unfold resultOf. cbn [selected reasons selection]. rewrite list_elem_of_fmap. setoid_rewrite elem_of_sort_by. split.
  - intros ([p rs] & -> & Hin). by exists rs.
  - intros (rs & Hin & ->). by exists (target_path t, rs).
Qed.

Lemma target_language_source n p rs :
  is_Some (target_language (sampledTarget (candidates n) (p, rs))) <-> p ∈ map source_path (ns_sources n).
Proof.
  cbn [target_language sampledTarget fst]. rewrite fmap_is_Some, map_get_keys, map_map, <- candidate_paths. done.
Qed.

Lemma gathered_reasons p rs ws : (p, rs) ∈ gather [] ws -> rs = reasons_of p (gather [] ws).
Proof.
  intros Hin. unfold reasons_of. apply map_get_NoDup in Hin; [by rewrite Hin|]. apply gather_NoDup, NoDup_nil_2.
Qed.

Lemma targets_sorted limits n :
  StronglySorted (le_prop jleb) (targets (resultOf limits n (candidates n) (selection limits n)))
  /\ NoDup (targets (resultOf limits n (candidates n) (selection limits n))).
Proof.
  unfold targets, resultOf. cbn [selected reasons selection]. rewrite map_map.
  cbn [target_path sampledTarget]. change (map (fun x => x.1) ?l) with (map fst l).
  rewrite (sort_by_map key_le jleb fst) by done. split; [apply sort_texts_sorted|].
  rewrite sort_by_perm. apply gather_NoDup, NoDup_nil_2.
Qed.

(** The selection is exactly what the criteria ask for.  The targets of a
    result are distinct paths in order, at most [maximumSamples]; the
    representative of every criterion is one of them; and a target is selected
    for exactly the reasons of the criteria it represents, and, with the
    exhaustive strategy, for being a source: never for none. *)
Theorem selection_is_justified performance v options r :
  sampleTargets toLowerCase performance v options = Ok r ->
  StronglySorted (le_prop jleb) (targets r) /\ NoDup (targets r)
  /\ (N.of_nat (length (targets r)) <= maximumSamples (sampled_limits r))%N
  /\ (forall c p, c ∈ coverage r -> selectedPath c = Some p -> p ∈ targets r)
  /\ forall t, t ∈ selected r ->
       target_reasons t <> [] /\ NoDup (target_reasons t) /\
       forall reason, reason ∈ target_reasons t <->
         (exists c, c ∈ coverage r /\ selectedPath c = Some (target_path t) /\ reason = criterion_reason c)
         \/ (strategy r = exhaustive /\ reason = EXHAUSTIVE_REASON /\ is_Some (target_language t)).
Proof.
  intros (clock & limits & started & n & k & now & _ & _ & _ & Hfit & _ & _ & ->)%sampleTargets_Ok.
  destruct (targets_sorted limits n) as [Hsorted Hnodup]. split; [done|]. split; [done|].
  assert (Hcov : forall c, c ∈ coverage (resultOf limits n (candidates n) (selection limits n))
                           <-> c ∈ all_criteria limits n (candidates n)) by (intros c; apply elem_of_sort_by).
  split_and!.
  - unfold targets, resultOf. cbn [selected sampled_limits reasons selection]. rewrite !length_map, sort_by_length.
    unfold fits in Hfit. by apply N.leb_le in Hfit.
  - intros c p Hc%Hcov Hp. apply selected_requested, list_elem_of_fmap. exists (p, criterion_reason c). split; [done|].
    apply elem_of_requests. left. by exists c.
  - intros t (rs & Hin & Ht)%selected_spec.
    pose proof (gathered_reasons _ _ _ Hin) as Hrs. rewrite Ht. cbn [target_reasons sampledTarget snd target_path fst].
    split_and!.
    + intros Hnil. assert (Hp : target_path t ∈ map fst (requests limits n (candidates n))).
      { apply selected_requested, list_elem_of_fmap. exists t. split; [done|]. apply selected_spec. by exists rs. }
      apply list_elem_of_fmap in Hp as ([p reason] & Hp & Hreq). cbn in Hp. subst p.
      assert (Hr : reason ∈ rs); [|rewrite <- (elem_of_sort_by jleb), Hnil in Hr; by apply elem_of_nil in Hr].
      rewrite Hrs. apply elem_of_gather. by left.
    + rewrite sort_by_perm, Hrs. apply gather_reasons_NoDup, NoDup_nil_2.
    + intros reason. rewrite elem_of_sort_by. setoid_rewrite Hcov.
      cbn [strategy resultOf]. rewrite target_language_source.
      rewrite <- elem_of_requests, Hrs, elem_of_gather. cbn. set_solver.
Qed.
End sampler_laws.
