(* ===== verification/TargetExamples.v ===== *)
(** The target sampler on a concrete repository: inputs at which the hypotheses
    of its theorems hold, and two inputs at which it does not do what its text
    says. *)
From S2P Require Import Prelude JsString OrderedMap Unicode Identifiers JsValue RepositoryPath ActivationAlgebra ImportDag ImportDagLaws TargetSampler TargetCoverageLaws TargetReading TargetSamplerLaws.

Definition ascii_lower (s : jstring) : jstring := map (fun c => if (65 <=? c)%N && (c <=? 90)%N then (c + 32)%N else c) s.

Definition steady_clock : TargetSamplerClock := fun k => ClockAt (Z.of_nat k).

Definition texts (l : list jstring) : jsval TargetSamplerClock := JArr true (map JStr l).

Definition fact_value (id state : jstring) : jsval TargetSamplerClock := JRec [(#"ruleId", JStr id); (#"state", JStr state)].

Definition observation_value (path : jstring) (states : list (jstring * jstring)) : jsval TargetSamplerClock :=
  JRec [(#"path", JStr path); (#"states", JArr true (map (fun s => fact_value s.1 s.2) states))].

Definition boundary_value (root : jstring) : jsval TargetSamplerClock :=
  JRec [(#"evidencePath", JStr #"package.json"); (#"family", JStr #"javascript-package");
        (#"kind", JStr #"project"); (#"languages", texts [ #"javascript"]); (#"root", JStr root)].

Definition repository (paths critical : list jstring) (boundaries observed_ : list (jsval TargetSamplerClock))
    : jsval TargetSamplerClock :=
  JRec [(#"activationObservations", JArr true observed_); (#"criticalPaths", texts critical); (#"paths", texts paths);
        (#"trackingCertainty", JStr #"tracked"); (#"trackingReason", JStr #"verified-git-index");
        (#"workspaceBoundaries", JArr true boundaries); (#"workspaceUncertainty", JStr #"known");
        (#"workspaceUncertaintyReasons", texts [])].

Definition small_repository : jsval TargetSamplerClock :=
  repository [ #"src/b.ts"; #"AGENTS.md"; #"src/a.ts"; #"tools/c.py"] [ #"AGENTS.md"; #"missing.md"]
    [boundary_value #"src"; boundary_value #"docs"]
    [observation_value #"src/b.ts" [(#"rule:b", #"active"); (#"rule:a", #"inactive")];
     observation_value #"src/a.ts" [(#"rule:a", #"inactive"); (#"rule:b", #"active")];
     observation_value #"tools/c.py" [(#"rule:a", #"active"); (#"rule:b", #"active")]].

(** The same repository, listed in another order. *)
Definition shuffled_repository : jsval TargetSamplerClock :=
  repository [ #"AGENTS.md"; #"src/a.ts"; #"src/b.ts"; #"tools/c.py"] [ #"missing.md"; #"AGENTS.md"]
    [boundary_value #"docs"; boundary_value #"src"]
    [observation_value #"src/a.ts" [(#"rule:b", #"active"); (#"rule:a", #"inactive")];
     observation_value #"src/b.ts" [(#"rule:b", #"active"); (#"rule:a", #"inactive")];
     observation_value #"tools/c.py" [(#"rule:a", #"active"); (#"rule:b", #"active")]].

(** Sources are sampled when there is more than one. *)
Definition stratify : jsval TargetSamplerClock := JRec [(#"exhaustiveSourceFileLimit", JNum 1)].

Definition sample (v options : jsval TargetSamplerClock) : sampler_res TargetSamplingResult :=
  sampleTargets (H := toy_sha256) ascii_lower steady_clock v options.

Lemma sampled_targets :
  exists r, sample small_repository stratify = Ok r /\
    (targets r = [ #"AGENTS.md"; #"src/a.ts"; #"tools/c.py"] /\ sampling_state r = partial_sampling
     /\ map (fun c => (criterion_reason c, selectedPath c)) (take 3 (coverage r))
        = [(#"critical-path:AGENTS.md", Some #"AGENTS.md"); (#"critical-path:missing.md", None);
           (#"language-directory:python:tools", Some #"tools/c.py")]).
Proof. apply (ok_of _ (fun r => _)). vm_compute. split_and!; reflexivity. Qed.

Lemma every_source_represented_witness :
  exists r, sample small_repository stratify = Ok r /\
    exists fs rd, record small_repository INPUT_KEYS = Ok fs /\ reads (sampled_limits r) fs rd /\
      (forall p, p ∈ rd_critical rd -> p ∈ rd_paths rd -> p ∈ targets r).
Proof.
  assert (exists r, sample small_repository stratify = Ok r /\ True) as (r & Hr & _)
    by (apply (ok_of _ (fun r => True)); vm_compute; exact I).
  exists r. split; [exact Hr|].
  destruct (every_source_represented (H := toy_sha256) ascii_lower steady_clock small_repository stratify r Hr)
    as (fs & rd & Hfs & Hrd & Hc & _).
  exists fs, rd. split; [exact Hfs|]. split; [exact Hrd|exact Hc].
Defined.

Lemma selection_is_justified_witness :
  exists r, sample small_repository stratify = Ok r /\
    (NoDup (targets r) /\ forall c p, c ∈ coverage r -> selectedPath c = Some p -> p ∈ targets r).
Proof.
  assert (exists r, sample small_repository stratify = Ok r /\ True) as (r & Hr & _)
    by (apply (ok_of _ (fun r => True)); vm_compute; exact I).
  exists r. split; [exact Hr|].
  destruct (selection_is_justified (H := toy_sha256) ascii_lower steady_clock small_repository stratify r Hr)
    as (_ & Hd & _ & Hc & _).
  split; [exact Hd|exact Hc].
Defined.

Lemma small_rearranged : rearranged small_repository shuffled_repository.
Proof.
  assert (Hsame : forall l : list (jsval TargetSamplerClock), Forall2 rearranged l l)
    by (intros l; induction l; constructor; [apply rearranged_same|done]).
  eapply rearranged_record; [|reflexivity].
  repeat (apply Forall2_cons; split; [split; [reflexivity|cbn [snd]]|]); [..|constructor]; try apply rearranged_same.
  - eapply rearranged_array; [|apply perm_swap].
    apply Forall2_cons. split; [apply rearranged_same|]. apply Forall2_cons. split; [|apply Hsame].
    eapply rearranged_record; [|reflexivity].
    repeat (apply Forall2_cons; split; [split; [reflexivity|cbn [snd]]|]); [..|constructor]; [apply rearranged_same|].
    eapply rearranged_array; [apply Hsame|apply perm_swap].
  - eapply rearranged_array; [apply Hsame|apply perm_swap].
  - eapply rearranged_array; [apply Hsame|]. cbn [map].
    etransitivity; [apply perm_swap|]. apply perm_skip, perm_swap.
  - eapply rearranged_array; [apply Hsame|apply perm_swap].
Qed.

Lemma sampling_ignores_order_witness :
  exists r, sample small_repository stratify = Ok r /\ sample shuffled_repository stratify = Ok r.
Proof.
  assert (exists r, sample small_repository stratify = Ok r /\ True) as (r & Hr & _)
    by (apply (ok_of _ (fun r => True)); vm_compute; exact I).
  exists r. split; [exact Hr|].
  exact (proj1 (sampling_ignores_order (H := toy_sha256) ascii_lower steady_clock small_repository
                  shuffled_repository stratify r small_rearranged) Hr).
Defined.

(** ** Where the code differs from its text *)

(** A file named like a property every object inherits is taken for a source,
    with that property for a language. *)
Lemma inherited_names_are_sources :
  map (classifyNormalizedTargetSourcePath ascii_lower) [ #"docs/constructor"; #"docs/toString"; #"docs/README"]
  = [Some (Inherited (native_function #"Object")); Some (Inherited (native_function #"toString")); None].
Proof. vm_compute. reflexivity. Qed.

(** A path under a root whose name starts after the surrogates is not counted. *)
Lemma last_names_are_not_counted :
  underRootRange [ #"src/" ++ [0xe000%N]] #"src" = (0%N, Some (#"src/" ++ [0xe000%N]))
  /\ underRoot (#"src/" ++ [0xe000%N]) #"src" = true.
Proof. vm_compute. split; reflexivity. Qed.
