(* ===== verification/UtcTime.v ===== *)
(** Coordinated universal time as the language computes it: [Date.UTC] and the
    getters of a date, and the canonical instants the trust metadata is dated
    with ([parseUtc] of packages/standards/src/tuf-trust.ts).  Days are counted
    from 1970-01-01; months from 0, as in the language. *)
From S2P Require Import Prelude JsString Unicode Identifiers ObjectGraph.
Local Open Scope Z_scope.

(** ** The calendar of the language *)

Definition is_leap (y : Z) : bool := (y mod 4 =? 0) && negb (y mod 100 =? 0) || (y mod 400 =? 0).

(** The day on which a year begins. *)
Definition day_from_year (y : Z) : Z :=
  365 * (y - 1970) + (y - 1969) / 4 - (y - 1901) / 100 + (y - 1601) / 400.

(** The year of a day: an estimate, off by at most one. *)
Definition year_from_day (day : Z) : Z :=
  let y := 1970 + (400 * day) / 146097 in
  if day <? day_from_year y then y - 1 else if day_from_year (y + 1) <=? day then y + 1 else y.

Definition leap_day (leap : bool) : Z := if leap then 1 else 0.

(** The day of the year on which a month begins. *)
Definition month_start (leap : bool) (m : Z) : Z :=
  if m <=? 0 then 0 else if m =? 1 then 31 else
  leap_day leap + (if m =? 2 then 59 else if m =? 3 then 90 else if m =? 4 then 120 else if m =? 5 then 151
                   else if m =? 6 then 181 else if m =? 7 then 212 else if m =? 8 then 243
                   else if m =? 9 then 273 else if m =? 10 then 304 else if m =? 11 then 334 else 365).

Definition month_from_day (leap : bool) (k : Z) : Z :=
  if k <? 31 then 0 else
  let k' := k - leap_day leap in
  if k' <? 59 then 1 else if k' <? 90 then 2 else if k' <? 120 then 3 else if k' <? 151 then 4
  else if k' <? 181 then 5 else if k' <? 212 then 6 else if k' <? 243 then 7 else if k' <? 273 then 8
  else if k' <? 304 then 9 else if k' <? 334 then 10 else 11.

Definition make_day (year month date : Z) : Z :=
  let ym := year + month / 12 in
  day_from_year ym + month_start (is_leap ym) (month mod 12) + date - 1.

(** [Date.UTC(year, month, date, hour, minute, second)] *)
Definition Date_UTC (year month date hour minute second : Z) : Z :=
  let full := if (0 <=? year) && (year <=? 99) then 1900 + year else year in
  make_day full month date * 86400000 + hour * 3600000 + minute * 60000 + second * 1000.

Definition day_of (ms : Z) : Z := ms / 86400000.
Definition getUTCFullYear (ms : Z) : Z := year_from_day (day_of ms).
Definition day_in_year (ms : Z) : Z := day_of ms - day_from_year (getUTCFullYear ms).
Definition getUTCMonth (ms : Z) : Z := month_from_day (is_leap (getUTCFullYear ms)) (day_in_year ms).
Definition getUTCDate (ms : Z) : Z :=
  day_in_year ms - month_start (is_leap (getUTCFullYear ms)) (getUTCMonth ms) + 1.
Definition getUTCHours (ms : Z) : Z := (ms / 3600000) mod 24.
Definition getUTCMinutes (ms : Z) : Z := (ms / 60000) mod 60.
Definition getUTCSeconds (ms : Z) : Z := (ms / 1000) mod 60.

(** ** Canonical instants *)

(** [s.padStart(width, "0")] *)
Definition padStart (width : nat) (s : jstring) : jstring := replicate (width - length s) 48%N ++ s.

Definition padded (width : nat) (n : Z) : jstring := padStart width (String_of_Z n).

(** [`${year}-${month}-${day}T${hour}:${minute}:${second}Z`] *)
Definition utc_text (year month day hour minute second : Z) : jstring :=
  padded 4 year ++ #"-" ++ padded 2 month ++ #"-" ++ padded 2 day ++ #"T" ++
  padded 2 hour ++ #":" ++ padded 2 minute ++ #":" ++ padded 2 second ++ #"Z".

Definition digits_number (s : jstring) : Z := Z.of_N (digits_value 0 s).

(** [RFC3339_UTC.exec(text)], its groups as numbers *)
Definition RFC3339_UTC (text : jstring) : option (Z * Z * Z * Z * Z * Z) :=
  match text with
  | [y1; y2; y3; y4; s1; m1; m2; s2; d1; d2; s3; h1; h2; s4; i1; i2; s5; c1; c2; s6] =>
      if forallb decimal_digit [y1; y2; y3; y4; m1; m2; d1; d2; h1; h2; i1; i2; c1; c2]
         && jeqb [s1; s2; s3; s4; s5; s6] #"--T::Z"
      then Some (digits_number [y1; y2; y3; y4], digits_number [m1; m2], digits_number [d1; d2],
                 digits_number [h1; h2], digits_number [i1; i2], digits_number [c1; c2])
      else None
  | _ => None
  end.

(** The text of an instant. *)
Definition canonical_utc (ms : Z) : jstring :=
  utc_text (getUTCFullYear ms) (getUTCMonth ms + 1) (getUTCDate ms) (getUTCHours ms) (getUTCMinutes ms)
           (getUTCSeconds ms).

(** The milliseconds of a canonical instant. *)
Definition utc_milliseconds (text : jstring) : option Z :=
  '(year, month, day, hour, minute, second) ← RFC3339_UTC text;
  if (23 <? hour) || (59 <? minute) || (59 <? second) then None
  else
    let ms := Date_UTC year (month - 1) day hour minute second in
    if jeqb (canonical_utc ms) text then Some ms else None.

Example epoch : utc_milliseconds #"1970-01-01T00:00:00Z" = Some 0.
Proof. vm_compute. reflexivity. Qed.
Example leap_second_day : utc_milliseconds #"2024-02-29T12:34:56Z" = Some 1709210096000.
Proof. vm_compute. reflexivity. Qed.
Example no_leap_day : utc_milliseconds #"2100-02-29T00:00:00Z" = None.
Proof. vm_compute. reflexivity. Qed.
(** Years before 100 are read as years of the twentieth century. *)
Example early_year : utc_milliseconds #"0099-01-01T00:00:00Z" = None.
Proof. vm_compute. reflexivity. Qed.

(** ** The calendar is consistent *)

Ltac Zify.zify_post_hook ::= Z.to_euclidean_division_equations.

Lemma year_length y : day_from_year (y + 1) = day_from_year y + 365 + leap_day (is_leap y).
Proof.
  unfold day_from_year, is_leap, leap_day.
  destruct (Z.eqb_spec (y mod 4) 0), (Z.eqb_spec (y mod 100) 0), (Z.eqb_spec (y mod 400) 0); cbn; lia.
Qed.

Lemma year_from_day_spec day : day_from_year (year_from_day day) <= day < day_from_year (year_from_day day + 1).
Proof.
  unfold year_from_day. set (y := 1970 + (400 * day) / 146097).
  assert (Hlo : day_from_year (y - 1) <= day) by (unfold day_from_year, y; lia).
  assert (Hhi : day < day_from_year (y + 2)) by (unfold day_from_year, y; lia).
  clearbody y. destruct (Z.ltb_spec day (day_from_year y)).
  - replace (y - 1 + 1) with y by lia. lia.
  - destruct (Z.leb_spec (day_from_year (y + 1)) day); [|lia]. replace (y + 1 + 1) with (y + 2) by lia. lia.
Qed.

Lemma day_from_year_mono y z : y <= z -> day_from_year y <= day_from_year z.
Proof. unfold day_from_year. lia. Qed.

Lemma year_from_day_unique day y : day_from_year y <= day < day_from_year (y + 1) -> year_from_day day = y.
Proof.
  intros Hy. pose proof (year_from_day_spec day) as Hs. set (z := year_from_day day) in *. clearbody z.
  destruct (Z.lt_trichotomy y z) as [Hlt|[->|Hgt]]; [|done|].
  - pose proof (day_from_year_mono (y + 1) z ltac:(lia)). lia.
  - pose proof (day_from_year_mono (z + 1) y ltac:(lia)). lia.
Qed.

(** The days of a month. *)
Definition month_days (leap : bool) (m : Z) : Z := month_start leap (m + 1) - month_start leap m.

Lemma month_days_bound leap m : 0 <= m <= 11 -> 28 <= month_days leap m <= 31.
Proof.
  intros Hm. unfold month_days.
  assert (m = 0 \/ m = 1 \/ m = 2 \/ m = 3 \/ m = 4 \/ m = 5 \/ m = 6 \/ m = 7 \/ m = 8 \/ m = 9 \/ m = 10 \/ m = 11) as Hc by lia.
  destruct leap; repeat destruct Hc as [->|Hc]; subst; vm_compute; split; congruence.
Qed.

(** Evaluates the first days of months given by a numeral. *)
Ltac compute_starts :=
  repeat match goal with
  | |- context [month_start ?l ?m] =>
      let v := eval vm_compute in (month_start l m) in change (month_start l m) with v
  end.

Lemma month_from_day_spec leap k : 0 <= k < 365 + leap_day leap ->
  0 <= month_from_day leap k <= 11
  /\ month_start leap (month_from_day leap k) <= k < month_start leap (month_from_day leap k + 1).
Proof.
  intros Hk. unfold month_from_day. destruct leap; cbn [leap_day] in *;
    repeat case_match; rewrite ?Z.ltb_lt, ?Z.ltb_ge in *; compute_starts; lia.
Qed.

Lemma month_start_mono leap m n : 0 <= m -> m <= n -> n <= 12 -> month_start leap m <= month_start leap n.
Proof.
  intros H0 Hmn Hn.
  assert (forall m, 0 <= m <= 11 -> month_start leap m <= month_start leap (m + 1)) as Hstep.
  { intros k Hk. pose proof (month_days_bound leap k Hk). unfold month_days in *. lia. }
  enough (forall d, 0 <= d -> m + d <= 12 -> month_start leap m <= month_start leap (m + d)) as Hd
    by (specialize (Hd (n - m) ltac:(lia)); replace (m + (n - m)) with n in Hd by lia; lia).
  intros d Hd. revert d Hd. apply (natlike_ind (fun d => m + d <= 12 -> month_start leap m <= month_start leap (m + d))).
  - intros _. rewrite Z.add_0_r. lia.
  - intros d Hd IH Hle. specialize (Hstep (m + d) ltac:(lia)). replace (m + Z.succ d) with (m + d + 1) by lia. lia.
Qed.

Lemma month_from_day_unique leap m k : 0 <= m <= 11 -> 0 <= k < 365 + leap_day leap ->
  month_start leap m <= k < month_start leap (m + 1) -> month_from_day leap k = m.
Proof.
  intros Hm Hk Hin. destruct (month_from_day_spec leap k Hk) as [Hb Hs]. set (n := month_from_day leap k) in *. clearbody n.
  destruct (Z.lt_trichotomy m n) as [Hlt|[->|Hgt]]; [|done|].
  - pose proof (month_start_mono leap (m + 1) n ltac:(lia) ltac:(lia) ltac:(lia)). lia.
  - pose proof (month_start_mono leap (n + 1) m ltac:(lia) ltac:(lia) ltac:(lia)). lia.
Qed.

(** ** Instants *)

Lemma getUTCFullYear_spec ms : day_from_year (getUTCFullYear ms) <= day_of ms < day_from_year (getUTCFullYear ms + 1).
Proof. apply year_from_day_spec. Qed.

(** The fields of a date and a time that exist. *)
Definition real_instant (year month day hour minute second : Z) : Prop :=
  100 <= year <= 9999 /\ 1 <= month <= 12 /\ 1 <= day <= month_days (is_leap year) (month - 1)
  /\ 0 <= hour <= 23 /\ 0 <= minute <= 59 /\ 0 <= second <= 59.

Lemma Date_UTC_day year month date hour minute second :
  100 <= year -> 0 <= month <= 11 ->
  Date_UTC year month date hour minute second
  = (day_from_year year + month_start (is_leap year) month + date - 1) * 86400000
    + (hour * 3600000 + minute * 60000 + second * 1000).
Proof.
  intros Hy Hm. unfold Date_UTC, make_day. assert (Hq : (year <=? 99) = false) by (apply Z.leb_gt; lia).
  rewrite Hq, andb_false_r, (Z.div_small month), Z.add_0_r, (Z.mod_small month) by lia. lia.
Qed.

Lemma getters_spec year month day hour minute second :
  real_instant year month day hour minute second ->
  let ms := Date_UTC year (month - 1) day hour minute second in
  getUTCFullYear ms = year /\ getUTCMonth ms = month - 1 /\ getUTCDate ms = day
  /\ getUTCHours ms = hour /\ getUTCMinutes ms = minute /\ getUTCSeconds ms = second.
Proof.
  intros (Hy & Hm & Hd & Hh & Hi & Hs). rewrite Date_UTC_day by lia. cbn zeta.
  set (time := hour * 3600000 + minute * 60000 + second * 1000).
  set (dy := month_start (is_leap year) (month - 1) + day - 1).
  replace (day_from_year year + month_start (is_leap year) (month - 1) + day - 1) with (day_from_year year + dy)
    by (unfold dy; lia).
  assert (Hdy : 0 <= dy < 365 + leap_day (is_leap year)
                /\ month_start (is_leap year) (month - 1) <= dy < month_start (is_leap year) (month - 1 + 1)).
  { unfold dy, month_days in *. pose proof (month_start_mono (is_leap year) 0 (month - 1) ltac:(lia) ltac:(lia) ltac:(lia)).
    pose proof (month_start_mono (is_leap year) (month - 1 + 1) 12 ltac:(lia) ltac:(lia) ltac:(lia)).
    change (month_start (is_leap year) 0) with 0 in *.
    assert (month_start (is_leap year) 12 = 365 + leap_day (is_leap year)) by (by destruct (is_leap year)). lia. }
  assert (Hday : day_of ((day_from_year year + dy) * 86400000 + time) = day_from_year year + dy)
    by (unfold day_of, time; lia).
  assert (Hyear : getUTCFullYear ((day_from_year year + dy) * 86400000 + time) = year).
  { unfold getUTCFullYear. rewrite Hday. apply year_from_day_unique. rewrite year_length. lia. }
  assert (Hin : day_in_year ((day_from_year year + dy) * 86400000 + time) = dy)
    by (unfold day_in_year; rewrite Hday, Hyear; lia).
  assert (Hmonth : getUTCMonth ((day_from_year year + dy) * 86400000 + time) = month - 1).
  { unfold getUTCMonth. rewrite Hyear, Hin. apply month_from_day_unique; [lia|tauto|tauto]. }
  split_and!; [done|done| | | |].
  - unfold getUTCDate. rewrite Hyear, Hmonth, Hin. unfold dy. lia.
  - clear -Hh Hi Hs. unfold getUTCHours, time. lia.
  - clear -Hh Hi Hs. unfold getUTCMinutes, time. lia.
  - clear -Hh Hi Hs. unfold getUTCSeconds, time. lia.
Qed.

(** The getters of any time give a date that exists, of the same second. *)
Lemma getters_real ms : 100 <= getUTCFullYear ms <= 9999 -> ms mod 1000 = 0 ->
  real_instant (getUTCFullYear ms) (getUTCMonth ms + 1) (getUTCDate ms) (getUTCHours ms) (getUTCMinutes ms) (getUTCSeconds ms)
  /\ Date_UTC (getUTCFullYear ms) (getUTCMonth ms) (getUTCDate ms) (getUTCHours ms) (getUTCMinutes ms) (getUTCSeconds ms) = ms.
Proof.
  intros Hy Hms. pose proof (getUTCFullYear_spec ms) as Hd.
  assert (Hk : 0 <= day_in_year ms < 365 + leap_day (is_leap (getUTCFullYear ms))).
  { unfold day_in_year. rewrite year_length in Hd. lia. }
  destruct (month_from_day_spec _ _ Hk) as [Hm Hs]. fold (getUTCMonth ms) in Hm, Hs.
  assert (Ht : 0 <= getUTCHours ms <= 23 /\ 0 <= getUTCMinutes ms <= 59 /\ 0 <= getUTCSeconds ms <= 59
               /\ getUTCHours ms * 3600000 + getUTCMinutes ms * 60000 + getUTCSeconds ms * 1000 = ms - day_of ms * 86400000).
  { clear -Hms. unfold getUTCHours, getUTCMinutes, getUTCSeconds, day_of. lia. }
  split.
  - unfold real_instant, month_days, getUTCDate. replace (getUTCMonth ms + 1 - 1) with (getUTCMonth ms) by lia. lia.
  - rewrite Date_UTC_day by lia. unfold getUTCDate. unfold day_in_year in *. lia.
Qed.

(** ** Texts of instants *)

(** The decimal digits of a number below 100 and below 10000. *)
Definition two_digits (n : Z) : jstring := [Z.to_N (48 + n / 10); Z.to_N (48 + n mod 10)].
Definition four_digits (n : Z) : jstring :=
  [Z.to_N (48 + n / 1000); Z.to_N (48 + n / 100 mod 10); Z.to_N (48 + n / 10 mod 10); Z.to_N (48 + n mod 10)].

Lemma digits_fuel_length fuel n acc k : (n < 10 ^ N.of_nat k)%N -> (1 <= k)%nat ->
  (length (digits_fuel fuel n acc) <= k + length acc)%nat.
Proof.
  revert n acc k. induction fuel as [|f IH]; intros n acc k Hn Hk; cbn [digits_fuel]; [lia|].
  destruct (N.eqb_spec (n / 10) 0) as [E|E]; [cbn [length]; lia|].
  destruct k as [|[|k]]; [lia|exfalso; apply E, N.div_small; exact Hn|].
  specialize (IH (n / 10)%N ((48 + n mod 10)%N :: acc) (S k)). cbn [length] in IH.
  enough (n / 10 < 10 ^ N.of_nat (S k))%N by lia.
  apply N.Div0.div_lt_upper_bound. rewrite Nat2N.inj_succ, N.pow_succ_r' in Hn. exact Hn.
Qed.

Lemma digits_value_zeros m s : digits_value 0 (replicate m 48%N ++ s) = digits_value 0 s.
Proof. induction m as [|m IH]; [done|]. cbn [replicate app]. by rewrite digits_value_cons. Qed.

(** The padded numeral is the digits of the width and the number. *)
Lemma padded_unique width n ds : (1 <= width)%nat -> 0 <= n < 10 ^ Z.of_nat width ->
  length ds = width -> forallb decimal_digit ds = true -> digits_value 0 ds = Z.to_N n -> padded width n = ds.
Proof.
  intros Hw Hn Hl Hd Hv. unfold padded, padStart.
  assert (Hs : String_of_Z n = String_of_N (Z.to_N n)) by (by destruct n as [|p|p]; [|done|lia]). rewrite Hs.
  assert (Hlen : (length (String_of_N (Z.to_N n)) <= width)%nat).
  { pose proof (digits_fuel_length (S (N.to_nat (N.size (Z.to_N n)))) (Z.to_N n) [] width) as H. cbn [length] in H.
    unfold String_of_N. enough (Z.to_N n < 10 ^ N.of_nat width)%N by lia.
    apply N2Z.inj_lt. rewrite N2Z.inj_pow, nat_N_Z, Z2N.id by lia. lia. }
  apply digits_inj.
  - rewrite length_app, length_replicate. lia.
  - rewrite forallb_app, andb_true_iff. split.
    + apply forallb_elem. by intros x [-> _]%elem_of_replicate.
    + apply forallb_elem. intros x Hx. apply digit_range. pose proof (String_of_N_digits (Z.to_N n)) as H.
      rewrite Forall_forall in H. by apply H.
  - done.
  - by rewrite digits_value_zeros, String_of_N_value.
Qed.

Lemma digit_unit k : 0 <= k <= 9 -> decimal_digit (Z.to_N (48 + k)) = true.
Proof. intros Hk. apply digit_range. lia. Qed.

Lemma padded_two n : 0 <= n < 100 -> padded 2 n = two_digits n.
Proof.
  intros Hn. apply padded_unique; [lia|lia|done| |].
  - unfold two_digits. cbn [forallb]. by rewrite !digit_unit by lia.
  - unfold two_digits. rewrite !digits_value_cons. unfold digits_value. cbn [fold_left]. lia.
Qed.

Lemma padded_four n : 0 <= n <= 9999 -> padded 4 n = four_digits n.
Proof.
  intros Hn. apply padded_unique; [lia|lia|done| |].
  - unfold four_digits. cbn [forallb]. by rewrite !digit_unit by lia.
  - unfold four_digits. rewrite !digits_value_cons. unfold digits_value. cbn [fold_left]. lia.
Qed.

Lemma digits_number_two a b : decimal_digit a = true -> decimal_digit b = true ->
  0 <= digits_number [a; b] < 100 /\ two_digits (digits_number [a; b]) = [a; b].
Proof.
  rewrite !digit_range. intros Ha Hb. unfold digits_number, two_digits. cbn [digits_value fold_left].
  split; [lia|]. f_equal; [|f_equal]; lia.
Qed.

Lemma digits_number_four a b c d :
  decimal_digit a = true -> decimal_digit b = true -> decimal_digit c = true -> decimal_digit d = true ->
  0 <= digits_number [a; b; c; d] <= 9999 /\ four_digits (digits_number [a; b; c; d]) = [a; b; c; d].
Proof.
  rewrite !digit_range. intros Ha Hb Hc Hd. unfold digits_number, four_digits. cbn [digits_value fold_left].
  split; [lia|]. f_equal; [|f_equal; [|f_equal; [|f_equal]]]; lia.
Qed.

Lemma two_digits_spec n : 0 <= n < 100 ->
  forallb decimal_digit (two_digits n) = true /\ digits_number (two_digits n) = n.
Proof.
  intros Hn. split.
  - cbn. rewrite !andb_true_iff, !digit_range. lia.
  - unfold digits_number, two_digits. cbn [digits_value fold_left]. lia.
Qed.

Lemma four_digits_spec n : 0 <= n <= 9999 ->
  forallb decimal_digit (four_digits n) = true /\ digits_number (four_digits n) = n.
Proof.
  intros Hn. split.
  - cbn. rewrite !andb_true_iff, !digit_range. lia.
  - unfold digits_number, four_digits. cbn [digits_value fold_left]. lia.
Qed.

(** The text with fields of two and four digits. *)
Definition fixed_text (y mo d h mi s : jstring) : jstring :=
  y ++ 45%N :: mo ++ 45%N :: d ++ 84%N :: h ++ 58%N :: mi ++ 58%N :: s ++ [90%N].

Lemma RFC3339_UTC_inv text year month day hour minute second :
  RFC3339_UTC text = Some (year, month, day, hour, minute, second) ->
  0 <= year <= 9999 /\ 0 <= month < 100 /\ 0 <= day < 100 /\ 0 <= hour < 100 /\ 0 <= minute < 100 /\ 0 <= second < 100
  /\ text = fixed_text (four_digits year) (two_digits month) (two_digits day) (two_digits hour) (two_digits minute)
                       (two_digits second).
Proof.
  intros H. unfold RFC3339_UTC in H. do 20 (destruct text as [|? text]; [discriminate H|]).
  destruct text; [|discriminate H]. destruct (forallb _ _) eqn:Hd; [|discriminate H]. cbn [andb] in H.
  destruct (jeqb _ _) eqn:Hs; [|discriminate H]. apply jeqb_eq in Hs.
  injection Hs as -> -> -> -> -> ->. injection H as <- <- <- <- <- <-.
  cbn [forallb] in Hd. rewrite !andb_true_iff in Hd. destruct_and!.
  repeat match goal with
  | |- context [digits_number [?a; ?b; ?c; ?d]] =>
      destruct (digits_number_four a b c d) as [? ->]; [assumption..|]; generalize dependent (digits_number [a; b; c; d]); intros
  | |- context [digits_number [?a; ?b]] =>
      destruct (digits_number_two a b) as [? ->]; [assumption..|]; generalize dependent (digits_number [a; b]); intros
  end.
  split_and!; try lia. reflexivity.
Qed.

Lemma RFC3339_UTC_text year month day hour minute second :
  0 <= year <= 9999 -> 0 <= month < 100 -> 0 <= day < 100 -> 0 <= hour < 100 -> 0 <= minute < 100 -> 0 <= second < 100 ->
  RFC3339_UTC (fixed_text (four_digits year) (two_digits month) (two_digits day) (two_digits hour) (two_digits minute)
                          (two_digits second)) = Some (year, month, day, hour, minute, second).
Proof.
  intros Hy Hmo Hd Hh Hmi Hs.
  destruct (four_digits_spec year Hy) as [Hy1 Hy2], (two_digits_spec month Hmo) as [Hmo1 Hmo2],
    (two_digits_spec day Hd) as [Hd1 Hd2], (two_digits_spec hour Hh) as [Hh1 Hh2],
    (two_digits_spec minute Hmi) as [Hmi1 Hmi2], (two_digits_spec second Hs) as [Hs1 Hs2].
  unfold four_digits, two_digits, fixed_text in *. cbn [app js forallb] in *. rewrite !andb_true_iff in *. destruct_and!.
  unfold RFC3339_UTC. cbn [app forallb].
  repeat match goal with H : decimal_digit ?c = true |- context [decimal_digit ?c] => rewrite H end.
  cbn [andb]. rewrite (proj2 (jeqb_eq _ _)) by reflexivity. congruence.
Qed.

Lemma utc_text_fixed year month day hour minute second :
  0 <= year <= 9999 -> 0 <= month < 100 -> 0 <= day < 100 -> 0 <= hour < 100 -> 0 <= minute < 100 -> 0 <= second < 100 ->
  utc_text year month day hour minute second
  = fixed_text (four_digits year) (two_digits month) (two_digits day) (two_digits hour) (two_digits minute)
               (two_digits second).
Proof. intros. unfold utc_text. by rewrite padded_four, !padded_two by lia. Qed.

Lemma bounded_by_test (P : Z -> bool) (k : nat) n :
  forallb P (map Z.of_nat (seq 0 k)) = true -> 0 <= n < Z.of_nat k -> P n = true.
Proof.
  intros Hall Hn. rewrite forallb_elem in Hall. apply Hall. apply list_elem_of_fmap. exists (Z.to_nat n).
  split; [lia|]. apply elem_of_seq. lia.
Qed.

(** The years a text of 20 units can tell. *)
Lemma utc_text_long year month day hour minute second :
  10000 <= year <= 10100 -> RFC3339_UTC (utc_text year month day hour minute second) = None.
Proof.
  intros Hy. destruct (RFC3339_UTC _) as [[[[[[y mo] d] h] mi] s]|] eqn:H; [|done]. exfalso.
  apply RFC3339_UTC_inv in H as (_ & _ & _ & _ & _ & _ & Ht).
  assert (nth 4 (utc_text year month day hour minute second) 0%N = 45%N) as H4 by (by rewrite Ht).
  assert (forall r, nth 4 (padded 4 year ++ r) 0%N = nth 4 (padded 4 year) 0%N /\ decimal_digit (nth 4 (padded 4 year) 0%N) = true) as Hp.
  { enough (length (padded 4 year) = 5%nat /\ decimal_digit (nth 4 (padded 4 year) 0%N) = true) as [Hl Hd].
    { intros r. split; [|done]. apply app_nth1. lia. }
    pose proof (bounded_by_test (fun k => (length (padded 4 (10000 + k)) =? 5)%nat
      && decimal_digit (nth 4 (padded 4 (10000 + k)) 0%N)) 101 (year - 10000) ltac:(vm_compute; reflexivity) ltac:(lia)) as Hb.
    cbv beta in Hb. replace (10000 + (year - 10000)) with year in Hb by lia.
    apply andb_true_iff in Hb as [Hb%Nat.eqb_eq ?]. done. }
  unfold utc_text in H4. destruct (Hp (#"-" ++ padded 2 month ++ #"-" ++ padded 2 day ++ #"T" ++
    padded 2 hour ++ #":" ++ padded 2 minute ++ #":" ++ padded 2 second ++ #"Z")) as [E Hd].
  rewrite E in H4. rewrite H4 in Hd. done.
Qed.

Lemma leap_day_bound leap : 0 <= leap_day leap <= 1.
Proof. destruct leap; cbn; lia. Qed.

(** The year of a time given by fields of two and four digits. *)
Lemma Date_UTC_year year month day hour minute second :
  0 <= year <= 9999 -> 0 <= month < 100 -> 0 <= day < 100 -> 0 <= hour <= 23 -> 0 <= minute <= 59 -> 0 <= second <= 59 ->
  let ms := Date_UTC year (month - 1) day hour minute second in
  0 <= getUTCFullYear ms <= 10100 /\ (year < 100 -> getUTCFullYear ms <> year).
Proof.
  intros Hy Hmo Hd Hh Hi Hs ms.
  set (full := if (0 <=? year) && (year <=? 99) then 1900 + year else year).
  set (ym := full + (month - 1) / 12). set (m := (month - 1) mod 12).
  assert (Hfull : (year < 100 /\ full = 1900 + year) \/ (100 <= year /\ full = year))
    by (unfold full; destruct (Z.leb_spec 0 year), (Z.leb_spec year 99); cbn; lia).
  assert (Hym : full - 1 <= ym <= full + 8) by (unfold ym; lia).
  assert (Hday : day_of ms = day_from_year ym + month_start (is_leap ym) m + day - 1)
    by (unfold day_of, ms, Date_UTC, make_day; fold full; fold ym; fold m; lia).
  assert (Hm : 0 <= m <= 11) by (unfold m; lia).
  pose proof (month_start_mono (is_leap ym) 0 m ltac:(lia) ltac:(lia) ltac:(lia)).
  pose proof (month_start_mono (is_leap ym) m 12 ltac:(lia) ltac:(lia) ltac:(lia)).
  assert (month_start (is_leap ym) 12 <= 366) by (by destruct (is_leap ym)).
  change (month_start (is_leap ym) 0) with 0 in *. clearbody full ym m.
  pose proof (getUTCFullYear_spec ms) as Hs'.
  set (z := getUTCFullYear ms) in *. rewrite Hday in Hs'. clearbody z. clear Hday ms.
  assert (ym - 1 <= z <= ym + 2).
  { pose proof (year_length (ym - 1)) as L1. replace (ym - 1 + 1) with ym in L1 by lia.
    pose proof (year_length ym) as L2. pose proof (year_length (ym + 1)) as L3.
    replace (ym + 1 + 1) with (ym + 2) in L3 by lia.
    pose proof (leap_day_bound (is_leap (ym - 1))). pose proof (leap_day_bound (is_leap ym)).
    pose proof (leap_day_bound (is_leap (ym + 1))).
    destruct (Z.lt_ge_cases z (ym - 1)); [pose proof (day_from_year_mono (z + 1) (ym - 1) ltac:(lia)); lia|].
    destruct (Z.lt_ge_cases (ym + 2) z); [pose proof (day_from_year_mono (ym + 3) z ltac:(lia));
      pose proof (day_from_year_mono (ym + 2) (ym + 3) ltac:(lia)); lia|]. lia. }
  lia.
Qed.

Lemma getters_range ms : ms mod 1000 = 0 ->
  0 <= getUTCMonth ms <= 11 /\ 0 <= getUTCDate ms < 100 /\ 0 <= getUTCHours ms <= 23
  /\ 0 <= getUTCMinutes ms <= 59 /\ 0 <= getUTCSeconds ms <= 59.
Proof.
  intros Hms. pose proof (getUTCFullYear_spec ms) as Hd.
  assert (Hk : 0 <= day_in_year ms < 365 + leap_day (is_leap (getUTCFullYear ms))).
  { unfold day_in_year. rewrite year_length in Hd. lia. }
  destruct (month_from_day_spec _ _ Hk) as [Hm Hs]. fold (getUTCMonth ms) in Hm, Hs.
  pose proof (month_days_bound (is_leap (getUTCFullYear ms)) _ Hm) as Hdays. unfold month_days in Hdays.
  split; [done|]. split; [unfold getUTCDate; lia|]. clear. unfold getUTCHours, getUTCMinutes, getUTCSeconds. lia.
Qed.

Lemma Date_UTC_seconds y mo d h mi s : Date_UTC y mo d h mi s mod 1000 = 0.
Proof. unfold Date_UTC. lia. Qed.

(** A canonical text has the fields of its time. *)
Lemma canonical_fields t text year month day hour minute second :
  t mod 1000 = 0 -> 0 <= getUTCFullYear t <= 10100 -> (year < 100 -> getUTCFullYear t <> year) ->
  RFC3339_UTC text = Some (year, month, day, hour, minute, second) -> canonical_utc t = text ->
  exists y mo d h mi s, real_instant y mo d h mi s /\ text = utc_text y mo d h mi s /\ t = Date_UTC y (mo - 1) d h mi s.
Proof.
  intros Ht Hbound Hsame Hr Hc. unfold canonical_utc in Hc.
  assert (Hyear : getUTCFullYear t <= 9999).
  { destruct (Z.le_gt_cases (getUTCFullYear t) 9999) as [?|Hgt]; [done|]. exfalso.
    rewrite <- Hc, utc_text_long in Hr by lia. done. }
  assert (Hyy : getUTCFullYear t = year).
  { destruct (getters_range t Ht) as (Hm' & Hd' & Hh' & Hi' & Hs').
    rewrite <- Hc, utc_text_fixed, RFC3339_UTC_text in Hr by lia. congruence. }
  destruct (getters_real t) as [Hreal Hback]; [lia|done|].
  do 6 eexists. split; [exact Hreal|]. split; [by rewrite <- Hc|].
  rewrite Z.add_simpl_r. by rewrite Hback.
Qed.

(** The text is read back as the time exactly when it is the canonical text of a
    date and a time that exist, from the year 100 on. *)
Lemma utc_milliseconds_spec text ms :
  utc_milliseconds text = Some ms <->
  exists year month day hour minute second,
    real_instant year month day hour minute second
    /\ text = utc_text year month day hour minute second
    /\ ms = Date_UTC year (month - 1) day hour minute second.
Proof.
  unfold utc_milliseconds. split.
  - destruct (RFC3339_UTC text) as [[[[[[y mo] d] h] mi] s]|] eqn:Hr; [|done]. cbn [mbind option_bind].
    destruct (_ || _ || _) eqn:Hb; [done|]. destruct (jeqb _ _) eqn:Hc; [|done]. intros [= <-].
    apply jeqb_eq in Hc. apply orb_false_iff in Hb as [[H1%Z.ltb_ge H2%Z.ltb_ge]%orb_false_iff H3%Z.ltb_ge].
    pose proof (RFC3339_UTC_inv _ _ _ _ _ _ _ Hr) as (Hy & Hmo & Hd & Hh & Hmi & Hs & _).
    destruct (Date_UTC_year y mo d h mi s) as [Hbound Hsame]; [lia..|].
    refine (canonical_fields _ _ _ _ _ _ _ _ _ Hbound Hsame Hr Hc). apply Date_UTC_seconds.
  - intros (y & mo & d & h & mi & s & Hreal & -> & ->).
    destruct (getters_spec _ _ _ _ _ _ Hreal) as (E1 & E2 & E3 & E4 & E5 & E6).
    destruct Hreal as (Hy & Hmo & Hd & Hh & Hmi & Hs).
    pose proof (month_days_bound (is_leap y) (mo - 1) ltac:(lia)) as Hdays.
    rewrite utc_text_fixed, RFC3339_UTC_text by lia. cbn [mbind option_bind].
    rewrite (proj2 (Z.ltb_ge 23 h)), (proj2 (Z.ltb_ge 59 mi)), (proj2 (Z.ltb_ge 59 s)) by lia. cbn [orb].
    unfold canonical_utc. rewrite E1, E2, E3, E4, E5, E6, Z.sub_add, utc_text_fixed, jeqb_refl by lia. done.
Qed.
