(* ===== verification/TufText.v ===== *)
(** The texts of the trust metadata (packages/standards/src/tuf-trust.ts): the
    error codes and limits, bounded strings, digests and signatures, target
    paths, canonical instants and SemVer versions with their precedence. *)
From S2P Require Import Prelude JsString Unicode Identifiers UtcTime.

Inductive TufTrustErrorCode :=
| channel_mismatch
| expired_metadata
| hash_mismatch
| incompatible_engine
| invalid_input
| invalid_metadata
| invalid_policy
| invalid_signature
| length_mismatch
| mix_and_match
| replay
| resource_limit
| rollback
| root_continuity
| target_not_found
| unsupported_version
| wrong_role.

(** [asFailure]: a call fails with the code of its [TrustFailure]; any other
    exception is reported as [invalid_metadata]. *)
Abbreviation trusted := (res TufTrustErrorCode).

Definition TUF_TRUST_CONTRACT_VERSION : jstring := #"0.1.0".
Definition TUF_SPECIFICATION_VERSION : jstring := #"1.0.35".
Definition TUF_REPOSITORY_ID : jstring := #"agent-context-standards".
Definition TUF_STABLE_ROLE : jstring := #"standards-stable".
Definition TUF_PREVIEW_ROLE : jstring := #"standards-preview".
Definition TUF_SUPPORTED_KEY_TYPE : jstring := #"ed25519".
Definition TUF_SUPPORTED_KEY_SCHEME : jstring := #"ed25519".
Definition KNOWLEDGE_PACK_CONTRACT_VERSION : jstring := #"0.1.0".
Definition MAX_TUF_METADATA_BYTES : N := 524288.
Definition MAX_TUF_ROOT_CHAIN : N := 32.
Definition MAX_TUF_JSON_DEPTH : nat := 64.
Definition MAX_TUF_JSON_VALUES : N := 50000.
Definition MAX_TUF_TARGET_BYTES : N := 4194304.
Definition MAX_TUF_PACK_ID_BYTES : N := 256.
Definition MAX_TUF_SEMVER_BYTES : N := 256.
Definition MAX_TUF_TARGET_PATH_BYTES : N := 1024.
Definition TUF_CLOCK_SKEW_MS : Z := 300000.

Inductive TufMetadataRole := root_role | snapshot_role | targets_role | timestamp_role.
Inductive TufChannel := preview | stable.

#[export] Instance TufChannel_eq_dec : EqDecision TufChannel.
Proof. solve_decision. Defined.

Definition role_name (role : TufMetadataRole) : jstring :=
  match role with
  | root_role => #"root" | snapshot_role => #"snapshot" | targets_role => #"targets" | timestamp_role => #"timestamp"
  end.

Definition channel_name (channel : TufChannel) : jstring :=
  match channel with preview => #"preview" | stable => #"stable" end.

Definition ROLE_EXPIRY_LIMIT_MS (role : TufMetadataRole) : Z :=
  match role with
  | root_role => 366 * 24 * 60 * 60 * 1000
  | snapshot_role => 8 * 24 * 60 * 60 * 1000
  | targets_role => 93 * 24 * 60 * 60 * 1000
  | timestamp_role => 25 * 60 * 60 * 1000
  end.

Definition CHANNEL_ROLE (channel : TufChannel) : jstring :=
  match channel with preview => TUF_PREVIEW_ROLE | stable => TUF_STABLE_ROLE end.

Definition CHANNEL_PATH (channel : TufChannel) : jstring :=
  match channel with preview => #"knowledge/preview/*" | stable => #"knowledge/stable/*" end.

(** [`knowledge/${channel}/`] *)
Definition channel_prefix (channel : TufChannel) : jstring := #"knowledge/" ++ channel_name channel ++ #"/".

(** [/^[a-f0-9]{128}$/.test(s)] *)
Definition SIGNATURE (s : jstring) : bool := (N.of_nat (length s) =? 128)%N && forallb is_lower_hex s.

(** Runs of [[A-Za-z0-9]+] joined by single separators. *)
Fixpoint separated_runs (is_separator : N -> bool) (after_alnum : bool) (s : jstring) : bool :=
  match s with
  | [] => after_alnum
  | c :: r =>
      if is_alnum c then separated_runs is_separator true r
      else is_separator c && after_alnum && separated_runs is_separator false r
  end.

(** The classes [[._-]] and [[._/-]] *)
Definition path_separator (c : N) : bool := (c =? 46)%N || (c =? 95)%N || (c =? 45)%N.
Definition pack_separator (c : N) : bool := path_separator c || (c =? 47)%N.

Definition PACK_ID (s : jstring) : bool := separated_runs pack_separator false s.

(** [/^[A-Za-z0-9]+(?:[._-][A-Za-z0-9]+)*\.json$/] *)
Definition json_file_name (s : jstring) : bool :=
  let stem := length s - 5 in
  jeqb (drop stem s) #".json" && separated_runs path_separator false (take stem s).

(** [TARGET_PATH.test(s)] *)
Definition TARGET_PATH (s : jstring) : bool :=
  existsb (fun channel => startsWith s (channel_prefix channel)
                          && json_file_name (drop (length (channel_prefix channel)) s)) [preview; stable].

(** [value] is [None] when it is not a string. *)
Definition boundedString (value : option jstring) (maximumBytes : N) (invalidCode : TufTrustErrorCode)
  : trusted jstring :=
  match value with
  | None => Err invalidCode
  | Some text =>
      _ ← ensure (N.of_nat (length text) <=? maximumBytes)%N resource_limit;
      _ ← ensure (textBytes text <=? maximumBytes)%N resource_limit;
      Ok text
  end.

(** The instant a value denotes; only [ms], the text is the value. *)
Definition parseUtc (value : option jstring) : trusted Z :=
  match value with
  | Some text => match utc_milliseconds text with Some ms => Ok ms | None => Err invalid_metadata end
  | None => Err invalid_metadata
  end.

(** ** Versions *)

(** [0|[1-9]\d*] *)
Definition numeric_identifier (s : jstring) : bool :=
  forallb decimal_digit s && match s with [] => false | c :: r => negb (c =? 48)%N || bool_decide (r = []) end.

(** [[0-9A-Za-z-]] *)
Definition version_unit (c : N) : bool := is_alnum c || (c =? 45)%N.

(** [0|[1-9]\d*|\d*[A-Za-z-][0-9A-Za-z-]*] *)
Definition pre_identifier (s : jstring) : bool :=
  numeric_identifier s || forallb version_unit s && existsb (fun c => negb (decimal_digit c)) s.

(** [[0-9A-Za-z-]+] *)
Definition build_identifier (s : jstring) : bool := negb (jeqb s []) && forallb version_unit s.

(** What precedes the first [c], and what follows it. *)
Fixpoint cut (c : N) (s : jstring) : jstring * option jstring :=
  match s with
  | [] => ([], None)
  | x :: r => if (x =? c)%N then ([], Some r) else let '(a, b) := cut c r in (x :: a, b)
  end.

Record ParsedSemver := { core : jstring * jstring * jstring; pre : list jstring }.

(** Identifiers joined by dots. *)
Definition dotted (identifier : jstring -> bool) (s : jstring) : bool := forallb identifier (split_on 46 s).

(** [SEMVER.exec(value)], with the fourth group split at its dots: no identifier
    holds a plus or, in the core, a hyphen, so the first of each separates. *)
Definition SEMVER (value : jstring) : option ParsedSemver :=
  let '(front, build) := cut 43 value in
  let '(numbers, prerelease) := cut 45 front in
  if match build with Some b => dotted build_identifier b | None => true end
     && match prerelease with Some p => dotted pre_identifier p | None => true end
  then match split_on 46 numbers with
       | [major; minor; patch] =>
           if forallb numeric_identifier [major; minor; patch]
           then Some {| core := (major, minor, patch);
                        pre := match prerelease with Some p => split_on 46 p | None => [] end |}
           else None
       | _ => None
       end
  else None.

Definition parseSemver (value : jstring) (invalidCode : TufTrustErrorCode) : trusted ParsedSemver :=
  _ ← boundedString (Some value) MAX_TUF_SEMVER_BYTES invalidCode;
  match SEMVER value with Some v => Ok v | None => Err invalidCode end.

Definition compareNumericIdentifier (left right : jstring) : Z :=
  if negb (length left =? length right)%nat then (if (length left <? length right)%nat then -1 else 1)
  else if jeqb left right then 0 else if jltb left right then -1 else 1.

(** [/^\d+$/.test(s)] *)
Definition all_digits (s : jstring) : bool := negb (jeqb s []) && forallb decimal_digit s.

(** The loop over the prerelease identifiers. *)
Fixpoint comparePrerelease (a b : list jstring) : Z :=
  match a, b with
  | [], [] => 0
  | [], _ => -1
  | _, [] => 1
  | x :: a', y :: b' =>
      if jeqb x y then comparePrerelease a' b'
      else
        let xn := all_digits x in
        let yn := all_digits y in
        if xn && yn then compareNumericIdentifier x y
        else if negb (Bool.eqb xn yn) then (if xn then -1 else 1)
        else if jltb x y then -1 else 1
  end.

Definition comparePrecedence (a b : ParsedSemver) : Z :=
  let '(a1, a2, a3) := core a in
  let '(b1, b2, b3) := core b in
  let c1 := compareNumericIdentifier a1 b1 in
  if negb (c1 =? 0)%Z then c1 else
  let c2 := compareNumericIdentifier a2 b2 in
  if negb (c2 =? 0)%Z then c2 else
  let c3 := compareNumericIdentifier a3 b3 in
  if negb (c3 =? 0)%Z then c3 else
  match pre a, pre b with
  | [], [] => 0
  | [], _ => 1
  | _, [] => -1
  | p, q => comparePrerelease p q
  end.

Definition compareSemver (left right : jstring) : trusted Z :=
  a ← parseSemver left invalid_input;
  b ← parseSemver right invalid_metadata;
  Ok (comparePrecedence a b).

Example semver_examples :
  map SEMVER [ #"1.0.0-rc.1+build.7"; #"01.0.0"; #"1.0"; #"1.0.0-01"; #"1.0.0-0a.-"; #"1.0.0+"; #"1.0.0+a+b"]
  = [Some {| core := (#"1", #"0", #"0"); pre := [ #"rc"; #"1"] |}; None; None; None;
     Some {| core := (#"1", #"0", #"0"); pre := [ #"0a"; #"-"] |}; None; None].
Proof. vm_compute. reflexivity. Qed.

Example target_path_examples :
  map TARGET_PATH [ #"knowledge/stable/a-1.json"; #"knowledge/stable/.json"; #"knowledge/beta/a.json";
                    #"knowledge/preview/a..json"; #"knowledge/stable/a/b.json"; #"knowledge/stable/a.jso"]
  = [true; false; false; false; false; false].
Proof. vm_compute. reflexivity. Qed.
