(* ===== verification/TufTextLaws.v ===== *)
(** SemVer: the versions accepted are those of its grammar, and their comparison
    is its precedence, a total preorder on numbers of any size. *)
From S2P Require Import Prelude JsString Unicode Identifiers UtcTime TufText.

(** ** Numerals compare as numbers *)

Definition sign (c : comparison) : Z := match c with Lt => -1 | Eq => 0 | Gt => 1 end.

Lemma digits_value_bound s a : forallb decimal_digit s = true ->
  (a * 10 ^ N.of_nat (length s) <= digits_value a s < (a + 1) * 10 ^ N.of_nat (length s))%N.
Proof.
  revert a. induction s as [|c s IH]; intros a Hs; [cbn; lia|]. cbn [forallb] in Hs.
  apply andb_true_iff in Hs as [Hc Hs]. apply digit_range in Hc. rewrite digits_value_cons.
  specialize (IH (a * 10 + (c - 48))%N Hs). cbn [length]. rewrite Nat2N.inj_succ, N.pow_succ_r'. nia.
Qed.

Lemma numeric_digits s : numeric_identifier s = true -> s <> [] /\ forallb decimal_digit s = true.
Proof. unfold numeric_identifier. intros [H ?]%andb_true_iff. by destruct s. Qed.

(** A numeral of more than one digit does not start with a zero. *)
Lemma numeric_bound s : numeric_identifier s = true -> 2 <= length s ->
  (10 ^ N.of_nat (length s - 1) <= digits_value 0 s)%N.
Proof.
  unfold numeric_identifier. intros [Hd Hz]%andb_true_iff Hl. destruct s as [|c s]; [done|]. cbn [forallb] in Hd.
  apply andb_true_iff in Hd as [Hc Hd]. apply digit_range in Hc.
  assert (c <> 48%N) by (intros ->; destruct s; [cbn in Hl; lia|done]).
  rewrite digits_value_cons. pose proof (digits_value_bound s (0 * 10 + (c - 48)) Hd) as Hb.
  replace (length (c :: s) - 1) with (length s) by (cbn; lia). nia.
Qed.

Lemma shorter_numeral l r : numeric_identifier l = true -> numeric_identifier r = true -> length l < length r ->
  (digits_value 0 l < digits_value 0 r)%N.
Proof.
  intros Hl Hr Hlen. destruct (numeric_digits l Hl) as [Hnl Hdl].
  assert (1 <= length l) by (destruct l; [done|cbn; lia]).
  pose proof (numeric_bound r Hr ltac:(lia)). pose proof (digits_value_bound l 0 Hdl) as Hb.
  assert (10 ^ N.of_nat (length l) <= 10 ^ N.of_nat (length r - 1))%N by (apply N.pow_le_mono_r; lia). lia.
Qed.

Lemma compareNumericIdentifier_value l r : numeric_identifier l = true -> numeric_identifier r = true ->
  compareNumericIdentifier l r = sign (digits_value 0 l ?= digits_value 0 r)%N.
Proof.
  intros Hl Hr. unfold compareNumericIdentifier. destruct (Nat.eqb_spec (length l) (length r)) as [He|Hne]; cbn [negb].
  - rewrite (digits_compare l r 0 0 He (proj2 (numeric_digits l Hl)) (proj2 (numeric_digits r Hr))). cbn [N.compare].
    unfold jeqb, jltb. destruct (jcompare l r) eqn:Hc.
    + apply jcompare_eq in Hc. by rewrite bool_decide_eq_true_2.
    + rewrite bool_decide_eq_false_2; [done|]. intros ->. by rewrite jcompare_refl in Hc.
    + rewrite bool_decide_eq_false_2; [done|]. intros ->. by rewrite jcompare_refl in Hc.
  - destruct (Nat.ltb_spec (length l) (length r)) as [Hlt|Hge].
    + by rewrite (proj2 (N.compare_lt_iff _ _)) by by apply shorter_numeral.
    + rewrite (proj2 (N.compare_gt_iff _ _)); [done|]. apply shorter_numeral; [done..|lia].
Qed.

(** ** Precedence, as the standard defines it *)

Inductive identifier := Numeric (n : N) | Alphanumeric (s : jstring).

Definition identifier_of (s : jstring) : identifier :=
  if all_digits s then Numeric (digits_value 0 s) else Alphanumeric s.

(** Numbers come before texts. *)
Definition compare_identifiers (a b : identifier) : comparison :=
  match a, b with
  | Numeric n, Numeric m => (n ?= m)%N
  | Numeric _, Alphanumeric _ => Lt
  | Alphanumeric _, Numeric _ => Gt
  | Alphanumeric s, Alphanumeric t => jcompare s t
  end.

(** [c], and [d] where [c] does not decide *)
Definition then_compare (c d : comparison) : comparison := match c with Eq => d | c => c end.

(** The first identifiers that differ decide; a list comes after its prefixes. *)
Fixpoint compare_releases (a b : list identifier) : comparison :=
  match a, b with
  | [], [] => Eq
  | [], _ => Lt
  | _, [] => Gt
  | x :: a, y :: b => then_compare (compare_identifiers x y) (compare_releases a b)
  end.

Record version := { numbers : N * N * N; release : list identifier }.

Definition compare_numbers (a b : N * N * N) : comparison :=
  let '(a1, a2, a3) := a in
  let '(b1, b2, b3) := b in
  then_compare (a1 ?= b1)%N (then_compare (a2 ?= b2)%N (a3 ?= b3)%N).

(** A version comes after its prereleases. *)
Definition compare_prereleases (a b : list identifier) : comparison :=
  match a, b with
  | [], [] => Eq
  | [], _ => Gt
  | _, [] => Lt
  | _, _ => compare_releases a b
  end.

Definition precedence (a b : version) : comparison :=
  then_compare (compare_numbers (numbers a) (numbers b)) (compare_prereleases (release a) (release b)).

Definition version_of (v : ParsedSemver) : version :=
  let '(major, minor, patch) := core v in
  {| numbers := (digits_value 0 major, digits_value 0 minor, digits_value 0 patch);
     release := map identifier_of (pre v) |}.

(** ** The grammar *)

Lemma version_cut_None c s a : cut c s = (a, None) -> a = s /\ c ∉ s.
Proof.
  revert a. induction s as [|x s IH]; intros a H; cbn in H; [injection H as <-; split; [done|set_solver]|].
  destruct (N.eqb_spec x c) as [->|Hne]; [done|]. destruct (cut c s) as [a' [b|]]; [done|]. injection H as <-.
  destruct (IH a' eq_refl) as [-> Hc]. split; [done|]. set_solver.
Qed.

Lemma version_cut_Some c s a b : cut c s = (a, Some b) -> s = a ++ c :: b /\ c ∉ a.
Proof.
  revert a. induction s as [|x s IH]; intros a H; cbn in H; [done|].
  destruct (N.eqb_spec x c) as [->|Hne]; [injection H as <- <-; split; [done|set_solver]|].
  destruct (cut c s) as [a' [b'|]]; [|done]. injection H as <- ->.
  destruct (IH a' eq_refl) as [-> Hc]. split; [done|]. set_solver.
Qed.

Lemma version_cut_none c s : c ∉ s -> cut c s = (s, None).
Proof.
  induction s as [|x s IH]; intros H; [done|]. cbn. destruct (N.eqb_spec x c) as [->|Hne]; [set_solver|].
  rewrite IH by set_solver. done.
Qed.

Lemma version_cut_some c a b : c ∉ a -> cut c (a ++ c :: b) = (a, Some b).
Proof.
  induction a as [|x a IH]; intros H; cbn; [by rewrite N.eqb_refl|].
  destruct (N.eqb_spec x c) as [->|Hne]; [set_solver|]. rewrite IH by set_solver. done.
Qed.

(** What a prerelease and a build add to the text. *)
Definition suffix (mark : N) (identifiers : list jstring) : jstring :=
  match identifiers with [] => [] | _ => mark :: join 46 identifiers end.

(** The texts of a version. *)
Definition version_text (v : ParsedSemver) (build : list jstring) : jstring :=
  let '(major, minor, patch) := core v in
  join 46 [major; minor; patch] ++ suffix 45 (pre v) ++ suffix 43 build.

Definition valid_version (v : ParsedSemver) : Prop :=
  let '(major, minor, patch) := core v in
  Forall (fun s => numeric_identifier s = true) [major; minor; patch]
  /\ Forall (fun s => pre_identifier s = true) (pre v).

Lemma numeric_units s c : numeric_identifier s = true -> c ∈ s -> (48 <= c <= 57)%N.
Proof.
  intros [_ Hd]%numeric_digits Hc. rewrite forallb_elem in Hd. by apply digit_range, Hd.
Qed.

Lemma pre_units s c : pre_identifier s = true -> c ∈ s -> version_unit c = true.
Proof.
  unfold pre_identifier. intros [H|[H _]%andb_true_iff]%orb_true_iff Hc.
  - apply numeric_units with (c := c) in H; [|done]. unfold version_unit, is_alnum.
    rewrite (proj2 (N.leb_le 48 c)), (proj2 (N.leb_le c 57)) by lia. done.
  - rewrite forallb_elem in H. auto.
Qed.

Lemma build_units s c : build_identifier s = true -> c ∈ s -> version_unit c = true.
Proof. unfold build_identifier. intros [_ H]%andb_true_iff Hc. rewrite forallb_elem in H. auto. Qed.

(** No unit [c] in a text joined by dots of identifiers without it. *)
Lemma join_free c l : c <> 46%N -> Forall (fun s => c ∉ s) l -> c ∉ join 46 l.
Proof. intros Hc Hl [?|(s & Hs & ?)]%elem_of_join; [done|]. rewrite Forall_forall in Hl. by apply (Hl s). Qed.

Lemma free_of {P : jstring -> bool} c l : (forall s, P s = true -> c ∉ s) -> Forall (fun s => P s = true) l ->
  Forall (fun s => c ∉ s) l.
Proof. intros H Hl. by eapply Forall_impl; [exact Hl|]. Qed.

Lemma numeric_free c s : (c < 48 \/ 57 < c)%N -> numeric_identifier s = true -> c ∉ s.
Proof. intros Hc Hs Hin. apply numeric_units with (c := c) in Hs; [lia|done]. Qed.

Lemma pre_free c s : version_unit c = false -> pre_identifier s = true -> c ∉ s.
Proof. intros Hc Hs Hin. apply pre_units with (c := c) in Hs; [congruence|done]. Qed.

Lemma build_free c s : version_unit c = false -> build_identifier s = true -> c ∉ s.
Proof. intros Hc Hs Hin. apply build_units with (c := c) in Hs; [congruence|done]. Qed.

Lemma dotted_Forall P s : dotted P s = true <-> Forall (fun i => P i = true) (split_on 46 s).
Proof. unfold dotted. rewrite forallb_elem, Forall_forall. done. Qed.

(** [suffix] of the identifiers of a text. *)
Lemma suffix_split mark s : suffix mark (split_on 46 s) = mark :: s.
Proof.
  unfold suffix. destruct (split_on 46 s) eqn:E; [by apply split_on_nonempty in E|]. by rewrite <- E, join_split_on.
Qed.

Lemma SEMVER_accepts s v : SEMVER s = Some v ->
  valid_version v /\ exists build, Forall (fun i => build_identifier i = true) build /\ s = version_text v build.
Proof.
  unfold SEMVER. destruct (cut 43 s) as [front build] eqn:Hb. destruct (cut 45 front) as [numbers prerelease] eqn:Hp.
  destruct (_ && _) eqn:Hok; [|done]. apply andb_true_iff in Hok as [Hbuild Hpre].
  destruct (split_on 46 numbers) as [|major [|minor [|patch [|? ?]]]] eqn:Hn; try done.
  destruct (forallb _ _) eqn:Hcore; [|done]. intros [= <-].
  assert (numbers = join 46 [major; minor; patch]) as -> by by rewrite <- Hn, join_split_on.
  assert (front = join 46 [major; minor; patch] ++ suffix 45 (match prerelease with Some p => split_on 46 p | None => [] end)) as ->.
  { destruct prerelease as [p|]; [apply version_cut_Some in Hp as [-> _]; by rewrite suffix_split|].
    apply version_cut_None in Hp as [-> _]. by rewrite app_nil_r. }
  split.
  - split; cbn [pre]; [by apply Forall_forall; rewrite forallb_elem in Hcore|].
    destruct prerelease as [p|]; [by apply dotted_Forall|constructor].
  - exists (match build with Some b => split_on 46 b | None => [] end). split.
    { destruct build as [b|]; [by apply dotted_Forall|constructor]. }
    unfold version_text. cbn [core pre]. destruct build as [b|].
    + apply version_cut_Some in Hb as [-> _]. by rewrite suffix_split, <- app_assoc.
    + apply version_cut_None in Hb as [<- _]. by rewrite app_nil_r.
Qed.

Lemma SEMVER_reads v build : valid_version v -> Forall (fun i => build_identifier i = true) build ->
  SEMVER (version_text v build) = Some v.
Proof.
  destruct v as [[[major minor] patch] p]. intros [Hcore Hpre] Hbuild. cbn [core pre] in *. unfold version_text, SEMVER.
  cbn [core pre]. set (numbers := join 46 [major; minor; patch]).
  assert (Hfree : forall c, (c < 46 \/ 57 < c)%N -> c ∉ numbers).
  { intros c Hc. apply join_free; [lia|]. apply (free_of c _ (fun s => numeric_free c s ltac:(lia)) Hcore). }
  assert (Hfront : 43%N ∉ numbers ++ suffix 45 p).
  { rewrite elem_of_app. intros [H|H]; [by apply (Hfree 43%N); [lia|]|]. destruct p as [|i p]; [by apply not_elem_of_nil in H|].
    apply elem_of_cons in H as [?|H]; [done|]. revert H. apply join_free; [done|].
    exact (free_of 43 _ (fun s => pre_free 43 s eq_refl) Hpre). }
  assert (Hcut : cut 43 (numbers ++ suffix 45 p ++ suffix 43 build)
                 = (numbers ++ suffix 45 p, match build with [] => None | _ => Some (join 46 build) end)).
  { rewrite app_assoc. destruct build as [|i build]; [by rewrite app_nil_r; apply version_cut_none|]. by apply version_cut_some. }
  assert (Hcut' : cut 45 (numbers ++ suffix 45 p) = (numbers, match p with [] => None | _ => Some (join 46 p) end)).
  { destruct p as [|i p]; [rewrite app_nil_r; apply version_cut_none|apply version_cut_some]; apply Hfree; lia. }
  assert (Hdot : forall P l, l <> [] -> (forall s, P s = true -> 46%N ∉ s) -> Forall (fun s => P s = true) l ->
                 split_on 46 (join 46 l) = l /\ dotted P (join 46 l) = true).
  { intros P l Hl HP Hall. assert (split_on 46 (join 46 l) = l) as E by (apply split_on_join; [done|exact (free_of 46 _ HP Hall)]).
    split; [done|]. by rewrite dotted_Forall, E. }
  rewrite Hcut, Hcut'.
  destruct (Hdot numeric_identifier [major; minor; patch]) as [En _]; [done|intros s; apply numeric_free; lia|done|].
  fold numbers in En. rewrite En. assert (forallb numeric_identifier [major; minor; patch] = true) as ->
    by (by rewrite forallb_elem; rewrite Forall_forall in Hcore).
  destruct build as [|b build], p as [|i p]; cbn match beta.
  - done.
  - destruct (Hdot pre_identifier (i :: p)) as [-> ->]; [done|intros s; by apply pre_free|done|done].
  - destruct (Hdot build_identifier (b :: build)) as [_ ->]; [done|intros s; by apply build_free|done|done].
  - destruct (Hdot build_identifier (b :: build)) as [_ ->]; [done|intros s; by apply build_free|done|].
    destruct (Hdot pre_identifier (i :: p)) as [-> ->]; [done|intros s; by apply pre_free|done|done].
Qed.

(** ** The comparison is the precedence *)

Lemma pre_numeric x : pre_identifier x = true -> all_digits x = true -> numeric_identifier x = true.
Proof.
  unfold pre_identifier, all_digits. intros [?|[_ (c & Hc & Hn)%existsb_elem]%andb_true_iff]%orb_true_iff [_ Hd]%andb_true_iff; [done|].
  rewrite forallb_elem in Hd. rewrite Hd in Hn by done. done.
Qed.

Lemma compareNumericIdentifier_zero x y : compareNumericIdentifier x y = 0%Z -> x = y.
Proof.
  unfold compareNumericIdentifier. destruct (Nat.eqb _ _); cbn [negb]; [|by destruct (_ <? _)].
  unfold jeqb. destruct (bool_decide _) eqn:E; [by apply bool_decide_eq_true in E|]. by destruct (jltb x y).
Qed.

Lemma sign_jcompare x y : x <> y -> (if jltb x y then -1 else 1)%Z = sign (jcompare x y).
Proof. intros Hne. unfold jltb. destruct (jcompare x y) eqn:E; [by apply jcompare_eq in E|done|done]. Qed.

(** The loop decides at the first identifiers that differ. *)
Lemma differing_identifiers x y : pre_identifier x = true -> pre_identifier y = true -> x <> y ->
  (let xn := all_digits x in
   let yn := all_digits y in
   if xn && yn then compareNumericIdentifier x y
   else if negb (Bool.eqb xn yn) then (if xn then -1 else 1)
   else if jltb x y then -1 else 1)%Z
  = sign (compare_identifiers (identifier_of x) (identifier_of y))
  /\ compare_identifiers (identifier_of x) (identifier_of y) <> Eq.
Proof.
  intros Hx Hy Hne. unfold identifier_of. cbn zeta.
  destruct (all_digits x) eqn:Ex, (all_digits y) eqn:Ey; cbn [andb negb Bool.eqb compare_identifiers]; [|done|done|].
  - rewrite compareNumericIdentifier_value by by apply pre_numeric. split; [done|]. intros E. apply Hne.
    apply compareNumericIdentifier_zero. rewrite compareNumericIdentifier_value, E by by apply pre_numeric. done.
  - split; [by apply sign_jcompare|]. by intros ?%jcompare_eq.
Qed.

Lemma identifier_refl i : compare_identifiers i i = Eq.
Proof. destruct i; cbn; [apply N.compare_refl|apply jcompare_refl]. Qed.

Lemma comparePrerelease_spec a b : Forall (fun s => pre_identifier s = true) a -> Forall (fun s => pre_identifier s = true) b ->
  comparePrerelease a b = sign (compare_releases (map identifier_of a) (map identifier_of b)).
Proof.
  intros Ha. revert b. induction Ha as [|x a Hx Ha IH]; intros b Hb; destruct Hb as [|y b Hy Hb]; try done.
  cbn [comparePrerelease map compare_releases]. unfold jeqb. destruct (decide (x = y)) as [->|Hne].
  - rewrite bool_decide_eq_true_2, identifier_refl by done. by apply IH.
  - rewrite bool_decide_eq_false_2 by done. destruct (differing_identifiers x y Hx Hy Hne) as [E Hd].
    cbn zeta in E |- *. rewrite E.
    by destruct (compare_identifiers _ _).
Qed.

Lemma sign_zero c : (sign c =? 0)%Z = match c with Eq => true | _ => false end.
Proof. by destruct c. Qed.

Lemma comparePrecedence_spec a b : valid_version a -> valid_version b ->
  comparePrecedence a b = sign (precedence (version_of a) (version_of b)).
Proof.
  destruct a as [[[a1 a2] a3] p], b as [[[b1 b2] b3] q]. intros [Ha Hp] [Hb Hq]. cbn [core pre] in *.
  rewrite !Forall_cons in Ha, Hb. destruct Ha as (Ha1 & Ha2 & Ha3 & _), Hb as (Hb1 & Hb2 & Hb3 & _).
  unfold comparePrecedence, precedence, version_of. cbn [core pre numbers release compare_numbers]. cbn zeta.
  rewrite !compareNumericIdentifier_value, !sign_zero by done.
  destruct (digits_value 0 a1 ?= digits_value 0 b1)%N; [|done..].
  destruct (digits_value 0 a2 ?= digits_value 0 b2)%N; [|done..].
  destruct (digits_value 0 a3 ?= digits_value 0 b3)%N; [|done..]. cbn [negb then_compare].
  destruct p as [|x p], q as [|y q]; try done. by apply (comparePrerelease_spec (x :: p) (y :: q)).
Qed.

(** ** Precedence is a total preorder *)

Record ordering {A} (compare : A -> A -> comparison) : Prop := {
  ordering_opp : forall x y, compare y x = CompOpp (compare x y);
  ordering_eq : forall x y z, compare x y = Eq -> compare x z = compare y z;
  ordering_lt : forall x y z, compare x y = Lt -> compare y z = Lt -> compare x z = Lt
}.

Lemma ordering_N : ordering N.compare.
Proof.
  split.
  - intros. apply N.compare_antisym.
  - by intros x y z ->%N.compare_eq_iff.
  - intros x y z. rewrite !N.compare_lt_iff. lia.
Qed.

Lemma ordering_texts : ordering jcompare.
Proof.
  split.
  - intros. apply jcompare_antisym.
  - by intros x y z ->%jcompare_eq.
  - intros x y z. apply jcompare_trans.
Qed.

Lemma ordering_on {A B} (f : A -> B) c : ordering c -> ordering (fun x y => c (f x) (f y)).
Proof. intros [H1 H2 H3]. split; eauto. Qed.

Lemma ordering_then {A} (c d : A -> A -> comparison) : ordering c -> ordering d ->
  ordering (fun x y => then_compare (c x y) (d x y)).
Proof.
  intros [C1 C2 C3] [D1 D2 D3]. split.
  - intros x y. rewrite C1, D1. by destruct (c x y).
  - intros x y z H. destruct (c x y) eqn:E; try done. by rewrite (C2 _ _ z E), (D2 _ _ z H).
  - intros x y z Hxy Hyz. destruct (c x y) eqn:E; try done; destruct (c y z) eqn:E'; try done; cbn in *.
    + rewrite (C2 _ _ z E), E'. cbn. eauto.
    + by rewrite (C2 _ _ z E), E'.
    + assert (c x z = Lt) as ->; [|done]. rewrite C1.
      assert (c z y = Eq) as Ezy by (rewrite C1, E'; done). rewrite (C2 _ _ x Ezy), C1, E. done.
    + by rewrite (C3 _ _ _ E E').
Qed.

Lemma ordering_identifiers : ordering compare_identifiers.
Proof.
  destruct ordering_N as [N1 N2 N3], ordering_texts as [T1 T2 T3]. split.
  - intros [n|s] [m|t]; cbn; auto.
  - intros [n|s] [m|t] [k|u]; cbn; try done; auto.
  - intros [n|s] [m|t] [k|u]; cbn; try done; eauto.
Qed.

Lemma ordering_releases : ordering compare_releases.
Proof.
  destruct ordering_identifiers as [I1 I2 I3]. split.
  - induction x as [|i a IH]; intros [|j b]; cbn; try done. rewrite I1, IH. by destruct (compare_identifiers i j).
  - induction x as [|i a IH]; intros [|j b] [|k d]; cbn; try done.
    destruct (compare_identifiers i j) eqn:E; try done. cbn. intros H. by rewrite (I2 _ _ k E), (IH _ d H).
  - induction x as [|i a IH]; intros [|j b] [|k d]; cbn; try done. intros Hij Hjk.
    destruct (compare_identifiers i j) eqn:E; try done; destruct (compare_identifiers j k) eqn:E'; try done; cbn in *.
    + rewrite (I2 _ _ k E), E'. cbn. eauto.
    + by rewrite (I2 _ _ k E), E'.
    + assert (compare_identifiers k j = Eq) as Ekj by (rewrite I1, E'; done).
      rewrite I1, (I2 _ _ i Ekj), I1, E. done.
    + by rewrite (I3 _ _ _ E E').
Qed.

Lemma ordering_prereleases : ordering compare_prereleases.
Proof.
  destruct ordering_releases as [R1 R2 R3]. split.
  - intros [|i a] [|j b]; cbn [compare_prereleases]; auto.
  - intros [|i a] [|j b] [|k d]; cbn [compare_prereleases]; try done; auto.
  - intros [|i a] [|j b] [|k d]; cbn [compare_prereleases]; try done; eauto.
Qed.

Lemma ordering_numbers : ordering compare_numbers.
Proof.
  assert (ordering (fun a b : N * N * N => then_compare (a.1.1 ?= b.1.1)%N (then_compare (a.1.2 ?= b.1.2)%N (a.2 ?= b.2)%N))) as [H1 H2 H3].
  { apply ordering_then; [exact (ordering_on (fun a => a.1.1) _ ordering_N)|].
    apply ordering_then; [exact (ordering_on (fun a => a.1.2) _ ordering_N)|exact (ordering_on snd _ ordering_N)]. }
  split.
  - intros [[x1 x2] x3] [[y1 y2] y3]. apply (H1 (x1, x2, x3) (y1, y2, y3)).
  - intros [[x1 x2] x3] [[y1 y2] y3] [[z1 z2] z3]. apply (H2 (x1, x2, x3) (y1, y2, y3) (z1, z2, z3)).
  - intros [[x1 x2] x3] [[y1 y2] y3] [[z1 z2] z3]. apply (H3 (x1, x2, x3) (y1, y2, y3) (z1, z2, z3)).
Qed.

Lemma ordering_precedence : ordering precedence.
Proof.
  apply ordering_then; [exact (ordering_on numbers _ ordering_numbers)|exact (ordering_on release _ ordering_prereleases)].
Qed.

(** C24.  Versions are accepted by the grammar of SemVer 2.0.0 alone, and the
    comparison that admits an engine is its precedence, numbers of any size
    included: the result is the sign of the precedence of the two versions,
    which is a total preorder. *)
Theorem compareSemver_is_precedence (left right : jstring) (z : Z) :
  (compareSemver left right = Ok z <->
   exists v w lb rb, (textBytes left <= MAX_TUF_SEMVER_BYTES)%N /\ (textBytes right <= MAX_TUF_SEMVER_BYTES)%N
     /\ (N.of_nat (length left) <= MAX_TUF_SEMVER_BYTES)%N /\ (N.of_nat (length right) <= MAX_TUF_SEMVER_BYTES)%N
     /\ left = version_text v lb /\ right = version_text w rb /\ valid_version v /\ valid_version w
     /\ Forall (fun i => build_identifier i = true) lb /\ Forall (fun i => build_identifier i = true) rb
     /\ z = sign (precedence (version_of v) (version_of w)))
  /\ ordering precedence.
Proof.
  split; [|exact ordering_precedence]. split.
  - unfold compareSemver, parseSemver, boundedString. intros H. apply bind_Ok in H as (v & Hv & H). apply bind_Ok in H as (w & Hw & H).
    res_inv. destruct (SEMVER left) as [lv|] eqn:El; [|done]. destruct (SEMVER right) as [rv|] eqn:Er; [|done]. res_inv. subst.
    bool_prop. destruct (SEMVER_accepts _ _ El) as (Hvv & lb & Hlb & ->), (SEMVER_accepts _ _ Er) as (Hww & rb & Hrb & ->).
    exists v, w, lb, rb. split_and!; try done. by apply comparePrecedence_spec.
  - intros (v & w & lb & rb & Hl & Hr & Hl' & Hr' & -> & -> & Hv & Hw & Hlb & Hrb & ->).
    unfold compareSemver, parseSemver, boundedString.
    rewrite (proj2 (N.leb_le _ _) Hl), (proj2 (N.leb_le _ _) Hr), (proj2 (N.leb_le _ _) Hl'), (proj2 (N.leb_le _ _) Hr').
    cbn [ensure mbind res_mbind]. rewrite !SEMVER_reads by done. cbn [mbind res_mbind]. by rewrite comparePrecedence_spec.
Qed.

(** The instants of metadata and of requests: a text is accepted exactly when
    it is the canonical text of a date and a time that exist, and then it
    denotes their milliseconds; years before 100 are refused, because the
    language reads them as years of the twentieth century. *)
Theorem parseUtc_reads_instants (text : jstring) (ms : Z) :
  parseUtc (Some text) = Ok ms <->
  exists year month day hour minute second,
    real_instant year month day hour minute second
    /\ text = utc_text year month day hour minute second
    /\ ms = Date_UTC year (month - 1) day hour minute second.
Proof.
  rewrite <- utc_milliseconds_spec. unfold parseUtc. destruct (utc_milliseconds text) as [ms'|]; split; congruence.
Qed.
