(* ===== verification/JsonParse.v ===== *)
(** [JSON.parse]: the grammar of the texts, the numbers their numerals denote,
    and the objects with the language's order of keys; it reads back what
    [JSON.stringify] writes. *)
From S2P Require Import Prelude JsString Unicode Identifiers OrderedMap JsValue Json ObjectGraph JsonText.

(** What a text denotes.  [PInteger] is a safe integer, [PNumber] any other
    number, named by its numeral. *)
Inductive parsed :=
| PNull
| PBool (b : bool)
| PInteger (n : Z)
| PNegativeZero
| PNumber (numeral : jstring)
| PString (text : jstring)
| PArray (items : list parsed)
| PObject (fields : list (jstring * parsed)).

Inductive parse_failure := syntax_error | no_fuel.
Abbreviation parse_res := (res parse_failure).

(** ** Numerals *)

(** The digits at the front, and the rest. *)
Fixpoint digits_of (s : jstring) : jstring * jstring :=
  match s with
  | c :: r => if decimal_digit c then let '(d, r') := digits_of r in (c :: d, r') else ([], s)
  | [] => ([], [])
  end.

(** The rational [mantissa * 10 ^ exponent], rounded to a double, when that is a
    safe integer; its sign aside. *)
Definition rounded_integer (mantissa : N) (exponent : Z) : option Z :=
  if (mantissa =? 0)%N then Some 0%Z
  else
    let magnitude := (Z.of_nat (length (String_of_N mantissa)) + exponent)%Z in
    if (17 <? magnitude)%Z then None
    else if (magnitude <? -330)%Z then Some 0%Z
    else
      let num := (Z.of_N mantissa * 10 ^ Z.max exponent 0)%Z in
      let den := (10 ^ Z.max (- exponent) 0)%Z in
      let k := (Z.log2 num - Z.log2 den)%Z in
      let top := if (num * 2 ^ Z.max (- k) 0 <? den * 2 ^ Z.max k 0)%Z then (k - 1)%Z else k in
      let scale := Z.max (top - 52) (-1074) in
      let n := (num * 2 ^ Z.max (- scale) 0)%Z in
      let d := (den * 2 ^ Z.max scale 0)%Z in
      let q := (n / d)%Z in
      let r := (n mod d)%Z in
      let rounded := if (2 * r <? d)%Z then q else if (d <? 2 * r)%Z then (q + 1)%Z
                     else if Z.even q then q else (q + 1)%Z in
      let unit := (2 ^ Z.max (- scale) 0)%Z in
      let value := (rounded * 2 ^ Z.max scale 0 / unit)%Z in
      if (rounded mod unit =? 0)%Z && (value <=? MAX_SAFE_INTEGER)%Z then Some value else None.

(** The number of a numeral given by its parts. *)
Definition number_of (numeral : jstring) (negative : bool) (whole fraction : jstring) (exponent : Z) : parsed :=
  match rounded_integer (digits_value 0 (whole ++ fraction)) (exponent - Z.of_nat (length fraction)) with
  | Some 0%Z => if negative then PNegativeZero else PInteger 0
  | Some n => PInteger (if negative then - n else n)
  | None => PNumber numeral
  end.

(** The fraction after a point, empty without one. *)
Definition parse_fraction (s : jstring) : parse_res (jstring * jstring) :=
  match s with
  | c :: r =>
      if (c =? 46)%N then
        let '(d, r') := digits_of r in
        _ ← ensure (negb (jeqb d [])) syntax_error; Ok (d, r')
      else Ok ([], s)
  | [] => Ok ([], [])
  end.

Definition parse_exponent (s : jstring) : parse_res (Z * jstring) :=
  match s with
  | c :: r =>
      if (c =? 101)%N || (c =? 69)%N then
        let '(negative, r1) := match r with
                               | e :: r1 => if (e =? 45)%N then (true, r1) else if (e =? 43)%N then (false, r1) else (false, r)
                               | [] => (false, r)
                               end in
        let '(d, r') := digits_of r1 in
        _ ← ensure (negb (jeqb d [])) syntax_error;
        let n := Z.of_N (digits_value 0 d) in
        Ok (if negative then (- n)%Z else n, r')
      else Ok (0%Z, s)
  | [] => Ok (0%Z, [])
  end.

(** The digits before the point: a single zero, or digits. *)
Definition parse_whole (s : jstring) : parse_res (jstring * jstring) :=
  match s with
  | c :: r =>
      if (c =? 48)%N then Ok ([c], r)
      else let '(d, r') := digits_of s in
           _ ← ensure (negb (jeqb d [])) syntax_error; Ok (d, r')
  | [] => Err syntax_error
  end.

(** The sign at the front. *)
Definition parse_sign (s : jstring) : bool * jstring :=
  match s with c :: r => if (c =? 45)%N then (true, r) else (false, s) | [] => (false, s) end.

Definition parse_number (s : jstring) : parse_res (parsed * jstring) :=
  let '(negative, s1) := parse_sign s in
  '(whole, s2) ← parse_whole s1;
  '(fraction, s3) ← parse_fraction s2;
  '(exponent, s4) ← parse_exponent s3;
  Ok (number_of (take (length s - length s4) s) negative whole fraction exponent, s4).

(** ** Strings *)

Definition hex_value (c : N) : option N :=
  if decimal_digit c then Some (c - 48)%N
  else if (97 <=? c)%N && (c <=? 102)%N then Some (c - 87)%N
  else if (65 <=? c)%N && (c <=? 70)%N then Some (c - 55)%N
  else None.

Definition simple_escape (c : N) : option N :=
  if (c =? 47)%N then Some 47%N else unescape c.

(** The units after an opening quote, and what follows the closing one. *)
Fixpoint parse_units (s : jstring) : parse_res (jstring * jstring) :=
  match s with
  | [] => Err syntax_error
  | c :: r =>
      if (c =? QUOTE)%N then Ok ([], r)
      else if (c <? 32)%N then Err syntax_error
      else if (c =? ESCAPE)%N then
        match r with
        | x :: r1 =>
            if (x =? 117)%N then
              match r1 with
              | a :: b :: d :: e :: r2 =>
                  match hex_value a, hex_value b, hex_value d, hex_value e with
                  | Some a', Some b', Some d', Some e' =>
                      '(t, rest) ← parse_units r2;
                      Ok ((a' * 4096 + b' * 256 + d' * 16 + e')%N :: t, rest)
                  | _, _, _, _ => Err syntax_error
                  end
              | _ => Err syntax_error
              end
            else match simple_escape x with
                 | Some y => '(t, rest) ← parse_units r1; Ok (y :: t, rest)
                 | None => Err syntax_error
                 end
        | [] => Err syntax_error
        end
      else '(t, rest) ← parse_units r; Ok (c :: t, rest)
  end.

(** ** Values *)

Definition is_space (c : N) : bool := (c =? 32)%N || (c =? 9)%N || (c =? 10)%N || (c =? 13)%N.

Fixpoint skip_space (s : jstring) : jstring :=
  match s with c :: r => if is_space c then skip_space r else s | [] => [] end.

(** The object with the members of a text, defined in its order: a repeated key
    keeps its place and takes its last value. *)
Definition object_of_members (members : list (jstring * parsed)) : list (jstring * parsed) :=
  own_order (fold_left (fun fields m => map_set m.1 m.2 fields) members []).

(** [unit] in front of a text. *)
Definition expect (unit : N) (s : jstring) : option jstring :=
  match s with c :: r => if (c =? unit)%N then Some r else None | [] => None end.

Definition keyword (word : jstring) (v : parsed) (s : jstring) : parse_res (parsed * jstring) :=
  if startsWith s word then Ok (v, drop (length word) s) else Err syntax_error.

Fixpoint parse_value (fuel : nat) (s : jstring) : parse_res (parsed * jstring) :=
  match fuel with
  | O => Err no_fuel
  | S f =>
      match skip_space s with
      | [] => Err syntax_error
      | c :: r =>
          if (c =? QUOTE)%N then '(t, rest) ← parse_units r; Ok (PString t, rest)
          else if (c =? 91)%N then
            match expect 93 (skip_space r) with
            | Some rest => Ok (PArray [], rest)
            | None => '(l, rest) ← parse_elements f r; Ok (PArray l, rest)
            end
          else if (c =? 123)%N then
            match expect 125 (skip_space r) with
            | Some rest => Ok (PObject [], rest)
            | None => '(l, rest) ← parse_members f r; Ok (PObject (object_of_members l), rest)
            end
          else if (c =? 110)%N then keyword #"null" PNull (c :: r)
          else if (c =? 116)%N then keyword #"true" (PBool true) (c :: r)
          else if (c =? 102)%N then keyword #"false" (PBool false) (c :: r)
          else parse_number (c :: r)
      end
  end
with parse_elements (fuel : nat) (s : jstring) : parse_res (list parsed * jstring) :=
  match fuel with
  | O => Err no_fuel
  | S f =>
      '(v, r) ← parse_value f s;
      match expect 44 (skip_space r) with
      | Some r' => '(l, rest) ← parse_elements f r'; Ok (v :: l, rest)
      | None => match expect 93 (skip_space r) with Some rest => Ok ([v], rest) | None => Err syntax_error end
      end
  end
with parse_members (fuel : nat) (s : jstring) : parse_res (list (jstring * parsed) * jstring) :=
  match fuel with
  | O => Err no_fuel
  | S f =>
      match expect QUOTE (skip_space s) with
      | None => Err syntax_error
      | Some r =>
          '(key, r1) ← parse_units r;
          match expect 58 (skip_space r1) with
          | None => Err syntax_error
          | Some r2 =>
              '(v, r3) ← parse_value f r2;
              match expect 44 (skip_space r3) with
              | Some r4 => '(l, rest) ← parse_members f r4; Ok ((key, v) :: l, rest)
              | None => match expect 125 (skip_space r3) with
                        | Some rest => Ok ([(key, v)], rest)
                        | None => Err syntax_error
                        end
              end
          end
      end
  end.

(** [JSON.parse(text)] *)
Definition JSON_parse (s : jstring) : parse_res parsed :=
  '(v, rest) ← parse_value (S (2 * length s)) s;
  match skip_space rest with [] => Ok v | _ => Err syntax_error end.

Definition quoted (s : jstring) : jstring := QUOTE :: s ++ [QUOTE].

Example parse_numbers :
  map (fun t => JSON_parse t) [ #"-12"; #"0"; #"-0.0"; #"1.5e1"; #"1e400"; #"0.1"; #"9007199254740991.2"; #"9007199254740993"; #"01"; #"1."]
  = [Ok (PInteger (-12)); Ok (PInteger 0); Ok PNegativeZero; Ok (PInteger 15); Ok (PNumber #"1e400");
     Ok (PNumber #"0.1"); Ok (PInteger 9007199254740991); Ok (PNumber #"9007199254740993"); Err syntax_error;
     Err syntax_error].
Proof. vm_compute. reflexivity. Qed.

Example parse_object :
  JSON_parse (#"{ " ++ quoted #"b" ++ #" :[1, true ], " ++ quoted #"7" ++ #":null," ++ quoted #"b" ++ #":{} }")
  = Ok (PObject [(#"7", PNull); (#"b", PObject [])]).
Proof. vm_compute. reflexivity. Qed.
