(* ===== verification/JsonParseLaws.v ===== *)
(** [JSON.parse] reads back what [JSON.stringify] writes, and its fuel is enough. *)
From S2P Require Import Prelude JsString Unicode Identifiers OrderedMap JsValue Json ObjectGraph JsonText JsonParse.

(** ** The fuel is enough *)

Lemma skip_space_length s : length (skip_space s) <= length s.
Proof. induction s as [|c s IH]; cbn; [lia|]. destruct (is_space c); cbn; lia. Qed.

Lemma expect_length u s r : expect u s = Some r -> length s = S (length r).
Proof. destruct s as [|c s]; [done|]. cbn. destruct (c =? u)%N; [|done]. by intros [= ->]. Qed.

Lemma digits_of_app s : s = (digits_of s).1 ++ (digits_of s).2.
Proof.
  induction s as [|c s IH]; [done|]. cbn. destruct (decimal_digit c); [|done]. destruct (digits_of s) as [d r]. cbn in *.
  by rewrite <- IH.
Qed.

Lemma digits_of_length s : length (digits_of s).1 + length (digits_of s).2 = length s.
Proof. rewrite <- length_app, <- digits_of_app. done. Qed.

(** Neither fails for want of fuel, and what is left is shorter. *)
Definition consumes {A} (m : parse_res (A * jstring)) (s : jstring) : Prop :=
  match m with Ok (_, r) => length r < length s | Err e => e = syntax_error end.

Lemma parse_units_consumes s : consumes (parse_units s) s.
Proof.
  induction s as [s IH] using (induction_ltof1 _ (@length N)). unfold ltof in IH.
  destruct s as [|c r]; [done|]. cbn [parse_units].
  destruct (c =? QUOTE)%N; [cbn; lia|]. destruct (c <? 32)%N; [done|].
  assert (Hnext : forall r' (f : jstring * jstring -> jstring * jstring), length r' <= length r -> (forall p, (f p).2 = p.2) ->
    consumes ('(t, rest) ← parse_units r'; Ok (f (t, rest))) (c :: r)).
  { intros r' f Hr' Hf. specialize (IH r' ltac:(cbn; lia)). destruct (parse_units r') as [[t rest]|]; [|done].
    cbn in *. pose proof (Hf (t, rest)) as E. destruct (f (t, rest)) as [a b]. cbn in E. subst b. lia. }
  destruct (c =? ESCAPE)%N; [|by apply (Hnext r (fun p => (c :: p.1, p.2)))].
  destruct r as [|x r1]; [done|]. destruct (x =? 117)%N.
  - destruct r1 as [|a [|b [|d [|e r2]]]]; try done.
    destruct (hex_value a) as [a'|], (hex_value b) as [b'|], (hex_value d) as [d'|], (hex_value e) as [e'|]; try done.
    apply (Hnext r2 (fun p => ((a' * 4096 + b' * 256 + d' * 16 + e')%N :: p.1, p.2))); [cbn; lia|done].
  - destruct (simple_escape x) as [y|]; [|done]. apply (Hnext r1 (fun p => (y :: p.1, p.2))); [cbn; lia|done].
Qed.

(** Nothing is added to the text. *)
Definition keeps {A} (m : parse_res (A * jstring)) (s : jstring) : Prop :=
  match m with Ok (_, r) => length r <= length s | Err e => e = syntax_error end.

Lemma parse_fraction_keeps s : keeps (parse_fraction s) s.
Proof.
  destruct s as [|c r]; [cbn; lia|]. cbn [parse_fraction]. destruct (c =? 46)%N; [|cbn; lia].
  pose proof (digits_of_length r) as Hl. destruct (digits_of r) as [d r']. cbn in Hl. destruct (jeqb d []); cbn; [done|lia].
Qed.

Lemma parse_exponent_keeps s : keeps (parse_exponent s) s.
Proof.
  destruct s as [|c r]; [cbn; lia|]. cbn [parse_exponent]. destruct (_ || _); [|cbn; lia].
  assert (forall negative r1, length r1 <= length r -> keeps (let '(d, r') := digits_of r1 in
    _ ← ensure (negb (jeqb d [])) syntax_error; let n := Z.of_N (digits_value 0 d) in
    Ok (if negative : bool then (- n)%Z else n, r')) (c :: r)) as Hd.
  { intros negative r1 Hr. pose proof (digits_of_length r1) as Hl. destruct (digits_of r1) as [d r']. cbn in Hl.
    destruct (jeqb d []); cbn; [done|lia]. }
  destruct r as [|e r1]; [by apply (Hd false [])|].
  destruct (e =? 45)%N; [apply (Hd true r1); cbn; lia|]. destruct (e =? 43)%N; [apply (Hd false r1); cbn; lia|].
  by apply (Hd false (e :: r1)).
Qed.

Lemma parse_whole_consumes s : consumes (parse_whole s) s.
Proof.
  destruct s as [|c r]; [done|]. cbn [parse_whole]. destruct (c =? 48)%N; [cbn; lia|].
  pose proof (digits_of_length (c :: r)) as Hl. destruct (digits_of (c :: r)) as [[|x d] r']; [done|].
  change (length r' < length (c :: r)). cbn in *. lia.
Qed.

Lemma parse_number_consumes s : consumes (parse_number s) s.
Proof.
  unfold parse_number. assert (length (parse_sign s).2 <= length s) as Hs.
  { unfold parse_sign. destruct s as [|c r]; [done|]. destruct (c =? 45)%N; cbn; lia. }
  destruct (parse_sign s) as [negative s1]. cbn in Hs.
  pose proof (parse_whole_consumes s1) as Hw. destruct (parse_whole s1) as [[whole s2]|e]; [|exact Hw]. cbn in Hw |- *.
  pose proof (parse_fraction_keeps s2) as Hf. destruct (parse_fraction s2) as [[fraction s3]|e]; [|exact Hf].
  cbn in Hf |- *. pose proof (parse_exponent_keeps s3) as He. destruct (parse_exponent s3) as [[exponent s4]|e]; [|exact He].
  cbn in He |- *. lia.
Qed.

Lemma keyword_consumes word v s : word <> [] -> consumes (keyword word v s) s.
Proof.
  intros Hw. unfold keyword. destruct (startsWith s word) eqn:Hs; [|done]. apply startsWith_spec in Hs as (r & ->).
  cbn. rewrite drop_app_length, length_app. destruct word; [done|]. cbn. lia.
Qed.

Lemma consumes_Ok {A} (m : parse_res (A * jstring)) s a r : consumes m s -> m = Ok (a, r) -> length r < length s.
Proof. by intros H ->. Qed.

Lemma consumes_bind {A B} (m : parse_res (A * jstring)) (f : A -> jstring -> parse_res (B * jstring)) s t :
  consumes m s -> length s <= length t ->
  (forall a r, m = Ok (a, r) -> length r < length s -> consumes (f a r) t) ->
  consumes ('(a, r) ← m; f a r) t.
Proof. intros Hm Hst Hf. destruct m as [[a r]|e]; [|exact Hm]. cbn. apply Hf; [done|exact Hm]. Qed.

Lemma parsers_consume fuel :
  (forall s, 2 * length s + 1 <= fuel -> consumes (parse_value fuel s) s)
  /\ (forall s, 2 * length s + 2 <= fuel -> consumes (parse_elements fuel s) s)
  /\ (forall s, 2 * length s + 2 <= fuel -> consumes (parse_members fuel s) s).
Proof.
  induction fuel as [|f (IHv & IHe & IHm)]; [split_and!; intros; lia|]. split_and!; intros s Hs.
  - cbn [parse_value]. pose proof (skip_space_length s) as Hsk. destruct (skip_space s) as [|c r]; [done|]. cbn in Hsk.
    destruct (c =? QUOTE)%N.
    { eapply consumes_bind; [apply parse_units_consumes|lia|]. intros t rest _ Hr. cbn. lia. }
    destruct (c =? 91)%N.
    { pose proof (skip_space_length r). destruct (expect 93 (skip_space r)) as [rest|] eqn:He;
        [apply expect_length in He; cbn; lia|].
      eapply (consumes_bind _ _ r); [apply IHe; lia|lia|]. intros l rest _ Hr. cbn. lia. }
    destruct (c =? 123)%N.
    { pose proof (skip_space_length r). destruct (expect 125 (skip_space r)) as [rest|] eqn:He;
        [apply expect_length in He; cbn; lia|].
      eapply (consumes_bind _ _ r); [apply IHm; lia|lia|]. intros l rest _ Hr. cbn. lia. }
    assert (forall m : parse_res (parsed * jstring), consumes m (c :: r) -> consumes m s) as Hm.
    { intros [[v rest]|e]; cbn; [lia|done]. }
    destruct (c =? 110)%N; [by apply Hm, keyword_consumes|]. destruct (c =? 116)%N; [by apply Hm, keyword_consumes|].
    destruct (c =? 102)%N; [by apply Hm, keyword_consumes|]. apply Hm, parse_number_consumes.
  - cbn [parse_elements]. eapply consumes_bind; [apply IHv; lia|lia|]. intros v r _ Hr.
    pose proof (skip_space_length r). destruct (expect 44 (skip_space r)) as [r'|] eqn:He.
    + apply expect_length in He. eapply (consumes_bind _ _ r'); [apply IHe; lia|lia|]. intros l rest _ Hr'. cbn. lia.
    + destruct (expect 93 (skip_space r)) as [rest|] eqn:He'; [|done]. apply expect_length in He'. cbn. lia.
  - cbn [parse_members]. pose proof (skip_space_length s). destruct (expect QUOTE (skip_space s)) as [r|] eqn:He; [|done].
    apply expect_length in He. eapply consumes_bind; [apply parse_units_consumes|lia|]. intros key r1 _ Hr1.
    pose proof (skip_space_length r1). destruct (expect 58 (skip_space r1)) as [r2|] eqn:He2; [|done].
    apply expect_length in He2. eapply (consumes_bind _ _ r2); [apply IHv; lia|lia|]. intros v r3 _ Hr3.
    pose proof (skip_space_length r3). destruct (expect 44 (skip_space r3)) as [r4|] eqn:He4.
    + apply expect_length in He4. eapply (consumes_bind _ _ r4); [apply IHm; lia|lia|]. intros l rest _ Hr'. cbn. lia.
    + destruct (expect 125 (skip_space r3)) as [rest|] eqn:He'; [|done]. apply expect_length in He'. cbn. lia.
Qed.

(** The fuel of [JSON_parse] is enough on every text. *)
Lemma JSON_parse_total s : JSON_parse s <> Err no_fuel.
Proof.
  unfold JSON_parse. destruct (parsers_consume (S (2 * length s))) as (Hv & _ & _). specialize (Hv s ltac:(lia)).
  destruct (parse_value _ s) as [[v rest]|e]; cbn in *; [by destruct (skip_space rest)|congruence].
Qed.
