(* ===== verification/TufMetadata.v ===== *)
(** Trust metadata (packages/standards/src/tuf-trust.ts): bytes are copied,
    scanned, parsed and matched with their canonical text, then each role is
    validated against the closed policy of the repository. *)
From S2P Require Import Prelude JsString Unicode Utf8 Identifiers OrderedMap JsValue ObjectGraph JsonParse UtcTime TufText.

(** ** Bytes *)

(** [ownKeys.length === length && ownKeys.every((key, index) => key === String(index))] *)
Definition only_indices (own : list property) (byteLength : N) : bool :=
  (N.of_nat (length own) =? byteLength)%N
  && forallb id (imap (fun i p => bool_decide (prop_key p = Some (String_of_N (N.of_nat i)))) own).

(** A detached view has length 0 and fails at the copy, with another exception. *)
Definition copyBytes (h : heap) (input : value) (maximum : N) : trusted (list N) :=
  match input with
  | VString text =>
      _ ← ensure (N.of_nat (length text) <=? maximum)%N resource_limit;
      _ ← ensure (hasWellFormedUnicode text) invalid_input;
      _ ← ensure (textBytes text <=? maximum)%N resource_limit;
      Ok (utf8 text)
  | _ =>
      match object_of h input with
      | Some {| obj_proxy := false; obj_prototype := prototype; obj_slots := ByteSlots b; obj_own := own |} =>
          _ ← ensure (view_uint8 b) invalid_input;
          _ ← ensure (match prototype with BytesPrototype => true | _ => false end) invalid_input;
          _ ← ensure (view_byteLength b <=? maximum)%N resource_limit;
          _ ← ensure (negb (view_shared b)) invalid_input;
          _ ← ensure (only_indices own (view_byteLength b)) invalid_input;
          _ ← ensure (view_attached b) invalid_metadata;
          Ok (view_bytes b)
      | _ => Err invalid_input
      end
  end.

(** ** The scan before parsing *)

Record json_scan := { scan_depth : Z; scan_values : N; inString : bool; escaped : bool }.

Definition preflight_unit (s : json_scan) (code : N) : trusted json_scan :=
  let '{| scan_depth := depth; scan_values := values |} := s in
  if inString s then
    Ok (if escaped s then {| scan_depth := depth; scan_values := values; inString := true; escaped := false |}
        else if (code =? 0x5c)%N then {| scan_depth := depth; scan_values := values; inString := true; escaped := true |}
        else if (code =? 0x22)%N then {| scan_depth := depth; scan_values := values; inString := false; escaped := false |}
        else s)
  else
    s' ← (if (code =? 0x22)%N then Ok {| scan_depth := depth; scan_values := values + 1; inString := true; escaped := escaped s |}
          else if (code =? 0x7b)%N || (code =? 0x5b)%N then
            _ ← ensure (depth + 1 <=? Z.of_nat MAX_TUF_JSON_DEPTH)%Z resource_limit;
            Ok {| scan_depth := depth + 1; scan_values := values + 1; inString := false; escaped := escaped s |}
          else if (code =? 0x7d)%N || (code =? 0x5d)%N then
            _ ← ensure (0 <=? depth - 1)%Z invalid_metadata;
            Ok {| scan_depth := depth - 1; scan_values := values; inString := false; escaped := escaped s |}
          else if (code =? 0x2c)%N || (code =? 0x3a)%N then
            Ok {| scan_depth := depth; scan_values := values + 1; inString := false; escaped := escaped s |}
          else Ok s);
    _ ← ensure (scan_values s' <=? MAX_TUF_JSON_VALUES)%N resource_limit;
    Ok s'.

Definition preflightJson (text : jstring) : trusted unit :=
  s ← foldM preflight_unit {| scan_depth := 0; scan_values := 0; inString := false; escaped := false |} text;
  ensure (negb (inString s) && (scan_depth s =? 0)%Z) invalid_metadata.

Fixpoint isJsonValue (value : parsed) (depth : nat) : bool :=
  (depth <=? MAX_TUF_JSON_DEPTH)%nat &&
  match value with
  | PNull | PBool _ | PString _ | PInteger _ | PNegativeZero => true
  | PNumber _ => false
  | PArray items => forallb (fun v => isJsonValue v (S depth)) items
  | PObject fields => forallb (fun f => isJsonValue f.2 (S depth)) fields
  end.

(** ** Envelopes *)

(** The packages the module calls: [canonicalize] of @tufjs/canonical-json, and
    [Metadata.fromJSON] and [verifyDelegate] of @tufjs/models.  [None] and
    [false] stand for an exception. *)
Class TufModels : Type := {
  metadata : Type;
  canonicalize : parsed -> option jstring;
  Metadata_fromJSON : TufMetadataRole -> parsed -> option metadata;
  metadata_verifyDelegate : metadata -> jstring -> metadata -> bool
}.

Definition JsonObject := list (jstring * parsed).

(** [Ok] of a value, [code] without one. *)
Definition required {A} (x : option A) (code : TufTrustErrorCode) : trusted A :=
  match x with Some a => Ok a | None => Err code end.

Definition is_bom (bytes : list N) : bool :=
  match bytes with
  | a :: b :: c :: _ => (a =? 0xef)%N && (b =? 0xbb)%N && (c =? 0xbf)%N
  | _ => false
  end.

Section metadata.
Context `{TufModels} `{Sha256}.

Record ParsedEnvelope := {
  canonicalJson : jstring; bytes : list N; env_metadata : metadata; object : JsonObject; env_sha256 : jstring
}.

Definition parseEnvelope (h : heap) (input : value) (role : TufMetadataRole) : trusted ParsedEnvelope :=
  bytes ← copyBytes h input MAX_TUF_METADATA_BYTES;
  text ← required (utf8_decode bytes) invalid_metadata;
  _ ← ensure (negb (is_bom bytes)) invalid_metadata;
  _ ← preflightJson text;
  parsed ← match JSON_parse text with Ok v => Ok v | Err _ => Err invalid_metadata end;
  object ← match parsed with
           | PObject fields => if isJsonValue parsed 0 then Ok fields else Err invalid_metadata
           | _ => Err invalid_metadata
           end;
  canonical ← required (canonicalize parsed) invalid_metadata;
  _ ← ensure (jeqb canonical text) invalid_metadata;
  metadata ← required (Metadata_fromJSON role parsed) invalid_metadata;
  Ok {| canonicalJson := canonical; bytes := bytes; env_metadata := metadata; object := object;
        env_sha256 := hex (sha256 bytes) |}.

(** ** Fields *)

Definition record (v : option parsed) : trusted JsonObject :=
  match v with Some (PObject fields) => Ok fields | _ => Err invalid_metadata end.

Definition array (v : option parsed) : trusted (list parsed) :=
  match v with Some (PArray items) => Ok items | _ => Err invalid_metadata end.

(** The string a value is. *)
Definition as_string (v : option parsed) : option jstring :=
  match v with Some (PString s) => Some s | _ => None end.

Definition string_value (v : option parsed) : trusted jstring := required (as_string v) invalid_metadata.

Definition integer (v : option parsed) (maximum : Z) : trusted Z :=
  match v with
  | Some (PInteger n) => if (0 <? n)%Z && (n <=? maximum)%Z then Ok n else Err invalid_metadata
  | _ => Err invalid_metadata
  end.

Definition MAX_VERSION : Z := 2147483647.

Definition exactKeys (object : JsonObject) (expected : list jstring) : trusted unit :=
  ensure (same_keys (keys_of object) expected) invalid_metadata.

(** [v === text], [v === true] and [v === n] *)
Definition is_text (v : option parsed) (text : jstring) : bool :=
  match v with Some (PString s) => jeqb s text | _ => false end.
Definition is_true (v : option parsed) : bool := match v with Some (PBool b) => b | _ => false end.
Definition is_integer (v : option parsed) (n : Z) : bool :=
  match v with
  | Some (PInteger m) => (m =? n)%Z
  | Some PNegativeZero => (n =? 0)%Z
  | _ => false
  end.

(** One entry of [signatures], after the key ID before it. *)
Definition signature_entry (previous : jstring) (entry : parsed) : trusted jstring :=
  signature ← record (Some entry);
  _ ← exactKeys signature [ #"keyid"; #"sig"];
  keyid ← string_value (map_get #"keyid" signature);
  sig ← string_value (map_get #"sig" signature);
  _ ← ensure (SHA256 keyid && SIGNATURE sig) invalid_metadata;
  _ ← ensure (jltb previous keyid) invalid_metadata;
  Ok keyid.

Definition signedObject (envelope : ParsedEnvelope) : trusted JsonObject :=
  _ ← exactKeys (object envelope) [ #"signatures"; #"signed"];
  signatures ← array (map_get #"signatures" (object envelope));
  _ ← ensure ((1 <=? length signatures)%nat && (length signatures <=? 32)%nat) resource_limit;
  _ ← foldM signature_entry [] signatures;
  record (map_get #"signed" (object envelope)).

(** ** What every role carries *)

Record RoleTimes := { expiresMs : Z; issuedAtMs : Z }.

Definition validateCommonSigned (signed : JsonObject) (role : TufMetadataRole) (extraFields : list jstring)
  : trusted (RoleTimes * Z) :=
  _ ← exactKeys signed ([ #"_type"; #"expires"; #"spec_version"; #"version"; #"x-agent-context"] ++ extraFields);
  _ ← ensure (is_text (map_get #"_type" signed) (role_name role)) wrong_role;
  specVersion ← string_value (map_get #"spec_version" signed);
  _ ← ensure (jeqb specVersion TUF_SPECIFICATION_VERSION) unsupported_version;
  version ← integer (map_get #"version" signed) MAX_VERSION;
  extension ← record (map_get #"x-agent-context" signed);
  _ ← exactKeys extension [ #"issuedAt"; #"policyVersion"; #"repositoryId"];
  _ ← ensure (is_text (map_get #"policyVersion" extension) TUF_TRUST_CONTRACT_VERSION) unsupported_version;
  _ ← ensure (is_text (map_get #"repositoryId" extension) TUF_REPOSITORY_ID) invalid_policy;
  issued ← parseUtc (as_string (map_get #"issuedAt" extension));
  expires ← parseUtc (as_string (map_get #"expires" signed));
  _ ← ensure ((issued <? expires)%Z && (expires - issued <=? ROLE_EXPIRY_LIMIT_MS role)%Z) invalid_policy;
  Ok ({| expiresMs := expires; issuedAtMs := issued |}, version).

Definition validateAtStart (times : RoleTimes) (startedAtMs : Z) : trusted unit :=
  _ ← ensure (issuedAtMs times <=? startedAtMs + TUF_CLOCK_SKEW_MS)%Z invalid_policy;
  ensure (startedAtMs <? expiresMs times)%Z expired_metadata.

(** ** Keys and roles *)

(** One entry of a key map; its ID. *)
Definition key_entry (keys : JsonObject) (id : jstring) : trusted jstring :=
  _ ← ensure (SHA256 id) invalid_policy;
  key ← record (map_get id keys);
  _ ← exactKeys key [ #"keytype"; #"keyval"; #"scheme"];
  _ ← ensure (is_text (map_get #"keytype" key) TUF_SUPPORTED_KEY_TYPE
              && is_text (map_get #"scheme" key) TUF_SUPPORTED_KEY_SCHEME) invalid_policy;
  keyval ← record (map_get #"keyval" key);
  _ ← exactKeys keyval [ #"public"];
  publicKey ← string_value (map_get #"public" keyval);
  _ ← ensure (SHA256 publicKey) invalid_policy;
  canonical ← required (canonicalize (PObject key)) invalid_metadata;
  _ ← ensure (jeqb (sha256_hex canonical) id) invalid_policy;
  Ok id.

Definition validateKeyMap (v : option parsed) (maximum : nat) : trusted (list jstring) :=
  keys ← record v;
  let ids := keys_of keys in
  _ ← ensure ((1 <=? length ids)%nat && (length ids <=? maximum)%nat) resource_limit;
  _ ← ensure (bool_decide (ids = sort_by jleb ids)) invalid_policy;
  rmapM (key_entry keys) ids.

Record ValidatedRole := { keyids : list jstring; threshold : Z }.

Fixpoint ascending_ids (previous : jstring) (ids : list jstring) : bool :=
  match ids with
  | [] => true
  | id :: r => SHA256 id && jltb previous id && ascending_ids id r
  end.

Definition validateRole (v : option parsed) (expectedCount : nat) (expectedThreshold : Z) : trusted ValidatedRole :=
  role ← record v;
  _ ← exactKeys role [ #"keyids"; #"threshold"];
  rawKeyids ← array (map_get #"keyids" role);
  _ ← ensure (length rawKeyids =? expectedCount)%nat invalid_policy;
  keyids ← rmapM (fun id => string_value (Some id)) rawKeyids;
  _ ← ensure (ascending_ids [] keyids) invalid_policy;
  threshold ← integer (map_get #"threshold" role) (Z.of_nat expectedCount);
  _ ← ensure (threshold =? expectedThreshold)%Z invalid_policy;
  Ok {| keyids := keyids; threshold := threshold |}.

Record RootPolicy := {
  root_keys : ValidatedRole; snapshot_keys : ValidatedRole; targets_keys : ValidatedRole; timestamp_keys : ValidatedRole;
  root_times : RoleTimes; root_version : Z
}.

(** [TOP_LEVEL_ROLES.flatMap((role) => [...roles[role].keyids])] *)
Definition top_level_keyids (root snapshot targets timestamp : ValidatedRole) : list jstring :=
  keyids root ++ keyids snapshot ++ keyids targets ++ keyids timestamp.

Definition all_role_keys (p : RootPolicy) : list jstring :=
  top_level_keyids (root_keys p) (snapshot_keys p) (targets_keys p) (timestamp_keys p).

(** [new Set(keys).size] *)
Definition set_size (keys : list jstring) : nat := length (remove_dups keys).

Definition within (keys authorized : list jstring) : bool := forallb (fun id => existsb (jeqb id) authorized) keys.

Definition validateRoot (envelope : ParsedEnvelope) : trusted RootPolicy :=
  signed ← signedObject envelope;
  '(times, version) ← validateCommonSigned signed root_role [ #"consistent_snapshot"; #"keys"; #"roles"];
  _ ← ensure (is_true (map_get #"consistent_snapshot" signed)) invalid_policy;
  keys ← validateKeyMap (map_get #"keys" signed) 16;
  rolesObject ← record (map_get #"roles" signed);
  _ ← exactKeys rolesObject [ #"root"; #"snapshot"; #"targets"; #"timestamp"];
  root ← validateRole (map_get #"root" rolesObject) 3 2;
  snapshot ← validateRole (map_get #"snapshot" rolesObject) 1 1;
  targets ← validateRole (map_get #"targets" rolesObject) 3 2;
  timestamp ← validateRole (map_get #"timestamp" rolesObject) 1 1;
  let allRoleKeys := top_level_keyids root snapshot targets timestamp in
  _ ← ensure (set_size allRoleKeys =? length allRoleKeys)%nat invalid_policy;
  _ ← ensure (within allRoleKeys keys && (set_size keys =? length allRoleKeys)%nat) invalid_policy;
  _ ← ensure (metadata_verifyDelegate (env_metadata envelope) (role_name root_role) (env_metadata envelope)) invalid_signature;
  Ok {| root_keys := root; snapshot_keys := snapshot; targets_keys := targets; timestamp_keys := timestamp;
        root_times := times; root_version := version |}.

Definition verifyDelegate (delegator : ParsedEnvelope) (role : jstring) (delegated : ParsedEnvelope) : trusted unit :=
  ensure (metadata_verifyDelegate (env_metadata delegator) role (env_metadata delegated)) invalid_signature.

Definition sameKeys (left right : ValidatedRole) : bool :=
  (threshold left =? threshold right)%Z && bool_decide (keyids left = keyids right).

(** ** Bindings *)

Record MetaBinding := { mb_length : Z; mb_sha256 : jstring; mb_version : Z }.

(** The digest in an object [{ hashes: { sha256 } }]. *)
Definition bound_digest (object : JsonObject) : trusted jstring :=
  hashes ← record (map_get #"hashes" object);
  _ ← exactKeys hashes [ #"sha256"];
  digest ← string_value (map_get #"sha256" hashes);
  _ ← ensure (SHA256 digest) invalid_metadata;
  Ok digest.

Definition validateMetaBinding (v : option parsed) : trusted MetaBinding :=
  meta ← record v;
  _ ← exactKeys meta [ #"hashes"; #"length"; #"version"];
  digest ← bound_digest meta;
  length ← integer (map_get #"length" meta) (Z.of_N MAX_TUF_METADATA_BYTES);
  version ← integer (map_get #"version" meta) MAX_VERSION;
  Ok {| mb_length := length; mb_sha256 := digest; mb_version := version |}.

Record TimestampPolicy := { ts_snapshot : MetaBinding; ts_times : RoleTimes; ts_version : Z }.

Definition validateTimestamp (envelope : ParsedEnvelope) : trusted TimestampPolicy :=
  signed ← signedObject envelope;
  '(times, version) ← validateCommonSigned signed timestamp_role [ #"meta"];
  meta ← record (map_get #"meta" signed);
  _ ← exactKeys meta [ #"snapshot.json"];
  snapshot ← validateMetaBinding (map_get #"snapshot.json" meta);
  Ok {| ts_snapshot := snapshot; ts_times := times; ts_version := version |}.

Record SnapshotPolicy := { sn_meta : list (jstring * MetaBinding); sn_times : RoleTimes; sn_version : Z }.

Definition SNAPSHOT_FILES : list jstring := [ #"standards-preview.json"; #"standards-stable.json"; #"targets.json"].

Definition validateSnapshot (envelope : ParsedEnvelope) : trusted SnapshotPolicy :=
  signed ← signedObject envelope;
  '(times, version) ← validateCommonSigned signed snapshot_role [ #"meta"];
  meta ← record (map_get #"meta" signed);
  _ ← exactKeys meta SNAPSHOT_FILES;
  result ← rmapM (fun name => binding ← validateMetaBinding (map_get name meta); Ok (name, binding)) SNAPSHOT_FILES;
  Ok {| sn_meta := result; sn_times := times; sn_version := version |}.

Definition verifyMetaBinding (binding : MetaBinding) (envelope : ParsedEnvelope) : trusted unit :=
  _ ← ensure (Z.of_nat (length (bytes envelope)) =? mb_length binding)%Z length_mismatch;
  _ ← ensure (jeqb (env_sha256 envelope) (mb_sha256 binding)) hash_mismatch;
  signed ← record (map_get #"signed" (object envelope));
  ensure (is_integer (map_get #"version" signed) (mb_version binding)) mix_and_match.

(** ** Targets *)

Record DelegationPolicy := { preview_role : ValidatedRole; stable_role : ValidatedRole }.

Record TargetsPolicy := {
  tp_delegations : option DelegationPolicy; tp_targets : JsonObject; tp_times : RoleTimes; tp_version : Z
}.

(** [parsedRoles], filled by the loop over the delegated roles *)
Record parsed_roles := { parsed_preview : option ValidatedRole; parsed_stable : option ValidatedRole }.

Definition parsed_role (roles : parsed_roles) (channel : TufChannel) : option ValidatedRole :=
  match channel with preview => parsed_preview roles | stable => parsed_stable roles end.

Definition set_role (roles : parsed_roles) (channel : TufChannel) (role : ValidatedRole) : parsed_roles :=
  match channel with
  | preview => {| parsed_preview := Some role; parsed_stable := parsed_stable roles |}
  | stable => {| parsed_preview := parsed_preview roles; parsed_stable := Some role |}
  end.

Definition channel_of_role (name : jstring) : option TufChannel :=
  if jeqb name TUF_STABLE_ROLE then Some stable else if jeqb name TUF_PREVIEW_ROLE then Some preview else None.

Definition delegated_role (parsedRoles : parsed_roles) (entry : parsed) : trusted parsed_roles :=
  role ← record (Some entry);
  _ ← exactKeys role [ #"keyids"; #"name"; #"paths"; #"terminating"; #"threshold"];
  name ← string_value (map_get #"name" role);
  channel ← required (channel_of_role name) invalid_policy;
  _ ← ensure (match parsed_role parsedRoles channel with None => true | Some _ => false end) invalid_policy;
  _ ← ensure (is_true (map_get #"terminating" role)) invalid_policy;
  paths ← array (map_get #"paths" role);
  _ ← ensure ((length paths =? 1)%nat && is_text (head paths) (CHANNEL_PATH channel)) channel_mismatch;
  roleKeyids ← required (map_get #"keyids" role) invalid_policy;
  roleThreshold ← required (map_get #"threshold" role) invalid_policy;
  validated ← validateRole (Some (PObject [(#"keyids", roleKeyids); (#"threshold", roleThreshold)])) 3 2;
  Ok (set_role parsedRoles channel validated).

Definition disjoint_from (keys others : list jstring) : bool := forallb (fun id => negb (existsb (jeqb id) others)) keys.

Definition validateTopLevelTargets (envelope : ParsedEnvelope) (root : RootPolicy) : trusted TargetsPolicy :=
  signed ← signedObject envelope;
  '(times, version) ← validateCommonSigned signed targets_role [ #"delegations"; #"targets"];
  targets ← record (map_get #"targets" signed);
  _ ← exactKeys targets [];
  delegations ← record (map_get #"delegations" signed);
  _ ← exactKeys delegations [ #"keys"; #"roles"];
  keys ← validateKeyMap (map_get #"keys" delegations) 6;
  roles ← array (map_get #"roles" delegations);
  _ ← ensure (length roles =? 2)%nat invalid_policy;
  parsedRoles ← foldM delegated_role {| parsed_preview := None; parsed_stable := None |} roles;
  previewRole ← required (parsed_preview parsedRoles) invalid_policy;
  stableRole ← required (parsed_stable parsedRoles) invalid_policy;
  let allDelegated := keyids previewRole ++ keyids stableRole in
  _ ← ensure ((set_size allDelegated =? 6)%nat && within allDelegated keys && (set_size keys =? 6)%nat) invalid_policy;
  _ ← ensure (disjoint_from allDelegated (all_role_keys root)) invalid_policy;
  Ok {| tp_delegations := Some {| preview_role := previewRole; stable_role := stableRole |};
        tp_targets := targets; tp_times := times; tp_version := version |}.

Record TargetBinding := {
  tb_channel : TufChannel; tb_length : Z; tb_minEngineVersion : jstring; tb_packId : jstring;
  tb_packVersion : jstring; tb_schemaVersion : jstring; tb_sha256 : jstring
}.

Definition validateTargetBinding (v : option parsed) (channel : TufChannel) : trusted TargetBinding :=
  target ← record v;
  _ ← exactKeys target [ #"custom"; #"hashes"; #"length"];
  digest ← bound_digest target;
  custom ← record (map_get #"custom" target);
  _ ← exactKeys custom [ #"channel"; #"minEngineVersion"; #"packId"; #"packVersion"; #"schemaVersion"];
  _ ← ensure (is_text (map_get #"channel" custom) (channel_name channel)) channel_mismatch;
  _ ← ensure (is_text (map_get #"schemaVersion" custom) KNOWLEDGE_PACK_CONTRACT_VERSION) unsupported_version;
  minEngineVersion ← boundedString (as_string (map_get #"minEngineVersion" custom)) MAX_TUF_SEMVER_BYTES invalid_metadata;
  packVersion ← boundedString (as_string (map_get #"packVersion" custom)) MAX_TUF_SEMVER_BYTES invalid_metadata;
  _ ← parseSemver minEngineVersion invalid_metadata;
  _ ← parseSemver packVersion invalid_metadata;
  packId ← boundedString (as_string (map_get #"packId" custom)) MAX_TUF_PACK_ID_BYTES invalid_metadata;
  _ ← ensure (PACK_ID packId) invalid_metadata;
  length ← integer (map_get #"length" target) (Z.of_N MAX_TUF_TARGET_BYTES);
  Ok {| tb_channel := channel; tb_length := length; tb_minEngineVersion := minEngineVersion; tb_packId := packId;
        tb_packVersion := packVersion; tb_schemaVersion := KNOWLEDGE_PACK_CONTRACT_VERSION; tb_sha256 := digest |}.

(** One target of the delegated metadata. *)
Definition delegated_target (targets : JsonObject) (channel : TufChannel) (requestedPath : jstring)
    (requestedBinding : option TargetBinding) (name : jstring) : trusted (option TargetBinding) :=
  _ ← boundedString (Some name) MAX_TUF_TARGET_PATH_BYTES invalid_metadata;
  _ ← ensure (TARGET_PATH name && startsWith name (channel_prefix channel)) channel_mismatch;
  binding ← validateTargetBinding (map_get name targets) channel;
  Ok (if jeqb name requestedPath then Some binding else requestedBinding).

Definition validateDelegatedTargets (envelope : ParsedEnvelope) (channel : TufChannel) (requestedPath : jstring)
  : trusted (TargetBinding * TargetsPolicy) :=
  signed ← signedObject envelope;
  '(times, version) ← validateCommonSigned signed targets_role [ #"targets"];
  targets ← record (map_get #"targets" signed);
  let names := keys_of targets in
  _ ← ensure ((1 <=? length names)%nat && (length names <=? 1000)%nat) resource_limit;
  _ ← ensure (bool_decide (names = sort_by jleb names)) invalid_policy;
  requestedBinding ← foldM (delegated_target targets channel requestedPath) None names;
  binding ← required requestedBinding target_not_found;
  Ok (binding, {| tp_delegations := None; tp_targets := targets; tp_times := times; tp_version := version |}).

End metadata.
