(* ===== verification/TufTrust.v ===== *)
(** The offline trust store (packages/standards/src/tuf-trust.ts): requests and
    bundles are checked at the boundary; [bootstrap] takes a self-signed root,
    [verifyUpdate] runs a complete update along the chain of trust, and
    [snapshot] reports the state. *)
From S2P Require Import Prelude JsString Unicode Identifiers OrderedMap JsValue ObjectGraph JsonParse UtcTime TufText TufMetadata.

(** ** The boundary *)

(** The own data properties of a plain object, its symbols and accessors refused. *)
Definition plainDataObject (h : heap) (v : value) : trusted (list (jstring * value)) :=
  match object_of h v with
  | Some o =>
      _ ← ensure (negb (obj_proxy o) && negb (is_array o)) invalid_input;
      _ ← ensure (match obj_prototype o with ObjectPrototype | NullPrototype => true | _ => false end) invalid_input;
      rmapM (fun p => key ← required (prop_key p) invalid_input;
                      value ← required (prop_value p) invalid_input;
                      Ok (key, value)) (obj_own o)
  | None => Err invalid_input
  end.

Definition exactInputKeys (object : list (jstring * value)) (required_keys optional_keys : list jstring) : trusted unit :=
  ensure (forallb (fun key => map_has key object) required_keys
          && forallb (fun key => existsb (jeqb key) (required_keys ++ optional_keys)) (keys_of object)) invalid_input.

(** The string a value is. *)
Definition input_string (v : option value) : option jstring :=
  match v with Some (VString s) => Some s | _ => None end.

Record TufOfflineUpdateRequest := {
  channel : TufChannel; engineVersion : jstring; startedAt : jstring; req_targetPath : jstring
}.

Definition channel_named (name : jstring) : option TufChannel :=
  if jeqb name #"preview" then Some preview else if jeqb name #"stable" then Some stable else None.

Definition validateRequest (h : heap) (input : value) : trusted TufOfflineUpdateRequest :=
  request ← plainDataObject h input;
  _ ← exactInputKeys request [ #"channel"; #"engineVersion"; #"startedAt"; #"targetPath"] [];
  name ← boundedString (input_string (map_get #"channel" request)) 7 invalid_input;
  channel ← required (channel_named name) invalid_input;
  engineVersion ← boundedString (input_string (map_get #"engineVersion" request)) MAX_TUF_SEMVER_BYTES invalid_input;
  _ ← parseSemver engineVersion invalid_input;
  startedAt ← boundedString (input_string (map_get #"startedAt" request)) 20 invalid_input;
  _ ← parseUtc (Some startedAt);
  targetPath ← boundedString (input_string (map_get #"targetPath" request)) MAX_TUF_TARGET_PATH_BYTES invalid_input;
  _ ← ensure (TARGET_PATH targetPath) invalid_input;
  _ ← ensure (startsWith targetPath (channel_prefix channel)) channel_mismatch;
  Ok {| channel := channel; engineVersion := engineVersion; startedAt := startedAt; req_targetPath := targetPath |}.

(** [typeof item === "string" || isUint8Array(item)] *)
Definition is_document (h : heap) (item : value) : bool :=
  match item with
  | VString _ => true
  | _ => match object_of h item with
         | Some {| obj_proxy := false; obj_slots := ByteSlots b |} => view_uint8 b
         | _ => false
         end
  end.

Definition validateRoots (h : heap) (v : option value) : trusted (list value) :=
  match v with
  | None | Some VUndefined => Ok []
  | Some v =>
      match object_of h v with
      | Some o =>
          _ ← ensure (negb (obj_proxy o) && is_array o) invalid_input;
          _ ← ensure (match obj_prototype o with ArrayPrototype => true | _ => false end
                      && (array_length o <=? MAX_TUF_ROOT_CHAIN)%N) resource_limit;
          _ ← ensure (N.of_nat (length (obj_own o)) =? array_length o)%N invalid_input;
          rmapM (fun index =>
            match descriptor (obj_own o) (String_of_N (N.of_nat index)) with
            | Some {| prop_value := Some item |} => _ ← ensure (is_document h item) invalid_input; Ok item
            | _ => Err invalid_input
            end) (seq 0 (N.to_nat (array_length o)))
      | None => Err invalid_input
      end
  end.

Record TufOfflineUpdateBundle := {
  b_roots : list value; b_timestamp : value; b_snapshot : value; b_targets : value; b_delegatedTargets : value;
  b_target : value
}.

(** [object.key] of the copied object *)
Definition property_of (object : list (jstring * value)) (key : jstring) : value :=
  match map_get key object with Some v => v | None => VUndefined end.

Definition validateBundle (h : heap) (input : value) : trusted TufOfflineUpdateBundle :=
  bundle ← plainDataObject h input;
  _ ← exactInputKeys bundle [ #"delegatedTargets"; #"snapshot"; #"target"; #"targets"; #"timestamp"] [ #"roots"];
  roots ← validateRoots h (map_get #"roots" bundle);
  Ok {| b_roots := roots; b_timestamp := property_of bundle #"timestamp"; b_snapshot := property_of bundle #"snapshot";
        b_targets := property_of bundle #"targets"; b_delegatedTargets := property_of bundle #"delegatedTargets";
        b_target := property_of bundle #"target" |}.

Section store.
Context `{TufModels} `{Sha256}.

(** ** The state *)

Record InternalState := {
  st_root : ParsedEnvelope; st_snapshot : option ParsedEnvelope; st_targets : option ParsedEnvelope;
  st_timestamp : option ParsedEnvelope; st_preview : option ParsedEnvelope; st_stable : option ParsedEnvelope
}.

Definition st_delegated (state : InternalState) (channel : TufChannel) : option ParsedEnvelope :=
  match channel with preview => st_preview state | stable => st_stable state end.

(** [OfflineTufTrustStore.bootstrap(root)] *)
Definition bootstrap (h : heap) (root : value) : trusted InternalState :=
  envelope ← parseEnvelope h root root_role;
  _ ← validateRoot envelope;
  Ok {| st_root := envelope; st_snapshot := None; st_targets := None; st_timestamp := None; st_preview := None;
        st_stable := None |}.

Record TufTrustedMetadataSummary := {
  sum_expires : jstring; sum_issuedAt : jstring; sum_role : jstring; sum_sha256 : jstring; sum_version : Z
}.

Definition metadataSummary (envelope : ParsedEnvelope) (role : jstring) : trusted TufTrustedMetadataSummary :=
  signed ← record (map_get #"signed" (object envelope));
  extension ← record (map_get #"x-agent-context" signed);
  expires ← string_value (map_get #"expires" signed);
  issuedAt ← string_value (map_get #"issuedAt" extension);
  version ← integer (map_get #"version" signed) MAX_VERSION;
  Ok {| sum_expires := expires; sum_issuedAt := issuedAt; sum_role := role; sum_sha256 := env_sha256 envelope;
        sum_version := version |}.

Definition optionalSummary (envelope : option ParsedEnvelope) (role : jstring)
  : trusted (option TufTrustedMetadataSummary) :=
  match envelope with
  | None => Ok None
  | Some e => summary ← metadataSummary e role; Ok (Some summary)
  end.

Record TufTrustedStateSnapshot := {
  ss_root : TufTrustedMetadataSummary; ss_snapshot : option TufTrustedMetadataSummary;
  ss_targets : option TufTrustedMetadataSummary; ss_timestamp : option TufTrustedMetadataSummary;
  ss_preview : option TufTrustedMetadataSummary; ss_stable : option TufTrustedMetadataSummary
}.

(** [store.snapshot()]; an exception leaves the call. *)
Definition snapshot (state : InternalState) : trusted TufTrustedStateSnapshot :=
  preview_ ← optionalSummary (st_preview state) TUF_PREVIEW_ROLE;
  stable_ ← optionalSummary (st_stable state) TUF_STABLE_ROLE;
  root ← metadataSummary (st_root state) #"root";
  snapshot ← optionalSummary (st_snapshot state) #"snapshot";
  targets ← optionalSummary (st_targets state) #"targets";
  timestamp ← optionalSummary (st_timestamp state) #"timestamp";
  Ok {| ss_root := root; ss_snapshot := snapshot; ss_targets := targets; ss_timestamp := timestamp;
        ss_preview := preview_; ss_stable := stable_ |}.

(** ** Updates *)

Definition retainDelegated (previous : option ParsedEnvelope) (binding : MetaBinding) : trusted (option ParsedEnvelope) :=
  match previous with
  | None => Ok None
  | Some e =>
      signed ← record (map_get #"signed" (object e));
      Ok (if jeqb (env_sha256 e) (mb_sha256 binding) && (Z.of_nat (length (bytes e)) =? mb_length binding)%Z
             && is_integer (map_get #"version" signed) (mb_version binding)
          then Some e else None)
  end.

Definition requireMetaBinding (meta : list (jstring * MetaBinding)) (name : jstring) : trusted MetaBinding :=
  required (map_get name meta) mix_and_match.

(** The variables of the loop over the roots of a bundle. *)
Record root_chain := {
  trustedRoot : ParsedEnvelope; trustedRootPolicy : RootPolicy; appliedRootVersions : list Z;
  timestampAuthorityRotated : bool; snapshotAuthorityRotated : bool
}.

Definition applyRoot (h : heap) (chain : root_chain) (input : value) : trusted root_chain :=
  candidate ← parseEnvelope h input root_role;
  candidatePolicy ← validateRoot candidate;
  _ ← ensure (root_version candidatePolicy =? root_version (trustedRootPolicy chain) + 1)%Z root_continuity;
  _ ← verifyDelegate (trustedRoot chain) (role_name root_role) candidate;
  Ok {| trustedRoot := candidate; trustedRootPolicy := candidatePolicy;
        appliedRootVersions := appliedRootVersions chain ++ [root_version candidatePolicy];
        timestampAuthorityRotated := timestampAuthorityRotated chain
          || negb (sameKeys (timestamp_keys (trustedRootPolicy chain)) (timestamp_keys candidatePolicy));
        snapshotAuthorityRotated := snapshotAuthorityRotated chain
          || negb (sameKeys (snapshot_keys (trustedRootPolicy chain)) (snapshot_keys candidatePolicy)) |}.

(** The timestamp against the one trusted before. *)
Definition newerTimestamp (policy : TimestampPolicy) (prior : option ParsedEnvelope) : trusted unit :=
  match prior with
  | None => Ok tt
  | Some e =>
      previous ← validateTimestamp e;
      _ ← ensure (ts_version previous <=? ts_version policy)%Z rollback;
      _ ← ensure (negb (ts_version policy =? ts_version previous)%Z) replay;
      ensure (mb_version (ts_snapshot previous) <=? mb_version (ts_snapshot policy))%Z rollback
  end.

(** The snapshot against the one trusted before. *)
Definition newerSnapshot (policy : SnapshotPolicy) (prior : option ParsedEnvelope) : trusted unit :=
  match prior with
  | None => Ok tt
  | Some e =>
      previous ← validateSnapshot e;
      foldM (fun _ entry =>
        ensure (match map_get entry.1 (sn_meta policy) with
                | None => false
                | Some next => (mb_version entry.2 <=? mb_version next)%Z
                end) rollback) tt (sn_meta previous)
  end.

(** [`${CHANNEL_ROLE[channel]}.json`] *)
Definition delegatedName (channel : TufChannel) : jstring := CHANNEL_ROLE channel ++ #".json".

Definition otherChannel (channel : TufChannel) : TufChannel :=
  match channel with stable => preview | preview => stable end.

Record TufVerifiedTarget := { vt_binding : TargetBinding; vt_targetPath : jstring }.

Record TufVerifiedUpdate := {
  rootVersionsApplied : list Z; up_snapshotRotated : bool; up_timestampRotated : bool;
  up_state : InternalState; up_target : TufVerifiedTarget; targetBytes : list N
}.

(** The metadata of an update and what was read from it. *)
Record verified_metadata := {
  vm_timestamp : ParsedEnvelope; vm_snapshot : ParsedEnvelope; vm_snapshotPolicy : SnapshotPolicy;
  vm_targets : ParsedEnvelope; vm_delegated : ParsedEnvelope; vm_binding : TargetBinding
}.

(** From the timestamp to the delegated targets, under the root of [chain]. *)
Definition verifyMetadata (h : heap) (chain : root_chain) (priorTimestamp priorSnapshot : option ParsedEnvelope)
    (bundle : TufOfflineUpdateBundle) (request : TufOfflineUpdateRequest) (started : Z) : trusted verified_metadata :=
  timestamp ← parseEnvelope h (b_timestamp bundle) timestamp_role;
  timestampPolicy ← validateTimestamp timestamp;
  _ ← verifyDelegate (trustedRoot chain) (role_name timestamp_role) timestamp;
  _ ← validateAtStart (ts_times timestampPolicy) started;
  _ ← newerTimestamp timestampPolicy priorTimestamp;
  snapshot ← parseEnvelope h (b_snapshot bundle) snapshot_role;
  _ ← verifyMetaBinding (ts_snapshot timestampPolicy) snapshot;
  snapshotPolicy ← validateSnapshot snapshot;
  _ ← verifyDelegate (trustedRoot chain) (role_name snapshot_role) snapshot;
  _ ← validateAtStart (sn_times snapshotPolicy) started;
  _ ← newerSnapshot snapshotPolicy priorSnapshot;
  targets ← parseEnvelope h (b_targets bundle) targets_role;
  targetsBinding ← requireMetaBinding (sn_meta snapshotPolicy) #"targets.json";
  _ ← verifyMetaBinding targetsBinding targets;
  targetsPolicy ← validateTopLevelTargets targets (trustedRootPolicy chain);
  _ ← verifyDelegate (trustedRoot chain) (role_name targets_role) targets;
  _ ← validateAtStart (tp_times targetsPolicy) started;
  delegated ← parseEnvelope h (b_delegatedTargets bundle) targets_role;
  delegatedBinding ← requireMetaBinding (sn_meta snapshotPolicy) (delegatedName (channel request));
  _ ← verifyMetaBinding delegatedBinding delegated;
  '(binding, policy) ← validateDelegatedTargets delegated (channel request) (req_targetPath request);
  _ ← verifyDelegate targets (CHANNEL_ROLE (channel request)) delegated;
  _ ← validateAtStart (tp_times policy) started;
  Ok {| vm_timestamp := timestamp; vm_snapshot := snapshot; vm_snapshotPolicy := snapshotPolicy;
        vm_targets := targets; vm_delegated := delegated; vm_binding := binding |}.

(** The target against its binding, and the engine against the target. *)
Definition verifyTarget (h : heap) (binding : TargetBinding) (target : value) (engine : jstring) : trusted (list N) :=
  comparison ← compareSemver engine (tb_minEngineVersion binding);
  _ ← ensure (0 <=? comparison)%Z incompatible_engine;
  bytes ← copyBytes h target MAX_TUF_TARGET_BYTES;
  _ ← ensure (Z.of_nat (length bytes) =? tb_length binding)%Z length_mismatch;
  _ ← ensure (jeqb (hex (sha256 bytes)) (tb_sha256 binding)) hash_mismatch;
  Ok bytes.

Definition nextState (root : ParsedEnvelope) (m : verified_metadata) (selected : TufChannel)
    (other : option ParsedEnvelope) : InternalState :=
  {| st_root := root; st_snapshot := Some (vm_snapshot m); st_targets := Some (vm_targets m);
     st_timestamp := Some (vm_timestamp m);
     st_preview := match selected with preview => Some (vm_delegated m) | stable => other end;
     st_stable := match selected with stable => Some (vm_delegated m) | preview => other end |}.

Definition verifyUpdate (h : heap) (state : InternalState) (bundleInput requestInput : value) : trusted TufVerifiedUpdate :=
  bundle ← validateBundle h bundleInput;
  request ← validateRequest h requestInput;
  started ← parseUtc (Some (startedAt request));
  rootPolicy ← validateRoot (st_root state);
  chain ← foldM (applyRoot h)
    {| trustedRoot := st_root state; trustedRootPolicy := rootPolicy; appliedRootVersions := [];
       timestampAuthorityRotated := false; snapshotAuthorityRotated := false |} (b_roots bundle);
  _ ← validateAtStart (root_times (trustedRootPolicy chain)) started;
  let resetOnlineState := timestampAuthorityRotated chain || snapshotAuthorityRotated chain in
  m ← verifyMetadata h chain (if resetOnlineState then None else st_timestamp state)
                     (if resetOnlineState then None else st_snapshot state) bundle request started;
  bytes ← verifyTarget h (vm_binding m) (b_target bundle) (engineVersion request);
  other ← (if resetOnlineState then Ok None
           else binding ← requireMetaBinding (sn_meta (vm_snapshotPolicy m)) (delegatedName (otherChannel (channel request)));
                retainDelegated (st_delegated state (otherChannel (channel request))) binding);
  Ok {| rootVersionsApplied := appliedRootVersions chain;
        up_snapshotRotated := snapshotAuthorityRotated chain; up_timestampRotated := timestampAuthorityRotated chain;
        up_state := nextState (trustedRoot chain) m (channel request) other;
        up_target := {| vt_binding := vm_binding m; vt_targetPath := req_targetPath request |};
        targetBytes := bytes |}.

End store.
