(* ===== verification/TufLaws.v ===== *)
(** What an accepted update proves: the chain of trust from the bundled root to
    the bytes of the target, the invariant of the store, and the impossibility
    of rollback, replay and mix-and-match. *)
From S2P Require Import Prelude JsString Unicode Utf8 Identifiers OrderedMap JsValue ObjectGraph JsonParse UtcTime TufText TufMetadata TufTrust.

Lemma required_Ok {A} (x : option A) code a : required x code = Ok a <-> x = Some a.
Proof. destruct x; cbn; [|done]. split; [by intros [= ->]|by intros [= ->]]. Qed.

Lemma parseUtc_Ok v ms : parseUtc v = Ok ms -> exists text, v = Some text /\ utc_milliseconds text = Some ms.
Proof.
  unfold parseUtc. destruct v as [text|]; [|done]. destruct (utc_milliseconds text) as [ms'|] eqn:E; [|done].
  intros [= ->]. by exists text.
Qed.

Lemma as_string_Some v s : as_string v = Some s -> v = Some (PString s).
Proof. destruct v as [[]|]; try done. by intros [= ->]. Qed.

Lemma object_record_Ok v o : record v = Ok o <-> v = Some (PObject o).
Proof. destruct v as [[]|]; try done. cbn. split; [by intros [= ->]|by intros [= ->]]. Qed.

Lemma object_integer_Ok v m n : integer v m = Ok n -> v = Some (PInteger n) /\ (0 < n <= m)%Z.
Proof.
  unfold integer. destruct v as [[]|]; try done. destruct (_ && _) eqn:E; [|done]. intros [= ->].
  apply andb_true_iff in E as [?%Z.ltb_lt ?%Z.leb_le]. done.
Qed.

Lemma foldM_unit_Ok {A E} (f : A -> res E unit) l :
  foldM (fun _ a => f a) tt l = Ok tt <-> Forall (fun a => f a = Ok tt) l.
Proof.
  induction l as [|a l IH]; cbn; [split; [constructor|done]|]. rewrite bind_Ok, Forall_cons. split.
  - intros ([] & Ha & Hl). by apply IH in Hl.
  - intros [Ha Hl]. exists tt. by rewrite IH.
Qed.

(** Runs one call of a chain whose result is known. *)
Ltac runs H := rewrite H; cbn [mbind res_mbind].

Section laws.
Context `{TufModels} `{Sha256}.

(** ** Envelopes *)

(** An envelope some input was parsed to. *)
Definition parsed_as (role : TufMetadataRole) (e : ParsedEnvelope) : Prop :=
  exists h input, parseEnvelope h input role = Ok e.

Lemma parsed_as_fields role e : parsed_as role e ->
  utf8_decode (bytes e) = Some (canonicalJson e) /\ JSON_parse (canonicalJson e) = Ok (PObject (object e))
  /\ canonicalize (PObject (object e)) = Some (canonicalJson e)
  /\ Metadata_fromJSON role (PObject (object e)) = Some (env_metadata e)
  /\ env_sha256 e = hex (sha256 (bytes e))
  /\ is_bom (bytes e) = false /\ preflightJson (canonicalJson e) = Ok tt /\ isJsonValue (PObject (object e)) 0 = true.
Proof.
  intros (h & input & Hp). unfold parseEnvelope in Hp.
  apply bind_Ok in Hp as (b & _ & Hp). apply bind_Ok in Hp as (text & Ht%required_Ok & Hp).
  apply bind_ensure in Hp as (Hbom%negb_true_iff & Hp). apply bind_Ok in Hp as ([] & Hpre & Hp).
  apply bind_Ok in Hp as (v & Hv & Hp). destruct (JSON_parse text) as [v'|] eqn:Hj; [|done]. injection Hv as ->.
  apply bind_Ok in Hp as (o & Ho & Hp). destruct v as [| | | | | | |fields]; try done.
  destruct (isJsonValue _ _) eqn:Hval; [|done]. injection Ho as ->.
  apply bind_Ok in Hp as (c & Hc%required_Ok & Hp). apply bind_ensure in Hp as (->%jeqb_eq & Hp).
  apply bind_Ok in Hp as (m & Hm%required_Ok & Hp). apply Ok_inj in Hp. subst e. done.
Qed.

(** The bytes determine everything else. *)
Lemma parsed_same_bytes role e e' : parsed_as role e -> parsed_as role e' -> bytes e = bytes e' -> e = e'.
Proof.
  intros (T1 & J1 & _ & M1 & S1 & _)%parsed_as_fields (T2 & J2 & _ & M2 & S2 & _)%parsed_as_fields Hb.
  destruct e as [c b m o s], e' as [c' b' m' o' s']. cbn in *. subst b'.
  assert (c = c') as -> by congruence. assert (o = o') as -> by congruence. congruence.
Qed.

(** And so does the object: its canonical text is its only text. *)
Lemma parsed_same_object role e e' : parsed_as role e -> parsed_as role e' -> object e = object e' -> e = e'.
Proof.
  intros He He' Ho. apply (parsed_same_bytes role); [done..|].
  destruct (parsed_as_fields _ _ He) as (T1 & _ & C1 & _), (parsed_as_fields _ _ He') as (T2 & _ & C2 & _).
  rewrite Ho in C1. assert (canonicalJson e = canonicalJson e') as E by congruence.
  apply utf8_decode_iff in T1 as (_ & _ & <-), T2 as (_ & _ & <-). by rewrite E.
Qed.

(** ** Bindings *)

(** The metadata a binding of its parent stands for. *)
Definition bound (b : MetaBinding) (e : ParsedEnvelope) : Prop :=
  Z.of_nat (length (bytes e)) = mb_length b /\ env_sha256 e = mb_sha256 b
  /\ exists signed, map_get #"signed" (object e) = Some (PObject signed)
     /\ is_integer (map_get #"version" signed) (mb_version b) = true.

Lemma bound_Ok b e u : verifyMetaBinding b e = Ok u <-> bound b e.
Proof.
  destruct u. unfold verifyMetaBinding, bound. rewrite !bind_ensure, Z.eqb_eq, jeqb_eq, bind_Ok.
  setoid_rewrite object_record_Ok. setoid_rewrite ensure_Ok. done.
Qed.

(** One binding, two envelopes: the same, or their bytes collide. *)
Lemma bound_same role b e e' : parsed_as role e -> parsed_as role e' -> bound b e -> bound b e' ->
  e = e' \/ collide (bytes e) (bytes e').
Proof.
  intros He He' (_ & Hs & _) (_ & Hs' & _).
  destruct (parsed_as_fields _ _ He) as (_ & _ & _ & _ & S1 & _), (parsed_as_fields _ _ He') as (_ & _ & _ & _ & S2 & _).
  assert (hex (sha256 (bytes e)) = hex (sha256 (bytes e'))) as Hh by congruence.
  apply hex_sha256_inj in Hh as [Hb|?]; [left|by right]. by apply (parsed_same_bytes role).
Qed.

(** ** The chain of trust *)

(** [started] lies in the life of the metadata, up to the skew of its clock. *)
Definition current (times : RoleTimes) (started : Z) : Prop :=
  (issuedAtMs times <= started + TUF_CLOCK_SKEW_MS /\ started < expiresMs times)%Z.

Lemma current_Ok times started u : validateAtStart times started = Ok u <-> current times started.
Proof.
  destruct u. unfold validateAtStart, current. rewrite bind_ensure, ensure_Ok, Z.leb_le, Z.ltb_lt. done.
Qed.

Definition signed_by (delegator : ParsedEnvelope) (role : jstring) (e : ParsedEnvelope) : Prop :=
  metadata_verifyDelegate (env_metadata delegator) role (env_metadata e) = true.

Lemma signed_by_Ok delegator role e u : verifyDelegate delegator role e = Ok u <-> signed_by delegator role e.
Proof. destruct u. apply ensure_Ok. Qed.

(** [next] replaces [root]: one version later, signed by both. *)
Definition succeeds (root : ParsedEnvelope) (policy : RootPolicy) (next : ParsedEnvelope) (policy' : RootPolicy) : Prop :=
  validateRoot next = Ok policy' /\ root_version policy' = (root_version policy + 1)%Z
  /\ signed_by root (role_name root_role) next.

(** The chain with one more root. *)
Definition extended (c : root_chain) (next : ParsedEnvelope) (policy' : RootPolicy) : root_chain :=
  {| trustedRoot := next; trustedRootPolicy := policy';
     appliedRootVersions := appliedRootVersions c ++ [root_version policy'];
     timestampAuthorityRotated := timestampAuthorityRotated c
       || negb (sameKeys (timestamp_keys (trustedRootPolicy c)) (timestamp_keys policy'));
     snapshotAuthorityRotated := snapshotAuthorityRotated c
       || negb (sameKeys (snapshot_keys (trustedRootPolicy c)) (snapshot_keys policy')) |}.

(** A path of roots. *)
Inductive root_path (h : heap) : root_chain -> list value -> root_chain -> Prop :=
| path_end c : root_path h c [] c
| path_step c input rest next policy' c' :
    parseEnvelope h input root_role = Ok next ->
    succeeds (trustedRoot c) (trustedRootPolicy c) next policy' ->
    root_path h (extended c next policy') rest c' ->
    root_path h c (input :: rest) c'.

Lemma applyRoot_Ok h c input c' : applyRoot h c input = Ok c' <->
  exists next policy', parseEnvelope h input root_role = Ok next
    /\ succeeds (trustedRoot c) (trustedRootPolicy c) next policy' /\ c' = extended c next policy'.
Proof.
  unfold applyRoot, succeeds. split.
  - intros Hn. apply bind_Ok in Hn as (e & He & Hn). apply bind_Ok in Hn as (p & Hp & Hn).
    apply bind_ensure in Hn as (Hv%Z.eqb_eq & Hn). apply bind_Ok in Hn as (u & Hs%signed_by_Ok & Hn).
    apply Ok_inj in Hn. by exists e, p.
  - intros (e & p & He & (Hp & Hv & Hs) & ->). rewrite He. cbn [mbind res_mbind]. rewrite Hp. cbn [mbind res_mbind].
    rewrite (proj2 (Z.eqb_eq _ _) Hv). cbn [ensure mbind res_mbind]. by rewrite (proj2 (signed_by_Ok _ _ _ tt) Hs).
Qed.

Lemma root_path_Ok h c inputs c' : foldM (applyRoot h) c inputs = Ok c' <-> root_path h c inputs c'.
Proof.
  revert c. induction inputs as [|input inputs IH]; intros c; cbn [foldM].
  - split; [intros [= ->]; constructor|by inversion 1].
  - rewrite bind_Ok. setoid_rewrite applyRoot_Ok. split.
    + intros (? & (e & p & He & Hs & ->) & Hrest). econstructor; [done..|by apply IH].
    + inversion 1 as [|? ? ? e p ? He Hs Hrest]; subst. eexists. split; [by exists e, p|]. by apply IH.
Qed.

(** No file bound by the earlier snapshot is absent from the later one or bound
    in an older version. *)
Definition no_older (previous policy : SnapshotPolicy) : Prop :=
  forall name prior, (name, prior) ∈ sn_meta previous ->
  exists next, map_get name (sn_meta policy) = Some next /\ (mb_version prior <= mb_version next)%Z.

Lemma newerSnapshot_Ok policy prior u : newerSnapshot policy prior = Ok u <->
  forall e, prior = Some e -> exists previous, validateSnapshot e = Ok previous /\ no_older previous policy.
Proof.
  destruct u, prior as [e|]; cbn [newerSnapshot]; [|by split]. rewrite bind_Ok. setoid_rewrite foldM_unit_Ok.
  assert (forall previous, Forall (fun entry => ensure (match map_get entry.1 (sn_meta policy) with
            | None => false | Some next => (mb_version entry.2 <=? mb_version next)%Z end) rollback = Ok tt) (sn_meta previous)
          <-> no_older previous policy) as Hf.
  { intros previous. unfold no_older. rewrite Forall_forall. split.
    - intros Hall name prior Hin. specialize (Hall _ Hin). apply ensure_Ok in Hall. cbn in Hall.
      destruct (map_get name (sn_meta policy)) as [next|]; [|done]. exists next. by apply Z.leb_le in Hall.
    - intros Hall [name prior] Hin. apply ensure_Ok. cbn. destruct (Hall name prior Hin) as (next & -> & ?). by apply Z.leb_le. }
  setoid_rewrite Hf. split; [by intros (p & Hp & Hn) e' [= <-]; exists p|]. intros Hall. by apply Hall.
Qed.

(** A later timestamp, whose snapshot is not older. *)
Definition later (previous policy : TimestampPolicy) : Prop :=
  (ts_version previous < ts_version policy /\ mb_version (ts_snapshot previous) <= mb_version (ts_snapshot policy))%Z.

Lemma newerTimestamp_Ok policy prior u : newerTimestamp policy prior = Ok u <->
  forall e, prior = Some e -> exists previous, validateTimestamp e = Ok previous /\ later previous policy.
Proof.
  destruct u, prior as [e|]; cbn [newerTimestamp]; [|by split]. rewrite bind_Ok. unfold later. split.
  - intros (p & Hp & Hn) e' [= <-]. exists p. apply bind_ensure in Hn as (?%Z.leb_le & Hn).
    apply bind_ensure in Hn as (?%negb_true_iff%Z.eqb_neq & Hn). apply ensure_Ok, Z.leb_le in Hn. split; [done|lia].
  - intros Hall. destruct (Hall e eq_refl) as (p & Hp & Hlt & Hle). exists p. split; [done|].
    rewrite (proj2 (Z.leb_le _ _)) by lia. cbn [ensure mbind res_mbind].
    rewrite (proj2 (Z.eqb_neq _ _)) by lia. cbn [negb ensure mbind res_mbind]. by rewrite (proj2 (Z.leb_le _ _)) by lia.
Qed.

(** The documents of an update, the policies read from them and the bindings
    they were found through. *)
Record policies := {
  p_timestamp : TimestampPolicy; p_targets : TargetsPolicy; p_delegated : TargetsPolicy;
  p_targetsBinding : MetaBinding; p_delegatedBinding : MetaBinding
}.

(** Every document is the one its parent binds, is signed by the role its
    parent authorizes, satisfies the policy of its role and is current; nothing
    trusted before is newer. *)
Record authorized (h : heap) (c : root_chain) (priorTimestamp priorSnapshot : option ParsedEnvelope)
    (bundle : TufOfflineUpdateBundle) (request : TufOfflineUpdateRequest) (started : Z)
    (m : verified_metadata) (p : policies) : Prop := {
  au_documents : parseEnvelope h (b_timestamp bundle) timestamp_role = Ok (vm_timestamp m)
    /\ parseEnvelope h (b_snapshot bundle) snapshot_role = Ok (vm_snapshot m)
    /\ parseEnvelope h (b_targets bundle) targets_role = Ok (vm_targets m)
    /\ parseEnvelope h (b_delegatedTargets bundle) targets_role = Ok (vm_delegated m);
  au_policies : validateTimestamp (vm_timestamp m) = Ok (p_timestamp p)
    /\ validateSnapshot (vm_snapshot m) = Ok (vm_snapshotPolicy m)
    /\ validateTopLevelTargets (vm_targets m) (trustedRootPolicy c) = Ok (p_targets p)
    /\ validateDelegatedTargets (vm_delegated m) (channel request) (req_targetPath request) = Ok (vm_binding m, p_delegated p);
  au_bindings : map_get #"targets.json" (sn_meta (vm_snapshotPolicy m)) = Some (p_targetsBinding p)
    /\ map_get (delegatedName (channel request)) (sn_meta (vm_snapshotPolicy m)) = Some (p_delegatedBinding p);
  au_bound : bound (ts_snapshot (p_timestamp p)) (vm_snapshot m)
    /\ bound (p_targetsBinding p) (vm_targets m) /\ bound (p_delegatedBinding p) (vm_delegated m);
  au_signed : signed_by (trustedRoot c) (role_name timestamp_role) (vm_timestamp m)
    /\ signed_by (trustedRoot c) (role_name snapshot_role) (vm_snapshot m)
    /\ signed_by (trustedRoot c) (role_name targets_role) (vm_targets m)
    /\ signed_by (vm_targets m) (CHANNEL_ROLE (channel request)) (vm_delegated m);
  au_current : current (ts_times (p_timestamp p)) started /\ current (sn_times (vm_snapshotPolicy m)) started
    /\ current (tp_times (p_targets p)) started /\ current (tp_times (p_delegated p)) started;
  au_timestamp : forall e, priorTimestamp = Some e ->
    exists previous, validateTimestamp e = Ok previous /\ later previous (p_timestamp p);
  au_snapshot : forall e, priorSnapshot = Some e ->
    exists previous, validateSnapshot e = Ok previous /\ no_older previous (vm_snapshotPolicy m)
}.

Lemma verifyMetadata_Ok h c pt ps bundle request started m :
  verifyMetadata h c pt ps bundle request started = Ok m
  <-> exists p, authorized h c pt ps bundle request started m p.
Proof.
  unfold verifyMetadata. split.
  - intros Hm.
    apply bind_Ok in Hm as (t & T1 & Hm). apply bind_Ok in Hm as (tp & T2 & Hm).
    apply bind_Ok in Hm as (? & T3%signed_by_Ok & Hm). apply bind_Ok in Hm as (? & T4%current_Ok & Hm).
    apply bind_Ok in Hm as (? & T5 & Hm). rewrite newerTimestamp_Ok in T5.
    apply bind_Ok in Hm as (s & S1 & Hm). apply bind_Ok in Hm as (? & S2%bound_Ok & Hm).
    apply bind_Ok in Hm as (sp & S3 & Hm). apply bind_Ok in Hm as (? & S4%signed_by_Ok & Hm).
    apply bind_Ok in Hm as (? & S5%current_Ok & Hm). apply bind_Ok in Hm as (? & S6 & Hm). rewrite newerSnapshot_Ok in S6.
    apply bind_Ok in Hm as (g & G1 & Hm). apply bind_Ok in Hm as (gb & G2%required_Ok & Hm).
    apply bind_Ok in Hm as (? & G3%bound_Ok & Hm). apply bind_Ok in Hm as (gp & G4 & Hm).
    apply bind_Ok in Hm as (? & G5%signed_by_Ok & Hm). apply bind_Ok in Hm as (? & G6%current_Ok & Hm).
    apply bind_Ok in Hm as (d & D1 & Hm). apply bind_Ok in Hm as (db & D2%required_Ok & Hm).
    apply bind_Ok in Hm as (? & D3%bound_Ok & Hm). apply bind_Ok in Hm as ([b dp] & D4 & Hm).
    apply bind_Ok in Hm as (? & D5%signed_by_Ok & Hm). apply bind_Ok in Hm as (? & D6%current_Ok & Hm).
    apply Ok_inj in Hm. subst m.
    exists {| p_timestamp := tp; p_targets := gp; p_delegated := dp; p_targetsBinding := gb; p_delegatedBinding := db |}.
    by constructor.
  - intros (p & [(T1 & S1 & G1 & D1) (T2 & S3 & G4 & D4) (G2 & D2) (S2 & G3 & D3)
                 (T3 & S4 & G5 & D5) (T4 & S5 & G6 & D6) T5 S6]).
    apply (signed_by_Ok _ _ _ tt) in T3, S4, G5, D5. apply (current_Ok _ _ tt) in T4, S5, G6, D6.
    apply (newerTimestamp_Ok _ _ tt) in T5. apply (newerSnapshot_Ok _ _ tt) in S6.
    apply (required_Ok _ mix_and_match) in G2, D2. apply (bound_Ok _ _ tt) in S2, G3, D3. unfold requireMetaBinding.
    runs T1. runs T2. runs T3. runs T4. runs T5. runs S1. runs S2. runs S3. runs S4. runs S5. runs S6.
    runs G1. runs G2. runs G3. runs G4. runs G5. runs G6. runs D1. runs D2. runs D3. runs D4. runs D5. runs D6.
    by destruct m.
Qed.

(** The engine is recent enough, and the bytes are those the binding names. *)
Definition delivered (h : heap) (binding : TargetBinding) (target : value) (engine : jstring) (content : list N) : Prop :=
  copyBytes h target MAX_TUF_TARGET_BYTES = Ok content
  /\ Z.of_nat (length content) = tb_length binding /\ hex (sha256 content) = tb_sha256 binding
  /\ exists z, compareSemver engine (tb_minEngineVersion binding) = Ok z /\ (0 <= z)%Z.

Lemma verifyTarget_Ok h binding target engine content :
  verifyTarget h binding target engine = Ok content <-> delivered h binding target engine content.
Proof.
  unfold verifyTarget, delivered. split.
  - intros Hv. apply bind_Ok in Hv as (z & Hz & Hv). apply bind_ensure in Hv as (?%Z.leb_le & Hv).
    apply bind_Ok in Hv as (b & Hb & Hv). apply bind_ensure in Hv as (?%Z.eqb_eq & Hv).
    apply bind_ensure in Hv as (?%jeqb_eq & Hv). apply Ok_inj in Hv. subst b. split_and!; [done..|by exists z].
  - intros (Hc & Hl & Hs & z & Hz & Hle). runs Hz. rewrite (proj2 (Z.leb_le _ _) Hle). cbn [ensure mbind res_mbind].
    runs Hc. rewrite (proj2 (Z.eqb_eq _ _) Hl), (proj2 (jeqb_eq _ _) Hs). done.
Qed.

(** The metadata of the other channel is kept while the snapshot binds it. *)
Inductive kept : option ParsedEnvelope -> MetaBinding -> option ParsedEnvelope -> Prop :=
| kept_none b : kept None b None
| kept_bound e b : bound b e -> kept (Some e) b (Some e)
| kept_dropped e b signed : map_get #"signed" (object e) = Some (PObject signed) -> ~ bound b e -> kept (Some e) b None.

Lemma retainDelegated_Ok previous b other : retainDelegated previous b = Ok other <-> kept previous b other.
Proof.
  destruct previous as [e|]; cbn [retainDelegated]; [|split; [intros [= <-]; constructor|by inversion 1]].
  rewrite bind_Ok. setoid_rewrite object_record_Ok.
  assert (forall signed, map_get #"signed" (object e) = Some (PObject signed) ->
    (jeqb (env_sha256 e) (mb_sha256 b) && (Z.of_nat (length (bytes e)) =? mb_length b)%Z
     && is_integer (map_get #"version" signed) (mb_version b)) = true <-> bound b e) as Htest.
  { intros signed Hs. unfold bound. rewrite !andb_true_iff, jeqb_eq, Z.eqb_eq. split.
    - intros ((? & ?) & ?). split_and!; [done..|by exists signed].
    - intros (? & ? & signed' & Hs' & ?). assert (signed' = signed) as -> by congruence. done. }
  split.
  - intros (signed & Hs & Ho). specialize (Htest signed Hs). destruct (_ && _) eqn:E; injection Ho as <-.
    + constructor. by apply Htest.
    + apply (kept_dropped _ _ signed); [done|]. intros Hb. by apply Htest in Hb.
  - inversion 1 as [|? ? Hb|? ? signed Hs Hb]; subst.
    + pose proof Hb as (_ & _ & signed & Hs & _). exists signed. split; [done|].
      by rewrite (proj2 (Htest signed Hs) Hb).
    + exists signed. split; [done|]. specialize (Htest signed Hs). destruct (_ && _); [|done]. by destruct Hb; apply Htest.
Qed.

Definition start_chain (s : InternalState) (policy : RootPolicy) : root_chain :=
  {| trustedRoot := st_root s; trustedRootPolicy := policy; appliedRootVersions := [];
     timestampAuthorityRotated := false; snapshotAuthorityRotated := false |}.

(** The authority for the timestamp or the snapshot changed along the chain. *)
Definition rotated (c : root_chain) : bool := timestampAuthorityRotated c || snapshotAuthorityRotated c.

Definition unless_rotated (c : root_chain) (prior : option ParsedEnvelope) : option ParsedEnvelope :=
  if rotated c then None else prior.

(** What the other channel is left with. *)
Definition other_kept (s : InternalState) (c : root_chain) (m : verified_metadata) (selected : TufChannel)
    (other : option ParsedEnvelope) : Prop :=
  if rotated c then other = None
  else exists b, map_get (delegatedName (otherChannel selected)) (sn_meta (vm_snapshotPolicy m)) = Some b
       /\ kept (st_delegated s (otherChannel selected)) b other.

Definition update_result (c : root_chain) (m : verified_metadata) (request : TufOfflineUpdateRequest)
    (other : option ParsedEnvelope) (content : list N) : TufVerifiedUpdate :=
  {| rootVersionsApplied := appliedRootVersions c; up_snapshotRotated := snapshotAuthorityRotated c;
     up_timestampRotated := timestampAuthorityRotated c;
     up_state := nextState (trustedRoot c) m (channel request) other;
     up_target := {| vt_binding := vm_binding m; vt_targetPath := req_targetPath request |}; targetBytes := content |}.

(** The bundle, request and time of a call, the path of roots and the metadata
    it verified. *)
Record verified (h : heap) (s : InternalState) (bundle : TufOfflineUpdateBundle) (request : TufOfflineUpdateRequest)
    (started : Z) (policy : RootPolicy) (c : root_chain) (m : verified_metadata) (p : policies)
    (other : option ParsedEnvelope) (content : list N) : Prop := {
  ve_started : utc_milliseconds (startedAt request) = Some started;
  ve_root : validateRoot (st_root s) = Ok policy;
  ve_path : root_path h (start_chain s policy) (b_roots bundle) c;
  ve_current : current (root_times (trustedRootPolicy c)) started;
  ve_metadata : authorized h c (unless_rotated c (st_timestamp s)) (unless_rotated c (st_snapshot s)) bundle request started m p;
  ve_target : delivered h (vm_binding m) (b_target bundle) (engineVersion request) content;
  ve_other : other_kept s c m (channel request) other
}.

Lemma verifyUpdate_Ok h s bundleInput requestInput u :
  verifyUpdate h s bundleInput requestInput = Ok u <->
  exists bundle request started policy c m p other content,
    validateBundle h bundleInput = Ok bundle /\ validateRequest h requestInput = Ok request
    /\ verified h s bundle request started policy c m p other content
    /\ u = update_result c m request other content.
Proof.
  unfold verifyUpdate. split.
  - intros Hu. apply bind_Ok in Hu as (bundle & B & Hu). apply bind_Ok in Hu as (request & R & Hu).
    apply bind_Ok in Hu as (started & (? & [= <-] & T)%parseUtc_Ok & Hu). apply bind_Ok in Hu as (policy & P & Hu).
    apply bind_Ok in Hu as (c & C%root_path_Ok & Hu). apply bind_Ok in Hu as (? & V%current_Ok & Hu).
    apply bind_Ok in Hu as (m & (p & M)%verifyMetadata_Ok & Hu). apply bind_Ok in Hu as (content & D%verifyTarget_Ok & Hu).
    apply bind_Ok in Hu as (other & O & Hu). apply Ok_inj in Hu. subst u.
    exists bundle, request, started, policy, c, m, p, other, content. split_and!; [done..| |done]. split; [done..|].
    unfold other_kept, rotated. destruct (_ || _); [by injection O as <-|].
    apply bind_Ok in O as (b & Hb%required_Ok & O%retainDelegated_Ok). by exists b.
  - intros (bundle & request & started & policy & c & m & p & other & content & B & R & [T P C V M D O] & ->).
    runs B. runs R. unfold parseUtc. rewrite T. cbn [mbind res_mbind]. runs P.
    apply root_path_Ok in C. unfold start_chain in C. runs C. apply (current_Ok _ _ tt) in V. runs V.
    assert (verifyMetadata h c (unless_rotated c (st_timestamp s)) (unless_rotated c (st_snapshot s)) bundle request started = Ok m)
      as M' by (apply verifyMetadata_Ok; by exists p).
    unfold unless_rotated, rotated in M'. runs M'. apply verifyTarget_Ok in D. runs D.
    unfold other_kept, rotated in O. destruct (_ || _); [by subst other|]. destruct O as (b & Hb & O%retainDelegated_Ok).
    unfold requireMetaBinding. rewrite Hb. cbn [required mbind res_mbind]. by rewrite O.
Qed.

(** ** The theorem of the chain *)

(** C4.  An update is accepted exactly when the chain of trust holds: consecutive
    roots, each signed by its predecessor and by itself, lead from the trusted
    root to a current one; the timestamp, the snapshot and the targets it
    authorizes are the documents their parents bind by length, digest and
    version, each signed, within policy and current; the targets role signs for
    the channel; what was trusted before is not newer unless an online authority
    changed; and the target has the length and digest of its binding, for an
    engine recent enough.  The result is then determined. *)
Theorem verifyUpdate_chain_of_trust (h : heap) (s : InternalState) (bundleInput requestInput : value) (u : TufVerifiedUpdate) :
  verifyUpdate h s bundleInput requestInput = Ok u <->
  exists bundle request started policy c m p other content,
    validateBundle h bundleInput = Ok bundle /\ validateRequest h requestInput = Ok request
    /\ verified h s bundle request started policy c m p other content
    /\ u = update_result c m request other content.
Proof. apply verifyUpdate_Ok. Qed.

End laws.
