(* ===== verification/TufBounds.v ===== *)
(** The scan before parsing bounds what is parsed: the nesting of the values and
    their number, whatever the text. *)
From S2P Require Import Prelude JsString Unicode Identifiers OrderedMap JsValue Json ObjectGraph JsonText JsonParse JsonParseLaws UtcTime TufText TufMetadata TufTrust TufLaws.

(** Containers around the deepest value, and the number of values. *)
Fixpoint nesting (v : parsed) : nat :=
  match v with
  | PArray items => S (list_max (map nesting items))
  | PObject fields => S (list_max (map (fun f => nesting f.2) fields))
  | _ => 0
  end.

Fixpoint value_count (v : parsed) : N :=
  match v with
  | PArray items => 1 + sumN value_count items
  | PObject fields => 1 + sumN (fun f => value_count f.2) fields
  | _ => 1
  end.

(** ** Scanning *)

Abbreviation scan := (foldM preflight_unit).

(** Outside of a string, inside [depth] containers. *)
Definition outside (depth : Z) (values : N) : json_scan :=
  {| scan_depth := depth; scan_values := values; inString := false; escaped := false |}.
Definition inside (depth : Z) (values : N) : json_scan :=
  {| scan_depth := depth; scan_values := values; inString := true; escaped := false |}.

Lemma scan_app s t st st' : scan st (s ++ t) = Ok st' <-> exists mid, scan st s = Ok mid /\ scan mid t = Ok st'.
Proof. rewrite foldM_app, bind_Ok. done. Qed.

Lemma scan_cons c t st st' : scan st (c :: t) = Ok st' <-> exists mid, preflight_unit st c = Ok mid /\ scan mid t = Ok st'.
Proof. cbn [foldM]. apply bind_Ok. Qed.

(** Units that neither open, close nor separate. *)
Definition quiet (c : N) : bool :=
  negb ((c =? 0x22)%N || (c =? 0x7b)%N || (c =? 0x5b)%N || (c =? 0x7d)%N || (c =? 0x5d)%N || (c =? 0x2c)%N || (c =? 0x3a)%N).

Lemma scan_quiet_unit d n c st : quiet c = true -> preflight_unit (outside d n) c = Ok st -> st = outside d n.
Proof.
  unfold quiet. rewrite negb_true_iff, !orb_false_iff. intros [[[[[[E1 E2] E3] E4] E5] E6] E7].
  unfold preflight_unit, outside. cbn [inString escaped]. rewrite E1, E2, E3, E4, E5, E6, E7. cbn [orb].
  cbn [mbind res_mbind scan_values]. intros Hs. apply bind_ensure in Hs as (_ & Hs). by apply Ok_inj in Hs.
Qed.

Lemma scan_quiet d n s st : Forall (fun c => quiet c = true) s -> scan (outside d n) s = Ok st -> st = outside d n.
Proof.
  induction 1 as [|c s Hc Hs IH]; [by intros [= <-]|]. intros (mid & ->%scan_quiet_unit & Hst)%scan_cons; [|done]. by apply IH.
Qed.

Lemma scan_quote d n st : preflight_unit (outside d n) QUOTE = Ok st -> st = inside d (n + 1).
Proof. unfold preflight_unit, outside. cbn. intros Hs. apply bind_ensure in Hs as (_ & Hs). by apply Ok_inj in Hs. Qed.

Lemma scan_open d n c st : c = 91%N \/ c = 123%N -> preflight_unit (outside d n) c = Ok st ->
  st = outside (d + 1) (n + 1) /\ (d + 1 <= 64)%Z.
Proof.
  intros Hc Hs. assert (Hs' : (_ ← ensure (d + 1 <=? Z.of_nat MAX_TUF_JSON_DEPTH)%Z resource_limit;
    _ ← ensure (n + 1 <=? MAX_TUF_JSON_VALUES)%N resource_limit; Ok (outside (d + 1) (n + 1))) = Ok st).
  { rewrite <- Hs. destruct Hc as [-> | ->]; unfold preflight_unit, outside; cbn [inString escaped N.eqb Pos.eqb orb];
      destruct (d + 1 <=? Z.of_nat MAX_TUF_JSON_DEPTH)%Z; done. }
  apply bind_ensure in Hs' as (?%Z.leb_le & Hs'). apply bind_ensure in Hs' as (_ & Hs'). apply Ok_inj in Hs'. done.
Qed.

Lemma scan_close d n c st : c = 93%N \/ c = 125%N -> preflight_unit (outside d n) c = Ok st -> st = outside (d - 1) n.
Proof.
  intros Hc Hs. assert (Hs' : (_ ← ensure (0 <=? d - 1)%Z invalid_metadata;
    _ ← ensure (n <=? MAX_TUF_JSON_VALUES)%N resource_limit; Ok (outside (d - 1) n)) = Ok st).
  { rewrite <- Hs. destruct Hc as [-> | ->]; unfold preflight_unit, outside; cbn [inString escaped N.eqb Pos.eqb orb];
      destruct (0 <=? d - 1)%Z; done. }
  apply bind_ensure in Hs' as (_ & Hs'). apply bind_ensure in Hs' as (_ & Hs'). by apply Ok_inj in Hs'.
Qed.

Lemma scan_separator d n c st : c = 44%N \/ c = 58%N -> preflight_unit (outside d n) c = Ok st -> st = outside d (n + 1).
Proof.
  intros Hc Hs. assert (Hs' : (_ ← ensure (n + 1 <=? MAX_TUF_JSON_VALUES)%N resource_limit; Ok (outside d (n + 1))) = Ok st).
  { rewrite <- Hs. by destruct Hc as [-> | ->]. }
  apply bind_ensure in Hs' as (_ & Hs'). by apply Ok_inj in Hs'.
Qed.

(** ** What the parsers consume *)

(** [s] is a text the parser read, in front of [r]. *)
Definition read_as (s r : jstring) (P : jstring -> Prop) : Prop := exists used, s = used ++ r /\ P used.

Definition quiet_text (s : jstring) : Prop := Forall (fun c => quiet c = true) s.

Lemma read_quiet_cons c s r : quiet c = true -> read_as s r quiet_text -> read_as (c :: s) r quiet_text.
Proof. intros Hc (u & -> & Hu). exists (c :: u). split; [done|by constructor]. Qed.

Lemma read_quiet_refl s : read_as s s quiet_text.
Proof. exists []. split; [done|constructor]. Qed.

Lemma read_quiet_trans s t r : read_as s t quiet_text -> read_as t r quiet_text -> read_as s r quiet_text.
Proof. intros (u & -> & Hu) (v & -> & Hv). exists (u ++ v). split; [by rewrite app_assoc|by apply Forall_app]. Qed.

Lemma skip_space_quiet s : read_as s (skip_space s) quiet_text.
Proof.
  induction s as [|c s IH]; cbn; [apply read_quiet_refl|]. destruct (is_space c) eqn:Hc; [|apply read_quiet_refl].
  apply read_quiet_cons; [|done]. unfold is_space in Hc. rewrite !orb_true_iff, !N.eqb_eq in Hc.
  by destruct Hc as [[[->| ->]| ->]| ->].
Qed.

Lemma digit_quiet c : decimal_digit c = true -> quiet c = true.
Proof.
  intros Hc%digit_range. unfold quiet. rewrite negb_true_iff, !orb_false_iff, !N.eqb_neq. lia.
Qed.

Lemma digits_of_quiet s : read_as s (digits_of s).2 quiet_text.
Proof.
  induction s as [|c s IH]; cbn; [apply read_quiet_refl|]. destruct (decimal_digit c) eqn:Hc; [|apply read_quiet_refl].
  destruct (digits_of s) as [d r]. cbn in *. apply read_quiet_cons; [by apply digit_quiet|done].
Qed.

Lemma parse_fraction_quiet s f r : parse_fraction s = Ok (f, r) -> read_as s r quiet_text.
Proof.
  destruct s as [|c s]; cbn [parse_fraction]; [intros [= <- <-]; apply read_quiet_refl|].
  destruct (N.eqb_spec c 46) as [->|?]; [|intros [= <- <-]; apply read_quiet_refl].
  pose proof (digits_of_quiet s) as Hq. destruct (digits_of s) as [d r']. intros Hr. apply bind_ensure in Hr as (_ & Hr).
  injection (Ok_inj Hr) as <- <-. by apply read_quiet_cons.
Qed.

Lemma parse_exponent_quiet s f r : parse_exponent s = Ok (f, r) -> read_as s r quiet_text.
Proof.
  destruct s as [|c s]; cbn [parse_exponent]; [intros [= <- <-]; apply read_quiet_refl|].
  destruct ((c =? 101)%N || (c =? 69)%N) eqn:Ec; [|intros [= <- <-]; apply read_quiet_refl].
  assert (quiet c = true) as Hc by (by apply orb_true_iff in Ec as [->%N.eqb_eq| ->%N.eqb_eq]).
  assert (forall (negative : bool) s1, read_as s s1 quiet_text ->
    (let '(d, r') := digits_of s1 in
     _ ← ensure (negb (jeqb d [])) syntax_error; let n := Z.of_N (digits_value 0 d) in
     Ok (if negative then (- n)%Z else n, r')) = Ok (f, r) -> read_as (c :: s) r quiet_text) as Hd.
  { intros negative s1 Hs1. pose proof (digits_of_quiet s1) as Hq. destruct (digits_of s1) as [d r']. intros Hr.
    apply bind_ensure in Hr as (_ & Hr). injection (Ok_inj Hr) as _ <-. apply read_quiet_cons; [done|]. by eapply read_quiet_trans. }
  destruct s as [|e s1]; [apply (Hd false), read_quiet_refl|].
  destruct (N.eqb_spec e 45) as [->|?]; [apply (Hd true), read_quiet_cons, read_quiet_refl; done|].
  destruct (N.eqb_spec e 43) as [->|?]; [apply (Hd false), read_quiet_cons, read_quiet_refl; done|].
  apply (Hd false), read_quiet_refl.
Qed.

Lemma parse_whole_quiet s w r : parse_whole s = Ok (w, r) -> read_as s r quiet_text.
Proof.
  destruct s as [|c s]; [done|]. cbn [parse_whole]. destruct (N.eqb_spec c 48) as [->|?].
  { intros [= <- <-]. apply read_quiet_cons, read_quiet_refl. done. }
  pose proof (digits_of_quiet (c :: s)) as Hq. destruct (digits_of (c :: s)) as [d r']. intros Hr.
  apply bind_ensure in Hr as (_ & Hr). by injection (Ok_inj Hr) as <- <-.
Qed.

Lemma parse_number_quiet s v r : parse_number s = Ok (v, r) -> read_as s r quiet_text /\ nesting v = 0 /\ value_count v = 1%N.
Proof.
  unfold parse_number. destruct (parse_sign s) as [negative s1] eqn:Es. intros Hr.
  apply bind_Ok in Hr as ([w s2] & Hw & Hr). apply bind_Ok in Hr as ([fr s3] & Hf & Hr). apply bind_Ok in Hr as ([e s4] & He & Hr).
  injection (Ok_inj Hr) as <- <-. split.
  - apply (read_quiet_trans s s1).
    { unfold parse_sign in Es. destruct s as [|c s']; [injection Es as <- <-; apply read_quiet_refl|].
      destruct (N.eqb_spec c 45) as [->|?]; injection Es as <- <-; [apply read_quiet_cons|]; (apply read_quiet_refl || done). }
    eapply read_quiet_trans; [by eapply parse_whole_quiet|].
    eapply read_quiet_trans; [by eapply parse_fraction_quiet|by eapply parse_exponent_quiet].
  - unfold number_of. by destruct (rounded_integer _ _) as [[| |]|], negative.
Qed.

Lemma keyword_quiet word v s v' r : Forall (fun c => quiet c = true) word -> keyword word v s = Ok (v', r) ->
  read_as s r quiet_text /\ v' = v.
Proof.
  unfold keyword. intros Hw. destruct (startsWith s word) eqn:E; [|done]. intros [= <- <-]. split; [|done].
  apply startsWith_spec in E as (t & ->). exists word. by rewrite drop_app_length.
Qed.

(** In a string, every unit but the closing quote is skipped. *)
Definition string_text (s : jstring) : Prop := forall d n st, scan (inside d n) s = Ok st -> st = outside d n.

Lemma scan_in_string d n c st : c <> QUOTE -> c <> ESCAPE -> preflight_unit (inside d n) c = Ok st -> st = inside d n.
Proof.
  intros Hq He. unfold preflight_unit, inside. cbn [inString escaped].
  rewrite (proj2 (N.eqb_neq c 0x5c)), (proj2 (N.eqb_neq c 0x22)) by done. by intros [= <-].
Qed.

Lemma string_skip c s : c <> QUOTE -> c <> ESCAPE -> string_text s -> string_text (c :: s).
Proof. intros Hq He Hs d n st (mid & ->%scan_in_string & Hst)%scan_cons; [|done..]. by apply Hs. Qed.

Lemma string_escape c s : string_text s -> string_text (ESCAPE :: c :: s).
Proof.
  intros Hs d n st (mid & Hm & Hst)%scan_cons. injection Hm as <-. apply scan_cons in Hst as (mid & Hm & Hst).
  injection Hm as <-. by apply Hs.
Qed.

Lemma hex_in_string c n : hex_value c = Some n -> c <> QUOTE /\ c <> ESCAPE.
Proof.
  intros Hc. split; intros ->; vm_compute in Hc; done.
Qed.

Lemma parse_units_read s t r : parse_units s = Ok (t, r) -> read_as s r string_text.
Proof.
  revert t r. induction s as [s IH] using (induction_ltof1 _ (@length N)). unfold ltof in IH. intros t r.
  destruct s as [|c s]; [done|]. cbn [parse_units]. destruct (N.eqb_spec c QUOTE) as [->|Hq].
  { intros [= <- <-]. exists [QUOTE]. split; [done|]. intros d n st (mid & Hm & Hst)%scan_cons. injection Hm as <-. by injection Hst. }
  destruct (c <? 32)%N; [done|]. destruct (N.eqb_spec c ESCAPE) as [->|He].
  - destruct s as [|x s]; [done|]. destruct (N.eqb_spec x 117) as [->|Hx].
    + destruct s as [|a [|b [|d [|e s]]]]; try done.
      destruct (hex_value a) eqn:Ea, (hex_value b) eqn:Eb, (hex_value d) eqn:Ed, (hex_value e) eqn:Ee; try done.
      intros Hr. apply bind_Ok in Hr as ([t' r'] & Hu & Hr). injection (Ok_inj Hr) as _ <-.
      destruct (IH s ltac:(cbn; lia) _ _ Hu) as (used & -> & Hs). exists (ESCAPE :: 117%N :: a :: b :: d :: e :: used).
      split; [done|]. apply string_escape.
      apply string_skip; [by eapply hex_in_string..|]. apply string_skip; [by eapply hex_in_string..|].
      apply string_skip; [by eapply hex_in_string..|]. by apply string_skip; [by eapply hex_in_string..|].
    + destruct (simple_escape x); [|done]. intros Hr. apply bind_Ok in Hr as ([t' r'] & Hu & Hr). injection (Ok_inj Hr) as _ <-.
      destruct (IH s ltac:(cbn; lia) _ _ Hu) as (used & -> & Hs). exists (ESCAPE :: x :: used). split; [done|]. by apply string_escape.
  - intros Hr. apply bind_Ok in Hr as ([t' r'] & Hu & Hr). injection (Ok_inj Hr) as _ <-.
    destruct (IH s ltac:(cbn; lia) _ _ Hu) as (used & -> & Hs). exists (c :: used). split; [done|]. by apply string_skip.
Qed.

(** Scanning the text of a value leaves the depth, and has counted its values. *)
Definition value_text (v : parsed) (s : jstring) : Prop :=
  forall d n st, (d <= 64)%Z -> scan (outside d n) s = Ok st ->
  exists n', st = outside d n' /\ (d + Z.of_nat (nesting v) <= 64)%Z /\ (n + value_count v <= n' + 1)%N.

(** Scanning the items of a container, its closing bracket included. *)
Definition items_text (l : list parsed) (s : jstring) : Prop :=
  forall d n st, (d <= 64)%Z -> scan (outside d n) s = Ok st ->
  exists n', st = outside (d - 1) n' /\ Forall (fun v => d + Z.of_nat (nesting v) <= 64)%Z l
    /\ (n + sumN value_count l <= n' + 1)%N.

Lemma quiet_value v s : quiet_text s -> nesting v = 0 -> value_count v = 1%N -> value_text v s.
Proof.
  intros Hs Hn Hc d n st Hd ->%scan_quiet; [|done]. exists n. rewrite Hn, Hc. split; [done|]. lia.
Qed.

Lemma value_quiet_prefix v q s : quiet_text q -> value_text v s -> value_text v (q ++ s).
Proof. intros Hq Hs d n st Hd (mid & ->%scan_quiet & Hst)%scan_app; [|done]. by apply Hs. Qed.

Lemma items_quiet_prefix l q s : quiet_text q -> items_text l s -> items_text l (q ++ s).
Proof. intros Hq Hs d n st Hd (mid & ->%scan_quiet & Hst)%scan_app; [|done]. by apply Hs. Qed.

(** [expect] after spaces. *)
Lemma expect_read c s r : expect c (skip_space s) = Some r -> exists q, s = q ++ c :: r /\ quiet_text q.
Proof.
  intros He. destruct (skip_space_quiet s) as (q & Hs & Hq). exists q. split; [|done]. rewrite Hs at 1. f_equal.
  destruct (skip_space s) as [|x t]; [done|]. cbn in He. destruct (N.eqb_spec x c) as [->|?]; [|done]. by injection He as ->.
Qed.

Lemma scan_closing c q d n st : c = 93%N \/ c = 125%N -> quiet_text q -> scan (outside d n) (q ++ [c]) = Ok st ->
  st = outside (d - 1) n.
Proof.
  intros Hc Hq (mid & ->%scan_quiet & Hst)%scan_app; [|done]. apply scan_cons in Hst as (mid & Hm & Hst).
  injection Hst as ->. by apply (scan_close _ _ _ _ Hc Hm).
Qed.

Lemma close_items c q : c = 93%N \/ c = 125%N -> quiet_text q -> items_text [] (q ++ [c]).
Proof.
  intros Hc Hq d n st Hd ->%scan_closing; [|done..]. exists n. split; [done|]. split; [constructor|cbn; lia].
Qed.

Lemma value_then_close c v s q : c = 93%N \/ c = 125%N -> value_text v s -> quiet_text q -> items_text [v] (s ++ q ++ [c]).
Proof.
  intros Hc Hv Hq d n st Hd (mid & (n' & -> & Hnest & Hcount)%Hv & ->%scan_closing)%scan_app; [|done..].
  exists n'. split; [done|]. split; [by constructor|]. unfold sumN. cbn [foldr]. lia.
Qed.

Lemma value_then_comma v s q l rest : value_text v s -> quiet_text q -> items_text l rest -> items_text (v :: l) (s ++ q ++ 44%N :: rest).
Proof.
  intros Hv Hq Hl d n st Hd (mid & (n' & -> & Hnest & Hcount)%Hv & Hst)%scan_app; [|done].
  apply scan_app in Hst as (mid & ->%scan_quiet & Hst); [|done]. apply scan_cons in Hst as (mid & Hm & Hst).
  apply scan_separator in Hm as ->; [|by left]. destruct (Hl d _ st Hd Hst) as (n2 & -> & Hall & Hn2). exists n2.
  split; [done|]. split; [by constructor|]. unfold sumN in *. cbn [foldr]. lia.
Qed.

(** A key and its colon in front of the items. *)
Lemma key_then l u q s : string_text u -> quiet_text q -> items_text l s -> items_text l (QUOTE :: u ++ q ++ 58%N :: s).
Proof.
  intros Hu Hq Hs d n st Hd (mid & ->%scan_quote & Hst)%scan_cons.
  apply scan_app in Hst as (mid & ->%Hu & Hst). apply scan_app in Hst as (mid & ->%scan_quiet & Hst); [|done].
  apply scan_cons in Hst as (mid & Hm & Hst). apply scan_separator in Hm as ->; [|by right].
  destruct (Hs d _ st Hd Hst) as (n2 & -> & Hall & Hn2). exists n2. split_and!; [done..|lia].
Qed.

Lemma container_text open v l s : open = 91%N \/ open = 123%N -> items_text l s ->
  (forall k, Forall (fun v => Z.of_nat (nesting v) <= k)%Z l -> (0 <= k)%Z -> (Z.of_nat (nesting v) <= k + 1)%Z) ->
  (value_count v <= 1 + sumN value_count l)%N -> value_text v (open :: s).
Proof.
  intros Ho Hs Hn Hc d n st Hd (mid & [-> Hd']%scan_open & Hst)%scan_cons; [|done].
  destruct (Hs (d + 1)%Z _ st Hd' Hst) as (n2 & -> & Hall & Hn2). exists n2. split; [f_equal; lia|]. split; [|lia].
  enough (Z.of_nat (nesting v) <= 64 - (d + 1) + 1)%Z by lia. apply Hn; [|lia].
  eapply Forall_impl; [exact Hall|]. cbn. intros. lia.
Qed.

Lemma list_max_bound {A} (f : A -> nat) l k : Forall (fun a => Z.of_nat (f a) <= k)%Z l -> (0 <= k)%Z ->
  (Z.of_nat (list_max (map f l)) <= k)%Z.
Proof.
  intros Hl Hk. unfold list_max. induction Hl as [|a l Ha Hl IH]; cbn; [done|]. lia.
Qed.

(** A repeated key drops values only. *)
Lemma map_set_values k v (m : list (jstring * parsed)) :
  (sumN (fun f => value_count f.2) (map_set k v m) <= value_count v + sumN (fun f => value_count f.2) m)%N
  /\ forall f, f ∈ map_set k v m -> f.2 = v \/ f ∈ m.
Proof.
  unfold sumN. induction m as [|[k' v'] m [IH1 IH2]]; cbn.
  - split; [lia|]. intros f ->%list_elem_of_singleton. by left.
  - destruct (jeqb k' k); cbn.
    + split; [lia|]. intros f [->|?]%elem_of_cons; [by left|right]. by apply elem_of_cons; right.
    + split; [lia|]. intros f [->|Hf]%elem_of_cons; [right; by apply elem_of_cons; left|].
      destruct (IH2 f Hf) as [?|?]; [by left|right]. by apply elem_of_cons; right.
Qed.

Lemma object_values members :
  (sumN (fun f => value_count f.2) (object_of_members members) <= sumN value_count (map snd members))%N
  /\ forall f, f ∈ object_of_members members -> f.2 ∈ map snd members.
Proof.
  unfold object_of_members. set (fields := fold_left _ members []).
  enough ((sumN (fun f => value_count f.2) fields <= sumN value_count (map snd members))%N
          /\ forall f, f ∈ fields -> f.2 ∈ map snd members) as [H1 H2].
  { split; [by rewrite (sumN_perm _ _ _ (own_order_perm fields))|]. intros f. rewrite own_order_perm. auto. }
  subst fields. enough (forall acc, 
    (sumN (fun f => value_count f.2) (fold_left (fun fields m => map_set m.1 m.2 fields) members acc)
       <= sumN (fun f => value_count f.2) acc + sumN value_count (map snd members))%N
    /\ forall f, f ∈ fold_left (fun fields m => map_set m.1 m.2 fields) members acc -> f ∈ acc \/ f.2 ∈ map snd members) as Hacc.
  { destruct (Hacc []) as [H1 H2]. split; [exact H1|]. intros f [?%not_elem_of_nil|?]%H2; done. }
  induction members as [|[k v] members IH]; intros acc; cbn [fold_left map].
  - split; [unfold sumN; cbn; lia|by left].
  - destruct (IH (map_set k v acc)) as [IH1 IH2], (map_set_values k v acc) as [M1 M2]. split.
    + cbn [fst snd]. unfold sumN in *. cbn [foldr]. lia.
    + intros f Hf. destruct (IH2 f Hf) as [[E|?]%M2|?]; [right; rewrite E; by apply elem_of_cons; left|by left|].
      right. by apply elem_of_cons; right.
Qed.

Lemma array_text l s : items_text l s -> value_text (PArray l) (91%N :: s).
Proof.
  intros Hs. apply (container_text 91 _ l); [by left|done| |cbn; lia].
  intros k Hl Hk. cbn [nesting]. pose proof (list_max_bound nesting l k Hl Hk). lia.
Qed.

Lemma object_text members s : items_text (map snd members) s -> value_text (PObject (object_of_members members)) (123%N :: s).
Proof.
  intros Hs. destruct (object_values members) as [Hc Hin].
  apply (container_text 123 _ (map snd members)); [by right|done| |cbn [value_count]; lia].
  intros k Hl Hk. cbn [nesting]. enough (Z.of_nat (list_max (map (fun f => nesting f.2) (object_of_members members))) <= k)%Z by lia.
  apply (list_max_bound (fun f : jstring * parsed => nesting f.2)); [|done].
  apply Forall_forall. intros f Hf. rewrite Forall_forall in Hl. apply Hl, Hin, Hf.
Qed.

Lemma keyword_text word v s v' r : Forall (fun c => quiet c = true) word -> nesting v = 0 -> value_count v = 1%N ->
  keyword word v s = Ok (v', r) -> read_as s r (value_text v').
Proof.
  intros Hw Hn Hc Hk. destruct (keyword_quiet _ _ _ _ _ Hw Hk) as ((u & -> & Hu) & ->). exists u. split; [done|by apply quiet_value].
Qed.

Lemma string_value_text t u : string_text u -> value_text (PString t) (QUOTE :: u).
Proof.
  intros Hu d n st Hd (mid & ->%scan_quote & Hst)%scan_cons. apply Hu in Hst as ->. exists (n + 1)%N. cbn. split; [done|]. lia.
Qed.

Lemma empty_container c close v r rest : (c = 91%N /\ close = 93%N \/ c = 123%N /\ close = 125%N) ->
  (forall s, items_text [] s -> value_text v (c :: s)) ->
  expect close (skip_space r) = Some rest -> read_as (c :: r) rest (value_text v).
Proof.
  intros Hc Hv (q & -> & Hq)%expect_read. exists (c :: q ++ [close]). split; [cbn; by rewrite <- app_assoc|].
  apply Hv, close_items; [|done]. destruct Hc as [[_ ->]|[_ ->]]; auto.
Qed.

Lemma parsers_read fuel :
  (forall s v r, parse_value fuel s = Ok (v, r) -> read_as s r (value_text v))
  /\ (forall s l r, parse_elements fuel s = Ok (l, r) -> read_as s r (items_text l))
  /\ (forall s l r, parse_members fuel s = Ok (l, r) -> read_as s r (items_text (map snd l))).
Proof.
  induction fuel as [|f (IHv & IHe & IHm)]; [done|]. split_and!; intros s.
  - intros v r. cbn [parse_value]. destruct (skip_space_quiet s) as (q & Hs & Hq). destruct (skip_space s) as [|c t]; [done|].
    intros Hv. enough (read_as (c :: t) r (value_text v)) as (u & Hu & Hval).
    { exists (q ++ u). split; [by rewrite Hs, Hu, app_assoc|by apply value_quiet_prefix]. }
    clear s q Hs Hq. destruct (N.eqb_spec c QUOTE) as [->|_].
    { apply bind_Ok in Hv as ([tx r'] & (u & -> & Hu)%parse_units_read & Hv). injection (Ok_inj Hv) as <- <-.
      exists (QUOTE :: u). split; [done|by apply string_value_text]. }
    destruct (N.eqb_spec c 91) as [->|_].
    { destruct (expect 93 (skip_space t)) as [rest|] eqn:He.
      - injection Hv as <- <-. apply (empty_container 91 93 _ t); [by left|by apply array_text|done].
      - apply bind_Ok in Hv as ([l r'] & (u & -> & Hu)%IHe & Hv). injection (Ok_inj Hv) as <- <-.
        exists (91%N :: u). split; [done|by apply array_text]. }
    destruct (N.eqb_spec c 123) as [->|_].
    { destruct (expect 125 (skip_space t)) as [rest|] eqn:He.
      - injection Hv as <- <-. apply (empty_container 123 125 _ t); [by right|exact (object_text [])|done].
      - apply bind_Ok in Hv as ([l r'] & (u & -> & Hu)%IHm & Hv). injection (Ok_inj Hv) as <- <-.
        exists (123%N :: u). split; [done|by apply object_text]. }
    destruct (c =? 110)%N; [eapply keyword_text; [| | |exact Hv]; [by repeat constructor|done..]|].
    destruct (c =? 116)%N; [eapply keyword_text; [| | |exact Hv]; [by repeat constructor|done..]|].
    destruct (c =? 102)%N; [eapply keyword_text; [| | |exact Hv]; [by repeat constructor|done..]|].
    apply parse_number_quiet in Hv as ((u & Hu & Hq) & Hn & Hc). exists u. split; [done|by apply quiet_value].
  - intros l r. cbn [parse_elements]. intros Hl. apply bind_Ok in Hl as ([v r1] & (u & -> & Hu)%IHv & Hl).
    destruct (expect 44 (skip_space r1)) as [r2|] eqn:E.
    + apply bind_Ok in Hl as ([l' r3] & (u2 & -> & Hu2)%IHe & Hl). injection (Ok_inj Hl) as <- <-.
      apply expect_read in E as (q & -> & Hq). exists (u ++ q ++ 44%N :: u2). split; [by rewrite <- !app_assoc|by apply value_then_comma].
    + destruct (expect 93 (skip_space r1)) as [r2|] eqn:E'; [|done]. injection Hl as <- <-.
      apply expect_read in E' as (q & -> & Hq). exists (u ++ q ++ [93%N]). split; [by rewrite <- !app_assoc|].
      apply value_then_close; auto.
  - intros l r. cbn [parse_members]. destruct (expect QUOTE (skip_space s)) as [s1|] eqn:E0; [|done]. intros Hl.
    apply expect_read in E0 as (q0 & -> & Hq0). apply bind_Ok in Hl as ([key r1] & (uk & -> & Huk)%parse_units_read & Hl).
    destruct (expect 58 (skip_space r1)) as [r2|] eqn:E1; [|done]. apply expect_read in E1 as (q1 & -> & Hq1).
    apply bind_Ok in Hl as ([v r3] & (u & -> & Hu)%IHv & Hl).
    destruct (expect 44 (skip_space r3)) as [r4|] eqn:E.
    + apply bind_Ok in Hl as ([l' r5] & (u2 & -> & Hu2)%IHm & Hl). injection (Ok_inj Hl) as <- <-.
      apply expect_read in E as (q & -> & Hq).
      exists (q0 ++ QUOTE :: uk ++ q1 ++ 58%N :: u ++ q ++ 44%N :: u2). split; [cbn; by repeat (rewrite <- app_assoc; cbn)|].
      cbn [map snd]. apply items_quiet_prefix, key_then, value_then_comma; done.
    + destruct (expect 125 (skip_space r3)) as [r4|] eqn:E'; [|done]. injection Hl as <- <-.
      apply expect_read in E' as (q & -> & Hq).
      exists (q0 ++ QUOTE :: uk ++ q1 ++ 58%N :: u ++ q ++ [125%N]). split; [cbn; by repeat (rewrite <- app_assoc; cbn)|].
      cbn [map snd]. apply items_quiet_prefix, key_then, value_then_close; auto.
Qed.

(** The scan keeps its count of values within the limit. *)
Lemma scan_values_bound s st st' : (scan_values st <= MAX_TUF_JSON_VALUES)%N -> scan st s = Ok st' ->
  (scan_values st' <= MAX_TUF_JSON_VALUES)%N.
Proof.
  intros Hst Hs. apply (foldM_inv (fun _ st => (scan_values st <= MAX_TUF_JSON_VALUES)%N) _ _ _ _ Hs); [done|].
  clear. intros _ c a a' Ha _. unfold preflight_unit. destruct a as [d n i e]. cbn [inString] in *. destruct i.
  - intros Hok. apply Ok_inj in Hok. subst a'. cbn in *. repeat case_match; done.
  - intros Hok. apply bind_Ok in Hok as (s' & _ & Hok). apply bind_ensure in Hok as (?%N.leb_le & Hok). by apply Ok_inj in Hok as <-.
Qed.

(** A text the scan and the parser accept holds a value of bounded nesting and size. *)
Lemma preflight_bounds text v : preflightJson text = Ok tt -> JSON_parse text = Ok v ->
  nesting v <= MAX_TUF_JSON_DEPTH /\ (value_count v <= MAX_TUF_JSON_VALUES + 1)%N.
Proof.
  unfold preflightJson, JSON_parse. intros Hp Hj. apply bind_Ok in Hp as (st & Hst & _).
  apply bind_Ok in Hj as ([v' r] & Hv & Hj). destruct (skip_space r) eqn:Er; [|done]. injection Hj as ->.
  destruct (proj1 (parsers_read _) _ _ _ Hv) as (u & -> & Hu). apply scan_app in Hst as (mid & Hmid & Hst).
  destruct (Hu 0%Z 0%N mid ltac:(lia) Hmid) as (n & -> & Hn & Hc). unfold MAX_TUF_JSON_DEPTH. split; [lia|].
  pose proof (scan_values_bound _ _ _ (N.le_0_l _ : scan_values (outside 0 0) <= _)%N Hmid) as Hb. cbn [outside scan_values] in Hb. lia.
Qed.

Section bounds.
Context `{TufModels} `{Sha256}.

(** C32.  Resource bounds.  Whatever the text, metadata that is accepted had at
    most 64 levels of nesting and 50,001 values when it was parsed: the scan of
    the text, which runs before the parser, bounds both, so the recursive test
    of the parsed value never fails for its depth. *)
Theorem accepted_metadata_is_bounded (h : heap) (input : value) (role : TufMetadataRole) (e : ParsedEnvelope)
    (He : parseEnvelope h input role = Ok e) :
  (nesting (PObject (object e)) <= MAX_TUF_JSON_DEPTH)%nat
  /\ (value_count (PObject (object e)) <= MAX_TUF_JSON_VALUES + 1)%N.
Proof.
  destruct (parsed_as_fields role e) as (_ & Hj & _ & _ & _ & _ & Hp & _); [by exists h, input|].
  by apply (preflight_bounds (canonicalJson e)).
Qed.
End bounds.
