(* ===== verification/TufHistory.v ===== *)
(** Histories of the trust store: its invariant, and what no sequence of updates
    can do. *)
From S2P Require Import Prelude JsString Unicode Utf8 Identifiers OrderedMap JsValue ObjectGraph JsonParse UtcTime TufText TufMetadata TufTrust TufLaws.

Section history.
Context `{TufModels} `{Sha256}.

(** ** Metadata that was validated can be summarized *)

Lemma signedObject_Ok e signed : signedObject e = Ok signed -> map_get #"signed" (object e) = Some (PObject signed).
Proof.
  unfold signedObject. intros Hs. apply bind_Ok in Hs as (? & _ & Hs). apply bind_Ok in Hs as (? & _ & Hs).
  apply bind_ensure in Hs as (_ & Hs). apply bind_Ok in Hs as (? & _ & Hs). by apply object_record_Ok in Hs.
Qed.

Lemma common_summary e role extra signed times version name :
  signedObject e = Ok signed -> validateCommonSigned signed role extra = Ok (times, version) ->
  exists summary, metadataSummary e name = Ok summary /\ sum_version summary = version.
Proof.
  intros Hs%signedObject_Ok Hc. unfold validateCommonSigned in Hc.
  apply bind_Ok in Hc as (? & _ & Hc). apply bind_ensure in Hc as (_ & Hc). apply bind_Ok in Hc as (? & _ & Hc).
  apply bind_ensure in Hc as (_ & Hc). apply bind_Ok in Hc as (n & Hn & Hc). apply bind_Ok in Hc as (ext & He%object_record_Ok & Hc).
  apply bind_Ok in Hc as (? & _ & Hc). apply bind_ensure in Hc as (_ & Hc). apply bind_ensure in Hc as (_ & Hc).
  apply bind_Ok in Hc as (issued & (it & Hi & _)%parseUtc_Ok & Hc).
  apply bind_Ok in Hc as (expires & (et & Hx & _)%parseUtc_Ok & Hc). apply bind_ensure in Hc as (_ & Hc).
  injection (Ok_inj Hc) as <- <-. unfold metadataSummary, string_value.
  rewrite Hs. cbn [record mbind res_mbind]. rewrite He. cbn [record mbind res_mbind]. rewrite Hx, Hi.
  cbn [required mbind res_mbind]. rewrite Hn. cbn [mbind res_mbind]. by eexists.
Qed.

(** An envelope of a role, of a version. *)
Definition versioned (e : ParsedEnvelope) (version : Z) : Prop :=
  forall name, exists summary, metadataSummary e name = Ok summary /\ sum_version summary = version.

Ltac common_role H :=
  let signed := fresh "signed" in let Hs := fresh in let Hc := fresh in let times := fresh in let v := fresh in
  apply bind_Ok in H as (signed & Hs & H); apply bind_Ok in H as ([times v] & Hc & H);
  pose proof (fun name => common_summary _ _ _ _ _ _ name Hs Hc); clear Hs Hc.

Lemma root_versioned e p : validateRoot e = Ok p -> versioned e (root_version p).
Proof. unfold validateRoot, versioned. intros Hv. common_role Hv. res_inv. subst p. done. Qed.

Lemma timestamp_versioned e p : validateTimestamp e = Ok p -> versioned e (ts_version p).
Proof. unfold validateTimestamp, versioned. intros Hv. common_role Hv. res_inv. subst p. done. Qed.

Lemma snapshot_versioned e p : validateSnapshot e = Ok p -> versioned e (sn_version p).
Proof. unfold validateSnapshot, versioned. intros Hv. common_role Hv. res_inv. subst p. done. Qed.

Lemma targets_versioned e root p : validateTopLevelTargets e root = Ok p -> versioned e (tp_version p).
Proof. unfold validateTopLevelTargets, versioned. intros Hv. common_role Hv. res_inv. subst p. done. Qed.

Lemma delegated_versioned e ch path b p : validateDelegatedTargets e ch path = Ok (b, p) -> versioned e (tp_version p).
Proof. unfold validateDelegatedTargets, versioned. intros Hv. common_role Hv. res_inv. subst p. done. Qed.

(** ** The invariant *)

(** The delegated metadata of a channel is bound by the snapshot. *)
Definition delegated_bound (sp : SnapshotPolicy) (ch : TufChannel) (d : ParsedEnvelope) : Prop :=
  parsed_as targets_role d
  /\ (exists path b dp, validateDelegatedTargets d ch path = Ok (b, dp))
  /\ exists db, map_get (delegatedName ch) (sn_meta sp) = Some db /\ bound db d.

(** A bundled root alone, or a root with the documents of one update: the
    timestamp binds the snapshot, which binds the targets and the metadata of
    every channel held; the root signs for all three. *)
Inductive consistent (s : InternalState) : Prop :=
| consistent_bundled policy :
    parsed_as root_role (st_root s) -> validateRoot (st_root s) = Ok policy ->
    st_timestamp s = None -> st_snapshot s = None -> st_targets s = None ->
    (forall ch, st_delegated s ch = None) -> consistent s
| consistent_updated policy t tp sn sp tg gp gb :
    parsed_as root_role (st_root s) -> validateRoot (st_root s) = Ok policy ->
    st_timestamp s = Some t -> parsed_as timestamp_role t -> validateTimestamp t = Ok tp ->
    st_snapshot s = Some sn -> parsed_as snapshot_role sn -> validateSnapshot sn = Ok sp -> bound (ts_snapshot tp) sn ->
    st_targets s = Some tg -> parsed_as targets_role tg -> validateTopLevelTargets tg policy = Ok gp ->
    map_get #"targets.json" (sn_meta sp) = Some gb -> bound gb tg ->
    signed_by (st_root s) (role_name timestamp_role) t -> signed_by (st_root s) (role_name snapshot_role) sn ->
    signed_by (st_root s) (role_name targets_role) tg ->
    (forall ch d, st_delegated s ch = Some d -> delegated_bound sp ch d) -> consistent s.

Inductive reachable : InternalState -> Prop :=
| reach_bootstrap h root s : bootstrap h root = Ok s -> reachable s
| reach_update h s bundle request u : reachable s -> verifyUpdate h s bundle request = Ok u -> reachable (up_state u).

(** Along a path of roots, every root validates under its policy, and the
    versions count up. *)
Lemma root_path_end h c inputs c' : root_path h c inputs c' ->
  parsed_as root_role (trustedRoot c) -> validateRoot (trustedRoot c) = Ok (trustedRootPolicy c) ->
  parsed_as root_role (trustedRoot c') /\ validateRoot (trustedRoot c') = Ok (trustedRootPolicy c')
  /\ root_version (trustedRootPolicy c') = (root_version (trustedRootPolicy c) + Z.of_nat (length inputs))%Z
  /\ appliedRootVersions c' = appliedRootVersions c ++ seqZ (root_version (trustedRootPolicy c) + 1) (Z.of_nat (length inputs)).
Proof.
  induction 1 as [c|c input rest next policy' c' Hp (Hv & Hn & Hs) Hrest IH]; intros Hr Hval.
  { cbn. split_and!; [done|done|lia|by rewrite app_nil_r]. }
  destruct IH as (H1 & H2 & H3 & H4); [by exists h, input|done|]. cbn [extended trustedRootPolicy appliedRootVersions] in H3, H4.
  split_and!; [done..|cbn [length]; lia|]. rewrite H4, <- app_assoc. f_equal.
  rewrite (seqZ_cons _ (Z.of_nat (length (input :: rest)))) by (cbn; lia). rewrite Hn. cbn [app]. f_equal.
  f_equal; cbn [length]; lia.
Qed.

Lemma delegated_of_other (s : InternalState) c m sel other ch d :
  st_delegated (nextState (trustedRoot c) m sel other) ch = Some d ->
  (ch = sel /\ d = vm_delegated m) \/ (ch = otherChannel sel /\ other = Some d).
Proof. destruct ch, sel; cbn; intros Hd; simplify_eq; auto. Qed.

Lemma consistent_root s : consistent s -> parsed_as root_role (st_root s) /\ exists policy, validateRoot (st_root s) = Ok policy.
Proof. destruct 1; eauto. Qed.

Lemma kept_elem previous b other d : kept previous b other -> other = Some d -> previous = Some d /\ bound b d.
Proof. destruct 1; intros; simplify_eq; done. Qed.

Lemma consistent_delegated s ch d : consistent s -> st_delegated s ch = Some d ->
  parsed_as targets_role d /\ exists path b dp, validateDelegatedTargets d ch path = Ok (b, dp).
Proof. destruct 1 as [? ? ? ? ? ? Hn|? ? ? ? ? ? ? ? ? ? ? ? ? ? ? ? ? ? ? ? ? ? ? ? ? Hd].
  - by rewrite Hn.
  - intros (? & ? & _)%Hd. done. Qed.

Lemma update_consistent h s bundle request u : consistent s -> verifyUpdate h s bundle request = Ok u ->
  consistent (up_state u).
Proof.
  intros Hs (b & r & started & policy & c & m & p & other & content & _ & _ &
             [_ Hroot Hpath _ [(T1 & S1 & G1 & D1) (T2 & S2 & G2 & D2) (Gb & Db) (Sb & Gd & Dd) (Ts & Ss & Gs & Ds) _ _ _] _ Ho]
             & ->)%verifyUpdate_Ok.
  destruct (consistent_root s Hs) as [Hp _].
  destruct (root_path_end _ _ _ _ Hpath Hp Hroot) as (Hpe & Hve & _).
  cbn [up_state update_result]. eapply (consistent_updated _ (trustedRootPolicy c)); cbn [nextState st_root st_timestamp st_snapshot st_targets];
    try done; try (by eexists _, _).
  intros ch d [[-> ->]|[-> ->]]%(delegated_of_other s).
  - split; [by eexists _, _|]. split; [by eexists _, _, _|]. by eexists.
  - unfold other_kept in Ho. destruct (rotated c); [done|]. destruct Ho as (ob & Hob & Hk).
    destruct (kept_elem _ _ _ d Hk eq_refl) as [Hprev Hb].
    destruct (consistent_delegated _ _ _ Hs Hprev) as [Hpd Hvd]. split; [done|]. split; [done|]. by exists ob.
Qed.

Lemma bootstrap_consistent h root s : bootstrap h root = Ok s -> consistent s.
Proof.
  unfold bootstrap. intros Hb. apply bind_Ok in Hb as (e & He & Hb). apply bind_Ok in Hb as (p & Hp & Hb).
  apply Ok_inj in Hb. subst s. apply (consistent_bundled _ p); try done; [by exists h, root|by intros []].
Qed.

Lemma reachable_consistent s : reachable s -> consistent s.
Proof. induction 1; [by eapply bootstrap_consistent|by eapply update_consistent]. Qed.

Lemma optional_summary o name : (forall e, o = Some e -> exists v, versioned e v) -> exists summary, optionalSummary o name = Ok summary.
Proof.
  intros Ho. destruct o as [e|]; cbn; [|by eexists]. destruct (Ho e eq_refl) as (v & Hv). destruct (Hv name) as (sm & -> & _). by eexists.
Qed.

(** C14.  The store is consistent after the bundled root and any sequence of
    updates: its root is a valid policy, and it holds either nothing else or a
    timestamp, a snapshot and targets that bind each other and that the root
    signs for, every delegated metadata it keeps being bound by that snapshot.
    The summary of such a store can always be taken, and reports the version of
    its root. *)
Theorem reachable_store_consistent (s : InternalState) (Hs : reachable s) :
  consistent s /\ exists summary policy, snapshot s = Ok summary /\ validateRoot (st_root s) = Ok policy
    /\ sum_version (ss_root summary) = root_version policy.
Proof.
  apply reachable_consistent in Hs. split; [done|].
  destruct (consistent_root s Hs) as (_ & policy & Hp). destruct (root_versioned _ _ Hp #"root") as (rs & Hrs & Hv).
  assert (forall ch name, exists summary, optionalSummary (st_delegated s ch) name = Ok summary) as Hd.
  { intros ch name. apply optional_summary. intros e He. destruct (consistent_delegated _ _ _ Hs He) as (_ & ? & ? & ? & Hd).
    eexists. by eapply delegated_versioned. }
  destruct (Hd preview TUF_PREVIEW_ROLE) as (ps & Hps), (Hd stable TUF_STABLE_ROLE) as (ss & Hss). cbn [st_delegated] in Hps, Hss.
  destruct (optional_summary (st_snapshot s) #"snapshot") as (sn & Hsn).
  { intros e He. destruct Hs; [congruence|]. simplify_eq. eexists. by eapply snapshot_versioned. }
  destruct (optional_summary (st_targets s) #"targets") as (tg & Htg).
  { intros e He. destruct Hs; [congruence|]. simplify_eq. eexists. by eapply targets_versioned. }
  destruct (optional_summary (st_timestamp s) #"timestamp") as (ts & Hts).
  { intros e He. destruct Hs; [congruence|]. simplify_eq. eexists. by eapply timestamp_versioned. }
  unfold snapshot. runs Hps. runs Hss. runs Hrs. runs Hsn. runs Htg. runs Hts. by eexists _, policy.
Qed.

(** ** Histories *)

(** Updates in a row, from one store to another. *)
Inductive history : InternalState -> list TufVerifiedUpdate -> InternalState -> Prop :=
| history_nil s : history s [] s
| history_cons h s bundle request u us s' :
    verifyUpdate h s bundle request = Ok u -> history (up_state u) us s' -> history s (u :: us) s'.

(** What [s] trusts is older than what [s'] trusts: its timestamp strictly, and
    no file of its snapshot is newer. *)
Definition newer_state (s s' : InternalState) : Prop :=
  (forall t, st_timestamp s = Some t -> exists t' tp tp', st_timestamp s' = Some t'
     /\ validateTimestamp t = Ok tp /\ validateTimestamp t' = Ok tp' /\ later tp tp')
  /\ (forall e, st_snapshot s = Some e -> exists e' sp sp', st_snapshot s' = Some e'
     /\ validateSnapshot e = Ok sp /\ validateSnapshot e' = Ok sp' /\ no_older sp sp').

Lemma no_older_trans a b c : no_older a b -> no_older b c -> no_older a c.
Proof.
  intros Hab Hbc name prior Hin. destruct (Hab name prior Hin) as (n & Hn & ?).
  destruct (Hbc name n (map_get_elem _ _ _ Hn)) as (n' & ? & ?). exists n'. split; [done|lia].
Qed.

Lemma newer_state_trans s1 s2 s3 : newer_state s1 s2 -> newer_state s2 s3 -> newer_state s1 s3.
Proof.
  intros [T S] [T' S']. split.
  - intros t Ht. destruct (T t Ht) as (t2 & tp & tp2 & Ht2 & V & V2 & L). destruct (T' t2 Ht2) as (t3 & tp2' & tp3 & Ht3 & V2' & V3 & L').
    assert (tp2' = tp2) as -> by congruence. exists t3, tp, tp3. unfold later in *. split_and!; [done..|lia|lia].
  - intros e He. destruct (S e He) as (e2 & sp & sp2 & He2 & V & V2 & L). destruct (S' e2 He2) as (e3 & sp2' & sp3 & He3 & V2' & V3 & L').
    assert (sp2' = sp2) as -> by congruence. exists e3, sp, sp3. split_and!; [done..|by eapply no_older_trans].
Qed.

(** No online authority changed. *)
Definition unrotated (u : TufVerifiedUpdate) : Prop := up_timestampRotated u = false /\ up_snapshotRotated u = false.

Lemma update_newer h s bundle request u : verifyUpdate h s bundle request = Ok u -> unrotated u -> newer_state s (up_state u).
Proof.
  intros (b & r & started & policy & c & m & p & other & content & _ & _ & [_ _ _ _ [_ (T2 & S2 & _) _ _ _ _ Ht Hs] _ _] & ->)%verifyUpdate_Ok.
  unfold unrotated, update_result. cbn. intros [Hr Hr'].
  assert (rotated c = false) as E by (unfold rotated; by rewrite Hr, Hr'). unfold unless_rotated in *. rewrite E in Ht, Hs.
  split; [intros t Et; destruct (Ht t Et) as (tp & V & L)|intros e Ee; destruct (Hs e Ee) as (sp & V & L)]; eauto 10.
Qed.

Lemma update_roots h s bundle request u : consistent s -> verifyUpdate h s bundle request = Ok u ->
  exists p p', validateRoot (st_root s) = Ok p /\ validateRoot (st_root (up_state u)) = Ok p'
    /\ (root_version p <= root_version p')%Z
    /\ rootVersionsApplied u = seqZ (root_version p + 1) (root_version p' - root_version p).
Proof.
  intros Hs (b & r & started & policy & c & m & p & other & content & _ & _ & [_ Hroot Hpath _ _ _ _] & ->)%verifyUpdate_Ok.
  destruct (root_path_end _ _ _ _ Hpath (proj1 (consistent_root s Hs)) Hroot) as (_ & Hv & Hn & Ha).
  cbn [start_chain trustedRootPolicy appliedRootVersions app] in Hn, Ha.
  exists policy, (trustedRootPolicy c). cbn [update_result up_state nextState st_root rootVersionsApplied].
  split_and!; [done..|lia|]. rewrite Ha. f_equal. lia.
Qed.

Lemma history_sorted s us s' : history s us s' -> Forall unrotated us -> StronglySorted newer_state (s :: map up_state us).
Proof.
  induction 1 as [s|h s bundle request u us s' Hu Hh IH]; intros Hall; [by repeat constructor|].
  apply Forall_cons in Hall as [Hr Hall]. specialize (IH Hall). pose proof (update_newer _ _ _ _ _ Hu Hr) as Hn.
  cbn [map]. constructor; [exact IH|]. constructor; [exact Hn|]. inversion IH as [|? ? _ Hf]; subst.
  eapply Forall_impl; [exact Hf|]. intros x. by apply newer_state_trans.
Qed.

Lemma history_roots s us s' : consistent s -> history s us s' ->
  exists p p', validateRoot (st_root s) = Ok p /\ validateRoot (st_root s') = Ok p'
    /\ (root_version p <= root_version p')%Z
    /\ mjoin (map rootVersionsApplied us) = seqZ (root_version p + 1) (root_version p' - root_version p).
Proof.
  intros Hs Hh. revert Hs. induction Hh as [s|h s bundle request u us s' Hu Hh IH]; intros Hs.
  - destruct (consistent_root s Hs) as (_ & p & Hp). exists p, p. rewrite Z.sub_diag. split_and!; [done..|lia|done].
  - destruct (update_roots _ _ _ _ _ Hs Hu) as (p & p1 & Hp & Hp1 & Hle & Happ).
    destruct (IH (update_consistent _ _ _ _ _ Hs Hu)) as (p1' & p' & Hp1' & Hp' & Hle' & Happ').
    assert (p1' = p1) as -> by congruence. exists p, p'. split_and!; [done..|lia|].
    cbn [map]. rewrite mjoin_cons, Happ, Happ'.
    replace (root_version p' - root_version p)%Z with ((root_version p1 - root_version p) + (root_version p' - root_version p1))%Z by lia.
    rewrite (seqZ_app _ (root_version p1 - root_version p)) by lia. f_equal. f_equal. lia.
Qed.

(** C5.  No rollback.  Along any history of updates, whatever the bundles and
    the clocks, the roots applied are exactly the versions from the first root
    to the last, each once and in order; and while no online authority changes,
    every state is newer than every state before it: its timestamp has a strictly
    greater version, and no file of an earlier snapshot is missing from a later
    one or bound there in an older version. *)
Theorem no_rollback (s s' : InternalState) (us : list TufVerifiedUpdate) (Hs : reachable s) (Hh : history s us s') :
  (exists p p', validateRoot (st_root s) = Ok p /\ validateRoot (st_root s') = Ok p'
     /\ (root_version p <= root_version p')%Z
     /\ mjoin (map rootVersionsApplied us) = seqZ (root_version p + 1) (root_version p' - root_version p))
  /\ (Forall unrotated us -> StronglySorted newer_state (s :: map up_state us)).
Proof.
  split; [|by apply (history_sorted s us s')]. by apply history_roots; [apply reachable_consistent|].
Qed.

(** ** Replay *)

Lemma root_path_first h c input rest c' : root_path h c (input :: rest) c' ->
  exists next p, parseEnvelope h input root_role = Ok next /\ validateRoot next = Ok p
    /\ root_version p = (root_version (trustedRootPolicy c) + 1)%Z.
Proof. inversion 1 as [|? ? ? e p ? He (Hp & Hv & _) _]; subst. eauto. Qed.

Lemma applyRoot_refused h c input e p : parseEnvelope h input root_role = Ok e -> validateRoot e = Ok p ->
  root_version p <> (root_version (trustedRootPolicy c) + 1)%Z -> applyRoot h c input = Err root_continuity.
Proof. intros He Hp Hv. unfold applyRoot. runs He. runs Hp. by rewrite (proj2 (Z.eqb_neq _ _) Hv). Qed.

(** C30.  No replay.  An accepted update is refused by the store it produced, for
    the same request and the same inputs: as a replay of its timestamp, or, when
    it carried new roots, at the first of them. *)
Theorem replay_refused (h : heap) (s : InternalState) (bundle request : value) (u : TufVerifiedUpdate)
    (Hs : reachable s) (Hu : verifyUpdate h s bundle request = Ok u) :
  verifyUpdate h (up_state u) bundle request
  = Err (match rootVersionsApplied u with [] => replay | _ => root_continuity end).
Proof.
  apply reachable_consistent, consistent_root in Hs as [Hp _].
  apply verifyUpdate_Ok in Hu as (b & r & started & policy & c & m & p & other & content & B & R &
    [T Hroot Hpath V [(T1 & _) (T2 & _) _ _ (T3 & _) (T4 & _) _ _] _ _] & ->).
  destruct (root_path_end _ _ _ _ Hpath Hp Hroot) as (_ & Hv & Hn & Ha).
  cbn [start_chain trustedRootPolicy appliedRootVersions app] in Hn, Ha.
  cbn [update_result up_state nextState rootVersionsApplied]. rewrite Ha.
  unfold verifyUpdate. runs B. runs R. unfold parseUtc. rewrite T. cbn [mbind res_mbind nextState st_root]. runs Hv.
  destruct (b_roots b) as [|input rest].
  - inversion Hpath; subst.
    apply (current_Ok _ _ tt) in V, T4. apply (signed_by_Ok _ _ _ tt) in T3. cbn [start_chain trustedRoot trustedRootPolicy] in V, T3.
    cbn [foldM mbind res_mbind start_chain trustedRoot trustedRootPolicy timestampAuthorityRotated snapshotAuthorityRotated orb].
    runs V. unfold verifyMetadata. runs T1. runs T2. cbn [trustedRoot]. runs T3. runs T4. cbn [nextState st_timestamp newerTimestamp].
    runs T2. rewrite (Z.leb_refl (ts_version _)), Z.eqb_refl, seqZ_nil by (cbn; lia). reflexivity.
  - destruct (root_path_first _ _ _ _ _ Hpath) as (e & p1 & He & Hp1 & Hv1). cbn [start_chain trustedRootPolicy] in Hv1.
    cbn [foldM]. rewrite (applyRoot_refused _ _ _ e p1) by (try done; cbn [trustedRootPolicy length] in *; lia).
    rewrite seqZ_cons by (cbn [length]; lia). reflexivity.
Qed.

(** ** Mix and match *)

Lemma target_binding_channel v ch b : validateTargetBinding v ch = Ok b -> tb_channel b = ch.
Proof. unfold validateTargetBinding. intros Hb. res_inv. by subst b. Qed.

Lemma delegated_binding_channel d ch path b dp : validateDelegatedTargets d ch path = Ok (b, dp) -> tb_channel b = ch.
Proof.
  unfold validateDelegatedTargets. intros Hd. apply bind_Ok in Hd as (signed & _ & Hd).
  apply bind_Ok in Hd as ([times v] & _ & Hd). apply bind_Ok in Hd as (targets & _ & Hd).
  apply bind_ensure in Hd as (_ & Hd). apply bind_ensure in Hd as (_ & Hd).
  apply bind_Ok in Hd as (found & Hf & Hd). apply bind_Ok in Hd as (b' & Hb%required_Ok & Hd).
  injection (Ok_inj Hd) as <- _. subst found.
  assert (forall o, foldM (delegated_target targets ch path) None (keys_of targets) = Ok o ->
          forall b, o = Some b -> tb_channel b = ch) as Hinv; [|by eapply Hinv].
  intros o Ho. apply (foldM_inv (fun _ o => forall b, o = Some b -> tb_channel b = ch) _ _ _ _ Ho); [done|].
  clear. intros _ name o o' IH _ Ho. unfold delegated_target in Ho. apply bind_Ok in Ho as (? & _ & Ho).
  apply bind_ensure in Ho as (_ & Ho). apply bind_Ok in Ho as (binding & Hbind & Ho). apply Ok_inj in Ho. subst o'.
  destruct (jeqb name path); [|exact IH]. intros b [= <-]. by eapply target_binding_channel.
Qed.

(** The delegated targets of the channel of an update. *)
Definition delegated_targets (u : TufVerifiedUpdate) : option ParsedEnvelope :=
  st_delegated (up_state u) (tb_channel (vt_binding (up_target u))).

(** The bytes of two documents collide. *)
Definition documents_collide (e e' : option ParsedEnvelope) : Prop :=
  match e, e' with Some e, Some e' => collide (bytes e) (bytes e') | _, _ => False end.

(** What two updates delivered collides: their snapshots, their targets
    metadata, their delegated targets or their targets. *)
Definition updates_collide (u u' : TufVerifiedUpdate) : Prop :=
  documents_collide (st_snapshot (up_state u)) (st_snapshot (up_state u'))
  \/ documents_collide (st_targets (up_state u)) (st_targets (up_state u'))
  \/ documents_collide (delegated_targets u) (delegated_targets u')
  \/ collide (targetBytes u) (targetBytes u').

Lemma delegated_targets_result c m request other content :
  tb_channel (vm_binding m) = channel request ->
  delegated_targets (update_result c m request other content) = Some (vm_delegated m).
Proof. intros Hc. unfold delegated_targets. cbn. rewrite Hc. by destruct (channel request). Qed.

(** C8.  No mix and match.  Two accepted updates, of whatever stores, under the
    same timestamp metadata and for the same channel and path deliver the same
    snapshot, the same targets metadata, the same delegated targets, the same
    binding and the same target bytes, unless two corresponding documents that
    these very updates delivered are different and have one SHA-256 digest. *)
Theorem timestamp_determines_target (h h' : heap) (s s' : InternalState) (bundle request bundle' request' : value)
    (u u' : TufVerifiedUpdate) (t t' : ParsedEnvelope)
    (Hu : verifyUpdate h s bundle request = Ok u) (Hu' : verifyUpdate h' s' bundle' request' = Ok u')
    (Ht : st_timestamp (up_state u) = Some t) (Ht' : st_timestamp (up_state u') = Some t') (Hb : bytes t = bytes t')
    (Hc : tb_channel (vt_binding (up_target u)) = tb_channel (vt_binding (up_target u')))
    (Hp : vt_targetPath (up_target u) = vt_targetPath (up_target u')) :
  (st_snapshot (up_state u) = st_snapshot (up_state u') /\ st_targets (up_state u) = st_targets (up_state u')
   /\ delegated_targets u = delegated_targets u'
   /\ vt_binding (up_target u) = vt_binding (up_target u') /\ targetBytes u = targetBytes u')
  \/ updates_collide u u'.
Proof.
  apply verifyUpdate_Ok in Hu as (b & r & st & pol & c & m & p & o & content & _ & _ &
    [_ _ _ _ [(T1 & S1 & G1 & D1) (T2 & S2 & _ & D2) (Gb & Db) (Sb & Gd & Dd) _ _ _ _] (_ & _ & Hsha & _) _] & ->).
  apply verifyUpdate_Ok in Hu' as (b' & r' & st' & pol' & c' & m' & p' & o' & content' & _ & _ &
    [_ _ _ _ [(T1' & S1' & G1' & D1') (T2' & S2' & _ & D2') (Gb' & Db') (Sb' & Gd' & Dd') _ _ _ _] (_ & _ & Hsha' & _) _] & ->).
  unfold updates_collide.
  rewrite (delegated_targets_result c m r o content (delegated_binding_channel _ _ _ _ _ D2)),
          (delegated_targets_result c' m' r' o' content' (delegated_binding_channel _ _ _ _ _ D2')).
  cbn [update_result up_state up_target vt_binding vt_targetPath nextState st_snapshot st_targets st_timestamp
       targetBytes documents_collide] in *.
  injection Ht as <-. injection Ht' as <-.
  rewrite (delegated_binding_channel _ _ _ _ _ D2), (delegated_binding_channel _ _ _ _ _ D2') in Hc.
  assert (vm_timestamp m = vm_timestamp m') as Em by (eapply (parsed_same_bytes timestamp_role); [by eexists _, _..|done]).
  assert (p_timestamp p = p_timestamp p') as Ep by congruence. rewrite Ep in Sb.
  destruct (bound_same snapshot_role _ (vm_snapshot m) (vm_snapshot m') ltac:(by eexists _, _) ltac:(by eexists _, _) Sb Sb') as [Es|?]; [|by right; left].
  assert (vm_snapshotPolicy m = vm_snapshotPolicy m') as Esp by congruence.
  assert (p_targetsBinding p = p_targetsBinding p') as Egb by congruence. rewrite Egb in Gd.
  destruct (bound_same targets_role _ (vm_targets m) (vm_targets m') ltac:(by eexists _, _) ltac:(by eexists _, _) Gd Gd') as [Eg|?]; [|by right; right; left].
  assert (p_delegatedBinding p = p_delegatedBinding p') as Edb by congruence. rewrite Edb in Dd.
  destruct (bound_same targets_role _ (vm_delegated m) (vm_delegated m') ltac:(by eexists _, _) ltac:(by eexists _, _) Dd Dd') as [Ed|?]; [|by right; right; right; left].
  assert (vm_binding m = vm_binding m') as Eb by congruence.
  assert (hex (sha256 content) = hex (sha256 content')) as Hh by congruence.
  apply hex_sha256_inj in Hh as [->|?]; [left|by right; right; right; right]. split_and!; congruence.
Qed.

(** ** Separation of authority *)

Lemma set_size_le l : set_size l <= length l.
Proof. unfold set_size. induction l as [|x l IH]; cbn; [done|]. case_decide; cbn; lia. Qed.

Lemma set_size_NoDup l : set_size l = length l -> NoDup l.
Proof.
  induction l as [|x l IH]; [constructor|]. unfold set_size. cbn [remove_dups length].
  pose proof (set_size_le l). unfold set_size in *. case_decide; [lia|]. cbn [length]. intros [= ?]. constructor; [done|auto].
Qed.

(** [n] distinct keys, [k] of which must sign. *)
Definition quorum (r : ValidatedRole) (n : nat) (k : Z) : Prop := length (keyids r) = n /\ threshold r = k.

Lemma validateRole_Ok v n k r : validateRole v n k = Ok r -> quorum r n k.
Proof.
  unfold validateRole. intros Hr. apply bind_Ok in Hr as (role & _ & Hr). apply bind_Ok in Hr as (? & _ & Hr).
  apply bind_Ok in Hr as (raw & _ & Hr). apply bind_ensure in Hr as (Hl%Nat.eqb_eq & Hr).
  apply bind_Ok in Hr as (ids & Hids & Hr). apply bind_ensure in Hr as (_ & Hr). apply bind_Ok in Hr as (t & _ & Hr).
  apply bind_ensure in Hr as (->%Z.eqb_eq & Hr). apply Ok_inj in Hr. subst r. split; [|done]. cbn.
  apply rmapM_length in Hids. lia.
Qed.

Lemma validateRoot_keys e p : validateRoot e = Ok p ->
  NoDup (all_role_keys p) /\ quorum (root_keys p) 3 2 /\ quorum (snapshot_keys p) 1 1 /\ quorum (targets_keys p) 3 2
  /\ quorum (timestamp_keys p) 1 1.
Proof.
  unfold validateRoot. intros Hr. apply bind_Ok in Hr as (? & _ & Hr). apply bind_Ok in Hr as ([times v] & _ & Hr).
  apply bind_ensure in Hr as (_ & Hr). apply bind_Ok in Hr as (keys & _ & Hr). apply bind_Ok in Hr as (ro & _ & Hr).
  apply bind_Ok in Hr as (? & _ & Hr). apply bind_Ok in Hr as (k1 & K1%validateRole_Ok & Hr).
  apply bind_Ok in Hr as (k2 & K2%validateRole_Ok & Hr). apply bind_Ok in Hr as (k3 & K3%validateRole_Ok & Hr).
  apply bind_Ok in Hr as (k4 & K4%validateRole_Ok & Hr). apply bind_ensure in Hr as (Hn%Nat.eqb_eq & Hr).
  apply bind_ensure in Hr as (_ & Hr). apply bind_ensure in Hr as (_ & Hr). apply Ok_inj in Hr. subst p.
  split; [by apply set_size_NoDup|done].
Qed.

(** The roles read so far are quorums. *)
Definition good_roles (roles : parsed_roles) : Prop := forall ch r, parsed_role roles ch = Some r -> quorum r 3 2.

Lemma delegated_role_good roles entry roles' : good_roles roles -> delegated_role roles entry = Ok roles' -> good_roles roles'.
Proof.
  intros Hg Hr. unfold delegated_role in Hr. apply bind_Ok in Hr as (? & _ & Hr). apply bind_Ok in Hr as (? & _ & Hr).
  apply bind_Ok in Hr as (? & _ & Hr). apply bind_Ok in Hr as (ch & _ & Hr). apply bind_ensure in Hr as (_ & Hr).
  apply bind_ensure in Hr as (_ & Hr). apply bind_Ok in Hr as (? & _ & Hr). apply bind_ensure in Hr as (_ & Hr).
  apply bind_Ok in Hr as (? & _ & Hr). apply bind_Ok in Hr as (? & _ & Hr). apply bind_Ok in Hr as (r & Hq%validateRole_Ok & Hr).
  apply Ok_inj in Hr. subst roles'. intros ch' r' Hr'. pose proof (Hg ch' r') as Hg'.
  destruct ch, ch'; cbn in *; simplify_eq; auto.
Qed.

Lemma disjoint_from_elem l k : disjoint_from l k = true -> forall x, x ∈ l -> x ∉ k.
Proof.
  unfold disjoint_from. rewrite forallb_elem. intros Hd x Hx Hk. specialize (Hd x Hx). apply negb_true_iff in Hd.
  rewrite <- not_true_iff_false, existsb_elem in Hd. apply Hd. exists x. split; [done|apply jeqb_refl].
Qed.

Lemma validateTopLevelTargets_keys e p gp : NoDup (all_role_keys p) -> validateTopLevelTargets e p = Ok gp ->
  exists d, tp_delegations gp = Some d /\ NoDup ((keyids (preview_role d) ++ keyids (stable_role d)) ++ all_role_keys p)
    /\ quorum (preview_role d) 3 2 /\ quorum (stable_role d) 3 2.
Proof.
  intros Hnd. unfold validateTopLevelTargets. intros Hr. apply bind_Ok in Hr as (? & _ & Hr). apply bind_Ok in Hr as ([times v] & _ & Hr).
  apply bind_Ok in Hr as (? & _ & Hr). apply bind_Ok in Hr as (? & _ & Hr). apply bind_Ok in Hr as (? & _ & Hr).
  apply bind_Ok in Hr as (? & _ & Hr). apply bind_Ok in Hr as (keys & _ & Hr). apply bind_Ok in Hr as (roles & _ & Hr).
  apply bind_ensure in Hr as (_ & Hr). apply bind_Ok in Hr as (parsed & Hroles & Hr).
  apply bind_Ok in Hr as (pr & Hpr%required_Ok & Hr). apply bind_Ok in Hr as (sr & Hsr%required_Ok & Hr).
  apply bind_ensure in Hr as (Hsize & Hr). apply bind_ensure in Hr as (Hdis & Hr). apply Ok_inj in Hr. subst gp.
  assert (good_roles parsed) as Hg.
  { apply (foldM_inv (fun _ r => good_roles r) _ _ _ _ Hroles); [by intros []|]. intros _ entry a a' Ha _. by apply delegated_role_good. }
  destruct (Hg preview pr Hpr) as [Lp Tp], (Hg stable sr Hsr) as [Ls Ts].
  eexists. split; [reflexivity|]. split; [|done]. cbn [preview_role stable_role]. rewrite NoDup_app. split_and!; [|by apply disjoint_from_elem|done].
  apply set_size_NoDup. rewrite length_app, Lp, Ls. bool_prop. by apply Nat.eqb_eq.
Qed.

(** C18.  Separation of authority.  After an accepted update the fourteen keys of
    the six roles are pairwise different: two of three for the root, the targets
    and each channel, one for the snapshot and for the timestamp.  The target
    delivered lies under its channel, whose metadata the targets role signs for
    under the name of that channel alone. *)
Theorem authority_is_separated (h : heap) (s : InternalState) (bundle request : value) (u : TufVerifiedUpdate)
    (Hs : reachable s) (Hu : verifyUpdate h s bundle request = Ok u) :
  exists policy tg gp d delegated ch,
    validateRoot (st_root (up_state u)) = Ok policy /\ st_targets (up_state u) = Some tg
    /\ validateTopLevelTargets tg policy = Ok gp /\ tp_delegations gp = Some d
    /\ NoDup ((keyids (preview_role d) ++ keyids (stable_role d)) ++ all_role_keys policy)
    /\ quorum (preview_role d) 3 2 /\ quorum (stable_role d) 3 2 /\ quorum (root_keys policy) 3 2
    /\ quorum (targets_keys policy) 3 2 /\ quorum (snapshot_keys policy) 1 1 /\ quorum (timestamp_keys policy) 1 1
    /\ tb_channel (vt_binding (up_target u)) = ch /\ startsWith (vt_targetPath (up_target u)) (channel_prefix ch) = true
    /\ st_delegated (up_state u) ch = Some delegated /\ signed_by tg (CHANNEL_ROLE ch) delegated.
Proof.
  apply reachable_consistent, consistent_root in Hs as [Hp _].
  apply verifyUpdate_Ok in Hu as (b & r & st & pol & c & m & p & o & content & _ & R &
    [_ Hroot Hpath _ [_ (_ & _ & G2 & D2) _ _ (_ & _ & _ & Ds) _ _ _] _ _] & ->).
  destruct (root_path_end _ _ _ _ Hpath Hp Hroot) as (_ & Hv & _).
  destruct (validateRoot_keys _ _ Hv) as (Hn & Q1 & Q2 & Q3 & Q4).
  destruct (validateTopLevelTargets_keys _ _ _ Hn G2) as (d & Hd & Hnd & Q5 & Q6).
  exists (trustedRootPolicy c), (vm_targets m), (p_targets p), d, (vm_delegated m), (channel r).
  cbn [update_result up_state up_target vt_binding vt_targetPath nextState st_root st_targets].
  split_and!; try done; [by eapply delegated_binding_channel| |by destruct (channel r)].
  unfold validateRequest in R. res_inv. by subst r.
Qed.

End history.
