(* ===== verification/TufExamples.v ===== *)
(** A small repository: its keys, metadata and updates, for a concrete
    canonical encoding, signature and digest, and the theorems of the trust
    store applied to it. *)
From S2P Require Import Prelude JsString Unicode Identifiers OrderedMap JsValue Json ObjectGraph JsonText JsonParse UtcTime TufText TufMetadata TufTrust TufLaws TufBounds TufHistory.

(** A digest that is quick to compute: the sum of the bytes, padded. *)
Definition sum_digest (m : list N) : list N :=
  let c := fold_left N.add m 0%N in [c / 65536 mod 256; c / 256 mod 256; c mod 256]%N ++ replicate 29 0%N.

#[local] Instance sum_sha256 : Sha256.
Proof.
  refine {| sha256 := sum_digest |}.
  - intros m. unfold sum_digest. repeat (constructor; [lia|]). constructor.
  - done.
Defined.

(** ** A canonical encoding and a signature scheme *)

Definition canonical_unit (c : N) : jstring := if (c =? QUOTE)%N || (c =? ESCAPE)%N then [ESCAPE; c] else [c].
Definition canonical_string (s : jstring) : jstring := QUOTE :: mjoin (canonical_unit <$> s) ++ [QUOTE].

(** Keys in ascending order, no spaces, only the quote and the backslash escaped. *)
Fixpoint canonical_text (v : parsed) : jstring :=
  match v with
  | PNull => #"null"
  | PBool b => if b then #"true" else #"false"
  | PInteger n => String_of_Z n
  | PNegativeZero => #"0"
  | PNumber t => t
  | PString s => canonical_string s
  | PArray items => 91%N :: join 44%N (map canonical_text items) ++ [93%N]
  | PObject fields =>
      123%N :: join 44%N (map snd (sort_by (fun a b => jleb a.1 b.1)
        (map (fun f => (f.1, canonical_string f.1 ++ 58%N :: canonical_text f.2)) fields))) ++ [125%N]
  end.

Definition toy_signature (keyid : jstring) (signed : parsed) : jstring :=
  let digest := sha256_hex (keyid ++ canonical_text signed) in digest ++ digest.

Definition field_of (v : option parsed) (key : jstring) : option parsed :=
  match v with Some (PObject fields) => map_get key fields | _ => None end.
Definition items_of (v : option parsed) : list parsed := match v with Some (PArray items) => items | _ => [] end.

(** The authority a document gives a role. *)
Definition authority (document : parsed) (role : jstring) : option parsed :=
  let signed := field_of (Some document) #"signed" in
  match field_of (field_of signed #"roles") role with
  | Some r => Some r
  | None => find (fun r => is_text (field_of (Some r) #"name") role) (items_of (field_of (field_of signed #"delegations") #"roles"))
  end.

(** The valid signatures of the role's keys reach its threshold. *)
Definition toy_verify (delegator : parsed) (role : jstring) (document : parsed) : bool :=
  match authority delegator role, field_of (Some document) #"signed" with
  | Some r, Some signed =>
      let valid := List.filter (fun s =>
        match field_of (Some s) #"keyid" with
        | Some (PString id) => existsb (fun k => is_text (Some k) id) (items_of (field_of (Some r) #"keyids"))
                               && is_text (field_of (Some s) #"sig") (toy_signature id signed)
        | _ => false
        end) (items_of (field_of (Some document) #"signatures")) in
      match field_of (Some r) #"threshold" with
      | Some (PInteger k) => (k <=? Z.of_nat (length valid))%Z
      | _ => false
      end
  | _, _ => false
  end.

#[local] Instance toy_models : TufModels := {|
  metadata := parsed;
  canonicalize := fun v => Some (canonical_text v);
  Metadata_fromJSON := fun _ v => Some v;
  metadata_verifyDelegate := toy_verify
|}.

(** ** A repository *)

Definition key (n : N) : parsed :=
  PObject [(#"keytype", PString #"ed25519");
           (#"keyval", PObject [(#"public", PString (replicate 63 48%N ++ [hex_digit n]))]);
           (#"scheme", PString #"ed25519")].
Definition key_id (n : N) : jstring := sha256_hex (canonical_text (key n)).
Definition key_ids (keys : list N) : list jstring := sort_by jleb (map key_id keys).
Definition key_map (keys : list N) : parsed :=
  PObject (sort_by (fun a b => jleb a.1 b.1) (map (fun n => (key_id n, key n)) keys)).

Definition document (signers : list N) (signed : parsed) : jstring :=
  canonical_text (PObject [
    (#"signatures", PArray (map (fun id => PObject [(#"keyid", PString id); (#"sig", PString (toy_signature id signed))]) (key_ids signers)));
    (#"signed", signed)]).

Definition signed_part (role : jstring) (version : Z) (expires : jstring) (fields : list (jstring * parsed)) : parsed :=
  PObject ([(#"_type", PString role); (#"expires", PString expires); (#"spec_version", PString #"1.0.35");
            (#"version", PInteger version);
            (#"x-agent-context", PObject [(#"issuedAt", PString #"2026-08-01T00:00:00Z"); (#"policyVersion", PString #"0.1.0");
                                          (#"repositoryId", PString #"agent-context-standards")])] ++ fields).

Definition role_entry (keys : list N) (threshold : Z) : list (jstring * parsed) :=
  [(#"keyids", PArray (map PString (key_ids keys))); (#"threshold", PInteger threshold)].

Definition ROOT := [1; 2; 3]%N.
Definition TARGETS := [4; 5; 6]%N.
Definition PREVIEW := [9; 10; 11]%N.
Definition STABLE := [12; 13; 14]%N.

(** A root of a version, for the keys of the snapshot and the timestamp. *)
Definition root_document (version : Z) (snapshot timestamp : N) : jstring :=
  document [1; 2]%N (signed_part #"root" version #"2027-07-31T00:00:00Z" [
    (#"consistent_snapshot", PBool true); (#"keys", key_map (ROOT ++ TARGETS ++ [snapshot; timestamp]));
    (#"roles", PObject [(#"root", PObject (role_entry ROOT 2)); (#"snapshot", PObject (role_entry [snapshot] 1));
                        (#"targets", PObject (role_entry TARGETS 2)); (#"timestamp", PObject (role_entry [timestamp] 1))])]).

Definition target_path (ch : TufChannel) : jstring := channel_prefix ch ++ #"pack.json".
Definition pack : jstring := #"{}".

Definition delegated_document (ch : TufChannel) (version : Z) : jstring :=
  document (take 2 (match ch with preview => PREVIEW | stable => STABLE end))
    (signed_part #"targets" version #"2026-10-01T00:00:00Z" [
      (#"targets", PObject [(target_path ch, PObject [
        (#"custom", PObject [(#"channel", PString (channel_name ch)); (#"minEngineVersion", PString #"0.9.0-rc.1");
                             (#"packId", PString #"agent-context"); (#"packVersion", PString #"2026.8.0");
                             (#"schemaVersion", PString #"0.1.0")]);
        (#"hashes", PObject [(#"sha256", PString (sha256_hex pack))]); (#"length", PInteger 2)])])]).

Definition delegation (ch : TufChannel) (keys : list N) : parsed :=
  PObject ([(#"name", PString (CHANNEL_ROLE ch)); (#"paths", PArray [PString (CHANNEL_PATH ch)]); (#"terminating", PBool true)]
           ++ role_entry keys 2).

Definition targets_document (version : Z) : jstring :=
  document [4; 5]%N (signed_part #"targets" version #"2026-10-01T00:00:00Z" [
    (#"delegations", PObject [(#"keys", key_map (PREVIEW ++ STABLE));
                              (#"roles", PArray [delegation preview PREVIEW; delegation stable STABLE])]);
    (#"targets", PObject [])]).

Definition binding_of (text : jstring) (version : Z) : parsed :=
  PObject [(#"hashes", PObject [(#"sha256", PString (sha256_hex text))]); (#"length", PInteger (Z.of_N (textBytes text)));
           (#"version", PInteger version)].

Definition snapshot_document (signer : N) (version : Z) : jstring :=
  document [signer] (signed_part #"snapshot" version #"2026-08-08T00:00:00Z" [
    (#"meta", PObject [(#"standards-preview.json", binding_of (delegated_document preview version) version);
                       (#"standards-stable.json", binding_of (delegated_document stable version) version);
                       (#"targets.json", binding_of (targets_document version) version)])]).

Definition timestamp_document (signer snapshotSigner : N) (version : Z) : jstring :=
  document [signer] (signed_part #"timestamp" version #"2026-08-02T00:00:00Z" [
    (#"meta", PObject [(#"snapshot.json", binding_of (snapshot_document snapshotSigner version) version)])]).

Definition bundle_of (roots : list jstring) (ch : TufChannel) (snapshotSigner timestampSigner : N) (version : Z) : value :=
  VRecord [(#"roots", VArray (map VString roots));
           (#"timestamp", VString (timestamp_document timestampSigner snapshotSigner version));
           (#"snapshot", VString (snapshot_document snapshotSigner version));
           (#"targets", VString (targets_document version));
           (#"delegatedTargets", VString (delegated_document ch version)); (#"target", VString pack)].

Definition request_of (ch : TufChannel) : value :=
  VRecord [(#"channel", VString (channel_name ch)); (#"engineVersion", VString #"1.0.0");
           (#"startedAt", VString #"2026-08-01T12:00:00Z"); (#"targetPath", VString (target_path ch))].

Definition no_heap : heap := fun _ => None.
Definition first_root : value := VString (root_document 1 7 8).
Definition first_bundle : value := bundle_of [] stable 7 8 1.
Definition second_bundle : value := bundle_of [] preview 7 8 2.
(** A new root with another timestamp key, and the documents it authorizes. *)
Definition rotated_bundle : value := bundle_of [root_document 2 7 15] stable 7 15 1.

(** The same update as the first, later and for another engine. *)
Definition later_request : value :=
  VRecord [(#"channel", VString #"stable"); (#"engineVersion", VString #"2.0.0");
           (#"startedAt", VString #"2026-08-01T13:00:00Z"); (#"targetPath", VString (target_path stable))].

Definition code {A} (m : trusted A) : option TufTrustErrorCode := match m with Ok _ => None | Err e => Some e end.

Record story := {
  bundled : InternalState; update1 : TufVerifiedUpdate; update2 : TufVerifiedUpdate; update3 : TufVerifiedUpdate;
  update1' : TufVerifiedUpdate
}.

(** Two updates of the bundled root, one of each channel; a rotation of the
    timestamp key after them; and the first update for another request. *)
Definition tell (root bundle1 request1 bundle2 request2 bundle3 request3 : value) : trusted story :=
  s ← bootstrap no_heap root;
  u1 ← verifyUpdate no_heap s bundle1 request1;
  u2 ← verifyUpdate no_heap (up_state u1) bundle2 request2;
  u3 ← verifyUpdate no_heap (up_state u2) bundle3 request1;
  u1' ← verifyUpdate no_heap s bundle1 request3;
  Ok {| bundled := s; update1 := u1; update2 := u2; update3 := u3; update1' := u1' |}.

Lemma tell_Ok root b1 r1 b2 r2 b3 r3 x : tell root b1 r1 b2 r2 b3 r3 = Ok x ->
  bootstrap no_heap root = Ok (bundled x) /\ verifyUpdate no_heap (bundled x) b1 r1 = Ok (update1 x)
  /\ verifyUpdate no_heap (up_state (update1 x)) b2 r2 = Ok (update2 x)
  /\ verifyUpdate no_heap (bundled x) b1 r3 = Ok (update1' x).
Proof.
  unfold tell. intros Hx. apply bind_Ok in Hx as (s & Hs & Hx). apply bind_Ok in Hx as (u1 & H1 & Hx).
  apply bind_Ok in Hx as (u2 & H2 & Hx). apply bind_Ok in Hx as (u3 & _ & Hx). apply bind_Ok in Hx as (u4 & H4 & Hx).
  apply Ok_inj in Hx. by subst x.
Qed.

Definition same_delivery (u u' : TufVerifiedUpdate) : Prop :=
  bytes <$> st_timestamp (up_state u) = bytes <$> st_timestamp (up_state u')
  /\ tb_channel (vt_binding (up_target u)) = tb_channel (vt_binding (up_target u'))
  /\ vt_targetPath (up_target u) = vt_targetPath (up_target u').

(** The first updates rotate nothing; the third applies root 2 and drops the
    metadata of the other channel; then an older bundle is a rollback, the same
    one a replay, documents of other keys are not signed, and roots may not be
    skipped. *)
Definition told (x : story) : Prop :=
  unrotated (update1 x) /\ unrotated (update2 x) /\ same_delivery (update1 x) (update1' x)
  /\ map rootVersionsApplied [update1 x; update2 x; update3 x] = [[]; []; [2]%Z]
  /\ map up_timestampRotated [update1 x; update2 x; update3 x] = [false; false; true]
  /\ map (fun u => bool_decide (is_Some (st_preview (up_state u)))) [update1 x; update2 x; update3 x] = [false; true; false]
  /\ code (verifyUpdate no_heap (up_state (update2 x)) first_bundle (request_of stable)) = Some rollback
  /\ code (verifyUpdate no_heap (up_state (update1 x)) first_bundle (request_of stable)) = Some replay
  /\ code (verifyUpdate no_heap (bundled x) (bundle_of [] stable 7 15 1) (request_of stable)) = Some invalid_signature
  /\ code (verifyUpdate no_heap (bundled x) (bundle_of [root_document 3 7 8] stable 7 8 1) (request_of stable))
     = Some root_continuity.

Lemma a_story : exists x,
  tell first_root first_bundle (request_of stable) second_bundle (request_of preview) rotated_bundle later_request = Ok x /\ told x.
Proof. apply (ok_of _ told). vm_compute. repeat split. Qed.

(** ** Witnesses *)

Lemma two_steps : exists s u1 u2 u1', bootstrap no_heap first_root = Ok s
  /\ verifyUpdate no_heap s first_bundle (request_of stable) = Ok u1
  /\ verifyUpdate no_heap (up_state u1) second_bundle (request_of preview) = Ok u2
  /\ verifyUpdate no_heap s first_bundle later_request = Ok u1'
  /\ unrotated u1 /\ unrotated u2 /\ same_delivery u1 u1'.
Proof.
  destruct a_story as (x & Hx & R1 & R2 & D & _). destruct (tell_Ok _ _ _ _ _ _ _ _ Hx) as (Hs & H1 & H2 & H3).
  exists (bundled x), (update1 x), (update2 x), (update1' x).
  exact (conj Hs (conj H1 (conj H2 (conj H3 (conj R1 (conj R2 D)))))).
Qed.

Lemma first_steps : exists s u, bootstrap no_heap first_root = Ok s
  /\ verifyUpdate no_heap s first_bundle (request_of stable) = Ok u.
Proof. destruct two_steps as (s & u & _ & _ & Hs & Hu & _). exact (ex_intro _ s (ex_intro _ u (conj Hs Hu))). Qed.

Lemma verified_timestamp h s bundle request u : verifyUpdate h s bundle request = Ok u ->
  exists t, st_timestamp (up_state u) = Some t.
Proof. intros (? & ? & ? & ? & ? & ? & ? & ? & ? & _ & _ & _ & ->)%verifyUpdate_Ok. by eexists. Qed.

Lemma reachable_store_consistent_witness : exists s, reachable s /\ st_timestamp s <> None /\ consistent s.
Proof.
  destruct first_steps as (s & u & Hs & Hu).
  assert (Hr : reachable (up_state u)) by exact (reach_update _ _ _ _ _ (reach_bootstrap _ _ _ Hs) Hu).
  exists (up_state u). split; [exact Hr|]. split.
  - destruct (verified_timestamp _ _ _ _ _ Hu) as (t & ->). discriminate.
  - exact (proj1 (reachable_store_consistent (up_state u) Hr)).
Defined.

Lemma no_rollback_witness : exists s u1 u2, reachable s /\ history s [u1; u2] (up_state u2)
  /\ StronglySorted newer_state [s; up_state u1; up_state u2].
Proof.
  destruct two_steps as (s & u1 & u2 & _ & Hs & H1 & H2 & _ & R1 & R2 & _). exists s, u1, u2.
  assert (Hr : reachable s) by exact (reach_bootstrap _ _ _ Hs).
  assert (Hh : history s [u1; u2] (up_state u2)) by exact (history_cons _ _ _ _ _ _ _ H1 (history_cons _ _ _ _ _ _ _ H2 (history_nil _))).
  split; [exact Hr|]. split; [exact Hh|]. apply (proj2 (no_rollback s (up_state u2) [u1; u2] Hr Hh)). exact (Forall_cons_2 _ _ _ R1 (Forall_cons_2 _ _ _ R2 (Forall_nil_2 _))).
Defined.

Lemma replay_refused_witness : exists s u, bootstrap no_heap first_root = Ok s
  /\ verifyUpdate no_heap s first_bundle (request_of stable) = Ok u
  /\ verifyUpdate no_heap (up_state u) first_bundle (request_of stable)
     = Err (match rootVersionsApplied u with [] => replay | _ => root_continuity end).
Proof.
  destruct first_steps as (s & u & Hs & Hu). exists s, u. split; [exact Hs|]. split; [exact Hu|].
  apply (replay_refused no_heap s); [exact (reach_bootstrap _ _ _ Hs)|exact Hu].
Defined.

Lemma timestamp_determines_target_witness : exists s u u',
  verifyUpdate no_heap s first_bundle (request_of stable) = Ok u /\ verifyUpdate no_heap s first_bundle later_request = Ok u'
  /\ (targetBytes u = targetBytes u' \/ updates_collide u u').
Proof.
  destruct two_steps as (s & u & _ & u' & _ & Hu & _ & Hu' & _ & _ & Hb & Hc & Hp).
  exists s, u, u'. split; [exact Hu|]. split; [exact Hu'|].
  destruct (verified_timestamp _ _ _ _ _ Hu) as (t & Ht), (verified_timestamp _ _ _ _ _ Hu') as (t' & Ht').
  rewrite Ht, Ht' in Hb. injection Hb as Hb.
  destruct (timestamp_determines_target no_heap no_heap s s _ _ _ _ u u' t t' Hu Hu' Ht Ht' Hb Hc Hp)
    as [(_ & _ & _ & _ & E)|E]; [left; exact E|right; exact E].
Defined.

Lemma authority_is_separated_witness : exists s u, reachable s
  /\ verifyUpdate no_heap s first_bundle (request_of stable) = Ok u
  /\ startsWith (vt_targetPath (up_target u)) (channel_prefix (tb_channel (vt_binding (up_target u)))) = true.
Proof.
  destruct first_steps as (s & u & Hs & Hu). exists s, u.
  assert (Hr : reachable s) by exact (reach_bootstrap _ _ _ Hs). split; [exact Hr|]. split; [exact Hu|].
  destruct (authority_is_separated no_heap s _ _ u Hr Hu) as (? & ? & ? & ? & ? & ch & _ & _ & _ & _ & _ & _ & _ & _ & _ & _ & _ & -> & H & _).
  exact H.
Defined.

Lemma bootstrap_parsed h root s : bootstrap h root = Ok s -> exists e, parseEnvelope h root root_role = Ok e.
Proof. unfold bootstrap. intros Hs. apply bind_Ok in Hs as (e & He & _). by exists e. Qed.

Lemma accepted_metadata_is_bounded_witness : exists e, parseEnvelope no_heap first_root root_role = Ok e
  /\ (nesting (PObject (object e)) <= MAX_TUF_JSON_DEPTH)%nat.
Proof.
  destruct first_steps as (s & u & Hs & _). destruct (bootstrap_parsed _ _ _ Hs) as (e & He). exists e.
  split; [exact He|]. exact (proj1 (accepted_metadata_is_bounded no_heap first_root root_role e He)).
Defined.
