(* ===== verification/RuleDiagnostics.v ===== *)
(** The diagnostics side of the rule scheduler
    (packages/rules/src/rule-scheduler.ts): canonical JSON, the order of
    diagnostics, policy filtering, and the merging of fingerprint duplicates.

    Of a diagnostic, the fields the scheduler reads are typed; the others are
    plain data ([value]).  The diagnostic validator of the core package is the
    class [DiagnosticValidator]. *)
From S2P Require Import Prelude JsString OrderedMap Unicode JsValue Json ImportDag ObjectGraph JsonText CanonicalDigest EffectiveContextCache.

(** ** Issues *)

Inductive RuleFamilyId :=
| conflicts_duplication | context_efficiency | document_context | portability
| references_imports | repository_drift | scope_activation | security | standards_freshness
| syntax_structure.

#[export] Instance RuleFamilyId_eq_dec : EqDecision RuleFamilyId.
Proof. solve_decision. Defined.

Inductive RuleSchedulerIssueCode :=
| issue_cancelled | deadline_exceeded | dependency_failure | family_failure | invalid_input
| invalid_options | invalid_output | resource_limit.

(** Messages are not part of the model. *)
Record RuleSchedulerIssue := {
  issue_code : RuleSchedulerIssueCode; issue_familyId : option RuleFamilyId; issue_path : jstring
}.

Definition schedulerIssue (code : RuleSchedulerIssueCode) (path : jstring) : RuleSchedulerIssue :=
  {| issue_code := code; issue_familyId := None; issue_path := path |}.

Definition familyIssue (code : RuleSchedulerIssueCode) (path : jstring) (familyId : RuleFamilyId)
  : RuleSchedulerIssue :=
  {| issue_code := code; issue_familyId := Some familyId; issue_path := path |}.

Abbreviation scheduled := (res RuleSchedulerIssue).

(** ** Canonical JSON *)

Definition key_le (a b : jstring * jstring) : bool := jleb (utf8 a.1) (utf8 b.1).

(** Objects in a template spell [undefined] where [JSON.stringify] gives it;
    diagnostics hold no references. *)
Fixpoint canonicalJson (v : value) : jstring :=
  match v with
  | VNull => #"null"
  | VBool b => if b then #"true" else #"false"
  | VNumber x => number_json x
  | VString s => json_string s
  | VArray items => 91%N :: join 44%N (map canonicalJson items) ++ [93%N]
  | VRecord fields =>
      let members := sort_by key_le (map (fun f => (f.1, canonicalJson f.2)) fields) in
      123%N :: join 44%N (map (fun m => json_string m.1 ++ 58%N :: m.2) members) ++ [125%N]
  | VUndefined | VFunction | VOther | VRef _ => #"undefined"
  end.

(** ** Diagnostics *)

Inductive DiagnosticSeverity := severity_error | severity_warning | severity_info.

#[export] Instance DiagnosticSeverity_eq_dec : EqDecision DiagnosticSeverity.
Proof. solve_decision. Defined.

Definition SEVERITY_RANK (s : DiagnosticSeverity) : N :=
  match s with severity_error => 3 | severity_info => 1 | severity_warning => 2 end.

Record DiagnosticSourceLocation := {
  loc_sourceId : jstring; loc_path : jstring; loc_sourceDigest : jstring; loc_range : SourceRange
}.

Record RelatedEvidence := {
  ev_id : jstring;
  ev_fields : list (jstring * value) (** the kind, the label and what the kind adds *)
}.

Record VersionedFingerprint := { fp_method : jstring; fp_value : jstring }.

Record Diagnostic := {
  diag_id : jstring;
  diag_ruleId : jstring;
  diag_ruleVersion : jstring;
  diag_severity : DiagnosticSeverity;
  diag_message : jstring;
  diag_primary : DiagnosticSourceLocation;
  diag_related : list RelatedEvidence;
  diag_suggestion : value;
  diag_fingerprintBasis : value;
  fingerprint_path : VersionedFingerprint;
  fingerprint_semantic : VersionedFingerprint
}.

Inductive SuppressionState := applicable | suppressed | unused.

#[export] Instance SuppressionState_eq_dec : EqDecision SuppressionState.
Proof. solve_decision. Defined.

Record SuppressionRecord := {
  sup_id : jstring;
  sup_state : SuppressionState;
  sup_directive : DiagnosticSourceLocation;
  sup_targetRuleIds : list jstring;
  sup_reason : option jstring;
  sup_matchedPathFingerprints : list jstring;
  sup_evidence : list RelatedEvidence
}.

(** The record kind and the contract version are constants of the type. *)
Record DiagnosticBundle := {
  bundle_diagnostics : list Diagnostic; bundle_suppressions : list SuppressionRecord
}.

Record SourceDocument := {
  source_id : jstring; source_path : jstring; source_encoding : jstring; source_bom : jstring;
  source_text : jstring; source_byteLength : Z; source_utf16Length : Z; source_sha256 : jstring;
  source_lineEnding : jstring; source_parseState : value; source_rootNodeId : jstring
}.

(** [validateDiagnosticBundle]: an accepted value is returned as it is, and its
    entities (diagnostics, evidence) have unique well-formed identifiers. *)
Definition entity_ids (b : DiagnosticBundle) : list jstring :=
  mjoin (map (fun d => diag_id d :: map ev_id (diag_related d)) (bundle_diagnostics b))
  ++ map sup_id (bundle_suppressions b).

Class DiagnosticValidator (Raw : Type) : Type := {
  validateDiagnosticBundle : Raw -> list SourceDocument -> option DiagnosticBundle;
  raw_bundle : DiagnosticBundle -> Raw;
  validate_same : forall b sources b',
    validateDiagnosticBundle (raw_bundle b) sources = Some b' -> b' = b;
  validate_entities : forall raw sources b,
    validateDiagnosticBundle raw sources = Some b ->
    NoDup (entity_ids b) /\ Forall (fun i => js_units i /\ wf_text i) (entity_ids b)
}.

(** ** Order *)

Definition compareUtf8 (left right : jstring) : comparison := jcompare (utf8 left) (utf8 right).

(** [a || b] on the results of comparisons *)
Definition or_else (a b : comparison) : comparison := match a with Eq => b | _ => a end.

Definition compareLocations (left right : DiagnosticSourceLocation) : comparison :=
  or_else (compareUtf8 (loc_path left) (loc_path right))
  (or_else (Z.compare (byteOffset (range_start (loc_range left))) (byteOffset (range_start (loc_range right))))
  (or_else (Z.compare (byteOffset (range_end (loc_range left))) (byteOffset (range_end (loc_range right))))
  (compareUtf8 (loc_sourceId left) (loc_sourceId right)))).

Definition compareDiagnostics (left right : Diagnostic) : comparison :=
  or_else (compareLocations (diag_primary left) (diag_primary right))
  (or_else (compareUtf8 (diag_ruleId left) (diag_ruleId right))
  (or_else (compareUtf8 (fp_value (fingerprint_path left)) (fp_value (fingerprint_path right)))
  (or_else (compareUtf8 (fp_value (fingerprint_semantic left)) (fp_value (fingerprint_semantic right)))
  (compareUtf8 (diag_id left) (diag_id right))))).

Definition compareSuppressions (left right : SuppressionRecord) : comparison :=
  or_else (compareLocations (sup_directive left) (sup_directive right))
          (compareUtf8 (sup_id left) (sup_id right)).

(** [list.sort(compare)] *)
Definition not_after {A} (compare : A -> A -> comparison) (a b : A) : bool :=
  match compare a b with Gt => false | _ => true end.

Definition sorted_with {A} (compare : A -> A -> comparison) : list A -> list A :=
  sort_by (not_after compare).

Definition deduplicationKey (d : Diagnostic) : jstring :=
  fp_value (fingerprint_path d) ++ 0%N :: fp_value (fingerprint_semantic d).

(** ** Merging fingerprint duplicates *)

Definition location_value (l : DiagnosticSourceLocation) : value :=
  VRecord [(#"sourceId", VString (loc_sourceId l)); (#"path", VString (loc_path l));
           (#"sourceDigest", VString (loc_sourceDigest l)); (#"range", range_value (loc_range l))].

Definition evidence_value (e : RelatedEvidence) : value :=
  VRecord ((#"id", VString (ev_id e)) :: ev_fields e).

(** [canonicalJson({ ...evidence, id: "" })] *)
Definition semanticKey (e : RelatedEvidence) : jstring :=
  canonicalJson (evidence_value {| ev_id := []; ev_fields := ev_fields e |}).

Definition fingerprint_value (f : VersionedFingerprint) : value :=
  VRecord [(#"method", VString (fp_method f)); (#"value", VString (fp_value f))].

Definition identityJson (d : Diagnostic) : jstring :=
  canonicalJson (VRecord [
    (#"fingerprintBasis", diag_fingerprintBasis d);
    (#"fingerprints", VRecord [(#"path", fingerprint_value (fingerprint_path d));
                               (#"semantic", fingerprint_value (fingerprint_semantic d))]);
    (#"ruleId", VString (diag_ruleId d));
    (#"ruleVersion", VString (diag_ruleVersion d))]).

Definition MAX_RELATED_EVIDENCE_PER_DIAGNOSTIC : N := 128.
Definition MAX_DIAGNOSTICS_PER_BUNDLE : N := 10000.

Definition output_issue (code : RuleSchedulerIssueCode) (path : jstring) : RuleSchedulerIssue :=
  schedulerIssue code path.

Section merge.
Context `{Sha256}.

Definition evidenceIdForPrimary (d : Diagnostic) : jstring :=
  #"evidence:scheduler:" ++ take 24 (sha256_hex (canonicalJson (location_value (diag_primary d)))).

Definition duplicateEvidence (d : Diagnostic) : RelatedEvidence := {|
  ev_id := evidenceIdForPrimary d;
  ev_fields := [(#"kind", VString #"source");
                (#"label", VString #"Duplicate diagnostic primary evidence");
                (#"location", location_value (diag_primary d))]
|}.

Definition addEvidence (evidenceById : list (jstring * RelatedEvidence)) (e : RelatedEvidence)
  : scheduled (list (jstring * RelatedEvidence)) :=
  _ ← ensure (match map_get (ev_id e) evidenceById with
              | Some previous =>
                  jeqb (canonicalJson (evidence_value previous)) (canonicalJson (evidence_value e))
              | None => true
              end) (schedulerIssue invalid_output #"$output.diagnostics.related");
  Ok (map_set (ev_id e) e evidenceById).

(** The evidence one member of the group contributes, in order. *)
Definition memberEvidence (primary : DiagnosticSourceLocation) (d : Diagnostic) : list RelatedEvidence :=
  diag_related d ++
  match compareLocations (diag_primary d) primary with
  | Eq => []
  | _ => [duplicateEvidence d]
  end.

Definition keepSmallestId (semantic : list (jstring * RelatedEvidence)) (e : RelatedEvidence)
  : list (jstring * RelatedEvidence) :=
  let key := semanticKey e in
  match map_get key semantic with
  | Some previous =>
      match compareUtf8 (ev_id e) (ev_id previous) with
      | Lt => map_set key e semantic
      | _ => semantic
      end
  | None => map_set key e semantic
  end.

Definition compareEvidence (left right : RelatedEvidence) : comparison :=
  or_else (compareUtf8 (ev_id left) (ev_id right))
          (compareUtf8 (canonicalJson (evidence_value left)) (canonicalJson (evidence_value right))).

Definition higher (highest : DiagnosticSeverity) (d : Diagnostic) : DiagnosticSeverity :=
  if (SEVERITY_RANK highest <? SEVERITY_RANK (diag_severity d))%N then diag_severity d else highest.

Definition mergedEvidence (primary : DiagnosticSourceLocation) (ordered : list Diagnostic)
  : scheduled (list RelatedEvidence) :=
  evidenceById ← foldM addEvidence [] (mjoin (map (memberEvidence primary) ordered));
  let semanticEvidence := fold_left keepSmallestId (map snd evidenceById) [] in
  _ ← ensure (N.of_nat (length semanticEvidence) <=? MAX_RELATED_EVIDENCE_PER_DIAGNOSTIC)%N
             (schedulerIssue resource_limit #"$output.diagnostics.related");
  Ok (sorted_with compareEvidence (map snd semanticEvidence)).

Definition compareById (left right : Diagnostic) : comparison := compareUtf8 (diag_id left) (diag_id right).

Definition compareByPrimary (left right : Diagnostic) : comparison :=
  compareLocations (diag_primary left) (diag_primary right).

Definition mergeDiagnosticGroup (diagnostics : list Diagnostic) : scheduled Diagnostic :=
  let ordered := sorted_with compareById diagnostics in
  match ordered, sorted_with compareByPrimary ordered with
  | first :: _, earliest :: _ =>
      _ ← ensure (forallb (fun d => jeqb (identityJson d) (identityJson first)) ordered)
                 (schedulerIssue invalid_output #"$output.diagnostics");
      _ ← ensure (forallb (fun d => jeqb (diag_message d) (diag_message first)) ordered)
                 (schedulerIssue invalid_output #"$output.diagnostics.message");
      let primary := diag_primary earliest in
      related ← mergedEvidence primary ordered;
      let severity := fold_left higher ordered severity_info in
      _ ← ensure (forallb (fun d => jeqb (canonicalJson (diag_suggestion d))
                                         (canonicalJson (diag_suggestion first))) ordered)
                 (schedulerIssue invalid_output #"$output.diagnostics.suggestion");
      Ok {| diag_id := diag_id first; diag_ruleId := diag_ruleId first;
            diag_ruleVersion := diag_ruleVersion first; diag_severity := severity;
            diag_message := diag_message first; diag_primary := primary; diag_related := related;
            diag_suggestion := diag_suggestion first;
            diag_fingerprintBasis := diag_fingerprintBasis first;
            fingerprint_path := fingerprint_path first;
            fingerprint_semantic := fingerprint_semantic first |}
  | _, _ => Err (schedulerIssue invalid_output #"$output.diagnostics")
  end.
End merge.

(** ** The rules *)

Definition SYNTAX_STRUCTURE_RULE_IDS : list jstring :=
    [ #"ACL100"; #"ACL101"; #"ACL102"; #"ACL103"; #"ACL104"; #"ACL105"; #"ACL106"; #"ACL107"; #"ACL108";
   #"ACL109"].
Definition REFERENCES_IMPORTS_RULE_IDS : list jstring :=
    [ #"ACL150"; #"ACL151"; #"ACL152"; #"ACL153"; #"ACL154"; #"ACL155"; #"ACL156"].
Definition SCOPE_ACTIVATION_RULE_IDS : list jstring :=
    [ #"ACL200"; #"ACL201"; #"ACL202"; #"ACL203"; #"ACL204"; #"ACL205"; #"ACL206"].
Definition CONFLICTS_DUPLICATION_RULE_IDS : list jstring :=
    [ #"ACL250"; #"ACL251"; #"ACL252"; #"ACL253"; #"ACL254"; #"ACL255"].
Definition REPOSITORY_DRIFT_RULE_IDS : list jstring :=
    [ #"ACL300"; #"ACL301"; #"ACL302"; #"ACL303"; #"ACL304"; #"ACL305"].
Definition DOCUMENT_CONTEXT_RULE_IDS : list jstring :=
    [ #"ACL350"; #"ACL351"; #"ACL352"; #"ACL353"; #"ACL354"; #"ACL355"].
Definition SECURITY_RULE_IDS : list jstring :=
    [ #"ACL400"; #"ACL401"; #"ACL402"; #"ACL403"; #"ACL404"; #"ACL405"; #"ACL406"].
Definition PORTABILITY_RULE_IDS : list jstring :=
    [ #"ACL450"; #"ACL451"; #"ACL452"; #"ACL453"].
Definition STANDARDS_FRESHNESS_RULE_IDS : list jstring :=
    [ #"ACL500"; #"ACL501"; #"ACL502"; #"ACL503"; #"ACL504"; #"ACL505"; #"ACL506"].
Definition CONTEXT_EFFICIENCY_RULE_IDS : list jstring :=
    [ #"ACL550"; #"ACL551"; #"ACL552"; #"ACL553"; #"ACL554"; #"ACL555"; #"ACL556"; #"ACL557"; #"ACL558"].

(** [RULE_REGISTRY.rules], as identifiers in their order *)
Definition REGISTERED_RULE_IDS : list jstring :=
  SYNTAX_STRUCTURE_RULE_IDS ++ REFERENCES_IMPORTS_RULE_IDS ++ SCOPE_ACTIVATION_RULE_IDS
  ++ CONFLICTS_DUPLICATION_RULE_IDS ++ REPOSITORY_DRIFT_RULE_IDS ++ DOCUMENT_CONTEXT_RULE_IDS
  ++ SECURITY_RULE_IDS ++ PORTABILITY_RULE_IDS ++ STANDARDS_FRESHNESS_RULE_IDS
  ++ CONTEXT_EFFICIENCY_RULE_IDS.

(** ACL, a digit from 1 to 5, two digits *)
Definition is_rule_id (id : jstring) : bool :=
  match id with
  | [a; c; l; x; y; z] =>
      jeqb [a; c; l] #"ACL" && (49 <=? x)%N && (x <=? 53)%N
      && (48 <=? y)%N && (y <=? 57)%N && (48 <=? z)%N && (z <=? 57)%N
  | _ => false
  end.

(** The binary search; the interval [low .. high] shrinks every round, so as many
    rounds as it is wide are enough ([findRuleMetadata_spec]). *)
Fixpoint searchRule (fuel : nat) (id : jstring) (low high : Z) : bool :=
  match fuel with
  | O => false
  | S fuel' =>
      if (low <=? high)%Z then
        let middle := ((low + high) / 2)%Z in
        match REGISTERED_RULE_IDS !! Z.to_nat middle with
        | None => false
        | Some rule =>
            if jeqb rule id then true
            else if jltb rule id then searchRule fuel' id (middle + 1) high
            else searchRule fuel' id low (middle - 1)
        end
      else false
  end.

(** [findRuleMetadata(id) !== undefined] *)
Definition findRuleMetadata (id : jstring) : bool :=
  is_rule_id id &&
  searchRule (S (length REGISTERED_RULE_IDS)) id 0 (Z.of_nat (length REGISTERED_RULE_IDS) - 1).

(** ** Policy *)

Inductive RuleSchedulerFailureThreshold := threshold_error | threshold_never | threshold_warning.

#[export] Instance RuleSchedulerFailureThreshold_eq_dec : EqDecision RuleSchedulerFailureThreshold.
Proof. solve_decision. Defined.

Inductive RuleSchedulerSeverity := Severity (s : DiagnosticSeverity) | Off.

Record RuleSchedulerPolicy := {
  failureThreshold : RuleSchedulerFailureThreshold;
  severityOverrides : list (jstring * RuleSchedulerSeverity)
}.

(** A non-proxy plain record with exactly the keys, all enumerable data. *)
Definition dataRecord (h : heap) (v : value) (keys : list jstring) (path : jstring)
  : scheduled DataRecord :=
  match object_of h v with
  | Some o =>
      _ ← ensure (negb (obj_proxy o) && negb (is_array o) && plain_prototype o
                  && (length (obj_own o) =? length keys)%nat && forallb (has_key keys) (obj_own o)
                  && forallb (fun p => bool_decide (is_Some (enumerable_data (Some p)))) (obj_own o))
                 (schedulerIssue invalid_input path);
      Ok (obj_own o)
  | None => Err (schedulerIssue invalid_input path)
  end.

(** [record[key]] on a checked record *)
Definition own_value (record : DataRecord) (key : jstring) : value :=
  match enumerable_data (descriptor record key) with Some v => v | None => VUndefined end.

Definition denseArray (h : heap) (v : value) (maximum : N) (path : jstring) : scheduled (list value) :=
  match object_of h v with
  | Some o =>
      _ ← ensure (regular_array o) (schedulerIssue invalid_input path);
      _ ← ensure (array_length o <=? maximum)%N (schedulerIssue resource_limit path);
      _ ← ensure (N.of_nat (length (obj_own o)) =? array_length o)%N (schedulerIssue invalid_input path);
      rmapM (fun index =>
               match enumerable_data (descriptor (obj_own o) (String_of_N (N.of_nat index))) with
               | Some x => Ok x
               | None => Err (schedulerIssue invalid_input path)
               end) (seq 0 (N.to_nat (array_length o)))
  | None => Err (schedulerIssue invalid_input path)
  end.

Definition FAILURE_THRESHOLDS : list (jstring * RuleSchedulerFailureThreshold) :=
  [(#"error", threshold_error); (#"never", threshold_never); (#"warning", threshold_warning)].

Definition SEVERITIES : list (jstring * RuleSchedulerSeverity) :=
  [(#"error", Severity severity_error); (#"info", Severity severity_info); (#"off", Off);
   (#"warning", Severity severity_warning)].

(** A string value among the named ones. *)
Definition named {A} (names : list (jstring * A)) (v : value) : option A :=
  match v with VString s => map_get s names | _ => None end.

Definition OVERRIDES_PATH : jstring := #"$.policy.severityOverrides".

Definition overridePath (key : jstring) : jstring := OVERRIDES_PATH ++ 46%N :: key.

Definition normalizeOverride (normalized : list (jstring * RuleSchedulerSeverity)) (p : property)
  : scheduled (list (jstring * RuleSchedulerSeverity)) :=
  match prop_key p with
  | None => Err (schedulerIssue invalid_input OVERRIDES_PATH)
  | Some key =>
      _ ← ensure (findRuleMetadata key) (schedulerIssue invalid_input OVERRIDES_PATH);
      match enumerable_data (Some p) with
      | None => Err (schedulerIssue invalid_input (overridePath key))
      | Some v =>
          match named SEVERITIES v with
          | None => Err (schedulerIssue invalid_input (overridePath key))
          | Some severity => Ok (map_set key severity normalized)
          end
      end
  end.

Definition normalizePolicy (h : heap) (raw : value) : scheduled RuleSchedulerPolicy :=
  record ← dataRecord h raw [ #"failureThreshold"; #"severityOverrides"] #"$.policy";
  match named FAILURE_THRESHOLDS (own_value record #"failureThreshold") with
  | None => Err (schedulerIssue invalid_input #"$.policy.failureThreshold")
  | Some threshold =>
      match object_of h (own_value record #"severityOverrides") with
      | None => Err (schedulerIssue invalid_input OVERRIDES_PATH)
      | Some o =>
          _ ← ensure (negb (obj_proxy o) && negb (is_array o) && plain_prototype o)
                     (schedulerIssue invalid_input OVERRIDES_PATH);
          _ ← ensure (length (obj_own o) <=? length REGISTERED_RULE_IDS)%nat
                     (schedulerIssue resource_limit OVERRIDES_PATH);
          overrides ← foldM normalizeOverride [] (obj_own o);
          Ok {| failureThreshold := threshold; severityOverrides := overrides |}
      end
  end.

Definition with_severity (d : Diagnostic) (severity : DiagnosticSeverity) : Diagnostic :=
  {| diag_id := diag_id d; diag_ruleId := diag_ruleId d; diag_ruleVersion := diag_ruleVersion d;
     diag_severity := severity; diag_message := diag_message d; diag_primary := diag_primary d;
     diag_related := diag_related d; diag_suggestion := diag_suggestion d;
     diag_fingerprintBasis := diag_fingerprintBasis d; fingerprint_path := fingerprint_path d;
     fingerprint_semantic := fingerprint_semantic d |}.

Definition applySeverity (d : Diagnostic) (policy : RuleSchedulerPolicy) : option Diagnostic :=
  match map_get (diag_ruleId d) (severityOverrides policy) with
  | Some Off => None
  | None => Some d
  | Some (Severity selected) =>
      if decide (selected = diag_severity d) then Some d else Some (with_severity d selected)
  end.

(** ** Canonical bundles *)

(** The frozen policy as the plain data it is. *)
Definition threshold_name (t : RuleSchedulerFailureThreshold) : jstring :=
  match t with threshold_error => #"error" | threshold_never => #"never" | threshold_warning => #"warning" end.

Definition severity_name (s : DiagnosticSeverity) : jstring :=
  match s with severity_error => #"error" | severity_warning => #"warning" | severity_info => #"info" end.

Definition override_name (s : RuleSchedulerSeverity) : jstring :=
  match s with Severity s => severity_name s | Off => #"off" end.

Definition policy_value (p : RuleSchedulerPolicy) : value :=
  VRecord [(#"failureThreshold", VString (threshold_name (failureThreshold p)));
           (#"severityOverrides",
            VRecord (map (fun o => (o.1, VString (override_name o.2))) (severityOverrides p)))].

Section canonicalize.
Context `{Sha256} {Raw : Type} `{!DiagnosticValidator Raw}.

Definition policyFilteredBundle (rawBundle : Raw) (sources : list SourceDocument)
    (policy : RuleSchedulerPolicy) : scheduled DiagnosticBundle :=
  match validateDiagnosticBundle rawBundle sources with
  | None => Err (schedulerIssue invalid_output #"$output")
  | Some checked =>
      _ ← ensure (forallb (fun d => findRuleMetadata (diag_ruleId d)) (bundle_diagnostics checked))
                 (schedulerIssue invalid_output #"$output.diagnostics");
      let candidate := {|
        bundle_diagnostics := sorted_with compareDiagnostics
          (omap (fun d => applySeverity d policy) (bundle_diagnostics checked));
        bundle_suppressions := sorted_with compareSuppressions (bundle_suppressions checked)
      |} in
      match validateDiagnosticBundle (raw_bundle candidate) sources with
      | None => Err (schedulerIssue invalid_output #"$output")
      | Some validated => Ok validated
      end
  end.

(** [groups]: the diagnostics of each key, in order. *)
Definition addToGroup (groups : list (jstring * list Diagnostic)) (d : Diagnostic)
  : list (jstring * list Diagnostic) :=
  let entries := match map_get (deduplicationKey d) groups with Some l => l | None => [] end in
  map_set (deduplicationKey d) (entries ++ [d]) groups.

Definition groupsOf (diagnostics : list Diagnostic) : list (jstring * list Diagnostic) :=
  fold_left addToGroup diagnostics [].

Definition mergeGroups (groups : list (jstring * list Diagnostic)) : scheduled (list Diagnostic) :=
  rmapM (fun key => mergeDiagnosticGroup (match map_get key groups with Some l => l | None => [] end))
        (sorted_with compareUtf8 (map fst groups)).

(** [structuredClone] and freezing do not change the data. *)
Definition canonicalizeFiltered (filtered : DiagnosticBundle) (sources : list SourceDocument)
  : scheduled DiagnosticBundle :=
  diagnostics ← mergeGroups (groupsOf (bundle_diagnostics filtered));
  let candidate := {|
    bundle_diagnostics := sorted_with compareDiagnostics diagnostics;
    bundle_suppressions := bundle_suppressions filtered
  |} in
  match validateDiagnosticBundle (raw_bundle candidate) sources with
  | None => Err (schedulerIssue invalid_output #"$output")
  | Some validated => Ok validated
  end.

Definition canonicalizeRuleDiagnostics (h : heap) (rawBundle : Raw) (sources : list SourceDocument)
    (rawPolicy : value) : scheduled DiagnosticBundle :=
  policy ← normalizePolicy h rawPolicy;
  filtered ← policyFilteredBundle rawBundle sources policy;
  canonicalizeFiltered filtered sources.
End canonicalize.
