(* ===== verification/RuleDiagnosticsLaws.v ===== *)
(** Theorems about canonical diagnostic bundles: the comparison functions are
    total preorders, registered rules are found, policies are normalized once,
    and merging fingerprint duplicates does not depend on the order of the
    diagnostics. *)
From S2P Require Import Prelude JsString OrderedMap Unicode JsValue Json ImportDag ObjectGraph CanonicalDigest EffectiveContextCache RuleDiagnostics.

(** ** Comparison functions *)

(** What [Array.prototype.sort] needs of a comparison function. *)
Class Comparison {A} (compare : A -> A -> comparison) : Prop := {
  compare_opp : forall a b, compare b a = CompOpp (compare a b);
  compare_le_trans : forall a b c,
    not_after compare a b = true -> not_after compare b c = true -> not_after compare a c = true
}.

#[export] Instance compareUtf8_comparison : Comparison compareUtf8.
Proof.
  split.
  - intros a b. apply jcompare_antisym.
  - intros a b c. apply jleb_trans.
Qed.

#[export] Instance Z_comparison : Comparison Z.compare.
Proof.
  split; [intros a b; apply Z.compare_antisym|]. intros a b c. unfold not_after.
  destruct (Z.compare_spec a b), (Z.compare_spec b c), (Z.compare_spec a c); try done; lia.
Qed.

(** A comparison of projections. *)
#[export] Instance on_comparison {A B} (f : A -> B) compare `{!Comparison compare} :
  Comparison (fun a b => compare (f a) (f b)).
Proof.
  split; [intros a b; apply compare_opp|]. intros a b c. apply (compare_le_trans (f a) (f b) (f c)).
Qed.

Lemma not_after_opp {A} (compare : A -> A -> comparison) `{!Comparison compare} a b :
  not_after compare b a = match compare a b with Lt => false | _ => true end.
Proof. unfold not_after. rewrite compare_opp. by destruct (compare a b). Qed.

(** A comparison with another one for the ties. *)
#[export] Instance or_else_comparison {A} (c1 c2 : A -> A -> comparison)
  `{!Comparison c1} `{!Comparison c2} : Comparison (fun a b => or_else (c1 a b) (c2 a b)).
Proof.
  split.
  - intros a b. rewrite (compare_opp (compare := c1) a b), (compare_opp (compare := c2) a b).
    by destruct (c1 a b).
  - intros a b c Hab Hbc. unfold not_after in *.
    pose proof (compare_le_trans (compare := c1) a b c) as H1.
    pose proof (compare_le_trans (compare := c1) c a b) as H2.
    pose proof (compare_le_trans (compare := c1) b c a) as H3.
    pose proof (compare_le_trans (compare := c2) a b c) as H4. unfold not_after in *.
    rewrite (compare_opp (compare := c1) a c), (compare_opp (compare := c1) b c) in *.
    rewrite (compare_opp (compare := c1) a b) in *.
    destruct (c1 a b), (c1 b c), (c1 a c); cbn in *; naive_solver.
Qed.

#[export] Instance compareLocations_comparison : Comparison compareLocations.
Proof.
  unfold compareLocations. repeat apply or_else_comparison; apply (on_comparison _ _).
Qed.

#[export] Instance compareDiagnostics_comparison : Comparison compareDiagnostics.
Proof. unfold compareDiagnostics. repeat apply or_else_comparison; apply (on_comparison _ _). Qed.

#[export] Instance compareSuppressions_comparison : Comparison compareSuppressions.
Proof. unfold compareSuppressions. repeat apply or_else_comparison; apply (on_comparison _ _). Qed.

Section sorting.
Context {A : Type} (compare : A -> A -> comparison) `{!Comparison compare}.

Lemma not_after_total a b : not_after compare a b = true \/ not_after compare b a = true.
Proof. rewrite (not_after_opp compare a b). unfold not_after. destruct (compare a b); auto. Qed.

Lemma not_after_antisym a b :
  not_after compare a b = true -> not_after compare b a = true -> compare a b = Eq.
Proof. rewrite (not_after_opp compare a b). unfold not_after. by destruct (compare a b). Qed.

Lemma sorted_with_perm l : sorted_with compare l ≡ₚ l.
Proof. apply sort_by_perm. Qed.

Lemma elem_of_sorted_with x l : x ∈ sorted_with compare l <-> x ∈ l.
Proof. apply elem_of_sort_by. Qed.

Lemma sorted_with_sorted l : StronglySorted (fun a b => not_after compare a b = true) (sorted_with compare l).
Proof. apply sort_by_sorted; [apply compare_le_trans|apply not_after_total]. Qed.

(** The first element is not after any other. *)
Lemma sorted_with_head l x r y :
  sorted_with compare l = x :: r -> y ∈ l -> not_after compare x y = true.
Proof.
  intros Hs Hy. rewrite <- elem_of_sorted_with, Hs in Hy. pose proof (sorted_with_sorted l) as Hsorted.
  rewrite Hs in Hsorted. inversion Hsorted as [|? ? ? Hall]; subst. rewrite Forall_forall in Hall.
  apply elem_of_cons in Hy as [->|Hy]; [|by apply Hall].
  by destruct (not_after_total x x).
Qed.

(** Without ties, sorting forgets the order. *)
Lemma sorted_with_canonical l1 l2 :
  (forall x y, x ∈ l1 -> y ∈ l1 -> compare x y = Eq -> x = y) ->
  l1 ≡ₚ l2 -> sorted_with compare l1 = sorted_with compare l2.
Proof.
  intros Hties Hp. apply sort_by_canonical; [apply compare_le_trans|apply not_after_total| |done].
  intros x y Hx Hy Hxy Hyx. apply Hties; [done..|]. by apply not_after_antisym.
Qed.
End sorting.

(** Equal elements of a total comparison on texts have equal texts. *)
Lemma compareUtf8_Eq s t :
  js_units s -> wf_text s -> js_units t -> wf_text t -> compareUtf8 s t = Eq -> s = t.
Proof. intros ???? H. apply jcompare_eq in H. by apply utf8_inj. Qed.

Lemma or_else_Eq a b : or_else a b = Eq <-> a = Eq /\ b = Eq.
Proof. destruct a, b; cbn; naive_solver. Qed.

(** ** Validated bundles *)

(** What the validator promises of a bundle it accepts. *)
Definition distinct_entities (b : DiagnosticBundle) : Prop :=
  NoDup (entity_ids b) /\ Forall (fun i => js_units i /\ wf_text i) (entity_ids b).

Section entities.
Context {A : Type} (id : A -> jstring).

(** Entries with distinct well-formed identifiers are told apart by them. *)
Lemma distinct_by_id (l : list A) :
  NoDup (map id l) -> Forall (fun i => js_units i /\ wf_text i) (map id l) ->
  forall x y, x ∈ l -> y ∈ l -> compareUtf8 (id x) (id y) = Eq -> x = y.
Proof.
  intros Hnd Hwf x y Hx Hy Heq. rewrite Forall_map, Forall_forall in Hwf.
  destruct (Hwf _ Hx) as [? ?], (Hwf _ Hy) as [? ?]. apply compareUtf8_Eq in Heq; [|done..].
  apply list_elem_of_lookup in Hx as [i Hi], Hy as [j Hj].
  assert (i = j) as ->; [|congruence].
  apply (NoDup_lookup (map id l) i j (id x)); [done|by rewrite list_lookup_fmap, Hi|].
  rewrite list_lookup_fmap, Hj. cbn. by rewrite Heq.
Qed.
End entities.

Lemma NoDup_heads {A B} (hd : A -> B) (tl : A -> list B) l :
  NoDup (mjoin (map (fun x => hd x :: tl x) l)) -> NoDup (map hd l).
Proof.
  induction l as [|x l IH]; [constructor|]. cbn. intros Hnd. apply NoDup_cons in Hnd as [Hx Hnd].
  apply NoDup_app in Hnd as (_ & _ & Hnd). apply NoDup_cons. split; [|by apply IH].
  intros Hin. apply Hx, elem_of_app. right. apply list_elem_of_fmap in Hin as (y & -> & Hy).
  apply list_elem_of_join. exists (hd y :: tl y). split; [left|]. apply list_elem_of_fmap. by exists y.
Qed.

Lemma diagnostic_ids b :
  distinct_entities b ->
  NoDup (map diag_id (bundle_diagnostics b)) /\
  Forall (fun i => js_units i /\ wf_text i) (map diag_id (bundle_diagnostics b)).
Proof.
  unfold distinct_entities, entity_ids. intros [Hnd Hwf]. apply NoDup_app in Hnd as (Hnd & _ & _).
  apply Forall_app in Hwf as [Hwf _]. split; [by apply (NoDup_heads diag_id (fun d => map ev_id (diag_related d)))|].
  rewrite Forall_forall in Hwf |- *. intros i Hi. apply Hwf.
  apply list_elem_of_fmap in Hi as (d & -> & Hd). apply list_elem_of_join.
  eexists. split; [|by apply (list_elem_of_fmap_2 (fun d => diag_id d :: map ev_id (diag_related d)))]. left.
Qed.

Lemma suppression_ids b :
  distinct_entities b ->
  NoDup (map sup_id (bundle_suppressions b)) /\
  Forall (fun i => js_units i /\ wf_text i) (map sup_id (bundle_suppressions b)).
Proof.
  unfold distinct_entities, entity_ids. intros [Hnd Hwf]. apply NoDup_app in Hnd as (_ & _ & Hnd).
  by apply Forall_app in Hwf as [_ Hwf].
Qed.

(** ** Order independence *)

Section canonicalize.
Context `{Sha256} {Raw : Type} `{!DiagnosticValidator Raw}.

Lemma applySeverity_id d policy d' : applySeverity d policy = Some d' -> diag_id d' = diag_id d.
Proof. unfold applySeverity. intros Hd. repeat case_match; by simplify_eq. Qed.

(** Selected diagnostics keep their identifiers, and so are told apart. *)
Lemma selected_distinct b policy x y :
  distinct_entities b ->
  x ∈ omap (fun d => applySeverity d policy) (bundle_diagnostics b) ->
  y ∈ omap (fun d => applySeverity d policy) (bundle_diagnostics b) ->
  compareDiagnostics x y = Eq -> x = y.
Proof.
  intros [Hnd Hwf]%diagnostic_ids Hx Hy Heq. unfold compareDiagnostics in Heq. rewrite !or_else_Eq in Heq.
  apply list_elem_of_omap in Hx as (dx & Hdx & Hx), Hy as (dy & Hdy & Hy).
  rewrite (applySeverity_id _ _ _ Hx), (applySeverity_id _ _ _ Hy) in Heq.
  assert (dx = dy) as ->; [|congruence]. eapply (distinct_by_id diag_id); [done..|tauto].
Qed.

Lemma suppressions_distinct b x y :
  distinct_entities b -> x ∈ bundle_suppressions b -> y ∈ bundle_suppressions b ->
  compareSuppressions x y = Eq -> x = y.
Proof.
  intros [Hnd Hwf]%suppression_ids Hx Hy [_ Heq]%or_else_Eq. by eapply (distinct_by_id sup_id).
Qed.

Lemma forallb_perm {A} (f : A -> bool) l l' : l ≡ₚ l' -> forallb f l = forallb f l'.
Proof. intros Hp. apply eq_true_iff_eq. rewrite !forallb_elem. by setoid_rewrite Hp. Qed.

Lemma policyFilteredBundle_perm raw1 raw2 sources policy b1 b2 :
  validateDiagnosticBundle raw1 sources = Some b1 -> validateDiagnosticBundle raw2 sources = Some b2 ->
  bundle_diagnostics b1 ≡ₚ bundle_diagnostics b2 -> bundle_suppressions b1 ≡ₚ bundle_suppressions b2 ->
  policyFilteredBundle raw1 sources policy = policyFilteredBundle raw2 sources policy.
Proof.
  intros V1 V2 Hd Hs. unfold policyFilteredBundle. rewrite V1, V2.
  rewrite (forallb_perm _ _ _ Hd). destruct (forallb _ _); [|done]. cbn [ensure mbind res_mbind].
  apply validate_entities in V1.
  rewrite (sorted_with_canonical compareDiagnostics _ (omap (fun d => applySeverity d policy) (bundle_diagnostics b2))),
    (sorted_with_canonical compareSuppressions _ (bundle_suppressions b2)).
  - done.
  - intros x y. by apply suppressions_distinct.
  - done.
  - intros x y. by apply selected_distinct.
  - by apply omap_Permutation.
Qed.
End canonicalize.

(** Canonicalization does not depend on the order in which the families
    reported their diagnostics and suppressions: two bundles that validate to
    the same entries in some order give the same result, the same error
    included. *)
Theorem canonicalize_order_independent `{Sha256} {Raw} `{!DiagnosticValidator Raw}
    h raw1 raw2 sources policy b1 b2 :
  validateDiagnosticBundle raw1 sources = Some b1 -> validateDiagnosticBundle raw2 sources = Some b2 ->
  bundle_diagnostics b1 ≡ₚ bundle_diagnostics b2 -> bundle_suppressions b1 ≡ₚ bundle_suppressions b2 ->
  canonicalizeRuleDiagnostics h raw1 sources policy = canonicalizeRuleDiagnostics h raw2 sources policy.
Proof.
  intros V1 V2 Hd Hs. unfold canonicalizeRuleDiagnostics. destruct (normalizePolicy h policy) as [p|e]; [|done].
  cbn [mbind res_mbind]. by rewrite (policyFilteredBundle_perm _ _ _ p _ _ V1 V2 Hd Hs).
Qed.

(** ** Merging a group *)

(** One piece of evidence under one identifier. *)
Definition same_evidence (e e1 : RelatedEvidence) : Prop :=
  ev_id e1 = ev_id e /\ canonicalJson (evidence_value e1) = canonicalJson (evidence_value e).

(** The evidence [e] is carried by [related]: itself, or an entry that differs
    from it in a smaller identifier only. *)
Definition carried (related : list RelatedEvidence) (e : RelatedEvidence) : Prop :=
  exists e1 e', same_evidence e e1 /\ e' ∈ related /\ semanticKey e' = semanticKey e1 /\
                not_after compareUtf8 (ev_id e') (ev_id e1) = true.

Lemma addEvidence_all l m :
  foldM addEvidence [] l = Ok m ->
  NoDup (map fst m) /\ forall e, e ∈ l -> exists e1, (ev_id e, e1) ∈ m /\ same_evidence e e1.
Proof.
  intros Hf.
  enough (NoDup (map fst m) /\ forall e, e ∈ l -> exists e1, map_get (ev_id e) m = Some e1 /\ same_evidence e e1)
    as [Hnd Hall].
  { split; [done|]. intros e He. destruct (Hall e He) as (e1 & Hget & Hsame). exists e1.
    split; [by apply map_get_elem|done]. }
  refine (foldM_inv (fun done_ m => NoDup (map fst m) /\ forall e, e ∈ done_ ->
            exists e1, map_get (ev_id e) m = Some e1 /\ same_evidence e e1) _ _ _ _ Hf _ _).
  - split; [constructor|]. intros e He. by apply not_elem_of_nil in He.
  - intros done_ x a a' [Hnd IH] _ Hadd. unfold addEvidence in Hadd. apply bind_ensure in Hadd as [Hsame Hadd].
    injection Hadd as <-. split; [by apply map_set_NoDup|].
    intros e He. rewrite map_get_set. destruct (jeqb (ev_id x) (ev_id e)) eqn:Eid.
    + apply jeqb_eq in Eid. exists x. split; [done|]. split; [done|].
      apply elem_of_app in He as [He| ->%list_elem_of_singleton]; [|done].
      destruct (IH e He) as (e1 & Hget & _ & Hjson). rewrite Eid, Hget in Hsame. apply jeqb_eq in Hsame.
      congruence.
    + apply elem_of_app in He as [He| ->%list_elem_of_singleton]; [by apply IH|].
      by rewrite jeqb_refl in Eid.
Qed.

(** Entries are kept under their keys, the smallest identifier of each. *)
Lemma keepSmallestId_all l :
  let m := fold_left keepSmallestId l [] in
  NoDup (map fst m) /\
  (forall k e, (k, e) ∈ m -> k = semanticKey e /\ e ∈ l) /\
  forall e, e ∈ l -> exists e', map_get (semanticKey e) m = Some e' /\
                               not_after compareUtf8 (ev_id e') (ev_id e) = true.
Proof.
  induction l as [|x l IH] using rev_ind; cbn zeta in *.
  { split; [constructor|]. split; [|intros e He; by apply not_elem_of_nil in He].
    intros k e He. by apply not_elem_of_nil in He. }
  rewrite fold_left_app. cbn [fold_left]. set (m := fold_left keepSmallestId l []) in *.
  destruct IH as (Hnd & Hkeys & Hall). unfold keepSmallestId.
  assert (forall e : RelatedEvidence, e ∈ l ++ [x] <-> e ∈ l \/ e = x) as Hin.
  { intros e. rewrite elem_of_app, list_elem_of_singleton. done. }
  assert (forall m', (m' = map_set (semanticKey x) x m /\
                      (forall e, map_get (semanticKey x) m = Some e -> not_after compareUtf8 (ev_id x) (ev_id e) = true))
                  \/ (m' = m /\ exists e, map_get (semanticKey x) m = Some e /\ not_after compareUtf8 (ev_id e) (ev_id x) = true) ->
          NoDup (map fst m') /\
          (forall k e, (k, e) ∈ m' -> k = semanticKey e /\ e ∈ l ++ [x]) /\
          (forall e, e ∈ l ++ [x] -> exists e', map_get (semanticKey e) m' = Some e' /\
                                               not_after compareUtf8 (ev_id e') (ev_id e) = true)) as Hcases.
  { intros m' [[-> Hsmall]|[-> (e0 & Hget & Hle)]].
    - split; [by apply map_set_NoDup|]. split.
      + intros k e He. apply (map_get_NoDup _ _ _ (map_set_NoDup _ _ _ Hnd)) in He.
        rewrite map_get_set in He. destruct (jeqb _ k) eqn:Ek.
        * apply jeqb_eq in Ek as <-. injection He as <-. rewrite Hin. by split; [|right].
        * apply map_get_elem, Hkeys in He as [-> He]. rewrite Hin. by split; [|left].
      + intros e He. rewrite map_get_set. apply Hin in He. destruct (jeqb _ _) eqn:Ek.
        * exists x. split; [done|]. destruct He as [He| ->]; [|by destruct (not_after_total compareUtf8 (ev_id x) (ev_id x))].
          apply jeqb_eq in Ek. destruct (Hall e He) as (e' & Hget & Hle). rewrite <- Ek in Hget.
          eapply (compare_le_trans (compare := compareUtf8)); [by apply Hsmall|done].
        * destruct He as [He| ->]; [by apply Hall|]. by rewrite jeqb_refl in Ek.
    - split; [done|]. split.
      + intros k e He. apply Hkeys in He as [-> He]. rewrite Hin. by split; [|left].
      + intros e [He| ->]%Hin; [by apply Hall|]. by exists e0. }
  apply Hcases. destruct (map_get (semanticKey x) m) as [e0|] eqn:Hget; [|by left; split].
  pose proof (not_after_opp compareUtf8 (ev_id x) (ev_id e0)) as Hopp.
  unfold not_after in *. destruct (compareUtf8 (ev_id x) (ev_id e0)) eqn:Ec.
  - right. split; [done|]. by exists e0.
  - left. split; [done|]. intros e [= <-]. by rewrite Ec.
  - right. split; [done|]. by exists e0.
Qed.

Section merge.
Context `{Sha256}.

(** Every piece of evidence of the group is carried, none twice, and no more
    than the contract allows. *)
Lemma mergedEvidence_spec primary ordered related :
  mergedEvidence primary ordered = Ok related ->
  (forall d e, d ∈ ordered -> e ∈ memberEvidence primary d -> carried related e) /\
  NoDup (map semanticKey related) /\
  (N.of_nat (length related) <= MAX_RELATED_EVIDENCE_PER_DIAGNOSTIC)%N.
Proof.
  unfold mergedEvidence. intros Hm. apply bind_Ok in Hm as (m & Hadd & Hm).
  apply bind_ensure in Hm as [Hlimit Hm]. injection Hm as <-. apply N.leb_le in Hlimit.
  apply addEvidence_all in Hadd as [_ Hadd].
  destruct (keepSmallestId_all (map snd m)) as (Hnd & Hkeys & Hall).
  set (s := fold_left keepSmallestId (map snd m) []) in *.
  assert (map semanticKey (map snd s) = map fst s) as Hmap.
  { rewrite map_map. apply map_ext_in. intros [k e] Hin%list_elem_of_In. by apply Hkeys in Hin as [-> _]. }
  split; [|split].
  - intros d e Hd He. destruct (Hadd e) as (e1 & Hin & Hsame).
    { apply list_elem_of_join. exists (memberEvidence primary d). split; [done|].
      apply list_elem_of_fmap. by exists d. }
    apply (list_elem_of_fmap_2 snd) in Hin. apply Hall in Hin as (e' & Hget & Hle).
    apply map_get_elem in Hget. exists e1, e'. split; [done|]. split; [|split; [|done]].
    + rewrite elem_of_sorted_with by apply _. apply list_elem_of_fmap. by exists (semanticKey e1, e').
    + apply Hkeys in Hget as [Hk _]. symmetry. exact Hk.
  - unfold sorted_with. rewrite sort_by_perm, Hmap. done.
  - unfold sorted_with. by rewrite sort_by_length, length_map.
Qed.

Lemma higher_max l s :
  (SEVERITY_RANK s <= SEVERITY_RANK (fold_left higher l s))%N /\
  Forall (fun d => SEVERITY_RANK (diag_severity d) <= SEVERITY_RANK (fold_left higher l s))%N l.
Proof.
  revert s. induction l as [|d l IH]; intros s; cbn; [split; [lia|constructor]|].
  destruct (IH (higher s d)) as [Hs Hl]. unfold higher in *.
  split; [|constructor; [|done]]; destruct (_ <? _)%N eqn:E in *; bool_prop; cbn; rewrite ?E; lia.
Qed.

Lemma higher_elem l s :
  fold_left higher l s = s \/ exists d, d ∈ l /\ diag_severity d = fold_left higher l s.
Proof.
  revert s. induction l as [|d l IH]; intros s; cbn; [by left|].
  destruct (IH (higher s d)) as [Heq|(d' & Hd' & Heq)].
  - rewrite Heq. unfold higher. destruct (_ <? _)%N; [|by left].
    right. exists d. split; [left|done].
  - right. exists d'. split; [by right|done].
Qed.

(** [d'] stands for the member [d] of a group. *)
Definition stands_for (d' d : Diagnostic) : Prop :=
  deduplicationKey d' = deduplicationKey d /\
  diag_message d' = diag_message d /\
  (SEVERITY_RANK (diag_severity d) <= SEVERITY_RANK (diag_severity d'))%N /\
  not_after compareLocations (diag_primary d') (diag_primary d) = true /\
  not_after compareUtf8 (diag_id d') (diag_id d) = true /\
  Forall (carried (diag_related d')) (memberEvidence (diag_primary d') d).

(** What a merged diagnostic takes from its group. *)
Definition drawn_from (d' : Diagnostic) (group : list Diagnostic) : Prop :=
  (exists d, d ∈ group /\ diag_id d = diag_id d' /\ deduplicationKey d = deduplicationKey d') /\
  (exists d, d ∈ group /\ diag_primary d = diag_primary d') /\
  (exists d, d ∈ group /\ diag_severity d = diag_severity d').

Lemma mergeDiagnosticGroup_spec group key d' :
  Forall (fun d => deduplicationKey d = key) group ->
  mergeDiagnosticGroup group = Ok d' ->
  deduplicationKey d' = key /\ Forall (stands_for d') group /\ drawn_from d' group /\
  NoDup (map semanticKey (diag_related d')).
Proof.
  intros Hkey Hm. rewrite Forall_forall in Hkey. unfold mergeDiagnosticGroup in Hm.
  destruct (sorted_with compareById group) as [|first rest] eqn:Hordered; [done|].
  destruct (sorted_with compareByPrimary (first :: rest)) as [|earliest others] eqn:Hprimary; [done|].
  pose proof (fun d => sorted_with_head compareById group first rest d Hordered) as Hfirst.
  pose proof (fun d => sorted_with_head compareByPrimary _ earliest others d Hprimary) as Hearliest.
  assert (forall d, d ∈ first :: rest <-> d ∈ group) as Hin.
  { intros d. rewrite <- Hordered. apply elem_of_sorted_with. }
  assert (earliest ∈ first :: rest) as He.
  { rewrite <- (elem_of_sorted_with compareByPrimary), Hprimary. left. }
  apply bind_ensure in Hm as [_ Hm]. apply bind_ensure in Hm as [Hmessage Hm].
  apply bind_Ok in Hm as (related & Hrelated & Hm). apply bind_ensure in Hm as [_ Hm].
  injection Hm as <-. apply mergedEvidence_spec in Hrelated as (Hcarried & Hnd & _).
  rewrite forallb_elem in Hmessage.
  destruct (higher_max (first :: rest) severity_info) as [_ Hmax]. rewrite Forall_forall in Hmax.
  assert (first ∈ first :: rest) as Hf by left. pose proof (proj1 (Hin _) Hf) as Hfg.
  split; [exact (Hkey _ Hfg)|]. split; [|split; [|done]].
  - apply Forall_forall. intros d Hd. pose proof (proj2 (Hin d) Hd) as Hd'.
    split; [by rewrite (Hkey d Hd), <- (Hkey _ Hfg)|]. split; [|split; [|split; [|split]]].
    + symmetry. apply jeqb_eq. by apply Hmessage.
    + by apply Hmax.
    + by apply Hearliest.
    + by apply Hfirst.
    + apply Forall_forall. intros e. by apply Hcarried.
  - split; [|split]; [by exists first| |].
    + exists earliest. split; [by apply Hin|done].
    + destruct (higher_elem (first :: rest) severity_info) as [Heq|(d & Hd & Heq)].
      * exists first. split; [done|]. specialize (Hmax _ Hf). cbn [diag_severity]. rewrite Heq in *.
        destruct (diag_severity first); cbn in *; [lia|lia|done].
      * exists d. split; [by apply Hin|done].
Qed.
End merge.

(** ** Groups *)

Definition members (key : jstring) (l : list Diagnostic) : list Diagnostic :=
  List.filter (fun d => jeqb (deduplicationKey d) key) l.

Lemma elem_of_members key l d : d ∈ members key l <-> d ∈ l /\ deduplicationKey d = key.
Proof. unfold members. by rewrite list_elem_of_In, filter_In, <- list_elem_of_In, jeqb_eq. Qed.

Lemma groupsOf_get key l :
  map_get key (groupsOf l) = match members key l with [] => None | g => Some g end.
Proof.
  unfold groupsOf. induction l as [|x l IH] using rev_ind; [done|].
  rewrite fold_left_app. cbn [fold_left]. unfold members, addToGroup at 1.
  rewrite map_get_set, List.filter_app. cbn [List.filter]. fold (members key l).
  destruct (jeqb (deduplicationKey x) key) eqn:E; [|by rewrite app_nil_r].
  apply jeqb_eq in E as ->. rewrite IH. by destruct (members key l).
Qed.

Lemma groupsOf_NoDup l : NoDup (map fst (groupsOf l)).
Proof.
  unfold groupsOf. induction l as [|x l IH] using rev_ind; [constructor|].
  rewrite fold_left_app. by apply map_set_NoDup.
Qed.

Lemma groupsOf_keys key l : key ∈ map fst (groupsOf l) <-> exists d, d ∈ l /\ deduplicationKey d = key.
Proof.
  rewrite <- map_get_keys, groupsOf_get. split.
  - intros [g Hg]. destruct (members key l) as [|d r] eqn:Hm; [done|]. exists d.
    apply elem_of_members. rewrite Hm. left.
  - intros (d & Hd%elem_of_members). destruct (members key l) as [|x r]; [by apply not_elem_of_nil in Hd|done].
Qed.

(** The group of a key *)
Definition group_of (key : jstring) (l : list Diagnostic) : list Diagnostic :=
  match map_get key (groupsOf l) with Some g => g | None => [] end.

Lemma group_of_members key l : group_of key l = members key l.
Proof. unfold group_of. rewrite groupsOf_get. by destruct (members key l). Qed.

Section groups.
Context `{Sha256}.

Lemma mergeGroups_spec l ds :
  mergeGroups (groupsOf l) = Ok ds ->
  NoDup (map deduplicationKey ds) /\
  (forall d, d ∈ l -> exists d', d' ∈ ds /\ stands_for d' d) /\
  (forall d', d' ∈ ds -> drawn_from d' (members (deduplicationKey d') l) /\
                        NoDup (map semanticKey (diag_related d'))).
Proof.
  intros Hm. unfold mergeGroups in Hm. apply rmapM_Ok in Hm.
  set (keys := sorted_with compareUtf8 (map fst (groupsOf l))) in *.
  assert (Forall2 (fun key d' => deduplicationKey d' = key /\ Forall (stands_for d') (members key l) /\
            drawn_from d' (members key l) /\ NoDup (map semanticKey (diag_related d'))) keys ds) as Hspec.
  { eapply Forall2_impl; [exact Hm|]. intros key d' Hd'. apply mergeDiagnosticGroup_spec.
    - apply Forall_forall. intros d [_ Hd]%elem_of_members. done.
    - pose proof (group_of_members key l) as Hg. unfold group_of in Hg. by rewrite <- Hg. }
  assert (map deduplicationKey ds = keys) as Hkeys.
  { clear -Hspec. induction Hspec as [|key d' keys ds [Hkey _] _ IH]; [done|]. cbn. by rewrite Hkey, IH. }
  split; [|split].
  - rewrite Hkeys. unfold keys, sorted_with. rewrite sort_by_perm. apply groupsOf_NoDup.
  - intros d Hd. assert (deduplicationKey d ∈ keys) as Hin.
    { apply elem_of_sorted_with, groupsOf_keys. by exists d. }
    apply list_elem_of_lookup in Hin as [i Hi].
    destruct (Forall2_lookup_l _ _ _ _ _ Hspec Hi) as (d' & Hd' & _ & Hall & _).
    exists d'. split; [by eapply list_elem_of_lookup_2|]. rewrite Forall_forall in Hall.
    apply Hall. by apply elem_of_members.
  - intros d' Hd'. apply list_elem_of_lookup in Hd' as [i Hi].
    destruct (Forall2_lookup_r _ _ _ _ _ Hspec Hi) as (key & _ & <- & _ & Hdrawn & Hnd). done.
Qed.
End groups.

Section filtered.
Context `{Sha256} {Raw : Type} `{!DiagnosticValidator Raw}.

Lemma canonicalizeFiltered_spec (filtered : DiagnosticBundle) sources b :
  canonicalizeFiltered filtered sources = Ok b ->
  NoDup (map deduplicationKey (bundle_diagnostics b)) /\
  (forall d, d ∈ bundle_diagnostics filtered ->
    exists d', d' ∈ bundle_diagnostics b /\ stands_for d' d) /\
  (forall d', d' ∈ bundle_diagnostics b ->
    drawn_from d' (members (deduplicationKey d') (bundle_diagnostics filtered)) /\
    NoDup (map semanticKey (diag_related d'))) /\
  bundle_suppressions b = bundle_suppressions filtered.
Proof.
  unfold canonicalizeFiltered. intros Hc. apply bind_Ok in Hc as (ds & Hds & Hc).
  destruct (validateDiagnosticBundle _ sources) as [v|] eqn:Hv; [|done]. injection Hc as <-.
  apply validate_same in Hv as ->. cbn [bundle_diagnostics bundle_suppressions].
  apply mergeGroups_spec in Hds as (Hnd & Hall & Hdrawn). split; [|split; [|split; [|done]]].
  - unfold sorted_with. by rewrite sort_by_perm.
  - intros d (d' & Hd' & Hs)%Hall. exists d'. split; [by apply elem_of_sorted_with|done].
  - intros d' Hd'%elem_of_sorted_with. by apply Hdrawn.
Qed.

Lemma policyFilteredBundle_spec (raw : Raw) sources p filtered :
  policyFilteredBundle raw sources p = Ok filtered ->
  exists checked, validateDiagnosticBundle raw sources = Some checked /\
    bundle_diagnostics filtered
      ≡ₚ omap (fun d => applySeverity d p) (bundle_diagnostics checked) /\
    bundle_suppressions filtered ≡ₚ bundle_suppressions checked.
Proof.
  unfold policyFilteredBundle. intros Hf.
  destruct (validateDiagnosticBundle raw sources) as [checked|]; [|done]. exists checked.
  apply bind_ensure in Hf as [_ Hf].
  destruct (validateDiagnosticBundle _ sources) as [v|] eqn:Hv; [|done]. injection Hf as <-.
  apply validate_same in Hv as ->. split; [done|]. split; apply sort_by_perm.
Qed.
End filtered.

Lemma drawn_from_perm d' group group' : group ≡ₚ group' -> drawn_from d' group -> drawn_from d' group'.
Proof. unfold drawn_from. intros Hp. by setoid_rewrite Hp. Qed.

Lemma members_perm key l l' : l ≡ₚ l' -> members key l ≡ₚ members key l'.
Proof.
  unfold members. induction 1 as [|x l l' _ IH|x y l|l l' l'' _ IH1 _ IH2]; cbn; [done|..].
  - destruct (jeqb _ _); [by constructor|done].
  - destruct (jeqb _ _), (jeqb _ _); try done. constructor.
  - by rewrite IH1.
Qed.

(** C22. A canonical bundle stands for every validated diagnostic that the policy
    does not turn off: each has one representative, the only one with its two
    fingerprints, of the same message, at least its severity, at or before its
    location, carrying all of its evidence and its own location when that is
    another one.  Identifier, location and severity of a representative are
    those of diagnostics it stands for, none of its evidence differs only by
    identifier, and the suppressions are kept. *)
Theorem canonicalize_represents `{Sha256} {Raw} `{!DiagnosticValidator Raw} h (raw : Raw) sources policy b :
  canonicalizeRuleDiagnostics h raw sources policy = Ok b ->
  exists p checked,
    normalizePolicy h policy = Ok p /\ validateDiagnosticBundle raw sources = Some checked /\
    NoDup (map deduplicationKey (bundle_diagnostics b)) /\
    (forall d selected, d ∈ bundle_diagnostics checked -> applySeverity d p = Some selected ->
      exists d', d' ∈ bundle_diagnostics b /\ stands_for d' selected) /\
    (forall d', d' ∈ bundle_diagnostics b ->
      drawn_from d' (members (deduplicationKey d')
                             (omap (fun d => applySeverity d p) (bundle_diagnostics checked))) /\
      NoDup (map semanticKey (diag_related d'))) /\
    bundle_suppressions b ≡ₚ bundle_suppressions checked.
Proof.
  unfold canonicalizeRuleDiagnostics. intros Hc. apply bind_Ok in Hc as (p & Hp & Hc).
  apply bind_Ok in Hc as (filtered & Hf & Hc). exists p.
  apply policyFilteredBundle_spec in Hf as (checked & Hv & Hd & Hs). exists checked.
  apply canonicalizeFiltered_spec in Hc as (Hnd & Hall & Hdrawn & ->).
  split; [done|]. split; [done|]. split; [done|]. split; [|split; [|done]].
  - intros d selected Hin Hsel. apply Hall. rewrite Hd. apply list_elem_of_omap. by exists d.
  - intros d' Hd'. destruct (Hdrawn d' Hd') as [Hfrom Hkeys]. split; [|done].
    eapply drawn_from_perm; [|exact Hfrom]. by apply members_perm.
Qed.

(** ** Registered rules *)

Lemma registered_sorted i j a b :
  (i < j)%nat -> REGISTERED_RULE_IDS !! i = Some a -> REGISTERED_RULE_IDS !! j = Some b -> jltb a b = true.
Proof.
  intros Hij Ha Hb.
  assert (StronglySorted (fun a b => jltb a b = true) REGISTERED_RULE_IDS) as Hs.
  { apply Sorted_StronglySorted; [intros x y z; apply jltb_trans|].
    repeat (constructor; [|vm_compute; constructor; reflexivity]); vm_compute; constructor. }
  revert i j Hij Ha Hb. induction Hs as [|x l _ IH Hx]; intros [|i] [|j] Hij Ha Hb; cbn in *; try done; try lia.
  - simplify_eq. rewrite Forall_forall in Hx. apply Hx. by eapply list_elem_of_lookup_2.
  - apply (IH i j); [lia|done..].
Qed.

Lemma searchRule_spec fuel id low high :
  (0 <= low)%Z -> (high < Z.of_nat (length REGISTERED_RULE_IDS))%Z -> (high - low < Z.of_nat fuel)%Z ->
  searchRule fuel id low high = true <->
  exists k, (low <= Z.of_nat k <= high)%Z /\ REGISTERED_RULE_IDS !! k = Some id.
Proof.
  revert low high. induction fuel as [|fuel IH]; intros low high Hlow Hhigh Hfuel; cbn [searchRule].
  { split; [done|]. intros (k & ? & _). lia. }
  destruct (low <=? high)%Z eqn:Hle; [apply Z.leb_le in Hle|apply Z.leb_gt in Hle; split; [done|]; intros (k & ? & _); lia].
  assert (low <= (low + high) / 2 <= high)%Z as Hmid by (split; [apply Z.div_le_lower_bound|apply Z.div_le_upper_bound]; lia).
  set (middle := ((low + high) / 2)%Z) in *.
  destruct (REGISTERED_RULE_IDS !! Z.to_nat middle) as [rule|] eqn:Hrule;
    [|apply lookup_ge_None in Hrule; lia].
  destruct (jeqb rule id) eqn:Heq.
  { apply jeqb_eq in Heq as ->. split; [|done]. intros _. exists (Z.to_nat middle). split; [lia|done]. }
  apply jeqb_neq in Heq.
  assert (forall k, REGISTERED_RULE_IDS !! k = Some id -> Z.of_nat k <> middle) as Hne.
  { intros k Hk <-. rewrite Nat2Z.id in Hrule. congruence. }
  destruct (jltb rule id) eqn:Hlt; rewrite IH by lia; split; intros (k & Hk & Hid); exists k; (split; [|done]).
  - lia.
  - specialize (Hne k Hid). enough (middle < Z.of_nat k)%Z by lia.
    destruct (Z.lt_ge_cases middle (Z.of_nat k)); [done|].
    assert (jltb id rule = true) as Hgt by (apply (registered_sorted k (Z.to_nat middle)); [lia|done..]).
    pose proof (jltb_trans _ _ _ Hlt Hgt) as Hirr. by rewrite jltb_irrefl in Hirr.
  - lia.
  - specialize (Hne k Hid). enough (Z.of_nat k < middle)%Z by lia.
    destruct (Z.lt_ge_cases (Z.of_nat k) middle); [done|].
    assert (jltb rule id = true) as Hgt by (apply (registered_sorted (Z.to_nat middle) k); [lia|done..]).
    congruence.
Qed.

(** The binary search over the registry finds exactly the registered rules. *)
Theorem findRuleMetadata_spec id : findRuleMetadata id = true <-> id ∈ REGISTERED_RULE_IDS.
Proof.
  assert (forall r, r ∈ REGISTERED_RULE_IDS -> is_rule_id r = true) as Hids.
  { apply forallb_elem. vm_compute. reflexivity. }
  unfold findRuleMetadata. rewrite andb_true_iff, searchRule_spec by lia. split.
  - intros [_ (k & _ & Hk)]. by eapply list_elem_of_lookup_2.
  - intros Hin. split; [by apply Hids|]. apply list_elem_of_lookup in Hin as [k Hk].
    exists k. split; [|done]. apply lookup_lt_Some in Hk. lia.
Qed.

(** ** Policies *)

Definition normalized_policy (p : RuleSchedulerPolicy) : Prop :=
  NoDup (map fst (severityOverrides p)) /\
  Forall (fun o => findRuleMetadata o.1 = true) (severityOverrides p) /\
  (length (severityOverrides p) <= length REGISTERED_RULE_IDS)%nat.

Lemma normalizePolicy_normalized h raw p : normalizePolicy h raw = Ok p -> normalized_policy p.
Proof.
  unfold normalizePolicy. intros Hn. apply bind_Ok in Hn as (record & _ & Hn).
  destruct (named FAILURE_THRESHOLDS _) as [threshold|]; [|done].
  destruct (object_of h _) as [o|]; [|done].
  apply bind_ensure in Hn as [_ Hn]. apply bind_ensure in Hn as [Hlen Hn]. apply Nat.leb_le in Hlen.
  apply bind_Ok in Hn as (overrides & Hf & Hn). injection Hn as <-. unfold normalized_policy. cbn [severityOverrides].
  enough (NoDup (map fst overrides) /\ Forall (fun o => findRuleMetadata o.1 = true) overrides /\
          (length overrides <= length (obj_own o))%nat) as (? & ? & ?) by (split; [done|split; [done|lia]]).
  refine (foldM_inv (fun done_ l => NoDup (map fst l) /\ Forall (fun o => findRuleMetadata o.1 = true) l /\
            (length l <= length done_)%nat) _ _ _ _ Hf _ _); [by repeat constructor|].
  intros done_ x l l' (Hnd & Hreg & Hl) _ Hx. unfold normalizeOverride in Hx.
  destruct (prop_key x) as [key|]; [|done]. apply bind_ensure in Hx as [Hkey Hx].
  destruct (enumerable_data _) as [v|]; [|done]. destruct (named SEVERITIES v) as [severity|]; [|done].
  injection Hx as <-. split; [by apply map_set_NoDup|]. split.
  - rewrite Forall_forall in Hreg |- *. intros [k s] Hin. cbn.
    apply (list_elem_of_fmap_2 fst) in Hin. cbn in Hin. apply map_keys_set in Hin as [->|Hin]; [done|].
    apply list_elem_of_fmap in Hin as (e & -> & He). by apply Hreg.
  - rewrite length_app. pose proof (map_set_length key severity l). cbn. lia.
Qed.

Lemma normalizeOverride_again acc key s :
  findRuleMetadata key = true ->
  normalizeOverride acc (data_property key (VString (override_name s))) = Ok (map_set key s acc).
Proof.
  intros Hkey. unfold normalizeOverride. cbn [data_property prop_key]. rewrite Hkey.
  by destruct s as [[]|].
Qed.

Lemma normalizeOverrides_again overrides acc :
  NoDup (map fst (acc ++ overrides)) -> Forall (fun o => findRuleMetadata o.1 = true) overrides ->
  foldM normalizeOverride acc
    (map (fun f => data_property f.1 f.2) (map (fun o => (o.1, VString (override_name o.2))) overrides))
  = Ok (acc ++ overrides).
Proof.
  revert acc. induction overrides as [|[key s] overrides IH]; intros acc Hnd Hreg; cbn [map foldM].
  { by rewrite app_nil_r. }
  apply Forall_cons in Hreg as [Hkey Hreg]. cbn [fst snd] in *. rewrite normalizeOverride_again by done.
  cbn [mbind res_mbind]. rewrite map_set_new.
  - replace (acc ++ (key, s) :: overrides) with ((acc ++ [(key, s)]) ++ overrides) in * by (by rewrite <- app_assoc).
    by apply IH.
  - rewrite map_app, NoDup_app in Hnd. destruct Hnd as (_ & Hnd & _). intros Hin. apply (Hnd key Hin). left.
Qed.

(** A normalized policy is plain data that normalizes to itself: the scheduler
    may pass its own policy to canonicalization. *)
Theorem normalizePolicy_again h h' raw p :
  normalizePolicy h raw = Ok p -> normalizePolicy h' (policy_value p) = Ok p.
Proof.
  intros (Hnd & Hreg & Hlen)%normalizePolicy_normalized. destruct p as [threshold overrides].
  cbn [severityOverrides] in *. unfold normalizePolicy.
  assert (dataRecord h' (policy_value {| failureThreshold := threshold; severityOverrides := overrides |})
            [ #"failureThreshold"; #"severityOverrides"] #"$.policy"
          = Ok (obj_own (record_object [(#"failureThreshold", VString (threshold_name threshold));
                  (#"severityOverrides",
                   VRecord (map (fun o => (o.1, VString (override_name o.2))) overrides))]))) as -> by reflexivity.
  cbn [mbind res_mbind].
  assert (named FAILURE_THRESHOLDS (VString (threshold_name threshold)) = Some threshold) as Ht
    by (destruct threshold; reflexivity).
  change (own_value _ #"failureThreshold") with (VString (threshold_name threshold)). rewrite Ht.
  change (object_of h' (own_value _ #"severityOverrides"))
    with (Some (record_object (map (fun o => (o.1, VString (override_name o.2))) overrides))).
  cbn [record_object obj_proxy is_array obj_slots plain_prototype obj_prototype obj_own negb andb ensure].
  rewrite !length_map. rewrite (proj2 (Nat.leb_le _ _) Hlen). cbn [ensure mbind res_mbind].
  by rewrite (normalizeOverrides_again overrides []).
Qed.

(** ** Duplicates at one location *)

Module Duplicates.
Definition at_byte (n : Z) : SourcePosition :=
  {| byteOffset := n; line := 0; utf16Column := n; utf16Offset := n |}.

Definition location (n : Z) : DiagnosticSourceLocation :=
  {| loc_sourceId := #"source:a"; loc_path := #"AGENTS.md"; loc_sourceDigest := #"d";
     loc_range := {| range_sourceId := #"source:a"; range_start := at_byte n; range_end := at_byte (n + 1) |} |}.

Definition finding (id rule : jstring) (fingerprint : jstring) (n : Z) : Diagnostic :=
  {| diag_id := id; diag_ruleId := rule; diag_ruleVersion := #"1"; diag_severity := severity_warning;
     diag_message := #"message"; diag_primary := location n; diag_related := []; diag_suggestion := VNull;
     diag_fingerprintBasis := VRecord [];
     fingerprint_path := {| fp_method := #"path"; fp_value := fingerprint |};
     fingerprint_semantic := {| fp_method := #"semantic"; fp_value := fingerprint |} |}.

(** Two rules, each with the same finding at bytes 1 and 5. *)
Definition two_groups : DiagnosticBundle :=
  {| bundle_diagnostics := [finding #"a1" #"ACL100" #"p" 1; finding #"b1" #"ACL101" #"q" 1;
                            finding #"a2" #"ACL100" #"p" 5; finding #"b2" #"ACL101" #"q" 5];
     bundle_suppressions := [] |}.

Definition merged `{Sha256} (d duplicate : Diagnostic) : Diagnostic :=
  {| diag_id := diag_id d; diag_ruleId := diag_ruleId d; diag_ruleVersion := diag_ruleVersion d;
     diag_severity := diag_severity d; diag_message := diag_message d; diag_primary := diag_primary d;
     diag_related := [duplicateEvidence duplicate]; diag_suggestion := diag_suggestion d;
     diag_fingerprintBasis := diag_fingerprintBasis d; fingerprint_path := fingerprint_path d;
     fingerprint_semantic := fingerprint_semantic d |}.

Lemma two_groups_merged `{Sha256} :
  mergeGroups (groupsOf (bundle_diagnostics two_groups)) =
  Ok [merged (finding #"a1" #"ACL100" #"p" 1) (finding #"a2" #"ACL100" #"p" 5);
      merged (finding #"b1" #"ACL101" #"q" 1) (finding #"b2" #"ACL101" #"q" 5)].
Proof. cbv -[evidenceIdForPrimary]. reflexivity. Qed.
End Duplicates.

(** When two groups of duplicates meet at one location that is not the
    earliest of either, their evidence gets one identifier, and every validator
    that keeps identifiers unique refuses the whole bundle. *)
Theorem shared_duplicate_location_refused `{Sha256} {Raw} `{!DiagnosticValidator Raw} sources :
  canonicalizeFiltered Duplicates.two_groups sources = Err (schedulerIssue invalid_output #"$output").
Proof.
  unfold canonicalizeFiltered. rewrite Duplicates.two_groups_merged. cbn [mbind res_mbind].
  destruct (validateDiagnosticBundle _ sources) as [v|] eqn:Hv; [|done]. exfalso.
  pose proof (validate_same _ _ _ Hv) as ->. apply validate_entities in Hv as [Hnd _].
  unfold entity_ids, sorted_with in Hnd. cbn [bundle_diagnostics bundle_suppressions] in Hnd.
  apply NoDup_app in Hnd as (Hnd & _ & _).
  rewrite sort_by_perm in Hnd.
  cbn [map mjoin list_join app Duplicates.merged diag_id diag_related duplicateEvidence ev_id] in Hnd.
  rewrite !NoDup_cons in Hnd. destruct Hnd as (_ & Hid & _). apply Hid. right. left.
Qed.

(** ** A validator *)

Definition good_id (i : jstring) : bool := forallb (fun u => u <? 65536)%N i && hasWellFormedUnicode i.

(** Only the promises about identifiers. *)
Definition accepts (b : DiagnosticBundle) : bool :=
  bool_decide (NoDup (entity_ids b)) && forallb good_id (entity_ids b).

Lemma accepts_distinct b : accepts b = true -> distinct_entities b.
Proof.
  unfold accepts, distinct_entities. intros [Hnd Hid]%andb_true_iff. apply bool_decide_eq_true in Hnd.
  split; [done|]. apply Forall_forall. rewrite forallb_elem in Hid. intros i Hi.
  specialize (Hid i Hi). apply andb_true_iff in Hid as [Hu Hw]. split; [|done].
  apply Forall_forall. rewrite forallb_elem in Hu. intros u Hin. by apply N.ltb_lt, Hu.
Qed.

Definition toy_validator : DiagnosticValidator DiagnosticBundle.
Proof.
  refine {| validateDiagnosticBundle := fun b _ => if accepts b then Some b else None; raw_bundle := fun b => b |}.
  - intros b sources b' Hb. destruct (accepts b); congruence.
  - intros b sources b' Hb. destruct (accepts b) eqn:Ha; [|done]. injection Hb as <-.
    by apply accepts_distinct.
Defined.

Module DiagnosticsExample.
Import Duplicates.
#[local] Instance digest : Sha256 := toy_sha256.
#[local] Instance validator : DiagnosticValidator DiagnosticBundle := toy_validator.

Definition no_objects : heap := fun _ => None.

Definition a_policy : value := policy_value {|
  failureThreshold := threshold_error; severityOverrides := [(#"ACL101", Severity severity_error)] |}.

Definition a_bundle : DiagnosticBundle :=
  {| bundle_diagnostics := [finding #"a2" #"ACL100" #"p" 5; finding #"b1" #"ACL101" #"q" 1;
                            finding #"a1" #"ACL100" #"p" 1];
     bundle_suppressions := [] |}.

Definition the_same_bundle : DiagnosticBundle :=
  {| bundle_diagnostics := reverse (bundle_diagnostics a_bundle); bundle_suppressions := [] |}.

Definition a_canonical_bundle : DiagnosticBundle :=
  match canonicalizeRuleDiagnostics no_objects a_bundle [] a_policy with
  | Ok b => b
  | Err _ => {| bundle_diagnostics := []; bundle_suppressions := [] |}
  end.

Lemma canonicalize_order_independent_witness :
  the_same_bundle <> a_bundle /\
  canonicalizeRuleDiagnostics no_objects a_bundle [] a_policy =
  canonicalizeRuleDiagnostics no_objects the_same_bundle [] a_policy.
Proof.
  split; [discriminate|].
  apply (canonicalize_order_independent no_objects a_bundle the_same_bundle [] a_policy a_bundle the_same_bundle).
  - reflexivity.
  - reflexivity.
  - symmetry. apply reverse_Permutation.
  - reflexivity.
Defined.

(** The later duplicate became evidence of the earlier one. *)
Lemma canonicalize_represents_witness :
  map (fun d => (diag_id d, length (diag_related d))) (bundle_diagnostics a_canonical_bundle)
    = [(#"a1", 1%nat); (#"b1", 0%nat)] /\
  NoDup (map deduplicationKey (bundle_diagnostics a_canonical_bundle)).
Proof.
  split; [vm_compute; reflexivity|].
  destruct (canonicalize_represents no_objects a_bundle [] a_policy a_canonical_bundle)
    as (p & checked & _ & _ & Hnd & _); [vm_compute; reflexivity|exact Hnd].
Defined.
End DiagnosticsExample.
