(* ===== verification/RuleScheduler.v ===== *)
(** The rule scheduler (packages/rules/src/rule-scheduler.ts): its options and
    input, the levels of the dependency graph, the workers that report the
    results of a level, and the composition of the ten rule families.

    The evaluators of the families, the issuing of IR snapshots and the
    suppression finalizer are classes.  Time, cancellation and the order in
    which the workers of a level are resumed come from an [Environment]. *)
From S2P Require Import Prelude JsString OrderedMap Unicode JsValue ImportDag ObjectGraph CanonicalDigest EffectiveContextCache RuleDiagnostics.

Definition RULE_SCHEDULER_CONTRACT_VERSION : jstring := #"0.1.0".
Definition RULE_SCHEDULER_RECORD_KIND : jstring := #"agent-context-rule-scheduler-input".

(** ** Families *)

Definition family_name (f : RuleFamilyId) : jstring :=
  match f with
  | conflicts_duplication => #"conflicts-duplication"
  | context_efficiency => #"context-efficiency"
  | document_context => #"document-context"
  | portability => #"portability"
  | references_imports => #"references-imports"
  | repository_drift => #"repository-drift"
  | scope_activation => #"scope-activation"
  | security => #"security"
  | standards_freshness => #"standards-freshness"
  | syntax_structure => #"syntax-structure"
  end.

Definition RULE_FAMILY_IDS : list RuleFamilyId :=
  [conflicts_duplication; context_efficiency; document_context; portability; references_imports;
   repository_drift; scope_activation; security; standards_freshness; syntax_structure].

Record RuleFamilyDescriptor := {
  dependencies_ : list RuleFamilyId; family_ruleIds : list jstring; ticketId : jstring
}.

Definition descriptor_with (ruleIds : list jstring) (ticket : jstring) : RuleFamilyDescriptor :=
  {| dependencies_ := [syntax_structure]; family_ruleIds := ruleIds; ticketId := ticket |}.

(** [FAMILY_BY_ID.get(familyId)] *)
Definition RULE_FAMILY_DESCRIPTORS (f : RuleFamilyId) : RuleFamilyDescriptor :=
  match f with
  | conflicts_duplication => descriptor_with CONFLICTS_DUPLICATION_RULE_IDS #"F08"
  | context_efficiency => descriptor_with CONTEXT_EFFICIENCY_RULE_IDS #"F14"
  | document_context => descriptor_with DOCUMENT_CONTEXT_RULE_IDS #"F10"
  | portability => descriptor_with PORTABILITY_RULE_IDS #"F12"
  | references_imports => descriptor_with REFERENCES_IMPORTS_RULE_IDS #"F06"
  | repository_drift => descriptor_with REPOSITORY_DRIFT_RULE_IDS #"F09"
  | scope_activation => descriptor_with SCOPE_ACTIVATION_RULE_IDS #"F07"
  | security => descriptor_with SECURITY_RULE_IDS #"F11"
  | standards_freshness => descriptor_with STANDARDS_FRESHNESS_RULE_IDS #"F13"
  | syntax_structure =>
      {| dependencies_ := []; family_ruleIds := SYNTAX_STRUCTURE_RULE_IDS; ticketId := #"F05" |}
  end.

Definition family_named (v : value) : option RuleFamilyId :=
  match v with
  | VString s => find (fun f => jeqb (family_name f) s) RULE_FAMILY_IDS
  | _ => None
  end.

(** [compareUtf8] on family identifiers *)
Definition family_le (a b : RuleFamilyId) : bool := not_after compareUtf8 (family_name a) (family_name b).

(** ** The levels of the dependency graph *)

Section levels.
Context {F : Type} `{!EqDecision F} (dependencies : F -> list F) (le : F -> F -> bool).

Definition ready (remaining completed : list F) : list F :=
  sort_by le (List.filter (fun f => forallb (fun d => bool_decide (d ∈ completed)) (dependencies f)) remaining).

Definition without (remaining level : list F) : list F :=
  List.filter (fun f => negb (bool_decide (f ∈ level))) remaining.

(** The loop, with the levels found so far; every round removes a family, so
    [length remaining] rounds are enough ([levelsOf_complete]). *)
Fixpoint levelRounds (fuel : nat) (remaining completed : list F) (levels : list (list F))
  : list (list F) :=
  match remaining, fuel with
  | [], _ => levels
  | _, O => []
  | _, S fuel' =>
      match ready remaining completed with
      | [] => []
      | level => levelRounds fuel' (without remaining level) (completed ++ level) (levels ++ [level])
      end
  end.

Definition levelsOf (requests : list F) : list (list F) :=
  levelRounds (length requests) requests [] [].
End levels.

Definition topologicalLevels (requests : list RuleFamilyId) : list (list RuleFamilyId) :=
  levelsOf (fun f => dependencies_ (RULE_FAMILY_DESCRIPTORS f)) family_le requests.

(** ** Options *)

Record RuleSchedulerLimits := {
  maximumConcurrency : N; maximumDiagnostics : N; maximumDurationMs : N; scheduleSeed : N
}.

Definition RULE_SCHEDULER_DEFAULT_LIMITS : RuleSchedulerLimits := {|
  maximumConcurrency := 4; maximumDiagnostics := MAX_DIAGNOSTICS_PER_BUNDLE;
  maximumDurationMs := 30000; scheduleSeed := 0 |}%N.

Definition RULE_SCHEDULER_HARD_LIMITS : RuleSchedulerLimits := {|
  maximumConcurrency := 10; maximumDiagnostics := MAX_DIAGNOSTICS_PER_BUNDLE;
  maximumDurationMs := 300000; scheduleSeed := 0xffffffff |}%N.

Record NormalizedOptions := { option_limits : RuleSchedulerLimits; option_signal : option loc }.

Definition OPTION_KEYS : list jstring :=
  [ #"maximumConcurrency"; #"maximumDiagnostics"; #"maximumDurationMs"; #"scheduleSeed"; #"signal"].

Definition OPTIONS_PATH : jstring := #"$options".

(** A limit given in the options, or the default. *)
Definition selectedLimit (record : DataRecord) (key : jstring) (minimum maximum default : N) : scheduled N :=
  match descriptor record key with
  | None => Ok default
  | Some _ =>
      match own_value record key with
      | VNumber (Integer n) =>
          _ ← ensure ((Z.of_N minimum <=? n)%Z && (n <=? Z.of_N maximum)%Z && (n <=? MAX_SAFE_INTEGER)%Z)
                     (schedulerIssue invalid_options (OPTIONS_PATH ++ 46%N :: key));
          Ok (Z.to_N n)
      | VNumber NegativeZero =>
          _ ← ensure (minimum =? 0)%N (schedulerIssue invalid_options (OPTIONS_PATH ++ 46%N :: key));
          Ok 0%N
      | _ => Err (schedulerIssue invalid_options (OPTIONS_PATH ++ 46%N :: key))
      end
  end.

(** [abortState(value) !== undefined] *)
Definition native_signal (h : heap) (v : value) : option loc :=
  match v with
  | VRef l =>
      match h l with
      | Some {| obj_proxy := false; obj_slots := SignalSlots |} => Some l
      | _ => None
      end
  | _ => None
  end.

Definition normalizeOptions (h : heap) (raw : value) : scheduled NormalizedOptions :=
  match raw with
  | VUndefined => Ok {| option_limits := RULE_SCHEDULER_DEFAULT_LIMITS; option_signal := None |}
  | _ =>
      match object_of h raw with
      | None => Err (schedulerIssue invalid_options OPTIONS_PATH)
      | Some o =>
          _ ← ensure (negb (obj_proxy o) && negb (is_array o) && plain_prototype o
                      && forallb (has_key OPTION_KEYS) (obj_own o)
                      && forallb (fun p => bool_decide (is_Some (enumerable_data (Some p)))) (obj_own o))
                     (schedulerIssue invalid_options OPTIONS_PATH);
          let limit := fun key minimum get =>
            selectedLimit (obj_own o) key minimum (get RULE_SCHEDULER_HARD_LIMITS)
                          (get RULE_SCHEDULER_DEFAULT_LIMITS) in
          concurrency ← limit #"maximumConcurrency" 1%N maximumConcurrency;
          diagnostics ← limit #"maximumDiagnostics" 1%N maximumDiagnostics;
          duration ← limit #"maximumDurationMs" 1%N maximumDurationMs;
          seed ← limit #"scheduleSeed" 0%N scheduleSeed;
          let selected := {| maximumConcurrency := concurrency; maximumDiagnostics := diagnostics;
                             maximumDurationMs := duration; scheduleSeed := seed |} in
          match own_value (obj_own o) #"signal" with
          | VUndefined => Ok {| option_limits := selected; option_signal := None |}
          | candidate =>
              match native_signal h candidate with
              | None => Err (schedulerIssue invalid_options #"$options.signal")
              | Some l => Ok {| option_limits := selected; option_signal := Some l |}
              end
          end
      end
  end.

(** ** Input *)

(** The IR as far as the scheduler reads it. *)
Record IrStatement := {
  st_id : jstring; st_documentId : jstring; st_nodeIds : list jstring; st_range : SourceRange;
  st_text : jstring
}.
Record IrDocument := { irdoc_id : jstring; irdoc_sourceId : jstring }.
Record InstructionIr := {
  ir_sources : list SourceDocument; ir_documents : list IrDocument; ir_statements : list IrStatement
}.

(** [createInstructionIrSnapshot] fails with [true] for a resource limit. *)
Class IrSnapshots : Type := {
  issuedInstructionIrSnapshot : value -> option InstructionIr;
  createInstructionIrSnapshot : heap -> value -> res bool InstructionIr
}.

Record RepositoryDriftStatementInput := {
  drift_dialect : value; drift_documentId : jstring; drift_nodeIds : list jstring;
  drift_path : jstring; drift_range : SourceRange; drift_sourceDigest : jstring;
  drift_statementId : jstring; drift_text : jstring
}.

(** A field of a rebound input: the caller's value, or the engine's snapshot. *)
Inductive input_field := Caller (v : value) | Engine (ir : InstructionIr).

Inductive family_input :=
| ReboundInput (fields : list (jstring * input_field))
| DriftInput (evidenceIndex : value) (statements : list RepositoryDriftStatementInput).

Record RuleFamilyRequest := {
  request_familyId : RuleFamilyId; request_input : family_input; request_options : value
}.

(** What the issue of a failure is: one of the scheduler's own, or a rebound
    input of the caller's that passes for one. *)
Inductive ReturnedIssue :=
| Own_issue (i : RuleSchedulerIssue)
| Caller_record (fields : list (jstring * input_field)).

Definition own {A} (r : scheduled A) : res ReturnedIssue A :=
  match r with Ok a => Ok a | Err i => Err (Own_issue i) end.

(** [isIssue(rebound)]: the four fields of an issue are there, whatever they
    hold; the prototype of the record has none of them. *)
Definition ISSUE_FIELDS : list jstring := [ #"code"; #"familyId"; #"message"; #"path"].

Definition isIssue (rebound : list (jstring * input_field)) : bool :=
  forallb (fun key => existsb (fun f => jeqb f.1 key) rebound) ISSUE_FIELDS.

Record NormalizedInput := {
  input_policy : RuleSchedulerPolicy;
  input_requests : list RuleFamilyRequest; (** a map by family, in insertion order *)
  input_snapshotIr : InstructionIr
}.

Definition REQUEST_KEYS : list jstring := [ #"familyId"; #"input"; #"options"].
Definition INPUT_KEYS : list jstring := [ #"contractVersion"; #"families"; #"policy"; #"recordKind"].
Definition DRIFT_INPUT_KEYS : list jstring := [ #"evidenceIndex"; #"statements"].
Definition DRIFT_STATEMENT_KEYS : list jstring :=
  [ #"dialect"; #"documentId"; #"nodeIds"; #"path"; #"range"; #"sourceDigest"; #"statementId"; #"text"].
Definition POSITION_KEYS : list jstring := [ #"byteOffset"; #"line"; #"utf16Column"; #"utf16Offset"].
Definition RANGE_KEYS : list jstring := [ #"end"; #"sourceId"; #"start"].

Definition indexed (path : jstring) (index : nat) : jstring :=
  path ++ 91%N :: String_of_N (N.of_nat index) ++ [93%N].

Definition familyPath (f : RuleFamilyId) : jstring := #"$.families." ++ family_name f.

(** [new Map(list.map((x) => [id(x), x])).get(key)]: the last entry wins. *)
Definition last_by {A} (id : A -> jstring) (l : list A) (key : jstring) : option A :=
  find (fun x => jeqb (id x) key) (reverse l).

Definition drift_issue (path : jstring) : RuleSchedulerIssue :=
  familyIssue dependency_failure path repository_drift.

Section input.
Context (h : heap) `{IrSnapshots}.

Definition rebindField (path : jstring) (ir : InstructionIr) (p : property)
  : scheduled (jstring * input_field) :=
  match prop_key p, enumerable_data (Some p) with
  | Some key, Some v => Ok (key, if jeqb key #"ir" then Engine ir else Caller v)
  | _, _ => Err (schedulerIssue invalid_input path)
  end.

Definition rebindIr (input : value) (ir : InstructionIr) (path : jstring)
  : scheduled (list (jstring * input_field)) :=
  match object_of h input with
  | None => Err (schedulerIssue invalid_input path)
  | Some o =>
      _ ← ensure (negb (obj_proxy o) && negb (is_array o) && plain_prototype o)
                 (schedulerIssue invalid_input path);
      output ← rmapM (rebindField path ir) (obj_own o);
      _ ← ensure (existsb (fun f => jeqb f.1 #"ir") output) (schedulerIssue invalid_input (path ++ #".ir"));
      Ok output
  end.

Definition is_text (v : value) (s : jstring) : bool := is_string v s.

Definition exactNodeIds (v : value) (expected : list jstring) (path : jstring) : scheduled unit :=
  entries ← denseArray h v 1000000 path;
  ensure ((length entries =? length expected)%nat
          && forallb (fun p => is_text p.1 p.2) (zip entries expected)) (drift_issue path).

Definition is_integer (v : value) (n : Z) : bool := identical v (VInteger n).

Definition exactPosition (v : value) (expected : SourcePosition) (path : jstring) : scheduled unit :=
  position ← dataRecord h v POSITION_KEYS path;
  ensure (is_integer (own_value position #"byteOffset") (byteOffset expected)
          && is_integer (own_value position #"line") (line expected)
          && is_integer (own_value position #"utf16Column") (utf16Column expected)
          && is_integer (own_value position #"utf16Offset") (utf16Offset expected)) (drift_issue path).

Definition exactRange (v : value) (expected : SourceRange) (path : jstring) : scheduled unit :=
  range ← dataRecord h v RANGE_KEYS path;
  _ ← ensure (is_text (own_value range #"sourceId") (range_sourceId expected))
             (drift_issue (path ++ #".sourceId"));
  _ ← exactPosition (own_value range #"start") (range_start expected) (path ++ #".start");
  exactPosition (own_value range #"end") (range_end expected) (path ++ #".end").

Definition STATEMENTS_PATH : jstring := #"$.families.repository-drift.input.statements".

(** The statement, document and source an entry names. *)
Definition namedStatement (ir : InstructionIr) (entry : DataRecord) : option IrStatement :=
  match own_value entry #"statementId" with
  | VString s => last_by st_id (ir_statements ir) s
  | _ => None
  end.

Definition statementSource (ir : InstructionIr) (s : IrStatement) : option SourceDocument :=
  d ← last_by irdoc_id (ir_documents ir) (st_documentId s);
  last_by source_id (ir_sources ir) (irdoc_sourceId d).

Definition driftStatement (ir : InstructionIr) (seen : list jstring) (index : nat) (v : value)
  : scheduled RepositoryDriftStatementInput :=
  let path := indexed STATEMENTS_PATH index in
  entry ← dataRecord h v DRIFT_STATEMENT_KEYS path;
  match namedStatement ir entry with
  | None => Err (drift_issue (path ++ #".nodeIds"))
  | Some statement =>
      _ ← exactNodeIds (own_value entry #"nodeIds") (st_nodeIds statement) (path ++ #".nodeIds");
      _ ← exactRange (own_value entry #"range") (st_range statement) (path ++ #".range");
      match statementSource ir statement with
      | None => Err (drift_issue path)
      | Some source =>
          _ ← ensure (negb (existsb (jeqb (st_id statement)) seen)
                      && is_text (own_value entry #"documentId") (st_documentId statement)
                      && is_text (own_value entry #"path") (source_path source)
                      && is_text (own_value entry #"sourceDigest") (source_sha256 source)
                      && is_text (own_value entry #"text") (st_text statement)) (drift_issue path);
          Ok {| drift_dialect := own_value entry #"dialect"; drift_documentId := st_documentId statement;
                drift_nodeIds := st_nodeIds statement; drift_path := source_path source;
                drift_range := st_range statement; drift_sourceDigest := source_sha256 source;
                drift_statementId := st_id statement; drift_text := st_text statement |}
      end
  end.

Definition compareByStatement (left right : RepositoryDriftStatementInput) : comparison :=
  compareUtf8 (drift_statementId left) (drift_statementId right).

Definition snapshotDriftStatements (v : value) (ir : InstructionIr)
  : scheduled (list RepositoryDriftStatementInput) :=
  entries ← denseArray h v 100000 STATEMENTS_PATH;
  output ← foldM (fun output e =>
                    s ← driftStatement ir (map drift_statementId output) e.1 e.2;
                    Ok (output ++ [s])) [] (zip (seq 0 (length entries)) entries);
  _ ← ensure (length output =? length (ir_statements ir))%nat (drift_issue STATEMENTS_PATH);
  Ok (sorted_with compareByStatement output).

(** A request as the caller gave it. *)
Record RawRequest := { raw_familyId : RuleFamilyId; raw_input : value; raw_options : value }.

(** A non-null, non-proxy object, of any prototype. *)
Definition safe_object (v : value) : bool :=
  match object_of h v with Some o => negb (obj_proxy o) | None => false end.

Definition is_function (v : value) : bool := match v with VFunction => true | _ => false end.
Definition is_undefined (v : value) : bool := match v with VUndefined => true | _ => false end.

(** The enumerable data field [ir] of an input. *)
Definition inputIr (v : value) : option value :=
  match object_of h v with
  | Some o => enumerable_data (descriptor (obj_own o) #"ir")
  | None => None
  end.

Definition admitRequest (requests : list RawRequest) (index : nat) (v : value) : scheduled RawRequest :=
  let path := indexed #"$.families" index in
  request ← dataRecord h v REQUEST_KEYS path;
  match family_named (own_value request #"familyId") with
  | None => Err (schedulerIssue invalid_input (path ++ #".familyId"))
  | Some f =>
      let input := own_value request #"input" in
      let options := own_value request #"options" in
      _ ← ensure (negb (existsb (fun r => bool_decide (raw_familyId r = f)) requests))
                 (schedulerIssue invalid_input (path ++ #".familyId"));
      _ ← ensure (negb (is_function input || is_function options)) (schedulerIssue invalid_input path);
      _ ← ensure (is_undefined options || safe_object options)
                 (schedulerIssue invalid_input (path ++ #".options"));
      _ ← ensure (negb (bool_decide (f ∈ [syntax_structure; standards_freshness])) || is_undefined options)
                 (schedulerIssue invalid_input (path ++ #".options"));
      _ ← (if decide (f = repository_drift)
           then _ ← dataRecord h input DRIFT_INPUT_KEYS (path ++ #".input"); Ok tt
           else Ok tt);
      _ ← ensure (safe_object input) (schedulerIssue invalid_input (path ++ #".input"));
      _ ← ensure (bool_decide (f = repository_drift) || bool_decide (is_Some (inputIr input)))
                 (schedulerIssue invalid_input (path ++ #".input.ir"));
      Ok {| raw_familyId := f; raw_input := input; raw_options := options |}
  end.

Definition admitRequests (values : list value) : scheduled (list RawRequest) :=
  foldM (fun requests e => r ← admitRequest requests e.1 e.2; Ok (requests ++ [r])) []
        (zip (seq 0 (length values)) values).

Definition find_family (f : RuleFamilyId) (requests : list RawRequest) : option RawRequest :=
  find (fun r => bool_decide (raw_familyId r = f)) requests.

(** Every family that reads the IR reads the same object. *)
Definition sameIr (exactIr : value) (r : RawRequest) : scheduled unit :=
  if decide (raw_familyId r = repository_drift) then Ok tt
  else ensure (match inputIr (raw_input r) with Some v => identical v exactIr | None => false end)
              (familyIssue dependency_failure (familyPath (raw_familyId r) ++ #".input.ir") (raw_familyId r)).

Definition engineSnapshot (exactIr : value) : scheduled InstructionIr :=
  match issuedInstructionIrSnapshot exactIr with
  | Some ir => Ok ir
  | None =>
      match createInstructionIrSnapshot h exactIr with
      | Ok ir => Ok ir
      | Err limited =>
          Err (familyIssue (if limited then resource_limit else invalid_input)
                           #"$.families.syntax-structure.input.ir" syntax_structure)
      end
  end.

Definition bindRequest (ir : InstructionIr) (r : RawRequest) : res ReturnedIssue RuleFamilyRequest :=
  if decide (raw_familyId r = repository_drift) then
    record ← own (dataRecord h (raw_input r) DRIFT_INPUT_KEYS #"$.families.repository-drift.input");
    statements ← own (snapshotDriftStatements (own_value record #"statements") ir);
    Ok {| request_familyId := raw_familyId r;
          request_input := DriftInput (own_value record #"evidenceIndex") statements;
          request_options := raw_options r |}
  else
    rebound ← own (rebindIr (raw_input r) ir (familyPath (raw_familyId r) ++ #".input"));
    _ ← ensure (negb (isIssue rebound)) (Caller_record rebound);
    Ok {| request_familyId := raw_familyId r; request_input := ReboundInput rebound;
          request_options := raw_options r |}.

(** The policy, the raw requests and the snapshot: everything before the
    requests are bound to the snapshot. *)
Definition admitInput (raw : value) : scheduled (RuleSchedulerPolicy * list RawRequest * InstructionIr) :=
  record ← dataRecord h raw INPUT_KEYS #"$input";
  _ ← ensure (is_text (own_value record #"recordKind") RULE_SCHEDULER_RECORD_KIND
              && is_text (own_value record #"contractVersion") RULE_SCHEDULER_CONTRACT_VERSION)
             (schedulerIssue invalid_input #"$input");
  policy ← normalizePolicy h (own_value record #"policy");
  values ← denseArray h (own_value record #"families") 10 #"$.families";
  _ ← ensure (negb (length values =? 0)%nat) (schedulerIssue invalid_input #"$.families");
  rawRequests ← admitRequests values;
  match r ← find_family syntax_structure rawRequests; inputIr (raw_input r) with
  | None | Some VUndefined => Err (familyIssue dependency_failure #"$.families" syntax_structure)
  | Some exactIr =>
      _ ← foldM (fun _ r => sameIr exactIr r) tt rawRequests;
      ir ← engineSnapshot exactIr;
      Ok (policy, rawRequests, ir)
  end.

Definition normalizeInput (raw : value) : res ReturnedIssue NormalizedInput :=
  '(policy, rawRequests, ir) ← own (admitInput raw);
  requests ← rmapM (bindRequest ir) rawRequests;
  Ok {| input_policy := policy; input_requests := requests; input_snapshotIr := ir |}.
End input.

(** ** Evaluating a family *)

(** What an evaluator's result object holds, as [runFamily] reads it: whether
    [ok] is [false] or true, its bundle, its sources, and itself. *)
Record EvaluatorResult (Eval : Type) := {
  result_failed : bool; result_ok : bool; result_bundle : option DiagnosticBundle;
  result_sources : option (list SourceDocument); result_self : Eval
}.
Arguments result_failed {Eval} e.
Arguments result_ok {Eval} e.
Arguments result_bundle {Eval} e.
Arguments result_sources {Eval} e.
Arguments result_self {Eval} e.

(** The ten evaluators ([None] when one throws), and the finalizer of
    suppressions, which fails with [true] for a resource limit. *)
Class RuleEvaluators (Eval : Type) : Type := {
  evaluateFamily : RuleFamilyRequest -> option (EvaluatorResult Eval);
  finalizeScheduledSyntaxSuppressions : Eval -> list Diagnostic -> res bool DiagnosticBundle
}.

Record FamilyExecution (Eval : Type) := {
  exec_bundle : DiagnosticBundle;
  exec_diagnosticCount : N;
  exec_familyId : RuleFamilyId;
  exec_sources : option (list SourceDocument);
  exec_syntaxEvaluation : option (EvaluatorResult Eval)
}.
Arguments exec_bundle {Eval} f.
Arguments exec_diagnosticCount {Eval} f.
Arguments exec_familyId {Eval} f.
Arguments exec_sources {Eval} f.
Arguments exec_syntaxEvaluation {Eval} f.

Definition runFamily {Eval} `{RuleEvaluators Eval} (request : RuleFamilyRequest)
  : scheduled (FamilyExecution Eval) :=
  let f := request_familyId request in
  let failure := familyIssue family_failure (familyPath f) f in
  match evaluateFamily request with
  | None => Err failure
  | Some result =>
      _ ← ensure (negb (result_failed result)) failure;
      match result_bundle result with
      | None => Err failure
      | Some bundle =>
          Ok {| exec_bundle := bundle;
                exec_diagnosticCount := N.of_nat (length (bundle_diagnostics bundle));
                exec_familyId := f; exec_sources := result_sources result;
                exec_syntaxEvaluation := if decide (f = syntax_structure) then Some result else None |}
      end
  end.

(** ** The perturbation of completions *)

(** [Math.imul(a, b)], on 32-bit patterns: a signed 32-bit product *)
Definition imul (a b : Z) : Z :=
  let p := ((a * b) mod 2 ^ 32)%Z in if (p <? 2 ^ 31)%Z then p else (p - 2 ^ 32)%Z.

(** [x >>> 0] *)
Definition to_uint32 (x : Z) : Z := (x mod 2 ^ 32)%Z.

Definition perturbationState (state byte : Z) : Z :=
  to_uint32 (imul (Z.lxor state byte) 1664525 + 1013904223).

Definition perturbationTurns (f : RuleFamilyId) (seed : N) : N :=
  if (seed =? 0)%N then 0
  else
    let state := fold_left (fun s b => perturbationState s (Z.of_N b)) (utf8 (family_name f))
                           (to_uint32 (Z.of_N seed)) in
    Z.to_N (state mod 3 + 1).

(** ** The workers of a level *)

(** Moments number the points at which the process observes its signal and its
    clock; [now] is [performance.now()] in nanoseconds. *)
Record Environment := { aborted : loc -> nat -> bool; now : nat -> Z }.

Definition cancelled_at (env : Environment) (options : NormalizedOptions) (moment : nat) : bool :=
  match option_signal options with Some l => aborted env l moment | None => false end.

Definition expired_at (env : Environment) (options : NormalizedOptions) (startedAt : Z) (moment : nat) : bool :=
  (1000000 * Z.of_N (maximumDurationMs (option_limits options)) <? now env moment - startedAt)%Z.

(** A worker is at the head of its loop, has taken a family and waited for some
    turns of the event loop, or has returned. *)
Inductive Worker := AtLoop | Perturbing (f : RuleFamilyId) (turn : N) | Returned.

Record LevelState (Eval : Type) := {
  cursor : nat;
  results : list (scheduled (FamilyExecution Eval));
  workers : list Worker;
  moment : nat
}.
Arguments cursor {Eval} l.
Arguments results {Eval} l.
Arguments workers {Eval} l.
Arguments moment {Eval} l.

Section level.
Context {Eval : Type} (env : Environment) (options : NormalizedOptions) (startedAt : Z).
Context (prepared : list (FamilyExecution Eval)) (level : list RuleFamilyId).

(** [prepared.get(familyId)] *)
Definition preparedFamily (f : RuleFamilyId) : option (FamilyExecution Eval) :=
  find (fun e => bool_decide (exec_familyId e = f)) prepared.

Definition reported (f : RuleFamilyId) : scheduled (FamilyExecution Eval) :=
  match preparedFamily f with
  | Some execution => Ok execution
  | None => Err (familyIssue dependency_failure #"$.families" f)
  end.

Definition with_worker (st : LevelState Eval) (i : nat) (cursor' : nat)
    (results' : list (scheduled (FamilyExecution Eval))) (w : Worker) : LevelState Eval :=
  {| cursor := cursor'; results := results'; workers := <[i := w]> (workers st);
     moment := S (moment st) |}.

(** One synchronous stretch of worker [i]. *)
Definition stepWorker (st : LevelState Eval) (i : nat) : LevelState Eval :=
  match workers st !! i with
  | Some AtLoop =>
      match level !! cursor st with
      | None => with_worker st i (cursor st) (results st) Returned
      | Some f =>
          let w := if cancelled_at env options (moment st) || expired_at env options startedAt (moment st)
                   then Returned else Perturbing f 0 in
          with_worker st i (S (cursor st)) (results st) w
      end
  | Some (Perturbing f turn) =>
      if (turn <? perturbationTurns f (scheduleSeed (option_limits options)))%N then
        with_worker st i (cursor st) (results st)
          (if cancelled_at env options (moment st) then Returned else Perturbing f (turn + 1))
      else with_worker st i (cursor st) (results st ++ [reported f]) AtLoop
  | Some Returned | None => st
  end.

Definition levelStart (at_moment : nat) : LevelState Eval :=
  {| cursor := 0; results := [];
     workers := replicate (Nat.min (length level) (N.to_nat (maximumConcurrency (option_limits options))))
                          AtLoop;
     moment := at_moment |}.

(** The workers are resumed in the order of [picks]. *)
Definition runPicks (st : LevelState Eval) (picks : list nat) : LevelState Eval :=
  fold_left stepWorker picks st.

(** [Promise.all(workers)] is settled. *)
Definition settled (st : LevelState Eval) : bool :=
  forallb (fun w => match w with Returned => true | _ => false end) (workers st).
End level.

(** ** Composition *)

Definition schedulingCheckpoint (env : Environment) (options : NormalizedOptions) (startedAt : Z)
    (moment : nat) : scheduled unit :=
  _ ← ensure (negb (cancelled_at env options moment)) (schedulerIssue issue_cancelled #"$options.signal");
  ensure (negb (expired_at env options startedAt moment))
         (schedulerIssue deadline_exceeded #"$options.maximumDurationMs").

Definition same_source (first second : SourceDocument) : bool :=
  jeqb (source_bom first) (source_bom second)
  && (source_byteLength first =? source_byteLength second)%Z
  && jeqb (source_encoding first) (source_encoding second)
  && jeqb (source_id first) (source_id second)
  && jeqb (source_lineEnding first) (source_lineEnding second)
  && jeqb (source_path first) (source_path second)
  && jeqb (source_rootNodeId first) (source_rootNodeId second)
  && jeqb (source_sha256 first) (source_sha256 second)
  && jeqb (source_text first) (source_text second)
  && (source_utf16Length first =? source_utf16Length second)%Z
  && jeqb (canonicalJson (source_parseState first)) (canonicalJson (source_parseState second)).

Definition sameSourceRegistries (left right : list SourceDocument) : bool :=
  (length left =? length right)%nat && (length left <=? 1024)%nat
  && forallb (fun p => same_source p.1 p.2) (zip left right).

Definition belongsToFamily (f : RuleFamilyId) (d : Diagnostic) : bool :=
  existsb (jeqb (diag_ruleId d)) (family_ruleIds (RULE_FAMILY_DESCRIPTORS f)).

Record RuleSchedulerSummary := {
  active_error : N; active_info : N; active_warning : N; summary_diagnosticCount : N;
  summary_failureThreshold : RuleSchedulerFailureThreshold; shouldFail : bool; suppressedCount : N
}.

(** [active[severity] += 1] for every visible diagnostic *)
Definition activeCount (visible : list Diagnostic) (s : DiagnosticSeverity) : N :=
  N.of_nat (length (List.filter (fun d => bool_decide (diag_severity d = s)) visible)).

Definition suppressedFingerprints (b : DiagnosticBundle) : list jstring :=
  remove_dups (mjoin (map sup_matchedPathFingerprints
    (List.filter (fun s => bool_decide (sup_state s = suppressed)) (bundle_suppressions b)))).

Definition is_suppressed (b : DiagnosticBundle) (d : Diagnostic) : bool :=
  existsb (jeqb (fp_value (fingerprint_path d))) (suppressedFingerprints b).

Definition suppressedDiagnostics (b : DiagnosticBundle) : list Diagnostic :=
  List.filter (is_suppressed b) (bundle_diagnostics b).

Definition visibleDiagnostics (b : DiagnosticBundle) : list Diagnostic :=
  List.filter (fun d => negb (is_suppressed b d)) (bundle_diagnostics b).

Definition summaryOf (b : DiagnosticBundle) (threshold : RuleSchedulerFailureThreshold)
  : RuleSchedulerSummary :=
  let active := activeCount (visibleDiagnostics b) in
  {| active_error := active severity_error; active_info := active severity_info;
     active_warning := active severity_warning;
     summary_diagnosticCount := N.of_nat (length (bundle_diagnostics b));
     summary_failureThreshold := threshold;
     shouldFail := match threshold with
                   | threshold_warning => (0 <? active severity_error + active severity_warning)%N
                   | threshold_error => (0 <? active severity_error)%N
                   | threshold_never => false
                   end;
     suppressedCount := N.of_nat (length (suppressedFingerprints b)) |}.

Record RuleFamilySummary := {
  fam_diagnosticCount : N; fam_familyId : RuleFamilyId; fam_ticketId : jstring
}.

Record RuleSchedulerSuccess := {
  out_bundle : DiagnosticBundle;
  out_executionOrder : list RuleFamilyId;
  out_families : list RuleFamilySummary;
  out_limits : RuleSchedulerLimits;
  out_sources : list SourceDocument;
  out_summary : RuleSchedulerSummary;
  out_suppressedDiagnostics : list Diagnostic;
  out_visibleDiagnostics : list Diagnostic
}.

Section schedule.
Context `{Sha256} `{IrSnapshots} {Eval : Type} `{RuleEvaluators Eval}.
Context `{!DiagnosticValidator DiagnosticBundle}.
Context (h : heap) (env : Environment).

(** The state of the synchronous admission: the moment, the number of
    diagnostics admitted, and the prepared executions. *)
Record Admission := {
  adm_moment : nat; adm_count : N; adm_prepared : list (FamilyExecution Eval)
}.

Definition requestOf (input : NormalizedInput) (f : RuleFamilyId) : option RuleFamilyRequest :=
  find (fun r => bool_decide (request_familyId r = f)) (input_requests input).

Definition output_issue_of (path : jstring) (f : RuleFamilyId) : RuleSchedulerIssue :=
  familyIssue invalid_output path f.

Definition admitFamily (options : NormalizedOptions) (startedAt : Z) (input : NormalizedInput)
    (acc : Admission) (f : RuleFamilyId) : scheduled Admission :=
  _ ← schedulingCheckpoint env options startedAt (adm_moment acc);
  match requestOf input f with
  | None => Err (familyIssue dependency_failure #"$.families" f)
  | Some request =>
      execution ← runFamily request;
      let sources := ir_sources (input_snapshotIr input) in
      _ ← ensure (negb (bool_decide (f = syntax_structure))
                  || match exec_syntaxEvaluation execution with Some r => result_ok r | None => false end)
                 (familyIssue dependency_failure #"$.families.syntax-structure" f);
      _ ← ensure (match exec_sources execution with
                  | Some s => sameSourceRegistries s sources
                  | None => true
                  end) (output_issue_of #"$output.sources" f);
      _ ← ensure (bool_decide (is_Some (validateDiagnosticBundle (exec_bundle execution) sources)))
                 (output_issue_of #"$output.diagnostics" f);
      _ ← ensure (forallb (belongsToFamily f) (bundle_diagnostics (exec_bundle execution)))
                 (output_issue_of #"$output.diagnostics" f);
      let count := (adm_count acc + N.of_nat (length (bundle_diagnostics (exec_bundle execution))))%N in
      _ ← ensure (count <=? maximumDiagnostics (option_limits options))%N
                 (schedulerIssue resource_limit #"$output.diagnostics");
      Ok {| adm_moment := S (adm_moment acc); adm_count := count;
            adm_prepared := adm_prepared acc ++ [execution] |}
  end.

(** [executions.set(entry.familyId, entry)] *)
Fixpoint setExecution (e : FamilyExecution Eval) (l : list (FamilyExecution Eval))
  : list (FamilyExecution Eval) :=
  match l with
  | [] => [e]
  | x :: r => if decide (exec_familyId x = exec_familyId e) then e :: r else x :: setExecution e r
  end.

Definition issue_name (i : RuleSchedulerIssue) : jstring :=
  match issue_familyId i with Some f => family_name f | None => [] end.

Definition compareIssues (left right : RuleSchedulerIssue) : comparison :=
  compareUtf8 (issue_name left) (issue_name right).

Definition issuesOf {A} (l : list (scheduled A)) : list RuleSchedulerIssue :=
  omap (fun r => match r with Err i => Some i | Ok _ => None end) l.

Definition completedOf {A} (l : list (scheduled A)) : list A :=
  omap (fun r => match r with Ok a => Some a | Err _ => None end) l.

(** What follows the workers of one level: [results] is what they reported. *)
Definition closeLevel (options : NormalizedOptions) (startedAt : Z) (at_moment : nat)
    (completed : list (scheduled (FamilyExecution Eval))) (executions : list (FamilyExecution Eval))
  : scheduled (list (FamilyExecution Eval)) :=
  _ ← schedulingCheckpoint env options startedAt at_moment;
  match sorted_with compareIssues (issuesOf completed) with
  | failure :: _ => Err failure
  | [] => Ok (fold_left (fun l e => setExecution e l) (completedOf completed) executions)
  end.

(** The levels in turn, each with the order its workers are resumed in; [None]
    when an order ends before the workers have returned. *)
Fixpoint runLevels (options : NormalizedOptions) (startedAt : Z) (prepared : list (FamilyExecution Eval))
    (levels : list (list RuleFamilyId)) (picks : list (list nat)) (at_moment : nat)
    (executions : list (FamilyExecution Eval))
  : option (scheduled (nat * list (FamilyExecution Eval))) :=
  match levels with
  | [] => Some (Ok (at_moment, executions))
  | level :: levels' =>
      let order := match picks with p :: _ => p | [] => [] end in
      let st := runPicks env options startedAt prepared level (levelStart options level at_moment) order in
      if settled st then
        match closeLevel options startedAt (moment st) (results st) executions with
        | Err e => Some (Err e)
        | Ok executions' =>
            runLevels options startedAt prepared levels' (tail picks) (S (moment st)) executions'
        end
      else None
  end.

Definition compareExecutions (left right : FamilyExecution Eval) : comparison :=
  compareUtf8 (family_name (exec_familyId left)) (family_name (exec_familyId right)).

(** The diagnostics of the executions, with a checkpoint before each. *)
Definition collectDiagnostics (options : NormalizedOptions) (startedAt : Z) (at_moment : nat)
    (executions : list (FamilyExecution Eval)) : scheduled (nat * list Diagnostic) :=
  foldM (fun acc e =>
           _ ← schedulingCheckpoint env options startedAt acc.1;
           Ok (S acc.1, acc.2 ++ bundle_diagnostics (exec_bundle e)))
        (at_moment, []) (sorted_with compareExecutions executions).

Definition familySummary (e : FamilyExecution Eval) : RuleFamilySummary := {|
  fam_diagnosticCount := exec_diagnosticCount e; fam_familyId := exec_familyId e;
  fam_ticketId := ticketId (RULE_FAMILY_DESCRIPTORS (exec_familyId e))
|}.

(** Everything after the last level. *)
Definition finishSchedule (options : NormalizedOptions) (startedAt : Z) (input : NormalizedInput)
    (levels : list (list RuleFamilyId)) (prepared : list (FamilyExecution Eval)) (at_moment : nat)
    (executions : list (FamilyExecution Eval)) : scheduled RuleSchedulerSuccess :=
  match preparedFamily prepared syntax_structure with
  | Some {| exec_bundle := syntaxBundle; exec_syntaxEvaluation := Some evaluation |} =>
      let sources := ir_sources (input_snapshotIr input) in
      '(at_moment, diagnostics) ← collectDiagnostics options startedAt at_moment executions;
      let rawBundle := {| bundle_diagnostics := diagnostics;
                          bundle_suppressions := bundle_suppressions syntaxBundle |} in
      filtered ← policyFilteredBundle (raw_bundle rawBundle) sources (input_policy input);
      finalized ←
        match finalizeScheduledSyntaxSuppressions (result_self evaluation) (bundle_diagnostics filtered) with
        | Ok b => Ok b
        | Err limited =>
            Err (schedulerIssue (if (limited : bool) then resource_limit else dependency_failure)
                                #"$output.suppressions")
        end;
      _ ← ensure (N.of_nat (length (bundle_diagnostics finalized))
                  <=? maximumDiagnostics (option_limits options))%N
                 (schedulerIssue resource_limit #"$output.diagnostics");
      canonical ← canonicalizeRuleDiagnostics h (raw_bundle finalized) sources
                                              (policy_value (input_policy input));
      _ ← schedulingCheckpoint env options startedAt at_moment;
      Ok {| out_bundle := canonical; out_executionOrder := mjoin levels;
            out_families := map familySummary (sorted_with compareExecutions executions);
            out_limits := option_limits options; out_sources := sources;
            out_summary := summaryOf canonical (failureThreshold (input_policy input));
            out_suppressedDiagnostics := suppressedDiagnostics canonical;
            out_visibleDiagnostics := visibleDiagnostics canonical |}
  | _ => Err (familyIssue dependency_failure #"$.families.syntax-structure" syntax_structure)
  end.

(** What happens before the first [await]. *)
Definition admitSchedule (rawInput rawOptions : value)
  : res ReturnedIssue (NormalizedOptions * NormalizedInput * list (list RuleFamilyId) * Admission) :=
  let startedAt := now env 0 in
  options ← own (normalizeOptions h rawOptions);
  _ ← own (schedulingCheckpoint env options startedAt 1);
  input ← normalizeInput h rawInput;
  _ ← own (schedulingCheckpoint env options startedAt 2);
  let levels := topologicalLevels (map request_familyId (input_requests input)) in
  admission ← own (foldM (admitFamily options startedAt input)
                         {| adm_moment := 3; adm_count := 0; adm_prepared := [] |} (mjoin levels));
  Ok (options, input, levels, admission).

(** [scheduleRuleFamilies(rawInput, rawOptions)] when the workers are resumed in
    the order of [picks]; [None] while it has not settled. *)
Definition scheduleRuleFamilies (picks : list (list nat)) (rawInput rawOptions : value)
  : option (res ReturnedIssue RuleSchedulerSuccess) :=
  match admitSchedule rawInput rawOptions with
  | Err e => Some (Err e)
  | Ok (options, input, levels, admission) =>
      match runLevels options (now env 0) (adm_prepared admission) levels picks
                      (adm_moment admission) [] with
      | None => None
      | Some (Err e) => Some (Err (Own_issue e))
      | Some (Ok (at_moment, executions)) =>
          Some (own (finishSchedule options (now env 0) input levels (adm_prepared admission)
                                    at_moment executions))
      end
  end.
End schedule.
