(* ===== verification/RuleSchedulerLaws.v ===== *)
(** Theorems about the rule scheduler: the levels of the dependency graph, the
    workers of a level, and the independence of the result from the order in
    which workers are resumed, the seed, the concurrency and the clock. *)
From S2P Require Import Prelude JsString OrderedMap Unicode JsValue ImportDag ObjectGraph CanonicalDigest EffectiveContextCache RuleDiagnostics RuleDiagnosticsLaws RuleScheduler.

(** ** The levels *)

Section levels.
Context {F : Type} `{!EqDecision F} (dependencies : F -> list F) (le : F -> F -> bool).

(** Every dependency of a family occurs before its level. *)
Fixpoint respects (done_ : list F) (levels : list (list F)) : Prop :=
  match levels with
  | [] => True
  | level :: r =>
      Forall (fun f => Forall (fun d => d ∈ done_) (dependencies f)) level /\ respects (done_ ++ level) r
  end.

Lemma respects_snoc done_ levels level :
  respects done_ levels ->
  Forall (fun f => Forall (fun d => d ∈ done_ ++ mjoin levels) (dependencies f)) level ->
  respects done_ (levels ++ [level]).
Proof.
  revert done_. induction levels as [|l levels IH]; intros done_ Hr Hl; cbn in *.
  - split; [|done]. by rewrite app_nil_r in Hl.
  - destruct Hr as [Hl' Hr]. split; [done|]. apply IH; [done|].
    by rewrite <- app_assoc.
Qed.

Lemma elem_of_ready remaining completed f :
  f ∈ ready dependencies le remaining completed <->
  f ∈ remaining /\ Forall (fun d => d ∈ completed) (dependencies f).
Proof.
  unfold ready. rewrite elem_of_sort_by, list_elem_of_In, filter_In, <- list_elem_of_In, forallb_elem.
  setoid_rewrite bool_decide_eq_true. by rewrite Forall_forall.
Qed.

Lemma filter_split_perm (p : F -> bool) l :
  l ≡ₚ List.filter p l ++ List.filter (fun x => negb (p x)) l.
Proof.
  induction l as [|x l IH]; cbn; [done|]. destruct (p x); cbn.
  - by constructor.
  - by rewrite <- Permutation_middle, <- IH.
Qed.

Lemma NoDup_filter_list (p : F -> bool) l : NoDup l -> NoDup (List.filter p l).
Proof.
  intros Hnd. apply NoDup_ListNoDup. apply List.NoDup_filter. by apply NoDup_ListNoDup.
Qed.

(** A round splits the remaining families into the level and the rest. *)
Lemma without_ready remaining completed :
  NoDup remaining ->
  remaining ≡ₚ ready dependencies le remaining completed
               ++ without remaining (ready dependencies le remaining completed).
Proof.
  intros Hnd. rewrite (filter_split_perm (fun f => bool_decide (f ∈ ready dependencies le remaining completed)) remaining) at 1.
  apply Permutation_app; [|done]. apply NoDup_Permutation.
  - by apply NoDup_filter_list.
  - unfold ready. rewrite sort_by_perm. by apply NoDup_filter_list.
  - intros f. rewrite list_elem_of_In, filter_In, <- list_elem_of_In, bool_decide_eq_true, elem_of_ready.
    naive_solver.
Qed.

(** A set of families each of which waits for a family outside of those
    completed. *)
Definition blocked (completed remaining : list F) : Prop :=
  remaining <> [] /\ Forall (fun f => exists d, d ∈ dependencies f /\ d ∉ completed) remaining.

Lemma levelRounds_spec fuel remaining completed levels :
  NoDup remaining -> (length remaining <= fuel)%nat -> completed ≡ₚ mjoin levels -> respects [] levels ->
  let ls := levelRounds dependencies le fuel remaining completed levels in
  (mjoin ls ≡ₚ mjoin levels ++ remaining /\ respects [] ls) \/
  (ls = [] /\ exists done_ rest, done_ ++ rest ≡ₚ mjoin levels ++ remaining /\ blocked done_ rest).
Proof.
  revert remaining completed levels. induction fuel as [|fuel IH]; intros remaining completed levels Hnd Hf Hc Hr.
  - destruct remaining; [|cbn in Hf; lia]. left. cbn. by rewrite app_nil_r.
  - destruct remaining as [|f0 remaining0] eqn:Hrem; [left; cbn; by rewrite app_nil_r|].
    rewrite <- Hrem in *. assert (levelRounds dependencies le (S fuel) remaining completed levels =
      match ready dependencies le remaining completed with
      | [] => []
      | level => levelRounds dependencies le fuel (without remaining level) (completed ++ level) (levels ++ [level])
      end) as -> by (by rewrite Hrem).
    pose proof (without_ready remaining completed Hnd) as Hsplit.
    pose proof (elem_of_ready remaining completed) as Hready.
    destruct (ready dependencies le remaining completed) as [|x level] eqn:Hlevel.
    + right. split; [done|]. exists completed, remaining. split; [by rewrite Hc|]. split; [by rewrite Hrem|].
      apply Forall_forall. intros f Hin.
      assert (~ Forall (fun d => d ∈ completed) (dependencies f)) as Hno.
      { intros Hall. assert (f ∈ ([] : list F)) as Hn by (apply Hready; done). by apply not_elem_of_nil in Hn. }
      apply not_Forall_Exists in Hno; [|apply _]. apply Exists_exists in Hno as (d & ? & ?); eauto.
    + destruct (IH (without remaining (x :: level)) (completed ++ x :: level) (levels ++ [x :: level])) as [Hdone|Hblocked].
      * unfold without. by apply NoDup_filter_list.
      * apply Permutation_length in Hsplit. rewrite length_app in Hsplit. cbn in Hsplit. lia.
      * rewrite Hc, join_app. cbn. by rewrite app_nil_r.
      * apply respects_snoc; [done|]. apply Forall_forall. intros f Hin. apply Hready in Hin as [_ Hall].
        eapply Forall_impl; [exact Hall|]. intros d Hd. cbn. by rewrite <- Hc.
      * left. destruct Hdone as [Hp Hres]. split; [|done]. rewrite Hp, join_app. cbn.
        rewrite app_nil_r, <- app_assoc. by rewrite <- Hsplit.
      * right. destruct Hblocked as [Hnil (done_ & rest & Hp & Hb)]. split; [exact Hnil|]. exists done_, rest.
        split; [|done]. rewrite Hp, join_app. cbn. rewrite app_nil_r, <- app_assoc. by rewrite <- Hsplit.
Qed.
End levels.

(** Scheduling the levels of a dependency graph ends: either every requested
    family is in exactly one level, after all of its dependencies, or no order
    exists and there are no levels, because some requested families all wait
    for one another or for a family that was not requested. *)
Theorem levelsOf_complete {F} `{!EqDecision F} (dependencies : F -> list F) le (requests : list F) :
  NoDup requests ->
  let ls := levelsOf dependencies le requests in
  (mjoin ls ≡ₚ requests /\ respects dependencies [] ls) \/
  (ls = [] /\ exists done_ rest, done_ ++ rest ≡ₚ requests /\ blocked dependencies done_ rest).
Proof. intros Hnd. by apply (levelRounds_spec dependencies le _ requests [] []). Qed.

(** ** The workers of a level *)

(** Cancellation is final and the clock does not go back. *)
Definition steady (env : Environment) : Prop :=
  (forall l m m', (m <= m')%nat -> aborted env l m = true -> aborted env l m' = true) /\
  (forall m m', (m <= m')%nat -> (now env m <= now env m')%Z).

Definition flight (w : Worker) : list RuleFamilyId :=
  match w with Perturbing f _ => [f] | AtLoop | Returned => [] end.

(** The families taken by a worker and not reported yet. *)
Definition in_flight (ws : list Worker) : list RuleFamilyId := mjoin (map flight ws).
Arguments in_flight : simpl never.

Lemma in_flight_insert ws i w0 :
  ws !! i = Some w0 ->
  exists rest, in_flight ws ≡ₚ flight w0 ++ rest /\ forall w, in_flight (<[i := w]> ws) ≡ₚ flight w ++ rest.
Proof.
  intros Hi. exists (in_flight (take i ws) ++ in_flight (drop (S i) ws)).
  assert (forall w, in_flight (take i ws ++ w :: drop (S i) ws)
                    ≡ₚ flight w ++ in_flight (take i ws) ++ in_flight (drop (S i) ws)) as Hall.
  { intros w. unfold in_flight. rewrite map_app, join_app. cbn. by rewrite Permutation_app_swap_app. }
  split.
  - rewrite <- (Hall w0). by rewrite take_drop_middle.
  - intros w. rewrite <- (Hall w). rewrite insert_take_drop; [done|]. by eapply lookup_lt_Some.
Qed.

Section level.
Context {Eval : Type} (env : Environment) (options : NormalizedOptions) (startedAt : Z).
Context (prepared : list (FamilyExecution Eval)) (level : list RuleFamilyId).

Local Abbreviation step := (stepWorker env options startedAt prepared level).
Local Abbreviation run := (runPicks env options startedAt prepared level).

(** Cancellation or expiry was there to be observed before [m]. *)
Definition stopped (m : nat) : Prop :=
  exists m', (m' < m)%nat /\
    (cancelled_at env options m' = true \/ expired_at env options startedAt m' = true).

Lemma stopped_le m m' : (m <= m')%nat -> stopped m -> stopped m'.
Proof. intros Hle (m0 & Hlt & H). exists m0. split; [lia|done]. Qed.

(** A passed checkpoint shows that nothing was to be observed before. *)
Lemma checkpoint_not_stopped m :
  steady env -> schedulingCheckpoint env options startedAt m = Ok tt -> ~ stopped m.
Proof.
  intros [Hsticky Hclock] Hcheck (m' & Hlt & Hobs). unfold schedulingCheckpoint in Hcheck.
  apply bind_ensure in Hcheck as [Hc He]. apply ensure_Ok in He.
  apply negb_true_iff in Hc, He. destruct Hobs as [Ho|Ho].
  - unfold cancelled_at in *. destruct (option_signal options) as [l|]; [|done].
    rewrite (Hsticky l m' m) in Hc; [done|lia|done].
  - unfold expired_at in *. apply Z.ltb_lt in Ho. apply Z.ltb_ge in He.
    specialize (Hclock m' m). lia.
Qed.

(** Every family of the level is reported, in the hands of a worker, or still
    to be taken, unless the workers were told to stop. *)
Definition level_inv (st : LevelState Eval) : Prop :=
  stopped (moment st) \/
  (results st ++ map (reported prepared) (in_flight (workers st) ++ drop (cursor st) level)
     ≡ₚ map (reported prepared) level /\
   (Returned ∈ workers st -> (length level <= cursor st)%nat)).

Lemma elem_of_insert_other {A} (l : list A) i x y : x ∈ <[i := y]> l -> x = y \/ x ∈ l.
Proof.
  intros [j Hj]%list_elem_of_lookup. destruct (decide (i = j)) as [->|Hne].
  - apply list_lookup_insert_Some in Hj. destruct Hj as [(_ & -> & _)|(Hne & _)]; [by left|done].
  - rewrite list_lookup_insert_ne in Hj by done. right. by eapply list_elem_of_lookup_2.
Qed.

Lemma step_inv st i : level_inv st -> level_inv (step st i).
Proof.
  intros [Hstop|[Hp Hret]].
  { left. eapply stopped_le; [|exact Hstop]. unfold stepWorker.
    repeat case_match; cbn; lia. }
  unfold stepWorker. destruct (workers st !! i) as [w|] eqn:Hi; [|right; by split].
  destruct (in_flight_insert _ _ _ Hi) as (rest & Hrest & Hins).
  rewrite Hrest in Hp. destruct w as [|f turn|]; [..|right; split; [by rewrite Hrest|done]].
  - destruct (level !! cursor st) as [f|] eqn:Hf.
    + destruct (cancelled_at env options (moment st) || _) eqn:Hobs.
      { left. exists (moment st). split; [cbn; lia|]. by apply orb_true_iff in Hobs. }
      right. cbn. rewrite Hins. split.
      * rewrite <- Hp, (drop_S _ _ _ Hf). apply Permutation_app_head, Permutation_map.
        cbn. by rewrite <- Permutation_middle.
      * intros [[=]|Hin]%elem_of_insert_other. apply Hret in Hin. apply lookup_lt_Some in Hf. lia.
    + right. cbn. rewrite Hins. split; [done|]. intros _. by apply lookup_ge_None in Hf.
  - destruct (_ <? _)%N.
    + destruct (cancelled_at env options (moment st)) eqn:Hobs.
      { left. exists (moment st). split; [cbn; lia|]. by left. }
      right. cbn. rewrite Hins. split; [done|]. intros [[=]|Hin]%elem_of_insert_other. auto.
    + right. cbn. rewrite Hins. split.
      * rewrite <- Hp. cbn. by rewrite <- app_assoc.
      * intros [[=]|Hin]%elem_of_insert_other. auto.
Qed.

Lemma run_inv picks st : level_inv st -> level_inv (run st picks).
Proof. revert st. induction picks as [|i picks IH]; intros st Hst; [done|]. cbn. by apply IH, step_inv. Qed.

Lemma in_flight_replicate n : in_flight (replicate n AtLoop) = [].
Proof. induction n; cbn; [done|]. done. Qed.

Lemma levelStart_inv m : level_inv (levelStart options level m).
Proof.
  right. cbn. rewrite in_flight_replicate. split; [done|].
  intros Hin. apply elem_of_replicate in Hin as [[=] _].
Qed.

Lemma step_workers st i : length (workers (step st i)) = length (workers st).
Proof. unfold stepWorker. repeat case_match; cbn; by rewrite ?length_insert. Qed.

Lemma run_workers picks st : length (workers (run st picks)) = length (workers st).
Proof.
  revert st. induction picks as [|i picks IH]; intros st; [done|].
  etransitivity; [apply IH|apply step_workers].
Qed.

Lemma step_moment st i : (moment st <= moment (step st i))%nat.
Proof. unfold stepWorker. repeat case_match; cbn; lia. Qed.

Lemma in_flight_settled (st : LevelState Eval) : settled st = true -> in_flight (workers st) = [].
Proof.
  unfold settled. intros Hs. unfold in_flight. induction (workers st) as [|w ws IH]; [done|].
  cbn in *. apply andb_true_iff in Hs as [Hw Hs]. destruct w; [done..|]. by apply IH.
Qed.

(** A settled level whose closing checkpoint passes has reported every family
    once. *)
Lemma level_reports picks m :
  steady env -> (1 <= maximumConcurrency (option_limits options))%N ->
  let st := run (levelStart options level m) picks in
  settled st = true -> schedulingCheckpoint env options startedAt (moment st) = Ok tt ->
  results st ≡ₚ map (reported prepared) level.
Proof.
  intros Hsteady Hmax st Hset Hcheck.
  destruct (run_inv picks _ (levelStart_inv m)) as [Hstop|[Hp Hret]].
  { by apply checkpoint_not_stopped in Hstop. }
  fold st in Hp, Hret. rewrite (in_flight_settled st Hset) in Hp. cbn [app] in Hp.
  assert (length level <= cursor st)%nat as Hge.
  { destruct (decide (length level = 0)%nat) as [Hl|Hl]; [lia|]. apply Hret.
    assert (length (workers st) <> 0)%nat as Hlen.
    { unfold st. rewrite run_workers. cbn [levelStart workers]. rewrite length_replicate. lia. }
    unfold settled in Hset. destruct (workers st) as [|w ws]; [done|].
    cbn in Hset. apply andb_true_iff in Hset as [Hw _]. destruct w; [done..|]. left. }
  rewrite (drop_ge level (cursor st) Hge) in Hp. cbn [map] in Hp. by rewrite app_nil_r in Hp.
Qed.
End level.

(** ** A level settles *)

Lemma perturbationTurns_le f seed : (perturbationTurns f seed <= 3)%N.
Proof.
  unfold perturbationTurns. destruct (_ =? _)%N; [lia|].
  set (x := fold_left _ _ _). pose proof (Z.mod_pos_bound x 3). lia.
Qed.

(** The steps a worker has left with what it holds. *)
Definition work (seed : N) (w : Worker) : nat :=
  match w with
  | AtLoop => 1
  | Perturbing f turn => N.to_nat (perturbationTurns f seed - turn) + 2
  | Returned => 0
  end.

Definition works (seed : N) (ws : list Worker) : nat := sum_list_with (work seed) ws.
Arguments works : simpl never.

Lemma works_insert seed ws i w0 w :
  ws !! i = Some w0 -> (works seed (<[i := w]> ws) + work seed w0 = works seed ws + work seed w)%nat.
Proof.
  unfold works. revert i. induction ws as [|v ws IH]; intros [|i] Hi; cbn in *; simplify_eq; [lia|].
  rewrite <- !Nat.add_assoc. f_equal. by apply IH.
Qed.

Section settles.
Context {Eval : Type} (env : Environment) (options : NormalizedOptions) (startedAt : Z).
Context (prepared : list (FamilyExecution Eval)) (level : list RuleFamilyId).

Local Abbreviation step := (stepWorker env options startedAt prepared level).
Local Abbreviation run := (runPicks env options startedAt prepared level).
Local Abbreviation seed := (scheduleSeed (option_limits options)).

Definition measure (st : LevelState Eval) : nat :=
  6 * (length level - cursor st) + works seed (workers st).

(** Resuming a worker that has not returned makes progress; resuming another
    one changes nothing. *)
Lemma step_measure st i :
  match workers st !! i with
  | Some Returned | None => step st i = st
  | Some _ => (measure (step st i) < measure st)%nat
  end.
Proof.
  unfold stepWorker, measure. destruct (workers st !! i) as [w|] eqn:Hi; [|done].
  pose proof (fun w' => works_insert seed _ _ _ w' Hi) as Hw. destruct w as [|f turn|]; [..|done].
  - destruct (level !! cursor st) as [f|] eqn:Hf.
    + apply lookup_lt_Some in Hf. pose proof (perturbationTurns_le f seed). cbn.
      match goal with |- context [<[i := ?w]> _] => specialize (Hw w) end.
      cbn in Hw. destruct (_ || _); cbn in *; lia.
    + specialize (Hw Returned). cbn in *. lia.
  - destruct (_ <? _)%N eqn:Ht; cbn.
    + apply N.ltb_lt in Ht.
      match goal with |- context [<[i := ?w]> _] => specialize (Hw w) end.
      cbn in Hw. destruct (cancelled_at _ _ _); cbn in *; lia.
    + specialize (Hw AtLoop). cbn in *. lia.
Qed.

Lemma run_measure picks st : (measure (run st picks) <= measure st)%nat.
Proof.
  revert st. induction picks as [|i picks IH]; intros st; [cbn; lia|].
  transitivity (measure (step st i)); [apply IH|].
  pose proof (step_measure st i) as Hstep. repeat case_match; rewrite ?Hstep; lia.
Qed.

(** A worker that has not returned stays so until it is resumed. *)
Lemma run_progress picks st i w :
  i ∈ picks -> workers st !! i = Some w -> w <> Returned -> (measure (run st picks) < measure st)%nat.
Proof.
  revert st. induction picks as [|j picks IH]; intros st Hin Hi Hw; [by apply not_elem_of_nil in Hin|].
  pose proof (step_measure st j) as Hstep. pose proof (run_measure picks (step st j)) as Hrest.
  change (run st (j :: picks)) with (run (step st j) picks).
  destruct (workers st !! j) as [wj|] eqn:Hj; [destruct wj|].
  1,2: lia.
  all: rewrite Hstep in *; apply elem_of_cons in Hin as [->|Hin]; [congruence|by apply IH].
Qed.

(** A round resumes every worker once, or more often. *)
Definition fair_round (n : nat) (round : list nat) : Prop := forall i, (i < n)%nat -> i ∈ round.

Lemma unsettled (st : LevelState Eval) :
  settled st = false -> exists i w, workers st !! i = Some w /\ w <> Returned.
Proof.
  unfold settled. induction (workers st) as [|w ws IH]; [done|]. cbn. intros [Hw|Hs]%andb_false_iff.
  - exists 0%nat, w. split; [done|]. by intros ->.
  - destruct (IH Hs) as (i & w' & Hi & Hw'). by exists (S i), w'.
Qed.

Lemma settled_step (st : LevelState Eval) i : settled st = true -> step st i = st.
Proof.
  intros Hs. pose proof (step_measure st i) as Hstep.
  destruct (workers st !! i) as [w|] eqn:Hi; [|done]. unfold settled in Hs. rewrite forallb_elem in Hs.
  specialize (Hs w). destruct w; [..|done]; discriminate Hs; by eapply list_elem_of_lookup_2.
Qed.

Lemma settled_run picks (st : LevelState Eval) : settled st = true -> run st picks = st.
Proof.
  intros Hs. induction picks as [|i picks IH]; [done|].
  change (run (step st i) picks = st). by rewrite settled_step.
Qed.

Lemma rounds_settle rounds st :
  Forall (fair_round (length (workers st))) rounds -> (measure st <= length rounds)%nat ->
  settled (run st (mjoin rounds)) = true.
Proof.
  revert st. induction rounds as [|round rounds IH]; intros st Hfair Hm.
  - destruct (settled st) eqn:Hs; [done|]. exfalso. apply unsettled in Hs as (i & w & Hi & Hw).
    pose proof (works_insert seed _ _ _ Returned Hi) as Hwork. unfold measure in Hm. cbn in Hm, Hwork.
    destruct w; [cbn in *; lia..|done].
  - destruct (settled st) eqn:Hs; [by rewrite settled_run|].
    apply Forall_cons in Hfair as [Hround Hfair]. cbn [mjoin list_join].
    unfold runPicks. rewrite fold_left_app. change (settled (run (run st round) (mjoin rounds)) = true).
    apply IH; [by rewrite run_workers|]. apply unsettled in Hs as (i & w & Hi & Hw).
    assert (measure (run st round) < measure st)%nat; [|cbn [length] in Hm; lia].
    eapply run_progress; [|done..]. apply Hround. by eapply lookup_lt_Some.
Qed.

Lemma works_replicate n w : works seed (replicate n w) = (n * work seed w)%nat.
Proof. unfold works. induction n as [|n IH]; cbn; [done|]. by rewrite IH. Qed.

(** Seven rounds for every family are enough. *)
Lemma level_settles rounds m :
  Forall (fair_round (length level)) rounds -> (7 * length level <= length rounds)%nat ->
  settled (run (levelStart options level m) (mjoin rounds)) = true.
Proof.
  intros Hfair Hlen. apply rounds_settle.
  - eapply Forall_impl; [exact Hfair|]. intros round Hround i Hi. apply Hround.
    cbn [levelStart workers] in Hi. rewrite length_replicate in Hi. lia.
  - unfold measure. cbn [levelStart workers cursor]. rewrite works_replicate. cbn [work]. lia.
Qed.
End settles.

(** ** The levels of a run *)

Lemma family_name_inj f g : compareUtf8 (family_name f) (family_name g) = Eq -> f = g.
Proof. destruct f, g; vm_compute; congruence. Qed.

Section runs.
Context {Eval : Type} (env : Environment) (options : NormalizedOptions) (startedAt : Z).
Context (prepared : list (FamilyExecution Eval)).

Lemma preparedFamily_id f e : preparedFamily prepared f = Some e -> exec_familyId e = f.
Proof. unfold preparedFamily. intros H. apply find_some in H as [_ H]. by apply bool_decide_eq_true in H. Qed.

Lemma setExecution_new (e : FamilyExecution Eval) l :
  exec_familyId e ∉ map exec_familyId l -> setExecution e l = l ++ [e].
Proof.
  induction l as [|x l IH]; cbn; [done|]. intros [Hne Hin]%not_elem_of_cons.
  rewrite decide_False by done. by rewrite IH.
Qed.

Lemma setExecutions_new es (l : list (FamilyExecution Eval)) :
  NoDup (map exec_familyId (l ++ es)) -> fold_left (fun l e => setExecution e l) es l = l ++ es.
Proof.
  revert l. induction es as [|e es IH]; intros l Hnd; cbn; [by rewrite app_nil_r|].
  rewrite setExecution_new.
  - rewrite IH; rewrite <- app_assoc; done.
  - rewrite map_app, NoDup_app in Hnd. destruct Hnd as (_ & Hnd & _). intros Hin. apply (Hnd _ Hin). left.
Qed.

(** A level that reports no failure reports its prepared executions. *)
Lemma reported_Ok level :
  issuesOf (map (reported prepared) level) = [] ->
  Forall2 (fun f e => preparedFamily prepared f = Some e) level (completedOf (map (reported prepared) level)).
Proof.
  induction level as [|f level IH]; cbn; [constructor|]. unfold reported.
  destruct (preparedFamily prepared f) as [e|] eqn:He; [|done]. intros Hi. constructor; [done|]. by apply IH.
Qed.

Lemma completed_ids level es :
  Forall2 (fun f e => preparedFamily prepared f = Some e) level es -> map exec_familyId es = level.
Proof. induction 1 as [|f e level es He _ IH]; [done|]. cbn. by rewrite IH, (preparedFamily_id _ _ He). Qed.

Lemma closeLevel_spec at_moment level completed executions executions' :
  completed ≡ₚ map (reported prepared) level ->
  NoDup (map exec_familyId executions ++ level) ->
  closeLevel env options startedAt at_moment completed executions = Ok executions' ->
  exists es, Forall2 (fun f e => preparedFamily prepared f = Some e) level es /\
             executions' ≡ₚ executions ++ es.
Proof.
  intros Hp Hnd Hc. unfold closeLevel in Hc. apply bind_Ok in Hc as (_ & _ & Hc).
  destruct (sorted_with compareIssues (issuesOf completed)) as [|i r] eqn:Hs; [|done]. injection Hc as <-.
  assert (issuesOf (map (reported prepared) level) = []) as Hnone.
  { apply Permutation_nil_r. rewrite <- Hs. unfold sorted_with. rewrite sort_by_perm.
    unfold issuesOf. by rewrite Hp. }
  apply reported_Ok in Hnone as Hes. exists (completedOf (map (reported prepared) level)). split; [done|].
  assert (completedOf completed ≡ₚ completedOf (map (reported prepared) level)) as Hcp
    by (unfold completedOf; by rewrite Hp).
  rewrite setExecutions_new; [by rewrite Hcp|].
  rewrite map_app, Hcp, (completed_ids _ _ Hes). done.
Qed.

Lemma closeLevel_checkpoint at_moment completed (executions executions' : list (FamilyExecution Eval)) :
  closeLevel env options startedAt at_moment completed executions = Ok executions' ->
  schedulingCheckpoint env options startedAt at_moment = Ok tt.
Proof. unfold closeLevel. intros Hc. apply bind_Ok in Hc as ([] & Hc & _). done. Qed.

(** A run of levels that succeeds has executed every family once. *)
Lemma runLevels_spec levels picks m executions m' executions' :
  steady env -> (1 <= maximumConcurrency (option_limits options))%N ->
  NoDup (map exec_familyId executions ++ mjoin levels) ->
  runLevels env options startedAt prepared levels picks m executions = Some (Ok (m', executions')) ->
  exists es, Forall2 (fun f e => preparedFamily prepared f = Some e) (mjoin levels) es /\
             executions' ≡ₚ executions ++ es.
Proof.
  intros Hsteady Hmax. revert picks m executions.
  induction levels as [|level levels IH]; intros picks m executions Hnd Hrun; cbn [runLevels] in Hrun.
  { injection Hrun as <- <-. exists []. split; [constructor|]. by rewrite app_nil_r. }
  set (st := runPicks env options startedAt prepared level _ _) in Hrun.
  destruct (settled st) eqn:Hset; [|done].
  destruct (closeLevel _ _ _ _ _ _) as [executions1|i] eqn:Hclose; [|done].
  pose proof (closeLevel_checkpoint _ _ _ _ Hclose) as Hcheck. cbn [mjoin list_join] in Hnd |- *.
  apply closeLevel_spec with (level := level) in Hclose as (es & Hes & Hp1).
  - apply IH in Hrun as (es' & Hes' & Hp').
    + exists (es ++ es'). split; [by apply Forall2_app|]. by rewrite Hp', Hp1, <- app_assoc.
    + rewrite Hp1, map_app, (completed_ids _ _ Hes), <- app_assoc. done.
  - by apply level_reports in Hcheck.
  - rewrite app_assoc in Hnd. by apply NoDup_app in Hnd as (Hnd & _ & _).
Qed.

(** Fair orders settle every level. *)
Definition fair_picks (n : nat) (picks : list nat) : Prop :=
  exists rounds, picks = mjoin rounds /\ Forall (fair_round n) rounds /\ (7 * n <= length rounds)%nat.

Lemma fair_picks_le n n' picks : (n' <= n)%nat -> fair_picks n picks -> fair_picks n' picks.
Proof.
  intros Hle (rounds & -> & Hfair & Hlen). exists rounds. split; [done|]. split; [|lia].
  eapply Forall_impl; [exact Hfair|]. intros round Hround i Hi. apply Hround. lia.
Qed.

Lemma runLevels_settles levels picks m executions n :
  Forall (fun level => length level <= n)%nat levels ->
  (length levels <= length picks)%nat -> Forall (fair_picks n) picks ->
  is_Some (runLevels env options startedAt prepared levels picks m executions).
Proof.
  revert picks m executions. induction levels as [|level levels IH]; intros picks m executions Hn Hlen Hfair.
  { done. }
  destruct picks as [|p picks]; [cbn in Hlen; lia|]. cbn [runLevels tail].
  apply Forall_cons in Hn as [Hlevel Hn], Hfair as [Hp Hfair].
  destruct (fair_picks_le n (length level) p Hlevel Hp) as (rounds & -> & Hrounds & Hmany).
  rewrite level_settles by done. destruct (closeLevel _ _ _ _ _ _); [|done].
  apply IH; [done|cbn in Hlen; lia|done].
Qed.
End runs.

(** ** Options and input *)

Lemma selectedLimit_minimum record key minimum maximum default n :
  (minimum <= default)%N -> selectedLimit record key minimum maximum default = Ok n -> (minimum <= n)%N.
Proof.
  unfold selectedLimit. intros Hd Hs. destruct (descriptor record key); [|by injection Hs as <-].
  destruct (own_value record key) as [| | |x| | | | | |]; try done.
  destruct x; try done; apply bind_ensure in Hs as [Hn Hs]; injection Hs as <-; bool_prop; [|lia].
  lia.
Qed.

Lemma normalizeOptions_concurrency h raw options :
  normalizeOptions h raw = Ok options -> (1 <= maximumConcurrency (option_limits options))%N.
Proof.
  unfold normalizeOptions. intros Hn. destruct raw; [injection Hn as <-; cbn; lia|..].
  all: destruct (object_of h _) as [o|]; [|done]; apply bind_ensure in Hn as [_ Hn].
  all: apply bind_Ok in Hn as (concurrency & Hc & Hn); apply bind_Ok in Hn as (diagnostics & _ & Hn).
  all: apply bind_Ok in Hn as (duration & _ & Hn); apply bind_Ok in Hn as (seed & _ & Hn).
  all: apply selectedLimit_minimum in Hc; [|cbn; lia].
  all: destruct (own_value _ _); try (injection Hn as <-; done).
  all: destruct (native_signal _ _); [injection Hn as <-; done|done].
Qed.

Lemma own_Ok {A} (r : scheduled A) a : own r = Ok a <-> r = Ok a.
Proof. destruct r; split; intros [=]; by subst. Qed.

Section input.
Context (h : heap) `{IrSnapshots}.

Lemma admitRequests_distinct values requests :
  admitRequests h values = Ok requests -> NoDup (map raw_familyId requests).
Proof.
  unfold admitRequests. intros Hf. refine (foldM_inv (fun _ l => NoDup (map raw_familyId l)) _ _ _ _ Hf _ _).
  { constructor. }
  intros done_ [index v] l l' Hnd _ Hstep. apply bind_Ok in Hstep as (r & Hr & Hstep). injection Hstep as <-.
  rewrite map_app. apply NoDup_app. split; [done|]. split; [|by apply NoDup_singleton].
  intros f Hin ->%list_elem_of_singleton. unfold admitRequest in Hr.
  apply bind_Ok in Hr as (record & _ & Hr). destruct (family_named _) as [f|]; [|done].
  apply bind_ensure in Hr as [Hnew Hr]. apply negb_true_iff in Hnew.
  apply bind_ensure in Hr as [_ Hr]. apply bind_ensure in Hr as [_ Hr]. apply bind_ensure in Hr as [_ Hr].
  apply bind_Ok in Hr as (_ & _ & Hr). apply bind_ensure in Hr as [_ Hr]. apply bind_ensure in Hr as [_ Hr].
  injection Hr as <-. cbn in Hin. apply list_elem_of_fmap in Hin as (r & Hr & Hin).
  assert (existsb (fun r => bool_decide (raw_familyId r = f)) l = true) as Htrue; [|congruence].
  apply existsb_elem. exists r. split; [done|]. by apply bool_decide_eq_true.
Qed.

Lemma bindRequest_family ir r request :
  bindRequest h ir r = Ok request -> request_familyId request = raw_familyId r.
Proof.
  unfold bindRequest. destruct (decide _); intros Hb; res_inv; by subst.
Qed.

Lemma admitInput_requests raw policy requests ir :
  admitInput h raw = Ok (policy, requests, ir) ->
  NoDup (map raw_familyId requests) /\ syntax_structure ∈ map raw_familyId requests.
Proof.
  unfold admitInput. intros Hn. apply bind_Ok in Hn as (record & _ & Hn).
  apply bind_ensure in Hn as [_ Hn]. apply bind_Ok in Hn as (policy' & _ & Hn).
  apply bind_Ok in Hn as (values & _ & Hn). apply bind_ensure in Hn as [_ Hn].
  apply bind_Ok in Hn as (requests' & Hrequests & Hn).
  destruct (find_family syntax_structure requests') as [r|] eqn:Hfind; [|done].
  cbn [mbind option_bind] in Hn.
  assert (requests' = requests) as ->.
  { destruct (inputIr h (raw_input r)) as [[]|]; try done;
      (apply bind_Ok in Hn as (_ & _ & Hn); apply bind_Ok in Hn as (ir' & _ & Hn); by injection Hn). }
  split; [by eapply admitRequests_distinct|]. unfold find_family in Hfind.
  apply find_some in Hfind as [Hin Hf]. apply bool_decide_eq_true in Hf. rewrite <- Hf.
  by apply list_elem_of_fmap_2, list_elem_of_In.
Qed.

(** Every family is requested at most once, the syntax family always. *)
Lemma normalizeInput_requests raw input :
  normalizeInput h raw = Ok input ->
  NoDup (map request_familyId (input_requests input)) /\
  syntax_structure ∈ map request_familyId (input_requests input).
Proof.
  unfold normalizeInput. intros Hn. apply bind_Ok in Hn as ([[policy requests] ir] & Ha & Hn).
  apply own_Ok, admitInput_requests in Ha. apply bind_Ok in Hn as (bound & Hbound & Hn). injection Hn as <-.
  cbn [input_requests]. assert (map request_familyId bound = map raw_familyId requests) as ->; [|done].
  apply rmapM_Ok in Hbound. clear -Hbound. induction Hbound as [|x y l l' Hb _ IH]; [done|].
  cbn. by rewrite IH, (bindRequest_family _ _ _ Hb).
Qed.
End input.

(** ** The built-in graph *)

Lemma families_bounded (l : list RuleFamilyId) : NoDup l -> (length l <= 10)%nat.
Proof.
  intros Hnd. change 10%nat with (length RULE_FAMILY_IDS). apply submseteq_length, NoDup_submseteq; [done|].
  intros f _. unfold RULE_FAMILY_IDS. destruct f; set_solver.
Qed.

(** With the syntax family among the requests, no request is blocked. *)
Lemma topologicalLevels_all requests :
  NoDup requests -> syntax_structure ∈ requests ->
  mjoin (topologicalLevels requests) ≡ₚ requests /\
  respects (fun f => dependencies_ (RULE_FAMILY_DESCRIPTORS f)) [] (topologicalLevels requests).
Proof.
  intros Hnd Hsyntax.
  destruct (levelRounds_spec (fun f => dependencies_ (RULE_FAMILY_DESCRIPTORS f)) family_le
              (length requests) requests [] []) as [Hall|[_ (done_ & rest & Hp & Hne & Hblocked)]]; try done.
  exfalso. destruct rest as [|f rest]; [done|]. cbn in Hp.
  assert (forall g, g ∈ f :: rest -> g <> syntax_structure /\ syntax_structure ∉ done_) as Hall.
  { intros g Hg. rewrite Forall_forall in Hblocked. destruct (Hblocked g Hg) as (d & Hd & Hdone).
    destruct g; cbn in Hd; try (apply list_elem_of_singleton in Hd as ->; done). by apply not_elem_of_nil in Hd. }
  rewrite <- Hp in Hsyntax. apply elem_of_app in Hsyntax as [Hs|Hs].
  - by apply (Hall f); [left|].
  - by destruct (Hall _ Hs).
Qed.

Lemma levelRounds_nonempty {F} `{!EqDecision F} (dependencies : F -> list F) le fuel remaining completed levels :
  Forall (fun l => l <> []) levels ->
  Forall (fun l => l <> []) (levelRounds dependencies le fuel remaining completed levels).
Proof.
  revert remaining completed levels.
  induction fuel as [|fuel IH]; intros remaining completed levels Hl; destruct remaining; cbn; try done.
  case_match; [constructor|]. apply IH, Forall_app. by repeat constructor.
Qed.

Lemma nonempty_length {A} (l : list (list A)) :
  Forall (fun x => x <> []) l -> (length l <= length (mjoin l))%nat.
Proof.
  induction 1 as [|x l Hx _ IH]; [cbn; lia|]. rewrite mjoin_cons, length_app. destruct x; [done|]. cbn [length]. lia.
Qed.

(** ** Admission *)

Section schedule.
Context `{Sha256} `{IrSnapshots} {Eval : Type} `{RuleEvaluators Eval}.
Context `{!DiagnosticValidator DiagnosticBundle}.

(** The evaluator of [f] gives [e] for its request. *)
Definition evaluates (input : NormalizedInput) (f : RuleFamilyId) (e : FamilyExecution Eval) : Prop :=
  exists request, requestOf input f = Some request /\ runFamily request = Ok e.

Lemma evaluates_functional input f e e' : evaluates input f e -> evaluates input f e' -> e = e'.
Proof. intros (r & Hr & He) (r' & Hr' & He'). congruence. Qed.

Lemma evaluates_family input f e : evaluates input f e -> exec_familyId e = f.
Proof.
  intros (r & Hr & He). unfold requestOf in Hr. apply find_some in Hr as [_ Hr].
  apply bool_decide_eq_true in Hr. unfold runFamily in He. destruct (evaluateFamily r) as [result|]; [|done].
  apply bind_ensure in He as [_ He]. destruct (result_bundle result); [|done]. by injection He as <-.
Qed.

Lemma admitFamilies_spec env options startedAt input families acc acc' :
  foldM (admitFamily env options startedAt input) acc families = Ok acc' ->
  exists es, Forall2 (evaluates input) families es /\ adm_prepared acc' = adm_prepared acc ++ es.
Proof.
  intros Hf. refine (foldM_inv (fun done_ a => exists es, Forall2 (evaluates input) done_ es /\
                                   adm_prepared a = adm_prepared acc ++ es) _ _ _ _ Hf _ _).
  { exists []. split; [constructor|]. by rewrite app_nil_r. }
  intros done_ f a a' (es & Hes & Ha) _ Hstep. unfold admitFamily in Hstep.
  apply bind_Ok in Hstep as (_ & _ & Hstep). destruct (requestOf input f) as [request|] eqn:Hr; [|done].
  apply bind_Ok in Hstep as (e & He & Hstep). do 5 (apply bind_ensure in Hstep as [_ Hstep]).
  injection Hstep as <-. exists (es ++ [e]). cbn [adm_prepared]. split.
  - apply Forall2_app; [done|]. constructor; [by exists request|constructor].
  - by rewrite Ha, app_assoc.
Qed.

(** What a successful admission fixes, whatever the environment and the options. *)
Definition admitted (h : heap) (raw : value) (input : NormalizedInput)
    (levels : list (list RuleFamilyId)) (prepared : list (FamilyExecution Eval)) : Prop :=
  normalizeInput h raw = Ok input /\
  levels = topologicalLevels (map request_familyId (input_requests input)) /\
  Forall2 (evaluates input) (mjoin levels) prepared.

Lemma admitSchedule_spec h env raw rawOptions options input levels admission :
  admitSchedule h env raw rawOptions = Ok (options, input, levels, admission) ->
  (1 <= maximumConcurrency (option_limits options))%N /\
  admitted h raw input levels (adm_prepared admission).
Proof.
  unfold admitSchedule. intros Ha. cbv zeta in Ha. apply bind_Ok in Ha as (options' & Ho%own_Ok & Ha).
  apply bind_Ok in Ha as (_ & _ & Ha). apply bind_Ok in Ha as (input' & Hi & Ha).
  apply bind_Ok in Ha as (_ & _ & Ha). apply bind_Ok in Ha as (admission' & Hadm%own_Ok & Ha).
  injection Ha as <- <- <- <-. split; [by eapply normalizeOptions_concurrency|].
  split; [done|]. split; [done|]. apply admitFamilies_spec in Hadm as (es & Hes & ->). done.
Qed.

Lemma admitted_functional h raw input1 levels1 prepared1 input2 levels2 prepared2 :
  admitted h raw input1 levels1 prepared1 -> admitted h raw input2 levels2 prepared2 ->
  input1 = input2 /\ levels1 = levels2 /\ prepared1 = prepared2.
Proof.
  intros (Hi1 & -> & Hp1) (Hi2 & -> & Hp2). rewrite Hi1 in Hi2. injection Hi2 as <-.
  split; [done|]. split; [done|]. revert prepared2 Hp2.
  induction Hp1 as [|f e fs es He _ IH]; intros prepared2 Hp2; inversion Hp2; subst; [done|].
  f_equal; [by eapply evaluates_functional|by apply IH].
Qed.

Lemma admitted_levels h raw input levels prepared :
  admitted h raw input levels prepared ->
  NoDup (mjoin levels) /\ mjoin levels ≡ₚ map request_familyId (input_requests input) /\
  respects (fun f => dependencies_ (RULE_FAMILY_DESCRIPTORS f)) [] levels /\
  map exec_familyId prepared = mjoin levels.
Proof.
  intros (Hi & -> & Hp). apply normalizeInput_requests in Hi as [Hnd Hs].
  destruct (topologicalLevels_all _ Hnd Hs) as [Hperm Hresp].
  split; [by rewrite Hperm|]. split; [done|]. split; [done|]. clear -Hp.
  induction Hp as [|f e fs es He _ IH]; [done|]. cbn. by rewrite IH, (evaluates_family _ _ _ He).
Qed.

(** Looking every family up gives back the prepared executions. *)
Lemma prepared_lookup (prepared es : list (FamilyExecution Eval)) :
  NoDup (map exec_familyId prepared) ->
  Forall2 (fun f e => preparedFamily prepared f = Some e) (map exec_familyId prepared) es -> es = prepared.
Proof.
  intros Hnd Hes.
  assert (forall e, e ∈ prepared -> preparedFamily prepared (exec_familyId e) = Some e) as Hfind.
  { clear Hes es. unfold preparedFamily. induction prepared as [|x l IH]; intros e Hin; [by apply not_elem_of_nil in Hin|].
    cbn in *. apply NoDup_cons in Hnd as [Hx Hnd]. apply elem_of_cons in Hin as [->|Hin].
    - by rewrite bool_decide_eq_true_2.
    - rewrite bool_decide_eq_false_2; [by apply IH|]. intros Heq. apply Hx. rewrite Heq.
      by apply (list_elem_of_fmap_2 exec_familyId). }
  clear Hnd. revert es Hes.
  assert (forall l es, (forall e, e ∈ l -> preparedFamily prepared (exec_familyId e) = Some e) ->
            Forall2 (fun f e => preparedFamily prepared f = Some e) (map exec_familyId l) es -> es = l) as Hgen.
  { induction l as [|x l IH]; intros es Hl Hes; inversion Hes; subst; [done|].
    rewrite (Hl x) in * by left. simplify_eq. f_equal. apply IH; [|done]. intros e He. apply Hl. by right. }
  intros es. by apply Hgen.
Qed.

(** A run whose levels succeed has executed what was prepared, in some order. *)
Lemma executed h env options startedAt raw input levels prepared picks m m' executions :
  steady env -> (1 <= maximumConcurrency (option_limits options))%N ->
  admitted h raw input levels prepared ->
  runLevels env options startedAt prepared levels picks m [] = Some (Ok (m', executions)) ->
  executions ≡ₚ prepared /\ NoDup (map exec_familyId executions).
Proof.
  intros Hsteady Hmax Hadm Hrun. apply admitted_levels in Hadm as (Hnd & _ & _ & Hids).
  apply runLevels_spec in Hrun as (es & Hes & Hp); [|done..]. cbn in Hp. rewrite <- Hids in Hes, Hnd.
  apply prepared_lookup in Hes as ->; [|done]. split; [done|]. by rewrite Hp.
Qed.

(** ** The end of a schedule *)

(** Two results that differ in their limits only. *)
Definition same_outcome (s1 s2 : RuleSchedulerSuccess) : Prop :=
  out_bundle s1 = out_bundle s2 /\ out_executionOrder s1 = out_executionOrder s2 /\
  out_families s1 = out_families s2 /\ out_sources s1 = out_sources s2 /\
  out_summary s1 = out_summary s2 /\
  out_suppressedDiagnostics s1 = out_suppressedDiagnostics s2 /\
  out_visibleDiagnostics s1 = out_visibleDiagnostics s2.

#[local] Instance compareExecutions_comparison : Comparison (compareExecutions (Eval := Eval)).
Proof. apply (on_comparison (fun e => family_name (exec_familyId e))), _. Qed.

Lemma sorted_executions (l1 l2 : list (FamilyExecution Eval)) :
  NoDup (map exec_familyId l1) -> l1 ≡ₚ l2 ->
  sorted_with compareExecutions l1 = sorted_with compareExecutions l2.
Proof.
  intros Hnd Hp. apply sorted_with_canonical; [apply _| |done].
  intros x y Hx Hy Heq%family_name_inj.
  apply list_elem_of_lookup in Hx as [i Hi], Hy as [j Hj]. assert (i = j) as ->; [|congruence].
  apply (NoDup_lookup (map exec_familyId l1) i j (exec_familyId x)); [done|by rewrite list_lookup_fmap, Hi|].
  rewrite list_lookup_fmap, Hj. cbn. by rewrite Heq.
Qed.

Lemma collectDiagnostics_spec env options startedAt m m' executions diagnostics :
  collectDiagnostics (Eval := Eval) env options startedAt m executions = Ok (m', diagnostics) ->
  diagnostics = mjoin (map (fun e => bundle_diagnostics (exec_bundle e)) (sorted_with compareExecutions executions)).
Proof.
  intros Hc. change diagnostics with (snd (m', diagnostics)).
  refine (foldM_inv (fun done_ acc => snd acc = mjoin (map (fun e => bundle_diagnostics (exec_bundle e)) done_))
            _ _ _ _ Hc _ _); [done|].
  intros done_ e acc acc' Hacc _ Hstep. apply bind_Ok in Hstep as (_ & _ & Hstep). injection Hstep as <-.
  cbn [snd]. rewrite map_app, join_app, Hacc. cbn. by rewrite app_nil_r.
Qed.

(** The result of a schedule, as a function of what it executed. *)
Definition outcome (h : heap) (input : NormalizedInput) (levels : list (list RuleFamilyId))
    (prepared sorted : list (FamilyExecution Eval)) (s : RuleSchedulerSuccess) : Prop :=
  exists syntax evaluation filtered finalized,
    preparedFamily prepared syntax_structure = Some syntax /\
    exec_syntaxEvaluation syntax = Some evaluation /\
    policyFilteredBundle (raw_bundle {|
      bundle_diagnostics := mjoin (map (fun e => bundle_diagnostics (exec_bundle e)) sorted);
      bundle_suppressions := bundle_suppressions (exec_bundle syntax) |})
      (ir_sources (input_snapshotIr input)) (input_policy input) = Ok filtered /\
    finalizeScheduledSyntaxSuppressions (result_self evaluation) (bundle_diagnostics filtered) = Ok finalized /\
    (N.of_nat (length (bundle_diagnostics finalized)) <= maximumDiagnostics (out_limits s))%N /\
    canonicalizeRuleDiagnostics h (raw_bundle finalized) (ir_sources (input_snapshotIr input))
      (policy_value (input_policy input)) = Ok (out_bundle s) /\
    out_executionOrder s = mjoin levels /\
    out_families s = map familySummary sorted /\
    out_sources s = ir_sources (input_snapshotIr input) /\
    out_summary s = summaryOf (out_bundle s) (failureThreshold (input_policy input)) /\
    out_suppressedDiagnostics s = suppressedDiagnostics (out_bundle s) /\
    out_visibleDiagnostics s = visibleDiagnostics (out_bundle s).

Lemma finishSchedule_outcome h env options startedAt input levels prepared m executions s :
  finishSchedule h env options startedAt input levels prepared m executions = Ok s ->
  outcome h input levels prepared (sorted_with compareExecutions executions) s.
Proof.
  unfold finishSchedule. intros Hs.
  destruct (preparedFamily prepared syntax_structure) as [[bundle count f sources [evaluation|]]|] eqn:Hp; try done.
  cbv zeta in Hs. apply bind_Ok in Hs as ([m' diagnostics] & Hc & Hs). cbv beta iota in Hs.
  apply collectDiagnostics_spec in Hc as ->.
  apply bind_Ok in Hs as (filtered & Hfiltered & Hs). apply bind_Ok in Hs as (finalized & Hfinalized & Hs).
  apply bind_ensure in Hs as [Hlimit Hs]. apply bind_Ok in Hs as (canonical & Hcanonical & Hs).
  apply bind_Ok in Hs as (_ & _ & Hs). injection Hs as <-.
  exists {| exec_bundle := bundle; exec_diagnosticCount := count; exec_familyId := f; exec_sources := sources;
            exec_syntaxEvaluation := Some evaluation |}, evaluation, filtered, finalized.
  split; [done|]. split; [done|]. split; [done|]. split.
  { by destruct (finalizeScheduledSyntaxSuppressions _ _); [injection Hfinalized as ->|]. }
  split; [by apply N.leb_le|]. by repeat split.
Qed.

Lemma outcome_functional h input levels prepared sorted s1 s2 :
  outcome h input levels prepared sorted s1 -> outcome h input levels prepared sorted s2 -> same_outcome s1 s2.
Proof.
  intros (x1 & v1 & f1 & z1 & Hx1 & Hv1 & Hf1 & Hz1 & _ & Hb1 & Ho1 & Hs1 & Hr1 & Hu1 & Hp1 & Hd1)
         (x2 & v2 & f2 & z2 & Hx2 & Hv2 & Hf2 & Hz2 & _ & Hb2 & Ho2 & Hs2 & Hr2 & Hu2 & Hp2 & Hd2).
  simplify_eq. assert (out_bundle s1 = out_bundle s2) as Hb by congruence.
  unfold same_outcome. rewrite Hu1, Hu2, Hp1, Hp2, Hd1, Hd2, Hb. repeat split; congruence.
Qed.

Lemma schedule_outcome h env picks raw rawOptions s :
  steady env -> scheduleRuleFamilies h env picks raw rawOptions = Some (Ok s) ->
  exists input levels prepared executions,
    admitted h raw input levels prepared /\ executions ≡ₚ prepared /\
    NoDup (map exec_familyId executions) /\
    outcome h input levels prepared (sorted_with compareExecutions executions) s.
Proof.
  intros Hsteady Hs. unfold scheduleRuleFamilies in Hs.
  destruct (admitSchedule h env raw rawOptions) as [[[[options input] levels] admission]|] eqn:Ha; [|done].
  apply admitSchedule_spec in Ha as [Hmax Hadm].
  destruct (runLevels _ _ _ _ _ _ _ _) as [[[m executions]|]|] eqn:Hrun; try done.
  injection Hs as Hs. apply own_Ok, finishSchedule_outcome in Hs.
  exists input, levels, (adm_prepared admission), executions.
  eapply executed in Hrun as [Hp Hnd]; [|done..]. done.
Qed.
End schedule.

(** C15. The result of scheduling does not depend on the order in which workers
    finish, on the seed, the concurrency or the limits, or on the clock and the
    signal: two calls on the same input that both succeed give the same bundle,
    order, summaries and sources. *)
Theorem schedule_deterministic `{Sha256} `{IrSnapshots} {Eval} `{RuleEvaluators Eval}
    `{!DiagnosticValidator DiagnosticBundle}
    h raw env1 picks1 options1 s1 env2 picks2 options2 s2 :
  steady env1 -> steady env2 ->
  scheduleRuleFamilies h env1 picks1 raw options1 = Some (Ok s1) ->
  scheduleRuleFamilies h env2 picks2 raw options2 = Some (Ok s2) ->
  same_outcome s1 s2.
Proof.
  intros Hsteady1 Hsteady2 Hs1 Hs2.
  apply schedule_outcome in Hs1 as (input1 & levels1 & prepared1 & executions1 & Ha1 & Hp1 & Hnd1 & Ho1); [|done].
  apply schedule_outcome in Hs2 as (input2 & levels2 & prepared2 & executions2 & Ha2 & Hp2 & Hnd2 & Ho2); [|done].
  destruct (admitted_functional _ _ _ _ _ _ _ _ Ha1 Ha2) as (<- & <- & <-).
  rewrite (sorted_executions executions1 executions2) in Ho1; [|done|by rewrite Hp1].
  by eapply outcome_functional.
Qed.

(** A call settles when the workers of every level are resumed often enough:
    with at most ten families, ten levels of seventy rounds, whatever the
    input, the options, the signal and the clock. *)
Theorem schedule_settles `{Sha256} `{IrSnapshots} {Eval} `{RuleEvaluators Eval}
    `{!DiagnosticValidator DiagnosticBundle} h env picks raw rawOptions :
  (10 <= length picks)%nat -> Forall (fair_picks 10) picks ->
  is_Some (scheduleRuleFamilies h env picks raw rawOptions).
Proof.
  intros Hlen Hfair. unfold scheduleRuleFamilies.
  destruct (admitSchedule h env raw rawOptions) as [[[[options input] levels] admission]|] eqn:Ha; [|done].
  apply admitSchedule_spec in Ha as [_ Hadm]. pose proof (admitted_levels _ _ _ _ _ Hadm) as (Hnd & _ & _ & _).
  destruct Hadm as (_ & -> & _). set (levels := topologicalLevels _) in *.
  assert (length levels <= length (mjoin levels))%nat as Hlevels
    by (apply nonempty_length, levelRounds_nonempty; constructor).
  pose proof (families_bounded _ Hnd) as Hten.
  destruct (runLevels_settles env options (now env 0) (adm_prepared admission) levels picks
              (adm_moment admission) [] 10) as [[[m executions]|] ->]; try done; [|lia].
  apply Forall_forall. intros level Hin. apply families_bounded.
  apply list_elem_of_lookup in Hin as [i Hi]. rewrite <- (take_drop_middle _ _ _ Hi) in Hnd.
  rewrite join_app, mjoin_cons in Hnd. apply NoDup_app in Hnd as (_ & _ & Hnd).
  by apply NoDup_app in Hnd as (Hnd & _ & _).
Qed.

Lemma omap_length_le {A B} (f : A -> option B) l : (length (omap f l) <= length l)%nat.
Proof. induction l as [|x l IH]; cbn; [lia|]. destruct (f x); cbn.
  - by apply le_n_S.
  - by apply Nat.le_le_succ_r.
Qed.

(** Canonicalization adds no diagnostic. *)
Lemma canonicalize_no_more `{Sha256} {Raw} `{!DiagnosticValidator Raw} h b sources policy b' :
  canonicalizeRuleDiagnostics h (raw_bundle b) sources policy = Ok b' ->
  (length (bundle_diagnostics b') <= length (bundle_diagnostics b))%nat.
Proof.
  unfold canonicalizeRuleDiagnostics. intros Hc. apply bind_Ok in Hc as (p & _ & Hc).
  apply bind_Ok in Hc as (filtered & Hf & Hc). transitivity (length (bundle_diagnostics filtered)).
  - apply canonicalizeFiltered_spec in Hc as (Hnd & _ & Hdrawn & _).
    rewrite <- (length_map deduplicationKey (bundle_diagnostics b')), <- (length_map deduplicationKey (bundle_diagnostics filtered)).
    apply submseteq_length, NoDup_submseteq; [done|]. intros key Hkey.
    apply list_elem_of_fmap in Hkey as (d' & -> & Hd'). apply Hdrawn in Hd' as [((d & Hd & _ & Heq) & _ & _) _].
    apply elem_of_members in Hd as [Hd _]. rewrite <- Heq. by apply (list_elem_of_fmap_2 deduplicationKey).
  - apply policyFilteredBundle_spec in Hf as (checked & Hv & Hd & _).
    apply validate_same in Hv as ->. rewrite Hd.
    apply omap_length_le.
Qed.

(** A successful schedule is complete: the execution order holds every
    requested family once, each after its dependencies, the family summaries
    are those of the same families, and the bundle holds at most the maximum
    number of diagnostics. *)
Theorem schedule_complete `{Sha256} `{IrSnapshots} {Eval} `{RuleEvaluators Eval}
    `{!DiagnosticValidator DiagnosticBundle} h env picks raw rawOptions s :
  steady env -> scheduleRuleFamilies h env picks raw rawOptions = Some (Ok s) ->
  exists input levels,
    normalizeInput h raw = Ok input /\
    out_executionOrder s = mjoin levels /\
    mjoin levels ≡ₚ map request_familyId (input_requests input) /\
    respects (fun f => dependencies_ (RULE_FAMILY_DESCRIPTORS f)) [] levels /\
    map fam_familyId (out_families s) ≡ₚ out_executionOrder s /\
    NoDup (out_executionOrder s) /\
    (N.of_nat (length (bundle_diagnostics (out_bundle s))) <= maximumDiagnostics (out_limits s))%N.
Proof.
  intros Hsteady Hs.
  apply schedule_outcome in Hs as (input & levels & prepared & executions & Ha & Hp & _ & Ho); [|done].
  destruct (admitted_levels _ _ _ _ _ Ha) as (Hnd & Hperm & Hresp & Hids). destruct Ha as (Hi & _ & _).
  destruct Ho as (x & v & f & z & _ & _ & _ & _ & Hlimit & Hb & Horder & Hfamilies & _).
  exists input, levels. split; [done|]. split; [done|]. split; [done|]. split; [done|].
  split; [|split; [by rewrite Horder|]].
  - rewrite Hfamilies, map_map, Horder, <- Hids. unfold sorted_with. cbn [familySummary fam_familyId].
    by rewrite sort_by_perm, Hp.
  - apply canonicalize_no_more in Hb. lia.
Qed.

(** ** The summary *)

Lemma activeCount_positive visible s :
  (0 < activeCount visible s)%N <-> exists d, d ∈ visible /\ diag_severity d = s.
Proof.
  unfold activeCount. split.
  - intros Hpos. destruct (List.filter _ visible) as [|d r] eqn:Hf; [cbn in Hpos; lia|].
    assert (d ∈ List.filter (fun d => bool_decide (diag_severity d = s)) visible) as Hd by (rewrite Hf; left).
    rewrite list_elem_of_In, filter_In, <- list_elem_of_In, bool_decide_eq_true in Hd. by exists d.
  - intros (d & Hin & Hs).
    assert (d ∈ List.filter (fun d => bool_decide (diag_severity d = s)) visible) as Hd.
    { apply list_elem_of_In, filter_In. rewrite <- list_elem_of_In. split; [done|]. by apply bool_decide_eq_true. }
    destruct (List.filter _ visible); [by apply not_elem_of_nil in Hd|]. cbn. lia.
Qed.

Lemma activeCount_cons d l s :
  activeCount (d :: l) s = ((if decide (diag_severity d = s) then 1 else 0) + activeCount l s)%N.
Proof.
  unfold activeCount. cbn [List.filter]. case_decide.
  - rewrite bool_decide_eq_true_2 by done. cbn [length]. lia.
  - by rewrite bool_decide_eq_false_2 by done.
Qed.

(** The severities at which a threshold fails. *)
Definition fails_at (t : RuleSchedulerFailureThreshold) (s : DiagnosticSeverity) : Prop :=
  match t with
  | threshold_error => s = severity_error
  | threshold_warning => s = severity_error \/ s = severity_warning
  | threshold_never => False
  end.

(** The summary splits the diagnostics into the suppressed and the visible
    ones, counts every visible diagnostic once, and asks to fail exactly when a
    visible diagnostic reaches the threshold. *)
Theorem summaryOf_spec b threshold :
  let s := summaryOf b threshold in
  visibleDiagnostics b ++ suppressedDiagnostics b ≡ₚ bundle_diagnostics b /\
  (active_error s + active_warning s + active_info s)%N = N.of_nat (length (visibleDiagnostics b)) /\
  (shouldFail s = true <->
     exists d, d ∈ bundle_diagnostics b /\ is_suppressed b d = false /\ fails_at threshold (diag_severity d)).
Proof.
  intros s. split; [|split].
  - rewrite Permutation_app_comm. symmetry. apply filter_split_perm.
  - unfold s, summaryOf. cbn [active_error active_warning active_info].
    induction (visibleDiagnostics b) as [|d l IH]; [done|]. rewrite !activeCount_cons. cbn [length].
    destruct (diag_severity d); repeat case_decide; try done; lia.
  - assert (forall d, d ∈ visibleDiagnostics b <-> d ∈ bundle_diagnostics b /\ is_suppressed b d = false) as Hv.
    { intros d. unfold visibleDiagnostics. by rewrite list_elem_of_In, filter_In, <- list_elem_of_In, negb_true_iff. }
    pose proof (activeCount_positive (visibleDiagnostics b)) as Hc.
    unfold s, summaryOf. cbn [shouldFail]. destruct threshold; cbn [fails_at].
    + rewrite N.ltb_lt, Hc. setoid_rewrite Hv. naive_solver.
    + naive_solver.
    + rewrite N.ltb_lt. split.
      * intros Hpos. assert (0 < activeCount (visibleDiagnostics b) severity_error \/
                             0 < activeCount (visibleDiagnostics b) severity_warning)%N as [Hp|Hp] by lia;
          apply Hc in Hp as (d & [Hd Hs]%Hv & Heq); exists d; auto.
      * intros (d & Hd & Hs & Heq). pose proof (proj2 (Hv d) (conj Hd Hs)) as Hin.
        destruct Heq as [Heq|Heq]; [pose proof (proj2 (Hc severity_error) (ex_intro _ d (conj Hin Heq)))
                                   |pose proof (proj2 (Hc severity_warning) (ex_intro _ d (conj Hin Heq)))]; lia.
Qed.

(** ** A small schedule: the syntax and security families *)

Module ScheduleExample.
#[local] Instance digest : Sha256 := toy_sha256.
#[local] Instance validator : DiagnosticValidator DiagnosticBundle := toy_validator.

#[local] Instance snapshots : IrSnapshots := {|
  issuedInstructionIrSnapshot := fun _ =>
    Some {| ir_sources := []; ir_documents := []; ir_statements := [] |};
  createInstructionIrSnapshot := fun _ _ => Err false
|}.

Definition bundle_of (f : RuleFamilyId) : DiagnosticBundle :=
  {| bundle_diagnostics :=
       match f with
       | syntax_structure => [Duplicates.finding #"s" #"ACL100" #"p" 3]
       | security => [Duplicates.finding #"x" #"ACL400" #"q" 1]
       | _ => []
       end;
     bundle_suppressions := [] |}.

#[local] Instance evaluators : RuleEvaluators unit := {|
  evaluateFamily := fun request => Some {|
    result_failed := false; result_ok := true;
    result_bundle := Some (bundle_of (request_familyId request));
    result_sources := None; result_self := tt |};
  finalizeScheduledSyntaxSuppressions := fun _ diagnostics =>
    Ok {| bundle_diagnostics := diagnostics; bundle_suppressions := [] |}
|}.

Definition no_objects : heap := fun _ => None.

Definition a_request (f : RuleFamilyId) : value :=
  VRecord [(#"familyId", VString (family_name f));
           (#"input", VRecord [(#"ir", VRef 1%N)]); (#"options", VUndefined)].

Definition an_input : value :=
  VRecord [(#"recordKind", VString RULE_SCHEDULER_RECORD_KIND);
           (#"contractVersion", VString RULE_SCHEDULER_CONTRACT_VERSION);
           (#"policy", policy_value {| failureThreshold := threshold_warning; severityOverrides := [] |});
           (#"families", VArray [a_request security; a_request syntax_structure])].

Definition one_worker : value :=
  VRecord [(#"maximumConcurrency", VInteger 1); (#"scheduleSeed", VInteger 7)].

(** Moments are milliseconds apart; nobody cancels. *)
Definition quiet : Environment :=
  {| aborted := fun _ _ => false; now := fun m => (1000000 * Z.of_nat m)%Z |}.

Definition still : Environment := {| aborted := fun _ _ => false; now := fun _ => 0%Z |}.

Lemma quiet_steady : steady quiet.
Proof. split; [done|]. intros m m' Hle. cbn. lia. Qed.

Lemma still_steady : steady still.
Proof. split; [done|]. intros m m' Hle. cbn. lia. Qed.

Definition fair_order : list nat := mjoin (replicate 70 (seq 0 10)).

Lemma fair_order_fair : fair_picks 10 fair_order.
Proof.
  exists (replicate 70 (seq 0 10)). split; [done|]. split; [|by rewrite length_replicate].
  apply Forall_replicate. intros i Hi. apply elem_of_seq. lia.
Qed.

Definition fair : list (list nat) := replicate 10 fair_order.

Definition an_outcome (r : option (res ReturnedIssue RuleSchedulerSuccess)) : RuleSchedulerSuccess :=
  match r with
  | Some (Ok s) => s
  | _ => {| out_bundle := bundle_of syntax_structure; out_executionOrder := []; out_families := [];
            out_limits := RULE_SCHEDULER_HARD_LIMITS; out_sources := [];
            out_summary := summaryOf (bundle_of syntax_structure) threshold_never;
            out_suppressedDiagnostics := []; out_visibleDiagnostics := [] |}
  end.

(** Two calls: with the default options, and with one perturbed worker. *)
Definition first_call := scheduleRuleFamilies no_objects quiet fair an_input VUndefined.
Definition second_call := scheduleRuleFamilies no_objects still fair an_input one_worker.

Example first_call_order :
  out_executionOrder (an_outcome first_call) = [syntax_structure; security] /\
  shouldFail (out_summary (an_outcome first_call)) = true.
Proof. vm_compute. done. Qed.

(** An input that also carries the four fields of an issue is itself the issue
    of the failure. *)
Definition issue_like (f : RuleFamilyId) : value :=
  VRecord [(#"familyId", VString (family_name f));
           (#"input", VRecord [(#"code", VUndefined); (#"familyId", VUndefined); (#"ir", VRef 1%N);
                               (#"message", VUndefined); (#"path", VUndefined)]);
           (#"options", VUndefined)].

Example caller_record_is_returned :
  scheduleRuleFamilies no_objects quiet fair
    (VRecord [(#"recordKind", VString RULE_SCHEDULER_RECORD_KIND);
              (#"contractVersion", VString RULE_SCHEDULER_CONTRACT_VERSION);
              (#"policy", policy_value {| failureThreshold := threshold_warning; severityOverrides := [] |});
              (#"families", VArray [issue_like syntax_structure])]) VUndefined
  = Some (Err (Caller_record
      [(#"code", Caller VUndefined); (#"familyId", Caller VUndefined);
       (#"ir", Engine {| ir_sources := []; ir_documents := []; ir_statements := [] |});
       (#"message", Caller VUndefined); (#"path", Caller VUndefined)])).
Proof. vm_compute. reflexivity. Qed.

(** With too few turns a call has not settled. *)
Example unfair_call :
  scheduleRuleFamilies no_objects quiet [[0]; [0; 0]] an_input VUndefined = None.
Proof. vm_compute. reflexivity. Qed.

Lemma schedule_deterministic_witness :
  first_call = Some (Ok (an_outcome first_call)) /\ second_call = Some (Ok (an_outcome second_call)) /\
  same_outcome (an_outcome first_call) (an_outcome second_call).
Proof.
  assert (first_call = Some (Ok (an_outcome first_call))) as H1 by (vm_compute; reflexivity).
  assert (second_call = Some (Ok (an_outcome second_call))) as H2 by (vm_compute; reflexivity).
  split; [exact H1|]. split; [exact H2|].
  apply (schedule_deterministic no_objects an_input quiet fair VUndefined _ still fair one_worker _);
    [apply quiet_steady|apply still_steady|exact H1|exact H2].
Defined.

Lemma schedule_settles_witness : is_Some (scheduleRuleFamilies no_objects quiet fair an_input one_worker).
Proof.
  apply (schedule_settles no_objects quiet fair an_input one_worker).
  - vm_compute. lia.
  - apply Forall_replicate, fair_order_fair.
Defined.

Lemma schedule_complete_witness :
  first_call = Some (Ok (an_outcome first_call)) /\ NoDup (out_executionOrder (an_outcome first_call)).
Proof.
  assert (first_call = Some (Ok (an_outcome first_call))) as H1 by (vm_compute; reflexivity).
  split; [exact H1|].
  destruct (schedule_complete no_objects quiet fair an_input VUndefined (an_outcome first_call))
    as (input & levels & _ & _ & _ & _ & _ & Hnd & _); [apply quiet_steady|exact H1|exact Hnd].
Defined.
End ScheduleExample.
