(* ===== verification/BoundedResolution.v ===== *)
(** The bounded resolution of a set of tasks (resolver/src/bounded-resolution.ts):
    options, descriptors, the registry of issued tasks, the workers that run
    their executors as a transition function on events, and the result.  The
    registry of issued resolutions is the class [IssuedResolutions]; messages of
    errors are left out. *)
From S2P Require Import Prelude JsString OrderedMap Unicode RepositoryPath ObjectGraph JsonText OutputSanitization CanonicalDigest EffectiveContextCache RuleDiagnostics.
From stdpp Require Import gmap.

Definition BOUNDED_RESOLUTION_CONTRACT_VERSION : jstring := #"0.1.0".
Definition BOUNDED_RESOLUTION_RECORD_KIND : jstring :=
  #"agent-context-bounded-effective-context-resolution".

(** ** Limits and errors *)

Record BoundedResolutionLimits := {
  maximumConcurrency : N; maximumDurationMs : N; maximumResultBytes : N;
  maximumTaskIdBytes : N; maximumTasks : N; maximumTotalResultBytes : N
}.

Definition BOUNDED_RESOLUTION_DEFAULT_LIMITS : BoundedResolutionLimits := {|
  maximumConcurrency := 8; maximumDurationMs := 30000; maximumResultBytes := 33554432;
  maximumTaskIdBytes := 512; maximumTasks := 65536; maximumTotalResultBytes := 134217728 |}%N.

Definition BOUNDED_RESOLUTION_HARD_LIMITS : BoundedResolutionLimits := {|
  maximumConcurrency := 64; maximumDurationMs := 300000; maximumResultBytes := 268435456;
  maximumTaskIdBytes := 16384; maximumTasks := 1000000; maximumTotalResultBytes := 1073741824 |}%N.

Inductive BoundedResolutionErrorCode :=
| cancelled | deadlineExceeded | invalidInput | invalidOptions | invalidRelationship
| resourceLimit | taskFailed.

Record BoundedResolutionError := {
  error_code : BoundedResolutionErrorCode; failedTaskIndexes : list nat
}.

Abbreviation bounded := (res BoundedResolutionError).

(** [fail(code, message)] *)
Definition failure (code : BoundedResolutionErrorCode) : BoundedResolutionError :=
  {| error_code := code; failedTaskIndexes := [] |}.

(** ** Records, arrays and texts *)

Definition dataRecord (h : heap) (v : value) (code : BoundedResolutionErrorCode) : bounded DataRecord :=
  match object_of h v with
  | Some o =>
      _ ← ensure (negb (is_array o) && negb (obj_proxy o)) (failure code);
      _ ← ensure (plain_prototype o) (failure code);
      Ok (obj_own o)
  | None => Err (failure code)
  end.

Definition field (record : DataRecord) (key : jstring) (code : BoundedResolutionErrorCode) : bounded value :=
  match enumerable_data (descriptor record key) with
  | Some v => Ok v
  | None => Err (failure code)
  end.

Definition closedRecord (h : heap) (v : value) (keys : list jstring) (code : BoundedResolutionErrorCode)
  : bounded DataRecord :=
  record ← dataRecord h v code;
  _ ← ensure ((length record =? length keys)%nat && forallb (has_key keys) record) (failure code);
  _ ← ensure (forallb (fun p => bool_decide (is_Some (enumerable_data (Some p)))) record) (failure code);
  Ok record.

Definition denseArray (h : heap) (v : value) (maximum : N) : bounded (list value) :=
  match object_of h v with
  | Some o =>
      _ ← ensure (regular_array o) (failure invalidInput);
      _ ← ensure (array_length o <=? maximum)%N (failure resourceLimit);
      _ ← ensure (N.of_nat (length (obj_own o)) =? array_length o)%N (failure invalidInput);
      rmapM (fun index => field (obj_own o) (String_of_N (N.of_nat index)) invalidInput)
            (seq 0 (N.to_nat (array_length o)))
  | None => Err (failure invalidInput)
  end.

(** The loop of [wellFormedText] ends without a failure. *)
Fixpoint visibleText (s : jstring) : bool :=
  match s with
  | [] => true
  | unit :: r =>
      if is_high unit then
        match r with
        | next :: r' => is_low next && visibleText r'
        | [] => false
        end
      else negb (is_low unit) && negb (isControl unit || isBidiControl unit) && visibleText r
  end.

Definition wellFormedText (v : value) (maximumBytes : N) : bounded jstring :=
  match v with
  | VString s =>
      _ ← ensure (visibleText s) (failure invalidInput);
      _ ← ensure (negb (jeqb s [])) (failure invalidInput);
      _ ← ensure (textBytes s <=? maximumBytes)%N (failure resourceLimit);
      Ok s
  | _ => Err (failure invalidInput)
  end.

(** [abortState(value) !== undefined] *)
Definition nativeSignal (h : heap) (v : value) : option loc :=
  match v with
  | VRef l =>
      match h l with
      | Some {| obj_proxy := false; obj_slots := SignalSlots |} => Some l
      | _ => None
      end
  | _ => None
  end.

(** ** Options *)

(** A limit with its key: how it is read and set. *)
Record LimitKey := {
  limit_key_name : jstring;
  limit_get : BoundedResolutionLimits -> N;
  limit_set : N -> BoundedResolutionLimits -> BoundedResolutionLimits
}.

Definition LIMIT_KEYS : list LimitKey := [
  {| limit_key_name := #"maximumConcurrency"; limit_get := maximumConcurrency;
     limit_set n l := {| maximumConcurrency := n; maximumDurationMs := maximumDurationMs l;
       maximumResultBytes := maximumResultBytes l; maximumTaskIdBytes := maximumTaskIdBytes l;
       maximumTasks := maximumTasks l; maximumTotalResultBytes := maximumTotalResultBytes l |} |};
  {| limit_key_name := #"maximumDurationMs"; limit_get := maximumDurationMs;
     limit_set n l := {| maximumConcurrency := maximumConcurrency l; maximumDurationMs := n;
       maximumResultBytes := maximumResultBytes l; maximumTaskIdBytes := maximumTaskIdBytes l;
       maximumTasks := maximumTasks l; maximumTotalResultBytes := maximumTotalResultBytes l |} |};
  {| limit_key_name := #"maximumResultBytes"; limit_get := maximumResultBytes;
     limit_set n l := {| maximumConcurrency := maximumConcurrency l;
       maximumDurationMs := maximumDurationMs l;
       maximumResultBytes := n; maximumTaskIdBytes := maximumTaskIdBytes l;
       maximumTasks := maximumTasks l; maximumTotalResultBytes := maximumTotalResultBytes l |} |};
  {| limit_key_name := #"maximumTaskIdBytes"; limit_get := maximumTaskIdBytes;
     limit_set n l := {| maximumConcurrency := maximumConcurrency l;
       maximumDurationMs := maximumDurationMs l;
       maximumResultBytes := maximumResultBytes l; maximumTaskIdBytes := n;
       maximumTasks := maximumTasks l; maximumTotalResultBytes := maximumTotalResultBytes l |} |};
  {| limit_key_name := #"maximumTasks"; limit_get := maximumTasks;
     limit_set n l := {| maximumConcurrency := maximumConcurrency l;
       maximumDurationMs := maximumDurationMs l;
       maximumResultBytes := maximumResultBytes l; maximumTaskIdBytes := maximumTaskIdBytes l;
       maximumTasks := n; maximumTotalResultBytes := maximumTotalResultBytes l |} |};
  {| limit_key_name := #"maximumTotalResultBytes"; limit_get := maximumTotalResultBytes;
     limit_set n l := {| maximumConcurrency := maximumConcurrency l;
       maximumDurationMs := maximumDurationMs l;
       maximumResultBytes := maximumResultBytes l; maximumTaskIdBytes := maximumTaskIdBytes l;
       maximumTasks := maximumTasks l; maximumTotalResultBytes := n |} |}
].

Definition OPTION_KEYS : list jstring := map limit_key_name LIMIT_KEYS ++ [ #"signal"].

(** [Number.isSafeInteger(limit) && limit >= 1 && limit <= maximum] *)
Definition positiveLimit (v : value) (maximum : N) : bounded N :=
  match v with
  | VNumber (Integer n) =>
      _ ← ensure ((n <=? MAX_SAFE_INTEGER)%Z && (1 <=? n)%Z && (n <=? Z.of_N maximum)%Z)
                 (failure invalidOptions);
      Ok (Z.to_N n)
  | _ => Err (failure invalidOptions)
  end.

(** The body of the loop over the keys of the options. *)
Definition selectLimit (record : DataRecord) (selected : BoundedResolutionLimits) (p : property)
  : bounded BoundedResolutionLimits :=
  match prop_key p with
  | None => Err (failure invalidOptions)
  | Some key =>
      match find (fun k => jeqb (limit_key_name k) key) LIMIT_KEYS with
      | None => Ok selected
      | Some k =>
          limit ← field record key invalidOptions;
          n ← positiveLimit limit (limit_get k BOUNDED_RESOLUTION_HARD_LIMITS);
          Ok (limit_set k n selected)
      end
  end.

Definition selectSignal (h : heap) (record : DataRecord) : bounded (option loc) :=
  match descriptor record #"signal" with
  | None => Ok None
  | Some _ =>
      candidate ← field record #"signal" invalidOptions;
      match candidate with
      | VUndefined => Ok None
      | _ =>
          match nativeSignal h candidate with
          | Some l => Ok (Some l)
          | None => Err (failure invalidOptions)
          end
      end
  end.

Definition normalizeOptions (h : heap) (v : value) : bounded (BoundedResolutionLimits * option loc) :=
  match v with
  | VUndefined => Ok (BOUNDED_RESOLUTION_DEFAULT_LIMITS, None)
  | _ =>
      record ← dataRecord h v invalidOptions;
      _ ← ensure (forallb (has_key OPTION_KEYS) record) (failure invalidOptions);
      selected ← foldM (selectLimit record) BOUNDED_RESOLUTION_DEFAULT_LIMITS record;
      _ ← ensure (maximumResultBytes selected <=? maximumTotalResultBytes selected)%N
                 (failure invalidOptions);
      signal ← selectSignal h record;
      Ok (selected, signal)
  end.

(** ** Tasks *)

Record EffectiveContextResolutionTaskDescriptor := {
  clientVersion : option jstring;
  id_ : jstring;
  profileId : jstring;
  profileVersion : jstring;
  specSnapshotId : jstring;
  surfaceId : jstring;
  targetPath : jstring
}.

Definition DESCRIPTOR_KEYS : list jstring :=
  [ #"clientVersion"; #"id"; #"profileId"; #"profileVersion"; #"specSnapshotId"; #"surfaceId";
    #"targetPath"].

Definition hardText (v : value) : bounded jstring :=
  wellFormedText v (maximumTaskIdBytes BOUNDED_RESOLUTION_HARD_LIMITS).

Definition clientVersionText (v : value) : bounded (option jstring) :=
  match v with
  | VNull => Ok None
  | _ => Some <$> hardText v
  end.

(** A string the predicate accepts. *)
Definition acceptedText (accepts : jstring -> bool) (v : value) : bounded jstring :=
  match v with
  | VString s => _ ← ensure (accepts s) (failure invalidInput); Ok s
  | _ => Err (failure invalidInput)
  end.

Definition normalizeDescriptor (h : heap) (v : value) (idBytes : N)
  : bounded EffectiveContextResolutionTaskDescriptor :=
  record ← closedRecord h v DESCRIPTOR_KEYS invalidInput;
  rawClientVersion ← field record #"clientVersion" invalidInput;
  clientVersion ← clientVersionText rawClientVersion;
  rawId ← field record #"id" invalidInput;
  id ← wellFormedText rawId idBytes;
  rawProfileId ← field record #"profileId" invalidInput;
  profileId ← acceptedText (fun s => existsb (jeqb s) CONFIGURATION_PROFILE_IDS) rawProfileId;
  rawProfileVersion ← field record #"profileVersion" invalidInput;
  profileVersion ← hardText rawProfileVersion;
  rawSpecSnapshotId ← field record #"specSnapshotId" invalidInput;
  specSnapshotId ← hardText rawSpecSnapshotId;
  rawSurfaceId ← field record #"surfaceId" invalidInput;
  surfaceId ← hardText rawSurfaceId;
  rawTargetPath ← field record #"targetPath" invalidInput;
  targetPath ← acceptedText isRepositoryRelativePath rawTargetPath;
  Ok {| clientVersion := clientVersion; id_ := id; profileId := profileId;
        profileVersion := profileVersion; specSnapshotId := specSnapshotId;
        surfaceId := surfaceId; targetPath := targetPath |}.

(** The fields of a task object, in the order it has them. *)
Definition descriptorFields (d : EffectiveContextResolutionTaskDescriptor) : list (jstring * value) :=
  [ (#"clientVersion", VText (clientVersion d)); (#"id", VString (id_ d));
    (#"profileId", VString (profileId d)); (#"profileVersion", VString (profileVersion d));
    (#"specSnapshotId", VString (specSnapshotId d)); (#"surfaceId", VString (surfaceId d));
    (#"targetPath", VString (targetPath d))].

Definition compareDescriptors (left right : EffectiveContextResolutionTaskDescriptor) : comparison :=
  or_else (compareUtf8 (profileId left) (profileId right))
  (or_else (compareUtf8 (surfaceId left) (surfaceId right))
  (or_else (compareUtf8 (profileVersion left) (profileVersion right))
  (or_else (compareUtf8 (specSnapshotId left) (specSnapshotId right))
  (or_else (compareUtf8 (default [] (clientVersion left)) (default [] (clientVersion right)))
  (or_else (compareUtf8 (targetPath left) (targetPath right))
  (compareUtf8 (id_ left) (id_ right))))))).

Definition taskRelationshipKey (d : EffectiveContextResolutionTaskDescriptor) : jstring :=
  JSON_stringify (VArray [VString (profileId d); VString (surfaceId d); VString (profileVersion d);
                          VString (specSnapshotId d); VText (clientVersion d); VString (targetPath d)]).

(** ** The process *)

(** The registries of the module and the heap its objects live in; [Exec] are the
    executors.  Locations from [next] on are free. *)
Record Process (Exec : Type) := {
  process_heap : heap;
  next : loc;
  frozen : gset loc;
  ISSUED_TASKS : gset loc;
  TASK_EXECUTORS : gmap loc Exec;
  ISSUED_RESULTS : gset loc
}.
Arguments process_heap {Exec} p.
Arguments next {Exec} p.
Arguments frozen {Exec} p.
Arguments ISSUED_TASKS {Exec} p.
Arguments TASK_EXECUTORS {Exec} p.
Arguments ISSUED_RESULTS {Exec} p.

(** A new frozen record. *)
Definition allocate {Exec} (p : Process Exec) (fields : list (jstring * value)) : Process Exec * loc :=
  ({| process_heap := fun l => if (l =? next p)%N then Some (record_object fields) else process_heap p l;
      next := next p + 1; frozen := {[next p]} ∪ frozen p; ISSUED_TASKS := ISSUED_TASKS p;
      TASK_EXECUTORS := TASK_EXECUTORS p; ISSUED_RESULTS := ISSUED_RESULTS p |}, next p)%N.

Definition issueTask {Exec} (p : Process Exec) (l : loc) (x : Exec) : Process Exec :=
  {| process_heap := process_heap p; next := next p; frozen := frozen p;
     ISSUED_TASKS := {[l]} ∪ ISSUED_TASKS p; TASK_EXECUTORS := <[l := x]> (TASK_EXECUTORS p);
     ISSUED_RESULTS := ISSUED_RESULTS p |}.

Definition issueResult {Exec} (p : Process Exec) (l : loc) : Process Exec :=
  {| process_heap := process_heap p; next := next p; frozen := frozen p;
     ISSUED_TASKS := ISSUED_TASKS p; TASK_EXECUTORS := TASK_EXECUTORS p;
     ISSUED_RESULTS := {[l]} ∪ ISSUED_RESULTS p |}.

(** [createEffectiveContextResolutionTask(descriptor, executor)]; [executor] is
    [None] unless it is a direct function. *)
Definition createEffectiveContextResolutionTask {Exec} (p : Process Exec) (descriptor : value)
    (executor : option Exec) : bounded (Process Exec * loc) :=
  normalized ← normalizeDescriptor (process_heap p) descriptor
                 (maximumTaskIdBytes BOUNDED_RESOLUTION_HARD_LIMITS);
  match executor with
  | None => Err (failure invalidInput)
  | Some x =>
      let '(p, task) := allocate p (descriptorFields normalized) in
      Ok (issueTask p task x, task)
  end.

Definition isIssuedBoundedResolutionResult {Exec} (p : Process Exec) (v : value) : bool :=
  match v with VRef l => bool_decide (l ∈ ISSUED_RESULTS p) | _ => false end.

(** An admitted task: the object, and what its frozen fields say. *)
Record Task := { task_object : loc; task_descriptor : EffectiveContextResolutionTaskDescriptor }.

Definition compareTasks (left right : Task) : comparison :=
  compareDescriptors (task_descriptor left) (task_descriptor right).

(** The tasks admitted so far, with the two sets. *)
Record Admission := { adm_tasks : list Task; adm_ids : list jstring; adm_relationships : list jstring }.

Definition admitTask {Exec} (p : Process Exec) (limits : BoundedResolutionLimits) (a : Admission) (v : value)
  : bounded Admission :=
  match v with
  | VRef l =>
      _ ← ensure (bool_decide (l ∈ ISSUED_TASKS p) && bool_decide (l ∈ frozen p)) (failure invalidInput);
      normalized ← normalizeDescriptor (process_heap p) v (maximumTaskIdBytes limits);
      _ ← ensure (negb (existsb (jeqb (id_ normalized)) (adm_ids a))) (failure invalidRelationship);
      let relationship := taskRelationshipKey normalized in
      _ ← ensure (negb (existsb (jeqb relationship) (adm_relationships a))) (failure invalidRelationship);
      Ok {| adm_tasks := adm_tasks a ++ [{| task_object := l; task_descriptor := normalized |}];
            adm_ids := id_ normalized :: adm_ids a;
            adm_relationships := relationship :: adm_relationships a |}
  | _ => Err (failure invalidInput)
  end.

Definition normalizeTasks {Exec} (p : Process Exec) (v : value) (limits : BoundedResolutionLimits)
  : bounded (list Task) :=
  raw ← denseArray (process_heap p) v (maximumTasks limits);
  a ← foldM (admitTask p limits) {| adm_tasks := []; adm_ids := []; adm_relationships := [] |} raw;
  Ok (sorted_with compareTasks (adm_tasks a)).

(** ** Resolutions *)

(** What the scheduler reads of a resolution; [resolution_text] is
    [JSON.stringify(resolution)]. *)
Record EffectiveContextResolution := {
  resolution_profileId : jstring;
  resolution_profileVersion : jstring;
  resolution_clientVersion : option jstring;
  resolution_specSnapshotId : jstring;
  resolution_surfaceId : jstring;
  resolution_targetPath : jstring;
  resolution_text : jstring
}.

(** [isIssuedEffectiveContextResolution(value)], and the frozen resolution when
    it holds. *)
Class IssuedResolutions : Type := {
  issuedResolution : value -> option EffectiveContextResolution
}.

Definition taskMatchesResult (d : EffectiveContextResolutionTaskDescriptor) (r : EffectiveContextResolution)
  : bool :=
  jeqb (resolution_profileId r) (profileId d) && jeqb (resolution_profileVersion r) (profileVersion d)
  && bool_decide (resolution_clientVersion r = clientVersion d)
  && jeqb (resolution_specSnapshotId r) (specSnapshotId d)
  && jeqb (resolution_surfaceId r) (surfaceId d) && jeqb (resolution_targetPath r) (targetPath d).

(** ** The workers *)

Inductive TaskFailure := execution | invalid_result.
Inductive StopReason := stop_cancelled | stop_deadline | stop_resource.

#[export] Instance TaskFailure_eq_dec : EqDecision TaskFailure.
Proof. solve_decision. Defined.

(** How the call of an executor ends: it throws or rejects, or gives a value. *)
Inductive Settlement := Threw | Gave (v : value).

(** A worker is at the head of its loop, waits for the executor of a task, or has
    returned. *)
Inductive Worker := AtLoop | Awaiting (index : nat) | Returned.

(** What may happen next: a worker goes on from the head of its loop, the executor
    a worker waits for settles, the caller's signal aborts (its listeners may be
    kept from hearing of it), the timer fires.  Code without an [await] inside is
    cut into more events than it has, so that every run of it is among the
    sequences of events. *)
Inductive Event := Resume (i : nat) | Settle (i : nat) | SignalAborts (heard : bool) | TimerFires.

(** The variables of the call; the controller is aborted exactly when [stopped] is
    set. *)
Record RunState := {
  stopped : option StopReason;
  signalAborted : bool;
  resolutions : list (option value);
  failures : list (option TaskFailure);
  nextIndex : nat;
  retainedResultBytes : N;
  workers : list Worker
}.

Definition stop (st : RunState) (reason : StopReason) : RunState :=
  match stopped st with
  | Some _ => st
  | None => {| stopped := Some reason; signalAborted := signalAborted st; resolutions := resolutions st;
               failures := failures st; nextIndex := nextIndex st;
               retainedResultBytes := retainedResultBytes st; workers := workers st |}
  end.

Definition with_worker (st : RunState) (i : nat) (w : Worker) : RunState :=
  {| stopped := stopped st; signalAborted := signalAborted st; resolutions := resolutions st;
     failures := failures st; nextIndex := nextIndex st;
     retainedResultBytes := retainedResultBytes st; workers := <[i := w]> (workers st) |}.

(** [nextIndex += 1] *)
Definition take_index (st : RunState) : RunState :=
  {| stopped := stopped st; signalAborted := signalAborted st; resolutions := resolutions st;
     failures := failures st; nextIndex := S (nextIndex st);
     retainedResultBytes := retainedResultBytes st; workers := workers st |}.

(** [failures[index] = failure] *)
Definition record_failure (st : RunState) (index : nat) (f : TaskFailure) : RunState :=
  {| stopped := stopped st; signalAborted := signalAborted st; resolutions := resolutions st;
     failures := <[index := Some f]> (failures st); nextIndex := nextIndex st;
     retainedResultBytes := retainedResultBytes st; workers := workers st |}.

(** [retainedResultBytes += bytes; resolutions[index] = resolution] *)
Definition retain (st : RunState) (index : nat) (v : value) (bytes : N) : RunState :=
  {| stopped := stopped st; signalAborted := signalAborted st;
     resolutions := <[index := Some v]> (resolutions st); failures := failures st;
     nextIndex := nextIndex st; retainedResultBytes := retainedResultBytes st + bytes;
     workers := workers st |}.

Section run.
Context `{IssuedResolutions} {Exec : Type}.
Context (executors : gmap loc Exec) (limits : BoundedResolutionLimits) (tasks : list Task).
(** How the one call of an executor for a task ends. *)
Context (execute : Exec -> loc -> Settlement).

(** From the head of the loop to the call of an executor. *)
Definition resumeWorker (st : RunState) (i : nat) : RunState :=
  match stopped st with
  | Some _ => with_worker st i Returned
  | None =>
      match tasks !! nextIndex st with
      | None => with_worker st i Returned
      | Some task =>
          let index := nextIndex st in
          let st := take_index st in
          match executors !! task_object task with
          | None => record_failure st index invalid_result
          | Some _ => with_worker st i (Awaiting index)
          end
      end
  end.

(** What the settlement of a task's executor amounts to. *)
Inductive Verdict := Failed (f : TaskFailure) | Resolved (v : value) (bytes : N).

Definition judge (task : Task) (s : Settlement) : Verdict :=
  match s with
  | Threw => Failed execution
  | Gave v =>
      match issuedResolution v with
      | None => Failed invalid_result
      | Some r =>
          if taskMatchesResult (task_descriptor task) r
          then Resolved v (textBytes (resolution_text r)) else Failed invalid_result
      end
  end.

(** From the settlement of the executor back to the head of the loop. *)
Definition settleWorker (st : RunState) (i index : nat) (task : Task) (s : Settlement) : RunState :=
  match judge task s with
  | Failed f => with_worker (record_failure st index f) i AtLoop
  | Resolved v bytes =>
      if (maximumResultBytes limits <? bytes)%N
         || (maximumTotalResultBytes limits <? retainedResultBytes st + bytes)%N
      then with_worker (stop st stop_resource) i Returned
      else with_worker (retain st index v bytes) i AtLoop
  end.

(** An event that cannot happen leaves the state as it is. *)
Definition stepEvent (st : RunState) (e : Event) : RunState :=
  match e with
  | Resume i =>
      match workers st !! i with Some AtLoop => resumeWorker st i | _ => st end
  | Settle i =>
      match workers st !! i with
      | Some (Awaiting index) =>
          match tasks !! index with
          | Some task =>
              match executors !! task_object task with
              | Some x => settleWorker st i index task (execute x (task_object task))
              | None => st
              end
          | None => st
          end
      | _ => st
      end
  | SignalAborts heard =>
      let st := {| stopped := stopped st; signalAborted := true; resolutions := resolutions st;
                   failures := failures st; nextIndex := nextIndex st;
                   retainedResultBytes := retainedResultBytes st; workers := workers st |} in
      if heard then stop st stop_cancelled else st
  | TimerFires => stop st stop_deadline
  end.

Definition runEvents (st : RunState) (events : list Event) : RunState := fold_left stepEvent events st.

(** The state after the listener is registered and the workers are made;
    [aborted] is what the signal then says. *)
Definition startRun (aborted : bool) : RunState :=
  let st := {| stopped := None; signalAborted := aborted;
               resolutions := replicate (length tasks) None; failures := replicate (length tasks) None;
               nextIndex := 0; retainedResultBytes := 0;
               workers := replicate (Nat.min (N.to_nat (maximumConcurrency limits)) (length tasks)) AtLoop |} in
  if aborted then stop st stop_cancelled else st.

Definition all_returned (st : RunState) : bool :=
  forallb (fun w => match w with Returned => true | _ => false end) (workers st).

Definition failed_with (f : TaskFailure) (l : list (option TaskFailure)) : list nat :=
  omap (fun entry => if bool_decide (entry.2 = Some f) then Some entry.1 else None)
       (imap (fun index x => (index, x)) l).

Record BoundedResolutionEntry := { entry_resolution : value; entry_taskId : jstring }.

Definition entryOf (st : RunState) (index : nat) (task : Task) : bounded BoundedResolutionEntry :=
  match mjoin (resolutions st !! index) with
  | Some v => Ok {| entry_resolution := v; entry_taskId := id_ (task_descriptor task) |}
  | None => Err {| error_code := invalidRelationship; failedTaskIndexes := [index] |}
  end.

(** What the call does when it is resumed after the race: [None] while the race is
    open. *)
Definition conclude (st : RunState) : option (bounded (list BoundedResolutionEntry)) :=
  match stopped st with
  | Some stop_deadline => Some (Err (failure deadlineExceeded))
  | Some stop_resource => Some (Err (failure resourceLimit))
  | Some stop_cancelled => Some (Err (failure cancelled))
  | None =>
      if all_returned st then
        Some (
          _ ← ensure (negb (signalAborted st)) (failure cancelled);
          let invalidIndexes := failed_with invalid_result (failures st) in
          let failedIndexes := failed_with execution (failures st) in
          _ ← ensure (bool_decide (invalidIndexes = []))
                     {| error_code := invalidRelationship; failedTaskIndexes := invalidIndexes |};
          _ ← ensure (bool_decide (failedIndexes = []))
                     {| error_code := taskFailed; failedTaskIndexes := failedIndexes |};
          rmapM (fun entry => entryOf st entry.1 entry.2) (imap (fun index task => (index, task)) tasks))
      else None
  end.
End run.

(** ** The call *)

Record BoundedResolutionResult := {
  result_contractVersion : jstring;
  result_entries : list BoundedResolutionEntry;
  result_recordKind : jstring
}.

Definition resultOf (entries : list BoundedResolutionEntry) : BoundedResolutionResult :=
  {| result_contractVersion := BOUNDED_RESOLUTION_CONTRACT_VERSION; result_entries := entries;
     result_recordKind := BOUNDED_RESOLUTION_RECORD_KIND |}.

(** The fields of the result object. *)
Definition resultFields (r : BoundedResolutionResult) : list (jstring * value) :=
  [ (#"contractVersion", VString (result_contractVersion r));
    (#"entries", VArray (map (fun e => VRecord [(#"resolution", entry_resolution e);
                                                (#"taskId", VString (entry_taskId e))])
                             (result_entries r)));
    (#"recordKind", VString (result_recordKind r))].

Section resolve.
Context `{IssuedResolutions} {Exec : Type}.

(** A new result, known as issued from now on. *)
Definition publishResult (p : Process Exec) (entries : list BoundedResolutionEntry)
  : Process Exec * (loc * BoundedResolutionResult) :=
  let r := resultOf entries in
  let '(p, l) := allocate p (resultFields r) in
  (issueResult p l, (l, r)).

(** What happens before the workers start; [aborted n] is the [n]th answer of the
    signal. *)
Definition admitCall (p : Process Exec) (aborted : nat -> bool) (v options : value)
  : bounded (BoundedResolutionLimits * option loc * list Task) :=
  '(limits, signal) ← normalizeOptions (process_heap p) options;
  _ ← ensure (negb (bool_decide (is_Some signal) && aborted 1%nat)) (failure cancelled);
  tasks ← normalizeTasks p v limits;
  Ok (limits, signal, tasks).

(** Without a signal nobody aborts. *)
Definition heard_events (signal : option loc) (events : list Event) : list Event :=
  match signal with
  | Some _ => events
  | None => List.filter (fun e => match e with SignalAborts _ => false | _ => true end) events
  end.

(** [resolveEffectiveContextsBounded(value, options)] when the events happen in
    the given order; [None] while it has not settled. *)
Definition resolveEffectiveContextsBounded (p : Process Exec) (aborted : nat -> bool)
    (execute : Exec -> loc -> Settlement) (events : list Event) (v options : value)
  : option (bounded (Process Exec * (loc * BoundedResolutionResult))) :=
  match admitCall p aborted v options with
  | Err e => Some (Err e)
  | Ok (limits, signal, []) => Some (Ok (publishResult p []))
  | Ok (limits, signal, tasks) =>
      let st := startRun limits tasks (bool_decide (is_Some signal) && aborted 2%nat) in
      let st := runEvents (TASK_EXECUTORS p) limits tasks execute st (heard_events signal events) in
      match conclude tasks st with
      | Some (Ok entries) => Some (Ok (publishResult p entries))
      | Some (Err e) => Some (Err e)
      | None => None
      end
  end.
End resolve.
