(* ===== verification/BoundedRunLaws.v ===== *)
(** The workers of a bounded resolution: an invariant of every state they reach,
    the sequential reading of the same tasks, and that a run which nobody
    interrupts ends with it, in whatever order the executors settle. *)
From S2P Require Import Prelude JsString OrderedMap Unicode ObjectGraph CanonicalDigest RuleDiagnostics BoundedResolution.
From stdpp Require Import gmap.

(** ** The sequential reading *)

Definition failure_of (v : Verdict) : option TaskFailure :=
  match v with Failed f => Some f | Resolved _ _ => None end.

Definition resolved_of (v : Verdict) : option value :=
  match v with Failed _ => None | Resolved x _ => Some x end.

Definition bytes_of (v : Verdict) : N :=
  match v with Failed _ => 0 | Resolved _ bytes => bytes end.

Section sequential.
Context `{IssuedResolutions} {Exec : Type}.
Context (executors : gmap loc Exec) (limits : BoundedResolutionLimits) (tasks : list Task).
Context (execute : Exec -> loc -> Settlement).

(** What becomes of a task, whenever it is run. *)
Definition verdict (task : Task) : Verdict :=
  match executors !! task_object task with
  | None => Failed invalid_result
  | Some x => judge task (execute x (task_object task))
  end.

Definition verdicts : list Verdict := map verdict tasks.

(** The results do not fit: one of them alone, or all together. *)
Definition exceeds : bool :=
  existsb (fun v => maximumResultBytes limits <? bytes_of v)%N verdicts
  || (maximumTotalResultBytes limits <? sumN bytes_of verdicts)%N.

Definition positions (f : TaskFailure) : list nat := failed_with f (map failure_of verdicts).

Definition entry (task : Task) : option BoundedResolutionEntry :=
  v ← resolved_of (verdict task);
  Some {| entry_resolution := v; entry_taskId := id_ (task_descriptor task) |}.

(** One task after the other: too much is refused, then wrong results with the
    places of all of them, then failed executions, and otherwise every task has
    its entry. *)
Definition sequentialOutcome : bounded (list BoundedResolutionEntry) :=
  _ ← ensure (negb exceeds) (failure resourceLimit);
  _ ← ensure (bool_decide (positions invalid_result = []))
             {| error_code := invalidRelationship; failedTaskIndexes := positions invalid_result |};
  _ ← ensure (bool_decide (positions execution = []))
             {| error_code := taskFailed; failedTaskIndexes := positions execution |};
  Ok (omap entry tasks).
End sequential.

(** ** Workers *)

Definition waits (w : Worker) : list nat :=
  match w with Awaiting index => [index] | AtLoop | Returned => [] end.

(** The indexes of the tasks whose executors run. *)
Definition awaited (ws : list Worker) : list nat := mjoin (map waits ws).
Arguments awaited : simpl never.

Lemma awaited_insert ws i w0 :
  ws !! i = Some w0 ->
  exists rest, awaited ws ≡ₚ waits w0 ++ rest /\ forall w, awaited (<[i := w]> ws) ≡ₚ waits w ++ rest.
Proof.
  intros Hi. exists (awaited (take i ws) ++ awaited (drop (S i) ws)).
  assert (forall w, awaited (take i ws ++ w :: drop (S i) ws)
                    ≡ₚ waits w ++ awaited (take i ws) ++ awaited (drop (S i) ws)) as Hall.
  { intros w. unfold awaited. rewrite map_app, join_app. cbn. by rewrite Permutation_app_swap_app. }
  split.
  - rewrite <- (Hall w0). by rewrite take_drop_middle.
  - intros w. rewrite <- (Hall w). rewrite insert_take_drop; [done|]. by eapply lookup_lt_Some.
Qed.

Lemma elem_of_awaited ws i index : ws !! i = Some (Awaiting index) -> index ∈ awaited ws.
Proof.
  intros Hi. destruct (awaited_insert _ _ _ Hi) as (rest & -> & _). cbn. apply elem_of_cons. by left.
Qed.

Lemma awaited_length ws : (length (awaited ws) <= length ws)%nat.
Proof.
  unfold awaited. induction ws as [|w ws IH]; [done|]. cbn [map]. rewrite mjoin_cons, length_app.
  destruct w; cbn [waits length]; lia.
Qed.

Lemma awaited_replicate n : awaited (replicate n AtLoop) = [].
Proof. by induction n. Qed.

Lemma awaited_returned ws :
  forallb (fun w => match w with Returned => true | _ => false end) ws = true -> awaited ws = [].
Proof.
  unfold awaited. induction ws as [|w ws IH]; [done|]. cbn. intros [Hw Hs]%andb_true_iff.
  destruct w; [done..|]. by apply IH.
Qed.

(** ** Places of failures *)

Lemma elem_of_failed_with f l i : i ∈ failed_with f l <-> l !! i = Some (Some f).
Proof.
  unfold failed_with. rewrite list_elem_of_omap. setoid_rewrite elem_of_lookup_imap. split.
  - intros ([j x] & (j' & y & [= -> ->] & Hj) & Hb). cbn in Hb. case_bool_decide; simplify_eq/=. by subst.
  - intros Hi. exists (i, Some f). split; [by exists i, (Some f)|]. cbn. by rewrite bool_decide_eq_true_2.
Qed.

Lemma failed_with_nil f l : failed_with f l = [] <-> Some f ∉ l.
Proof.
  rewrite list_elem_of_lookup. split.
  - intros Hn [i Hi%elem_of_failed_with]. rewrite Hn in Hi. by apply not_elem_of_nil in Hi.
  - intros Hn. destruct (failed_with f l) as [|i r] eqn:Hl; [done|]. exfalso. apply Hn. exists i.
    apply elem_of_failed_with. rewrite Hl. apply elem_of_cons. by left.
Qed.

(** ** What is retained *)

(** The bytes of a resolution that is held. *)
Definition held (r : option value) (v : Verdict) : N :=
  match r with Some _ => bytes_of v | None => 0 end.

Fixpoint held_bytes (rs : list (option value)) (vs : list Verdict) : N :=
  match rs, vs with
  | r :: rs, v :: vs => held r v + held_bytes rs vs
  | _, _ => 0
  end.

Lemma held_insert rs vs i v d :
  rs !! i = Some None -> vs !! i = Some d ->
  held_bytes (<[i := Some v]> rs) vs = (held_bytes rs vs + bytes_of d)%N.
Proof.
  revert vs i. induction rs as [|r rs IH]; intros [|x vs] [|i] Hr Hd; try discriminate.
  - injection Hr as ->. injection Hd as ->. cbn. lia.
  - change (held r x + held_bytes (<[i := Some v]> rs) vs = held r x + held_bytes rs vs + bytes_of d)%N.
    rewrite (IH vs i Hr Hd). lia.
Qed.

Lemma held_none n vs : held_bytes (replicate n None) vs = 0%N.
Proof. revert vs. induction n as [|n IH]; intros [|v vs]; cbn; [done..|]. by rewrite IH. Qed.

Lemma held_le rs vs : (held_bytes rs vs <= sumN bytes_of vs)%N.
Proof.
  revert vs. induction rs as [|r rs IH]; intros [|v vs]; [cbn; lia..|].
  specialize (IH vs). cbn [held_bytes].
  change (sumN bytes_of (v :: vs)) with (bytes_of v + sumN bytes_of vs)%N.
  destruct r; cbn [held]; lia.
Qed.

(** A resolution that is not held has to come on top. *)
Lemma held_missing rs vs i d :
  rs !! i = Some None -> vs !! i = Some d -> (held_bytes rs vs + bytes_of d <= sumN bytes_of vs)%N.
Proof. intros Hr Hd. rewrite <- (held_insert rs vs i VNull d Hr Hd). apply held_le. Qed.

Lemma held_all vs : held_bytes (map resolved_of vs) vs = sumN bytes_of vs.
Proof.
  induction vs as [|v vs IH]; [done|]. cbn [map held_bytes]. rewrite IH. by destruct v.
Qed.

(** ** The invariant of a run *)

Section run.
Context `{IssuedResolutions} {Exec : Type}.
Context (executors : gmap loc Exec) (limits : BoundedResolutionLimits) (tasks : list Task).
Context (execute : Exec -> loc -> Settlement).

Local Abbreviation step := (stepEvent executors limits tasks execute).
Local Abbreviation run := (runEvents executors limits tasks execute).
Local Abbreviation vs := (verdicts executors tasks execute).

Definition recorded (st : RunState) (i : nat) : Prop :=
  (exists f, failures st !! i = Some (Some f)) \/ (exists v, resolutions st !! i = Some (Some v)).

(** Every index taken is awaited or recorded, unless the call has stopped; what is
    recorded is the verdict on its task; awaited indexes are open and belong to
    one worker; and the counter is the sum of what is retained. *)
Record run_inv (st : RunState) : Prop := {
  inv_lengths : length (resolutions st) = length tasks /\ length (failures st) = length tasks;
  inv_next : (nextIndex st <= length tasks)%nat;
  inv_failures : forall i f, failures st !! i = Some (Some f) ->
    (i < nextIndex st)%nat /\ vs !! i = Some (Failed f);
  inv_resolutions : forall i v, resolutions st !! i = Some (Some v) ->
    (i < nextIndex st)%nat /\
    exists bytes, vs !! i = Some (Resolved v bytes) /\ (bytes <= maximumResultBytes limits)%N;
  inv_awaited : NoDup (awaited (workers st));
  inv_open : forall i, i ∈ awaited (workers st) ->
    (i < nextIndex st)%nat /\ ~ recorded st i /\
    exists task, tasks !! i = Some task /\ is_Some (executors !! task_object task);
  inv_taken : stopped st = None -> forall i, (i < nextIndex st)%nat ->
    i ∈ awaited (workers st) \/ recorded st i;
  inv_retained : retainedResultBytes st = held_bytes (resolutions st) vs;
  inv_total : (retainedResultBytes st <= maximumTotalResultBytes limits)%N;
  inv_returned : stopped st = None -> Returned ∈ workers st -> nextIndex st = length tasks;
  inv_resource : stopped st = Some stop_resource -> exceeds executors limits tasks execute = true;
  inv_cancelled : stopped st = Some stop_cancelled -> signalAborted st = true
}.

Lemma verdicts_lookup i task : tasks !! i = Some task -> vs !! i = Some (verdict executors execute task).
Proof. intros Hi. unfold verdicts. by rewrite list_lookup_fmap, Hi. Qed.

Lemma start_inv aborted : run_inv (startRun limits tasks aborted).
Proof.
  assert (forall i (x : TaskFailure), replicate (length tasks) None !! i = Some (Some x) -> False) as Hf.
  { intros i x [[=] _]%lookup_replicate. }
  assert (forall i (x : value), replicate (length tasks) None !! i = Some (Some x) -> False) as Hr.
  { intros i x [[=] _]%lookup_replicate. }
  destruct aborted; split; cbn; rewrite ?length_replicate, ?awaited_replicate, ?held_none; try done.
  all: try (intros; exfalso; naive_solver lia).
  all: try (by apply NoDup_nil).
  all: try (by intros i []%not_elem_of_nil).
  all: try lia.
  by intros _ [[=] _]%elem_of_replicate.
Qed.

(** What the invariant says depends on nothing but these fields. *)
Lemma stop_inv st reason :
  run_inv st ->
  (reason = stop_resource -> exceeds executors limits tasks execute = true) ->
  (reason = stop_cancelled -> signalAborted st = true) ->
  run_inv (stop st reason).
Proof.
  intros Hinv Hres Hcan. unfold stop. destruct (stopped st) eqn:Hst; [done|].
  destruct Hinv. split; cbn; try done.
  - intros [= ->]. auto.
  - intros [= ->]. auto.
Qed.

Lemma return_inv st i w :
  run_inv st -> workers st !! i = Some w ->
  waits w = [] \/ stopped st <> None ->
  (stopped st = None -> nextIndex st = length tasks) ->
  run_inv (with_worker st i Returned).
Proof.
  intros Hinv Hi Hw Hnext. destruct (awaited_insert _ _ _ Hi) as (rest & Hrest & Hins).
  destruct Hinv. split; cbn; try done.
  - rewrite (Hins Returned). cbn. rewrite Hrest in inv_awaited0. by apply NoDup_app in inv_awaited0 as (_ & _ & ?).
  - intros j. rewrite (Hins Returned). intros Hj. apply inv_open0. rewrite Hrest. set_solver.
  - intros Hs j Hj. rewrite (Hins Returned). destruct Hw as [Hw|Hw]; [|done].
    rewrite Hw in Hrest. rewrite <- Hrest. by apply inv_taken0.
  - intros Hs _. auto.
Qed.

(** [recorded] after an entry is written. *)
Lemma recorded_failure st i j f :
  recorded st j -> recorded (record_failure st i f) j.
Proof.
  unfold recorded. cbn. intros [[f' Hf]|[v Hv]]; [|right; by exists v]. left.
  destruct (decide (i = j)) as [->|Hne].
  - exists f. apply list_lookup_insert_eq. by eapply lookup_lt_Some.
  - exists f'. by rewrite list_lookup_insert_ne.
Qed.

Lemma recorded_retain st i j v bytes : recorded st j -> recorded (retain st i v bytes) j.
Proof.
  unfold recorded. cbn. intros [[f Hf]|[v' Hv]]; [left; by exists f|]. right.
  destruct (decide (i = j)) as [->|Hne].
  - exists v. apply list_lookup_insert_eq. by eapply lookup_lt_Some.
  - exists v'. by rewrite list_lookup_insert_ne.
Qed.

Lemma open_entries st i :
  run_inv st -> (i < length tasks)%nat -> ~ recorded st i ->
  resolutions st !! i = Some None /\ failures st !! i = Some None.
Proof.
  intros Hinv Hi Hopen. destruct (inv_lengths _ Hinv) as [Hr Hf]. unfold recorded in Hopen. split.
  - destruct (lookup_lt_is_Some_2 (resolutions st) i) as [[v|] Hv]; [lia|naive_solver|done].
  - destruct (lookup_lt_is_Some_2 (failures st) i) as [[f|] Hf']; [lia|naive_solver|done].
Qed.

(** The worker of an awaited index records the verdict and goes back to its loop. *)
Lemma fail_inv st i index f :
  run_inv st -> workers st !! i = Some (Awaiting index) -> vs !! index = Some (Failed f) ->
  run_inv (with_worker (record_failure st index f) i AtLoop).
Proof.
  intros Hinv Hi Hv. destruct (awaited_insert _ _ _ Hi) as (rest & Hrest & Hins).
  pose proof (elem_of_awaited _ _ _ Hi) as Hin. cbn in Hrest.
  destruct (inv_open _ Hinv _ Hin) as (Hlt & Hopen & _).
  assert (index ∉ rest) as Hnot.
  { pose proof (inv_awaited _ Hinv) as Hnd. rewrite Hrest in Hnd. by apply NoDup_cons in Hnd as []. }
  destruct Hinv. split; cbn; try done.
  - by rewrite length_insert.
  - intros j f' Hj. apply list_lookup_insert_Some in Hj as [(-> & [= ->] & _)|(_ & Hj)]; auto.
  - rewrite (Hins AtLoop). cbn. rewrite Hrest in inv_awaited0. by apply NoDup_cons in inv_awaited0 as [].
  - intros j. rewrite (Hins AtLoop). cbn. intros Hj.
    destruct (inv_open0 j) as (Hj1 & Hj2 & Hj3); [rewrite Hrest; set_solver|].
    split_and!; [done| |done]. unfold recorded in *. cbn.
    rewrite list_lookup_insert_ne; [done|]. intros ->. done.
  - intros Hs j Hj. rewrite (Hins AtLoop). cbn. destruct (decide (j = index)) as [->|Hne].
    + right. left. exists f. cbn. apply list_lookup_insert_eq. destruct inv_lengths0. lia.
    + destruct (inv_taken0 Hs j Hj) as [Hj'|Hj']; [|right; by apply (recorded_failure st)].
      left. rewrite Hrest in Hj'. set_solver.
  - intros Hs Hret. apply inv_returned0; [done|].
    apply list_elem_of_lookup in Hret as [k Hk]. apply list_lookup_insert_Some in Hk as [(_ & [=] & _)|(_ & Hk)].
    by eapply list_elem_of_lookup_2.
Qed.

Lemma retain_inv st i index v bytes :
  run_inv st -> workers st !! i = Some (Awaiting index) -> vs !! index = Some (Resolved v bytes) ->
  (bytes <= maximumResultBytes limits)%N ->
  (retainedResultBytes st + bytes <= maximumTotalResultBytes limits)%N ->
  run_inv (with_worker (retain st index v bytes) i AtLoop).
Proof.
  intros Hinv Hi Hv Hmax Htotal. destruct (awaited_insert _ _ _ Hi) as (rest & Hrest & Hins).
  pose proof (elem_of_awaited _ _ _ Hi) as Hin. cbn in Hrest.
  destruct (inv_open _ Hinv _ Hin) as (Hlt & Hopen & _).
  destruct (open_entries st index Hinv) as [Hnone _]; [pose proof (inv_next _ Hinv); lia|done|].
  assert (index ∉ rest) as Hnot.
  { pose proof (inv_awaited _ Hinv) as Hnd. rewrite Hrest in Hnd. by apply NoDup_cons in Hnd as []. }
  destruct Hinv. split; cbn; try done.
  - by rewrite length_insert.
  - intros j v' Hj. apply list_lookup_insert_Some in Hj as [(-> & [= ->] & _)|(_ & Hj)]; eauto.
  - rewrite (Hins AtLoop). cbn. rewrite Hrest in inv_awaited0. by apply NoDup_cons in inv_awaited0 as [].
  - intros j. rewrite (Hins AtLoop). cbn. intros Hj.
    destruct (inv_open0 j) as (Hj1 & Hj2 & Hj3); [rewrite Hrest; set_solver|].
    split_and!; [done| |done]. unfold recorded in *. cbn.
    rewrite list_lookup_insert_ne; [done|]. intros ->. done.
  - intros Hs j Hj. rewrite (Hins AtLoop). cbn. destruct (decide (j = index)) as [->|Hne].
    + right. right. exists v. cbn. apply list_lookup_insert_eq. by eapply lookup_lt_Some.
    + destruct (inv_taken0 Hs j Hj) as [Hj'|Hj']; [|right; by apply (recorded_retain st)].
      left. rewrite Hrest in Hj'. set_solver.
  - rewrite (held_insert _ _ _ _ _ Hnone Hv), <- inv_retained0. done.
  - intros Hs Hret. apply inv_returned0; [done|].
    apply list_elem_of_lookup in Hret as [k Hk]. apply list_lookup_insert_Some in Hk as [(_ & [=] & _)|(_ & Hk)].
    by eapply list_elem_of_lookup_2.
Qed.

(** An index is taken by a worker at the head of its loop. *)
Lemma take_inv st i task :
  run_inv st -> stopped st = None -> workers st !! i = Some AtLoop ->
  tasks !! nextIndex st = Some task -> is_Some (executors !! task_object task) ->
  run_inv (with_worker (take_index st) i (Awaiting (nextIndex st))).
Proof.
  intros Hinv Hs Hi Ht Hx. destruct (awaited_insert _ _ _ Hi) as (rest & Hrest & Hins). cbn in Hrest.
  assert (forall j, j ∈ rest -> (j < nextIndex st)%nat) as Hbelow.
  { intros j Hj. apply (inv_open _ Hinv). by rewrite Hrest. }
  pose proof (lookup_lt_Some _ _ _ Ht) as Hlt.
  destruct Hinv. split; cbn; try done.
  - intros j f Hj. apply inv_failures0 in Hj as [? ?]. split; [lia|done].
  - intros j v Hj. apply inv_resolutions0 in Hj as [? ?]. split; [lia|done].
  - rewrite (Hins _). cbn. rewrite Hrest in inv_awaited0. apply NoDup_cons. split; [|done].
    intros Hj%Hbelow. lia.
  - intros j. rewrite (Hins _). cbn. rewrite elem_of_cons. intros [->|Hj].
    + split_and!; [lia| |by exists task]. unfold recorded. cbn.
      intros [[f Hf%inv_failures0]|[v Hv%inv_resolutions0]]; lia.
    + destruct (inv_open0 j) as (Hj1 & Hj2 & Hj3); [by rewrite Hrest|]. split_and!; [lia|done..].
  - intros _ j Hj. rewrite (Hins _). cbn. destruct (decide (j = nextIndex st)) as [->|Hne].
    + left. apply elem_of_cons. by left.
    + destruct (inv_taken0 Hs j) as [Hj'|Hj']; [lia| |right; exact Hj'].
      left. rewrite Hrest in Hj'. apply elem_of_cons. by right.
  - intros _ Hret. apply list_elem_of_lookup in Hret as [k Hk].
    apply list_lookup_insert_Some in Hk as [(_ & [=] & _)|(_ & Hk)].
    apply list_elem_of_lookup_2 in Hk. specialize (inv_returned0 Hs Hk). lia.
Qed.

(** An index without an executor is recorded at once. *)
Lemma skip_inv st task :
  run_inv st -> stopped st = None ->
  tasks !! nextIndex st = Some task -> executors !! task_object task = None ->
  run_inv (record_failure (take_index st) (nextIndex st) invalid_result).
Proof.
  intros Hinv Hs Ht Hx. pose proof (lookup_lt_Some _ _ _ Ht) as Hlt.
  assert (vs !! nextIndex st = Some (Failed invalid_result)) as Hv.
  { rewrite (verdicts_lookup _ _ Ht). unfold verdict. by rewrite Hx. }
  destruct Hinv. split; cbn; try done.
  - by rewrite length_insert.
  - intros j f Hj. apply list_lookup_insert_Some in Hj as [(<- & [= <-] & _)|(_ & Hj)]; [split; [lia|done]|].
    apply inv_failures0 in Hj as [? ?]. split; [lia|done].
  - intros j v Hj. apply inv_resolutions0 in Hj as [? ?]. split; [lia|done].
  - intros j Hj. destruct (inv_open0 j Hj) as (Hj1 & Hj2 & Hj3). split_and!; [lia| |done].
    unfold recorded in *. cbn. rewrite list_lookup_insert_ne; [done|lia].
  - intros _ j Hj. destruct (decide (j = nextIndex st)) as [->|Hne].
    + right. left. exists invalid_result. cbn. apply list_lookup_insert_eq. destruct inv_lengths0. lia.
    + destruct (inv_taken0 Hs j) as [Hj'|Hj']; [lia|by left|].
      right. by apply (recorded_failure (take_index st)).
  - intros _ Hret. specialize (inv_returned0 Hs Hret). lia.
Qed.

Lemma step_inv_bounded st e : run_inv st -> run_inv (step st e).
Proof.
  intros Hinv. destruct e as [i|i|heard|]; cbn [stepEvent].
  - destruct (workers st !! i) as [[|index|]|] eqn:Hi; [|done..]. unfold resumeWorker.
    destruct (stopped st) as [reason|] eqn:Hs.
    { apply (return_inv st i AtLoop); [done..|by left|congruence]. }
    destruct (tasks !! nextIndex st) as [task|] eqn:Ht.
    + destruct (executors !! task_object task) as [x|] eqn:Hx.
      * by apply (take_inv st i task).
      * by apply (skip_inv st task).
    + apply (return_inv st i AtLoop); [done..|by left|]. intros _.
      apply lookup_ge_None in Ht. pose proof (inv_next _ Hinv). lia.
  - destruct (workers st !! i) as [[|index|]|] eqn:Hi; [done| |done..].
    destruct (tasks !! index) as [task|] eqn:Ht; [|done].
    destruct (executors !! task_object task) as [x|] eqn:Hx; [|done].
    assert (vs !! index = Some (judge task (execute x (task_object task)))) as Hv.
    { rewrite (verdicts_lookup _ _ Ht). unfold verdict. by rewrite Hx. }
    unfold settleWorker. destruct (judge task _) as [f|v bytes] eqn:Hj; [by apply fail_inv|].
    destruct (_ || _) eqn:Hover.
    + apply orb_true_iff in Hover as Hbytes. rewrite !N.ltb_lt in Hbytes.
      assert (exceeds executors limits tasks execute = true) as Hex.
      { unfold exceeds. apply orb_true_iff. destruct Hbytes as [Hb|Hb].
        - left. apply existsb_elem. exists (Resolved v bytes). split; [by eapply list_elem_of_lookup_2|].
          by apply N.ltb_lt.
        - right. apply N.ltb_lt. rewrite (inv_retained _ Hinv) in Hb.
          pose proof (elem_of_awaited _ _ _ Hi) as Hin.
          destruct (inv_open _ Hinv _ Hin) as (Hlt & Hopen & _).
          destruct (open_entries st index Hinv) as [Hnone _]; [pose proof (inv_next _ Hinv); lia|done|].
          pose proof (held_missing _ _ _ _ Hnone Hv) as Hmiss. cbn [bytes_of] in Hmiss. lia. }
      apply (return_inv _ i (Awaiting index)).
      * apply stop_inv; [done|by intros _|done].
      * unfold stop. by destruct (stopped st).
      * right. unfold stop. by destruct (stopped st) eqn:Hs; cbn; rewrite ?Hs.
      * unfold stop. by destruct (stopped st) eqn:Hs; cbn; rewrite ?Hs.
    + apply orb_false_iff in Hover as [H1 H2]. apply N.ltb_ge in H1, H2. by apply retain_inv.
  - assert (run_inv {| stopped := stopped st; signalAborted := true; resolutions := resolutions st;
                       failures := failures st; nextIndex := nextIndex st;
                       retainedResultBytes := retainedResultBytes st; workers := workers st |}) as Ha.
    { destruct Hinv. by split. }
    destruct heard; [|exact Ha].
    apply stop_inv; [exact Ha|done|done].
  - by apply stop_inv.
Qed.

Lemma run_events_inv events st : run_inv st -> run_inv (run st events).
Proof. revert st. induction events as [|e events IH]; intros st Hst; [done|]. cbn. by apply IH, step_inv_bounded. Qed.

(** ** A finished run *)

Definition finished (st : RunState) : Prop := nextIndex st = length tasks /\ awaited (workers st) = [].

Lemma all_returned_finished st :
  run_inv st -> stopped st = None -> workers st <> [] -> all_returned st = true -> finished st.
Proof.
  intros Hinv Hs Hne Hall. split; [|by apply awaited_returned].
  apply (inv_returned _ Hinv Hs). unfold all_returned in Hall. destruct (workers st) as [|w ws]; [done|].
  cbn in Hall. apply andb_true_iff in Hall as [Hw _]. destruct w; [done..|]. apply elem_of_cons. by left.
Qed.

(** Every task has its verdict on record. *)
Lemma finished_entry st i d :
  run_inv st -> stopped st = None -> finished st -> vs !! i = Some d ->
  failures st !! i = Some (failure_of d) /\ resolutions st !! i = Some (resolved_of d).
Proof.
  intros Hinv Hs [Hnext Haw] Hd. destruct (inv_lengths _ Hinv) as [Hr Hf].
  assert (i < length tasks)%nat as Hlt.
  { apply lookup_lt_Some in Hd. unfold verdicts in Hd. by rewrite length_map in Hd. }
  destruct (lookup_lt_is_Some_2 (failures st) i) as [f Hfi]; [lia|].
  destruct (lookup_lt_is_Some_2 (resolutions st) i) as [v Hvi]; [lia|].
  destruct (inv_taken _ Hinv Hs i) as [Ha|Hrec]; [lia|rewrite Haw in Ha; by apply not_elem_of_nil in Ha|].
  rewrite Hfi, Hvi. destruct f as [f|].
  - destruct (inv_failures _ Hinv _ _ Hfi) as [_ Hd']. rewrite Hd in Hd'. injection Hd' as ->.
    destruct v as [v|]; [|done]. destruct (inv_resolutions _ Hinv _ _ Hvi) as (_ & b & Hd' & _).
    by rewrite Hd in Hd'.
  - destruct v as [v|].
    + destruct (inv_resolutions _ Hinv _ _ Hvi) as (_ & b & Hd' & _). rewrite Hd in Hd'.
      by injection Hd' as ->.
    + unfold recorded in Hrec. rewrite Hfi, Hvi in Hrec. naive_solver.
Qed.

Lemma finished_record st :
  run_inv st -> stopped st = None -> finished st ->
  failures st = map failure_of vs /\ resolutions st = map resolved_of vs.
Proof.
  intros Hinv Hs Hfin. destruct (inv_lengths _ Hinv) as [Hr Hf].
  assert (length vs = length tasks) as Hlen by (unfold verdicts; by rewrite length_map).
  split; apply list_eq; intros i; rewrite list_lookup_fmap.
  all: destruct (vs !! i) as [d|] eqn:Hd; [destruct (finished_entry st i d Hinv Hs Hfin Hd); done|].
  all: apply lookup_ge_None in Hd; cbn; apply lookup_ge_None; lia.
Qed.

Lemma finished_fits st :
  run_inv st -> stopped st = None -> finished st -> exceeds executors limits tasks execute = false.
Proof.
  intros Hinv Hs Hfin. destruct (finished_record st Hinv Hs Hfin) as [_ Hr]. unfold exceeds.
  apply orb_false_iff. split.
  - apply not_true_iff_false. rewrite existsb_elem. intros (d & Hd & Hlt%N.ltb_lt).
    apply list_elem_of_lookup in Hd as [i Hd].
    destruct (finished_entry st i d Hinv Hs Hfin Hd) as [_ Hv].
    destruct d as [f|v b]; cbn in *; [lia|].
    destruct (inv_resolutions _ Hinv _ _ Hv) as (_ & b' & Hd' & Hle). rewrite Hd in Hd'.
    injection Hd' as ->. lia.
  - apply N.ltb_ge. rewrite <- held_all, <- Hr, <- (inv_retained _ Hinv). apply (inv_total _ Hinv).
Qed.

Lemma entries_read (get : nat -> Task -> bounded BoundedResolutionEntry) (ts : list Task) n :
  (forall i task, ts !! i = Some task ->
     exists e, entry executors execute task = Some e /\ get (n + i)%nat task = Ok e) ->
  rmapM (fun p => get p.1 p.2) (imap (fun index task => ((n + index)%nat, task)) ts)
  = Ok (omap (entry executors execute) ts).
Proof.
  revert n. induction ts as [|task ts IH]; intros n Hall; [done|].
  destruct (Hall 0%nat task eq_refl) as (e & He & Hg). cbn [imap rmapM fst snd omap list_omap].
  rewrite Hg, He. cbn [mbind res_mbind].
  erewrite (imap_ext _ (fun index task => ((S n + index)%nat, task))) by (intros i x _; cbn; f_equal; lia).
  rewrite (IH (S n)); [done|]. intros i t Hi. replace (S n + i)%nat with (n + S i)%nat by lia. by apply Hall.
Qed.

Lemma conclude_finished st :
  run_inv st -> stopped st = None -> finished st -> all_returned st = true ->
  conclude tasks st = Some (if signalAborted st then Err (failure cancelled)
                            else sequentialOutcome executors limits tasks execute).
Proof.
  intros Hinv Hs Hfin Hall. unfold conclude. rewrite Hs, Hall. f_equal.
  destruct (signalAborted st); [done|]. unfold sequentialOutcome.
  rewrite (finished_fits st Hinv Hs Hfin).
  destruct (finished_record st Hinv Hs Hfin) as [-> _]. fold (positions executors tasks execute invalid_result).
  fold (positions executors tasks execute execution). cbn [negb ensure mbind res_mbind].
  destruct (bool_decide (positions executors tasks execute invalid_result = [])) eqn:H1; [|done].
  destruct (bool_decide (positions executors tasks execute execution = [])) eqn:H2; [|done].
  cbn [ensure mbind res_mbind]. apply bool_decide_eq_true, failed_with_nil in H1, H2.
  apply (entries_read (entryOf st) tasks 0). intros i task Ht. cbn [Nat.add].
  pose proof (verdicts_lookup _ _ Ht) as Hv.
  destruct (finished_entry st i _ Hinv Hs Hfin Hv) as [_ Hr]. unfold entryOf, entry. rewrite Hr. cbn.
  destruct (verdict executors execute task) as [f|v b] eqn:Hd; cbn; [|by eexists].
  exfalso. assert (Some f ∈ map failure_of vs) as Hin.
  { apply list_elem_of_lookup. exists i. by rewrite list_lookup_fmap, Hv. }
  by destruct f.
Qed.

(** Whatever the call answers, it is the sequential outcome or an interruption. *)
Lemma conclude_outcome st o :
  run_inv st -> workers st <> [] -> conclude tasks st = Some o ->
  o = sequentialOutcome executors limits tasks execute \/
  (o = Err (failure cancelled) /\ signalAborted st = true) \/
  (o = Err (failure deadlineExceeded) /\ stopped st = Some stop_deadline).
Proof.
  intros Hinv Hne Hc. destruct (stopped st) as [[]|] eqn:Hs.
  1-3: unfold conclude in Hc; rewrite Hs in Hc; injection Hc as <-.
  - right. left. split; [done|]. by apply (inv_cancelled _ Hinv).
  - auto.
  - left. unfold sequentialOutcome. by rewrite (inv_resource _ Hinv Hs).
  - destruct (all_returned st) eqn:Hall; [|unfold conclude in Hc; by rewrite Hs, Hall in Hc].
    pose proof (all_returned_finished st Hinv Hs Hne Hall) as Hfin.
    rewrite (conclude_finished st Hinv Hs Hfin Hall) in Hc. injection Hc as <-.
    destruct (signalAborted st); auto.
Qed.

(** ** A run ends *)

(** The turns a worker has left with what it holds. *)
Definition work (w : Worker) : nat :=
  match w with AtLoop => 1 | Awaiting _ => 2 | Returned => 0 end.

Definition measure (st : RunState) : nat :=
  3 * (length tasks - nextIndex st) + sum_list_with work (workers st).

Lemma work_insert ws i w0 w :
  ws !! i = Some w0 ->
  (sum_list_with work (<[i := w]> ws) + work w0 = sum_list_with work ws + work w)%nat.
Proof.
  revert i. induction ws as [|v ws IH]; intros [|i] Hi; cbn in *; simplify_eq; [lia|].
  rewrite <- !Nat.add_assoc. f_equal. by apply IH.
Qed.

(** The event is the turn of a worker. *)
Definition turn_of (st : RunState) (e : Event) : Prop :=
  match e with
  | Resume i => workers st !! i = Some AtLoop
  | Settle i => exists index, workers st !! i = Some (Awaiting index)
  | SignalAborts _ | TimerFires => False
  end.

Lemma stop_workers st reason : workers (stop st reason) = workers st /\ nextIndex (stop st reason) = nextIndex st.
Proof. unfold stop. by destruct (stopped st). Qed.

Lemma turn_measure st e : run_inv st -> turn_of st e -> (measure (step st e) < measure st)%nat.
Proof.
  intros Hinv Hturn. pose proof (inv_next _ Hinv) as Hnext. destruct e as [i|i|heard|]; [..|done|done]; cbn in Hturn.
  - cbn [stepEvent]. rewrite Hturn.
    pose proof (work_insert _ _ _ Returned Hturn) as Hr.
    pose proof (fun j => work_insert _ _ _ (Awaiting j) Hturn) as Ha. unfold resumeWorker, measure.
    destruct (stopped st); [cbn in *; lia|].
    destruct (tasks !! nextIndex st) as [task|] eqn:Ht; [|cbn in *; lia].
    apply lookup_lt_Some in Ht. specialize (Ha (nextIndex st)).
    destruct (executors !! task_object task); cbn in *; lia.
  - destruct Hturn as [index Hi]. cbn [stepEvent]. rewrite Hi.
    pose proof (work_insert _ _ _ Returned Hi) as Hr. pose proof (work_insert _ _ _ AtLoop Hi) as Ha.
    destruct (inv_open _ Hinv index) as (_ & _ & task & -> & [x ->]); [by eapply elem_of_awaited|].
    unfold settleWorker, measure. destruct (stop_workers st stop_resource) as [Hw Hn].
    destruct (judge _ _) as [f|v b]; [cbn in *; lia|].
    destruct (_ || _); cbn [with_worker workers nextIndex retain]; rewrite ?Hw, ?Hn; cbn in *; lia.
Qed.

Lemma other_event st e :
  ~ turn_of st e -> workers (step st e) = workers st /\ nextIndex (step st e) = nextIndex st.
Proof.
  intros Hno. destruct e as [i|i|heard|]; cbn in *.
  - by destruct (workers st !! i) as [[]|].
  - destruct (workers st !! i) as [[]|]; [done| |done..]. exfalso. eauto.
  - destruct heard; [|done]. unfold stop. cbn. by destruct (stopped st).
  - apply stop_workers.
Qed.

#[local] Instance turn_of_dec st e : Decision (turn_of st e).
Proof.
  destruct e as [i|i|heard|]; cbn; [| |right; tauto..].
  - destruct (workers st !! i) as [[]|]; [by left|right; by intros [=]..].
  - destruct (workers st !! i) as [[|index|]|]; [right; by intros [? [=]]| |right; by intros [? [=]]..].
    left. by exists index.
Defined.

Lemma event_measure st e : run_inv st -> (measure (step st e) <= measure st)%nat.
Proof.
  intros Hinv. destruct (decide (turn_of st e)) as [Ht|Ht].
  - apply Nat.lt_le_incl. by apply turn_measure.
  - unfold measure. destruct (other_event st e Ht) as [-> ->]. lia.
Qed.

Lemma events_measure events st : run_inv st -> (measure (run st events) <= measure st)%nat.
Proof.
  revert st. induction events as [|e events IH]; intros st Hinv; [cbn; lia|]. cbn.
  etransitivity; [apply IH; by apply step_inv_bounded|by apply event_measure].
Qed.

Definition next_turn (i : nat) (w : Worker) : Event :=
  match w with AtLoop => Resume i | Awaiting _ | Returned => Settle i end.

(** A worker keeps its place until its turn comes. *)
Lemma turn_comes events st i w :
  run_inv st -> next_turn i w ∈ events -> workers st !! i = Some w -> w <> Returned ->
  (measure (run st events) < measure st)%nat.
Proof.
  revert st. induction events as [|e events IH]; intros st Hinv Hin Hi Hw; [by apply not_elem_of_nil in Hin|].
  change (run st (e :: events)) with (run (step st e) events).
  pose proof (step_inv_bounded st e Hinv) as Hinv'. pose proof (events_measure events _ Hinv') as Hrest.
  destruct (decide (turn_of st e)) as [Ht|Ht].
  { pose proof (turn_measure st e Hinv Ht). lia. }
  destruct (other_event st e Ht) as [Hws Hnext].
  assert (measure (step st e) = measure st) as Hsame by (unfold measure; by rewrite Hws, Hnext).
  rewrite <- Hsame. apply elem_of_cons in Hin as [<-|Hin].
  - exfalso. apply Ht. destruct w; cbn; naive_solver.
  - apply IH; [done..| |done]. by rewrite Hws.
Qed.

(** A round has a turn for every worker, whatever it is doing. *)
Definition fair_turns (n : nat) (round : list Event) : Prop :=
  forall i, (i < n)%nat -> Resume i ∈ round /\ Settle i ∈ round.

Lemma not_all_returned st : all_returned st = false -> exists i w, workers st !! i = Some w /\ w <> Returned.
Proof.
  unfold all_returned. induction (workers st) as [|w ws IH]; [done|]. cbn. intros [Hw|Hs]%andb_false_iff.
  - exists 0%nat, w. split; [done|]. by intros ->.
  - destruct (IH Hs) as (i & w' & Hi & Hw'). by exists (S i), w'.
Qed.

Lemma run_events_workers events st : length (workers (run st events)) = length (workers st).
Proof.
  revert st. induction events as [|e events IH]; intros st; [done|]. etransitivity; [apply IH|].
  destruct e as [i|i|heard|]; cbn; unfold resumeWorker, settleWorker, stop; repeat case_match; cbn;
    by rewrite ?length_insert.
Qed.

Lemma returned_work ws :
  forallb (fun w => match w with Returned => true | _ => false end) ws = true <-> sum_list_with work ws = 0%nat.
Proof.
  induction ws as [|w ws IH]; [done|]. cbn. rewrite andb_true_iff, IH. destruct w; cbn; intuition lia.
Qed.

Lemma all_returned_kept events st :
  run_inv st -> all_returned st = true -> all_returned (run st events) = true.
Proof.
  revert st. induction events as [|e events IH]; intros st Hinv Hall; [done|].
  change (run st (e :: events)) with (run (step st e) events). apply IH; [by apply step_inv_bounded|].
  unfold all_returned in *. destruct (decide (turn_of st e)) as [Ht|Ht].
  - exfalso. rewrite forallb_elem in Hall. destruct e as [i|i|heard|]; cbn in Ht; [..|done|done].
    + apply list_elem_of_lookup_2 in Ht. by specialize (Hall _ Ht).
    + destruct Ht as [index Ht]. apply list_elem_of_lookup_2 in Ht. by specialize (Hall _ Ht).
  - by destruct (other_event st e Ht) as [-> _].
Qed.

Lemma fair_rounds_return rounds st :
  run_inv st -> Forall (fair_turns (length (workers st))) rounds -> (measure st <= length rounds)%nat ->
  all_returned (run st (mjoin rounds)) = true.
Proof.
  revert st. induction rounds as [|round rounds IH]; intros st Hinv Hfair Hm.
  - unfold all_returned, measure in *. cbn in *. apply returned_work. lia.
  - destruct (all_returned st) eqn:Hall; [by apply all_returned_kept|].
    apply Forall_cons in Hfair as [Hround Hfair]. rewrite mjoin_cons. unfold runEvents.
    rewrite fold_left_app. change (all_returned (run (run st round) (mjoin rounds)) = true).
    apply IH; [by apply run_events_inv|by rewrite run_events_workers|].
    apply not_all_returned in Hall as (i & w & Hi & Hw).
    assert (measure (run st round) < measure st)%nat; [|cbn [length] in Hm; lia].
    eapply (turn_comes round st i w); [done| |done..].
    destruct (Hround i); [by eapply lookup_lt_Some|]. by destruct w.
Qed.

Lemma start_measure aborted :
  (measure (startRun limits tasks aborted) <= 4 * length tasks)%nat.
Proof.
  assert (forall n, sum_list_with work (replicate n AtLoop) = n) as Hn.
  { induction n as [|n IH]; [done|]. cbn. by rewrite IH. }
  destruct aborted; unfold measure; cbn; rewrite Hn; lia.
Qed.

(** ** Interruptions *)

Definition is_abort (e : Event) : bool := match e with SignalAborts _ => true | _ => false end.

(** A run is interrupted by the signal or the timer only. *)
Lemma run_interruptions events st :
  (signalAborted (run st events) = true -> signalAborted st = true \/ existsb is_abort events = true) /\
  (stopped (run st events) = Some stop_deadline -> stopped st = Some stop_deadline \/ TimerFires ∈ events).
Proof.
  revert st. induction events as [|e events IH]; intros st; [cbn; tauto|].
  change (run st (e :: events)) with (run (step st e) events). destruct (IH (step st e)) as [Ha Ht].
  rewrite elem_of_cons. cbn [existsb]. rewrite orb_true_iff. split.
  - intros [Hs|Hs]%Ha; [|tauto]. destruct e as [i|i|heard|]; [..|by auto| ].
    all: left; revert Hs; cbn; unfold resumeWorker, settleWorker, stop; repeat case_match; cbn; congruence.
  - intros [Hs|Hs]%Ht; [|tauto]. destruct e as [i|i|heard|]; [..|by auto].
    all: left; revert Hs; cbn; unfold resumeWorker, settleWorker, stop; repeat (case_match; cbn in *); try congruence.
Qed.

(** ** Which executors an event starts *)

Lemma awaited_insert_in ws i w0 w j :
  ws !! i = Some w0 -> j ∈ awaited (<[i := w]> ws) -> j ∈ waits w \/ j ∈ awaited ws.
Proof.
  intros Hi Hj. destruct (awaited_insert _ _ _ Hi) as (rest & -> & Hins).
  rewrite (Hins w) in Hj. set_solver.
Qed.

Lemma started_executors st e j :
  j ∈ awaited (workers (step st e)) ->
  j ∈ awaited (workers st) \/ (j = nextIndex st /\ nextIndex (step st e) = S j /\ stopped st = None).
Proof.
  intros Hj. destruct (decide (turn_of st e)) as [Ht|Ht];
    [|left; by destruct (other_event st e Ht) as [<- _]].
  destruct e as [i|i|heard|]; [..|done|done]; cbn in Ht.
  - cbn [stepEvent] in *. rewrite Ht in *. unfold resumeWorker in *.
    destruct (stopped st) as [reason|] eqn:Hs.
    { apply (awaited_insert_in _ _ _ _ _ Ht) in Hj as [[]%not_elem_of_nil|Hj]. by left. }
    destruct (tasks !! nextIndex st) as [task|].
    + destruct (executors !! task_object task); [|by left].
      apply (awaited_insert_in _ _ _ _ _ Ht) in Hj as [->%list_elem_of_singleton|Hj]; [right|left]; done.
    + apply (awaited_insert_in _ _ _ _ _ Ht) in Hj as [[]%not_elem_of_nil|Hj]. by left.
  - left. destruct Ht as [index Hi]. cbn [stepEvent] in Hj. rewrite Hi in Hj.
    destruct (tasks !! index) as [task|]; [|done]. destruct (executors !! task_object task) as [x|]; [|done].
    unfold settleWorker in Hj. destruct (judge _ _) as [f|v b].
    { apply (awaited_insert_in _ _ _ _ _ Hi) in Hj as [[]%not_elem_of_nil|Hj]. done. }
    destruct (_ || _); cbn [with_worker workers retain] in Hj;
      rewrite ?(proj1 (stop_workers st stop_resource)) in Hj;
      by apply (awaited_insert_in _ _ _ _ _ Hi) in Hj as [[]%not_elem_of_nil|Hj].
Qed.
End run.
