(* ===== verification/BoundedResolutionLaws.v ===== *)
(** Theorems about bounded resolution: what is admitted, the registry of issued
    tasks, and the call as a whole: it refines the sequential reading of its
    tasks, settles under fair turns, and its answer depends neither on the
    arrangement of the tasks nor on limits or the order of events. *)
From S2P Require Import Prelude JsString OrderedMap Unicode RepositoryPath ObjectGraph JsonText CanonicalDigest RuleDiagnostics RuleDiagnosticsLaws BoundedResolution BoundedRunLaws.
From stdpp Require Import gmap.

(** ** Limits *)

(** A limit lies between one and its hard ceiling. *)
Definition within_ceiling (l : BoundedResolutionLimits) : Prop :=
  Forall (fun k => 1 <= limit_get k l <= limit_get k BOUNDED_RESOLUTION_HARD_LIMITS)%N LIMIT_KEYS.

Lemma limit_set_ceiling k n l :
  k ∈ LIMIT_KEYS -> (1 <= n <= limit_get k BOUNDED_RESOLUTION_HARD_LIMITS)%N ->
  within_ceiling l -> within_ceiling (limit_set k n l).
Proof.
  unfold within_ceiling, LIMIT_KEYS. intros Hk Hn Hl. repeat (apply Forall_cons in Hl as [? Hl]).
  rewrite !elem_of_cons in Hk. destruct Hk as [->|[->|[->|[->|[->|[->|Hk]]]]]].
  7: by apply not_elem_of_nil in Hk.
  all: repeat (apply Forall_cons; split); cbn in *; try done.
Qed.

Lemma positiveLimit_Ok v maximum n : positiveLimit v maximum = Ok n -> (1 <= n <= maximum)%N.
Proof.
  destruct v; try done. destruct x; try done. cbn. intros [Hb Hn]%bind_ensure. injection Hn as <-.
  bool_prop. lia.
Qed.

Lemma selectLimit_within record selected p selected' :
  within_ceiling selected -> selectLimit record selected p = Ok selected' -> within_ceiling selected'.
Proof.
  intros Hs H. unfold selectLimit in H. destruct (prop_key p) as [key|]; [|done].
  destruct (find _ LIMIT_KEYS) as [k|] eqn:Hk; [|by injection H as <-].
  apply find_some in Hk as [Hk _]. apply list_elem_of_In in Hk.
  apply bind_Ok in H as (limit & _ & H). apply bind_Ok in H as (n & Hn & H). injection H as <-.
  apply limit_set_ceiling; [done| |done]. by apply positiveLimit_Ok in Hn.
Qed.

Lemma normalizeOptions_within h v limits signal :
  normalizeOptions h v = Ok (limits, signal) ->
  within_ceiling limits /\ (maximumResultBytes limits <= maximumTotalResultBytes limits)%N.
Proof.
  assert (within_ceiling BOUNDED_RESOLUTION_DEFAULT_LIMITS) as Hd.
  { unfold within_ceiling, LIMIT_KEYS. repeat (apply Forall_cons; split); cbn; try lia. done. }
  intros H. assert (v = VUndefined \/ exists record selected,
    foldM (selectLimit record) BOUNDED_RESOLUTION_DEFAULT_LIMITS record = Ok selected /\
    (maximumResultBytes selected <= maximumTotalResultBytes selected)%N /\ limits = selected)
    as [->|(record & selected & Hf & Hle & ->)].
  { destruct v; [by left|right..].
    all: cbn [normalizeOptions] in H; apply bind_Ok in H as (record & _ & H);
      apply bind_ensure in H as [_ H]; apply bind_Ok in H as (selected & Hf & H);
      apply bind_ensure in H as [Hle%N.leb_le H]; apply bind_Ok in H as (sig & _ & H);
      injection H as <- _; by exists record, selected. }
  - injection H as <- _. split; [done|]. cbn. lia.
  - split; [|done].
    apply (foldM_inv (fun _ l => within_ceiling l) _ _ _ _) in Hf; [exact Hf|exact Hd|].
    intros done_ x l l' Hl _ Hx. by eapply selectLimit_within.
Qed.

Lemma normalizeOptions_bounds h v limits signal :
  normalizeOptions h v = Ok (limits, signal) -> (1 <= maximumConcurrency limits)%N.
Proof.
  intros [Hw _]%normalizeOptions_within. unfold within_ceiling, LIMIT_KEYS in Hw.
  apply Forall_cons in Hw as [[H _] _]. exact H.
Qed.

(** ** Texts and descriptors *)

Lemma visibleText_wf s : visibleText s = true -> wf_text s.
Proof.
  unfold wf_text. induction s as [|u|u v r IH1 IH2] using jstring_ind2; [done| |].
  - cbn. destruct (is_high u); [done|]. by destruct (is_low u).
  - intros Hs. rewrite wf_cons2. cbn in Hs. destruct (is_high u).
    + apply andb_true_iff in Hs as [-> Hs]. by apply IH1.
    + apply andb_true_iff in Hs as [Hs Hr]. apply andb_true_iff in Hs as [Hl _].
      apply negb_true_iff in Hl. rewrite Hl. by apply IH2.
Qed.

(** A text that was accepted, and the limits that accept it again. *)
Definition accepted (maximum : N) (s : jstring) : Prop :=
  visibleText s = true /\ s <> [] /\ (textBytes s <= maximum)%N.

Lemma wellFormedText_Ok v maximum s :
  wellFormedText v maximum = Ok s <-> v = VString s /\ accepted maximum s.
Proof.
  unfold wellFormedText, accepted. split.
  - destruct v; try done. intros H. apply bind_ensure in H as [Hv H]. apply bind_ensure in H as [Hn H].
    apply bind_ensure in H as [Hb%N.leb_le H]. injection H as <-.
    apply negb_true_iff, jeqb_neq in Hn. done.
  - intros (-> & Hv & Hn & Hb). rewrite Hv, (proj2 (jeqb_neq s []) Hn), (proj2 (N.leb_le _ _) Hb). done.
Qed.

Lemma acceptedText_Ok accepts v s : acceptedText accepts v = Ok s <-> v = VString s /\ accepts s = true.
Proof.
  unfold acceptedText. split.
  - destruct v; try done. intros [Hs H]%bind_ensure. by injection H as <-.
  - intros [-> ->]. done.
Qed.

Lemma clientVersionText_Ok v o :
  clientVersionText v = Ok o <->
  v = VText o /\ match o with
                 | None => True
                 | Some s => accepted (maximumTaskIdBytes BOUNDED_RESOLUTION_HARD_LIMITS) s
                 end.
Proof.
  assert (forall s, hardText v = Ok s <-> v = VString s /\
            accepted (maximumTaskIdBytes BOUNDED_RESOLUTION_HARD_LIMITS) s) as Hh.
  { intros s. apply wellFormedText_Ok. }
  split.
  - intros H. assert ((v = VNull /\ o = None) \/ exists s, hardText v = Ok s /\ o = Some s)
      as [[-> ->]|(s & Hs%Hh & ->)]; [|done|done].
    destruct v; cbn [clientVersionText] in H; try (apply fmap_Ok in H; naive_solver).
    left. by injection H as <-.
  - destruct o as [s|]; intros [-> Ho]; [|done]. cbn [VText of_option clientVersionText] in *.
    rewrite (proj2 (Hh s)); [done|]. by split.
Qed.

(** The conditions on the fields of a task. *)
Definition valid_descriptor (idBytes : N) (d : EffectiveContextResolutionTaskDescriptor) : Prop :=
  let hard := accepted (maximumTaskIdBytes BOUNDED_RESOLUTION_HARD_LIMITS) in
  match clientVersion d with None => True | Some s => hard s end /\
  accepted idBytes (id_ d) /\
  existsb (jeqb (profileId d)) EffectiveContextCache.CONFIGURATION_PROFILE_IDS = true /\
  hard (profileVersion d) /\ hard (specSnapshotId d) /\ hard (surfaceId d) /\
  isRepositoryRelativePath (targetPath d) = true.

(** What a record says about a task. *)
Definition states (record : DataRecord) (d : EffectiveContextResolutionTaskDescriptor) : Prop :=
  Forall (fun f => enumerable_data (descriptor record f.1) = Some f.2) (descriptorFields d).

Lemma field_Ok record key code v : field record key code = Ok v <-> enumerable_data (descriptor record key) = Some v.
Proof. unfold field. destruct (enumerable_data _); naive_solver. Qed.

(** Reading a descriptor succeeds exactly for a closed record that states valid
    fields. *)
Lemma normalizeDescriptor_Ok h v idBytes d :
  normalizeDescriptor h v idBytes = Ok d <->
  exists record, closedRecord h v DESCRIPTOR_KEYS invalidInput = Ok record /\
    states record d /\ valid_descriptor idBytes d.
Proof.
  unfold normalizeDescriptor, states, valid_descriptor, descriptorFields. split.
  - intros H. apply bind_Ok in H as (record & Hr & H). exists record. split; [done|].
    do 7 (apply bind_Ok in H as (? & ?%field_Ok & H); apply bind_Ok in H as (? & ? & H)).
    injection H as <-. cbn [clientVersion id_ profileId profileVersion specSnapshotId surfaceId targetPath].
    unfold hardText in *.
    repeat match goal with
           | Hx : wellFormedText _ _ = Ok _ |- _ => apply wellFormedText_Ok in Hx as [-> Hx]
           | Hx : acceptedText _ _ = Ok _ |- _ => apply acceptedText_Ok in Hx as [-> Hx]
           | Hx : clientVersionText _ = Ok _ |- _ => apply clientVersionText_Ok in Hx as [-> Hx]
           end.
    split; [|by split_and!]. by repeat (apply Forall_cons; split; [done|]).
  - intros (record & Hr & Hs & Hc & Hi & Hp & Hv & Hsp & Hsu & Ht). rewrite Hr. cbn [mbind res_mbind].
    repeat (apply Forall_cons in Hs as [?%(field_Ok _ _ invalidInput) Hs]). cbn [fst snd] in *.
    repeat match goal with Hx : field _ _ _ = Ok _ |- _ => rewrite Hx; clear Hx; cbn [mbind res_mbind] end.
    rewrite (proj2 (clientVersionText_Ok _ _) (conj eq_refl Hc)). cbn [mbind res_mbind].
    rewrite (proj2 (wellFormedText_Ok _ _ _) (conj eq_refl Hi)). cbn [mbind res_mbind].
    rewrite (proj2 (acceptedText_Ok _ _ _) (conj eq_refl Hp)). cbn [mbind res_mbind]. unfold hardText.
    rewrite (proj2 (wellFormedText_Ok _ _ _) (conj eq_refl Hv)). cbn [mbind res_mbind].
    rewrite (proj2 (wellFormedText_Ok _ _ _) (conj eq_refl Hsp)). cbn [mbind res_mbind].
    rewrite (proj2 (wellFormedText_Ok _ _ _) (conj eq_refl Hsu)). cbn [mbind res_mbind].
    rewrite (proj2 (acceptedText_Ok _ _ _) (conj eq_refl Ht)). by destruct d.
Qed.

Lemma states_functional record d d' : states record d -> states record d' -> d = d'.
Proof.
  unfold states, descriptorFields. intros H H'.
  repeat (apply Forall_cons in H as [? H]). repeat (apply Forall_cons in H' as [? H']). cbn [fst snd] in *.
  destruct d as [c i p pv s su t], d' as [c' i' p' pv' s' su' t']; cbn in *. simplify_eq.
  f_equal. by destruct c, c'; simplify_eq/=.
Qed.

(** The limit of identifiers does not change what is read. *)
Lemma normalizeDescriptor_functional h v n n' d d' :
  normalizeDescriptor h v n = Ok d -> normalizeDescriptor h v n' = Ok d' -> d = d'.
Proof.
  intros (r & Hr & Hs & _)%normalizeDescriptor_Ok (r' & Hr' & Hs' & _)%normalizeDescriptor_Ok.
  rewrite Hr in Hr'. apply Ok_inj in Hr' as <-. by eapply states_functional.
Qed.

(** The record of an issued task reads back as its descriptor. *)
Lemma descriptorFields_read h l d n :
  h l = Some (record_object (descriptorFields d)) -> valid_descriptor n d ->
  normalizeDescriptor h (VRef l) n = Ok d.
Proof.
  intros Hl Hd. apply normalizeDescriptor_Ok. exists (obj_own (record_object (descriptorFields d))).
  split_and!; [| |done].
  - unfold closedRecord, dataRecord. cbn [object_of]. rewrite Hl. reflexivity.
  - unfold states. setoid_rewrite record_descriptor.
    repeat (apply Forall_cons; split; [reflexivity|]). done.
Qed.

(** ** Order and relationships *)

#[export] Instance compareDescriptors_comparison : Comparison compareDescriptors.
Proof.
  unfold compareDescriptors. repeat apply or_else_comparison; try apply (on_comparison _ _).
Qed.

#[export] Instance compareTasks_comparison : Comparison compareTasks.
Proof. apply (on_comparison task_descriptor compareDescriptors). Qed.

(** What a task must match, with the version of its client. *)
Definition relationship (d : EffectiveContextResolutionTaskDescriptor) :=
  (profileId d, surfaceId d, profileVersion d, specSnapshotId d, clientVersion d, targetPath d).

(** The key is one for each relationship. *)
Lemma taskRelationshipKey_inj d d' :
  taskRelationshipKey d = taskRelationshipKey d' <-> relationship d = relationship d'.
Proof.
  unfold taskRelationshipKey, relationship. split.
  - assert (forall o, json_data (VText o)) as Ht by (intros [s|]; constructor).
    intros H. apply JSON_stringify_inj in H;
      [|constructor; repeat (apply Forall_cons; split; [first [apply Ht|constructor]|]); done..].
    destruct d as [c i p pv s su t], d' as [c' i' p' pv' s' su' t']. cbn in *.
    injection H as -> -> -> -> Hc ->. destruct c, c'; cbn in Hc; congruence.
  - by intros [= -> -> -> -> -> ->].
Qed.

(** ** Admission of tasks *)

Section admission.
Context {Exec : Type} (p : Process Exec).

(** The value is an issued task, admitted as this one. *)
Definition admitted_as (idBytes : N) (v : value) (t : Task) : Prop :=
  v = VRef (task_object t) /\ task_object t ∈ ISSUED_TASKS p /\ task_object t ∈ frozen p /\
  normalizeDescriptor (process_heap p) v idBytes = Ok (task_descriptor t).

Definition ids (ts : list Task) : list jstring := map (fun t => id_ (task_descriptor t)) ts.
Definition relationships (ts : list Task) := map (fun t => relationship (task_descriptor t)) ts.

Lemma admitTask_Ok limits a v a' :
  admitTask p limits a v = Ok a' ->
  exists t, admitted_as (maximumTaskIdBytes limits) v t /\
    id_ (task_descriptor t) ∉ adm_ids a /\
    taskRelationshipKey (task_descriptor t) ∉ adm_relationships a /\
    adm_tasks a' = adm_tasks a ++ [t] /\ adm_ids a' = id_ (task_descriptor t) :: adm_ids a /\
    adm_relationships a' = taskRelationshipKey (task_descriptor t) :: adm_relationships a.
Proof.
  assert (forall s l, negb (existsb (jeqb s) l) = true -> s ∉ l) as Hnew.
  { intros s l Hn%negb_true_iff Hin. apply not_true_iff_false in Hn. apply Hn, existsb_elem.
    exists s. split; [done|]. apply jeqb_refl. }
  intros H. unfold admitTask in H. destruct v as [| | | | | | |l| |]; try done.
  apply bind_ensure in H as [[Hi Hf]%andb_true_iff H]. apply bool_decide_eq_true in Hi, Hf.
  apply bind_Ok in H as (d & Hd & H). apply bind_ensure in H as [Hid%Hnew H].
  apply bind_ensure in H as [Hrel%Hnew H]. injection H as <-.
  by exists {| task_object := l; task_descriptor := d |}.
Qed.

(** The admitted tasks, one for each value, without repeated identifiers or
    relationships. *)
Lemma admitTasks_Ok limits raw a :
  foldM (admitTask p limits) {| adm_tasks := []; adm_ids := []; adm_relationships := [] |} raw = Ok a ->
  Forall2 (admitted_as (maximumTaskIdBytes limits)) raw (adm_tasks a) /\
  NoDup (ids (adm_tasks a)) /\ NoDup (relationships (adm_tasks a)).
Proof.
  intros H.
  apply (foldM_inv (fun done_ a =>
    Forall2 (admitted_as (maximumTaskIdBytes limits)) done_ (adm_tasks a) /\
    NoDup (ids (adm_tasks a)) /\ NoDup (relationships (adm_tasks a)) /\
    (forall s, s ∈ ids (adm_tasks a) -> s ∈ adm_ids a) /\
    (forall t, t ∈ adm_tasks a -> taskRelationshipKey (task_descriptor t) ∈ adm_relationships a))) in H.
  - by destruct H as (? & ? & ? & _).
  - split_and!; [constructor|constructor|constructor|by intros s Hs|].
    intros t Ht. by apply not_elem_of_nil in Ht.
  - intros done_ v a0 a' (Hall & Hids & Hrels & Hseen & Hkeys) _ Hv.
    apply admitTask_Ok in Hv as (t & Ht & Hid & Hrel & -> & -> & ->).
    split_and!.
    + apply Forall2_app; [done|]. by constructor.
    + unfold ids in *. rewrite map_app. apply NoDup_app. split_and!; [done| |apply NoDup_singleton].
      intros s Hs Hst. apply list_elem_of_singleton in Hst as ->. apply Hid. by apply Hseen.
    + unfold relationships in *. rewrite map_app. apply NoDup_app. split_and!; [done| |apply NoDup_singleton].
      intros r (t' & -> & Ht')%list_elem_of_fmap Hr%list_elem_of_singleton. apply Hrel.
      apply taskRelationshipKey_inj in Hr. rewrite <- Hr. by apply Hkeys.
    + intros s. unfold ids. rewrite map_app. cbn [map]. rewrite elem_of_app, list_elem_of_singleton, elem_of_cons.
      intros [Hs|Hs]; [right; by apply Hseen|by left].
    + intros t'. rewrite elem_of_app, list_elem_of_singleton. intros [Ht'| ->]; apply elem_of_cons; [|by left].
      right. by apply Hkeys.
Qed.

Lemma normalizeTasks_Ok v limits tasks :
  normalizeTasks p v limits = Ok tasks ->
  exists raw admitted,
    denseArray (process_heap p) v (maximumTasks limits) = Ok raw /\
    Forall2 (admitted_as (maximumTaskIdBytes limits)) raw admitted /\
    NoDup (ids admitted) /\ NoDup (relationships admitted) /\
    tasks = sorted_with compareTasks admitted.
Proof.
  intros H. unfold normalizeTasks in H. apply bind_Ok in H as (raw & Hraw & H).
  apply bind_Ok in H as (a & Ha & H). injection H as <-.
  apply admitTasks_Ok in Ha as (? & ? & ?). by exists raw, (adm_tasks a).
Qed.

Lemma task_functional n n' v t t' : admitted_as n v t -> admitted_as n' v t' -> t = t'.
Proof.
  intros (-> & _ & _ & Hd) (E & _ & _ & Hd'). injection E as E.
  pose proof (normalizeDescriptor_functional _ _ _ _ _ _ Hd Hd') as Hdd.
  destruct t, t'; cbn in *. by subst.
Qed.

Lemma admitted_same n n' raw ts ts' :
  Forall2 (admitted_as n) raw ts -> Forall2 (admitted_as n') raw ts' -> ts = ts'.
Proof.
  intros H. revert ts'. induction H as [|v t raw ts Hv H IH]; intros ts' H'; inversion H'; subst; [done|].
  f_equal; [by eapply task_functional|by apply IH].
Qed.

(** Identifiers of tasks are texts of the language. *)
Definition unit_ids : Prop := forall l n d,
  normalizeDescriptor (process_heap p) (VRef l) n = Ok d -> js_units (id_ d).

Lemma admitted_no_ties n raw ts :
  unit_ids -> Forall2 (admitted_as n) raw ts -> NoDup (ids ts) ->
  forall t t', t ∈ ts -> t' ∈ ts -> compareTasks t t' = Eq -> t = t'.
Proof.
  intros Hu Hall Hnd t t' Ht Ht' Heq.
  apply (distinct_by_id (fun t => id_ (task_descriptor t)) ts Hnd); [|done..|].
  - rewrite Forall_map, Forall_forall. intros t0 Ht0. apply list_elem_of_lookup in Ht0 as [i Hi].
    destruct (Forall2_lookup_r _ _ _ _ _ Hall Hi) as (v & _ & -> & _ & _ & Hd). split; [by eapply Hu|].
    apply normalizeDescriptor_Ok in Hd as (_ & _ & _ & _ & [Hv _] & _). by apply visibleText_wf.
  - unfold compareTasks, compareDescriptors in Heq. rewrite !or_else_Eq in Heq. tauto.
Qed.

(** The order of the array and the limits leave no mark on the tasks. *)
Lemma normalizeTasks_arrangement v v' limits limits' m m' raw raw' tasks tasks' :
  unit_ids ->
  denseArray (process_heap p) v m = Ok raw -> denseArray (process_heap p) v' m' = Ok raw' -> raw ≡ₚ raw' ->
  normalizeTasks p v limits = Ok tasks -> normalizeTasks p v' limits' = Ok tasks' ->
  tasks = tasks'.
Proof.
  assert (forall v m n (r r' : list value),
    denseArray (process_heap p) v m = Ok r -> denseArray (process_heap p) v n = Ok r' -> r = r') as Hdense.
  { unfold denseArray. intros w m1 n1 r1 r1' H1 H1'. destruct (object_of _ w); [|done].
    apply bind_ensure in H1 as [_ H1], H1' as [_ H1']. apply bind_ensure in H1 as [_ H1], H1' as [_ H1'].
    apply bind_ensure in H1 as [_ H1], H1' as [_ H1']. congruence. }
  intros Hu Hr Hr' Hp (raw0 & ts & H0 & Hts & Hnd & _ & ->)%normalizeTasks_Ok
    (raw1 & ts' & H1 & Hts' & Hnd' & _ & ->)%normalizeTasks_Ok.
  rewrite (Hdense _ _ _ _ _ H0 Hr) in Hts. rewrite (Hdense _ _ _ _ _ H1 Hr') in Hts'.
  destruct (Permutation_Forall2 Hp Hts) as (ts2 & Hp2 & Hts2).
  rewrite (admitted_same _ _ _ _ _ Hts' Hts2). apply (sorted_with_canonical compareTasks); [|done].
  by eapply admitted_no_ties.
Qed.
End admission.

(** ** The registries of the process *)

Section process.
Context `{IssuedResolutions} {Exec : Type}.

(** A step of the process: a task is created, a call answers, or the rest of the
    program runs, which can neither change a frozen object nor reach the
    registries. *)
Inductive process_step (p p' : Process Exec) : Prop :=
| step_create descriptor x l :
    createEffectiveContextResolutionTask p descriptor x = Ok (p', l) -> process_step p p'
| step_resolve aborted execute events v options answer :
    resolveEffectiveContextsBounded p aborted execute events v options = Some (Ok (p', answer)) ->
    process_step p p'
| step_program :
    (forall l, l ∈ frozen p -> l ∈ frozen p' /\ process_heap p' l = process_heap p l) ->
    (next p <= next p')%N -> (forall l, l ∈ frozen p' -> (l < next p')%N) ->
    ISSUED_TASKS p' = ISSUED_TASKS p -> TASK_EXECUTORS p' = TASK_EXECUTORS p ->
    ISSUED_RESULTS p' = ISSUED_RESULTS p -> process_step p p'.

(** The module as it is loaded. *)
Definition loaded (p : Process Exec) : Prop :=
  (forall l, l ∈ frozen p -> (l < next p)%N) /\
  ISSUED_TASKS p = ∅ /\ TASK_EXECUTORS p = ∅ /\ ISSUED_RESULTS p = ∅.

Definition reachable (p : Process Exec) : Prop := exists p0, loaded p0 /\ rtc process_step p0 p.

(** An issued task is a frozen record of a valid descriptor, and has an executor. *)
Definition issued_task (p : Process Exec) (l : loc) : Prop :=
  l ∈ frozen p /\ is_Some (TASK_EXECUTORS p !! l) /\
  exists d, process_heap p l = Some (record_object (descriptorFields d)) /\
    valid_descriptor (maximumTaskIdBytes BOUNDED_RESOLUTION_HARD_LIMITS) d.

Record process_inv (p : Process Exec) : Prop := {
  pinv_frozen : forall l, l ∈ frozen p -> (l < next p)%N;
  pinv_tasks : forall l, l ∈ ISSUED_TASKS p -> issued_task p l;
  pinv_executors : forall l, is_Some (TASK_EXECUTORS p !! l) -> l ∈ ISSUED_TASKS p;
  pinv_results : forall l, l ∈ ISSUED_RESULTS p -> l ∈ frozen p /\ l ∉ ISSUED_TASKS p
}.

(** What a step keeps of a task. *)
Definition keeps (p p' : Process Exec) : Prop :=
  (forall l, l ∈ frozen p -> l ∈ frozen p' /\ process_heap p' l = process_heap p l) /\
  (forall l, l ∈ ISSUED_TASKS p -> l ∈ ISSUED_TASKS p' /\ TASK_EXECUTORS p' !! l = TASK_EXECUTORS p !! l) /\
  (forall l, l ∈ ISSUED_RESULTS p -> l ∈ ISSUED_RESULTS p').

Lemma issued_kept p p' l : keeps p p' -> l ∈ ISSUED_TASKS p -> issued_task p l -> issued_task p' l.
Proof.
  intros (Hf & Ht & _) Hl (Hfr & Hx & d & Hd & Hv). destruct (Hf l Hfr) as [Hfr' Hh].
  destruct (Ht l Hl) as [_ He]. unfold issued_task. rewrite He, Hh. eauto.
Qed.

Lemma createTask_Ok (p : Process Exec) descriptor x p' l :
  createEffectiveContextResolutionTask p descriptor x = Ok (p', l) ->
  exists d exec, normalizeDescriptor (process_heap p) descriptor
                   (maximumTaskIdBytes BOUNDED_RESOLUTION_HARD_LIMITS) = Ok d /\
    x = Some exec /\ l = next p /\ p' = issueTask (fst (allocate p (descriptorFields d))) l exec.
Proof.
  unfold createEffectiveContextResolutionTask. intros (d & Hd & H0)%bind_Ok.
  destruct x as [x|]; [|done]. injection H0 as <- <-. by exists d, x.
Qed.

Lemma fresh_heap (p : Process Exec) fields l :
  (l < next p)%N -> process_heap (allocate p fields).1 l = process_heap p l.
Proof. intros Hl. cbn. by rewrite (proj2 (N.eqb_neq l (next p))) by lia. Qed.

Lemma create_step (p : Process Exec) descriptor x p' l :
  process_inv p -> createEffectiveContextResolutionTask p descriptor x = Ok (p', l) ->
  process_inv p' /\ keeps p p'.
Proof.
  intros Hinv (d & exec & Hd & -> & -> & ->)%createTask_Ok.
  assert (forall l, l ∈ ISSUED_TASKS p -> l <> next p) as Hne.
  { intros l Hl ->. destruct (pinv_tasks _ Hinv _ Hl) as [Hf _]. apply (pinv_frozen _ Hinv) in Hf. lia. }
  assert (keeps p (issueTask (fst (allocate p (descriptorFields d))) (next p) exec)) as Hkeep.
  { split_and!; cbn.
    - intros l Hl. split; [set_solver|]. apply (fresh_heap p). by apply (pinv_frozen _ Hinv).
    - intros l Hl. split; [set_solver|]. apply lookup_insert_ne. apply not_eq_sym. by apply Hne.
    - done. }
  split; [|done]. split; cbn.
  - intros l. rewrite elem_of_union, elem_of_singleton. intros [->|Hl%(pinv_frozen _ Hinv)]; lia.
  - intros l. rewrite elem_of_union, elem_of_singleton. intros [->|Hl].
    + split_and!; cbn; [set_solver|rewrite lookup_insert_eq; by eexists|]. exists d.
      rewrite N.eqb_refl. split; [done|]. by apply normalizeDescriptor_Ok in Hd as (_ & _ & _ & Hv).
    + apply (issued_kept p); [done..|]. by apply (pinv_tasks _ Hinv).
  - intros l Hl. destruct (decide (l = next p)) as [->|Hn]; [set_solver|].
    rewrite lookup_insert_ne in Hl by done. apply (pinv_executors _ Hinv) in Hl. set_solver.
  - intros l Hl. destruct (pinv_results _ Hinv _ Hl) as [Hf Ht]. split; [set_solver|].
    apply (pinv_frozen _ Hinv) in Hf. rewrite elem_of_union, elem_of_singleton. intros [->|?]; [lia|done].
Qed.

Lemma publish_step (p : Process Exec) entries :
  process_inv p ->
  process_inv (publishResult p entries).1 /\ keeps p (publishResult p entries).1.
Proof.
  intros Hinv. unfold publishResult. destruct (allocate p _) as [p1 l] eqn:Ha. injection Ha as <- <-.
  cbn [fst]. set (fields := resultFields _).
  match goal with |- process_inv ?p' /\ _ => assert (keeps p p') as Hkeep end.
  { split_and!; cbn; [|done|set_solver].
    intros l Hl. split; [set_solver|]. apply (fresh_heap p fields). by apply (pinv_frozen _ Hinv). }
  split; [|done]. split; cbn.
  - intros l. rewrite elem_of_union, elem_of_singleton. intros [->|Hl%(pinv_frozen _ Hinv)]; lia.
  - intros l Hl. apply (issued_kept p); [done..|]. by apply (pinv_tasks _ Hinv).
  - apply (pinv_executors _ Hinv).
  - intros l. rewrite elem_of_union, elem_of_singleton. intros [->|Hl].
    + split; [set_solver|]. intros Ht. destruct (pinv_tasks _ Hinv _ Ht) as [Hf _].
      apply (pinv_frozen _ Hinv) in Hf. lia.
    + destruct (pinv_results _ Hinv _ Hl). set_solver.
Qed.

(** A successful call publishes a result. *)
Lemma resolve_publishes (p : Process Exec) aborted execute events v options p' answer :
  resolveEffectiveContextsBounded p aborted execute events v options = Some (Ok (p', answer)) ->
  exists entries, (p', answer) = publishResult p entries.
Proof.
  unfold resolveEffectiveContextsBounded. destruct (admitCall _ _ _ _) as [[[limits signal] [|t ts]]|e]; [| |done].
  - intros E. exists []. congruence.
  - destruct (conclude _ _) as [[entries|e]|]; [|done..]. intros E. exists entries. congruence.
Qed.

Lemma process_step_inv p p' : process_inv p -> process_step p p' -> process_inv p' /\ keeps p p'.
Proof.
  intros Hinv [descriptor x l Hc|aborted execute events v options answer Hr|Hf Hn Hb Ht Hx Hr].
  - by eapply create_step.
  - apply resolve_publishes in Hr as [entries E].
    replace p' with (publishResult p entries).1 by (by rewrite <- E). by apply publish_step.
  - assert (keeps p p') as Hkeep.
    { split_and!; [done| |]; intros l Hl; [by rewrite Ht, Hx|by rewrite Hr]. }
    split; [|done]. split; [done|..].
    + intros l Hl. rewrite Ht in Hl. apply (issued_kept p); [done..|]. by apply (pinv_tasks _ Hinv).
    + intros l. rewrite Hx, Ht. apply (pinv_executors _ Hinv).
    + intros l. rewrite Hr, Ht. intros Hl. destruct (pinv_results _ Hinv _ Hl) as [Hl' ?]. by destruct (Hf l Hl').
Qed.

Lemma steps_keep p p' : process_inv p -> rtc process_step p p' -> process_inv p' /\ keeps p p'.
Proof.
  intros Hinv Hsteps. induction Hsteps as [p|p q r Hpq Hqr IH].
  - split; [done|]. unfold keeps. by split_and!.
  - destruct (process_step_inv p q Hinv Hpq) as [Hq (Hf & Ht & Hr)]. destruct (IH Hq) as [Hr' (Hf' & Ht' & Hrr)].
    split; [done|]. split_and!; [| |auto].
    + intros l Hl. destruct (Hf l Hl) as [Hl' ->%eq_sym]. auto.
    + intros l Hl. destruct (Ht l Hl) as [Hl' ->%eq_sym]. auto.
Qed.

Lemma reachable_inv p : reachable p -> process_inv p.
Proof.
  intros (p0 & (Hf & Ht & Hx & Hr) & Hsteps). apply (steps_keep p0); [|done].
  split; [done|rewrite Ht; set_solver| |rewrite Hr; set_solver].
  intros l. rewrite Hx, lookup_empty. by intros [? ?].
Qed.

(** C34.  Issued for good: a task the factory returned is, in every later state
    of the process, an issued task that reads back as the descriptor it was made
    from and has the executor it was given; and the objects the module issued are
    frozen. *)
Theorem issued_task_endures (p p1 p2 : Process Exec) (descriptor : value) (x : option Exec) (l : loc) :
  reachable p ->
  createEffectiveContextResolutionTask p descriptor x = Ok (p1, l) ->
  rtc process_step p1 p2 ->
  (exists d, normalizeDescriptor (process_heap p) descriptor
               (maximumTaskIdBytes BOUNDED_RESOLUTION_HARD_LIMITS) = Ok d /\
             normalizeDescriptor (process_heap p2) (VRef l)
               (maximumTaskIdBytes BOUNDED_RESOLUTION_HARD_LIMITS) = Ok d) /\
  l ∈ ISSUED_TASKS p2 /\ is_Some x /\ TASK_EXECUTORS p2 !! l = x /\
  ISSUED_TASKS p2 ⊆ frozen p2 /\ ISSUED_RESULTS p2 ⊆ frozen p2.
Proof.
  intros Hp%reachable_inv Hc Hsteps. destruct (create_step _ _ _ _ _ Hp Hc) as [Hp1 _].
  destruct (steps_keep _ _ Hp1 Hsteps) as [Hp2 (Hf & Ht & _)].
  apply createTask_Ok in Hc as (d & exec & Hd & -> & -> & E).
  assert (next p ∈ ISSUED_TASKS p1) as Hl by (rewrite E; cbn; set_solver).
  destruct (Ht _ Hl) as [Hl2 Hx2]. destruct (pinv_tasks _ Hp1 _ Hl) as [Hfr _].
  destruct (Hf _ Hfr) as [_ Hh]. split_and!; [|done|by eexists|..].
  - exists d. split; [done|]. apply descriptorFields_read.
    + rewrite Hh, E. cbn. by rewrite N.eqb_refl.
    + by apply normalizeDescriptor_Ok in Hd as (_ & _ & _ & Hv).
  - rewrite Hx2, E. cbn. apply lookup_insert_eq.
  - intros l Hl'. by destruct (pinv_tasks _ Hp2 _ Hl').
  - intros l Hl'. by destruct (pinv_results _ Hp2 _ Hl').
Qed.
End process.

(** ** The call *)

Section call.
Context `{IssuedResolutions} {Exec : Type}.

(** The answer of the call when its tasks are run one after the other. *)
Definition sequentialAnswer (p : Process Exec) (limits : BoundedResolutionLimits) (tasks : list Task)
    (execute : Exec -> loc -> Settlement) : bounded (Process Exec * (loc * BoundedResolutionResult)) :=
  publishResult p <$> sequentialOutcome (TASK_EXECUTORS p) limits tasks execute.

Lemma sequential_nil p limits execute : sequentialAnswer p limits [] execute = Ok (publishResult p []).
Proof.
  unfold sequentialAnswer, sequentialOutcome, exceeds. cbn [verdicts map existsb orb].
  by destruct (maximumTotalResultBytes limits).
Qed.

Lemma admitCall_Ok (p : Process Exec) aborted v options limits signal tasks :
  admitCall p aborted v options = Ok (limits, signal, tasks) ->
  normalizeOptions (process_heap p) options = Ok (limits, signal) /\
  bool_decide (is_Some signal) && aborted 1%nat = false /\
  normalizeTasks p v limits = Ok tasks.
Proof.
  unfold admitCall. intros ([limits0 signal0] & Ho & H0)%bind_Ok.
  apply bind_ensure in H0 as [Ha%negb_true_iff H0]. apply bind_Ok in H0 as (ts & Ht & H0).
  by injection H0 as -> -> ->.
Qed.

(** The state of the call after the events, as its two branches share it. *)
Definition stateAfter (p : Process Exec) limits (signal : option loc) tasks aborted execute events : RunState :=
  runEvents (TASK_EXECUTORS p) limits tasks execute
    (startRun limits tasks (bool_decide (is_Some signal) && aborted 2%nat)) (heard_events signal events).

Lemma resolve_state (p : Process Exec) aborted execute events v options limits signal tasks :
  admitCall p aborted v options = Ok (limits, signal, tasks) -> tasks <> [] ->
  resolveEffectiveContextsBounded p aborted execute events v options =
  match conclude tasks (stateAfter p limits signal tasks aborted execute events) with
  | Some outcome => Some (publishResult p <$> outcome)
  | None => None
  end.
Proof.
  intros Ha Ht. unfold resolveEffectiveContextsBounded. rewrite Ha. destruct tasks as [|t ts]; [done|].
  unfold stateAfter. by destruct (conclude _ _) as [[entries|e]|].
Qed.

Lemma stateAfter_inv p limits signal tasks aborted execute events :
  run_inv (TASK_EXECUTORS p) limits tasks execute
    (stateAfter p limits signal tasks aborted execute events).
Proof. apply run_events_inv, start_inv. Qed.

Lemma start_workers limits tasks aborted :
  length (workers (startRun limits tasks aborted))
  = Nat.min (N.to_nat (maximumConcurrency limits)) (length tasks).
Proof. destruct aborted; cbn; by rewrite length_replicate. Qed.

Lemma stateAfter_workers p limits signal tasks aborted execute events :
  length (workers (stateAfter p limits signal tasks aborted execute events))
  = Nat.min (N.to_nat (maximumConcurrency limits)) (length tasks).
Proof. unfold stateAfter. by rewrite run_events_workers, start_workers. Qed.

Lemma stateAfter_staffed (p : Process Exec) aborted0 v options limits signal tasks aborted execute events :
  admitCall p aborted0 v options = Ok (limits, signal, tasks) -> tasks <> [] ->
  workers (stateAfter p limits signal tasks aborted execute events) <> [].
Proof.
  intros (Ho & _ & _)%admitCall_Ok Ht Hw. apply normalizeOptions_bounds in Ho.
  pose proof (stateAfter_workers p limits signal tasks aborted execute events) as Hl. rewrite Hw in Hl.
  destruct tasks; [done|]. cbn in Hl. lia.
Qed.

(** The caller's signal may have aborted, or the timer may have fired. *)
Definition cancellable (signal : option loc) (aborted : nat -> bool) (events : list Event) : Prop :=
  is_Some signal /\ (aborted 2%nat = true \/ existsb is_abort events = true).

Lemma heard_abort signal events :
  existsb is_abort (heard_events signal events) = true -> is_Some signal /\ existsb is_abort events = true.
Proof.
  destruct signal as [l|]; cbn; [eauto|]. rewrite existsb_elem. intros (e & He & Ha).
  rewrite list_elem_of_In, filter_In in He. by destruct e, He.
Qed.

Lemma heard_timer signal events : TimerFires ∈ heard_events signal events -> TimerFires ∈ events.
Proof. destruct signal; cbn; [done|]. rewrite !list_elem_of_In, filter_In. tauto. Qed.

Lemma answer_cases (p : Process Exec) aborted execute events v options limits signal tasks answer :
  admitCall p aborted v options = Ok (limits, signal, tasks) ->
  resolveEffectiveContextsBounded p aborted execute events v options = Some answer ->
  answer = sequentialAnswer p limits tasks execute \/
  (answer = Err (failure cancelled) /\ cancellable signal aborted events) \/
  (answer = Err (failure deadlineExceeded) /\ TimerFires ∈ events).
Proof.
  intros Ha Hr. destruct (decide (tasks = [])) as [->|Ht].
  { left. unfold resolveEffectiveContextsBounded in Hr. rewrite Ha in Hr. rewrite sequential_nil. congruence. }
  rewrite (resolve_state _ _ _ _ _ _ _ _ _ Ha Ht) in Hr.
  destruct (conclude _ _) as [o|] eqn:Hc; [|done]. injection Hr as <-.
  pose proof (stateAfter_inv p limits signal tasks aborted execute events) as Hinv.
  pose proof (stateAfter_staffed _ _ _ _ _ _ _ aborted execute events Ha Ht) as Hne.
  destruct (run_interruptions (TASK_EXECUTORS p) limits tasks execute (heard_events signal events)
              (startRun limits tasks (bool_decide (is_Some signal) && aborted 2%nat))) as [Habort Htimer].
  destruct (conclude_outcome _ _ _ _ _ _ Hinv Hne Hc) as [->|[[-> Hs]|[-> Hs]]]; [by left|right; left|right; right].
  - split; [done|]. unfold cancellable. destruct (Habort Hs) as [Hs'|[? ?]%heard_abort]; [|by auto].
    destruct (bool_decide (is_Some signal)) eqn:Hsig; [|done]. apply bool_decide_eq_true in Hsig.
    split; [done|left]. by destruct (aborted 2%nat).
  - split; [done|]. destruct (Htimer Hs) as [Hs'|Hs'%heard_timer]; [|done]. exfalso. revert Hs'.
    by destruct (bool_decide _ && _).
Qed.

(** C6.  Concurrency is invisible: whatever the number of workers and the order in
    which executors settle, the call answers what running its tasks one after the
    other answers, entries and refusals alike, unless the caller's signal aborted
    or the timer fired, and then it answers that. *)
Theorem bounded_refines_sequential (p : Process Exec) (aborted : nat -> bool)
    (execute : Exec -> loc -> Settlement) (events : list Event) (v options : value)
    (limits : BoundedResolutionLimits) (signal : option loc) (tasks : list Task) answer :
  admitCall p aborted v options = Ok (limits, signal, tasks) ->
  resolveEffectiveContextsBounded p aborted execute events v options = Some answer ->
  answer = sequentialAnswer p limits tasks execute \/
  (answer = Err (failure cancelled) /\ cancellable signal aborted events) \/
  (answer = Err (failure deadlineExceeded) /\ TimerFires ∈ events).
Proof. apply answer_cases. Qed.

Lemma heard_rounds signal rounds : heard_events signal (mjoin rounds) = mjoin (map (heard_events signal) rounds).
Proof.
  destruct signal; cbn [heard_events]; [by rewrite map_id|].
  induction rounds as [|r rounds IH]; [done|]. cbn [map]. rewrite !mjoin_cons, <- IH. apply List.filter_app.
Qed.

Lemma heard_fair signal n round : fair_turns n round -> fair_turns n (heard_events signal round).
Proof.
  destruct signal; [done|]. intros Hf i Hi. destruct (Hf i Hi). cbn. rewrite !list_elem_of_In, !filter_In.
  by rewrite <- !list_elem_of_In.
Qed.

(** C17.  The call always answers: when its workers get as many rounds of turns as
    four for each task, it has settled, interrupted or not; and uninterrupted it
    has the sequential answer. *)
Theorem bounded_resolution_settles (p : Process Exec) (aborted : nat -> bool)
    (execute : Exec -> loc -> Settlement) (rounds : list (list Event)) (v options : value)
    (limits : BoundedResolutionLimits) (signal : option loc) (tasks : list Task) :
  admitCall p aborted v options = Ok (limits, signal, tasks) ->
  Forall (fair_turns (length tasks)) rounds -> (4 * length tasks <= length rounds)%nat ->
  exists answer,
    resolveEffectiveContextsBounded p aborted execute (mjoin rounds) v options = Some answer /\
    (aborted 2%nat = false -> existsb is_abort (mjoin rounds) = false -> TimerFires ∉ mjoin rounds ->
     answer = sequentialAnswer p limits tasks execute).
Proof.
  intros Ha Hfair Hlen.
  enough (is_Some (resolveEffectiveContextsBounded p aborted execute (mjoin rounds) v options)) as [answer Hr].
  { exists answer. split; [done|]. intros Hb Hq Ht.
    destruct (answer_cases _ _ _ _ _ _ _ _ _ _ Ha Hr) as [->|[[_ [_ [Hc|Hc]]]|[_ Hc]]]; [done|congruence..|done]. }
  destruct (decide (tasks = [])) as [->|Ht].
  { unfold resolveEffectiveContextsBounded. rewrite Ha. by eexists. }
  rewrite (resolve_state _ _ _ _ _ _ _ _ _ Ha Ht).
  assert (all_returned (stateAfter p limits signal tasks aborted execute (mjoin rounds)) = true) as Hall.
  { unfold stateAfter. rewrite heard_rounds. apply fair_rounds_return; [apply start_inv| |].
    - rewrite start_workers. apply Forall_map. eapply Forall_impl; [exact Hfair|]. intros round Hround.
      apply heard_fair. intros i Hi. apply Hround. lia.
    - rewrite length_map. etransitivity; [apply start_measure|done]. }
  unfold conclude. rewrite Hall. by destruct (stopped _) as [[]|].
Qed.

Lemma answer_Ok (p : Process Exec) aborted execute events v options p' answer :
  resolveEffectiveContextsBounded p aborted execute events v options = Some (Ok (p', answer)) ->
  exists limits signal tasks entries, admitCall p aborted v options = Ok (limits, signal, tasks) /\
    sequentialOutcome (TASK_EXECUTORS p) limits tasks execute = Ok entries /\
    (p', answer) = publishResult p entries.
Proof.
  intros Hr. destruct (admitCall p aborted v options) as [[[limits signal] tasks]|e] eqn:Ha.
  - exists limits, signal, tasks.
    destruct (answer_cases _ _ _ _ _ _ _ _ _ _ Ha Hr) as [E|[[? _]|[? _]]]; [|done..].
    symmetry in E. apply fmap_Ok in E as (entries & Hs & ->). by exists entries.
  - unfold resolveEffectiveContextsBounded in Hr. by rewrite Ha in Hr.
Qed.

Lemma sequential_entries executors limits tasks (execute : Exec -> loc -> Settlement) entries :
  sequentialOutcome executors limits tasks execute = Ok entries ->
  exceeds executors limits tasks execute = false /\ entries = omap (entry executors execute) tasks /\
  Forall (fun t => exists v b, verdict executors execute t = Resolved v b) tasks.
Proof.
  intros H0. unfold sequentialOutcome in H0. apply bind_ensure in H0 as [Hx%negb_true_iff H0].
  apply bind_ensure in H0 as [H1 H0]. apply bind_ensure in H0 as [H2 H0].
  apply bool_decide_eq_true, failed_with_nil in H1, H2. injection H0 as <-. split_and!; [done..|].
  apply Forall_forall. intros t Ht. destruct (verdict executors execute t) as [f|v b] eqn:Hv; [|eauto].
  exfalso. assert (Some f ∈ map failure_of (verdicts executors tasks execute)) as Hin.
  { apply list_elem_of_fmap. exists (Failed f). split; [done|]. apply list_elem_of_fmap.
    exists t. by rewrite Hv. }
  by destruct f.
Qed.

(** C16.  A result does not show how it was computed: two calls of the module on
    the same tasks, given in any order, with any limits, signals and interleaving
    of workers, give the same entries in the same order whenever both answer with
    a result. *)
Theorem result_hides_scheduling (p p1 p2 : Process Exec) (aborted1 aborted2 : nat -> bool)
    (execute : Exec -> loc -> Settlement) (events1 events2 : list Event)
    (v1 v2 options1 options2 : value) (m1 m2 : N) (items1 items2 : list value) l1 l2 r1 r2 :
  unit_ids p ->
  denseArray (process_heap p) v1 m1 = Ok items1 -> denseArray (process_heap p) v2 m2 = Ok items2 ->
  items1 ≡ₚ items2 ->
  resolveEffectiveContextsBounded p aborted1 execute events1 v1 options1 = Some (Ok (p1, (l1, r1))) ->
  resolveEffectiveContextsBounded p aborted2 execute events2 v2 options2 = Some (Ok (p2, (l2, r2))) ->
  r1 = r2.
Proof.
  intros Hu Hi1 Hi2 Hp (lim1 & s1 & ts1 & es1 & Ha1 & Hs1 & E1)%answer_Ok
    (lim2 & s2 & ts2 & es2 & Ha2 & Hs2 & E2)%answer_Ok.
  apply admitCall_Ok in Ha1 as (_ & _ & Ht1), Ha2 as (_ & _ & Ht2).
  assert (ts1 = ts2) as -> by by eapply (normalizeTasks_arrangement p v1 v2).
  apply sequential_entries in Hs1 as (_ & -> & _), Hs2 as (_ & -> & _).
  unfold publishResult in E1, E2. cbn in E1, E2. congruence.
Qed.

(** The entry says what the task's executor gave: an issued resolution for this
    task, not too large. *)
Definition answers (p : Process Exec) (limits : BoundedResolutionLimits) (execute : Exec -> loc -> Settlement)
    (t : Task) (e : BoundedResolutionEntry) : Prop :=
  entry_taskId e = id_ (task_descriptor t) /\
  exists x r, TASK_EXECUTORS p !! task_object t = Some x /\
    execute x (task_object t) = Gave (entry_resolution e) /\
    issuedResolution (entry_resolution e) = Some r /\
    taskMatchesResult (task_descriptor t) r = true /\
    (textBytes (resolution_text r) <= maximumResultBytes limits)%N.

Lemma entry_answers (p : Process Exec) limits execute t v b :
  verdict (TASK_EXECUTORS p) execute t = Resolved v b -> (b <= maximumResultBytes limits)%N ->
  exists e, entry (TASK_EXECUTORS p) execute t = Some e /\ answers p limits execute t e.
Proof.
  intros Hv Hb. unfold entry. rewrite Hv. eexists. split; [reflexivity|]. split; [done|].
  unfold verdict in Hv. destruct (TASK_EXECUTORS p !! task_object t) as [x|] eqn:Hx; [|done].
  unfold judge in Hv. destruct (execute x (task_object t)) as [|w] eqn:Hw; [done|].
  destruct (issuedResolution w) as [r|] eqn:Hr; [|done].
  destruct (taskMatchesResult _ _) eqn:Hm; [|done]. injection Hv as -> <-. by exists x, r.
Qed.

Lemma omap_Forall2 {A B} (f : A -> option B) (R : A -> B -> Prop) l :
  Forall (fun x => exists y, f x = Some y /\ R x y) l -> Forall2 R l (omap f l).
Proof. induction 1 as [|x l (y & Hy & HR) Hl IH]; [done|]. cbn. rewrite Hy. by constructor. Qed.

(** C11.  A result is complete: it has one entry for each task of the array, in the
    order of the tasks, whatever the order of the array; each entry is what this
    task's executor gave, an issued resolution of the very profile, version,
    surface, specification and target the task names; the sizes are within both
    limits; and the result object is one the module knows as issued. *)
Theorem every_task_is_answered (p p' : Process Exec) (aborted : nat -> bool)
    (execute : Exec -> loc -> Settlement) (events : list Event) (v options : value) (l : loc) r :
  resolveEffectiveContextsBounded p aborted execute events v options = Some (Ok (p', (l, r))) ->
  exists limits signal raw admitted,
    normalizeOptions (process_heap p) options = Ok (limits, signal) /\
    denseArray (process_heap p) v (maximumTasks limits) = Ok raw /\
    Forall2 (admitted_as p (maximumTaskIdBytes limits)) raw admitted /\
    NoDup (ids admitted) /\ NoDup (relationships admitted) /\
    Forall2 (answers p limits execute) (sorted_with compareTasks admitted) (result_entries r) /\
    (sumN (fun t => bytes_of (verdict (TASK_EXECUTORS p) execute t)) admitted
       <= maximumTotalResultBytes limits)%N /\
    isIssuedBoundedResolutionResult p' (VRef l) = true.
Proof.
  intros (limits & signal & tasks & entries & Ha & Hs & E)%answer_Ok.
  apply admitCall_Ok in Ha as (Ho & _ & (raw & admitted & Hraw & Hall & Hid & Hrel & ->)%normalizeTasks_Ok).
  exists limits, signal, raw, admitted. apply sequential_entries in Hs as (Hx & -> & Hres).
  unfold exceeds in Hx. apply orb_false_iff in Hx as [Hone Htotal%N.ltb_ge].
  unfold publishResult in E. cbn in E. injection E as -> -> ->. split_and!; [done..| | |].
  - apply omap_Forall2, Forall_forall. intros t Ht. rewrite Forall_forall in Hres.
    destruct (Hres t Ht) as (w & b & Hv). apply (entry_answers p limits execute t w b Hv).
    apply not_true_iff_false in Hone. rewrite existsb_elem in Hone.
    destruct (N.le_gt_cases b (maximumResultBytes limits)) as [Hle|Hgt]; [done|]. exfalso. apply Hone.
    exists (Resolved w b). split; [|by apply N.ltb_lt]. apply list_elem_of_fmap. by exists t.
  - rewrite <- (sumN_perm _ _ _ (sorted_with_perm compareTasks admitted)).
    unfold verdicts in Htotal. revert Htotal. generalize (sorted_with compareTasks admitted) as ts.
    intros ts. enough (sumN bytes_of (map (verdict (TASK_EXECUTORS p) execute) ts)
                       = sumN (fun t => bytes_of (verdict (TASK_EXECUTORS p) execute t)) ts) as -> by done.
    induction ts as [|t ts IH]; [done|]. unfold sumN in *. cbn. by rewrite IH.
  - apply bool_decide_eq_true. cbn. set_solver.
Qed.

(** ** Bounds of a run *)

(** C29.  At every moment of a call at most [maximumConcurrency] executors run, no two
    for one task, the retained bytes are those of the retained resolutions and
    within the limit, and what is recorded of a task is the verdict on it; the
    next event starts at most one executor, that of the next task in order, and
    none once the call has stopped. *)
Theorem run_stays_within_bounds (p : Process Exec) (aborted : nat -> bool)
    (execute : Exec -> loc -> Settlement) (events : list Event)
    (limits : BoundedResolutionLimits) (signal : option loc) (tasks : list Task) (e : Event) :
  let st := stateAfter p limits signal tasks aborted execute events in
  let st' := stepEvent (TASK_EXECUTORS p) limits tasks execute st e in
  let judged := verdicts (TASK_EXECUTORS p) tasks execute in
  (length (awaited (workers st)) <= N.to_nat (maximumConcurrency limits))%nat /\
  NoDup (awaited (workers st)) /\
  retainedResultBytes st = held_bytes (resolutions st) judged /\
  (retainedResultBytes st <= maximumTotalResultBytes limits)%N /\
  (forall i f, failures st !! i = Some (Some f) -> judged !! i = Some (Failed f)) /\
  (forall i v, resolutions st !! i = Some (Some v) -> exists b, judged !! i = Some (Resolved v b)) /\
  (forall i, i ∈ awaited (workers st') -> i ∈ awaited (workers st) \/
     (i = nextIndex st /\ nextIndex st' = S i /\ stopped st = None)).
Proof.
  intros st st' judged. pose proof (stateAfter_inv p limits signal tasks aborted execute events) as Hinv.
  fold st in Hinv. split_and!.
  - etransitivity; [apply awaited_length|]. unfold st. rewrite stateAfter_workers. lia.
  - apply (inv_awaited _ _ _ _ _ Hinv).
  - apply (inv_retained _ _ _ _ _ Hinv).
  - apply (inv_total _ _ _ _ _ Hinv).
  - intros i f Hf. by apply (inv_failures _ _ _ _ _ Hinv).
  - intros i w Hw. destruct (inv_resolutions _ _ _ _ _ Hinv _ _ Hw) as (_ & b & Hb & _). by exists b.
  - by apply started_executors.
Qed.
End call.
