(* ===== verification/BoundedExamples.v ===== *)
(** Two tasks, their executors and concrete runs of a bounded resolution. *)
From S2P Require Import Prelude JsString OrderedMap Unicode RepositoryPath ObjectGraph CanonicalDigest RuleDiagnostics BoundedResolution BoundedRunLaws BoundedResolutionLaws.
From stdpp Require Import gmap.

(** Resolutions for two targets, issued as the objects 1000 and 1001. *)
Definition resolution_for (target : jstring) : EffectiveContextResolution := {|
  resolution_profileId := #"codex-cli"; resolution_profileVersion := #"1.0.0";
  resolution_clientVersion := None; resolution_specSnapshotId := #"spec-1";
  resolution_surfaceId := #"cli"; resolution_targetPath := target; resolution_text := #"{}" |}.

#[export] Instance two_resolutions : IssuedResolutions := {|
  issuedResolution v :=
    match v with
    | VRef 1000 => Some (resolution_for #"src/a.ts")
    | VRef 1001 => Some (resolution_for #"src/b.ts")
    | _ => None
    end%N
|}.

Definition descriptor_for (id target : jstring) : value :=
  VRecord (descriptorFields {| clientVersion := None; id_ := id; profileId := #"codex-cli";
    profileVersion := #"1.0.0"; specSnapshotId := #"spec-1"; surfaceId := #"cli"; targetPath := target |}).

(** An executor is the object it resolves to, or none when it throws. *)
Definition exec := option loc.

Definition run_exec (x : exec) (_ : loc) : Settlement :=
  match x with Some l => Gave (VRef l) | None => Threw end.

Definition fresh_process : Process exec := {|
  process_heap := fun _ => None; next := 0; frozen := ∅; ISSUED_TASKS := ∅; TASK_EXECUTORS := ∅;
  ISSUED_RESULTS := ∅ |}%N.

Definition created (p : Process exec) (descriptor : value) (x : exec) : Process exec :=
  match createEffectiveContextResolutionTask p descriptor (Some x) with
  | Ok (p', _) => p'
  | Err _ => p
  end.

Definition with_first : Process exec :=
  created fresh_process (descriptor_for #"task-b" #"src/b.ts") (Some 1001%N).
Definition with_both : Process exec :=
  created with_first (descriptor_for #"task-a" #"src/a.ts") (Some 1000%N).

Definition one_round : list Event := [Resume 1; Resume 0; Settle 1; Settle 0]%nat.
Definition fair_schedule : list (list Event) := replicate 8 one_round.
Definition one_worker : value := VRecord [(#"maximumConcurrency", VInteger 1)].

Definition call (events : list Event) (tasks options : value) :=
  resolveEffectiveContextsBounded with_both (fun _ => false) run_exec events tasks options.

Definition in_order : value := VArray [VRef 0; VRef 1]%N.
Definition reversed : value := VArray [VRef 1; VRef 0]%N.

(** The entries of a call's answer. *)
Definition entries_of (c : option (bounded (Process exec * (loc * BoundedResolutionResult))))
  : option (list BoundedResolutionEntry) :=
  match c with Some (Ok (_, (_, r))) => Some (result_entries r) | _ => None end.

(** The target decides before the identifier. *)
Example two_entries :
  entries_of (call (mjoin fair_schedule) in_order VUndefined)
  = Some [{| entry_resolution := VRef 1000%N; entry_taskId := #"task-a" |};
          {| entry_resolution := VRef 1001%N; entry_taskId := #"task-b" |}].
Proof. vm_compute. reflexivity. Qed.

(** The timer fires while both executors run. *)
Example too_late :
  call [Resume 0; Resume 1; TimerFires; Settle 0]%nat in_order VUndefined = Some (Err (failure deadlineExceeded)).
Proof. vm_compute. reflexivity. Qed.

(** A failed executor is named by its place among the sorted tasks. *)
Example one_fails :
  resolveEffectiveContextsBounded with_both (fun _ => false) (fun x l => if (l =? 0)%N then Threw else run_exec x l)
    (mjoin fair_schedule) in_order one_worker
  = Some (Err {| error_code := taskFailed; failedTaskIndexes := [1%nat] |}).
Proof. vm_compute. reflexivity. Qed.

Lemma settled_with c es :
  entries_of c = Some es -> exists p l r, c = Some (Ok (p, (l, r))) /\ result_entries r = es.
Proof.
  destruct c as [[[p [l r]]|e]|]; [|discriminate..]. intros E. exists p, l, r. split; [reflexivity|].
  cbn in E. congruence.
Qed.

Lemma admitted_call aborted p v (options : value) check :
  match admitCall (Exec := exec) p aborted v options with
  | Ok (limits, signal, tasks) => check limits signal tasks
  | Err _ => false
  end = true ->
  exists limits signal tasks,
    admitCall p aborted v options = Ok (limits, signal, tasks) /\ check limits signal tasks = true.
Proof.
  destruct (admitCall _ _ _ _) as [[[limits signal] tasks]|e]; [|discriminate].
  intros Hc. by exists limits, signal, tasks.
Qed.

Lemma fair_schedule_fair : Forall (fair_turns 2) fair_schedule.
Proof.
  apply Forall_forall. intros round Hround. apply elem_of_replicate in Hround as [-> _].
  intros i Hi. unfold one_round. destruct i as [|[|i]]; [..|lia]; set_solver.
Qed.

Lemma two_tasks_admitted : exists limits signal tasks,
  admitCall with_both (fun _ => false) in_order VUndefined = Ok (limits, signal, tasks) /\
  length tasks = 2%nat.
Proof.
  destruct (admitted_call (fun _ => false) with_both in_order VUndefined (fun _ _ ts => (length ts =? 2)%nat))
    as (limits & signal & tasks & Ha & Hl); [vm_compute; reflexivity|].
  apply Nat.eqb_eq in Hl.
  exact (ex_intro _ limits (ex_intro _ signal (ex_intro _ tasks (conj Ha Hl)))).
Qed.

Lemma bounded_refines_sequential_witness : exists limits signal tasks answer,
  admitCall with_both (fun _ => false) in_order VUndefined = Ok (limits, signal, tasks) /\
  call (mjoin fair_schedule) in_order VUndefined = Some answer /\
  (answer = sequentialAnswer with_both limits tasks run_exec \/
   (answer = Err (failure cancelled) /\ cancellable signal (fun _ => false) (mjoin fair_schedule)) \/
   (answer = Err (failure deadlineExceeded) /\ TimerFires ∈ mjoin fair_schedule)).
Proof.
  destruct two_tasks_admitted as (limits & signal & tasks & Ha & _).
  destruct (settled_with _ _ two_entries) as (p & l & r & Hc & _).
  exists limits, signal, tasks, (Ok (p, (l, r))). split; [exact Ha|]. split; [exact Hc|].
  exact (bounded_refines_sequential with_both (fun _ => false) run_exec _ in_order VUndefined
           limits signal tasks _ Ha Hc).
Defined.

Lemma bounded_resolution_settles_witness : exists limits signal tasks,
  admitCall with_both (fun _ => false) in_order VUndefined = Ok (limits, signal, tasks) /\
  exists answer, call (mjoin fair_schedule) in_order VUndefined = Some answer /\
    (false = false -> existsb is_abort (mjoin fair_schedule) = false -> TimerFires ∉ mjoin fair_schedule ->
     answer = sequentialAnswer with_both limits tasks run_exec).
Proof.
  destruct two_tasks_admitted as (limits & signal & tasks & Ha & Hl).
  exists limits, signal, tasks. split; [exact Ha|].
  apply (bounded_resolution_settles with_both (fun _ => false) run_exec fair_schedule in_order VUndefined
           limits signal tasks Ha); rewrite Hl; [exact fair_schedule_fair|cbn; lia].
Defined.

Lemma created_ids p id target x :
  unit_ids p -> js_units id -> unit_ids (created p (descriptor_for id target) x).
Proof.
  intros Hu Hid. unfold created. destruct (createEffectiveContextResolutionTask _ _ _) as [[p' l]|] eqn:Hc; [|done].
  apply createTask_Ok in Hc as (d & e & Hd & [= <-] & -> & ->). intros l n d' Hd'.
  destruct (decide (l = next p)) as [->|Hne].
  - pose proof (proj1 (normalizeDescriptor_Ok _ _ _ _) Hd) as (record & Hr & Hs & Hv).
    assert (d' = d) as ->.
    { eapply normalizeDescriptor_functional; [exact Hd'|]. apply (descriptorFields_read _ _ d); [|exact Hv].
      cbn. by rewrite N.eqb_refl. }
    unfold closedRecord in Hr. apply bind_Ok in Hr as (r & E & Hr).
    apply bind_ensure in Hr as [_ Hr]. apply bind_ensure in Hr as [_ Hr]. injection Hr as ->.
    injection E as <-. unfold states in Hs. apply Forall_cons in Hs as [_ Hs]. apply Forall_cons in Hs as [Hi _]. clear - Hi Hid.
    cbn in Hi. by injection Hi as <-.
  - apply (Hu l n). rewrite <- Hd'. unfold normalizeDescriptor, closedRecord, dataRecord. cbn [object_of].
    cbn. by rewrite (proj2 (N.eqb_neq l (next p))).
Qed.

Lemma with_both_ids : unit_ids with_both.
Proof.
  apply created_ids; [|repeat constructor]. apply created_ids; [|repeat constructor].
  intros l n d Hd. discriminate Hd.
Qed.

Example other_order :
  entries_of (call (mjoin fair_schedule) reversed one_worker)
  = Some [{| entry_resolution := VRef 1000%N; entry_taskId := #"task-a" |};
          {| entry_resolution := VRef 1001%N; entry_taskId := #"task-b" |}].
Proof. vm_compute. reflexivity. Qed.

Lemma result_hides_scheduling_witness : exists p1 l1 r1 p2 l2 r2,
  call (mjoin fair_schedule) in_order VUndefined = Some (Ok (p1, (l1, r1))) /\
  call (mjoin fair_schedule) reversed one_worker = Some (Ok (p2, (l2, r2))) /\ r1 = r2.
Proof.
  destruct (settled_with _ _ two_entries) as (p1 & l1 & r1 & H1 & _).
  destruct (settled_with _ _ other_order) as (p2 & l2 & r2 & H2 & _).
  exists p1, l1, r1, p2, l2, r2. split; [exact H1|]. split; [exact H2|].
  refine (result_hides_scheduling with_both p1 p2 (fun _ => false) (fun _ => false) run_exec _ _
            in_order reversed VUndefined one_worker 10 10 [VRef 0; VRef 1]%N [VRef 1; VRef 0]%N
            l1 l2 r1 r2 with_both_ids eq_refl eq_refl _ H1 H2).
  apply perm_swap.
Defined.

Lemma every_task_is_answered_witness : exists p' l r,
  call (mjoin fair_schedule) in_order VUndefined = Some (Ok (p', (l, r))) /\
  exists limits signal raw admitted,
    normalizeOptions (process_heap with_both) VUndefined = Ok (limits, signal) /\
    denseArray (process_heap with_both) in_order (maximumTasks limits) = Ok raw /\
    Forall2 (admitted_as with_both (maximumTaskIdBytes limits)) raw admitted /\
    NoDup (ids admitted) /\ NoDup (relationships admitted) /\
    Forall2 (answers with_both limits run_exec) (sorted_with compareTasks admitted) (result_entries r) /\
    (sumN (fun t => bytes_of (verdict (TASK_EXECUTORS with_both) run_exec t)) admitted
       <= maximumTotalResultBytes limits)%N /\
    isIssuedBoundedResolutionResult p' (VRef l) = true.
Proof.
  destruct (settled_with _ _ two_entries) as (p & l & r & Hc & _). exists p, l, r. split; [exact Hc|].
  exact (every_task_is_answered with_both p (fun _ => false) run_exec _ in_order VUndefined l r Hc).
Defined.

Lemma first_created :
  exists p1 l, createEffectiveContextResolutionTask fresh_process (descriptor_for #"task-b" #"src/b.ts")
                 (Some (Some 1001%N)) = Ok (p1, l).
Proof.
  destruct (createEffectiveContextResolutionTask fresh_process _ _) as [[p1 l]|e] eqn:Hc; [by exists p1, l|].
  exfalso. assert (is_ok (createEffectiveContextResolutionTask fresh_process
    (descriptor_for #"task-b" #"src/b.ts") (Some (Some 1001%N))) = true) as Hok by (vm_compute; reflexivity).
  by rewrite Hc in Hok.
Qed.

Lemma fresh_reachable : reachable fresh_process.
Proof.
  exists fresh_process. split; [|apply rtc_refl]. split; [|done].
  intros l Hl. by apply elem_of_empty in Hl.
Qed.

Lemma issued_task_endures_witness : exists p1 l,
  createEffectiveContextResolutionTask fresh_process (descriptor_for #"task-b" #"src/b.ts")
    (Some (Some 1001%N)) = Ok (p1, l) /\
  l ∈ ISSUED_TASKS p1 /\ TASK_EXECUTORS p1 !! l = Some (Some 1001%N).
Proof.
  destruct first_created as (p1 & l & Hc). exists p1, l. split; [exact Hc|].
  destruct (issued_task_endures fresh_process p1 p1 _ _ l fresh_reachable Hc (rtc_refl _ p1))
    as (_ & Hl & _ & Hx & _).
  split; [exact Hl|exact Hx].
Defined.
