(* ===== verification/IgnorePattern.v ===== *)
(** Ignore patterns (packages/evidence/src/ignore-engine.ts, first half): the
    limits and errors of the engine, the safety of texts, the grammar of the
    patterns and the rules compiled from them.

    A rule set is data: matching is in [IgnoreMatch], the whole engine in
    [IgnoreEngine]. *)
From S2P Require Import Prelude JsString Unicode RepositoryPath ObjectGraph.

(** ** Limits and errors *)

Record IgnoreEngineLimits := {
  maximumDurationMs : N;
  maximumIgnoreFileBytes : N;
  maximumIgnoreFiles : N;
  maximumMatchWork : N;
  maximumPathDepth : N;
  maximumPaths : N;
  maximumPatternBytes : N;
  maximumPatternLength : N;
  maximumPatterns : N;
  maximumProblems : N
}.

Definition IGNORE_ENGINE_DEFAULT_LIMITS : IgnoreEngineLimits := {|
  maximumDurationMs := 30000;
  maximumIgnoreFileBytes := 65536;
  maximumIgnoreFiles := 1024;
  maximumMatchWork := 50000000;
  maximumPathDepth := 128;
  maximumPaths := 100000;
  maximumPatternBytes := 4194304;
  maximumPatternLength := 4096;
  maximumPatterns := 10000;
  maximumProblems := 256
|}%N.

Definition IGNORE_ENGINE_HARD_LIMITS : IgnoreEngineLimits := {|
  maximumDurationMs := 300000;
  maximumIgnoreFileBytes := 1048576;
  maximumIgnoreFiles := 10000;
  maximumMatchWork := 200000000;
  maximumPathDepth := 1024;
  maximumPaths := 1000000;
  maximumPatternBytes := 16777216;
  maximumPatternLength := 16384;
  maximumPatterns := 100000;
  maximumProblems := 4096
|}%N.

Inductive IgnoreEngineErrorCode :=
| aborted
| deadlineExceeded
| invalidInput
| invalidOptions
| limitExceeded
| malformedInput.

(** The errors of the repository the engine reads from. *)
Inductive ReadOnlyRepositoryErrorCode :=
| repository_aborted
| repository_closeFailed
| repository_concurrentOperation
| repository_deadlineExceeded
| repository_hardLink
| repository_invalidOptions
| repository_invalidPath
| repository_invalidSelection
| repository_limitExceeded
| repository_notDirectory
| repository_notFile
| repository_outsideRoot
| repository_pathChanged
| repository_pathUnavailable
| repository_readFailed
| repository_symlinkLoop
| repository_unsafeType.

Definition repository_code_name (code : ReadOnlyRepositoryErrorCode) : jstring :=
  match code with
  | repository_aborted => #"READ_ONLY_REPOSITORY_ABORTED"
  | repository_closeFailed => #"READ_ONLY_REPOSITORY_CLOSE_FAILED"
  | repository_concurrentOperation => #"READ_ONLY_REPOSITORY_CONCURRENT_OPERATION"
  | repository_deadlineExceeded => #"READ_ONLY_REPOSITORY_DEADLINE_EXCEEDED"
  | repository_hardLink => #"READ_ONLY_REPOSITORY_HARD_LINK"
  | repository_invalidOptions => #"READ_ONLY_REPOSITORY_INVALID_OPTIONS"
  | repository_invalidPath => #"READ_ONLY_REPOSITORY_INVALID_PATH"
  | repository_invalidSelection => #"READ_ONLY_REPOSITORY_INVALID_SELECTION"
  | repository_limitExceeded => #"READ_ONLY_REPOSITORY_LIMIT_EXCEEDED"
  | repository_notDirectory => #"READ_ONLY_REPOSITORY_NOT_DIRECTORY"
  | repository_notFile => #"READ_ONLY_REPOSITORY_NOT_FILE"
  | repository_outsideRoot => #"READ_ONLY_REPOSITORY_OUTSIDE_ROOT"
  | repository_pathChanged => #"READ_ONLY_REPOSITORY_PATH_CHANGED"
  | repository_pathUnavailable => #"READ_ONLY_REPOSITORY_PATH_UNAVAILABLE"
  | repository_readFailed => #"READ_ONLY_REPOSITORY_READ_FAILED"
  | repository_symlinkLoop => #"READ_ONLY_REPOSITORY_SYMLINK_LOOP"
  | repository_unsafeType => #"READ_ONLY_REPOSITORY_UNSAFE_TYPE"
  end.

(** What a call of the engine may throw. *)
Inductive IgnoreFailure :=
| EngineError (code : IgnoreEngineErrorCode)
| RepositoryError (code : ReadOnlyRepositoryErrorCode)
| PathError (code : RepositoryPathErrorCode).

Abbreviation engine := (res IgnoreFailure).

(** ** Texts *)

Definition unsafeUnit (unit : N) : bool :=
  (unit <=? 0x1f)%N || ((0x7f <=? unit)%N && (unit <=? 0x9f)%N)
  || ((0xd800 <=? unit)%N && (unit <=? 0xdfff)%N)
  || (unit =? 0xfeff)%N || (unit =? 0x061c)%N || (unit =? 0x200e)%N || (unit =? 0x200f)%N
  || ((0x202a <=? unit)%N && (unit <=? 0x202e)%N)
  || ((0x2066 <=? unit)%N && (unit <=? 0x2069)%N).

Definition unsafeText (value : jstring) : bool := existsb unsafeUnit value.

Definition SPACE : N := 32.

Fixpoint count_backslashes (reversed : jstring) : nat :=
  match reversed with
  | c :: r => if (c =? BACKSLASH)%N then S (count_backslashes r) else 0
  | [] => 0
  end.

(** The loop of [stripTrailingSpaces], on the units from the last one back. *)
Fixpoint strip_reversed (reversed : jstring) : jstring :=
  match reversed with
  | c :: r =>
      if (c =? SPACE)%N then
        let slashes := count_backslashes r in
        if Nat.odd slashes then c :: take (slashes - 1) r ++ drop slashes r
        else strip_reversed r
      else reversed
  | [] => []
  end.

Definition stripTrailingSpaces (value : jstring) : jstring := rev (strip_reversed (rev value)).

(** The loop of [patternComponents]; [component] is the text of the current one. *)
Fixpoint components_from (component value : jstring) : list jstring :=
  match value with
  | [] => [component]
  | character :: r =>
      if (character =? BACKSLASH)%N then
        match r with
        | next :: r' => if (next =? SLASH)%N then component :: components_from [] r'
                        else components_from (component ++ [character]) r
        | [] => components_from (component ++ [character]) r
        end
      else if (character =? SLASH)%N then component :: components_from [] r
      else components_from (component ++ [character]) r
  end.

Definition patternComponents (value : jstring) : option (list jstring) :=
  let components := components_from [] value in
  if existsb (fun part => jeqb part []) components then None else Some components.

Fixpoint normalizeEscapedSeparators (value : jstring) : jstring :=
  match value with
  | [] => []
  | character :: r =>
      if (character =? BACKSLASH)%N then
        match r with
        | next :: r' => if (next =? SLASH)%N then SLASH :: normalizeEscapedSeparators r'
                        else character :: normalizeEscapedSeparators r
        | [] => [character]
        end
      else character :: normalizeEscapedSeparators r
  end.

(** ** Compilation *)

Inductive CharacterToken :=
| any
| class (inverted : bool) (ranges : list N)
| literal (value : jstring)
| star.

Inductive CompiledComponent := Globstar | Tokens (tokens : list CharacterToken).

Record CompiledPattern := {
  components : list CompiledComponent;
  hasSlash : bool;
  trailingGlobstarRequiresChild : bool
}.

#[export] Instance CharacterToken_eq_dec : EqDecision CharacterToken.
Proof. solve_decision. Defined.
#[export] Instance CompiledComponent_eq_dec : EqDecision CompiledComponent.
Proof. solve_decision. Defined.
#[export] Instance CompiledPattern_eq_dec : EqDecision CompiledPattern.
Proof. solve_decision. Defined.

(** [character.codePointAt(0) ?? 0] of an element of [Array.from(value)] *)
Definition codePointAt0 (character : jstring) : N :=
  match character with
  | [] => 0
  | [u] => u
  | u :: v :: _ => if is_high u && is_low v then pair_cp u v else u
  end.

(** The loop that collects the characters of a class up to its bracket, with the
    number of characters read. *)
Fixpoint classValues (values : list jstring) (rest : list jstring) : option (list jstring * nat) :=
  match rest with
  | [] => None
  | character :: r =>
      if jeqb character #"]" && negb (bool_decide (values = [])) then Some (values, 1)
      else if jeqb character #"\" then
        match r with
        | escaped :: r' => prod_map id (Nat.add 2) <$> classValues (values ++ [escaped]) r'
        | [] => prod_map id (Nat.add 1) <$> classValues (values ++ [character]) r
        end
      else prod_map id (Nat.add 1) <$> classValues (values ++ [character]) r
  end.

Fixpoint classRanges (values : list jstring) : list N :=
  match values with
  | [] => []
  | first :: r =>
      match r with
      | dash :: last :: r' =>
          if jeqb dash #"-" then codePointAt0 first :: codePointAt0 last :: classRanges r'
          else codePointAt0 first :: codePointAt0 first :: classRanges r
      | _ => codePointAt0 first :: codePointAt0 first :: classRanges r
      end
  end.

(** [characters] are those after the opening bracket; the result says how many
    of them the class takes. *)
Definition compileClass (characters : list jstring) : option (CharacterToken * nat) :=
  let inverted := match characters with c :: _ => jeqb c #"!" || jeqb c #"^" | [] => false end in
  let n := if inverted then 1 else 0 in
  let bracket := match drop n characters with c :: _ => jeqb c #"]" | [] => false end in
  let m := if bracket then S n else n in
  '(values, read) ← classValues (if bracket then [ #"]" ] else []) (drop m characters);
  Some (class inverted (classRanges values), m + read).

Fixpoint run_of (c : jstring) (l : list jstring) : nat :=
  match l with
  | x :: r => if jeqb x c then S (run_of c r) else 0
  | [] => 0
  end.

(** The loop of [compileComponent]; [skip] is the distance from the character at
    hand to the next index of the loop. *)
Fixpoint compile_from (skip : nat) (characters : list jstring) : option (list CharacterToken) :=
  match characters with
  | [] => Some []
  | character :: rest =>
      match skip with
      | S k => compile_from k rest
      | O =>
          if jeqb character #"\" then
            match rest with
            | escaped :: _ => cons (literal escaped) <$> compile_from 1 rest
            | [] => None
            end
          else if jeqb character #"*" then cons star <$> compile_from (run_of #"*" rest) rest
          else if jeqb character #"?" then cons any <$> compile_from 0 rest
          else if jeqb character #"[" then
            match compileClass rest with
            | Some (token, next) => cons token <$> compile_from next rest
            | None => cons (literal #"[") <$> compile_from 0 rest
            end
          else cons (literal character) <$> compile_from 0 rest
      end
  end.

Definition compileComponent (value : jstring) : option (list CharacterToken) :=
  compile_from 0 (scalars value).

Definition compileRawComponent (hasSlash : bool) (component : jstring) : option CompiledComponent :=
  if hasSlash && jeqb component #"**" then Some Globstar
  else Tokens <$> compileComponent component.

Definition compilePattern (value : jstring) (hasSlash : bool) : option CompiledPattern :=
  rawComponents ← patternComponents value;
  components ← mapM (compileRawComponent hasSlash) rawComponents;
  Some {| components := components; hasSlash := hasSlash;
          trailingGlobstarRequiresChild :=
            hasSlash && (1 <? length components)%nat && bool_decide (last components = Some Globstar) |}.

(** ** Rules *)

Inductive IgnoreRuleSourceKind := built_in | configuration | gitignore | profile.

#[export] Instance IgnoreRuleSourceKind_eq_dec : EqDecision IgnoreRuleSourceKind.
Proof. solve_decision. Defined.

Definition kind_name (kind : IgnoreRuleSourceKind) : jstring :=
  match kind with
  | built_in => #"built-in" | configuration => #"configuration"
  | gitignore => #"gitignore" | profile => #"profile"
  end.

Record IgnoreRuleSource := {
  factId : option jstring;
  kind : IgnoreRuleSourceKind;
  line : option N;
  path : option jstring;
  profileId : option jstring;
  sourceUrl : option jstring
}.

Record IgnoreRule := {
  basePath : jstring;
  directoryOnly : bool;
  id : jstring;
  negative : bool;
  pattern : jstring;
  precedence : N;
  source : IgnoreRuleSource;
  valid : bool
}.

Record InternalRule := {
  compiled : option CompiledPattern;
  rule : IgnoreRule;
  sourceRank : N;
  sourceSequence : N
}.

Definition SOURCE_RANK (kind : IgnoreRuleSourceKind) : N :=
  match kind with gitignore => 1 | profile => 2 | configuration => 3 | built_in => 4 end.

Definition safePatternText (value : jstring) (limits : IgnoreEngineLimits) : engine unit :=
  ensure (negb (unsafeText value
                || (maximumPatternLength limits <? N.of_nat (length (scalars value)))%N
                || (maximumPathDepth limits <? N.of_nat (length (split_on SLASH value)))%N))
         (EngineError malformedInput).

(** [value.endsWith(c)] and [value.slice(0, -1)] for a one-unit text *)
Definition endsWith (value : jstring) (c : N) : bool :=
  match last value with Some x => (x =? c)%N | None => false end.
Definition without_last (value : jstring) : jstring := take (length value - 1) value.

(** What the text of a pattern says before it is compiled. *)
Record PatternShape := {
  shape_negative : bool;
  shape_directoryOnly : bool;
  shape_anchored : bool;
  shape_value : jstring
}.

(** The steps [makeRule] and [validSuppliedPattern] share, after the trailing
    spaces; [None] for an empty line or a comment. *)
Definition patternShape (value : jstring) : option PatternShape :=
  if jeqb value [] || startsWith value #"#" then None
  else
    let negative := startsWith value #"!" in
    let value := if negative then drop 1 value else value in
    let value := normalizeEscapedSeparators value in
    let directoryOnly := endsWith value SLASH in
    let value := if directoryOnly then without_last value else value in
    let anchored := startsWith value [SLASH] in
    let value := if anchored then drop 1 value else value in
    Some {| shape_negative := negative; shape_directoryOnly := directoryOnly;
            shape_anchored := anchored; shape_value := value |}.

Definition ruleId (source : IgnoreRuleSource) (sourceSequence : N) : jstring :=
  kind_name (kind source) ++ #":"
  ++ match path source with
     | Some p => p
     | None => default #"root" (factId source)
     end
  ++ #":" ++ String_of_N (default sourceSequence (line source)).

(** [makeRule] after the safety of the text; [None] for an empty line or a
    comment. *)
Definition ruleOf (rawValue : jstring) (source : IgnoreRuleSource) (basePath : jstring)
    (sourceSequence : N) : option InternalRule :=
  s ← patternShape (stripTrailingSpaces rawValue);
  let value := shape_value s in
  let hasSlash := shape_anchored s || includes value SLASH in
  let compiled := if jeqb value [] then None else compilePattern value hasSlash in
  let sourceRank := SOURCE_RANK (kind source) in
  Some {|
    compiled := compiled;
    rule := {|
      basePath := basePath;
      directoryOnly := shape_directoryOnly s;
      id := ruleId source sourceSequence;
      negative := shape_negative s;
      pattern := rawValue;
      precedence := sourceRank * 1000000 + sourceSequence;
      source := source;
      valid := bool_decide (is_Some compiled)
    |};
    sourceRank := sourceRank;
    sourceSequence := sourceSequence
  |}.

Definition makeRule (rawValue : jstring) (source : IgnoreRuleSource) (basePath : jstring)
    (sourceSequence : N) (limits : IgnoreEngineLimits) : engine (option InternalRule) :=
  _ ← safePatternText rawValue limits;
  Ok (ruleOf rawValue source basePath sourceSequence).

(** The pattern is compiled without looking at the leading separator, which only
    matters for the globstars of [compilePattern]. *)
Definition validSuppliedPattern (value : jstring) (limits : IgnoreEngineLimits) : bool :=
  is_ok (safePatternText value limits) &&
  match patternShape (stripTrailingSpaces value) with
  | None => false
  | Some s =>
      let normalized := shape_value s in
      negb (jeqb normalized []) &&
      bool_decide (is_Some (compilePattern normalized (includes normalized SLASH)))
  end.
