(* ===== verification/IgnoreMatch.v ===== *)
(** Matching of ignore rules (packages/evidence/src/ignore-engine.ts): the work
    budget, the matchers of components and paths, the winning rule of a path and
    the prefix that excludes it.

    The budget is a mutable object that can throw, so the matchers run in a
    monad of state and failure. *)
From S2P Require Import Prelude JsString Unicode RepositoryPath ObjectGraph IgnorePattern.

(** ** The process *)

(** What [clock.now()] does: throws, returns a value that is not finite, or
    returns a time, here in nanoseconds. *)
Inductive ClockReading := ClockThrows | NotFinite | Now (nanoseconds : Z).

(** [p_signal l n] and [p_clock n] are the [n]th answers of a signal and of the
    clock during a call. *)
Record Process := {
  p_heap : heap;
  p_signal : loc -> nat -> bool;
  p_clock : nat -> ClockReading
}.

Definition abortState (w : Process) (read : nat) (v : value) : option bool :=
  match v with
  | VRef l =>
      match p_heap w l with
      | Some {| obj_proxy := false; obj_slots := SignalSlots |} => Some (p_signal w l read)
      | _ => None
      end
  | _ => None
  end.

(** ** The work budget *)

Record WorkBudget := {
  startedAt : Z;
  lastNow : Z;
  lastCheckpointWork : N;
  work : N;
  clock_reads : nat;
  signal_reads : nat
}.

(** A method of the budget, or code that calls its methods. *)
Definition budgeted (A : Type) : Type := WorkBudget -> engine (WorkBudget * A).

#[export] Instance budgeted_mret : MRet budgeted := fun _ a b => Ok (b, a).
#[export] Instance budgeted_mbind : MBind budgeted := fun A B f m b =>
  match m b with Ok (b', a) => f a b' | Err e => Err e end.

(** A loop with an accumulator whose body may use the budget. *)
Fixpoint foldB {A B} (f : A -> B -> budgeted A) (acc : A) (l : list B) : budgeted A :=
  match l with
  | [] => mret acc
  | x :: r => acc' ← f acc x; foldB f acc' r
  end.

(** [#readClock()], with the number of readings before it *)
Definition readClock (w : Process) (reads : nat) : engine Z :=
  match p_clock w reads with
  | Now t => Ok t
  | ClockThrows | NotFinite => Err (EngineError invalidOptions)
  end.

Section budget.
Context (w : Process) (limits : IgnoreEngineLimits) (signal : option value).

Definition readSignal (reads : nat) : option bool * nat :=
  match signal with
  | None => (Some false, reads)
  | Some s => (abortState w reads s, S reads)
  end.

Definition checkpoint : budgeted unit := fun b =>
  let '(state, signal_reads) := readSignal (signal_reads b) in
  match state with
  | None => Err (EngineError invalidOptions)
  | Some true => Err (EngineError aborted)
  | Some false =>
      now ← readClock w (clock_reads b);
      let lastNow := Z.max (lastNow b) now in
      _ ← ensure (lastNow - startedAt b <=? 1000000 * Z.of_N (maximumDurationMs limits))%Z
                 (EngineError deadlineExceeded);
      Ok ({| startedAt := startedAt b; lastNow := lastNow; lastCheckpointWork := work b;
             work := work b; clock_reads := S (clock_reads b); signal_reads := signal_reads |}, tt)
  end.

(** [reads] are the answers of the signal before the budget is made. *)
Definition new_WorkBudget (reads : nat) : engine (WorkBudget * unit) :=
  now ← readClock w 0;
  checkpoint {| startedAt := now; lastNow := now; lastCheckpointWork := 0; work := 0;
                clock_reads := 1; signal_reads := reads |}.

Definition consume (amount : N) : budgeted unit := fun b =>
  let b := {| startedAt := startedAt b; lastNow := lastNow b;
              lastCheckpointWork := lastCheckpointWork b; work := work b + amount;
              clock_reads := clock_reads b; signal_reads := signal_reads b |} in
  _ ← ensure ((Z.of_N (work b) <=? MAX_SAFE_INTEGER)%Z && (work b <=? maximumMatchWork limits)%N)
             (EngineError limitExceeded);
  if (1024 <=? work b - lastCheckpointWork b)%N then checkpoint b else Ok (b, tt).

(** ** One row of a matching table

    Both tables have a row per token and a column per item of the text; [wild]
    is whether the token takes any number of items, [test] whether it takes the
    item. *)
Section row.
Context {A : Type} (wild : bool) (test : A -> budgeted bool).

(** The cells after the first: [prior_left] and [next_left] are
    [previous[index - 1]] and [next[index - 1]]. *)
Fixpoint rowCells (prior_left next_left : bool) (items : list A) (prior : list bool) : budgeted (list bool) :=
  match items, prior with
  | x :: items', p :: prior' =>
      _ ← consume 1;
      cell ← (if wild then mret (p || next_left)
              else if prior_left then test x else mret false);
      cells ← rowCells p cell items' prior';
      mret (cell :: cells)
  | _, _ => mret []
  end.

Definition nextRow (items : list A) (previous : list bool) : budgeted (list bool) :=
  match previous with
  | p :: prior' =>
      let first := wild && p in
      cells ← rowCells p first items prior';
      mret (first :: cells)
  | [] => mret []
  end.
End row.

Definition firstRow {A} (items : list A) : list bool := true :: repeat false (length items).
Definition lastCell (row : list bool) : bool := default false (last row).

(** ** Components and paths *)

Fixpoint inRanges (code : N) (ranges : list N) : bool :=
  match ranges with
  | first :: last :: r => ((first <=? code)%N && (code <=? last)%N) || inRanges code r
  | [first] => (code =? first)%N
  | [] => false
  end.

Definition classMatches (inverted : bool) (ranges : list N) (character : jstring) : bool :=
  let matched := inRanges (codePointAt0 character) ranges in
  if inverted then negb matched else matched.

Definition is_star (token : CharacterToken) : bool :=
  match token with star => true | _ => false end.

(** Whether a token that is not a star takes the character. *)
Definition takesCharacter (token : CharacterToken) (character : jstring) : bool :=
  match token with
  | any | star => true
  | literal value => jeqb value character
  | class inverted ranges => classMatches inverted ranges character
  end.

Definition componentMatches (tokens : list CharacterToken) (value : jstring) : budgeted bool :=
  let characters := scalars value in
  row ← foldB (fun previous token =>
                 nextRow (is_star token) (fun c => mret (takesCharacter token c)) characters previous)
              (firstRow characters) tokens;
  mret (lastCell row).

Definition is_globstar (component : CompiledComponent) : bool :=
  match component with Globstar => true | Tokens _ => false end.

Definition takesComponent (component : CompiledComponent) (value : jstring) : budgeted bool :=
  match component with
  | Globstar => mret true
  | Tokens tokens => componentMatches tokens value
  end.

Definition compiledMatches (compiled : CompiledPattern) (value : jstring) : budgeted bool :=
  _ ← consume (N.max 1 (N.of_nat (length value)));
  let pathComponents := split_on SLASH value in
  if negb (hasSlash compiled) then
    match components compiled with
    | Tokens tokens :: _ => componentMatches tokens (default [] (last pathComponents))
    | _ => mret false
    end
  else if trailingGlobstarRequiresChild compiled
          && (length pathComponents <? length (components compiled))%nat
  then mret false
  else
    row ← foldB (fun previous component =>
                   nextRow (is_globstar component) (takesComponent component) pathComponents previous)
                (firstRow pathComponents) (components compiled);
    mret (lastCell row).

(** ** Rules *)

Definition relativeToBase (pathValue basePath : jstring) : option jstring :=
  if jeqb basePath #"." then Some pathValue
  else if startsWith pathValue (basePath ++ [SLASH]) then Some (drop (length basePath + 1) pathValue)
  else None.

(** Whether the rule applies to the path, after the work the loop of
    [matchingRule] does for it. *)
Definition ruleMatches (pathValue : jstring) (directory : bool) (r : InternalRule) : budgeted bool :=
  _ ← consume 1;
  match compiled r with
  | None => mret false
  | Some pattern =>
      if directoryOnly (rule r) && negb directory then mret false
      else match relativeToBase pathValue (basePath (rule r)) with
           | None => mret false
           | Some relative => compiledMatches pattern relative
           end
  end.

(** Whether [r] takes the place of [selected]. *)
Definition overrides (r selected : InternalRule) : bool :=
  (sourceRank selected <? sourceRank r)%N
  || (sourceRank r =? sourceRank selected)%N && (sourceSequence selected <? sourceSequence r)%N.

Definition select (selected : option InternalRule) (r : InternalRule) : option InternalRule :=
  match selected with
  | None => Some r
  | Some s => if overrides r s then Some r else selected
  end.

Definition matchingRule (pathValue : jstring) (directory : bool) (rules : list InternalRule)
    : budgeted (option InternalRule) :=
  foldB (fun selected r =>
           matched ← ruleMatches pathValue directory r;
           mret (if matched : bool then select selected r else selected)) None rules.

(** [rule !== undefined && !rule.rule.negative] *)
Definition positive (selected : option InternalRule) : option InternalRule :=
  match selected with
  | Some r => if negative (rule r) then None else Some r
  | None => None
  end.

(** The loop over the directories of a path, outermost first. *)
Fixpoint excludedDirectory (directories : list jstring) (rules : list InternalRule)
    : budgeted (option InternalRule) :=
  match directories with
  | [] => mret None
  | directory :: r =>
      _ ← consume (N.max 1 (N.of_nat (length directory)));
      selected ← matchingRule directory true rules;
      match positive selected with
      | Some found => mret (Some found)
      | None => excludedDirectory r rules
      end
  end.

(** [components.slice(0, depth).join("/")] for [depth] from 1 to [directoryCount] *)
Definition directoriesOf (pathComponents : list jstring) (directoryCount : nat) : list jstring :=
  map (fun depth => join SLASH (take depth pathComponents)) (seq 1 directoryCount).

Definition excludedBy (pathValue : jstring) (file : bool) (rules : list InternalRule)
    : budgeted (option InternalRule) :=
  let pathComponents := split_on SLASH pathValue in
  let directoryCount := (if file then length pathComponents - 1 else length pathComponents)%nat in
  found ← excludedDirectory (directoriesOf pathComponents directoryCount) rules;
  match found with
  | Some r => mret (Some r)
  | None =>
      if file then
        selected ← matchingRule pathValue false rules;
        mret (positive selected)
      else mret None
  end.
End budget.
