(* ===== verification/IgnoreOptions.v ===== *)
(** The boundary of the ignore engine (packages/evidence/src/ignore-engine.ts):
    options, profile facts and the enumeration of paths are untrusted objects,
    copied into frozen snapshots before anything else happens.

    The URL parser of the platform is a class: only the parts the engine reads
    of a parsed URL are named. *)
From S2P Require Import Prelude JsString OrderedMap Unicode RepositoryPath ObjectGraph IgnorePattern IgnoreMatch.

Record Url := { protocol : jstring; username : jstring; password : jstring; href : jstring }.

(** [new URL(text)], [None] where it throws *)
Class UrlParser : Type := { parse_url : jstring -> option Url }.

(** ** Plain data *)

(** [Reflect.ownKeys(object)]; the key [length] of an array is not among its
    own properties in the model. *)
Definition own_keys (o : object) : list (option jstring) :=
  map prop_key (obj_own o) ++ (if is_array o then [Some #"length"] else []).

Definition allowed (keys : list jstring) (key : option jstring) : bool :=
  match key with Some k => existsb (jeqb k) keys | None => false end.

Definition data_field (code : IgnoreEngineErrorCode) (p : property) : engine (jstring * value) :=
  match prop_key p, prop_value p with
  | Some k, Some v => Ok (k, v)
  | _, _ => Err (EngineError code)
  end.

Definition plainDataValues (h : heap) (v : value) (allowedKeys : list jstring)
    (code : IgnoreEngineErrorCode) : engine (list (jstring * value)) :=
  match object_of h v with
  | Some o =>
      _ ← ensure (negb (obj_proxy o) && match obj_prototype o with ObjectPrototype => true | _ => false end)
                 (EngineError code);
      _ ← ensure ((length (own_keys o) <=? length allowedKeys)%nat
                  && forallb (allowed allowedKeys) (own_keys o)) (EngineError code);
      rmapM (data_field code) (obj_own o)
  | None => Err (EngineError code)
  end.

(** [fields.get(key)] *)
Definition field_get (fields : list (jstring * value)) (key : jstring) : value :=
  default VUndefined (map_get key fields).

Definition is_index (n : N) (key : option jstring) : bool :=
  existsb (fun i => bool_decide (key = Some (String_of_N (N.of_nat i)))) (seq 0 (N.to_nat n)).

Definition snapshotArray (h : heap) (v : value) (maximum : N) (code : IgnoreEngineErrorCode)
    : engine (list value) :=
  match object_of h v with
  | Some o =>
      _ ← ensure (is_array o && negb (obj_proxy o)
                  && match obj_prototype o with ArrayPrototype => true | _ => false end
                  && (array_length o <=? maximum)%N) (EngineError code);
      result ← rmapM (fun i => match descriptor (obj_own o) (String_of_N (N.of_nat i)) with
                               | Some {| prop_value := Some x |} => Ok x
                               | _ => Err (EngineError code)
                               end) (seq 0 (N.to_nat (array_length o)));
      _ ← ensure (forallb (fun p => is_index (array_length o) (prop_key p)) (obj_own o)) (EngineError code);
      Ok result
  | None => Err (EngineError code)
  end.

Definition is_lower_alnum (c : N) : bool :=
  (48 <=? c)%N && (c <=? 57)%N || (97 <=? c)%N && (c <=? 122)%N.

(** [/^[a-z0-9](?:[a-z0-9._-]{0,126}[a-z0-9])?$/] *)
Definition validIdentifier (s : jstring) : bool :=
  (length s <=? 128)%nat
  && forallb (fun c => is_lower_alnum c || (c =? 46)%N || (c =? 95)%N || (c =? 45)%N) s
  && match s with c :: _ => is_lower_alnum c | [] => false end
  && match last s with Some c => is_lower_alnum c | None => false end.

Definition is_decimal (c : N) : bool := (48 <=? c)%N && (c <=? 57)%N.

Definition daysOfMonth (year : N) : list N :=
  ([31; if (year mod 4 =? 0) && (negb (year mod 100 =? 0) || (year mod 400 =? 0)) then 29 else 28;
    31; 30; 31; 30; 31; 31; 30; 31; 30; 31])%N.

Definition validDate (s : jstring) : bool :=
  match s with
  | [y1; y2; y3; y4; d1; m1; m2; d2; a1; a2] =>
      if forallb is_decimal [y1; y2; y3; y4; m1; m2; a1; a2] && (d1 =? 45)%N && (d2 =? 45)%N then
        let year := digits_value 0 [y1; y2; y3; y4] in
        let month := digits_value 0 [m1; m2] in
        let day := digits_value 0 [a1; a2] in
        if (month <? 1)%N || (12 <? month)%N || (day <? 1)%N then false
        else (day <=? default 0 (daysOfMonth year !! N.to_nat (month - 1)))%N
      else false
  | _ => false
  end.

(** ** Profile facts *)

Inductive ProfileIgnoreApplicability := conditional | contradiction | known_active | known_inactive | unknown.
Inductive ProfileIgnoreEvidence := documented | documented_versioned | observed | source_derived.

Definition applicability_named (s : jstring) : option ProfileIgnoreApplicability :=
  if jeqb s #"conditional" then Some conditional
  else if jeqb s #"contradiction" then Some contradiction
  else if jeqb s #"known-active" then Some known_active
  else if jeqb s #"known-inactive" then Some known_inactive
  else if jeqb s #"unknown" then Some unknown
  else None.

Definition evidence_named (s : jstring) : option ProfileIgnoreEvidence :=
  if jeqb s #"documented" then Some documented
  else if jeqb s #"documented-versioned" then Some documented_versioned
  else if jeqb s #"observed" then Some observed
  else if jeqb s #"source-derived" then Some source_derived
  else None.

Record ProfileIgnoreFact := {
  fact_applicability : ProfileIgnoreApplicability;
  fact_clientVersion : option jstring;
  fact_evidence : ProfileIgnoreEvidence;
  fact_factId : jstring;
  fact_pattern : jstring;
  fact_profileId : jstring;
  fact_reason : option jstring;
  fact_retrievedAt : jstring;
  fact_sourceUrl : jstring
}.

Definition PROFILE_FACT_KEYS : list jstring :=
  [ #"applicability"; #"clientVersion"; #"evidence"; #"factId"; #"pattern"; #"profileId";
    #"reason"; #"retrievedAt"; #"sourceUrl"].

Definition uncertain (a : ProfileIgnoreApplicability) : bool :=
  match a with known_active | known_inactive => false | _ => true end.

(** A text that is not empty, not too long and safe. *)
Definition bounded_text (s : jstring) (maximum : N) : bool :=
  negb (jeqb s []) && (N.of_nat (length s) <=? maximum)%N && negb (unsafeText s).

Definition nullable_text (v : value) : option (option jstring) :=
  match v with VNull => Some None | VString s => Some (Some s) | _ => None end.

Definition text (v : value) : engine jstring :=
  match v with VString s => Ok s | _ => Err (EngineError invalidOptions) end.

Definition named {A} (f : jstring -> option A) (v : value) : engine A :=
  s ← text v;
  match f s with Some a => Ok a | None => Err (EngineError invalidOptions) end.

Definition nullable (v : value) : engine (option jstring) :=
  match nullable_text v with Some t => Ok t | None => Err (EngineError invalidOptions) end.

Definition snapshotProfileFact `{UrlParser} (h : heap) (v : value) (limits : IgnoreEngineLimits)
    : engine ProfileIgnoreFact :=
  let invalid := EngineError invalidOptions in
  fields ← plainDataValues h v PROFILE_FACT_KEYS invalidOptions;
  _ ← ensure (length fields =? length PROFILE_FACT_KEYS)%nat invalid;
  let get := field_get fields in
  sourceUrl ← text (get #"sourceUrl");
  _ ← ensure (N.of_nat (length sourceUrl) <=? 2048)%N invalid;
  match parse_url sourceUrl with
  | None => Err invalid
  | Some parsedUrl =>
      applicability ← named applicability_named (get #"applicability");
      clientVersion ← nullable (get #"clientVersion");
      _ ← ensure (match clientVersion with Some t => bounded_text t 128 | None => true end) invalid;
      evidence ← named evidence_named (get #"evidence");
      factId ← text (get #"factId");
      _ ← ensure (validIdentifier factId) invalid;
      pattern ← text (get #"pattern");
      _ ← ensure (bounded_text pattern (maximumPatternLength limits * 2)) invalid;
      profileId ← text (get #"profileId");
      _ ← ensure (validIdentifier profileId) invalid;
      reason ← nullable (get #"reason");
      _ ← ensure (if uncertain applicability
                  then match reason with Some t => bounded_text t 1024 | None => false end
                  else match reason with Some _ => false | None => true end) invalid;
      retrievedAt ← text (get #"retrievedAt");
      _ ← ensure (validDate retrievedAt) invalid;
      _ ← ensure (jeqb (protocol parsedUrl) #"https:" && jeqb (username parsedUrl) []
                  && jeqb (password parsedUrl) []) invalid;
      Ok {| fact_applicability := applicability; fact_clientVersion := clientVersion;
            fact_evidence := evidence; fact_factId := factId; fact_pattern := pattern;
            fact_profileId := profileId; fact_reason := reason; fact_retrievedAt := retrievedAt;
            fact_sourceUrl := href parsedUrl |}
  end.

(** ** Options *)

(** A key of the limits object: its name, [limits[key]], and [limits[key] = n]. *)
Record limit_key := {
  limit_name : jstring;
  limit_get : IgnoreEngineLimits -> N;
  limit_set : N -> IgnoreEngineLimits -> IgnoreEngineLimits
}.

Definition LIMIT_KEYS : list limit_key := [
  {| limit_name := #"maximumDurationMs"; limit_get := maximumDurationMs;
     limit_set n '(Build_IgnoreEngineLimits _ b c d e f g h i j) := Build_IgnoreEngineLimits n b c d e f g h i j |};
  {| limit_name := #"maximumIgnoreFileBytes"; limit_get := maximumIgnoreFileBytes;
     limit_set n '(Build_IgnoreEngineLimits a _ c d e f g h i j) := Build_IgnoreEngineLimits a n c d e f g h i j |};
  {| limit_name := #"maximumIgnoreFiles"; limit_get := maximumIgnoreFiles;
     limit_set n '(Build_IgnoreEngineLimits a b _ d e f g h i j) := Build_IgnoreEngineLimits a b n d e f g h i j |};
  {| limit_name := #"maximumMatchWork"; limit_get := maximumMatchWork;
     limit_set n '(Build_IgnoreEngineLimits a b c _ e f g h i j) := Build_IgnoreEngineLimits a b c n e f g h i j |};
  {| limit_name := #"maximumPathDepth"; limit_get := maximumPathDepth;
     limit_set n '(Build_IgnoreEngineLimits a b c d _ f g h i j) := Build_IgnoreEngineLimits a b c d n f g h i j |};
  {| limit_name := #"maximumPaths"; limit_get := maximumPaths;
     limit_set n '(Build_IgnoreEngineLimits a b c d e _ g h i j) := Build_IgnoreEngineLimits a b c d e n g h i j |};
  {| limit_name := #"maximumPatternBytes"; limit_get := maximumPatternBytes;
     limit_set n '(Build_IgnoreEngineLimits a b c d e f _ h i j) := Build_IgnoreEngineLimits a b c d e f n h i j |};
  {| limit_name := #"maximumPatternLength"; limit_get := maximumPatternLength;
     limit_set n '(Build_IgnoreEngineLimits a b c d e f g _ i j) := Build_IgnoreEngineLimits a b c d e f g n i j |};
  {| limit_name := #"maximumPatterns"; limit_get := maximumPatterns;
     limit_set n '(Build_IgnoreEngineLimits a b c d e f g h _ j) := Build_IgnoreEngineLimits a b c d e f g h n j |};
  {| limit_name := #"maximumProblems"; limit_get := maximumProblems;
     limit_set n '(Build_IgnoreEngineLimits a b c d e f g h i _) := Build_IgnoreEngineLimits a b c d e f g h i n |}
].

Definition OPTION_KEYS : list jstring :=
  #"configurationPatterns" :: map limit_name LIMIT_KEYS ++ [ #"profileFacts"; #"signal"].

Definition limit_value (v : value) (maximum : N) : engine N :=
  match v with
  | VNumber (Integer n) =>
      _ ← ensure ((- MAX_SAFE_INTEGER <=? n)%Z && (n <=? MAX_SAFE_INTEGER)%Z
                  && (1 <=? n)%Z && (n <=? Z.of_N maximum)%Z) (EngineError invalidOptions);
      Ok (Z.to_N n)
  | _ => Err (EngineError invalidOptions)
  end.

Definition selectLimit (fields : list (jstring * value)) (limits : IgnoreEngineLimits) (k : limit_key)
    : engine IgnoreEngineLimits :=
  match map_get (limit_name k) fields with
  | None => Ok limits
  | Some candidate =>
      n ← limit_value candidate (limit_get k IGNORE_ENGINE_HARD_LIMITS);
      Ok (limit_set k n limits)
  end.

Record OptionsSnapshot := {
  configurationPatterns : list jstring;
  limits : IgnoreEngineLimits;
  profileFacts : list ProfileIgnoreFact;
  signal : option value
}.

Definition configurationPattern (limits : IgnoreEngineLimits) (v : value) : engine jstring :=
  candidate ← text v;
  _ ← ensure (bounded_text candidate (maximumPatternLength limits * 2)) (EngineError invalidOptions);
  _ ← ensure (validSuppliedPattern candidate limits) (EngineError invalidOptions);
  Ok candidate.

Definition admitFact (limits : IgnoreEngineLimits) (factIds : list jstring) (fact : ProfileIgnoreFact)
    : engine (list jstring) :=
  _ ← ensure (validSuppliedPattern (fact_pattern fact) limits) (EngineError invalidOptions);
  _ ← ensure (negb (existsb (jeqb (fact_factId fact)) factIds)) (EngineError invalidOptions);
  Ok (factIds ++ [fact_factId fact]).

(** The array a field holds, empty when the field is absent. *)
Definition optionalArray (h : heap) (fields : list (jstring * value)) (key : jstring) (maximum : N)
    : engine (list value) :=
  match map_get key fields with
  | Some v => snapshotArray h v maximum invalidOptions
  | None => Ok []
  end.

(** The answer of the signal here is its first. *)
Definition optionSignal (w : Process) (fields : list (jstring * value)) : engine (option value) :=
  match map_get #"signal" fields with
  | None => Ok None
  | Some s =>
      _ ← ensure (bool_decide (is_Some (abortState w 0 s))) (EngineError invalidOptions);
      Ok (Some s)
  end.

Definition snapshotOptions `{UrlParser} (w : Process) (v : value) : engine OptionsSnapshot :=
  match v with
  | VUndefined => Ok {| configurationPatterns := []; limits := IGNORE_ENGINE_DEFAULT_LIMITS;
                        profileFacts := []; signal := None |}
  | _ =>
      fields ← plainDataValues (p_heap w) v OPTION_KEYS invalidOptions;
      limits ← foldM (selectLimit fields) IGNORE_ENGINE_DEFAULT_LIMITS LIMIT_KEYS;
      configurationValues ← optionalArray (p_heap w) fields #"configurationPatterns" (maximumPatterns limits);
      configurationPatterns ← rmapM (configurationPattern limits) configurationValues;
      profileValues ← optionalArray (p_heap w) fields #"profileFacts" (maximumPatterns limits);
      profileFacts ← rmapM (fun candidate => snapshotProfileFact (p_heap w) candidate limits) profileValues;
      _ ← foldM (admitFact limits) [] profileFacts;
      signal ← optionSignal w fields;
      Ok {| configurationPatterns := configurationPatterns; limits := limits;
            profileFacts := profileFacts; signal := signal |}
  end.

(** ** The enumeration *)

Record IgnoreEngineProblem := {
  problem_code : jstring;
  problem_line : option N;
  problem_path : option jstring
}.

Record EnumerationSnapshot := {
  fallback : bool;
  enumeration_omittedProblems : N;
  enumeration_paths : list jstring;
  enumeration_problems : list IgnoreEngineProblem
}.

Definition ENUMERATION_KEYS : list jstring :=
  [ #"certainty"; #"indexObjectFormat"; #"indexVersion"; #"limits"; #"omittedProblems"; #"paths";
    #"problems"; #"reason"; #"source"].

Definition canonicalText (candidate : jstring) : engine jstring :=
  match canonicalizeRepositoryRelativePath candidate posix with
  | Ok c => if jeqb c candidate then Ok c else Err (EngineError invalidInput)
  | Err _ => Err (EngineError invalidInput)
  end.

(** One turn of the loop over the candidates, with the paths so far. *)
Definition enumeratedPath (limits : IgnoreEngineLimits) (paths : list jstring) (candidate : value)
    : engine (list jstring) :=
  match candidate with
  | VString s =>
      _ ← ensure ((N.of_nat (length s) <=? 16384)%N && (textBytes s <=? 16384)%N) (EngineError invalidInput);
      canonical ← canonicalText s;
      _ ← ensure (negb (jeqb canonical #".")
                  && (N.of_nat (length (split_on SLASH canonical)) <=? maximumPathDepth limits)%N
                  && match last paths with Some previous => negb (jleb canonical previous) | None => true end)
                 (EngineError invalidInput);
      Ok (paths ++ [canonical])
  | _ => Err (EngineError invalidInput)
  end.

(** A safe integer that is not negative; [-0] is 0. *)
Definition omitted_count (v : value) : engine N :=
  match v with
  | VNumber (Integer n) =>
      _ ← ensure ((0 <=? n)%Z && (n <=? MAX_SAFE_INTEGER)%Z) (EngineError invalidInput);
      Ok (Z.to_N n)
  | VNumber NegativeZero => Ok 0%N
  | _ => Err (EngineError invalidInput)
  end.

Definition enumeratedProblem (h : heap) (problem : value) : engine IgnoreEngineProblem :=
  fields ← plainDataValues h problem [ #"code"; #"path"] invalidInput;
  match field_get fields #"code", field_get fields #"path" with
  | VString code, VString problemPath =>
      _ ← ensure (negb (jeqb code []) && (N.of_nat (length code) <=? 256)%N) (EngineError invalidInput);
      canonical ← canonicalText problemPath;
      Ok {| problem_code := code; problem_line := None; problem_path := Some canonical |}
  | _, _ => Err (EngineError invalidInput)
  end.

Definition snapshotEnumeration (w : Process) (v : value) (limits : IgnoreEngineLimits)
    : engine EnumerationSnapshot :=
  fields ← plainDataValues (p_heap w) v ENUMERATION_KEYS invalidInput;
  let source := field_get fields #"source" in
  let certainty := field_get fields #"certainty" in
  _ ← ensure (is_string source #"git-index" && is_string certainty #"tracked"
              || is_string source #"filesystem-fallback" && is_string certainty #"all-files-not-tracked")
             (EngineError invalidInput);
  candidates ← snapshotArray (p_heap w) (field_get fields #"paths") (maximumPaths limits) invalidInput;
  paths ← foldM (enumeratedPath limits) [] candidates;
  omittedProblems ← omitted_count (field_get fields #"omittedProblems");
  problemValues ← snapshotArray (p_heap w) (field_get fields #"problems") (maximumPaths limits) invalidInput;
  problems ← rmapM (enumeratedProblem (p_heap w)) problemValues;
  Ok {| fallback := is_string source #"filesystem-fallback";
        enumeration_omittedProblems := omittedProblems;
        enumeration_paths := paths; enumeration_problems := problems |}.
