(* ===== verification/IgnoreEngine.v ===== *)
(** The ordered ignore engine (packages/evidence/src/ignore-engine.ts): rules are
    collected from the built-in list, the configuration, the profile facts and
    the [.gitignore] files of the repository, and decide every enumerated path.

    The repository and the collation of the platform are classes; a repository
    answers each path once during a call, so its answers are a function. *)
From S2P Require Import Prelude JsString Unicode Utf8 RepositoryPath ObjectGraph IgnorePattern IgnoreMatch IgnoreOptions.

(** packages/evidence/src/built-in-ignore-patterns.ts *)
Definition BUILT_IN_IGNORE_PATTERNS : list jstring := [
  #".cache/"; #".dart_tool/"; #".git/"; #".gradle/"; #".next/"; #".nuxt/"; #".nx/"; #".pnpm/";
  #".turbo/"; #".venv/"; #".yarn/cache/"; #"DerivedData/"; #"Pods/"; #"__pycache__/"; #"build/";
  #"coverage/"; #"dist/"; #"node_modules/"; #"target/"; #"vendor/"; #"venv/"
].

(** ** Services *)

(** [left.localeCompare(right, "en-US")], a total preorder *)
Class Collation : Type := {
  localeCompare : jstring -> jstring -> Z;
  localeCompare_total : forall a b, (localeCompare a b <= 0 \/ localeCompare b a <= 0)%Z;
  localeCompare_trans : forall a b c,
    (localeCompare a b <= 0)%Z -> (localeCompare b c <= 0)%Z -> (localeCompare a c <= 0)%Z
}.

(** Why a call of the repository throws: an error of its own, or anything else. *)
Inductive RepositoryFailure := FacadeFailure (code : ReadOnlyRepositoryErrorCode) | OtherFailure.

Record ReadOnlyRepositoryIdentity := { device : jstring; inode : jstring }.

#[export] Instance ReadOnlyRepositoryIdentity_eq_dec : EqDecision ReadOnlyRepositoryIdentity.
Proof. solve_decision. Defined.

Inductive EntryType := directory_entry | file_entry.

#[export] Instance EntryType_eq_dec : EqDecision EntryType.
Proof. solve_decision. Defined.

Record ReadOnlyRepositoryEntry := {
  entry_identity : ReadOnlyRepositoryIdentity;
  entry_linkDepth : N;
  entry_size : N;
  entry_type : EntryType
}.

Record ReadOnlyRepositoryFile := {
  file_identity : ReadOnlyRepositoryIdentity;
  file_linkDepth : N;
  file_bytes : list N
}.

Class ReadOnlyRepository : Type := {
  inspect : jstring -> res RepositoryFailure ReadOnlyRepositoryEntry;
  readFile : jstring -> res RepositoryFailure ReadOnlyRepositoryFile
}.

Definition fatal_code (code : ReadOnlyRepositoryErrorCode) : bool :=
  match code with
  | repository_aborted | repository_concurrentOperation | repository_deadlineExceeded
  | repository_invalidOptions | repository_invalidSelection | repository_limitExceeded
  | repository_pathChanged => true
  | _ => false
  end.

(** ** Numbers

    Counts are exact up to 2^53; above it, and below 2^54, sums are rounded to
    the nearest even number. *)
Definition add_count (a b : N) : N :=
  let sum := (a + b)%N in
  if (sum <=? 2 ^ 53)%N then sum
  else if N.even sum then sum
  else if N.even (sum / 2) then (sum - 1)%N
  else (sum + 1)%N.

(** ** Collected rules *)

Record Collected := {
  rules : list InternalRule;
  problems : list IgnoreEngineProblem;
  omittedProblems : N;
  patternBytes : N;
  lastSequence : N
}.

Definition frozenProblem (code : jstring) (pathValue : option jstring) (line : option N) : IgnoreEngineProblem :=
  {| problem_code := code; problem_line := line; problem_path := pathValue |}.

Section collect.
Context (limits : IgnoreEngineLimits).

Definition recordProblem (st : Collected) (problem : IgnoreEngineProblem) : Collected :=
  if (N.of_nat (length (problems st)) <? maximumProblems limits)%N
  then {| rules := rules st; problems := problems st ++ [problem];
          omittedProblems := omittedProblems st; patternBytes := patternBytes st;
          lastSequence := lastSequence st |}
  else {| rules := rules st; problems := problems st;
          omittedProblems := add_count (omittedProblems st) 1; patternBytes := patternBytes st;
          lastSequence := lastSequence st |}.

Definition consumePatternBytes (st : Collected) (amount : N) : engine Collected :=
  let total := (patternBytes st + amount)%N in
  _ ← ensure (total <=? maximumPatternBytes limits)%N (EngineError limitExceeded);
  Ok {| rules := rules st; problems := problems st; omittedProblems := omittedProblems st;
        patternBytes := total; lastSequence := lastSequence st |}.

Definition pushRule (st : Collected) (r : InternalRule) (nextSequence : N) : Collected :=
  {| rules := rules st ++ [r]; problems := problems st; omittedProblems := omittedProblems st;
     patternBytes := patternBytes st; lastSequence := nextSequence |}.

Definition addRule (st : Collected) (raw : jstring) (source : IgnoreRuleSource) (base : jstring)
    (countBytes : bool) : engine Collected :=
  st ← (if countBytes then consumePatternBytes st (textBytes raw) else Ok st);
  let nextSequence := (lastSequence st + 1)%N in
  made ← makeRule raw source base nextSequence limits;
  match made with
  | None => Ok st
  | Some r =>
      _ ← ensure (N.of_nat (length (rules st)) <? maximumPatterns limits)%N (EngineError limitExceeded);
      let st := pushRule st r nextSequence in
      Ok (if valid (rule r) then st
          else recordProblem st (frozenProblem #"INVALID_PATTERN_NEVER_MATCHES" (path source) (line source)))
  end.

Definition ROOT : jstring := #".".

(** A pattern of a numbered list: its line is its index plus one. *)
Definition listedSource (k : IgnoreRuleSourceKind) (index : nat) : IgnoreRuleSource :=
  {| factId := None; kind := k; line := Some (N.of_nat index + 1)%N; path := None;
     profileId := None; sourceUrl := None |}.

Definition addListed (k : IgnoreRuleSourceKind) (st : Collected) (p : nat * jstring) : engine Collected :=
  addRule st p.2 (listedSource k p.1) ROOT true.

Definition factSource (fact : ProfileIgnoreFact) : IgnoreRuleSource :=
  {| factId := Some (fact_factId fact); kind := profile; line := None; path := None;
     profileId := Some (fact_profileId fact); sourceUrl := Some (fact_sourceUrl fact) |}.

Definition is_active (fact : ProfileIgnoreFact) : bool :=
  match fact_applicability fact with known_active => true | _ => false end.

Definition addFact (st : Collected) (fact : ProfileIgnoreFact) : engine Collected :=
  if is_active fact then addRule st (fact_pattern fact) (factSource fact) ROOT true else Ok st.

(** ** Ignore files *)

Definition CR : N := 13.
Definition LF : N := 10.

Fixpoint replace_crlf (s : jstring) : jstring :=
  match s with
  | [] => []
  | c :: r =>
      match r with
      | d :: r' => if (c =? CR)%N && (d =? LF)%N then LF :: replace_crlf r' else c :: replace_crlf r
      | [] => [c]
      end
  end.

Definition BOM : N := 0xfeff.

Definition decodeIgnoreFile (bytes : list N) : engine jstring :=
  match utf8_decode bytes with
  | None => Err (EngineError malformedInput)
  | Some text =>
      _ ← ensure (negb (startsWith text [BOM]
                        || unsafeText (List.filter (fun c => negb (c =? LF)%N) (replace_crlf text))))
                 (EngineError malformedInput);
      Ok text
  end.

(** [pathValue.slice(0, pathValue.lastIndexOf("/"))], [None] without a separator *)
Definition before_last_slash (pathValue : jstring) : option jstring :=
  match split_on SLASH pathValue with
  | [] | [_] => None
  | segments => Some (join SLASH (take (length segments - 1) segments))
  end.

Definition canonical_or_throw (s : jstring) : engine jstring :=
  match canonicalizeRepositoryRelativePath s posix with
  | Ok c => Ok c
  | Err e => Err (PathError e)
  end.

Definition baseOfIgnoreFile (pathValue : jstring) : engine jstring :=
  match before_last_slash pathValue with
  | None => canonical_or_throw #"."
  | Some directory => canonical_or_throw directory
  end.

Definition GITIGNORE : jstring := #".gitignore".

Definition is_ignore_file (pathValue : jstring) : bool :=
  jeqb pathValue GITIGNORE || startsWith (rev pathValue) (rev (SLASH :: GITIGNORE)).

Definition gitignoreSource (ignorePath : jstring) (index : nat) : IgnoreRuleSource :=
  {| factId := None; kind := gitignore; line := Some (N.of_nat index + 1)%N;
     path := Some ignorePath; profileId := None;
     sourceUrl := Some #"https://git-scm.com/docs/gitignore/2.55.0" |}.

Definition line_text (rawLine : jstring) : jstring :=
  if endsWith rawLine CR then without_last rawLine else rawLine.

Definition addLine (ignorePath base : jstring) (st : Collected) (l : nat * jstring) : engine Collected :=
  addRule st (line_text l.2) (gitignoreSource ignorePath l.1) base false.

Definition entries {A} (l : list A) : list (nat * A) := imap pair l.

Definition addText (st : Collected) (ignorePath base text : jstring) : engine Collected :=
  foldM (addLine ignorePath base) st (entries (split_on LF text)).

(** The [catch] blocks around the repository. *)
Definition repositoryFailure (st : Collected) (ignorePath : jstring) (cause : RepositoryFailure)
    : engine Collected :=
  match cause with
  | FacadeFailure code =>
      if fatal_code code then Err (RepositoryError code)
      else Ok (recordProblem st (frozenProblem (repository_code_name code) (Some ignorePath) None))
  | OtherFailure =>
      Ok (recordProblem st (frozenProblem #"IGNORE_FILE_UNAVAILABLE" (Some ignorePath) None))
  end.

Definition addBytes (st : Collected) (ignorePath base : jstring) (bytes : list N) : engine Collected :=
  let byteLength := N.of_nat (length bytes) in
  _ ← ensure (byteLength <=? maximumIgnoreFileBytes limits)%N (EngineError limitExceeded);
  st ← consumePatternBytes st byteLength;
  text ← decodeIgnoreFile bytes;
  addText st ignorePath base text.

Definition loadIgnoreFile `{ReadOnlyRepository} (st : Collected) (ignorePath base : jstring)
    : engine Collected :=
  match inspect ignorePath with
  | Err cause => repositoryFailure st ignorePath cause
  | Ok inspected =>
      if negb (bool_decide (entry_type inspected = file_entry)) then
        Ok (recordProblem st (frozenProblem #"IGNORE_FILE_UNSAFE_TYPE" (Some ignorePath) None))
      else if negb (entry_linkDepth inspected =? 0)%N then
        Ok (recordProblem st (frozenProblem #"IGNORE_FILE_LINK_SKIPPED" (Some ignorePath) None))
      else
        _ ← ensure (entry_size inspected <=? maximumIgnoreFileBytes limits)%N (EngineError limitExceeded);
        match readFile ignorePath with
        | Err cause => repositoryFailure st ignorePath cause
        | Ok f =>
            _ ← ensure ((file_linkDepth f =? 0)%N && bool_decide (file_identity f = entry_identity inspected))
                       (RepositoryError repository_pathChanged);
            addBytes st ignorePath base (file_bytes f)
        end
  end.

Definition ignore_file_le `{Collation} (left right : jstring) : bool :=
  let l := length (split_on SLASH left) in
  let r := length (split_on SLASH right) in
  if (l =? r)%nat then (localeCompare left right <=? 0)%Z else (l <? r)%nat.

Definition ignoreFilesOf `{Collation} (paths : list jstring) : list jstring :=
  sort_by ignore_file_le (List.filter is_ignore_file paths).
End collect.

(** ** The engine *)

Inductive DecisionCertainty := decision_known | tracking_uncertain.

Record IgnoredPathDecision := {
  certainty : DecisionCertainty;
  decision_path : jstring;
  decision_ruleId : jstring
}.

Record IgnoreEngineResult := {
  appliedProfileFactIds : list jstring;
  exact_tracked_input : bool; (** [result.certainty] is ["exact-tracked-input"] *)
  deferredProfileFacts : list ProfileIgnoreFact;
  ignored : list IgnoredPathDecision;
  result_limits : IgnoreEngineLimits;
  result_omittedProblems : N;
  paths : list jstring;
  result_problems : list IgnoreEngineProblem;
  profile_known : bool; (** [result.profileCertainty] is ["known"] *)
  result_profileFacts : list ProfileIgnoreFact;
  result_rules : list IgnoreRule;
  tracked : bool (** [result.trackingCertainty] is ["tracked"] *)
}.

Definition liftB {A} (m : engine A) : budgeted A := fun b =>
  match m with Ok a => Ok (b, a) | Err e => Err e end.

Definition problem_le `{Collation} (left right : IgnoreEngineProblem) : bool :=
  let leftPath := default [] (problem_path left) in
  let rightPath := default [] (problem_path right) in
  if jeqb leftPath rightPath
  then (default 0 (problem_line left) <=? default 0 (problem_line right))%N
  else (localeCompare leftPath rightPath <=? 0)%Z.

Section engine.
Context `{UrlParser} `{Collation} `{ReadOnlyRepository} (w : Process).

(** The rules that do not come from the repository. *)
Definition initialProblems (snapshot : OptionsSnapshot) (input : EnumerationSnapshot) : Collected :=
  let maximum := N.to_nat (maximumProblems (limits snapshot)) in
  {| rules := []; problems := take maximum (enumeration_problems input);
     omittedProblems := add_count (enumeration_omittedProblems input)
                                  (N.of_nat (length (enumeration_problems input) - maximum));
     patternBytes := 0; lastSequence := 0 |}.

Definition policyRules (snapshot : OptionsSnapshot) (st : Collected) : engine Collected :=
  let limits := limits snapshot in
  st ← foldM (addListed limits built_in) st (entries BUILT_IN_IGNORE_PATTERNS);
  st ← foldM (addListed limits configuration) st (entries (configurationPatterns snapshot));
  foldM (addFact limits) st (profileFacts snapshot).

(** One turn of the loop over the ignore files. *)
Definition visitIgnoreFile (snapshot : OptionsSnapshot) (st : Collected) (ignorePath : jstring)
    : budgeted Collected :=
  let limits := limits snapshot in
  _ ← checkpoint w limits (signal snapshot);
  base ← liftB (baseOfIgnoreFile ignorePath);
  excluded ← (if jeqb base #"." then mret None
              else excludedBy w limits (signal snapshot) base false (rules st));
  match excluded with
  | Some _ => mret st
  | None => liftB (loadIgnoreFile limits st ignorePath base)
  end.

Definition repositoryRules (snapshot : OptionsSnapshot) (input : EnumerationSnapshot) (st : Collected)
    : budgeted Collected :=
  if fallback input then
    let ignoreFiles := ignoreFilesOf (enumeration_paths input) in
    _ ← liftB (ensure (N.of_nat (length ignoreFiles) <=? maximumIgnoreFiles (limits snapshot))%N
                      (EngineError limitExceeded));
    foldB (visitIgnoreFile snapshot) st ignoreFiles
  else mret st.

Definition decision (input : EnumerationSnapshot) (pathValue : jstring) (r : InternalRule)
    : IgnoredPathDecision :=
  {| certainty := if fallback input && bool_decide (kind (source (rule r)) = gitignore)
                  then tracking_uncertain else decision_known;
     decision_path := pathValue; decision_ruleId := id (rule r) |}.

Definition decidePath (snapshot : OptionsSnapshot) (input : EnumerationSnapshot) (rs : list InternalRule)
    (acc : list jstring * list IgnoredPathDecision) (pathValue : jstring)
    : budgeted (list jstring * list IgnoredPathDecision) :=
  _ ← consume w (limits snapshot) (signal snapshot) 1;
  found ← excludedBy w (limits snapshot) (signal snapshot) pathValue true rs;
  mret match found with
       | None => (acc.1 ++ [pathValue], acc.2)
       | Some r => (acc.1, acc.2 ++ [decision input pathValue r])
       end.

Definition is_deferred (fact : ProfileIgnoreFact) : bool := uncertain (fact_applicability fact).

Definition resultOf (snapshot : OptionsSnapshot) (input : EnumerationSnapshot) (st : Collected)
    (decided : list jstring * list IgnoredPathDecision) : IgnoreEngineResult :=
  let deferred := List.filter is_deferred (profileFacts snapshot) in
  {| appliedProfileFactIds := map fact_factId (List.filter is_active (profileFacts snapshot));
     exact_tracked_input := negb (fallback input);
     deferredProfileFacts := deferred;
     ignored := decided.2;
     result_limits := limits snapshot;
     result_omittedProblems := omittedProblems st;
     paths := decided.1;
     result_problems := sort_by problem_le (problems st);
     profile_known := bool_decide (length deferred = 0);
     result_profileFacts := profileFacts snapshot;
     result_rules := map rule (rules st);
     tracked := negb (fallback input) |}.

(** The body of [applyIgnoreRulesWithClock] after the snapshots. *)
Definition decideAll (snapshot : OptionsSnapshot) (input : EnumerationSnapshot)
    : budgeted IgnoreEngineResult :=
  st ← liftB (policyRules snapshot (initialProblems snapshot input));
  st ← repositoryRules snapshot input st;
  decided ← foldB (decidePath snapshot input (rules st)) ([], []) (enumeration_paths input);
  _ ← checkpoint w (limits snapshot) (signal snapshot);
  mret (resultOf snapshot input st decided).

Definition signalReads (snapshot : OptionsSnapshot) : nat :=
  match signal snapshot with Some _ => 1 | None => 0 end.

Definition applyIgnoreRulesWithClock (enumeration options : value) : engine IgnoreEngineResult :=
  snapshot ← snapshotOptions w options;
  input ← snapshotEnumeration w enumeration (limits snapshot);
  '(budget, _) ← new_WorkBudget w (limits snapshot) (signal snapshot) (signalReads snapshot);
  '(_, result) ← decideAll snapshot input budget;
  Ok result.
End engine.
