(* ===== verification/IgnoreMatchLaws.v ===== *)
(** Laws of the ignore matcher: what a compiled pattern means, that the matching
    tables decide it, which rule wins for a path and which prefix excludes it,
    and how much work a decision takes. *)
From S2P Require Import Prelude TokenPatterns JsString Unicode RepositoryPath ObjectGraph IgnorePattern IgnoreMatch.

(** ** The meaning of patterns *)

(** A star takes any characters, every other token one it accepts. *)
Definition character_class (token : CharacterToken) : token_class jstring :=
  if is_star token then many (fun _ => True) else one (fun c => takesCharacter token c = true).

Definition component_means (tokens : list CharacterToken) (value : jstring) : Prop :=
  spells (character_class <$> tokens) (scalars value).

(** A globstar takes any components, a component pattern one it matches. *)
Definition component_class (component : CompiledComponent) : token_class jstring :=
  match component with
  | Globstar => many (fun _ => True)
  | Tokens tokens => one (component_means tokens)
  end.

(** A pattern without a separator is about the last component of the path. *)
Definition pattern_means (compiled : CompiledPattern) (value : jstring) : Prop :=
  let pathComponents := split_on SLASH value in
  if hasSlash compiled then
    (trailingGlobstarRequiresChild compiled = true -> length (components compiled) <= length pathComponents) /\
    spells (component_class <$> components compiled) pathComponents
  else
    exists tokens rest, components compiled = Tokens tokens :: rest /\
      component_means tokens (default [] (last pathComponents)).

(** The tokens of a text without special characters. *)
Definition literal_tokens (name : jstring) : list CharacterToken := map literal (scalars name).

Lemma literal_means name value : component_means (literal_tokens name) value <-> value = name.
Proof.
  unfold component_means, literal_tokens. rewrite <- (mjoin_scalars name), <- (mjoin_scalars value) at 2.
  assert (forall cs v, spells (character_class <$> map literal cs) v <-> v = cs) as Hcs.
  { induction cs as [|c cs IH]; intros v; cbn [map fmap list_fmap]; [apply spells_nil|].
    unfold character_class at 1. cbn [is_star takesCharacter]. rewrite spells_one_cons. split.
    - intros (x & v' & -> & Hx%jeqb_eq & Hv%IH). by subst.
    - intros ->. exists c, cs. split; [done|]. split; [apply jeqb_refl|by apply IH]. }
  rewrite Hcs. split; [by intros ->|]. intros E.
  rewrite <- (mjoin_scalars name), <- (mjoin_scalars value), E. done.
Qed.

(** ** Code that uses the budget *)

Lemma budgeted_bind {A B} (m : budgeted A) (f : A -> budgeted B) b b' x :
  (m ≫= f) b = Ok (b', x) <-> exists b1 a, m b = Ok (b1, a) /\ f a b1 = Ok (b', x).
Proof.
  unfold mbind, budgeted_mbind. destruct (m b) as [[b1 a]|e]; split; try done.
  - eauto.
  - by intros (? & ? & [= <- <-] & ?).
  - by intros (? & ? & ? & _).
Qed.

Lemma budgeted_ret {A} (a : A) b b' x : (mret a : budgeted A) b = Ok (b', x) <-> b' = b /\ x = a.
Proof. unfold mret, budgeted_mret. split; [by intros [= <- <-]|by intros [-> ->]]. Qed.

(** Inverts a run that succeeds. *)
Ltac run_inv :=
  repeat match goal with
  | H : (_ ≫= _) _ = Ok _ |- _ =>
      let b := fresh "b" in let x := fresh "x" in let H' := fresh "Hrun" in
      apply budgeted_bind in H as (b & x & H' & H); cbv beta in H
  | H : (mret _) _ = Ok _ |- _ => apply budgeted_ret in H as [? ?]; subst
  | H : unit |- _ => destruct H
  end.

(** [m] computes a boolean that decides [P], whatever its budget. *)
Definition decides (m : budgeted bool) (P : Prop) : Prop :=
  forall b b' r, m b = Ok (b', r) -> (r = true <-> P).

Lemma decides_ret (c : bool) (P : Prop) : (c = true <-> P) -> decides (mret c) P.
Proof. intros H b b' r Hr. run_inv. done. Qed.

(** The loop invariant rule. *)
Lemma foldB_inv {A B} (P : list B -> A -> Prop) (f : A -> B -> budgeted A) l acc b b' r :
  foldB f acc l b = Ok (b', r) ->
  P [] acc ->
  (forall done_ x a a' b b', P done_ a -> x ∈ l -> f a x b = Ok (b', a') -> P (done_ ++ [x]) a') ->
  P l r.
Proof.
  intros Hf H0 Hstep.
  enough (forall todo done_ a b, done_ ++ todo = l -> P done_ a -> foldB f a todo b = Ok (b', r) -> P l r)
    as Hgen by (by eapply (Hgen l [] acc)).
  clear Hf b. induction todo as [|x todo IH]; intros done_ a b Hl HP Hr; cbn [foldB] in Hr; run_inv.
  - by rewrite app_nil_r.
  - eapply (IH (done_ ++ [x])); [by rewrite <- app_assoc| |done].
    eapply Hstep; [done| |done]. subst l. set_solver.
Qed.

Section matching.
Context (w : Process) (limits : IgnoreEngineLimits) (signal : option value).

Section rows.
Context {A : Type} (wild : bool) (test : A -> budgeted bool) (c : token_class A) (cs : list (token_class A)).
#[local] Abbreviation P := (spells cs).
#[local] Abbreviation Q := (spells (cs ++ [c])).

Hypothesis cell_many : wild = true -> c = many (fun _ => True).
Hypothesis cell_one : wild = false -> exists R, c = one R /\ forall x, decides (test x) (R x).

Lemma cell_step pre x (p prior_left next_left : bool) b b' (cell : bool) :
  (if wild then mret (p || next_left) else if prior_left then test x else mret false : budgeted bool) b = Ok (b', cell) ->
  (prior_left = true <-> P pre) -> (next_left = true <-> Q pre) -> (p = true <-> P (pre ++ [x])) ->
  (cell = true <-> Q (pre ++ [x])).
Proof.
  intros H Hpl Hnl Hp. destruct wild.
  - run_inv. rewrite (cell_many eq_refl) in Hnl |- *. rewrite orb_true_iff, spells_many_snoc, Hp, Hnl. tauto.
  - destruct (cell_one eq_refl) as (R & -> & HR). rewrite spells_one_snoc. destruct prior_left.
    + rewrite (HR x _ _ _ H). naive_solver.
    + run_inv. naive_solver.
Qed.

Lemma rowCells_ok items : forall prior pre prior_left next_left b b' cells,
  rowCells w limits signal wild test prior_left next_left items prior b = Ok (b', cells) ->
  (prior_left = true <-> P pre) -> (next_left = true <-> Q pre) ->
  cells_ok P pre items prior -> cells_ok Q pre items cells.
Proof.
  induction items as [|x items IH]; intros [|p prior] pre pl nl b b' cells H Hpl Hnl Hc; try done;
    cbn [rowCells] in H.
  - by run_inv.
  - destruct Hc as [Hp Hc]. run_inv.
    match goal with H1 : (if wild then _ else _) _ = Ok (_, ?cell) |- _ =>
      pose proof (cell_step pre x p pl nl _ _ _ H1 Hpl Hnl Hp) as Hcell end.
    split; [done|]. by eapply IH.
Qed.

Lemma nextRow_ok items previous b b' row :
  nextRow w limits signal wild test items previous b = Ok (b', row) ->
  row_ok P [] items previous -> row_ok Q [] items row.
Proof.
  destruct previous as [|p prior]; [done|]. intros H [Hp Hc]. cbn [nextRow] in H. run_inv.
  assert (wild && p = true <-> Q []) as H0.
  { destruct wild.
    - rewrite (cell_many eq_refl), spells_many_nil. exact Hp.
    - destruct (cell_one eq_refl) as (R & -> & _). split; [done|]. by intros []%spells_one_nil. }
  split; [done|]. by eapply rowCells_ok.
Qed.
End rows.

(** A table over tokens [l]; each row is as above. *)
Lemma table_ok {A T} (wild : T -> bool) (test : T -> A -> budgeted bool) (f : T -> token_class A)
    (items : list A) (l : list T) :
  (forall t, wild t = true -> f t = many (fun _ => True)) ->
  (forall t, wild t = false -> exists R, f t = one R /\ forall x, decides (test t x) (R x)) ->
  forall b b' row,
  foldB (fun previous t => nextRow w limits signal (wild t) (test t) items previous) (firstRow items) l b
    = Ok (b', row) ->
  (lastCell row = true <-> spells (f <$> l) items).
Proof.
  intros Hm Ho b b' row H.
  enough (row_ok (spells (f <$> l)) [] items row) as Hr by exact (row_ok_last _ _ _ _ Hr).
  revert H. assert (row_ok (spells []) [] items (firstRow items)) as H0 by apply first_row_ok.
  change (f <$> l) with ([] ++ (f <$> l)). revert b H0.
  generalize (firstRow items) as previous. generalize (@nil (token_class A)) as cs.
  induction l as [|t l IH]; intros cs previous b H0 H; cbn [foldB] in H.
  - run_inv. by rewrite app_nil_r.
  - run_inv. rewrite fmap_cons, cons_middle, app_assoc. eapply IH; [|done].
    eapply nextRow_ok; [by apply Hm|by apply Ho|done|done].
Qed.

Lemma componentMatches_decides tokens value :
  decides (componentMatches w limits signal tokens value) (component_means tokens value).
Proof.
  intros b b' r H. unfold componentMatches in H. run_inv.
  apply (table_ok is_star (fun t c => mret (takesCharacter t c)) character_class) in Hrun; [done|..].
  - intros t Ht. unfold character_class. by rewrite Ht.
  - intros t Ht. unfold character_class. rewrite Ht. eexists. split; [done|].
    intros c. by apply decides_ret.
Qed.

Lemma compiledMatches_decides compiled value :
  decides (compiledMatches w limits signal compiled value) (pattern_means compiled value).
Proof.
  intros b b' r H. unfold compiledMatches in H. run_inv. unfold pattern_means.
  destruct (hasSlash compiled); cbn [negb] in H.
  - destruct (trailingGlobstarRequiresChild compiled && _) eqn:E.
    { run_inv. split; [done|]. intros [Hl _]. bool_prop. apply Nat.ltb_lt in H0. apply Hl in H. lia. }
    run_inv.
    match goal with H1 : foldB _ _ _ _ = Ok _ |- _ =>
      apply (table_ok is_globstar (takesComponent w limits signal) component_class) in H1; [rewrite H1|..] end.
    2: { by intros []. }
    2: { intros [|tokens] ?; [done|]. eexists. split; [done|]. intros. apply componentMatches_decides. }
    split; [|by intros []]. intros Hs. split; [|done]. intros Ht. rewrite Ht in E. cbn in E.
    by apply Nat.ltb_ge in E.
  - destruct (components compiled) as [|[|tokens] rest].
    + run_inv. split; [done|]. by intros (? & ? & ? & _).
    + run_inv. split; [done|]. by intros (? & ? & ? & _).
    + rewrite (componentMatches_decides _ _ _ _ _ H). split.
      * intros. by exists tokens, rest.
      * by intros (? & ? & [= <- <-] & ?).
Qed.

(** ** Rules *)

(** The rule is about the path: it compiled, the path is below its base, and
    what is left of the path matches; a directory pattern needs a directory. *)
Definition rule_applies (r : InternalRule) (pathValue : jstring) (directory : bool) : Prop :=
  exists pattern relative, compiled r = Some pattern /\
    (directoryOnly (rule r) = true -> directory = true) /\
    relativeToBase pathValue (basePath (rule r)) = Some relative /\ pattern_means pattern relative.

Lemma ruleMatches_decides pathValue directory r :
  decides (ruleMatches w limits signal pathValue directory r) (rule_applies r pathValue directory).
Proof.
  intros b b' res H. unfold ruleMatches in H. run_inv. unfold rule_applies.
  destruct (compiled r) as [pattern|]; [|run_inv; split; [done|]; by intros (? & ? & ? & _)].
  destruct (directoryOnly (rule r) && negb directory) eqn:Ed.
  { run_inv. bool_prop. split; [done|]. intros (? & ? & _ & Hd & _). rewrite Hd in *; done. }
  destruct (relativeToBase _ _) as [relative|]; [|run_inv; split; [done|]; by intros (? & ? & _ & _ & ? & _)].
  rewrite (compiledMatches_decides _ _ _ _ _ H). split.
  - intros. exists pattern, relative. repeat split; [|done]. intros Hd. rewrite Hd in Ed. by destruct directory.
  - by intros (? & ? & [= <-] & _ & [= <-] & ?).
Qed.
End matching.

(** ** The winning rule *)

Definition rule_wf (r : InternalRule) : Prop :=
  sourceRank r = SOURCE_RANK (kind (source (rule r))) /\
  precedence (rule r) = (sourceRank r * 1000000 + sourceSequence r)%N /\
  (sourceSequence r < 1000000)%N.

(** The rules of a run: numbered in the order they were added. *)
Definition rules_wf (rs : list InternalRule) : Prop :=
  Forall rule_wf rs /\ StronglySorted (fun r s => sourceSequence r < sourceSequence s)%N rs.

(** The rule of highest precedence among those about the path. *)
Definition wins (rs : list InternalRule) (pathValue : jstring) (directory : bool) (r : InternalRule) : Prop :=
  r ∈ rs /\ rule_applies r pathValue directory /\
  forall r', r' ∈ rs -> rule_applies r' pathValue directory ->
    r' = r \/ (precedence (rule r') < precedence (rule r))%N.

Lemma overrides_precedence r s : rule_wf r -> rule_wf s ->
  overrides r s = true <-> (precedence (rule s) < precedence (rule r))%N.
Proof.
  intros (_ & -> & Hr) (_ & -> & Hs). unfold overrides.
  rewrite orb_true_iff, andb_true_iff, !N.ltb_lt, N.eqb_eq. lia.
Qed.

Lemma same_precedence rs r s :
  rules_wf rs -> r ∈ rs -> s ∈ rs -> precedence (rule r) = precedence (rule s) -> r = s.
Proof.
  intros [Hwf Hs] Hr Hs' E. rewrite Forall_forall in Hwf.
  destruct (Hwf _ Hr) as (_ & Er & Hlr), (Hwf _ Hs') as (_ & Es & Hls).
  assert (sourceSequence r = sourceSequence s) as Eq by lia. clear -Hs Hr Hs' Eq.
  induction Hs as [|x l Hs IH Hx]; [by apply not_elem_of_nil in Hr|].
  rewrite Forall_forall in Hx. apply elem_of_cons in Hr as [->|Hr], Hs' as [->|Hs']; auto.
  - apply Hx in Hs'. lia.
  - apply Hx in Hr. lia.
Qed.

Lemma wins_unique rs pathValue directory r s :
  wins rs pathValue directory r -> wins rs pathValue directory s -> r = s.
Proof.
  intros (Hr & Ar & Mr) (Hs & As & Ms).
  destruct (Mr s Hs As) as [->|]; [done|]. destruct (Ms r Hr Ar) as [->|]; [done|]. lia.
Qed.

Section winning.
Context (w : Process) (limits : IgnoreEngineLimits) (signal : option value).

Definition selected_ok (rs : list InternalRule) (pathValue : jstring) (directory : bool)
    (selected : option InternalRule) : Prop :=
  match selected with
  | Some r => wins rs pathValue directory r
  | None => forall r, r ∈ rs -> ~ rule_applies r pathValue directory
  end.

Lemma matchingRule_ok rs pathValue directory b b' selected :
  rules_wf rs ->
  matchingRule w limits signal pathValue directory rs b = Ok (b', selected) ->
  selected_ok rs pathValue directory selected.
Proof.
  intros Hwf H. unfold matchingRule in H.
  enough (selected_ok rs pathValue directory selected /\ (forall r, selected = Some r -> r ∈ rs)) by naive_solver.
  eapply (foldB_inv (fun done_ sel => selected_ok done_ pathValue directory sel /\
            (forall r, sel = Some r -> r ∈ rs))); [done|split; [set_solver|done]|].
  clear H b b' selected. intros done_ r sel sel' b b' [Hok Hin] Hr H. run_inv.
  apply ruleMatches_decides in Hrun. destruct Hwf as [Hwf Hsort]. rewrite Forall_forall in Hwf.
  destruct x.
  - destruct (proj1 Hrun eq_refl) as []. pose proof (proj1 Hrun eq_refl) as Ha. clear Hrun.
    destruct sel as [s|]; cbn [select].
    + destruct Hok as (Hs & As & Ms). pose proof (overrides_precedence r s (Hwf _ Hr) (Hwf _ (Hin s eq_refl))) as Ho.
      destruct (overrides r s) eqn:E.
      * split; [|by intros ? [= <-]]. split; [set_solver|]. split; [done|].
        apply proj1 in Ho. specialize (Ho eq_refl).
        intros r' [Hr'| ->%list_elem_of_singleton]%elem_of_app Ar'; [|by left].
        right. destruct (Ms r' Hr' Ar') as [->|?]; lia.
      * split; [|done]. split; [set_solver|]. split; [done|].
        intros r' [Hr'| ->%list_elem_of_singleton]%elem_of_app Ar'; [auto|].
        destruct (decide (precedence (rule r) = precedence (rule s))) as [Eq|Hne].
        -- left. eapply same_precedence; [split; [|done]|..]; eauto. by rewrite Forall_forall.
        -- right. assert (~ (precedence (rule s) < precedence (rule r))%N) by (rewrite <- Ho; congruence). lia.
    + split; [|by intros ? [= <-]]. split; [set_solver|]. split; [done|].
      intros r' [Hr'| ->%list_elem_of_singleton]%elem_of_app Ar'; [|by left]. by destruct (Hok r').
  - assert (~ rule_applies r pathValue directory) as Hn by (intros Ha%Hrun; done).
    split; [|done]. destruct sel as [s|]; cbn [selected_ok] in *.
    + destruct Hok as (Hs & As & Ms). split; [set_solver|]. split; [done|].
      intros r' [Hr'| ->%list_elem_of_singleton]%elem_of_app Ar'; [auto|done].
    + intros r' [Hr'| ->%list_elem_of_singleton]%elem_of_app; [auto|done].
Qed.

(** ** The excluding prefix *)

(** The prefixes of a path that are decided, outermost first, with whether they
    are directories. *)
Definition prefixes (pathValue : jstring) (is_file : bool) : list (jstring * bool) :=
  let pathComponents := split_on SLASH pathValue in
  let n := if is_file then length pathComponents - 1 else length pathComponents in
  map (fun d => (d, true)) (directoriesOf pathComponents n) ++ (if is_file then [(pathValue, false)] else []).

Definition excluded_at (rs : list InternalRule) (p : jstring * bool) (r : InternalRule) : Prop :=
  wins rs p.1 p.2 r /\ negative (rule r) = false.

(** No rule is about the prefix, or the winning one is a negation. *)
Definition stays (rs : list InternalRule) (p : jstring * bool) : Prop :=
  (forall r, r ∈ rs -> ~ rule_applies r p.1 p.2) \/ exists r, wins rs p.1 p.2 r /\ negative (rule r) = true.

(** [r] excludes the first of [ps] that does not stay. *)
Fixpoint first_excluded (rs : list InternalRule) (ps : list (jstring * bool)) (r : InternalRule) : Prop :=
  match ps with
  | [] => False
  | p :: rest => excluded_at rs p r \/ (stays rs p /\ first_excluded rs rest r)
  end.

Definition exclusion_ok (rs : list InternalRule) (ps : list (jstring * bool)) (found : option InternalRule) : Prop :=
  match found with
  | Some r => first_excluded rs ps r
  | None => Forall (stays rs) ps
  end.

Lemma positive_ok rs p selected :
  selected_ok rs p.1 p.2 selected ->
  match positive selected with Some r => excluded_at rs p r | None => stays rs p end.
Proof.
  destruct selected as [s|]; cbn; intros H; [|by left].
  destruct (negative (rule s)) eqn:En; [|by split]. right. by exists s.
Qed.

Lemma excludedDirectory_ok rs directories b b' found :
  rules_wf rs ->
  excludedDirectory w limits signal directories rs b = Ok (b', found) ->
  exclusion_ok rs (map (fun d => (d, true)) directories) found.
Proof.
  intros Hwf. revert b. induction directories as [|d ds IH]; intros b H; cbn [excludedDirectory] in H; run_inv.
  { constructor. }
  match goal with H1 : matchingRule _ _ _ _ _ _ _ = _ |- _ =>
    apply (matchingRule_ok rs d true) in H1; [apply (positive_ok rs (d, true)) in H1|done] end.
  destruct (positive _) as [r|]; run_inv; [by left|]. apply IH in H. destruct found as [r|]; cbn in *.
  - by right.
  - by constructor.
Qed.

Lemma first_excluded_app rs ps qs r :
  Forall (stays rs) ps -> first_excluded rs qs r -> first_excluded rs (ps ++ qs) r.
Proof. intros Hps Hq. induction Hps as [|p ps Hp Hps IH]; [done|]. by right. Qed.

Lemma first_excluded_weaken rs ps qs r : first_excluded rs ps r -> first_excluded rs (ps ++ qs) r.
Proof. induction ps as [|p ps IH]; [done|]. cbn. naive_solver. Qed.

Lemma excludedBy_ok rs pathValue is_file b b' found :
  rules_wf rs ->
  excludedBy w limits signal pathValue is_file rs b = Ok (b', found) ->
  exclusion_ok rs (prefixes pathValue is_file) found.
Proof.
  intros Hwf H. unfold excludedBy in H. run_inv. unfold prefixes.
  set (n := if is_file then _ else _) in *. set (ds := directoriesOf _ _) in *.
  match goal with H1 : excludedDirectory _ _ _ _ _ _ = _ |- _ => apply excludedDirectory_ok in H1; [|done] end.
  destruct x as [r|]; run_inv; [by apply first_excluded_weaken|]. cbn [exclusion_ok] in Hrun.
  destruct is_file; run_inv; [|by rewrite app_nil_r].
  match goal with H1 : matchingRule _ _ _ _ _ _ _ = _ |- _ =>
    apply (matchingRule_ok rs pathValue false) in H1; [apply (positive_ok rs (pathValue, false)) in H1|done] end.
  destruct (positive _) as [r|]; cbn [exclusion_ok].
  - apply first_excluded_app; [done|]. by left.
  - apply Forall_app. split; [done|]. by apply Forall_singleton.
Qed.
End winning.

Lemma excluded_not_stays rs p r : excluded_at rs p r -> ~ stays rs p.
Proof.
  intros [Hw Hn] [H|(s & Hs & Hns)].
  - by destruct Hw as (Hr & Ha & _); apply (H r).
  - rewrite (wins_unique _ _ _ _ _ Hw Hs) in Hn. congruence.
Qed.

(** A path is decided one way only. *)
Lemma first_excluded_not_stays rs ps r : first_excluded rs ps r -> ~ Forall (stays rs) ps.
Proof.
  induction ps as [|p ps IH]; [done|]. intros H Hf. apply Forall_cons in Hf as [Hp Hf].
  destruct H as [H|[_ H]]; [by eapply excluded_not_stays|by apply IH].
Qed.

Lemma first_excluded_unique rs ps r s : first_excluded rs ps r -> first_excluded rs ps s -> r = s.
Proof.
  induction ps as [|p ps IH]; [done|]. intros [[Hr Hnr]|[Hr Hr']] [[Hs Hns]|[Hs Hs']]; [|exfalso..|auto].
  - by eapply wins_unique.
  - by eapply excluded_not_stays.
  - by eapply excluded_not_stays.
Qed.

Lemma exclusion_ok_unique rs ps f g : exclusion_ok rs ps f -> exclusion_ok rs ps g -> f = g.
Proof.
  destruct f as [r|], g as [s|]; cbn; intros Hf Hg; [|exfalso..|done].
  - f_equal. by eapply first_excluded_unique.
  - by eapply first_excluded_not_stays.
  - by eapply first_excluded_not_stays.
Qed.

(** ** Two patterns that lose an escape *)

(** The escape of a class member is dropped before ranges are looked for, so
    these three members compile as a range. *)
Example escaped_member_becomes_range :
  compileComponent #"[a\-z]" = compileComponent #"[a-z]" /\ compileComponent #"[a\-z]" <> None.
Proof. split; vm_compute; [reflexivity|done]. Qed.

(** An escaped backslash before a separator compiles as the separator alone. *)
Example escaped_backslash_lost :
  compilePattern (normalizeEscapedSeparators #"a\\/b") true = compilePattern #"a/b" true.
Proof. vm_compute. reflexivity. Qed.
