(* ===== verification/IgnoreCost.v ===== *)
(** The work of the ignore matcher: with a signal that stays quiet and a clock
    within the deadline, a decision completes when the budget covers a bound
    that is linear in the size of the rules and quadratic in the path. *)
From S2P Require Import Prelude TokenPatterns JsString Unicode RepositoryPath ObjectGraph IgnorePattern IgnoreMatch IgnoreMatchLaws.

Section cost.
Context (w : Process) (limits : IgnoreEngineLimits) (signal : option value) (start : Z).

Definition within_deadline (t : Z) : Prop :=
  (t - start <= 1000000 * Z.of_N (maximumDurationMs limits))%Z.

(** The signal never fires and the clock never reaches the deadline. *)
Record quiet : Prop := {
  quiet_signal : forall s n, signal = Some s -> abortState w n s = Some false;
  quiet_clock : forall n, exists t, p_clock w n = Now t /\ within_deadline t
}.

Definition fresh_budget (b : WorkBudget) : Prop := startedAt b = start /\ within_deadline (lastNow b).

(** [m] returns when the budget has [cost] left, and takes no more. *)
Definition completes {A} (m : budgeted A) (cost : N) : Prop :=
  forall b, fresh_budget b -> (work b + cost <= maximumMatchWork limits)%N ->
  exists b' a, m b = Ok (b', a) /\ fresh_budget b' /\ (work b <= work b' <= work b + cost)%N.

Lemma completes_ret {A} (a : A) : completes (mret a) 0.
Proof. intros b Hb Hw. exists b, a. split; [done|]. split; [done|lia]. Qed.

Lemma completes_bind {A B} (m : budgeted A) (f : A -> budgeted B) c1 c2 :
  completes m c1 -> (forall a, completes (f a) c2) -> completes (m ≫= f) (c1 + c2).
Proof.
  intros Hm Hf b Hb Hw. destruct (Hm b) as (b1 & a & E1 & Hb1 & Hle1); [done|lia|].
  destruct (Hf a b1) as (b2 & x & E2 & Hb2 & Hle2); [done|lia|].
  exists b2, x. split; [|split; [done|lia]]. apply budgeted_bind. by exists b1, a.
Qed.

Lemma completes_weaken {A} (m : budgeted A) c c' : completes m c -> (c <= c')%N -> completes m c'.
Proof.
  intros Hm Hc b Hb Hw. destruct (Hm b) as (b' & a & E & Hb' & Hle); [done|lia|].
  exists b', a. split; [done|]. split; [done|lia].
Qed.

Lemma completes_if {A} (c : bool) (m1 m2 : budgeted A) n :
  completes m1 n -> completes m2 n -> completes (if c then m1 else m2) n.
Proof. by destruct c. Qed.

Lemma completes_foldB {A B} (f : A -> B -> budgeted A) (cost : B -> N) l acc :
  (forall a x, x ∈ l -> completes (f a x) (cost x)) -> completes (foldB f acc l) (sumN cost l).
Proof.
  revert acc. induction l as [|x l IH]; intros acc H; [apply completes_ret|].
  cbn [foldB]. apply completes_bind; [apply H; set_solver|]. intros a. apply IH. intros. apply H. set_solver.
Qed.

Context (Hquiet : quiet) (Hsafe : (Z.of_N (maximumMatchWork limits) <= MAX_SAFE_INTEGER)%Z).

Lemma checkpoint_completes : completes (checkpoint w limits signal) 0.
Proof.
  intros b [Hs Hl] Hw. destruct Hquiet as [Hsig Hclock].
  unfold checkpoint, readSignal.
  assert (exists reads, (match signal with Some s => (abortState w (signal_reads b) s, S (signal_reads b))
                         | None => (Some false, signal_reads b) end) = (Some false, reads)) as [reads ->].
  { destruct signal as [s|]; [|by eexists]. rewrite (Hsig s) by done. by eexists. }
  destruct (Hclock (clock_reads b)) as (t & Ht & Hd). unfold readClock. rewrite Ht.
  assert (within_deadline (Z.max (lastNow b) t)) as Hm by (by destruct (Z.max_spec (lastNow b) t) as [[_ ->]|[_ ->]]).
  cbn [mbind res_mbind]. unfold within_deadline in Hm. rewrite <- Hs in Hm. apply Z.leb_le in Hm as Hm'.
  rewrite Hm'. cbn [ensure mbind res_mbind]. eexists _, _. split; [done|].
  split; [|cbn; lia]. split; [done|]. unfold within_deadline. by rewrite <- Hs.
Qed.

Lemma consume_completes amount : completes (consume w limits signal amount) amount.
Proof.
  intros b Hb Hw. unfold consume. cbn [work].
  assert ((Z.of_N (work b + amount) <=? MAX_SAFE_INTEGER)%Z = true) as -> by (apply Z.leb_le; lia).
  assert ((work b + amount <=? maximumMatchWork limits)%N = true) as -> by (apply N.leb_le; lia).
  cbn [andb ensure mbind res_mbind lastCheckpointWork].
  destruct (1024 <=? _)%N.
  - match goal with |- context [checkpoint w limits signal ?b1] =>
      destruct (checkpoint_completes b1) as (b' & [] & E & Hb' & Hle) end; [done|cbn; lia|].
    cbn [work] in Hle. exists b', tt. split; [done|]. split; [done|lia].
  - eexists _, _. split; [done|]. split; [done|cbn; lia].
Qed.

(** ** The matchers *)

Lemma rowCells_completes {A} wild (test : A -> budgeted bool) cost items : forall prior prior_left next_left,
  (forall x, completes (test x) (cost x)) ->
  completes (rowCells w limits signal wild test prior_left next_left items prior)
            (sumN (fun x => 1 + cost x)%N items).
Proof.
  induction items as [|x items IH]; intros prior pl nl Ht; [apply completes_ret|].
  cbn [rowCells]. destruct prior as [|p prior].
  { eapply completes_weaken; [apply completes_ret|lia]. }
  change (sumN _ (x :: items)) with (1 + cost x + sumN (fun x => 1 + cost x) items)%N.
  rewrite <- N.add_assoc. apply completes_bind; [apply consume_completes|]. intros _.
  apply completes_bind.
  { apply completes_if; [eapply completes_weaken; [apply completes_ret|lia]|].
    apply completes_if; [apply Ht|]. eapply completes_weaken; [apply completes_ret|lia]. }
  intros cell. rewrite <- (N.add_0_r (sumN _ _)). apply completes_bind; [by apply IH|].
  intros. apply completes_ret.
Qed.

Lemma nextRow_completes {A} wild (test : A -> budgeted bool) cost items previous :
  (forall x, completes (test x) (cost x)) ->
  completes (nextRow w limits signal wild test items previous) (sumN (fun x => 1 + cost x)%N items).
Proof.
  intros Ht. destruct previous as [|p prior]; cbn [nextRow].
  { eapply completes_weaken; [apply completes_ret|lia]. }
  rewrite <- (N.add_0_r (sumN _ _)). apply completes_bind; [by apply rowCells_completes|].
  intros. apply completes_ret.
Qed.

Definition token_count (component : CompiledComponent) : N :=
  match component with Globstar => 0 | Tokens tokens => N.of_nat (length tokens) end.

Definition text_size (s : jstring) : N := N.of_nat (length s).

Lemma sumN_const {A} (c : N) (l : list A) : sumN (fun _ => c) l = (c * N.of_nat (length l))%N.
Proof. induction l as [|x l IH]; unfold sumN in *; cbn; lia. Qed.

Lemma sumN_mono {A} (f g : A -> N) l : (forall x, x ∈ l -> (f x <= g x)%N) -> (sumN f l <= sumN g l)%N.
Proof.
  induction l as [|x l IH]; intros H; [done|]. unfold sumN in *. cbn.
  pose proof (H x ltac:(set_solver)). pose proof (IH ltac:(set_solver)). lia.
Qed.

Lemma sumN_scale {A} (c : N) (f : A -> N) l : sumN (fun x => c * f x)%N l = (c * sumN f l)%N.
Proof. induction l as [|x l IH]; unfold sumN in *; cbn; lia. Qed.

Lemma sumN_plus {A} (f g : A -> N) l : sumN (fun x => f x + g x)%N l = (sumN f l + sumN g l)%N.
Proof. induction l as [|x l IH]; unfold sumN in *; cbn; lia. Qed.

Lemma scalars_length s : length (scalars s) <= length s.
Proof.
  induction s as [|u|u v r IH1 IH2] using jstring_ind2; cbn in *; [lia|destruct (is_high u); cbn; lia|].
  destruct (is_high u), (is_low v); cbn; lia.
Qed.

Lemma split_on_size c s : (sumN text_size (split_on c s) + N.of_nat (length (split_on c s)) = text_size s + 1)%N.
Proof.
  unfold text_size, sumN. induction s as [|x s IH]; [done|]. cbn [split_on].
  destruct (x =? c)%N; [cbn in *; lia|].
  pose proof (split_on_nonempty c s). destruct (split_on c s); [done|]. cbn in *. lia.
Qed.

Lemma componentMatches_completes tokens value :
  completes (componentMatches w limits signal tokens value)
            (N.of_nat (length tokens) * text_size value).
Proof.
  unfold componentMatches. rewrite <- (N.add_0_r (_ * _)). apply completes_bind; [|intros; apply completes_ret].
  eapply completes_weaken.
  - apply (completes_foldB _ (fun _ => text_size value)). intros previous t _.
    eapply completes_weaken; [apply (nextRow_completes _ _ (fun _ => 0%N)); intros; apply completes_ret|].
    rewrite sumN_const. unfold text_size. pose proof (scalars_length value). lia.
  - rewrite sumN_const. lia.
Qed.

(** One unit per component, and one per token. *)
Definition pattern_size (compiled : CompiledPattern) : N :=
  sumN (fun c => 1 + token_count c)%N (components compiled).

Lemma takesComponent_completes component value :
  completes (takesComponent w limits signal component value) (token_count component * text_size value).
Proof.
  destruct component as [|tokens]; [eapply completes_weaken; [apply completes_ret|lia]|].
  apply componentMatches_completes.
Qed.

Lemma table_completes components (segments : list jstring) n previous :
  (sumN text_size segments + N.of_nat (length segments) <= n)%N ->
  completes (foldB (fun previous component =>
               nextRow w limits signal (is_globstar component) (takesComponent w limits signal component)
                 segments previous) previous components)
    (n * sumN (fun c => 1 + token_count c)%N components).
Proof.
  intros Hn. rewrite <- sumN_scale. eapply completes_weaken.
  - apply (completes_foldB _ (fun c => sumN (fun s => 1 + token_count c * text_size s) segments)%N).
    intros a c _. apply nextRow_completes. apply takesComponent_completes.
  - apply sumN_mono. intros c _. rewrite sumN_plus, sumN_const, sumN_scale. nia.
Qed.

Lemma last_segment_size (l : list jstring) : (text_size (default [] (last l)) <= sumN text_size l)%N.
Proof. destruct (last l) as [s|] eqn:E; [|apply N.le_0_l]. cbn. apply sumN_elem. by apply last_Some_elem_of. Qed.

Definition compiled_cost (compiled : CompiledPattern) (n : N) : N := ((n + 1) * (1 + pattern_size compiled))%N.

Lemma compiledMatches_completes compiled value :
  completes (compiledMatches w limits signal compiled value) (compiled_cost compiled (text_size value)).
Proof.
  unfold compiled_cost. rewrite N.mul_add_distr_l, N.mul_1_r.
  pose proof (split_on_size SLASH value) as Hsize. unfold compiledMatches.
  apply completes_bind.
  { eapply completes_weaken; [apply consume_completes|]. unfold text_size. lia. }
  intros _. apply completes_if.
  - unfold pattern_size. destruct (components compiled) as [|[|tokens] rest];
      [eapply completes_weaken; [apply completes_ret|lia]..|].
    eapply completes_weaken; [apply componentMatches_completes|].
    pose proof (last_segment_size (split_on SLASH value)). unfold sumN at 1. cbn [foldr token_count]. nia.
  - apply completes_if; [eapply completes_weaken; [apply completes_ret|lia]|].
    rewrite <- (N.add_0_r (_ * _)). apply completes_bind; [|intros; apply completes_ret].
    apply table_completes. lia.
Qed.

(** ** Rules and paths *)

Definition rule_size (r : InternalRule) : N :=
  match compiled r with Some c => 1 + pattern_size c | None => 0 end.

Definition rules_size (rs : list InternalRule) : N := sumN (fun r => 1 + rule_size r)%N rs.

Lemma relativeToBase_size pathValue base relative :
  relativeToBase pathValue base = Some relative -> (text_size relative <= text_size pathValue)%N.
Proof.
  unfold relativeToBase, text_size. repeat case_match; intros [= <-]; [lia|]. rewrite length_drop. lia.
Qed.

Lemma ruleMatches_completes pathValue directory r :
  completes (ruleMatches w limits signal pathValue directory r)
            ((text_size pathValue + 1) * (1 + rule_size r)).
Proof.
  unfold ruleMatches, rule_size. eapply completes_weaken.
  - apply (completes_bind _ _ 1 ((text_size pathValue + 1) * rule_size r)); [apply consume_completes|].
    intros _. unfold rule_size. destruct (compiled r) as [pattern|];
      [|eapply completes_weaken; [apply completes_ret|lia]].
    apply completes_if; [eapply completes_weaken; [apply completes_ret|lia]|].
    destruct (relativeToBase _ _) as [relative|] eqn:E; [|eapply completes_weaken; [apply completes_ret|lia]].
    apply relativeToBase_size in E. eapply completes_weaken; [apply compiledMatches_completes|].
    unfold compiled_cost. nia.
  - unfold rule_size. nia.
Qed.

Lemma matchingRule_completes pathValue directory rs :
  completes (matchingRule w limits signal pathValue directory rs)
            ((text_size pathValue + 1) * rules_size rs).
Proof.
  unfold matchingRule, rules_size. rewrite <- sumN_scale. apply completes_foldB. intros selected r _.
  rewrite <- (N.add_0_r (_ * _)). apply completes_bind; [apply ruleMatches_completes|].
  intros. apply completes_ret.
Qed.

Lemma excludedDirectory_completes directories rs n :
  Forall (fun d => text_size d <= n)%N directories ->
  completes (excludedDirectory w limits signal directories rs)
            (N.of_nat (length directories) * ((n + 1) * (1 + rules_size rs))).
Proof.
  induction 1 as [|d ds Hd Hds IH]; [apply completes_ret|]. cbn [excludedDirectory length].
  rewrite Nat2N.inj_succ, N.mul_succ_l, N.add_comm, N.mul_add_distr_l, N.mul_1_r, <- N.add_assoc.
  apply completes_bind.
  { eapply completes_weaken; [apply consume_completes|]. unfold text_size in *. lia. }
  intros _. apply completes_bind.
  { eapply completes_weaken; [apply matchingRule_completes|]. nia. }
  intros selected. destruct (positive selected).
  - eapply completes_weaken; [apply completes_ret|lia].
  - rewrite <- (N.mul_1_r (n + 1)) at 1. rewrite <- N.mul_add_distr_l. exact IH.
Qed.

Lemma join_take_size c l d : length (join c (take d l)) <= length (join c l).
Proof.
  revert d. induction l as [|x l IH]; intros [|d]; cbn [take]; [done|done|apply Nat.le_0_l|].
  specialize (IH d). destruct l as [|y l]; [by destruct d|].
  destruct d as [|d]; cbn [take join] in *; rewrite ?length_app; cbn [length] in *; lia.
Qed.

Lemma directories_size pathValue n :
  Forall (fun d => text_size d <= text_size pathValue)%N (directoriesOf (split_on SLASH pathValue) n).
Proof.
  unfold directoriesOf. rewrite Forall_forall. intros d (k & -> & _)%list_elem_of_fmap.
  unfold text_size. rewrite <- (join_split_on SLASH pathValue) at 2.
  pose proof (join_take_size SLASH (split_on SLASH pathValue) k). lia.
Qed.

Lemma split_on_count c s : (N.of_nat (length (split_on c s)) <= text_size s + 1)%N.
Proof. pose proof (split_on_size c s). lia. Qed.

Definition path_cost (rs : list InternalRule) (pathValue : jstring) : N :=
  ((text_size pathValue + 1) * (text_size pathValue + 1) * (1 + rules_size rs))%N.

Lemma excludedBy_completes pathValue is_file rs :
  completes (excludedBy w limits signal pathValue is_file rs) (path_cost rs pathValue).
Proof.
  unfold excludedBy, path_cost. set (n := text_size pathValue).
  pose proof (split_on_count SLASH pathValue) as Hc. fold n in Hc.
  assert (0 < length (split_on SLASH pathValue)) as Hne.
  { pose proof (split_on_nonempty SLASH pathValue). destruct (split_on SLASH pathValue); cbn; [done|lia]. }
  set (k := (if is_file then (length (split_on SLASH pathValue) - 1)%nat else length (split_on SLASH pathValue))).
  eapply completes_weaken.
  - apply (completes_bind _ _ (N.of_nat k * ((n + 1) * (1 + rules_size rs)))
             (if is_file then (n + 1) * rules_size rs else 0)).
    + eapply completes_weaken; [apply excludedDirectory_completes, directories_size|].
      unfold directoriesOf. rewrite length_map, length_seq. done.
    + intros [found|]; [eapply completes_weaken; [apply completes_ret|destruct is_file; lia]|].
      destruct is_file; [|apply completes_ret].
      rewrite <- (N.add_0_r (_ * _)). apply completes_bind; [apply matchingRule_completes|].
      intros. apply completes_ret.
  - subst k. destruct is_file; nia.
Qed.
End cost.

(** ** Trailing globstars

    A pattern that ends in a globstar is about what lies inside the part before
    it: the last globstar takes at least one component. *)
Definition inside_globstar (cs : list CompiledComponent) (segments : list jstring) : Prop :=
  exists outer inner, segments = outer ++ inner /\ inner <> [] /\ spells (component_class <$> cs) outer.

Definition trailing_pattern (cs : list CompiledComponent) : CompiledPattern :=
  {| components := cs ++ [Globstar]; hasSlash := true; trailingGlobstarRequiresChild := true |}.

Lemma spells_exact (cs : list CompiledComponent) segments :
  Forall (fun c => c <> Globstar) cs -> spells (component_class <$> cs) segments -> length segments = length cs.
Proof.
  intros Hcs (parts & Hf & ->). revert parts Hf.
  induction Hcs as [|c cs Hc Hcs IH]; intros parts Hf; inversion Hf as [|? part ? parts' Hp Hps]; subst; [done|].
  destruct c as [|tokens]; [done|]. destruct Hp as (x & -> & _). rewrite mjoin_cons, length_app. cbn [length].
  f_equal. by apply IH.
Qed.

(** ** Properties *)

(** C31. The matcher decides the meaning of a pattern: with a quiet signal, a
    clock within the deadline and enough work left it returns, answers yes exactly
    when the components of the path spell the pattern, and takes at most
    [(length + 1) * (size + 1)] units of work: no pattern makes it exponential. *)
Theorem pattern_matching_decides (w : Process) (limits : IgnoreEngineLimits) (signal : option value)
    (start : Z) (compiled : CompiledPattern) (value : jstring) (b : WorkBudget)
    (Hquiet : quiet w limits signal start)
    (Hsafe : (Z.of_N (maximumMatchWork limits) <= MAX_SAFE_INTEGER)%Z)
    (Hfresh : fresh_budget limits start b)
    (Hwork : (work b + (text_size value + 1) * (1 + pattern_size compiled) <= maximumMatchWork limits)%N) :
  exists b' matched,
    compiledMatches w limits signal compiled value b = Ok (b', matched) /\
    (matched = true <-> pattern_means compiled value) /\
    (work b' <= work b + (text_size value + 1) * (1 + pattern_size compiled))%N.
Proof.
  destruct (compiledMatches_completes w limits signal start Hquiet Hsafe compiled value b Hfresh Hwork)
    as (b' & r & E & _ & _ & Hle).
  exists b', r. split; [done|]. split; [by eapply compiledMatches_decides|exact Hle].
Qed.

(** A pattern whose only globstar is the last one matches exactly what lies
    inside the directories the rest of it spells, at any depth. *)
Theorem trailing_globstar_inside (cs : list CompiledComponent) (value : jstring)
    (Hcs : Forall (fun c => c <> Globstar) cs) :
  pattern_means (trailing_pattern cs) value <-> inside_globstar cs (split_on SLASH value).
Proof.
  unfold pattern_means, inside_globstar. cbn [hasSlash trailing_pattern trailingGlobstarRequiresChild components].
  rewrite length_app, fmap_app. cbn [length fmap list_fmap component_class]. rewrite spells_snoc. split.
  - intros [Hl (outer & inner & E & Hs & _)]. exists outer, inner. split; [done|]. split; [|done].
    intros ->. rewrite app_nil_r in E. subst. specialize (Hl eq_refl). rewrite (spells_exact _ _ Hcs Hs) in Hl. lia.
  - intros (outer & inner & E & Hne & Hs). split.
    + intros _. rewrite E, length_app, (spells_exact _ _ Hcs Hs). destruct inner; [done|]. cbn. lia.
    + exists outer, inner. split; [done|]. split; [done|]. by apply Forall_true.
Qed.

(** With another globstar before the last one the matcher counts components
    instead: the pattern "**/foo/**" misses foo/x, which lies inside foo, and
    matches the file a/b/foo itself. *)
Theorem trailing_globstar_counts :
  exists foo,
    compilePattern #"**/foo/**" true = Some (trailing_pattern [Globstar; Tokens foo]) /\
    ~ pattern_means (trailing_pattern [Globstar; Tokens foo]) #"foo/x" /\
    inside_globstar [Globstar; Tokens foo] (split_on SLASH #"foo/x") /\
    pattern_means (trailing_pattern [Globstar; Tokens foo]) #"a/b/foo" /\
    ~ inside_globstar [Globstar; Tokens foo] (split_on SLASH #"a/b/foo").
Proof.
  exists (literal_tokens #"foo").
  split; [vm_compute; reflexivity|]. split; [|split; [|split]].
  - intros [Hl _]. specialize (Hl eq_refl). vm_compute in Hl. lia.
  - exists [ #"foo"], [ #"x"]. split; [done|]. split; [done|].
    apply (spells_one_snoc [_] _ []). split; [by apply (spells_many_nil []), spells_nil|by apply literal_means].
  - split; [vm_compute; lia|]. apply (spells_snoc [_; _]). exists [ #"a"; #"b"; #"foo"], [].
    split; [done|]. split; [|by constructor].
    apply (spells_one_snoc [_] _ [ #"a"; #"b"]). split; [|by apply literal_means].
    apply (spells_snoc []). exists [], [ #"a"; #"b"]. split; [done|]. split; [by apply spells_nil|by repeat constructor].
  - intros (outer & inner & E & Hne & Hs). apply (spells_snoc [_]) in Hs as (v1 & v2 & -> & _ & x & -> & Hx%literal_means).
    subst x. change (split_on SLASH #"a/b/foo") with [ #"a"; #"b"; #"foo"] in E.
    vm_compute in E. destruct v1 as [|x1 [|x2 [|x3 v1]]]; cbn [app] in E; injection E; try discriminate.
    + intros <-. done.
    + intros Ev. by destruct v1.
Qed.

Module CostExample.
Definition quiet_process : Process :=
  {| p_heap := fun _ => None; p_signal := fun _ _ => false; p_clock := fun _ => Now 7 |}.
Definition empty_budget : WorkBudget :=
  {| startedAt := 7; lastNow := 7; lastCheckpointWork := 0; work := 0; clock_reads := 1; signal_reads := 0 |}.

Lemma pattern_matching_decides_witness :
  exists b' matched,
    compiledMatches quiet_process IGNORE_ENGINE_DEFAULT_LIMITS None
      (trailing_pattern [Tokens (literal_tokens #"docs")]) #"docs/a/b.md" empty_budget = Ok (b', matched) /\
    (matched = true <-> pattern_means (trailing_pattern [Tokens (literal_tokens #"docs")]) #"docs/a/b.md").
Proof.
  destruct (pattern_matching_decides quiet_process IGNORE_ENGINE_DEFAULT_LIMITS None 7
              (trailing_pattern [Tokens (literal_tokens #"docs")]) #"docs/a/b.md" empty_budget)
    as (b' & matched & E & Hm & _).
  - constructor; [by intros s n [=]|]. intros n. exists 7%Z. split; [done|]. unfold within_deadline. cbn. lia.
  - cbn. unfold MAX_SAFE_INTEGER. lia.
  - split; [done|]. unfold within_deadline. cbn. lia.
  - apply N.leb_le. vm_compute. reflexivity.
  - exists b', matched. split; [exact E|exact Hm].
Defined.

Lemma trailing_globstar_inside_witness :
  pattern_means (trailing_pattern [Tokens (literal_tokens #"docs")]) #"docs/a/b.md" <->
  inside_globstar [Tokens (literal_tokens #"docs")] (split_on SLASH #"docs/a/b.md").
Proof. apply trailing_globstar_inside. by repeat constructor. Defined.
End CostExample.
