(* ===== verification/IgnoreEngineLaws.v ===== *)
(** Laws of the ignore engine: what every collected rule comes from, what is
    decided for every enumerated path, what cannot be re-included, which errors a
    call may throw and when it returns. *)
From S2P Require Import Prelude TokenPatterns JsString OrderedMap Unicode Utf8 RepositoryPath ObjectGraph IgnorePattern IgnoreMatch IgnoreOptions IgnoreEngine IgnoreMatchLaws IgnoreCost.

(** ** Collected rules *)

Definition made (raw : jstring) (source : IgnoreRuleSource) (base : jstring) (r : InternalRule) : Prop :=
  exists sequence, ruleOf raw source base sequence = Some r.

Lemma ruleOf_fields raw src base sequence r :
  ruleOf raw src base sequence = Some r ->
  sourceSequence r = sequence /\ sourceRank r = SOURCE_RANK (kind src) /\
  precedence (rule r) = (SOURCE_RANK (kind src) * 1000000 + sequence)%N /\
  source (rule r) = src /\ pattern (rule r) = raw /\ basePath (rule r) = base /\
  id (rule r) = ruleId src sequence /\ valid (rule r) = bool_decide (is_Some (compiled r)).
Proof. unfold ruleOf. destruct (patternShape _); [|done]. by intros [= <-]. Qed.

Section collecting.
Context (limits : IgnoreEngineLimits) (P : InternalRule -> Prop).

Record collected_inv (st : Collected) : Prop := {
  inv_sequence : forall i r, rules st !! i = Some r -> (sourceSequence r = N.of_nat i + 1)%N;
  inv_last : lastSequence st = N.of_nat (length (rules st));
  inv_rules : (N.of_nat (length (rules st)) <= maximumPatterns limits)%N;
  inv_problems : (N.of_nat (length (problems st)) <= maximumProblems limits)%N;
  inv_bytes : (patternBytes st <= maximumPatternBytes limits)%N;
  inv_made : Forall P (rules st)
}.

Lemma recordProblem_rules st p : rules (recordProblem limits st p) = rules st.
Proof. unfold recordProblem. by destruct (_ <? _)%N. Qed.

Lemma recordProblem_inv st p : collected_inv st -> collected_inv (recordProblem limits st p).
Proof.
  intros [H1 H2 H3 H4 H5 H6]. unfold recordProblem. destruct (N.ltb_spec (N.of_nat (length (problems st))) (maximumProblems limits));
    constructor; cbn; auto. rewrite length_app. cbn. lia.
Qed.

Lemma consumePatternBytes_Ok st amount st' :
  consumePatternBytes limits st amount = Ok st' ->
  rules st' = rules st /\ (collected_inv st -> collected_inv st').
Proof.
  unfold consumePatternBytes. intros H. res_inv. subst st'. split; [done|].
  intros [H1 H2 H3 H4 H5 H6]. apply N.leb_le in Hv. by constructor.
Qed.

Lemma addRule_Ok st raw src base countBytes st' :
  addRule limits st raw src base countBytes = Ok st' ->
  exists sequence, rules st' = rules st ++ option_list (ruleOf raw src base sequence) /\
  (collected_inv st -> (forall r, made raw src base r -> P r) -> collected_inv st').
Proof.
  unfold addRule, makeRule. intros H. res_inv. subst v0. exists (lastSequence v + 1)%N.
  assert (rules v = rules st /\ (collected_inv st -> collected_inv v)) as [Er Hinv].
  { destruct countBytes; [by eapply consumePatternBytes_Ok|]. injection Hv as ->. done. }
  destruct (ruleOf raw src base (lastSequence v + 1)) as [r|] eqn:E.
  2: { cbv beta iota in H. injection H as <-. cbn [option_list]. rewrite app_nil_r. auto. }
  cbv beta iota in H. res_inv. subst st'.
  set (pushed := pushRule v r (lastSequence v + 1)).
  assert (rules pushed = rules st ++ [r]) as Ep by (cbn; by rewrite Er).
  split; [by destruct (valid _); rewrite ?recordProblem_rules|].
  intros Hst HP. assert (collected_inv pushed) as Hp.
  { destruct (Hinv Hst) as [H1 H2 H3 H4 H5 H6]. match goal with Hm : (_ <? maximumPatterns _)%N = true |- _ => apply N.ltb_lt in Hm end.
    pose proof (ruleOf_fields _ _ _ _ _ E) as (Es & _).
    constructor; cbn; rewrite ?length_app; cbn; auto; try lia.
    - intros i r'. rewrite lookup_app. destruct (rules v !! i) eqn:Ei; [intros [= ->]; eauto|].
      intros Hr'. apply list_lookup_singleton_Some in Hr' as [Hi <-].
      apply lookup_ge_None in Ei. rewrite Es, H2. lia.
    - apply Forall_app. split; [done|]. apply Forall_singleton, HP. by exists (lastSequence v + 1)%N. }
  by destruct (valid _); [|apply recordProblem_inv].
Qed.

Lemma collected_rules_wf st :
  (maximumPatterns limits <= 100000)%N -> (forall r, P r -> exists raw src base, made raw src base r) ->
  collected_inv st -> rules_wf (rules st).
Proof.
  intros Hmax HP [H1 _ H3 _ _ H6]. split.
  - rewrite Forall_lookup. intros i r Hr. pose proof (H1 i r Hr) as Es.
    rewrite Forall_lookup in H6. destruct (HP r) as (raw & src & base & sequence & Hm); [by eapply H6|].
    apply ruleOf_fields in Hm as (E1 & E2 & E3 & E4 & _). rewrite <- E4 in *.
    apply lookup_lt_Some in Hr. split; [done|]. split; [by rewrite E3, E2, E1|lia].
  - clear H3 H6 Hmax HP. revert H1. generalize (rules st) as l. clear st.
    intros l H1.
    enough (forall k, (forall i r, l !! i = Some r -> sourceSequence r = N.of_nat (k + i) + 1)%N ->
      StronglySorted (fun r s => sourceSequence r < sourceSequence s)%N l) as Hk by (by apply (Hk 0)).
    clear H1. induction l as [|x l IH]; intros k H; constructor.
    + apply (IH (S k)). intros i r Hr. rewrite (H (S i) r Hr). f_equal. lia.
    + rewrite Forall_lookup. intros i r Hr. rewrite (H (S i) r Hr), (H 0 x eq_refl). lia.
Qed.

(** Loops that add rules only extend the rules, and keep the invariant. *)
Lemma collect_inv {B} (f : Collected -> B -> engine Collected) l st st' :
  foldM f st l = Ok st' -> collected_inv st ->
  (forall a x a', x ∈ l -> f a x = Ok a' -> collected_inv a -> collected_inv a') -> collected_inv st'.
Proof.
  intros H Hst Hf. eapply (foldM_inv (fun _ a => collected_inv a)); [done|done|].
  cbn. intros. by eapply Hf.
Qed.

Lemma collect_extends {B} (f : Collected -> B -> engine Collected) l st st' :
  foldM f st l = Ok st' ->
  (forall a x a', x ∈ l -> f a x = Ok a' -> rules a `prefix_of` rules a') ->
  rules st `prefix_of` rules st'.
Proof.
  intros H Hf. eapply (foldM_inv (fun _ a => rules st `prefix_of` rules a)); [done|done|].
  cbn. intros. etrans; [done|]. by eapply Hf.
Qed.
End collecting.

Lemma entries_elem {A} (l : list A) e : e ∈ entries l -> l !! e.1 = Some e.2.
Proof. intros (i & x & -> & H)%elem_of_lookup_imap. done. Qed.

Lemma liftB_Ok {A} (m : engine A) b b' a : liftB m b = Ok (b', a) <-> b' = b /\ m = Ok a.
Proof. unfold liftB. destruct m; naive_solver. Qed.

(** ** Where rules come from *)

Section provenance.
Context `{Collation} `{ReadOnlyRepository} (snapshot : OptionsSnapshot) (input : EnumerationSnapshot).

(** The pattern at an index of a list, anchored at the root. *)
Definition listed (k : IgnoreRuleSourceKind) (texts : list jstring) (r : InternalRule) : Prop :=
  exists i raw, texts !! i = Some raw /\ made raw (listedSource k i) ROOT r.

(** The pattern of a fact known to be active. *)
Definition from_fact (r : InternalRule) : Prop :=
  exists fact, fact ∈ profileFacts snapshot /\ is_active fact = true /\
    made (fact_pattern fact) (factSource fact) ROOT r.

(** The file read is the regular file inspected, and no link leads to it. *)
Definition regular_file (ignorePath : jstring) (f : ReadOnlyRepositoryFile) : Prop :=
  readFile ignorePath = Ok f /\
  exists e, inspect ignorePath = Ok e /\ entry_type e = file_entry /\ entry_linkDepth e = 0%N /\
    file_linkDepth f = 0%N /\ file_identity f = entry_identity e.

(** A line of an enumerated ignore file that was read, based at its directory;
    only when the paths come from the file system. *)
Definition from_ignore_file (r : InternalRule) : Prop :=
  fallback input = true /\
  exists ignorePath base f text i raw,
    ignorePath ∈ enumeration_paths input /\ is_ignore_file ignorePath = true /\
    baseOfIgnoreFile ignorePath = Ok base /\ regular_file ignorePath f /\
    decodeIgnoreFile (file_bytes f) = Ok text /\ split_on LF text !! i = Some raw /\
    made (line_text raw) (gitignoreSource ignorePath i) base r.

Definition provenance (r : InternalRule) : Prop :=
  listed built_in BUILT_IN_IGNORE_PATTERNS r \/ listed configuration (configurationPatterns snapshot) r \/
  from_fact r \/ from_ignore_file r.

Lemma provenance_made r : provenance r -> exists raw src base, made raw src base r.
Proof.
  intros [(i & raw & _ & Hm)|[(i & raw & _ & Hm)|[(fact & _ & _ & Hm)|(_ & ? & ? & ? & ? & ? & ? & Hm)]]]; eauto.
  destruct Hm as (_ & _ & _ & _ & _ & _ & Hm). eauto.
Qed.

#[local] Abbreviation inv := (collected_inv (limits snapshot) provenance).

Lemma addListed_inv k texts st e st' :
  (forall r, listed k texts r -> provenance r) -> e ∈ entries texts ->
  addListed (limits snapshot) k st e = Ok st' -> inv st -> inv st'.
Proof.
  unfold addListed. intros HP He (sequence & _ & Hinv)%(addRule_Ok _ provenance) Hst. apply Hinv; [done|].
  intros r Hm. apply HP. exists e.1, e.2. split; [by apply entries_elem|done].
Qed.

Lemma policyRules_inv st st' : policyRules snapshot st = Ok st' -> inv st -> inv st'.
Proof.
  unfold policyRules. intros H1 Hst. res_inv.
  eapply collect_inv; [exact H1| |].
  - eapply collect_inv; [exact Hv0| |].
    + eapply collect_inv; [exact Hv|done|]. intros a e a' He Ha Hi.
      eapply addListed_inv; [|done..]. intros r Hr. by left.
    + intros a e a' He Ha Hi. eapply addListed_inv; [|done..]. intros r Hr. by right; left.
  - intros a fact a' Hf Ha Hi. unfold addFact in Ha. destruct (is_active fact) eqn:Ea; [|by simplify_eq].
    apply (addRule_Ok _ provenance) in Ha as (sequence & _ & Hinv). apply Hinv; [done|].
    intros r Hm. right; right; left. by exists fact.
Qed.

Lemma repositoryFailure_inv st ignorePath cause st' :
  repositoryFailure (limits snapshot) st ignorePath cause = Ok st' ->
  rules st' = rules st /\ (inv st -> inv st').
Proof.
  unfold repositoryFailure. intros Hr.
  destruct cause as [code|]; [destruct (fatal_code code)|]; simplify_eq;
    (split; [by rewrite recordProblem_rules|by apply recordProblem_inv]).
Qed.

Lemma addBytes_inv st ignorePath base f st' :
  fallback input = true -> ignorePath ∈ enumeration_paths input -> is_ignore_file ignorePath = true ->
  baseOfIgnoreFile ignorePath = Ok base -> regular_file ignorePath f ->
  addBytes (limits snapshot) st ignorePath base (file_bytes f) = Ok st' -> inv st -> inv st'.
Proof.
  intros Hfb Hin Hif Hbase Hread Ha Hst. unfold addBytes in Ha. res_inv.
  apply (consumePatternBytes_Ok _ provenance) in Hv0 as [_ Hinv].
  eapply collect_inv; [exact Ha|by apply Hinv|].
  intros a e a' He Ha' Hi. unfold addLine in Ha'. apply (addRule_Ok _ provenance) in Ha' as (sequence & _ & Hadd). apply Hadd; [done|].
  intros r Hm. right; right; right. split; [done|].
  exists ignorePath, base, f, v1, e.1, e.2.
  do 5 (split; [done|]). split; [by apply entries_elem|done].
Qed.

Lemma loadIgnoreFile_inv st ignorePath base st' :
  fallback input = true -> ignorePath ∈ enumeration_paths input -> is_ignore_file ignorePath = true ->
  baseOfIgnoreFile ignorePath = Ok base ->
  loadIgnoreFile (limits snapshot) st ignorePath base = Ok st' -> inv st -> inv st'.
Proof.
  intros Hfb Hin Hif Hbase Hl Hst. unfold loadIgnoreFile in Hl.
  destruct (inspect ignorePath) as [e|cause] eqn:Ei; [|by eapply repositoryFailure_inv].
  destruct (negb _) eqn:Et; [simplify_eq; by apply recordProblem_inv|].
  destruct (negb _) eqn:El in Hl; [simplify_eq; by apply recordProblem_inv|]. res_inv.
  destruct (readFile ignorePath) as [f|cause] eqn:Er; [|by eapply repositoryFailure_inv]. res_inv. bool_prop.
  eapply addBytes_inv; try done. split; [done|]. by exists e.
Qed.

Lemma ignoreFilesOf_elem paths p : p ∈ ignoreFilesOf paths -> p ∈ paths /\ is_ignore_file p = true.
Proof. unfold ignoreFilesOf. rewrite elem_of_sort_by, !list_elem_of_In, filter_In. done. Qed.

Lemma repositoryRules_inv w st b b' st' :
  repositoryRules w snapshot input st b = Ok (b', st') -> inv st -> inv st'.
Proof.
  unfold repositoryRules. intros Hr Hst. destruct (fallback input) eqn:Hfb; run_inv; [|done].
  eapply (foldB_inv (fun _ a => inv a)); [exact Hr|done|].
  intros _ p a a' b1 b2 Hi [Hp Hif]%ignoreFilesOf_elem Hstep. unfold visitIgnoreFile in Hstep. run_inv.
  repeat match goal with Hl : liftB _ _ = Ok _ |- _ => apply liftB_Ok in Hl as [? Hl]; subst end.
  match goal with Hs : match ?o with Some _ => _ | None => _ end _ = Ok _ |- _ => destruct o end; run_inv; [done|].
  apply liftB_Ok in Hstep as [-> Hstep]. by eapply loadIgnoreFile_inv.
Qed.

Lemma initialProblems_inv : inv (initialProblems snapshot input).
Proof.
  constructor; cbn; [done|done|lia| |lia|constructor]. rewrite length_take. lia.
Qed.
End provenance.

(** ** Snapshots *)

Definition within_hard (lim : IgnoreEngineLimits) : Prop :=
  Forall (fun k => 1 <= limit_get k lim <= limit_get k IGNORE_ENGINE_HARD_LIMITS)%N LIMIT_KEYS.

Lemma limit_value_Ok v m n : limit_value v m = Ok n -> (1 <= n <= m)%N.
Proof.
  unfold limit_value. destruct v as [| | |[]| | | | | |]; try done. intros H. res_inv. subst.
  repeat (apply andb_true_iff in Hv as [Hv ?]). repeat match goal with H : (_ <=? _)%Z = true |- _ => apply Z.leb_le in H end. lia.
Qed.

Lemma limit_set_within k n lim :
  k ∈ LIMIT_KEYS -> (1 <= n <= limit_get k IGNORE_ENGINE_HARD_LIMITS)%N ->
  within_hard lim -> within_hard (limit_set k n lim).
Proof.
  intros Hk Hn Hw. unfold within_hard, LIMIT_KEYS in *. destruct lim.
  repeat match goal with H : Forall _ (_ :: _) |- _ => apply Forall_cons in H as [? H] end.
  cbn [limit_get] in *. cbn beta iota delta -[IGNORE_ENGINE_HARD_LIMITS N.le] in *.
  repeat (apply elem_of_cons in Hk as [->|Hk]; [cbn [limit_set limit_get] in *; repeat (apply Forall_cons; split; [assumption|]); by apply Forall_nil|]).
  by apply not_elem_of_nil in Hk.
Qed.

Section snapshots.
Context `{UrlParser}.

Lemma snapshotOptions_limits w v s : snapshotOptions w v = Ok s -> within_hard (limits s).
Proof.
  assert (within_hard IGNORE_ENGINE_DEFAULT_LIMITS) as Hd.
  { unfold within_hard. apply Forall_forall. intros k Hk.
    repeat (apply elem_of_cons in Hk as [->|Hk]; [cbn; lia|]). by apply not_elem_of_nil in Hk. }
  intros Hs. unfold snapshotOptions in Hs.
  destruct v; [by injection Hs as <-|..]; res_inv; subst s; cbn [limits];
    (eapply (foldM_inv (fun _ lim => within_hard lim)); [eassumption|done|];
     intros _ k lim lim' Hw Hk Hsel; unfold selectLimit in Hsel;
     destruct (map_get _ _); res_inv; subst; [|done]; apply limit_set_within; [done| |done];
     by eapply limit_value_Ok).
Qed.
End snapshots.

(** ** A whole call *)

Section call.
Context `{UrlParser} `{Collation} `{ReadOnlyRepository} (w : Process).

(** What a call that returns went through. *)
Record call (enumeration options : value) (result : IgnoreEngineResult) (snapshot : OptionsSnapshot)
    (input : EnumerationSnapshot) (st : Collected) (decided : list jstring * list IgnoredPathDecision) : Prop := {
  call_options : snapshotOptions w options = Ok snapshot;
  call_input : snapshotEnumeration w enumeration (limits snapshot) = Ok input;
  call_policy : exists policy b b',
    policyRules snapshot (initialProblems snapshot input) = Ok policy /\
    repositoryRules w snapshot input policy b = Ok (b', st);
  call_decided : exists b b',
    foldB (decidePath w snapshot input (rules st)) ([], []) (enumeration_paths input) b = Ok (b', decided);
  call_result : result = resultOf snapshot input st decided
}.

Lemma apply_call enumeration options result :
  applyIgnoreRulesWithClock w enumeration options = Ok result ->
  exists snapshot input st decided, call enumeration options result snapshot input st decided.
Proof.
  unfold applyIgnoreRulesWithClock. intros Ha.
  apply bind_Ok in Ha as (snapshot & Hs & Ha). apply bind_Ok in Ha as (input & Hi & Ha).
  apply bind_Ok in Ha as ([b0 []] & Hb & Ha). apply bind_Ok in Ha as ([b1 r] & Hd & [= ->]).
  unfold decideAll in Hd. run_inv. apply liftB_Ok in Hrun as [-> Hp].
  exists snapshot, input, x0, x1. constructor; eauto 8.
Qed.

Context {enumeration options : value} {result : IgnoreEngineResult} {snapshot : OptionsSnapshot}
  {input : EnumerationSnapshot} {st : Collected} {decided : list jstring * list IgnoredPathDecision}.
Context (Hcall : call enumeration options result snapshot input st decided).

Lemma call_hard : within_hard (limits snapshot).
Proof. eapply snapshotOptions_limits, call_options, Hcall. Qed.

Lemma call_maximumPatterns : (maximumPatterns (limits snapshot) <= 100000)%N.
Proof.
  pose proof call_hard as Hh. unfold within_hard, LIMIT_KEYS in Hh.
  repeat (apply Forall_cons in Hh as [? Hh]). cbn in *. lia.
Qed.

Lemma call_inv : collected_inv (limits snapshot) (provenance snapshot input) st.
Proof.
  destruct (call_policy _ _ _ _ _ _ _ Hcall) as (policy & b & b' & Hp & Hr).
  eapply repositoryRules_inv; [done|]. eapply policyRules_inv; [done|]. apply initialProblems_inv.
Qed.

Lemma call_rules_wf : rules_wf (rules st).
Proof. eapply collected_rules_wf; [apply call_maximumPatterns|apply provenance_made|apply call_inv]. Qed.

(** The verdicts, path by path. *)
Lemma call_verdicts : exists verdicts : list (jstring * option InternalRule),
  map fst verdicts = enumeration_paths input /\
  Forall (fun d => exclusion_ok (rules st) (prefixes d.1 true) d.2) verdicts /\
  paths result = omap (fun d => match d.2 with None => Some d.1 | Some _ => None end) verdicts /\
  ignored result = omap (fun d => decision input d.1 <$> d.2) verdicts.
Proof.
  destruct (call_decided _ _ _ _ _ _ _ Hcall) as (b & b' & Hd). rewrite (call_result _ _ _ _ _ _ _ Hcall).
  cbn [paths ignored resultOf].
  eapply (foldB_inv (fun done_ acc => exists verdicts : list (jstring * option InternalRule),
    map fst verdicts = done_ /\
    Forall (fun d => exclusion_ok (rules st) (prefixes d.1 true) d.2) verdicts /\
    acc.1 = omap (fun d => match d.2 with None => Some d.1 | Some _ => None end) verdicts /\
    acc.2 = omap (fun d => decision input d.1 <$> d.2) verdicts)); [exact Hd|by exists []|].
  intros done_ p acc acc' b1 b2 (vs & <- & Hok & E1 & E2) Hp Hstep. unfold decidePath in Hstep. run_inv.
  match goal with Hx : excludedBy _ _ _ _ _ _ _ = Ok (_, ?f) |- _ =>
    apply excludedBy_ok in Hx; [|apply call_rules_wf]; exists (vs ++ [(p, f)]) end.
  rewrite map_app, !omap_app. split; [done|]. split; [apply Forall_app; split; [done|by apply Forall_singleton]|].
  rewrite <- E1, <- E2. destruct x0; cbn; by rewrite ?app_nil_r.
Qed.
End call.

(** ** A repository for closed examples *)

Module IgnoreExample.

#[export] Instance example_urls : UrlParser :=
  {| parse_url s := if startsWith s #"https://"
                    then Some {| protocol := #"https:"; username := []; password := []; href := s |}
                    else None |}.

Definition compare_units (a b : jstring) : Z :=
  match jcompare a b with Lt => -1 | Eq => 0 | Gt => 1 end.

Lemma compare_units_le a b : (compare_units a b <= 0)%Z <-> jleb a b = true.
Proof. unfold compare_units, jleb. destruct (jcompare a b); split; try done; lia. Qed.

#[export] Instance example_collation : Collation.
Proof.
  refine {| localeCompare := compare_units |}.
  - intros a b. rewrite !compare_units_le. apply jleb_total.
  - intros a b c. rewrite !compare_units_le. apply jleb_trans.
Defined.

Definition ignore_lines : jstring := #"*.log" ++ [LF] ++ #"!keep.log" ++ [LF] ++ #"!dist/" ++ [LF] ++ #"a\".

Definition example_identity : ReadOnlyRepositoryIdentity := {| device := #"1"; inode := #"2" |}.

(** The root ignore file is there; the one in docs cannot be read. *)
#[export] Instance example_repository : ReadOnlyRepository :=
  {| inspect p := if jeqb p #".gitignore"
                  then Ok {| entry_identity := example_identity; entry_linkDepth := 0;
                             entry_size := 27; entry_type := file_entry |}
                  else Err (FacadeFailure repository_readFailed);
     readFile p := Ok {| file_identity := example_identity; file_linkDepth := 0;
                         file_bytes := utf8 ignore_lines |} |}.

(** A repository that has been taken away. *)
Definition gone_repository : ReadOnlyRepository :=
  {| inspect p := Err (FacadeFailure repository_aborted); readFile p := Err OtherFailure |}.

Definition example_process : Process :=
  {| p_heap := fun _ => None; p_signal := fun _ _ => false; p_clock := fun n => Now (Z.of_nat n) |}.

Definition enumeration_value (source certainty : jstring) (ps : list jstring) : value :=
  VRecord [(#"source", VString source); (#"certainty", VString certainty);
           (#"paths", VArray (map VString ps)); (#"omittedProblems", VInteger 0); (#"problems", VArray [])].

Definition example_paths : list jstring :=
  [ #".gitignore"; #"a.log"; #"dist/a.js"; #"docs/.gitignore"; #"docs/x.md"; #"keep.log"].

Definition fallback_enumeration : value :=
  enumeration_value #"filesystem-fallback" #"all-files-not-tracked" example_paths.
Definition tracked_enumeration : value := enumeration_value #"git-index" #"tracked" example_paths.

Definition example_options : value :=
  VRecord [(#"configurationPatterns", VArray [VString #"docs/*.md"]); (#"maximumPatterns", VInteger 50)].

Abbreviation fallback_result := (applyIgnoreRulesWithClock example_process fallback_enumeration example_options).
Abbreviation tracked_result := (applyIgnoreRulesWithClock example_process tracked_enumeration example_options).

(** The log file is ignored by the ignore file, the built-in directory although
    the ignore file negates it, the document by the configuration. *)
Example fallback_decisions :
  match fallback_result with
  | Ok r => paths r = [ #".gitignore"; #"docs/.gitignore"; #"keep.log"] /\
            map decision_ruleId (ignored r) =
              [ #"gitignore:.gitignore:1"; #"built-in:root:17"; #"configuration:root:1"] /\
            map certainty (ignored r) = [tracking_uncertain; decision_known; decision_known] /\
            map problem_code (result_problems r) =
              [ #"INVALID_PATTERN_NEVER_MATCHES"; #"READ_ONLY_REPOSITORY_READ_FAILED"]
  | Err _ => False
  end.
Proof. vm_compute. repeat split. Qed.

Lemma fallback_returns : exists r, fallback_result = Ok r /\ length (result_rules r) = 26.
Proof. apply (ok_of _ (fun r => length (result_rules r) = 26)). vm_compute. reflexivity. Qed.

Lemma tracked_returns : exists r, tracked_result = Ok r /\ tracked r = true.
Proof. apply (ok_of _ (fun r => tracked r = true)). vm_compute. reflexivity. Qed.
End IgnoreExample.
