(* ===== verification/IgnoreDecisions.v ===== *)
(** What the ignore engine promises its callers: every path is decided by the
    winning rules of its prefixes, every rule has its provenance, nothing brings
    back the content of a built-in directory, a tracked enumeration does not
    depend on the repository, and a call returns when its budget is enough. *)
From S2P Require Import Prelude TokenPatterns JsString OrderedMap Unicode Utf8 RepositoryPath ObjectGraph IgnorePattern IgnoreMatch IgnoreOptions IgnoreEngine IgnoreMatchLaws IgnoreCost IgnoreEngineLaws.

(** ** Built-in rules *)

(** The pattern of a built-in rule, compiled: each component is its letters. *)
Definition literal_directory (segments : list jstring) (r : InternalRule) : Prop :=
  compiled r = Some {| components := map (fun s => Tokens (literal_tokens s)) segments;
                       hasSlash := bool_decide (1 < length segments);
                       trailingGlobstarRequiresChild := false |} /\
  directoryOnly (rule r) = true /\ negative (rule r) = false /\ basePath (rule r) = ROOT.

(** The directories the built-in patterns name, as their segments. *)
Definition built_in_directories : list (list jstring) :=
  map (fun p => split_on SLASH (without_last p)) BUILT_IN_IGNORE_PATTERNS.

Definition built_in_ok (p : jstring) : Prop :=
  is_Some (ruleOf p (listedSource built_in 0) ROOT 0) /\
  forall r, ruleOf p (listedSource built_in 0) ROOT 0 = Some r ->
    literal_directory (split_on SLASH (without_last p)) r.

Lemma built_in_all : Forall built_in_ok BUILT_IN_IGNORE_PATTERNS.
Proof.
  unfold BUILT_IN_IGNORE_PATTERNS. repeat (apply Forall_cons; split; [split; [vm_compute; eauto|]|]);
    [..|by apply Forall_nil].
  all: intros r Hr; vm_compute in Hr; injection Hr as <-; by repeat split.
Qed.

(** Only the numbering of a rule depends on its place. *)
Lemma ruleOf_shape raw src src' base n n' r :
  ruleOf raw src base n = Some r ->
  exists r', ruleOf raw src' base n' = Some r' /\ compiled r' = compiled r /\
    directoryOnly (rule r') = directoryOnly (rule r) /\ negative (rule r') = negative (rule r) /\
    basePath (rule r') = basePath (rule r).
Proof. unfold ruleOf. destruct (patternShape _); [|done]. intros [= <-]. eexists. by repeat split. Qed.

Lemma made_built_in i p r :
  BUILT_IN_IGNORE_PATTERNS !! i = Some p -> made p (listedSource built_in i) ROOT r ->
  literal_directory (split_on SLASH (without_last p)) r.
Proof.
  intros Hp [n Hr]. pose proof built_in_all as Hall. rewrite Forall_lookup in Hall.
  destruct (Hall _ _ Hp) as [_ Hok].
  destruct (ruleOf_shape _ _ (listedSource built_in 0) _ _ 0 _ Hr) as (r' & Hr' & E1 & E2 & E3 & E4).
  destruct (Hok _ Hr') as (C1 & C2 & C3 & C4). unfold literal_directory. rewrite <- E1, <- E2, <- E3, <- E4. done.
Qed.

Section built_in.
Context `{UrlParser} `{Collation} `{ReadOnlyRepository} (w : Process).

Lemma addRule_extends lim st raw src base cb st' :
  addRule lim st raw src base cb = Ok st' -> rules st `prefix_of` rules st'.
Proof. intros (n & -> & _)%(addRule_Ok _ (fun _ => True)). by eexists. Qed.

Lemma addListed_extends lim k st e st' :
  addListed lim k st e = Ok st' -> rules st `prefix_of` rules st'.
Proof. unfold addListed. apply addRule_extends. Qed.

Lemma addFact_extends lim st fact st' :
  addFact lim st fact = Ok st' -> rules st `prefix_of` rules st'.
Proof. unfold addFact. destruct (is_active fact); [apply addRule_extends|by intros [= ->]]. Qed.

Lemma consumePatternBytes_rules lim st n st' : consumePatternBytes lim st n = Ok st' -> rules st' = rules st.
Proof. by intros [E _]%(consumePatternBytes_Ok _ (fun _ => True)). Qed.

Lemma loadIgnoreFile_extends lim st ignorePath base st' :
  loadIgnoreFile lim st ignorePath base = Ok st' -> rules st `prefix_of` rules st'.
Proof.
  unfold loadIgnoreFile, repositoryFailure. intros Hl.
  destruct (inspect ignorePath) as [e|[code|]]; [|destruct (fatal_code code)|];
    simplify_eq; rewrite ?recordProblem_rules; try done.
  destruct (negb _); [simplify_eq; by rewrite recordProblem_rules|].
  destruct (negb _); [simplify_eq; by rewrite recordProblem_rules|]. res_inv.
  destruct (readFile ignorePath) as [f|[code|]]; [|destruct (fatal_code code)|];
    simplify_eq; rewrite ?recordProblem_rules; try done. unfold addBytes, addText in Hl. res_inv.
  rewrite <- (consumePatternBytes_rules _ _ _ _ Hv2). eapply collect_extends; [exact Hl|].
  intros a e1 a' _. apply addRule_extends.
Qed.

Lemma repositoryRules_extends snapshot input st b b' st' :
  repositoryRules w snapshot input st b = Ok (b', st') -> rules st `prefix_of` rules st'.
Proof.
  unfold repositoryRules. intros Hr. destruct (fallback input); run_inv; [|done].
  eapply (foldB_inv (fun _ a => rules st `prefix_of` rules a)); [exact Hr|done|].
  intros _ p a a' b1 b2 Hi _ Hstep. etrans; [exact Hi|]. unfold visitIgnoreFile in Hstep. run_inv.
  match goal with Hs : match ?o with Some _ => _ | None => _ end _ = Ok _ |- _ => destruct o end; run_inv; [done|].
  apply liftB_Ok in Hstep as [-> Hstep]. by eapply loadIgnoreFile_extends.
Qed.

Lemma policyRules_built_in snapshot st st' p :
  policyRules snapshot st = Ok st' -> p ∈ BUILT_IN_IGNORE_PATTERNS ->
  exists i r, BUILT_IN_IGNORE_PATTERNS !! i = Some p /\ made p (listedSource built_in i) ROOT r /\ r ∈ rules st'.
Proof.
  unfold policyRules. intros Hr [i Hi]%list_elem_of_lookup_1. res_inv.
  assert (forall e, e ∈ entries BUILT_IN_IGNORE_PATTERNS ->
    exists r, made e.2 (listedSource built_in e.1) ROOT r /\ r ∈ rules v) as Hall.
  { eapply (foldM_inv (fun done_ a => forall e, e ∈ done_ ->
      exists r, made e.2 (listedSource built_in e.1) ROOT r /\ r ∈ rules a)); [exact Hv|by intros e ?%not_elem_of_nil|].
    intros done_ e a a' IH He Ha e' [He'| ->%list_elem_of_singleton]%elem_of_app.
    - destruct (IH e' He') as (r & Hm & Hin). exists r. split; [done|].
      apply addListed_extends in Ha. by eapply elem_of_prefix.
    - unfold addListed in Ha. apply (addRule_Ok _ (fun _ => True)) in Ha as (n & E & _).
      pose proof built_in_all as Hb. rewrite Forall_lookup in Hb.
      destruct (Hb _ _ (entries_elem _ _ He)) as [[r0 Hr0] _].
      destruct (ruleOf_shape _ _ (listedSource built_in e.1) _ _ n _ Hr0) as (r & Hm & _).
      exists r. split; [by exists n|]. rewrite E, Hm. apply elem_of_app. right. apply list_elem_of_singleton. done. }
  assert ((i, p) ∈ entries BUILT_IN_IGNORE_PATTERNS) as He by (apply elem_of_lookup_imap; by exists i, p).
  destruct (Hall _ He) as (r & Hm & Hin). exists i, r. split; [done|]. split; [done|].
  eapply elem_of_prefix; [exact Hin|]. etrans.
  - eapply collect_extends; [exact Hv0|]. intros a e1 a' _. apply addListed_extends.
  - eapply collect_extends; [exact Hr|]. intros a e1 a' _. apply addFact_extends.
Qed.

(** ** The content of built-in directories *)

(** The path goes through the directory the segments name: anywhere for one
    segment, at the root for several. *)
Definition inside (segments : list jstring) (pathValue : jstring) : Prop :=
  exists before after, after <> [] /\ split_on SLASH pathValue = before ++ segments ++ after /\
    (1 < length segments -> before = []).

Lemma literal_component_means name : component_means (literal_tokens name) name.
Proof. by apply literal_means. Qed.

Lemma literal_applies segments r before :
  literal_directory segments r -> segments <> [] -> Forall (fun s => SLASH ∉ s) (before ++ segments) ->
  (1 < length segments -> before = []) ->
  rule_applies r (join SLASH (before ++ segments)) true.
Proof.
  intros (Hc & Hd & _ & Hb) Hne Hs Hbefore. eexists _, _. split; [exact Hc|]. split; [done|].
  rewrite Hb. split; [done|]. unfold pattern_means. cbn [hasSlash trailingGlobstarRequiresChild components].
  rewrite split_on_join by (try done; by destruct before).
  destruct (bool_decide_reflect (1 < length segments)) as [Hl|Hl].
  - split; [done|]. rewrite (Hbefore Hl). cbn [app]. apply spells_ones. clear.
    induction segments as [|s segments IH]; cbn; constructor; [|done].
    eexists. split; [done|]. apply literal_component_means.
  - destruct segments as [|name [|? ?]]; [done| |cbn in Hl; lia]. eexists _, []. split; [done|].
    rewrite last_snoc. apply literal_component_means.
Qed.

Lemma prefix_of_path pathValue before after :
  split_on SLASH pathValue = before ++ after -> before <> [] -> after <> [] ->
  (join SLASH before, true) ∈ prefixes pathValue true.
Proof.
  intros E Hb Ha. unfold prefixes. apply elem_of_app. left. rewrite E. apply list_elem_of_fmap.
  exists (join SLASH before). split; [done|]. unfold directoriesOf. apply list_elem_of_fmap.
  exists (length before). rewrite take_app_length. split; [done|]. rewrite length_app.
  apply elem_of_seq. destruct before, after; try done. cbn. lia.
Qed.

(** A rule of rank 4 is built-in. *)
Lemma built_in_rank snapshot input r :
  provenance snapshot input r -> (4000000 <= precedence (rule r))%N -> (sourceSequence r < 1000000)%N ->
  exists i p, BUILT_IN_IGNORE_PATTERNS !! i = Some p /\ made p (listedSource built_in i) ROOT r.
Proof.
  intros Hp Hr Hq.
  assert (forall raw src base, made raw src base r -> kind src <> built_in -> False) as Hno.
  { intros raw src base [n Hn] Hk. apply ruleOf_fields in Hn as (E1 & _ & E3 & _).
    rewrite E3, <- E1 in Hr. destruct (kind src); cbn in Hr; [done|lia..]. }
  destruct Hp as [(i & p & Hi & Hm)|[(i & p & Hi & Hm)|[(fact & _ & _ & Hm)|(_ & ? & ? & ? & ? & ? & ? & Hm)]]].
  - by exists i, p.
  - by destruct (Hno _ _ _ Hm).
  - by destruct (Hno _ _ _ Hm).
  - destruct Hm as (_ & _ & _ & _ & _ & _ & Hm). by destruct (Hno _ _ _ Hm).
Qed.

(** A prefix with a built-in rule about it does not stay. *)
Lemma built_in_prevails snapshot input rs i p r pathValue :
  rules_wf rs -> Forall (provenance snapshot input) rs ->
  BUILT_IN_IGNORE_PATTERNS !! i = Some p -> made p (listedSource built_in i) ROOT r -> r ∈ rs ->
  rule_applies r pathValue true -> ~ stays rs (pathValue, true).
Proof.
  intros [Hwf _] Hprov Hi Hm Hr Ha [Hnone|(s & (Hs & _ & Hmax) & Hneg)]; [by apply (Hnone r)|].
  rewrite Forall_forall in Hprov, Hwf.
  assert (4000000 <= precedence (rule r))%N as Hhigh.
  { destruct Hm as [n Hn]. apply ruleOf_fields in Hn as (_ & _ & -> & _). cbn. lia. }
  destruct (built_in_rank snapshot input s) as (j & q & Hj & Hmq).
  - by apply Hprov.
  - destruct (Hmax r Hr Ha) as [->|]; [done|lia].
  - by apply Hwf.
  - destruct (made_built_in _ _ _ Hj Hmq) as (_ & _ & Hn & _). congruence.
Qed.
End built_in.

(** ** Properties *)

(** C2. The decisions of a call that returns: the enumeration is split, in order,
    into retained and ignored paths; a path is retained exactly when every prefix
    of it stays (no rule is about it, or the rule of highest precedence is a
    negation), and otherwise ignored by the winning rule of its first prefix that
    does not.  Every rule is a built-in pattern, a configured one, that of an
    active fact, or a line of an ignore file, and keeps its number. *)
Theorem apply_decides `{UrlParser} `{Collation} `{ReadOnlyRepository} (w : Process)
    (enumeration options : value) (result : IgnoreEngineResult)
    (Hrun : applyIgnoreRulesWithClock w enumeration options = Ok result) :
  exists snapshot input rs (verdicts : list (jstring * option InternalRule)),
    snapshotOptions w options = Ok snapshot /\
    snapshotEnumeration w enumeration (limits snapshot) = Ok input /\
    result_rules result = map rule rs /\ rules_wf rs /\ Forall (provenance snapshot input) rs /\
    map fst verdicts = enumeration_paths input /\
    Forall (fun d => exclusion_ok rs (prefixes d.1 true) d.2) verdicts /\
    paths result = omap (fun d => match d.2 with None => Some d.1 | Some _ => None end) verdicts /\
    ignored result = omap (fun d => decision input d.1 <$> d.2) verdicts.
Proof.
  apply apply_call in Hrun as (snapshot & input & st & decided & Hcall).
  destruct (call_verdicts w Hcall) as (verdicts & Hv). exists snapshot, input, (rules st), verdicts.
  split; [apply Hcall|]. split; [apply Hcall|]. split; [by rewrite (call_result _ _ _ _ _ _ _ _ Hcall)|].
  split; [by apply (call_rules_wf w Hcall)|]. split; [apply (call_inv w Hcall)|exact Hv].
Qed.

(** C3. The built-in exclusions cannot be negated: no retained path goes through
    a directory they name, whatever the configuration, the profile facts, the
    ignore files of the repository and the limits say. *)
Theorem built_in_content_ignored `{UrlParser} `{Collation} `{ReadOnlyRepository} (w : Process)
    (enumeration options : value) (result : IgnoreEngineResult) (segments : list jstring) (pathValue : jstring)
    (Hrun : applyIgnoreRulesWithClock w enumeration options = Ok result)
    (Hsegments : segments ∈ built_in_directories) (Hinside : inside segments pathValue) :
  pathValue ∉ paths result.
Proof.
  apply apply_call in Hrun as (snapshot & input & st & decided & Hcall). intros Hin.
  destruct (call_verdicts w Hcall) as (verdicts & _ & Hok & Hpaths & _).
  rewrite Hpaths in Hin. apply list_elem_of_omap in Hin as ([p [f|]] & Hv & [= ->]).
  rewrite Forall_forall in Hok. specialize (Hok _ Hv). cbn [fst snd exclusion_ok] in Hok.
  apply list_elem_of_fmap in Hsegments as (pat & -> & Hpat).
  destruct Hinside as (before & after & Ha & E & Hb).
  destruct (call_policy _ _ _ _ _ _ _ _ Hcall) as (policy & b & b' & Hp & Hr).
  destruct (policyRules_built_in snapshot _ _ pat Hp Hpat) as (i & r & Hi & Hm & Hrin).
  apply repositoryRules_extends in Hr. eapply elem_of_prefix in Hrin; [|exact Hr].
  pose proof (split_on_nonempty SLASH (without_last pat)) as Hne. rewrite app_assoc in E.
  assert (stays (rules st) (join SLASH (before ++ split_on SLASH (without_last pat)), true)) as Hstay.
  { rewrite Forall_forall in Hok. apply Hok. eapply prefix_of_path; [exact E| |done].
    by intros [_ ?]%app_eq_nil. }
  revert Hstay. eapply built_in_prevails; [apply (call_rules_wf w Hcall)|apply (call_inv w Hcall)|exact Hi|exact Hm|done|].
  apply literal_applies; [by eapply made_built_in|done| |done].
  rewrite Forall_forall. intros s Hs. apply (split_on_no_sep SLASH pathValue). rewrite E. apply elem_of_app. by left.
Qed.

(** A tracked enumeration is decided without the repository: another
    repository gives the same result, no rule comes from an ignore file and no
    decision is uncertain. *)
Theorem tracked_ignores_repository `{UrlParser} `{Collation} (R1 R2 : ReadOnlyRepository) (w : Process)
    (enumeration options : value) (result : IgnoreEngineResult)
    (Hrun : @applyIgnoreRulesWithClock _ _ R1 w enumeration options = Ok result)
    (Htracked : tracked result = true) :
  @applyIgnoreRulesWithClock _ _ R2 w enumeration options = Ok result /\
  Forall (fun r => kind (source r) <> gitignore) (result_rules result) /\
  Forall (fun d => certainty d = decision_known) (ignored result).
Proof.
  pose proof Hrun as Hcall. apply apply_call in Hcall as (snapshot & input & st & decided & Hcall).
  pose proof (call_result _ _ _ _ _ _ _ _ Hcall) as ->. cbn in Htracked.
  apply negb_true_iff in Htracked as Hfb. split; [|split].
  - rewrite <- Hrun. unfold applyIgnoreRulesWithClock, decideAll, repositoryRules.
    rewrite (call_options _ _ _ _ _ _ _ _ Hcall). cbn [mbind res_mbind].
    rewrite (call_input _ _ _ _ _ _ _ _ Hcall). cbn [mbind res_mbind]. rewrite Hfb. done.
  - cbn [result_rules resultOf]. apply Forall_fmap. eapply Forall_impl; [apply (inv_made _ _ _ (call_inv w Hcall))|].
    intros r Hr. assert (forall raw src base, made raw src base r -> kind (source (rule r)) = kind src) as Hk.
    { intros raw src base [n Hn]. by apply ruleOf_fields in Hn as (_ & _ & _ & -> & _). }
    destruct Hr as [(i & p & _ & Hm)|[(i & p & _ & Hm)|[(f & _ & _ & Hm)|(Hf & _)]]]; [..|congruence];
      cbn; by rewrite (Hk _ _ _ Hm).
  - destruct (call_verdicts w Hcall) as (verdicts & _ & _ & _ & Hi). cbn in Hi. cbn. rewrite Hi.
    rewrite Forall_forall. intros d ([p [r|]] & _ & [= <-])%list_elem_of_omap. cbn. by rewrite Hfb.
Qed.

(** ** Completion *)

Section completion.
Context `{UrlParser} `{Collation} `{ReadOnlyRepository} (w : Process).
Context (snapshot : OptionsSnapshot) (input : EnumerationSnapshot) (start : Z).
#[local] Abbreviation completes := (completes (limits snapshot) start).

(** What the decisions of all paths may take. *)
Definition decisions_cost (rs : list InternalRule) (ps : list jstring) : N :=
  sumN (fun p => 1 + path_cost rs p)%N ps.

Lemma decidePath_completes rs acc p :
  quiet w (limits snapshot) (signal snapshot) start ->
  (Z.of_N (maximumMatchWork (limits snapshot)) <= MAX_SAFE_INTEGER)%Z ->
  completes (decidePath w snapshot input rs acc p) (1 + path_cost rs p).
Proof.
  intros Hq Hs. unfold decidePath. apply completes_bind; [by apply consume_completes|]. intros _.
  rewrite <- (N.add_0_r (path_cost rs p)). apply completes_bind; [by apply excludedBy_completes|].
  intros. apply completes_ret.
Qed.

Lemma completes_liftB {A B} (a : A) (f : A -> budgeted B) c :
  completes (f a) c -> completes (liftB (Ok a) ≫= f) c.
Proof. exact (fun Hc => Hc). Qed.

Lemma completes_mret {A B} (a : A) (f : A -> budgeted B) c :
  completes (f a) c -> completes (mret a ≫= f) c.
Proof. exact (fun Hc => Hc). Qed.

Lemma decisions_complete st :
  quiet w (limits snapshot) (signal snapshot) start ->
  (Z.of_N (maximumMatchWork (limits snapshot)) <= MAX_SAFE_INTEGER)%Z ->
  completes (decided ← foldB (decidePath w snapshot input (rules st)) ([], []) (enumeration_paths input);
             _ ← checkpoint w (limits snapshot) (signal snapshot);
             mret (resultOf snapshot input st decided))
            (decisions_cost (rules st) (enumeration_paths input)).
Proof.
  intros Hq Hs. rewrite <- (N.add_0_r (decisions_cost _ _)). apply completes_bind.
  - apply completes_foldB. intros acc p _. by apply decidePath_completes.
  - intros decided. rewrite <- (N.add_0_l 0). apply completes_bind; [by apply checkpoint_completes|].
    intros. apply completes_ret.
Qed.

Lemma new_WorkBudget_fresh reads :
  quiet w (limits snapshot) (signal snapshot) start -> p_clock w 0 = Now start ->
  exists b, new_WorkBudget w (limits snapshot) (signal snapshot) reads = Ok (b, tt) /\
    fresh_budget (limits snapshot) start b /\ work b = 0%N.
Proof.
  intros Hq Hstart. unfold new_WorkBudget, readClock. rewrite Hstart. cbn [mbind res_mbind].
  match goal with |- context [checkpoint _ _ _ ?b0] =>
    destruct (checkpoint_completes w (limits snapshot) (signal snapshot) start Hq b0) as (b & [] & E & Hb & Hw) end.
  - split; [done|]. cbn. unfold within_deadline. lia.
  - cbn. lia.
  - exists b. split; [done|]. split; [done|]. cbn in Hw. lia.
Qed.
End completion.

(** C38. A call over a tracked enumeration returns: once its input is accepted and
    its policy rules compiled, a quiet signal, a clock within the deadline and a
    budget of work for [decisions_cost] (linear in the size of the rules and
    quadratic in each path) are enough. *)
Theorem tracked_call_returns `{UrlParser} `{Collation} `{ReadOnlyRepository} (w : Process)
    (enumeration options : value) (snapshot : OptionsSnapshot) (input : EnumerationSnapshot)
    (policy : Collected) (start : Z)
    (Hoptions : snapshotOptions w options = Ok snapshot)
    (Hinput : snapshotEnumeration w enumeration (limits snapshot) = Ok input)
    (Htracked : fallback input = false)
    (Hpolicy : policyRules snapshot (initialProblems snapshot input) = Ok policy)
    (Hquiet : quiet w (limits snapshot) (signal snapshot) start) (Hstart : p_clock w 0 = Now start)
    (Hwork : (decisions_cost (rules policy) (enumeration_paths input)
              <= maximumMatchWork (limits snapshot))%N) :
  exists result, applyIgnoreRulesWithClock w enumeration options = Ok result.
Proof.
  assert (Z.of_N (maximumMatchWork (limits snapshot)) <= MAX_SAFE_INTEGER)%Z as Hsafe.
  { apply snapshotOptions_limits in Hoptions. unfold within_hard, LIMIT_KEYS in Hoptions.
    repeat (apply Forall_cons in Hoptions as [? Hoptions]). cbn in *. unfold MAX_SAFE_INTEGER. lia. }
  destruct (new_WorkBudget_fresh w snapshot start (signalReads snapshot)) as (b & Eb & Hfresh & Hb); [done..|].
  assert (completes (limits snapshot) start (decideAll w snapshot input)
            (decisions_cost (rules policy) (enumeration_paths input))) as Hc.
  { unfold decideAll, repositoryRules. rewrite Hpolicy, Htracked.
    apply completes_liftB, completes_mret. by apply decisions_complete. }
  destruct (Hc b) as (b' & result & E & _); [done|lia|]. exists result.
  unfold applyIgnoreRulesWithClock. rewrite Hoptions. cbn [mbind res_mbind]. rewrite Hinput. cbn [mbind res_mbind].
  rewrite Eb. cbn [mbind res_mbind]. by rewrite E.
Qed.

(** ** Examples *)

Module DecisionsExample.
Import IgnoreExample.

Lemma apply_decides_witness :
  exists result, fallback_result = Ok result /\
  exists snapshot input rs (verdicts : list (jstring * option InternalRule)),
    snapshotOptions example_process example_options = Ok snapshot /\
    snapshotEnumeration example_process fallback_enumeration (limits snapshot) = Ok input /\
    result_rules result = map rule rs /\ rules_wf rs /\ Forall (provenance snapshot input) rs /\
    map fst verdicts = enumeration_paths input /\
    Forall (fun d => exclusion_ok rs (prefixes d.1 true) d.2) verdicts /\
    paths result = omap (fun d => match d.2 with None => Some d.1 | Some _ => None end) verdicts /\
    ignored result = omap (fun d => decision input d.1 <$> d.2) verdicts.
Proof.
  destruct fallback_returns as (result & E & _). exists result. split; [exact E|]. exact (apply_decides example_process _ _ result E).
Defined.

(** The ignore file says [!dist/]; the file below dist stays ignored. *)
Lemma built_in_content_ignored_witness :
  exists result, fallback_result = Ok result /\ #"dist/a.js" ∉ paths result.
Proof.
  destruct fallback_returns as (result & E & _). exists result. split; [exact E|].
  apply (built_in_content_ignored example_process _ _ result [ #"dist"] _ E).
  - apply list_elem_of_lookup_2 with 16. by vm_compute.
  - exists [], [ #"a.js"]. by repeat split.
Defined.

Lemma tracked_ignores_repository_witness :
  exists result,
    tracked_result = Ok result /\
    @applyIgnoreRulesWithClock _ _ gone_repository example_process tracked_enumeration example_options = Ok result.
Proof.
  destruct tracked_returns as (result & E & Hok). exists result. split; [exact E|].
  exact (proj1 (tracked_ignores_repository example_repository gone_repository example_process _ _ result E Hok)).
Defined.

(** The clock and the signal of the example stay quiet for ever. *)
Definition quiet_process : Process :=
  {| p_heap := fun _ => None; p_signal := fun _ _ => false; p_clock := fun _ => Now 7 |}.

Definition enough_work (snapshot : OptionsSnapshot) (input : EnumerationSnapshot) (policy : Collected) : bool :=
  negb (fallback input) && match signal snapshot with None => true | Some _ => false end
  && (decisions_cost (rules policy) (enumeration_paths input) <=? maximumMatchWork (limits snapshot))%N.

Lemma enough_work_ok :
  match snapshotOptions quiet_process example_options with
  | Ok snapshot =>
      match snapshotEnumeration quiet_process tracked_enumeration (limits snapshot) with
      | Ok input =>
          match policyRules snapshot (initialProblems snapshot input) with
          | Ok policy => enough_work snapshot input policy
          | Err _ => false
          end
      | Err _ => false
      end
  | Err _ => false
  end = true.
Proof. vm_compute. reflexivity. Qed.

Lemma tracked_call_returns_witness :
  exists result, applyIgnoreRulesWithClock quiet_process tracked_enumeration example_options = Ok result.
Proof.
  pose proof enough_work_ok as Hok.
  destruct (snapshotOptions quiet_process example_options) as [snapshot|e] eqn:Es; [|discriminate Hok].
  destruct (snapshotEnumeration quiet_process tracked_enumeration (limits snapshot)) as [input|e] eqn:Ei;
    [|discriminate Hok].
  destruct (policyRules snapshot (initialProblems snapshot input)) as [policy|e] eqn:Ep; [|discriminate Hok].
  apply andb_true_iff in Hok as [[Hf Hs]%andb_true_iff Hw]. apply negb_true_iff in Hf. apply N.leb_le in Hw.
  refine (tracked_call_returns quiet_process tracked_enumeration example_options snapshot input policy 7
            Es Ei Hf Ep _ eq_refl Hw).
  constructor.
  - intros s n E. rewrite E in Hs. discriminate Hs.
  - intros n. exists 7%Z. split; [reflexivity|]. unfold within_deadline. lia.
Defined.
End DecisionsExample.
