(* ===== verification/IgnoreErrors.v ===== *)
(** The failures of the ignore engine: which errors a call may throw, and that
    the patterns callers supply always compile. *)
From S2P Require Import Prelude JsString OrderedMap Unicode RepositoryPath ObjectGraph IgnorePattern IgnoreMatch IgnoreOptions IgnoreEngine IgnoreMatchLaws IgnoreEngineLaws.

(** ** Failures of code that may throw *)

Definition fails_with {X A} (E : X -> Prop) (m : res X A) : Prop := forall e, m = Err e -> E e.
Definition fails_budgeted {A} (E : IgnoreFailure -> Prop) (m : budgeted A) : Prop := forall b, fails_with E (m b).

Definition engine_error (e : IgnoreFailure) : Prop := match e with EngineError _ => True | _ => False end.

Section fails.
Context {X : Type} (E : X -> Prop).

Lemma fails_Ok {A} (a : A) : fails_with E (Ok a).
Proof. done. Qed.
Lemma fails_Err {A} e : E e -> fails_with (A := A) E (Err e).
Proof. by intros He e' [= <-]. Qed.
Lemma fails_bind {A B} (m : res X A) (f : A -> res X B) :
  fails_with E m -> (forall a, m = Ok a -> fails_with E (f a)) -> fails_with E (m ≫= f).
Proof. intros Hm Hf e. destruct m as [a|e']; cbn; [by apply Hf|]. intros [= ->]. by apply Hm. Qed.
Lemma fails_ensure b e : E e -> fails_with E (ensure b e).
Proof. destruct b; [done|apply fails_Err]. Qed.
Lemma fails_foldM {A B} (f : A -> B -> res X A) l : forall acc,
  (forall a x, x ∈ l -> fails_with E (f a x)) -> fails_with E (foldM f acc l).
Proof.
  induction l as [|x l IH]; intros acc H; [done|]. cbn. apply fails_bind; [apply H; set_solver|].
  intros. apply IH. intros. apply H. set_solver.
Qed.
Lemma fails_rmapM {A B} (f : A -> res X B) l :
  (forall x, x ∈ l -> fails_with E (f x)) -> fails_with E (rmapM f l).
Proof.
  induction l as [|x l IH]; intros H; [done|]. cbn. apply fails_bind; [apply H; set_solver|]. intros.
  apply fails_bind; [apply IH; intros; apply H; set_solver|done].
Qed.
End fails.

Create HintDb fails discriminated.

(** The shape of the code decides: known operations, binds, guards, loops and
    case analyses. *)
Ltac fails :=
  repeat first
    [ solve [auto with fails nocore] | apply fails_Ok | apply fails_ensure; exact I | apply fails_Err; exact I
    | assumption
    | apply fails_bind; [|intros ? ?] | apply fails_foldM; intros ? ? ? | apply fails_rmapM; intros ? ?
    | progress cbv beta iota
    | match goal with |- fails_with _ (match ?x with _ => _ end) => destruct x eqn:? end ].

(** ** The boundary throws the errors of the engine *)

#[local] Abbreviation own := (fails_with engine_error).

Lemma plainDataValues_fails h v keys code : own (plainDataValues h v keys code).
Proof. unfold plainDataValues, data_field. fails. Qed.
Lemma snapshotArray_fails h v m code : own (snapshotArray h v m code).
Proof. unfold snapshotArray. fails. Qed.
Lemma text_fails v : own (text v).
Proof. unfold text. fails. Qed.
Lemma named_fails {A} (f : jstring -> option A) v : own (named f v).
Proof. unfold named, text. fails. Qed.
Lemma nullable_fails v : own (nullable v).
Proof. unfold nullable. fails. Qed.
Lemma limit_value_fails v m : own (limit_value v m).
Proof. unfold limit_value. fails. Qed.
Lemma canonicalText_fails s : own (canonicalText s).
Proof. unfold canonicalText. fails. Qed.
Lemma safePatternText_fails s lim : own (safePatternText s lim).
Proof. unfold safePatternText. fails. Qed.

#[local] Hint Resolve plainDataValues_fails snapshotArray_fails text_fails named_fails nullable_fails
  limit_value_fails canonicalText_fails safePatternText_fails : fails.

Section boundary.
Context `{UrlParser}.

Lemma snapshotProfileFact_fails h v lim : own (snapshotProfileFact h v lim).
Proof. unfold snapshotProfileFact. fails. Qed.
#[local] Hint Resolve snapshotProfileFact_fails : fails.

Lemma snapshotOptions_fails w v : own (snapshotOptions w v).
Proof.
  unfold snapshotOptions, optionalArray, selectLimit, configurationPattern, admitFact, optionSignal.
  destruct v; fails.
Qed.
End boundary.

Lemma snapshotEnumeration_fails w v lim : own (snapshotEnumeration w v lim).
Proof. unfold snapshotEnumeration, enumeratedPath, omitted_count, enumeratedProblem. fails. Qed.

Lemma consumePatternBytes_fails lim st n : own (consumePatternBytes lim st n).
Proof. unfold consumePatternBytes. fails. Qed.
#[local] Hint Resolve consumePatternBytes_fails : fails.

Lemma addRule_fails lim st raw src base cb : own (addRule lim st raw src base cb).
Proof. unfold addRule, makeRule. fails. Qed.
#[local] Hint Resolve addRule_fails : fails.

Lemma policyRules_fails snapshot st : own (policyRules snapshot st).
Proof. unfold policyRules, addListed, addFact. fails. Qed.

Lemma decodeIgnoreFile_fails bytes : own (decodeIgnoreFile bytes).
Proof. unfold decodeIgnoreFile. fails. Qed.
#[local] Hint Resolve decodeIgnoreFile_fails : fails.

Lemma addBytes_fails lim st p base bytes : own (addBytes lim st p base bytes).
Proof. unfold addBytes, addText, addLine. fails. Qed.

(** ** The matcher throws the errors of the engine *)

Section budgeted.
Context (E : IgnoreFailure -> Prop).

Lemma failsB_ret {A} (a : A) : fails_budgeted E (mret a).
Proof. by intros b e [=]. Qed.
Lemma failsB_bind {A B} (m : budgeted A) (f : A -> budgeted B) :
  fails_budgeted E m -> (forall a, fails_budgeted E (f a)) -> fails_budgeted E (m ≫= f).
Proof.
  intros Hm Hf b e. unfold mbind, budgeted_mbind. destruct (m b) as [[b' a]|e'] eqn:Em; [apply Hf|].
  intros [= ->]. by apply (Hm b).
Qed.
Lemma failsB_foldB {A B} (f : A -> B -> budgeted A) l : forall acc,
  (forall a x, x ∈ l -> fails_budgeted E (f a x)) -> fails_budgeted E (foldB f acc l).
Proof.
  induction l as [|x l IH]; intros acc H; [apply failsB_ret|]. cbn. apply failsB_bind; [apply H; set_solver|].
  intros. apply IH. intros. apply H. set_solver.
Qed.
Lemma failsB_liftB {A} (m : engine A) : fails_with E m -> fails_budgeted E (liftB m).
Proof. intros Hm b e. unfold liftB. destruct m; [done|]. intros [= ->]. by apply Hm. Qed.
Lemma failsB_weaken {A} (m : budgeted A) (E' : IgnoreFailure -> Prop) :
  (forall e, E e -> E' e) -> fails_budgeted E m -> fails_budgeted E' m.
Proof. intros HE Hm b e He. by eapply HE, Hm. Qed.
End budgeted.

Ltac failsB :=
  repeat first
    [ solve [auto with fails nocore] | apply failsB_ret | apply failsB_bind; [|intros ?]
    | apply failsB_foldB; intros ? ? ? | apply failsB_liftB
    | match goal with |- fails_budgeted _ (match ?x with _ => _ end) => destruct x eqn:? end ].

#[local] Abbreviation ownB := (fails_budgeted engine_error).

Section matcher.
Context (w : Process) (lim : IgnoreEngineLimits) (signal : option value).

Lemma checkpoint_fails : ownB (checkpoint w lim signal).
Proof. intros b. unfold checkpoint, readClock. fails. Qed.
Lemma consume_fails n : ownB (consume w lim signal n).
Proof. intros b. unfold consume. fails. apply checkpoint_fails. Qed.
#[local] Hint Resolve checkpoint_fails consume_fails : fails.

Lemma new_WorkBudget_fails n : own (new_WorkBudget w lim signal n).
Proof. unfold new_WorkBudget, readClock. fails. Qed.

Lemma nextRow_fails {A} wild (test : A -> budgeted bool) items previous :
  (forall x, ownB (test x)) -> ownB (nextRow w lim signal wild test items previous).
Proof.
  intros Ht. assert (forall prior p n, ownB (rowCells w lim signal wild test p n items prior)) as Hc.
  { induction items as [|x items IH]; intros [|q prior] p n; cbn; failsB. }
  unfold nextRow. failsB.
Qed.

Lemma componentMatches_fails tokens value : ownB (componentMatches w lim signal tokens value).
Proof. unfold componentMatches. failsB. all: apply nextRow_fails; intros; failsB. Qed.
#[local] Hint Resolve componentMatches_fails : fails.

Lemma compiledMatches_fails pattern value : ownB (compiledMatches w lim signal pattern value).
Proof. unfold compiledMatches. failsB. all: apply nextRow_fails; intros; unfold takesComponent; failsB. Qed.
#[local] Hint Resolve compiledMatches_fails : fails.

Lemma matchingRule_fails p directory rs : ownB (matchingRule w lim signal p directory rs).
Proof. unfold matchingRule, ruleMatches. failsB. Qed.
#[local] Hint Resolve matchingRule_fails : fails.

Lemma excludedBy_fails p is_file rs : ownB (excludedBy w lim signal p is_file rs).
Proof.
  assert (forall ds, ownB (excludedDirectory w lim signal ds rs)) as Hd.
  { induction ds as [|d ds IH]; cbn [excludedDirectory]; failsB. }
  unfold excludedBy. failsB.
Qed.
End matcher.
#[local] Hint Resolve checkpoint_fails consume_fails excludedBy_fails : fails.

(** ** The directory of an ignore file *)

Lemma join_take_prefix c l d : exists r, join c l = join c (take d l) ++ r.
Proof.
  revert d. induction l as [|x l IH]; intros d.
  { rewrite take_nil. by exists []. }
  destruct d as [|d]; [by eexists|]. destruct (IH d) as [r Hr]. cbn [take].
  destruct l as [|y l]; [rewrite take_nil; exists []; by rewrite app_nil_r|].
  change (join c (x :: y :: l)) with (x ++ c :: join c (y :: l)). rewrite Hr.
  destruct d as [|d]; [by eexists|]. exists r. cbn [take].
  change (join c (x :: y :: take d l)) with (x ++ c :: join c (y :: take d l)). by rewrite <- app_assoc.
Qed.

Lemma drive_prefix_app a r : drive_prefix a = true -> drive_prefix (a ++ r) = true.
Proof. by destruct a as [|? [|? ?]]. Qed.

Lemma baseOfIgnoreFile_Ok p : isRepositoryRelativePath p = true -> is_ok (baseOfIgnoreFile p) = true.
Proof.
  intros (Hc & Hd & Hp)%canonical_path_iff. unfold baseOfIgnoreFile, before_last_slash, canonical_or_throw.
  destruct Hp as [->|(segs & Hne & Hg & ->)]; [done|]. rewrite split_on_good by done.
  destruct segs as [|x [|y segs]]; [done..|]. set (l := x :: y :: segs) in *.
  pose proof (canonicalize_join (take (length l - 1) l)) as Hj.
  assert (take (length l - 1) l <> []) as Hne' by (by cbn).
  specialize (Hj Hne' (Forall_take _ _ _ Hg)).
  destruct (join_take_prefix SLASH l (length l - 1)) as [r Hr].
  destruct (drive_prefix (join SLASH (take (length l - 1) l))) eqn:Ed.
  { rewrite Hr, drive_prefix_app in Hd; done. }
  rewrite Hj; [done|]. apply clean_join. apply Forall_take. by apply clean_join_inv.
Qed.

Lemma enumeration_canonical w v lim input p :
  snapshotEnumeration w v lim = Ok input -> p ∈ enumeration_paths input -> isRepositoryRelativePath p = true.
Proof.
  unfold snapshotEnumeration. intros H. res_inv. subst input. cbn [enumeration_paths]. revert p.
  eapply (foldM_inv (fun _ ps => forall p, p ∈ ps -> isRepositoryRelativePath p = true)); [eassumption| |].
  { by intros p ?%not_elem_of_nil. }
  intros _ c ps ps' IH _ Hstep q Hq. unfold enumeratedPath in Hstep.
  destruct c; try done. res_inv. subst ps'. apply elem_of_app in Hq as [Hq| ->%list_elem_of_singleton]; [by apply IH|].
  match goal with Hc : canonicalText _ = Ok _ |- _ => unfold canonicalText in Hc; rename Hc into Hcan end.
  unfold isRepositoryRelativePath. destruct (canonicalizeRepositoryRelativePath s posix) as [c|] eqn:Ec; [|done].
  destruct (jeqb c s) eqn:Ej; [|done]. injection Hcan as ->. apply jeqb_eq in Ej as ->. rewrite Ec. apply jeqb_refl.
Qed.

(** ** A whole call *)

(** What a call may throw: an error of the engine, a fatal error with which the
    repository answered, or the report that a file changed under it. *)
Definition allowed_failure `{ReadOnlyRepository} (e : IgnoreFailure) : Prop :=
  match e with
  | EngineError _ => True
  | RepositoryError code =>
      code = repository_pathChanged \/
      (fatal_code code = true /\ exists p, inspect p = Err (FacadeFailure code) \/ readFile p = Err (FacadeFailure code))
  | PathError _ => False
  end.

Section call_failures.
Context `{UrlParser} `{Collation} `{ReadOnlyRepository} (w : Process).

Lemma own_allowed {A} (m : engine A) : own m -> fails_with allowed_failure m.
Proof. intros Hm e He. by destruct e; [|destruct (Hm _ He)..]. Qed.

Lemma ownB_allowed {A} (m : budgeted A) : ownB m -> fails_budgeted allowed_failure m.
Proof. intros Hm b. by apply own_allowed. Qed.

Lemma repositoryFailure_fails lim st p cause :
  inspect p = Err cause \/ readFile p = Err cause ->
  fails_with allowed_failure (repositoryFailure lim st p cause).
Proof.
  intros Hc. unfold repositoryFailure. destruct cause as [code|]; [|done].
  destruct (fatal_code code) eqn:Ef; [|done]. apply fails_Err. right. split; [done|]. by exists p.
Qed.

Lemma loadIgnoreFile_fails lim st p base : fails_with allowed_failure (loadIgnoreFile lim st p base).
Proof.
  unfold loadIgnoreFile. destruct (inspect p) eqn:Ei; [|apply repositoryFailure_fails; by left].
  destruct (negb _); [done|]. destruct (negb _); [done|].
  apply fails_bind; [by apply fails_ensure|]. intros [] _.
  destruct (readFile p) eqn:Er; [|apply repositoryFailure_fails; by right].
  apply fails_bind; [apply fails_ensure; by left|]. intros [] _. apply own_allowed, addBytes_fails.
Qed.

Lemma visitIgnoreFile_fails snapshot st p :
  isRepositoryRelativePath p = true -> fails_budgeted allowed_failure (visitIgnoreFile w snapshot st p).
Proof.
  intros Hp. unfold visitIgnoreFile. apply failsB_bind; [apply ownB_allowed; auto with fails|]. intros _.
  apply failsB_bind.
  { apply failsB_liftB. intros e He. apply baseOfIgnoreFile_Ok in Hp. by rewrite He in Hp. }
  intros base. apply failsB_bind; [apply ownB_allowed; failsB|].
  intros [found|]; [apply failsB_ret|]. apply failsB_liftB, loadIgnoreFile_fails.
Qed.

Lemma repositoryRules_fails snapshot input st :
  (forall p, p ∈ enumeration_paths input -> isRepositoryRelativePath p = true) ->
  fails_budgeted allowed_failure (repositoryRules w snapshot input st).
Proof.
  intros Hp. unfold repositoryRules. destruct (fallback input); [|apply failsB_ret].
  apply failsB_bind; [apply failsB_liftB, fails_ensure; done|]. intros _. apply failsB_foldB.
  intros a p [Hin _]%ignoreFilesOf_elem. apply visitIgnoreFile_fails. auto.
Qed.
End call_failures.

(** C33. A failing call throws an error of the engine, a fatal error with which
    the repository answered for some path, or the report that an ignore file
    changed between its inspection and its reading; the other errors of the
    repository become problems, and no path error escapes. *)
Theorem apply_failures `{UrlParser} `{Collation} `{ReadOnlyRepository} (w : Process)
    (enumeration options : value) (e : IgnoreFailure)
    (Hrun : applyIgnoreRulesWithClock w enumeration options = Err e) :
  allowed_failure e.
Proof.
  revert e Hrun. change (fails_with allowed_failure (applyIgnoreRulesWithClock w enumeration options)).
  unfold applyIgnoreRulesWithClock.
  apply fails_bind; [apply own_allowed, snapshotOptions_fails|]. intros snapshot _.
  apply fails_bind; [apply own_allowed, snapshotEnumeration_fails|]. intros input Hi.
  apply fails_bind; [apply own_allowed, new_WorkBudget_fails|]. intros [b []] _.
  apply fails_bind; [|intros [? ?] _; apply fails_Ok]. revert b.
  change (fails_budgeted allowed_failure (decideAll w snapshot input)). unfold decideAll.
  apply failsB_bind; [apply failsB_liftB, own_allowed, policyRules_fails|]. intros policy.
  apply failsB_bind; [apply repositoryRules_fails; intros; by eapply enumeration_canonical|]. intros st.
  apply ownB_allowed. unfold decidePath. failsB.
Qed.

(** ** Supplied patterns *)

Lemma compileRawComponent_some b c :
  is_Some (compileRawComponent b c) <-> is_Some (compileComponent c).
Proof.
  unfold compileRawComponent. destruct (b && jeqb c _) eqn:E.
  - apply andb_true_iff in E as [_ ->%jeqb_eq]. split; intros; [by eexists|by eexists].
  - by rewrite fmap_is_Some.
Qed.

Lemma compilePattern_some v b b' : is_Some (compilePattern v b) -> is_Some (compilePattern v b').
Proof.
  unfold compilePattern. destruct (patternComponents v) as [raw|]; cbn; [|by intros [? ?]].
  intros [c Hc]. apply bind_Some in Hc as (cs & Hcs & _).
  assert (is_Some (mapM (compileRawComponent b') raw)) as [cs' ->]; [|by eexists].
  apply mapM_is_Some. assert (is_Some (mapM (compileRawComponent b) raw)) as Hall by by eexists.
  apply mapM_is_Some in Hall. eapply Forall_impl; [exact Hall|]. intros x. cbn.
  by rewrite !compileRawComponent_some.
Qed.

Lemma supplied_valid lim p src base r :
  validSuppliedPattern p lim = true -> made p src base r -> valid (rule r) = true.
Proof.
  unfold validSuppliedPattern. intros Hv [n Hn].
  pose proof (ruleOf_fields _ _ _ _ _ Hn) as (_ & _ & _ & _ & _ & _ & _ & ->).
  unfold ruleOf in Hn. destruct (patternShape _) as [s|]; [|done]. injection Hn as <-. cbn [compiled].
  apply andb_true_iff in Hv as [_ [Hne Hc]%andb_true_iff]. apply negb_true_iff in Hne. rewrite Hne.
  apply bool_decide_eq_true in Hc. apply bool_decide_eq_true. by eapply compilePattern_some.
Qed.

Lemma admitFacts_Ok lim fs : forall ids ids',
  foldM (admitFact lim) ids fs = Ok ids' ->
  Forall (fun f => validSuppliedPattern (fact_pattern f) lim = true) fs /\
  ids' = ids ++ map fact_factId fs /\ (NoDup ids -> NoDup ids').
Proof.
  induction fs as [|f fs IH]; intros ids ids' H; cbn in H.
  { injection H as <-. cbn. rewrite app_nil_r. by repeat split. }
  apply bind_Ok in H as (v & Hv & (Hf & -> & Hn)%IH). unfold admitFact in Hv. res_inv. subst v.
  apply negb_true_iff in Hv1.
  split; [by constructor|]. split; [cbn; by rewrite <- app_assoc|]. intros Hids. apply Hn, NoDup_app.
  split; [done|]. split; [|apply NoDup_singleton]. intros x Hx ->%list_elem_of_singleton.
  assert (existsb (jeqb (fact_factId f)) ids = true) as He; [|congruence].
  apply existsb_elem. exists (fact_factId f). by rewrite jeqb_refl.
Qed.

Lemma configurationPatterns_Ok lim vs ps :
  rmapM (configurationPattern lim) vs = Ok ps -> Forall (fun p => validSuppliedPattern p lim = true) ps.
Proof.
  intros H%rmapM_Ok. induction H as [|v p vs ps Hp H IH]; constructor; [|done].
  unfold configurationPattern in Hp. res_inv. by subst.
Qed.

Section supplied.
Context `{UrlParser} `{Collation} `{ReadOnlyRepository} (w : Process).

(** What the options promise about the patterns in them. *)
Lemma snapshotOptions_supplied v s :
  snapshotOptions w v = Ok s ->
  Forall (fun p => validSuppliedPattern p (limits s) = true) (configurationPatterns s) /\
  Forall (fun f => validSuppliedPattern (fact_pattern f) (limits s) = true) (profileFacts s) /\
  NoDup (map fact_factId (profileFacts s)).
Proof.
  unfold snapshotOptions. intros Hs.
  destruct v; [injection Hs as <-; cbn; repeat split; constructor|..]; res_inv; subst s; cbn;
  (split; [by eapply configurationPatterns_Ok|]);
  match goal with Hf : foldM (admitFact _) _ _ = Ok _ |- _ => apply admitFacts_Ok in Hf as (? & -> & Hn) end;
  (split; [done|apply Hn; constructor]).
Qed.

Lemma provenance_valid snapshot input r :
  Forall (fun p => validSuppliedPattern p (limits snapshot) = true) (configurationPatterns snapshot) ->
  Forall (fun f => validSuppliedPattern (fact_pattern f) (limits snapshot) = true) (profileFacts snapshot) ->
  provenance snapshot input r -> valid (rule r) = false -> fallback input = true /\ kind (source (rule r)) = gitignore.
Proof.
  intros Hp Hf Hr Hv. rewrite Forall_lookup in Hp. rewrite Forall_forall in Hf.
  destruct Hr as [(i & p & Hi & Hm)|[(i & p & Hi & Hm)|[(f & Hin & _ & Hm)|(Hfb & ? & ? & ? & ? & ? & ? & Hm)]]].
  - assert (forallb (fun p => validSuppliedPattern p IGNORE_ENGINE_DEFAULT_LIMITS) BUILT_IN_IGNORE_PATTERNS = true)
      as Hall by (by vm_compute).
    rewrite forallb_elem in Hall. rewrite (supplied_valid _ _ _ _ _ (Hall p ltac:(by eapply list_elem_of_lookup_2)) Hm) in Hv.
    done.
  - rewrite (supplied_valid _ p _ _ _ (Hp _ _ Hi) Hm) in Hv. done.
  - rewrite (supplied_valid _ _ _ _ _ (Hf _ Hin) Hm) in Hv. done.
  - split; [done|]. destruct Hm as (_ & _ & _ & _ & _ & _ & [n Hn]).
    by apply ruleOf_fields in Hn as (_ & _ & _ & -> & _).
Qed.
End supplied.

(** What a result may hold: at most the rules and problems its limits allow,
    limits within the hard ones, facts with distinct identifiers; and a rule
    that never matches can only come from an ignore file, because the patterns
    callers supply are refused when they do not compile. *)
Theorem result_within_limits `{UrlParser} `{Collation} `{ReadOnlyRepository} (w : Process)
    (enumeration options : value) (result : IgnoreEngineResult)
    (Hrun : applyIgnoreRulesWithClock w enumeration options = Ok result) :
  within_hard (result_limits result) /\
  (N.of_nat (length (result_rules result)) <= maximumPatterns (result_limits result))%N /\
  (N.of_nat (length (result_problems result)) <= maximumProblems (result_limits result))%N /\
  NoDup (map fact_factId (result_profileFacts result)) /\
  forall r, r ∈ result_rules result -> valid r = false -> kind (source r) = gitignore /\ tracked result = false.
Proof.
  apply apply_call in Hrun as (snapshot & input & st & decided & Hcall).
  pose proof (call_inv w Hcall) as Hinv. pose proof (call_result _ _ _ _ _ _ _ _ Hcall) as ->. cbn.
  destruct (snapshotOptions_supplied w _ _ (call_options _ _ _ _ _ _ _ _ Hcall)) as (Hp & Hf & Hn).
  split; [by apply (call_hard w Hcall)|]. split; [rewrite length_map; apply (inv_rules _ _ _ Hinv)|].
  split; [rewrite sort_by_length; apply (inv_problems _ _ _ Hinv)|]. split; [done|].
  intros x (r & -> & Hr)%list_elem_of_fmap Hv.
  pose proof (inv_made _ _ _ Hinv) as Hm. rewrite Forall_forall in Hm.
  destruct (provenance_valid snapshot input r Hp Hf (Hm _ Hr) Hv) as [Hfb Hk]. by rewrite Hfb.
Qed.

Module ErrorsExample.
Import IgnoreExample.

Lemma gone_fails :
  is_ok (@applyIgnoreRulesWithClock _ _ gone_repository example_process fallback_enumeration example_options) = false.
Proof. vm_compute. reflexivity. Qed.

(** A repository that reports an abort stops the call with that error. *)
Lemma apply_failures_witness :
  exists e, @applyIgnoreRulesWithClock _ _ gone_repository example_process fallback_enumeration example_options = Err e /\
    @allowed_failure gone_repository e.
Proof.
  pose proof gone_fails as Hok.
  destruct (@applyIgnoreRulesWithClock _ _ gone_repository example_process fallback_enumeration example_options)
    as [result|e] eqn:E; [discriminate Hok|].
  exists e. split; [reflexivity|]. exact (@apply_failures _ _ gone_repository example_process _ _ e E).
Defined.

Lemma result_within_limits_witness :
  exists result, fallback_result = Ok result /\ length (result_rules result) = 26 /\
    (N.of_nat (length (result_rules result)) <= maximumPatterns (result_limits result))%N.
Proof.
  destruct fallback_returns as (result & E & Hlen). exists result. split; [exact E|]. split; [exact Hlen|].
  exact (proj1 (proj2 (result_within_limits example_process _ _ result E))).
Defined.
End ErrorsExample.
